(* ===== verification/_CoqProject ===== *)
-Q . S2P
Prelude.v
PqcWitness.v
OrdSet.v
TipSet.v
Arith256.v
Limbs.v
Serialize.v
BlockHeader.v
Formats.v
Ghostdag.v
Mergeset.v
BlockIndex.v
BlockIndexProvider.v
GhostdagProps.v
Topo.v
Pow.v
Subsidy.v
Transaction.v
Script.v
Merkle.v
PartialMerkle.v
EarlyProtection.v
Chainman.v
Accept.v
BlockCheck.v
BlockCheckProps.v
TxOutProof.v
Coins.v
CoinsDB.v
Connect.v
ConnectSim.v
ConnectProps.v
Replay.v
ConnectTotal.v
HeadersSync.v
Candidates.v
AcceptProps.v
HeadersSyncProps.v
Activation.v
ActivationProps.v
Linking.v
Guards.v
Chainstate.v
ChainstateProps.v
Process.v
ProcessProps.v
ProcessExample.v
Operator.v
OperatorProps.v
Reconsider.v
OperatorExample.v
Htlc.v
Deploy.v
