(* ===== verification/Prelude.v ===== *)
(** * QuantumBTC: a verification development

    QuantumBTC is a fork of Bitcoin Core whose blocks may name several parents (a block
    DAG ordered by GHOSTDAG), whose inputs may carry post-quantum signatures, and whose
    coins can be swapped against an ERC-20 token through a hash time lock.  This library
    models the parts of the program that are new or that they rest on, and proves what
    makes them correct.

    ** The program and its parts

    A block header arrives from the network and is decoded (primitives/block.h over
    serialize.h); while the node is behind, headers first pass a download in two phases
    that holds back chains of little work (headerssync.cpp).  AcceptBlockHeader
    (validation.cpp) checks its proof of work against the difficulty the chain asks for
    (pow.cpp over arith_uint256.cpp), its time and its parents, and makes it an entry of
    the block index (chain.cpp, node/blockstorage.cpp).  When the block follows,
    AcceptBlock resolves its parents and GHOSTDAG (dag/ghostdag.cpp) computes its selected
    parent, its mergeset, the colours of the mergeset and its blue score, asking the block
    index through a provider (dag/ghostdag_blockindex.h); the tip set (dag/dagtipset.cpp)
    is updated and serves the parents of the next block mined.  ReceivedBlockTransactions
    makes the block, and the blocks that waited for it, candidates for the tip, ordered by
    a comparator weighted by early protection (node/blockstorage.cpp, earlyprotection.h),
    and FindMostWorkChain chooses among them; ActivateBestChain disconnects and connects
    blocks until the chosen one is the tip, marks blocks that turn out invalid and chooses
    again, and has the state written to disk.  ProcessNewBlock runs all of this for a block
    that arrives; an operator can declare blocks invalid, reconsider them or prefer one
    (InvalidateBlock, ResetBlockFailureFlags, PreciousBlock).  Before a block is stored its
    contents are checked (CheckBlock and ContextualCheckBlock of validation.cpp over primitives/
    transaction.h, script/script.cpp, consensus/merkle.cpp and consensus/tx_check.cpp).
    ConnectBlock checks the amounts, lock times and scripts of its inputs
    (consensus/tx_verify.cpp, script/interpreter.cpp, consensus/pqc_validation.cpp) and its
    coinbase (GetBlockSubsidy), spends and adds coins in a cache (coins.cpp) over a database
    (txdb.cpp) and writes the undo data that DisconnectBlock reads; ReplayBlocks repairs the
    database after a crash.  Wallets without the chain ask for proofs that a transaction is
    in a block (merkleblock.cpp).  The swap contract and its deployment script are
    under contrib/evm-htlc.  Paths below are relative to src/src unless they start with
    contrib.

    ** Files

    - [Prelude]: machine integers as [Z] with explicit wrap-around ([wrap], [swrap]),
      checked division, bit lemmas, tactics and the hint database.
    - [OrdSet]: std::set as strictly sorted lists, for every
      comparator of class [StrictTotal].
    - [TipSet]: dag/dagtipset.{h,cpp}; class DagTipSet is a record, each method one
      function on it, the public interface a step relation.
    - [Arith256]: arith_uint256.{h,cpp} and GetBlockProof of chain.cpp, on values.
    - [Limbs]: the same routines as loops over 32-bit limbs, with carries and borrows, and
      the refinement of the values by the limbs.
    - [Serialize], [BlockHeader], [Formats]: serialize.h and primitives/block.{h,cpp}; a
      format is a record [codec] with the law that reading undoes writing, [Canonical]
      when what is read determines the bytes.
    - [Transaction]: primitives/transaction.{h,cpp} and consensus/tx_check.cpp.
    - [Script]: scripts as data, script/script.{h,cpp}: numbers, pushes, decoding, signature
      operations, patterns; IsFinalTx.
    - [Merkle], [PartialMerkle], [TxOutProof]: consensus/merkle.cpp, merkleblock.{h,cpp} and
      the two remote calls of rpc/txoutproof.cpp.
    - [BlockCheck], [BlockCheckProps]: CheckBlock, ContextualCheckBlock, the Merkle roots and
      the witness commitment, and AcceptBlock with them.
    - [Coins]: coins.{h,cpp}; the view below a cache is a type class [CCoinsView] with laws
      [CoinsViewOk], a cache is again a view, and the coins as the rest of the node sees
      them a class [CoinOps], with a plain map as its abstract instance.
    - [CoinsDB]: txdb.cpp; the store, the batches of a flush, the states a crash leaves.
    - [Connect]: ConnectBlock and DisconnectBlock in a state and error monad over [CoinOps];
      [ConnectSim] shows that they do on a cache what they do on a map, [ConnectProps] what
      they do.
    - [ConnectTotal]: connecting a block on the coins of its parent fails no assertion.
    - [Replay]: ReplayBlocks and what it makes of the store after a crash.
    - [Ghostdag]: the definitions of dag/ghostdag.{h,cpp}, over the type class
      [IGhostdagBlockProvider] of the source's interface; [ProviderOk] and [ScoresOk]
      are what GHOSTDAG relies on of a provider.
    - [Mergeset]: the breadth-first search of ComputeMergeset, its invariant and measure.
    - [BlockIndex]: CBlockIndex, the skip list and AddToBlockIndex; pointers are hashes.
    - [BlockIndexProvider]: dag/ghostdag_blockindex.h; the instance of the provider and
      the proof that it keeps [ProviderOk].
    - [GhostdagProps]: the theorems on GHOSTDAG, over any provider.
    - [Topo]: TopologicalOrder of dag/ghostdag.cpp (Kahn's algorithm).
    - [Pow]: pow.cpp and the chain parameters it reads.
    - [Subsidy]: GetBlockSubsidy, consensus/amount.h and the coinbase check.
    - [EarlyProtection]: earlyprotection.h on binary64 numbers ([SpecFloat]).
    - [Chainman]: the record [ChainstateManager] (block index, candidates, unlinked
      blocks, active chain, tips), CChain, CBlockIndexWorkComparator,
      TryAddBlockIndexCandidate, PruneBlockIndexCandidates and FindMostWorkChain.
    - [Accept]: AcceptBlockHeader, AcceptBlock, ReceivedBlockTransactions and
      LoadGenesisBlock, stage by stage on that record.
    - [Candidates]: what each stage keeps of the candidates and of the unlinked blocks.
    - [AcceptProps]: the step relation of the node ([cm_step]: headers and blocks arrive,
      candidates are searched and pruned, the rest of the node sets flags and tips), its
      invariant, and what acceptance guarantees.
    - [Activation]: ActivateBestChain, ActivateBestChainStep, ConnectTip, DisconnectTip,
      InvalidBlockFound and InvalidChainFound, over a type class [Ledger] of what they do
      with coins, undo data and the disk; [ActivationProps] has its laws [LedgerOk] and the
      theorem on activation proved against them.
    - [Chainstate]: FlushStateToDisk and what ConnectTip and DisconnectTip do with the caches,
      the instance of the node; [ChainstateProps] discharges the laws.
    - [Linking]: no block that can become the tip is missing from the candidates; [Guards]:
      no assertion of acceptance fails.
    - [Process]: ProcessNewBlock and ProcessNewBlockHeaders; [ProcessProps]: the node that is
      given headers and blocks in any order ([reachable]), its invariant and the theorems on
      it; [ProcessExample]: a concrete run with an invalid branch and a reorganisation.
    - [Operator]: InvalidateBlock, ResetBlockFailureFlags and PreciousBlock; [OperatorProps]:
      what they do to a running node; [Reconsider]: what ResetBlockFailureFlags does to any
      index; [OperatorExample]: runs of them.
    - [HeadersSync], [HeadersSyncProps]: headerssync.{h,cpp} and the block locators of
      chain.cpp; the constants of a sync and its state are two records, each method one
      function, a sync the list of messages a peer sends.
    - [Htlc]: contrib/evm-htlc/contracts/QBTCUSDCHTLC.sol; the token is a type class
      [IERC20] with laws [ERC20Ok], the transactions a step relation.
    - [Deploy]: contrib/evm-htlc/scripts/deploy.js and hardhat.config.js.
    - [PqcWitness]: witness version 0 of VerifyWitnessProgram and the structural check
      of consensus/pqc_validation.cpp; hashes and signature schemes are arguments.

    ** What the theorems show

    - GHOSTDAG computes what the algorithm defines: the selected parent is a function of
      the parent set, the mergeset is exactly past(B) without past(sp), sorted
      topologically; blues and reds partition it and a block is blue exactly when at most
      K of the blues known at its turn are in its anticone, red otherwise; scores grow along parents,
      without overflow; the virtual chain terminates; the topological order is canonical.
      The ancestor test over the block index decides reachability when heights grow.
    - Acceptance: in every reachable state of the node the header of an entry hashes to
      its key, which the header sync relies on, each parent of an entry is an
      entry, the skip list finds every ancestor and the best header is maximal; the
      candidates stay sorted although acceptance changes the fields they are sorted by,
      and have the data of all their ancestors; a new header has passed every check, and
      a new block has the parents it lists (or, when it lists no more, those its entry
      had), carries what GHOSTDAG computes on them and replaces them in the tip set.  The search for the best chain terminates with the best candidate whose
      ancestors are usable.
    - The node as a whole: whatever headers and blocks it is given, in whatever order, its
      tip is the best of all valid blocks that have the data of their ancestors, and its
      coins, read through every cache, are exactly those of the chain to the tip and worth no
      more than the subsidies; activation terminates; no block or header can stop a node in
      DAG mode, which stops only if the machine fails (the disk refuses a write, or does not
      give back what was stored).  A block declared invalid is left with all above it, and
      nothing else is given up; a precious block wins against blocks of the same weight; what
      reconsidering a block does to marks and candidates is stated exactly.
      These theorems are for a network that assumes no block valid, has no exceptions for old
      blocks and always enforces the rule against overwriting ([network_ok]), and for blocks
      that fit the machine: heights below 2^31, chain work below 2^256, no two transactions
      of a block with the same id and different contents.
    - Blocks: serialization round trips; CheckTransaction refuses exactly the malformed
      transactions; a stored block has passed every check of its contents, the header
      commits to them unless two different strings among those that were hashed have the same
      hash, and contents other than the committed ones leave no trace in the node; the flags that remember a check are
      invisible.  A proof of inclusion is accepted only for transactions of the block, and
      every set of them has one.
    - Coins: a cache over any view, flushed, synced and uncached in any order, answers as
      the map it stands for.  A connected block spends coins that exist, once each, mature
      and unlocked, makes no money beyond fees and subsidy, and disconnecting it gives back
      the coins it found.  A flush cut short by a crash anywhere is finished by ReplayBlocks:
      the store is that of the new tip.
    - Header synchronisation: whatever a peer sends, headers are released only from a chain
      that agrees with one of the required work, buried or of that work itself; memory is
      bounded; the chain of an honest peer without merges comes through; locators are sound
      and short.
    - Tip set: both views agree as long as no block is connected that is a tip with another
      score, and only then; disconnecting undoes connecting; auxiliary theorems show that mining parents are the best tips and that
      memory is bounded.
    - Headers: serialization round trip in both formats; the hash commits to the whole
      set of parents, unless two different strings that were hashed have the same hash.
    - Difficulty: the limb routines compute 256-bit arithmetic (shifts, products and long
      division included), the compact encoding rounds soundly, the per-block retarget is
      total and bounded, the classical retarget is permitted.
    - Early protection: in spite of the rounding of doubles a block is throttled exactly
      when its subnet holds more than a quarter of the window, and weights are in (0, 1].
    - Money: what a chain can issue is bounded for all parameters.
    - Witnesses: four elements spend a hybrid address exactly with both signatures; what the
      hybrid flag accepts is stated exactly.
    - Swap contract: solvent, every lock can be settled and only once.
    - Deployment: at most one, of the resolved token, confirmed on the main network, and one
      if the script runs to its end.

    Some theorems show where the code does not do what it says: a redundant parent
    inflates score and work, a blue anticone exceeds K, the ancestor search misses a
    tall parent, block work is truncated to 64 bits, blue work ignores the chain itself,
    headers of blocks with extra parents do not survive the compression of the header sync,
    scores depend on the order in which block bodies arrive, the extra parents of a mined
    block can be replaced by the body that delivers it, all blocks that InvalidateBlock
    disconnects are marked as failing themselves, reconsidering a block clears the marks of
    its ancestors but never makes one a candidate, the header check refuses the
    per-block difficulty, the main network's subsidy breaks the supply cap, the hybrid
    flag is bypassed by three-element witnesses and refuses legacy addresses to witnesses
    with both signatures, the precheck refuses four-element script spends, and the
    deployment script exits with 0 when its prompt is abandoned.

    ** Modelling conventions, bounds and fuel

    A uint256 hash is the integer of its storage bytes read big-endian, so memcmp is the
    order of [Z].  Unsigned arithmetic is reduced where the code computes it.  Null
    pointers, failed assertions, exceptions and rejections are [None] or a constructor of
    a sum.  The addresses of entries, which break ties between candidates, are an
    injective function of the hash.  Loops the code bounds recurse on that bound.  The
    mergeset search, the virtual-chain walk and the topological order take fuel, with an
    outer [None] when it runs out; the theorems state that the number of known blocks (of
    blocks to order) is enough.  The ancestor search, the skip-list walk, the walks over
    the active chain (height plus one), the linking of waiting blocks (one more than there
    are), the search for the best chain (the number of candidates) and the locator
    (height plus one) compute their fuel, and lemmas show it is never short.  Merkle levels
    take the number of leaves, walks over a script its length, the height of a partial tree
    32, the search for an output by its transaction MAX_OUTPUTS_PER_BLOCK as in the code, the
    walk to a common ancestor and the roll back a height plus one.  The loops of
    ActivateBestChain take fuel too, and [(size + 1) * (size + 2)] rounds for an index of [size]
    blocks are proved to be enough: a round connects a block, or marks one as failed and
    starts again; the walks inside a round take heights, and running out of them is a failed
    assertion that is proved not to happen.  Long
    division takes the shift plus one, and square-root loops 32 iterations, which 64-bit
    inputs never exceed.  Logging, locks and statistics are left out.

    ** Not modelled

    The cryptographic primitives, the script machine and the token contract are arguments;
    OpenZeppelin's reentrancy guard is modelled by its documented flag.  Of
    validation.cpp, the presync test on work, the position in block files, the state of the
    post-quantum deployment (versionbits.cpp) and the caches of script results are arguments
    or left out, and snapshots, pruning of block files, mempool acceptance, the signals to
    other parts and the request to shut down are left out.  Text and
    floating-point conversions of arith_uint256, compressed formats, mempool, mining
    templates, wallet, RPC other than the proofs and the three commands above, network, indexes and widgets are not
    modelled; the translation catalogues (Qt XML files with the extension .ts) are data.

    ** Plan

    Next: a restart of the node (LoadBlockIndex, LoadChainTip) between [ReplayBlocks] and
    [reachable]; the operator's commands as steps of [reachable]; the parents that mining
    templates take from the tip set (node/miner.cpp). *)

From stdpp Require Export base list gmap numbers sorting.
From Stdlib Require Export ZArith Lia Bool.

(** * Machine integers *)

Declare Scope qbtc_scope.
Delimit Scope qbtc_scope with qbtc.
Open Scope Z_scope.

(** Unsigned machine arithmetic: a [w]-bit unsigned integer is a [Z] and every
    operation that may leave the range is followed by the reduction. *)
Definition wrap (w : Z) (x : Z) : Z := x mod 2 ^ w.

Abbreviation u32 := (wrap 32).
Abbreviation u64 := (wrap 64).
Notation "x +64 y" := (wrap 64 (x + y)) (at level 50, left associativity) : qbtc_scope.
Notation "x *64 y" := (wrap 64 (x * y)) (at level 40, left associativity) : qbtc_scope.
Notation "x -64 y" := (wrap 64 (x - y)) (at level 50, left associativity) : qbtc_scope.

(** [x] is a value of an unsigned [w]-bit type. *)
Definition fits (w x : Z) : Prop := 0 <= x < 2 ^ w.

#[export] Instance fits_dec w x : Decision (fits w x).
Proof. unfold fits. apply _. Defined.

(** Two's-complement reading of the low [w] bits: the conversion to a signed type. *)
Definition swrap (w x : Z) : Z := (x + 2 ^ (w - 1)) mod 2 ^ w - 2 ^ (w - 1).

Abbreviation s32 := (swrap 32).
Abbreviation s64 := (swrap 64).

(** Unsigned division; dividing by zero is an error of the program. *)
Definition udiv (a b : Z) : option Z := if b =? 0 then None else Some (a / b).

Create HintDb qbtc discriminated.

Lemma wrap_small w x : fits w x → wrap w x = x.
Proof. intros H. apply Z.mod_small, H. Qed.

Lemma wrap_wrap_small w w' x : fits w x → fits w' x → wrap w (wrap w' x) = x.
Proof. intros H H'. by rewrite (wrap_small w' x), wrap_small. Qed.

Lemma wrap_fits w x : 0 <= w → fits w (wrap w x).
Proof. intros Hw. apply Z.mod_pos_bound. apply Z.pow_pos_nonneg; lia. Qed.

Lemma wrap_le w x : 0 <= x → wrap w x <= x.
Proof.
  intros Hx. unfold wrap. destruct (decide (0 < 2 ^ w)).
  - apply Z.mod_le; lia.
  - assert (2 ^ w = 0) as -> by (pose proof (Z.pow_nonneg 2 w); lia).
    rewrite Z.mod_0_r. lia.
Qed.

Lemma swrap_small w x : 0 < w → - 2 ^ (w - 1) <= x < 2 ^ (w - 1) → swrap w x = x.
Proof.
  intros Hw Hx. unfold swrap.
  assert (2 ^ w = 2 * 2 ^ (w - 1)).
  { replace w with (1 + (w - 1)) at 1 by lia. rewrite Z.pow_add_r; lia. }
  rewrite Z.mod_small; lia.
Qed.

(** Converting to unsigned and back to signed. *)
Lemma swrap_wrap w x : 0 < w → - 2 ^ (w - 1) <= x < 2 ^ (w - 1) → swrap w (wrap w x) = x.
Proof.
  intros Hw Hx. transitivity (swrap w x); [|by apply swrap_small].
  unfold swrap, wrap. by rewrite Zplus_mod_idemp_l.
Qed.

Lemma udiv_pos a b : 0 < b → udiv a b = Some (a / b).
Proof. intros Hb. unfold udiv. by rewrite (proj2 (Z.eqb_neq b 0)) by lia. Qed.

#[export] Hint Resolve wrap_fits : qbtc.

(** * Bit operations *)

Lemma land_pow2 x n : 0 <= n → Z.land x (2 ^ n) = if Z.testbit x n then 2 ^ n else 0.
Proof.
  intros Hn. apply Z.bits_inj'. intros i Hi. rewrite Z.land_spec, Z.pow2_bits_eqb by done.
  destruct (Z.eqb_spec n i) as [<-|Hne].
  - destruct (Z.testbit x n); [by rewrite Z.pow2_bits_true|by rewrite Z.bits_0].
  - rewrite andb_false_r. destruct (Z.testbit x n); [by rewrite Z.pow2_bits_false|by rewrite Z.bits_0].
Qed.

(** The top bit of an [(n+1)]-bit value. *)
Lemma land_top_bit x n :
  0 <= n → 0 <= x < 2 ^ (n + 1) → (Z.land x (2 ^ n) =? 0) = (x <? 2 ^ n).
Proof.
  intros Hn Hx. rewrite land_pow2 by done. rewrite Z.pow_add_r, Z.pow_1_r in Hx by lia.
  pose proof (Z.pow_pos_nonneg 2 n ltac:(lia) Hn).
  destruct (Z.ltb_spec x (2 ^ n)).
  - assert (Z.testbit x n = false) as -> by (apply Z.testbit_false; [done|];
      rewrite Z.div_small by lia; done). done.
  - assert (Z.testbit x n = true) as ->.
    { apply Z.testbit_true; [done|]. rewrite <- (Z.div_unique x (2 ^ n) 1 (x - 2 ^ n)) by lia. done. }
    apply Z.eqb_neq. lia.
Qed.

Lemma lor_disjoint m e n : 0 <= n → 0 <= m < 2 ^ n → Z.lor m (e * 2 ^ n) = m + e * 2 ^ n.
Proof.
  intros Hn Hm. rewrite <- Z.add_lor_land.
  assert (Z.land m (e * 2 ^ n) = 0) as ->; [|lia].
  apply Z.bits_inj'. intros i Hi. rewrite Z.land_spec, Z.bits_0.
  destruct (decide (i < n)).
  - rewrite (Z.mul_pow2_bits_low e) by lia. by rewrite andb_false_r.
  - rewrite <- (Z.mod_small m (2 ^ n)) by lia. by rewrite Z.mod_pow2_bits_high by lia.
Qed.

Lemma land_le_r a b : 0 <= b → Z.land a b <= b.
Proof.
  intros Hb. assert (E : Z.lor (Z.land a b) (Z.ldiff b a) = b).
  { apply Z.bits_inj'. intros i Hi. rewrite Z.lor_spec, Z.land_spec, Z.ldiff_spec.
    destruct (Z.testbit a i), (Z.testbit b i); done. }
  assert (D : Z.land (Z.land a b) (Z.ldiff b a) = 0).
  { apply Z.bits_inj'. intros i Hi. rewrite !Z.land_spec, Z.ldiff_spec, Z.bits_0.
    destruct (Z.testbit a i), (Z.testbit b i); done. }
  pose proof (Z.add_lor_land (Z.land a b) (Z.ldiff b a)) as H. rewrite E, D in H.
  assert (0 <= Z.ldiff b a) by (apply Z.ldiff_nonneg; auto). lia.
Qed.

(** * Tactics *)

(** The parts of a list that is part of another. *)
Ltac split_sub :=
  repeat match goal with
    | H : _ ++ _ ⊆ _ |- _ => apply list_subseteq_app_iff_l in H as [??]
    | H : _ :: _ ⊆ _ |- _ => apply list_subseteq_cons_iff in H as [??]
    end.

(** Reflect the boolean comparisons of the code into propositions. *)
Ltac breflect :=
  repeat match goal with
  | H : (_ <? _) = true |- _ => apply Z.ltb_lt in H
  | H : (_ <? _) = false |- _ => apply Z.ltb_ge in H
  | H : (_ <=? _) = true |- _ => apply Z.leb_le in H
  | H : (_ <=? _) = false |- _ => apply Z.leb_gt in H
  | H : (_ =? _) = true |- _ => apply Z.eqb_eq in H
  | H : (_ =? _) = false |- _ => apply Z.eqb_neq in H
  | H : (_ >=? _) = _ |- _ => rewrite Z.geb_leb in H
  | H : (_ >? _) = _ |- _ => rewrite Z.gtb_ltb in H
  | H : _ && _ = true |- _ => apply andb_true_iff in H as [? ?]
  | H : _ || _ = false |- _ => apply orb_false_iff in H as [? ?]
  | H : negb _ = true |- _ => apply negb_true_iff in H
  | H : negb _ = false |- _ => apply negb_false_iff in H
  | H : bool_decide _ = true |- _ => apply bool_decide_eq_true in H
  | H : bool_decide _ = false |- _ => apply bool_decide_eq_false in H
  end.

(** Split on the guards of the code, innermost scrutinee first, and reflect. *)
Ltac guards :=
  repeat (case_match; simplify_eq/=); breflect.
