(* ===== verification/PqcWitness.v ===== *)
(** Post-quantum witnesses: the version-0 branch of [VerifyWitnessProgram] and
    [CheckPQCSignature], [CheckSPHINCSSignature] of src/src/script/interpreter.cpp, and
    the structural precheck of src/src/consensus/pqc_validation.cpp.

    A stack element is a list of bytes.  The hash functions, the signature hash, the
    signature schemes, the encoding checks and the script interpreter are arguments; the
    result of a check is [None] on success or the script error it sets. *)

From S2P Require Import Prelude.

(** ** Constants *)

Definition SCRIPT_VERIFY_PQC : Z := Z.shiftl 1 21.
Definition SCRIPT_VERIFY_HYBRID_SIG : Z := Z.shiftl 1 25.
Definition WITNESS_V0_SCRIPTHASH_SIZE : nat := 32.
Definition WITNESS_V0_KEYHASH_SIZE : nat := 20.

Definition has_flag (flags f : Z) : bool := negb (Z.land flags f =? 0).

Inductive scheme := Dilithium | Falcon | Falcon1024 | SPHINCS.

#[export] Instance scheme_eq_dec : EqDecision scheme.
Proof. solve_decision. Defined.

Definition SIGNATURE_SIZE (s : scheme) : Z :=
  match s with Dilithium => 2420 | Falcon => 666 | Falcon1024 => 1280 | SPHINCS => 17088 end.

Definition PUBLIC_KEY_SIZE (s : scheme) : Z :=
  match s with Dilithium => 1312 | Falcon => 897 | Falcon1024 => 1793 | SPHINCS => 32 end.

Abbreviation valtype := (list Z).

Definition size (e : valtype) : Z := Z.of_nat (length e).

Definition is_scheme (s : scheme) (pqc_sig pqc_pubkey : valtype) : bool :=
  (size pqc_sig =? SIGNATURE_SIZE s) && (size pqc_pubkey =? PUBLIC_KEY_SIZE s).

Inductive ScriptError :=
  | SCRIPT_ERR_WITNESS_PROGRAM_WRONG_LENGTH
  | SCRIPT_ERR_WITNESS_PROGRAM_WITNESS_EMPTY
  | SCRIPT_ERR_WITNESS_PROGRAM_MISMATCH
  | SCRIPT_ERR_PQC_SIG_SIZE
  | SCRIPT_ERR_PQC_SIG
  | SCRIPT_ERR_CHECKSIGVERIFY
  | SCRIPT_ERR_OTHER (code : Z).

(** ** The precheck *)

Definition IsPQCWitness (sig_elem pk_elem : valtype) : bool :=
  is_scheme Dilithium sig_elem pk_elem || is_scheme Falcon sig_elem pk_elem ||
  is_scheme Falcon1024 sig_elem pk_elem || is_scheme SPHINCS sig_elem pk_elem.

(** [vin] lists the witness stacks of the inputs. *)
Fixpoint HasPQCSignatures (vin : list (list valtype)) : bool :=
  match vin with
  | [] => false
  | stack :: vin' =>
      match stack with
      | [_; _; sig; pk] => if IsPQCWitness sig pk then true else HasPQCSignatures vin'
      | _ => HasPQCSignatures vin'
      end
  end.

Inductive PQCReject := bad_pqc_witness (input : nat) | missing_pqc_sig (input : nat).

Fixpoint check_inputs (flags : Z) (i : nat) (vin : list (list valtype)) : option PQCReject :=
  match vin with
  | [] => None
  | stack :: vin' =>
      match stack with
      | [] => check_inputs flags (S i) vin'
      | [_; _; sig; pk] =>
          if negb (IsPQCWitness sig pk) then Some (bad_pqc_witness i)
          else check_inputs flags (S i) vin'
      | [_; _] =>
          if has_flag flags SCRIPT_VERIFY_HYBRID_SIG then Some (missing_pqc_sig i)
          else check_inputs flags (S i) vin'
      | _ => check_inputs flags (S i) vin'
      end
  end.

Definition CheckPQCSignatures (vin : list (list valtype)) (flags : Z) : option PQCReject :=
  if negb (has_flag flags SCRIPT_VERIFY_PQC) then None else check_inputs flags 0 vin.

(** ** Verification *)

Section verify.
(** [Hash160] and [SHA256] of a byte string. *)
Context (Hash160 SHA256 : valtype → valtype).
(** The BIP 143 signature hash for a script code and hash type ([None]: missing data). *)
Context (SignatureHash : valtype → Z → option valtype).
(** [Verify] of the four schemes: message, signature, public key. *)
Context (Verify : scheme → valtype → valtype → valtype → bool).
(** [CheckECDSASignature] (signature, key, script code), the encoding checks and the
    interpreter (stack, script, flags). *)
Context (CheckECDSASignature : valtype → valtype → valtype → bool).
Context (CheckSignatureEncoding CheckPubKeyEncoding : valtype → Z → option ScriptError).
Context (ExecuteWitnessScript : list valtype → valtype → Z → option ScriptError).

(** OP_DUP OP_HASH160 <program> OP_EQUALVERIFY OP_CHECKSIG. *)
Definition keyhash_script (program : valtype) : valtype :=
  [0x76; 0xa9; Z.of_nat (length program)] ++ program ++ [0x88; 0xac].

Definition CheckPQCSignature (pqcSig pqcPubKey scriptCode : valtype) (nHashType : Z) : bool :=
  match SignatureHash scriptCode nHashType with
  | None => false
  | Some msg =>
      if is_scheme Falcon pqcSig pqcPubKey then Verify Falcon msg pqcSig pqcPubKey
      else if is_scheme Falcon1024 pqcSig pqcPubKey then Verify Falcon1024 msg pqcSig pqcPubKey
      else if is_scheme Dilithium pqcSig pqcPubKey then Verify Dilithium msg pqcSig pqcPubKey
      else false
  end.

Definition CheckSPHINCSSignature (pqc_sig pqc_pubkey ecdsa_sig_in scriptCode : valtype) : bool :=
  match last ecdsa_sig_in with
  | None => false
  | Some nHashType =>
      match SignatureHash scriptCode nHashType with
      | None => false
      | Some message => Verify SPHINCS message pqc_sig pqc_pubkey
      end
  end.

(** The explicit ECDSA check of a hybrid address. *)
Definition check_ecdsa (sig pubkey program : valtype) (flags : Z) : option ScriptError :=
  match CheckSignatureEncoding sig flags with
  | Some e => Some e
  | None =>
      match CheckPubKeyEncoding pubkey flags with
      | Some e => Some e
      | None => if CheckECDSASignature sig pubkey (keyhash_script program) then None
                else Some SCRIPT_ERR_CHECKSIGVERIFY
      end
  end.

(** The checks on a four-element stack: an error, or whether the address is hybrid. *)
Definition check_pqc_pair (sig pubkey pqc_sig pqc_pubkey program : valtype)
    : bool + ScriptError :=
  let is_dilithium := is_scheme Dilithium pqc_sig pqc_pubkey in
  let is_sphincs := is_scheme SPHINCS pqc_sig pqc_pubkey in
  let is_falcon := is_scheme Falcon pqc_sig pqc_pubkey in
  let is_falcon1024 := is_scheme Falcon1024 pqc_sig pqc_pubkey in
  if negb is_dilithium && negb is_sphincs && negb is_falcon && negb is_falcon1024
  then inr SCRIPT_ERR_PQC_SIG_SIZE
  else match last sig with
  | None => inr SCRIPT_ERR_WITNESS_PROGRAM_MISMATCH
  | Some nHashType =>
      if bool_decide (pubkey = []) then inr SCRIPT_ERR_WITNESS_PROGRAM_MISMATCH
      else
        let is_hybrid_addr := bool_decide (Hash160 (pubkey ++ pqc_pubkey) = program) in
        let is_legacy_addr := bool_decide (Hash160 pubkey = program) in
        if negb is_hybrid_addr && negb is_legacy_addr
        then inr SCRIPT_ERR_WITNESS_PROGRAM_MISMATCH
        else
          let code := keyhash_script program in
          let ok := if is_falcon || is_falcon1024 || is_dilithium
                    then CheckPQCSignature pqc_sig pqc_pubkey code nHashType
                    else CheckSPHINCSSignature pqc_sig pqc_pubkey sig code in
          if ok then inl is_hybrid_addr else inr SCRIPT_ERR_PQC_SIG
  end.

(** The implied pay-to-key-hash execution of a two-element stack. *)
Definition verify_two (stack : list valtype) (program : valtype) (flags : Z)
    : option ScriptError :=
  if has_flag flags SCRIPT_VERIFY_HYBRID_SIG then Some SCRIPT_ERR_PQC_SIG
  else ExecuteWitnessScript stack (keyhash_script program) flags.

(** The 20-byte program: pay to witness key hash. *)
Definition VerifyKeyHash (stack : list valtype) (program : valtype) (flags : Z)
    : option ScriptError :=
  match stack with
  | [sig; pubkey; pqc_sig; pqc_pubkey] =>
      match check_pqc_pair sig pubkey pqc_sig pqc_pubkey program with
      | inr e => Some e
      | inl true => check_ecdsa sig pubkey program flags
      | inl false => verify_two [sig; pubkey] program flags
      end
  | [sig; pubkey; pqc_pubkey] =>
      if bool_decide (sig = []) || bool_decide (pubkey = [])
      then Some SCRIPT_ERR_WITNESS_PROGRAM_MISMATCH
      else if negb (bool_decide (Hash160 (pubkey ++ pqc_pubkey) = program))
      then Some SCRIPT_ERR_WITNESS_PROGRAM_MISMATCH
      else check_ecdsa sig pubkey program flags
  | [sig; pubkey] => verify_two stack program flags
  | _ => Some SCRIPT_ERR_WITNESS_PROGRAM_MISMATCH
  end.

(** [VerifyWitnessProgram] for witness version 0. *)
Definition VerifyWitnessProgram_v0 (stack : list valtype) (program : valtype) (flags : Z)
    : option ScriptError :=
  if bool_decide (length program = WITNESS_V0_SCRIPTHASH_SIZE) then
    match last stack with
    | None => Some SCRIPT_ERR_WITNESS_PROGRAM_WITNESS_EMPTY
    | Some script_bytes =>
        if negb (bool_decide (SHA256 script_bytes = program))
        then Some SCRIPT_ERR_WITNESS_PROGRAM_MISMATCH
        else ExecuteWitnessScript (take (length stack - 1) stack) script_bytes flags
    end
  else if bool_decide (length program = WITNESS_V0_KEYHASH_SIZE)
  then VerifyKeyHash stack program flags
  else Some SCRIPT_ERR_WITNESS_PROGRAM_WRONG_LENGTH.
End verify.

(** ** Properties *)

Section properties.
Context (Hash160 SHA256 : valtype → valtype) (SignatureHash : valtype → Z → option valtype).
Context (Verify : scheme → valtype → valtype → valtype → bool).
Context (CheckECDSASignature : valtype → valtype → valtype → bool).
Context (CheckSignatureEncoding CheckPubKeyEncoding : valtype → Z → option ScriptError).
Context (ExecuteWitnessScript : list valtype → valtype → Z → option ScriptError).

Abbreviation verify_v0 := (VerifyWitnessProgram_v0 Hash160 SHA256 SignatureHash Verify
  CheckECDSASignature CheckSignatureEncoding CheckPubKeyEncoding ExecuteWitnessScript).

(** A key-hash program reaches [VerifyKeyHash]. *)
Lemma verify_keyhash stack program flags :
  length program = WITNESS_V0_KEYHASH_SIZE →
  verify_v0 stack program flags =
  VerifyKeyHash Hash160 SignatureHash Verify CheckECDSASignature CheckSignatureEncoding
    CheckPubKeyEncoding ExecuteWitnessScript stack program flags.
Proof.
  intros Hlen. unfold VerifyWitnessProgram_v0.
  rewrite bool_decide_eq_false_2 by (rewrite Hlen; done). by rewrite bool_decide_eq_true_2.
Qed.

Lemma is_scheme_sizes s sig pk :
  is_scheme s sig pk = true ↔ size sig = SIGNATURE_SIZE s ∧ size pk = PUBLIC_KEY_SIZE s.
Proof. unfold is_scheme. by rewrite andb_true_iff, !Z.eqb_eq. Qed.

(** The element sizes determine the scheme. *)
Lemma is_scheme_unique s s' sig pk :
  is_scheme s sig pk = true → is_scheme s' sig pk = true → s = s'.
Proof.
  rewrite !is_scheme_sizes. intros [H1 _] [H2 _]. rewrite H1 in H2.
  destruct s, s'; done.
Qed.

Lemma is_scheme_other s s' sig pk :
  is_scheme s sig pk = true → s ≠ s' → is_scheme s' sig pk = false.
Proof.
  intros H Hne. destruct (is_scheme s' sig pk) eqn:E; [|done].
  by destruct (is_scheme_unique s s' sig pk H E).
Qed.

(** The check of a PQC pair, by scheme: exactly one verification runs. *)
Lemma check_pqc_pair_spec s sig pubkey pqc_sig pqc_pubkey program h :
  is_scheme s pqc_sig pqc_pubkey = true →
  check_pqc_pair Hash160 SignatureHash Verify sig pubkey pqc_sig pqc_pubkey program = inl h ↔
  ∃ ht msg, last sig = Some ht ∧ pubkey ≠ [] ∧
    h = bool_decide (Hash160 (pubkey ++ pqc_pubkey) = program) ∧
    (h = true ∨ Hash160 pubkey = program) ∧
    SignatureHash (keyhash_script program) ht = Some msg ∧ Verify s msg pqc_sig pqc_pubkey = true.
Proof.
  intros Hs. unfold check_pqc_pair, CheckPQCSignature, CheckSPHINCSSignature.
  assert (Hsel : ∀ s', is_scheme s' pqc_sig pqc_pubkey = bool_decide (s = s')).
  { intros s'. destruct (decide (s = s')) as [<-|Hne].
    - by rewrite bool_decide_eq_true_2.
    - rewrite bool_decide_eq_false_2 by done. by eapply is_scheme_other. }
  rewrite !Hsel. destruct (last sig) as [ht|] eqn:El; cycle 1.
  { destruct s; simpl; (split; [done|]); by intros (? & ? & [=] & _). }
  destruct (decide (pubkey = [])) as [Hp|Hp].
  { rewrite (bool_decide_eq_true_2 (pubkey = [])) by done.
    destruct s; simpl; (split; [done|]); by intros (? & ? & _ & ? & _). }
  rewrite (bool_decide_eq_false_2 (pubkey = [])) by done.
  set (hy := bool_decide (Hash160 (pubkey ++ pqc_pubkey) = program)).
  destruct (negb hy && negb (bool_decide (Hash160 pubkey = program))) eqn:Eaddr.
  { breflect. destruct s; simpl; (split; [done|]);
      intros (? & ? & _ & _ & -> & [Hx|Hx] & _); congruence. }
  assert (Haddr : hy = true ∨ Hash160 pubkey = program).
  { apply andb_false_iff in Eaddr as [?|?]; breflect; auto. }
  destruct (SignatureHash (keyhash_script program) ht) as [msg|] eqn:Em.
  - destruct (Verify s msg pqc_sig pqc_pubkey) eqn:Ev.
    + destruct s; simpl; rewrite Ev; split; intros H; simplify_eq; try (by eauto 10);
        by destruct H as (? & ? & ? & ? & -> & _).
    + destruct s; simpl; rewrite Ev; (split; [done|]);
        intros (? & ? & ? & ? & ? & ? & ? & ?); congruence.
  - destruct s; simpl; (split; [done|]); intros (? & ? & ? & ? & ? & ? & ? & ?); congruence.
Qed.

Lemma check_ecdsa_ok sig pubkey program flags :
  check_ecdsa CheckECDSASignature CheckSignatureEncoding CheckPubKeyEncoding
    sig pubkey program flags = None ↔
  CheckSignatureEncoding sig flags = None ∧ CheckPubKeyEncoding pubkey flags = None ∧
  CheckECDSASignature sig pubkey (keyhash_script program) = true.
Proof.
  unfold check_ecdsa. destruct (CheckSignatureEncoding sig flags); [naive_solver|].
  destruct (CheckPubKeyEncoding pubkey flags); [naive_solver|].
  destruct (CheckECDSASignature _ _ _); naive_solver.
Qed.

(** C29. A four-element witness spends a hybrid address exactly when both signatures
    verify: the post-quantum signature of the scheme its sizes select, over the BIP 143
    hash with the hash type of the ECDSA signature, and the ECDSA signature with valid
    encodings; neither alone is enough. *)
Theorem hybrid_needs_both s sig pubkey pqc_sig pqc_pubkey program flags :
  length program = WITNESS_V0_KEYHASH_SIZE → Hash160 (pubkey ++ pqc_pubkey) = program →
  is_scheme s pqc_sig pqc_pubkey = true →
  verify_v0 [sig; pubkey; pqc_sig; pqc_pubkey] program flags = None ↔
  (∃ ht msg, last sig = Some ht ∧ pubkey ≠ [] ∧
     SignatureHash (keyhash_script program) ht = Some msg ∧
     Verify s msg pqc_sig pqc_pubkey = true) ∧
  CheckSignatureEncoding sig flags = None ∧ CheckPubKeyEncoding pubkey flags = None ∧
  CheckECDSASignature sig pubkey (keyhash_script program) = true.
Proof.
  intros Hlen Haddr Hs. rewrite verify_keyhash by done. unfold VerifyKeyHash.
  rewrite <- check_ecdsa_ok.
  pose proof (check_pqc_pair_spec s sig pubkey pqc_sig pqc_pubkey program) as Hspec.
  rewrite (bool_decide_eq_true_2 _ Haddr) in Hspec.
  destruct (check_pqc_pair _ _ _ _ _ _ _ _) as [[]|e] eqn:E.
  - destruct (proj1 (Hspec true Hs) eq_refl) as (ht & msg & H1 & H2 & _ & _ & H5 & H6).
    split; [intros H; split; [by eauto 10|done]|by intros [_ ?]].
  - destruct (proj1 (Hspec false Hs) eq_refl) as (? & ? & _ & _ & ? & _). done.
  - split; [done|]. intros [(ht & msg & H1 & H2 & H3 & H4) _].
    assert (Hc : inr e = inl true); [|done]. apply (Hspec true Hs).
    exists ht, msg. repeat (split; [by auto|]). done.
Qed.

(** The hybrid rule can be bypassed: a three-element witness with only an ECDSA
    signature and the post-quantum public key spends a hybrid address under any flags,
    SCRIPT_VERIFY_HYBRID_SIG included, and passes the precheck; no post-quantum signature
    is involved. *)
Theorem three_element_bypass sig pubkey pqc_pubkey program flags :
  length program = WITNESS_V0_KEYHASH_SIZE → Hash160 (pubkey ++ pqc_pubkey) = program →
  sig ≠ [] → pubkey ≠ [] →
  CheckSignatureEncoding sig flags = None → CheckPubKeyEncoding pubkey flags = None →
  CheckECDSASignature sig pubkey (keyhash_script program) = true →
  verify_v0 [sig; pubkey; pqc_pubkey] program flags = None ∧
  CheckPQCSignatures [[sig; pubkey; pqc_pubkey]] flags = None.
Proof.
  intros Hlen Haddr Hsig Hpk H1 H2 H3. split.
  - rewrite verify_keyhash by done. unfold VerifyKeyHash.
    rewrite (bool_decide_eq_false_2 (sig = [])), (bool_decide_eq_false_2 (pubkey = [])),
      bool_decide_eq_true_2 by done. simpl. by apply check_ecdsa_ok.
  - unfold CheckPQCSignatures. by destruct (negb _).
Qed.

(** The ECDSA half of a witness, as [check_ecdsa] accepts it. *)
Definition ecdsa_ok (sig pubkey program : valtype) (flags : Z) : Prop :=
  CheckSignatureEncoding sig flags = None ∧ CheckPubKeyEncoding pubkey flags = None ∧
  CheckECDSASignature sig pubkey (keyhash_script program) = true.

Lemma check_pqc_pair_scheme sig pubkey pqc_sig pqc_pubkey program h :
  check_pqc_pair Hash160 SignatureHash Verify sig pubkey pqc_sig pqc_pubkey program = inl h →
  ∃ s, is_scheme s pqc_sig pqc_pubkey = true.
Proof.
  unfold check_pqc_pair. destruct (is_scheme Dilithium _ _) eqn:E1; [by eauto|].
  destruct (is_scheme SPHINCS _ _) eqn:E2; [by eauto|]. destruct (is_scheme Falcon _ _) eqn:E3; [by eauto|].
  destruct (is_scheme Falcon1024 _ _) eqn:E4; [by eauto|done].
Qed.

(** A witness of three elements. *)
Lemma verify_three sig pubkey pqc_pubkey program flags :
  length program = WITNESS_V0_KEYHASH_SIZE →
  verify_v0 [sig; pubkey; pqc_pubkey] program flags = None ↔
  sig ≠ [] ∧ pubkey ≠ [] ∧ Hash160 (pubkey ++ pqc_pubkey) = program ∧ ecdsa_ok sig pubkey program flags.
Proof.
  intros Hlen. rewrite verify_keyhash by done. unfold VerifyKeyHash, ecdsa_ok. rewrite <- check_ecdsa_ok.
  destruct (decide (sig = [])); [rewrite bool_decide_eq_true_2 by done; naive_solver|].
  destruct (decide (pubkey = [])); [rewrite (bool_decide_eq_true_2 (pubkey = [])), orb_true_r by done; naive_solver|].
  rewrite !bool_decide_eq_false_2 by done. cbn [orb].
  case_bool_decide; cbn [negb]; naive_solver.
Qed.

(** A witness of four elements under the flag. *)
Lemma verify_four sig pubkey pqc_sig pqc_pubkey program flags :
  length program = WITNESS_V0_KEYHASH_SIZE → has_flag flags SCRIPT_VERIFY_HYBRID_SIG = true →
  verify_v0 [sig; pubkey; pqc_sig; pqc_pubkey] program flags = None ↔
  pubkey ≠ [] ∧ Hash160 (pubkey ++ pqc_pubkey) = program ∧ ecdsa_ok sig pubkey program flags ∧
  ∃ s ht msg, is_scheme s pqc_sig pqc_pubkey = true ∧ last sig = Some ht ∧
    SignatureHash (keyhash_script program) ht = Some msg ∧ Verify s msg pqc_sig pqc_pubkey = true.
Proof.
  intros Hlen Hflag. rewrite verify_keyhash by done. unfold VerifyKeyHash, verify_two, ecdsa_ok.
  rewrite Hflag, <- check_ecdsa_ok. split.
  - destruct (check_pqc_pair _ _ _ _ _ _ _ _) as [[]|e] eqn:E; [|done..].
    destruct (check_pqc_pair_scheme _ _ _ _ _ _ E) as [s Hs].
    destruct (proj1 (check_pqc_pair_spec s _ _ _ _ _ _ Hs) E) as (ht & msg & H1 & H2 & H3 & _ & H5 & H6).
    symmetry in H3. apply bool_decide_eq_true in H3. by eauto 15.
  - intros (H1 & H2 & H3 & s & ht & msg & H4 & H5 & H6 & H7).
    rewrite (proj2 (check_pqc_pair_spec s sig pubkey pqc_sig pqc_pubkey program true H4)); [done|].
    exists ht, msg. rewrite bool_decide_eq_true_2 by done. auto 10.
Qed.

(** C38. What the flag SCRIPT_VERIFY_HYBRID_SIG leaves spendable.  A witness of a 20-byte
    program is accepted under the flag exactly if its ECDSA signature and key are valid, the
    program is the hash of the key followed by the witness's last element, and either that
    is all there is (three elements, no post-quantum signature and no test of the last
    element) or there is a valid post-quantum signature for the last element (four).  So a
    legacy address, the hash of an ECDSA key alone, is not spent by a witness with both
    signatures valid, although the code means to go on to the pay-to-key-hash script
    (unless the hash of both keys is the same), and is spent by the ECDSA signature alone
    with an empty third element, which the precheck lets pass. *)
Theorem hybrid_flag_exact stack program flags :
  length program = WITNESS_V0_KEYHASH_SIZE → has_flag flags SCRIPT_VERIFY_HYBRID_SIG = true →
  (verify_v0 stack program flags = None ↔
   ∃ sig pubkey pqc_pubkey, sig ≠ [] ∧ pubkey ≠ [] ∧ Hash160 (pubkey ++ pqc_pubkey) = program ∧
     ecdsa_ok sig pubkey program flags ∧
     (stack = [sig; pubkey; pqc_pubkey] ∨
      ∃ pqc_sig s ht msg, stack = [sig; pubkey; pqc_sig; pqc_pubkey] ∧
        is_scheme s pqc_sig pqc_pubkey = true ∧ last sig = Some ht ∧
        SignatureHash (keyhash_script program) ht = Some msg ∧ Verify s msg pqc_sig pqc_pubkey = true)) ∧
  (∀ sig pubkey, Hash160 pubkey = program →
     (∀ pqc_sig pqc_pubkey, Hash160 (pubkey ++ pqc_pubkey) ≠ Hash160 pubkey →
        verify_v0 [sig; pubkey; pqc_sig; pqc_pubkey] program flags ≠ None) ∧
     (sig ≠ [] → pubkey ≠ [] → ecdsa_ok sig pubkey program flags →
        verify_v0 [sig; pubkey; []] program flags = None ∧
        CheckPQCSignatures [[sig; pubkey; []]] flags = None)).
Proof.
  intros Hlen Hflag. split; [split|].
  - destruct stack as [|sig [|pubkey [|e3 [|e4 [|]]]]]; rewrite ?verify_keyhash by done; try done.
    + unfold VerifyKeyHash, verify_two. by rewrite Hflag.
    + rewrite <- verify_keyhash, verify_three by done. intros (? & ? & ? & ?). exists sig, pubkey, e3. by auto 10.
    + rewrite <- verify_keyhash, verify_four by done. intros (? & ? & ? & s & ht & msg & ? & Hl & ? & ?).
      exists sig, pubkey, e4. repeat (split; [by (try done; intros ->)|]). right. by exists e3, s, ht, msg.
  - intros (sig & pubkey & pqc_pubkey & H1 & H2 & H3 & H4 & [->|(pqc_sig & s & ht & msg & -> & H5)]).
    + by apply verify_three.
    + apply verify_four; [done..|]. by eauto 10.
  - intros sig pubkey Hpk. split.
    + intros pqc_sig pqc_pubkey Hne. rewrite verify_four by done. intros (_ & ? & _). congruence.
    + intros Hs Hp He. rewrite verify_three, app_nil_r by done. split; [done|].
      unfold CheckPQCSignatures. by destruct (negb _).
Qed.

(** The structural precheck takes every four-element witness for a post-quantum
    one: with SCRIPT_VERIFY_PQC a script-hash spend whose witness has four elements, such
    as a two-of-two multi-signature (dummy, two signatures, script), is refused by the
    precheck although its script verifies. *)
Theorem four_element_script_refused e0 e1 e2 script program flags :
  length program = WITNESS_V0_SCRIPTHASH_SIZE → SHA256 script = program →
  ExecuteWitnessScript [e0; e1; e2] script flags = None →
  has_flag flags SCRIPT_VERIFY_PQC = true → size e2 < 666 →
  verify_v0 [e0; e1; e2; script] program flags = None ∧
  CheckPQCSignatures [[e0; e1; e2; script]] flags = Some (bad_pqc_witness 0).
Proof.
  intros Hlen Hsha Hexec Hflag Hsize. split.
  - unfold VerifyWitnessProgram_v0. rewrite bool_decide_eq_true_2 by done. simpl.
    by rewrite bool_decide_eq_true_2.
  - unfold CheckPQCSignatures. rewrite Hflag. simpl.
    assert (Hno : ∀ s, is_scheme s e2 script = false).
    { intros s. unfold is_scheme. apply andb_false_iff. left. apply Z.eqb_neq.
      destruct s; simpl; lia. }
    unfold IsPQCWitness. by rewrite !Hno.
Qed.
End properties.

(** ** Witnesses *)

(** A stand-in hash that keeps the first bytes, and checkers that accept or refuse. *)
Definition toy_hash160 (e : valtype) : valtype := take 20 (e ++ replicate 20 0).
Definition toy_sha256 (e : valtype) : valtype := take 32 (e ++ replicate 32 0).
Definition toy_sighash (_ : valtype) (_ : Z) : option valtype := Some [1].
Definition accept_all (_ : scheme) (_ _ _ : valtype) : bool := true.
Definition refuse_all (_ : scheme) (_ _ _ : valtype) : bool := false.
Definition toy_ecdsa (_ _ _ : valtype) : bool := true.
Definition toy_encoding (_ : valtype) (_ : Z) : option ScriptError := None.
Definition toy_execute (_ : list valtype) (_ : valtype) (_ : Z) : option ScriptError := None.
Definition hybrid_flags : Z := Z.lor SCRIPT_VERIFY_PQC SCRIPT_VERIFY_HYBRID_SIG.

Abbreviation toy_verify v := (VerifyWitnessProgram_v0 toy_hash160 toy_sha256 toy_sighash v
  toy_ecdsa toy_encoding toy_encoding toy_execute).

Lemma hybrid_needs_both_witness :
  let sig := [9; 1] in let pk := [2; 3] in
  let pqc_sig := replicate 666 5 in let pqc_pk := replicate 897 6 in
  toy_verify accept_all [sig; pk; pqc_sig; pqc_pk] (toy_hash160 (pk ++ pqc_pk)) hybrid_flags = None ∧
  toy_verify refuse_all [sig; pk; pqc_sig; pqc_pk] (toy_hash160 (pk ++ pqc_pk)) hybrid_flags ≠ None.
Proof.
  cbv zeta. split.
  - apply (hybrid_needs_both toy_hash160 toy_sha256 toy_sighash accept_all toy_ecdsa toy_encoding
      toy_encoding toy_execute Falcon); [reflexivity..|].
    split; [exists 1, [1]; repeat split; discriminate|]. repeat split.
  - rewrite (hybrid_needs_both toy_hash160 toy_sha256 toy_sighash refuse_all toy_ecdsa toy_encoding
      toy_encoding toy_execute Falcon); [|reflexivity..].
    intros [(ht & msg & _ & _ & _ & H) _]. discriminate H.
Defined.

Lemma three_element_bypass_witness :
  toy_verify refuse_all [[9; 1]; [2; 3]; replicate 897 6] (toy_hash160 ([2; 3] ++ replicate 897 6))
    hybrid_flags = None.
Proof.
  apply (three_element_bypass toy_hash160 toy_sha256 toy_sighash refuse_all toy_ecdsa toy_encoding
    toy_encoding toy_execute); reflexivity || discriminate.
Defined.

Lemma hybrid_flag_exact_witness :
  toy_verify accept_all [[9; 1]; [2; 3]; replicate 666 5; replicate 897 6] (toy_hash160 [2; 3]) hybrid_flags ≠ None ∧
  toy_verify refuse_all [[9; 1]; [2; 3]; []] (toy_hash160 [2; 3]) hybrid_flags = None.
Proof.
  split.
  - refine (proj1 (proj2 (hybrid_flag_exact toy_hash160 toy_sha256 toy_sighash accept_all toy_ecdsa toy_encoding
      toy_encoding toy_execute [] _ _ _ _) [9; 1] [2; 3] _) _ _ _); [reflexivity..|]. vm_compute. discriminate.
  - refine (proj1 (proj2 (proj2 (hybrid_flag_exact toy_hash160 toy_sha256 toy_sighash refuse_all toy_ecdsa
      toy_encoding toy_encoding toy_execute [] _ _ _ _) [9; 1] [2; 3] _) _ _ _)); [reflexivity..|discriminate|discriminate|].
    repeat split.
Defined.

