(* ===== verification/OrdSet.v ===== *)
(** Ordered containers of the C++ standard library, as sorted lists.

    [std::set<T, Cmp>] keeps its elements strictly sorted by [Cmp] and treats two
    elements as equal when neither is below the other; iteration follows the order.
    [emplace], [erase] and the sortedness invariant are here once, for every
    comparator that is a strict total order ([StrictTotal]). *)

From S2P Require Import Prelude.

Class StrictTotal {A} (lt : A → A → bool) : Prop := {
  st_irrefl x : lt x x = false;
  st_trans x y z : lt x y = true → lt y z = true → lt x z = true;
  st_total x y : lt x y = false → lt y x = false → x = y
}.

Section ordset.
Context {A : Type} (lt : A → A → bool) `{!StrictTotal lt}.

(** [s.emplace(x)]: no effect when an equivalent element is present. *)
Fixpoint set_emplace (x : A) (l : list A) : list A :=
  match l with
  | [] => [x]
  | y :: l' =>
      if lt x y then x :: y :: l'
      else if lt y x then y :: set_emplace x l' else y :: l'
  end.

(** [s.erase(x)]: no effect when no equivalent element is present. *)
Fixpoint set_erase (x : A) (l : list A) : list A :=
  match l with
  | [] => []
  | y :: l' =>
      if lt x y then y :: l'
      else if lt y x then y :: set_erase x l' else l'
  end.

Abbreviation ordered := (StronglySorted (λ x y, lt x y = true)).

Lemma st_asym x y : lt x y = true → lt y x = false.
Proof using StrictTotal0.
  intros H. destruct (lt y x) eqn:E; [|done].
  pose proof (st_trans _ _ _ H E). by rewrite st_irrefl in H0.
Qed.

Lemma elem_of_set_emplace x y l : y ∈ set_emplace x l ↔ y = x ∨ y ∈ l.
Proof using StrictTotal0.
  induction l as [|z l IH]; simpl; [set_solver|].
  destruct (lt x z) eqn:E1; [set_solver|].
  destruct (lt z x) eqn:E2; [set_solver|].
  pose proof (st_total _ _ E1 E2). set_solver.
Qed.

Lemma set_emplace_ordered x l : ordered l → ordered (set_emplace x l).
Proof using StrictTotal0.
  induction 1 as [|z l Hl IH Hz]; simpl; [repeat constructor|].
  destruct (lt x z) eqn:E1.
  { constructor; [by constructor|]. constructor; [done|].
    eapply Forall_impl; [done|]. intros w. by apply st_trans. }
  destruct (lt z x) eqn:E2; [|by constructor].
  constructor; [done|]. apply Forall_forall. intros w.
  rewrite elem_of_set_emplace. intros [->|Hw]; [done|].
  by eapply Forall_forall in Hz.
Qed.

Lemma elem_of_set_erase x y l :
  ordered l → y ∈ set_erase x l ↔ y ≠ x ∧ y ∈ l.
Proof using StrictTotal0.
  induction 1 as [|z l Hl IH Hz]; simpl; [set_solver|].
  rewrite Forall_forall in Hz.
  assert (Hne : ∀ w, w ∈ l → w ≠ z).
  { intros w Hw ->. specialize (Hz _ Hw). by rewrite st_irrefl in Hz. }
  destruct (lt x z) eqn:E1.
  - split; [|set_solver]. intros Hy. split; [|done]. intros ->.
    apply elem_of_cons in Hy as [->|Hy]; [by rewrite st_irrefl in E1|].
    specialize (Hz _ Hy). apply st_asym in Hz. congruence.
  - destruct (lt z x) eqn:E2.
    + rewrite !elem_of_cons, IH. split; [|set_solver].
      intros [->|?]; [|set_solver]. split; [|by left].
      intros ->. by rewrite st_irrefl in E2.
    + pose proof (st_total _ _ E1 E2) as ->. set_solver.
Qed.

Lemma set_erase_sublist x l : set_erase x l `sublist_of` l.
Proof using.
  induction l as [|z l IH]; simpl; [constructor|].
  destruct (lt x z); [done|]. destruct (lt z x); by constructor.
Qed.

Lemma ordered_sublist l k : l `sublist_of` k → ordered k → ordered l.
Proof using.
  induction 1 as [|x l k Hs IH|x l k Hs IH]; inversion 1; subst; auto.
  constructor; [auto|]. rewrite Forall_forall in *. eauto using elem_of_sublist.
Qed.

Lemma set_erase_ordered x l : ordered l → ordered (set_erase x l).
Proof using. apply ordered_sublist, set_erase_sublist. Qed.

Lemma ordered_NoDup l : ordered l → NoDup l.
Proof using StrictTotal0.
  induction 1 as [|z l Hl IH Hz]; constructor; [|done].
  intros Hin. eapply Forall_forall in Hz; [|done]. by rewrite st_irrefl in Hz.
Qed.

(** Two sorted lists with the same elements are equal: the iteration order of a
    [std::set] is a function of its contents. *)
Lemma ordered_ext l k : ordered l → ordered k → (∀ x, x ∈ l ↔ x ∈ k) → l = k.
Proof using StrictTotal0.
  intros Hl. revert k. induction Hl as [|x l Hl IH Hx]; intros k Hk Hext.
  { destruct k as [|y k]; [done|]. exfalso. apply (not_elem_of_nil y). set_solver. }
  destruct Hk as [|y k Hk Hy].
  { exfalso. apply (not_elem_of_nil x). set_solver. }
  rewrite Forall_forall in Hx, Hy.
  assert (x = y) as ->.
  { assert (x ∈ y :: k) as [?|Hxk]%elem_of_cons by set_solver; [done|].
    assert (y ∈ x :: l) as [?|Hyl]%elem_of_cons by set_solver; [done|].
    specialize (Hx _ Hyl). specialize (Hy _ Hxk). apply st_asym in Hx. congruence. }
  f_equal. apply IH; [done|]. intros w.
  assert (∀ v, v ∈ l → v ≠ y) as H1.
  { intros v Hv ->. specialize (Hx _ Hv). by rewrite st_irrefl in Hx. }
  assert (∀ v, v ∈ k → v ≠ y) as H2.
  { intros v Hv ->. specialize (Hy _ Hv). by rewrite st_irrefl in Hy. }
  specialize (Hext w). set_solver.
Qed.

Lemma ordered_lookup l i j x y :
  ordered l → (i < j)%nat → l !! i = Some x → l !! j = Some y → lt x y = true.
Proof using.
  intros Hl. revert i j. induction Hl as [|z l Hl IH Hz]; intros i j Hij Hi Hj; [done|].
  destruct j as [|j]; [lia|]. destruct i as [|i]; simplify_eq/=.
  - eapply Forall_lookup_1 in Hz; [|done]. done.
  - apply (IH i j); auto with lia.
Qed.
End ordset.

Abbreviation ordered lt := (StronglySorted (λ x y, lt x y = true)).

#[export] Hint Extern 1 (StrictTotal _) => typeclasses eauto : qbtc.
#[export] Hint Resolve set_emplace_ordered set_erase_ordered : qbtc.
