(* ===== verification/TipSet.v ===== *)
(** The DAG tip set: [dag::DagTipSet] of src/src/dag/dagtipset.h and dagtipset.cpp.

    A [uint256] block hash is the integer whose big-endian bytes are its storage,
    so that [memcmp] (the order of [uint256]) is [<] on [Z] and the null hash is 0. *)

From S2P Require Import Prelude OrdSet.

Definition uint256 := Z.
Definition IsNull (h : Z) : bool := h =? 0.

(** ** Data *)

Definition MAX_BLOCK_PARENTS : Z := 64.
Definition KNOWN_SCORES_PRUNE_DEPTH : Z := 1000.

(** [TipOrder]: higher blue score first, ties broken by the lower hash. *)
Definition TipOrder (a b : Z * Z) : bool :=
  if negb (a.1 =? b.1) then b.1 <? a.1 else a.2 <? b.2.

Record DagTipSet := mkTipSet {
  m_score_to_hash : list (Z * Z);     (* std::set<pair, TipOrder> *)
  m_hash_to_score : gmap Z Z;
  m_known_scores : gmap Z Z
}.

Definition empty_tipset : DagTipSet := mkTipSet [] ∅ ∅.

(** ** Operations *)

Definition InsertTip (s : DagTipSet) (hash blue_score : Z) : DagTipSet :=
  mkTipSet (set_emplace TipOrder (blue_score, hash) (m_score_to_hash s))
           (<[hash := blue_score]> (m_hash_to_score s))
           (<[hash := blue_score]> (m_known_scores s)).

Definition RemoveTip (s : DagTipSet) (hash : Z) : DagTipSet :=
  match m_hash_to_score s !! hash with
  | None => s
  | Some score =>
      mkTipSet (set_erase TipOrder (score, hash) (m_score_to_hash s))
               (delete hash (m_hash_to_score s))
               (m_known_scores s)
  end.

Definition PruneKnownScores (s : DagTipSet) (best_score : Z) : DagTipSet :=
  if best_score <=? KNOWN_SCORES_PRUNE_DEPTH then s
  else
    let cutoff := best_score - KNOWN_SCORES_PRUNE_DEPTH in
    mkTipSet (m_score_to_hash s) (m_hash_to_score s)
      (filter (λ kv, ¬ (kv.2 < cutoff ∧ m_hash_to_score s !! kv.1 = None))
              (m_known_scores s)).

Definition BlockConnected (s : DagTipSet) (block_hash blue_score : Z)
    (parents : list Z) : DagTipSet :=
  let s1 := foldl RemoveTip s parents in
  let s2 := InsertTip s1 block_hash blue_score in
  PruneKnownScores s2 blue_score.

(** The loop body of [BlockDisconnected]: re-add one parent as a tip. *)
Definition ReaddParent (s : DagTipSet) (p : Z) : DagTipSet :=
  if IsNull p || bool_decide (is_Some (m_hash_to_score s !! p)) then s
  else match m_known_scores s !! p with
       | Some score => InsertTip s p score
       | None => s
       end.

Definition BlockDisconnected (s : DagTipSet) (block_hash : Z)
    (parent_hashes : list Z) : DagTipSet :=
  foldl ReaddParent (RemoveTip s block_hash) parent_hashes.

Fixpoint GetMiningParents_loop (max_parents : Z) (result : list Z)
    (tips : list (Z * Z)) : list Z :=
  match tips with
  | [] => result
  | (_, hash) :: tips' =>
      if max_parents <=? Z.of_nat (length result) then result
      else GetMiningParents_loop max_parents (result ++ [hash]) tips'
  end.

Definition GetMiningParents (s : DagTipSet) (max_parents : Z) : list Z :=
  GetMiningParents_loop max_parents [] (m_score_to_hash s).

Definition IsTip (s : DagTipSet) (hash : Z) : bool :=
  bool_decide (is_Some (m_hash_to_score s !! hash)).

Definition Size (s : DagTipSet) : nat := length (m_score_to_hash s).

Definition Clear (s : DagTipSet) : DagTipSet := mkTipSet [] ∅ ∅.

(** ** The comparator is a strict total order *)

#[export] Instance TipOrder_strict : StrictTotal TipOrder.
Proof.
  split; unfold TipOrder.
  - intros [a b]. simpl. rewrite Z.eqb_refl. simpl. apply Z.ltb_irrefl.
  - intros [a b] [c d] [e f]; simpl; intros H1 H2; guards;
      first [apply Z.ltb_lt; lia | lia].
  - intros [a b] [c d]; simpl; intros H1 H2; guards; try lia; f_equal; lia.
Qed.

(** ** Invariant *)

(** The two views of the tips agree, the ordered view is sorted, and the score of
    every tip is remembered. *)
Record WF (s : DagTipSet) : Prop := {
  wf_sorted : ordered TipOrder (m_score_to_hash s);
  wf_views sc h : (sc, h) ∈ m_score_to_hash s ↔ m_hash_to_score s !! h = Some sc;
  wf_known h sc : m_hash_to_score s !! h = Some sc → m_known_scores s !! h = Some sc
}.

Lemma WF_empty : WF empty_tipset.
Proof. split; [constructor| |]; simpl; intros *; rewrite lookup_empty; set_solver. Qed.

Lemma RemoveTip_WF s h : WF s → WF (RemoveTip s h).
Proof.
  intros [Hs Hv Hk]. unfold RemoveTip. destruct (_ !! h) as [sc|] eqn:E; [|done].
  split; simpl; [auto with qbtc| |].
  - intros sc' h'. rewrite elem_of_set_erase, Hv by (done || apply _).
    destruct (decide (h = h')) as [<-|Hne]; simplify_map_eq; [|naive_solver].
    naive_solver.
  - intros h' sc' [Hne H]%lookup_delete_Some. auto.
Qed.

(** Inserting a tip keeps the views consistent when the hash is not already a tip
    with another score. *)
Lemma InsertTip_WF s h sc :
  WF s → (∀ sc', m_hash_to_score s !! h = Some sc' → sc' = sc) → WF (InsertTip s h sc).
Proof.
  intros [Hs Hv Hk] Hfresh. split; simpl; [auto with qbtc| |].
  - intros sc' h'. rewrite elem_of_set_emplace, Hv by apply _.
    destruct (decide (h = h')) as [<-|Hne]; simplify_map_eq; [|naive_solver].
    split; [|naive_solver]. intros [?|H]; [congruence|]. f_equal. symmetry. eauto.
  - intros h' sc' [[<- <-]|[Hne H]]%lookup_insert_Some; simplify_map_eq; auto.
Qed.

Lemma Prune_WF s b : WF s → WF (PruneKnownScores s b).
Proof.
  intros [Hs Hv Hk]. unfold PruneKnownScores. case_match; [done|].
  split; simpl; [done..|]. intros h sc Hsc.
  apply map_lookup_filter_Some. split; [auto|]. simpl. intros [_ ?]. congruence.
Qed.

Lemma RemoveTips_WF ps s : WF s → WF (foldl RemoveTip s ps).
Proof. revert s. induction ps; simpl; auto using RemoveTip_WF. Qed.

Lemma ReaddParent_WF s p : WF s → WF (ReaddParent s p).
Proof.
  intros H. unfold ReaddParent. repeat case_match; try done.
  apply InsertTip_WF; [done|]. breflect. intros sc' Hsc'.
  match goal with Hn : ¬ is_Some _ |- _ => destruct Hn; eauto end.
Qed.

#[export] Hint Resolve WF_empty RemoveTip_WF RemoveTips_WF Prune_WF ReaddParent_WF : qbtc.

(** ** What each operation does to the map of tips *)

Lemma RemoveTip_tips s h : m_hash_to_score (RemoveTip s h) = delete h (m_hash_to_score s).
Proof.
  unfold RemoveTip. case_match eqn:E; [done|]. symmetry. by apply delete_id.
Qed.

Lemma RemoveTip_known s h : m_known_scores (RemoveTip s h) = m_known_scores s.
Proof. unfold RemoveTip. by case_match. Qed.

Lemma RemoveTips_tips ps s h :
  m_hash_to_score (foldl RemoveTip s ps) !! h =
  if decide (h ∈ ps) then None else m_hash_to_score s !! h.
Proof.
  revert s. induction ps as [|p ps IH]; intros s.
  { by rewrite decide_False by set_solver. }
  cbn [foldl]. rewrite IH, RemoveTip_tips.
  destruct (decide (h ∈ ps)); [by rewrite decide_True by set_solver|].
  destruct (decide (h = p)) as [->|Hne].
  - rewrite decide_True by set_solver. by simplify_map_eq.
  - rewrite decide_False by set_solver. by simplify_map_eq.
Qed.

Lemma RemoveTips_known ps s : m_known_scores (foldl RemoveTip s ps) = m_known_scores s.
Proof. revert s. induction ps; intros s; simpl; [done|]. by rewrite IHps, RemoveTip_known. Qed.

Lemma Prune_tips s b : m_hash_to_score (PruneKnownScores s b) = m_hash_to_score s.
Proof. unfold PruneKnownScores. by case_match. Qed.

(** ** Reachable tip sets *)

(** [BlockConnected] has no test for a block that is a tip already: its caller has to see
    to it that the block is not a tip with another score, unless it is one of its own
    parents and so removed first.  ([AcceptBlock] of src/src/validation.cpp returns early
    for a block whose data it has.) *)
Definition connectable (s : DagTipSet) (b sc : Z) (ps : list Z) : Prop :=
  b ∈ ps ∨ default sc (m_hash_to_score s !! b) = sc.

(** One call of the public interface, by such a caller. *)
Inductive tipset_step : DagTipSet → DagTipSet → Prop :=
| step_connected s b sc ps :
    connectable s b sc ps → tipset_step s (BlockConnected s b sc ps)
| step_disconnected s b ps : tipset_step s (BlockDisconnected s b ps)
| step_clear s : tipset_step s (Clear s).

Abbreviation tipset_reachable := (rtc tipset_step empty_tipset).

Lemma connectable_fresh s b sc ps : m_hash_to_score s !! b = None → connectable s b sc ps.
Proof. intros H. right. by rewrite H. Qed.

Lemma Prune_order s b : m_score_to_hash (PruneKnownScores s b) = m_score_to_hash s.
Proof. unfold PruneKnownScores. by case_match. Qed.

(** The condition is exactly what keeps the two views consistent. *)
Lemma BlockConnected_WF s b sc ps :
  WF s → WF (BlockConnected s b sc ps) ↔ connectable s b sc ps.
Proof.
  intros Hs. assert (Hs1 : WF (foldl RemoveTip s ps)) by auto with qbtc.
  unfold BlockConnected, connectable. split.
  - intros H. destruct (decide (b ∈ ps)) as [|Hb]; [by left|right].
    destruct (m_hash_to_score s !! b) as [sc'|] eqn:E; [simpl|done].
    assert (Hin : m_hash_to_score (PruneKnownScores (InsertTip (foldl RemoveTip s ps) b sc) sc) !! b = Some sc').
    { apply (wf_views _ H). rewrite Prune_order. simpl. apply elem_of_set_emplace; [apply _|]. right.
      apply (wf_views _ Hs1). by rewrite RemoveTips_tips, decide_False. }
    rewrite Prune_tips in Hin. simpl in Hin. rewrite lookup_insert_eq in Hin. congruence.
  - intros H. apply Prune_WF, InsertTip_WF; [done|]. intros sc'. rewrite RemoveTips_tips.
    case_decide; [done|]. intros E. destruct H as [?|H]; [done|]. by rewrite E in H.
Qed.

Lemma BlockDisconnected_WF s b ps : WF s → WF (BlockDisconnected s b ps).
Proof.
  intros Hs. unfold BlockDisconnected.
  assert (Hs' : WF (RemoveTip s b)) by auto with qbtc. clear Hs.
  generalize dependent (RemoveTip s b).
  induction ps as [|p ps IH]; intros s' Hs'; simpl; auto with qbtc.
Qed.

Lemma tipset_step_WF s s' : WF s → tipset_step s s' → WF s'.
Proof. intros Hs. destruct 1; [by apply BlockConnected_WF|auto using BlockDisconnected_WF with qbtc..]. Qed.

Lemma BlockConnected_tips s b sc ps h :
  m_hash_to_score (BlockConnected s b sc ps) !! h =
  if decide (h = b) then Some sc
  else if decide (h ∈ ps) then None else m_hash_to_score s !! h.
Proof.
  unfold BlockConnected. rewrite Prune_tips. simpl.
  destruct (decide (h = b)) as [->|Hne]; simplify_map_eq; [done|].
  apply RemoveTips_tips.
Qed.

(** ** Mining parents *)

Lemma GetMiningParents_loop_take n r l :
  GetMiningParents_loop n r l = r ++ take (Z.to_nat n - length r) l.*2.
Proof.
  revert r. induction l as [|[sc h] l IH]; intros r; simpl; [by rewrite take_nil, app_nil_r|].
  case_match; breflect.
  - replace (Z.to_nat n - length r)%nat with 0%nat by lia. by rewrite app_nil_r.
  - rewrite IH, length_app. simpl.
    replace (Z.to_nat n - length r)%nat with (S (Z.to_nat n - (length r + 1))) by lia.
    simpl. by rewrite <- app_assoc.
Qed.

Lemma GetMiningParents_take s n :
  GetMiningParents s n = take (Z.to_nat n) (m_score_to_hash s).*2.
Proof. unfold GetMiningParents. rewrite GetMiningParents_loop_take. simpl. by rewrite Nat.sub_0_r. Qed.

Lemma WF_hashes_NoDup s : WF s → NoDup (m_score_to_hash s).*2.
Proof.
  intros [Hs Hv _]. pose proof (ordered_NoDup TipOrder _ Hs) as Hnd.
  apply NoDup_fmap_2_strong; [|done].
  intros [s1 h1] [s2 h2] H1 H2 Heq. simpl in Heq. subst.
  apply Hv in H1, H2. congruence.
Qed.

(** The tip at a position of the ordered view. *)
Lemma WF_tip_at s i h :
  WF s → (m_score_to_hash s).*2 !! i = Some h →
  ∃ sc, m_score_to_hash s !! i = Some (sc, h) ∧ m_hash_to_score s !! h = Some sc.
Proof.
  intros Hs. rewrite list_lookup_fmap, fmap_Some. intros ([sc h'] & Hi & ->).
  exists sc. split; [done|]. apply Hs. by eapply list_elem_of_lookup_2.
Qed.

Lemma WF_tip_listed s h sc :
  WF s → m_hash_to_score s !! h = Some sc → h ∈ (m_score_to_hash s).*2.
Proof. intros Hs H%Hs. by apply (list_elem_of_fmap_2 snd) in H. Qed.

Lemma WF_size s : WF s → Size s = size (m_hash_to_score s).
Proof.
  intros Hs. unfold Size. rewrite <- size_dom, <- (length_fmap snd).
  rewrite <- (size_list_to_set (C := gset Z)) by (by apply WF_hashes_NoDup).
  f_equal. apply set_eq. intros h. rewrite elem_of_list_to_set, elem_of_dom. split.
  - intros (i & Hi)%list_elem_of_lookup. destruct (WF_tip_at s i h) as (sc & _ & ?); eauto.
  - intros [sc Hsc]. by eapply WF_tip_listed.
Qed.

(** The order of two positions of the ordered view is the order of the tips there. *)
Lemma WF_tip_order s i j h h' sc sc' :
  WF s → (i < j)%nat →
  (m_score_to_hash s).*2 !! i = Some h → (m_score_to_hash s).*2 !! j = Some h' →
  m_hash_to_score s !! h = Some sc → m_hash_to_score s !! h' = Some sc' →
  TipOrder (sc, h) (sc', h') = true.
Proof.
  intros Hs Hij Hi Hj Hsc Hsc'.
  destruct (WF_tip_at s i h Hs Hi) as (? & Hi' & ?).
  destruct (WF_tip_at s j h' Hs Hj) as (? & Hj' & ?). simplify_eq.
  eapply ordered_lookup; [apply Hs|done..].
Qed.

(** ** Disconnecting *)

Lemma ReaddParent_known s p : m_known_scores (ReaddParent s p) = m_known_scores s.
Proof. unfold ReaddParent. repeat case_match; try done. simpl. by apply insert_id. Qed.

Lemma ReaddParent_tips s p h :
  m_hash_to_score (ReaddParent s p) !! h =
  match m_hash_to_score s !! h with
  | Some sc => Some sc
  | None => if decide (h = p ∧ p ≠ 0) then m_known_scores s !! h else None
  end.
Proof.
  unfold ReaddParent, IsNull. destruct (Z.eqb_spec p 0) as [->|Hp]; simpl.
  { case_match; [done|]. case_decide; naive_solver. }
  case_bool_decide as Htip.
  { case_match; [done|]. case_decide as Hd; [|done]. destruct Hd as [-> _].
    destruct Htip; congruence. }
  destruct (decide (h = p)) as [->|Hne].
  - destruct (m_hash_to_score s !! p) eqn:E; [destruct Htip; eauto|].
    rewrite decide_True by done. case_match; simpl; by simplify_map_eq.
  - rewrite (decide_False (P := h = p ∧ _)) by naive_solver.
    repeat case_match; simpl; by simplify_map_eq.
Qed.

Lemma ReaddParents_tips ps s h :
  m_hash_to_score (foldl ReaddParent s ps) !! h =
  match m_hash_to_score s !! h with
  | Some sc => Some sc
  | None => if decide (h ∈ ps ∧ h ≠ 0) then m_known_scores s !! h else None
  end.
Proof.
  revert s. induction ps as [|p ps IH]; intros s.
  { rewrite decide_False by set_solver. simpl. by case_match. }
  cbn [foldl]. rewrite IH, ReaddParent_tips, ReaddParent_known.
  destruct (m_hash_to_score s !! h); [done|].
  destruct (decide (h = p ∧ p ≠ 0)) as [[-> Hp]|Hn].
  - rewrite (decide_True (P := p ∈ p :: ps ∧ _)) by set_solver.
    destruct (m_known_scores s !! p); [done|]. by case_decide.
  - destruct (decide (h ∈ ps ∧ h ≠ 0));
      [rewrite decide_True by set_solver|rewrite decide_False by set_solver]; done.
Qed.

Lemma BlockConnected_known s b sc ps h v :
  h ≠ b → m_known_scores s !! h = Some v → sc - KNOWN_SCORES_PRUNE_DEPTH <= v →
  m_known_scores (BlockConnected s b sc ps) !! h = Some v.
Proof.
  intros Hb Hv Hsc. unfold BlockConnected, PruneKnownScores.
  assert (Hk : m_known_scores (InsertTip (foldl RemoveTip s ps) b sc) !! h = Some v)
    by (simpl; rewrite lookup_insert_ne, RemoveTips_known by done; done).
  case_match; [done|]. simpl m_known_scores at 1.
  apply map_lookup_filter_Some. split; [done|]. simpl. lia.
Qed.

Lemma tipset_WF s : tipset_reachable s → WF s.
Proof.
  revert s. apply rtc_ind_r; [apply WF_empty|].
  intros s s' _ Hstep Hs. by eapply tipset_step_WF.
Qed.

(** ** Properties *)

(** C24. Every tip set reached by calls that never connect a block which is already a tip
    with another blue score (unless the block is one of its own parents) is well formed: its
    ordered view is strictly sorted, both views hold the same tips (so [Size] counts the
    tips [IsTip] accepts), and every tip's score is remembered.  The condition on the calls
    is needed: [BlockConnected] does not test it, and breaks the tip set when it fails. *)
Theorem tipset_invariant s :
  tipset_reachable s →
  WF s ∧ Size s = size (m_hash_to_score s) ∧
  (∀ h, IsTip s h = true ↔ ∃ sc, (sc, h) ∈ m_score_to_hash s) ∧
  (∀ b sc ps, ¬ connectable s b sc ps → ¬ WF (BlockConnected s b sc ps)).
Proof.
  intros Hs%tipset_WF. split; [done|]. split; [by apply WF_size|]. split.
  - intros h. unfold IsTip. rewrite bool_decide_eq_true. unfold is_Some.
    by setoid_rewrite (wf_views s Hs).
  - intros b sc ps. by rewrite BlockConnected_WF.
Qed.

(** Two tips, then a block that merges both, which is then disconnected. *)
Definition tipset_example : DagTipSet :=
  BlockConnected (BlockConnected (BlockConnected (BlockConnected empty_tipset
    10 1 []) 11 2 [10]) 12 2 [10]) 13 5 [11; 12].

Lemma tipset_example_reachable : tipset_reachable tipset_example.
Proof. repeat (eapply rtc_r; [|apply step_connected, connectable_fresh; vm_compute; reflexivity]). reflexivity. Qed.

Lemma tipset_invariant_witness : WF tipset_example ∧ Size tipset_example = 1%nat.
Proof.
  destruct (tipset_invariant _ tipset_example_reachable) as (H & Hsz & _).
  split; [exact H|]. rewrite Hsz. reflexivity.
Defined.

(** [GetMiningParents] returns the best tips: as many as asked for and available,
    without repetition, each a tip, listed by blue score (highest first, then lowest
    hash), and every tip left out ranks after every tip returned. *)
Theorem mining_parents_best s n :
  tipset_reachable s → 0 <= n →
  let r := GetMiningParents s n in
  NoDup r ∧ Z.of_nat (length r) = n `min` Z.of_nat (size (m_hash_to_score s)) ∧
  (∀ h, h ∈ r → IsTip s h = true) ∧
  (∀ i j h h' sc sc', (i < j)%nat → r !! i = Some h → r !! j = Some h' →
     m_hash_to_score s !! h = Some sc → m_hash_to_score s !! h' = Some sc' →
     TipOrder (sc, h) (sc', h') = true) ∧
  (∀ h h' sc sc', h ∈ r → h' ∉ r →
     m_hash_to_score s !! h = Some sc → m_hash_to_score s !! h' = Some sc' →
     TipOrder (sc, h) (sc', h') = true).
Proof.
  intros Hs%tipset_WF Hn. simpl. rewrite GetMiningParents_take.
  split; [|split; [|split; [|split]]].
  - eapply sublist_NoDup; [by apply WF_hashes_NoDup|apply sublist_take].
  - rewrite length_take, length_fmap. fold (Size s). rewrite WF_size by done. lia.
  - intros h (i & Hi)%list_elem_of_lookup. apply lookup_take_Some in Hi as [Hi _].
    destruct (WF_tip_at s i h Hs Hi) as (sc & _ & Hsc). apply bool_decide_eq_true. eauto.
  - intros i j h h' sc sc' Hij [Hi _]%lookup_take_Some [Hj _]%lookup_take_Some.
    by eapply WF_tip_order.
  - intros h h' sc sc' (i & Hi)%list_elem_of_lookup Hh' Hsc Hsc'.
    apply lookup_take_Some in Hi as [Hi Hin].
    destruct (proj1 (list_elem_of_lookup _ _) (WF_tip_listed s h' sc' Hs Hsc')) as (j & Hj).
    eapply (WF_tip_order s i j); [done| |done..].
    destruct (decide (j < Z.to_nat n)%nat); [|lia]. exfalso. apply Hh'.
    apply list_elem_of_lookup. exists j. by apply lookup_take_Some.
Qed.

(** Connecting a block and then disconnecting it restores the tips, in both views,
    when the block's parents were tips whose scores are at most
    [KNOWN_SCORES_PRUNE_DEPTH] behind the block. *)
Theorem disconnect_restores_tips s b sc ps :
  tipset_reachable s → m_hash_to_score s !! b = None → b ∉ ps →
  (∀ p, p ∈ ps → p ≠ 0 ∧ ∃ v, m_hash_to_score s !! p = Some v ∧
                              sc - KNOWN_SCORES_PRUNE_DEPTH <= v) →
  let s' := BlockDisconnected (BlockConnected s b sc ps) b ps in
  m_hash_to_score s' = m_hash_to_score s ∧ m_score_to_hash s' = m_score_to_hash s.
Proof.
  intros Hs%tipset_WF Hb Hbps Hps s'.
  assert (Htips : m_hash_to_score s' = m_hash_to_score s).
  { apply map_eq. intros h. unfold s', BlockDisconnected.
    rewrite ReaddParents_tips, RemoveTip_tips, RemoveTip_known.
    destruct (decide (h = b)) as [->|Hhb].
    { rewrite lookup_delete_eq, decide_False by naive_solver. done. }
    rewrite lookup_delete_ne, BlockConnected_tips, (decide_False (P := h = b)) by done.
    destruct (decide (h ∈ ps)) as [Hin|Hnin].
    - destruct (Hps h Hin) as (Hnz & v & Hv & Hsc).
      rewrite decide_True, Hv by done. apply BlockConnected_known; [done| |done].
      by apply Hs.
    - case_match; [done|]. rewrite decide_False by naive_solver. done. }
  split; [done|].
  assert (Hs' : WF s') by (by apply BlockDisconnected_WF, BlockConnected_WF, connectable_fresh).
  apply (ordered_ext TipOrder); [apply Hs'|apply Hs|].
  intros [v h]. by rewrite (wf_views _ Hs'), (wf_views _ Hs), Htips.
Qed.

Lemma disconnect_restores_tips_witness :
  let s := BlockConnected (BlockConnected empty_tipset 10 1 []) 11 2 [] in
  m_score_to_hash (BlockDisconnected (BlockConnected s 12 4 [10; 11]) 12 [10; 11])
  = [(2, 11); (1, 10)].
Proof.
  intros s.
  assert (Hr : tipset_reachable s).
  { repeat (eapply rtc_r; [|apply step_connected, connectable_fresh; reflexivity]). reflexivity. }
  refine (eq_trans (proj2 (disconnect_restores_tips s 12 4 [10; 11] Hr eq_refl _ _)) eq_refl).
  - set_solver.
  - intros p Hp. apply elem_of_cons in Hp as [->|[->|[]%elem_of_nil]%elem_of_cons].
    + split; [lia|]. exists 1. split; [reflexivity|]. vm_compute. discriminate.
    + split; [lia|]. exists 2. split; [reflexivity|]. vm_compute. discriminate.
Defined.

(** Memory of historical scores is bounded: after a block is connected, every
    remembered score is that of a tip or lies within [KNOWN_SCORES_PRUNE_DEPTH] of the
    connected block's blue score. *)
Theorem known_scores_bounded s b sc ps h v :
  m_known_scores (BlockConnected s b sc ps) !! h = Some v →
  IsTip (BlockConnected s b sc ps) h = true ∨
  sc - KNOWN_SCORES_PRUNE_DEPTH <= v ∨ sc <= KNOWN_SCORES_PRUNE_DEPTH.
Proof.
  unfold BlockConnected, PruneKnownScores, IsTip.
  destruct (Z.leb_spec sc KNOWN_SCORES_PRUNE_DEPTH) as [|Hsc]; [auto|].
  simpl m_known_scores at 1. rewrite map_lookup_filter_Some. simpl. intros [_ Hk].
  rewrite bool_decide_eq_true, <- not_eq_None_Some.
  destruct (decide (v < sc - KNOWN_SCORES_PRUNE_DEPTH)); [|lia]. left. intros ?. by apply Hk.
Qed.
