(* ===== verification/Arith256.v ===== *)
(** 256-bit unsigned arithmetic and the compact target encoding:
    [arith_uint256] of src/src/arith_uint256.h and arith_uint256.cpp, and
    [GetBlockProof] of src/src/chain.cpp.

    A value of [arith_uint256] is its numeric value in [0, 2^256); every operator
    reduces modulo [2^256]. *)

From S2P Require Import Prelude.

Definition W256 : Z := 256.
Abbreviation u256 := (wrap 256).

(** [base_uint::bits]: the position of the highest set bit, plus one. *)
Definition bits (v : Z) : Z := if v =? 0 then 0 else Z.log2 v + 1.

Definition GetLow64 (v : Z) : Z := u64 v.

(** [UintToArith256] and [ArithToUint256]: the bytes of a [uint256] (here the digits of
    a big-endian number) are the little-endian digits of the arithmetic value. *)
Fixpoint byteswap (n : nat) (x : Z) : Z :=
  match n with
  | O => 0
  | S n' => x mod 256 * 256 ^ Z.of_nat n' + byteswap n' (x / 256)
  end.

Definition UintToArith256 (a : Z) : Z := byteswap 32 a.
Definition ArithToUint256 (a : Z) : Z := byteswap 32 a.

(** ** [arith_uint256::SetCompact] *)

Record Compact := mkCompact { cValue : Z; fNegative : bool; fOverflow : bool }.

Definition SetCompact (nCompact : Z) : Compact :=
  let nSize := Z.shiftr nCompact 24 in
  let nWord0 := Z.land nCompact 0x007fffff in
  let nWord := if nSize <=? 3 then Z.shiftr nWord0 (8 * (3 - nSize)) else nWord0 in
  let value := if nSize <=? 3 then nWord else u256 (Z.shiftl nWord (8 * (nSize - 3))) in
  mkCompact value
    (negb (nWord =? 0) && negb (Z.land nCompact 0x00800000 =? 0))
    (negb (nWord =? 0) &&
       ((34 <? nSize) || ((0xff <? nWord) && (33 <? nSize)) ||
        ((0xffff <? nWord) && (32 <? nSize)))).

(** ** [arith_uint256::GetCompact] *)

Definition GetCompact (v : Z) (fNeg : bool) : Z :=
  let nSize := (bits v + 7) / 8 in
  let nCompact :=
    if nSize <=? 3 then u32 (u64 (Z.shiftl (GetLow64 v) (8 * (3 - nSize))))
    else u32 (GetLow64 (Z.shiftr v (8 * (nSize - 3)))) in
  let '(nCompact, nSize) :=
    if negb (Z.land nCompact 0x00800000 =? 0)
    then (Z.shiftr nCompact 8, nSize + 1) else (nCompact, nSize) in
  let nCompact := Z.lor nCompact (u32 (Z.shiftl nSize 24)) in
  Z.lor nCompact
    (if fNeg && negb (Z.land nCompact 0x007fffff =? 0) then 0x00800000 else 0).

(** ** [GetBlockProof] *)

Definition GetBlockProof (nBits : Z) : Z :=
  let c := SetCompact nBits in
  if fNegative c || fOverflow c || (cValue c =? 0) then 0
  else u256 (u256 (Z.lnot (cValue c)) / u256 (cValue c + 1) + 1).

Example compact_genesis : cValue (SetCompact 0x1d00ffff) = 0xffff * 2 ^ 208.
Proof. reflexivity. Qed.

Example compact_back : GetCompact (0xffff * 2 ^ 208) false = 0x1d00ffff.
Proof. reflexivity. Qed.

(** ** Byte-size view of a value *)

(** [nSize] of [GetCompact]: the number of significant bytes. *)
Definition byte_size (v : Z) : Z := (bits v + 7) / 8.

Lemma bits_bounds v : 0 < v → 2 ^ (bits v - 1) <= v < 2 ^ bits v.
Proof.
  intros Hv. unfold bits. destruct (Z.eqb_spec v 0); [lia|].
  pose proof (Z.log2_spec v Hv) as H. rewrite <- Z.add_1_r in H.
  by replace (Z.log2 v + 1 - 1) with (Z.log2 v) by lia.
Qed.

Lemma bits_nonneg v : 0 <= bits v.
Proof. unfold bits. pose proof (Z.log2_nonneg v). case_match; lia. Qed.

Lemma bits_pos v : 0 < v → 1 <= bits v.
Proof. intros Hv. unfold bits. pose proof (Z.log2_nonneg v). case_match; breflect; lia. Qed.

Lemma byte_size_bounds v : 0 < v → 2 ^ (8 * (byte_size v - 1)) <= v < 2 ^ (8 * byte_size v).
Proof.
  intros Hv. pose proof (bits_bounds v Hv) as [H1 H2]. pose proof (bits_pos v Hv) as H3.
  unfold byte_size. pose proof (Z.div_mod (bits v + 7) 8 ltac:(lia)) as Hdm.
  pose proof (Z.mod_pos_bound (bits v + 7) 8 ltac:(lia)) as Hm.
  split; [etrans; [|exact H1]|eapply Z.lt_le_trans; [exact H2|]]; apply Z.pow_le_mono_r; lia.
Qed.

Lemma byte_size_pos v : 0 < v → 1 <= byte_size v.
Proof.
  intros Hv. pose proof (bits_pos v Hv). unfold byte_size.
  apply Z.div_le_lower_bound; lia.
Qed.

Lemma byte_size_le v n : 0 < v < 2 ^ (8 * n) → 0 <= n → byte_size v <= n.
Proof.
  intros [Hv Hn] H0. destruct (byte_size_bounds v Hv) as [H1 _].
  pose proof (byte_size_pos v Hv).
  assert (8 * (byte_size v - 1) < 8 * n); [|lia].
  apply (Z.pow_lt_mono_r_iff 2); lia.
Qed.

Lemma byte_size_256 v : 0 < v < 2 ^ 256 → byte_size v <= 32.
Proof. intros Hv. apply byte_size_le; [by change (8 * 32) with 256|lia]. Qed.

(** ** The packed form [mantissa + size * 2^24] *)

Definition pack (m e : Z) : Z := m + e * 2 ^ 24.

Lemma pack_size m e : 0 <= m < 2 ^ 24 → Z.shiftr (pack m e) 24 = e.
Proof.
  intros Hm. unfold pack. rewrite Z.shiftr_div_pow2 by lia.
  rewrite Z.div_add by lia. rewrite Z.div_small; lia.
Qed.

Lemma pack_word m e : 0 <= m < 2 ^ 23 → Z.land (pack m e) 0x007fffff = m.
Proof.
  intros Hm. change 0x007fffff with (Z.ones 23). rewrite Z.land_ones by lia.
  unfold pack. replace (e * 2 ^ 24) with (e * 2 * 2 ^ 23) by lia.
  rewrite Z_mod_plus_full. apply Z.mod_small. lia.
Qed.

Lemma pack_sign m e : 0 <= m < 2 ^ 23 → Z.land (pack m e) 0x00800000 = 0.
Proof.
  intros Hm. change 0x00800000 with (2 ^ 23). rewrite land_pow2 by lia.
  assert (Z.testbit (pack m e) 23 = false) as ->; [|done].
  apply Z.testbit_false; [lia|]. unfold pack.
  replace (e * 2 ^ 24) with (e * 2 * 2 ^ 23) by lia. rewrite Z.div_add by lia.
  rewrite Z.div_small by lia. rewrite Z.add_0_l, Z.mod_mul; lia.
Qed.

(** Decoding a packed value of size three or more. *)
Lemma SetCompact_pack m e :
  3 <= e <= 32 ∨ (3 <= e <= 33 ∧ m < 2 ^ 16) → 0 <= m < 2 ^ 23 →
  SetCompact (pack m e) = mkCompact (m * 2 ^ (8 * (e - 3))) false false.
Proof.
  intros He Hm. unfold SetCompact. rewrite pack_size, pack_word, pack_sign by lia.
  cbv zeta. rewrite Z.eqb_refl. cbn [negb]. rewrite andb_false_r.
  assert (Hlt : m * 2 ^ (8 * (e - 3)) < 2 ^ 256).
  { destruct He as [He|[He Hm']].
    - apply Z.lt_le_trans with (2 ^ 23 * 2 ^ (8 * (e - 3))).
      + apply Z.mul_lt_mono_pos_r; [apply Z.pow_pos_nonneg; lia|lia].
      + rewrite <- Z.pow_add_r by lia. apply Z.pow_le_mono_r; lia.
    - apply Z.lt_le_trans with (2 ^ 16 * 2 ^ (8 * (e - 3))).
      + apply Z.mul_lt_mono_pos_r; [apply Z.pow_pos_nonneg; lia|lia].
      + rewrite <- Z.pow_add_r by lia. apply Z.pow_le_mono_r; lia. }
  f_equal.
  - destruct (Z.leb_spec e 3).
    + replace e with 3 by lia. rewrite Z.shiftr_0_r. simpl. lia.
    + rewrite Z.shiftl_mul_pow2 by lia. apply wrap_small. split; [|done].
      apply Z.mul_nonneg_nonneg; [lia|]. apply Z.pow_nonneg. lia.
  - destruct (Z.leb_spec e 3); apply andb_false_iff; right;
      rewrite !orb_false_iff, !andb_false_iff, !Z.ltb_ge; lia.
Qed.

(** The three leading bytes of a value, shifted to 24 bits. *)
Definition leading (v : Z) : Z :=
  let n := byte_size v in
  if n <=? 3 then v * 2 ^ (8 * (3 - n)) else v / 2 ^ (8 * (n - 3)).

Lemma leading_bounds v : 0 < v → 2 ^ 16 <= leading v < 2 ^ 24.
Proof.
  intros Hv. destruct (byte_size_bounds v Hv) as [H1 H2]. pose proof (byte_size_pos v Hv).
  unfold leading. destruct (Z.leb_spec (byte_size v) 3).
  - replace (2 ^ 16) with (2 ^ (8 * (byte_size v - 1)) * 2 ^ (8 * (3 - byte_size v)))
      by (rewrite <- Z.pow_add_r by lia; f_equal; lia).
    replace (2 ^ 24) with (2 ^ (8 * byte_size v) * 2 ^ (8 * (3 - byte_size v)))
      by (rewrite <- Z.pow_add_r by lia; f_equal; lia).
    assert (0 < 2 ^ (8 * (3 - byte_size v))) by (apply Z.pow_pos_nonneg; lia). nia.
  - assert (Hp : 0 < 2 ^ (8 * (byte_size v - 3))) by (apply Z.pow_pos_nonneg; lia).
    split.
    + apply Z.div_le_lower_bound; [done|]. rewrite <- Z.pow_add_r by lia.
      etrans; [|exact H1]. apply Z.pow_le_mono_r; lia.
    + apply Z.div_lt_upper_bound; [done|]. rewrite <- Z.pow_add_r by lia.
      eapply Z.lt_le_trans; [exact H2|]. apply Z.pow_le_mono_r; lia.
Qed.

Lemma GetCompact_leading v :
  0 < v < 2 ^ 256 → GetCompact v false =
  if leading v <? 2 ^ 23 then pack (leading v) (byte_size v)
  else pack (leading v / 256) (byte_size v + 1).
Proof.
  intros [Hv Hmax]. pose proof (leading_bounds v Hv) as Hl.
  destruct (byte_size_bounds v Hv) as [_ H2]. pose proof (byte_size_pos v Hv).
  pose proof (byte_size_256 v ltac:(done)).
  unfold GetCompact. fold (byte_size v).
  assert (E : (if byte_size v <=? 3 then u32 (u64 (Z.shiftl (GetLow64 v) (8 * (3 - byte_size v))))
               else u32 (GetLow64 (Z.shiftr v (8 * (byte_size v - 3))))) = leading v).
  { unfold leading in *. destruct (Z.leb_spec (byte_size v) 3).
    - assert (v < 2 ^ 24) by (eapply Z.lt_le_trans; [exact H2|]; apply Z.pow_le_mono_r; lia).
      unfold GetLow64. rewrite (wrap_small 64 v) by (unfold fits; lia).
      rewrite Z.shiftl_mul_pow2 by lia. apply wrap_wrap_small; unfold fits; lia.
    - rewrite Z.shiftr_div_pow2 by lia. unfold GetLow64.
      apply wrap_wrap_small; unfold fits; lia. }
  cbv zeta. rewrite E. change 0x00800000 with (2 ^ 23).
  rewrite (land_top_bit (leading v) 23) by lia.
  assert (Hsz : ∀ e, 0 <= e <= 33 → u32 (Z.shiftl e 24) = e * 2 ^ 24).
  { intros e He. rewrite Z.shiftl_mul_pow2 by lia. apply wrap_small. unfold fits. lia. }
  destruct (Z.ltb_spec (leading v) (2 ^ 23)); cbn [negb andb]; rewrite Hsz by lia.
  - rewrite lor_disjoint by lia. apply Z.lor_0_r.
  - rewrite Z.shiftr_div_pow2 by lia. change (2 ^ 8) with 256.
    assert (leading v / 256 < 2 ^ 24) by (apply Z.div_lt_upper_bound; lia).
    rewrite lor_disjoint by (try split; try lia; apply Z.div_pos; lia). apply Z.lor_0_r.
Qed.

(** What [GetCompact] keeps of a value: at least its fifteen leading bits. *)
Lemma GetCompact_pack v :
  0 < v < 2 ^ 256 →
  ∃ m e, GetCompact v false = pack m e ∧ 2 ^ 15 <= m < 2 ^ 23 ∧ 1 <= e <= 33 ∧
    (e = 33 → m < 2 ^ 16) ∧
    (if e <=? 3 then m = v * 2 ^ (8 * (3 - e)) else m = v / 2 ^ (8 * (e - 3))).
Proof.
  intros Hv. rewrite (GetCompact_leading v Hv). pose proof (leading_bounds v ltac:(lia)) as Hl.
  pose proof (byte_size_pos v ltac:(lia)). pose proof (byte_size_256 v ltac:(done)).
  destruct (Z.ltb_spec (leading v) (2 ^ 23)).
  - exists (leading v), (byte_size v). split; [done|]. split; [lia|]. split; [lia|].
    split; [lia|]. unfold leading. by destruct (byte_size v <=? 3).
  - exists (leading v / 256), (byte_size v + 1). split; [done|].
    assert (2 ^ 15 <= leading v / 256 < 2 ^ 16).
    { split; [apply Z.div_le_lower_bound|apply Z.div_lt_upper_bound]; lia. }
    split; [lia|]. split; [lia|]. split; [lia|].
    unfold leading. destruct (Z.leb_spec (byte_size v) 3), (Z.leb_spec (byte_size v + 1) 3); try lia.
    + replace (8 * (3 - byte_size v)) with (8 * (3 - (byte_size v + 1)) + 8) by lia.
      rewrite Z.pow_add_r by lia. change (2 ^ 8) with 256. rewrite Z.mul_assoc. apply Z.div_mul. lia.
    + replace (byte_size v) with 3 by lia. simpl. by rewrite Z.mul_1_r.
    + change 256 with (2 ^ 8). rewrite Z.div_div by (try apply Z.pow_nonzero; lia).
      rewrite <- Z.pow_add_r by lia. do 2 f_equal. lia.
Qed.

(** [s] low bits are cleared by the compact encoding of [v]. *)
Definition cleared (v s : Z) : Prop :=
  0 <= s ∧ (8 | s) ∧ v < 2 ^ (s + 23) ∧ (s = 0 ∨ 2 ^ (s + 15) <= v).

(** The value that survives the compact encoding. *)
Definition round (v : Z) : Z := cValue (SetCompact (GetCompact v false)).

(** Decoding what [GetCompact] produced: the low bits are cleared. *)
Lemma SetCompact_GetCompact v :
  0 <= v < 2 ^ 256 →
  ∃ s, cleared v s ∧
       SetCompact (GetCompact v false) = mkCompact (v / 2 ^ s * 2 ^ s) false false.
Proof.
  intros Hv. destruct (decide (v = 0)) as [->|Hnz].
  { exists 0. split; [|reflexivity]. split; [lia|]. split; [apply Z.divide_0_r|]. lia. }
  destruct (GetCompact_pack v) as (m & e & -> & Hm & He & H33 & Hval); [lia|].
  destruct (Z.leb_spec e 3) as [He3|He3].
  - assert (Hp : 0 < 2 ^ (8 * (3 - e))) by (apply Z.pow_pos_nonneg; lia).
    exists 0. split.
    { split; [lia|]. split; [apply Z.divide_0_r|]. split; [|by left]. rewrite Z.add_0_l. nia. }
    rewrite Z.pow_0_r, Z.div_1_r, Z.mul_1_r.
    unfold SetCompact. rewrite pack_size, pack_word, pack_sign by lia. cbv zeta.
    destruct (Z.leb_spec e 3); [|lia]. rewrite Z.shiftr_div_pow2 by lia.
    assert (E : m / 2 ^ (8 * (3 - e)) = v) by (rewrite Hval; apply Z.div_mul; lia).
    rewrite E. rewrite Z.eqb_refl. cbn [negb]. rewrite andb_false_r. f_equal.
    apply andb_false_iff. right. rewrite !orb_false_iff, !andb_false_iff, !Z.ltb_ge. lia.
  - assert (Hp : 0 < 2 ^ (8 * (e - 3))) by (apply Z.pow_pos_nonneg; lia).
    pose proof (Z.mul_div_le v _ Hp). pose proof (Z.mul_succ_div_gt v _ Hp).
    exists (8 * (e - 3)). rewrite Hval in Hm. split.
    + split; [lia|]. split; [by exists (e - 3); lia|].
      rewrite !Z.pow_add_r by lia. split; [nia|]. right. nia.
    + rewrite SetCompact_pack by lia. by rewrite Hval.
Qed.

Lemma cleared_unique v s s' : cleared v s → cleared v s' → s = s'.
Proof.
  assert (∀ s s', cleared v s → cleared v s' → s < s' → False) as Hlt.
  { intros t t' (H1 & [a Ha] & H3 & _) (H1' & [b Hb] & _ & [->|H4]) Htt; [lia|].
    assert (2 ^ (t + 23) <= 2 ^ (t' + 15)) by (apply Z.pow_le_mono_r; lia). lia. }
  intros H H'. destruct (Z.lt_trichotomy s s') as [?|[?|?]]; [|done|]; exfalso; eauto.
Qed.

Lemma round_spec v s : 0 <= v < 2 ^ 256 → cleared v s → round v = v / 2 ^ s * 2 ^ s.
Proof.
  intros Hv Hs. destruct (SetCompact_GetCompact v Hv) as (s' & Hs' & E).
  unfold round. rewrite E. by rewrite (cleared_unique v s s').
Qed.

Lemma round_le v : 0 <= v < 2 ^ 256 → 0 <= round v <= v.
Proof.
  intros Hv. destruct (SetCompact_GetCompact v Hv) as (s & Hs & _).
  rewrite (round_spec v s Hv Hs).
  assert (Hp : 0 < 2 ^ s) by (apply Z.pow_pos_nonneg; [lia|apply Hs]).
  pose proof (Z.mul_div_le v _ Hp). pose proof (Z.div_pos v (2 ^ s)). nia.
Qed.

(** Rounding is monotone, so comparing rounded targets is sound. *)
Lemma round_mono v w : 0 <= v <= w → w < 2 ^ 256 → round v <= round w.
Proof.
  intros Hvw Hw. destruct (SetCompact_GetCompact v) as (s & Hs & _); [lia|].
  destruct (SetCompact_GetCompact w) as (t & Ht & _); [lia|].
  pose proof (round_le v ltac:(lia)) as Hrv.
  rewrite (round_spec w t) by (done || lia).
  pose proof Hs as (Hs0 & [a Ha] & Hs1 & Hs2). destruct Ht as (Ht0 & [b Hb] & Ht1 & Ht2).
  assert (Hpt : 0 < 2 ^ t) by (apply Z.pow_pos_nonneg; lia).
  destruct (Z.lt_trichotomy s t) as [Hst|[Hst|Hst]].
  - destruct Ht2 as [->|Ht2]; [lia|]. etrans; [apply Hrv|].
    assert (2 ^ (s + 23) <= 2 ^ (t + 15)) by (apply Z.pow_le_mono_r; lia).
    rewrite (Z.pow_add_r 2 t 15) in * by lia.
    assert (2 ^ 15 <= w / 2 ^ t) by (apply Z.div_le_lower_bound; lia). nia.
  - rewrite (round_spec v s) by (done || lia). rewrite Hst.
    apply Z.mul_le_mono_nonneg_r; [lia|]. apply Z.div_le_mono; lia.
  - exfalso. destruct Hs2 as [->|Hs2]; [lia|].
    assert (2 ^ (t + 23) <= 2 ^ (s + 15)) by (apply Z.pow_le_mono_r; lia). lia.
Qed.

(** A rounded value is a fixed point. *)
Lemma round_idem v : 0 <= v < 2 ^ 256 → round (round v) = round v.
Proof.
  intros Hv. destruct (SetCompact_GetCompact v Hv) as (s & Hs & _).
  pose proof (round_le v Hv) as Hr. rewrite (round_spec v s) in * by done.
  assert (Hp : 0 < 2 ^ s) by (apply Z.pow_pos_nonneg; [lia|apply Hs]).
  assert (Hc : cleared (v / 2 ^ s * 2 ^ s) s).
  { destruct Hs as (? & ? & ? & Hor). split; [done|]. split; [done|]. split; [lia|].
    destruct Hor as [?|H15]; [by left|]. right. rewrite Z.pow_add_r in * by lia.
    assert (2 ^ 15 <= v / 2 ^ s) by (apply Z.div_le_lower_bound; lia). nia. }
  rewrite (round_spec _ s) by (done || lia). rewrite Z.div_mul by lia. done.
Qed.

(** [GetBlockProof] computes [2^256 / (target + 1)] without the 257-bit constant. *)
Lemma GetBlockProof_value nBits :
  let c := SetCompact nBits in
  fNegative c = false → fOverflow c = false → 0 < cValue c < 2 ^ 256 - 1 →
  GetBlockProof nBits = 2 ^ 256 / (cValue c + 1).
Proof.
  intros c Hn Ho Hv. unfold GetBlockProof. fold c. rewrite Hn, Ho.
  destruct (Z.eqb_spec (cValue c) 0); [lia|]. cbn [orb].
  assert (E : u256 (Z.lnot (cValue c)) = 2 ^ 256 - (cValue c + 1)).
  { unfold Z.lnot, wrap. symmetry. apply (Z.mod_unique _ _ (-1)); lia. }
  rewrite E, (wrap_small 256 (cValue c + 1)) by (unfold fits; lia).
  assert (Hd : (2 ^ 256 - (cValue c + 1)) / (cValue c + 1) + 1 = 2 ^ 256 / (cValue c + 1)).
  { replace (2 ^ 256) with (2 ^ 256 - (cValue c + 1) + 1 * (cValue c + 1)) at 2 by lia.
    rewrite Z.div_add by lia. lia. }
  rewrite Hd. apply wrap_small. split; [apply Z.div_pos; lia|].
  apply Z.div_lt_upper_bound; lia.
Qed.

(** Every decoded target leaves room for the [+ 1] of [GetBlockProof]. *)
Lemma SetCompact_range nCompact :
  fits 32 nCompact → 0 <= cValue (SetCompact nCompact) < 2 ^ 256 - 1.
Proof.
  intros Hc. unfold SetCompact. cbn [cValue].
  change 0x007fffff with (Z.ones 23). rewrite Z.land_ones by lia.
  pose proof (Z.mod_pos_bound nCompact (2 ^ 23) ltac:(lia)) as Hw.
  set (w := nCompact mod 2 ^ 23) in *.
  rewrite Z.shiftr_div_pow2 by lia.
  assert (0 <= nCompact / 2 ^ 24) by (apply Z.div_pos; unfold fits in Hc; lia).
  destruct (Z.leb_spec (nCompact / 2 ^ 24) 3).
  - rewrite Z.shiftr_div_pow2 by lia.
    assert (0 < 2 ^ (8 * (3 - nCompact / 2 ^ 24))) by (apply Z.pow_pos_nonneg; lia).
    split; [apply Z.div_pos; lia|]. apply Z.div_lt_upper_bound; nia.
  - pose proof (wrap_fits 256 (Z.shiftl w (8 * (nCompact / 2 ^ 24 - 3))) ltac:(lia)) as Hf.
    split; [apply Hf|]. assert (u256 (Z.shiftl w (8 * (nCompact / 2 ^ 24 - 3))) ≠ 2 ^ 256 - 1);
      [|unfold fits in Hf; lia].
    rewrite Z.shiftl_mul_pow2 by lia. intros Heq.
    assert (Hodd : Z.odd (u256 (w * 2 ^ (8 * (nCompact / 2 ^ 24 - 3)))) = false).
    { unfold wrap. rewrite <- Z.bit0_odd, Z.mod_pow2_bits_low by lia.
      apply Z.mul_pow2_bits_low. lia. }
    rewrite Heq in Hodd. done.
Qed.


(** ** Properties *)

(** The compact encoding rounds targets soundly: encoding and decoding any 256-bit
    value sets neither flag, never gives a larger value, loses less than one part in
    [2^15], is idempotent and respects the order of targets. *)
Theorem compact_rounding v w :
  0 <= v <= w → w < 2 ^ 256 →
  let r := SetCompact (GetCompact v false) in
  fNegative r = false ∧ fOverflow r = false ∧ 0 <= cValue r <= v ∧
  (v - cValue r) * 2 ^ 15 <= v ∧
  cValue (SetCompact (GetCompact (cValue r) false)) = cValue r ∧
  cValue r <= cValue (SetCompact (GetCompact w false)).
Proof.
  intros Hv Hw. cbv zeta. pose proof (round_le v ltac:(lia)) as Hle.
  pose proof (round_idem v ltac:(lia)) as Hid. pose proof (round_mono v w Hv Hw) as Hmono.
  destruct (SetCompact_GetCompact v ltac:(lia)) as (s & Hs & E).
  unfold round in *. rewrite E in *. cbn [cValue fNegative fOverflow] in *.
  split; [done|]. split; [done|]. split; [done|]. split; [|done].
  destruct Hs as (Hs0 & _ & _ & [->|Hbig]).
  - rewrite Z.pow_0_r, Z.div_1_r. lia.
  - assert (Hp : 0 < 2 ^ s) by (apply Z.pow_pos_nonneg; lia).
    pose proof (Z.mod_pos_bound v (2 ^ s) Hp). pose proof (Z.div_mod v (2 ^ s) ltac:(lia)).
    rewrite Z.pow_add_r in Hbig by lia. nia.
Qed.

Lemma compact_rounding_witness :
  cValue (SetCompact (GetCompact (2 ^ 200 + 1) false)) = 2 ^ 200 ∧
  cValue (SetCompact (GetCompact (2 ^ 200 + 1) false)) <=
    cValue (SetCompact (GetCompact (2 ^ 201) false)).
Proof.
  split; [reflexivity|].
  refine (proj2 (proj2 (proj2 (proj2 (proj2 (compact_rounding (2 ^ 200 + 1) (2 ^ 201) _ _))))));
    lia.
Defined.

(** [GetBlockProof] is the expected number of hashes, 2^256 / (target + 1), for every
    header value without flags, although 2^256 does not fit the type; a smaller target
    never counts for less work, and every valid target counts for some. *)
Theorem block_proof_exact n n' :
  fits 32 n → fits 32 n' →
  let c := SetCompact n in let c' := SetCompact n' in
  fNegative c = false → fOverflow c = false → 0 < cValue c →
  fNegative c' = false → fOverflow c' = false → cValue c <= cValue c' →
  GetBlockProof n = 2 ^ 256 / (cValue c + 1) ∧ 0 < GetBlockProof n < 2 ^ 256 ∧
  GetBlockProof n' <= GetBlockProof n.
Proof.
  intros Hn Hn' c c' H1 H2 H3 H4 H5 Hle.
  pose proof (SetCompact_range n Hn) as Hr. pose proof (SetCompact_range n' Hn') as Hr'.
  fold c in Hr. fold c' in Hr'.
  rewrite (GetBlockProof_value n H1 H2 ltac:(fold c; lia)).
  rewrite (GetBlockProof_value n' H4 H5 ltac:(fold c'; lia)). fold c c'.
  split; [done|]. split; [split|].
  - apply Z.div_str_pos. lia.
  - apply Z.div_lt; lia.
  - apply Z.div_le_compat_l; lia.
Qed.
