(* ===== verification/Limbs.v ===== *)
(** * The limbs of [base_uint] (src/src/arith_uint256.h, arith_uint256.cpp)

    [base_uint<BITS>] keeps a number as [WIDTH = BITS / 32] limbs of 32 bits, least
    significant first.  The operators are translated limb by limb, for any width, with the
    64-bit intermediate values of the code; each is proved to be the operation on the number
    modulo [2 ^ BITS] that Arith256.v and its users compute with. *)

From S2P Require Import Prelude Arith256.

(** ** Operations *)

(** [uint32_t pn[WIDTH]]. *)
Abbreviation base_uint := (list Z).

Definition zero_uint (WIDTH : nat) : base_uint := replicate WIDTH 0.

Definition of_uint64 (WIDTH : nat) (b : Z) : base_uint :=
  u32 b :: u32 (Z.shiftr b 32) :: replicate (WIDTH - 2) 0.

Definition op_not (a : base_uint) : base_uint := (λ x, u32 (Z.lnot x)) <$> a.

Fixpoint op_incr (a : base_uint) : base_uint :=
  match a with
  | [] => []
  | x :: a' => let y := u32 (x + 1) in if y =? 0 then y :: op_incr a' else y :: a'
  end.

Fixpoint op_decr (a : base_uint) : base_uint :=
  match a with
  | [] => []
  | x :: a' => let y := u32 (x - 1) in if y =? 0xffffffff then y :: op_decr a' else y :: a'
  end.

Definition op_neg (a : base_uint) : base_uint := op_incr (op_not a).

Fixpoint add_loop (carry : Z) (a b : base_uint) : base_uint :=
  match a, b with
  | x :: a', y :: b' =>
      let n := u64 (carry + x + y) in
      Z.land n 0xffffffff :: add_loop (Z.shiftr n 32) a' b'
  | _, _ => []
  end.

Definition op_add (a b : base_uint) : base_uint := add_loop 0 a b.
Definition op_sub (a b : base_uint) : base_uint := op_add a (op_neg b).

Fixpoint mul32_loop (carry b32 : Z) (a : base_uint) : base_uint :=
  match a with
  | [] => []
  | x :: a' =>
      let n := u64 (carry + u64 (b32 * x)) in
      Z.land n 0xffffffff :: mul32_loop (Z.shiftr n 32) b32 a'
  end.

Definition op_mul32 (a : base_uint) (b32 : Z) : base_uint := mul32_loop 0 b32 a.

(** The inner loop of the product: [a] is the accumulator from limb [j] up, [x] is [pn[j]]. *)
Fixpoint mul_row (carry x : Z) (a b : base_uint) : base_uint :=
  match a, b with
  | z :: a', y :: b' =>
      let n := u64 (carry + z + u64 (x * y)) in
      Z.land n 0xffffffff :: mul_row (Z.shiftr n 32) x a' b'
  | _, _ => a
  end.

(** The outer loop: after round [j] limb [j] of the accumulator is final. *)
Fixpoint mul_loop (pn a b : base_uint) : base_uint :=
  match pn with
  | [] => a
  | x :: pn' =>
      match mul_row 0 x a b with
      | [] => []
      | z :: a' => z :: mul_loop pn' a' b
      end
  end.

Definition op_mul (a b : base_uint) : base_uint := mul_loop a (zero_uint (length a)) b.

(** [pn[i]]. *)
Definition pn (a : base_uint) (i : nat) : Z := default 0 (a !! i).

(** [pn[i] |= v]. *)
Definition or_at (i : nat) (v : Z) (a : base_uint) : base_uint := alter (λ x, Z.lor x v) i a.

Definition shl_step (a : base_uint) (k : nat) (shift : Z) (r : base_uint) (i : nat) : base_uint :=
  let r := if (i + k + 1 <? length a)%nat && negb (shift =? 0)
           then or_at (i + k + 1) (Z.shiftr (pn a i) (32 - shift)) r else r in
  if (i + k <? length a)%nat then or_at (i + k) (u32 (Z.shiftl (pn a i) shift)) r else r.

Definition op_shl (a : base_uint) (shift : Z) : base_uint :=
  foldl (shl_step a (Z.to_nat (shift / 32)) (shift mod 32)) (zero_uint (length a))
    (seq 0 (length a)).

Definition shr_step (a : base_uint) (k : nat) (shift : Z) (r : base_uint) (i : nat) : base_uint :=
  let r := if (k + 1 <=? i)%nat && negb (shift =? 0)
           then or_at (i - k - 1) (u32 (Z.shiftl (pn a i) (32 - shift))) r else r in
  if (k <=? i)%nat then or_at (i - k) (Z.shiftr (pn a i) shift) r else r.

Definition op_shr (a : base_uint) (shift : Z) : base_uint :=
  foldl (shr_step a (Z.to_nat (shift / 32)) (shift mod 32)) (zero_uint (length a))
    (seq 0 (length a)).

(** The loop over the limbs below [i], from the top. *)
Fixpoint CompareTo_loop (i : nat) (a b : base_uint) : Z :=
  match i with
  | O => 0
  | S i' => if pn a i' <? pn b i' then -1
            else if pn b i' <? pn a i' then 1
            else CompareTo_loop i' a b
  end.

Definition CompareTo (a b : base_uint) : Z := CompareTo_loop (length a) a b.

Definition EqualTo (a : base_uint) (b : Z) : bool :=
  forallb (Z.eqb 0) (drop 2 a) && (pn a 1 =? Z.shiftr b 32) && (pn a 0 =? Z.land b 0xffffffff).

Fixpoint limb_bits (nbits : nat) (x : Z) : Z :=
  match nbits with
  | O => 1
  | S n => if negb (Z.land x (Z.shiftl 1 (Z.of_nat nbits)) =? 0) then Z.of_nat nbits + 1
           else limb_bits n x
  end.

Fixpoint bits_loop (pos : nat) (a : base_uint) : Z :=
  match pos with
  | O => 0
  | S p => if negb (pn a p =? 0) then 32 * Z.of_nat p + limb_bits 31 (pn a p) else bits_loop p a
  end.

Definition op_bits (a : base_uint) : Z := bits_loop (length a) a.

Definition op_GetLow64 (a : base_uint) : Z := Z.lor (pn a 0) (u64 (Z.shiftl (pn a 1) 32)).

(** The long division from bit [shift] down; [fuel] is [shift + 1]. *)
Fixpoint div_loop (fuel : nat) (num div quotient : base_uint) : base_uint :=
  match fuel with
  | O => quotient
  | S shift =>
      let '(num, quotient) :=
        if 0 <=? CompareTo num div
        then (op_sub num div,
              or_at (shift / 32) (u32 (Z.shiftl 1 (Z.land (Z.of_nat shift) 31))) quotient)
        else (num, quotient) in
      div_loop shift num (op_shr div 1) quotient
  end.

(** [None] is the exception for a zero divisor. *)
Definition op_div (a b : base_uint) : option base_uint :=
  let num_bits := op_bits a in
  let div_bits := op_bits b in
  if div_bits =? 0 then None
  else if num_bits <? div_bits then Some (zero_uint (length a))
  else
    let shift := num_bits - div_bits in
    Some (div_loop (S (Z.to_nat shift)) a (op_shl b shift) (zero_uint (length a))).

(** ** The number *)

Definition limb (x : Z) : Prop := fits 32 x.
Definition well_formed (a : base_uint) : Prop := Forall limb a.

Fixpoint value (a : base_uint) : Z :=
  match a with
  | [] => 0
  | x :: a' => x + 2 ^ 32 * value a'
  end.

(** The modulus of a width. *)
Definition modulus (n : nat) : Z := 2 ^ (32 * Z.of_nat n).

Lemma modulus_S n : modulus (S n) = 2 ^ 32 * modulus n.
Proof. unfold modulus. rewrite <- Z.pow_add_r by lia. f_equal. lia. Qed.

Lemma modulus_pos n : 0 < modulus n.
Proof. unfold modulus. apply Z.pow_pos_nonneg; lia. Qed.

Lemma value_bounds a : well_formed a → 0 <= value a < modulus (length a).
Proof.
  induction 1 as [|x a Hx Ha IH]; [done|]. cbn [value length]. rewrite modulus_S.
  unfold limb, fits in Hx. lia.
Qed.

(** The low limb of a number splits off a modulus. *)
Lemma mod_split B M lo z : 0 < B → 0 < M → 0 <= lo < B → (lo + B * z) mod (B * M) = lo + B * (z mod M).
Proof.
  intros HB HM Hlo. symmetry. pose proof (Z.mod_pos_bound z M HM).
  apply (Z.mod_unique_pos _ _ (z / M)); [nia|].
  rewrite (Z.div_mod z M) at 1 by lia. ring.
Qed.

Lemma land_low n : Z.land n 0xffffffff = n mod 2 ^ 32.
Proof. change 0xffffffff with (Z.ones 32). by apply Z.land_ones. Qed.

Lemma low_limb n : limb (Z.land n 0xffffffff).
Proof. rewrite land_low. by apply Z.mod_pos_bound. Qed.

(** One limb of a carry chain: the low half stays, the high half is the carry. *)
Lemma carry_step n : fits 64 n →
  n = Z.land n 0xffffffff + 2 ^ 32 * Z.shiftr n 32 ∧ limb (Z.land n 0xffffffff) ∧ limb (Z.shiftr n 32).
Proof.
  intros Hn. split; [|split; [apply low_limb|]].
  - rewrite land_low, Z.shiftr_div_pow2 by lia. rewrite (Z.div_mod n (2 ^ 32)) at 1 by lia. lia.
  - rewrite Z.shiftr_div_pow2 by lia. unfold fits in Hn. change (2 ^ 64) with (2 ^ 32 * 2 ^ 32) in Hn.
    split; [apply Z.div_pos; lia|apply Z.div_lt_upper_bound; lia].
Qed.

(** What an operator returns: a number of the same width, with the given value. *)
Definition is_number (n : nat) (v : Z) (a : base_uint) : Prop :=
  well_formed a ∧ length a = n ∧ value a = v mod modulus n.

Lemma is_number_cons n v lo z a :
  limb lo → v = lo + 2 ^ 32 * z → is_number n z a → is_number (S n) v (lo :: a).
Proof.
  intros Hlo -> (H1 & H2 & H3). split; [by constructor|]. split; [simpl; by f_equal|].
  cbn [value]. rewrite H3, modulus_S, mod_split; [done|lia|apply modulus_pos|exact Hlo].
Qed.

Lemma nil_number v : is_number 0 v [].
Proof. split_and!; [constructor|done|]. symmetry. apply Z.mod_1_r. Qed.

Lemma is_number_id a : well_formed a → is_number (length a) (value a) a.
Proof. intros H. split_and!; [done|done|]. symmetry. apply Z.mod_small. by apply value_bounds. Qed.

(** The next limb of a carry chain. *)
Lemma is_number_carry n m v z a :
  fits 64 m → v = m + 2 ^ 32 * z → is_number n (Z.shiftr m 32 + z) a →
  is_number (S n) v (Z.land m 0xffffffff :: a).
Proof.
  intros Hm -> Ha. destruct (carry_step m Hm) as (E & Hlo & _).
  apply (is_number_cons _ _ _ (Z.shiftr m 32 + z)); [done| |done]. lia.
Qed.

Lemma zero_number n : is_number n 0 (zero_uint n).
Proof.
  induction n as [|n IH]; [apply nil_number|]. apply (is_number_cons n 0 0 0); [done|done|exact IH].
Qed.

(** ** Carry chains *)

Lemma add_loop_spec a : ∀ carry b,
  limb carry → well_formed a → well_formed b → length a = length b →
  is_number (length a) (carry + value a + value b) (add_loop carry a b).
Proof.
  induction a as [|x a IH]; intros carry [|y b] Hc Ha Hb Hl; try done.
  { apply nil_number. }
  apply Forall_cons in Ha as [Hx Ha], Hb as [Hy Hb]. injection Hl as Hl.
  unfold limb, fits in *. cbn [add_loop value length].
  assert (Hn : fits 64 (carry + x + y)) by (unfold fits; lia).
  rewrite (wrap_small 64) by done. destruct (carry_step _ Hn) as (_ & _ & Hs).
  apply (is_number_carry _ _ _ (value a + value b)); [done|lia|].
  rewrite Z.add_assoc. by apply IH.
Qed.

Lemma op_add_spec a b :
  well_formed a → well_formed b → length a = length b →
  is_number (length a) (value a + value b) (op_add a b).
Proof. intros Ha Hb Hl. by apply (add_loop_spec a 0 b). Qed.

Lemma op_not_spec a : well_formed a →
  well_formed (op_not a) ∧ length (op_not a) = length a ∧
  value (op_not a) = modulus (length a) - 1 - value a.
Proof.
  induction 1 as [|x a Hx Ha (IH1 & IH2 & IH3)]; [split_and!; [constructor|done..]|]. unfold op_not in *.
  cbn [fmap list_fmap length value]. rewrite modulus_S.
  assert (E : u32 (Z.lnot x) = 2 ^ 32 - 1 - x).
  { unfold wrap. symmetry. unfold limb, fits in Hx.
    apply (Z.mod_unique_pos _ _ (-1)); [lia|]. rewrite Z.lnot_eq_pred_opp. lia. }
  unfold limb, fits in Hx. rewrite E. split; [constructor; [unfold limb, fits; lia|done]|].
  split; [by f_equal|]. rewrite IH3. lia.
Qed.

Lemma op_incr_spec a : well_formed a → is_number (length a) (value a + 1) (op_incr a).
Proof.
  induction 1 as [|x a Hx Ha IH]; [apply nil_number|].
  cbn [op_incr length value]. pose proof (wrap_fits 32 (x + 1) ltac:(lia)) as Hf.
  unfold limb, fits in Hx. destruct (Z.eqb_spec (u32 (x + 1)) 0) as [E|E].
  - assert (x = 2 ^ 32 - 1).
    { destruct (decide (x + 1 < 2 ^ 32)); [|lia]. rewrite (wrap_small 32) in E; [lia|unfold fits; lia]. }
    apply (is_number_cons _ _ _ (value a + 1)); [done|lia|done].
  - assert (E1 : u32 (x + 1) = x + 1).
    { apply wrap_small. unfold fits. destruct (decide (x + 1 < 2 ^ 32)); [lia|].
      replace x with (2 ^ 32 - 1) in E by lia. done. }
    apply (is_number_cons _ _ _ (value a)); [done|lia|by apply is_number_id].
Qed.

Lemma op_decr_spec a : well_formed a → is_number (length a) (value a - 1) (op_decr a).
Proof.
  induction 1 as [|x a Hx Ha IH]; [apply nil_number|].
  cbn [op_decr length value]. pose proof (wrap_fits 32 (x - 1) ltac:(lia)) as Hf.
  unfold limb, fits in Hx. destruct (decide (x = 0)) as [->|Hne].
  - replace (u32 (0 - 1)) with 0xffffffff by done. rewrite Z.eqb_refl.
    apply (is_number_cons _ _ _ (value a - 1)); [done|lia|done].
  - assert (E1 : u32 (x - 1) = x - 1) by (apply wrap_small; unfold fits; lia).
    rewrite E1 in *. destruct (Z.eqb_spec (x - 1) 0xffffffff); [lia|].
    apply (is_number_cons _ _ _ (value a)); [done|lia|by apply is_number_id].
Qed.

Lemma op_neg_spec a : well_formed a → is_number (length a) (- value a) (op_neg a).
Proof.
  intros Ha. destruct (op_not_spec a Ha) as (H1 & H2 & H3). unfold op_neg.
  destruct (op_incr_spec _ H1) as (H4 & H5 & H6). rewrite H2, H3 in *. split_and!; [done..|].
  rewrite H6. replace (modulus (length a) - 1 - value a + 1) with (- value a + 1 * modulus (length a)) by lia.
  apply Z.mod_add. pose proof (modulus_pos (length a)). lia.
Qed.

Lemma op_sub_spec a b :
  well_formed a → well_formed b → length a = length b →
  is_number (length a) (value a - value b) (op_sub a b).
Proof.
  intros Ha Hb Hl. destruct (op_neg_spec b Hb) as (H1 & H2 & H3).
  destruct (op_add_spec a (op_neg b) Ha H1) as (H4 & H5 & H6); [congruence|].
  split_and!; [done..|]. unfold op_sub. rewrite H6, H3, <- Hl. by rewrite Zplus_mod_idemp_r.
Qed.

Lemma mul32_loop_spec a : ∀ carry b32,
  limb carry → limb b32 → well_formed a →
  is_number (length a) (carry + b32 * value a) (mul32_loop carry b32 a).
Proof.
  induction a as [|x a IH]; intros carry b32 Hc Hb Ha.
  { apply nil_number. }
  apply Forall_cons in Ha as [Hx Ha]. unfold limb, fits in *. cbn [mul32_loop value length].
  assert (Hp : fits 64 (b32 * x)) by (unfold fits; nia).
  rewrite (wrap_small 64 (b32 * x)) by done.
  assert (Hn : fits 64 (carry + b32 * x)) by (unfold fits; nia).
  rewrite (wrap_small 64) by done. destruct (carry_step _ Hn) as (_ & _ & Hs).
  apply (is_number_carry _ _ _ (b32 * value a)); [done|lia|]. by apply IH.
Qed.

Lemma mul_row_spec a : ∀ carry x b,
  limb carry → limb x → well_formed a → well_formed b → (length a <= length b)%nat →
  is_number (length a) (carry + value a + x * value b) (mul_row carry x a b).
Proof.
  induction a as [|z a IH]; intros carry x [|y b] Hc Hx Ha Hb Hl; try (cbn [length] in Hl; lia).
  1, 2: apply nil_number.
  apply Forall_cons in Ha as [Hz Ha], Hb as [Hy Hb]. unfold limb, fits in *. cbn [mul_row value length] in *.
  assert (Hp : fits 64 (x * y)) by (unfold fits; nia).
  rewrite (wrap_small 64 (x * y)) by done.
  assert (Hn : fits 64 (carry + z + x * y)) by (unfold fits; nia).
  rewrite (wrap_small 64) by done. destruct (carry_step _ Hn) as (_ & _ & Hs).
  apply (is_number_carry _ _ _ (value a + x * value b)); [done|lia|].
  rewrite Z.add_assoc. apply IH; [done..|lia].
Qed.

Lemma mul_loop_spec pn : ∀ a b,
  well_formed pn → well_formed a → well_formed b → length pn = length a → (length a <= length b)%nat →
  is_number (length a) (value a + value pn * value b) (mul_loop pn a b).
Proof.
  induction pn as [|x pn IH]; intros a b Hp Ha Hb Hl Hle; cbn [mul_loop value].
  { rewrite Z.mul_0_l, Z.add_0_r. by apply is_number_id. }
  apply Forall_cons in Hp as [Hx Hp]. destruct a as [|z0 a0]; [done|].
  destruct (mul_row_spec (z0 :: a0) 0 x b) as (H1 & H2 & H3); [done..|].
  destruct (mul_row 0 x (z0 :: a0) b) as [|z a]; [done|]. cbn [length] in *.
  injection H2 as H2. injection Hl as Hl. apply Forall_cons in H1 as [Hz H1].
  rewrite modulus_S in H3. cbn [value] in H3 |- *.
  destruct (IH a b Hp H1 Hb) as (I1 & I2 & I3); [congruence|lia|].
  split; [by constructor|]. split; [cbn [length]; congruence|]. cbn [value].
  rewrite I3, H2, modulus_S, <- mod_split; [|lia|apply modulus_pos|exact Hz].
  set (M := 2 ^ 32 * modulus (length a0)) in *.
  replace (z + 2 ^ 32 * (value a + value pn * value b)) with
    ((z + 2 ^ 32 * value a) + 2 ^ 32 * value pn * value b) by ring.
  rewrite H3, Zplus_mod_idemp_l. f_equal. ring.
Qed.

Lemma op_mul_spec a b :
  well_formed a → well_formed b → length a = length b →
  is_number (length a) (value a * value b) (op_mul a b).
Proof.
  intros Ha Hb Hl. destruct (zero_number (length a)) as (H1 & H2 & H3).
  pose proof (mul_loop_spec a (zero_uint (length a)) b) as H.
  rewrite H2, H3, Z.mod_0_l in H by (pose proof (modulus_pos (length a)); lia).
  apply H; [done..|lia].
Qed.

(** ** Single limbs and bits *)

Lemma pn_limb a i : well_formed a → limb (pn a i).
Proof.
  intros Ha. unfold pn. destruct (a !! i) as [x|] eqn:E; [|done]. by eapply Forall_lookup_1 in Ha.
Qed.

Lemma pn_out a i : (length a <= i)%nat → pn a i = 0.
Proof. intros H. unfold pn. by rewrite lookup_ge_None_2. Qed.

(** Bit [m] of the number is bit [m mod 32] of limb [m / 32]. *)
Lemma value_testbit a : well_formed a → ∀ i r,
  0 <= r < 32 → Z.testbit (value a) (32 * Z.of_nat i + r) = Z.testbit (pn a i) r.
Proof.
  induction 1 as [|x a Hx Ha IH]; intros i r Hr.
  { unfold pn. rewrite lookup_nil. simpl. by rewrite !Z.bits_0. }
  cbn [value]. unfold limb, fits in Hx. destruct i as [|i].
  - change (pn (x :: a) 0) with x. rewrite Z.mul_0_r, Z.add_0_l.
    rewrite <- (Z.mod_pow2_bits_low (x + 2 ^ 32 * value a) 32) by lia. f_equal.
    rewrite Z.mul_comm, Z.mod_add by lia. by apply Z.mod_small.
  - change (pn (x :: a) (S i)) with (pn a i). rewrite <- IH by done.
    replace (32 * Z.of_nat (S i) + r) with (32 * Z.of_nat i + r + 32) by lia.
    rewrite <- Z.div_pow2_bits by lia. f_equal.
    rewrite Z.mul_comm, Z.div_add, Z.div_small by lia. lia.
Qed.

(** Numbers of a width are equal when their limbs have the same bits. *)
Lemma value_bits_eq a v :
  well_formed a → 0 <= v →
  (∀ i r, (i < length a)%nat → 0 <= r < 32 → Z.testbit (pn a i) r = Z.testbit v (32 * Z.of_nat i + r)) →
  value a = v mod modulus (length a).
Proof.
  intros Ha Hv H. apply Z.bits_inj'. intros m Hm. unfold modulus.
  pose proof (value_bounds a Ha) as Hb. unfold modulus in Hb.
  destruct (decide (m < 32 * Z.of_nat (length a))) as [Hlt|Hge].
  - rewrite Z.mod_pow2_bits_low by lia. pose proof (Z.div_mod m 32 ltac:(lia)) as Hdm.
    pose proof (Z.mod_pos_bound m 32 ltac:(lia)). pose proof (Z.div_pos m 32 ltac:(lia) ltac:(lia)).
    replace m with (32 * Z.of_nat (Z.to_nat (m / 32)) + m mod 32) by lia.
    rewrite value_testbit by done. apply H; lia.
  - rewrite Z.mod_pow2_bits_high by lia.
    rewrite <- (Z.mod_small (value a) (2 ^ (32 * Z.of_nat (length a)))) by lia.
    by rewrite Z.mod_pow2_bits_high by lia.
Qed.

Lemma or_at_wf i v a : well_formed a → limb v → well_formed (or_at i v a).
Proof.
  intros Ha Hv. unfold or_at. apply Forall_alter; [done|]. intros x _ Hx. unfold limb, fits in *.
  split; [apply Z.lor_nonneg; lia|]. destruct (decide (Z.lor x v = 0)) as [->|Hne]; [done|].
  pose proof (Z.lor_nonneg x v). apply Z.log2_lt_pow2; [lia|]. rewrite Z.log2_lor by lia.
  apply Z.max_lub_lt; [destruct (decide (x = 0)) as [->|]|destruct (decide (v = 0)) as [->|]];
    try done; apply Z.log2_lt_pow2; lia.
Qed.

Lemma or_at_length i v a : length (or_at i v a) = length a.
Proof. apply length_alter. Qed.

Lemma pn_or_at i j v a :
  (i < length a)%nat → pn (or_at i v a) j = if decide (i = j) then Z.lor (pn a j) v else pn a j.
Proof.
  intros Hi. unfold pn, or_at. destruct (decide (i = j)) as [<-|Hne].
  - rewrite list_lookup_alter_eq. destruct (lookup_lt_is_Some_2 a i Hi) as [x ->]. done.
  - by rewrite list_lookup_alter_ne.
Qed.

(** ** Shifts *)

Section shifts.
Context (a : base_uint) (Ha : well_formed a) (k : nat) (s : Z) (Hs : 0 <= s < 32).

(** What limb [j] of the result has received after the first [n] limbs of a left shift. *)
Definition shl_hi (n j : nat) : Z :=
  if decide ((k + 1 <= j)%nat ∧ (j < n + k + 1)%nat ∧ s ≠ 0) then Z.shiftr (pn a (j - k - 1)) (32 - s) else 0.
Definition shl_lo (n j : nat) : Z :=
  if decide (k <= j ∧ j < n + k)%nat then u32 (Z.shiftl (pn a (j - k)) s) else 0.

Lemma shiftr_limb x n : limb x → 0 <= n → limb (Z.shiftr x n).
Proof using.
  intros Hx Hn. unfold limb, fits in *. rewrite Z.shiftr_div_pow2 by done.
  pose proof (Z.pow_pos_nonneg 2 n ltac:(lia) Hn).
  split; [apply Z.div_pos; lia|]. apply Z.div_lt_upper_bound; nia.
Qed.

Lemma shl_fold n : (n <= length a)%nat →
  let r := foldl (shl_step a k s) (zero_uint (length a)) (seq 0 n) in
  well_formed r ∧ length r = length a ∧
  ∀ j, (j < length a)%nat → pn r j = Z.lor (shl_hi n j) (shl_lo n j).
Proof using Ha Hs.
  induction n as [|n IH]; intros Hn r.
  { destruct (zero_number (length a)) as (H1 & H2 & _). split_and!; [done..|]. intros j Hj.
    unfold r, shl_hi, shl_lo, pn, zero_uint. cbn [foldl seq]. rewrite lookup_replicate_2 by done.
    destruct (decide _); [lia|]. destruct (decide _); [lia|done]. }
  unfold r. rewrite seq_S, foldl_app. cbn [foldl]. rewrite Nat.add_0_l.
  destruct (IH ltac:(lia)) as (H1 & H2 & H3). clear IH r.
  set (r0 := foldl _ _ _) in *. unfold shl_step.
  set (r1 := if _ && _ then or_at (n + k + 1) _ r0 else r0).
  assert (R1 : well_formed r1 ∧ length r1 = length a ∧
    ∀ j, (j < length a)%nat → pn r1 j = Z.lor (shl_hi (S n) j) (shl_lo n j)).
  { unfold r1. pose proof (pn_limb a n Ha) as Hx.
    destruct (Nat.ltb_spec (n + k + 1) (length a)) as [Hlt|Hge], (Z.eqb_spec s 0) as [Hz|Hz]; cbn [andb negb].
    2:{ split; [apply or_at_wf; [done|apply shiftr_limb; [done|lia]]|]. split; [by rewrite or_at_length|].
        intros j Hj. rewrite pn_or_at by lia. rewrite H3 by done. unfold shl_hi.
        destruct (decide (n + k + 1 = j)%nat) as [<-|Hne].
        - destruct (decide _); [lia|]. destruct (decide _); [|lia].
          unfold shl_lo. destruct (decide _); [lia|]. rewrite !Z.lor_0_r, Z.lor_0_l.
          f_equal. f_equal. lia.
        - destruct (decide _), (decide _); try lia; done. }
    all: split_and!; [done..|]; intros j Hj; rewrite H3 by done; unfold shl_hi;
      destruct (decide _), (decide _); try lia; done. }
  clearbody r1. destruct R1 as (W1 & L1 & P1).
  destruct (Nat.ltb_spec (n + k) (length a)) as [Hlt|Hge].
  - split; [apply or_at_wf; [done|by apply wrap_fits]|]. split; [by rewrite or_at_length|].
    intros j Hj. rewrite pn_or_at by lia. rewrite P1 by done. unfold shl_lo.
    destruct (decide (n + k = j)%nat) as [<-|Hne].
    + destruct (decide _); [lia|]. destruct (decide _); [|lia]. rewrite Z.lor_0_r.
      do 3 f_equal. f_equal. lia.
    + destruct (decide _), (decide _); try lia; done.
  - split_and!; [done..|]. intros j Hj. rewrite P1 by done. unfold shl_lo.
    destruct (decide _), (decide _); try lia; done.
Qed.

(** The same for a right shift. *)
Definition shr_hi (n j : nat) : Z :=
  if decide ((j + k + 1 < n)%nat ∧ s ≠ 0) then u32 (Z.shiftl (pn a (j + k + 1)) (32 - s)) else 0.
Definition shr_lo (n j : nat) : Z :=
  if decide (j + k < n)%nat then Z.shiftr (pn a (j + k)) s else 0.

Lemma shr_fold n : (n <= length a)%nat →
  let r := foldl (shr_step a k s) (zero_uint (length a)) (seq 0 n) in
  well_formed r ∧ length r = length a ∧
  ∀ j, (j < length a)%nat → pn r j = Z.lor (shr_lo n j) (shr_hi n j).
Proof using Ha Hs.
  induction n as [|n IH]; intros Hn r.
  { destruct (zero_number (length a)) as (H1 & H2 & _). split_and!; [done..|]. intros j Hj.
    unfold r, shr_hi, shr_lo, pn, zero_uint. cbn [foldl seq]. rewrite lookup_replicate_2 by done.
    destruct (decide _); [lia|]. destruct (decide _); [lia|done]. }
  unfold r. rewrite seq_S, foldl_app. cbn [foldl]. rewrite Nat.add_0_l.
  destruct (IH ltac:(lia)) as (H1 & H2 & H3). clear IH r.
  set (r0 := foldl _ _ _) in *. unfold shr_step.
  set (r1 := if _ && _ then or_at (n - k - 1) _ r0 else r0).
  assert (R1 : well_formed r1 ∧ length r1 = length a ∧
    ∀ j, (j < length a)%nat → pn r1 j = Z.lor (shr_lo n j) (shr_hi (S n) j)).
  { unfold r1.
    destruct (Nat.leb_spec (k + 1) n) as [Hlt|Hge], (Z.eqb_spec s 0) as [Hz|Hz]; cbn [andb negb].
    2:{ split; [apply or_at_wf; [done|by apply wrap_fits]|]. split; [by rewrite or_at_length|].
        intros j Hj. rewrite pn_or_at by lia. rewrite H3 by done. unfold shr_hi.
        destruct (decide (n - k - 1 = j)%nat) as [<-|Hne].
        - destruct (decide _); [lia|]. destruct (decide _); [|lia]. rewrite Z.lor_0_r.
          do 3 f_equal. f_equal. lia.
        - destruct (decide _), (decide _); try lia; done. }
    all: split_and!; [done..|]; intros j Hj; rewrite H3 by done; unfold shr_hi;
      destruct (decide _), (decide _); try lia; done. }
  clearbody r1. destruct R1 as (W1 & L1 & P1). pose proof (pn_limb a n Ha) as Hx.
  destruct (Nat.leb_spec k n) as [Hlt|Hge].
  - split; [apply or_at_wf; [done|apply shiftr_limb; [done|lia]]|]. split; [by rewrite or_at_length|].
    intros j Hj. rewrite pn_or_at by lia. rewrite P1 by done. unfold shr_lo.
    destruct (decide (n - k = j)%nat) as [<-|Hne].
    + destruct (decide _); [lia|]. destruct (decide _); [|lia]. unfold shr_hi.
      destruct (decide _); [lia|]. rewrite !Z.lor_0_r, Z.lor_0_l. f_equal. f_equal. lia.
    + destruct (decide _), (decide _); try lia; done.
  - split_and!; [done..|]. intros j Hj. rewrite P1 by done. unfold shr_lo.
    destruct (decide _), (decide _); try lia; done.
Qed.
End shifts.

Lemma limb_testbit_high x i : limb x → 32 <= i → Z.testbit x i = false.
Proof.
  intros Hx Hi. unfold limb, fits in Hx. rewrite <- (Z.mod_small x (2 ^ 32)) by done.
  by rewrite Z.mod_pow2_bits_high by lia.
Qed.

Lemma u32_shiftl_testbit x n r : 0 <= r < 32 → Z.testbit (u32 (Z.shiftl x n)) r = Z.testbit x (r - n).
Proof. intros Hr. unfold wrap. rewrite Z.mod_pow2_bits_low by lia. by rewrite Z.shiftl_spec by lia. Qed.

Lemma op_shl_spec a shift :
  well_formed a → 0 <= shift → is_number (length a) (Z.shiftl (value a) shift) (op_shl a shift).
Proof.
  intros Ha Hsh. pose proof (Z.mod_pos_bound shift 32 ltac:(lia)) as Hs.
  pose proof (Z.div_pos shift 32 Hsh ltac:(lia)) as Hq. pose proof (Z.div_mod shift 32 ltac:(lia)) as Hdm.
  destruct (shl_fold a Ha (Z.to_nat (shift / 32)) _ Hs (length a) ltac:(lia)) as (H1 & H2 & H3).
  fold (op_shl a shift) in *. split_and!; [done..|]. rewrite <- H2.
  apply value_bits_eq; [done|apply Z.shiftl_nonneg; by apply value_bounds|].
  intros j r Hj Hr. rewrite H3 by lia. rewrite Z.lor_spec, Z.shiftl_spec by lia.
  set (k := Z.to_nat (shift / 32)) in *. set (s := shift mod 32) in *. unfold shl_hi, shl_lo.
  assert (Hkq : Z.of_nat k = shift / 32) by lia.
  destruct (decide (k <= j ∧ j < length a + k)%nat) as [Hlo|Hlo].
  - rewrite u32_shiftl_testbit by done. destruct (decide (s <= r)) as [Hsr|Hsr].
    + replace (32 * Z.of_nat j + r - shift) with (32 * Z.of_nat (j - k) + (r - s)) by lia.
      rewrite (value_testbit a Ha) by lia. destruct (decide _); [|by rewrite Z.bits_0].
      rewrite Z.shiftr_spec by lia. rewrite (limb_testbit_high _ (r + (32 - s))); [done|by apply pn_limb|lia].
    + rewrite (Z.testbit_neg_r _ (r - s)) by lia. rewrite orb_false_r. destruct (decide _) as [Hhi|Hhi].
      * rewrite Z.shiftr_spec by lia.
        replace (32 * Z.of_nat j + r - shift) with (32 * Z.of_nat (j - k - 1) + (r + (32 - s))) by lia.
        by rewrite (value_testbit a Ha) by lia.
      * rewrite Z.bits_0, Z.testbit_neg_r; [done|]. assert (j = k) by lia. lia.
  - rewrite Z.testbit_neg_r with (n := 32 * Z.of_nat j + r - shift) by lia.
    destruct (decide _); [lia|]. by rewrite Z.bits_0.
Qed.

Lemma op_shr_spec a shift :
  well_formed a → 0 <= shift → is_number (length a) (Z.shiftr (value a) shift) (op_shr a shift).
Proof.
  intros Ha Hsh. pose proof (Z.mod_pos_bound shift 32 ltac:(lia)) as Hs.
  pose proof (Z.div_pos shift 32 Hsh ltac:(lia)) as Hq. pose proof (Z.div_mod shift 32 ltac:(lia)) as Hdm.
  destruct (shr_fold a Ha (Z.to_nat (shift / 32)) _ Hs (length a) ltac:(lia)) as (H1 & H2 & H3).
  fold (op_shr a shift) in *. split_and!; [done..|]. rewrite <- H2.
  apply value_bits_eq; [done|apply Z.shiftr_nonneg; by apply value_bounds|].
  intros j r Hj Hr. rewrite H3 by lia. rewrite Z.lor_spec, Z.shiftr_spec by lia.
  set (k := Z.to_nat (shift / 32)) in *. set (s := shift mod 32) in *.
  assert (Hkq : Z.of_nat k = shift / 32) by lia.
  assert (Elo : Z.testbit (shr_lo a k s (length a) j) r = Z.testbit (pn a (j + k)) (r + s)).
  { unfold shr_lo. destruct (decide _); [by rewrite Z.shiftr_spec by lia|].
    rewrite pn_out by lia. by rewrite !Z.bits_0. }
  assert (Ehi : Z.testbit (shr_hi a k s (length a) j) r =
    negb (s =? 0) && Z.testbit (pn a (j + k + 1)) (r - (32 - s))).
  { unfold shr_hi. destruct (decide _) as [[? ?]|Hn].
    - rewrite u32_shiftl_testbit by done. by destruct (Z.eqb_spec s 0).
    - rewrite Z.bits_0. destruct (Z.eqb_spec s 0); [done|]. rewrite pn_out by lia. by rewrite Z.bits_0. }
  rewrite Elo, Ehi. destruct (decide (r + s < 32)) as [Hlt|Hge].
  - replace (32 * Z.of_nat j + r + shift) with (32 * Z.of_nat (j + k) + (r + s)) by lia.
    rewrite (value_testbit a Ha) by lia. rewrite (Z.testbit_neg_r _ (r - (32 - s))) by lia.
    by rewrite andb_false_r, orb_false_r.
  - replace (32 * Z.of_nat j + r + shift) with (32 * Z.of_nat (j + k + 1) + (r - (32 - s))) by lia.
    rewrite (value_testbit a Ha) by lia.
    rewrite (limb_testbit_high _ (r + s)); [|by apply pn_limb|lia].
    destruct (Z.eqb_spec s 0); [lia|done].
Qed.

(** ** Comparison *)

Lemma value_take_S a i :
  (i < length a)%nat → value (take (S i) a) = value (take i a) + modulus i * pn a i.
Proof.
  revert i. induction a as [|x a IH]; intros i Hi; [cbn [length] in Hi; lia|].
  destruct i as [|i].
  - cbn [take value]. unfold modulus, pn. simpl. lia.
  - cbn [length] in Hi. change (pn (x :: a) (S i)) with (pn a i).
    change (take (S (S i)) (x :: a)) with (x :: take (S i) a).
    change (take (S i) (x :: a)) with (x :: take i a). cbn [value].
    rewrite IH by lia. rewrite modulus_S. ring.
Qed.

Lemma value_take_bounds a i : well_formed a → (i <= length a)%nat → 0 <= value (take i a) < modulus i.
Proof.
  intros Ha Hi. pose proof (value_bounds (take i a) (Forall_take _ _ _ Ha)) as H.
  by rewrite length_take_le in H by lia.
Qed.

Lemma CompareTo_loop_spec a b i :
  well_formed a → well_formed b → (i <= length a)%nat → (i <= length b)%nat →
  CompareTo_loop i a b =
    match Z.compare (value (take i a)) (value (take i b)) with Lt => -1 | Gt => 1 | Eq => 0 end.
Proof.
  intros Ha Hb. induction i as [|i IH]; intros Hi Hj; [done|]. cbn [CompareTo_loop].
  rewrite !value_take_S by lia.
  pose proof (value_take_bounds a i Ha ltac:(lia)). pose proof (value_take_bounds b i Hb ltac:(lia)).
  destruct (Z.ltb_spec (pn a i) (pn b i)).
  - destruct (Z.compare_spec (value (take i a) + modulus i * pn a i)
      (value (take i b) + modulus i * pn b i)); [nia|done|nia].
  - destruct (Z.ltb_spec (pn b i) (pn a i)).
    + destruct (Z.compare_spec (value (take i a) + modulus i * pn a i)
        (value (take i b) + modulus i * pn b i)); [nia|nia|done].
    + rewrite IH by lia. assert (pn a i = pn b i) as -> by lia.
      set (m := modulus i * pn b i).
      destruct (Z.compare_spec (value (take i a)) (value (take i b))),
        (Z.compare_spec (value (take i a) + m) (value (take i b) + m)); done || lia.
Qed.

Lemma CompareTo_spec a b :
  well_formed a → well_formed b → length a = length b →
  CompareTo a b = match Z.compare (value a) (value b) with Lt => -1 | Gt => 1 | Eq => 0 end.
Proof.
  intros Ha Hb Hl. unfold CompareTo. rewrite CompareTo_loop_spec by (done || lia).
  by rewrite firstn_all, Hl, firstn_all.
Qed.

Lemma op_GetLow64_spec a :
  well_formed a → (2 <= length a)%nat → op_GetLow64 a = GetLow64 (value a).
Proof.
  intros Ha Hl. destruct a as [|x [|y a]]; [cbn [length] in Hl; lia..|].
  apply Forall_cons in Ha as [Hx Ha]. apply Forall_cons in Ha as [Hy Ha]. unfold limb, fits in *.
  unfold op_GetLow64, GetLow64. change (pn (x :: y :: a) 0) with x. change (pn (x :: y :: a) 1) with y.
  rewrite Z.shiftl_mul_pow2, (wrap_small 64 (y * _)) by (unfold fits; lia).
  rewrite lor_disjoint by lia. cbn [value]. unfold wrap.
  replace (x + 2 ^ 32 * (y + 2 ^ 32 * value a)) with ((x + y * 2 ^ 32) + value a * 2 ^ 64) by ring.
  rewrite Z.mod_add, Z.mod_small by lia. done.
Qed.

Lemma EqualTo_spec a b :
  well_formed a → (2 <= length a)%nat → fits 64 b → EqualTo a b = (value a =? b).
Proof.
  intros Ha Hl Hb. destruct a as [|x [|y a]]; [cbn [length] in Hl; lia..|].
  apply Forall_cons in Ha as [Hx Ha]. apply Forall_cons in Ha as [Hy Ha]. unfold limb, fits in *.
  unfold EqualTo. change (pn (x :: y :: a) 0) with x. change (pn (x :: y :: a) 1) with y.
  rewrite land_low, Z.shiftr_div_pow2 by lia. change (drop 2 (x :: y :: a)) with a. cbn [value].
  assert (Hz : forallb (Z.eqb 0) a = (value a =? 0)).
  { clear -Ha. induction Ha as [|z a Hz Ha IH]; [done|]. cbn [forallb value]. rewrite IH.
    pose proof (value_bounds a Ha). unfold limb, fits in Hz.
    destruct (Z.eqb_spec 0 z), (Z.eqb_spec (value a) 0), (Z.eqb_spec (z + 2 ^ 32 * value a) 0);
      done || lia. }
  rewrite Hz. pose proof (value_bounds a Ha). pose proof (Z.div_mod b (2 ^ 32) ltac:(lia)).
  pose proof (Z.mod_pos_bound b (2 ^ 32) ltac:(lia)).
  destruct (Z.eqb_spec (value a) 0), (Z.eqb_spec y (b / 2 ^ 32)), (Z.eqb_spec x (b mod 2 ^ 32)),
    (Z.eqb_spec (x + 2 ^ 32 * (y + 2 ^ 32 * value a)) b); cbn [andb]; done || nia.
Qed.

(** ** The highest bit *)

Lemma limb_bits_spec n x : 0 < x < 2 ^ (Z.of_nat n + 1) → limb_bits n x = Z.log2 x + 1.
Proof.
  induction n as [|n IH]; intros Hx; cbn [limb_bits].
  { change (2 ^ (Z.of_nat 0 + 1)) with 2 in Hx. by replace x with 1 by lia. }
  rewrite Z.shiftl_1_l, land_top_bit by lia.
  destruct (Z.ltb_spec x (2 ^ Z.of_nat (S n))); cbn [negb].
  - apply IH. replace (Z.of_nat n + 1) with (Z.of_nat (S n)) by lia. lia.
  - f_equal. symmetry. apply Z.log2_unique; lia.
Qed.

Lemma bits_loop_spec a i :
  well_formed a → (i <= length a)%nat → bits_loop i a = bits (value (take i a)).
Proof.
  intros Ha. induction i as [|i IH]; intros Hi; [done|]. cbn [bits_loop].
  rewrite value_take_S by lia. pose proof (value_take_bounds a i Ha ltac:(lia)) as Hv.
  destruct (Z.eqb_spec (pn a i) 0) as [E|E]; cbn [negb].
  { rewrite E, Z.mul_0_r, Z.add_0_r. apply IH. lia. }
  pose proof (pn_limb a i Ha) as Hx. unfold limb, fits in Hx.
  rewrite limb_bits_spec by (change (Z.of_nat 31 + 1) with 32; lia). unfold bits.
  pose proof (modulus_pos i). destruct (Z.eqb_spec (value (take i a) + modulus i * pn a i) 0); [nia|].
  pose proof (Z.log2_spec (pn a i) ltac:(lia)) as Hlog. pose proof (Z.log2_nonneg (pn a i)).
  rewrite Z.add_assoc. f_equal. symmetry. apply Z.log2_unique; [lia|].
  rewrite <- Z.add_succ_r, !Z.pow_add_r by lia. fold (modulus i). nia.
Qed.

Lemma op_bits_spec a : well_formed a → op_bits a = bits (value a).
Proof. intros Ha. unfold op_bits. rewrite bits_loop_spec by done. by rewrite firstn_all. Qed.

(** ** Division *)

(** Setting bit [s] of a number whose bits up to [s] are clear. *)
Lemma or_at_pow2 q s :
  well_formed q → (s < 32 * length q)%nat → value q mod 2 ^ (Z.of_nat s + 1) = 0 →
  let q' := or_at (s / 32) (u32 (Z.shiftl 1 (Z.land (Z.of_nat s) 31))) q in
  well_formed q' ∧ length q' = length q ∧ value q' = value q + 2 ^ Z.of_nat s.
Proof.
  intros Hq Hs Hz. cbv zeta. change 31 with (Z.ones 5). rewrite Z.land_ones, Z.shiftl_1_l by lia.
  change (2 ^ 5) with 32. pose proof (Z.mod_pos_bound (Z.of_nat s) 32 ltac:(lia)) as Hr.
  pose proof (Nat.div_mod_eq s 32) as Hdm. pose proof (Nat.mod_upper_bound s 32 ltac:(lia)) as Hm.
  assert (Er : Z.of_nat s mod 32 = Z.of_nat (s mod 32)) by (by rewrite Nat2Z.inj_mod).
  assert (Hfit : fits 32 (2 ^ (Z.of_nat s mod 32))).
  { split; [lia|]. apply Z.pow_lt_mono_r; lia. }
  rewrite (wrap_small 32) by done. set (v := 2 ^ (Z.of_nat s mod 32)) in *.
  pose proof (or_at_wf (s / 32) v q Hq Hfit) as Hwf.
  split; [done|]. split; [apply or_at_length|].
  pose proof (value_bounds q Hq) as Hb. set (n := Z.of_nat s + 1) in *.
  assert (Hpow : 2 ^ n = 2 * 2 ^ Z.of_nat s) by (unfold n; rewrite Z.pow_add_r, Z.pow_1_r by lia; lia).
  apply Z.mod_divide in Hz as [c Hc]; [|lia].
  assert (Hsum : value q + 2 ^ Z.of_nat s = Z.lor (2 ^ Z.of_nat s) (value q)).
  { rewrite Hc, lor_disjoint; unfold n in *; lia. }
  assert (HM : modulus (length q) = 2 ^ (32 * Z.of_nat (length q) - n) * 2 ^ n).
  { unfold modulus. rewrite <- Z.pow_add_r by (unfold n; lia). f_equal. lia. }
  rewrite <- (Z.mod_small (value q + 2 ^ Z.of_nat s) (modulus (length q))).
  2:{ pose proof (Z.pow_pos_nonneg 2 (Z.of_nat s) ltac:(lia) ltac:(lia)) as Hp.
      set (d := 2 ^ (32 * Z.of_nat (length q) - n)) in *.
      assert (Hcd : c < d) by (apply (Z.mul_lt_mono_pos_r (2 ^ n)); lia).
      split; [lia|]. rewrite HM, Hc, Hpow. set (P := 2 ^ Z.of_nat s) in *. clearbody d P. nia. }
  rewrite <- (or_at_length (s / 32) v q). apply value_bits_eq; [done|lia|].
  intros i r Hi Hri. rewrite or_at_length in Hi. rewrite pn_or_at by lia.
  rewrite Hsum, Z.lor_spec, (value_testbit q Hq) by done.
  rewrite Z.pow2_bits_eqb by lia. destruct (decide (s / 32 = i)%nat) as [<-|Hne].
  - rewrite Z.lor_spec. unfold v. rewrite Z.pow2_bits_eqb, orb_comm by lia. f_equal.
    destruct (Z.eqb_spec (Z.of_nat s mod 32) r), (Z.eqb_spec (Z.of_nat s) (32 * Z.of_nat (s / 32) + r));
      done || lia.
  - destruct (Z.eqb_spec (Z.of_nat s) (32 * Z.of_nat i + r)); [nia|done].
Qed.

Lemma op_sub_exact a b :
  well_formed a → well_formed b → length a = length b → value b <= value a →
  well_formed (op_sub a b) ∧ length (op_sub a b) = length a ∧ value (op_sub a b) = value a - value b.
Proof.
  intros Ha Hb Hl Hle. destruct (op_sub_spec a b Ha Hb Hl) as (H1 & H2 & H3). split_and!; [done..|].
  rewrite H3. pose proof (value_bounds a Ha). pose proof (value_bounds b Hb). apply Z.mod_small. lia.
Qed.

Lemma op_shr1_exact a :
  well_formed a → well_formed (op_shr a 1) ∧ length (op_shr a 1) = length a ∧
  value (op_shr a 1) = value a / 2.
Proof.
  intros Ha. destruct (op_shr_spec a 1 Ha ltac:(lia)) as (H1 & H2 & H3). split_and!; [done..|].
  rewrite H3, Z.shiftr_div_pow2, Z.pow_1_r by lia. pose proof (value_bounds a Ha).
  apply Z.mod_small. split; [apply Z.div_pos; lia|].
  eapply Z.le_lt_trans; [apply Z.div_le_upper_bound with (q := value a); lia|lia].
Qed.

(** With [num] below [2 ^ fuel] divisors, the loop adds the quotient. *)
Lemma div_loop_spec b fuel : 0 < b → ∀ num div q,
  well_formed num → well_formed div → well_formed q →
  length div = length num → length q = length num → (fuel <= 32 * length q)%nat →
  value num < b * 2 ^ Z.of_nat fuel → (fuel ≠ 0%nat → value div = b * 2 ^ (Z.of_nat fuel - 1)) →
  value q mod 2 ^ Z.of_nat fuel = 0 →
  let r := div_loop fuel num div q in
  well_formed r ∧ length r = length num ∧ value r = value q + value num / b.
Proof.
  intros Hb. induction fuel as [|s IH]; intros num div q Hn Hd Hq Hld Hlq Hf Hlt Hdiv Hz.
  { cbn [div_loop]. split_and!; [done..|]. pose proof (value_bounds num Hn).
    rewrite Z.div_small by lia. lia. }
  specialize (Hdiv ltac:(lia)). replace (Z.of_nat (S s) - 1) with (Z.of_nat s) in Hdiv by lia.
  replace (Z.of_nat (S s)) with (Z.of_nat s + 1) in Hlt, Hz by lia.
  rewrite Z.pow_add_r, Z.pow_1_r in Hlt by lia.
  destruct (op_shr1_exact div Hd) as (D1 & D2 & D3).
  assert (Hdiv' : s ≠ 0%nat → value (op_shr div 1) = b * 2 ^ (Z.of_nat s - 1)).
  { intros Hs. rewrite D3, Hdiv. replace (Z.of_nat s) with (Z.of_nat s - 1 + 1) at 1 by lia.
    rewrite Z.pow_add_r, Z.pow_1_r, Z.mul_assoc, Z.div_mul by lia. done. }
  assert (Hzq : ∀ x, x mod 2 ^ (Z.of_nat s + 1) = 0 → x mod 2 ^ Z.of_nat s = 0).
  { intros x [c ->]%Z.mod_divide; [|lia]. rewrite Z.pow_add_r, Z.pow_1_r by lia.
    replace (c * (2 ^ Z.of_nat s * 2)) with (c * 2 * 2 ^ Z.of_nat s) by ring. apply Z.mod_mul. lia. }
  rewrite Z.mul_assoc in Hlt. cbn [div_loop]. rewrite CompareTo_spec by (done || congruence).
  assert (Hcmp : (0 <=? match value num ?= value div with Lt => -1 | Gt => 1 | Eq => 0 end) =
    (value div <=? value num)).
  { destruct (Z.compare_spec (value num) (value div)), (Z.leb_spec (value div) (value num)); done || lia. }
  rewrite Hcmp. clear Hcmp. destruct (Z.leb_spec (value div) (value num)) as [E|E].
  2:{ apply (IH num (op_shr div 1) q); try done; [congruence|lia|lia|by apply Hzq]. }
  destruct (op_sub_exact num div Hn Hd ltac:(congruence) E) as (N1 & N2 & N3).
  destruct (or_at_pow2 q s Hq ltac:(lia) Hz) as (Q1 & Q2 & Q3). cbv zeta in Q1, Q2, Q3.
  edestruct (IH (op_sub num div) (op_shr div 1)) as (R1 & R2 & R3);
    [exact N1|exact D1|exact Q1|congruence|congruence|rewrite Q2; lia|lia|exact Hdiv'| |].
  - rewrite Q3, Zplus_mod, (Hzq (value q) Hz), Z_mod_same_full. apply Zmod_0_l.
  - split; [exact R1|]. split; [congruence|]. rewrite R3, Q3, N3, Hdiv.
    replace (value num - b * 2 ^ Z.of_nat s) with (value num + (- 2 ^ Z.of_nat s) * b) by ring.
    rewrite Z.div_add by lia. lia.
Qed.

(** Shifting the divisor by the difference of the bit lengths aligns it with the number. *)
Lemma align_bits va vb n :
  0 < vb → 0 <= va < modulus n → bits vb <= bits va →
  let sh := bits va - bits vb in
  vb * 2 ^ sh < modulus n ∧ va < vb * 2 ^ (sh + 1) ∧ sh < 32 * Z.of_nat n.
Proof.
  intros Hb Hm Hge sh. pose proof (bits_bounds vb Hb) as Bb. pose proof (bits_pos vb Hb).
  assert (Hpos : 0 < va).
  { destruct (decide (va = 0)) as [->|]; [|lia]. change (bits 0) with 0 in Hge. lia. }
  pose proof (bits_bounds va Hpos) as Ba. unfold modulus in *.
  assert (Hw : bits va - 1 < 32 * Z.of_nat n).
  { apply (Z.pow_lt_mono_r_iff 2); lia. }
  assert (Hsh : 0 <= sh) by (unfold sh; lia). pose proof (Z.pow_pos_nonneg 2 sh ltac:(lia) Hsh).
  split_and!; [| |unfold sh; lia].
  - apply Z.lt_le_trans with (2 ^ bits va); [|apply Z.pow_le_mono_r; lia].
    replace (bits va) with (bits vb + sh) by (unfold sh; lia). rewrite Z.pow_add_r by lia.
    apply Z.mul_lt_mono_pos_r; lia.
  - eapply Z.lt_le_trans; [apply Ba|]. replace (bits va) with (bits vb - 1 + (sh + 1)) by (unfold sh; lia).
    rewrite (Z.pow_add_r 2 (bits vb - 1)) by lia. apply Z.mul_le_mono_nonneg_r; [apply Z.pow_nonneg; lia|lia].
Qed.

Lemma op_div_spec a b :
  well_formed a → well_formed b → length a = length b →
  match op_div a b with
  | Some q => value b ≠ 0 ∧ is_number (length a) (value a / value b) q
  | None => value b = 0
  end.
Proof.
  intros Ha Hb Hl. unfold op_div. rewrite !op_bits_spec by done.
  pose proof (value_bounds a Ha) as Va. pose proof (value_bounds b Hb) as Vb.
  destruct (decide (value b = 0)) as [E|E]; [by rewrite E|].
  pose proof (bits_bounds (value b) ltac:(lia)) as Bb. pose proof (bits_pos (value b) ltac:(lia)).
  destruct (Z.eqb_spec (bits (value b)) 0); [lia|].
  destruct (zero_number (length a)) as (Z1 & Z2 & Z3). rewrite Zmod_0_l in Z3.
  assert (Hquot : 0 <= value a / value b <= value a).
  { split; [apply Z.div_pos; lia|apply Z.div_le_upper_bound; nia]. }
  destruct (Z.ltb_spec (bits (value a)) (bits (value b))) as [Hlt|Hge].
  - split; [done|]. split_and!; [done..|]. rewrite Z3, Z.div_small; [by rewrite Zmod_0_l|].
    split; [lia|]. destruct (decide (value a = 0)) as [->|]; [lia|].
    pose proof (bits_bounds (value a) ltac:(lia)) as Ba.
    eapply Z.lt_le_trans; [apply Ba|]. etrans; [|apply Bb]. apply Z.pow_le_mono_r; lia.
  - destruct (align_bits (value a) (value b) (length a) ltac:(lia) Va Hge) as (A1 & A2 & A3).
    set (sh := bits (value a) - bits (value b)) in *.
    destruct (op_shl_spec b sh Hb ltac:(lia)) as (S1 & S2 & S3).
    assert (Hdv : value (op_shl b sh) = value b * 2 ^ sh).
    { rewrite S3, Z.shiftl_mul_pow2, <- Hl by lia. apply Z.mod_small. split; [|done].
      apply Z.mul_nonneg_nonneg; [lia|apply Z.pow_nonneg; lia]. }
    destruct (div_loop_spec (value b) (S (Z.to_nat sh)) ltac:(lia) a (op_shl b sh) (zero_uint (length a)))
      as (R1 & R2 & R3); [done..|congruence|done|rewrite Z2; lia| | |by rewrite Z3, Zmod_0_l|].
    + by replace (Z.of_nat (S (Z.to_nat sh))) with (sh + 1) by lia.
    + intros _. by replace (Z.of_nat (S (Z.to_nat sh)) - 1) with sh by lia.
    + split; [done|]. split_and!; [done..|]. rewrite R3, Z3, Z.add_0_l. symmetry. apply Z.mod_small. lia.
Qed.

(** ** [arith_uint256]: eight limbs *)

Definition WIDTH : nat := 8.

Definition arith_uint256 (a : base_uint) : Prop := well_formed a ∧ length a = WIDTH.

Lemma is_number_256 v a : is_number WIDTH v a → arith_uint256 a ∧ value a = u256 v.
Proof. intros (H1 & H2 & H3). split; [by split|exact H3]. Qed.

Lemma of_uint64_256 b : fits 64 b → arith_uint256 (of_uint64 WIDTH b) ∧ value (of_uint64 WIDTH b) = b.
Proof.
  intros Hb. unfold of_uint64, wrap. rewrite Z.shiftr_div_pow2 by lia. unfold fits in Hb.
  pose proof (Z.div_mod b (2 ^ 32) ltac:(lia)). pose proof (Z.mod_pos_bound b (2 ^ 32) ltac:(lia)).
  assert (Hq : 0 <= b / 2 ^ 32 < 2 ^ 32).
  { change (2 ^ 64) with (2 ^ 32 * 2 ^ 32) in Hb.
    split; [apply Z.div_pos; lia|apply Z.div_lt_upper_bound; lia]. }
  rewrite (Z.mod_small (b / 2 ^ 32)) by done. split.
  - split; [|done]. repeat (constructor; [done|]). constructor.
  - cbn [value replicate WIDTH Nat.sub]. lia.
Qed.

(** [SetCompact] and [GetCompact], the shifts and [bits] done on limbs. *)
Definition limb_SetCompact (nCompact : Z) : base_uint :=
  let nSize := Z.shiftr nCompact 24 in
  let nWord := Z.land nCompact 0x007fffff in
  if nSize <=? 3 then of_uint64 WIDTH (Z.shiftr nWord (8 * (3 - nSize)))
  else op_shl (of_uint64 WIDTH nWord) (8 * (nSize - 3)).

Definition limb_GetCompact (a : base_uint) (fNeg : bool) : Z :=
  let nSize := (op_bits a + 7) / 8 in
  let nCompact :=
    if nSize <=? 3 then u32 (u64 (Z.shiftl (op_GetLow64 a) (8 * (3 - nSize))))
    else u32 (op_GetLow64 (op_shr a (8 * (nSize - 3)))) in
  let '(nCompact, nSize) :=
    if negb (Z.land nCompact 0x00800000 =? 0)
    then (Z.shiftr nCompact 8, nSize + 1) else (nCompact, nSize) in
  let nCompact := Z.lor nCompact (u32 (Z.shiftl nSize 24)) in
  Z.lor nCompact
    (if fNeg && negb (Z.land nCompact 0x007fffff =? 0) then 0x00800000 else 0).

(** [~bnTarget / (bnTarget + 1) + 1]; [None] is the exception of the division. *)
Definition limb_GetBlockProof (nBits : Z) : option base_uint :=
  let c := SetCompact nBits in
  let bnTarget := limb_SetCompact nBits in
  if fNegative c || fOverflow c || EqualTo bnTarget 0 then Some (of_uint64 WIDTH 0)
  else q ← op_div (op_not bnTarget) (op_add bnTarget (of_uint64 WIDTH 1));
       Some (op_add q (of_uint64 WIDTH 1)).

Lemma limb_SetCompact_spec n :
  fits 32 n → arith_uint256 (limb_SetCompact n) ∧ value (limb_SetCompact n) = cValue (SetCompact n).
Proof.
  intros Hn. unfold limb_SetCompact, SetCompact. cbn [cValue].
  set (nWord := Z.land n 0x007fffff). set (nSize := Z.shiftr n 24).
  assert (Hw : 0 <= nWord < 2 ^ 23).
  { unfold nWord. change 0x007fffff with (Z.ones 23). rewrite Z.land_ones by lia.
    by apply Z.mod_pos_bound. }
  destruct (Z.leb_spec nSize 3).
  - apply of_uint64_256. rewrite Z.shiftr_div_pow2 by lia.
    pose proof (Z.pow_pos_nonneg 2 (8 * (3 - nSize)) ltac:(lia) ltac:(lia)).
    split; [apply Z.div_pos; lia|]. eapply Z.le_lt_trans; [apply (Z.div_le_upper_bound _ _ nWord); nia|lia].
  - destruct (of_uint64_256 nWord ltac:(split; lia)) as ([H1 H2] & H3).
    pose proof (op_shl_spec _ (8 * (nSize - 3)) H1 ltac:(lia)) as Hs. rewrite H2, H3 in Hs.
    by apply is_number_256.
Qed.

Lemma op_not_256 a : arith_uint256 a → arith_uint256 (op_not a) ∧ value (op_not a) = u256 (Z.lnot (value a)).
Proof.
  intros [Ha La]. destruct (op_not_spec a Ha) as (H1 & H2 & H3). split; [split; congruence|].
  rewrite H3, La. change (modulus WIDTH) with (2 ^ 256). pose proof (value_bounds a Ha) as Hv.
  rewrite La in Hv. change (modulus WIDTH) with (2 ^ 256) in Hv. rewrite Z.lnot_eq_pred_opp.
  unfold wrap. apply (Z.mod_unique_pos _ _ (-1)); lia.
Qed.

Lemma limb_GetCompact_spec a fNeg :
  arith_uint256 a → limb_GetCompact a fNeg = GetCompact (value a) fNeg.
Proof.
  intros [Ha La]. unfold limb_GetCompact, GetCompact. rewrite (op_bits_spec a Ha).
  set (nSize := (bits (value a) + 7) / 8).
  assert (Hlow : ∀ x, well_formed x → length x = WIDTH → op_GetLow64 x = GetLow64 (value x)).
  { intros x Hx Lx. apply op_GetLow64_spec; [done|]. rewrite Lx. unfold WIDTH. lia. }
  assert (Hsz : 3 < nSize → op_GetLow64 (op_shr a (8 * (nSize - 3))) =
    GetLow64 (Z.shiftr (value a) (8 * (nSize - 3)))).
  { intros Hs. destruct (op_shr_spec a (8 * (nSize - 3)) Ha ltac:(lia)) as (H1 & H2 & H3).
    rewrite Hlow, H3 by congruence. f_equal. pose proof (value_bounds a Ha).
    rewrite Z.shiftr_div_pow2 by lia. apply Z.mod_small.
    pose proof (Z.pow_pos_nonneg 2 (8 * (nSize - 3)) ltac:(lia) ltac:(lia)).
    split; [apply Z.div_pos; lia|]. eapply Z.le_lt_trans; [apply (Z.div_le_upper_bound _ _ (value a)); nia|lia]. }
  rewrite (Hlow a Ha La). destruct (Z.leb_spec nSize 3); [done|]. by rewrite Hsz.
Qed.

(** C30. The limb routines of [arith_uint256] compute the arithmetic modulo 2^256 that the
    rest of this development uses: sum, difference, negation, complement, increment,
    decrement, product by a 32-bit word and by a number, both shifts, the comparison, the equality
    with a 64-bit word, the bit length, the low word, the quotient (with the exception
    exactly for a zero divisor), the compact encoding of a number and the number of a
    compact encoding. *)
Theorem limbs_refine a b c w s :
  arith_uint256 a → arith_uint256 b → fits 32 c → fits 64 w → 0 <= s →
  let num r v := arith_uint256 r ∧ value r = u256 v in
  num (op_add a b) (value a + value b) ∧ num (op_sub a b) (value a - value b) ∧
  num (op_neg a) (- value a) ∧ num (op_not a) (Z.lnot (value a)) ∧
  num (op_incr a) (value a + 1) ∧ num (op_decr a) (value a - 1) ∧
  num (op_mul a b) (value a * value b) ∧ num (op_mul32 a c) (value a * c) ∧
  num (op_shl a s) (Z.shiftl (value a) s) ∧ num (op_shr a s) (Z.shiftr (value a) s) ∧
  CompareTo a b = match value a ?= value b with Lt => -1 | Gt => 1 | Eq => 0 end ∧
  EqualTo a w = (value a =? w) ∧ op_bits a = bits (value a) ∧
  op_GetLow64 a = GetLow64 (value a) ∧
  (value b = 0 → op_div a b = None) ∧
  (value b ≠ 0 → ∃ q, op_div a b = Some q ∧ num q (value a / value b)) ∧
  (∀ fNegative, limb_GetCompact a fNegative = GetCompact (value a) fNegative) ∧
  num (limb_SetCompact c) (cValue (SetCompact c)).
Proof.
  intros [Ha La] [Hb Lb] Hc Hw Hs. cbv zeta.
  assert (Hl : length a = length b) by congruence. unfold limb, fits in *.
  split; [apply is_number_256; rewrite <- La; by apply op_add_spec|].
  split; [apply is_number_256; rewrite <- La; by apply op_sub_spec|].
  split; [apply is_number_256; rewrite <- La; by apply op_neg_spec|].
  split; [by apply op_not_256|].
  split; [apply is_number_256; rewrite <- La; by apply op_incr_spec|].
  split; [apply is_number_256; rewrite <- La; by apply op_decr_spec|].
  split; [apply is_number_256; rewrite <- La; by apply op_mul_spec|].
  split; [apply is_number_256; rewrite <- La, Z.mul_comm; by apply (mul32_loop_spec a 0 c)|].
  split; [apply is_number_256; rewrite <- La; by apply op_shl_spec|].
  split; [apply is_number_256; rewrite <- La; by apply op_shr_spec|].
  split; [by apply CompareTo_spec|].
  split; [apply EqualTo_spec; [done|rewrite La; unfold WIDTH; lia|split; lia]|].
  split; [by apply op_bits_spec|].
  split; [apply op_GetLow64_spec; [done|rewrite La; unfold WIDTH; lia]|].
  pose proof (op_div_spec a b Ha Hb Hl) as Hd.
  split; [intros E; by destruct (op_div a b) as [q|]; [destruct Hd|]|].
  split; [intros E; destruct (op_div a b) as [q|]; [|done]; exists q; split; [done|];
    apply is_number_256; rewrite <- La; by destruct Hd|].
  split; [intros neg; by apply limb_GetCompact_spec|].
  destruct (limb_SetCompact_spec c Hc) as [H1 H2]. split; [done|]. rewrite H2. symmetry.
  apply wrap_small. pose proof (SetCompact_range c Hc). split; lia.
Qed.

Lemma limbs_refine_witness :
  let a := [0xffffffff; 0xffffffff; 1; 0; 0; 0; 0; 0] in
  let b := [3; 5; 0; 0; 0; 0; 0; 0] in
  value (op_mul a b) = u256 (value a * value b) ∧ op_div a b = Some [1717986918; 0; 0; 0; 0; 0; 0; 0].
Proof.
  cbv zeta. split; [|vm_compute; reflexivity].
  refine (proj2 (proj1 (proj2 (proj2 (proj2 (proj2 (proj2 (proj2
    (limbs_refine _ _ 7 0xfffffffffff 40 _ _ _ _ _)))))))));
    first [split; [repeat constructor; try lia; discriminate|reflexivity]|vm_compute; split; first [reflexivity|discriminate]|lia].
Defined.

Lemma limb_GetBlockProof_spec n :
  fits 32 n → ∃ p, limb_GetBlockProof n = Some p ∧ arith_uint256 p ∧ value p = GetBlockProof n.
Proof.
  intros Hn. destruct (limb_SetCompact_spec n Hn) as [[Ht Lt] Hv].
  pose proof (SetCompact_range n Hn) as Hr.
  destruct (of_uint64_256 0 ltac:(split; lia)) as (Z1 & Z2).
  destruct (of_uint64_256 1 ltac:(split; lia)) as ([O1 O2] & O3).
  unfold limb_GetBlockProof, GetBlockProof.
  rewrite EqualTo_spec, Hv; [|done|rewrite Lt; unfold WIDTH; lia|split; lia].
  destruct (_ || (cValue (SetCompact n) =? 0)); [by eauto|].
  destruct (op_not_256 (limb_SetCompact n)) as ([N1 N2] & N3); [by split|].
  destruct (is_number_256 _ _ (eq_rect _ (λ w, is_number w _ _)
    (op_add_spec (limb_SetCompact n) (of_uint64 WIDTH 1) Ht O1 ltac:(congruence)) _ Lt)) as ([A1 A2] & A3).
  rewrite Hv in N3. rewrite Hv, O3 in A3.
  pose proof (op_div_spec _ _ N1 A1 ltac:(congruence)) as Hd.
  destruct (op_div _ _) as [q|]; [|rewrite A3, (wrap_small 256) in Hd by (split; lia); lia].
  destruct Hd as [_ (Q1 & Q2 & Q3)]. rewrite N2 in Q2, Q3. cbn [mbind option_bind].
  destruct (is_number_256 _ _ (eq_rect _ (λ w, is_number w _ _)
    (op_add_spec q (of_uint64 WIDTH 1) Q1 O1 ltac:(congruence)) _ Q2)) as (P1 & P3).
  eexists. split; [done|]. split; [done|]. rewrite P3, Q3, O3, N3, A3.
  unfold wrap at 1. change (modulus WIDTH) with (2 ^ 256). unfold wrap at 3.
  by rewrite Zplus_mod_idemp_l.
Qed.

(** The work of a block, computed on limbs, never meets the exception of the division
    and is the expected number of hashes, 2^256 / (target + 1), for every header value
    without flags, although 2^256 does not fit the type; a smaller target never counts for
    less work, and every valid target counts for some. *)
Theorem block_proof_limbs n n' :
  fits 32 n → fits 32 n' →
  let c := SetCompact n in let c' := SetCompact n' in
  fNegative c = false → fOverflow c = false → 0 < cValue c →
  fNegative c' = false → fOverflow c' = false → cValue c <= cValue c' →
  ∃ p p', limb_GetBlockProof n = Some p ∧ limb_GetBlockProof n' = Some p' ∧
    value p = GetBlockProof n ∧ value p' = GetBlockProof n' ∧
    value p = 2 ^ 256 / (cValue c + 1) ∧ 0 < value p < 2 ^ 256 ∧ value p' <= value p.
Proof.
  intros Hn Hn' c c' H1 H2 H3 H4 H5 Hle.
  destruct (limb_GetBlockProof_spec n Hn) as (p & Ep & _ & Vp).
  destruct (limb_GetBlockProof_spec n' Hn') as (p' & Ep' & _ & Vp').
  destruct (block_proof_exact n n' Hn Hn' H1 H2 H3 H4 H5 Hle) as (E1 & E2 & E3).
  exists p, p'. rewrite Vp, Vp'. split_and!; done || lia.
Qed.

Lemma block_proof_limbs_witness :
  ∃ p p', limb_GetBlockProof 0x1d00ffff = Some p ∧ limb_GetBlockProof 0x1e00ffff = Some p' ∧
    value p = GetBlockProof 0x1d00ffff ∧ value p' <= value p.
Proof.
  destruct (block_proof_limbs 0x1d00ffff 0x1e00ffff) as (p & p' & H1 & H2 & H3 & _ & _ & _ & H4);
    [vm_compute; first [reflexivity|discriminate|split; first [reflexivity|discriminate]]..|].
  exists p, p'. split; [exact H1|]. split; [exact H2|]. split; [exact H3|exact H4].
Defined.
