(* ===== verification/Serialize.v ===== *)
(** Serialization: the byte-level formats of src/src/serialize.h that the block header
    uses (fixed-width little-endian integers and CompactSize) and of
    src/src/uint256.h (32 storage bytes).

    A byte is a [Z] in [0, 256).  Reading is a parser over the bytes that are left;
    [None] is the exception the stream throws.  A format is a [codec]: an encoder, a
    parser, and the law that reading what was written gives the value back and leaves
    the rest. *)

From S2P Require Import Prelude.

Definition parser (A : Type) : Type := list Z → option (A * list Z).

#[export] Instance parser_ret : MRet parser := λ A a s, Some (a, s).
#[export] Instance parser_bind : MBind parser :=
  λ A B f p s, match p s with None => None | Some (a, s') => f a s' end.

Definition parse_fail {A} : parser A := λ _, None.

(** ** Bytes *)

Fixpoint le_bytes (n : nat) (x : Z) : list Z :=
  match n with
  | O => []
  | S n' => x mod 256 :: le_bytes n' (x / 256)
  end.

Fixpoint le_value (bs : list Z) : Z :=
  match bs with
  | [] => 0
  | b :: bs' => b + 256 * le_value bs'
  end.

Definition read_bytes (n : nat) : parser (list Z) :=
  λ s, if bool_decide (n <= length s)%nat then Some (take n s, drop n s) else None.

Definition read_le (n : nat) : parser Z := bs ← read_bytes n; mret (le_value bs).

(** A [uint256] is written as its storage bytes: the digits of the big-endian number. *)
Definition write_uint256 (h : Z) : list Z := reverse (le_bytes 32 h).
Definition read_uint256 : parser Z := bs ← read_bytes 32; mret (le_value (reverse bs)).

(** ** CompactSize *)

Definition MAX_SIZE : Z := 0x02000000.

Definition WriteCompactSize (nSize : Z) : list Z :=
  if nSize <? 253 then le_bytes 1 nSize
  else if nSize <=? 0xffff then 253 :: le_bytes 2 nSize
  else if nSize <=? 0xffffffff then 254 :: le_bytes 4 nSize
  else 255 :: le_bytes 8 nSize.

(** Read [n] bytes, refusing a value a shorter form could carry. *)
Definition read_canonical (n : nat) (least : Z) : parser Z :=
  v ← read_le n; if v <? least then parse_fail else mret v.

Definition ReadCompactSize : parser Z :=
  chSize ← read_le 1;
  nSizeRet ← (if chSize <? 253 then mret chSize
              else if chSize =? 253 then read_canonical 2 253
              else if chSize =? 254 then read_canonical 4 0x10000
              else read_canonical 8 0x100000000);
  if MAX_SIZE <? nSizeRet then parse_fail else mret nSizeRet.

(** ** Laws *)

Lemma le_bytes_length n x : length (le_bytes n x) = n.
Proof. revert x. induction n as [|n IH]; intros x; simpl; [done|]. by rewrite IH. Qed.

Lemma le_value_bytes n x : le_value (le_bytes n x) = x mod 256 ^ Z.of_nat n.
Proof.
  revert x. induction n as [|n IH]; intros x; [by rewrite Z.mod_1_r|].
  cbn [le_bytes le_value]. rewrite IH, Nat2Z.inj_succ, Z.pow_succ_r by lia.
  rewrite Z.rem_mul_r by (try apply Z.pow_nonzero; lia). lia.
Qed.

Lemma le_value_small n x : 0 <= x < 256 ^ Z.of_nat n → le_value (le_bytes n x) = x.
Proof. intros Hx. rewrite le_value_bytes. by apply Z.mod_small. Qed.

Lemma read_bytes_app n bs rest : length bs = n → read_bytes n (bs ++ rest) = Some (bs, rest).
Proof.
  intros <-. unfold read_bytes. rewrite bool_decide_eq_true_2 by (rewrite length_app; lia).
  by rewrite take_app_length, drop_app_length.
Qed.

(** A format that can be read back. *)
Record codec (A : Type) := mkCodec {
  encode : A → list Z;
  decode : parser A;
  encodable : A → Prop;
  decode_encode a rest : encodable a → decode (encode a ++ rest) = Some (a, rest)
}.
Arguments encode {A} _ _.
Arguments decode {A} _ _.
Arguments encodable {A} _ _.
Arguments decode_encode {A} _ _ _ _.

Lemma parser_bind_Some {A B} (p : parser A) (f : A → parser B) s a s' :
  p s = Some (a, s') → (p ≫= f) s = f a s'.
Proof. intros H. unfold mbind, parser_bind. by rewrite H. Qed.

Lemma read_le_bytes n x rest :
  0 <= x < 256 ^ Z.of_nat n → read_le n (le_bytes n x ++ rest) = Some (x, rest).
Proof.
  intros Hx. unfold read_le. erewrite parser_bind_Some by (apply read_bytes_app, le_bytes_length).
  unfold mret, parser_ret. by rewrite le_value_small.
Qed.

Program Definition uint32_codec : codec Z :=
  {| encode := le_bytes 4; decode := read_le 4; encodable := fits 32 |}.
Next Obligation. intros x rest Hx. by apply read_le_bytes. Qed.

(** [int32_t] is written through its conversion to [uint32_t]. *)
Program Definition int32_codec : codec Z :=
  {| encode x := le_bytes 4 (u32 x); decode := x ← read_le 4; mret (s32 x);
     encodable x := - 2 ^ 31 <= x < 2 ^ 31 |}.
Next Obligation.
  intros x rest Hx. cbn beta.
  erewrite parser_bind_Some by (apply read_le_bytes; apply (wrap_fits 32); lia).
  unfold mret, parser_ret. do 2 f_equal. by apply swrap_wrap.
Qed.

Program Definition uint256_codec : codec Z :=
  {| encode := write_uint256; decode := read_uint256; encodable := fits 256 |}.
Next Obligation.
  intros x rest Hx. unfold read_uint256, write_uint256.
  erewrite parser_bind_Some
    by (apply read_bytes_app; by rewrite length_reverse, le_bytes_length).
  unfold mret, parser_ret. rewrite reverse_involutive, le_value_small; [done|exact Hx].
Qed.

Lemma read_canonical_bytes n least x rest :
  least <= x → 0 <= x < 256 ^ Z.of_nat n →
  read_canonical n least (le_bytes n x ++ rest) = Some (x, rest).
Proof.
  intros Hl Hx. unfold read_canonical. erewrite parser_bind_Some by (by apply read_le_bytes).
  destruct (Z.ltb_spec x least); [lia|]. done.
Qed.

Lemma read_le_1 b rest : 0 <= b < 256 → read_le 1 (b :: rest) = Some (b, rest).
Proof.
  intros Hb. change (b :: rest) with ([b] ++ rest).
  replace [b] with (le_bytes 1 b) by (simpl; by rewrite Z.mod_small). by apply read_le_bytes.
Qed.

Program Definition CompactSize_codec : codec Z :=
  {| encode := WriteCompactSize; decode := ReadCompactSize;
     encodable x := 0 <= x <= MAX_SIZE |}.
Next Obligation.
  intros x rest Hx. unfold ReadCompactSize, WriteCompactSize, MAX_SIZE in *.
  assert (Hmax : (0x02000000 <? x) = false) by (apply Z.ltb_ge; lia).
  destruct (Z.ltb_spec x 253).
  { erewrite parser_bind_Some by (apply read_le_bytes; simpl; lia).
    rewrite (proj2 (Z.ltb_lt x 253)) by lia.
    erewrite parser_bind_Some by done. by rewrite Hmax. }
  destruct (Z.leb_spec x 0xffff); [|destruct (Z.leb_spec x 0xffffffff); [|lia]]; cbn [app];
    erewrite parser_bind_Some by (apply read_le_1; lia); cbn [Z.ltb Z.eqb];
    erewrite parser_bind_Some by (apply read_canonical_bytes; simpl; lia); by rewrite Hmax.
Qed.

(** A vector of [n] values, one after the other. *)
Fixpoint read_n {A} (n : nat) (p : parser A) : parser (list A) :=
  match n with
  | O => mret []
  | S n' => x ← p; xs ← read_n n' p; mret (x :: xs)
  end.

Lemma read_n_encode {A} (c : codec A) xs rest :
  Forall (encodable c) xs →
  read_n (length xs) (decode c) (concat (encode c <$> xs) ++ rest) = Some (xs, rest).
Proof.
  induction 1 as [|x xs Hx Hxs IH]; [done|]. simpl. rewrite <- app_assoc.
  erewrite parser_bind_Some by (by apply decode_encode).
  by erewrite parser_bind_Some by done.
Qed.
