(* ===== verification/BlockHeader.v ===== *)
(** The block header: [CBlockHeader] of src/src/primitives/block.h and block.cpp, its
    serialization, and what its hash commits to.

    [SHA256d] stands for [HashWriter::GetHash] (double SHA-256 of the bytes written); it
    is an argument of the definitions that hash. *)

From S2P Require Import Prelude OrdSet TipSet Serialize.

(** ** Data *)

Definition MAX_BLOCK_PARENTS_SERIALIZATION : Z := 64.
Definition BLOCK_VERSION_DAGMODE : Z := Z.shiftl 1 28.

Record CBlockHeader := mkHeader {
  hdr_nVersion : Z;
  hdr_hashPrevBlock : Z;
  hdr_hashMerkleRoot : Z;
  hdr_nTime : Z;
  hdr_nBits : Z;
  hdr_nNonce : Z;
  hdr_hashParentsRoot : Z;
  hdr_hashParents : list Z
}.

(** [SetNull], the default constructor. *)
Definition null_header : CBlockHeader := mkHeader 0 0 0 0 0 0 0 [].

Definition CBlockHeader_IsNull (b : CBlockHeader) : bool := hdr_nBits b =? 0.

Definition has_dag_bit (nVersion : Z) : bool :=
  negb (Z.land nVersion BLOCK_VERSION_DAGMODE =? 0).

Definition IsDagBlock (b : CBlockHeader) : bool := has_dag_bit (hdr_nVersion b).

Definition GetAllParents (b : CBlockHeader) : list Z :=
  (if negb (IsNull (hdr_hashPrevBlock b)) then [hdr_hashPrevBlock b] else []) ++
  filter (λ p, IsNull p = false) (hdr_hashParents b).

(** ** Serialization *)

Definition SerializeHeader (b : CBlockHeader) : list Z :=
  encode int32_codec (hdr_nVersion b) ++ encode uint256_codec (hdr_hashPrevBlock b) ++
  encode uint256_codec (hdr_hashMerkleRoot b) ++ encode uint32_codec (hdr_nTime b) ++
  encode uint32_codec (hdr_nBits b) ++
  (if IsDagBlock b then encode uint256_codec (hdr_hashParentsRoot b) else []) ++
  encode uint32_codec (hdr_nNonce b) ++
  (if IsDagBlock b
   then WriteCompactSize (Z.of_nat (length (hdr_hashParents b))) ++
        concat (encode uint256_codec <$> hdr_hashParents b)
   else []).

(** Reading overwrites the fields of the object [b0]; the parent fields of a block
    without the DAG bit keep what [b0] held. *)
Definition UnserializeHeader (b0 : CBlockHeader) : parser CBlockHeader :=
  nVersion ← decode int32_codec;
  hashPrevBlock ← decode uint256_codec;
  hashMerkleRoot ← decode uint256_codec;
  nTime ← decode uint32_codec;
  nBits ← decode uint32_codec;
  hashParentsRoot ← (if has_dag_bit nVersion then decode uint256_codec
                     else mret (hdr_hashParentsRoot b0));
  nNonce ← decode uint32_codec;
  hashParents ←
    (if has_dag_bit nVersion then
       nSize ← ReadCompactSize;
       if MAX_BLOCK_PARENTS_SERIALIZATION <? nSize then parse_fail
       else read_n (Z.to_nat nSize) (decode uint256_codec)
     else mret (hdr_hashParents b0));
  mret (mkHeader nVersion hashPrevBlock hashMerkleRoot nTime nBits nNonce hashParentsRoot
          hashParents).

(** ** Hashing *)

(** The bytes [GetHash] feeds to the hash. *)
Definition hash_preimage (b : CBlockHeader) : list Z :=
  encode int32_codec (hdr_nVersion b) ++ encode uint256_codec (hdr_hashPrevBlock b) ++
  encode uint256_codec (hdr_hashMerkleRoot b) ++ encode uint32_codec (hdr_nTime b) ++
  encode uint32_codec (hdr_nBits b) ++
  (if IsDagBlock b then encode uint256_codec (hdr_hashParentsRoot b) else []) ++
  encode uint32_codec (hdr_nNonce b).

Definition parents_preimage (parents : list Z) : list Z :=
  concat (encode uint256_codec <$> parents).

Section hashing.
Context (SHA256d : list Z → Z).

Definition ComputeParentsRoot (parents : list Z) : Z :=
  match parents with
  | [] => 0
  | _ => SHA256d (parents_preimage parents)
  end.

Definition GetHash (b : CBlockHeader) : Z := SHA256d (hash_preimage b).
End hashing.

(** ** Lemmas *)

(** The ranges of the C++ types. *)
Record header_ok (b : CBlockHeader) : Prop := {
  ho_version : - 2 ^ 31 <= hdr_nVersion b < 2 ^ 31;
  ho_prev : fits 256 (hdr_hashPrevBlock b);
  ho_merkle : fits 256 (hdr_hashMerkleRoot b);
  ho_time : fits 32 (hdr_nTime b);
  ho_bits : fits 32 (hdr_nBits b);
  ho_nonce : fits 32 (hdr_nNonce b);
  ho_root : fits 256 (hdr_hashParentsRoot b);
  ho_parents : Forall (fits 256) (hdr_hashParents b)
}.

(** The parent fields of a block without the DAG bit are empty. *)
Definition dag_fields_ok (b : CBlockHeader) : Prop :=
  IsDagBlock b = false → hdr_hashParentsRoot b = 0 ∧ hdr_hashParents b = [].

Lemma codec_inj {A} (c : codec A) x y r r' :
  encodable c x → encodable c y → encode c x ++ r = encode c y ++ r' → x = y ∧ r = r'.
Proof.
  intros Hx Hy E. pose proof (decode_encode c x r Hx) as H1.
  rewrite E, decode_encode in H1 by done. by simplify_eq.
Qed.

Lemma parents_length ps : length (parents_preimage ps) = (32 * length ps)%nat.
Proof.
  unfold parents_preimage. induction ps as [|p ps IH]; [done|].
  rewrite fmap_cons. cbn [concat length]. rewrite length_app, IH.
  change (encode uint256_codec p) with (reverse (le_bytes 32 p)).
  rewrite length_reverse, le_bytes_length. lia.
Qed.

Lemma parents_inj ps qs :
  Forall (fits 256) ps → Forall (fits 256) qs → parents_preimage ps = parents_preimage qs → ps = qs.
Proof.
  intros Hp. revert qs. induction Hp as [|p ps Hp Hps IH]; intros qs Hq E;
    (destruct Hq as [|q qs Hq Hqs];
      [try done; apply (f_equal length) in E; rewrite !parents_length in E; done|]).
  - apply (f_equal length) in E. by rewrite !parents_length in E.
  - unfold parents_preimage in E. rewrite !fmap_cons in E. cbn [concat] in E.
    apply (codec_inj uint256_codec) in E as [-> E]; [|done..]. f_equal. by apply IH.
Qed.

(** Equal hash inputs mean equal committed fields. *)
Lemma preimage_inj b c :
  header_ok b → header_ok c → hash_preimage b = hash_preimage c →
  hdr_nVersion b = hdr_nVersion c ∧ hdr_hashPrevBlock b = hdr_hashPrevBlock c ∧
  hdr_hashMerkleRoot b = hdr_hashMerkleRoot c ∧ hdr_nTime b = hdr_nTime c ∧
  hdr_nBits b = hdr_nBits c ∧ hdr_nNonce b = hdr_nNonce c ∧
  (IsDagBlock b = true → hdr_hashParentsRoot b = hdr_hashParentsRoot c).
Proof.
  intros [] [] E. unfold hash_preimage in E.
  apply (codec_inj int32_codec) in E as [Hv E]; [|done..].
  apply (codec_inj uint256_codec) in E as [Hp E]; [|done..].
  apply (codec_inj uint256_codec) in E as [Hm E]; [|done..].
  apply (codec_inj uint32_codec) in E as [Ht E]; [|done..].
  apply (codec_inj uint32_codec) in E as [Hb E]; [|done..].
  unfold IsDagBlock in *. rewrite Hv in *. destruct (has_dag_bit (hdr_nVersion c)).
  - apply (codec_inj uint256_codec) in E as [Hr E]; [|done..].
    rewrite <- (app_nil_r (encode uint32_codec (hdr_nNonce b))),
            <- (app_nil_r (encode uint32_codec (hdr_nNonce c))) in E.
    apply (codec_inj uint32_codec) in E as [Hn _]; done.
  - cbn [app] in E.
    rewrite <- (app_nil_r (encode uint32_codec (hdr_nNonce b))),
            <- (app_nil_r (encode uint32_codec (hdr_nNonce c))) in E.
    apply (codec_inj uint32_codec) in E as [Hn _]; done.
Qed.

(** ** Properties *)

(** Reading a serialized header gives it back and leaves the rest of the stream, in
    both formats, into a fresh object, for every header in range with at most
    [MAX_BLOCK_PARENTS_SERIALIZATION] extra parents; more parents are refused. *)
Theorem header_roundtrip b rest :
  header_ok b → dag_fields_ok b → Z.of_nat (length (hdr_hashParents b)) <= MAX_SIZE →
  UnserializeHeader null_header (SerializeHeader b ++ rest) =
  if IsDagBlock b && (MAX_BLOCK_PARENTS_SERIALIZATION <? Z.of_nat (length (hdr_hashParents b)))
  then None else Some (b, rest).
Proof.
  intros [] Hdag Hsize. unfold UnserializeHeader, SerializeHeader.
  rewrite <- !app_assoc. unfold IsDagBlock in *.
  erewrite parser_bind_Some by (by apply decode_encode).
  do 2 (erewrite parser_bind_Some by (by apply decode_encode)).
  do 2 (erewrite parser_bind_Some by (by apply decode_encode)).
  destruct (has_dag_bit (hdr_nVersion b)) eqn:Hbit; cbn [andb].
  - do 2 (erewrite parser_bind_Some by (by apply decode_encode)).
    rewrite <- !app_assoc. unfold mbind at 1, parser_bind at 1.
    erewrite parser_bind_Some by (apply (decode_encode CompactSize_codec); simpl; lia).
    destruct (MAX_BLOCK_PARENTS_SERIALIZATION <? Z.of_nat (length (hdr_hashParents b))); [done|].
    rewrite Nat2Z.id, read_n_encode by done. by destruct b.
  - destruct (Hdag Hbit) as [Hr Hp]. cbn [app].
    erewrite parser_bind_Some by done. erewrite parser_bind_Some by (by apply decode_encode).
    erewrite parser_bind_Some by done. destruct b; simpl in *. by subst.
Qed.

(** A DAG block with two extra parents. *)
Definition header_example : CBlockHeader :=
  mkHeader 0x30000000 5 6 1700000000 0x1d00ffff 42 77 [8; 9].

Lemma header_example_ok : header_ok header_example.
Proof. constructor; repeat constructor; simpl; unfold fits; try lia; done. Qed.

(** ** Collisions *)

Section collision.
Context (SHA256d : list Z → Z).

(** Two different strings of a list with the same hash.  Every hash function has collisions;
    what matters is whether the strings that were hashed contain one. *)
Definition collision (hashed : list (list Z)) : Prop :=
  ∃ x y, x ∈ hashed ∧ y ∈ hashed ∧ x ≠ y ∧ SHA256d x = SHA256d y.

Lemma collision_mono l k : l ⊆ k → collision l → collision k.
Proof. intros Hs (x & y & Hx & Hy & H). exists x, y. auto. Qed.

Lemma hash_eq hashed x y : x ∈ hashed → y ∈ hashed → SHA256d x = SHA256d y → x = y ∨ collision hashed.
Proof. intros Hx Hy E. destruct (decide (x = y)); [by left|]. right. by exists x, y. Qed.
End collision.

(** Proof of work commits to the whole DAG topology of a block: two different headers
    that pass the parents-root check (and carry no parent fields without the DAG bit)
    have different hashes, unless two different strings among those hashed for them (the
    headers and the lists of parents) have the same hash, or one has the hash zero. *)
Theorem header_commitment (SHA256d : list Z → Z) b c :
  header_ok b → header_ok c → dag_fields_ok b → dag_fields_ok c →
  hdr_hashParentsRoot b = ComputeParentsRoot SHA256d (hdr_hashParents b) →
  hdr_hashParentsRoot c = ComputeParentsRoot SHA256d (hdr_hashParents c) →
  GetHash SHA256d b = GetHash SHA256d c →
  let hashed := [hash_preimage b; hash_preimage c; parents_preimage (hdr_hashParents b); parents_preimage (hdr_hashParents c)] in
  b = c ∨ collision SHA256d hashed ∨ (∃ x, x ∈ hashed ∧ SHA256d x = 0).
Proof.
  intros Hb Hc Db Dc Rb Rc E hashed.
  assert (Hin : Forall (.∈ hashed) hashed) by (by apply Forall_forall). unfold hashed in Hin at 2.
  rewrite !Forall_cons in Hin. destruct Hin as (I1 & I2 & I3 & I4 & _). clearbody hashed.
  destruct (hash_eq SHA256d hashed _ _ I1 I2 E) as [Hpre|]; [|by auto].
  destruct (preimage_inj b c Hb Hc Hpre) as (H1 & H2 & H3 & H4 & H5 & H6 & H7).
  assert (Hd : IsDagBlock b = IsDagBlock c) by (unfold IsDagBlock; by rewrite H1).
  destruct (IsDagBlock b) eqn:Eb.
  - specialize (H7 eq_refl). rewrite Rb, Rc in H7.
    destruct (decide (hdr_hashParents b = hdr_hashParents c)) as [Hp|Hp].
    + left. destruct b, c; simpl in *. congruence.
    + unfold ComputeParentsRoot in H7.
      destruct (hdr_hashParents b) as [|p ps] eqn:Ep, (hdr_hashParents c) as [|q qs] eqn:Eq;
        [done|right; right; by exists (parents_preimage (q :: qs))|right; right; by exists (parents_preimage (p :: ps))|].
      apply (hash_eq SHA256d hashed) in H7 as [Hpq|]; [|by auto|done..].
      apply parents_inj in Hpq; [done|rewrite <- Ep; by apply Hb|rewrite <- Eq; by apply Hc].
  - left. destruct (Db Eb) as [G1 G2], (Dc (eq_sym Hd)) as [G3 G4].
    destruct b, c; simpl in *. congruence.
Qed.

(** An injective stand-in for the hash: the number whose digits are the bytes. *)
Lemma header_commitment_witness :
  let H := λ bs : list Z, 1 + le_value (bs ++ [1]) in
  let b := mkHeader 0x30000000 5 6 1700000000 0x1d00ffff 42 0 [] in
  let hashed := [hash_preimage b; hash_preimage b; parents_preimage []; parents_preimage []] in
  b = b ∨ collision H hashed ∨ (∃ x, x ∈ hashed ∧ H x = 0).
Proof.
  intros H b.
  assert (Hok : header_ok b) by (constructor; repeat constructor; simpl; unfold fits; try lia; done).
  assert (Hd : dag_fields_ok b) by (vm_compute; discriminate).
  exact (header_commitment H b b Hok Hok Hd Hd eq_refl eq_refl eq_refl).
Defined.
