(* ===== verification/Formats.v ===== *)
(** * Composite formats: the vectors, pairs and records of src/src/serialize.h

    [READWRITE] lists the fields of a class once, and both directions follow; here a format
    is a [codec] built from the codecs of its fields.  A codec is [Canonical] when what it
    reads can only have been written by its encoder, so that the bytes of a message and
    the value read determine each other. *)

From S2P Require Import Prelude Serialize BlockHeader.

Definition is_byte (b : Z) : Prop := 0 <= b < 256.

(** Whatever is read is the encoding of the value that comes out, which is in range. *)
Class Canonical {A} (c : codec A) : Prop :=
  canonical s a rest :
    Forall is_byte s → decode c s = Some (a, rest) → s = encode c a ++ rest ∧ encodable c a.

(** ** Integers *)

(** [int64_t] is written through its conversion to [uint64_t]. *)
Program Definition int64_codec : codec Z :=
  {| encode x := le_bytes 8 (u64 x); decode := x ← read_le 8; mret (s64 x);
     encodable x := - 2 ^ 63 <= x < 2 ^ 63 |}.
Next Obligation.
  intros x rest Hx. cbn beta.
  erewrite parser_bind_Some by (apply read_le_bytes; apply (wrap_fits 64); lia).
  unfold mret, parser_ret. do 2 f_equal. by apply swrap_wrap.
Qed.

(** One byte. *)
Program Definition uint8_codec : codec Z :=
  {| encode := le_bytes 1; decode := read_le 1; encodable := is_byte |}.
Next Obligation. intros x rest Hx. by apply read_le_bytes. Qed.

(** ** Vectors *)

(** [std::vector] and [prevector] of bytes, [CScript] among them. *)
Definition write_bytes (v : list Z) : list Z := WriteCompactSize (Z.of_nat (length v)) ++ v.
Definition read_byte_vector : parser (list Z) :=
  nSize ← ReadCompactSize; read_bytes (Z.to_nat nSize).

(** [VectorFormatter]: the elements one after the other. *)
Definition write_vector {A} (c : codec A) (v : list A) : list Z :=
  WriteCompactSize (Z.of_nat (length v)) ++ concat (encode c <$> v).
Definition read_vector {A} (c : codec A) : parser (list A) :=
  size ← ReadCompactSize; read_n (Z.to_nat size) (decode c).

Definition vector_size_ok {A} (v : list A) : Prop := Z.of_nat (length v) <= MAX_SIZE.

Program Definition bytes_codec : codec (list Z) :=
  {| encode := write_bytes; decode := read_byte_vector;
     encodable v := vector_size_ok v ∧ Forall is_byte v |}.
Next Obligation.
  intros v rest [Hv _]. unfold read_byte_vector, write_bytes. rewrite <- app_assoc.
  erewrite parser_bind_Some by (apply (decode_encode CompactSize_codec); simpl; unfold vector_size_ok in *; lia).
  apply read_bytes_app. by rewrite Nat2Z.id.
Qed.

Program Definition vector_codec {A} (c : codec A) : codec (list A) :=
  {| encode := write_vector c; decode := read_vector c;
     encodable v := vector_size_ok v ∧ Forall (encodable c) v |}.
Next Obligation.
  intros A c v rest [Hv Hc]. unfold read_vector, write_vector. rewrite <- app_assoc.
  erewrite parser_bind_Some by (apply (decode_encode CompactSize_codec); simpl; unfold vector_size_ok in *; lia).
  rewrite Nat2Z.id. by apply read_n_encode.
Qed.

(** ** Records *)

(** Two fields. *)
Program Definition pair_codec {A B} (c : codec A) (d : codec B) : codec (A * B) :=
  {| encode p := encode c p.1 ++ encode d p.2;
     decode := a ← decode c; b ← decode d; mret (a, b);
     encodable p := encodable c p.1 ∧ encodable d p.2 |}.
Next Obligation.
  intros A B c d [a b] rest [Ha Hb]. cbn [fst snd]. rewrite <- app_assoc.
  erewrite parser_bind_Some by (by apply decode_encode).
  by erewrite parser_bind_Some by (by apply decode_encode).
Qed.

(** The values of a type with the fields [fields]. *)
Program Definition record_codec {A B} (c : codec B) (fields : A → B) (make : B → A)
    (make_fields : ∀ a, make (fields a) = a) : codec A :=
  {| encode a := encode c (fields a); decode := b ← decode c; mret (make b);
     encodable a := encodable c (fields a) |}.
Next Obligation.
  intros A B c fields make make_fields a rest Ha. cbn beta.
  erewrite parser_bind_Some by (by apply decode_encode).
  unfold mret, parser_ret. by rewrite make_fields.
Qed.

(** ** Canonical decoding *)

Lemma parser_bind_inv {A B} (p : parser A) (f : A → parser B) s b s' :
  (p ≫= f) s = Some (b, s') → ∃ a s1, p s = Some (a, s1) ∧ f a s1 = Some (b, s').
Proof. unfold mbind, parser_bind. destruct (p s) as [[a s1]|]; [|done]. eauto. Qed.

Lemma read_bytes_inv n s bs rest :
  read_bytes n s = Some (bs, rest) → s = bs ++ rest ∧ length bs = n.
Proof.
  unfold read_bytes. case_bool_decide; [|done]. intros [= <- <-].
  rewrite take_drop, length_take. split; [done|lia].
Qed.

Lemma le_value_inv bs : Forall is_byte bs → le_bytes (length bs) (le_value bs) = bs ∧ 0 <= le_value bs < 256 ^ Z.of_nat (length bs).
Proof.
  induction 1 as [|b bs Hb _ [IH IH']]; [done|]. cbn [length le_bytes le_value]. unfold is_byte in Hb.
  rewrite Nat2Z.inj_succ, Z.pow_succ_r by lia.
  replace (b + 256 * le_value bs) with (b + le_value bs * 256) by lia.
  rewrite Z_mod_plus_full, Z.div_add, Z.mod_small, Z.div_small by lia. rewrite Z.add_0_l, IH.
  split; [done|lia].
Qed.

Lemma read_le_inv n s x rest :
  Forall is_byte s → read_le n s = Some (x, rest) →
  s = le_bytes n x ++ rest ∧ 0 <= x < 256 ^ Z.of_nat n.
Proof.
  intros Hs (bs & s1 & H & [= <- <-])%parser_bind_inv. apply read_bytes_inv in H as [-> <-].
  apply Forall_app in Hs as [Hs _]. by destruct (le_value_inv bs Hs) as [-> ?].
Qed.

#[export] Instance uint8_canonical : Canonical uint8_codec.
Proof. intros s x rest Hs H. by apply read_le_inv in H. Qed.
#[export] Instance uint32_canonical : Canonical uint32_codec.
Proof. intros s x rest Hs H. by apply read_le_inv in H. Qed.

(** The conversions to and from the unsigned type are inverse to each other. *)
Lemma wrap_swrap w x :
  0 < w → fits w x → wrap w (swrap w x) = x ∧ - 2 ^ (w - 1) <= swrap w x < 2 ^ (w - 1).
Proof.
  intros Hw Hx. assert (Hp : 2 ^ w = 2 * 2 ^ (w - 1)).
  { rewrite <- Z.pow_succ_r by lia. f_equal. lia. }
  assert (0 < 2 ^ (w - 1)) by (apply Z.pow_pos_nonneg; lia).
  unfold wrap, swrap. split.
  - rewrite Zminus_mod_idemp_l. replace (x + 2 ^ (w - 1) - 2 ^ (w - 1)) with x by lia.
    by apply Z.mod_small.
  - pose proof (Z.mod_pos_bound (x + 2 ^ (w - 1)) (2 ^ w)). lia.
Qed.

#[export] Instance int32_canonical : Canonical int32_codec.
Proof.
  intros s x rest Hs (y & s1 & H & [= <- <-])%parser_bind_inv. apply read_le_inv in H as [-> Hy]; [|done].
  cbn [encode encodable int32_codec]. destruct (wrap_swrap 32 y) as [-> ?]; [lia|done|]. done.
Qed.

#[export] Instance int64_canonical : Canonical int64_codec.
Proof.
  intros s x rest Hs (y & s1 & H & [= <- <-])%parser_bind_inv. apply read_le_inv in H as [-> Hy]; [|done].
  cbn [encode encodable int64_codec]. destruct (wrap_swrap 64 y) as [-> ?]; [lia|done|]. done.
Qed.

#[export] Instance uint256_canonical : Canonical uint256_codec.
Proof.
  intros s x rest Hs (bs & s1 & H & [= <- <-])%parser_bind_inv.
  apply read_bytes_inv in H as [-> Hl]. apply Forall_app in Hs as [Hs _].
  destruct (le_value_inv (reverse bs)) as [E Hb]; [by apply Forall_reverse|].
  rewrite length_reverse, Hl in E, Hb. cbn [encode encodable uint256_codec].
  unfold write_uint256. by rewrite E, reverse_involutive.
Qed.

Lemma read_canonical_inv n least s x rest :
  Forall is_byte s → read_canonical n least s = Some (x, rest) →
  s = le_bytes n x ++ rest ∧ least <= x < 256 ^ Z.of_nat n.
Proof.
  intros Hs (y & s1 & H & Hy)%parser_bind_inv. apply read_le_inv in H as [-> ?]; [|done].
  destruct (Z.ltb_spec y least); [done|]. injection Hy as <- <-. split; [done|lia].
Qed.

#[export] Instance CompactSize_canonical : Canonical CompactSize_codec.
Proof.
  intros s x rest Hs (ch & s1 & H & (n & s2 & Hn & Hx)%parser_bind_inv)%parser_bind_inv.
  apply read_le_inv in H as [-> Hch]; [|done]. apply Forall_app in Hs as [_ Hs].
  change (256 ^ Z.of_nat 1) with 256 in Hch.
  destruct (Z.ltb_spec MAX_SIZE n) as [|Hmax]; [done|]. injection Hx as <- <-.
  cbn [encode encodable CompactSize_codec]. unfold WriteCompactSize, MAX_SIZE in *.
  destruct (Z.ltb_spec ch 253).
  { injection Hn as <- <-. rewrite (proj2 (Z.ltb_lt ch 253)) by lia. split; [done|lia]. }
  assert (Hhd : ∀ c, 0 <= c < 256 → le_bytes 1 c = [c]).
  { intros c Hc. simpl. by rewrite Z.mod_small. }
  destruct (Z.eqb_spec ch 253) as [->|]; [|destruct (Z.eqb_spec ch 254) as [->|]];
    apply read_canonical_inv in Hn as [-> Hn]; try done; rewrite Hhd by lia; cbn in Hn;
    rewrite (proj2 (Z.ltb_ge n 253)) by lia; [|rewrite (proj2 (Z.leb_gt n 0xffff)) by lia|lia].
  - rewrite (proj2 (Z.leb_le n 0xffff)) by lia. split; [done|lia].
  - rewrite (proj2 (Z.leb_le n 0xffffffff)) by lia. split; [done|lia].
Qed.

(** The size of a vector that was read. *)
Lemma read_size_inv s n rest :
  Forall is_byte s → ReadCompactSize s = Some (n, rest) →
  s = WriteCompactSize n ++ rest ∧ 0 <= n <= MAX_SIZE ∧ Forall is_byte rest.
Proof.
  intros Hs H. apply (canonical (c := CompactSize_codec)) in H as [-> ?]; [|done].
  by apply Forall_app in Hs as [_ ?].
Qed.

#[export] Instance bytes_canonical : Canonical bytes_codec.
Proof.
  intros s v rest Hs (n & s1 & H & Hv)%parser_bind_inv.
  apply read_size_inv in H as (-> & Hn & Hs1); [|done]. apply read_bytes_inv in Hv as [-> Hl].
  apply Forall_app in Hs1 as [? _]. cbn [encode encodable bytes_codec].
  unfold write_bytes, vector_size_ok. rewrite Hl, Z2Nat.id, <- app_assoc by lia.
  split_and!; done || lia.
Qed.

Lemma read_n_inv {A} (c : codec A) `{!Canonical c} n s v rest :
  Forall is_byte s → read_n n (decode c) s = Some (v, rest) →
  s = concat (encode c <$> v) ++ rest ∧ length v = n ∧ Forall (encodable c) v.
Proof.
  revert s v. induction n as [|n IH]; intros s v Hs; cbn [read_n].
  - intros [= <- <-]. done.
  - intros (a & s1 & Ha & (w & s2 & Hw & [= <- <-])%parser_bind_inv)%parser_bind_inv.
    apply canonical in Ha as [-> Ha]; [|done]. apply Forall_app in Hs as [_ Hs].
    apply IH in Hw as (-> & <- & Hw); [|done]. rewrite fmap_cons. cbn [concat length].
    rewrite <- app_assoc. auto.
Qed.

#[export] Instance vector_canonical {A} (c : codec A) `{!Canonical c} : Canonical (vector_codec c).
Proof.
  intros s v rest Hs (n & s1 & H & Hv)%parser_bind_inv.
  apply read_size_inv in H as (-> & Hn & Hs1); [|done].
  apply read_n_inv in Hv as (-> & Hl & Hv); [|done..]. cbn [encode encodable vector_codec].
  unfold write_vector, vector_size_ok. rewrite Hl, Z2Nat.id, <- app_assoc by lia.
  split_and!; done || lia.
Qed.

#[export] Instance pair_canonical {A B} (c : codec A) (d : codec B) `{!Canonical c, !Canonical d} :
  Canonical (pair_codec c d).
Proof.
  intros s [a b] rest Hs (a' & s1 & Ha & (b' & s2 & Hb & [= <- <- <-])%parser_bind_inv)%parser_bind_inv.
  apply canonical in Ha as [-> Ha]; [|done]. apply Forall_app in Hs as [_ Hs].
  apply canonical in Hb as [-> Hb]; [|done]. cbn [encode encodable pair_codec fst snd].
  by rewrite <- app_assoc.
Qed.

(** The fields determine the record and the other way round. *)
Lemma record_canonical {A B} (c : codec B) `{!Canonical c} (fields : A → B) make H :
  (∀ b, fields (make b) = b) → Canonical (record_codec c fields make H).
Proof.
  intros Hb s a rest Hs (b & s1 & E & [= <- <-])%parser_bind_inv.
  apply canonical in E as [-> ?]; [|done]. cbn [encode encodable record_codec]. by rewrite Hb.
Qed.

(** ** Lengths *)

Lemma WriteCompactSize_length n :
  length (WriteCompactSize n) =
  if n <? 253 then 1%nat else if n <=? 0xffff then 3%nat
  else if n <=? 0xffffffff then 5%nat else 9%nat.
Proof. unfold WriteCompactSize. repeat case_match; cbn [length]; by rewrite le_bytes_length. Qed.

(** ** Block headers *)

(** A header can be written in one way only. *)
Lemma header_canonical s b rest :
  Forall is_byte s → UnserializeHeader null_header s = Some (b, rest) →
  s = SerializeHeader b ++ rest ∧ header_ok b ∧ dag_fields_ok b ∧
  Z.of_nat (length (hdr_hashParents b)) <= MAX_BLOCK_PARENTS_SERIALIZATION.
Proof.
  intros Hs (v & s1 & Hv & H)%parser_bind_inv. apply canonical in Hv as [-> Hv]; [|done].
  apply Forall_app in Hs as [_ Hs].
  apply parser_bind_inv in H as (p & s2 & Hp & H). apply canonical in Hp as [-> Hp]; [|done].
  apply Forall_app in Hs as [_ Hs].
  apply parser_bind_inv in H as (m & s3 & Hm & H). apply canonical in Hm as [-> Hm]; [|done].
  apply Forall_app in Hs as [_ Hs].
  apply parser_bind_inv in H as (t & s4 & Ht & H). apply canonical in Ht as [-> Ht]; [|done].
  apply Forall_app in Hs as [_ Hs].
  apply parser_bind_inv in H as (n & s5 & Hn & H). apply canonical in Hn as [-> Hn]; [|done].
  apply Forall_app in Hs as [_ Hs].
  unfold SerializeHeader, IsDagBlock, dag_fields_ok. destruct (has_dag_bit v) eqn:Hd.
  - apply parser_bind_inv in H as (r & s6 & Hr & H). apply canonical in Hr as [-> Hr]; [|done].
    apply Forall_app in Hs as [_ Hs].
    apply parser_bind_inv in H as (k & s7 & Hk & H). apply canonical in Hk as [-> Hk]; [|done].
    apply Forall_app in Hs as [_ Hs].
    apply parser_bind_inv in H as (ps & s8 & Hps & [= <- <-]).
    apply parser_bind_inv in Hps as (size & s9 & Hsz & Hps). apply read_size_inv in Hsz as (-> & Hz & Hs9); [|done].
    destruct (Z.ltb_spec MAX_BLOCK_PARENTS_SERIALIZATION size); [done|].
    apply read_n_inv in Hps as (-> & Hl & Hps); [|apply _|done].
    cbn [hdr_nVersion hdr_hashPrevBlock hdr_hashMerkleRoot hdr_nTime hdr_nBits hdr_nNonce hdr_hashParentsRoot
      hdr_hashParents]. rewrite Hd, Hl, Z2Nat.id, <- !app_assoc by lia.
    split_and!; [done|by split| |lia]. unfold IsDagBlock. cbn [hdr_nVersion]. by rewrite Hd.
  - apply parser_bind_inv in H as (r & s6 & [= <- <-] & H).
    apply parser_bind_inv in H as (k & s7 & Hk & H). apply canonical in Hk as [-> Hk]; [|done].
    apply parser_bind_inv in H as (ps & s8 & [= <- <-] & [= <- <-]).
    cbn [hdr_nVersion hdr_hashPrevBlock hdr_hashMerkleRoot hdr_nTime hdr_nBits hdr_nNonce hdr_hashParentsRoot
      hdr_hashParents null_header length]. rewrite Hd, <- !app_assoc. cbn [app].
    split_and!; [done| |done|unfold MAX_BLOCK_PARENTS_SERIALIZATION; lia].
    split; cbn; try done; unfold fits; lia.
Qed.
