(* ===== verification/Ghostdag.v ===== *)
(** GHOSTDAG: [dag::GhostdagManager] of src/src/dag/ghostdag.h and ghostdag.cpp.

    The manager works against the interface [IGhostdagBlockProvider]; what it relies
    on of a provider is the class [ProviderOk] (the parent relation is closed on a
    finite set of known blocks and [IsAncestorOf] decides reachability), and what the
    scores a provider serves must satisfy is [ScoresOk].

    Loops: the inherited-blue walk and the selected-parent walk are bounded by
    [2K + 1] in the code, so they recurse on the depth that is left.  The mergeset
    search and the virtual-chain walk are bounded only by the DAG; they take fuel, an
    outer [None] means that it ran out, and the theorems say how much is enough. *)

From S2P Require Import Prelude OrdSet TipSet.

(** ** Data *)

Definition DEFAULT_GHOSTDAG_K : Z := 18.
Definition MAX_MERGESET_SIZE : Z := 1000.

Record GhostdagData := mkGhostdagData {
  blue_score : Z;
  selected_parent : Z;
  mergeset_blues : list Z;
  mergeset_reds : list Z;
  blue_work : Z
}.

(** A default-constructed [GhostdagData]. *)
Definition null_data : GhostdagData := mkGhostdagData 0 0 [] [] 0.

Definition GhostdagData_IsNull (d : GhostdagData) : bool := IsNull (selected_parent d).

Class IGhostdagBlockProvider := {
  GetGhostdagData : Z → option GhostdagData;
  GetParents : Z → list Z;
  IsAncestorOf : Z → Z → bool;      (* ancestor, block *)
  GetBlockWork : Z → Z
}.

Section manager.
Context `{P : IGhostdagBlockProvider}.

(** [d ? d->blue_score : 0]. *)
Definition score_of (h : Z) : Z :=
  match GetGhostdagData h with Some d => blue_score d | None => 0 end.

(** ** [SelectBestParent] *)

Definition SelectBestParent_step (acc : Z * Z) (c : Z) : Z * Z :=
  let '(best, best_score) := acc in
  let score := score_of c in
  if (best_score <? score) || ((score =? best_score) && (c <? best))
  then (c, score) else (best, best_score).

Definition SelectBestParent (candidates : list Z) : Z :=
  match candidates with
  | [] => 0
  | c :: cs => (foldl SelectBestParent_step (c, score_of c) cs).1
  end.

(** ** [SelectedParentChain], bounded to [2K + 1] blocks *)

Definition max_depth (k : Z) : nat := Z.to_nat (2 * k + 1).

Fixpoint SelectedParentChain_loop (left : nat) (cur : Z) : list Z :=
  match left with
  | O => []
  | S left' =>
      if IsNull cur then []
      else cur :: match GetGhostdagData cur with
                  | None => []
                  | Some d => if IsNull (selected_parent d) then []
                              else SelectedParentChain_loop left' (selected_parent d)
                  end
  end.

Definition SelectedParentChain (k block : Z) : list Z :=
  SelectedParentChain_loop (max_depth k) block.

(** ** [ComputeMergeset] *)

Record bfs := mkBfs { visited : gset Z; out_mergeset : list Z; queue : list Z }.

(** Start the search from every parent but the selected one. *)
Definition seed_parent (selected : Z) (st : bfs) (p : Z) : bfs :=
  if negb (p =? selected) && bool_decide (p ∉ visited st)
  then mkBfs ({[p]} ∪ visited st) (out_mergeset st ++ [p]) (queue st ++ [p])
  else st.

Definition visit_parent (selected : Z) (st : bfs) (p : Z) : bfs :=
  if bool_decide (p ∉ visited st) && negb (IsNull p)
  then mkBfs ({[p]} ∪ visited st)
             (if negb (IsAncestorOf p selected) then out_mergeset st ++ [p]
              else out_mergeset st)
             (queue st ++ [p])
  else st.

(** The outer [option] is fuel; the inner one is the code's [false]. *)
Fixpoint mergeset_loop (fuel : nat) (selected : Z) (st : bfs) : option (option (list Z)) :=
  match queue st with
  | [] => Some (Some (out_mergeset st))
  | cur :: q =>
      match fuel with
      | O => None
      | S fuel' =>
          let st1 := mkBfs (visited st) (out_mergeset st) q in
          if IsAncestorOf cur selected then mergeset_loop fuel' selected st1
          else
            let st2 := foldl (visit_parent selected) st1 (GetParents cur) in
            if MAX_MERGESET_SIZE <=? Z.of_nat (length (out_mergeset st2))
            then Some None else mergeset_loop fuel' selected st2
      end
  end.

(** The comparator of [std::sort]: blue score ascending, then hash. *)
Definition MergesetOrder (a b : Z) : bool :=
  let sa := score_of a in let sb := score_of b in
  if negb (sa =? sb) then sa <? sb else a <? b.

Definition mergeset_le (a b : Z) : Prop := MergesetOrder b a = false.

#[global] Instance mergeset_le_dec a b : Decision (mergeset_le a b).
Proof. unfold mergeset_le. apply _. Defined.

Definition mergeset_seed (block_parents : list Z) (selected : Z) : bfs :=
  foldl (seed_parent selected) (mkBfs {[selected]} [] []) block_parents.

Definition ComputeMergeset (fuel : nat) (block_parents : list Z) (selected : Z)
    : option (option (list Z)) :=
  match mergeset_loop fuel selected (mergeset_seed block_parents selected) with
  | Some (Some out) => Some (Some (merge_sort mergeset_le out))
  | r => r
  end.

(** ** [AntiConeBlueCount], [ClassifyMergeset] *)

Definition in_anticone (block blue : Z) : bool :=
  negb (blue =? block) && negb (IsAncestorOf blue block) && negb (IsAncestorOf block blue).

Definition AntiConeBlueCount (block : Z) (blue_candidates : list Z) : Z :=
  foldl (λ count blue, if in_anticone block blue then u32 (count + 1) else count)
        0 blue_candidates.

Definition classify_step (k : Z) (acc : list Z * list Z * list Z) (candidate : Z)
    : list Z * list Z * list Z :=
  let '(current_blues, out_blues, out_reds) := acc in
  if AntiConeBlueCount candidate current_blues <=? k
  then (current_blues ++ [candidate], out_blues ++ [candidate], out_reds)
  else (current_blues, out_blues, out_reds ++ [candidate]).

Definition ClassifyMergeset (k : Z) (mergeset inherited_blues : list Z)
    : list Z * list Z :=
  let '(_, blues, reds) := foldl (classify_step k) (inherited_blues, [], []) mergeset in
  (blues, reds).

(** ** [ComputeGhostdag] *)

(** The inherited-blue walk; [None] when ancestry data is missing. *)
Fixpoint inherited_blues_loop (left : nat) (cur : Z) : option (list Z) :=
  match left with
  | O => Some []
  | S left' =>
      if IsNull cur then Some []
      else match GetGhostdagData cur with
           | None => None
           | Some d => l ← inherited_blues_loop left' (selected_parent d); Some (cur :: l)
           end
  end.

Definition ComputeGhostdag (fuel : nat) (k : Z) (parents : list Z)
    : option (option GhostdagData) :=
  match parents with
  | [] => Some (Some null_data)
  | _ =>
      let sp := SelectBestParent parents in
      match GetGhostdagData sp with
      | None => Some None
      | Some sp_data =>
          match inherited_blues_loop (max_depth k) sp with
          | None => Some None
          | Some inherited =>
              match ComputeMergeset fuel parents sp with
              | None => None
              | Some None => Some None
              | Some (Some mergeset) =>
                  let '(blues, reds) := ClassifyMergeset k mergeset inherited in
                  Some (Some (mkGhostdagData
                    (u64 (u64 (blue_score sp_data + Z.of_nat (length blues)) + 1))
                    sp blues reds
                    (foldl (λ w b, u64 (w + GetBlockWork b)) (blue_work sp_data) blues)))
              end
          end
      end
  end.

Definition ComputeVirtual (fuel : nat) (k : Z) (tips : list Z) :=
  ComputeGhostdag fuel k tips.

(** ** [ComputeVirtualSelectedParentChain]; [max_depth = 0] means no limit *)

Fixpoint virtual_chain_loop (fuel : nat) (max_depth : Z) (size : Z) (cur : Z)
    : option (list Z) :=
  if IsNull cur then Some []
  else match fuel with
       | O => None
       | S fuel' =>
           if (0 <? max_depth) && (max_depth <=? size + 1) then Some [cur]
           else match GetGhostdagData cur with
                | None => Some [cur]
                | Some d =>
                    if IsNull (selected_parent d) then Some [cur]
                    else l ← virtual_chain_loop fuel' max_depth (size + 1) (selected_parent d);
                         Some (cur :: l)
                end
       end.

Definition ComputeVirtualSelectedParentChain (fuel : nat) (k : Z) (tips : list Z)
    (max_depth : Z) : option (list Z) :=
  match ComputeVirtual fuel k tips with
  | None => None
  | Some None => Some []
  | Some (Some vd) =>
      if IsNull (selected_parent vd) then Some []
      else virtual_chain_loop fuel max_depth 0 (selected_parent vd)
  end.
End manager.

(** ** What the manager relies on *)

(** One step up: [a] is a parent of [b]. *)
Definition parent_edge `{IGhostdagBlockProvider} (b a : Z) : Prop := a ∈ GetParents b.

(** [a] is in the past of [b], or is [b]. *)
Abbreviation past_of := (rtc parent_edge).

Class ProviderOk `{IGhostdagBlockProvider} (blocks : gset Z) : Prop := {
  ok_null : 0 ∉ blocks;
  ok_parents b a : b ∈ blocks → a ∈ GetParents b → a ∈ blocks;
  ok_ancestor a b :
    IsAncestorOf a b = true ↔ a ∈ blocks ∧ b ∈ blocks ∧ past_of b a
}.

(** The scores the provider serves grow along the parent relation. *)
Class ScoresOk `{IGhostdagBlockProvider} (blocks : gset Z) : Prop := {
  ok_score b a : b ∈ blocks → a ∈ GetParents b → score_of a < score_of b
}.

(** ** [SelectBestParent] *)

Section select.
Context `{P : IGhostdagBlockProvider}.

(** [SelectBestParent] prefers [a] over [b]. *)
Definition better (a b : Z) : bool :=
  (score_of b <? score_of a) || ((score_of a =? score_of b) && (a <? b)).

#[global] Instance better_strict : StrictTotal better.
Proof.
  split; unfold better; intros *.
  - rewrite Z.ltb_irrefl, Z.eqb_refl, Z.ltb_irrefl. done.
  - rewrite !orb_true_iff, !andb_true_iff, !Z.ltb_lt, !Z.eqb_eq. lia.
  - rewrite !orb_false_iff, !andb_false_iff, !Z.ltb_ge, !Z.eqb_neq. lia.
Qed.

Lemma SelectBestParent_fold cs best :
  (foldl SelectBestParent_step (best, score_of best) cs).1 =
  foldl (λ b c, if better c b then c else b) best cs.
Proof.
  revert best. induction cs as [|c cs IH]; intros best; [done|].
  cbn [foldl]. change (SelectBestParent_step (best, score_of best) c) with
    (if better c best then (c, score_of c) else (best, score_of best)).
  by destruct (better c best).
Qed.

Lemma fold_better_spec cs best :
  let r := foldl (λ b c, if better c b then c else b) best cs in
  r ∈ best :: cs ∧ ∀ c, c ∈ best :: cs → c ≠ r → better r c = true.
Proof.
  revert best. induction cs as [|c cs IH]; intros best; simpl.
  { split; [set_solver|]. intros c. rewrite list_elem_of_singleton. congruence. }
  destruct (better c best) eqn:E.
  - destruct (IH c) as [Hin Hmax]. split; [set_solver|]. intros d Hd Hne.
    apply elem_of_cons in Hd as [->|Hd]; [|by apply Hmax].
    destruct (decide (c = foldl (λ b c, if better c b then c else b) c cs)) as [Hc|Hc].
    + by rewrite <- Hc.
    + eapply st_trans; [|exact E]. apply Hmax; [by left|done].
  - destruct (IH best) as [Hin Hmax]. split; [set_solver|]. intros d Hd Hne.
    assert (d = c ∨ d ∈ best :: cs) as [->|Hd'] by set_solver; [|by apply Hmax].
    destruct (better best c) eqn:E2.
    + destruct (decide (best = foldl (λ b c, if better c b then c else b) best cs)) as [Hb|Hb].
      * by rewrite <- Hb.
      * eapply st_trans; [|exact E2]. apply Hmax; [by left|done].
    + pose proof (st_total _ _ E E2) as ->. apply Hmax; [by left|done].
Qed.

(** The result is the best candidate. *)
Lemma SelectBestParent_best cs :
  cs ≠ [] →
  SelectBestParent cs ∈ cs ∧
  ∀ c, c ∈ cs → c ≠ SelectBestParent cs → better (SelectBestParent cs) c = true.
Proof.
  destruct cs as [|c cs]; [done|]. intros _. unfold SelectBestParent.
  rewrite SelectBestParent_fold. apply fold_better_spec.
Qed.

Lemma SelectBestParent_score cs c : c ∈ cs → score_of c <= score_of (SelectBestParent cs).
Proof.
  intros Hc. destruct (SelectBestParent_best cs) as [_ Hmax]; [by intros ->; inversion Hc|].
  destruct (decide (c = SelectBestParent cs)) as [<-|Hne]; [lia|].
  specialize (Hmax c Hc Hne). unfold better in Hmax.
  rewrite orb_true_iff, andb_true_iff, Z.ltb_lt, Z.eqb_eq in Hmax. lia.
Qed.

(** The choice depends on the set of candidates only, not on the order or on the
    repetition of the references in the header. *)
Lemma SelectBestParent_ext cs cs' :
  (∀ c, c ∈ cs ↔ c ∈ cs') → SelectBestParent cs = SelectBestParent cs'.
Proof.
  intros Hext. destruct cs as [|c0 cs0] eqn:Ecs.
  { destruct cs' as [|c' cs']; [done|]. exfalso. apply (not_elem_of_nil c'). set_solver. }
  rewrite <- Ecs in *. destruct (SelectBestParent_best cs) as [H1 H2]; [by subst|].
  destruct (SelectBestParent_best cs') as [H3 H4].
  { intros ->. apply (not_elem_of_nil c0). apply Hext. subst. by left. }
  destruct (decide (SelectBestParent cs = SelectBestParent cs')) as [|Hne]; [done|].
  pose proof (H2 _ (proj2 (Hext _) H3) (not_eq_sym Hne)) as Ha.
  pose proof (H4 _ (proj1 (Hext _) H1) Hne) as Hb.
  apply (st_asym better) in Ha. congruence.
Qed.

(** ** The order of a mergeset *)

#[global] Instance MergesetOrder_strict : StrictTotal MergesetOrder.
Proof.
  split; unfold MergesetOrder; intros *.
  - rewrite Z.eqb_refl. simpl. apply Z.ltb_irrefl.
  - intros H1 H2; guards; first [apply Z.ltb_lt; lia | lia].
  - intros H1 H2; guards; lia.
Qed.

#[global] Instance mergeset_le_trans : Transitive mergeset_le.
Proof.
  intros x y z. unfold mergeset_le, MergesetOrder. intros H1 H2; guards;
    first [apply Z.ltb_ge; lia | lia].
Qed.

#[global] Instance mergeset_le_total : Total mergeset_le.
Proof.
  intros x y. unfold mergeset_le.
  destruct (MergesetOrder y x) eqn:E; [|by left]. right. by apply (st_asym MergesetOrder).
Qed.

Lemma sorted_strict l : NoDup l → StronglySorted mergeset_le l → ordered MergesetOrder l.
Proof.
  intros Hnd. induction 1 as [|x l Hl IH Hx]; [constructor|].
  apply NoDup_cons in Hnd as [Hnin Hnd]. constructor; [auto|].
  apply Forall_forall. intros y Hy. eapply Forall_forall in Hx; [|done].
  unfold mergeset_le in Hx. destruct (MergesetOrder x y) eqn:E; [done|].
  pose proof (st_total _ _ Hx E) as ->. done.
Qed.

End select.
