(* ===== verification/Mergeset.v ===== *)
(** The mergeset search of [GhostdagManager::ComputeMergeset]
    (src/src/dag/ghostdag.cpp): its invariant, termination, and the set it computes. *)

From S2P Require Import Prelude OrdSet TipSet Ghostdag.

(** Adding a block to the visited set. *)
Lemma measure_add x (blocks V : gset Z) :
  x ∈ blocks → x ∉ V → size (blocks ∖ V) = S (size (blocks ∖ ({[x]} ∪ V))).
Proof.
  intros Hx HV. assert (blocks ∖ V = {[x]} ∪ blocks ∖ ({[x]} ∪ V)) as ->.
  { apply set_eq. intros y. destruct (decide (y = x)); set_solver. }
  rewrite size_union, size_singleton by set_solver. done.
Qed.

Section mergeset.
Context `{P : IGhostdagBlockProvider} {blocks : gset Z} {Hok : ProviderOk blocks}.
Context (parents : list Z) (sp : Z).

(** The blocks the search collects: every parent but the selected one, and every
    block in the past of a parent that is not in the past of the selected one. *)
Definition in_mergeset (x : Z) : Prop :=
  x ≠ sp ∧ (x ∈ parents ∨ (IsAncestorOf x sp = false ∧ ∃ p, p ∈ parents ∧ past_of p x)).

(** The invariant of the search.  Blocks of [E] are being expanded. *)
Record bfs_inv (E : list Z) (st : bfs) : Prop := {
  bi_sp : sp ∈ visited st;
  bi_blocks : visited st ⊆ blocks;
  bi_queue x : x ∈ queue st → x ∈ visited st;
  bi_nodup : NoDup (out_mergeset st);
  bi_out x : x ∈ out_mergeset st ↔
             x ∈ visited st ∧ x ≠ sp ∧ (x ∈ parents ∨ IsAncestorOf x sp = false);
  bi_reach x : x ∈ visited st → ∃ p, p ∈ parents ∧ past_of p x;
  bi_closed x a : x ∈ visited st → x ∉ queue st → x ∉ E →
                  IsAncestorOf x sp = false → a ∈ GetParents x → a ∈ visited st;
  bi_parents p : p ∈ parents → p ∈ visited st
}.

(** Blocks still to be popped, at most. *)
Definition bfs_measure (st : bfs) : nat :=
  (size (blocks ∖ visited st) + length (queue st))%nat.


Lemma visit_parent_inv E st a y :
  bfs_inv E st → y ∈ visited st → a ∈ GetParents y →
  let st' := visit_parent sp st a in
  bfs_inv E st' ∧ a ∈ visited st' ∧ visited st ⊆ visited st' ∧
  (∀ z, z ∈ queue st → z ∈ queue st') ∧ bfs_measure st' = bfs_measure st.
Proof.
  intros [] Hy Ha. unfold visit_parent.
  assert (Hab : a ∈ blocks) by (eapply ok_parents; eauto).
  assert (a ≠ 0) as Hnz by (intros ->; by apply ok_null in Hab).
  unfold IsNull. apply Z.eqb_neq in Hnz as ->. rewrite andb_true_r.
  case_bool_decide as Hv; cbn [visited queue out_mergeset]; cycle 1.
  { split; [by constructor|]. split; [by destruct (decide (a ∈ visited st))|]. done. }
  assert (Hsub : ∀ x, x ∈ visited st → x ∈ {[a]} ∪ visited st)
    by (intros x; rewrite elem_of_union; auto).
  split; [|split; [by apply elem_of_union_l, elem_of_singleton|]]; cycle 1.
  { split; [done|]. split; [intros z; rewrite elem_of_app; auto|].
    unfold bfs_measure. cbn [visited queue out_mergeset]. rewrite length_app.
    rewrite (measure_add a blocks (visited st)) by done. simpl. lia. }
  constructor; cbn [visited queue out_mergeset]; auto.
  - intros x [->%elem_of_singleton|?]%elem_of_union; auto.
  - intros x. rewrite elem_of_app, list_elem_of_singleton, elem_of_union, elem_of_singleton.
    intros [?| ->]; auto.
  - case_match; [|done]. apply NoDup_app. split; [done|].
    split; [|apply NoDup_singleton]. intros z Hz. rewrite list_elem_of_singleton.
    intros ->. by apply bi_out0 in Hz as [].
  - intros x. destruct (IsAncestorOf a sp) eqn:Ea; cbn [negb];
      rewrite ?elem_of_app, ?list_elem_of_singleton, bi_out0, elem_of_union,
        elem_of_singleton; (split; [|intros ([->|?] & ? & Hor)]); [naive_solver| |auto| | |auto].
    + destruct Hor as [Hor|]; [|congruence]. by apply bi_parents0 in Hor.
    + intros [?| ->]; [naive_solver|]. split; [by left|]. split; [|by right].
      by intros ->.
    + by right.
  - intros x [->%elem_of_singleton|?]%elem_of_union; [|auto].
    destruct (bi_reach0 y Hy) as (p & Hp & Hpy). exists p. split; [done|].
    by eapply rtc_r.
  - intros x b Hx Hq HE Hanc Hb. rewrite elem_of_app, list_elem_of_singleton in Hq.
    apply elem_of_union in Hx as [->%elem_of_singleton|Hx]; [naive_solver|].
    apply Hsub, (bi_closed0 x b); auto.
Qed.

Lemma visit_parents_inv E ps st y :
  bfs_inv E st → y ∈ visited st → (∀ a, a ∈ ps → a ∈ GetParents y) →
  let st' := foldl (visit_parent sp) st ps in
  bfs_inv E st' ∧ (∀ a, a ∈ ps → a ∈ visited st') ∧ visited st ⊆ visited st' ∧
  (∀ z, z ∈ queue st → z ∈ queue st') ∧ bfs_measure st' = bfs_measure st.
Proof.
  revert st. induction ps as [|a ps IH]; intros st Hst Hy Hps; cbn [foldl].
  { split; [done|]. split; [by intros ? ?%elem_of_nil|]. done. }
  destruct (visit_parent_inv E st a y) as (H1 & H2 & H3 & H4 & H5); [done..|by apply Hps; left|].
  destruct (IH (visit_parent sp st a)) as (G1 & G2 & G3 & G4 & G5);
    [done|by apply H3|by intros b Hb; apply Hps; right|].
  split; [done|]. split; [|split; [by trans (visited (visit_parent sp st a))|]].
  - intros b [->|Hb]%elem_of_cons; auto.
  - split; [auto|]. congruence.
Qed.

(** One iteration of the loop. *)
Lemma pop_inv st cur q :
  bfs_inv [] st → queue st = cur :: q →
  let st1 := mkBfs (visited st) (out_mergeset st) q in
  let st2 := if IsAncestorOf cur sp then st1
             else foldl (visit_parent sp) st1 (GetParents cur) in
  bfs_inv [] st2 ∧ visited st ⊆ visited st2 ∧ S (bfs_measure st2) = bfs_measure st.
Proof.
  intros Hst Hq st1 st2.
  assert (Hcur : cur ∈ visited st) by (apply Hst; rewrite Hq; by left).
  assert (Hst1 : bfs_inv [cur] st1).
  { destruct Hst. unfold st1. constructor; simpl; try done.
    - intros x Hx. apply bi_queue0. rewrite Hq. by right.
    - intros x a Hx Hnq Hne. apply bi_closed0; [done| |by apply not_elem_of_nil].
      rewrite Hq, elem_of_cons. rewrite list_elem_of_singleton in Hne. naive_solver. }
  assert (Hm : S (bfs_measure st1) = bfs_measure st).
  { unfold bfs_measure, st1. rewrite Hq. simpl. lia. }
  unfold st2. destruct (IsAncestorOf cur sp) eqn:Ea.
  - split; [|done]. destruct Hst1. constructor; try done.
    intros x a Hx Hnq _ Hanc. destruct (decide (x = cur)) as [->|Hne]; [congruence|].
    apply (bi_closed0 x a); try done. by rewrite list_elem_of_singleton.
  - destruct (visit_parents_inv [cur] (GetParents cur) st1 cur) as (H1 & H2 & H3 & H4 & H5);
      [done..|].
    split; [|split; [done|congruence]].
    destruct H1. constructor; try done.
    intros x a Hx Hnq _ Hanc Ha. destruct (decide (x = cur)) as [->|Hne]; [auto|].
    apply (bi_closed0 x a); try done. by rewrite list_elem_of_singleton.
Qed.

(** The search returns when the fuel covers the blocks that are left. *)
Lemma mergeset_loop_total fuel st :
  bfs_inv [] st → (bfs_measure st <= fuel)%nat → is_Some (mergeset_loop fuel sp st).
Proof.
  revert st. induction fuel as [|fuel IH]; intros st Hst Hm; simpl;
    (destruct (queue st) as [|cur q] eqn:Hq; [by eauto|]).
  - unfold bfs_measure in Hm. rewrite Hq in Hm. simpl in Hm. lia.
  - pose proof (pop_inv st cur q Hst Hq) as (H1 & _ & H3). cbv zeta in *.
    destruct (IsAncestorOf cur sp); [apply IH; [done|lia]|].
    case_match; [eauto|]. apply IH; [done|lia].
Qed.

(** Where the search stops. *)
Lemma mergeset_loop_stops fuel st r :
  bfs_inv [] st → mergeset_loop fuel sp st = Some r →
  ∃ st', bfs_inv [] st' ∧
    match r with
    | Some out => queue st' = [] ∧ out = out_mergeset st' ∧
        (Z.of_nat (length (out_mergeset st)) < MAX_MERGESET_SIZE →
         Z.of_nat (length out) < MAX_MERGESET_SIZE)
    | None => MAX_MERGESET_SIZE <= Z.of_nat (length (out_mergeset st'))
    end.
Proof.
  revert st. induction fuel as [|fuel IH]; intros st Hst; simpl;
    (destruct (queue st) as [|cur q] eqn:Hq; [intros [= <-]; exists st; auto|]); [done|].
  pose proof (pop_inv st cur q Hst Hq) as (H1 & _ & _). cbv zeta in *.
  destruct (IsAncestorOf cur sp).
  { intros Hl. by apply (IH _ H1 Hl). }
  destruct (Z.leb_spec MAX_MERGESET_SIZE (Z.of_nat (length (out_mergeset
    (foldl (visit_parent sp) (mkBfs (visited st) (out_mergeset st) q) (GetParents cur))))))
    as [Hcap|Hcap].
  - intros [= <-]. eexists. split; [exact H1|]. done.
  - intros Hl. destruct (IH _ H1 Hl) as (st' & Hst' & Hr). exists st'. split; [done|].
    destruct r; [|done]. destruct Hr as (? & ? & ?). auto.
Qed.

(** The seed: every parent but the selected one, once, in the order of the header. *)
Definition seed_ok (ps : list Z) (st : bfs) : Prop :=
  queue st = out_mergeset st ∧ NoDup (out_mergeset st) ∧
  (∀ x, x ∈ out_mergeset st ↔ x ∈ ps ∧ x ≠ sp) ∧
  (∀ x, x ∈ visited st ↔ x = sp ∨ x ∈ ps) ∧
  (length (out_mergeset st) <= length ps)%nat.

Lemma seed_parent_ok ps st p : seed_ok ps st → seed_ok (ps ++ [p]) (seed_parent sp st p).
Proof.
  intros (Hq & Hnd & Ho & Hv & Hl). unfold seed_ok, seed_parent.
  setoid_rewrite elem_of_app. setoid_rewrite list_elem_of_singleton. rewrite length_app.
  destruct (Z.eqb_spec p sp) as [->|Hne]; cbn [negb andb].
  { split; [done|]. split; [done|]. split; [|split; [|simpl; lia]]; intros x;
      rewrite ?Ho, ?Hv; naive_solver. }
  case_bool_decide as Hp; cbn [queue out_mergeset visited].
  - split; [by rewrite Hq|]. split; [|split; [|split]].
    + apply NoDup_app. split; [done|]. split; [|apply NoDup_singleton].
      intros z Hz. rewrite list_elem_of_singleton. intros ->. apply Hp, Hv.
      right. by apply Ho.
    + intros x. rewrite elem_of_app, list_elem_of_singleton, Ho. naive_solver.
    + intros x. rewrite elem_of_union, elem_of_singleton, Hv. naive_solver.
    + rewrite length_app. simpl. lia.
  - split; [done|]. split; [done|].
    assert (Hin : p ∈ ps) by (apply Hv in Hp; naive_solver).
    split; [|split; [|simpl; lia]]; intros x; rewrite ?Ho, ?Hv; naive_solver.
Qed.

Lemma seed_spec ps : seed_ok ps (mergeset_seed ps sp).
Proof.
  unfold mergeset_seed. induction ps as [|p ps IH] using rev_ind.
  { split; [done|]. split; [constructor|]. split; [|split; [|done]]; intros x; simpl;
      rewrite ?elem_of_singleton, ?elem_of_nil; naive_solver. }
  rewrite foldl_snoc. by apply seed_parent_ok.
Qed.

Hypothesis parents_known : ∀ p, p ∈ parents → p ∈ blocks.
Hypothesis sp_parent : sp ∈ parents.

Lemma seed_inv : bfs_inv [] (mergeset_seed parents sp).
Proof.
  destruct (seed_spec parents) as (Hq & Hnd & Ho & Hv & _). constructor; auto.
  - apply Hv. by left.
  - intros x [->|Hx]%Hv; auto.
  - intros x. rewrite Hq, Ho, Hv. naive_solver.
  - intros x. rewrite Ho, Hv. naive_solver.
  - intros x [->|Hx]%Hv; [exists sp|exists x]; split; try done; reflexivity.
  - intros x a Hx Hnq _ Hanc Ha. exfalso. rewrite Hq, Ho in Hnq.
    apply Hv in Hx. assert (x = sp) as -> by (destruct (decide (x = sp)); naive_solver).
    assert (IsAncestorOf sp sp = true); [|congruence].
    apply ok_ancestor. split; [auto|]. split; [auto|]. reflexivity.
  - intros p Hp. apply Hv. auto.
Qed.

(** The selected parent's past is closed under past. *)
Lemma ancestor_past x y : past_of y x → y ∈ blocks → IsAncestorOf y sp = true → x ∈ blocks ∧ IsAncestorOf x sp = true.
Proof.
  intros Hyx Hy. rewrite !ok_ancestor. intros (_ & Hsp & Hpast).
  assert (x ∈ blocks).
  { clear -Hyx Hy Hok. induction Hyx; [done|]. eauto using ok_parents. }
  split; [done|]. split; [done|]. split; [done|]. by trans y.
Qed.

(** When the queue is empty the search has found exactly the mergeset. *)
Lemma bfs_complete st :
  bfs_inv [] st → queue st = [] → ∀ x, x ∈ out_mergeset st ↔ in_mergeset x.
Proof.
  intros [] Hq x. rewrite bi_out0. unfold in_mergeset. split.
  - intros (Hx & Hne & [?|Hanc]); [by auto|]. split; [done|]. right. eauto.
  - intros (Hne & [Hp|(Hanc & p & Hp & Hpx)]); [by auto|].
    split; [|by auto].
    assert (Hstart : p ∈ visited st) by auto. clear Hp.
    induction Hpx as [|y z w Hyz Hzw IH]; [done|]. apply IH; [done..|].
    assert (Hy : IsAncestorOf y sp = false).
    { destruct (IsAncestorOf y sp) eqn:E; [|done].
      destruct (ancestor_past w y) as [_ ?]; [by eapply rtc_l|by apply bi_blocks0|done|].
      congruence. }
    apply (bi_closed0 y z); try done; [rewrite Hq|]; apply not_elem_of_nil.
Qed.

(** ** [ComputeMergeset] *)

(** The whole function: it returns, and what it returns. *)
Lemma ComputeMergeset_spec fuel :
  (size blocks <= fuel)%nat →
  ∃ r, ComputeMergeset fuel parents sp = Some r ∧
    match r with
    | Some ms => NoDup ms ∧ ordered MergesetOrder ms ∧ (∀ x, x ∈ ms ↔ in_mergeset x) ∧
                 (Z.of_nat (length parents) < MAX_MERGESET_SIZE →
                  Z.of_nat (length ms) < MAX_MERGESET_SIZE)
    | None => ∃ l, NoDup l ∧ MAX_MERGESET_SIZE <= Z.of_nat (length l) ∧
                   ∀ x, x ∈ l → in_mergeset x
    end.
Proof.
  intros Hfuel. unfold ComputeMergeset.
  destruct (mergeset_loop_total fuel _ seed_inv) as [r Hr].
  { transitivity (size blocks); [|done]. destruct (seed_spec parents) as (Hq & Hnd & _ & _ & _).
    unfold bfs_measure. destruct seed_inv. rewrite Hq.
    rewrite <- (size_list_to_set (C := gset Z)) by done.
    rewrite <- size_union; [apply subseteq_size|].
    - intros x. rewrite elem_of_union, elem_of_difference, elem_of_list_to_set, <- Hq.
      intros [?|?%bi_queue0]; naive_solver.
    - intros x. rewrite elem_of_difference, elem_of_list_to_set, <- Hq.
      intros [_ ?] ?%bi_queue0. done. }
  rewrite Hr. destruct (mergeset_loop_stops fuel _ r seed_inv Hr) as (st' & Hst' & Hcase).
  destruct r as [out|].
  - destruct Hcase as (Hq & -> & Hlen). eexists. split; [done|]. cbv beta iota.
    pose proof (merge_sort_Permutation mergeset_le (out_mergeset st')) as Hperm.
    assert (Hnd : NoDup (merge_sort mergeset_le (out_mergeset st'))).
    { rewrite Hperm. apply Hst'. }
    split; [done|]. split; [|split].
    + apply sorted_strict; [done|]. apply (StronglySorted_merge_sort _).
    + intros x. rewrite Hperm. by apply bfs_complete.
    + intros Hp. rewrite Hperm. apply Hlen.
      destruct (seed_spec parents) as (_ & _ & _ & _ & ?). lia.
  - eexists. split; [done|]. cbv beta iota. exists (out_mergeset st').
    split; [apply Hst'|]. split; [done|]. intros x (Hx & Hne & Hor)%(bi_out _ _ Hst').
    split; [done|]. destruct Hor as [?|?]; [by left|]. right. split; [done|].
    by apply (bi_reach _ _ Hst').
Qed.
End mergeset.
