(* ===== verification/BlockIndex.v ===== *)
(** The block index: [CBlockIndex] of src/src/chain.h and the skip-list ancestor
    lookup of src/src/chain.cpp.

    Entries live in [BlockManager::m_block_index], a map from hash to entry whose
    nodes never move, so a pointer to an entry is the entry's hash and a null pointer
    is [None]. *)

From S2P Require Import Prelude OrdSet TipSet Arith256 Serialize BlockHeader Ghostdag.
From Stdlib Require SpecFloat.

(** ** Data *)

Record CBlockIndex := mkIndex {
  pprev : option Z;
  pskip : option Z;
  nHeight : Z;
  nChainWork : Z;
  nTx : Z;
  m_chain_tx_count : Z;
  nStatus : Z;
  nVersion : Z;
  hashMerkleRoot : Z;
  nTime : Z;
  nBits : Z;
  hashParentsRoot : Z;
  nNonce : Z;
  vDagParents : list (option Z);
  dagData : GhostdagData;
  nDagHeight : Z;
  nEarlyProtectionWeight : SpecFloat.spec_float;   (* double *)
  nSequenceId : Z;
  nTimeMax : Z
}.

Abbreviation BlockMap := (gmap Z CBlockIndex).

(** ** Skip heights *)

Definition InvertLowestOne (n : Z) : Z := Z.land n (n - 1).

Definition GetSkipHeight (height : Z) : Z :=
  if height <? 2 then 0
  else if negb (Z.land height 1 =? 0)
       then InvertLowestOne (InvertLowestOne (height - 1)) + 1
       else InvertLowestOne height.

(** ** [CBlockIndex::GetAncestor] *)

(** Whether the walk at [heightWalk] takes the skip pointer. *)
Definition use_skip (heightWalk height : Z) : bool :=
  let heightSkip := GetSkipHeight heightWalk in
  let heightSkipPrev := GetSkipHeight (heightWalk - 1) in
  (heightSkip =? height) ||
  ((height <? heightSkip) &&
   negb ((heightSkipPrev <? heightSkip - 2) && (height <=? heightSkipPrev))).

(** Every iteration lowers [heightWalk], so [nHeight - height] iterations suffice. *)
Fixpoint GetAncestor_loop (fuel : nat) (st : BlockMap) (pindexWalk heightWalk height : Z)
    : option Z :=
  if heightWalk <=? height then Some pindexWalk
  else match fuel with
       | O => None
       | S fuel' =>
           match st !! pindexWalk with
           | None => None
           | Some w =>
               match pskip w, use_skip heightWalk height with
               | Some sk, true =>
                   GetAncestor_loop fuel' st sk (GetSkipHeight heightWalk) height
               | _, _ =>
                   match pprev w with
                   | None => None
                   | Some p => GetAncestor_loop fuel' st p (heightWalk - 1) height
                   end
               end
           end
       end.

Definition GetAncestor (st : BlockMap) (pindex height : Z) : option Z :=
  match st !! pindex with
  | None => None
  | Some b =>
      if (nHeight b <? height) || (height <? 0) then None
      else GetAncestor_loop (Z.to_nat (nHeight b - height)) st pindex (nHeight b) height
  end.

(** [BuildSkip]: the new value of [pskip]. *)
Definition BuildSkip (st : BlockMap) (b : CBlockIndex) : option Z :=
  match pprev b with
  | None => pskip b
  | Some p => match GetAncestor st p (GetSkipHeight (nHeight b)) with
              | Some a => Some a
              | None => pskip b
              end
  end.

(** ** [BlockManager::AddToBlockIndex] *)

Definition BLOCK_VALID_TREE : Z := 2.
Definition BLOCK_VALID_MASK : Z := 7.
Definition BLOCK_FAILED_MASK : Z := 96.

(** The new value of [nStatus]. *)
Definition RaiseValidity (nStatus nUpTo : Z) : Z :=
  if negb (Z.land nStatus BLOCK_FAILED_MASK =? 0) then nStatus
  else if Z.land nStatus BLOCK_VALID_MASK <? nUpTo
       then Z.lor (Z.ldiff nStatus BLOCK_VALID_MASK) nUpTo else nStatus.

(** The double 1.0. *)
Definition one_double : SpecFloat.spec_float := SpecFloat.S754_finite false 4503599627370496 (-52).

(** [CBlockIndex::CBlockIndex(const CBlockHeader&)]. *)
Definition index_of_header (b : CBlockHeader) : CBlockIndex :=
  mkIndex None None 0 0 0 0 0 (hdr_nVersion b) (hdr_hashMerkleRoot b) (hdr_nTime b)
    (hdr_nBits b) (hdr_hashParentsRoot b) (hdr_nNonce b) [] null_data 0 one_double 0 0.

(** The entry for a header; [st] already holds the default entry for it. *)
Definition new_entry (st : BlockMap) (block : CBlockHeader) : CBlockIndex :=
  let i0 := index_of_header block in
  let prev := st !! hdr_hashPrevBlock block in
  let height := match prev with Some p => nHeight p + 1 | None => 0 end in
  let i1 := mkIndex (match prev with Some _ => Some (hdr_hashPrevBlock block) | None => None end) None height 0 0 0 0 (nVersion i0)
    (hashMerkleRoot i0) (nTime i0) (nBits i0) (hashParentsRoot i0) (nNonce i0) [] null_data 0
    one_double 0 0 in
  mkIndex (pprev i1) (BuildSkip st i1) height
    (u256 ((match prev with Some p => nChainWork p | None => 0 end) + GetBlockProof (nBits i0)))
    0 0 (RaiseValidity 0 BLOCK_VALID_TREE) (nVersion i0) (hashMerkleRoot i0) (nTime i0) (nBits i0)
    (hashParentsRoot i0) (nNonce i0)
    (if IsDagBlock block
     then Some <$> filter (λ h, is_Some (st !! h)) (hdr_hashParents block) else [])
    null_data 0 one_double 0
    (match prev with Some p => Z.max (nTimeMax p) (nTime i0) | None => nTime i0 end).

(** [hash] is the hash of [block]; the result is the new map and the new best header. *)
Definition AddToBlockIndex (st : BlockMap) (hash : Z) (block : CBlockHeader)
    (best_header : option Z) : BlockMap * option Z :=
  match st !! hash with
  | Some _ => (st, best_header)
  | None =>
      let e := new_entry (<[hash := index_of_header block]> st) block in
      let st' := <[hash := e]> st in
      (st', match best_header with
            | None => Some hash
            | Some bh => match st' !! bh with
                         | Some b => if nChainWork b <? nChainWork e then Some hash else Some bh
                         | None => Some hash
                         end
            end)
  end.

(** ** The reference: following [pprev] one block at a time *)

Fixpoint prev_n (st : BlockMap) (n : nat) (h : Z) : option Z :=
  match n with
  | O => Some h
  | S n' => b ← st !! h; p ← pprev b; prev_n st n' p
  end.

(** A block index whose selected-parent chains reach height 0 and whose skip pointers
    are where [BuildSkip] puts them. *)
Record chain_ok (st : BlockMap) : Prop := {
  ck_height h b : st !! h = Some b → 0 <= nHeight b;
  ck_prev h b p : st !! h = Some b → pprev b = Some p →
                  ∃ b', st !! p = Some b' ∧ nHeight b' = nHeight b - 1;
  ck_root h b : st !! h = Some b → pprev b = None → nHeight b = 0;
  ck_skip h b s : st !! h = Some b → pskip b = Some s →
                  prev_n st (Z.to_nat (nHeight b - GetSkipHeight (nHeight b))) h = Some s
}.

(** ** Lemmas *)

Lemma InvertLowestOne_bounds n : 1 <= n → 0 <= InvertLowestOne n <= n - 1.
Proof.
  intros Hn. unfold InvertLowestOne. split; [apply Z.land_nonneg; lia|].
  apply land_le_r. lia.
Qed.

(** A skip goes strictly down. *)
Lemma GetSkipHeight_bounds h : 1 <= h → 0 <= GetSkipHeight h < h.
Proof.
  intros Hh. unfold GetSkipHeight. destruct (Z.ltb_spec h 2); [lia|].
  destruct (negb _).
  - pose proof (InvertLowestOne_bounds (h - 1) ltac:(lia)) as H1.
    destruct (decide (InvertLowestOne (h - 1) = 0)) as [E|Hne].
    + rewrite E. change (InvertLowestOne 0) with 0. lia.
    + pose proof (InvertLowestOne_bounds (InvertLowestOne (h - 1)) ltac:(lia)). lia.
  - pose proof (InvertLowestOne_bounds h ltac:(lia)). lia.
Qed.

Lemma use_skip_above hw h : use_skip hw h = true → h <= GetSkipHeight hw.
Proof. unfold use_skip. rewrite orb_true_iff, andb_true_iff, Z.eqb_eq, Z.ltb_lt. lia. Qed.

Lemma prev_n_add st n m h : prev_n st (n + m) h = prev_n st n h ≫= prev_n st m.
Proof.
  revert h. induction n as [|n IH]; intros h; simpl; [done|].
  destruct (st !! h) as [b|]; simpl; [|done]. destruct (pprev b); simpl; auto.
Qed.

(** Under [chain_ok], [n] steps up lower the height by [n]. *)
Lemma prev_n_height st n h b :
  chain_ok st → st !! h = Some b → Z.of_nat n <= nHeight b →
  ∃ a ba, prev_n st n h = Some a ∧ st !! a = Some ba ∧ nHeight ba = nHeight b - Z.of_nat n.
Proof.
  intros Hok. revert h b. induction n as [|n IH]; intros h b Hb Hn.
  { exists h, b. split; [done|]. split; [done|]. lia. }
  cbn [prev_n]. rewrite Hb. simpl. destruct (pprev b) as [p|] eqn:Ep.
  - destruct (ck_prev st Hok _ _ _ Hb Ep) as (b' & Hb' & Hh). simpl.
    destruct (IH p b' Hb') as (a & ba & H1 & H2 & H3); [lia|].
    exists a, ba. split; [done|]. split; [done|]. lia.
  - rewrite (ck_root st Hok _ _ Hb Ep) in Hn. lia.
Qed.

Lemma GetAncestor_loop_spec st fuel h b k :
  chain_ok st → st !! h = Some b → 0 <= k <= nHeight b →
  (Z.to_nat (nHeight b - k) <= fuel)%nat →
  GetAncestor_loop fuel st h (nHeight b) k = prev_n st (Z.to_nat (nHeight b - k)) h.
Proof.
  intros Hok. revert h b. induction fuel as [|fuel IH]; intros h b Hb Hk Hf.
  { simpl. destruct (Z.leb_spec (nHeight b) k); [|lia].
    by replace (Z.to_nat (nHeight b - k)) with 0%nat by lia. }
  cbn [GetAncestor_loop]. destruct (Z.leb_spec (nHeight b) k).
  { by replace (Z.to_nat (nHeight b - k)) with 0%nat by lia. }
  rewrite Hb. pose proof (GetSkipHeight_bounds (nHeight b) ltac:(lia)) as Hs.
  assert (Hstep : match pprev b with
                  | None => None
                  | Some p => GetAncestor_loop fuel st p (nHeight b - 1) k
                  end = prev_n st (Z.to_nat (nHeight b - k)) h).
  { replace (Z.to_nat (nHeight b - k)) with (S (Z.to_nat (nHeight b - 1 - k))) by lia.
    cbn [prev_n]. rewrite Hb. simpl. destruct (pprev b) as [p|] eqn:Ep; [|done].
    destruct (ck_prev st Hok _ _ _ Hb Ep) as (b' & Hb' & Hh). simpl.
    rewrite <- Hh in *. apply IH; [done|lia|lia]. }
  destruct (pskip b) as [sk|] eqn:Esk; [|done].
  destruct (use_skip (nHeight b) k) eqn:Eu; [|done]. apply use_skip_above in Eu.
  set (d := Z.to_nat (nHeight b - GetSkipHeight (nHeight b))).
  pose proof (ck_skip st Hok _ _ _ Hb Esk) as Hprev. fold d in Hprev.
  destruct (prev_n_height st d h b Hok Hb) as (a & ba & H1 & H2 & H3); [lia|].
  assert (a = sk) as -> by congruence.
  assert (Hh : nHeight ba = GetSkipHeight (nHeight b)) by lia.
  replace (Z.to_nat (nHeight b - k)) with (d + Z.to_nat (nHeight ba - k))%nat by lia.
  rewrite prev_n_add, H1. simpl. rewrite <- Hh. apply IH; [done|lia|lia].
Qed.

(** The lookup in a well-formed index is the reference walk. *)
Lemma GetAncestor_prev_n st h b k :
  chain_ok st → st !! h = Some b → 0 <= k <= nHeight b →
  GetAncestor st h k = prev_n st (Z.to_nat (nHeight b - k)) h.
Proof.
  intros Hok Hb Hk. unfold GetAncestor. rewrite Hb.
  destruct (Z.ltb_spec (nHeight b) k); [lia|]. destruct (Z.ltb_spec k 0); [lia|]. simpl.
  by apply GetAncestor_loop_spec.
Qed.


(** ** Growing the index *)

(** Entries that are already there keep the chains they start. *)
Lemma prev_n_insert st hash e n p :
  chain_ok st → st !! hash = None → is_Some (st !! p) →
  prev_n (<[hash := e]> st) n p = prev_n st n p.
Proof.
  intros Hok Hnew. revert p. induction n as [|n IH]; intros p [b Hb]; [done|]. simpl.
  rewrite lookup_insert_ne by congruence. rewrite Hb. simpl.
  destruct (pprev b) as [q|] eqn:Hq; [|done]. simpl. apply IH.
  destruct (ck_prev st Hok _ _ _ Hb Hq) as (b' & -> & _). eauto.
Qed.

(** Adding an entry that hangs below a known block, or a root, keeps the index well
    formed. *)
Lemma chain_ok_insert st hash e :
  chain_ok st → st !! hash = None →
  match pprev e with
  | None => nHeight e = 0
  | Some p => ∃ b, st !! p = Some b ∧ nHeight e = nHeight b + 1
  end →
  (∀ s, pskip e = Some s → ∃ p, pprev e = Some p ∧
     prev_n st (Z.to_nat (nHeight e - 1 - GetSkipHeight (nHeight e))) p = Some s) →
  chain_ok (<[hash := e]> st).
Proof.
  intros Hok Hnew Hprev Hskip. split.
  - intros h b [[<- <-]|[_ Hb]]%lookup_insert_Some; [|by eapply ck_height].
    destruct (pprev e); [|lia]. destruct Hprev as (bp & Hbp & ->).
    pose proof (ck_height st Hok _ _ Hbp). lia.
  - intros h b p [[<- <-]|[Hne Hb]]%lookup_insert_Some Hp.
    + rewrite Hp in Hprev. destruct Hprev as (bp & Hbp & ->). exists bp.
      rewrite lookup_insert_ne by congruence. split; [done|lia].
    + destruct (ck_prev st Hok _ _ _ Hb Hp) as (bp & Hbp & Hh). exists bp.
      rewrite lookup_insert_ne by congruence. done.
  - intros h b [[<- <-]|[_ Hb]]%lookup_insert_Some Hp; [by rewrite Hp in Hprev|].
    by eapply ck_root.
  - intros h b s [[<- <-]|[Hne Hb]]%lookup_insert_Some Hs.
    + destruct (Hskip s Hs) as (p & Hp & Hps). rewrite Hp in Hprev.
      destruct Hprev as (bp & Hbp & Hh).
      pose proof (ck_height st Hok _ _ Hbp).
      pose proof (GetSkipHeight_bounds (nHeight e) ltac:(lia)).
      replace (Z.to_nat (nHeight e - GetSkipHeight (nHeight e)))
        with (S (Z.to_nat (nHeight e - 1 - GetSkipHeight (nHeight e)))) by lia.
      cbn [prev_n]. rewrite lookup_insert_eq. simpl. rewrite Hp. simpl.
      by rewrite prev_n_insert by eauto.
    + rewrite prev_n_insert by eauto. by eapply ck_skip.
Qed.

(** What [new_entry] puts into the fields of the new entry. *)
Lemma new_entry_prev st hash block :
  st !! hash = None → hdr_hashPrevBlock block ≠ hash →
  let e := new_entry (<[hash := index_of_header block]> st) block in
  match st !! hdr_hashPrevBlock block with
  | None => pprev e = None ∧ pskip e = None ∧ nHeight e = 0 ∧
            nChainWork e = u256 (GetBlockProof (hdr_nBits block))
  | Some b => pprev e = Some (hdr_hashPrevBlock block) ∧ nHeight e = nHeight b + 1 ∧
              nChainWork e = u256 (nChainWork b + GetBlockProof (hdr_nBits block)) ∧
              pskip e = GetAncestor (<[hash := index_of_header block]> st)
                          (hdr_hashPrevBlock block) (GetSkipHeight (nHeight e))
  end.
Proof.
  intros Hnew Hne. unfold new_entry. rewrite lookup_insert_ne by done.
  destruct (st !! hdr_hashPrevBlock block) as [b|]; cbn [pprev pskip nHeight nChainWork nBits index_of_header].
  - split; [done|]. split; [done|]. split; [done|].
    unfold BuildSkip. cbn [pprev pskip nHeight]. by destruct (GetAncestor _ _ _).
  - done.
Qed.

Lemma AddToBlockIndex_chain_ok st hash block best :
  chain_ok st → hdr_hashPrevBlock block ≠ hash → chain_ok (AddToBlockIndex st hash block best).1.
Proof.
  intros Hok Hne. unfold AddToBlockIndex. destruct (st !! hash) eqn:Hnew; [done|]. simpl.
  pose proof (new_entry_prev st hash block Hnew Hne) as He. cbv zeta in He.
  assert (Hok' : chain_ok (<[hash := index_of_header block]> st)) by (by apply chain_ok_insert).
  set (e := new_entry _ block) in *.
  destruct (st !! hdr_hashPrevBlock block) as [b|] eqn:Hb.
  - destruct He as (Hp & Hh & _ & Hs). apply chain_ok_insert; [done..| |].
    + rewrite Hp. eauto.
    + intros s Hsk. exists (hdr_hashPrevBlock block). split; [done|].
      pose proof (ck_height st Hok _ _ Hb).
      pose proof (GetSkipHeight_bounds (nHeight e) ltac:(lia)).
      rewrite Hs, (GetAncestor_prev_n _ _ b) in Hsk
        by (try rewrite lookup_insert_ne; try done; lia).
      rewrite prev_n_insert in Hsk by eauto. rewrite <- Hsk. do 2 f_equal. lia.
  - destruct He as (Hp & Hs & Hh & _). apply chain_ok_insert; [done..| |].
    + by rewrite Hp.
    + intros s Hsk. congruence.
Qed.

(** ** Indices that arise from headers *)

(** One accepted header.  No header names its own hash as its predecessor. *)
Inductive index_step : BlockMap * option Z → BlockMap * option Z → Prop :=
  | step_header st best hash block :
      hdr_hashPrevBlock block ≠ hash →
      index_step (st, best) (AddToBlockIndex st hash block best).

Definition index_reachable : BlockMap * option Z → Prop := rtc index_step (∅, None).

Lemma chain_ok_empty : chain_ok ∅.
Proof. split; intros *; by rewrite lookup_empty. Qed.

Lemma reachable_chain_ok s : index_reachable s → chain_ok s.1.
Proof.
  revert s. apply (rtc_ind_r (λ s, chain_ok s.1)); [apply chain_ok_empty|].
  intros s s' _ Hstep IH. destruct Hstep. by apply AddToBlockIndex_chain_ok.
Qed.

(** The best header is known and no entry has more work. *)
Definition best_ok (s : BlockMap * option Z) : Prop :=
  match s.2 with
  | None => s.1 = ∅
  | Some bh => ∃ b, s.1 !! bh = Some b ∧ map_Forall (λ _ c, nChainWork c <= nChainWork b) s.1
  end.

Lemma AddToBlockIndex_best_ok st best hash block :
  best_ok (st, best) → best_ok (AddToBlockIndex st hash block best).
Proof.
  unfold best_ok, AddToBlockIndex. cbn [fst snd]. intros H. destruct (st !! hash) eqn:Hnew; [done|].
  cbv zeta. generalize (new_entry (<[hash := index_of_header block]> st) block). intros e.
  cbn [fst snd]. destruct best as [bh|].
  - destruct H as (b & Hb & Hmax). rewrite lookup_insert_ne by congruence. rewrite Hb.
    destruct (Z.ltb_spec (nChainWork b) (nChainWork e)); simpl.
    + exists e. rewrite lookup_insert_eq. split; [done|]. apply map_Forall_insert_2; [lia|].
      eapply map_Forall_impl; [done|]. simpl. lia.
    + exists b. rewrite lookup_insert_ne by congruence. split; [done|].
      by apply map_Forall_insert_2.
  - subst st. exists e. rewrite lookup_insert_eq. split; [done|].
    apply map_Forall_insert_2; [lia|]. apply map_Forall_empty.
Qed.

Lemma reachable_best_ok s : index_reachable s → best_ok s.
Proof.
  revert s. apply (rtc_ind_r best_ok); [done|].
  intros s s' _ Hstep IH. destruct Hstep. by apply AddToBlockIndex_best_ok.
Qed.

(** ** Properties *)

(** The skip list is correct: in every index built from accepted headers,
    [GetAncestor] through [pskip] finds exactly the block that following [pprev] one
    step at a time finds, at the height asked for, and answers null exactly outside the
    heights from 0 to the block's own. *)
Theorem GetAncestor_reference st best h b k :
  index_reachable (st, best) → st !! h = Some b →
  (0 <= k <= nHeight b → ∃ a ba, GetAncestor st h k = Some a ∧ st !! a = Some ba ∧
     nHeight ba = k ∧ prev_n st (Z.to_nat (nHeight b - k)) h = Some a) ∧
  (k < 0 ∨ nHeight b < k → GetAncestor st h k = None).
Proof.
  intros Hr Hb. apply reachable_chain_ok in Hr. simpl in Hr. split.
  - intros Hk. rewrite (GetAncestor_prev_n st h b k Hr Hb Hk).
    destruct (prev_n_height st (Z.to_nat (nHeight b - k)) h b Hr Hb)
      as (a & ba & H1 & H2 & H3); [lia|].
    exists a, ba. split; [done|]. split; [done|]. split; [lia|done].
  - intros Hk. unfold GetAncestor. rewrite Hb.
    destruct (Z.ltb_spec (nHeight b) k), (Z.ltb_spec k 0); done || lia.
Qed.

(** The best header is right: after any sequence of accepted headers it is an entry
    of the index and no entry has more accumulated work; adding a header never changes
    or removes an entry, and a header already known changes nothing. *)
Theorem best_header_maximal st best hash block :
  index_reachable (st, best) → hdr_hashPrevBlock block ≠ hash →
  let s' := AddToBlockIndex st hash block best in
  (∃ bh b, s'.2 = Some bh ∧ s'.1 !! bh = Some b ∧
     ∀ h c, s'.1 !! h = Some c → nChainWork c <= nChainWork b) ∧
  st ⊆ s'.1 ∧ is_Some (s'.1 !! hash) ∧ (is_Some (st !! hash) → s' = (st, best)).
Proof.
  intros Hr Hne. cbv zeta.
  assert (Hr' : index_reachable (AddToBlockIndex st hash block best))
    by (eapply rtc_r; [exact Hr|by constructor]).
  apply reachable_best_ok in Hr'. unfold best_ok in Hr'.
  assert (Hin : is_Some ((AddToBlockIndex st hash block best).1 !! hash)).
  { unfold AddToBlockIndex. destruct (st !! hash) eqn:E; simpl; [by rewrite E; eauto|].
    rewrite lookup_insert_eq. eauto. }
  split; [|split; [|split; [done|]]].
  - destruct (AddToBlockIndex st hash block best).2 as [bh|].
    + destruct Hr' as (b & Hb & Hmax). exists bh, b. split; [done|]. split; [done|].
      intros h c Hc. exact (Hmax h c Hc).
    + rewrite Hr', lookup_empty in Hin. by destruct Hin.
  - unfold AddToBlockIndex. destruct (st !! hash) eqn:E; simpl; [done|]. by apply insert_subseteq.
  - intros [e He]. unfold AddToBlockIndex. by rewrite He.
Qed.
