(* ===== verification/BlockIndexProvider.v ===== *)
(** [BlockIndexGhostdagProvider] of src/src/dag/ghostdag_blockindex.h: the GHOSTDAG
    provider backed by the block index, and the ancestor test [IsBlockAncestor].

    The walk up [pprev] and the breadth-first search visit each entry of the index at
    most once when heights grow along the parent relation, so the number of entries is
    enough fuel; [IsBlockAncestor_exact] is an equivalence, so the fuel is not part of
    what it says. *)

From S2P Require Import Prelude OrdSet TipSet Arith256 BlockHeader Ghostdag Mergeset BlockIndex.

Definition MAX_ANCESTOR_BFS_NODES : Z := 500000.

Section provider.
Context (st : BlockMap).

Definition height_of (h : Z) : Z :=
  match st !! h with Some b => nHeight b | None => 0 end.

(** ** Provider operations *)

Definition Index_GetGhostdagData (hash : Z) : option GhostdagData :=
  dagData <$> st !! hash.

Definition Index_GetParents (hash : Z) : list Z :=
  match st !! hash with
  | None => []
  | Some b => option_list (pprev b) ++ omap id (vDagParents b)
  end.

Definition Index_GetBlockWork (hash : Z) : Z :=
  match st !! hash with
  | None => 0
  | Some b => let w := GetLow64 (GetBlockProof (nBits b)) in
              if 0 <? w then w else 1
  end.

(** ** [IsBlockAncestor] *)

(** The fast path: up the selected-parent chain to the ancestor's height. *)
Fixpoint prev_walk (fuel : nat) (walk : option Z) (height : Z) : option Z :=
  match walk, fuel with
  | Some w, S fuel' =>
      if height <? height_of w
      then prev_walk fuel' (st !! w ≫= pprev) height else walk
  | _, _ => walk
  end.

Record search := mkSearch { s_visited : gset Z; s_queue : list Z }.

(** [enqueue]: mark, and queue the blocks above the ancestor's height. *)
Definition enqueue (pAncestor : Z) (s : search) (p : Z) : search :=
  if bool_decide (p ∈ s_visited s) then s
  else
    let v := {[p]} ∪ s_visited s in
    if p =? pAncestor then mkSearch v (s_queue s)
    else if height_of pAncestor <? height_of p then mkSearch v (s_queue s ++ [p])
    else mkSearch v (s_queue s).

(** Scan the parents of a block; [None] means the ancestor was met. *)
Fixpoint scan (pAncestor : Z) (s : search) (ps : list Z) : option search :=
  match ps with
  | [] => Some s
  | p :: ps' => if p =? pAncestor then None else scan pAncestor (enqueue pAncestor s p) ps'
  end.

Fixpoint ancestor_bfs (fuel : nat) (pAncestor : Z) (s : search) : bool :=
  match s_queue s with
  | [] => false
  | cur :: q =>
      match fuel with
      | O => false
      | S fuel' =>
          if MAX_ANCESTOR_BFS_NODES <? Z.of_nat (size (s_visited s)) then false
          else match scan pAncestor (mkSearch (s_visited s) q) (Index_GetParents cur) with
               | None => true
               | Some s' => ancestor_bfs fuel' pAncestor s'
               end
      end
  end.

Definition IsBlockAncestor (pAncestor pBlock : Z) : bool :=
  if pAncestor =? pBlock then true
  else if height_of pBlock <? height_of pAncestor then false
  else if bool_decide (prev_walk (size st) (Some pBlock) (height_of pAncestor)
                       = Some pAncestor) then true
  else ancestor_bfs (size st) pAncestor (mkSearch {[pBlock]} [pBlock]).

Definition Index_IsAncestorOf (ancestor block : Z) : bool :=
  match st !! ancestor, st !! block with
  | Some _, Some _ => IsBlockAncestor ancestor block
  | _, _ => false
  end.

#[export] Instance BlockIndexGhostdagProvider : IGhostdagBlockProvider := {
  GetGhostdagData := Index_GetGhostdagData;
  GetParents := Index_GetParents;
  IsAncestorOf := Index_IsAncestorOf;
  GetBlockWork := Index_GetBlockWork
}.
End provider.

(** ** The index as a DAG *)

(** Every parent pointer of an entry points into the index. *)
Definition index_closed (st : BlockMap) : Prop :=
  ∀ h b p, st !! h = Some b → p ∈ Index_GetParents st h → is_Some (st !! p).

(** Heights grow along every parent edge. *)
Definition heights_grow (st : BlockMap) : Prop :=
  ∀ h p, p ∈ Index_GetParents st h → height_of st p < height_of st h.

Section ancestor.
Context (st : BlockMap).
#[local] Existing Instance BlockIndexGhostdagProvider.

Abbreviation past := (rtc (parent_edge (H := BlockIndexGhostdagProvider st))).

Lemma prev_parent h b p : st !! h = Some b → pprev b = Some p → p ∈ Index_GetParents st h.
Proof.
  intros Hb Hp. unfold Index_GetParents. rewrite Hb, Hp. simpl. apply elem_of_cons. by left.
Qed.

(** ** Soundness: a positive answer is always right *)

Lemma prev_walk_past fuel h k a : prev_walk st fuel (Some h) k = Some a → past h a.
Proof.
  revert h. induction fuel as [|fuel IH]; intros h; simpl; [intros [= ->]; reflexivity|].
  destruct (k <? height_of st h); [|intros [= ->]; reflexivity].
  destruct (st !! h) as [b|] eqn:Hb; simpl; [|by destruct fuel].
  destruct (pprev b) as [p|] eqn:Hp; [|by destruct fuel].
  intros Ha%IH. eapply rtc_l; [|exact Ha]. by eapply prev_parent.
Qed.

Lemma enqueue_queue a s p z :
  z ∈ s_queue (enqueue st a s p) → z ∈ s_queue s ∨ z = p.
Proof.
  unfold enqueue. repeat case_match; simpl; auto.
  rewrite elem_of_app, list_elem_of_singleton. auto.
Qed.

Lemma scan_found a ps s : scan st a s ps = None → a ∈ ps.
Proof.
  revert s. induction ps as [|p ps IH]; intros s; simpl; [done|].
  destruct (Z.eqb_spec p a) as [->|]; [by left|]. intros ?%IH. by right.
Qed.

Lemma scan_queue a ps s s' z :
  scan st a s ps = Some s' → z ∈ s_queue s' → z ∈ s_queue s ∨ z ∈ ps.
Proof.
  revert s. induction ps as [|p ps IH]; intros s; simpl; [intros [= ->]; auto|].
  destruct (p =? a); [done|]. intros H1 H2.
  destruct (IH _ H1 H2) as [H3|H3]; [|by right; right].
  apply enqueue_queue in H3 as [?| ->]; [by left|by right; left].
Qed.

Lemma ancestor_bfs_sound fuel a b s :
  (∀ z, z ∈ s_queue s → past b z) → ancestor_bfs st fuel a s = true → past b a.
Proof.
  revert s. induction fuel as [|fuel IH]; intros s Hq; simpl;
    (destruct (s_queue s) as [|cur q] eqn:Eq; [done|]); [done|].
  case_match; [done|]. destruct (scan _ _ _ _) as [s'|] eqn:Es.
  - apply IH. intros z Hz. destruct (scan_queue _ _ _ _ _ Es Hz) as [Hz'|Hz'].
    + apply Hq. by right.
    + eapply rtc_r; [apply Hq; by left|]. exact Hz'.
  - intros _. apply scan_found in Es. eapply rtc_r; [apply Hq; by left|]. exact Es.
Qed.

Lemma IsBlockAncestor_sound a b : IsBlockAncestor st a b = true → past b a.
Proof.
  unfold IsBlockAncestor. destruct (Z.eqb_spec a b) as [->|]; [reflexivity|].
  case_match; [done|]. case_bool_decide as Hw.
  - intros _. by eapply prev_walk_past.
  - apply ancestor_bfs_sound. simpl. intros z ->%list_elem_of_singleton. reflexivity.
Qed.

(** ** Completeness: heights prune only what cannot lead to the ancestor *)

Context (Hclosed : index_closed st) (Hgrow : heights_grow st).

Lemma past_height x y : past x y → x = y ∨ height_of st y < height_of st x.
Proof.
  induction 1 as [|x z y Hxz Hzy IH]; [by left|]. right.
  pose proof (Hgrow _ _ Hxz). destruct IH as [->|]; lia.
Qed.

Lemma parent_known h p : p ∈ Index_GetParents st h → is_Some (st !! p).
Proof.
  intros Hp. destruct (st !! h) as [b|] eqn:Hb; [by eapply Hclosed|].
  unfold Index_GetParents in Hp. rewrite Hb in Hp. by apply elem_of_nil in Hp.
Qed.

(** The search invariant; blocks of [E] are being scanned. *)
Record sinv (a b : Z) (E : list Z) (s : search) : Prop := {
  si_dom x : x ∈ s_visited s → is_Some (st !! x);
  si_queue x : x ∈ s_queue s → x ∈ s_visited s;
  si_a : a ∉ s_visited s;
  si_b : b ∈ s_visited s;
  si_closed x p : x ∈ s_visited s → x ∉ s_queue s → x ∉ E →
                  height_of st a < height_of st x →
                  p ∈ Index_GetParents st x → p ∈ s_visited s
}.

Definition search_measure (s : search) : nat :=
  (size (dom st ∖ s_visited s) + length (s_queue s))%nat.

Lemma enqueue_inv a b E s p :
  sinv a b E s → p ≠ a → is_Some (st !! p) →
  let s' := enqueue st a s p in
  sinv a b E s' ∧ p ∈ s_visited s' ∧ (∀ z, z ∈ s_visited s → z ∈ s_visited s') ∧
  (search_measure s' <= search_measure s)%nat.
Proof.
  intros [] Hpa Hp. unfold enqueue. case_bool_decide as Hv; [done|].
  destruct (Z.eqb_spec p a); [done|].
  assert (Hsub : ∀ z, z ∈ s_visited s → z ∈ {[p]} ∪ s_visited s)
    by (intros z; rewrite elem_of_union; auto).
  assert (Hpin : p ∈ {[p]} ∪ s_visited s) by (by apply elem_of_union_l, elem_of_singleton).
  assert (Hm : size (dom st ∖ s_visited s) = S (size (dom st ∖ ({[p]} ∪ s_visited s)))).
  { apply measure_add; [by apply elem_of_dom|done]. }
  assert (Hdom : ∀ x, x ∈ {[p]} ∪ s_visited s → is_Some (st !! x)).
  { intros x [->%elem_of_singleton|?]%elem_of_union; auto. }
  assert (Ha : a ∉ {[p]} ∪ s_visited s)
    by (rewrite elem_of_union, elem_of_singleton; naive_solver).
  unfold search_measure.
  destruct (Z.ltb_spec (height_of st a) (height_of st p)); cbn [s_visited s_queue].
  - split; [|split; [done|split; [done|rewrite length_app; simpl; lia]]].
    constructor; cbn [s_visited s_queue]; auto.
    + intros x. rewrite elem_of_app, list_elem_of_singleton. intros [?| ->]; auto.
    + intros x q Hx Hq HE Hh Hqp. rewrite elem_of_app, list_elem_of_singleton in Hq.
      apply elem_of_union in Hx as [->%elem_of_singleton|Hx]; [naive_solver|].
      apply Hsub, (si_closed0 x q); auto.
  - split; [|split; [done|split; [done|lia]]].
    constructor; cbn [s_visited s_queue]; auto.
    intros x q Hx Hq HE Hh Hqp.
    apply elem_of_union in Hx as [->%elem_of_singleton|Hx]; [lia|].
    apply Hsub, (si_closed0 x q); auto.
Qed.

Lemma scan_inv a b E ps s s' :
  sinv a b E s → (∀ p, p ∈ ps → is_Some (st !! p)) → scan st a s ps = Some s' →
  sinv a b E s' ∧ (∀ p, p ∈ ps → p ∈ s_visited s') ∧
  (∀ z, z ∈ s_visited s → z ∈ s_visited s') ∧ (search_measure s' <= search_measure s)%nat.
Proof.
  revert s. induction ps as [|p ps IH]; intros s Hs Hps; simpl.
  { intros [= <-]. split; [done|]. split; [by intros ? ?%elem_of_nil|]. done. }
  destruct (Z.eqb_spec p a) as [|Hne]; [done|]. intros Hscan.
  destruct (enqueue_inv a b E s p Hs Hne) as (H1 & H2 & H3 & H4); [by apply Hps; left|].
  destruct (IH _ H1) as (G1 & G2 & G3 & G4); [by intros q Hq; apply Hps; right|done|].
  split; [done|]. split; [|split; [auto|lia]]. intros q [->|Hq]%elem_of_cons; auto.
Qed.

(** A search that ends with an empty queue has seen the whole relevant past. *)
Lemma sinv_complete a b s : sinv a b [] s → s_queue s = [] → a ≠ b → ¬ past b a.
Proof.
  intros [] Hq Hab Hpast. apply si_a0. clear Hab.
  induction Hpast as [|x y z Hxy Hyz IH]; [done|].
  apply IH; [done| |done]. apply (si_closed0 x y); try done; [rewrite Hq; apply not_elem_of_nil|
    apply not_elem_of_nil|].
  destruct (past_height y z Hyz) as [->|]; [by apply Hgrow|].
  pose proof (Hgrow _ _ Hxy). lia.
Qed.

Lemma ancestor_bfs_complete fuel a b s :
  Z.of_nat (size st) <= MAX_ANCESTOR_BFS_NODES → a ≠ b →
  sinv a b [] s → (search_measure s <= fuel)%nat → past b a → ancestor_bfs st fuel a s = true.
Proof.
  intros Hcap Hab. revert s. induction fuel as [|fuel IH]; intros s Hs Hm Hpast; simpl;
    (destruct (s_queue s) as [|cur q] eqn:Eq; [by destruct (sinv_complete a b s)|]).
  { unfold search_measure in Hm. rewrite Eq in Hm. simpl in Hm. lia. }
  assert (Hsz : Z.of_nat (size (s_visited s)) <= Z.of_nat (size st)).
  { rewrite <- size_dom. apply Nat2Z.inj_le, subseteq_size. intros x Hx.
    apply elem_of_dom. by apply Hs. }
  destruct (Z.ltb_spec MAX_ANCESTOR_BFS_NODES (Z.of_nat (size (s_visited s)))); [lia|].
  destruct (scan _ _ _ _) as [s'|] eqn:Es; [|done].
  assert (Hs1 : sinv a b [cur] (mkSearch (s_visited s) q)).
  { destruct Hs. constructor; cbn [s_visited s_queue]; auto.
    - intros x Hx. apply si_queue0. rewrite Eq. by right.
    - intros x p Hx Hnq Hne. apply (si_closed0 x p); [done| |apply not_elem_of_nil].
      rewrite Eq, elem_of_cons. rewrite list_elem_of_singleton in Hne. naive_solver. }
  destruct (scan_inv a b [cur] (Index_GetParents st cur) _ _ Hs1
              (λ p, parent_known cur p) Es) as (H1 & H2 & _ & H4).
  apply IH; [| |done].
  - destruct H1. constructor; auto. intros x p Hx Hnq _ Hh Hp.
    destruct (decide (x = cur)) as [->|Hne]; [auto|].
    apply (si_closed0 x p); auto. by rewrite list_elem_of_singleton.
  - unfold search_measure in *. rewrite Eq in Hm. simpl in *. lia.
Qed.

Lemma IsBlockAncestor_complete a b :
  Z.of_nat (size st) <= MAX_ANCESTOR_BFS_NODES → is_Some (st !! b) →
  past b a → IsBlockAncestor st a b = true.
Proof.
  intros Hcap Hb Hpast. unfold IsBlockAncestor.
  destruct (Z.eqb_spec a b) as [|Hab]; [done|].
  destruct (past_height b a Hpast) as [->|Hh]; [done|].
  destruct (Z.ltb_spec (height_of st b) (height_of st a)); [lia|].
  case_bool_decide; [done|]. apply (ancestor_bfs_complete _ a b); try done.
  - constructor; cbn [s_visited s_queue].
    + by intros x ->%elem_of_singleton.
    + intros x ->%list_elem_of_singleton. by apply elem_of_singleton.
    + by rewrite elem_of_singleton.
    + by apply elem_of_singleton.
    + intros x p ->%elem_of_singleton Hn. by rewrite list_elem_of_singleton in Hn.
  - unfold search_measure. cbn [s_visited s_queue length]. rewrite <- size_dom.
    apply elem_of_dom in Hb.
    rewrite size_difference by (by apply singleton_subseteq_l). rewrite size_singleton.
    assert (size (dom st) ≠ 0%nat); [|lia]. apply size_non_empty_iff. set_solver.
Qed.
End ancestor.

(** The block-index provider keeps what GHOSTDAG relies on. *)
#[export] Instance index_ProviderOk (st : BlockMap) :
  index_closed st → heights_grow st → st !! 0 = None →
  Z.of_nat (size st) <= MAX_ANCESTOR_BFS_NODES →
  ProviderOk (H := BlockIndexGhostdagProvider st) (dom st).
Proof.
  intros Hc Hg H0 Hcap. split.
  - by apply not_elem_of_dom.
  - intros b a Hb Ha. apply elem_of_dom. exact (parent_known st Hc b a Ha).
  - intros a b. simpl. unfold Index_IsAncestorOf. rewrite !elem_of_dom.
    destruct (st !! a) eqn:Ea, (st !! b) eqn:Eb; try (split; [done|]; intros (? & ? & _);
      naive_solver).
    split; [intros H%IsBlockAncestor_sound; eauto|].
    intros (_ & _ & H). eapply IsBlockAncestor_complete; eauto.
Qed.

(** ** Checking a concrete index *)

Definition index_okb (st : BlockMap) : bool :=
  bool_decide (map_Forall (λ h b,
    Forall (λ p, is_Some (st !! p) ∧ height_of st p < nHeight b) (Index_GetParents st h)) st) &&
  bool_decide (st !! 0 = None) && (Z.of_nat (size st) <=? MAX_ANCESTOR_BFS_NODES).

Lemma index_okb_spec st :
  index_okb st = true →
  index_closed st ∧ heights_grow st ∧ st !! 0 = None ∧
  Z.of_nat (size st) <= MAX_ANCESTOR_BFS_NODES.
Proof.
  unfold index_okb. rewrite !andb_true_iff, !bool_decide_eq_true, Z.leb_le.
  intros [[Hst H0] Hcap]. split; [|split; [|done]].
  - intros h b p Hb Hp. specialize (Hst h b Hb). rewrite Forall_forall in Hst.
    by apply Hst.
  - intros h p Hp. destruct (st !! h) as [b|] eqn:Hb.
    + specialize (Hst h b Hb). rewrite Forall_forall in Hst.
      unfold height_of at 2. rewrite Hb. by apply Hst.
    + unfold Index_GetParents in Hp. rewrite Hb in Hp. by apply elem_of_nil in Hp.
Qed.

(** An entry of an index with the fields that matter to the DAG. *)
Definition dag_entry (prev : option Z) (height : Z) (dag_parents : list Z)
    (d : GhostdagData) : CBlockIndex :=
  mkIndex prev None height 0 1 1 0 0x30000000 0 0 0x1d00ffff 0 0 (Some <$> dag_parents) d 0
    one_double 0 0.

(** Genesis 1, its children 2 and 3, and block 4 that merges 3 into 2. *)
Definition diamond : BlockMap :=
  list_to_map [
    (1, dag_entry None 0 [] null_data);
    (2, dag_entry (Some 1) 1 [] (mkGhostdagData 1 1 [] [] 0));
    (3, dag_entry (Some 1) 1 [] (mkGhostdagData 1 1 [] [] 0));
    (4, dag_entry (Some 2) 2 [3] (mkGhostdagData 3 2 [3] [] 4295032833))].

Lemma diamond_ok : index_okb diamond = true.
Proof. vm_compute. reflexivity. Qed.

(** ** Properties *)

(** C31. [IsBlockAncestor] decides reachability through [pprev] and [vDagParents]: in an
    index closed under parents, whose heights grow along every parent edge and which is
    within the search cap, the answer is [true] exactly for the blocks in the past (a
    block included in its own past). *)
Theorem IsBlockAncestor_exact st a b :
  index_closed st → heights_grow st → Z.of_nat (size st) <= MAX_ANCESTOR_BFS_NODES →
  is_Some (st !! b) →
  IsBlockAncestor st a b = true ↔ rtc (λ x y, y ∈ Index_GetParents st x) b a.
Proof.
  intros Hc Hg Hcap Hb. split.
  - apply IsBlockAncestor_sound.
  - by apply IsBlockAncestor_complete.
Qed.

Lemma IsBlockAncestor_exact_witness :
  IsBlockAncestor diamond 3 4 = true ∧
  ¬ rtc (λ x y, y ∈ Index_GetParents diamond x) 2 3.
Proof.
  pose proof (index_okb_spec _ diamond_ok) as (H1 & H2 & _ & H3).
  split; [vm_compute; reflexivity|].
  assert (Hb : is_Some (diamond !! 2)) by (vm_compute; eauto).
  rewrite <- (IsBlockAncestor_exact diamond 3 2 H1 H2 H3 Hb). vm_compute. discriminate.
Defined.

(** Genesis 1; the chain 1, 3, 5, 6 of height 3; block 4 of height 2 on 2, whose extra
    parent is 6. *)
Definition tall_parent : BlockMap :=
  list_to_map [
    (1, dag_entry None 0 [] null_data);
    (2, dag_entry (Some 1) 1 [] (mkGhostdagData 1 1 [] [] 0));
    (3, dag_entry (Some 1) 1 [] (mkGhostdagData 1 1 [] [] 0));
    (5, dag_entry (Some 3) 2 [] (mkGhostdagData 2 3 [] [] 0));
    (6, dag_entry (Some 5) 3 [] (mkGhostdagData 3 5 [] [] 0));
    (4, dag_entry (Some 2) 2 [6] (mkGhostdagData 4 6 [] [] 0))].

(** The height bound makes [IsBlockAncestor] miss ancestors when an extra parent is
    at least as high as the block, which no rule on heights excludes: heights grow along
    [pprev] only.  In [tall_parent] every entry is one above its [pprev] and all
    parents are known, yet a direct parent of block 4 is reported as no ancestor. *)
Theorem IsBlockAncestor_tall_parent :
  index_closed tall_parent ∧
  (∀ h b p, tall_parent !! h = Some b → pprev b = Some p →
     nHeight b = height_of tall_parent p + 1) ∧
  6 ∈ Index_GetParents tall_parent 4 ∧ IsBlockAncestor tall_parent 6 4 = false.
Proof.
  split; [|split; [|split; [|vm_compute; reflexivity]]].
  - intros h b p Hb Hp.
    assert (Hall : map_Forall (λ h b, Forall (λ p, is_Some (tall_parent !! p))
      (Index_GetParents tall_parent h)) tall_parent)
      by (refine (bool_decide_unpack _ _); vm_compute; exact I).
    specialize (Hall h b Hb). rewrite Forall_forall in Hall. auto.
  - intros h b p Hb Hp.
    assert (Hall : map_Forall (λ h b, Forall (λ p, nHeight b = height_of tall_parent p + 1)
      (option_list (pprev b))) tall_parent)
      by (refine (bool_decide_unpack _ _); vm_compute; exact I).
    specialize (Hall h b Hb). rewrite Forall_forall, Hp in Hall. apply Hall. by left.
  - vm_compute. right. left.
Qed.

(** Two blocks, the first with the harder target. *)
Definition two_targets : BlockMap :=
  list_to_map [
    (1, mkIndex None None 0 0 1 1 0 0 0 0 0x1900ffff 0 0 [] null_data 0 one_double 0 0);
    (2, mkIndex None None 0 0 1 1 0 0 0 0 0x19010000 0 0 [] null_data 0 one_double 0 0)].

(** The work GHOSTDAG adds up is not fit for comparisons once a block proof reaches
    64 bits: [GetBlockWork] keeps the low 64 bits, so of the two blocks the one with the
    smaller target, whose proof is larger, gets the smaller work (2^48 against
    2^64 - 1). *)
Theorem GetBlockWork_truncates :
  cValue (SetCompact 0x1900ffff) < cValue (SetCompact 0x19010000) ∧
  GetBlockProof 0x19010000 < GetBlockProof 0x1900ffff ∧
  Index_GetBlockWork two_targets 1 = 281479271743489 ∧
  Index_GetBlockWork two_targets 2 = 2 ^ 64 - 1.
Proof. repeat split; vm_compute; reflexivity. Qed.
