(* ===== verification/GhostdagProps.v ===== *)
(** Properties of GHOSTDAG (src/src/dag/ghostdag.cpp) over any provider that keeps
    [ProviderOk], and over the block index. *)

From S2P Require Import Prelude OrdSet TipSet Arith256 Ghostdag Mergeset BlockIndex.
From S2P Require Import BlockIndexProvider.

(** ** Classification *)

Section classify.
Context `{P : IGhostdagBlockProvider}.

Definition anticone_size (block : Z) (l : list Z) : Z :=
  Z.of_nat (length (filter (λ b, in_anticone block b = true) l)).

Lemma AntiConeBlueCount_size block l :
  Z.of_nat (length l) < 2 ^ 32 → AntiConeBlueCount block l = anticone_size block l.
Proof.
  unfold AntiConeBlueCount, anticone_size.
  assert (Hgen : ∀ c, 0 <= c → c + Z.of_nat (length l) < 2 ^ 32 →
    foldl (λ count blue, if in_anticone block blue then u32 (count + 1) else count) c l =
    c + Z.of_nat (length (filter (λ b, in_anticone block b = true) l))).
  { induction l as [|b l IH]; intros c Hc Hl; simpl in *; [lia|].
    rewrite filter_cons. destruct (in_anticone block b) eqn:E.
    - rewrite decide_True by done. rewrite wrap_small by (unfold fits; lia).
      rewrite IH by lia. simpl. lia.
    - rewrite decide_False by done. apply IH; lia. }
  intros Hl. by rewrite Hgen by lia.
Qed.

Lemma classify_state k ms inh :
  (foldl (classify_step k) (inh, [], []) ms).1.1 =
  inh ++ (foldl (classify_step k) (inh, [], []) ms).1.2.
Proof.
  induction ms as [|c ms IH] using rev_ind; [by rewrite app_nil_r|].
  rewrite foldl_snoc. destruct (foldl _ _ ms) as [[cur blues] reds]. simpl in *. subst.
  case_match; simpl; [by rewrite app_assoc|done].
Qed.

(** One more candidate. *)
Lemma ClassifyMergeset_snoc k ms c inh :
  ClassifyMergeset k (ms ++ [c]) inh =
  let '(blues, reds) := ClassifyMergeset k ms inh in
  if AntiConeBlueCount c (inh ++ blues) <=? k then (blues ++ [c], reds)
  else (blues, reds ++ [c]).
Proof.
  unfold ClassifyMergeset. rewrite foldl_snoc. pose proof (classify_state k ms inh) as Hst.
  destruct (foldl _ _ ms) as [[cur blues] reds]. cbn in Hst |- *. rewrite Hst.
  by destruct (AntiConeBlueCount c (inh ++ blues) <=? k).
Qed.

(** Blues and reds split the mergeset, in its order. *)
Lemma ClassifyMergeset_split k ms inh blues reds :
  ClassifyMergeset k ms inh = (blues, reds) →
  blues `sublist_of` ms ∧ reds `sublist_of` ms ∧ blues ++ reds ≡ₚ ms.
Proof.
  revert blues reds. induction ms as [|c ms IH] using rev_ind; intros blues reds; [by intros [= <- <-]|].
  rewrite ClassifyMergeset_snoc. destruct (ClassifyMergeset k ms inh) as [bs rs].
  destruct (IH bs rs eq_refl) as (H1 & H2 & H3). destruct (_ <=? _); intros [= <- <-].
  - split; [by apply sublist_app|]. split; [by apply sublist_inserts_r|]. rewrite <- H3. by solve_Permutation.
  - split; [by apply sublist_inserts_r|]. split; [by apply sublist_app|]. rewrite app_assoc. by rewrite H3.
Qed.

Lemma filter_same (P1 P2 : Z → Prop) `{!∀ x, Decision (P1 x), !∀ x, Decision (P2 x)} (l : list Z) :
  (∀ x, x ∈ l → P1 x ↔ P2 x) → filter P1 l = filter P2 l.
Proof.
  induction l as [|x l IH]; intros Hl; [done|]. rewrite !filter_cons, IH by (intros y Hy; apply Hl; by right).
  destruct (Hl x ltac:(by left)). repeat case_decide; done || tauto.
Qed.

(** A part of a list without repetition is found by its elements. *)
Lemma filter_sublist (l k : list Z) : l `sublist_of` k → NoDup k → filter (.∈ l) k = l.
Proof.
  induction 1 as [|x l k Hs IH|x l k Hs IH]; [done|..]; intros [Hx Hd]%NoDup_cons; rewrite filter_cons.
  - rewrite decide_True by (by left). f_equal. transitivity (filter (.∈ l) k); [|by apply IH]. apply filter_same.
    intros y Hy. rewrite elem_of_cons. split; [|by right]. by intros [->|].
  - rewrite decide_False; [by apply IH|]. intros Hl. apply Hx. by eapply elem_of_sublist.
Qed.

(** The blues among the first blocks of the mergeset. *)
Definition blues_before (blues ms : list Z) (i : nat) : list Z := filter (.∈ blues) (take i ms).

(** The blues known at a turn are those the candidate is counted against. *)
Lemma ClassifyMergeset_turn k ms inh blues reds i c :
  ClassifyMergeset k ms inh = (blues, reds) → NoDup ms → Z.of_nat (length inh + length ms) < 2 ^ 32 →
  ms !! i = Some c →
  if anticone_size c (inh ++ blues_before blues ms i) <=? k then c ∈ blues ∧ c ∉ reds else c ∈ reds ∧ c ∉ blues.
Proof.
  revert blues reds i c. induction ms as [|d ms IH] using rev_ind; intros blues reds i c; [done|].
  rewrite ClassifyMergeset_snoc, length_app. destruct (ClassifyMergeset k ms inh) as [bs rs] eqn:Ec.
  intros Hc [Hnd [Hd _]]%NoDup_app Hlen Hi. cbn [length] in Hlen.
  destruct (ClassifyMergeset_split _ _ _ _ _ Ec) as (Hb & Hr & Hp). specialize (IH bs rs).
  assert (Hdm : d ∉ ms) by (intros ?; by eapply Hd, list_elem_of_singleton).
  assert (Hin : ∀ x, x ∈ bs ∨ x ∈ rs → x ∈ ms) by (intros x; rewrite <- elem_of_app, Hp; done).
  assert (Hbl : ∀ x, x ∈ ms → x ∈ blues ↔ x ∈ bs) by (destruct (_ <=? _) in Hc; simplify_eq; set_solver).
  assert (Hre : ∀ x, x ∈ ms → x ∈ reds ↔ x ∈ rs) by (destruct (_ <=? _) in Hc; simplify_eq; set_solver).
  assert (Hf : ∀ j, (j <= length ms)%nat → blues_before blues (ms ++ [d]) j = blues_before bs ms j).
  { intros j Hj. unfold blues_before. rewrite take_app_le by done. apply filter_same.
    intros x Hx. apply Hbl. apply elem_of_take in Hx as (? & ? & _). by eapply list_elem_of_lookup_2. }
  destruct (decide (i < length ms)%nat) as [Hlt|].
  - rewrite lookup_app_l in Hi by done. pose proof (list_elem_of_lookup_2 _ _ _ Hi) as Hcm.
    specialize (IH i c eq_refl Hnd ltac:(lia) Hi). rewrite Hf by lia. destruct (_ <=? _); by rewrite (Hbl c Hcm), (Hre c Hcm).
  - assert (i = length ms) as -> by (apply lookup_lt_Some in Hi; rewrite length_app in Hi; cbn in Hi; lia).
    rewrite lookup_app_r, Nat.sub_diag in Hi by lia. injection Hi as <-. rewrite Hf by done.
    assert (E : blues_before bs ms (length ms) = bs) by (unfold blues_before; rewrite take_ge by done; by apply filter_sublist).
    rewrite E. rewrite AntiConeBlueCount_size in Hc by (rewrite length_app; apply sublist_length in Hb; lia).
    destruct (_ <=? _); simplify_eq; set_solver.
Qed.
End classify.


(** ** The inherited context *)

Section context.
Context `{P : IGhostdagBlockProvider}.

(** Every known block has data, whose selected parent is null or one of its parents. *)
Definition data_ok (blocks : gset Z) : Prop :=
  ∀ b, b ∈ blocks → ∃ d, GetGhostdagData b = Some d ∧
    (selected_parent d = 0 ∨ selected_parent d ∈ GetParents b).

Context {blocks : gset Z} {Hok : ProviderOk blocks}.

Lemma data_parent b d :
  data_ok blocks → b ∈ blocks → GetGhostdagData b = Some d →
  selected_parent d = 0 ∨ selected_parent d ∈ blocks.
Proof.
  intros Hd Hb Hdb. destruct (Hd b Hb) as (d' & Hd' & [?|Hp]); simplify_eq; [by left|].
  right. by eapply ok_parents.
Qed.

(** On known blocks the inherited-blue walk of [ComputeGhostdag] never fails and
    collects the bounded selected-parent chain. *)
Lemma inherited_blues_chain n cur :
  data_ok blocks → cur = 0 ∨ cur ∈ blocks →
  inherited_blues_loop n cur = Some (SelectedParentChain_loop n cur).
Proof.
  intros Hd. revert cur. induction n as [|n IH]; intros cur Hcur; simpl; [done|].
  unfold IsNull. destruct (Z.eqb_spec cur 0) as [|Hnz]; [done|].
  destruct Hcur as [?|Hcur]; [done|].
  destruct (Hd cur Hcur) as (d & Hdc & _). rewrite Hdc.
  pose proof (data_parent cur d Hd Hcur Hdc) as Hsp.
  rewrite IH by done. simpl.
  destruct (Z.eqb_spec (selected_parent d) 0) as [E|]; [|done].
  rewrite E. by destruct n.
Qed.

Lemma SelectedParentChain_length k b :
  0 <= k → Z.of_nat (length (SelectedParentChain k b)) <= 2 * k + 1.
Proof.
  intros Hk. unfold SelectedParentChain.
  assert (H : (length (SelectedParentChain_loop (max_depth k) b) <= max_depth k)%nat).
  { generalize (max_depth k). intros n. revert b.
    induction n as [|n IH]; intros b; simpl; [done|].
    case_match; simpl; [lia|]. case_match; simpl; [|lia]. case_match; simpl; [lia|].
    apply le_n_S, IH. }
  unfold max_depth in *. lia.
Qed.
End context.

(** ** [ComputeGhostdag] *)

Section compute.
Context `{P : IGhostdagBlockProvider} {blocks : gset Z} {Hok : ProviderOk blocks}.

(** [ComputeGhostdag] past its first guard. *)
Lemma ComputeGhostdag_known fuel k parents spd :
  data_ok blocks → parents ≠ [] → SelectBestParent parents ∈ blocks →
  GetGhostdagData (SelectBestParent parents) = Some spd →
  ComputeGhostdag fuel k parents =
  match ComputeMergeset fuel parents (SelectBestParent parents) with
  | None => None
  | Some None => Some None
  | Some (Some ms) =>
      let '(blues, reds) :=
        ClassifyMergeset k ms (SelectedParentChain k (SelectBestParent parents)) in
      Some (Some (mkGhostdagData (u64 (u64 (blue_score spd + Z.of_nat (length blues)) + 1))
        (SelectBestParent parents) blues reds
        (foldl (λ w b, u64 (w + GetBlockWork b)) (blue_work spd) blues)))
  end.
Proof.
  intros Hd Hne Hsp Hspd.
  assert (Hi : inherited_blues_loop (max_depth k) (SelectBestParent parents)
    = Some (SelectedParentChain k (SelectBestParent parents)))
    by (by apply inherited_blues_chain; auto).
  destruct parents as [|p ps]; [done|]. unfold ComputeGhostdag. by rewrite Hspd, Hi.
Qed.

(** What a result for a non-empty list of known parents is made of. *)
Lemma ComputeGhostdag_inv fuel k parents r :
  data_ok blocks → parents ≠ [] → (∀ p, p ∈ parents → p ∈ blocks) →
  (size blocks <= fuel)%nat → ComputeGhostdag fuel k parents = Some r →
  let sp := SelectBestParent parents in
  ∃ spd, GetGhostdagData sp = Some spd ∧ sp ∈ parents ∧
  match ComputeMergeset fuel parents sp with
  | Some (Some ms) =>
      ∃ blues reds, ClassifyMergeset k ms (SelectedParentChain k sp) = (blues, reds) ∧
      r = Some (mkGhostdagData (u64 (u64 (blue_score spd + Z.of_nat (length blues)) + 1))
            sp blues reds (foldl (λ w b, u64 (w + GetBlockWork b)) (blue_work spd) blues))
  | Some None => r = None
  | None => False
  end.
Proof.
  intros Hd Hne Hknown Hfuel Hr sp.
  destruct (SelectBestParent_best parents Hne) as [Hsp _]. fold sp in Hsp.
  destruct (Hd sp (Hknown _ Hsp)) as (spd & Hspd & _). exists spd.
  split; [done|]. split; [done|].
  rewrite (ComputeGhostdag_known fuel k parents spd) in Hr by auto. fold sp in Hr.
  destruct (ComputeMergeset fuel parents sp) as [[ms|]|]; [|congruence|done].
  destruct (ClassifyMergeset k ms (SelectedParentChain k sp)) as [blues reds] eqn:Ec.
  exists blues, reds. split; [done|]. congruence.
Qed.

Lemma ComputeGhostdag_total fuel k parents :
  data_ok blocks → (∀ p, p ∈ parents → p ∈ blocks) → (size blocks <= fuel)%nat →
  is_Some (ComputeGhostdag fuel k parents).
Proof.
  intros Hd Hknown Hfuel. destruct (decide (parents = [])) as [->|Hne]; [by eexists|].
  destruct (SelectBestParent_best parents Hne) as [Hsp _].
  destruct (ComputeMergeset_spec parents _ Hknown Hsp fuel Hfuel) as (r & Hr & _).
  destruct (Hd _ (Hknown _ Hsp)) as (spd & Hspd & _).
  rewrite (ComputeGhostdag_known fuel k parents spd), Hr by auto.
  destruct r; [|by eexists]. destruct (ClassifyMergeset _ _ _). by eexists.
Qed.
End compute.

(** ** Checking a concrete index *)

Section checks.
Context (st : BlockMap).
#[local] Existing Instance BlockIndexGhostdagProvider.

Definition data_okb : bool :=
  bool_decide (map_Forall (λ h b,
    selected_parent (dagData b) = 0 ∨ selected_parent (dagData b) ∈ Index_GetParents st h) st).

Lemma data_okb_spec : data_okb = true → data_ok (P := BlockIndexGhostdagProvider st) (dom st).
Proof.
  unfold data_okb. rewrite bool_decide_eq_true. intros Hall h [b Hb]%elem_of_dom.
  exists (dagData b). simpl. unfold Index_GetGhostdagData. rewrite Hb. split; [done|].
  exact (Hall h b Hb).
Qed.

Definition scores_okb : bool :=
  bool_decide (map_Forall (λ h b,
    Forall (λ p, score_of (P := BlockIndexGhostdagProvider st) p < blue_score (dagData b))
      (Index_GetParents st h)) st).

Lemma scores_okb_spec :
  scores_okb = true → ScoresOk (H := BlockIndexGhostdagProvider st) (dom st).
Proof.
  unfold scores_okb. rewrite bool_decide_eq_true. intros Hall. split.
  intros h p [b Hb]%elem_of_dom Hp. specialize (Hall h b Hb). rewrite Forall_forall in Hall.
  unfold score_of at 2. simpl. unfold Index_GetGhostdagData. rewrite Hb. by apply Hall.
Qed.

Lemma okb_ProviderOk : index_okb st = true → ProviderOk (H := BlockIndexGhostdagProvider st) (dom st).
Proof. intros (H1 & H2 & H3 & H4)%index_okb_spec. by apply index_ProviderOk. Qed.
End checks.

(** ** Properties *)

Section claims.
Context `{P : IGhostdagBlockProvider} {blocks : gset Z} {Hok : ProviderOk blocks}.

(** The selected parent is a function of the set of parents: any list that names
    the same blocks, in any order and with repetitions, selects the same block; it is
    one of them, no other has a higher blue score, and among those of equal score it
    has the lowest hash. *)
Theorem selected_parent_canonical cs cs' :
  cs ≠ [] → (∀ c, c ∈ cs ↔ c ∈ cs') →
  SelectBestParent cs = SelectBestParent cs' ∧ SelectBestParent cs ∈ cs ∧
  (∀ c, c ∈ cs → score_of c <= score_of (SelectBestParent cs)) ∧
  (∀ c, c ∈ cs → score_of c = score_of (SelectBestParent cs) → SelectBestParent cs <= c).
Proof.
  intros Hne Hext. destruct (SelectBestParent_best cs Hne) as [Hin Hbest].
  split; [by apply SelectBestParent_ext|]. split; [done|].
  split; [by apply SelectBestParent_score|]. intros c Hc Hs.
  destruct (decide (c = SelectBestParent cs)) as [->|Hcne]; [lia|].
  specialize (Hbest c Hc Hcne). unfold better in Hbest.
  rewrite orb_true_iff, andb_true_iff, !Z.ltb_lt in Hbest. lia.
Qed.

(** C3. The mergeset is the one the algorithm defines: when no extra parent is already
    in the past of the selected parent, the search returns within [size blocks] pops,
    and what it returns is, without repetition and sorted by (blue score, hash), exactly
    past(B) without past(sp); it refuses only when that set has at least
    [MAX_MERGESET_SIZE] blocks. *)
Theorem mergeset_exact fuel parents :
  let sp := SelectBestParent parents in
  parents ≠ [] → (∀ p, p ∈ parents → p ∈ blocks) →
  (∀ p, p ∈ parents → p ≠ sp → ¬ past_of sp p) → (size blocks <= fuel)%nat →
  let merged x := (∃ p, p ∈ parents ∧ past_of p x) ∧ ¬ past_of sp x in
  ∃ r, ComputeMergeset fuel parents sp = Some r ∧
    match r with
    | Some ms => NoDup ms ∧ ordered MergesetOrder ms ∧ ∀ x, x ∈ ms ↔ merged x
    | None => ∃ l, NoDup l ∧ MAX_MERGESET_SIZE <= Z.of_nat (length l) ∧ ∀ x, x ∈ l → merged x
    end.
Proof.
  intros sp Hne Hknown Hred Hfuel merged.
  destruct (SelectBestParent_best parents Hne) as [Hsp _]. fold sp in Hsp.
  assert (Hiff : ∀ x, in_mergeset parents sp x ↔ merged x).
  { intros x. unfold in_mergeset, merged. split.
    - intros [Hxs [Hx|[Hanc Hpast]]].
      + split; [exists x; split; [done|reflexivity]|by apply Hred].
      + split; [done|]. intros Hsx. apply not_true_iff_false in Hanc. apply Hanc.
        destruct (ancestor_past sp x sp Hsx (Hknown _ Hsp)) as [_ ?]; [|done].
        apply ok_ancestor. split; [auto|]. split; [auto|]. reflexivity.
    - intros [Hpast Hn]. split; [intros ->; apply Hn; reflexivity|]. right. split; [|done].
      apply not_true_iff_false. intros (_ & _ & ?)%ok_ancestor. done. }
  destruct (ComputeMergeset_spec parents sp Hknown Hsp fuel Hfuel) as (r & Hr & Hspec).
  exists r. split; [done|]. destruct r as [ms|].
  - destruct Hspec as (H1 & H2 & H3 & _). split; [done|]. split; [done|].
    intros x. by rewrite H3, Hiff.
  - destruct Hspec as (l & H1 & H2 & H3). exists l. split; [done|]. split; [done|].
    intros x Hx. by apply Hiff, H3.
Qed.

(** C4. The order of the mergeset is topological: when the served blue scores grow along
    parent edges, every block of the mergeset is listed after all of its past that is in
    the mergeset, so the classification sees a block only after its ancestors. *)
Theorem mergeset_topological (Hsc : ScoresOk blocks) fuel parents sp ms i j x y :
  sp ∈ parents → (∀ p, p ∈ parents → p ∈ blocks) → (size blocks <= fuel)%nat →
  ComputeMergeset fuel parents sp = Some (Some ms) →
  ms !! i = Some x → ms !! j = Some y → x ≠ y → past_of x y → (j < i)%nat.
Proof.
  intros Hsp Hknown Hfuel Hms Hi Hj Hxy Hpast.
  destruct (ComputeMergeset_spec parents sp Hknown Hsp fuel Hfuel) as (r & Hr & Hspec).
  assert (r = Some ms) as -> by congruence. destruct Hspec as (_ & Hord & Hin & _).
  assert (Hx : x ∈ blocks).
  { assert (Hxm : in_mergeset parents sp x) by (apply Hin; by eapply list_elem_of_lookup_2).
    destruct Hxm as [_ [?|(_ & p & Hp & Hpx)]]; [auto|].
    apply Hknown in Hp. clear -Hpx Hp Hok. induction Hpx; eauto using ok_parents. }
  assert (Hlt : score_of y < score_of x).
  { clear -Hpast Hx Hsc Hok Hxy. revert Hx Hxy.
    induction Hpast as [|x z y Hxz Hzy IH]; intros Hx Hxy; [done|].
    pose proof (ok_score x z Hx Hxz). destruct (decide (z = y)) as [->|]; [done|].
    assert (score_of y < score_of z) by (apply IH; [by eapply ok_parents|done]). lia. }
  destruct (decide (j < i)%nat) as [|Hge]; [done|]. exfalso.
  destruct (decide (i = j)) as [->|]; [congruence|].
  pose proof (ordered_lookup MergesetOrder ms i j x y Hord ltac:(lia) Hi Hj) as Ho.
  unfold MergesetOrder in Ho. destruct (Z.eqb_spec (score_of x) (score_of y)); [lia|].
  simpl in Ho. apply Z.ltb_lt in Ho. lia.
Qed.

(** Blues and reds of a result, against the mergeset. *)
Lemma ghostdag_parts fuel k parents d :
  data_ok blocks → parents ≠ [] → (∀ p, p ∈ parents → p ∈ blocks) →
  (size blocks <= fuel)%nat → Z.of_nat (length parents) < MAX_MERGESET_SIZE →
  ComputeGhostdag fuel k parents = Some (Some d) →
  let sp := SelectBestParent parents in
  ∃ spd ms, GetGhostdagData sp = Some spd ∧ ComputeMergeset fuel parents sp = Some (Some ms) ∧ NoDup ms ∧
    (∀ x, x ∈ ms ↔ in_mergeset parents sp x) ∧
    Z.of_nat (length ms) < MAX_MERGESET_SIZE ∧
    ClassifyMergeset k ms (SelectedParentChain k sp) = (mergeset_blues d, mergeset_reds d) ∧
    selected_parent d = sp ∧
    blue_score d = u64 (u64 (blue_score spd + Z.of_nat (length (mergeset_blues d))) + 1).
Proof.
  intros Hd Hne Hknown Hfuel Hlen Hr sp.
  destruct (ComputeGhostdag_inv fuel k parents _ Hd Hne Hknown Hfuel Hr)
    as (spd & Hspd & Hsp & Hm). fold sp in Hspd, Hsp, Hm.
  destruct (ComputeMergeset_spec parents sp Hknown Hsp fuel Hfuel) as (r & Hms & Hspec).
  rewrite Hms in Hm. destruct r as [ms|]; [|done].
  destruct Hm as (blues & reds & Hc & [= ->]). destruct Hspec as (H1 & _ & H3 & H4).
  exists spd, ms. simpl. repeat (split; [by auto|]). done.
Qed.

(** C1. [ComputeGhostdag] on known parents always answers, and a result is right: the
    blues and reds partition the mergeset, the blue score is the selected parent's plus
    the blues plus one, without wrap-around, and it is above the score of every parent. *)
Theorem ghostdag_result fuel k parents :
  data_ok blocks → parents ≠ [] → (∀ p, p ∈ parents → p ∈ blocks) →
  (size blocks <= fuel)%nat → Z.of_nat (length parents) < MAX_MERGESET_SIZE → 0 <= k < 2 ^ 30 →
  let sp := SelectBestParent parents in
  0 <= score_of sp < 2 ^ 64 - MAX_MERGESET_SIZE →
  ∃ r, ComputeGhostdag fuel k parents = Some r ∧ ∀ d, r = Some d →
    selected_parent d = sp ∧ NoDup (mergeset_blues d ++ mergeset_reds d) ∧
    (∀ x, x ∈ mergeset_blues d ++ mergeset_reds d ↔ in_mergeset parents sp x) ∧
    blue_score d = score_of sp + Z.of_nat (length (mergeset_blues d)) + 1 ∧
    (∀ p, p ∈ parents → score_of p < blue_score d).
Proof.
  intros Hd Hne Hknown Hfuel Hlen Hk sp Hs.
  destruct (ComputeGhostdag_total fuel k parents Hd Hknown Hfuel) as [r Hr].
  exists r. split; [done|]. intros d ->.
  destruct (ghostdag_parts fuel k parents d Hd Hne Hknown Hfuel Hlen Hr)
    as (spd & ms & Hspd & _ & Hnd & Hin & Hms & Hc & Hsel & Hscore). fold sp in Hspd, Hin, Hc, Hsel.
  pose proof (SelectedParentChain_length k sp ltac:(lia)) as Hch.
  unfold MAX_MERGESET_SIZE in *.
  destruct (ClassifyMergeset_split _ _ _ _ _ Hc) as (Hsub & _ & Hperm).
  apply sublist_length in Hsub. unfold score_of in Hs. rewrite Hspd in Hs.
  assert (Hb : blue_score d = score_of sp + Z.of_nat (length (mergeset_blues d)) + 1).
  { unfold score_of. rewrite Hscore, Hspd.
    rewrite (wrap_small 64 (blue_score spd + _)), wrap_small; unfold fits; lia. }
  split; [done|]. split; [by rewrite Hperm|]. split; [intros x; by rewrite Hperm, Hin|].
  split; [done|]. intros p Hp. pose proof (SelectBestParent_score parents p Hp) as Hle.
  fold sp in Hle. lia.
Qed.

(** C2. The colouring rule: a block of the mergeset is blue exactly when, of the blues
    known at its turn (the selected-parent chain of depth [2K + 1], then the blues that come
    before it in the order of the mergeset), at most [K] are in its anticone, and red exactly
    when more are.  The mergeset is what [ComputeMergeset] returns, in its order. *)
Theorem ghostdag_colouring fuel k parents d :
  data_ok blocks → parents ≠ [] → (∀ p, p ∈ parents → p ∈ blocks) →
  (size blocks <= fuel)%nat → Z.of_nat (length parents) < MAX_MERGESET_SIZE → 0 <= k < 2 ^ 30 →
  ComputeGhostdag fuel k parents = Some (Some d) →
  let chain := SelectedParentChain k (selected_parent d) in
  ∃ ms, ComputeMergeset fuel parents (selected_parent d) = Some (Some ms) ∧
    ∀ i c, ms !! i = Some c →
      let known := chain ++ blues_before (mergeset_blues d) ms i in
      (c ∈ mergeset_blues d ↔ anticone_size c known <= k) ∧ (c ∈ mergeset_reds d ↔ k < anticone_size c known).
Proof.
  intros Hd Hne Hknown Hfuel Hlen Hk Hr.
  destruct (ghostdag_parts fuel k parents d Hd Hne Hknown Hfuel Hlen Hr)
    as (spd & ms & _ & Ems & Hnd & _ & Hms & Hc & -> & _). cbv zeta. exists ms. split; [done|]. intros i c Hi.
  pose proof (SelectedParentChain_length k (SelectBestParent parents) ltac:(lia)) as Hch.
  unfold MAX_MERGESET_SIZE in *.
  pose proof (ClassifyMergeset_turn _ _ _ _ _ i c Hc Hnd ltac:(lia) Hi) as Ht.
  destruct (Z.leb_spec (anticone_size c (SelectedParentChain k (SelectBestParent parents) ++
    blues_before (mergeset_blues d) ms i)) k); destruct Ht; split; split; intros; done || lia.
Qed.
End claims.

(** ** Witnesses: a block on the tips 2 and 3 of [diamond] *)

Abbreviation diamondP := (BlockIndexGhostdagProvider diamond).

Lemma diamond_data : data_ok (P := diamondP) (dom diamond).
Proof. apply data_okb_spec. vm_compute. reflexivity. Qed.

Lemma diamond_known p : p ∈ [2; 3] → p ∈ dom diamond.
Proof.
  rewrite !elem_of_cons, elem_of_nil. intros [->|[->|[]]]; apply elem_of_dom;
    vm_compute; eauto.
Qed.

Lemma diamond_size : (size (dom diamond) <= 10)%nat.
Proof. vm_compute. lia. Qed.

Lemma selected_parent_canonical_witness :
  SelectBestParent (P := diamondP) [3; 2] = SelectBestParent (P := diamondP) [2; 3; 2] ∧
  SelectBestParent (P := diamondP) [3; 2] = 2.
Proof.
  split; [|vm_compute; reflexivity].
  refine (proj1 (selected_parent_canonical (P := diamondP) [3; 2] [2; 3; 2] _ _)).
  - discriminate.
  - intros c. rewrite !elem_of_cons, elem_of_nil. tauto.
Defined.

Lemma mergeset_exact_witness :
  ComputeMergeset (P := diamondP) 10 [2; 3] 2 = Some (Some [3]) ∧
  ¬ rtc (parent_edge (H := diamondP)) 2 3.
Proof.
  assert (Hn : ¬ rtc (parent_edge (H := diamondP)) 2 3).
  { intros Hp. assert (Ha : IsAncestorOf (IGhostdagBlockProvider := diamondP) 3 2 = true).
    { apply (ok_ancestor (ProviderOk := okb_ProviderOk _ diamond_ok)).
      split; [apply diamond_known; right; left|]. split; [apply diamond_known; left|done]. }
    vm_compute in Ha. discriminate. }
  split; [vm_compute; reflexivity|].
  destruct (mergeset_exact (Hok := okb_ProviderOk _ diamond_ok) 10 [2; 3])
    as (r & Hr & Hspec); [discriminate|exact diamond_known| |exact diamond_size|].
  - intros p Hp Hne. apply elem_of_cons in Hp as [->|Hp]; [by destruct Hne|].
    by apply list_elem_of_singleton in Hp as ->.
  - vm_compute in Hr. injection Hr as <-. destruct Hspec as (_ & _ & H).
    destruct (proj1 (H 3)) as [_ H3]; [left|]. exact H3.
Defined.

(** Block 3, whose parent 5 is merged with it. *)
Definition two_merged : BlockMap :=
  <[5 := dag_entry (Some 3) 2 [] (mkGhostdagData 2 3 [] [] 0)]> diamond.

Lemma two_merged_ok : index_okb two_merged = true.
Proof. vm_compute. reflexivity. Qed.

Lemma mergeset_topological_witness :
  ComputeMergeset (P := BlockIndexGhostdagProvider two_merged) 10 [2; 5] 2 = Some (Some [3; 5]) ∧
  (0 < 1)%nat.
Proof.
  assert (E : ComputeMergeset (P := BlockIndexGhostdagProvider two_merged) 10 [2; 5] 2
              = Some (Some [3; 5])) by (vm_compute; reflexivity).
  split; [exact E|].
  apply (mergeset_topological (Hok := okb_ProviderOk _ two_merged_ok)
    (scores_okb_spec two_merged ltac:(vm_compute; reflexivity)) 10 [2; 5] 2 [3; 5] 1 0 5 3).
  - left.
  - intros p. rewrite !elem_of_cons, elem_of_nil. intros [->|[->|[]]]; apply elem_of_dom;
      vm_compute; eauto.
  - vm_compute. lia.
  - exact E.
  - reflexivity.
  - reflexivity.
  - lia.
  - apply rtc_once. vm_compute. left.
Defined.

Lemma ghostdag_result_witness :
  ∃ d, ComputeGhostdag (P := diamondP) 10 18 [2; 3] = Some (Some d) ∧
       blue_score d = 3 ∧ mergeset_blues d = [3] ∧
       score_of (P := diamondP) 3 < blue_score d.
Proof.
  destruct (ghostdag_result (Hok := okb_ProviderOk _ diamond_ok) 10 18 [2; 3])
    as (r & Hr & H).
  - exact diamond_data.
  - discriminate.
  - exact diamond_known.
  - exact diamond_size.
  - vm_compute. reflexivity.
  - lia.
  - vm_compute. split; [discriminate|reflexivity].
  - vm_compute in Hr. injection Hr as <-.
    exists (mkGhostdagData 3 2 [3] [] 4295032833). split; [vm_compute; reflexivity|].
    split; [reflexivity|]. split; [reflexivity|].
    refine (proj2 (proj2 (proj2 (proj2 (H _ eq_refl)))) 3 _). right. left.
Defined.

Lemma ghostdag_colouring_witness :
  ∃ d, ComputeGhostdag (P := diamondP) 10 18 [2; 3] = Some (Some d) ∧ mergeset_blues d = [3] ∧
    anticone_size (P := diamondP) 3 (SelectedParentChain (P := diamondP) 18 2) = 1 ∧
    (3 ∈ mergeset_blues d ↔ anticone_size (P := diamondP) 3 (SelectedParentChain (P := diamondP) 18 2) <= 18).
Proof.
  destruct (ComputeGhostdag (P := diamondP) 10 18 [2; 3]) as [[d|]|] eqn:E;
    [|vm_compute in E; discriminate..].
  assert (Hd : selected_parent d = 2 ∧ mergeset_blues d = [3])
    by (vm_compute in E; injection E as <-; split; reflexivity).
  exists d. split; [reflexivity|]. split; [exact (proj2 Hd)|]. split; [vm_compute; reflexivity|].
  destruct (ghostdag_colouring (Hok := okb_ProviderOk _ diamond_ok) 10 18 [2; 3] d) as (ms & Ems & H).
  - exact diamond_data.
  - discriminate.
  - exact diamond_known.
  - exact diamond_size.
  - vm_compute. reflexivity.
  - lia.
  - exact E.
  - destruct Hd as [Hs Hb]. rewrite Hs in H, Ems.
    assert (Em : ms = [3]) by (vm_compute in Ems; congruence). rewrite Em in H.
    destruct (H 0%nat 3 eq_refl) as [H3 _]. unfold blues_before in H3. cbn [take] in H3. rewrite filter_nil, app_nil_r in H3.
    exact H3.
Defined.

(** ** Where the code departs from its documentation *)

(** A chain: genesis 1, then 2, then 3. *)
Definition short_chain : BlockMap :=
  list_to_map [
    (1, dag_entry None 0 [] null_data);
    (2, dag_entry (Some 1) 1 [] (mkGhostdagData 1 1 [] [] 0));
    (3, dag_entry (Some 2) 2 [] (mkGhostdagData 2 2 [] [] 0))].

(** [ComputeMergeset] queues the extra parents without asking whether the selected
    parent already covers them.  Naming 2, an ancestor of the selected parent 3, as an
    extra parent adds nothing to the past of the block, yet 2 enters the mergeset as a
    blue and raises both the blue score and the blue work. *)
Theorem redundant_parent_inflates :
  let P := BlockIndexGhostdagProvider short_chain in
  index_okb short_chain = true ∧ data_okb short_chain = true ∧ scores_okb short_chain = true ∧
  IsAncestorOf 2 3 = true ∧
  ∃ d d', ComputeGhostdag 10 18 [3] = Some (Some d) ∧
          ComputeGhostdag 10 18 [3; 2] = Some (Some d') ∧
          selected_parent d = 3 ∧ selected_parent d' = 3 ∧ mergeset_blues d' = [2] ∧
          blue_score d = 3 ∧ blue_score d' = 4 ∧ blue_work d < blue_work d'.
Proof.
  intros P. repeat (split; [vm_compute; reflexivity|]).
  exists (mkGhostdagData 3 3 [] [] 0), (mkGhostdagData 4 3 [2] [] 4295032833).
  repeat (split; [vm_compute; reflexivity|]). vm_compute. reflexivity.
Qed.

(** The selected chain 1, 2, 3; beside it the block 4, and the chain 5, 6. *)
Definition three_branches : BlockMap :=
  list_to_map [
    (1, dag_entry None 0 [] null_data);
    (2, dag_entry (Some 1) 1 [] (mkGhostdagData 1 1 [] [] 0));
    (3, dag_entry (Some 2) 2 [] (mkGhostdagData 2 2 [] [] 0));
    (4, dag_entry (Some 1) 1 [] (mkGhostdagData 1 1 [] [] 0));
    (5, dag_entry (Some 1) 1 [] (mkGhostdagData 1 1 [] [] 0));
    (6, dag_entry (Some 5) 2 [] (mkGhostdagData 2 5 [] [] 0))].

(** [K] does not bound the anticone of a blue block: the test counts only the blues
    met so far and never re-examines an earlier blue.  With [K = 3] block 4 stays blue
    although four blues, 2, 3, 5 and 6, are in its anticone. *)
Theorem blue_anticone_exceeds_k :
  let P := BlockIndexGhostdagProvider three_branches in
  index_okb three_branches = true ∧ data_okb three_branches = true ∧
  scores_okb three_branches = true ∧
  ∃ d, ComputeGhostdag 10 3 [3; 4; 6] = Some (Some d) ∧
       mergeset_blues d = [4; 5; 6] ∧ mergeset_reds d = [] ∧
       anticone_size 4 (SelectedParentChain 3 (selected_parent d) ++ mergeset_blues d) = 4.
Proof.
  intros P. repeat (split; [vm_compute; reflexivity|]).
  exists (mkGhostdagData 6 3 [4; 5; 6] [] 12885098499).
  repeat (split; [vm_compute; reflexivity|]). vm_compute. reflexivity.
Qed.

(** Blue work counts neither the block itself nor its selected parent: a block with
    a single parent inherits its parent's blue work unchanged, so on a chain without
    merges every block has the blue work of genesis, zero, whatever proof of work it
    carries, and the tie-break of the work comparator sees only merged blocks. *)
Theorem single_parent_blue_work `{P : IGhostdagBlockProvider} {blocks : gset Z}
    {Hok : ProviderOk blocks} fuel k p d :
  data_ok blocks → p ∈ blocks → GetGhostdagData p = Some d → fits 64 (blue_score d) →
  ComputeGhostdag fuel k [p] =
    Some (Some (mkGhostdagData (u64 (blue_score d + 1)) p [] [] (blue_work d))).
Proof.
  intros Hd Hp Hpd Hfit.
  rewrite (ComputeGhostdag_known fuel k [p] d Hd) by done.
  change (SelectBestParent [p]) with p. unfold ComputeMergeset, mergeset_seed. simpl.
  unfold seed_parent. simpl. rewrite Z.eqb_refl. simpl.
  replace (mergeset_loop fuel p (mkBfs {[p]} [] [])) with (Some (Some (@nil Z)))
    by (by destruct fuel).
  simpl. rewrite Z.add_0_r, (wrap_small 64 (blue_score d)) by done. done.
Qed.

(** ** The virtual selected-parent chain *)

Section virtual_chain.
Context `{P : IGhostdagBlockProvider} {blocks : gset Z} {Hok : ProviderOk blocks}.

Definition data_sp (x : Z) : Z :=
  match GetGhostdagData x with Some d => selected_parent d | None => 0 end.

(** Each block of the list is followed by its selected parent, and scores fall. *)
Definition sp_linked (l : list Z) : Prop :=
  (∀ i x y, l !! i = Some x → l !! S i = Some y → y = data_sp x) ∧
  StronglySorted (λ x y, score_of y < score_of x) l.

Definition below (cur : Z) : gset Z := filter (λ b, score_of b <= score_of cur) blocks.

Lemma below_parent cur y :
  y ∈ blocks → cur ∈ blocks → score_of y < score_of cur → (size (below y) < size (below cur))%nat.
Proof.
  intros Hy Hcur Hlt. apply subset_size. split.
  - intros z. unfold below. rewrite !elem_of_filter. intros [? ?]. split; [lia|done].
  - intros Hsub. assert (Hin : cur ∈ below cur) by (apply elem_of_filter; split; [lia|done]).
    apply Hsub, elem_of_filter in Hin as [? _]. lia.
Qed.

Lemma virtual_chain_loop_spec (Hsc : ScoresOk blocks) fuel depth n cur :
  data_ok blocks → cur ∈ blocks → (size (below cur) <= fuel)%nat → 0 <= n →
  ∃ l, virtual_chain_loop fuel depth n cur = Some (cur :: l) ∧ sp_linked (cur :: l) ∧
    ∃ g, last (cur :: l) = Some g ∧
         (data_sp g = 0 ∨ (0 < depth <= n + Z.of_nat (length (cur :: l)))) ∧
    (0 < depth → n < depth → n + Z.of_nat (length (cur :: l)) <= depth).
Proof.
  intros Hd. revert n cur. induction fuel as [|fuel IH]; intros n cur Hcur Hf Hn.
  { exfalso. assert (Hin : cur ∈ below cur) by (apply elem_of_filter; split; [lia|done]).
    assert (Hz : size (below cur) = 0%nat) by lia. apply size_empty_inv in Hz. set_solver. }
  assert (Hnz : cur ≠ 0) by (intros ->; by apply ok_null in Hcur). cbn [virtual_chain_loop].
  unfold IsNull. destruct (Z.eqb_spec cur 0); [done|].
  assert (Hone : sp_linked [cur]) by (split; [by intros [|i]|repeat constructor]).
  destruct ((0 <? depth) && (depth <=? n + 1)) eqn:Edep.
  { apply andb_true_iff in Edep as [?%Z.ltb_lt ?%Z.leb_le]. exists []. split; [done|].
    split; [done|]. exists cur. simpl. split; [done|]. split; [right; lia|lia]. }
  destruct (Hd cur Hcur) as (d & Hdc & Hsp). rewrite Hdc.
  assert (Edsp : data_sp cur = selected_parent d) by (unfold data_sp; by rewrite Hdc).
  assert (Hdep : 0 < depth → n + 1 < depth).
  { intros H0. apply andb_false_iff in Edep as [?%Z.ltb_ge|?%Z.leb_gt]; lia. }
  destruct (Z.eqb_spec (selected_parent d) 0) as [E|E].
  { exists []. split; [done|]. split; [done|]. exists cur. split; [done|].
    split; [left; by rewrite Edsp|simpl; lia]. }
  destruct Hsp as [?|Hpar]; [done|].
  assert (Hpb : selected_parent d ∈ blocks) by (by eapply ok_parents).
  pose proof (ok_score _ _ Hcur Hpar) as Hlt.
  pose proof (below_parent cur _ Hpb Hcur Hlt).
  destruct (IH (n + 1) (selected_parent d)) as (l & Hl & [Hlink Hsort] & g & Hg & Hend & Hlen);
    [done|lia|lia|]. rewrite Hl. simpl.
  exists (selected_parent d :: l). split; [done|]. split; [split|].
  - intros [|i] x y Hx Hy; simplify_eq/=; [done|]. by eapply Hlink.
  - constructor; [done|]. constructor; [done|].
    apply StronglySorted_inv in Hsort as [_ Hall]. eapply Forall_impl; [done|].
    intros z Hz. simpl in *. lia.
  - exists g. split; [by rewrite <- Hg|]. split.
    + destruct Hend as [?|Hend]; [by left|right]. cbn [length] in *. lia.
    + intros H1 H2. specialize (Hlen H1 (Hdep H1)). cbn [length] in *. lia.
Qed.

(** The chain reported for the virtual block terminates and is the selected-parent
    chain: when the virtual block can be computed it starts at the best tip, every block
    is followed by its selected parent, scores strictly fall, it never exceeds a
    positive depth limit and stops early only at a block without selected parent. *)
Theorem virtual_chain_correct (Hsc : ScoresOk blocks) fuel k tips depth vd :
  data_ok blocks → tips ≠ [] → (∀ p, p ∈ tips → p ∈ blocks) → (size blocks <= fuel)%nat →
  0 <= depth → ComputeVirtual fuel k tips = Some (Some vd) →
  ∃ l, ComputeVirtualSelectedParentChain fuel k tips depth = Some l ∧
    head l = Some (SelectBestParent tips) ∧ sp_linked l ∧
    (0 < depth → Z.of_nat (length l) <= depth) ∧
    ∃ g, last l = Some g ∧ (data_sp g = 0 ∨ 0 < depth ∧ Z.of_nat (length l) = depth).
Proof.
  intros Hd Hne Hknown Hfuel Hdep Hv.
  destruct (ComputeGhostdag_inv fuel k tips _ Hd Hne Hknown Hfuel Hv) as (spd & _ & Hsp & Hm).
  assert (Hsel : selected_parent vd = SelectBestParent tips).
  { destruct (ComputeMergeset fuel tips (SelectBestParent tips)) as [[ms|]|]; [|done..].
    by destruct Hm as (blues & reds & _ & [= ->]). }
  unfold ComputeVirtualSelectedParentChain. rewrite Hv, Hsel. apply Hknown in Hsp.
  assert (Hnz : SelectBestParent tips ≠ 0) by (intros E; rewrite E in Hsp; by apply ok_null in Hsp).
  unfold IsNull. destruct (Z.eqb_spec (SelectBestParent tips) 0); [done|].
  destruct (virtual_chain_loop_spec Hsc fuel depth 0 _ Hd Hsp) as (l & Hl & Hlink & g & Hg & He & Hn);
    [|lia|].
  { etrans; [|exact Hfuel]. apply subseteq_size. intros z. unfold below.
    rewrite elem_of_filter. tauto. }
  exists (SelectBestParent tips :: l). split; [done|]. split; [done|]. split; [done|].
  split; [lia|]. exists g. split; [done|]. destruct He; [by left|right; lia].
Qed.
End virtual_chain.

Lemma virtual_chain_correct_witness :
  ComputeVirtualSelectedParentChain (P := diamondP) 10 18 [4] 2 = Some [4; 2] ∧
  sp_linked (P := diamondP) [4; 2].
Proof.
  assert (E : ComputeVirtualSelectedParentChain (P := diamondP) 10 18 [4] 2 = Some [4; 2])
    by (vm_compute; reflexivity).
  split; [exact E|].
  assert (Hs : scores_okb diamond = true) by (vm_compute; reflexivity).
  destruct (virtual_chain_correct (Hok := okb_ProviderOk _ diamond_ok)
    (scores_okb_spec diamond Hs) 10 18 [4] 2 (mkGhostdagData 4 4 [] [] 4295032833))
    as (l & Hl & _ & Hlink & _).
  - exact diamond_data.
  - discriminate.
  - intros p ->%list_elem_of_singleton. apply elem_of_dom. vm_compute. eauto.
  - exact diamond_size.
  - lia.
  - vm_compute. reflexivity.
  - rewrite E in Hl. injection Hl as <-. exact Hlink.
Defined.
