(* ===== verification/Topo.v ===== *)
(** The topological order of the DAG: [GhostdagManager::TopologicalOrder] of
    src/src/dag/ghostdag.cpp, Kahn's algorithm over a priority queue.

    [all_blocks] is a [std::unordered_set], modelled as the duplicate-free list of its
    iteration; the theorems hold for every such list.  The priority queue is a sorted
    list, so [top] is its head.  The outer loop pops one block per iteration and takes
    fuel; as many pops as there are blocks are enough. *)

From S2P Require Import Prelude OrdSet TipSet Arith256 Ghostdag Mergeset BlockIndex.
From S2P Require Import BlockIndexProvider GhostdagProps.

(** ** Definitions *)

(** The order of [std::greater<Entry>]'s queue: the least pair is on top. *)
Definition EntryOrder (a b : Z * Z) : bool :=
  if negb (a.1 =? b.1) then a.1 <? b.1 else a.2 <? b.2.

Fixpoint pq_push (x : Z * Z) (pq : list (Z * Z)) : list (Z * Z) :=
  match pq with
  | [] => [x]
  | y :: pq' => if EntryOrder y x then y :: pq_push x pq' else x :: pq
  end.

Section topo.
Context `{P : IGhostdagBlockProvider}.

Abbreviation degrees := (gmap Z Z).
Abbreviation child_map := (gmap Z (list Z)).

(** One parent of [h] while the in-degrees are counted. *)
Definition add_edge (all_blocks : list Z) (h : Z) (st : degrees * child_map) (p : Z)
    : degrees * child_map :=
  if bool_decide (p ∈ all_blocks)
  then (<[h := default 0 (st.1 !! h) + 1]> st.1, <[p := default [] (st.2 !! p) ++ [h]]> st.2)
  else st.

Definition add_block (all_blocks : list Z) (st : degrees * child_map) (h : Z)
    : degrees * child_map :=
  let in_degree := match st.1 !! h with None => <[h := 0]> st.1 | Some _ => st.1 end in
  foldl (add_edge all_blocks h) (in_degree, st.2) (GetParents h).

Definition build_edges (all_blocks : list Z) : degrees * child_map :=
  foldl (add_block all_blocks) (∅, ∅) all_blocks.

(** The queue of the blocks without a parent in the set. *)
Definition init_queue (in_degree : degrees) : list (Z * Z) :=
  foldl (λ pq hd, if hd.2 =? 0 then pq_push (score_of hd.1, hd.1) pq else pq)
        [] (map_to_list in_degree).

Definition release_child (st : degrees * list (Z * Z)) (child : Z)
    : degrees * list (Z * Z) :=
  let deg := default 0 (st.1 !! child) - 1 in
  (<[child := deg]> st.1, if deg =? 0 then pq_push (score_of child, child) st.2 else st.2).

Fixpoint topo_loop (fuel : nat) (in_degree : degrees) (children : child_map)
    (pq : list (Z * Z)) (order : list Z) : option (list Z) :=
  match pq with
  | [] => Some order
  | (_, h) :: pq1 =>
      match fuel with
      | O => None
      | S fuel' =>
          let '(in_degree', pq') :=
            foldl release_child (in_degree, pq1) (default [] (children !! h)) in
          topo_loop fuel' in_degree' children pq' (order ++ [h])
      end
  end.

Definition TopologicalOrder (fuel : nat) (all_blocks : list Z) : option (list Z) :=
  let '(in_degree, children) := build_edges all_blocks in
  topo_loop fuel in_degree children (init_queue in_degree) [].
End topo.

(** ** The priority queue *)

#[export] Instance EntryOrder_strict : StrictTotal EntryOrder.
Proof.
  split; unfold EntryOrder.
  - intros [a b]. simpl. rewrite Z.eqb_refl. simpl. apply Z.ltb_irrefl.
  - intros [a b] [c d] [e f]; simpl; intros H1 H2; guards;
      first [apply Z.ltb_lt; lia | lia].
  - intros [a b] [c d]; simpl; intros H1 H2; guards; try lia; f_equal; lia.
Qed.

(** Pushing an entry that is not queued is insertion into an ordered set. *)
Lemma pq_push_emplace x pq : x ∉ pq → pq_push x pq = set_emplace EntryOrder x pq.
Proof.
  induction pq as [|y pq IH]; [done|]. intros [Hxy Hx]%not_elem_of_cons. simpl.
  destruct (EntryOrder x y) eqn:Exy.
  - by rewrite (st_asym EntryOrder x y Exy).
  - destruct (EntryOrder y x) eqn:Eyx; [by rewrite IH|].
    by pose proof (st_total x y Exy Eyx).
Qed.

Lemma pq_push_spec x pq :
  ordered EntryOrder pq → x ∉ pq →
  ordered EntryOrder (pq_push x pq) ∧ ∀ y, y ∈ pq_push x pq ↔ y = x ∨ y ∈ pq.
Proof.
  intros Hpq Hx. rewrite pq_push_emplace by done. split; [auto with qbtc|].
  intros y. by rewrite elem_of_set_emplace by (done || apply _).
Qed.

(** ** Counting edges *)

Definition count (x : Z) (l : list Z) : Z := Z.of_nat (length (filter (x =.) l)).

Lemma count_cons x y l : count x (y :: l) = (if decide (x = y) then 1 else 0) + count x l.
Proof. unfold count. rewrite filter_cons. case_decide; simpl; lia. Qed.

Lemma count_app x l k : count x (l ++ k) = count x l + count x k.
Proof. unfold count. rewrite filter_app, length_app. lia. Qed.

Lemma count_nonneg x l : 0 <= count x l.
Proof. unfold count. lia. Qed.

Lemma count_pos x l : x ∈ l ↔ 0 < count x l.
Proof.
  induction l as [|y l IH]; [unfold count; simpl; rewrite elem_of_nil; lia|].
  rewrite elem_of_cons, count_cons, IH. pose proof (count_nonneg x l).
  case_decide; [subst; split; [lia|by left]|]. split; [intros [?|?]; [done|lia]|]. right. lia.
Qed.

Section edges.
Context `{P : IGhostdagBlockProvider} (all_blocks : list Z).

(** The parents of [h] that are in the set, with repetitions. *)
Definition edges (h : Z) : list Z := filter (.∈ all_blocks) (GetParents h).

(** Parents of [h] not yet in the order. *)
Definition missing (order : list Z) (h : Z) : Z :=
  Z.of_nat (length (filter (.∉ order) (edges h))).

Lemma missing_nonneg order h : 0 <= missing order h.
Proof. unfold missing. lia. Qed.

Lemma missing_zero order h : missing order h = 0 ↔ ∀ p, p ∈ edges h → p ∈ order.
Proof.
  unfold missing. split.
  - intros H p Hp. destruct (decide (p ∈ order)) as [|Hn]; [done|]. exfalso.
    assert (Hin : p ∈ filter (.∉ order) (edges h)) by (by apply list_elem_of_filter).
    destruct (filter _ _); [by apply elem_of_nil in Hin|]. simpl in H. lia.
  - intros H. assert (filter (.∉ order) (edges h) = []) as ->; [|done].
    apply elem_of_nil_inv. intros p [Hp1 Hp2]%list_elem_of_filter. by apply Hp1, H.
Qed.

Lemma missing_nil h : missing [] h = Z.of_nat (length (edges h)).
Proof.
  unfold missing. do 2 f_equal. induction (edges h) as [|p l IH]; [done|].
  rewrite filter_cons, decide_True by apply not_elem_of_nil. by rewrite IH.
Qed.

Lemma missing_snoc order x h :
  x ∉ order → missing (order ++ [x]) h = missing order h - count x (edges h).
Proof.
  intros Hx. unfold missing, count. induction (edges h) as [|p l IH]; [done|].
  rewrite !filter_cons. destruct (decide (p ∉ order ++ [x])) as [H1|H1];
    rewrite not_elem_of_app, list_elem_of_singleton in H1;
    destruct (decide (p ∉ order)) as [H2|H2]; destruct (decide (x = p)) as [->|Hne];
    simpl; first [lia | exfalso; naive_solver].
Qed.

(** *** Building the graph *)

Lemma add_edges_spec h ps deg ch :
  is_Some (deg !! h) →
  let es := filter (.∈ all_blocks) ps in
  let st' := foldl (add_edge all_blocks h) (deg, ch) ps in
  (∀ x, st'.1 !! x = if decide (x = h) then Some (default 0 (deg !! h) + Z.of_nat (length es))
                     else deg !! x) ∧
  (∀ p x, count x (default [] (st'.2 !! p)) =
          count x (default [] (ch !! p)) + if decide (x = h) then count p es else 0).
Proof.
  revert deg ch. induction ps as [|q ps IH]; intros deg ch [v Hv]; simpl.
  { split; [intros x|intros p x]; case_decide; subst; rewrite ?Hv; simpl;
      by rewrite ?Z.add_0_r. }
  unfold add_edge at 2 4. simpl. rewrite filter_cons.
  case_bool_decide as Hq; [rewrite decide_True by done|rewrite decide_False by done].
  - edestruct (IH (<[h := default 0 (deg !! h) + 1]> deg)
      (<[q := default [] (ch !! q) ++ [h]]> ch)) as [H1 H2]; [by rewrite lookup_insert_eq|].
    split; [intros x; rewrite H1|intros p x; rewrite H2].
    + rewrite lookup_insert_eq. case_decide; [subst; simpl; f_equal; lia|].
      by rewrite lookup_insert_ne by done.
    + rewrite count_cons. destruct (decide (p = q)) as [->|Hpq].
      * rewrite lookup_insert_eq. simpl. rewrite count_app, count_cons.
        unfold count at 2. simpl. destruct (decide (x = h)); lia.
      * rewrite lookup_insert_ne by done. destruct (decide (x = h)); lia.
  - apply IH. by exists v.
Qed.

(** After the blocks of a duplicate-free list have been added. *)
Lemma add_blocks_spec l :
  NoDup l →
  let st := foldl (add_block all_blocks) (∅, ∅) l in
  (∀ x, st.1 !! x = if decide (x ∈ l) then Some (missing [] x) else None) ∧
  (∀ p x, count x (default [] (st.2 !! p)) = if decide (x ∈ l) then count p (edges x) else 0).
Proof.
  induction l as [|h l IH] using rev_ind; intros Hnd.
  { split; [intros x|intros p x]; rewrite decide_False by apply not_elem_of_nil; simpl;
      by rewrite lookup_empty. }
  apply NoDup_app in Hnd as (Hnd & Hh & _). rewrite foldl_snoc.
  destruct (IH Hnd) as [H1 H2]. clear IH.
  destruct (foldl (add_block all_blocks) (∅, ∅) l) as [deg ch]. simpl in *.
  assert (Hhl : h ∉ l) by (intros ?; eapply Hh; [done|by left]).
  assert (Hdeg : deg !! h = None) by (by rewrite H1, decide_False).
  unfold add_block. simpl. rewrite Hdeg.
  destruct (add_edges_spec h (GetParents h) (<[h := 0]> deg) ch) as [G1 G2];
    [by rewrite lookup_insert_eq|]. cbv zeta in *. fold (edges h) in G1, G2.
  split; [intros x; rewrite G1|intros p x; rewrite G2].
  - rewrite lookup_insert_eq. simpl. destruct (decide (x = h)) as [->|Hne].
    + rewrite decide_True by (apply elem_of_app; right; by left). by rewrite missing_nil.
    + rewrite lookup_insert_ne, H1 by done.
      apply decide_ext. rewrite elem_of_app, list_elem_of_singleton. tauto.
  - rewrite H2. destruct (decide (x = h)) as [->|Hne].
    + rewrite decide_False by done. rewrite decide_True by (apply elem_of_app; right; by left).
      lia.
    + rewrite Z.add_0_r. apply decide_ext. rewrite elem_of_app, list_elem_of_singleton. tauto.
Qed.
End edges.

(** ** The loop *)

Lemma list_least {A} (lt : A → A → bool) `{!StrictTotal lt} (l : list A) :
  l ≠ [] → ∃ m, m ∈ l ∧ ∀ y, y ∈ l → y = m ∨ lt m y = true.
Proof.
  induction l as [|x l IH]; [done|]. intros _. destruct l as [|x' l'].
  { exists x. split; [by left|]. intros y ->%list_elem_of_singleton. by left. }
  destruct IH as (m & Hm & Hmin); [done|]. destruct (lt x m) eqn:E.
  - exists x. split; [by left|]. intros y [->|Hy]%elem_of_cons; [by left|]. right.
    destruct (Hmin y Hy) as [->|]; [done|]. by eapply st_trans.
  - exists m. split; [by right|]. intros y [->|Hy]%elem_of_cons; [|auto].
    destruct (lt m x) eqn:E2; [by right|]. left. by apply (st_total x m).
Qed.

Section loop.
Context `{P : IGhostdagBlockProvider}.

Lemma EntryOrder_scores x y :
  EntryOrder (score_of x, x) (score_of y, y) = MergesetOrder x y.
Proof. reflexivity. Qed.

(** Releasing the children of a popped block. *)
Lemma release_children_spec l deg pq :
  ordered EntryOrder pq → (∀ c, c ∈ l → (score_of c, c) ∉ pq) →
  (∀ c, count c l <= default 0 (deg !! c)) →
  let st' := foldl release_child (deg, pq) l in
  (∀ c, default 0 (st'.1 !! c) = default 0 (deg !! c) - count c l) ∧
  ordered EntryOrder st'.2 ∧
  (∀ s x, (s, x) ∈ st'.2 ↔
     (s, x) ∈ pq ∨ (s = score_of x ∧ x ∈ l ∧ default 0 (deg !! x) = count x l)).
Proof.
  revert deg pq. induction l as [|c l IH]; intros deg pq Hpq Hfresh Hle; simpl.
  { split; [intros c; unfold count; simpl; lia|]. split; [done|]. intros s x.
    rewrite elem_of_nil. tauto. }
  unfold release_child at 2 4 6. simpl.
  set (deg1 := <[c := default 0 (deg !! c) - 1]> deg).
  set (pq1 := if default 0 (deg !! c) - 1 =? 0 then pq_push (score_of c, c) pq else pq).
  assert (Hdeg1 : ∀ x, default 0 (deg1 !! x) =
    default 0 (deg !! x) - if decide (x = c) then 1 else 0).
  { intros x. unfold deg1. destruct (decide (x = c)) as [->|].
    - by rewrite lookup_insert_eq.
    - rewrite lookup_insert_ne by done. lia. }
  assert (Hpq1 : ordered EntryOrder pq1 ∧ ∀ y, y ∈ pq1 ↔
    y ∈ pq ∨ (y = (score_of c, c) ∧ default 0 (deg !! c) = 1)).
  { unfold pq1. destruct (Z.eqb_spec (default 0 (deg !! c) - 1) 0).
    - destruct (pq_push_spec (score_of c, c) pq) as [H1 H2]; [done|apply Hfresh; by left|].
      split; [done|]. intros y. rewrite H2. split; [|intuition].
      intros [->|?]; [right; split; [done|lia]|by left].
    - split; [done|]. intros y. split; [by left|]. intros [?|[_ ?]]; [done|lia]. }
  destruct Hpq1 as [Hord Hin].
  destruct (IH deg1 pq1) as (G1 & G2 & G3); [done| | |].
  - intros x Hx Hq. apply Hin in Hq as [Hq|[Heq Hc]].
    + eapply Hfresh; [by right|done].
    + assert (x = c) as -> by congruence. specialize (Hle c).
      rewrite count_cons, decide_True in Hle by done. apply count_pos in Hx. lia.
  - intros x. rewrite Hdeg1. specialize (Hle x). rewrite count_cons in Hle.
    destruct (decide (x = c)); lia.
  - cbv zeta in *. split; [|split; [done|]].
    + intros x. rewrite G1, Hdeg1, count_cons. destruct (decide (x = c)); lia.
    + intros s x. rewrite G3, Hin, Hdeg1, elem_of_cons, count_cons.
      pose proof (count_pos x l). pose proof (count_nonneg x l).
      destruct (decide (x = c)) as [->|Hne].
      * split.
        -- intros [[?|[[= ->] ?]]|(-> & ? & ?)]; [by left|right..].
           ++ split; [done|]. split; [by left|]. specialize (Hle c).
              rewrite count_cons, decide_True in Hle by done. lia.
           ++ split; [done|]. split; [by left|lia].
        -- intros [?|(-> & _ & Hc)]; [by auto|].
           destruct (decide (c ∈ l)) as [Hl|Hl]; [right; split; [done|]; split; [done|lia]|].
           left. right. split; [done|]. assert (¬ 0 < count c l) by tauto. lia.
      * rewrite Z.sub_0_r. split.
        -- intros [[?|[[= -> ->] ?]]|(-> & ? & ?)]; [by left|done|].
           right. split; [done|]. split; [by right|lia].
        -- intros [?|(-> & [?|?] & ?)]; [by auto|done|]. right. split; [done|]. split; [done|lia].
Qed.

Context (all_blocks : list Z) (children : gmap Z (list Z)).

Record topo_inv (deg : gmap Z Z) (pq : list (Z * Z)) (order : list Z) : Prop := {
  ti_nodup : NoDup order;
  ti_sub x : x ∈ order → x ∈ all_blocks;
  ti_deg x : default 0 (deg !! x) =
             if decide (x ∈ all_blocks) then missing all_blocks order x else 0;
  ti_done x : x ∈ order → missing all_blocks order x = 0;
  ti_pq : ordered EntryOrder pq;
  ti_ready s x : (s, x) ∈ pq ↔ s = score_of x ∧ x ∈ all_blocks ∧ x ∉ order ∧
                                missing all_blocks order x = 0
}.

Hypothesis children_edges : ∀ p x, count x (default [] (children !! p)) =
  if decide (x ∈ all_blocks) then count p (edges all_blocks x) else 0.

(** A block is not its own parent. *)
Hypothesis no_self : ∀ x, x ∈ all_blocks → x ∉ GetParents x.

Lemma missing_grows order h x :
  h ∉ order → missing all_blocks order x = 0 → missing all_blocks (order ++ [h]) x = 0.
Proof.
  intros Hh Hx. pose proof (missing_snoc all_blocks order h x Hh).
  pose proof (missing_nonneg all_blocks (order ++ [h]) x).
  pose proof (count_nonneg h (edges all_blocks x)). lia.
Qed.

(** The blocks ready after [h] is emitted: those ready before, and those that waited
    for [h] only. *)
Lemma ready_after order h x :
  h ∈ all_blocks → h ∉ order → missing all_blocks order h = 0 →
  (∀ y, y ∈ order → missing all_blocks order y = 0) → x ∈ all_blocks →
  (x ∉ order ∧ x ≠ h ∧ missing all_blocks (order ++ [h]) x = 0) ↔
  (x ∉ order ∧ x ≠ h ∧ missing all_blocks order x = 0) ∨
  (h ∈ edges all_blocks x ∧ missing all_blocks order x = count h (edges all_blocks x)).
Proof.
  intros Hh Hnew Hm Hdone Hx. pose proof (missing_snoc all_blocks order h x Hnew) as Hs. split.
  - intros (H1 & H2 & H3). destruct (decide (h ∈ edges all_blocks x)) as [He|He].
    + right. split; [done|lia].
    + left. split; [done|]. split; [done|]. rewrite count_pos in He.
      pose proof (count_nonneg h (edges all_blocks x)). lia.
  - intros [(H1 & H2 & H3)|[H1 H2]].
    + split; [done|]. split; [done|]. by apply missing_grows.
    + split; [|split; [|lia]].
      * intros Ho%Hdone. rewrite missing_zero in Ho. by apply Hnew, Ho.
      * intros ->. apply list_elem_of_filter in H1 as [_ H1]. by eapply no_self.
Qed.

Lemma topo_step deg pq order s h :
  topo_inv deg ((s, h) :: pq) order →
  let st' := foldl release_child (deg, pq) (default [] (children !! h)) in
  h ∈ all_blocks ∧ h ∉ order ∧ topo_inv st'.1 st'.2 (order ++ [h]).
Proof.
  intros [Hnd Hsub Hdeg Hdone Hpq Hready].
  destruct (proj1 (Hready s h)) as (-> & Hall & Hnew & Hm); [by left|].
  apply StronglySorted_inv in Hpq as [Hpq Htop]. rewrite Forall_forall in Htop.
  assert (Hnin : (score_of h, h) ∉ pq).
  { intros Hin%Htop. by rewrite st_irrefl in Hin. }
  assert (Hch : ∀ x, x ∈ default [] (children !! h) → x ∈ all_blocks ∧ h ∈ edges all_blocks x).
  { intros x Hx%count_pos. rewrite children_edges in Hx. case_decide; [|lia].
    split; [done|]. by apply count_pos. }
  destruct (release_children_spec (default [] (children !! h)) deg pq Hpq) as (G1 & G2 & G3).
  - intros x (Hx & Hhx)%Hch Hin. apply (list_elem_of_further _ (score_of h, h)) in Hin.
    apply Hready in Hin as (_ & _ & _ & Hz). rewrite missing_zero in Hz. by apply Hnew, Hz.
  - intros x. rewrite children_edges, Hdeg. case_decide as Hx; [|done].
    pose proof (missing_snoc all_blocks order h x Hnew).
    pose proof (missing_nonneg all_blocks (order ++ [h]) x). lia.
  - cbv zeta. split; [done|]. split; [done|]. constructor.
    + apply NoDup_app. split; [done|]. split; [|apply NoDup_singleton].
      intros x Hx ->%list_elem_of_singleton. done.
    + intros x [?| ->%list_elem_of_singleton]%elem_of_app; auto.
    + intros x. rewrite G1, Hdeg, children_edges. case_decide; [|done].
      by rewrite missing_snoc.
    + intros x [Hx| ->%list_elem_of_singleton]%elem_of_app; apply missing_grows; auto.
    + done.
    + intros s x. rewrite G3, not_elem_of_app, list_elem_of_singleton.
      pose proof (Hready s x) as Hr. rewrite elem_of_cons in Hr.
      rewrite Hdeg, count_pos, children_edges.
      destruct (decide (x ∈ all_blocks)) as [Hx|Hx]; cycle 1.
      { assert (¬ 0 < 0) by lia. clear -Hr Hx H. tauto. }
      pose proof (ready_after order h x Hall Hnew Hm Hdone Hx) as Hafter.
      rewrite (count_pos h) in Hafter.
      destruct (decide (x = h)) as [->|Hxh].
      * assert ((s, h) ∉ pq)
          by (intros Hin; apply Hnin; by destruct (proj1 Hr (or_intror Hin)) as [<- _]).
        clear -Hafter H Hnew. tauto.
      * assert (Hne : (s, x) ≠ (score_of h, h)) by congruence.
        clear -Hr Hafter Hx Hxh Hne. tauto.
Qed.

(** ** The result *)

Hypothesis all_nodup : NoDup all_blocks.
Hypothesis scores_grow : ∀ h p, h ∈ all_blocks → p ∈ all_blocks → p ∈ GetParents h →
  score_of p < score_of h.

(** Everything emitted precedes everything that is left. *)
Definition emitted_least (order : list Z) : Prop :=
  ordered MergesetOrder order ∧
  ∀ x y, x ∈ order → y ∈ all_blocks → y ∉ order → MergesetOrder x y = true.

Lemma score_MergesetOrder p h : score_of p < score_of h → MergesetOrder p h = true.
Proof.
  intros H. unfold MergesetOrder. destruct (Z.eqb_spec (score_of p) (score_of h)); [lia|].
  simpl. by apply Z.ltb_lt.
Qed.

(** The least block that is left is ready. *)
Lemma least_ready order m :
  m ∈ all_blocks → (∀ y, y ∈ all_blocks → y ∉ order → y = m ∨ MergesetOrder m y = true) →
  missing all_blocks order m = 0.
Proof.
  intros Hm Hleast. apply missing_zero. intros p [Hp Hpm]%list_elem_of_filter.
  destruct (decide (p ∈ order)) as [|Hn]; [done|]. exfalso.
  pose proof (scores_grow m p Hm Hp Hpm) as Hlt.
  destruct (Hleast p Hp Hn) as [->|Hmp]; [lia|].
  apply (st_asym MergesetOrder) in Hmp. by rewrite score_MergesetOrder in Hmp.
Qed.

Lemma left_least (order : list Z) :
  (∃ x, x ∈ all_blocks ∧ x ∉ order) →
  ∃ m, m ∈ all_blocks ∧ m ∉ order ∧
    ∀ y, y ∈ all_blocks → y ∉ order → y = m ∨ MergesetOrder m y = true.
Proof.
  intros (x & Hx & Hxo).
  destruct (list_least MergesetOrder (filter (.∉ order) all_blocks)) as (m & Hm & Hmin).
  { intros E. apply (not_elem_of_nil x). rewrite <- E. by apply list_elem_of_filter. }
  apply list_elem_of_filter in Hm as [Hmo Hm]. exists m. split; [done|]. split; [done|].
  intros y Hy Hyo. apply Hmin. by apply list_elem_of_filter.
Qed.

(** The head of the queue is the least block that is left. *)
Lemma top_least deg pq order s h :
  topo_inv deg ((s, h) :: pq) order →
  ∀ y, y ∈ all_blocks → y ∉ order → y = h ∨ MergesetOrder h y = true.
Proof.
  intros [_ _ _ _ Hpq Hready].
  destruct (proj1 (Hready s h)) as (-> & Hh & Hho & _); [by left|].
  destruct (left_least order) as (m & Hm & Hmo & Hmin); [by exists h|].
  assert (Hin : (score_of m, m) ∈ (score_of h, h) :: pq).
  { apply Hready. split; [done|]. split; [done|]. split; [done|]. by apply least_ready. }
  apply StronglySorted_inv in Hpq as [_ Htop]. rewrite Forall_forall in Htop.
  assert (m = h) as ->; [|done].
  apply elem_of_cons in Hin as [Hin|Hin]; [congruence|].
  apply Htop in Hin. rewrite EntryOrder_scores in Hin.
  destruct (Hmin h Hh Hho) as [?|Hmh]; [done|].
  apply (st_asym MergesetOrder) in Hmh. congruence.
Qed.

Lemma emitted_least_step deg pq order s h :
  topo_inv deg ((s, h) :: pq) order → emitted_least order → emitted_least (order ++ [h]).
Proof.
  intros Hinv [Hord Hleast]. pose proof (top_least _ _ _ _ _ Hinv) as Htop.
  destruct Hinv as [_ _ _ _ _ Hready].
  destruct (proj1 (Hready s h)) as (-> & Hh & Hho & _); [by left|]. split.
  - apply StronglySorted_app. split; [|split; [done|repeat constructor]].
    intros x y Hx ->%list_elem_of_singleton. auto.
  - intros x y Hx Hy [Hyo Hyh]%not_elem_of_app. rewrite list_elem_of_singleton in Hyh.
    apply elem_of_app in Hx as [?| ->%list_elem_of_singleton]; [auto|].
    by destruct (Htop y Hy Hyo).
Qed.

Lemma topo_loop_spec fuel deg pq order :
  topo_inv deg pq order → emitted_least order →
  (length all_blocks <= length order + fuel)%nat →
  ∃ o, topo_loop fuel deg children pq order = Some o ∧ o ≡ₚ all_blocks ∧
       ordered MergesetOrder o.
Proof.
  revert deg pq order. induction fuel as [|fuel IH]; intros deg pq order Hinv Hl Hfuel;
    (destruct pq as [|[s h] pq]; [exists order; split; [done|]; split; [|by destruct Hl]|]).
  1,3: destruct Hinv as [Hnd Hsub _ _ _ Hready]; apply NoDup_Permutation; [done..|];
    intros x; split; [auto|]; intros Hx; destruct (decide (x ∈ order)) as [|Hn]; [done|];
    exfalso; destruct (left_least order) as (m & Hm & Hmo & Hmin); [by exists x|];
    apply (not_elem_of_nil (score_of m, m)), Hready; repeat (split; [done|]);
    by apply least_ready.
  - exfalso. destruct (topo_step _ _ _ _ _ Hinv) as (_ & _ & [Hnd Hsub _ _ _ _]).
    assert (Hle : (length (order ++ [h]) <= length all_blocks)%nat).
    { apply submseteq_length, NoDup_submseteq; [done|]. intros x Hx. by apply Hsub. }
    rewrite length_app in Hle. simpl in Hle. lia.
  - destruct (topo_step _ _ _ _ _ Hinv) as (_ & _ & Hinv'). simpl.
    pose proof (emitted_least_step _ _ _ _ _ Hinv Hl) as Hl'.
    destruct (foldl release_child _ _) as [deg' pq'].
    apply IH; [done|done|]. rewrite length_app. simpl. lia.
Qed.
End loop.

Section result.
Context `{P : IGhostdagBlockProvider}.

Lemma init_queue_list l :
  NoDup l.*1 →
  let q := foldl (λ pq hd, if hd.2 =? 0 then pq_push (score_of hd.1, hd.1) pq else pq) [] l in
  ordered EntryOrder q ∧ ∀ s x, (s, x) ∈ q ↔ s = score_of x ∧ (x, 0) ∈ l.
Proof.
  induction l as [|[h d] l IH] using rev_ind; intros Hnd.
  { split; [constructor|]. intros s x. rewrite !elem_of_nil. tauto. }
  rewrite fmap_app in Hnd. apply NoDup_app in Hnd as (Hnd & Hh & _).
  destruct (IH Hnd) as [H1 H2]. rewrite foldl_snoc. cbv zeta in *. simpl.
  set (q := foldl _ _ l) in *. destruct (Z.eqb_spec d 0) as [->|Hd].
  - destruct (pq_push_spec (score_of h, h) q H1) as [G1 G2].
    { intros [_ Hin]%H2. eapply (Hh h); [|by left].
      apply list_elem_of_fmap. by exists (h, 0). }
    split; [done|]. intros s x. rewrite G2, H2, elem_of_app, list_elem_of_singleton.
    naive_solver.
  - split; [done|]. intros s x. rewrite H2, elem_of_app, list_elem_of_singleton. naive_solver.
Qed.

Lemma TopologicalOrder_spec fuel all_blocks :
  NoDup all_blocks →
  (∀ h p, h ∈ all_blocks → p ∈ all_blocks → p ∈ GetParents h → score_of p < score_of h) →
  (length all_blocks <= fuel)%nat →
  ∃ o, TopologicalOrder fuel all_blocks = Some o ∧ o ≡ₚ all_blocks ∧ ordered MergesetOrder o.
Proof.
  intros Hnd Hgrow Hfuel. unfold TopologicalOrder.
  destruct (add_blocks_spec all_blocks all_blocks Hnd) as [H1 H2].
  fold (build_edges all_blocks) in H1, H2. cbv zeta in *.
  destruct (build_edges all_blocks) as [deg ch]. simpl in *.
  destruct (init_queue_list (map_to_list deg) (NoDup_fst_map_to_list deg)) as [Q1 Q2].
  fold (init_queue deg) in Q1, Q2. cbv zeta in *.
  apply (topo_loop_spec all_blocks ch); try done.
  - intros x Hx Hp. specialize (Hgrow x x Hx Hx Hp). lia.
  - constructor.
    + constructor.
    + by intros x ?%elem_of_nil.
    + intros x. rewrite H1. by case_decide.
    + by intros x ?%elem_of_nil.
    + done.
    + intros s x. rewrite Q2, elem_of_map_to_list, H1.
      destruct (decide (x ∈ all_blocks)); split.
      * intros [-> [= Hm]]. repeat (split; [done || apply not_elem_of_nil|]). done.
      * intros (-> & _ & _ & Hm). by rewrite Hm.
      * by intros [_ ?].
      * by intros (_ & ? & _).
  - split; [constructor|]. by intros x y ?%elem_of_nil.
Qed.

(** C32. [TopologicalOrder] lists the set in canonical order: when blue scores grow along
    parent edges, Kahn's algorithm emits every block once, within as many pops as there
    are blocks, and the order is the sort by (blue score, hash), whatever the iteration
    order of the unordered set; every parent precedes its children. *)
Theorem TopologicalOrder_canonical fuel all_blocks :
  NoDup all_blocks →
  (∀ h p, h ∈ all_blocks → p ∈ all_blocks → p ∈ GetParents h → score_of p < score_of h) →
  (length all_blocks <= fuel)%nat →
  TopologicalOrder fuel all_blocks = Some (merge_sort mergeset_le all_blocks) ∧
  ∀ i j h p, merge_sort mergeset_le all_blocks !! i = Some p →
             merge_sort mergeset_le all_blocks !! j = Some h → p ∈ GetParents h → (i < j)%nat.
Proof.
  intros Hnd Hgrow Hfuel.
  destruct (TopologicalOrder_spec fuel all_blocks Hnd Hgrow Hfuel) as (o & Ho & Hp & Hord).
  assert (Hs : ordered MergesetOrder (merge_sort mergeset_le all_blocks)).
  { apply sorted_strict; [by rewrite merge_sort_Permutation|].
    apply (StronglySorted_merge_sort _). }
  assert (o = merge_sort mergeset_le all_blocks) as <-.
  { apply (ordered_ext MergesetOrder); [done..|]. intros x.
    by rewrite merge_sort_Permutation, Hp. }
  split; [done|]. intros i j h p Hi Hj Hpar.
  assert (Hlt : score_of p < score_of h).
  { apply Hgrow; [..|done]; rewrite <- Hp; by eapply list_elem_of_lookup_2. }
  destruct (decide (i < j)%nat) as [|Hge]; [done|]. exfalso.
  destruct (decide (i = j)) as [->|Hne]; [simplify_eq; lia|].
  pose proof (ordered_lookup MergesetOrder o j i h p Hord ltac:(lia) Hj Hi) as Hhp.
  apply (st_asym MergesetOrder) in Hhp. by rewrite score_MergesetOrder in Hhp.
Qed.
End result.

Lemma TopologicalOrder_canonical_witness :
  TopologicalOrder (P := BlockIndexGhostdagProvider diamond) 4 [4; 3; 1; 2] =
  Some [1; 2; 3; 4].
Proof.
  refine (eq_trans (proj1 (TopologicalOrder_canonical
    (P := BlockIndexGhostdagProvider diamond) 4 [4; 3; 1; 2] _ _ _)) _).
  - refine (bool_decide_unpack _ _). vm_compute. exact I.
  - intros h p Hh _ Hp.
    assert (Hs : scores_okb diamond = true) by (vm_compute; reflexivity).
    apply scores_okb_spec in Hs. eapply ok_score; [|exact Hp].
    rewrite !elem_of_cons, elem_of_nil in Hh.
    destruct Hh as [->|[->|[->|[->|[]]]]]; apply elem_of_dom; vm_compute; eauto.
  - simpl. lia.
  - vm_compute. reflexivity.
Defined.
