(* ===== verification/Pow.v ===== *)
(** Difficulty adjustment and the proof-of-work check: src/src/pow.cpp.

    Times and heights are [int64_t]/[int] values far from their limits and are kept as
    [Z]; the unsigned 64-bit and the 256-bit computations are reduced to their width
    where the code computes them.  A failed assertion, a null dereference and a division
    by zero are [None]. *)

From S2P Require Import Prelude OrdSet TipSet Arith256 Ghostdag BlockIndex.

(** ** Consensus parameters (the fields the modelled code reads) *)

Record Params := mkParams {
  nSubsidyHalvingInterval : Z;
  powLimit : Z;                        (* uint256 *)
  fPowAllowMinDifficultyBlocks : bool;
  enforce_BIP94 : bool;
  fPowNoRetargeting : bool;
  nPowTargetSpacing : Z;
  nPowTargetTimespan : Z;
  fDagMode : bool;
  nDagTargetSpacingMs : Z;
  nDagDiffWindowSize : Z;
  fDagUseEma : bool;
  nDagEmaFastHalfLife : Z;
  nDagEmaSlowHalfLife : Z;
  nDagEmaMaxAdjust : Z;
  nLoadDiffBaseline : Z;
  nLoadDiffMaxMultiplier : Z;
  BIP34Height : Z;
  BIP65Height : Z;
  BIP66Height : Z;
  SegwitHeight : Z;
  ghostdag_k : Z;
  nMaxDagParents : Z;
  fEarlyProtection : bool
}.

Definition DifficultyAdjustmentInterval (p : Params) : Z :=
  Z.quot (nPowTargetTimespan p) (nPowTargetSpacing p).

Definition FP_SCALE : Z := 2 ^ 16.

(** ** [IntegerSquareRoot] *)

(** [while (bit > n) bit >>= 2], from [2^62]: 32 shifts reach zero. *)
Fixpoint isqrt_bit (fuel : nat) (bit n : Z) : Z :=
  match fuel with
  | O => bit
  | S fuel' => if n <? bit then isqrt_bit fuel' (Z.shiftr bit 2) n else bit
  end.

Fixpoint isqrt_loop (fuel : nat) (bit n result : Z) : Z :=
  match fuel with
  | O => result
  | S fuel' =>
      if bit =? 0 then result
      else if u64 (result + bit) <=? n
           then isqrt_loop fuel' (Z.shiftr bit 2) (u64 (n - u64 (result + bit)))
                           (u64 (Z.shiftr result 1 + bit))
           else isqrt_loop fuel' (Z.shiftr bit 2) n (Z.shiftr result 1)
  end.

Definition IntegerSquareRoot (n : Z) : Z :=
  isqrt_loop 32 (isqrt_bit 32 (2 ^ 62) n) n 0.

(** ** [ComputeBlockTimeEMA] *)

(** The block times of the last [limit] blocks, newest first. *)
Fixpoint block_times (limit : nat) (st : BlockMap) (cur : Z) : list Z :=
  match limit with
  | O => []
  | S limit' =>
      match st !! cur with
      | None => []
      | Some b =>
          match pprev b with
          | None => []
          | Some p =>
              let bt := nTime b - (match st !! p with Some bp => nTime bp | None => 0 end) in
              (if bt <? 1 then 1 else bt) :: block_times limit' st p
          end
      end
  end.

Definition alpha_fp (halfLife : Z) : Z := Z.max 1 (45426 / Z.max 1 halfLife).

Definition ema_step (halfLife : Z) (ema_fp bt : Z) : Z :=
  let sample_fp := u64 (bt * FP_SCALE) in
  u64 (u64 (alpha_fp halfLife * sample_fp) + u64 ((FP_SCALE - alpha_fp halfLife) * ema_fp))
    / FP_SCALE.

(** The average over a list of block times, newest first. *)
Definition ema_of (halfLife : Z) (times : list Z) : Z :=
  match last times with
  | None => 10 * FP_SCALE
  | Some oldest => foldl (ema_step halfLife) (u64 (oldest * FP_SCALE)) (reverse times)
  end.

Definition ComputeBlockTimeEMA (st : BlockMap) (pindexLast halfLife maxLookback : Z)
    : option Z :=
  last_b ← st !! pindexLast;
  let limit := Z.min maxLookback (nHeight last_b) in
  Some (ema_of halfLife (block_times (Z.to_nat limit) st pindexLast)).

(** ** The load multiplier (the same code in both branches) *)

Definition load_adjust (params : Params) (bnNew avg_tx : Z) : option Z :=
  let baseline := u64 (nLoadDiffBaseline params) in
  let max_mult := u64 (nLoadDiffMaxMultiplier params) in
  if (0 <? avg_tx) && (baseline <? u64 avg_tx) then
    let capped_avg_tx := Z.min (u64 avg_tx) (u64 (u64 (baseline * max_mult) * max_mult)) in
    ratio_scaled ← udiv (u64 (u64 (capped_avg_tx * FP_SCALE) * FP_SCALE)) baseline;
    let load_mult0 := IntegerSquareRoot ratio_scaled in
    let load_mult1 := if load_mult0 <? FP_SCALE then FP_SCALE else load_mult0 in
    let load_mult := if u64 (max_mult * FP_SCALE) <? load_mult1
                     then u64 (max_mult * FP_SCALE) else load_mult1 in
    udiv (u256 (bnNew * FP_SCALE)) load_mult
  else Some bnNew.

(** The last step of every branch: clamp to the limit and encode. *)
Definition clamp_compact (bnPowLimit bnNew : Z) : Z :=
  GetCompact (if bnPowLimit <? bnNew then bnPowLimit else bnNew) false.

(** ** [GetNextWorkRequiredDAG] *)

(** The clamped per-block ratio, in thousandths. *)
Definition ema_adjust (params : Params) (nTargetSpacing fast_ema_fp slow_ema_fp : Z)
    : option Z :=
  let blended0 := u64 (u64 (fast_ema_fp * 7) + u64 (slow_ema_fp * 3)) / 10 in
  let blended_fp := if blended0 =? 0 then 1 else blended0 in
  let target0 := u64 (u64 nTargetSpacing * FP_SCALE) in
  let target_fp := if target0 =? 0 then FP_SCALE else target0 in
  adjust0 ← udiv (u64 (blended_fp * 1000)) target_fp;
  let maxAdj := u64 (nDagEmaMaxAdjust params) in
  minAdj ← udiv 1000000 maxAdj;
  let adjust1 := if maxAdj <? adjust0 then maxAdj else adjust0 in
  Some (if adjust1 <? minAdj then minAdj else adjust1).

(** The load multiplier of the per-block branch, over the recent blocks. *)
Definition load_stage_ema (st : BlockMap) (params : Params) (pindexLast : Z)
    (last_b : CBlockIndex) (postActivation bnNew : Z) : option Z :=
  if (0 <? nLoadDiffBaseline params) && (1 <? nLoadDiffMaxMultiplier params)
       && bool_decide (is_Some (pprev last_b)) then
    let loadWindow := Z.min (nDagEmaSlowHalfLife params * 2) postActivation in
    match GetAncestor st pindexLast (nHeight last_b - s32 loadWindow) with
    | None => Some bnNew
    | Some pOlder =>
        older_b ← st !! pOlder;
        if m_chain_tx_count older_b <? m_chain_tx_count last_b then
          avg ← udiv (u64 (m_chain_tx_count last_b - m_chain_tx_count older_b)) (u64 loadWindow);
          load_adjust params bnNew (s64 avg)
        else Some bnNew
    end
  else Some bnNew.

Definition next_work_ema (st : BlockMap) (params : Params) (pindexLast pblock_time : Z)
    (last_b : CBlockIndex) (nTargetSpacing : Z) : option Z :=
  let bnPowLimit := UintToArith256 (powLimit params) in
  let emaActivation := Z.max 4 (s32 (nDagDiffWindowSize params)) in
  if nHeight last_b <? emaActivation then Some (GetCompact bnPowLimit false)
  else if fPowAllowMinDifficultyBlocks params && (nTime last_b + nTargetSpacing * 4 <? pblock_time)
  then Some (GetCompact bnPowLimit false)
  else
    let postActivation := nHeight last_b - emaActivation in
    let effectiveLookback := Z.min (nDagDiffWindowSize params) postActivation in
    fast_ema_fp ← ComputeBlockTimeEMA st pindexLast (nDagEmaFastHalfLife params) effectiveLookback;
    slow_ema_fp ← ComputeBlockTimeEMA st pindexLast (nDagEmaSlowHalfLife params) effectiveLookback;
    adjust_milli ← ema_adjust params nTargetSpacing fast_ema_fp slow_ema_fp;
    let bn0 := u256 (cValue (SetCompact (nBits last_b)) / 1000 * adjust_milli) in
    bnNew ← load_stage_ema st params pindexLast last_b postActivation bn0;
    Some (clamp_compact bnPowLimit bnNew).

(** The load multiplier of the fixed-window branch, over the window. *)
Definition load_stage_window (params : Params) (last_b first_b : CBlockIndex)
    (nWindow bnNew : Z) : option Z :=
  if (0 <? nLoadDiffBaseline params) && (1 <? nLoadDiffMaxMultiplier params) then
    if m_chain_tx_count first_b <? m_chain_tx_count last_b then
      avg ← udiv (u64 (m_chain_tx_count last_b - m_chain_tx_count first_b)) (u64 (nWindow - 1));
      load_adjust params bnNew (s64 avg)
    else Some bnNew
  else Some bnNew.

Definition next_work_window (st : BlockMap) (params : Params) (pindexLast pblock_time : Z)
    (last_b : CBlockIndex) (nTargetSpacing : Z) : option Z :=
  let bnPowLimit := UintToArith256 (powLimit params) in
  let nWindow := nDagDiffWindowSize params in
  if nHeight last_b <? nWindow then Some (GetCompact bnPowLimit false)
  else if nWindow =? 0 then None
  else if negb (Z.rem (nHeight last_b + 1) nWindow =? 0) then
    if fPowAllowMinDifficultyBlocks params && (nTime last_b + nTargetSpacing * 2 <? pblock_time)
    then Some (GetCompact bnPowLimit false) else Some (nBits last_b)
  else
    let nTargetTimespan := nWindow * nTargetSpacing in
    pindexFirst ← GetAncestor st pindexLast (s32 (nHeight last_b - (nWindow - 1)));
    first_b ← st !! pindexFirst;
    let t0 := nTime last_b - nTime first_b in
    let t1 := if t0 <? Z.quot nTargetTimespan 4 then Z.quot nTargetTimespan 4 else t0 in
    let nActualTimespan := if nTargetTimespan * 4 <? t1 then nTargetTimespan * 4 else t1 in
    bn0 ← udiv (u256 (cValue (SetCompact (nBits last_b)) * u32 nActualTimespan))
               (u64 nTargetTimespan);
    bnNew ← load_stage_window params last_b first_b nWindow bn0;
    Some (clamp_compact bnPowLimit bnNew).

Definition GetNextWorkRequiredDAG (st : BlockMap) (params : Params)
    (pindexLast pblock_time : Z) : option Z :=
  last_b ← st !! pindexLast;
  if fPowNoRetargeting params then Some (nBits last_b)
  else
    let nTargetSpacing := Z.quot (nDagTargetSpacingMs params) 1000 in
    if nTargetSpacing <=? 0 then Some (nBits last_b)
    else if fDagUseEma params
         then next_work_ema st params pindexLast pblock_time last_b nTargetSpacing
         else next_work_window st params pindexLast pblock_time last_b nTargetSpacing.

(** ** [CalculateNextWorkRequired] *)

Definition CalculateNextWorkRequired (st : BlockMap) (params : Params)
    (pindexLast nFirstBlockTime : Z) : option Z :=
  last_b ← st !! pindexLast;
  if fPowNoRetargeting params then Some (nBits last_b)
  else
    let timespan := nPowTargetTimespan params in
    let t0 := nTime last_b - nFirstBlockTime in
    let t1 := if t0 <? Z.quot timespan 4 then Z.quot timespan 4 else t0 in
    let nActualTimespan := if timespan * 4 <? t1 then timespan * 4 else t1 in
    let bnPowLimit := UintToArith256 (powLimit params) in
    old ← (if enforce_BIP94 params then
             first ← GetAncestor st pindexLast
                       (s32 (nHeight last_b - (DifficultyAdjustmentInterval params - 1)));
             first_b ← st !! first; Some (nBits first_b)
           else Some (nBits last_b));
    bnNew ← udiv (u256 (cValue (SetCompact old) * u32 nActualTimespan)) (u64 timespan);
    Some (clamp_compact bnPowLimit bnNew).

(** ** [GetNextWorkRequired] *)

(** The last block without the special minimum difficulty; the walk lowers the height,
    so the height bounds it. *)
Fixpoint last_non_special (fuel : nat) (st : BlockMap) (params : Params) (limit pindex : Z)
    : option Z :=
  b ← st !! pindex;
  match pprev b, fuel with
  | Some p, S fuel' =>
      if negb (Z.rem (nHeight b) (DifficultyAdjustmentInterval params) =? 0) && (nBits b =? limit)
      then last_non_special fuel' st params limit p else Some (nBits b)
  | _, _ => Some (nBits b)
  end.

(** [dag_arg] is the value of the command-line option -dag, when it is given. *)
Definition GetNextWorkRequired (st : BlockMap) (params : Params) (dag_arg : option bool)
    (pindexLast pblock_time : Z) : option Z :=
  last_b ← st !! pindexLast;
  let limit := GetCompact (UintToArith256 (powLimit params)) false in
  if default (fDagMode params) dag_arg
  then GetNextWorkRequiredDAG st params pindexLast pblock_time
  else if DifficultyAdjustmentInterval params =? 0 then None
  else if negb (Z.rem (nHeight last_b + 1) (DifficultyAdjustmentInterval params) =? 0) then
    if fPowAllowMinDifficultyBlocks params then
      if nTime last_b + nPowTargetSpacing params * 2 <? pblock_time then Some limit
      else last_non_special (Z.to_nat (nHeight last_b)) st params limit pindexLast
    else Some (nBits last_b)
  else
    let nHeightFirst := s32 (nHeight last_b - (DifficultyAdjustmentInterval params - 1)) in
    if nHeightFirst <? 0 then None
    else pindexFirst ← GetAncestor st pindexLast nHeightFirst;
         first_b ← st !! pindexFirst;
         CalculateNextWorkRequired st params pindexLast (nTime first_b).

(** ** [PermittedDifficultyTransition] *)

(** The target for the old bits scaled by [timespan] over the target timespan, clamped
    and rounded through the compact form. *)
Definition scaled_target (params : Params) (old_nbits timespan : Z) : option Z :=
  let pow_limit := UintToArith256 (powLimit params) in
  t ← udiv (u256 (cValue (SetCompact old_nbits) * u32 timespan)) (u64 (nPowTargetTimespan params));
  Some (cValue (SetCompact (clamp_compact pow_limit t))).

Definition PermittedDifficultyTransition (params : Params) (height old_nbits new_nbits : Z)
    : option bool :=
  if fPowAllowMinDifficultyBlocks params then Some true
  else if DifficultyAdjustmentInterval params =? 0 then None
  else if Z.rem height (DifficultyAdjustmentInterval params) =? 0 then
    let observed_new_target := cValue (SetCompact new_nbits) in
    maximum_new_target ← scaled_target params old_nbits (nPowTargetTimespan params * 4);
    if maximum_new_target <? observed_new_target then Some false
    else
      minimum_new_target ← scaled_target params old_nbits (Z.quot (nPowTargetTimespan params) 4);
      if observed_new_target <? minimum_new_target then Some false else Some true
  else Some (old_nbits =? new_nbits).

(** ** [CheckProofOfWork] *)

Definition CheckProofOfWork (hash nBits : Z) (params : Params) : bool :=
  let c := SetCompact nBits in
  if fNegative c || (cValue c =? 0) || fOverflow c
       || (UintToArith256 (powLimit params) <? cValue c) then false
  else if cValue c <? UintToArith256 hash then false else true.

(** ** The square root *)

Lemma shiftr_pow4 k : Z.shiftr (4 ^ (Z.of_nat (S k))) 2 = 4 ^ Z.of_nat k.
Proof.
  rewrite Z.shiftr_div_pow2 by lia. rewrite Nat2Z.inj_succ, Z.pow_succ_r by lia.
  change (2 ^ 2) with 4. rewrite Z.mul_comm, Z.div_mul; lia.
Qed.

Lemma pow4_square k : 0 <= k → 4 ^ k = 2 ^ k * 2 ^ k.
Proof. intros Hk. change 4 with (2 * 2). by rewrite Z.pow_mul_l. Qed.

Lemma isqrt_loop_zero fuel n r : isqrt_loop fuel 0 n r = r.
Proof. by destruct fuel. Qed.

(** With [a] the root found so far (a multiple of the next power of two), [n] is what
    is left and [result] is twice the root times the current power. *)
Lemma isqrt_loop_spec k fuel N a :
  (k < fuel)%nat → 0 <= a → a + 2 ^ (Z.of_nat k + 1) <= 2 ^ 32 → (2 ^ (Z.of_nat k + 1) | a) →
  a * a <= N < (a + 2 ^ (Z.of_nat k + 1)) * (a + 2 ^ (Z.of_nat k + 1)) →
  isqrt_loop fuel (4 ^ Z.of_nat k) (N - a * a) (a * 2 ^ (Z.of_nat k + 1)) = Z.sqrt N.
Proof.
  revert fuel a. induction k as [|k IH]; intros fuel a Hf Ha Hmax [q Hq] HN;
    (destruct fuel as [|fuel]; [lia|]); cbn [isqrt_loop].
  - change (Z.of_nat 0) with 0 in *. rewrite Z.pow_0_r in *. change (2 ^ (0 + 1)) with 2 in *.
    change (1 =? 0) with false. cbv iota. change (Z.shiftr 1 2) with 0.
    rewrite (wrap_small 64 (a * 2 + 1)) by (unfold fits; lia).
    rewrite Z.shiftr_div_pow2, Z.pow_1_r, Z.div_mul by lia.
    destruct (Z.leb_spec (a * 2 + 1) (N - a * a)); rewrite isqrt_loop_zero.
    + rewrite wrap_small by (unfold fits; lia). symmetry. apply Z.sqrt_unique. nia.
    + symmetry. apply Z.sqrt_unique. nia.
  - set (b := 2 ^ Z.of_nat (S k)).
    assert (Hb : 2 ^ (Z.of_nat (S k) + 1) = 2 * b) by (unfold b; rewrite Z.pow_add_r by lia; lia).
    assert (Hb0 : 0 < b) by (unfold b; apply Z.pow_pos_nonneg; lia).
    assert (Hk : 2 ^ (Z.of_nat k + 1) = b) by (unfold b; f_equal; lia).
    assert (H4 : 4 ^ Z.of_nat (S k) = b * b) by (unfold b; apply pow4_square; lia).
    rewrite Hb in *. rewrite shiftr_pow4, H4. specialize (IH fuel). rewrite Hk in IH.
    destruct (Z.eqb_spec (b * b) 0); [nia|].
    rewrite (wrap_small 64 (a * (2 * b) + b * b)) by (unfold fits; nia).
    assert (Hsh : Z.shiftr (a * (2 * b)) 1 = a * b).
    { rewrite Z.shiftr_div_pow2 by lia. replace (a * (2 * b)) with (a * b * 2) by lia.
      by rewrite Z.pow_1_r, Z.div_mul. }
    rewrite Hsh. destruct (Z.leb_spec (a * (2 * b) + b * b) (N - a * a)) as [Hle|Hgt].
    + rewrite (wrap_small 64 (N - a * a - _)) by (unfold fits; nia).
      rewrite (wrap_small 64 (a * b + b * b)) by (unfold fits; nia).
      replace (N - a * a - (a * (2 * b) + b * b)) with (N - (a + b) * (a + b)) by lia.
      replace (a * b + b * b) with ((a + b) * b) by lia.
      apply IH; [lia|lia|lia| |nia]. exists (2 * q + 1). lia.
    + apply IH; [lia|lia|lia| |nia]. exists (2 * q). lia.
Qed.

Lemma isqrt_bit_spec k fuel n :
  (k < fuel)%nat → 0 < n < 4 ^ (Z.of_nat k + 1) →
  ∃ j, (j <= k)%nat ∧ isqrt_bit fuel (4 ^ Z.of_nat k) n = 4 ^ Z.of_nat j ∧
       4 ^ Z.of_nat j <= n < 4 ^ (Z.of_nat j + 1).
Proof.
  revert fuel. induction k as [|k IH]; intros fuel Hf Hn; (destruct fuel as [|fuel]; [lia|]);
    cbn [isqrt_bit].
  - exists 0%nat. change (4 ^ Z.of_nat 0) with 1. destruct (Z.ltb_spec n 1); [lia|]. lia.
  - destruct (Z.ltb_spec n (4 ^ Z.of_nat (S k))) as [Hlt|Hge].
    + rewrite shiftr_pow4. destruct (IH fuel) as (j & Hj & E & Hb); [lia| |].
      { replace (Z.of_nat k + 1) with (Z.of_nat (S k)) by lia. lia. }
      exists j. split; [lia|]. done.
    + exists (S k). split; [lia|]. split; [done|]. lia.
Qed.

Lemma IntegerSquareRoot_spec n : fits 64 n → IntegerSquareRoot n = Z.sqrt n.
Proof.
  intros Hn. unfold IntegerSquareRoot. destruct (decide (n = 0)) as [->|Hnz]; [reflexivity|].
  change (2 ^ 62) with (4 ^ Z.of_nat 31).
  destruct (isqrt_bit_spec 31 32 n) as (j & Hj & -> & Hb); [lia| |].
  { unfold fits in Hn. change (4 ^ (Z.of_nat 31 + 1)) with (2 ^ 64). lia. }
  pose proof (isqrt_loop_spec j 32 n 0) as H. rewrite Z.mul_0_l, Z.sub_0_r in H.
  apply H; [lia|lia| |apply Z.divide_0_r|].
  - rewrite Z.add_0_l. apply Z.pow_le_mono_r; lia.
  - rewrite Z.add_0_l, <- (pow4_square (Z.of_nat j + 1)) by lia. lia.
Qed.

(** ** The moving averages *)

Lemma alpha_fp_bounds h : 1 <= alpha_fp h <= 45426.
Proof.
  unfold alpha_fp. split; [lia|]. apply Z.max_lub; [lia|].
  etrans; [apply (Z.div_le_compat_l _ 1); lia|]. by rewrite Z.div_1_r.
Qed.

(** A step neither leaves the range of the samples nor overflows. *)
Lemma ema_step_bounds h lo hi e bt :
  0 <= lo → hi < 2 ^ 32 → lo * FP_SCALE <= e <= hi * FP_SCALE → lo <= bt <= hi →
  lo * FP_SCALE <= ema_step h e bt <= hi * FP_SCALE.
Proof.
  unfold ema_step, FP_SCALE. pose proof (alpha_fp_bounds h) as Ha. set (a := alpha_fp h) in *.
  intros Hlo Hhi He Hbt. rewrite (wrap_small 64 (bt * 2 ^ 16)) by (unfold fits; lia).
  assert (H1 : lo * 2 ^ 16 * a <= a * (bt * 2 ^ 16) <= hi * 2 ^ 16 * a) by nia.
  assert (H2 : lo * 2 ^ 16 * (2 ^ 16 - a) <= (2 ^ 16 - a) * e <= hi * 2 ^ 16 * (2 ^ 16 - a))
    by nia.
  rewrite (wrap_small 64 (a * _)), (wrap_small 64 ((2 ^ 16 - a) * e)), wrap_small
    by (unfold fits; nia).
  split; [apply Z.div_le_lower_bound; lia|].
  apply Z.lt_succ_r. apply Z.div_lt_upper_bound; lia.
Qed.

Lemma ema_of_bounds h lo hi times :
  times ≠ [] → 0 <= lo → hi < 2 ^ 32 → (∀ t, t ∈ times → lo <= t <= hi) →
  lo * FP_SCALE <= ema_of h times <= hi * FP_SCALE.
Proof.
  intros Hne Hlo Hhi Ht. unfold ema_of. destruct (last times) as [o|] eqn:Ho.
  2: { by apply last_None in Ho. }
  assert (Hfold : ∀ l e, (∀ t, t ∈ l → lo <= t <= hi) → lo * FP_SCALE <= e <= hi * FP_SCALE →
    lo * FP_SCALE <= foldl (ema_step h) e l <= hi * FP_SCALE).
  { induction l as [|t l IH]; intros e Hl He; simpl; [done|]. apply IH.
    - intros t' Ht'. apply Hl. by right.
    - apply ema_step_bounds; [done..|]. apply Hl. by left. }
  apply Hfold.
  - intros t. rewrite elem_of_reverse. auto.
  - apply last_Some in Ho as [l ->]. specialize (Ht o). unfold FP_SCALE.
    assert (lo <= o <= hi) by (apply Ht, elem_of_app; right; by left).
    rewrite wrap_small by (unfold fits; lia). lia.
Qed.

(** Every header time of the index is a [uint32_t]. *)
Definition times_ok (st : BlockMap) : Prop := map_Forall (λ _ b, fits 32 (nTime b)) st.

Lemma block_times_bounds st n cur t :
  times_ok st → t ∈ block_times n st cur → 1 <= t < 2 ^ 32.
Proof.
  intros Hst. revert cur. induction n as [|n IH]; intros cur; simpl; [by intros ?%elem_of_nil|].
  destruct (st !! cur) as [b|] eqn:Hb; [|by intros ?%elem_of_nil].
  destruct (pprev b) as [p|]; [|by intros ?%elem_of_nil].
  intros [->|Ht]%elem_of_cons; [|by eapply IH].
  pose proof (Hst cur b Hb) as Hc. simpl in Hc. unfold fits in Hc.
  destruct (st !! p) as [bp|] eqn:Hp.
  - pose proof (Hst p bp Hp) as Hpb. simpl in Hpb. unfold fits in Hpb. case_match; breflect; lia.
  - case_match; breflect; lia.
Qed.

Lemma ComputeBlockTimeEMA_bounds st last h look :
  times_ok st → is_Some (st !! last) →
  ∃ e, ComputeBlockTimeEMA st last h look = Some e ∧ FP_SCALE <= e < 2 ^ 32 * FP_SCALE.
Proof.
  intros Hst [b Hb]. unfold ComputeBlockTimeEMA. rewrite Hb. simpl. eexists. split; [done|].
  set (ts := block_times _ st last).
  destruct (decide (ts = [])) as [->|Hne]; [unfold ema_of, FP_SCALE; simpl; lia|].
  pose proof (ema_of_bounds h 1 (2 ^ 32 - 1) ts Hne) as H. unfold FP_SCALE in *.
  destruct H; [lia|lia| |lia]. intros t Ht. apply block_times_bounds in Ht; [lia|done].
Qed.

(** ** The load multiplier *)

(** What the comments promise: clamp(sqrt(load ratio), 1, max_mult), in 16-bit fixed
    point. *)
Definition ideal_load_mult (params : Params) (avg_tx : Z) : Z :=
  Z.max FP_SCALE (Z.min (nLoadDiffMaxMultiplier params * FP_SCALE)
    (Z.sqrt (avg_tx * 2 ^ 32 / nLoadDiffBaseline params))).

Record load_params_ok (params : Params) : Prop := {
  lp_base : 0 < nLoadDiffBaseline params;
  lp_mult : 0 < nLoadDiffMaxMultiplier params;
  lp_fit : nLoadDiffBaseline params * (nLoadDiffMaxMultiplier params *
             nLoadDiffMaxMultiplier params) < 2 ^ 32
}.

Lemma sqrt_cap b m avg :
  0 < b → 0 < m → 0 <= avg →
  Z.sqrt (Z.min avg (b * (m * m)) * 2 ^ 32 / b) = Z.min (m * 2 ^ 16) (Z.sqrt (avg * 2 ^ 32 / b)).
Proof.
  intros Hb Hm Ha.
  assert (Hcap : Z.sqrt (b * (m * m) * 2 ^ 32 / b) = m * 2 ^ 16).
  { replace (b * (m * m) * 2 ^ 32) with (m * 2 ^ 16 * (m * 2 ^ 16) * b) by lia.
    rewrite Z.div_mul by lia. apply Z.sqrt_square. lia. }
  destruct (Z.le_ge_cases avg (b * (m * m))) as [Hle|Hge].
  - rewrite Z.min_l by done. rewrite Z.min_r; [done|]. rewrite <- Hcap.
    apply Z.sqrt_le_mono, Z.div_le_mono; lia.
  - rewrite Z.min_r by lia. rewrite Hcap, Z.min_l; [done|]. rewrite <- Hcap.
    apply Z.sqrt_le_mono, Z.div_le_mono; lia.
Qed.

Lemma load_adjust_spec params bn avg :
  load_params_ok params → 0 <= avg < 2 ^ 63 → 0 <= bn → bn * FP_SCALE < 2 ^ 256 →
  load_adjust params bn avg = Some (bn * FP_SCALE / ideal_load_mult params avg).
Proof.
  intros [Hb Hm Hf] Ha Hbn Hfit. unfold load_adjust, ideal_load_mult.
  set (b := nLoadDiffBaseline params) in *. set (m := nLoadDiffMaxMultiplier params) in *.
  assert (Hmm : m <= m * m) by nia.
  assert (Hbm : b * m <= b * (m * m)) by (apply Z.mul_le_mono_nonneg_l; lia).
  assert (Hbm' : b <= b * m ∧ m <= b * m) by nia.
  rewrite (wrap_small 64 b), (wrap_small 64 m), (wrap_small 64 avg) by (unfold fits; lia).
  rewrite (wrap_small 64 (b * m)), (wrap_small 64 (b * m * m)) by (unfold fits; lia).
  replace (b * m * m) with (b * (m * m)) by lia. unfold FP_SCALE in *.
  destruct ((0 <? avg) && (b <? avg)) eqn:E; breflect.
  - set (c := Z.min avg (b * (m * m))). assert (Hc : b < c + 1 <= 2 ^ 32) by lia.
    rewrite (wrap_small 64 (c * 2 ^ 16)), (wrap_small 64 (c * 2 ^ 16 * 2 ^ 16))
      by (unfold fits; lia).
    rewrite udiv_pos by lia. cbn [mbind option_bind].
    replace (c * 2 ^ 16 * 2 ^ 16) with (c * 2 ^ 32) by lia.
    rewrite IntegerSquareRoot_spec; cycle 1.
    { split; [apply Z.div_pos; lia|]. apply Z.div_lt_upper_bound; [lia|]. nia. }
    unfold c. rewrite sqrt_cap by lia.
    rewrite (wrap_small 64 (m * 2 ^ 16)) by (unfold fits; lia).
    set (s := Z.min (m * 2 ^ 16) (Z.sqrt (avg * 2 ^ 32 / b))).
    assert (Hs : s <= m * 2 ^ 16) by (unfold s; lia).
    rewrite (wrap_small 256) by (unfold fits; lia).
    replace (if m * 2 ^ 16 <? _ then _ else _) with (Z.max (2 ^ 16) s).
    + apply udiv_pos. lia.
    + destruct (Z.ltb_spec s (2 ^ 16)); [destruct (Z.ltb_spec (m * 2 ^ 16) (2 ^ 16))
        |destruct (Z.ltb_spec (m * 2 ^ 16) s)]; lia.
  - assert (Hle : avg <= b) by (apply andb_false_iff in E as [?|?]; breflect; lia).
    assert (Z.sqrt (avg * 2 ^ 32 / b) <= 2 ^ 16).
    { rewrite <- (Z.sqrt_square (2 ^ 16)) by lia. apply Z.sqrt_le_mono.
      apply Z.div_le_upper_bound; nia. }
    rewrite Z.max_l by lia. by rewrite Z.div_mul.
Qed.

(** ** Encoded results *)

Lemma clamp_compact_spec L bn :
  0 <= L < 2 ^ 256 → 0 <= bn →
  clamp_compact L bn = GetCompact (Z.min L bn) false ∧
  SetCompact (clamp_compact L bn) = mkCompact (round (Z.min L bn)) false false.
Proof.
  intros HL Hbn. assert (E : clamp_compact L bn = GetCompact (Z.min L bn) false).
  { unfold clamp_compact. f_equal. destruct (Z.ltb_spec L bn); lia. }
  split; [done|]. rewrite E. destruct (SetCompact_GetCompact (Z.min L bn)) as (s & Hs & ->); [lia|].
  by rewrite (round_spec _ s) by (done || lia).
Qed.

(** A hash meets an encoded result exactly when it is at most the rounded target. *)
Lemma CheckProofOfWork_clamp params bn hash :
  let L := UintToArith256 (powLimit params) in
  0 <= L < 2 ^ 256 → 0 <= bn →
  CheckProofOfWork hash (clamp_compact L bn) params = true ↔
  0 < round (Z.min L bn) ∧ UintToArith256 hash <= round (Z.min L bn).
Proof.
  intros L HL Hbn. unfold CheckProofOfWork. fold L.
  destruct (clamp_compact_spec L bn HL Hbn) as [_ ->]. cbn [fNegative fOverflow cValue].
  pose proof (round_le (Z.min L bn) ltac:(lia)) as Hr.
  destruct (Z.eqb_spec (round (Z.min L bn)) 0) as [E|E]; cbn [orb]; [split; [done|lia]|].
  destruct (Z.ltb_spec L (round (Z.min L bn))); [lia|].
  destruct (Z.ltb_spec (round (Z.min L bn)) (UintToArith256 hash)); (split; [done|lia]) || lia.
Qed.

Lemma ema_adjust_spec params sp f s :
  FP_SCALE <= f < 2 ^ 32 * FP_SCALE → FP_SCALE <= s < 2 ^ 32 * FP_SCALE → 0 < sp < 2 ^ 32 →
  0 < nDagEmaMaxAdjust params < 2 ^ 32 →
  let maxAdj := nDagEmaMaxAdjust params in let minAdj := 1000000 / maxAdj in
  ema_adjust params sp f s =
    Some (Z.max minAdj (Z.min maxAdj ((7 * f + 3 * s) / 10 * 1000 / (sp * FP_SCALE)))).
Proof.
  unfold ema_adjust, FP_SCALE. intros Hf Hs Hsp Hm.
  rewrite (wrap_small 64 (f * 7)), (wrap_small 64 (s * 3)), (wrap_small 64 (f * 7 + s * 3))
    by (unfold fits; lia).
  rewrite (wrap_small 64 sp), (wrap_small 64 (sp * 2 ^ 16)) by (unfold fits; lia).
  rewrite (wrap_small 64 (nDagEmaMaxAdjust params)) by (unfold fits; lia).
  replace (f * 7 + s * 3) with (7 * f + 3 * s) by lia.
  assert (Hbl : 2 ^ 16 <= (7 * f + 3 * s) / 10 < 2 ^ 48).
  { split; [apply Z.div_le_lower_bound; lia|apply Z.div_lt_upper_bound; lia]. }
  set (bl := (7 * f + 3 * s) / 10) in *.
  destruct (Z.eqb_spec bl 0); [lia|]. destruct (Z.eqb_spec (sp * 2 ^ 16) 0); [lia|].
  rewrite (wrap_small 64 (bl * 1000)) by (unfold fits; lia).
  rewrite !udiv_pos by lia. simpl. f_equal.
  set (adj := bl * 1000 / (sp * 2 ^ 16)). set (mn := 1000000 / nDagEmaMaxAdjust params).
  destruct (Z.ltb_spec (nDagEmaMaxAdjust params) adj);
    [destruct (Z.ltb_spec (nDagEmaMaxAdjust params) mn)|destruct (Z.ltb_spec adj mn)]; lia.
Qed.

Record ema_params_ok (params : Params) : Prop := {
  ep_limit : 0 <= UintToArith256 (powLimit params) < 2 ^ 256;
  ep_spacing : 1000 <= nDagTargetSpacingMs params < 2 ^ 32;
  ep_window : 0 <= nDagDiffWindowSize params < 2 ^ 31;
  ep_slow : 0 < nDagEmaSlowHalfLife params < 2 ^ 30;
  ep_adjust : 1000 <= nDagEmaMaxAdjust params < 2 ^ 32;
  ep_fit : UintToArith256 (powLimit params) / 1000 * nDagEmaMaxAdjust params * FP_SCALE < 2 ^ 256;
  ep_load : load_params_ok params;
  ep_ema : fDagUseEma params = true;
  ep_retarget : fPowNoRetargeting params = false
}.

(** The transaction counts of the index stay below the signed range. *)
Definition counts_ok (st : BlockMap) : Prop :=
  map_Forall (λ _ b, 0 <= m_chain_tx_count b < 2 ^ 63) st.

Lemma ideal_load_mult_bounds params avg :
  load_params_ok params →
  FP_SCALE <= ideal_load_mult params avg <= nLoadDiffMaxMultiplier params * FP_SCALE.
Proof. intros [_ Hm _]. unfold ideal_load_mult, FP_SCALE. lia. Qed.

Lemma div_mult_bounds bn m k :
  0 <= bn → FP_SCALE <= m <= k * FP_SCALE → bn / k <= bn * FP_SCALE / m <= bn.
Proof.
  unfold FP_SCALE. intros Hbn Hm. split.
  - apply Z.div_le_lower_bound; [lia|].
    pose proof (Z.mul_div_le bn k ltac:(lia)). pose proof (Z.div_pos bn k ltac:(lia) ltac:(lia)). nia.
  - apply Z.div_le_upper_bound; nia.
Qed.

(** The load multiplier at most divides by [max_mult]; a window of zero blocks compares
    the tip with itself, so the division is not reached. *)
Lemma load_stage_ema_spec st params last b post bn :
  chain_ok st → counts_ok st → st !! last = Some b → load_params_ok params →
  0 < nDagEmaSlowHalfLife params < 2 ^ 30 → 0 <= post <= nHeight b →
  0 <= bn → bn * FP_SCALE < 2 ^ 256 →
  ∃ bn', load_stage_ema st params last b post bn = Some bn' ∧
         bn / nLoadDiffMaxMultiplier params <= bn' <= bn.
Proof.
  intros Hst Hcnt Hb Hlp Hslow Hpost Hbn Hfit. unfold load_stage_ema.
  assert (Hself : bn / nLoadDiffMaxMultiplier params <= bn).
  { destruct Hlp as [_ Hm _]. apply Z.div_le_upper_bound; nia. }
  case_match; [|by exists bn].
  set (lw := Z.min (nDagEmaSlowHalfLife params * 2) post).
  rewrite swrap_small by (unfold lw; lia).
  rewrite (GetAncestor_prev_n st last b) by (done || unfold lw; lia).
  replace (nHeight b - (nHeight b - lw)) with lw by lia.
  destruct (prev_n_height st (Z.to_nat lw) last b Hst Hb) as (a & ba & Hpn & Hba & _);
    [unfold lw; lia|]. rewrite Hpn, Hba. cbn [mbind option_bind].
  destruct (Z.ltb_spec (m_chain_tx_count ba) (m_chain_tx_count b)) as [Hlt|]; [|by exists bn].
  pose proof (Hcnt a ba Hba) as Ha. pose proof (Hcnt last b Hb) as Hc. simpl in Ha, Hc.
  assert (Hlw : 0 < lw < 2 ^ 31).
  { destruct (decide (lw = 0)) as [E|]; [|unfold lw; lia]. exfalso.
    rewrite E in Hpn. simpl in Hpn. simplify_eq. lia. }
  rewrite (wrap_small 64 lw), (wrap_small 64 (_ - _)) by (unfold fits; lia).
  rewrite udiv_pos by lia. cbn [mbind option_bind].
  assert (Havg : 0 <= (m_chain_tx_count b - m_chain_tx_count ba) / lw < 2 ^ 63).
  { split; [apply Z.div_pos; lia|]. apply Z.div_lt_upper_bound; nia. }
  rewrite swrap_small by lia. rewrite load_adjust_spec by done.
  eexists. split; [done|]. apply div_mult_bounds; [done|]. by apply ideal_load_mult_bounds.
Qed.

(** The per-block target before encoding. *)
Lemma next_work_ema_spec st params last b time :
  chain_ok st → times_ok st → counts_ok st → ema_params_ok params → st !! last = Some b →
  let L := UintToArith256 (powLimit params) in
  let old := cValue (SetCompact (nBits b)) in
  0 <= old <= L → Z.max 4 (nDagDiffWindowSize params) <= nHeight b →
  fPowAllowMinDifficultyBlocks params = false →
  ∃ bn, GetNextWorkRequiredDAG st params last time = Some (clamp_compact L bn) ∧
    old / 1000 * (1000000 / nDagEmaMaxAdjust params) / nLoadDiffMaxMultiplier params <= bn ∧
    bn <= old / 1000 * nDagEmaMaxAdjust params.
Proof.
  intros Hst Ht Hcnt [] Hb L old Hold Hh Hmin. unfold GetNextWorkRequiredDAG.
  rewrite Hb. simpl. rewrite ep_retarget0, ep_ema0.
  assert (Hsp : 1 <= Z.quot (nDagTargetSpacingMs params) 1000 < 2 ^ 32).
  { rewrite Z.quot_div_nonneg by lia. split; [apply Z.div_le_lower_bound; lia|].
    apply Z.div_lt_upper_bound; lia. }
  set (sp := Z.quot (nDagTargetSpacingMs params) 1000) in *.
  destruct (Z.leb_spec sp 0); [lia|]. unfold next_work_ema. fold L old.
  rewrite swrap_small by lia. destruct (Z.ltb_spec (nHeight b) (Z.max 4 (nDagDiffWindowSize params)));
    [lia|]. rewrite Hmin. cbn [andb].
  set (post := nHeight b - Z.max 4 (nDagDiffWindowSize params)).
  destruct (ComputeBlockTimeEMA_bounds st last (nDagEmaFastHalfLife params)
    (Z.min (nDagDiffWindowSize params) post) Ht) as (f & -> & Hf); [by eauto|].
  destruct (ComputeBlockTimeEMA_bounds st last (nDagEmaSlowHalfLife params)
    (Z.min (nDagDiffWindowSize params) post) Ht) as (s & -> & Hs); [by eauto|].
  cbn [mbind option_bind]. rewrite ema_adjust_spec by (done || lia). cbn [mbind option_bind].
  set (maxAdj := nDagEmaMaxAdjust params) in *. set (minAdj := 1000000 / maxAdj).
  set (adj := Z.max minAdj _).
  assert (Hmn : 0 <= minAdj <= 1000).
  { unfold minAdj. split; [apply Z.div_pos; lia|]. apply Z.div_le_upper_bound; lia. }
  assert (Hadj : minAdj <= adj <= maxAdj) by (unfold adj; lia).
  assert (Ho : 0 <= old / 1000 <= L / 1000).
  { split; [apply Z.div_pos; lia|apply Z.div_le_mono; lia]. }
  unfold FP_SCALE in ep_fit0. fold L in ep_fit0, ep_limit0. clearbody adj.
  assert (Hp : 0 <= old / 1000 * adj <= L / 1000 * maxAdj).
  { split; [apply Z.mul_nonneg_nonneg; lia|apply Z.mul_le_mono_nonneg; lia]. }
  rewrite wrap_small by (unfold fits; lia).
  destruct (load_stage_ema_spec st params last b post (old / 1000 * adj))
    as (bn & -> & Hbn); [done..|unfold post; lia|lia|unfold FP_SCALE; lia|].
  simpl. exists bn. split; [done|].
  assert (old / 1000 * minAdj <= old / 1000 * adj <= old / 1000 * maxAdj)
    by (split; apply Z.mul_le_mono_nonneg_l; lia).
  split; [|lia]. etrans; [|apply Hbn]. apply Z.div_le_mono; [apply lp_mult; done|lia].
Qed.

(** ** Networks and fixtures *)

(** The QuantumBTC test network. *)
Definition CQbtcTestNetParams : Params :=
  mkParams 12600000 (ArithToUint256 (2 ^ 236 - 1)) false false false 10 1280 true 10000 256 true 12 72 3000
    200 4 1 1 1 0 32 64 true.

(** The QuantumBTC main network (the window and the average parameters are defaults). *)
Definition CQbtcMainParams : Params :=
  mkParams 126000000 (ArithToUint256 (2 ^ 224 - 1)) false false false 1 2016 true 1000 4032 false 12 72 3000
    200 4 1 1 1 0 18 32 true.

(** A chain of [n] blocks, one every [spacing] seconds, [txs] transactions in each. *)
Definition linear_entry (spacing txs bits : Z) (i : Z) : CBlockIndex :=
  mkIndex (if i =? 0 then None else Some i) None i 0 txs (txs * (i + 1)) 0 0x30000000 0
    (1700000000 + spacing * i) bits 0 0 [] null_data 0 one_double 0 0.

Definition linear_chain (n : nat) (spacing txs bits : Z) : BlockMap :=
  list_to_map ((λ i, (Z.of_nat i + 1, linear_entry spacing txs bits (Z.of_nat i))) <$> seq 0 n).

(** Checking a concrete index without skip pointers. *)
Definition plain_chain_okb (st : BlockMap) : bool :=
  bool_decide (map_Forall (λ _ b, 0 <= nHeight b ∧ pskip b = None ∧ fits 32 (nTime b) ∧
    0 <= m_chain_tx_count b < 2 ^ 63 ∧
    match pprev b with
    | None => nHeight b =? 0
    | Some p => bool_decide (nHeight <$> st !! p = Some (nHeight b - 1))
    end = true) st).

Lemma plain_chain_okb_spec st :
  plain_chain_okb st = true → chain_ok st ∧ times_ok st ∧ counts_ok st.
Proof.
  unfold plain_chain_okb. rewrite bool_decide_eq_true. intros Hall.
  split; [split|split].
  - intros h b Hb. by destruct (Hall h b Hb).
  - intros h b p Hb Hp. destruct (Hall h b Hb) as (_ & _ & _ & _ & H). rewrite Hp in H.
    apply bool_decide_eq_true, fmap_Some in H as (b' & Hb' & Hh). exists b'. auto.
  - intros h b Hb Hp. destruct (Hall h b Hb) as (_ & _ & _ & _ & H). rewrite Hp in H.
    by apply Z.eqb_eq in H.
  - intros h b s Hb Hs. destruct (Hall h b Hb) as (_ & H & _). congruence.
  - intros h b Hb. by destruct (Hall h b Hb) as (_ & _ & H & _).
  - intros h b Hb. by destruct (Hall h b Hb) as (_ & _ & _ & H & _).
Qed.

(** ** The classical retarget is what the presync check permits *)

Record retarget_params_ok (params : Params) : Prop := {
  rp_limit : 0 <= UintToArith256 (powLimit params) < 2 ^ 256;
  rp_timespan : 0 < nPowTargetTimespan params;
  rp_timespan4 : nPowTargetTimespan params * 4 < 2 ^ 32;
  rp_fit : UintToArith256 (powLimit params) * (nPowTargetTimespan params * 4) < 2 ^ 256;
  rp_interval : DifficultyAdjustmentInterval params ≠ 0;
  rp_min : fPowAllowMinDifficultyBlocks params = false;
  rp_bip : enforce_BIP94 params = false;
  rp_retarget : fPowNoRetargeting params = false
}.

(** A clamped timespan scales a target without overflow, monotonically. *)
Lemma scaled_spec params old t :
  retarget_params_ok params → 0 <= cValue (SetCompact old) <= UintToArith256 (powLimit params) →
  0 <= t <= nPowTargetTimespan params * 4 →
  udiv (u256 (cValue (SetCompact old) * u32 t)) (u64 (nPowTargetTimespan params)) =
    Some (cValue (SetCompact old) * t / nPowTargetTimespan params) ∧
  0 <= cValue (SetCompact old) * t / nPowTargetTimespan params.
Proof.
  intros [] Ho Ht. set (L := UintToArith256 (powLimit params)) in *.
  set (T := nPowTargetTimespan params) in *. set (o := cValue (SetCompact old)) in *.
  assert (0 <= o * t <= L * (T * 4)).
  { split; [apply Z.mul_nonneg_nonneg; lia|apply Z.mul_le_mono_nonneg; lia]. }
  rewrite (wrap_small 32 t), (wrap_small 64 T), (wrap_small 256) by (unfold fits; lia).
  split; [apply udiv_pos; lia|apply Z.div_pos; lia].
Qed.

Lemma scaled_target_spec params old t :
  retarget_params_ok params → 0 <= cValue (SetCompact old) <= UintToArith256 (powLimit params) →
  0 <= t <= nPowTargetTimespan params * 4 →
  scaled_target params old t =
    Some (round (Z.min (UintToArith256 (powLimit params))
                   (cValue (SetCompact old) * t / nPowTargetTimespan params))).
Proof.
  intros Hp Ho Ht. unfold scaled_target.
  destruct (scaled_spec params old t Hp Ho Ht) as [-> Hn]. cbn [mbind option_bind].
  by rewrite (proj2 (clamp_compact_spec _ _ (rp_limit _ Hp) Hn)).
Qed.

Lemma scaled_mono L o T t t' :
  0 <= L < 2 ^ 256 → 0 <= o → 0 < T → 0 <= t <= t' →
  round (Z.min L (o * t / T)) <= round (Z.min L (o * t' / T)).
Proof.
  intros HL Ho HT Ht. assert (o * t / T <= o * t' / T).
  { apply Z.div_le_mono; [done|]. apply Z.mul_le_mono_nonneg_l; lia. }
  pose proof (Z.div_pos (o * t) T ltac:(nia) HT). apply round_mono; lia.
Qed.

(** ** Properties *)

(** The moving average never overflows and stays within its samples: when every
    block time looked at lies between [lo] and [hi] seconds, so does the average (in
    16-bit fixed point); without samples it is the ten-second default. *)
Theorem ema_within_samples st last b h look lo hi :
  times_ok st → st !! last = Some b → 0 <= lo → hi < 2 ^ 32 →
  let times := block_times (Z.to_nat (Z.min look (nHeight b))) st last in
  (∀ t, t ∈ times → lo <= t <= hi) →
  ∃ e, ComputeBlockTimeEMA st last h look = Some e ∧
    if decide (times = []) then e = 10 * FP_SCALE else lo * FP_SCALE <= e <= hi * FP_SCALE.
Proof.
  intros Hst Hb Hlo Hhi times Ht. unfold ComputeBlockTimeEMA. rewrite Hb. simpl.
  fold times. eexists. split; [done|]. destruct (decide (times = [])) as [->|Hne]; [done|].
  by apply ema_of_bounds.
Qed.

Lemma linear_chain_ok : plain_chain_okb (linear_chain 300 10 1 0x1d00ffff) = true.
Proof. vm_compute. reflexivity. Qed.

Lemma testnet_load_ok : load_params_ok CQbtcTestNetParams.
Proof. split; simpl; lia. Qed.

(** C33. The per-block retarget is total and bounded: past the bootstrap window it always
    returns, and the new target before rounding lies between
    target/1000 * (10^6/max_adjust) / max_mult and target/1000 * max_adjust, capped by the
    proof-of-work limit; the encoded result is a valid non-negative compact number, and a
    hash passes [CheckProofOfWork] for it exactly when it is at most the rounded target. *)
Theorem ema_retarget_bounded st params last b time :
  chain_ok st → times_ok st → counts_ok st → ema_params_ok params → st !! last = Some b →
  let L := UintToArith256 (powLimit params) in
  let old := cValue (SetCompact (nBits b)) in
  0 <= old <= L → Z.max 4 (nDagDiffWindowSize params) <= nHeight b →
  fPowAllowMinDifficultyBlocks params = false →
  ∃ bn r, GetNextWorkRequiredDAG st params last time = Some r ∧
    SetCompact r = mkCompact (round bn) false false ∧ bn <= L ∧
    Z.min L (old / 1000 * (1000000 / nDagEmaMaxAdjust params) / nLoadDiffMaxMultiplier params)
      <= bn <= old / 1000 * nDagEmaMaxAdjust params ∧
    ∀ hash, CheckProofOfWork hash r params = true ↔
            0 < round bn ∧ UintToArith256 hash <= round bn.
Proof.
  intros Hst Ht Hc Hp Hb L old Hold Hh Hmin.
  destruct (next_work_ema_spec st params last b time Hst Ht Hc Hp Hb Hold Hh Hmin)
    as (bn & E & Hlo & Hhi). fold L old in E, Hlo, Hhi.
  pose proof (ep_limit _ Hp) as HL. fold L in HL.
  assert (Hn : 0 <= bn).
  { pose proof (ep_adjust _ Hp). etrans; [|exact Hlo]. apply Z.div_pos; [|apply lp_mult, Hp].
    apply Z.mul_nonneg_nonneg; apply Z.div_pos; lia. }
  exists (Z.min L bn), (clamp_compact L bn). split; [done|].
  split; [by apply clamp_compact_spec|]. split; [lia|]. split; [lia|].
  intros hash. by apply CheckProofOfWork_clamp.
Qed.

Lemma testnet_ema_ok : ema_params_ok CQbtcTestNetParams.
Proof.
  constructor; [..|exact testnet_load_ok|reflexivity|reflexivity];
    vm_compute; repeat split; first [reflexivity|discriminate].
Qed.

Lemma ema_retarget_bounded_witness :
  ∃ bn r, GetNextWorkRequiredDAG (linear_chain 300 10 1 0x1d00ffff) CQbtcTestNetParams 300 0 = Some r ∧
    SetCompact r = mkCompact (round bn) false false ∧ bn <= 0xffff * 2 ^ 208 / 1000 * 3000.
Proof.
  pose proof (plain_chain_okb_spec _ linear_chain_ok) as (Hs & Ht & Hc).
  destruct (linear_chain 300 10 1 0x1d00ffff !! 300) as [b|] eqn:Hb;
    [|vm_compute in Hb; discriminate].
  assert (Hh : nHeight b = 299 ∧ nBits b = 0x1d00ffff)
    by (vm_compute in Hb; injection Hb as <-; split; reflexivity).
  destruct Hh as [Hh Hbits].
  destruct (ema_retarget_bounded _ CQbtcTestNetParams 300 b 0 Hs Ht Hc testnet_ema_ok Hb)
    as (bn & r & H1 & H2 & _ & H4 & _).
  - rewrite Hbits. vm_compute. split; discriminate.
  - rewrite Hh. vm_compute. discriminate.
  - reflexivity.
  - exists bn, r. split; [exact H1|]. split; [exact H2|]. rewrite Hbits in H4. exact (proj2 H4).
Defined.

(** The classical retarget and the header-presync check agree: at a retarget height
    the bits [CalculateNextWorkRequired] computes, from any first-block time, are always
    permitted by [PermittedDifficultyTransition] from the old bits. *)
Theorem retarget_permitted st params last b first height :
  retarget_params_ok params → st !! last = Some b →
  0 <= cValue (SetCompact (nBits b)) <= UintToArith256 (powLimit params) →
  Z.rem height (DifficultyAdjustmentInterval params) = 0 →
  ∃ r, CalculateNextWorkRequired st params last first = Some r ∧
       PermittedDifficultyTransition params height (nBits b) r = Some true.
Proof.
  intros Hp Hb Ho Hh. pose proof Hp as []. unfold CalculateNextWorkRequired.
  rewrite Hb. cbn [mbind option_bind]. rewrite rp_retarget0, rp_bip0. cbn [mbind option_bind].
  set (T := nPowTargetTimespan params) in *. set (L := UintToArith256 (powLimit params)) in *.
  set (o := cValue (SetCompact (nBits b))) in *.
  assert (Hq : 0 <= Z.quot T 4 <= T).
  { rewrite Z.quot_div_nonneg by lia. split; [apply Z.div_pos; lia|]. apply Z.div_le_upper_bound; lia. }
  set (t1 := if nTime b - first <? Z.quot T 4 then Z.quot T 4 else nTime b - first).
  set (t := if T * 4 <? t1 then T * 4 else t1).
  assert (Ht : Z.quot T 4 <= t <= T * 4).
  { unfold t, t1. destruct (Z.ltb_spec (nTime b - first) (Z.quot T 4)).
    - destruct (Z.ltb_spec (T * 4) (Z.quot T 4)); lia.
    - destruct (Z.ltb_spec (T * 4) (nTime b - first)); lia. }
  destruct (scaled_spec params (nBits b) t Hp Ho ltac:(fold T; lia)) as [E Hn].
  fold T o in E, Hn. rewrite E. cbn [mbind option_bind].
  exists (clamp_compact L (o * t / T)). split; [done|].
  unfold PermittedDifficultyTransition. rewrite rp_min0.
  destruct (Z.eqb_spec (DifficultyAdjustmentInterval params) 0); [done|].
  rewrite Hh. cbn [Z.eqb]. rewrite !scaled_target_spec by (done || fold T; lia).
  cbn [mbind option_bind]. rewrite (proj2 (clamp_compact_spec L _ rp_limit0 Hn)). cbn [cValue].
  fold T L o.
  pose proof (scaled_mono L o T t (T * 4) rp_limit0 ltac:(lia) rp_timespan0 ltac:(lia)).
  pose proof (scaled_mono L o T (Z.quot T 4) t rp_limit0 ltac:(lia) rp_timespan0 ltac:(lia)).
  destruct (Z.ltb_spec (round (Z.min L (o * (T * 4) / T))) (round (Z.min L (o * t / T)))); [lia|].
  destruct (Z.ltb_spec (round (Z.min L (o * t / T))) (round (Z.min L (o * Z.quot T 4 / T)))); [lia|].
  done.
Qed.

(** Bitcoin's main network: two weeks, ten minutes. *)
Definition bitcoin_params : Params :=
  mkParams 210000 (ArithToUint256 (2 ^ 224 - 1)) false false false 600 1209600 false 1000 4032 false 12 72
    3000 0 1 227931 388381 363725 481824 18 32 false.

Lemma retarget_permitted_witness :
  ∃ r, CalculateNextWorkRequired (linear_chain 20 1 1 0x1c7fffff) bitcoin_params 20 1600000000 = Some r ∧
       PermittedDifficultyTransition bitcoin_params 4032 0x1c7fffff r = Some true.
Proof.
  destruct (linear_chain 20 1 1 0x1c7fffff !! 20) as [b|] eqn:Hb; [|vm_compute in Hb; discriminate].
  assert (Hbits : nBits b = 0x1c7fffff) by (vm_compute in Hb; injection Hb as <-; reflexivity).
  destruct (retarget_permitted (linear_chain 20 1 1 0x1c7fffff) bitcoin_params 20 b 1600000000 4032) as (r & H1 & H2);
    [|exact Hb|..|exists r; split; [exact H1|rewrite Hbits in H2; exact H2]].
  - constructor; vm_compute; repeat split; first [reflexivity|discriminate].
  - rewrite Hbits. vm_compute. split; discriminate.
  - reflexivity.
Defined.

(** On networks with the per-block rule the two disagree: on the test network, with
    299 blocks exactly on schedule, the difficulty rule asks for different bits (the
    division by 1000 before the multiplication drops the last unit of the mantissa even
    at ratio one), and the header-presync check refuses that transition because the
    height is not a multiple of its own, unrelated interval. *)
Theorem ema_not_permitted :
  let chain := linear_chain 300 10 1 0x1d00ffff in
  GetNextWorkRequiredDAG chain CQbtcTestNetParams 300 1700003000 = Some 0x1d00fffe ∧
  ema_adjust CQbtcTestNetParams 10 (10 * FP_SCALE) (10 * FP_SCALE) = Some 1000 ∧
  PermittedDifficultyTransition CQbtcTestNetParams 300 0x1d00ffff 0x1d00fffe = Some false.
Proof. split; [|split]; vm_compute; reflexivity. Qed.
