(* ===== verification/Subsidy.v ===== *)
(** * The block subsidy and the issued supply

    [GetBlockSubsidy] of [validation.cpp], the amounts of [consensus/amount.h], and the
    coinbase check of [ConnectBlock] ("bad-cb-amount") run over a chain of blocks.  The
    theorems bound what a chain that passes the check can issue, for any parameters, and
    show that the parameters of the main network issue more than [MAX_MONEY]. *)

From stdpp Require Import base numbers list.
From S2P Require Import Prelude Pow.

Local Open Scope Z_scope.

Definition COIN : Z := 100000000.
Definition MAX_MONEY : Z := 21000000 * COIN.
Definition MoneyRange (nValue : Z) : bool := (0 <=? nValue) && (nValue <=? MAX_MONEY).

Definition DAG_INITIAL_BLOCK_REWARD : Z := 83333333.

Definition initial_subsidy (p : Params) : Z :=
  if fDagMode p then DAG_INITIAL_BLOCK_REWARD else 50 * COIN.

(** Heights are non-negative, so the shift count is never negative. *)
Definition GetBlockSubsidy (nHeight : Z) (p : Params) (fHasUserTransactions : bool) : Z :=
  let halvings := Z.quot nHeight (nSubsidyHalvingInterval p) in
  if 64 <=? halvings then 0
  else
    let nSubsidy := Z.shiftr (initial_subsidy p) halvings in
    if fDagMode p && (1 <=? halvings) && negb fHasUserTransactions then 0 else nSubsidy.

(** What [ConnectBlock] reads of a block for its coinbase check: the fees collected (kept in
    range transaction by transaction), the value of the coinbase outputs and the number of
    transactions. *)
Record BlockReward := mkReward { rw_nFees : Z; rw_GetValueOut : Z; rw_vtx_size : Z }.

(** [None] is the rejection "bad-cb-amount"; otherwise the amount of new money. *)
Definition check_coinbase (p : Params) (nHeight : Z) (b : BlockReward) : option Z :=
  let blockReward := rw_nFees b + GetBlockSubsidy nHeight p (1 <? rw_vtx_size b) in
  if blockReward <? rw_GetValueOut b then None else Some (rw_GetValueOut b - rw_nFees b).

(** The blocks of a chain connected from a height on, with the money they issue.  A whole
    chain starts at height 1: [ConnectBlock] returns for the genesis block before the check
    and adds none of its outputs. *)
Fixpoint connect_rewards (p : Params) (nHeight : Z) (bs : list BlockReward) : option Z :=
  match bs with
  | [] => Some 0
  | b :: bs' =>
      m ← check_coinbase p nHeight b;
      r ← connect_rewards p (nHeight + 1) bs';
      Some (m + r)
  end.

(** What can still be issued from a height on. *)
Definition remaining (p : Params) (h : Z) : Z :=
  let i := nSubsidyHalvingInterval p in
  (2 * i - h mod i) * Z.shiftr (initial_subsidy p) (h / i).

Lemma initial_subsidy_pos p : 0 <= initial_subsidy p.
Proof. unfold initial_subsidy, DAG_INITIAL_BLOCK_REWARD, COIN. destruct (fDagMode p); lia. Qed.

Lemma shifted_subsidy_pos p k : 0 <= Z.shiftr (initial_subsidy p) k.
Proof. apply Z.shiftr_nonneg, initial_subsidy_pos. Qed.

Lemma GetBlockSubsidy_le p h u :
  0 < nSubsidyHalvingInterval p → 0 <= h →
  GetBlockSubsidy h p u <= Z.shiftr (initial_subsidy p) (h / nSubsidyHalvingInterval p).
Proof.
  intros Hi Hh. unfold GetBlockSubsidy. rewrite Z.quot_div_nonneg by lia.
  pose proof (shifted_subsidy_pos p (h / nSubsidyHalvingInterval p)).
  destruct (64 <=? _); [lia|]. destruct (_ && _); lia.
Qed.

(** The two cases of the next height: the same halving period, or the start of the next. *)
Lemma next_height i h :
  0 < i → 0 <= h →
  ((h + 1) / i = h / i ∧ (h + 1) mod i = h mod i + 1) ∨
  ((h + 1) / i = h / i + 1 ∧ (h + 1) mod i = 0 ∧ h mod i = i - 1).
Proof.
  intros Hi Hh. pose proof (Z.mod_pos_bound h i Hi). pose proof (Z.div_mod h i ltac:(lia)).
  destruct (decide (h mod i = i - 1)) as [E|E].
  - right. assert (Hq : h + 1 = i * (h / i + 1) + 0) by lia.
    rewrite <- (Z.div_unique_pos (h + 1) i _ 0 ltac:(lia) Hq),
      <- (Z.mod_unique_pos (h + 1) i _ 0 ltac:(lia) Hq). lia.
  - left. assert (Hq : h + 1 = i * (h / i) + (h mod i + 1)) by lia.
    rewrite <- (Z.div_unique_pos (h + 1) i _ (h mod i + 1) ltac:(lia) Hq),
      <- (Z.mod_unique_pos (h + 1) i _ (h mod i + 1) ltac:(lia) Hq). lia.
Qed.

Lemma remaining_step p h :
  0 < nSubsidyHalvingInterval p → 0 <= h →
  remaining p (h + 1) + Z.shiftr (initial_subsidy p) (h / nSubsidyHalvingInterval p)
    <= remaining p h.
Proof.
  intros Hi Hh. unfold remaining. set (i := nSubsidyHalvingInterval p) in *.
  pose proof (shifted_subsidy_pos p (h / i)) as Hs.
  destruct (next_height i h Hi Hh) as [[-> ->]|(-> & -> & ->)]; [lia|].
  rewrite <- Z.shiftr_shiftr, (Z.shiftr_div_pow2 _ 1) by lia. change (2 ^ 1) with 2.
  set (s := Z.shiftr _ _) in *. pose proof (Z.mul_div_le s 2 ltac:(lia)). nia.
Qed.

Lemma remaining_nonneg p h : 0 < nSubsidyHalvingInterval p → 0 <= remaining p h.
Proof.
  intros Hi. apply Z.mul_nonneg_nonneg; [|apply shifted_subsidy_pos].
  pose proof (Z.mod_pos_bound h _ Hi). lia.
Qed.

Lemma connect_rewards_remaining p bs : ∀ h m,
  0 < nSubsidyHalvingInterval p → 0 <= h → connect_rewards p h bs = Some m → m <= remaining p h.
Proof.
  induction bs as [|b bs IH]; intros h m Hi Hh Hc; simpl in Hc.
  - simplify_eq. by apply remaining_nonneg.
  - unfold check_coinbase in Hc. case_match eqn:E; [done|]. simpl in Hc.
    apply bind_Some in Hc as (r & Hr & ?). simplify_eq.
    apply IH in Hr; [|lia..]. apply Z.ltb_ge in E.
    pose proof (remaining_step p h Hi Hh).
    pose proof (GetBlockSubsidy_le p h (1 <? rw_vtx_size b) Hi Hh). lia.
Qed.

(** A chain whose blocks pass the coinbase check never issues more than twice the
    initial subsidy times the halving interval, however many blocks it has and whatever
    fees they collect; with the parameters of the test network this stays below
    [MAX_MONEY]. *)
Theorem supply_bounded p bs m :
  0 < nSubsidyHalvingInterval p → connect_rewards p 1 bs = Some m →
  m <= 2 * (initial_subsidy p * nSubsidyHalvingInterval p) ∧
  (nSubsidyHalvingInterval p = nSubsidyHalvingInterval CQbtcTestNetParams → fDagMode p = true →
   m < MAX_MONEY).
Proof.
  intros Hi Hc. pose proof (connect_rewards_remaining p bs 1 m Hi ltac:(lia) Hc) as H1.
  pose proof (remaining_step p 0 Hi ltac:(lia)) as H. pose proof (shifted_subsidy_pos p (0 / nSubsidyHalvingInterval p)) as H0.
  change (0 + 1) with 1 in H. assert (H2 : m <= remaining p 0) by lia. clear H H0 H1. rename H2 into H. unfold remaining in H. rewrite Zmod_0_l, Zdiv_0_l, Z.shiftr_0_r in H.
  split; [lia|]. intros Hint Hdag. unfold initial_subsidy in H. rewrite Hdag, Hint in H.
  simpl in H. unfold DAG_INITIAL_BLOCK_REWARD in H. unfold MAX_MONEY, COIN. lia.
Qed.

Lemma supply_bounded_witness :
  connect_rewards CQbtcTestNetParams 1 (replicate 100 (mkReward 5 83333338 1)) = Some 8333333300 ∧
  8333333300 < MAX_MONEY.
Proof.
  assert (H : connect_rewards CQbtcTestNetParams 1 (replicate 100 (mkReward 5 83333338 1))
    = Some 8333333300) by (vm_compute; reflexivity).
  split; [exact H|]. exact (proj2 (supply_bounded CQbtcTestNetParams _ _ eq_refl H) eq_refl eq_refl).
Defined.

(** Full rewards of the first halving period. *)
Lemma connect_full_rewards p n : ∀ h,
  0 <= h → h + Z.of_nat n <= nSubsidyHalvingInterval p →
  connect_rewards p h (replicate n (mkReward 0 (initial_subsidy p) 1))
    = Some (Z.of_nat n * initial_subsidy p).
Proof.
  induction n as [|n IH]; intros h Hh Hn; [done|].
  cbn [connect_rewards replicate]. unfold check_coinbase, GetBlockSubsidy.
  rewrite Z.quot_small, Z.shiftr_0_r by lia. cbn [rw_nFees rw_GetValueOut rw_vtx_size].
  rewrite andb_false_r, andb_false_l. change (64 <=? 0) with false. cbv iota.
  rewrite (proj2 (Z.ltb_ge _ _)) by lia. cbn [mbind option_bind].
  rewrite IH by lia. cbn [mbind option_bind]. f_equal. lia.
Qed.

(** C39. With the parameters of the main network (a halving interval of 126,000,000 blocks
    and the same initial reward as the test network) the cap is broken long before the
    first halving: there is a chain of 25,200,001 blocks above the genesis block, all passing
    the coinbase check, that issues more than [MAX_MONEY], and the first halving period alone
    (all its blocks but the genesis block, which pays nothing) issues more than four times
    that amount. *)
Theorem mainnet_supply_exceeds_cap :
  (∃ bs m, Z.of_nat (length bs) = 25200001 ∧ connect_rewards CQbtcMainParams 1 bs = Some m ∧
     MoneyRange m = false ∧ MAX_MONEY < m) ∧
  ∃ bs m, Z.of_nat (length bs) = nSubsidyHalvingInterval CQbtcMainParams - 1 ∧
     connect_rewards CQbtcMainParams 1 bs = Some m ∧ 4 * MAX_MONEY < m.
Proof.
  assert (Hn : ∀ n, 0 <= n <= 125999999 → connect_rewards CQbtcMainParams 1
    (replicate (Z.to_nat n) (mkReward 0 (initial_subsidy CQbtcMainParams) 1)) = Some (n * 83333333)).
  { intros n Hn. rewrite connect_full_rewards by (rewrite ?Z2Nat.id by lia; simpl; lia).
    by rewrite Z2Nat.id by lia. }
  split; eexists _, _; (split; [|split; [apply Hn|]]).
  1, 4: rewrite length_replicate, Z2Nat.id; [reflexivity|done].
  1, 3: done.
  all: repeat split; reflexivity.
Qed.
