(* ===== verification/Transaction.v ===== *)
(** * Transactions: src/src/primitives/transaction.h, src/src/primitives/transaction.cpp and
    src/src/consensus/tx_check.cpp

    The data of a transaction, its two serializations (with and without witnesses), the ids
    that are the hashes of these, and the checks that need no context.  The witness of an
    input is written after the outputs, behind a marker that reads as an empty list of
    inputs and a flag byte. *)

From Stdlib Require Import String.
From S2P Require Import Prelude Serialize BlockHeader Formats Subsidy.

Local Open Scope Z_scope.

(** ** Data *)

Record COutPoint := mkOutPoint { op_hash : Z; op_n : Z }.

#[export] Instance COutPoint_eq_dec : EqDecision COutPoint.
Proof. solve_decision. Defined.

Definition NULL_INDEX : Z := 0xffffffff.
Definition COutPoint_IsNull (o : COutPoint) : bool := (op_hash o =? 0) && (op_n o =? NULL_INDEX).

(** A script is its bytes; a witness is a stack of byte strings. *)
Record CTxIn := mkTxIn {
  prevout : COutPoint;
  scriptSig : list Z;
  nSequence : Z;
  scriptWitness : list (list Z)
}.

Record CTxOut := mkTxOut { nValue : Z; scriptPubKey : list Z }.

Record CTransaction := mkTransaction {
  vin : list CTxIn;
  vout : list CTxOut;
  version : Z;
  nLockTime : Z
}.

Definition witness_IsNull (stack : list (list Z)) : bool :=
  match stack with [] => true | _ => false end.

Definition any_witness (ins : list CTxIn) : bool :=
  existsb (λ input, negb (witness_IsNull (scriptWitness input))) ins.

(** [ComputeHasWitness], cached by [HasWitness]. *)
Definition HasWitness (tx : CTransaction) : bool := any_witness (vin tx).

Definition IsCoinBase (tx : CTransaction) : bool :=
  match vin tx with
  | [input] => COutPoint_IsNull (prevout input)
  | _ => false
  end.

(** ** Serialization *)

Program Definition COutPoint_codec : codec COutPoint :=
  record_codec (pair_codec uint256_codec uint32_codec)
    (λ o, (op_hash o, op_n o)) (λ p, mkOutPoint p.1 p.2) _.
Next Obligation. by intros []. Qed.

Program Definition CTxOut_codec : codec CTxOut :=
  record_codec (pair_codec int64_codec bytes_codec)
    (λ o, (nValue o, scriptPubKey o)) (λ p, mkTxOut p.1 p.2) _.
Next Obligation. by intros []. Qed.

(** The witness is not part of the format of an input; a new input has none. *)
Definition CTxIn_fields : codec (COutPoint * (list Z * Z)) :=
  pair_codec COutPoint_codec (pair_codec bytes_codec uint32_codec).

Program Definition CTxIn_codec : codec CTxIn :=
  {| encode i := encode CTxIn_fields (prevout i, (scriptSig i, nSequence i));
     decode := f ← decode CTxIn_fields; mret (mkTxIn f.1 f.2.1 f.2.2 []);
     encodable i :=
       encodable CTxIn_fields (prevout i, (scriptSig i, nSequence i)) ∧ scriptWitness i = [] |}.
Next Obligation.
  intros [] rest [H W]. cbn [prevout scriptSig nSequence scriptWitness] in *. subst.
  by erewrite parser_bind_Some by (by apply decode_encode).
Qed.

Definition stack_codec : codec (list (list Z)) := vector_codec bytes_codec.

Definition SerializeTransaction (fAllowWitness : bool) (tx : CTransaction) : list Z :=
  let flags := if fAllowWitness && HasWitness tx then 1 else 0 in
  encode uint32_codec (version tx) ++
  (if negb (flags =? 0) then encode (vector_codec CTxIn_codec) [] ++ encode uint8_codec flags
   else []) ++
  encode (vector_codec CTxIn_codec) (vin tx) ++
  encode (vector_codec CTxOut_codec) (vout tx) ++
  (if negb (Z.land flags 1 =? 0)
   then concat ((λ i, encode stack_codec (scriptWitness i)) <$> vin tx) else []) ++
  encode uint32_codec (nLockTime tx).

Definition set_witness (i : CTxIn) (stack : list (list Z)) : CTxIn :=
  mkTxIn (prevout i) (scriptSig i) (nSequence i) stack.

(** The loop over the inputs that reads their stacks. *)
Fixpoint read_witnesses (ins : list CTxIn) : parser (list CTxIn) :=
  match ins with
  | [] => mret []
  | i :: ins' =>
      stack ← decode stack_codec; rest ← read_witnesses ins'; mret (set_witness i stack :: rest)
  end.

Definition UnserializeTransaction (fAllowWitness : bool) : parser CTransaction :=
  ver ← decode uint32_codec;
  ins ← decode (vector_codec CTxIn_codec);
  '(flags, ins, outs) ←
    (if (length ins =? 0)%nat && fAllowWitness then
       flags ← decode uint8_codec;
       if negb (flags =? 0) then
         ins' ← decode (vector_codec CTxIn_codec);
         outs ← decode (vector_codec CTxOut_codec);
         mret (flags, ins', outs)
       else mret (flags, ins, [])
     else outs ← decode (vector_codec CTxOut_codec); mret (0, ins, outs));
  '(flags, ins) ←
    (if negb (Z.land flags 1 =? 0) && fAllowWitness then
       ins' ← read_witnesses ins;
       if any_witness ins' then mret (Z.lxor flags 1, ins') else parse_fail
     else mret (flags, ins));
  if negb (flags =? 0) then parse_fail
  else lock ← decode uint32_codec; mret (mkTransaction ins outs ver lock).

(** ** Ids and sizes *)

Section ids.
Context (SHA256d : list Z → Z).

(** [ComputeHash] and [ComputeWitnessHash]. *)
Definition GetTxid (tx : CTransaction) : Z := SHA256d (SerializeTransaction false tx).
Definition GetWitnessHash (tx : CTransaction) : Z :=
  if negb (HasWitness tx) then GetTxid tx else SHA256d (SerializeTransaction true tx).
End ids.

Definition TxSerializeSize (fAllowWitness : bool) (tx : CTransaction) : Z :=
  Z.of_nat (length (SerializeTransaction fAllowWitness tx)).

Definition WITNESS_SCALE_FACTOR : Z := 4.
Definition MAX_BLOCK_WEIGHT : Z := 4000000.

(** [GetTransactionWeight]; the sizes are of [size_t], the result is an [int32_t]. *)
Definition GetTransactionWeight (tx : CTransaction) : Z :=
  s32 (u64 (TxSerializeSize false tx * (WITNESS_SCALE_FACTOR - 1) + TxSerializeSize true tx)).

(** [GetValueOut]; [None] is the exception. *)
Fixpoint value_out (outs : list CTxOut) (nValueOut : Z) : option Z :=
  match outs with
  | [] => Some nValueOut
  | tx_out :: outs' =>
      if negb (MoneyRange (nValue tx_out)) || negb (MoneyRange (s64 (nValueOut + nValue tx_out)))
      then None
      else value_out outs' (s64 (nValueOut + nValue tx_out))
  end.

Definition GetValueOut (tx : CTransaction) : option Z := value_out (vout tx) 0.

(** [CalculateOutputValue], without checks. *)
Definition CalculateOutputValue (tx : CTransaction) : Z :=
  fold_left (λ sum txout, s64 (sum + nValue txout)) (vout tx) 0.

(** ** [CheckTransaction] *)

(** The loop over the outputs, with the sum so far. *)
Fixpoint check_outputs (outs : list CTxOut) (nValueOut : Z) : option string :=
  match outs with
  | [] => None
  | txout :: outs' =>
      if nValue txout <? 0 then Some "bad-txns-vout-negative"%string
      else if MAX_MONEY <? nValue txout then Some "bad-txns-vout-toolarge"%string
      else
        let nValueOut := s64 (nValueOut + nValue txout) in
        if negb (MoneyRange nValueOut) then Some "bad-txns-txouttotal-toolarge"%string
        else check_outputs outs' nValueOut
  end.

(** The loop that inserts the outpoints into a set. *)
Fixpoint check_duplicates (ins : list CTxIn) (vInOutPoints : list COutPoint) : option string :=
  match ins with
  | [] => None
  | txin :: ins' =>
      if bool_decide (prevout txin ∈ vInOutPoints) then Some "bad-txns-inputs-duplicate"%string
      else check_duplicates ins' (prevout txin :: vInOutPoints)
  end.

(** The last part: the script of a coinbase, the outpoints of the others. *)
Definition check_prevouts (tx : CTransaction) : option string :=
  if IsCoinBase tx then
    match vin tx with
    | i :: _ =>
        if bool_decide (length (scriptSig i) < 2)%nat || bool_decide (100 < length (scriptSig i))%nat
        then Some "bad-cb-length"%string else None
    | [] => None
    end
  else if existsb (λ i, COutPoint_IsNull (prevout i)) (vin tx)
  then Some "bad-txns-prevout-null"%string else None.

(** The reject reason, if any; the result is always [TX_CONSENSUS]. *)
Definition CheckTransaction (tx : CTransaction) : option string :=
  if (length (vin tx) =? 0)%nat then Some "bad-txns-vin-empty"%string
  else if (length (vout tx) =? 0)%nat then Some "bad-txns-vout-empty"%string
  else if MAX_BLOCK_WEIGHT <? u64 (TxSerializeSize false tx * WITNESS_SCALE_FACTOR)
  then Some "bad-txns-oversize"%string
  else match check_outputs (vout tx) 0 with
       | Some reason => Some reason
       | None =>
           match check_duplicates (vin tx) [] with
           | Some reason => Some reason
           | None => check_prevouts tx
           end
       end.

(** ** Lemmas *)

Definition strip (i : CTxIn) : CTxIn := set_witness i [].
Definition strip_witness (tx : CTransaction) : CTransaction :=
  mkTransaction (strip <$> vin tx) (vout tx) (version tx) (nLockTime tx).

(** The ranges of the C++ types, and sizes a reader accepts. *)
Record txin_ok (i : CTxIn) : Prop := {
  txin_fields_ok : encodable CTxIn_codec (strip i);
  txin_witness_ok : encodable stack_codec (scriptWitness i)
}.

Record tx_ok (tx : CTransaction) : Prop := {
  tx_version_ok : fits 32 (version tx);
  tx_locktime_ok : fits 32 (nLockTime tx);
  tx_vin_size : vector_size_ok (vin tx);
  tx_vin_ok : Forall txin_ok (vin tx);
  tx_vout_ok : encodable (vector_codec CTxOut_codec) (vout tx)
}.

#[export] Instance COutPoint_canonical : Canonical COutPoint_codec.
Proof. apply record_canonical; [apply _|]. by intros []. Qed.
#[export] Instance CTxOut_canonical : Canonical CTxOut_codec.
Proof. apply record_canonical; [apply _|]. by intros []. Qed.
#[export] Instance stack_canonical : Canonical stack_codec.
Proof. apply _. Qed.

#[export] Instance CTxIn_canonical : Canonical CTxIn_codec.
Proof.
  intros s i rest Hs (f & s1 & Hf & [= <- <-])%parser_bind_inv.
  apply canonical in Hf as [-> Hf]; [|done]. by destruct f as [? []].
Qed.

Lemma encode_strip ins :
  encode (vector_codec CTxIn_codec) (strip <$> ins) = encode (vector_codec CTxIn_codec) ins.
Proof. cbn [encode vector_codec]. unfold write_vector. rewrite length_fmap. by rewrite <- list_fmap_compose. Qed.

Lemma strip_ins_ok tx : tx_ok tx → encodable (vector_codec CTxIn_codec) (strip <$> vin tx).
Proof.
  intros []. split; [unfold vector_size_ok; by rewrite length_fmap|].
  apply Forall_fmap. eapply Forall_impl; [done|]. by intros i [].
Qed.

Lemma any_witness_strip ins : any_witness ins = false → strip <$> ins = ins.
Proof.
  induction ins as [|[p g q w] ins IH]; [done|]. cbn [any_witness existsb]. rewrite orb_false_iff.
  intros [Hw H]. rewrite fmap_cons, IH by done. by destruct w.
Qed.

Lemma strip_no_witness tx : HasWitness tx = false → strip_witness tx = tx.
Proof. intros H%any_witness_strip. destruct tx. unfold strip_witness. cbn in *. by rewrite H. Qed.

Lemma strip_not_any ins : any_witness (strip <$> ins) = false.
Proof. by induction ins. Qed.

Lemma SerializeTransaction_strip tx :
  SerializeTransaction false (strip_witness tx) = SerializeTransaction false tx.
Proof. unfold SerializeTransaction. cbn [andb vin vout version nLockTime strip_witness]. by rewrite encode_strip. Qed.

Lemma SerializeTransaction_no_witness tx :
  HasWitness tx = false → SerializeTransaction true tx = SerializeTransaction false tx.
Proof. intros H. unfold SerializeTransaction. by rewrite H. Qed.

Lemma read_witnesses_encode ins rest :
  Forall txin_ok ins →
  read_witnesses (strip <$> ins)
    (concat ((λ i, encode stack_codec (scriptWitness i)) <$> ins) ++ rest) = Some (ins, rest).
Proof.
  induction 1 as [|i ins [_ Hi] _ IH]; [done|]. rewrite !fmap_cons. cbn [read_witnesses concat].
  rewrite <- app_assoc. erewrite parser_bind_Some by (by apply decode_encode).
  erewrite parser_bind_Some by (apply IH). by destruct i.
Qed.

Lemma read_witnesses_inv ins s ins' rest :
  Forall is_byte s → Forall (encodable CTxIn_codec) ins → read_witnesses ins s = Some (ins', rest) →
  s = concat ((λ i, encode stack_codec (scriptWitness i)) <$> ins') ++ rest ∧
  ins = strip <$> ins' ∧ Forall txin_ok ins'.
Proof.
  intros Hs Hins. revert s ins' Hs. induction Hins as [|i ins Hi _ IH]; intros s ins' Hs; cbn [read_witnesses].
  - by intros [= <- <-].
  - intros (st & s1 & Hst & (r & s2 & Hr & [= <- <-])%parser_bind_inv)%parser_bind_inv.
    apply canonical in Hst as [-> Hst]; [|done]. apply Forall_app in Hs as [_ Hs].
    apply IH in Hr as (-> & -> & Hr); [|done]. rewrite !fmap_cons. cbn [concat]. rewrite <- app_assoc.
    assert (strip (set_witness i st) = i) as E by (destruct i, Hi; cbn in *; by subst).
    split_and!; [done|by rewrite E|]. constructor; [split; [by rewrite E|done]|done].
Qed.

(** Reading with and without the extended format. *)
Lemma unserialize_basic w tx rest :
  tx_ok tx → (w = true → vin tx ≠ []) →
  UnserializeTransaction w (SerializeTransaction false tx ++ rest) = Some (strip_witness tx, rest).
Proof.
  intros Hok Hw. pose proof (strip_ins_ok tx Hok) as Hins. destruct Hok.
  unfold SerializeTransaction. cbn [andb Z.eqb negb app]. rewrite <- encode_strip, <- !app_assoc.
  change (negb (Z.land 0 1 =? 0)) with false. cbn iota. cbn [app].
  unfold UnserializeTransaction. erewrite parser_bind_Some by (by apply decode_encode).
  erewrite parser_bind_Some by (by apply decode_encode).
  replace ((length (strip <$> vin tx) =? 0)%nat && w) with false.
  2: { destruct w; [|by rewrite andb_false_r]. rewrite length_fmap, andb_true_r. destruct (vin tx); [|done]. by destruct Hw. }
  erewrite parser_bind_Some by (erewrite parser_bind_Some by (by apply decode_encode); done).
  cbn beta iota. change (negb (Z.land 0 1 =? 0)) with false. cbn [andb].
  erewrite parser_bind_Some by done. cbn beta iota. cbn [Z.eqb negb].
  by erewrite parser_bind_Some by (by apply decode_encode).
Qed.

Lemma unserialize_extended tx rest :
  tx_ok tx → HasWitness tx = true →
  UnserializeTransaction true (SerializeTransaction true tx ++ rest) = Some (tx, rest).
Proof.
  intros Hok Hw. pose proof (strip_ins_ok tx Hok) as Hins. destruct Hok.
  unfold SerializeTransaction. rewrite Hw. cbn [andb Z.eqb negb]. rewrite <- (encode_strip (vin tx)), <- !app_assoc.
  change (negb (Z.land 1 1 =? 0)) with true. cbn iota.
  unfold UnserializeTransaction. erewrite parser_bind_Some by (by apply decode_encode).
  erewrite parser_bind_Some by (by apply decode_encode). cbn [length Nat.eqb andb].
  erewrite parser_bind_Some.
  2: { erewrite parser_bind_Some by (by apply decode_encode). cbn [Z.eqb negb].
    erewrite parser_bind_Some by (by apply decode_encode).
    erewrite parser_bind_Some by (by apply decode_encode). done. }
  cbn beta iota. erewrite parser_bind_Some.
  2: { change (negb (Z.land 1 1 =? 0) && true) with true. cbn iota.
    erewrite parser_bind_Some by (by apply read_witnesses_encode). unfold HasWitness in Hw. by rewrite Hw. }
  cbn beta iota. change (Z.lxor 1 1) with 0. cbn [Z.eqb negb].
  erewrite parser_bind_Some by (by apply decode_encode). by destruct tx.
Qed.

Lemma unserialize_with tx rest :
  tx_ok tx → vin tx ≠ [] →
  UnserializeTransaction true (SerializeTransaction true tx ++ rest) = Some (tx, rest).
Proof.
  intros Hok Hne. destruct (HasWitness tx) eqn:Hw; [by apply unserialize_extended|].
  rewrite SerializeTransaction_no_witness, unserialize_basic, strip_no_witness by done. done.
Qed.

(** ** What the ids commit to *)

Section binding.
Context (SHA256d : list Z → Z).

(** The strings that are hashed. *)
Context (hashed : list (list Z)).

(** The id commits to everything but the witnesses. *)
Lemma txid_binding tx tx' :
  SerializeTransaction false tx ∈ hashed → SerializeTransaction false tx' ∈ hashed →
  tx_ok tx → tx_ok tx' → GetTxid SHA256d tx = GetTxid SHA256d tx' →
  strip_witness tx = strip_witness tx' ∨ collision SHA256d hashed.
Proof.
  intros Hx Hy Hok Hok' [E|?]%(hash_eq SHA256d hashed); [left|by right|done..].
  pose proof (unserialize_basic false tx [] Hok ltac:(done)) as H1.
  rewrite E, unserialize_basic in H1 by done. congruence.
Qed.

Lemma GetWitnessHash_eq tx : GetWitnessHash SHA256d tx = SHA256d (SerializeTransaction true tx).
Proof using Type.
  unfold GetWitnessHash, GetTxid. destruct (HasWitness tx) eqn:E; [done|].
  by rewrite SerializeTransaction_no_witness.
Qed.

(** The witness id commits to the witnesses too. *)
Lemma wtxid_binding tx tx' :
  SerializeTransaction true tx ∈ hashed → SerializeTransaction true tx' ∈ hashed →
  tx_ok tx → tx_ok tx' → vin tx ≠ [] → vin tx' ≠ [] →
  GetWitnessHash SHA256d tx = GetWitnessHash SHA256d tx' → tx = tx' ∨ collision SHA256d hashed.
Proof.
  intros Hx Hy Hok Hok' Hne Hne'. rewrite !GetWitnessHash_eq. intros [E|?]%(hash_eq SHA256d hashed); [left|by right|done..].
  pose proof (unserialize_with tx [] Hok Hne) as H1.
  rewrite E, unserialize_with in H1 by done. congruence.
Qed.
End binding.

(** What the flag part of a reader leaves. *)
Lemma flags_inv w flags ins s flags' ins' rest :
  Forall is_byte s → Forall (encodable CTxIn_codec) ins → is_byte flags →
  (if negb (Z.land flags 1 =? 0) && w then
     ins' ← read_witnesses ins;
     if any_witness ins' then mret (Z.lxor flags 1, ins') else parse_fail
   else mret (flags, ins)) s = Some ((flags', ins'), rest) → flags' = 0 →
  flags = 0 ∧ ins' = ins ∧ rest = s ∨
  flags = 1 ∧ w = true ∧ ins = strip <$> ins' ∧ any_witness ins' = true ∧ Forall txin_ok ins' ∧
  s = concat ((λ i, encode stack_codec (scriptWitness i)) <$> ins') ++ rest.
Proof.
  intros Hs Hi Hf. destruct (negb _ && w) eqn:E; [|intros [= -> -> ->] ->; auto].
  apply andb_true_iff in E as [_ ->].
  intros (r & s1 & Hr & H)%parser_bind_inv ->. apply read_witnesses_inv in Hr as (-> & -> & ?); [|done..].
  destruct (any_witness r) eqn:Ew; [|done]. injection H as Hx <- <-. apply Z.lxor_eq in Hx as ->. auto 10.
Qed.

Lemma no_witness_ok ins : Forall (encodable CTxIn_codec) ins → Forall txin_ok ins ∧ any_witness ins = false.
Proof.
  induction 1 as [|[p g q w] ins [Hi Hw] _ [IH1 IH2]]; [done|]. cbn in Hw. subst w. split; [|done].
  constructor; [|done]. split; [done|]. split; [|done]. unfold vector_size_ok, MAX_SIZE. cbn. lia.
Qed.

Lemma vin_read s ins rest :
  Forall is_byte s → decode (vector_codec CTxIn_codec) s = Some (ins, rest) →
  s = encode (vector_codec CTxIn_codec) ins ++ rest ∧ vector_size_ok ins ∧
  Forall (encodable CTxIn_codec) ins ∧ Forall is_byte rest.
Proof. intros Hs H. apply canonical in H as [-> []]; [|done]. by apply Forall_app in Hs as [_ ?]. Qed.

Lemma vout_read s outs rest :
  Forall is_byte s → decode (vector_codec CTxOut_codec) s = Some (outs, rest) →
  s = encode (vector_codec CTxOut_codec) outs ++ rest ∧
  encodable (vector_codec CTxOut_codec) outs ∧ Forall is_byte rest.
Proof. intros Hs H. apply canonical in H as [-> ?]; [|done]. by apply Forall_app in Hs as [_ ?]. Qed.

(** What the part that reads the inputs and the outputs has read. *)
Lemma body_inv w ins s flags ins' outs rest :
  Forall is_byte s → Forall (encodable CTxIn_codec) ins → vector_size_ok ins →
  (if (length ins =? 0)%nat && w then
     flags ← decode uint8_codec;
     if negb (flags =? 0) then
       ins' ← decode (vector_codec CTxIn_codec);
       outs ← decode (vector_codec CTxOut_codec);
       mret (flags, ins', outs)
     else mret (flags, ins, [])
   else outs ← decode (vector_codec CTxOut_codec); mret (0, ins, outs)) s
  = Some ((flags, ins', outs), rest) →
  is_byte flags ∧ Forall is_byte rest ∧ vector_size_ok ins' ∧ Forall (encodable CTxIn_codec) ins' ∧
  encodable (vector_codec CTxOut_codec) outs ∧
  (flags = 0 ∧ ins' = ins ∧ s = encode (vector_codec CTxOut_codec) outs ++ rest ∨
   flags ≠ 0 ∧ ins = [] ∧
   s = encode uint8_codec flags ++ encode (vector_codec CTxIn_codec) ins' ++
       encode (vector_codec CTxOut_codec) outs ++ rest).
Proof.
  intros Hs Hi Hsz. destruct ((length ins =? 0)%nat && w) eqn:E.
  - apply andb_true_iff in E as [->%Nat.eqb_eq%length_zero_iff_nil _].
    intros (f & s1 & Hf & H)%parser_bind_inv. apply canonical in Hf as [-> Hf]; [|done].
    apply Forall_app in Hs as [_ Hs]. destruct (Z.eqb_spec f 0) as [->|Hf0]; cbn [negb] in H.
    + injection H as <- <- <- <-. split_and!; try done. left. done.
    + apply parser_bind_inv in H as (i & s2 & H2 & (o & s3 & H3 & [= <- <- <- <-])%parser_bind_inv).
      apply vin_read in H2 as (-> & ? & ? & Hs2); [|done].
      apply vout_read in H3 as (-> & ? & ?); [|done]. split_and!; try done. right. done.
  - intros (o & s3 & H3 & [= <- <- <- <-])%parser_bind_inv.
    apply vout_read in H3 as (-> & ? & ?); [|done]. split_and!; try done. by left.
Qed.

(** The value of the outputs, without a bound. *)
Definition total_value (outs : list CTxOut) : Z := foldr (λ o sum, nValue o + sum) 0 outs.

Lemma total_value_nonneg outs : Forall (λ o, 0 <= nValue o) outs → 0 <= total_value outs.
Proof. induction 1; cbn [total_value foldr]; fold total_value; unfold total_value in *; lia. Qed.

Lemma MoneyRange_true x : MoneyRange x = true ↔ 0 <= x <= MAX_MONEY.
Proof. unfold MoneyRange. lia. Qed.

(** Within the range of money nothing wraps. *)
Lemma money_add a b : 0 <= a <= MAX_MONEY → 0 <= b <= MAX_MONEY → s64 (a + b) = a + b.
Proof. intros Ha Hb. apply swrap_small; unfold MAX_MONEY, COIN in *; lia. Qed.

Lemma check_outputs_exact outs acc :
  0 <= acc <= MAX_MONEY →
  check_outputs outs acc = None ↔
  Forall (λ o, 0 <= nValue o) outs ∧ acc + total_value outs <= MAX_MONEY.
Proof.
  revert acc. induction outs as [|o outs IH]; intros acc Hacc; cbn [check_outputs total_value foldr].
  { split; [split; [done|lia]|done]. }
  fold (total_value outs). rewrite Forall_cons.
  destruct (Z.ltb_spec (nValue o) 0); [split; [done|lia]|].
  destruct (Z.ltb_spec MAX_MONEY (nValue o)).
  { split; [done|]. intros [[_ Hnn%total_value_nonneg] ?]. lia. }
  cbv zeta. rewrite money_add by lia. destruct (MoneyRange _) eqn:E; cbn [negb].
  - apply MoneyRange_true in E. rewrite IH by lia. rewrite Z.add_assoc. intuition lia.
  - split; [done|]. intros [[_ Hnn%total_value_nonneg] ?].
    enough (MoneyRange (acc + nValue o) = true) by congruence. apply MoneyRange_true. lia.
Qed.

Lemma value_out_exact outs acc :
  0 <= acc <= MAX_MONEY → Forall (λ o, 0 <= nValue o) outs → acc + total_value outs <= MAX_MONEY →
  value_out outs acc = Some (acc + total_value outs) ∧
  fold_left (λ sum txout, s64 (sum + nValue txout)) outs acc = acc + total_value outs.
Proof.
  revert acc. induction outs as [|o outs IH]; intros acc Hacc H Hs; cbn [value_out fold_left total_value foldr].
  { by rewrite Z.add_0_r. }
  apply Forall_cons in H as [Ho H]. pose proof (total_value_nonneg outs H).
  cbn [total_value foldr] in Hs. fold (total_value outs) in *. rewrite money_add by lia.
  rewrite (proj2 (MoneyRange_true (nValue o))), (proj2 (MoneyRange_true (acc + nValue o))) by lia.
  cbn [negb orb]. rewrite Z.add_assoc. apply IH; [lia|done|lia].
Qed.

Lemma check_duplicates_exact ins seen :
  check_duplicates ins seen = None ↔
  NoDup (prevout <$> ins) ∧ Forall (λ i, prevout i ∉ seen) ins.
Proof.
  revert seen. induction ins as [|i ins IH]; intros seen; cbn [check_duplicates].
  { rewrite fmap_nil. split; [repeat constructor|done]. }
  rewrite fmap_cons, NoDup_cons, Forall_cons.
  case_bool_decide as Hi; [split; [done|tauto]|].
  rewrite IH, list_elem_of_fmap. setoid_rewrite elem_of_cons. rewrite !Forall_forall. naive_solver.
Qed.

(** What the checks without context ask of a transaction. *)
Record tx_valid (tx : CTransaction) : Prop := {
  tx_has_inputs : vin tx ≠ [];
  tx_has_outputs : vout tx ≠ [];
  tx_small : TxSerializeSize false tx * 4 <= MAX_BLOCK_WEIGHT;
  tx_values : Forall (λ o, 0 <= nValue o) (vout tx);
  tx_total : total_value (vout tx) <= MAX_MONEY;
  tx_distinct_inputs : NoDup (prevout <$> vin tx);
  tx_coinbase_script : IsCoinBase tx = true →
    ∀ i, head (vin tx) = Some i → (2 <= length (scriptSig i) <= 100)%nat;
  tx_real_inputs : IsCoinBase tx = false →
    Forall (λ i, COutPoint_IsNull (prevout i) = false) (vin tx)
}.

Lemma check_prevouts_exact tx :
  check_prevouts tx = None ↔
  (IsCoinBase tx = true → ∀ i, head (vin tx) = Some i → (2 <= length (scriptSig i) <= 100)%nat) ∧
  (IsCoinBase tx = false → Forall (λ i, COutPoint_IsNull (prevout i) = false) (vin tx)).
Proof.
  unfold check_prevouts. destruct (IsCoinBase tx) eqn:E.
  - destruct (vin tx) as [|i ins]; [done|]. cbn [head].
    do 2 case_bool_decide; cbn [orb]; split; try done.
    + intros [H' _]. specialize (H' eq_refl i eq_refl). lia.
    + intros [H' _]. specialize (H' eq_refl i eq_refl). lia.
    + intros [H' _]. specialize (H' eq_refl i eq_refl). lia.
    + intros _. split; [|done]. intros _ ? [= <-]. lia.
  - destruct (existsb _ _) eqn:Ex; split; try done.
    + intros [_ H]. specialize (H eq_refl). apply existsb_exists in Ex as (i & Hi & Hn).
      rewrite Forall_forall in H. rewrite H in Hn by (by apply list_elem_of_In). done.
    + intros _. split; [done|]. intros _. apply Forall_forall. intros i Hi.
      destruct (COutPoint_IsNull (prevout i)) eqn:Hn; [|done].
      rewrite <- Ex. symmetry. apply existsb_exists. exists i. split; [by apply list_elem_of_In|done].
Qed.

(** Which transactions pass, for sizes a 64-bit machine can hold. *)
Lemma CheckTransaction_iff tx :
  TxSerializeSize false tx < 2 ^ 61 → CheckTransaction tx = None ↔ tx_valid tx.
Proof.
  intros Hsz. unfold CheckTransaction.
  assert (Hu : u64 (TxSerializeSize false tx * WITNESS_SCALE_FACTOR) = TxSerializeSize false tx * 4).
  { apply wrap_small. unfold fits, WITNESS_SCALE_FACTOR, TxSerializeSize in *. lia. }
  rewrite Hu. destruct (Nat.eqb_spec (length (vin tx)) 0) as [H0|H0].
  { split; [done|]. intros []. by apply length_zero_iff_nil in H0. }
  destruct (Nat.eqb_spec (length (vout tx)) 0) as [H1|H1].
  { split; [done|]. intros []. by apply length_zero_iff_nil in H1. }
  destruct (Z.ltb_spec MAX_BLOCK_WEIGHT (TxSerializeSize false tx * 4)).
  { split; [done|]. intros []. lia. }
  destruct (check_outputs (vout tx) 0) eqn:Eo.
  { split; [done|]. intros []. enough (check_outputs (vout tx) 0 = None) by congruence.
    apply check_outputs_exact; [unfold MAX_MONEY, COIN; lia|]. done. }
  apply check_outputs_exact in Eo as [Ho1 Ho2]; [|unfold MAX_MONEY, COIN; lia].
  destruct (check_duplicates (vin tx) []) eqn:Ed.
  { split; [done|]. intros []. enough (check_duplicates (vin tx) [] = None) by congruence.
    apply check_duplicates_exact. split; [done|]. apply Forall_true. set_solver. }
  apply check_duplicates_exact in Ed as [Hd _]. rewrite check_prevouts_exact.
  split; [|intros []; done]. intros [Hc Hn].
  split; try done; [by intros E%length_zero_iff_nil|by intros E%length_zero_iff_nil].
Qed.

(** ** Properties *)

(** A transaction in range that is written with its witnesses and has an input is read
    back as it was, and the rest of the stream is left; written without them it is read
    back without its witnesses, whether or not the reader expects the extended format. *)
Theorem transaction_roundtrip tx rest :
  tx_ok tx →
  (vin tx ≠ [] →
   UnserializeTransaction true (SerializeTransaction true tx ++ rest) = Some (tx, rest) ∧
   UnserializeTransaction true (SerializeTransaction false tx ++ rest)
   = Some (strip_witness tx, rest)) ∧
  UnserializeTransaction false (SerializeTransaction false tx ++ rest)
  = Some (strip_witness tx, rest).
Proof.
  intros Hok. split; [|by apply unserialize_basic]. intros Hne.
  split; [by apply unserialize_with|by apply unserialize_basic].
Qed.

(** A payment with two inputs, one of them with a witness. *)
Definition tx_example : CTransaction :=
  mkTransaction
    [mkTxIn (mkOutPoint 7 0) [] 0xffffffff [[1; 2]; [3]]; mkTxIn (mkOutPoint 9 1) [0x51] 0 []]
    [mkTxOut (3 * COIN) [0x51]; mkTxOut 0 [0x6a]] 2 500.

Lemma tx_example_ok : tx_ok tx_example.
Proof.
  split; cbn; unfold fits, vector_size_ok, is_byte, MAX_SIZE, COIN; cbn; try lia;
    repeat constructor; cbn; unfold fits, vector_size_ok, is_byte, MAX_SIZE; cbn; lia.
Qed.

(** There is one way to write a transaction: what a reader accepts, in either format,
    is the serialization of the transaction it returns, followed by what it left; and the
    transaction is in range, without witnesses if the reader does not expect them.  So no
    one can change the bytes of a transaction on the wire without changing its fields. *)
Theorem transaction_canonical w s tx rest :
  Forall is_byte s → UnserializeTransaction w s = Some (tx, rest) →
  s = SerializeTransaction w tx ++ rest ∧ tx_ok tx ∧ (w = false → HasWitness tx = false).
Proof.
  intros Hs (ver & s1 & Hv & H)%parser_bind_inv. apply canonical in Hv as [-> Hv]; [|done].
  apply Forall_app in Hs as [_ Hs]. apply parser_bind_inv in H as (ins & s2 & Hins & H).
  apply vin_read in Hins as (-> & Hsz & Hins & Hs2); [|done].
  apply parser_bind_inv in H as ([[flags ins1] outs] & s3 & Hb & H).
  apply body_inv in Hb as (Hf & Hs3 & Hsz1 & Hins1 & Houts & Hb); [|done..].
  apply parser_bind_inv in H as ([flags' ins2] & s4 & Hw & H).
  destruct (Z.eqb_spec flags' 0) as [->|]; [|done]. cbn [negb] in H.
  apply flags_inv in Hw; [|done..].
  apply parser_bind_inv in H as (lock & s5 & Hl & [= <- <-]).
  destruct Hw as [(-> & -> & ->)|(-> & -> & -> & Ha & Hok2 & ->)];
    [|apply Forall_app in Hs3 as [_ Hs3]]; apply canonical in Hl as [-> Hl]; try done.
  - destruct Hb as [(_ & -> & ->)|[]]; [|done]. destruct (no_witness_ok ins) as [Hok Hany]; [done|].
    unfold SerializeTransaction, HasWitness. cbn [vin vout version nLockTime]. rewrite Hany, andb_false_r.
    cbn [Z.eqb negb app]. change (negb (Z.land 0 1 =? 0)) with false. cbn [app]. rewrite <- !app_assoc.
    split_and!; done.
  - destruct Hb as [[]|(_ & -> & ->)]; [done|]. rewrite encode_strip.
    unfold SerializeTransaction, HasWitness. cbn [vin vout version nLockTime]. rewrite Ha.
    cbn [andb Z.eqb negb]. change (negb (Z.land 1 1 =? 0)) with true. cbn iota. rewrite <- !app_assoc.
    split_and!; [done| |done]. split; cbn; try done. unfold vector_size_ok in *. by rewrite length_fmap in Hsz1.
Qed.

(** C27. [CheckTransaction] accepts exactly the transactions with inputs and outputs, of at
    most a quarter of the block weight, without negative outputs, whose outputs add up to
    at most [MAX_MONEY] as integers, without repeated outpoints, with a script of 2 to 100
    bytes if a coinbase and without null outpoints otherwise.  For these neither way of
    adding up the outputs overflows or throws. *)
Theorem check_transaction_exact tx :
  TxSerializeSize false tx < 2 ^ 61 →
  (CheckTransaction tx = None ↔ tx_valid tx) ∧
  (CheckTransaction tx = None →
   GetValueOut tx = Some (total_value (vout tx)) ∧
   CalculateOutputValue tx = total_value (vout tx)).
Proof.
  intros Hsz. split; [by apply CheckTransaction_iff|].
  intros H%CheckTransaction_iff; [|done]. destruct H.
  destruct (value_out_exact (vout tx) 0) as [? ?]; [unfold MAX_MONEY, COIN; lia|done..|]. done.
Qed.

Lemma check_transaction_exact_witness :
  CheckTransaction tx_example = None ∧ GetValueOut tx_example = Some 300000000.
Proof.
  assert (H : CheckTransaction tx_example = None) by (vm_compute; reflexivity).
  split; [exact H|]. apply (check_transaction_exact tx_example); [vm_compute; reflexivity|exact H].
Defined.
