(* ===== verification/Script.v ===== *)
(** * Scripts as data: src/src/script/script.h and src/src/script/script.cpp

    The instruction reader, the number format and the pushes that build a script, the
    script templates, and the signature-operation count; not the interpreter.  A script is
    its bytes. *)

From S2P Require Import Prelude Serialize BlockHeader Formats.

Local Open Scope Z_scope.

(** ** Opcodes *)

Definition OP_0 : Z := 0x00.
Definition OP_PUSHDATA1 : Z := 0x4c.
Definition OP_PUSHDATA2 : Z := 0x4d.
Definition OP_PUSHDATA4 : Z := 0x4e.
Definition OP_1 : Z := 0x51.
Definition OP_16 : Z := 0x60.
Definition OP_RETURN : Z := 0x6a.
Definition OP_EQUAL : Z := 0x87.
Definition OP_HASH160 : Z := 0xa9.
Definition OP_CHECKSIG : Z := 0xac.
Definition OP_CHECKSIGVERIFY : Z := 0xad.
Definition OP_CHECKMULTISIG : Z := 0xae.
Definition OP_CHECKMULTISIGVERIFY : Z := 0xaf.
Definition OP_NOP10 : Z := 0xb9.
Definition OP_INVALIDOPCODE : Z := 0xff.
Definition MAX_OPCODE : Z := OP_NOP10.
Definition MAX_PUBKEYS_PER_MULTISIG : Z := 20.
Definition MAX_SCRIPT_ELEMENT_SIZE : nat := 520.
Definition MAX_SCRIPT_SIZE : nat := 10000.

(** ** [GetScriptOp] *)

(** The size of the immediate operand, and what follows it. *)
Definition push_size (opcode : Z) (pc : list Z) : option (Z * list Z) :=
  if opcode <? OP_PUSHDATA1 then Some (opcode, pc)
  else if opcode =? OP_PUSHDATA1 then read_le 1 pc
  else if opcode =? OP_PUSHDATA2 then read_le 2 pc
  else read_le 4 pc.

(** The opcode, the data it pushes and the rest of the script. *)
Definition GetScriptOp (pc : list Z) : option (Z * list Z * list Z) :=
  match pc with
  | [] => None
  | opcode :: pc =>
      if opcode <=? OP_PUSHDATA4 then
        match push_size opcode pc with
        | Some (nSize, pc) =>
            if u32 (Z.of_nat (length pc)) <? nSize then None
            else Some (opcode, take (Z.to_nat nSize) pc, drop (Z.to_nat nSize) pc)
        | None => None
        end
      else Some (opcode, [], pc)
  end.

Definition DecodeOP_N (opcode : Z) : Z := if opcode =? OP_0 then 0 else opcode - (OP_1 - 1).

(** ** [GetSigOpCount]

    An instruction has at least one byte, so the length of the script is enough fuel. *)

Definition op_sigops (fAccurate : bool) (opcode lastOpcode : Z) : Z :=
  if (opcode =? OP_CHECKSIG) || (opcode =? OP_CHECKSIGVERIFY) then 1
  else if (opcode =? OP_CHECKMULTISIG) || (opcode =? OP_CHECKMULTISIGVERIFY) then
    if fAccurate && (OP_1 <=? lastOpcode) && (lastOpcode <=? OP_16) then DecodeOP_N lastOpcode
    else MAX_PUBKEYS_PER_MULTISIG
  else 0.

Fixpoint sigop_loop (fuel : nat) (fAccurate : bool) (pc : list Z) (lastOpcode n : Z) : Z :=
  match fuel with
  | O => n
  | S fuel' =>
      match GetScriptOp pc with
      | None => n
      | Some (opcode, _, pc) =>
          sigop_loop fuel' fAccurate pc opcode (u32 (n + op_sigops fAccurate opcode lastOpcode))
      end
  end.

Definition GetSigOpCount (fAccurate : bool) (script : list Z) : Z :=
  sigop_loop (length script) fAccurate script OP_INVALIDOPCODE 0.

(** ** Templates *)

(** A byte of the script; the callers check the size first. *)
Definition byte_at (script : list Z) (i : nat) : Z := default 0 (script !! i).

Definition IsPayToScriptHash (script : list Z) : bool :=
  (length script =? 23)%nat && (byte_at script 0 =? OP_HASH160) && (byte_at script 1 =? 0x14) &&
  (byte_at script 22 =? OP_EQUAL).

Definition IsPayToWitnessScriptHash (script : list Z) : bool :=
  (length script =? 34)%nat && (byte_at script 0 =? OP_0) && (byte_at script 1 =? 0x20).

Definition IsPayToAnchor (script : list Z) : bool :=
  (length script =? 4)%nat && (byte_at script 0 =? OP_1) && (byte_at script 1 =? 0x02) &&
  (byte_at script 2 =? 0x4e) && (byte_at script 3 =? 0x73).

(** The version and the program. *)
Definition IsWitnessProgram (script : list Z) : option (Z * list Z) :=
  let size := length script in
  if (size <? 4)%nat || (42 <? size)%nat then None
  else if negb (byte_at script 0 =? OP_0) &&
          ((byte_at script 0 <? OP_1) || (OP_16 <? byte_at script 0)) then None
  else if byte_at script 1 + 2 =? Z.of_nat size
  then Some (DecodeOP_N (byte_at script 0), drop 2 script)
  else None.

(** The loops that look at every instruction. *)
Fixpoint all_ops (ok : Z → list Z → bool) (fuel : nat) (pc : list Z) : bool :=
  match pc, fuel with
  | [], _ => true
  | _, O => false
  | _, S fuel' =>
      match GetScriptOp pc with
      | Some (opcode, item, pc) => ok opcode item && all_ops ok fuel' pc
      | None => false
      end
  end.

Definition IsPushOnly (script : list Z) : bool :=
  all_ops (λ opcode _, negb (OP_16 <? opcode)) (length script) script.

Definition HasValidOps (script : list Z) : bool :=
  all_ops (λ opcode item, negb (MAX_OPCODE <? opcode) &&
                          negb (MAX_SCRIPT_ELEMENT_SIZE <? length item)%nat) (length script) script.

Definition IsUnspendable (script : list Z) : bool :=
  negb (length script =? 0)%nat && (byte_at script 0 =? OP_RETURN) ||
  (MAX_SCRIPT_SIZE <? length script)%nat.

(** The last item a script of pushes leaves; [None] is a bad or other instruction. *)
Fixpoint last_push (fuel : nat) (pc vData : list Z) : option (list Z) :=
  match pc, fuel with
  | [], _ => Some vData
  | _, O => None
  | _, S fuel' =>
      match GetScriptOp pc with
      | Some (opcode, vData, pc) => if OP_16 <? opcode then None else last_push fuel' pc vData
      | None => None
      end
  end.

(** The overload of [GetSigOpCount] that takes the input script. *)
Definition GetSigOpCount_P2SH (script scriptSig : list Z) : Z :=
  if negb (IsPayToScriptHash script) then GetSigOpCount true script
  else match last_push (length scriptSig) scriptSig [] with
       | Some vData => GetSigOpCount true vData
       | None => 0
       end.

(** ** Numbers and pushes *)

Fixpoint abs_bytes (fuel : nat) (absvalue : Z) : list Z :=
  match fuel with
  | O => []
  | S fuel' =>
      if absvalue =? 0 then [] else Z.land absvalue 0xff :: abs_bytes fuel' (Z.shiftr absvalue 8)
  end.

(** The sign goes into the top bit of the last byte, or of a new one. *)
Definition add_sign (neg : bool) (result : list Z) : list Z :=
  match last result with
  | None => result
  | Some back =>
      if negb (Z.land back 0x80 =? 0) then result ++ [if neg then 0x80 else 0]
      else if neg then removelast result ++ [Z.lor back 0x80] else result
  end.

(** [CScriptNum::serialize]; a [uint64_t] has eight bytes. *)
Definition ScriptNum_serialize (value : Z) : list Z :=
  if value =? 0 then []
  else
    let neg := value <? 0 in
    let absvalue := if neg then u64 (u64 (Z.lnot (u64 value)) + 1) else u64 value in
    add_sign neg (abs_bytes 8 absvalue).

Fixpoint or_bytes (i : Z) (vch : list Z) (result : Z) : Z :=
  match vch with
  | [] => result
  | b :: vch' => or_bytes (i + 1) vch' (Z.lor result (s64 (Z.shiftl b (8 * i))))
  end.

(** [CScriptNum::set_vch]. *)
Definition ScriptNum_set_vch (vch : list Z) : Z :=
  match last vch with
  | None => 0
  | Some back =>
      let result := or_bytes 0 vch 0 in
      if negb (Z.land back 0x80 =? 0)
      then - s64 (Z.land (u64 result)
                    (u64 (Z.lnot (Z.shiftl 0x80 (8 * (Z.of_nat (length vch) - 1))))))
      else result
  end.

(** The constructor from bytes; [None] is the exception. *)
Definition CScriptNum (vch : list Z) (fRequireMinimal : bool) (nMaxNumSize : nat) : option Z :=
  if (nMaxNumSize <? length vch)%nat then None
  else if fRequireMinimal && (0 <? length vch)%nat && (Z.land (byte_at vch (length vch - 1)) 0x7f =? 0) &&
          ((length vch <=? 1)%nat || (Z.land (byte_at vch (length vch - 2)) 0x80 =? 0))
  then None
  else Some (ScriptNum_set_vch vch).

(** [operator<<] of a byte vector. *)
Definition push_data (b : list Z) : list Z :=
  let size := Z.of_nat (length b) in
  if size <? OP_PUSHDATA1 then size :: b
  else if size <=? 0xff then OP_PUSHDATA1 :: size :: b
  else if size <=? 0xffff then OP_PUSHDATA2 :: le_bytes 2 size ++ b
  else OP_PUSHDATA4 :: le_bytes 4 size ++ b.

Definition push_int64 (n : Z) : list Z :=
  if (n =? -1) || (1 <=? n) && (n <=? 16) then [n + (OP_1 - 1)]
  else if n =? 0 then [OP_0]
  else push_data (ScriptNum_serialize n).

Definition CheckMinimalPush (data : list Z) (opcode : Z) : bool :=
  let size := Z.of_nat (length data) in
  if size =? 0 then opcode =? OP_0
  else if (size =? 1) && (1 <=? byte_at data 0) && (byte_at data 0 <=? 16) then false
  else if (size =? 1) && (byte_at data 0 =? 0x81) then false
  else if size <=? 75 then opcode =? size
  else if size <=? 255 then opcode =? OP_PUSHDATA1
  else if size <=? 65535 then opcode =? OP_PUSHDATA2
  else true.

(** ** Lemmas *)

(** An instruction has at least one byte. *)
Lemma push_size_shorter opcode pc n rest :
  push_size opcode pc = Some (n, rest) → (length rest <= length pc)%nat.
Proof.
  assert (R : ∀ k s, read_le k s = Some (n, rest) → (length rest <= length s)%nat).
  { intros k s (bs & s1 & H & [= <- <-])%parser_bind_inv. apply read_bytes_inv in H as [-> _].
    rewrite length_app. lia. }
  unfold push_size. repeat case_match; eauto. by intros [= _ ->].
Qed.

Lemma GetScriptOp_shorter pc opcode data rest :
  GetScriptOp pc = Some (opcode, data, rest) → (length data + length rest < length pc)%nat.
Proof.
  unfold GetScriptOp. destruct pc as [|op pc]; [done|]. destruct (op <=? OP_PUSHDATA4).
  - destruct (push_size op pc) as [[n pc']|] eqn:E; [|done]. apply push_size_shorter in E.
    destruct (_ <? n) eqn:En; [done|]. intros [= _ <- <-]. rewrite length_take, length_drop. cbn [length]. lia.
  - intros [= _ <- <-]. cbn. lia.
Qed.

Lemma op_sigops_bound acc op prev : 0 <= op_sigops acc op prev <= 20.
Proof.
  unfold op_sigops, DecodeOP_N, MAX_PUBKEYS_PER_MULTISIG, OP_1, OP_16, OP_0. repeat case_match; breflect; lia.
Qed.

Lemma sigop_loop_bound fuel acc pc prev n :
  0 <= n → n + 20 * Z.of_nat (length pc) < 2 ^ 32 →
  n <= sigop_loop fuel acc pc prev n <= n + 20 * Z.of_nat (length pc).
Proof.
  revert pc prev n. induction fuel as [|fuel IH]; intros pc prev n Hn Hb; cbn [sigop_loop]; [lia|].
  destruct (GetScriptOp pc) as [[[op d] rest]|] eqn:E; [|lia]. apply GetScriptOp_shorter in E.
  pose proof (op_sigops_bound acc op prev). rewrite wrap_small by (unfold fits; lia).
  specialize (IH rest op (n + op_sigops acc op prev)). lia.
Qed.

(** At most twenty signature operations a byte, without overflow. *)
Lemma GetSigOpCount_bound acc script :
  20 * Z.of_nat (length script) < 2 ^ 32 → 0 <= GetSigOpCount acc script <= 20 * Z.of_nat (length script).
Proof. intros H. unfold GetSigOpCount. pose proof (sigop_loop_bound (length script) acc script OP_INVALIDOPCODE 0). lia. Qed.

(** The opcode [push_data] uses. *)
Definition push_opcode (b : list Z) : Z :=
  let size := Z.of_nat (length b) in
  if size <? OP_PUSHDATA1 then size
  else if size <=? 0xff then OP_PUSHDATA1
  else if size <=? 0xffff then OP_PUSHDATA2 else OP_PUSHDATA4.

Lemma GetScriptOp_push b rest :
  Z.of_nat (length b + length rest) < 2 ^ 32 →
  GetScriptOp (push_data b ++ rest) = Some (push_opcode b, b, rest).
Proof.
  intros Hl. set (size := Z.of_nat (length b)).
  assert (Hu : u32 (Z.of_nat (length (b ++ rest))) <? size = false).
  { rewrite wrap_small by (unfold fits; rewrite length_app; lia). apply Z.ltb_ge. rewrite length_app. lia. }
  assert (Ht : Some (push_opcode b, take (Z.to_nat size) (b ++ rest), drop (Z.to_nat size) (b ++ rest))
               = Some (push_opcode b, b, rest)).
  { unfold size. by rewrite Nat2Z.id, take_app_length, drop_app_length. }
  rewrite <- Ht. unfold push_data, push_opcode. fold size.
  assert (0 <= size < 2 ^ 32) by lia. clearbody size. unfold OP_PUSHDATA1, OP_PUSHDATA2, OP_PUSHDATA4.
  destruct (Z.ltb_spec size 0x4c); [|destruct (Z.leb_spec size 0xff); [|destruct (Z.leb_spec size 0xffff)]];
    cbn [app GetScriptOp]; unfold push_size, OP_PUSHDATA1, OP_PUSHDATA2, OP_PUSHDATA4.
  - rewrite (proj2 (Z.leb_le size 0x4e)), (proj2 (Z.ltb_lt size 0x4c)) by lia. cbn beta iota. by rewrite Hu.
  - change (0x4c <=? 0x4e) with true. change (0x4c <? 0x4c) with false. cbn iota.
    rewrite Z.eqb_refl, read_le_1 by lia. by rewrite Hu.
  - rewrite <- app_assoc. change (0x4d <=? 0x4e) with true. change (0x4d <? 0x4c) with false.
    change (0x4d =? 0x4c) with false. cbn iota. rewrite Z.eqb_refl, read_le_bytes by (simpl; lia). by rewrite Hu.
  - rewrite <- app_assoc. change (0x4e <=? 0x4e) with true. change (0x4e <? 0x4c) with false.
    change (0x4e =? 0x4c) with false. change (0x4e =? 0x4d) with false. cbn iota.
    rewrite read_le_bytes by (simpl; lia). by rewrite Hu.
Qed.

(** *** Numbers *)

Lemma le_value_snoc l b : le_value (l ++ [b]) = le_value l + 256 ^ Z.of_nat (length l) * b.
Proof.
  induction l as [|a l IH]; cbn [app le_value length]; [lia|].
  rewrite IH, Nat2Z.inj_succ, Z.pow_succ_r by lia. lia.
Qed.

Lemma abs_bytes_spec fuel x :
  0 <= x < 256 ^ Z.of_nat fuel →
  le_value (abs_bytes fuel x) = x ∧ Forall is_byte (abs_bytes fuel x) ∧
  (x ≠ 0 → ∃ l back, abs_bytes fuel x = l ++ [back] ∧ back ≠ 0).
Proof.
  revert x. induction fuel as [|fuel IH]; intros x Hx; cbn [abs_bytes].
  { cbn in *. split_and!; [lia|done|lia]. }
  rewrite Nat2Z.inj_succ, Z.pow_succ_r in Hx by lia.
  destruct (Z.eqb_spec x 0) as [->|H0]; [done|].
  assert (Hland : Z.land x 0xff = x mod 256) by (apply (Z.land_ones x 8); lia).
  rewrite Hland, Z.shiftr_div_pow2 by lia. change (2 ^ 8) with 256.
  pose proof (Z.div_mod x 256). pose proof (Z.mod_pos_bound x 256).
  destruct (IH (x / 256)) as (IH1 & IH2 & IH3).
  { split; [apply Z.div_pos; lia|]. apply Z.div_lt_upper_bound; lia. }
  cbn [le_value]. rewrite IH1. split_and!; [lia|constructor; [unfold is_byte; lia|done]|].
  intros _. destruct (decide (x / 256 = 0)) as [E|E].
  - exists [], (x mod 256). rewrite E. split; [by destruct fuel|lia].
  - destruct (IH3 E) as (l & back & -> & Hb). by exists (x mod 256 :: l), back.
Qed.

Lemma or_bytes_spec i vch result :
  0 <= i → Forall is_byte vch → i + Z.of_nat (length vch) <= 7 → 0 <= result < 256 ^ i →
  or_bytes i vch result = result + 256 ^ i * le_value vch.
Proof.
  intros Hi Hv. revert i result Hi. induction Hv as [|b vch Hb _ IH]; intros i result Hi Hl Hr;
    cbn [or_bytes le_value length] in *; [lia|]. unfold is_byte in Hb.
  assert (E : 256 ^ i = 2 ^ (8 * i)) by (rewrite Z.pow_mul_r by lia; done).
  assert (Hp : 256 ^ i <= 256 ^ 6) by (apply Z.pow_le_mono_r; lia). change (256 ^ 6) with (2 ^ 48) in Hp.
  rewrite Z.shiftl_mul_pow2, swrap_small by (rewrite <- ?E; nia).
  rewrite lor_disjoint, <- E by (rewrite <- ?E; lia).
  rewrite IH; [rewrite Z.pow_add_r by lia; lia|lia|lia|]. rewrite Z.pow_add_r by lia. nia.
Qed.

Lemma land_80 b : is_byte b → (Z.land b 0x80 =? 0) = (b <? 128).
Proof. intros Hb. apply (land_top_bit b 7); [lia|]. unfold is_byte in Hb. lia. Qed.

(** Clearing a bit above a number. *)
Lemma clear_bit v n :
  0 <= n < 64 → 0 <= v < 2 ^ n → Z.land (v + 1 * 2 ^ n) (u64 (Z.lnot (2 ^ n))) = v.
Proof.
  intros Hn Hv. rewrite <- lor_disjoint, Z.mul_1_l by lia. apply Z.bits_inj'. intros i Hi.
  rewrite Z.land_spec, Z.lor_spec, Z.pow2_bits_eqb by lia. unfold wrap.
  destruct (decide (i < 64)).
  - rewrite Z.mod_pow2_bits_low, Z.lnot_spec, Z.pow2_bits_eqb by lia.
    destruct (Z.eqb_spec n i) as [<-|]; cbn [negb orb]; [|by rewrite orb_false_r, andb_true_r].
    rewrite andb_false_r. symmetry. rewrite <- (Z.mod_small v (2 ^ n)) by lia. by apply Z.mod_pow2_bits_high.
  - rewrite Z.mod_pow2_bits_high, andb_false_r by lia. symmetry.
    rewrite <- (Z.mod_small v (2 ^ n)) by lia. apply Z.mod_pow2_bits_high. lia.
Qed.

(** The value of a number of at most seven bytes, by its last byte. *)
Lemma set_vch_snoc l b :
  Forall is_byte l → is_byte b → (length l <= 6)%nat →
  ScriptNum_set_vch (l ++ [b]) =
  if b <? 128 then le_value l + 256 ^ Z.of_nat (length l) * b
  else - (le_value l + 256 ^ Z.of_nat (length l) * (b - 128)).
Proof.
  intros Hl Hb Hn. unfold ScriptNum_set_vch. rewrite last_snoc, land_80 by done.
  rewrite or_bytes_spec; [|lia|by apply Forall_app; auto|rewrite length_app; cbn; lia|lia].
  rewrite Z.pow_0_r, Z.mul_1_l, Z.add_0_l, le_value_snoc. destruct (Z.ltb_spec b 128); cbn [negb]; [done|].
  pose proof (le_value_inv l Hl) as [_ Hv]. rewrite length_app. cbn [length].
  replace (8 * (Z.of_nat (length l + 1) - 1)) with (8 * Z.of_nat (length l)) by lia.
  set (k := Z.of_nat (length l)) in *. assert (Hk : 0 <= k <= 6) by lia.
  assert (E : 256 ^ k = 2 ^ (8 * k)) by (rewrite Z.pow_mul_r by lia; done).
  assert (Hp : 0 < 256 ^ k <= 256 ^ 6) by (split; [apply Z.pow_pos_nonneg|apply Z.pow_le_mono_r]; lia).
  change (256 ^ 6) with (2 ^ 48) in Hp. unfold is_byte in Hb.
  set (v := le_value l + 256 ^ k * (b - 128)). assert (Hv2 : 0 <= v < 2 ^ (8 * k + 7)).
  { unfold v. rewrite Z.pow_add_r, <- E by lia. nia. }
  replace (le_value l + 256 ^ k * b) with (v + 1 * 2 ^ (8 * k + 7))
    by (unfold v; rewrite Z.pow_add_r, <- E by lia; lia).
  assert (H55 : 2 ^ (8 * k + 7) <= 2 ^ 55) by (apply Z.pow_le_mono_r; lia).
  change (2 ^ 55) with 36028797018963968 in H55.
  rewrite wrap_small by (unfold fits; lia).
  rewrite Z.shiftl_mul_pow2 by lia. replace (0x80 * 2 ^ (8 * k)) with (2 ^ (8 * k + 7))
    by (rewrite Z.pow_add_r by lia; lia).
  f_equal. rewrite clear_bit by lia. apply swrap_small; lia.
Qed.

(** A number is its magnitude with the sign in the top bit of the last byte. *)
Lemma serialize_shape n :
  - 2 ^ 39 < n < 2 ^ 39 → n ≠ 0 →
  ∃ l back, abs_bytes 8 (Z.abs n) = l ++ [back] ∧ is_byte back ∧ back ≠ 0 ∧ Forall is_byte l ∧
    le_value l + 256 ^ Z.of_nat (length l) * back = Z.abs n ∧
    (length l <= 4)%nat ∧ (length l = 4%nat → back < 128) ∧
    ScriptNum_serialize n = add_sign (n <? 0) (l ++ [back]).
Proof.
  intros Hn H0. destruct (abs_bytes_spec 8 (Z.abs n)) as (Hv & Hb & Hs); [cbn; lia|].
  destruct (Hs ltac:(lia)) as (l & back & E & Hback). rewrite E in Hv, Hb. exists l, back.
  apply Forall_app in Hb as [Hl Hb]. apply Forall_inv in Hb. rewrite le_value_snoc in Hv.
  pose proof (le_value_inv l Hl) as [_ Hlv]. unfold is_byte in *.
  assert (Hpos : 0 < 256 ^ Z.of_nat (length l)) by (apply Z.pow_pos_nonneg; lia).
  assert (Hlen : (length l <= 4)%nat).
  { destruct (decide (length l <= 4)%nat); [done|].
    assert (256 ^ 5 <= 256 ^ Z.of_nat (length l)) by (apply Z.pow_le_mono_r; lia).
    change (256 ^ 5) with (2 ^ 40) in *. nia. }
  split_and!; try done; try lia.
  - intros H4. rewrite H4 in Hv. change (256 ^ Z.of_nat 4) with (2 ^ 32) in Hv. lia.
  - unfold ScriptNum_serialize. rewrite (proj2 (Z.eqb_neq n 0)) by done. cbv zeta. rewrite <- E. f_equal. f_equal.
    destruct (Z.ltb_spec n 0) as [Hneg|].
    + unfold Z.lnot, wrap. rewrite <- Z.sub_1_r, Zplus_mod_idemp_l.
      replace (- (n mod 2 ^ 64) - 1 + 1) with (- (n mod 2 ^ 64)) by lia.
      rewrite <- (Z.add_0_l (- (n mod 2 ^ 64))), Z.add_opp_r, Zminus_mod_idemp_r.
      rewrite Z.mod_small by lia. lia.
    + rewrite wrap_small by (unfold fits; lia). lia.
Qed.

Lemma byte_at_snoc l b : byte_at (l ++ [b]) (length (l ++ [b]) - 1) = b.
Proof. unfold byte_at. rewrite length_app. cbn [length]. rewrite Nat.add_sub, lookup_app_r, Nat.sub_diag by lia. done. Qed.

Lemma land_7f b : Z.land b 0x7f = b mod 128.
Proof. apply (Z.land_ones b 7). lia. Qed.

(** Numbers of up to five bytes, the most any operation reads, are read back, in the
    shortest form. *)
Lemma ScriptNum_roundtrip n :
  - 2 ^ 39 < n < 2 ^ 39 → CScriptNum (ScriptNum_serialize n) true 5 = Some n.
Proof.
  intros Hn. destruct (decide (n = 0)) as [->|H0]; [done|].
  destruct (serialize_shape n Hn H0) as (l & back & _ & Hb & Hb0 & Hl & Hv & Hlen & H4 & ->).
  unfold add_sign. rewrite last_snoc, land_80 by done. unfold CScriptNum. unfold is_byte in Hb.
  destruct (Z.ltb_spec back 128) as [Hlt|Hge]; cbn [negb].
  - set (b := if n <? 0 then Z.lor back 0x80 else back).
    assert (Hlor : Z.lor back 0x80 = back + 128) by (apply (lor_disjoint back 1 7); lia).
    assert (E : (if n <? 0 then removelast (l ++ [back]) ++ [Z.lor back 0x80] else l ++ [back]) = l ++ [b]).
    { unfold b. destruct (n <? 0); [by rewrite removelast_last|done]. }
    rewrite E, byte_at_snoc, land_7f.
    assert (Hb7 : b mod 128 = back).
    { unfold b. destruct (n <? 0); [|apply Z.mod_small; lia]. rewrite Hlor.
      replace (back + 128) with (back + 1 * 128) by lia. rewrite Z_mod_plus_full. apply Z.mod_small. lia. }
    rewrite Hb7, (proj2 (Z.eqb_neq back 0)), andb_false_r, andb_false_l by done.
    rewrite (proj2 (Nat.ltb_ge 5 _)) by (rewrite length_app; cbn; lia).
    rewrite set_vch_snoc; [|done|unfold b, is_byte; destruct (n <? 0); lia|lia].
    unfold b. f_equal. destruct (Z.ltb_spec n 0).
    + rewrite Hlor, (proj2 (Z.ltb_ge _ 128)) by lia. lia.
    + rewrite (proj2 (Z.ltb_lt back 128)) by lia. lia.
  - assert (length l ≠ 4%nat) by lia.
    rewrite (proj2 (Nat.ltb_ge 5 _)) by (rewrite !length_app; cbn; lia).
    set (sgn := if n <? 0 then 0x80 else 0).
    assert (Hprev : byte_at ((l ++ [back]) ++ [sgn]) (length ((l ++ [back]) ++ [sgn]) - 2) = back).
    { replace (length ((l ++ [back]) ++ [sgn]) - 2)%nat with (length (l ++ [back]) - 1)%nat
        by (rewrite !length_app; cbn; lia).
      unfold byte_at. rewrite lookup_app_l by (rewrite length_app; cbn; lia). apply byte_at_snoc. }
    rewrite Hprev, land_80, (proj2 (Z.ltb_ge back 128)), orb_false_r by (unfold is_byte; lia).
    rewrite (proj2 (Nat.leb_gt _ 1)), andb_false_r by (rewrite !length_app; cbn; lia).
    rewrite set_vch_snoc, le_value_snoc;
      [|apply Forall_app; split; [done|by constructor]|unfold sgn, is_byte; destruct (n <? 0); lia|rewrite length_app; cbn; lia].
    f_equal. unfold sgn. destruct (Z.ltb_spec n 0); [change (128 <? 128) with false|change (0 <? 128) with true]; cbn iota; lia.
Qed.

Lemma serialize_length n : - 2 ^ 39 < n < 2 ^ 39 → (length (ScriptNum_serialize n) <= 5)%nat.
Proof.
  intros Hn. pose proof (ScriptNum_roundtrip n Hn) as H. unfold CScriptNum in H.
  destruct (Nat.ltb_spec 5 (length (ScriptNum_serialize n))); [done|lia].
Qed.

(** A single byte that encodes a number is not one the short opcodes stand for. *)
Lemma set_vch_single b : is_byte b → ScriptNum_set_vch [b] = if b <? 128 then b else 128 - b.
Proof. intros Hb. change [b] with ([] ++ [b]). rewrite set_vch_snoc by (done || cbn; lia). cbn [le_value length]. case_match; lia. Qed.

(** What pushing a number leaves in a script. *)
Lemma push_int64_read n rest :
  - 2 ^ 39 < n < 2 ^ 39 → Z.of_nat (length rest) < 2 ^ 31 →
  GetScriptOp (push_int64 n ++ rest) =
  Some (if (n =? -1) || (1 <=? n) && (n <=? 16) then (n + (OP_1 - 1), [], rest)
        else (Z.of_nat (length (ScriptNum_serialize n)), ScriptNum_serialize n, rest)).
Proof.
  intros Hn Hr. pose proof (serialize_length n Hn). unfold push_int64.
  destruct ((n =? -1) || (1 <=? n) && (n <=? 16)) eqn:E.
  - cbn [app GetScriptOp]. rewrite (proj2 (Z.leb_gt _ OP_PUSHDATA4)); [done|]. unfold OP_PUSHDATA4, OP_1. lia.
  - destruct (Z.eqb_spec n 0) as [->|H0].
    + change (ScriptNum_serialize 0) with (@nil Z). cbn [app GetScriptOp length].
      change (OP_0 <=? OP_PUSHDATA4) with true. unfold push_size. change (OP_0 <? OP_PUSHDATA1) with true. cbn iota.
      rewrite (proj2 (Z.ltb_ge _ OP_0)); [done|]. apply wrap_fits. lia.
    + rewrite GetScriptOp_push by lia. unfold push_opcode. rewrite (proj2 (Z.ltb_lt _ OP_PUSHDATA1)); [done|].
      unfold OP_PUSHDATA1. lia.
Qed.

(** Scripts that start with a pushed number agree on the number. *)
Lemma push_int64_inj n m s t :
  - 2 ^ 39 < n < 2 ^ 39 → - 2 ^ 39 < m < 2 ^ 39 →
  Z.of_nat (length s) < 2 ^ 31 → Z.of_nat (length t) < 2 ^ 31 →
  push_int64 n ++ s = push_int64 m ++ t → n = m.
Proof.
  intros Hn Hm Hs Ht E. pose proof (push_int64_read n s Hn Hs) as H.
  rewrite E, push_int64_read in H by done.
  pose proof (serialize_length n Hn). pose proof (serialize_length m Hm). unfold OP_1 in H.
  destruct ((n =? -1) || (1 <=? n) && (n <=? 16)) eqn:En, ((m =? -1) || (1 <=? m) && (m <=? 16)) eqn:Em;
    injection H; clear H; intros; try lia.
  match goal with H : ScriptNum_serialize _ = _ |- _ => rename H into Hd end.
  apply (f_equal (λ v, CScriptNum v true 5)) in Hd. rewrite !ScriptNum_roundtrip in Hd by done. congruence.
Qed.

Lemma push_minimal n :
  - 2 ^ 39 < n < 2 ^ 39 → (n =? -1) || (1 <=? n) && (n <=? 16) = false →
  CheckMinimalPush (ScriptNum_serialize n) (Z.of_nat (length (ScriptNum_serialize n))) = true.
Proof.
  intros Hn E. pose proof (serialize_length n Hn). pose proof (ScriptNum_roundtrip n Hn) as H1.
  unfold CheckMinimalPush. destruct (Z.eqb_spec (Z.of_nat (length (ScriptNum_serialize n))) 0) as [H0|H0].
  { rewrite H0. done. }
  assert (Hs : ∀ b, ScriptNum_serialize n = [b] → (1 <=? b) && (b <=? 16) = false ∧ (b =? 0x81) = false).
  { intros b Eb. rewrite Eb in H1. unfold CScriptNum in H1. cbn [length Nat.ltb Nat.leb] in H1.
    destruct (_ && _) in H1; [done|]. injection H1 as H1.
    destruct ((1 <=? b) && (b <=? 16)) eqn:E1, (Z.eqb_spec b 0x81); try done;
      (rewrite set_vch_single in H1 by (unfold is_byte; lia); destruct (b <? 128) eqn:E2; lia). }
  destruct (ScriptNum_serialize n) as [|b [|c l]]; [done| |].
  - destruct (Hs b eq_refl) as [E1 E2]. change (byte_at [b] 0) with b. cbn [length].
    change (Z.of_nat 1 =? 1) with true. rewrite !andb_true_l, E1, E2. done.
  - rewrite (proj2 (Z.eqb_neq (Z.of_nat (length (b :: c :: l))) 1)) by (cbn [length]; lia). cbn [andb].
    rewrite (proj2 (Z.leb_le _ 75)), Z.eqb_refl by lia. done.
Qed.

(** ** Properties *)

(** A number pushed on a script is read back by the instruction reader: the numbers
    from -1 to 16 except 0 are one opcode that decodes to them (-1 apart), the others, up to
    the five bytes any operation reads, are data in the shortest form, pushed by the
    shortest opcode, from which the strict reader of numbers gets the number. *)
Theorem pushed_number_roundtrip n rest :
  - 2 ^ 39 < n < 2 ^ 39 → Z.of_nat (length rest) < 2 ^ 31 →
  ∃ opcode data, GetScriptOp (push_int64 n ++ rest) = Some (opcode, data, rest) ∧
    if (n =? -1) || (1 <=? n) && (n <=? 16)
    then data = [] ∧ opcode = OP_1 - 1 + n ∧ (0 < n → DecodeOP_N opcode = n)
    else CheckMinimalPush data opcode = true ∧ CScriptNum data true 5 = Some n.
Proof.
  intros Hn Hr. pose proof (push_int64_read n rest Hn Hr) as H.
  destruct ((n =? -1) || (1 <=? n) && (n <=? 16)) eqn:E; eexists _, _; (split; [exact H|]).
  - split_and!; [done|lia|]. unfold DecodeOP_N, OP_0, OP_1. intros ?.
    rewrite (proj2 (Z.eqb_neq _ 0)) by lia. lia.
  - split; [by apply push_minimal|by apply ScriptNum_roundtrip].
Qed.

Lemma pushed_number_roundtrip_witness :
  ∃ opcode data, GetScriptOp (push_int64 (-70000) ++ [0xac]) = Some (opcode, data, [0xac]) ∧
    CheckMinimalPush data opcode = true ∧ CScriptNum data true 5 = Some (-70000).
Proof. apply (pushed_number_roundtrip (-70000) [0xac]); cbn; lia. Defined.
