(* ===== verification/Merkle.v ===== *)
(** * Merkle trees: src/src/consensus/merkle.cpp

    A block commits to its transactions through the root of a tree of hashes whose odd
    levels are completed by repeating their last hash.  The hash function is an argument;
    the results that depend on it have as their alternative a collision among the strings
    that the computations hash, which are listed. *)

From S2P Require Import Prelude Serialize BlockHeader Formats Subsidy Transaction.

Local Open Scope Z_scope.

Section merkle.
Context (SHA256d : list Z → Z).

(** [Hash(left, right)] of src/src/hash.h, the hash of 64 bytes. *)
Definition HashPair (left right : Z) : Z := SHA256d (write_uint256 left ++ write_uint256 right).

Definition pair_bytes (left right : Z) : list Z := write_uint256 left ++ write_uint256 right.

(** ** [ComputeMerkleRoot] *)

(** Whether two hashes about to be hashed together are equal. *)
Fixpoint equal_pair (hashes : list Z) : bool :=
  match hashes with
  | a :: b :: rest => (a =? b) || equal_pair rest
  | _ => false
  end.

Definition pad_odd (hashes : list Z) : list Z :=
  match last hashes with
  | Some back => if Nat.odd (length hashes) then hashes ++ [back] else hashes
  | None => hashes
  end.

(** The hashes of the pairs. *)
Fixpoint SHA256D64 (hashes : list Z) : list Z :=
  match hashes with
  | a :: b :: rest => HashPair a b :: SHA256D64 rest
  | _ => []
  end.

Definition next_level (hashes : list Z) : list Z := SHA256D64 (pad_odd hashes).

(** The loop; a level is about half as long as the one before, so the number of leaves is
    enough fuel. *)
Fixpoint merkle_loop (fuel : nat) (hashes : list Z) (mutation : bool) : list Z * bool :=
  match fuel with
  | S fuel' =>
      if bool_decide (1 < length hashes)%nat
      then merkle_loop fuel' (next_level hashes) (mutation || equal_pair hashes)
      else (hashes, mutation)
  | O => (hashes, mutation)
  end.

(** The root, and what is stored to [*mutated]. *)
Definition ComputeMerkleRoot (hashes : list Z) : Z * bool :=
  let '(level, mutation) := merkle_loop (length hashes) hashes false in
  (default 0 (head level), mutation).

(** The leaves are the transaction ids, [0] in place of the witness id of the coinbase. *)
Definition BlockMerkleRoot (vtx : list CTransaction) : Z * bool :=
  ComputeMerkleRoot (GetTxid SHA256d <$> vtx).

Definition witness_leaves (vtx : list CTransaction) : list Z :=
  match vtx with
  | [] => []
  | _ :: rest => 0 :: (GetWitnessHash SHA256d <$> rest)
  end.

Definition BlockWitnessMerkleRoot (vtx : list CTransaction) : Z * bool :=
  ComputeMerkleRoot (witness_leaves vtx).

(** ** Lemmas *)

(** Induction on a list two elements at a time. *)
Lemma pair_ind {A} (P : list A → Prop) :
  P [] → (∀ a, P [a]) → (∀ a b l, P l → P (a :: b :: l)) → ∀ l, P l.
Proof.
  intros H0 H1 H2. assert (H : ∀ l, P l ∧ ∀ a, P (a :: l)); [|by intros l; apply H].
  induction l as [|b l [IH1 IH2]]; split; auto.
Qed.

(** A level without the padding. *)
Fixpoint level (hashes : list Z) : list Z :=
  match hashes with
  | a :: b :: rest => HashPair a b :: level rest
  | [a] => [HashPair a a]
  | [] => []
  end.

(** The strings hashed for a level, and for all levels up to the root. *)
Fixpoint level_bytes (hashes : list Z) : list (list Z) :=
  match hashes with
  | a :: b :: rest => pair_bytes a b :: level_bytes rest
  | [a] => [pair_bytes a a]
  | [] => []
  end.

Fixpoint levels_bytes (fuel : nat) (hashes : list Z) : list (list Z) :=
  match fuel with
  | S fuel' =>
      if bool_decide (1 < length hashes)%nat
      then level_bytes hashes ++ levels_bytes fuel' (level hashes) else []
  | O => []
  end.

Definition merkle_bytes (hashes : list Z) : list (list Z) := levels_bytes (length hashes) hashes.

Lemma pad_odd_pair a b l : pad_odd (a :: b :: l) = a :: b :: pad_odd l.
Proof.
  unfold pad_odd. destruct l as [|c l]; [done|]. rewrite !last_cons.
  destruct (last l); cbn [length]; by destruct (Nat.odd _).
Qed.

Lemma next_level_eq hashes : next_level hashes = level hashes.
Proof.
  unfold next_level. induction hashes as [|a|a b l IH] using pair_ind; [done..|].
  rewrite pad_odd_pair. cbn [SHA256D64 level]. by rewrite IH.
Qed.

Lemma level_length l : length (level l) = (Nat.div2 (S (length l)))%nat.
Proof. induction l as [|a|a b l IH] using pair_ind; [done..|]. cbn [level length]. by rewrite IH. Qed.

Lemma level_shorter l : (1 < length l)%nat → (length (level l) < length l)%nat.
Proof. rewrite level_length. pose proof (Nat.div2_odd (S (length l))). destruct (Nat.odd _); simpl in *; lia. Qed.

Lemma level_ne l : l ≠ [] → level l ≠ [].
Proof. by destruct l as [|a [|b l]]. Qed.

Lemma merkle_loop_flag n l b : merkle_loop n l b = ((merkle_loop n l false).1, b || (merkle_loop n l false).2).
Proof.
  revert l b. induction n as [|n IH]; intros l b; cbn [merkle_loop]; [by rewrite orb_false_r|].
  destruct (bool_decide _); [|by rewrite orb_false_r].
  rewrite IH, (IH _ (false || equal_pair l)). cbn [fst snd]. by rewrite orb_assoc.
Qed.

Lemma merkle_loop_fuel n n' l b :
  (length l <= n)%nat → (length l <= n')%nat → merkle_loop n l b = merkle_loop n' l b.
Proof.
  revert n' l b. induction n as [|n IH]; intros [|n'] l b H H'; cbn [merkle_loop]; [done| | |].
  - rewrite bool_decide_false by lia. done.
  - rewrite bool_decide_false by lia. done.
  - case_bool_decide as Hl; [|done]. rewrite next_level_eq. pose proof (level_shorter l Hl).
    apply IH; lia.
Qed.

(** The root and the flag, level by level. *)
Lemma merkle_step l :
  (1 < length l)%nat →
  ComputeMerkleRoot l =
  ((ComputeMerkleRoot (level l)).1, equal_pair l || (ComputeMerkleRoot (level l)).2).
Proof.
  intros Hl. pose proof (level_shorter l Hl). unfold ComputeMerkleRoot at 1.
  destruct l as [|a l]; [simpl in Hl; lia|]. cbn [length merkle_loop].
  rewrite bool_decide_true by done. rewrite next_level_eq, merkle_loop_flag.
  rewrite (merkle_loop_fuel (length l) (length (level (a :: l)))) by (simpl in *; lia).
  unfold ComputeMerkleRoot. by destruct (merkle_loop _ (level (a :: l)) false).
Qed.

Lemma merkle_single a : ComputeMerkleRoot [a] = (a, false).
Proof. done. Qed.

(** The levels of a tree, from the leaves to the root. *)
Inductive in_levels : list Z → list Z → Prop :=
  | level_here l : in_levels l l
  | level_above l m : (1 < length l)%nat → in_levels (level l) m → in_levels l m.

Lemma levels_bytes_fuel n n' l : (length l <= n)%nat → (length l <= n')%nat → levels_bytes n l = levels_bytes n' l.
Proof.
  revert n' l. induction n as [|n IH]; intros [|n'] l H H'; cbn [levels_bytes]; [done| | |].
  - by rewrite bool_decide_false by lia.
  - by rewrite bool_decide_false by lia.
  - case_bool_decide as Hl; [|done]. pose proof (level_shorter l Hl). f_equal. apply IH; lia.
Qed.

Lemma merkle_bytes_step l : (1 < length l)%nat → merkle_bytes l = level_bytes l ++ merkle_bytes (level l).
Proof.
  intros Hl. pose proof (level_shorter l Hl). unfold merkle_bytes at 1. destruct l as [|a l]; [cbn in Hl; lia|].
  cbn [length levels_bytes]. rewrite bool_decide_true by done. f_equal. apply levels_bytes_fuel; cbn [length] in *; lia.
Qed.

Lemma in_levels_bytes l m : in_levels l m → merkle_bytes m ⊆ merkle_bytes l.
Proof. induction 1 as [|l m Hl _ IH]; [done|]. rewrite (merkle_bytes_step l Hl). set_solver. Qed.

(** Nothing is hashed with itself in any level, except to complete an odd one. *)
Lemma in_levels_unmutated l m :
  in_levels l m → (ComputeMerkleRoot l).2 = false → (ComputeMerkleRoot m).2 = false.
Proof.
  induction 1 as [|l m Hl _ IH]; [done|]. rewrite merkle_step by done. cbn [snd].
  intros [_ H]%orb_false_iff. auto.
Qed.

Lemma in_levels_length l m : in_levels l m → m = l ∨ (length m < length l)%nat.
Proof. induction 1 as [|l m Hl _ [->|IH]]; [by left|right; by apply level_shorter|]. pose proof (level_shorter l Hl). right. lia. Qed.

(** A level other than the leaves is the level of another one. *)
Lemma in_levels_inv l m :
  in_levels (level l) m → (1 < length l)%nat → ∃ k, in_levels l k ∧ (1 < length k)%nat ∧ m = level k.
Proof.
  intros H. remember (level l) as l' eqn:E. revert l E. induction H as [l'|l' m Hl' H IH]; intros l -> Hl.
  - exists l. split; [constructor|done].
  - destruct (IH (level l) eq_refl Hl') as (k & Hk & Hlk & ->). exists k. split; [|done].
    by apply level_above.
Qed.

Lemma in_levels_cases l m : in_levels l m → m = l ∨ ∃ k, m = level k ∧ level_bytes k ⊆ merkle_bytes l.
Proof.
  intros [|l' m' Hl H]; [by left|]. right.
  destruct (in_levels_inv l' m' H Hl) as (k & Hk & Hlk & E). exists k. split; [done|].
  pose proof (in_levels_bytes _ _ Hk) as Hb. rewrite merkle_bytes_step in Hb by done. by split_sub.
Qed.

(** The nodes of a level are hashes of pairs. *)
Lemma level_elem l h : h ∈ level l → ∃ a b, a ∈ l ∧ b ∈ l ∧ h = HashPair a b ∧ pair_bytes a b ∈ level_bytes l.
Proof.
  induction l as [|a|a b l IH] using pair_ind; cbn [level level_bytes]; rewrite ?elem_of_nil, ?elem_of_cons; [done| |].
  - intros [->|[]%elem_of_nil]. exists a, a. set_solver.
  - intros [->|(a' & b' & Ha & Hb & -> & Hx)%IH]; [exists a, b; set_solver|exists a', b'; set_solver].
Qed.

Section fits.
(** Hashes are 256-bit values. *)
Context (Fits : ∀ x, fits 256 (SHA256d x)).
(** The strings that are hashed. *)
Context (hashed : list (list Z)).

Lemma HashPair_inj a b a' b' :
  pair_bytes a b ∈ hashed → pair_bytes a' b' ∈ hashed →
  fits 256 a → fits 256 b → fits 256 a' → fits 256 b' →
  HashPair a b = HashPair a' b' → a = a' ∧ b = b' ∨ collision SHA256d hashed.
Proof using Type.
  intros Hx Hy Ha Hb Ha' Hb' [Eq|]%(hash_eq SHA256d hashed); [left|by right|done..].
  apply (codec_inj uint256_codec) in Eq as [-> Eq]; [|done..]. split; [done|].
  rewrite <- (app_nil_r (write_uint256 b)), <- (app_nil_r (write_uint256 b')) in Eq.
  by apply (codec_inj uint256_codec) in Eq as [-> _].
Qed.

Lemma level_fits l : Forall (fits 256) (level l).
Proof using Fits. induction l as [|a|a b l IH] using pair_ind; repeat constructor; done || apply Fits. Qed.

Lemma in_levels_fits l m : in_levels l m → Forall (fits 256) l → Forall (fits 256) m.
Proof using Fits. induction 1 as [|l m _ _ IH]; [done|]. intros _. apply IH, level_fits. Qed.

(** Equal levels have equal sources when neither pairs a hash with itself. *)
Lemma level_inj l l' :
  level_bytes l ⊆ hashed → level_bytes l' ⊆ hashed →
  Forall (fits 256) l → Forall (fits 256) l' → equal_pair l = false → equal_pair l' = false →
  level l = level l' → l = l' ∨ collision SHA256d hashed.
Proof.
  revert l'. induction l as [|a|a b l IH] using pair_ind; intros [|a' [|b' l']] Hh Hh' Hf Hf' He He' E;
    cbn [level level_bytes equal_pair] in *; try done; [by left|split_sub..].
  - apply Forall_inv in Hf, Hf'. injection E as E. apply HashPair_inj in E as [[-> _]|?]; auto.
  - destruct l' as [|c [|]]; try done. injection E as E.
    apply Forall_inv in Hf. inversion_clear Hf' as [|?? Ha' Hb']. apply Forall_inv in Hb'.
    apply HashPair_inj in E as [[-> ->]|?]; [|by right|done..]. by rewrite Z.eqb_refl in He'.
  - destruct l as [|c [|]]; try done. injection E as E.
    apply Forall_inv in Hf'. inversion_clear Hf as [|?? Ha Hb]. apply Forall_inv in Hb.
    apply HashPair_inj in E as [[-> ->]|?]; [|by right|done..]. by rewrite Z.eqb_refl in He.
  - injection E as E E2. apply orb_false_iff in He as [_ He], He' as [_ He'].
    inversion_clear Hf as [|?? Ha Hf1]. inversion_clear Hf1 as [|?? Hb Hf2].
    inversion_clear Hf' as [|?? Ha' Hf1']. inversion_clear Hf1' as [|?? Hb' Hf2'].
    apply HashPair_inj in E as [[-> ->]|?]; [|by right|done..].
    destruct (IH l' ltac:(done) ltac:(done) Hf2 Hf2' He He' E2) as [->|?]; [by left|by right].
Qed.

(** With equally many leaves the pairs are the same, repeated or not. *)
Lemma level_inj_length l l' :
  level_bytes l ⊆ hashed → level_bytes l' ⊆ hashed →
  Forall (fits 256) l → Forall (fits 256) l' → length l = length l' →
  level l = level l' → l = l' ∨ collision SHA256d hashed.
Proof.
  revert l'. induction l as [|a|a b l IH] using pair_ind; intros [|a' [|b' l']] Hh Hh' Hf Hf' Hl E;
    cbn [level level_bytes length] in *; try done; [by left|split_sub..].
  - apply Forall_inv in Hf, Hf'. injection E as E. apply HashPair_inj in E as [[-> _]|?]; auto.
  - injection E as E E2. injection Hl as Hl. apply Forall_cons in Hf as [Ha [Hb Hf]%Forall_cons].
    apply Forall_cons in Hf' as [Ha' [Hb' Hf']%Forall_cons].
    apply HashPair_inj in E as [[-> ->]|?]; [|by right|done..].
    destruct (IH l' ltac:(done) ltac:(done) Hf Hf' Hl E2) as [->|?]; [by left|by right].
Qed.

Lemma root_inj_length l l' :
  merkle_bytes l ⊆ hashed → merkle_bytes l' ⊆ hashed →
  Forall (fits 256) l → Forall (fits 256) l' → length l = length l' →
  (ComputeMerkleRoot l).1 = (ComputeMerkleRoot l').1 → l = l' ∨ collision SHA256d hashed.
Proof using Fits.
  remember (length l) as n eqn:Hn. revert l l' Hn. induction (lt_wf n) as [n _ IH].
  intros l l' -> Hh Hh' Hf Hf' Hl E. destruct (decide (1 < length l)%nat) as [H1|H1].
  - rewrite (merkle_step l), (merkle_step l') in E by lia. cbn [fst] in E.
    rewrite (merkle_bytes_step l) in Hh by lia. rewrite (merkle_bytes_step l') in Hh' by lia. split_sub.
    destruct (IH (length (level l)) ltac:(by apply level_shorter) (level l) (level l')) as [E2|?];
      [done|done|done|apply level_fits..|by rewrite !level_length, Hl|done| |by right].
    by apply level_inj_length.
  - destruct l as [|a [|]], l' as [|a' [|]]; cbn [length] in *; try lia; [by left|].
    rewrite !merkle_single in E. cbn in E. subst. by left.
Qed.

Lemma root_in_levels l : l ≠ [] → in_levels l [(ComputeMerkleRoot l).1].
Proof.
  remember (length l) as n eqn:Hn. revert l Hn. induction (lt_wf n) as [n _ IH]. intros l -> Hne.
  destruct l as [|a [|b l]]; [done|constructor|]. set (m := a :: b :: l) in *.
  assert (Hl : (1 < length m)%nat) by (simpl; lia). rewrite merkle_step by done. cbn [fst].
  apply level_above; [done|]. by eapply IH; [by apply level_shorter|done|apply level_ne].
Qed.

(** Two lists with the same root: one is a level of the tree over the other. *)
Lemma root_inj l l' :
  merkle_bytes l ⊆ hashed → merkle_bytes l' ⊆ hashed →
  Forall (fits 256) l → Forall (fits 256) l' → l ≠ [] → l' ≠ [] →
  (ComputeMerkleRoot l).2 = false → (ComputeMerkleRoot l').2 = false →
  (ComputeMerkleRoot l).1 = (ComputeMerkleRoot l').1 →
  in_levels l l' ∨ in_levels l' l ∨ collision SHA256d hashed.
Proof using Fits.
  remember (length l) as n eqn:Hn. revert l l' Hn. induction (lt_wf n) as [n _ IH].
  intros l l' -> Hh Hh' Hf Hf' Hne Hne' Hm Hm' E.
  destruct (decide (1 < length l)%nat) as [H1|H1]; last first.
  { destruct l as [|a [|]]; cbn [length] in *; try done; [|lia].
    rewrite merkle_single in E. cbn [fst] in E. subst a. right. left. by apply root_in_levels. }
  destruct (decide (1 < length l')%nat) as [H1'|H1']; last first.
  { destruct l' as [|a [|]]; cbn [length] in *; try done; [|lia].
    rewrite (merkle_single a) in E. cbn [fst] in E. subst a. left. by apply root_in_levels. }
  pose proof Hm as Hm0. pose proof Hm' as Hm0'.
  rewrite (merkle_step l) in Hm, E by done. rewrite (merkle_step l') in Hm', E by done.
  cbn [fst snd] in Hm, Hm', E.
  apply orb_false_iff in Hm as [He Hm], Hm' as [He' Hm'].
  pose proof Hh as Hs. pose proof Hh' as Hs'. rewrite (merkle_bytes_step l H1) in Hs. rewrite (merkle_bytes_step l' H1') in Hs'.
  split_sub.
  destruct (IH (length (level l)) ltac:(by apply level_shorter) (level l) (level l')) as [Hi|[Hi|?]];
    try done; try apply level_fits; try (by apply level_ne); [| |by auto].
  - apply in_levels_inv in Hi as (k & Hk & Hlk & Ek); [|done].
    pose proof (in_levels_unmutated _ _ Hk Hm0) as Hmk. rewrite merkle_step in Hmk by done.
    apply orb_false_iff in Hmk as [Hek _].
    pose proof (in_levels_bytes _ _ Hk) as Hbk. rewrite (merkle_bytes_step k Hlk) in Hbk.
    destruct (level_inj l' k) as [->|?]; auto; [by etransitivity; [|exact Hh]; split_sub|]. by apply (in_levels_fits l).
  - apply in_levels_inv in Hi as (k & Hk & Hlk & Ek); [|done].
    pose proof (in_levels_unmutated _ _ Hk Hm0') as Hmk. rewrite merkle_step in Hmk by done.
    apply orb_false_iff in Hmk as [Hek _].
    pose proof (in_levels_bytes _ _ Hk) as Hbk. rewrite (merkle_bytes_step k Hlk) in Hbk.
    destruct (level_inj l k) as [->|?]; auto; [by etransitivity; [|exact Hh']; split_sub|]. by apply (in_levels_fits l').
Qed.
End fits.
End merkle.

(** ** A concrete hash function *)

(** A stand-in for double SHA-256 that meets the easiest target. *)
Definition small_hash (bs : list Z) : Z :=
  (1 + foldl (λ a b, (a * 31 + b) mod 65521) 7 bs mod 65521) * 2 ^ 240.

Lemma small_hash_fits bs : fits 256 (small_hash bs).
Proof.
  unfold small_hash. set (x := foldl _ _ _). pose proof (Z.mod_pos_bound x 65521 ltac:(lia)).
  unfold fits. lia.
Qed.
