(* ===== verification/PartialMerkle.v ===== *)
(** * Proofs that transactions are in a block: src/src/merkleblock.h and
    src/src/merkleblock.cpp

    A partial merkle tree holds, in depth-first order, one bit for each node that is
    visited and the hashes of the nodes that are not descended into.  Positions are below
    twice the number of transactions, which the reader limits, so that their doubling does
    not wrap; they are natural numbers here. *)

From S2P Require Import Prelude Serialize BlockHeader Formats Subsidy Transaction Merkle.

Local Open Scope Z_scope.

(** ** Bits and bytes *)

(** The loop of [BitsToBytes], from bit [p] on. *)
Fixpoint set_bits (p : nat) (bits : list bool) (ret : list Z) : list Z :=
  match bits with
  | [] => ret
  | b :: bits' =>
      set_bits (S p) bits'
        (alter (λ byte, Z.lor byte (Z.shiftl (Z.b2z b) (Z.of_nat (p mod 8)))) (p / 8)%nat ret)
  end.

Definition BitsToBytes (bits : list bool) : list Z :=
  set_bits 0 bits (replicate ((length bits + 7) / 8) 0).

Definition BytesToBits (bytes : list Z) : list bool :=
  (λ p, negb (Z.land (default 0 (bytes !! (p / 8)%nat)) (Z.shiftl 1 (Z.of_nat (p mod 8))) =? 0))
    <$> seq 0 (length bytes * 8).

(** ** The tree *)

Record CPartialMerkleTree := mkPartial {
  nTransactions : Z;
  vBits : list bool;
  vHash : list Z;
  fBad : bool
}.

Definition CalcTreeWidth (nTransactions : Z) (height : nat) : Z :=
  Z.shiftr (u32 (nTransactions + Z.shiftl 1 (Z.of_nat height) - 1)) (Z.of_nat height).

(** The loop that finds the height of the tree; a width of 32 bits is at most one after 32
    rounds. *)
Fixpoint height_loop (fuel : nat) (nTransactions : Z) (nHeight : nat) : nat :=
  match fuel with
  | O => nHeight
  | S fuel' =>
      if 1 <? CalcTreeWidth nTransactions nHeight
      then height_loop fuel' nTransactions (S nHeight) else nHeight
  end.

Definition TreeHeight (nTransactions : Z) : nat := height_loop 32 nTransactions 0.

(** Whether the node has a second child. *)
Definition has_right (nTransactions : Z) (height pos : nat) : bool :=
  Z.of_nat (pos * 2 + 1) <? CalcTreeWidth nTransactions height.

Section tree.
Context (SHA256d : list Z → Z).

Fixpoint CalcHash (nTransactions : Z) (height pos : nat) (vTxid : list Z) : Z :=
  match height with
  | O => default 0 (vTxid !! pos)
  | S h =>
      let left := CalcHash nTransactions h (pos * 2) vTxid in
      let right := if has_right nTransactions h pos
                   then CalcHash nTransactions h (pos * 2 + 1) vTxid else left in
      HashPair SHA256d left right
  end.

(** ** Building *)

(** The loop over the leaves below the node. *)
Definition parent_of_match (nTransactions : Z) (height pos : nat) (vMatch : list bool) : bool :=
  existsb (λ p, (Z.of_nat p <? nTransactions) && default false (vMatch !! p))
    (seq (pos * 2 ^ height) (2 ^ height)).

(** The bits and the hashes that are pushed. *)
Fixpoint TraverseAndBuild (nTransactions : Z) (height pos : nat) (vTxid : list Z)
    (vMatch : list bool) : list bool * list Z :=
  let fParentOfMatch := parent_of_match nTransactions height pos vMatch in
  match height, fParentOfMatch with
  | S h, true =>
      let '(bits, hashes) := TraverseAndBuild nTransactions h (pos * 2) vTxid vMatch in
      let '(bits', hashes') :=
        if has_right nTransactions h pos
        then TraverseAndBuild nTransactions h (pos * 2 + 1) vTxid vMatch else ([], []) in
      (fParentOfMatch :: bits ++ bits', hashes ++ hashes')
  | _, _ => ([fParentOfMatch], [CalcHash nTransactions height pos vTxid])
  end.

(** The constructor from the ids and the selection. *)
Definition NewPartialMerkleTree (vTxid : list Z) (vMatch : list bool) : CPartialMerkleTree :=
  let n := u32 (Z.of_nat (length vTxid)) in
  let '(bits, hashes) := TraverseAndBuild n (TreeHeight n) 0 vTxid vMatch in
  mkPartial n bits hashes false.

(** ** Extracting *)

Record Extract := mkExtract {
  nBitsUsed : nat;
  nHashUsed : nat;
  vMatched : list Z;
  vnIndex : list Z;
  bad : bool
}.

Definition set_bad (e : Extract) : Extract :=
  mkExtract (nBitsUsed e) (nHashUsed e) (vMatched e) (vnIndex e) true.
Definition use_bit (e : Extract) : Extract :=
  mkExtract (S (nBitsUsed e)) (nHashUsed e) (vMatched e) (vnIndex e) (bad e).
Definition use_hash (e : Extract) : Extract :=
  mkExtract (nBitsUsed e) (S (nHashUsed e)) (vMatched e) (vnIndex e) (bad e).
Definition push_match (hash : Z) (pos : nat) (e : Extract) : Extract :=
  mkExtract (nBitsUsed e) (nHashUsed e) (vMatched e ++ [hash]) (vnIndex e ++ [Z.of_nat pos]) (bad e).

(** The hash of the node. *)
Fixpoint TraverseAndExtract (t : CPartialMerkleTree) (height pos : nat) (e : Extract)
    : Z * Extract :=
  match vBits t !! nBitsUsed e with
  | None => (0, set_bad e)
  | Some fParentOfMatch =>
      let e := use_bit e in
      match height, fParentOfMatch with
      | S h, true =>
          let '(lhash, e) := TraverseAndExtract t h (pos * 2) e in
          if has_right (nTransactions t) h pos then
            let '(rhash, e) := TraverseAndExtract t h (pos * 2 + 1) e in
            (HashPair SHA256d lhash rhash, if rhash =? lhash then set_bad e else e)
          else (HashPair SHA256d lhash lhash, e)
      | _, _ =>
          match vHash t !! nHashUsed e with
          | None => (0, set_bad e)
          | Some hash =>
              let e := use_hash e in
              (hash, if (height =? 0)%nat && fParentOfMatch then push_match hash pos e else e)
          end
      end
  end.

Definition MIN_TRANSACTION_WEIGHT : Z := WITNESS_SCALE_FACTOR * 60.

(** The root, [0] on failure, the matched ids and their positions, after what [vnIndex]
    held before. *)
Definition ExtractMatches (t : CPartialMerkleTree) (vnIndex0 : list Z) : Z * list Z * list Z :=
  if nTransactions t =? 0 then (0, [], vnIndex0)
  else if MAX_BLOCK_WEIGHT / MIN_TRANSACTION_WEIGHT <? nTransactions t then (0, [], vnIndex0)
  else if nTransactions t <? Z.of_nat (length (vHash t)) then (0, [], vnIndex0)
  else if (length (vBits t) <? length (vHash t))%nat then (0, [], vnIndex0)
  else
    let '(hashMerkleRoot, e) :=
      TraverseAndExtract t (TreeHeight (nTransactions t)) 0 (mkExtract 0 0 [] vnIndex0 (fBad t)) in
    if bad e then (0, vMatched e, vnIndex e)
    else if negb ((nBitsUsed e + 7) / 8 =? (length (vBits t) + 7) / 8)%nat
    then (0, vMatched e, vnIndex e)
    else if negb (nHashUsed e =? length (vHash t))%nat then (0, vMatched e, vnIndex e)
    else (hashMerkleRoot, vMatched e, vnIndex e).
End tree.

(** ** Serialization *)

Definition SerializePartial (t : CPartialMerkleTree) : list Z :=
  encode uint32_codec (nTransactions t) ++ encode (vector_codec uint256_codec) (vHash t) ++
  encode bytes_codec (BitsToBytes (vBits t)).

Definition UnserializePartial : parser CPartialMerkleTree :=
  n ← decode uint32_codec;
  hashes ← decode (vector_codec uint256_codec);
  bytes ← decode bytes_codec;
  mret (mkPartial n (BytesToBits bytes) hashes false).

(** ** Lemmas *)

(** *** Bits *)

Lemma set_bits_length p bits ret : length (set_bits p bits ret) = length ret.
Proof. revert p ret. induction bits as [|b bits IH]; intros p ret; [done|]. cbn [set_bits]. by rewrite IH, length_alter. Qed.

Lemma bit_at b m j : 0 <= m → 0 <= j → Z.testbit (Z.shiftl (Z.b2z b) m) j = (j =? m) && b.
Proof.
  intros Hm Hj. rewrite Z.shiftl_spec by done. destruct (Z.eqb_spec j m) as [->|Hne].
  - rewrite Z.sub_diag. apply Z.b2z_bit0.
  - destruct (decide (j < m)); [by rewrite Z.testbit_neg_r by lia|].
    destruct b; [|apply Z.bits_0]. by rewrite Z.bits_above_log2 by (cbn; lia).
Qed.

(** The bits of the bytes after the loop. *)
Lemma set_bits_spec p bits ret i j :
  (i < length ret)%nat → (j < 8)%nat →
  Z.testbit (default 0 (set_bits p bits ret !! i)) (Z.of_nat j) =
  Z.testbit (default 0 (ret !! i)) (Z.of_nat j) ||
  bool_decide (p <= 8 * i + j)%nat && default false (bits !! (8 * i + j - p)%nat).
Proof.
  revert p ret. induction bits as [|b bits IH]; intros p ret Hi Hj; cbn [set_bits].
  { by rewrite lookup_nil, andb_false_r, orb_false_r. }
  rewrite IH by (rewrite ?length_alter; done).
  destruct (lookup_lt_is_Some_2 ret i Hi) as [x Hx]. pose proof (Nat.div_mod p 8 ltac:(done)) as Hp.
  pose proof (Nat.mod_upper_bound p 8 ltac:(done)).
  destruct (decide (p = 8 * i + j)%nat) as [->|Hne].
  - replace ((8 * i + j) / 8)%nat with i by (rewrite Nat.mul_comm, Nat.div_add_l, Nat.div_small; lia).
    replace ((8 * i + j) mod 8)%nat with j
      by (rewrite Nat.mul_comm, Nat.add_comm, Nat.Div0.mod_add, Nat.mod_small; lia).
    rewrite list_lookup_alter_eq, Hx. cbn [fmap option_fmap option_map default from_option id].
    rewrite Z.lor_spec, bit_at, Z.eqb_refl by lia. rewrite Nat.sub_diag. cbn [lookup list_lookup default].
    rewrite (bool_decide_false (S (8 * i + j) <= 8 * i + j)%nat), (bool_decide_true (8 * i + j <= 8 * i + j)%nat) by lia.
    cbn [andb]. by rewrite orb_false_r.
  - assert (E : Z.testbit (default 0 (alter (λ byte, Z.lor byte (Z.shiftl (Z.b2z b) (Z.of_nat (p mod 8)))) (p / 8)%nat ret !! i))
      (Z.of_nat j) = Z.testbit (default 0 (ret !! i)) (Z.of_nat j)).
    { destruct (decide (p / 8 = i)%nat) as [<-|Hni].
      - rewrite list_lookup_alter_eq, Hx. cbn [fmap option_fmap option_map default from_option id].
        rewrite Z.lor_spec, bit_at by lia. rewrite (proj2 (Z.eqb_neq _ _)) by lia. by rewrite orb_false_r.
      - by rewrite list_lookup_alter_ne. }
    rewrite E. f_equal. case_bool_decide; case_bool_decide; try lia. cbn [andb].
    by replace (8 * i + j - p)%nat with (S (8 * i + j - S p)) by lia.
Qed.

Definition padding (n : nat) : nat := ((n + 7) / 8 * 8 - n)%nat.

Lemma padding_le n : (n <= (n + 7) / 8 * 8)%nat.
Proof. pose proof (Nat.div_mod (n + 7) 8 ltac:(done)). pose proof (Nat.mod_upper_bound (n + 7) 8 ltac:(done)). lia. Qed.

Lemma padding_bytes n : ((n + padding n + 7) / 8 = (n + 7) / 8)%nat.
Proof.
  pose proof (padding_le n). unfold padding. replace (n + ((n + 7) / 8 * 8 - n) + 7)%nat with ((n + 7) / 8 * 8 + 7)%nat by lia.
  rewrite Nat.div_add_l by lia. by rewrite Nat.add_0_r.
Qed.

(** Packing and unpacking adds zeros up to a whole byte. *)
Lemma BytesToBits_BitsToBytes bits :
  BytesToBits (BitsToBytes bits) = bits ++ replicate (padding (length bits)) false.
Proof.
  unfold BytesToBits, BitsToBytes. rewrite set_bits_length, length_replicate.
  pose proof (padding_le (length bits)) as Hle. set (m := ((length bits + 7) / 8)%nat) in *.
  apply list_eq. intros p. rewrite list_lookup_fmap. destruct (decide (p < m * 8)%nat) as [Hp|Hp].
  - rewrite lookup_seq_lt by done. cbn [fmap option_fmap option_map]. rewrite Nat.add_0_l.
    pose proof (Nat.div_mod p 8 ltac:(done)) as Hd. pose proof (Nat.mod_upper_bound p 8 ltac:(done)).
    rewrite Z.shiftl_1_l, land_pow2 by lia.
    rewrite set_bits_spec by (rewrite ?length_replicate; lia).
    rewrite lookup_replicate_2 by lia. cbn [default]. rewrite Z.bits_0. cbn [orb].
    rewrite bool_decide_true, Nat.sub_0_r, <- Hd by lia. cbn [andb].
    destruct (decide (p < length bits)%nat) as [Hb|Hb].
    + rewrite lookup_app_l by done. destruct (lookup_lt_is_Some_2 bits p Hb) as [b ->]. cbn [default].
      pose proof (Z.pow_pos_nonneg 2 (Z.of_nat (p mod 8)) ltac:(lia) ltac:(lia)).
      destruct b; cbn; [|done]. by rewrite (proj2 (Z.eqb_neq _ 0)) by lia.
    + rewrite lookup_app_r by lia. rewrite lookup_replicate_2 by (unfold padding; fold m; lia).
      by rewrite (lookup_ge_None_2 bits p) by lia.
  - rewrite lookup_seq_ge by lia. cbn [fmap option_fmap option_map]. symmetry. apply lookup_ge_None_2.
    rewrite length_app, length_replicate. unfold padding. fold m. lia.
Qed.

Lemma set_bits_bytes p bits ret : Forall is_byte ret → Forall is_byte (set_bits p bits ret).
Proof.
  revert p ret. induction bits as [|b bits IH]; intros p ret H; [done|]. cbn [set_bits]. apply IH.
  apply Forall_alter; [done|]. intros x _ Hx. unfold is_byte in *.
  pose proof (Nat.mod_upper_bound p 8 ltac:(done)).
  assert (0 <= Z.shiftl (Z.b2z b) (Z.of_nat (p mod 8))) by (apply Z.shiftl_nonneg; destruct b; cbn; lia).
  split; [apply Z.lor_nonneg; lia|].
  destruct (decide (Z.lor x (Z.shiftl (Z.b2z b) (Z.of_nat (p mod 8))) = 0)) as [->|Hn]; [lia|].
  change 256 with (2 ^ 8). apply Z.log2_lt_pow2; [|rewrite Z.log2_lor by lia; apply Z.max_lub_lt].
  - pose proof (proj2 (Z.lor_nonneg x (Z.shiftl (Z.b2z b) (Z.of_nat (p mod 8)))) ltac:(lia)). lia.
  - destruct (decide (x = 0)) as [->|]; [done|]. apply Z.log2_lt_pow2; lia.
  - destruct b; cbn [Z.b2z]; [|by rewrite Z.shiftl_0_l]. rewrite Z.shiftl_1_l, Z.log2_pow2 by lia. lia.
Qed.

Lemma BitsToBytes_bytes bits : Forall is_byte (BitsToBytes bits).
Proof. apply set_bits_bytes, Forall_replicate. unfold is_byte. lia. Qed.

(** *** Levels *)

Section levels.
Context (SHA256d : list Z → Z).

(** The nodes at a height. *)
Definition nodes (l : list Z) (h : nat) : list Z := Nat.iter h (level SHA256d) l.

Lemma level_lookup l pos :
  level SHA256d l !! pos =
  match l !! (pos * 2)%nat with
  | Some a => Some (HashPair SHA256d a (default a (l !! (pos * 2 + 1)%nat)))
  | None => None
  end.
Proof.
  revert pos. induction l as [|a|a b l IH] using pair_ind; intros [|pos]; cbn [level]; try done.
  change ((HashPair SHA256d a b :: level SHA256d l) !! S pos) with (level SHA256d l !! pos). by rewrite IH.
Qed.

(** The width is the number of nodes, for numbers of transactions that do not wrap. *)
Lemma nodes_length l h :
  Z.of_nat (length l) + 2 ^ Z.of_nat h <= 2 ^ 32 →
  Z.of_nat (length (nodes l h)) = CalcTreeWidth (Z.of_nat (length l)) h.
Proof.
  unfold CalcTreeWidth. intros Hb. rewrite Z.shiftl_1_l, Z.shiftr_div_pow2 by lia.
  pose proof (Z.pow_pos_nonneg 2 (Z.of_nat h) ltac:(lia) ltac:(lia)).
  rewrite wrap_small by (unfold fits; lia). clear Hb.
  induction h as [|h IH].
  - cbn. rewrite Z.div_1_r. lia.
  - change (nodes l (S h)) with (level SHA256d (nodes l h)). rewrite level_length.
    rewrite Nat2Z.inj_succ, Z.pow_succ_r in * by lia.
    assert (0 < 2 ^ Z.of_nat h) by lia. specialize (IH ltac:(done)).
    rewrite Nat.div2_div, Nat2Z.inj_div, Nat2Z.inj_succ, IH. change (Z.of_nat 2) with 2.
    rewrite (Z.mul_comm 2), <- Z.div_div by lia. f_equal.
    replace (Z.of_nat (length l) + 2 ^ Z.of_nat h * 2 - 1)
      with (Z.of_nat (length l) + 2 ^ Z.of_nat h - 1 + 1 * 2 ^ Z.of_nat h) by lia.
    rewrite Z.div_add by lia. lia.
Qed.

(** *** The height *)

Lemma height_loop_spec fuel n h0 H :
  (∀ h, (h < H)%nat → 1 < CalcTreeWidth n h) → CalcTreeWidth n H <= 1 →
  (h0 <= H <= h0 + fuel)%nat → height_loop fuel n h0 = H.
Proof.
  intros Hlow HH. revert h0. induction fuel as [|fuel IH]; intros h0 Hh; cbn [height_loop]; [lia|].
  destruct (Z.ltb_spec 1 (CalcTreeWidth n h0)).
  - apply IH. destruct (decide (h0 = H)) as [->|]; lia.
  - destruct (decide (h0 = H)) as [->|]; [done|]. specialize (Hlow h0). lia.
Qed.

(** The first height at which one node is left. *)
Lemma TreeHeight_spec l :
  (1 <= length l)%nat → Z.of_nat (length l) <= 2 ^ 24 →
  (TreeHeight (Z.of_nat (length l)) <= 24)%nat ∧
  length (nodes l (TreeHeight (Z.of_nat (length l)))) = 1%nat ∧
  ∀ h, (h < TreeHeight (Z.of_nat (length l)))%nat → (1 < length (nodes l h))%nat.
Proof.
  intros H1 Hn. assert (Hw : ∀ h, (h <= 24)%nat →
    Z.of_nat (length (nodes l h)) = CalcTreeWidth (Z.of_nat (length l)) h).
  { intros h Hh. apply nodes_length. assert (2 ^ Z.of_nat h <= 2 ^ 24) by (apply Z.pow_le_mono_r; lia). lia. }
  assert (H24 : CalcTreeWidth (Z.of_nat (length l)) 24 <= 1).
  { unfold CalcTreeWidth. rewrite Z.shiftl_1_l, Z.shiftr_div_pow2 by lia.
    rewrite wrap_small by (unfold fits; lia). apply Z.lt_succ_r, Z.div_lt_upper_bound; lia. }
  assert (Hpos : ∀ h, (1 <= length (nodes l h))%nat).
  { induction h as [|h IH]; [done|]. change (nodes l (S h)) with (level SHA256d (nodes l h)).
    rewrite level_length. destruct (nodes l h) as [|a [|b m]]; cbn in *; lia. }
  assert (Hex : ∃ H, (H <= 24)%nat ∧ CalcTreeWidth (Z.of_nat (length l)) H <= 1 ∧
      ∀ h, (h < H)%nat → 1 < CalcTreeWidth (Z.of_nat (length l)) h).
  { destruct (dec_inh_nat_subset_has_unique_least_element
      (λ h, CalcTreeWidth (Z.of_nat (length l)) h <= 1)) as (H & [HH Hmin] & _).
    - intros h. destruct (decide (CalcTreeWidth (Z.of_nat (length l)) h <= 1)); [by left|by right].
    - by exists 24%nat.
    - exists H. split_and!; [by apply Hmin|done|]. intros h Hh.
      destruct (decide (CalcTreeWidth (Z.of_nat (length l)) h <= 1)) as [Hc|]; [|lia].
      specialize (Hmin h Hc). lia. }
  destruct Hex as (H & HH & Hone & Hlow). unfold TreeHeight.
  rewrite (height_loop_spec 32 _ 0 H) by (done || lia). split_and!; [done| |].
  - specialize (Hw H HH). specialize (Hpos H). lia.
  - intros h Hh. specialize (Hw h ltac:(lia)). specialize (Hlow h Hh). lia.
Qed.

(** The root is the node at the top, and no level pairs a hash with itself. *)
Lemma root_nodes l H :
  (∀ h, (h < H)%nat → (1 < length (nodes l h))%nat) →
  ComputeMerkleRoot SHA256d l =
  ((ComputeMerkleRoot SHA256d (nodes l H)).1, (ComputeMerkleRoot SHA256d l).2).
Proof.
  intros Hh. induction H as [|H IH]; [apply surjective_pairing|].
  rewrite IH at 1 by (intros h ?; apply Hh; lia). f_equal.
  rewrite (merkle_step SHA256d (nodes l H)) by (apply Hh; lia). done.
Qed.

Lemma root_top l :
  (1 <= length l)%nat → Z.of_nat (length l) <= 2 ^ 24 →
  nodes l (TreeHeight (Z.of_nat (length l))) = [(ComputeMerkleRoot SHA256d l).1].
Proof.
  intros H1 Hn. destruct (TreeHeight_spec l H1 Hn) as (_ & Hlen & Hlow).
  rewrite (root_nodes l _ Hlow). cbn [fst].
  by destruct (nodes l (TreeHeight (Z.of_nat (length l)))) as [|a [|]].
Qed.

Lemma nodes_distinct l h :
  (ComputeMerkleRoot SHA256d l).2 = false → equal_pair (nodes l h) = false.
Proof.
  intros Hm. assert (H : (ComputeMerkleRoot SHA256d (nodes l h)).2 = false).
  { induction h as [|h IH]; [done|]. change (nodes l (S h)) with (level SHA256d (nodes l h)).
    destruct (nodes l h) as [|a [|b m]] eqn:E; [done..|]. rewrite merkle_step in IH by (cbn; lia).
    by apply orb_false_iff in IH as [_ ?]. }
  destruct (nodes l h) as [|a [|b m]] eqn:E; [done..|]. rewrite merkle_step in H by (cbn; lia).
  by apply orb_false_iff in H as [? _].
Qed.

Lemma equal_pair_lookup l pos a b :
  equal_pair l = false → l !! (pos * 2)%nat = Some a → l !! (pos * 2 + 1)%nat = Some b → a ≠ b.
Proof.
  revert pos. induction l as [|x|x y l IH] using pair_ind; intros [|pos]; cbn [equal_pair]; try done.
  - intros [H _]%orb_false_iff [= <-] [= <-]. by apply Z.eqb_neq.
  - intros [_ H]%orb_false_iff. apply (IH pos H).
Qed.

(** *** The hash of a node *)

Section txids.
Context (l : list Z).
Abbreviation n := (Z.of_nat (length l)).

Lemma has_right_iff h pos :
  n + 2 ^ Z.of_nat h <= 2 ^ 32 → has_right n h pos = bool_decide (pos * 2 + 1 < length (nodes l h))%nat.
Proof.
  intros Hb. unfold has_right. rewrite <- nodes_length by done.
  destruct (Z.ltb_spec (Z.of_nat (pos * 2 + 1)) (Z.of_nat (length (nodes l h)))); symmetry;
    [apply bool_decide_true|apply bool_decide_false]; lia.
Qed.

Lemma CalcHash_nodes h pos :
  n + 2 ^ Z.of_nat h <= 2 ^ 32 → (pos < length (nodes l h))%nat →
  nodes l h !! pos = Some (CalcHash SHA256d n h pos l).
Proof.
  revert pos. induction h as [|h IH]; intros pos Hb Hp; cbn [CalcHash].
  - destruct (lookup_lt_is_Some_2 l pos Hp) as [x Hx]. change (nodes l 0) with l. by rewrite Hx.
  - rewrite Nat2Z.inj_succ, Z.pow_succ_r in Hb by lia.
    assert (Hb' : n + 2 ^ Z.of_nat h <= 2 ^ 32) by lia. rewrite has_right_iff by done.
    change (nodes l (S h)) with (level SHA256d (nodes l h)) in *. rewrite level_lookup.
    rewrite level_length, Nat.div2_div in Hp.
    pose proof (Nat.Div0.mul_div_le (S (length (nodes l h))) 2).
    assert (Hleft : (pos * 2 < length (nodes l h))%nat) by lia.
    rewrite IH by done. case_bool_decide as Hr; [by rewrite IH|].
    by rewrite (lookup_ge_None_2 (nodes l h) (pos * 2 + 1)) by lia.
Qed.

(** *** What a tree that was built gives back *)

Lemma drop_cons {A} k (v : list A) x r : drop k v = x :: r → v !! k = Some x ∧ drop (S k) v = r.
Proof.
  intros E. split.
  - by rewrite <- (Nat.add_0_r k), <- lookup_drop, E.
  - by rewrite <- Nat.add_1_r, <- drop_drop, E.
Qed.

Lemma drop_app_inv {A} k (v a b : list A) : drop k v = a ++ b → drop (k + length a) v = b.
Proof. intros E. by rewrite <- drop_drop, E, drop_app_length. Qed.

Section build.
Context (vMatch : list bool).

(** The selected leaves below a node. *)
Definition picked (p : nat) : bool := (Z.of_nat p <? n) && default false (vMatch !! p).
Definition picks (h pos : nat) : list nat := List.filter picked (seq (pos * 2 ^ h) (2 ^ h)).

Lemma picks_split h pos : picks (S h) pos = picks h (pos * 2) ++ picks h (pos * 2 + 1).
Proof.
  unfold picks. rewrite <- List.filter_app. f_equal. rewrite Nat.pow_succ_r'.
  replace (2 * 2 ^ h)%nat with (2 ^ h + 2 ^ h)%nat by lia. rewrite seq_app. f_equal; f_equal; lia.
Qed.

Lemma picks_none h pos : parent_of_match n h pos vMatch = false → picks h pos = [].
Proof.
  unfold parent_of_match, picks. generalize (seq (pos * 2 ^ h) (2 ^ h)) as s.
  induction s as [|p s IH]; [done|]. cbn [existsb List.filter]. intros [Hp Hs]%orb_false_iff.
  assert (Hp' : picked p = false) by exact Hp. cbn. rewrite Hp'. by apply IH.
Qed.

Lemma nodes_cover h : (length l <= length (nodes l h) * 2 ^ h)%nat.
Proof.
  induction h as [|h IH]; [cbn; lia|]. change (nodes l (S h)) with (level SHA256d (nodes l h)).
  rewrite level_length, Nat.div2_div, Nat.pow_succ_r'.
  pose proof (Nat.div_mod (S (length (nodes l h))) 2 ltac:(done)).
  pose proof (Nat.mod_upper_bound (S (length (nodes l h))) 2 ltac:(done)). nia.
Qed.

Lemma picks_beyond h pos : (length (nodes l h) <= pos)%nat → picks h pos = [].
Proof.
  intros Hp. pose proof (nodes_cover h). assert (length l <= pos * 2 ^ h)%nat by nia.
  unfold picks. assert (Hs : ∀ p, p ∈ seq (pos * 2 ^ h) (2 ^ h) → picked p = false).
  { intros p Hin. apply elem_of_seq in Hin. unfold picked. by rewrite (proj2 (Z.ltb_ge _ _)) by lia. }
  revert Hs. generalize (seq (pos * 2 ^ h) (2 ^ h)) as s. induction s as [|p s IH]; intros Hs; [done|].
  cbn [List.filter]. rewrite Hs by (apply elem_of_cons; by left). apply IH. intros q Hq. apply Hs, elem_of_cons. by right.
Qed.

Definition ids (ps : list nat) : list Z := (λ p, default 0 (l !! p)) <$> ps.
Definition indices (ps : list nat) : list Z := Z.of_nat <$> ps.

(** The state after a node whose bits and hashes were read. *)
Definition after (e : Extract) (b : list bool * list Z) (ps : list nat) : Extract :=
  mkExtract (nBitsUsed e + length b.1) (nHashUsed e + length b.2) (vMatched e ++ ids ps)
    (vnIndex e ++ indices ps) (bad e).

Lemma after_after e b b' ps ps' :
  after (after e b ps) b' ps' = after e (b.1 ++ b'.1, b.2 ++ b'.2) (ps ++ ps').
Proof.
  unfold after, ids, indices. cbn [nBitsUsed nHashUsed vMatched vnIndex bad fst snd].
  rewrite !length_app, !fmap_app, !app_assoc, !Nat.add_assoc. done.
Qed.

Lemma TraverseAndBuild_stop h pos :
  parent_of_match n h pos vMatch = false →
  TraverseAndBuild SHA256d n h pos l vMatch = ([false], [CalcHash SHA256d n h pos l]).
Proof. intros E. destruct h; cbn [TraverseAndBuild]; by rewrite E. Qed.

Lemma extract_build t h pos e bits' hashes' :
  nTransactions t = n → n + 2 ^ Z.of_nat h <= 2 ^ 32 → (pos < length (nodes l h))%nat →
  (ComputeMerkleRoot SHA256d l).2 = false →
  drop (nBitsUsed e) (vBits t) = (TraverseAndBuild SHA256d n h pos l vMatch).1 ++ bits' →
  drop (nHashUsed e) (vHash t) = (TraverseAndBuild SHA256d n h pos l vMatch).2 ++ hashes' →
  TraverseAndExtract SHA256d t h pos e =
  (CalcHash SHA256d n h pos l, after e (TraverseAndBuild SHA256d n h pos l vMatch) (picks h pos)).
Proof.
  intros Ht. revert pos e bits' hashes'. induction h as [|h IH]; intros pos e bits' hashes' Hb Hpos Hm HB HH.
  - cbn [TraverseAndBuild fst snd app] in HB, HH. apply drop_cons in HB as [HB _], HH as [HH _].
    cbn [TraverseAndExtract]. rewrite HB. cbn [use_bit nHashUsed Nat.eqb andb]. rewrite HH. cbn [TraverseAndBuild].
    f_equal. unfold parent_of_match, picks. cbn [Nat.pow]. rewrite Nat.mul_1_r. cbn [seq existsb List.filter].
    fold (picked pos). rewrite orb_false_r. unfold after, ids, indices. cbn [fst snd length].
    destruct (picked pos); unfold use_hash, use_bit, push_match; cbn; rewrite ?app_nil_r, !Nat.add_1_r; done.
  - destruct (parent_of_match n (S h) pos vMatch) eqn:Ep.
    2: { rewrite TraverseAndBuild_stop in HB, HH |- * by done. rewrite picks_none by done.
      cbn [fst snd app] in HB, HH. apply drop_cons in HB as [HB _], HH as [HH _].
      cbn [TraverseAndExtract]. rewrite HB. cbn [use_bit nHashUsed Nat.eqb andb]. rewrite HH. f_equal.
      unfold after, ids, indices, use_hash, use_bit. cbn. by rewrite !app_nil_r, !Nat.add_1_r. }
    cbn [TraverseAndBuild] in HB, HH |- *. rewrite Ep in HB, HH |- *.
    rewrite Nat2Z.inj_succ, Z.pow_succ_r in Hb by lia. assert (Hb' : n + 2 ^ Z.of_nat h <= 2 ^ 32) by lia.
    change (nodes l (S h)) with (level SHA256d (nodes l h)) in Hpos. rewrite level_length, Nat.div2_div in Hpos.
    pose proof (Nat.Div0.mul_div_le (S (length (nodes l h))) 2).
    assert (Hleft : (pos * 2 < length (nodes l h))%nat) by lia.
    destruct (TraverseAndBuild SHA256d n h (pos * 2) l vMatch) as [B1 H1] eqn:E1.
    pose proof (IH (pos * 2)%nat (use_bit e)) as IHl. rewrite E1 in IHl. cbn [fst snd] in IHl.
    cbn [TraverseAndExtract]. rewrite Ht. rewrite has_right_iff in HB, HH |- * by done.
    cbn [CalcHash]. rewrite has_right_iff by done. rewrite picks_split.
    case_bool_decide as Hr.
    + destruct (TraverseAndBuild SHA256d n h (pos * 2 + 1) l vMatch) as [B2 H2] eqn:E2.
      cbn [fst snd app] in HB, HH. rewrite <- app_assoc in HB, HH. apply drop_cons in HB as [HB0 HB].
      rewrite HB0. rewrite (IHl _ _ Hb' Hleft Hm HB HH).
      pose proof (IH (pos * 2 + 1)%nat (after (use_bit e) (B1, H1) (picks h (pos * 2)))) as IHr.
      rewrite E2 in IHr. cbn [fst snd] in IHr.
      rewrite (IHr bits' hashes') by (done || by apply drop_app_inv).
      assert (Hne : CalcHash SHA256d n h (pos * 2) l ≠ CalcHash SHA256d n h (pos * 2 + 1) l).
      { eapply equal_pair_lookup; [by apply (nodes_distinct l h)|by apply CalcHash_nodes|by apply CalcHash_nodes]. }
      rewrite (proj2 (Z.eqb_neq _ _)) by (by apply not_eq_sym). f_equal.
      rewrite after_after. unfold after, use_bit. cbn [fst snd nBitsUsed nHashUsed vMatched vnIndex bad length].
      f_equal. by rewrite Nat.add_succ_r.
    + cbn [fst snd app] in HB, HH. rewrite !app_nil_r in HB, HH. rewrite !app_nil_r.
      apply drop_cons in HB as [HB0 HB]. rewrite HB0. rewrite (IHl _ _ Hb' Hleft Hm HB HH).
      rewrite (picks_beyond h (pos * 2 + 1)), app_nil_r by lia. f_equal.
      unfold after, use_bit. cbn [fst snd nBitsUsed nHashUsed vMatched vnIndex bad length].
      f_equal. by rewrite Nat.add_succ_r.
Qed.

(** *** Sizes of a tree that was built *)

Lemma nodes_tight h pos : (pos < length (nodes l h))%nat → (pos * 2 ^ h < length l)%nat.
Proof.
  revert pos. induction h as [|h IH]; intros pos; [cbn; lia|].
  change (nodes l (S h)) with (level SHA256d (nodes l h)). rewrite level_length, Nat.div2_div, Nat.pow_succ_r'.
  pose proof (Nat.Div0.mul_div_le (S (length (nodes l h))) 2). intros Hp. specialize (IH (pos * 2)%nat ltac:(lia)). lia.
Qed.

Lemma build_sizes h pos :
  n + 2 ^ Z.of_nat h <= 2 ^ 32 → (pos < length (nodes l h))%nat →
  let b := TraverseAndBuild SHA256d n h pos l vMatch in
  (pos * 2 ^ h + length b.2 <= length l)%nat ∧ (length b.2 <= 2 ^ h)%nat ∧
  (length b.2 <= length b.1 < 2 ^ S h)%nat.
Proof.
  revert pos. induction h as [|h IH]; intros pos Hb Hp.
  { cbn [TraverseAndBuild fst snd length Nat.pow]. change (nodes l 0) with l in Hp. lia. }
  pose proof (nodes_tight (S h) pos Hp) as Ht. assert (H2 : (0 < 2 ^ h)%nat) by (apply Nat.neq_0_lt_0, Nat.pow_nonzero; lia).
  rewrite Nat.pow_succ_r' in Ht. cbv zeta. rewrite (Nat.pow_succ_r' 2 (S h)), !(Nat.pow_succ_r' 2 h).
  destruct (parent_of_match n (S h) pos vMatch) eqn:Ep; [|rewrite TraverseAndBuild_stop by done; cbn; lia].
  rewrite Nat2Z.inj_succ, Z.pow_succ_r in Hb by lia. assert (Hb' : n + 2 ^ Z.of_nat h <= 2 ^ 32) by lia.
  change (nodes l (S h)) with (level SHA256d (nodes l h)) in Hp. rewrite level_length, Nat.div2_div in Hp.
  pose proof (Nat.Div0.mul_div_le (S (length (nodes l h))) 2).
  destruct (IH (pos * 2)%nat Hb' ltac:(lia)) as (I1 & I2 & I3). rewrite Nat.pow_succ_r' in I3.
  cbn [TraverseAndBuild]. rewrite Ep, has_right_iff by done.
  destruct (TraverseAndBuild SHA256d n h (pos * 2) l vMatch) as [B1 H1]. case_bool_decide as Hr.
  - destruct (IH (pos * 2 + 1)%nat Hb' Hr) as (J1 & J2 & J3). rewrite Nat.pow_succ_r' in J3.
    destruct (TraverseAndBuild SHA256d n h (pos * 2 + 1) l vMatch) as [B2 H2'].
    cbn [fst snd length] in *. rewrite !length_app. lia.
  - cbn [fst snd length] in *. rewrite !app_nil_r. lia.
Qed.

Lemma nodes_fit h (Fits : ∀ x, fits 256 (SHA256d x)) :
  Forall (fits 256) l → Forall (fits 256) (nodes l h).
Proof. intros Hl. destruct h as [|h]; [done|]. by apply level_fits. Qed.

Lemma build_fits h pos (Fits : ∀ x, fits 256 (SHA256d x)) :
  Forall (fits 256) l → n + 2 ^ Z.of_nat h <= 2 ^ 32 → (pos < length (nodes l h))%nat →
  Forall (fits 256) (TraverseAndBuild SHA256d n h pos l vMatch).2.
Proof.
  intros Hl. revert pos. induction h as [|h IH]; intros pos Hb Hp.
  all: assert (Hc : ∀ k, n + 2 ^ Z.of_nat k <= 2 ^ 32 → (pos < length (nodes l k))%nat →
    Forall (fits 256) [CalcHash SHA256d n k pos l]).
  1, 3: intros k Hk Hpk; constructor; [|constructor];
    apply (Forall_lookup_1 _ _ pos _ (nodes_fit k Fits Hl)); by apply CalcHash_nodes.
  - cbn [TraverseAndBuild snd]. by apply (Hc 0%nat).
  - destruct (parent_of_match n (S h) pos vMatch) eqn:Ep; [|rewrite TraverseAndBuild_stop by done; by apply Hc].
    clear Hc. rewrite Nat2Z.inj_succ, Z.pow_succ_r in Hb by lia. assert (Hb' : n + 2 ^ Z.of_nat h <= 2 ^ 32) by lia.
    change (nodes l (S h)) with (level SHA256d (nodes l h)) in Hp. rewrite level_length, Nat.div2_div in Hp.
    pose proof (Nat.Div0.mul_div_le (S (length (nodes l h))) 2).
    pose proof (IH (pos * 2)%nat Hb' ltac:(lia)) as I. cbn [TraverseAndBuild]. rewrite Ep, has_right_iff by done.
    destruct (TraverseAndBuild SHA256d n h (pos * 2) l vMatch) as [B1 H1]. case_bool_decide as Hr.
    + pose proof (IH (pos * 2 + 1)%nat Hb' Hr) as J.
      destruct (TraverseAndBuild SHA256d n h (pos * 2 + 1) l vMatch). by apply Forall_app.
    + cbn [snd] in *. by rewrite app_nil_r.
Qed.

(** All selected leaves are below the root. *)
Lemma picks_all h :
  (length l <= 2 ^ h)%nat →
  picks h 0 = List.filter (λ p, default false (vMatch !! p)) (seq 0 (length l)).
Proof.
  intros Hh. unfold picks. rewrite Nat.mul_0_l.
  replace (2 ^ h)%nat with (length l + (2 ^ h - length l))%nat by lia. rewrite seq_app, List.filter_app.
  rewrite (List.filter_ext_in picked (λ p, default false (vMatch !! p)) (seq 0 (length l))).
  2: { intros p Hp%in_seq. unfold picked. by rewrite (proj2 (Z.ltb_lt _ _)) by lia. }
  rewrite (List.filter_ext_in picked (λ _, false) (seq (0 + length l) _)).
  2: { intros p Hp%in_seq. unfold picked. by rewrite (proj2 (Z.ltb_ge _ _)) by lia. }
  assert (E : ∀ s : list nat, List.filter (λ _, false) s = []) by (by induction s). by rewrite E, app_nil_r.
Qed.
End build.

(** *** What any tree can prove *)

(** The strings hashed while a partial tree is traversed. *)
Fixpoint extract_bytes (t : CPartialMerkleTree) (height pos : nat) (e : Extract) : list (list Z) :=
  match vBits t !! nBitsUsed e, height with
  | Some true, S h =>
      let '(lhash, e1) := TraverseAndExtract SHA256d t h (pos * 2) (use_bit e) in
      extract_bytes t h (pos * 2) (use_bit e) ++
      (if has_right (nTransactions t) h pos
       then extract_bytes t h (pos * 2 + 1) e1 ++ [pair_bytes lhash (TraverseAndExtract SHA256d t h (pos * 2 + 1) e1).1]
       else [pair_bytes lhash lhash])
  | _, _ => []
  end.

Definition matches_bytes (t : CPartialMerkleTree) : list (list Z) :=
  extract_bytes t (TreeHeight (nTransactions t)) 0 (mkExtract 0 0 [] [] (fBad t)).

Lemma level_bytes_lookup (k : list Z) p a :
  k !! (p * 2)%nat = Some a → pair_bytes a (default a (k !! (p * 2 + 1)%nat)) ∈ level_bytes k.
Proof.
  revert p. induction k as [|x|x y k IH] using pair_ind; intros [|p] Hp; cbn in *; try done.
  - injection Hp as <-. by left.
  - injection Hp as <-. by left.
  - right. by apply IH.
Qed.

Lemma nodes_in_levels (k : list Z) H :
  (∀ h, (h < H)%nat → (1 < length (nodes k h))%nat) → in_levels SHA256d k (nodes k H).
Proof.
  revert k. induction H as [|H IH]; intros k Hh; [constructor|].
  assert (E : ∀ h, nodes (level SHA256d k) h = nodes k (S h)) by (intros h; unfold nodes; by rewrite Nat.iter_succ_r).
  apply level_above; [by apply (Hh 0%nat); lia|]. rewrite <- E. apply IH. intros h Hl. rewrite E. apply Hh. lia.
Qed.

Lemma nodes_bytes (k : list Z) H h :
  (∀ h, (h < H)%nat → (1 < length (nodes k h))%nat) → (h < H)%nat → level_bytes (nodes k h) ⊆ merkle_bytes SHA256d k.
Proof.
  intros Hh Hl. pose proof (in_levels_bytes SHA256d k (nodes k h)) as Hb.
  rewrite (merkle_bytes_step SHA256d (nodes k h)) in Hb by (by apply Hh).
  assert (Hi : in_levels SHA256d k (nodes k h)) by (apply nodes_in_levels; intros i Hi; apply Hh; lia).
  specialize (Hb Hi). by split_sub.
Qed.

Lemma extract_bad t h pos e : bad e = true → bad (TraverseAndExtract SHA256d t h pos e).2 = true.
Proof.
  revert pos e. induction h as [|h IH]; intros pos e He; cbn [TraverseAndExtract];
    (destruct (vBits t !! nBitsUsed e) as [b|]; [|done]).
  - destruct (vHash t !! _); [|done]. by destruct b.
  - destruct b; [|by destruct (vHash t !! _)].
    pose proof (IH (pos * 2)%nat (use_bit e) He) as H1.
    destruct (TraverseAndExtract SHA256d t h (pos * 2) (use_bit e)) as [x e1].
    destruct (has_right _ _ _); [|done]. pose proof (IH (pos * 2 + 1)%nat e1 H1) as H2.
    destruct (TraverseAndExtract SHA256d t h (pos * 2 + 1) e1) as [y e2]. by destruct (y =? x).
Qed.

Section sound.
Context (Fits : ∀ x, fits 256 (SHA256d x)) (t : CPartialMerkleTree).
Context (Hhash : Forall (fits 256) (vHash t)) (Hl : Forall (fits 256) l) (Ht : nTransactions t = n).
Context (hashed : list (list Z)).

Lemma extract_fits h pos e : fits 256 (TraverseAndExtract SHA256d t h pos e).1.
Proof using Fits Hhash l.
  assert (H0 : fits 256 0) by (unfold fits; lia).
  assert (Hv : ∀ i, match vHash t !! i with Some x => fits 256 x | None => True end).
  { intros i. destruct (vHash t !! i) eqn:E; [|done]. by apply (Forall_lookup_1 _ _ i _ Hhash). }
  destruct h as [|h]; cbn [TraverseAndExtract]; (destruct (vBits t !! nBitsUsed e) as [b|]; [|done]).
  - specialize (Hv (nHashUsed (use_bit e))). by destruct (vHash t !! _).
  - destruct b; [|specialize (Hv (nHashUsed (use_bit e))); by destruct (vHash t !! _)].
    destruct (TraverseAndExtract SHA256d t h (pos * 2) (use_bit e)) as [x e1].
    destruct (has_right _ _ _); [|apply Fits].
    destruct (TraverseAndExtract SHA256d t h (pos * 2 + 1) e1). apply Fits.
Qed.

(** The matches that a node adds are leaves, when the node has the hash of the tree. *)
Definition leaves_added (e e' : Extract) : Prop :=
  ∃ ps, vMatched e' = vMatched e ++ ps.*2 ∧ vnIndex e' = vnIndex e ++ (Z.of_nat <$> ps.*1) ∧
        Forall (λ p : nat * Z, l !! p.1 = Some p.2) ps.

Lemma leaves_added_refl e e' : vMatched e' = vMatched e → vnIndex e' = vnIndex e → leaves_added e e'.
Proof. intros E1 E2. exists []. rewrite E1, E2. cbn. rewrite !app_nil_r. done. Qed.

Lemma leaves_added_trans e1 e2 e3 : leaves_added e1 e2 → leaves_added e2 e3 → leaves_added e1 e3.
Proof.
  intros (ps & E1 & E2 & Hps) (qs & F1 & F2 & Hqs). exists (ps ++ qs).
  rewrite F1, E1, F2, E2, !fmap_app, !app_assoc. split_and!; [done|done|by apply Forall_app].
Qed.

Lemma extract_sound h pos e r e' :
  extract_bytes t h pos e ⊆ hashed → (∀ i, (i < h)%nat → level_bytes (nodes l i) ⊆ hashed) →
  n + 2 ^ Z.of_nat h <= 2 ^ 32 → (pos < length (nodes l h))%nat →
  TraverseAndExtract SHA256d t h pos e = (r, e') → bad e' = false →
  r = CalcHash SHA256d n h pos l → leaves_added e e' ∨ collision SHA256d hashed.
Proof using Fits Hhash Hl Ht.
  revert pos e r e'. induction h as [|h IH]; intros pos e r e' Hex Hlev Hb Hp; cbn [TraverseAndExtract extract_bytes] in *;
    (destruct (vBits t !! nBitsUsed e) as [b|]; [|by intros [= <- <-]]).
  - destruct (vHash t !! _) as [x|]; [|by intros [= <- <-]]. intros [= <- <-] _ Hx. left.
    destruct b; [|by apply leaves_added_refl]. exists [(pos, x)]. split_and!; [done|done|].
    constructor; [|constructor]. cbn [fst snd]. rewrite Hx.
    by apply (CalcHash_nodes 0 pos).
  - destruct b; [|destruct (vHash t !! _); intros [= <- <-]; [intros _ _; left; by apply leaves_added_refl|done]].
    rewrite Nat2Z.inj_succ, Z.pow_succ_r in Hb by lia. assert (Hb' : n + 2 ^ Z.of_nat h <= 2 ^ 32) by lia.
    change (nodes l (S h)) with (level SHA256d (nodes l h)) in Hp. rewrite level_length, Nat.div2_div in Hp.
    pose proof (Nat.Div0.mul_div_le (S (length (nodes l h))) 2).
    assert (Hleft : (pos * 2 < length (nodes l h))%nat) by lia.
    assert (Hlev' : ∀ i, (i < h)%nat → level_bytes (nodes l i) ⊆ hashed) by (intros i Hi; apply Hlev; lia).
    pose proof (level_bytes_lookup (nodes l h) pos _ (CalcHash_nodes h (pos * 2) Hb' Hleft)) as Hpair.
    apply (Hlev h) in Hpair; [|lia].
    assert (Hc : ∀ k, (k < length (nodes l h))%nat → fits 256 (CalcHash SHA256d n h k l)).
    { intros k Hk. apply (Forall_lookup_1 _ _ k _ (nodes_fit h Fits Hl)). by apply CalcHash_nodes. }
    pose proof (extract_fits h (pos * 2) (use_bit e)) as Hfl.
    pose proof (λ r e' H, IH (pos * 2)%nat (use_bit e) r e' H Hlev' Hb' Hleft) as IHl.
    destruct (TraverseAndExtract SHA256d t h (pos * 2) (use_bit e)) as [x e1] eqn:E1.
    cbn [CalcHash]. rewrite Ht, has_right_iff in Hex |- * by done.
    case_bool_decide as Hr; split_sub; specialize (IHl x e1 ltac:(done) eq_refl).
    + pose proof (extract_fits h (pos * 2 + 1) e1) as Hfr. pose proof (extract_bad t h (pos * 2 + 1) e1) as Hbad.
      pose proof (λ r e' H, IH (pos * 2 + 1)%nat e1 r e' H Hlev' Hb' Hr) as IHr.
      rewrite (CalcHash_nodes h (pos * 2 + 1) Hb' Hr) in Hpair. cbn [default] in Hpair.
      destruct (TraverseAndExtract SHA256d t h (pos * 2 + 1) e1) as [y e2] eqn:E2.
      specialize (IHr y e2 ltac:(done) eq_refl).
      intros [= <- <-] Hne [[-> ->]|?]%(HashPair_inj SHA256d hashed); auto.
      destruct (_ =? _); [done|].
      assert (bad e1 = false) as Hb1 by (cbn [snd] in Hbad; destruct (bad e1); [by rewrite Hbad in Hne|done]).
      destruct (IHl Hb1 eq_refl) as [L1|?]; [|by right]. destruct (IHr Hne eq_refl) as [L2|?]; [|by right].
      left. by eapply leaves_added_trans.
    + rewrite lookup_ge_None_2 in Hpair by lia. cbn [default] in Hpair.
      intros [= <- <-] Hne [[-> _]|?]%(HashPair_inj SHA256d hashed); auto.
Qed.
End sound.
End txids.
End levels.

(** ** Properties *)

(** A partial tree built from the ids of a block and a selection, sent over the wire and
    read back, gives the merkle root of the block and exactly the selected ids with their
    positions, in order, for every block whose root computation raises no alarm. *)
Theorem partial_tree_roundtrip SHA256d vTxid vMatch rest :
  (∀ x, fits 256 (SHA256d x)) → Forall (fits 256) vTxid →
  (1 <= length vTxid)%nat → Z.of_nat (length vTxid) <= MAX_BLOCK_WEIGHT / MIN_TRANSACTION_WEIGHT →
  (ComputeMerkleRoot SHA256d vTxid).2 = false →
  let selected := List.filter (λ p, default false (vMatch !! p)) (seq 0 (length vTxid)) in
  ∃ t, UnserializePartial (SerializePartial (NewPartialMerkleTree SHA256d vTxid vMatch) ++ rest)
       = Some (t, rest) ∧ nTransactions t = Z.of_nat (length vTxid) ∧
    ExtractMatches SHA256d t [] =
    ((ComputeMerkleRoot SHA256d vTxid).1, (λ p, default 0 (vTxid !! p)) <$> selected,
     Z.of_nat <$> selected).
Proof.
  intros Fits Hfit H1 Hmax Hm selected. change (MAX_BLOCK_WEIGHT / MIN_TRANSACTION_WEIGHT) with 16666 in Hmax.
  destruct (TreeHeight_spec SHA256d vTxid H1 ltac:(lia)) as (Hh & Htop & _).
  set (n := Z.of_nat (length vTxid)) in *. set (H := TreeHeight n) in *.
  assert (Hb : n + 2 ^ Z.of_nat H <= 2 ^ 32).
  { assert (2 ^ Z.of_nat H <= 2 ^ 24) by (apply Z.pow_le_mono_r; lia). lia. }
  assert (Hp : (0 < length (nodes SHA256d vTxid H))%nat) by lia.
  assert (HB : Z.of_nat (2 ^ S H) <= 2 ^ 25).
  { rewrite Nat2Z.inj_pow. apply Z.pow_le_mono_r; lia. }
  pose proof (nodes_cover SHA256d vTxid H) as Hcov. rewrite Htop, Nat.mul_1_l in Hcov.
  pose proof (build_sizes SHA256d vTxid vMatch H 0 Hb Hp) as (S1 & S2 & S3).
  pose proof (build_fits SHA256d vTxid vMatch H 0 Fits Hfit Hb Hp) as Hbf.
  pose proof (picks_all vTxid vMatch H Hcov) as Hpicks.
  fold n in S1, S2, S3, Hbf. cbv zeta in S1, S2, S3.
  unfold NewPartialMerkleTree. rewrite wrap_small by (unfold fits; lia). fold n H.
  pose proof (λ t e, extract_build SHA256d vTxid vMatch t H 0 e) as Hex. fold n in Hex.
  destruct (TraverseAndBuild SHA256d n H 0 vTxid vMatch) as [B Hs]. cbn [fst snd] in *.
  exists (mkPartial n (B ++ replicate (padding (length B)) false) Hs false). split; [|split; [done|]].
  - unfold UnserializePartial, SerializePartial. cbn [nTransactions vBits vHash]. rewrite <- !app_assoc.
    erewrite parser_bind_Some by (apply decode_encode; cbn; unfold fits; lia).
    erewrite parser_bind_Some.
    2: { apply decode_encode. split; [unfold vector_size_ok, MAX_SIZE; lia|done]. }
    erewrite parser_bind_Some.
    2: { apply decode_encode. split; [|apply BitsToBytes_bytes]. unfold vector_size_ok, BitsToBytes, MAX_SIZE.
      rewrite set_bits_length, length_replicate, Nat2Z.inj_div, Nat2Z.inj_add.
      apply Z.div_le_upper_bound; lia. }
    by rewrite BytesToBits_BitsToBytes.
  - unfold ExtractMatches. cbn [nTransactions vBits vHash fBad].
    change (MAX_BLOCK_WEIGHT / MIN_TRANSACTION_WEIGHT) with 16666.
    rewrite (proj2 (Z.eqb_neq n 0)), (proj2 (Z.ltb_ge 16666 n)), (proj2 (Z.ltb_ge n _)) by lia.
    rewrite (proj2 (Nat.ltb_ge _ _)) by (rewrite length_app; lia). fold H.
    rewrite (Hex _ _ (replicate (padding (length B)) false) []); [|done|done|done|done|done|by rewrite app_nil_r].
    unfold after. cbn [nBitsUsed nHashUsed vMatched vnIndex bad fst snd app]. rewrite !Nat.add_0_l.
    rewrite length_app, length_replicate, padding_bytes, !Nat.eqb_refl. cbn [negb].
    rewrite Hpicks. f_equal. f_equal. pose proof (root_top SHA256d vTxid H1 ltac:(lia)) as Hroot. fold n H in Hroot.
    pose proof (CalcHash_nodes SHA256d vTxid H 0 Hb Hp) as Hc. rewrite Hroot in Hc. by injection Hc.
Qed.

(** A partial tree proves nothing false: whatever tree a peer sends for a block, if it is
    for the right number of transactions and extracting it gives the merkle root of the
    block, then every extracted id is that of the transaction at the extracted position, or
    two different strings among those hashed for the block and for the tree have the same
    hash. *)
Theorem partial_tree_sound SHA256d vTxid t matched idx :
  (∀ x, fits 256 (SHA256d x)) → Forall (fits 256) vTxid → Forall (fits 256) (vHash t) →
  nTransactions t = Z.of_nat (length vTxid) → (ComputeMerkleRoot SHA256d vTxid).1 ≠ 0 →
  ExtractMatches SHA256d t [] = ((ComputeMerkleRoot SHA256d vTxid).1, matched, idx) →
  (∃ ps : list (nat * Z), matched = ps.*2 ∧ idx = (Z.of_nat <$> ps.*1) ∧
     Forall (λ p, vTxid !! p.1 = Some p.2) ps) ∨
  collision SHA256d (merkle_bytes SHA256d vTxid ++ matches_bytes SHA256d t).
Proof.
  intros Fits Hfit Hhash Ht Hr0. unfold ExtractMatches. rewrite Ht.
  destruct (Z.eqb_spec (Z.of_nat (length vTxid)) 0) as [|Hne]; [congruence|].
  change (MAX_BLOCK_WEIGHT / MIN_TRANSACTION_WEIGHT) with 16666.
  destruct (Z.ltb_spec 16666 (Z.of_nat (length vTxid))) as [|Hmax]; [congruence|].
  destruct (_ <? _); [congruence|]. destruct (_ <? _)%nat; [congruence|].
  destruct (TreeHeight_spec SHA256d vTxid ltac:(lia) ltac:(lia)) as (Hh & Htop & Hlow).
  pose proof (root_top SHA256d vTxid ltac:(lia) ltac:(lia)) as Hroot.
  set (H := TreeHeight (Z.of_nat (length vTxid))) in *.
  assert (Hb : Z.of_nat (length vTxid) + 2 ^ Z.of_nat H <= 2 ^ 32).
  { assert (2 ^ Z.of_nat H <= 2 ^ 24) by (apply Z.pow_le_mono_r; lia). lia. }
  assert (Hp : (0 < length (nodes SHA256d vTxid H))%nat) by lia.
  destruct (TraverseAndExtract SHA256d t H 0 _) as [r e] eqn:E.
  destruct (bad e) eqn:Eb; [congruence|]. destruct (negb _); [congruence|]. destruct (negb _); [congruence|].
  intros [= Er <- <-]. pose proof (CalcHash_nodes SHA256d vTxid H 0 Hb Hp) as Hc. rewrite Hroot, <- Er in Hc.
  injection Hc as Hc.
  assert (Hex : extract_bytes SHA256d t H 0 (mkExtract 0 0 [] [] (fBad t)) ⊆
    merkle_bytes SHA256d vTxid ++ matches_bytes SHA256d t)
    by (apply list_subseteq_app_r; unfold matches_bytes; by rewrite Ht).
  assert (Hlev : ∀ i, (i < H)%nat → level_bytes (nodes SHA256d vTxid i) ⊆
    merkle_bytes SHA256d vTxid ++ matches_bytes SHA256d t)
    by (intros i Hi; apply list_subseteq_app_l; by apply (nodes_bytes SHA256d vTxid H)).
  destruct (extract_sound SHA256d vTxid Fits t Hhash Hfit Ht _ H 0 _ r e Hex Hlev Hb Hp E Eb Hc) as [L|?]; [left|by right].
  destruct L as (ps & -> & -> & Hps). by exists ps.
Qed.
