(* ===== verification/EarlyProtection.v ===== *)
(** * Early protection: [EarlyProtectionManager] of src/src/earlyprotection.h

    The weights are C++ doubles, IEEE 754 binary64 values of [SpecFloat] with rounding to
    nearest even; the literals are the nearest doubles.  The clock and the random number
    a call reads are its arguments; time points and delays are in seconds.  The mutex is
    left out: every method is one atomic step. *)

From Stdlib Require Import Ascii String.
From Stdlib Require Import SpecFloat.
From stdpp Require Import strings.
From S2P Require Import Prelude BlockIndex.

Local Open Scope Z_scope.

(** ** Doubles *)

Abbreviation double := spec_float.
Abbreviation fmul := (SFmul 53 1024).
Abbreviation fadd := (SFadd 53 1024).
Abbreviation fsub := (SFsub 53 1024).
Abbreviation fdiv := (SFdiv 53 1024).

(** [static_cast<double>] of an integer. *)
Definition double_of (n : Z) : double := binary_normalize 53 1024 n 0 false.

Definition EARLY_PROTECTION_HEIGHT_LIMIT : Z := 10000.
Definition THROTTLE_WINDOW : Z := 100.
Definition MAX_IP_FRACTION : double := S754_finite false 4503599627370496 (-54).
Definition THROTTLED_WEIGHT : double := S754_finite false 4503599627370496 (-53).
Definition RAMPUP_BLOCKS : Z := 500.
Definition RAMPUP_MIN_WEIGHT : double := S754_finite false 7205759403792794 (-56).
Definition ACTIVATION_DELAY_MIN_SECS : Z := 30.
Definition ACTIVATION_DELAY_MAX_SECS : Z := 300.

(** ** Subnets *)

(** [ip.substr(0, ip.rfind(c))], when the character occurs. *)
Fixpoint before_last (c : ascii) (s : string) : option string :=
  match s with
  | EmptyString => None
  | String a s' =>
      match before_last c s' with
      | Some t => Some (String a t)
      | None => if bool_decide (a = c) then Some EmptyString else None
      end
  end.

(** The text before the [n]-th colon from here on. *)
Fixpoint before_colon (n : nat) (s : string) : option string :=
  match s with
  | EmptyString => None
  | String a s' =>
      if bool_decide (a = ":"%char) then
        match n with
        | O | S O => Some EmptyString
        | S n' => String a <$> before_colon n' s'
        end
      else String a <$> before_colon n s'
  end.

Definition GetSubnet24 (ip : string) : string :=
  match before_last "."%char ip with
  | Some p => p
  | None => default ip (before_colon 3 ip)
  end.

(** ** The manager *)

Record BlockWeightInfo := mkWeight { bw_weight : double; bw_ip : string; bw_peer_id : Z }.

Record EarlyProtectionManager := mkEP {
  m_peer_activation : gmap Z Z;
  m_peer_block_count : gmap Z Z;
  m_recent_ips : list string;
  m_recent_subnets : list string;
  m_pending_block_weights : gmap Z BlockWeightInfo
}.

Definition empty_manager : EarlyProtectionManager := mkEP ∅ ∅ [] [] ∅.

(** [randrange] returns a value below its argument; [rand] is what it returned. *)
Definition RegisterPeer (m : EarlyProtectionManager) (now rand peer_id : Z)
    : EarlyProtectionManager * Z :=
  match m_peer_activation m !! peer_id with
  | Some _ => (m, 0)
  | None =>
      let delay := ACTIVATION_DELAY_MIN_SECS + rand in
      (mkEP (<[peer_id := now + delay]> (m_peer_activation m)) (m_peer_block_count m)
         (m_recent_ips m) (m_recent_subnets m) (m_pending_block_weights m), delay)
  end.

Definition IsPeerActivated (m : EarlyProtectionManager) (now peer_id : Z) : bool :=
  match m_peer_activation m !! peer_id with
  | None => false
  | Some t => t <=? now
  end.

Definition GetActivationWeight (m : EarlyProtectionManager) (now peer_id : Z) : double :=
  if IsPeerActivated m now peer_id then one_double else RAMPUP_MIN_WEIGHT.

Definition UnregisterPeer (m : EarlyProtectionManager) (peer_id : Z) : EarlyProtectionManager :=
  mkEP (delete peer_id (m_peer_activation m)) (delete peer_id (m_peer_block_count m))
    (m_recent_ips m) (m_recent_subnets m) (m_pending_block_weights m).

Definition ramp_weight (count : Z) : double :=
  let frac := fdiv (double_of (Z.min count RAMPUP_BLOCKS)) (double_of RAMPUP_BLOCKS) in
  fadd RAMPUP_MIN_WEIGHT (fmul (fsub one_double RAMPUP_MIN_WEIGHT) frac).

Definition GetPeerBlockCount (m : EarlyProtectionManager) (peer_id : Z) : Z :=
  default 0 (m_peer_block_count m !! peer_id).

Definition RecordBlockAndGetRampWeight (m : EarlyProtectionManager) (peer_id : Z)
    : EarlyProtectionManager * double :=
  let count := GetPeerBlockCount m peer_id + 1 in
  (mkEP (m_peer_activation m) (<[peer_id := count]> (m_peer_block_count m))
     (m_recent_ips m) (m_recent_subnets m) (m_pending_block_weights m), ramp_weight count).

Definition GetRampWeight (m : EarlyProtectionManager) (peer_id : Z) : double :=
  ramp_weight (GetPeerBlockCount m peer_id).

(** The counting loops over a window. *)
Definition occurrences (x : string) (l : list string) : Z :=
  foldl (λ n entry, if bool_decide (entry = x) then n + 1 else n) 0 l.

Definition throttle_weight (ips subnets : list string) (ip subnet : string) : double :=
  let window := Z.of_nat (length ips) in
  let ip_frac := fdiv (double_of (occurrences ip ips)) (double_of window) in
  let subnet_frac := fdiv (double_of (occurrences subnet subnets)) (double_of window) in
  if SFltb MAX_IP_FRACTION ip_frac || SFltb MAX_IP_FRACTION subnet_frac
  then THROTTLED_WEIGHT else one_double.

Definition RecordBlockIPAndGetThrottleWeight (m : EarlyProtectionManager) (ip : string)
    : EarlyProtectionManager * double :=
  let subnet := GetSubnet24 ip in
  let ips := m_recent_ips m ++ [ip] in
  let subnets := m_recent_subnets m ++ [subnet] in
  let '(ips, subnets) :=
    if THROTTLE_WINDOW <? Z.of_nat (length ips) then (tail ips, tail subnets) else (ips, subnets) in
  (mkEP (m_peer_activation m) (m_peer_block_count m) ips subnets (m_pending_block_weights m),
   throttle_weight ips subnets ip subnet).

Definition GetIPThrottleWeight (m : EarlyProtectionManager) (ip : string) : double :=
  match m_recent_ips m with
  | [] => one_double
  | ips => throttle_weight ips (m_recent_subnets m) ip (GetSubnet24 ip)
  end.

Definition ComputeBlockWeight (m : EarlyProtectionManager) (now peer_id : Z) (ip : string)
    : EarlyProtectionManager * double :=
  let w_activation := GetActivationWeight m now peer_id in
  let '(m, w_ramp) := RecordBlockAndGetRampWeight m peer_id in
  let '(m, w_throttle) := RecordBlockIPAndGetThrottleWeight m ip in
  (m, fmul (fmul w_activation w_ramp) w_throttle).

Definition localhost : string := "127.0.0.1".

Definition RecordLocalBlock (m : EarlyProtectionManager) : EarlyProtectionManager * double :=
  RecordBlockIPAndGetThrottleWeight m localhost.

Definition SetBlockWeight (m : EarlyProtectionManager) (block_hash : Z) (weight : double)
    (ip : string) (peer_id : Z) : EarlyProtectionManager :=
  mkEP (m_peer_activation m) (m_peer_block_count m) (m_recent_ips m) (m_recent_subnets m)
    (<[block_hash := mkWeight weight ip peer_id]> (m_pending_block_weights m)).

Definition PopBlockWeight (m : EarlyProtectionManager) (block_hash : Z)
    : EarlyProtectionManager * BlockWeightInfo :=
  match m_pending_block_weights m !! block_hash with
  | Some info =>
      (mkEP (m_peer_activation m) (m_peer_block_count m) (m_recent_ips m) (m_recent_subnets m)
         (delete block_hash (m_pending_block_weights m)), info)
  | None => (m, mkWeight one_double localhost (-1))
  end.

(** The pending weights survive. *)
Definition ResetManager (m : EarlyProtectionManager) : EarlyProtectionManager :=
  mkEP ∅ ∅ [] [] (m_pending_block_weights m).

(** ** Reachable managers *)

(** Every public method that changes the manager; [rand] is below the bound given to
    [randrange]. *)
Inductive ep_step : EarlyProtectionManager → EarlyProtectionManager → Prop :=
  | step_register m now rand peer_id :
      0 <= rand <= ACTIVATION_DELAY_MAX_SECS - ACTIVATION_DELAY_MIN_SECS →
      ep_step m (RegisterPeer m now rand peer_id).1
  | step_unregister m peer_id : ep_step m (UnregisterPeer m peer_id)
  | step_ramp m peer_id : ep_step m (RecordBlockAndGetRampWeight m peer_id).1
  | step_throttle m ip : ep_step m (RecordBlockIPAndGetThrottleWeight m ip).1
  | step_compute m now peer_id ip : ep_step m (ComputeBlockWeight m now peer_id ip).1
  | step_set m h w ip peer_id : ep_step m (SetBlockWeight m h w ip peer_id)
  | step_pop m h : ep_step m (PopBlockWeight m h).1
  | step_reset m : ep_step m (ResetManager m).

Definition ep_reachable : EarlyProtectionManager → Prop := rtc ep_step empty_manager.

Record ep_ok (m : EarlyProtectionManager) : Prop := {
  ep_subnets : m_recent_subnets m = GetSubnet24 <$> m_recent_ips m;
  ep_window : Z.of_nat (length (m_recent_ips m)) <= THROTTLE_WINDOW;
  ep_counts : map_Forall (λ _ n, 0 <= n) (m_peer_block_count m)
}.

Lemma ramp_ok m peer_id : ep_ok m → ep_ok (RecordBlockAndGetRampWeight m peer_id).1.
Proof.
  intros []. constructor; simpl; try done. apply map_Forall_insert_2; [|done].
  unfold GetPeerBlockCount. destruct (m_peer_block_count m !! peer_id) eqn:E; simpl; [|lia].
  apply ep_counts0 in E. lia.
Qed.

Lemma throttle_ok m ip : ep_ok m → ep_ok (RecordBlockIPAndGetThrottleWeight m ip).1.
Proof.
  intros [Hs Hw Hc]. unfold RecordBlockIPAndGetThrottleWeight. rewrite Hs.
  unfold THROTTLE_WINDOW in *. rewrite length_app. simpl length.
  destruct (Z.ltb_spec 100 (Z.of_nat (length (m_recent_ips m) + 1))) as [H|H].
  - destruct (m_recent_ips m) as [|i l]; simpl in *; [lia|].
    constructor; simpl; [by rewrite fmap_app|rewrite length_app; unfold THROTTLE_WINDOW; simpl; lia|done].
  - constructor; simpl; [by rewrite fmap_app|rewrite length_app; unfold THROTTLE_WINDOW; simpl; lia|done].
Qed.

Lemma compute_ok m now peer_id ip : ep_ok m → ep_ok (ComputeBlockWeight m now peer_id ip).1.
Proof.
  intros Hm. pose proof (throttle_ok _ ip (ramp_ok _ peer_id Hm)) as H.
  unfold ComputeBlockWeight. destruct (RecordBlockAndGetRampWeight m peer_id) as [m1 w1].
  cbn [fst] in H. by destruct (RecordBlockIPAndGetThrottleWeight m1 ip).
Qed.

Lemma reachable_ok m : ep_reachable m → ep_ok m.
Proof.
  revert m. apply rtc_ind_r; [|intros m m' _ Hstep IH].
  { constructor; simpl; [done|unfold THROTTLE_WINDOW; simpl; lia|apply map_Forall_empty]. }
  destruct Hstep; auto using ramp_ok, throttle_ok, compute_ok.
  - unfold RegisterPeer. destruct (m_peer_activation m !! peer_id); [done|].
    by destruct IH; constructor.
  - destruct IH. constructor; simpl; [done..|by apply map_Forall_delete].
  - by destruct IH; constructor.
  - unfold PopBlockWeight. destruct (m_pending_block_weights m !! h); [|done].
    by destruct IH; constructor.
  - constructor; simpl; [done|unfold THROTTLE_WINDOW; simpl; lia|apply map_Forall_empty].
Qed.

(** ** The throttle *)


Lemma occurrences_snoc x y l :
  occurrences x (l ++ [y]) = occurrences x l + (if bool_decide (y = x) then 1 else 0).
Proof. unfold occurrences. rewrite foldl_snoc. simpl. destruct (bool_decide _); lia. Qed.

Lemma occurrences_bounds x l : 0 <= occurrences x l <= Z.of_nat (length l).
Proof.
  induction l as [|y l IH] using rev_ind; [done|].
  rewrite occurrences_snoc, length_app. simpl. destruct (bool_decide _); lia.
Qed.

(** An address is in the window at most as often as its subnet. *)
Lemma occurrences_subnet ip ips :
  occurrences ip ips <= occurrences (GetSubnet24 ip) (GetSubnet24 <$> ips).
Proof.
  induction ips as [|y l IH] using rev_ind; [done|].
  rewrite fmap_app. simpl. rewrite !occurrences_snoc. destruct (decide (y = ip)) as [->|H].
  - rewrite !bool_decide_eq_true_2 by done. lia.
  - rewrite (bool_decide_eq_false_2 (y = ip)) by done. destruct (bool_decide _); lia.
Qed.

(** The double comparison is exact for the counts of a window: all of them, evaluated. *)
Definition fraction_exactb (w c : Z) : bool :=
  Bool.eqb (SFltb MAX_IP_FRACTION (fdiv (double_of c) (double_of w))) (w <? 4 * c).

Lemma fraction_check :
  forallb (λ w, forallb (fraction_exactb w) (seqZ 0 (w + 1))) (seqZ 1 100) = true.
Proof. vm_compute. reflexivity. Qed.

Lemma fraction_exact w c :
  1 <= w <= THROTTLE_WINDOW → 0 <= c <= w →
  SFltb MAX_IP_FRACTION (fdiv (double_of c) (double_of w)) = (w <? 4 * c).
Proof.
  unfold THROTTLE_WINDOW. intros Hw Hc. pose proof fraction_check as H.
  rewrite forallb_forall in H. specialize (H w). cbv beta in H.
  rewrite forallb_forall in H. apply eqb_prop. apply H.
  - apply list_elem_of_In, elem_of_seqZ. lia.
  - apply list_elem_of_In, elem_of_seqZ. lia.
Qed.

Lemma throttle_weight_exact ip ips :
  ips ≠ [] → Z.of_nat (length ips) <= THROTTLE_WINDOW →
  throttle_weight ips (GetSubnet24 <$> ips) ip (GetSubnet24 ip) =
  if Z.of_nat (length ips) <? 4 * occurrences (GetSubnet24 ip) (GetSubnet24 <$> ips)
  then THROTTLED_WEIGHT else one_double.
Proof.
  intros Hne Hlen. unfold throttle_weight.
  assert (1 <= Z.of_nat (length ips)) by (destruct ips; simpl; [done|lia]).
  pose proof (occurrences_bounds ip ips). pose proof (occurrences_subnet ip ips).
  pose proof (occurrences_bounds (GetSubnet24 ip) (GetSubnet24 <$> ips)) as Hb.
  rewrite length_fmap in Hb. rewrite !fraction_exact by lia.
  destruct (Z.ltb_spec (Z.of_nat (length ips)) (4 * occurrences ip ips)),
    (Z.ltb_spec (Z.of_nat (length ips)) (4 * occurrences (GetSubnet24 ip) (GetSubnet24 <$> ips)));
    simpl; lia || done.
Qed.

(** ** The range of the combined weight *)

Definition in_unitb (w : double) : bool := SFltb (S754_zero false) w && SFleb w one_double.

Definition weights_in_unit (ramp : double) : bool :=
  forallb (λ a, forallb (λ t, in_unitb (fmul (fmul a ramp) t)) [THROTTLED_WEIGHT; one_double])
    [RAMPUP_MIN_WEIGHT; one_double].

Lemma ramp_check : forallb (λ k, weights_in_unit (ramp_weight k)) (seqZ 1 500) = true.
Proof. vm_compute. reflexivity. Qed.

Lemma ramp_weight_cap k : RAMPUP_BLOCKS <= k → ramp_weight k = one_double.
Proof.
  intros Hk. unfold ramp_weight. rewrite Z.min_r by done. vm_compute. reflexivity.
Qed.

Lemma ramp_in_unit k : 1 <= k → weights_in_unit (ramp_weight k) = true.
Proof.
  intros Hk. pose proof ramp_check as H. rewrite forallb_forall in H.
  destruct (Z.le_gt_cases k RAMPUP_BLOCKS) as [Hle|Hgt].
  - apply H, list_elem_of_In, elem_of_seqZ. unfold RAMPUP_BLOCKS in Hle. lia.
  - rewrite ramp_weight_cap by lia. rewrite <- (ramp_weight_cap RAMPUP_BLOCKS) by done.
    apply H, list_elem_of_In, elem_of_seqZ. unfold RAMPUP_BLOCKS. lia.
Qed.

(** What recording a block returns. *)
Lemma recorded_throttle m ip m' w :
  ep_ok m → RecordBlockIPAndGetThrottleWeight m ip = (m', w) →
  w = (if Z.of_nat (length (m_recent_ips m')) <?
          4 * occurrences (GetSubnet24 ip) (m_recent_subnets m')
       then THROTTLED_WEIGHT else one_double).
Proof.
  intros Hm E. pose proof (throttle_ok m ip Hm) as Hok. rewrite E in Hok. destruct Hok as [Hs Hw _].
  cbn [fst] in *. revert E Hs Hw. unfold RecordBlockIPAndGetThrottleWeight.
  set (ips := m_recent_ips m ++ [ip]). assert (Hips : tail ips ≠ [] ∨ ips = [ip]).
  { unfold ips. destruct (m_recent_ips m) as [|i [|]]; [by right|by left..]. }
  assert (ips ≠ []) by (unfold ips; by destruct (m_recent_ips m)).
  destruct (Z.ltb_spec THROTTLE_WINDOW (Z.of_nat (length ips))) as [Hlt|Hge];
    intros [= <- <-]; simpl; intros -> Hw; apply throttle_weight_exact; try done.
  destruct Hips as [?| ->]; [done|]. simpl in Hlt. unfold THROTTLE_WINDOW in Hlt. lia.
Qed.

Lemma recorded_two m ip :
  ep_ok m → (RecordBlockIPAndGetThrottleWeight m ip).2 ∈ [THROTTLED_WEIGHT; one_double].
Proof.
  intros Hm. destruct (RecordBlockIPAndGetThrottleWeight m ip) as [m' w] eqn:E.
  rewrite (recorded_throttle m ip m' w Hm E). cbn [snd].
  destruct (_ <? _); [left|right; left].
Qed.

Lemma weight_in_unit m now peer_id ip :
  ep_ok m → in_unitb (ComputeBlockWeight m now peer_id ip).2 = true.
Proof.
  intros Hm. unfold ComputeBlockWeight. pose proof (ramp_ok m peer_id Hm) as Hm1.
  assert (Hr : weights_in_unit (RecordBlockAndGetRampWeight m peer_id).2 = true).
  { apply ramp_in_unit. unfold GetPeerBlockCount.
    destruct (m_peer_block_count m !! peer_id) eqn:E; simpl; [|lia]. apply (ep_counts m Hm) in E. lia. }
  destruct (RecordBlockAndGetRampWeight m peer_id) as [m1 r]. cbn [fst snd] in *.
  pose proof (recorded_two m1 ip Hm1) as Ht.
  destruct (RecordBlockIPAndGetThrottleWeight m1 ip) as [m2 t]. cbn [snd] in *.
  unfold weights_in_unit in Hr. rewrite forallb_forall in Hr.
  assert (Ha : In (GetActivationWeight m now peer_id) [RAMPUP_MIN_WEIGHT; one_double]).
  { unfold GetActivationWeight. destruct (IsPeerActivated _ _ _); simpl; auto. }
  apply Hr in Ha. rewrite forallb_forall in Ha. by apply Ha, list_elem_of_In.
Qed.

(** In every reachable state the throttle is exact: the two windows hold the last
    blocks, at most 100, address and subnet side by side, and a block is throttled exactly
    when its subnet holds more than a quarter of the window, itself included (the test on
    the address alone never decides); in spite of the rounding of doubles.  The combined
    weight of a block is always above 0 and at most 1, and the ramp reaches exactly 1. *)
Theorem early_weights_exact m now peer_id ip :
  ep_reachable m →
  let '(m', w) := RecordBlockIPAndGetThrottleWeight m ip in
  ep_ok m' ∧
  w = (if Z.of_nat (length (m_recent_ips m')) <?
          4 * occurrences (GetSubnet24 ip) (m_recent_subnets m')
       then THROTTLED_WEIGHT else one_double) ∧
  in_unitb (ComputeBlockWeight m now peer_id ip).2 = true ∧
  (RAMPUP_BLOCKS <= GetPeerBlockCount m peer_id → GetRampWeight m peer_id = one_double).
Proof.
  intros Hm%reachable_ok. pose proof (throttle_ok m ip Hm) as Hok.
  destruct (RecordBlockIPAndGetThrottleWeight m ip) as [m' w] eqn:E. cbn [fst] in Hok.
  split; [done|]. split; [exact (recorded_throttle m ip m' w Hm E)|].
  split; [by apply weight_in_unit|apply ramp_weight_cap].
Qed.

Lemma early_weights_exact_witness :
  (RecordBlockIPAndGetThrottleWeight empty_manager "10.0.0.7").2 = THROTTLED_WEIGHT.
Proof.
  pose proof (early_weights_exact empty_manager 0 1 "10.0.0.7" (rtc_refl _ _)) as H.
  destruct (RecordBlockIPAndGetThrottleWeight empty_manager "10.0.0.7") as [m' w] eqn:E.
  destruct H as (_ & -> & _). injection E as <- _. reflexivity.
Defined.
