(* ===== verification/Chainman.v ===== *)
(** * The chain state and the choice of the best chain

    [ChainstateManager] is the state that acceptance (Accept.v) and the choice of a chain
    work on: the block index with the marks of failed, best and unlinked blocks, and of the
    active chainstate the chain [CChain] (src/src/chain.h, chain.cpp) and the candidates
    for its tip, a [std::set] under [CBlockIndexWorkComparator] (src/src/node/blockstorage.cpp).
    [TryAddBlockIndexCandidate], [FindMostWorkChain] and [PruneBlockIndexCandidates] are
    those of src/src/validation.cpp, for the one chainstate of a node without a snapshot. *)

From S2P Require Import Prelude OrdSet TipSet Arith256 Serialize BlockHeader Ghostdag.
From S2P Require Import BlockIndex BlockIndexProvider EarlyProtection.

Local Open Scope Z_scope.

(** ** Data *)

Definition BLOCK_VALID_TRANSACTIONS : Z := 3.
Definition BLOCK_VALID_SCRIPTS : Z := 5.
Definition BLOCK_HAVE_DATA : Z := 8.
Definition BLOCK_FAILED_VALID : Z := 32.
Definition BLOCK_FAILED_CHILD : Z := 64.
Definition BLOCK_OPT_WITNESS : Z := 128.

Record ChainstateManager := mkChainman {
  m_block_index : BlockMap;
  m_best_header : option Z;
  m_best_invalid : option Z;
  m_failed_blocks : list Z;
  m_blocks_unlinked : list (Z * Z);
  nBlockSequenceId : Z;
  setBlockIndexCandidates : list Z;
  m_chain : list (option Z);
  m_dag_tips : DagTipSet;
  g_early_protection : EarlyProtectionManager
}.

Definition with_index (cm : ChainstateManager) (st : BlockMap) : ChainstateManager :=
  mkChainman st (m_best_header cm) (m_best_invalid cm) (m_failed_blocks cm)
    (m_blocks_unlinked cm) (nBlockSequenceId cm) (setBlockIndexCandidates cm) (m_chain cm)
    (m_dag_tips cm) (g_early_protection cm).

Definition with_candidates (cm : ChainstateManager) (unlinked : list (Z * Z)) (seq : Z)
    (cands : list Z) : ChainstateManager :=
  mkChainman (m_block_index cm) (m_best_header cm) (m_best_invalid cm) (m_failed_blocks cm)
    unlinked seq cands (m_chain cm) (m_dag_tips cm) (g_early_protection cm).

Definition with_best_invalid (cm : ChainstateManager) (h : Z) : ChainstateManager :=
  mkChainman (m_block_index cm) (m_best_header cm) (Some h) (m_failed_blocks cm)
    (m_blocks_unlinked cm) (nBlockSequenceId cm) (setBlockIndexCandidates cm) (m_chain cm)
    (m_dag_tips cm) (g_early_protection cm).

(** Assignments to the fields of an entry. *)
Definition set_nStatus (s : Z) (b : CBlockIndex) : CBlockIndex :=
  mkIndex (pprev b) (pskip b) (nHeight b) (nChainWork b) (nTx b) (m_chain_tx_count b) s
    (nVersion b) (hashMerkleRoot b) (nTime b) (nBits b) (hashParentsRoot b) (nNonce b)
    (vDagParents b) (dagData b) (nDagHeight b) (nEarlyProtectionWeight b) (nSequenceId b)
    (nTimeMax b).

Definition set_vDagParents (ps : list (option Z)) (b : CBlockIndex) : CBlockIndex :=
  mkIndex (pprev b) (pskip b) (nHeight b) (nChainWork b) (nTx b) (m_chain_tx_count b) (nStatus b)
    (nVersion b) (hashMerkleRoot b) (nTime b) (nBits b) (hashParentsRoot b) (nNonce b)
    ps (dagData b) (nDagHeight b) (nEarlyProtectionWeight b) (nSequenceId b) (nTimeMax b).

(** [dagData] and [nDagHeight = dagData.blue_score]. *)
Definition set_dagData (d : GhostdagData) (b : CBlockIndex) : CBlockIndex :=
  mkIndex (pprev b) (pskip b) (nHeight b) (nChainWork b) (nTx b) (m_chain_tx_count b) (nStatus b)
    (nVersion b) (hashMerkleRoot b) (nTime b) (nBits b) (hashParentsRoot b) (nNonce b)
    (vDagParents b) d (blue_score d) (nEarlyProtectionWeight b) (nSequenceId b) (nTimeMax b).

Definition set_weight (w : double) (b : CBlockIndex) : CBlockIndex :=
  mkIndex (pprev b) (pskip b) (nHeight b) (nChainWork b) (nTx b) (m_chain_tx_count b) (nStatus b)
    (nVersion b) (hashMerkleRoot b) (nTime b) (nBits b) (hashParentsRoot b) (nNonce b)
    (vDagParents b) (dagData b) (nDagHeight b) w (nSequenceId b) (nTimeMax b).

Definition set_counts (tx chain_tx seq : Z) (b : CBlockIndex) : CBlockIndex :=
  mkIndex (pprev b) (pskip b) (nHeight b) (nChainWork b) tx chain_tx (nStatus b)
    (nVersion b) (hashMerkleRoot b) (nTime b) (nBits b) (hashParentsRoot b) (nNonce b)
    (vDagParents b) (dagData b) (nDagHeight b) (nEarlyProtectionWeight b) seq (nTimeMax b).

Definition IsFailed (b : CBlockIndex) : bool := negb (Z.land (nStatus b) BLOCK_FAILED_MASK =? 0).

Definition IsValid (b : CBlockIndex) (nUpTo : Z) : bool :=
  if IsFailed b then false else nUpTo <=? Z.land (nStatus b) BLOCK_VALID_MASK.

(** ** The active chain *)

(** The vector of entries by height. *)
Abbreviation CChain := (list (option Z)).

Definition Tip (vChain : CChain) : option Z := mjoin (last vChain).
Definition Height (vChain : CChain) : Z := Z.of_nat (length vChain) - 1.

Definition chain_at (vChain : CChain) (nHeight : Z) : option Z :=
  if (nHeight <? 0) || (Z.of_nat (length vChain) <=? nHeight) then None
  else mjoin (vChain !! Z.to_nat nHeight).

Definition Contains (st : BlockMap) (vChain : CChain) (pindex : Z) : bool :=
  match st !! pindex with
  | Some b => bool_decide (chain_at vChain (nHeight b) = Some pindex)
  | None => false
  end.

(** Writes the chain downwards from a block until it meets what is there. *)
Fixpoint SetTip_loop (fuel : nat) (st : BlockMap) (vChain : CChain) (pindex : option Z) : CChain :=
  match fuel, pindex with
  | S fuel', Some h =>
      match st !! h with
      | Some b =>
          let i := Z.to_nat (nHeight b) in
          if bool_decide (vChain !! i = Some (Some h)) then vChain
          else SetTip_loop fuel' st (<[i := Some h]> vChain) (pprev b)
      | None => vChain
      end
  | _, _ => vChain
  end.

Definition SetTip (st : BlockMap) (vChain : CChain) (block : Z) : CChain :=
  match st !! block with
  | Some b =>
      let size := S (Z.to_nat (nHeight b)) in
      SetTip_loop size st (resize size None vChain) (Some block)
  | None => vChain
  end.

Fixpoint FindFork_loop (fuel : nat) (st : BlockMap) (vChain : CChain) (pindex : option Z)
    : option Z :=
  match fuel, pindex with
  | S fuel', Some h =>
      if Contains st vChain h then Some h
      else FindFork_loop fuel' st vChain (st !! h ≫= pprev)
  | _, _ => None
  end.

Definition FindFork (st : BlockMap) (vChain : CChain) (pindex : option Z) : option Z :=
  match pindex with
  | None => None
  | Some h =>
      match st !! h with
      | Some b =>
          let start := if Height vChain <? nHeight b then GetAncestor st h (Height vChain)
                       else Some h in
          FindFork_loop (S (Z.to_nat (nHeight b))) st vChain start
      | None => None
      end
  end.

(** ** Candidates for the tip *)

Section candidates.
(** Where an entry lies in memory, the last tie-breaker. *)
Context (address : Z → Z).

Definition CBlockIndexWorkComparator (pa pb : Z * CBlockIndex) : bool :=
  let '(ha, a) := pa in
  let '(hb, b) := pb in
  if nChainWork b <? nChainWork a then false
  else if nChainWork a <? nChainWork b then true
  else if blue_work (dagData b) <? blue_work (dagData a) then false
  else if blue_work (dagData a) <? blue_work (dagData b) then true
  else if nSequenceId a <? nSequenceId b then false
  else if nSequenceId b <? nSequenceId a then true
  else if address ha <? address hb then false
  else if address hb <? address ha then true
  else false.

(** Candidates are pointers to entries of the index; a pointer to nothing, which does not
    occur, would be compared as a fresh entry. *)
Definition entry_at (st : BlockMap) (h : Z) : CBlockIndex :=
  default (index_of_header (mkHeader 0 0 0 0 0 0 0 [])) (st !! h).

Definition work_less (st : BlockMap) (a b : Z) : bool :=
  CBlockIndexWorkComparator (a, entry_at st a) (b, entry_at st b).

Definition TryAddBlockIndexCandidate (st : BlockMap) (chain : CChain) (cands : list Z)
    (pindex : Z) : list Z :=
  match Tip chain with
  | Some tip => if work_less st pindex tip then cands
                else set_emplace (work_less st) pindex cands
  | None => set_emplace (work_less st) pindex cands
  end.

Fixpoint prune_worse (st : BlockMap) (tip : Z) (cands : list Z) : list Z :=
  match cands with
  | h :: cands' => if work_less st h tip then prune_worse st tip cands' else cands
  | [] => []
  end.

(** [None] when the last candidate is gone, which the code asserts not to happen. *)
Definition PruneBlockIndexCandidates (st : BlockMap) (tip : Z) (cands : list Z)
    : option (list Z) :=
  match prune_worse st tip cands with
  | [] => None
  | cands' => Some cands'
  end.

(** ** [FindMostWorkChain] *)

(** The first block on the way from a candidate to the active chain that is failed or
    without data.  The outer [None] is a failed assertion. *)
Fixpoint find_unusable (fuel : nat) (st : BlockMap) (chain : CChain) (pindexTest : option Z)
    : option (option (Z * CBlockIndex)) :=
  match pindexTest with
  | None => Some None
  | Some t =>
      match fuel, st !! t with
      | S fuel', Some b =>
          if Contains st chain t then Some None
          else if (m_chain_tx_count b =? 0) && negb (nHeight b =? 0) then None
          else if IsFailed b || (Z.land (nStatus b) BLOCK_HAVE_DATA =? 0) then Some (Some (t, b))
          else find_unusable fuel' st chain (pprev b)
      | _, _ => None
      end
  end.

(** Removing the blocks from [pindexFailed] down to [pindexTest]. *)
Fixpoint remove_chain (fuel : nat) (fFailedChain : bool) (cm : ChainstateManager)
    (pindexFailed pindexTest : Z) : option ChainstateManager :=
  let st := m_block_index cm in
  let cands := set_erase (work_less st) pindexFailed (setBlockIndexCandidates cm) in
  if pindexFailed =? pindexTest
  then Some (with_candidates cm (m_blocks_unlinked cm) (nBlockSequenceId cm) cands)
  else match fuel, st !! pindexFailed with
       | S fuel', Some b =>
           match pprev b with
           | Some p =>
               let cm' :=
                 if fFailedChain
                 then with_candidates (with_index cm (<[pindexFailed :=
                        set_nStatus (Z.lor (nStatus b) BLOCK_FAILED_CHILD) b]> st))
                        (m_blocks_unlinked cm) (nBlockSequenceId cm) cands
                 else with_candidates cm (m_blocks_unlinked cm ++ [(p, pindexFailed)])
                        (nBlockSequenceId cm) cands in
               remove_chain fuel' fFailedChain cm' p pindexTest
           | None => None
           end
       | _, _ => None
       end.

Definition note_invalid (cm : ChainstateManager) (pindexNew : Z) : ChainstateManager :=
  match m_best_invalid cm with
  | None => with_best_invalid cm pindexNew
  | Some bad =>
      if nChainWork (entry_at (m_block_index cm) bad)
         <? nChainWork (entry_at (m_block_index cm) pindexNew)
      then with_best_invalid cm pindexNew else cm
  end.

(** Every round but the last removes its candidate. *)
Fixpoint find_most_work (fuel : nat) (cm : ChainstateManager)
    : option (ChainstateManager * option Z) :=
  match fuel, last (setBlockIndexCandidates cm) with
  | _, None => Some (cm, None)
  | O, _ => None
  | S fuel', Some pindexNew =>
      let steps := S (Z.to_nat (nHeight (entry_at (m_block_index cm) pindexNew))) in
      match find_unusable steps (m_block_index cm) (m_chain cm) (Some pindexNew) with
      | None => None
      | Some None => Some (cm, Some pindexNew)
      | Some (Some (t, b)) =>
          let cm' := if IsFailed b then note_invalid cm pindexNew else cm in
          match remove_chain steps (IsFailed b) cm' pindexNew t with
          | Some cm'' => find_most_work fuel' cm''
          | None => None
          end
      end
  end.

Definition FindMostWorkChain (cm : ChainstateManager) : option (ChainstateManager * option Z) :=
  find_most_work (length (setBlockIndexCandidates cm)) cm.
End candidates.

(** [CBlockIndex::GetBlockHeader]. *)
Definition GetBlockHeader (b : CBlockIndex) : CBlockHeader :=
  mkHeader (nVersion b) (default 0 (pprev b)) (hashMerkleRoot b) (nTime b) (nBits b) (nNonce b)
    (hashParentsRoot b) (omap id (vDagParents b)).

(** ** Entries that differ only in what does not make the chain *)

(** The fields of the header that are stored as they are. *)
Definition header_fields (b : CBlockIndex) :=
  (nVersion b, hashMerkleRoot b, nTime b, nBits b, nNonce b, hashParentsRoot b).

(** The fields the chain is made of, and with the DAG parents. *)
Definition links (b : CBlockIndex) := (pprev b, pskip b, nHeight b, nChainWork b, header_fields b).

Definition dag_links (b : CBlockIndex) := (links b, vDagParents b).

Lemma fmap_lookup_eq {A} (f : CBlockIndex → A) (st st' : BlockMap) h b' :
  f <$> st = f <$> st' → st' !! h = Some b' → ∃ b, st !! h = Some b ∧ f b = f b'.
Proof.
  intros Heq Hb'. assert (H : (f <$> st) !! h = Some (f b')) by (rewrite Heq, lookup_fmap, Hb'; done).
  rewrite lookup_fmap in H. apply fmap_Some in H as (b & Hb & ->). eauto.
Qed.

Lemma fmap_lookup_is_Some {A} (f : CBlockIndex → A) (st st' : BlockMap) h :
  f <$> st = f <$> st' → is_Some (st !! h) → is_Some (st' !! h).
Proof. intros Heq [b Hb]. edestruct (fmap_lookup_eq f st' st) as (b' & ? & _); eauto. Qed.

Lemma fmap_insert_same {A} (f : CBlockIndex → A) (st : BlockMap) h b b' :
  st !! h = Some b → f b = f b' → f <$> st = f <$> <[h := b']> st.
Proof.
  intros Hb Hf. rewrite fmap_insert, <- Hf. symmetry. apply insert_id. by rewrite lookup_fmap, Hb.
Qed.

Lemma dag_links_links (st st' : BlockMap) : dag_links <$> st = dag_links <$> st' → links <$> st = links <$> st'.
Proof.
  intros H. apply map_eq. intros h. apply (f_equal (.!! h)) in H. rewrite !lookup_fmap in *.
  unfold dag_links in H. destruct (st !! h), (st' !! h); simpl in *; congruence.
Qed.

Lemma prev_n_links (st st' : BlockMap) n : links <$> st = links <$> st' → ∀ h, prev_n st n h = prev_n st' n h.
Proof.
  intros Heq. induction n as [|n IH]; intros h; [done|]. simpl.
  destruct (st' !! h) as [b'|] eqn:Hb'.
  - destruct (fmap_lookup_eq links st st' h b' Heq Hb') as (b & -> & Hl). simpl.
    unfold links in Hl. apply (f_equal (λ x, x.1.1.1.1)) in Hl. cbn in Hl. rewrite Hl. destruct (pprev b'); [apply IH|done].
  - destruct (st !! h) as [b|] eqn:Hb; [|done].
    destruct (fmap_lookup_eq links st' st h b (eq_sym Heq) Hb) as (? & ? & _). congruence.
Qed.

Lemma chain_ok_links (st st' : BlockMap) : links <$> st = links <$> st' → chain_ok st → chain_ok st'.
Proof.
  intros Heq [H1 H2 H3 H4]. split.
  - intros h b' Hb'. destruct (fmap_lookup_eq _ _ _ _ _ Heq Hb') as (b & Hb & [= _ _ <- _]). eauto.
  - intros h b' p Hb' Hp. destruct (fmap_lookup_eq _ _ _ _ _ Heq Hb') as (b & Hb & [= Ep _ <- _]).
    rewrite Hp in Ep. destruct (H2 h b p Hb Ep) as (c & Hc & Hh).
    destruct (fmap_lookup_eq _ _ _ _ _ (eq_sym Heq) Hc) as (c' & Hc' & [= _ _ E _]).
    exists c'. split; [done|lia].
  - intros h b' Hb' Hp. destruct (fmap_lookup_eq _ _ _ _ _ Heq Hb') as (b & Hb & [= Ep _ <- _]).
    rewrite Hp in Ep. eauto.
  - intros h b' s Hb' Hs. destruct (fmap_lookup_eq _ _ _ _ _ Heq Hb') as (b & Hb & [= _ Es <- _]).
    rewrite Hs in Es. rewrite <- (prev_n_links st st' _ Heq). eauto.
Qed.

Lemma best_ok_links (st st' : BlockMap) best :
  links <$> st = links <$> st' → best_ok (st, best) → best_ok (st', best).
Proof.
  unfold best_ok. cbn [fst snd]. intros Heq. destruct best as [bh|].
  - intros (b & Hb & Hmax).
    destruct (fmap_lookup_eq _ _ _ _ _ (eq_sym Heq) Hb) as (b' & Hb' & [= _ _ _ Ew]).
    exists b'. split; [done|]. intros h c' Hc'. simpl.
    destruct (fmap_lookup_eq _ _ _ _ _ Heq Hc') as (c & Hc & [= _ _ _ <-]).
    rewrite Ew. exact (Hmax h c Hc).
  - intros ->. apply map_eq. intros h. rewrite lookup_empty.
    destruct (st' !! h) as [b'|] eqn:Hb'; [|done].
    by destruct (fmap_lookup_eq _ _ _ _ _ Heq Hb') as (b & Hb & _).
Qed.

Lemma parents_dag_links (st st' : BlockMap) h :
  dag_links <$> st = dag_links <$> st' → Index_GetParents st h = Index_GetParents st' h.
Proof.
  intros Heq. unfold Index_GetParents. destruct (st' !! h) as [b'|] eqn:Hb'.
  - destruct (fmap_lookup_eq _ _ _ _ _ Heq Hb') as (b & -> & [= -> _ _ _ _ _ _ _ _ _ ->]). done.
  - destruct (st !! h) as [b|] eqn:Hb; [|done].
    destruct (fmap_lookup_eq _ _ _ _ _ (eq_sym Heq) Hb) as (? & ? & _). congruence.
Qed.

Lemma closed_dag_links (st st' : BlockMap) :
  dag_links <$> st = dag_links <$> st' → index_closed st → index_closed st'.
Proof.
  intros Heq Hc h b' p Hb' Hp. rewrite <- (parents_dag_links _ _ _ Heq) in Hp.
  destruct (fmap_lookup_eq _ _ _ _ _ Heq Hb') as (b & Hb & _).
  eapply fmap_lookup_is_Some; eauto.
Qed.


(** ** The active chain is the path to its tip *)

Definition path_below (st : BlockMap) (v : CChain) (i : nat) : Prop :=
  ∀ h m, v !! i = Some (Some h) → (m <= i)%nat → v !! (i - m)%nat = Some (prev_n st m h).

(** A vector that [SetTip] has filled, from nothing or from such a vector. *)
Definition active_ok (st : BlockMap) (v : CChain) : Prop := ∀ i, path_below st v i.

Lemma path_below_insert st v i j h :
  (i < j)%nat → path_below st v i → path_below st (<[j := h]> v) i.
Proof.
  intros Hij Hp g m Hg Hm. rewrite list_lookup_insert_ne in Hg by lia.
  rewrite list_lookup_insert_ne by lia. by apply Hp.
Qed.

Lemma SetTip_loop_spec st : chain_ok st → ∀ fuel v h b,
  st !! h = Some b → (Z.to_nat (nHeight b) < length v)%nat → (Z.to_nat (nHeight b) < fuel)%nat →
  (∀ i, (i <= Z.to_nat (nHeight b))%nat → path_below st v i) →
  let v' := SetTip_loop fuel st v (Some h) in
  length v' = length v ∧ (∀ j, (Z.to_nat (nHeight b) < j)%nat → v' !! j = v !! j) ∧
  ∀ m, (m <= Z.to_nat (nHeight b))%nat → v' !! (Z.to_nat (nHeight b) - m)%nat = Some (prev_n st m h).
Proof.
  intros Hok. induction fuel as [|fuel IH]; intros v h b Hb Hl Hf Hp; [lia|]. cbv zeta.
  cbn [SetTip_loop]. rewrite Hb. case_bool_decide as Hv.
  { split; [done|]. split; [done|]. intros m Hm. by apply Hp. }
  set (i := Z.to_nat (nHeight b)) in *. set (v1 := <[i := Some h]> v).
  assert (Hi : v1 !! i = Some (Some h)) by (by apply list_lookup_insert_eq).
  pose proof (ck_height st Hok _ _ Hb) as Hh0. destruct (pprev b) as [p|] eqn:Hprev.
  - destruct (ck_prev st Hok _ _ _ Hb Hprev) as (bp & Hbp & Hhp).
    pose proof (ck_height st Hok _ _ Hbp) as Hhp0.
    assert (Hi1 : i = S (Z.to_nat (nHeight bp))) by lia.
    destruct (IH v1 p bp Hbp) as (H1 & H2 & H3); [unfold v1; rewrite length_insert; lia|lia| |].
    { intros j Hj. apply path_below_insert; [lia|]. apply Hp. lia. }
    split; [rewrite H1; apply length_insert|]. split.
    + intros j Hj. rewrite H2 by lia. apply list_lookup_insert_ne. lia.
    + intros [|m] Hm.
      * rewrite Nat.sub_0_r, H2 by lia. exact Hi.
      * replace (i - S m)%nat with (Z.to_nat (nHeight bp) - m)%nat by lia.
        rewrite H3 by lia. cbn [prev_n]. by rewrite Hb; simpl; rewrite Hprev.
  - assert (i = 0%nat) by (pose proof (ck_root st Hok _ _ Hb Hprev); lia).
    replace (SetTip_loop fuel st v1 None) with v1 by (by destruct fuel).
    split; [apply length_insert|]. split; [intros j Hj; apply list_lookup_insert_ne; lia|].
    intros m Hm. replace m with 0%nat by lia. by rewrite Nat.sub_0_r.
Qed.

Lemma resize_path_below st v n i :
  active_ok st v → path_below st (resize n None v) i.
Proof.
  intros Hv h m Hi Hm.
  assert (Hlt : (i < n)%nat) by (apply lookup_lt_Some in Hi; by rewrite length_resize in Hi).
  destruct (decide (i < length v)%nat) as [Hl|Hl].
  - rewrite lookup_resize in Hi |- * by lia. by apply Hv.
  - rewrite lookup_resize_new in Hi by lia. done.
Qed.

Lemma SetTip_spec st v t b :
  chain_ok st → active_ok st v → st !! t = Some b →
  let v' := SetTip st v t in
  length v' = S (Z.to_nat (nHeight b)) ∧
  ∀ m, (m <= Z.to_nat (nHeight b))%nat → v' !! (Z.to_nat (nHeight b) - m)%nat = Some (prev_n st m t).
Proof.
  intros Hok Hv Hb. cbv zeta. unfold SetTip. rewrite Hb.
  destruct (SetTip_loop_spec st Hok (S (Z.to_nat (nHeight b)))
    (resize (S (Z.to_nat (nHeight b))) None v) t b Hb) as (H1 & _ & H3).
  - rewrite length_resize. lia.
  - lia.
  - intros i _. by apply resize_path_below.
  - split; [by rewrite H1, length_resize|done].
Qed.

(** What [SetTip] leaves can be given to [SetTip] again. *)
Lemma SetTip_active st v t b :
  chain_ok st → active_ok st v → st !! t = Some b → active_ok st (SetTip st v t).
Proof.
  intros Hok Hv Hb. destruct (SetTip_spec st v t b Hok Hv Hb) as [H1 H2]. intros i h m Hi Hm.
  pose proof (lookup_lt_Some _ _ _ Hi) as Hlt. rewrite H1 in Hlt.
  set (n := Z.to_nat (nHeight b)) in *.
  replace i with (n - (n - i))%nat in Hi by lia. rewrite H2 in Hi by lia.
  replace (i - m)%nat with (n - ((n - i) + m))%nat by lia. rewrite H2 by lia.
  injection Hi as Hi. by rewrite prev_n_add, Hi.
Qed.

(** Making a block the tip of the active chain gives exactly its chain, whatever chain
    was active before, although the rewriting stops at the first block the two share: the
    vector ends at the block, holds its ancestor at every height, and can be handed to the
    next call. *)
Theorem SetTip_correct st v t b :
  chain_ok st → active_ok st v → st !! t = Some b →
  let v' := SetTip st v t in
  Tip v' = Some t ∧ Height v' = nHeight b ∧ active_ok st v' ∧
  (∀ k, 0 <= k <= nHeight b → chain_at v' k = GetAncestor st t k) ∧
  (∀ h c, st !! h = Some c → Contains st v' h = true ↔ GetAncestor st t (nHeight c) = Some h).
Proof.
  intros Hok Hv Hb. cbv zeta. destruct (SetTip_spec st v t b Hok Hv Hb) as [H1 H2].
  pose proof (ck_height st Hok _ _ Hb) as Hh.
  assert (Hat : ∀ k, 0 <= k <= nHeight b → chain_at (SetTip st v t) k = GetAncestor st t k).
  { intros k Hk. unfold chain_at. rewrite H1. destruct (Z.ltb_spec k 0); [lia|].
    destruct (Z.leb_spec (Z.of_nat (S (Z.to_nat (nHeight b)))) k); [lia|]. cbn [orb].
    rewrite (GetAncestor_prev_n st t b k Hok Hb Hk).
    replace (Z.to_nat k) with (Z.to_nat (nHeight b) - Z.to_nat (nHeight b - k))%nat by lia.
    rewrite H2 by lia. done. }
  split.
  { unfold Tip. rewrite last_lookup, H1. simpl.
    specialize (H2 0%nat). rewrite Nat.sub_0_r in H2. by rewrite H2 by lia. }
  split; [unfold Height; rewrite H1; lia|]. split; [by eapply SetTip_active|]. split; [done|].
  intros h c Hc. unfold Contains. rewrite Hc, bool_decide_eq_true.
  pose proof (ck_height st Hok _ _ Hc) as Hhc. destruct (decide (nHeight c <= nHeight b)) as [Hle|Hgt].
  - by rewrite Hat by lia.
  - unfold chain_at, GetAncestor. rewrite H1, Hb.
    destruct (Z.leb_spec (Z.of_nat (S (Z.to_nat (nHeight b)))) (nHeight c)); [|lia].
    destruct (Z.ltb_spec (nHeight b) (nHeight c)); [|lia]. by rewrite orb_true_r.
Qed.

(** The last block of the chain among the ancestors of [h], or none. *)
Definition is_fork (st : BlockMap) (v : CChain) (h : Z) (f : option Z) : Prop :=
  match f with
  | Some f => Contains st v f = true ∧ ∃ n, prev_n st n h = Some f ∧
      ∀ m a, (m < n)%nat → prev_n st m h = Some a → Contains st v a = false
  | None => ∀ m a, prev_n st m h = Some a → Contains st v a = false
  end.

Lemma is_fork_step st v h b p f :
  st !! h = Some b → pprev b = Some p → Contains st v h = false → is_fork st v p f → is_fork st v h f.
Proof.
  intros Hb Hp Hc. assert (Hs : ∀ m, prev_n st (S m) h = prev_n st m p)
    by (intros m; cbn [prev_n]; rewrite Hb; simpl; by rewrite Hp).
  destruct f as [f|]; simpl.
  - intros (Hf & n & Hn & Hlt). split; [done|]. exists (S n). rewrite Hs. split; [done|].
    intros [|m] a Hm; [by intros [= <-]|]. rewrite Hs. apply Hlt. lia.
  - intros H [|m] a; [by intros [= <-]|]. rewrite Hs. apply H.
Qed.

Lemma is_fork_steps st v n : ∀ h g f,
  prev_n st n h = Some g →
  (∀ m a, (m < n)%nat → prev_n st m h = Some a → Contains st v a = false) →
  is_fork st v g f → is_fork st v h f.
Proof.
  induction n as [|n IH]; intros h g f Hg Hout Hf; [by injection Hg as ->|].
  cbn [prev_n] in Hg. apply bind_Some in Hg as (b & Hb & Hg). apply bind_Some in Hg as (p & Hp & Hg).
  apply (is_fork_step st v h b p); [done|done|apply (Hout 0%nat); [lia|done]|].
  apply (IH p g); [done| |done]. intros m a Hm Ha. apply (Hout (S m)); [lia|].
  cbn [prev_n]. rewrite Hb. simpl. by rewrite Hp.
Qed.

Lemma FindFork_loop_spec st v : chain_ok st → ∀ fuel h b,
  st !! h = Some b → (Z.to_nat (nHeight b) < fuel)%nat →
  is_fork st v h (FindFork_loop fuel st v (Some h)).
Proof.
  intros Hok. induction fuel as [|fuel IH]; intros h b Hb Hf; [lia|]. cbn [FindFork_loop].
  destruct (Contains st v h) eqn:Hc.
  { split; [done|]. exists 0%nat. split; [done|lia]. }
  rewrite Hb. simpl. pose proof (ck_height st Hok _ _ Hb). destruct (pprev b) as [p|] eqn:Hp.
  - destruct (ck_prev st Hok _ _ _ Hb Hp) as (bp & Hbp & Hh).
    pose proof (ck_height st Hok _ _ Hbp). apply (is_fork_step st v h b p); [done..|].
    apply (IH p bp); [done|lia].
  - replace (FindFork_loop fuel st v None) with (@None Z) by (by destruct fuel).
    intros [|m] a; [by intros [= <-]|]. cbn [prev_n]. rewrite Hb. simpl. by rewrite Hp.
Qed.

Lemma prev_n_above st v n h b a :
  chain_ok st → st !! h = Some b → prev_n st n h = Some a → Height v < nHeight b - Z.of_nat n →
  Contains st v a = false.
Proof.
  intros Hok Hb Ha Hlt.
  destruct (decide (Z.of_nat n <= nHeight b)) as [Hn|Hn].
  - destruct (prev_n_height st n h b Hok Hb Hn) as (a' & ba & H1 & H2 & H3).
    replace a' with a in H2 by congruence. unfold Contains. rewrite H2, H3.
    unfold Height in Hlt. unfold chain_at.
    destruct (Z.leb_spec (Z.of_nat (length v)) (nHeight b - Z.of_nat n)); [|lia].
    by rewrite orb_true_r.
  - unfold Height in Hlt. lia.
Qed.

(** The fork of a block with the active chain is the block's highest ancestor, itself
    included, that is on the chain, and null only when none is: jumping to the height of
    the chain first skips no common block. *)
Theorem FindFork_correct st v h b :
  chain_ok st → st !! h = Some b → is_fork st v h (FindFork st v (Some h)).
Proof.
  intros Hok Hb. unfold FindFork. rewrite Hb. pose proof (ck_height st Hok _ _ Hb) as Hh.
  destruct (Z.ltb_spec (Height v) (nHeight b)) as [Hlt|Hge].
  2:{ apply (FindFork_loop_spec st v Hok _ h b Hb). lia. }
  destruct (decide (0 <= Height v)) as [H0|H0].
  - rewrite (GetAncestor_prev_n st h b (Height v) Hok Hb) by lia.
    destruct (prev_n_height st (Z.to_nat (nHeight b - Height v)) h b Hok Hb) as (a & ba & Ha & Hba & Hha);
      [lia|]. rewrite Ha.
    apply (is_fork_steps st v (Z.to_nat (nHeight b - Height v)) h a); [done| |].
    + intros m c Hm Hc. apply (prev_n_above st v m h b c Hok Hb Hc). lia.
    + apply (FindFork_loop_spec st v Hok _ a ba Hba). lia.
  - unfold GetAncestor. rewrite Hb. destruct (Z.ltb_spec (Height v) 0); [|lia].
    rewrite orb_true_r. simpl. intros m a Ha. unfold Contains.
    assert (v = []) as -> by (destruct v; [done|]; unfold Height in H0; simpl in H0; lia).
    destruct (st !! a); [|done]. unfold chain_at. cbn [length].
    rewrite bool_decide_eq_false. by destruct (_ || _).
Qed.

(** ** The order of the candidates *)

(** The fields the comparator reads. *)
Definition sort_key (b : CBlockIndex) : Z * Z * Z :=
  (nChainWork b, blue_work (dagData b), nSequenceId b).

Section order.
Context (address : Z → Z) `{!Inj (=) (=) address}.

Abbreviation less := (work_less address).

Lemma work_less_true st x y :
  less st x y = true ↔
  let a := entry_at st x in let b := entry_at st y in
  nChainWork a < nChainWork b ∨ nChainWork a = nChainWork b ∧
  (blue_work (dagData a) < blue_work (dagData b) ∨ blue_work (dagData a) = blue_work (dagData b) ∧
   (nSequenceId b < nSequenceId a ∨ nSequenceId a = nSequenceId b ∧ address y < address x)).
Proof.
  unfold work_less, CBlockIndexWorkComparator. cbv zeta.
  repeat (match goal with |- context [if ?x <? ?y then _ else _] => destruct (Z.ltb_spec x y) end);
    split; intros; try done; lia.
Qed.

#[export] Instance work_less_total st : StrictTotal (less st).
Proof.
  split.
  - intros x. apply not_true_iff_false. rewrite work_less_true. cbv zeta. lia.
  - intros x y z. rewrite !work_less_true. cbv zeta. lia.
  - intros x y. rewrite <- !not_true_iff_false, !work_less_true. cbv zeta. intros H1 H2.
    apply (inj address). lia.
Qed.

Lemma work_less_keys st st' x y :
  sort_key <$> st !! x = sort_key <$> st' !! x → sort_key <$> st !! y = sort_key <$> st' !! y →
  less st x y = less st' x y.
Proof.
  assert (He : ∀ z, sort_key <$> st !! z = sort_key <$> st' !! z →
    sort_key (entry_at st z) = sort_key (entry_at st' z)).
  { intros z Hz. unfold entry_at. destruct (st !! z), (st' !! z); simpl in *; congruence. }
  intros Hx%He Hy%He. unfold sort_key in *. injection Hx as Ex1 Ex2 Ex3. injection Hy as Ey1 Ey2 Ey3.
  unfold work_less, CBlockIndexWorkComparator. by rewrite Ex1, Ex2, Ex3, Ey1, Ey2, Ey3.
Qed.

(** A sorted set stays sorted while the fields compared do not change. *)
Lemma ordered_keys st st' l :
  (∀ h, h ∈ l → sort_key <$> st !! h = sort_key <$> st' !! h) →
  ordered (less st) l → ordered (less st') l.
Proof.
  intros Hk. induction 1 as [|x l Hl IH Hx]; [constructor|]. constructor.
  - apply IH. intros h Hh. apply Hk. by right.
  - rewrite Forall_forall in *. intros y Hy.
    rewrite <- (work_less_keys st st'); [by apply Hx|apply Hk; by left|apply Hk; by right].
Qed.

Lemma TryAdd_elem st v cands h x :
  x ∈ TryAddBlockIndexCandidate address st v cands h → x = h ∨ x ∈ cands.
Proof.
  unfold TryAddBlockIndexCandidate. destruct (Tip v) as [t|]; [destruct (less st h t)|];
    [by right|by apply (elem_of_set_emplace _)..].
Qed.

Lemma TryAdd_ordered st v cands h :
  ordered (less st) cands → ordered (less st) (TryAddBlockIndexCandidate address st v cands h).
Proof.
  unfold TryAddBlockIndexCandidate. intros H.
  destruct (Tip v) as [t|]; [destruct (less st h t)|]; [done|by apply (set_emplace_ordered _)..].
Qed.

Lemma last_max st l h x :
  ordered (less st) l → last l = Some h → x ∈ l → x = h ∨ less st x h = true.
Proof.
  intros Ho Hl Hx. apply list_elem_of_lookup in Hx as [i Hi].
  rewrite last_lookup in Hl. pose proof (lookup_lt_Some _ _ _ Hi).
  destruct (decide (i = pred (length l))) as [->|Hne]; [left; congruence|right].
  eapply (ordered_lookup (less st) l i (pred (length l))); [done|lia|done|done].
Qed.

(** [PruneBlockIndexCandidates] removes the candidates below the tip and no other. *)
Lemma prune_worse_elem st tip cands x :
  ordered (less st) cands →
  x ∈ prune_worse address st tip cands ↔ x ∈ cands ∧ less st x tip = false.
Proof.
  induction 1 as [|y l Hl IH Hy]; simpl; [set_solver|].
  destruct (less st y tip) eqn:E.
  - rewrite IH, elem_of_cons. split; [tauto|]. intros [[->|?] ?]; [congruence|tauto].
  - split; [|tauto]. intros Hx. split; [done|]. apply elem_of_cons in Hx as [->|Hx]; [done|].
    rewrite Forall_forall in Hy. specialize (Hy x Hx). apply not_true_iff_false. intros Ht.
    pose proof (st_trans _ _ _ Hy Ht). congruence.
Qed.

Lemma prune_worse_ordered st tip cands :
  ordered (less st) cands → ordered (less st) (prune_worse address st tip cands).
Proof.
  induction 1 as [|y l Hl IH Hy]; simpl; [constructor|]. destruct (less st y tip); [done|by constructor].
Qed.
End order.

(** ** The best usable candidate *)

Definition has_data (b : CBlockIndex) : bool := negb (Z.land (nStatus b) BLOCK_HAVE_DATA =? 0).

(** The way from a block to the active chain, or to the root, is free of failed blocks and
    of blocks without data. *)
Inductive clear (st : BlockMap) (v : CChain) : option Z → Prop :=
  | clear_root : clear st v None
  | clear_active h : Contains st v h = true → clear st v (Some h)
  | clear_step h b : st !! h = Some b → IsFailed b = false → has_data b = true →
      clear st v (pprev b) → clear st v (Some h).

(** The way from a block leads to [t], which is failed or without data. *)
Inductive blocked (st : BlockMap) (v : CChain) (t : Z) : Z → Prop :=
  | blocked_here b : st !! t = Some b → Contains st v t = false →
      IsFailed b || negb (has_data b) = true → blocked st v t t
  | blocked_step h b p : h ≠ t → st !! h = Some b → Contains st v h = false →
      pprev b = Some p → blocked st v t p → blocked st v t h.

Lemma blocked_not_clear st v t h : blocked st v t h → ¬ clear st v (Some h).
Proof.
  induction 1 as [b Hb Hc Hbad|h b p Hne Hb Hc Hp H IH]; intros Hcl; inversion Hcl; try congruence; simplify_eq.
  by destruct (IsFailed b), (has_data b).
Qed.

Lemma blocked_bad st v t h :
  blocked st v t h → ∃ b, st !! t = Some b ∧ IsFailed b || negb (has_data b) = true.
Proof. induction 1; eauto. Qed.

Lemma blocked_prev st v t h : blocked st v t h → ∃ n, prev_n st n h = Some t.
Proof.
  induction 1 as [|h b p _ Hb _ Hp _ [n Hn]]; [by exists 0%nat|]. exists (S n). cbn [prev_n].
  rewrite Hb. simpl. by rewrite Hp.
Qed.

(** The block and all its ancestors have their data. *)
Definition data_at (st : BlockMap) (h : Z) : Prop := ∃ b, st !! h = Some b ∧ has_data b = true.
Definition complete (st : BlockMap) (h : Z) : Prop := ∀ n a, prev_n st n h = Some a → data_at st a.

(** The assertion of the walk: a block on it has its transactions counted. *)
Definition counted (st : BlockMap) (h : Z) : Prop :=
  ∀ n a b, prev_n st n h = Some a → st !! a = Some b → m_chain_tx_count b ≠ 0 ∨ nHeight b = 0.

Lemma counted_prev st h b p : st !! h = Some b → pprev b = Some p → counted st h → counted st p.
Proof.
  intros Hb Hp H n a c Ha. apply (H (S n)). cbn [prev_n]. rewrite Hb. simpl. by rewrite Hp.
Qed.

Lemma find_unusable_spec st v : chain_ok st → ∀ fuel h b,
  st !! h = Some b → (Z.to_nat (nHeight b) < fuel)%nat →
  match find_unusable fuel st v (Some h) with
  | Some None => clear st v (Some h)
  | Some (Some (t, c)) => blocked st v t h ∧ st !! t = Some c
  | None => ¬ counted st h
  end.
Proof.
  intros Hok. induction fuel as [|fuel IH]; intros h b Hb Hf; [lia|]. cbn [find_unusable].
  rewrite Hb. destruct (Contains st v h) eqn:Hc; [by apply clear_active|].
  destruct ((m_chain_tx_count b =? 0) && negb (nHeight b =? 0)) eqn:Ea.
  { intros Hcnt. destruct (Hcnt 0%nat h b eq_refl Hb); lia. }
  replace (Z.land (nStatus b) BLOCK_HAVE_DATA =? 0) with (negb (has_data b))
    by (unfold has_data; by rewrite negb_involutive).
  destruct (IsFailed b || negb (has_data b)) eqn:Eb.
  { split; [by apply (blocked_here st v h b)|done]. }
  apply orb_false_iff in Eb as [Ef Ed%negb_false_iff].
  destruct (pprev b) as [p|] eqn:Hp.
  - destruct (ck_prev st Hok _ _ _ Hb Hp) as (bp & Hbp & Hh).
    pose proof (ck_height st Hok _ _ Hbp).
    specialize (IH p bp Hbp ltac:(lia)).
    destruct (find_unusable fuel st v (Some p)) as [[[t c]|]|];
      [|by eapply clear_step; eauto; rewrite Hp|by intros ?%(counted_prev st h b p Hb Hp)].
    destruct IH as [IH Ht]. split; [|done]. apply (blocked_step st v t h b p); try done.
    intros ->. apply blocked_bad in IH as (c' & Hc' & Hbad). simplify_eq. by rewrite Ef, Ed in Hbad.
  - assert (Hn : find_unusable fuel st v None = Some None) by (by destruct fuel). rewrite Hn.
    eapply clear_step; eauto. rewrite Hp. constructor.
Qed.

(** ** What the removal of a chain changes *)

(** Entries keep everything but the flags, and only blocks that are not clear become failed. *)
Definition marks (st0 : BlockMap) (v : CChain) (st st' : BlockMap) : Prop := ∀ h,
  match st !! h, st' !! h with
  | Some b, Some b' => ∃ s, b' = set_nStatus s b ∧ has_data b' = has_data b ∧
      (s = nStatus b ∨ ¬ clear st0 v (Some h) ∧ IsFailed b' = true)
  | None, None => True
  | _, _ => False
  end.

Lemma set_nStatus_id b : set_nStatus (nStatus b) b = b.
Proof. by destruct b. Qed.

Lemma marks_refl st0 v st : marks st0 v st st.
Proof.
  intros h. destruct (st !! h) as [b|]; [|done]. exists (nStatus b). rewrite set_nStatus_id. auto.
Qed.

Lemma marks_trans st0 v st1 st2 st3 : marks st0 v st1 st2 → marks st0 v st2 st3 → marks st0 v st1 st3.
Proof.
  intros H12 H23 h. specialize (H12 h). specialize (H23 h).
  destruct (st1 !! h) as [b1|], (st2 !! h) as [b2|], (st3 !! h) as [b3|]; try done.
  destruct H12 as (s1 & -> & D1 & H1), H23 as (s2 & -> & D2 & H2). exists s2. split; [done|].
  split; [congruence|].
  destruct H2 as [->|?]; [|by right]. destruct H1 as [->|?]; [by left|by right].
Qed.

Lemma has_data_failed b :
  has_data (set_nStatus (Z.lor (nStatus b) BLOCK_FAILED_CHILD) b) = has_data b.
Proof.
  unfold has_data. cbn [nStatus set_nStatus]. by rewrite Z.land_lor_distr_l, Z.lor_0_r.
Qed.

Lemma marks_insert st0 v st h b :
  st !! h = Some b → ¬ clear st0 v (Some h) →
  marks st0 v st (<[h := set_nStatus (Z.lor (nStatus b) BLOCK_FAILED_CHILD) b]> st).
Proof.
  intros Hb Hn g. destruct (decide (h = g)) as [<-|Hne].
  - rewrite Hb, lookup_insert_eq. eexists. split; [done|]. split; [apply has_data_failed|].
    right. split; [done|].
    unfold IsFailed. cbn [nStatus set_nStatus]. apply negb_true_iff, Z.eqb_neq. intros E.
    apply (f_equal (λ z, Z.testbit z 6)) in E.
    by rewrite Z.land_spec, Z.lor_spec, Z.bits_0, orb_true_r in E.
  - rewrite lookup_insert_ne by done. apply marks_refl.
Qed.

(** Whatever does not depend on the flags is kept. *)
Lemma marks_view {A} (f : CBlockIndex → A) st0 v st st' :
  (∀ s b, f (set_nStatus s b) = f b) → marks st0 v st st' → f <$> st = f <$> st'.
Proof.
  intros Hf Hm. apply map_eq. intros h. specialize (Hm h). rewrite !lookup_fmap.
  destruct (st !! h) as [b|], (st' !! h) as [b'|]; try done.
  destruct Hm as (s & -> & _). simpl. by rewrite Hf.
Qed.

Lemma Contains_links st st' v h : links <$> st = links <$> st' → Contains st v h = Contains st' v h.
Proof.
  intros Hl. apply (f_equal (.!! h)) in Hl. rewrite !lookup_fmap in Hl. unfold Contains.
  destruct (st !! h) as [b|], (st' !! h) as [b'|]; try done. simpl in Hl.
  injection Hl as _ _ Hh _. by rewrite Hh.
Qed.

Lemma marks_clear st0 v st o : marks st0 v st0 st → clear st v o ↔ clear st0 v o.
Proof.
  intros Hm. assert (Hl : links <$> st0 = links <$> st) by (by eapply marks_view). split.
  - induction 1 as [|h Hc|h b Hb Hf Hd H IH]; [constructor| |].
    + apply clear_active. by rewrite (Contains_links _ _ _ _ Hl).
    + specialize (Hm h). rewrite Hb in Hm. destruct (st0 !! h) as [b0|] eqn:Hb0; [|done].
      destruct Hm as (s & -> & _ & [->|[_ Hfail]]); [|congruence].
      rewrite set_nStatus_id in *. by eapply clear_step.
  - induction 1 as [|h Hc|h b Hb Hf Hd H IH]; [constructor| |].
    + apply clear_active. by rewrite <- (Contains_links _ _ _ _ Hl).
    + specialize (Hm h). rewrite Hb in Hm. destruct (st !! h) as [b'|] eqn:Hb'; [|done].
      destruct Hm as (s & -> & _ & [->|[Hn _]]); [|exfalso; apply Hn; by eapply clear_step].
      rewrite set_nStatus_id in *. by eapply clear_step.
Qed.

Lemma marks_complete st0 v st h : marks st0 v st0 st → complete st0 h → complete st h.
Proof.
  intros Hm Hc n a Ha. pose proof (marks_view links _ _ _ _ (λ _ _, eq_refl) Hm) as Hl.
  rewrite <- (prev_n_links _ _ n Hl) in Ha. destruct (Hc n a Ha) as (b & Hb & Hd).
  specialize (Hm a). rewrite Hb in Hm. destruct (st !! a) as [b'|] eqn:Hb'; [|done].
  destruct Hm as (s & E & D & _). exists b'. split; [done|congruence].
Qed.

Section most_work.
Context (address : Z → Z) `{!Inj (=) (=) address}.

Abbreviation sorted cm := (ordered (work_less address (m_block_index cm)) (setBlockIndexCandidates cm)).

(** What removing chains does to the state: only unusable candidates go. *)
Record pruned (st0 : BlockMap) (cm cm' : ChainstateManager) : Prop := {
  pr_marks : marks st0 (m_chain cm) (m_block_index cm) (m_block_index cm');
  pr_chain : m_chain cm' = m_chain cm;
  pr_best : m_best_header cm' = m_best_header cm;
  pr_sub x : x ∈ setBlockIndexCandidates cm' → x ∈ setBlockIndexCandidates cm;
  pr_bad x : x ∈ setBlockIndexCandidates cm → x ∉ setBlockIndexCandidates cm' →
             ¬ clear st0 (m_chain cm) (Some x);
  pr_sorted : sorted cm'
}.

Lemma pruned_refl st0 cm : sorted cm → pruned st0 cm cm.
Proof. intros H. split; [apply marks_refl|done..]. Qed.

Lemma pruned_trans st0 cm1 cm2 cm3 : pruned st0 cm1 cm2 → pruned st0 cm2 cm3 → pruned st0 cm1 cm3.
Proof.
  intros [M1 C1 E1 S1 B1 O1] [M2 C2 E2 S2 B2 O2]. rewrite C1 in *. split.
  - by eapply marks_trans.
  - congruence.
  - congruence.
  - auto.
  - intros x H1 H3. destruct (decide (x ∈ setBlockIndexCandidates cm2)); auto.
  - done.
Qed.

(** Erasing one candidate that is not clear, with a change of flags and of the waiting
    blocks. *)
Lemma pruned_erase st0 cm h st' unlinked :
  let st := m_block_index cm in
  let cands := set_erase (work_less address st) h (setBlockIndexCandidates cm) in
  sorted cm → ¬ clear st0 (m_chain cm) (Some h) → marks st0 (m_chain cm) st st' →
  let cm' := with_candidates (with_index cm st') unlinked (nBlockSequenceId cm) cands in
  pruned st0 cm cm' ∧ h ∉ setBlockIndexCandidates cm'.
Proof.
  intros st cands Hs Hn Hm cm'.
  assert (Hin : ∀ x, x ∈ cands ↔ x ≠ h ∧ x ∈ setBlockIndexCandidates cm)
    by (intros x; by apply (elem_of_set_erase _)).
  split; [|unfold cm'; simpl; rewrite Hin; tauto].
  split; [exact Hm|done|done|simpl; intros x; rewrite Hin; tauto| |].
  - simpl. intros x Hx. rewrite Hin. intros Hne. destruct (decide (x = h)) as [->|]; [done|tauto].
  - simpl. apply (ordered_keys address st st').
    + intros x _. pose proof (marks_view sort_key st0 (m_chain cm) st st' (λ _ _, eq_refl) Hm) as Hv.
      apply (f_equal (.!! x)) in Hv. by rewrite !lookup_fmap in Hv.
    + by apply set_erase_ordered.
Qed.

Lemma remove_chain_spec st0 t ff h v :
  blocked st0 v t h → chain_ok st0 → ∀ fuel cm b, m_chain cm = v → st0 !! h = Some b →
  (Z.to_nat (nHeight b) < fuel)%nat → marks st0 v st0 (m_block_index cm) → sorted cm →
  ∃ cm', remove_chain address fuel ff cm h t = Some cm' ∧ pruned st0 cm cm' ∧
    h ∉ setBlockIndexCandidates cm'.
Proof.
  intros Hbl Hok. induction Hbl as [c Hc Hcont Hbad|h c p Hne Hc Hcont Hp Hbl IH];
    intros fuel cm b Hv Hb Hf Hm Hs; subst v.
  - destruct fuel as [|fuel]; [lia|]. cbn [remove_chain]. rewrite Z.eqb_refl. eexists. split; [done|].
    replace (with_candidates cm) with (with_candidates (with_index cm (m_block_index cm))) by (by destruct cm).
    apply pruned_erase; [done| |apply marks_refl].
    apply (blocked_not_clear st0 _ t). exact (blocked_here st0 _ t c Hc Hcont Hbad).
  - assert (Hnc : ¬ clear st0 (m_chain cm) (Some h))
      by (apply (blocked_not_clear st0 _ t); exact (blocked_step st0 _ t h c p Hne Hc Hcont Hp Hbl)).
    destruct fuel as [|fuel]; [lia|]. cbn [remove_chain].
    destruct (Z.eqb_spec h t) as [|_]; [done|]. assert (c = b) as -> by congruence.
    pose proof (Hm h) as Hmh. rewrite Hb in Hmh.
    destruct (m_block_index cm !! h) as [b'|] eqn:Hb'; [|done].
    destruct Hmh as (s & -> & _). cbn [pprev set_nStatus]. rewrite Hp.
    destruct (ck_prev st0 Hok _ _ _ Hb Hp) as (bp & Hbp & Hh). pose proof (ck_height st0 Hok _ _ Hbp).
    set (cm1 := if ff then _ else _).
    assert (H1 : pruned st0 cm cm1 ∧ h ∉ setBlockIndexCandidates cm1).
    { unfold cm1. destruct ff.
      - apply pruned_erase; [done|done|].
        by apply (marks_insert st0 (m_chain cm) _ h (set_nStatus s b)).
      - replace (with_candidates cm) with (with_candidates (with_index cm (m_block_index cm)))
          by (by destruct cm).
        apply pruned_erase; [done|done|apply marks_refl]. }
    destruct H1 as [H1 Hout].
    destruct (IH fuel cm1 bp) as (cm2 & -> & H2 & _); [by destruct H1|done|lia| | |].
    + eapply marks_trans; [exact Hm|]. by destruct H1.
    + by destruct H1.
    + exists cm2. split; [done|]. split; [by eapply pruned_trans|].
      intros Hin. apply Hout. by eapply pr_sub.
Qed.

(** Waiting blocks are added only for missing data. *)
Lemma remove_chain_unlinked fuel : ∀ cm h t cm',
  remove_chain address fuel true cm h t = Some cm' → m_blocks_unlinked cm' = m_blocks_unlinked cm.
Proof.
  induction fuel as [|fuel IH]; intros cm h t cm'; cbn [remove_chain];
    (destruct (h =? t); [by intros <-%(inj Some)|]); [done|].
  destruct (m_block_index cm !! h) as [b|]; [|done]. destruct (pprev b) as [p|]; [|done].
  by intros ->%IH.
Qed.

Lemma note_invalid_same cm h :
  let cm' := note_invalid cm h in
  m_block_index cm' = m_block_index cm ∧ m_chain cm' = m_chain cm ∧
  setBlockIndexCandidates cm' = setBlockIndexCandidates cm ∧
  m_blocks_unlinked cm' = m_blocks_unlinked cm ∧ m_best_header cm' = m_best_header cm.
Proof. unfold note_invalid. by repeat case_match. Qed.

(** The outcome of the search: the best candidate whose way is clear, all those above it
    having been removed; or no candidate at all, none having been clear. *)
Definition best_usable (st0 : BlockMap) (cm cm' : ChainstateManager) (r : option Z) : Prop :=
  last (setBlockIndexCandidates cm') = r ∧
  match r with
  | Some h => h ∈ setBlockIndexCandidates cm ∧ clear st0 (m_chain cm) (Some h) ∧
      ∀ x, x ∈ setBlockIndexCandidates cm → work_less address st0 h x = true →
        ¬ clear st0 (m_chain cm) (Some x)
  | None => ∀ x, x ∈ setBlockIndexCandidates cm → ¬ clear st0 (m_chain cm) (Some x)
  end.

Lemma best_usable_pruned st0 cm cm1 cm' r :
  pruned st0 cm cm1 → best_usable st0 cm1 cm' r → best_usable st0 cm cm' r.
Proof.
  intros [_ Hc _ Hsub Hbad _] [Hl H]. split; [done|]. rewrite Hc in H. destruct r as [h|].
  - destruct H as (H1 & H2 & H3). split; [auto|]. split; [done|]. intros x Hx Hlt.
    destruct (decide (x ∈ setBlockIndexCandidates cm1)); auto.
  - intros x Hx. destruct (decide (x ∈ setBlockIndexCandidates cm1)); auto.
Qed.

Lemma counted_links st st' h :
  links <$> st = links <$> st' → m_chain_tx_count <$> st = m_chain_tx_count <$> st' →
  counted st h → counted st' h.
Proof.
  intros Hl Hc H n a b' Hn Hb'. rewrite <- (prev_n_links st st' n Hl) in Hn.
  destruct (fmap_lookup_eq _ _ _ _ _ Hl Hb') as (b & Hb & Hlb).
  destruct (fmap_lookup_eq _ _ _ _ _ Hc Hb') as (b2 & Hb2 & Hcb).
  assert (b2 = b) as -> by congruence.
  unfold links in Hlb. apply (f_equal (λ x, x.1.1.2)) in Hlb. rename Hlb into Hh. cbn in Hh. destruct (H n a b Hn Hb); [left; congruence|right; congruence].
Qed.

Lemma pruned_base st0 st cm cm' :
  (∀ o, clear st (m_chain cm) o ↔ clear st0 (m_chain cm) o) → pruned st cm cm' → pruned st0 cm cm'.
Proof.
  intros He [M C E S B O]. split; [|done|done|done| |done].
  - intros h. specialize (M h). destruct (m_block_index cm !! h), (m_block_index cm' !! h); try done.
    destruct M as (s & Es & D & M). exists s. rewrite <- He. done.
  - intros x. rewrite <- He. apply B.
Qed.

Lemma pruned_same st0 cm1 cm cm' :
  m_block_index cm1 = m_block_index cm → m_chain cm1 = m_chain cm →
  setBlockIndexCandidates cm1 = setBlockIndexCandidates cm → m_best_header cm1 = m_best_header cm →
  pruned st0 cm1 cm' → pruned st0 cm cm'.
Proof. intros E1 E2 E3 E4 [M C E S B O]. rewrite E1, E2, E3, E4 in *. by split. Qed.

Lemma marks_less st0 v st x y :
  marks st0 v st0 st → work_less address st0 x y = work_less address st x y.
Proof.
  intros Hm. pose proof (marks_view sort_key _ _ _ _ (λ _ _, eq_refl) Hm) as Hv.
  apply work_less_keys; [apply (f_equal (.!! x)) in Hv|apply (f_equal (.!! y)) in Hv];
    by rewrite !lookup_fmap in Hv.
Qed.

(** One round that ends in a removal: its candidate goes, and what is left is a state the
    search can go on from. *)
Lemma unusable_round st0 cm h b t c steps :
  let cm1 := if IsFailed c then note_invalid cm h else cm in
  chain_ok (m_block_index cm) → marks st0 (m_chain cm) st0 (m_block_index cm) → sorted cm →
  h ∈ setBlockIndexCandidates cm → m_block_index cm !! h = Some b →
  (Z.to_nat (nHeight b) < steps)%nat →
  blocked (m_block_index cm) (m_chain cm) t h → m_block_index cm !! t = Some c →
  ∃ cm2, remove_chain address steps (IsFailed c) cm1 h t = Some cm2 ∧ pruned st0 cm cm2 ∧
    (length (setBlockIndexCandidates cm2) < length (setBlockIndexCandidates cm))%nat ∧
    (complete st0 h → m_blocks_unlinked cm2 = m_blocks_unlinked cm).
Proof.
  intros cm1 Hok Hm Hs Hin Hb Hsteps Hbl Ht.
  assert (H1 : m_block_index cm1 = m_block_index cm ∧ m_chain cm1 = m_chain cm ∧
    setBlockIndexCandidates cm1 = setBlockIndexCandidates cm ∧
    m_blocks_unlinked cm1 = m_blocks_unlinked cm ∧ m_best_header cm1 = m_best_header cm).
  { unfold cm1. destruct (IsFailed c); [apply note_invalid_same|done]. }
  destruct H1 as (Ei & Ec & Es & Eu & Eb).
  destruct (remove_chain_spec (m_block_index cm) t (IsFailed c) h (m_chain cm) Hbl
    Hok steps cm1 b Ec Hb Hsteps) as (cm2 & Erem & Hpr & Hout);
    [rewrite Ei; apply marks_refl|by rewrite Ei, Es|].
  assert (H2 : pruned st0 cm cm2).
  { apply (pruned_same st0 cm1 cm cm2 Ei Ec Es Eb). eapply pruned_base; [|exact Hpr].
    intros o. rewrite Ec. by apply marks_clear. }
  exists cm2. split; [done|]. split; [done|]. split.
  - apply (submseteq_length (h :: setBlockIndexCandidates cm2)), NoDup_submseteq.
    + constructor; [done|]. eapply (ordered_NoDup _), pr_sorted, H2.
    + intros x [->|Hx]%elem_of_cons; [done|]. by eapply pr_sub.
  - intros Hcomp%(marks_complete _ _ _ _ Hm). destruct (blocked_prev _ _ _ _ Hbl) as [n Hn].
    destruct (Hcomp n t Hn) as (c' & Hc' & Hd). destruct (blocked_bad _ _ _ _ Hbl) as (c2 & Hc2 & Hbad).
    assert (c' = c) as -> by congruence. assert (c2 = c) as -> by congruence.
    rewrite Hd, orb_false_r in Hbad. rewrite Hbad in Erem.
    apply remove_chain_unlinked in Erem. congruence.
Qed.

Lemma find_most_work_spec st0 fuel : chain_ok st0 → ∀ cm,
  (length (setBlockIndexCandidates cm) <= fuel)%nat → marks st0 (m_chain cm) st0 (m_block_index cm) →
  sorted cm → (∀ h, h ∈ setBlockIndexCandidates cm → is_Some (st0 !! h)) →
  match find_most_work address fuel cm with
  | Some (cm', r) => pruned st0 cm cm' ∧ best_usable st0 cm cm' r ∧
      ((∀ h, h ∈ setBlockIndexCandidates cm → complete st0 h) →
       m_blocks_unlinked cm' = m_blocks_unlinked cm)
  | None => ∃ h, h ∈ setBlockIndexCandidates cm ∧ ¬ counted st0 h
  end.
Proof.
  intros Hok. induction fuel as [|fuel IH]; intros cm Hf Hm Hs Hc.
  all: cbn [find_most_work]; destruct (last (setBlockIndexCandidates cm)) as [h|] eqn:Hl.
  2, 4: apply last_None in Hl;
    split; [by apply pruned_refl|]; split; [|done]; split; [by rewrite Hl|]; intros x; rewrite Hl;
    by intros ?%elem_of_nil.
  { destruct (setBlockIndexCandidates cm); [done|simpl in Hf; lia]. }
  assert (Hin : h ∈ setBlockIndexCandidates cm) by (by apply last_Some_elem_of).
  destruct (Hc h Hin) as [b Hb].
  pose proof (marks_view links _ _ _ _ (λ _ _, eq_refl) Hm) as Hlinks.
  pose proof (marks_view m_chain_tx_count _ _ _ _ (λ _ _, eq_refl) Hm) as Hcounts.
  destruct (fmap_lookup_eq _ _ _ _ _ (eq_sym Hlinks) Hb) as (b' & Hb' & _).
  assert (Hst : nHeight (entry_at (m_block_index cm) h) = nHeight b')
    by (unfold entry_at; by rewrite Hb').
  rewrite Hst. set (steps := S (Z.to_nat (nHeight b'))).
  pose proof (chain_ok_links _ _ Hlinks Hok) as Hok'.
  pose proof (find_unusable_spec _ (m_chain cm) Hok' steps h b' Hb' ltac:(unfold steps; lia)) as Hu.
  destruct (find_unusable steps _ _ _) as [[[t c]|]|].
  3:{ exists h. split; [done|]. intros Hcnt. apply Hu. by eapply counted_links. }
  2:{ split; [by apply pruned_refl|]. split; [|done]. split; [done|].
      split; [done|]. split; [by apply (marks_clear _ _ _ _ Hm)|]. intros x Hx Hlt.
      exfalso. rewrite (marks_less _ _ _ _ _ Hm) in Hlt.
      destruct (last_max address _ _ h x Hs Hl Hx) as [->|Hgt]; [by rewrite st_irrefl in Hlt|].
      apply (st_asym _) in Hgt. congruence. }
  destruct Hu as [Hbl Ht].
  destruct (unusable_round st0 cm h b' t c steps Hok' Hm Hs Hin Hb' ltac:(unfold steps; lia) Hbl Ht)
    as (cm2 & -> & H2 & Hlen & Hun).
  assert (Hm2 : marks st0 (m_chain cm2) st0 (m_block_index cm2)).
  { rewrite (pr_chain _ _ _ H2). eapply marks_trans; [exact Hm|]. by destruct H2. }
  assert (Hc2 : ∀ x, x ∈ setBlockIndexCandidates cm2 → is_Some (st0 !! x))
    by (intros x Hx; apply Hc; by eapply pr_sub).
  specialize (IH cm2 ltac:(lia) Hm2 (pr_sorted _ _ _ H2) Hc2).
  destruct (find_most_work address fuel cm2) as [[cm3 r]|].
  - destruct IH as (H3 & Hr & Hu3).
    split; [by eapply pruned_trans|]. split; [by eapply best_usable_pruned|].
    intros Hall. rewrite Hu3, Hun; [done|by apply Hall|]. intros x Hx. apply Hall. by eapply pr_sub.
  - destruct IH as (x & Hx & Hn). exists x. split; [by eapply pr_sub|done].
Qed.

(** The search for the best chain ends, without a failed assertion, and is right: it
    returns the greatest candidate under the work comparator from which every block down to
    the active chain has data and is not failed, and null only when there is none.  It
    removes only candidates that are not usable, changes no field the comparator reads, and
    leaves the set sorted. *)
Theorem FindMostWorkChain_correct cm :
  let st := m_block_index cm in
  chain_ok st → sorted cm →
  (∀ h, h ∈ setBlockIndexCandidates cm → is_Some (st !! h) ∧ counted st h) →
  ∃ cm' r, FindMostWorkChain address cm = Some (cm', r) ∧ best_usable st cm cm' r ∧
    (∀ x, x ∈ setBlockIndexCandidates cm → clear st (m_chain cm) (Some x) →
       x ∈ setBlockIndexCandidates cm') ∧
    sorted cm' ∧ m_chain cm' = m_chain cm ∧
    (λ b, (dag_links b, sort_key b)) <$> st = (λ b, (dag_links b, sort_key b)) <$> m_block_index cm'.
Proof.
  intros st Hok Hs Hc.
  pose proof (find_most_work_spec st (length (setBlockIndexCandidates cm)) Hok cm) as H.
  unfold FindMostWorkChain. destruct (find_most_work address _ cm) as [[cm' r]|].
  2:{ destruct H as (h & Hh & Hn); [done|apply marks_refl|done|intros h Hh; by apply Hc|].
      by destruct (Hc h Hh). }
  destruct H as ([M C _ S B O] & Hr & _); [done|apply marks_refl|done|intros h Hh; by apply Hc|].
  exists cm', r. split; [done|]. split; [exact Hr|].
  split; [|by eauto using marks_view]. intros x Hx Hcl.
  destruct (decide (x ∈ setBlockIndexCandidates cm')); [done|]. by destruct (B x).
Qed.
End most_work.
