(* ===== verification/Accept.v ===== *)
(** * Acceptance of headers and blocks: [ChainstateManager::AcceptBlockHeader] and
    [ChainstateManager::AcceptBlock] of src/src/validation.cpp

    Both handlers work on the state of Chainman.v.  A handler returns the new state and a
    value or a failure; [Abort] is a failed assertion.  The hash function, the checks of a
    block's transactions, the block file and the clock are arguments.  Relaying, flushing,
    file positions and snapshots are left out.  The lemmas say what each
    stage leaves alone; what the handlers guarantee is proved in AcceptProps.v. *)

From Stdlib Require Import String.
From S2P Require Import Prelude OrdSet TipSet Arith256 Serialize BlockHeader Ghostdag Mergeset.
From S2P Require Import BlockIndex BlockIndexProvider GhostdagProps Pow EarlyProtection Chainman.

Local Open Scope Z_scope.

(** ** Data *)

Inductive BlockValidationResult :=
  | BLOCK_RESULT_UNSET | BLOCK_CONSENSUS | BLOCK_RECENT_CONSENSUS_CHANGE
  | BLOCK_CACHED_INVALID | BLOCK_INVALID_HEADER | BLOCK_MUTATED | BLOCK_MISSING_PREV
  | BLOCK_INVALID_PREV | BLOCK_TIME_FUTURE | BLOCK_CHECKPOINT | BLOCK_HEADER_LOW_WORK.

#[export] Instance BlockValidationResult_eq_dec : EqDecision BlockValidationResult.
Proof. solve_decision. Defined.

Inductive Failure :=
  | Invalid (result : BlockValidationResult) (reject_reason : string)
  | SystemError
  | Abort.

Definition MAX_FUTURE_BLOCK_TIME : Z := 2 * 60 * 60.
Definition MAX_TIMEWARP : Z := 600.
Definition MIN_BLOCKS_TO_KEEP : Z := 288.

(** Command-line options and chain data the handlers read. *)
Record Options := mkOptions {
  arg_dag : option bool;
  arg_earlyprotection : option bool;
  checkpoints_enabled : bool;
  mapCheckpoints : list (Z * Z);
  MinimumChainWork : Z
}.

(** ** Header checks *)

Fixpoint past_times (n : nat) (st : BlockMap) (cur : option Z) : list Z :=
  match n, cur with
  | S n', Some h =>
      match st !! h with
      | Some b => nTime b :: past_times n' st (pprev b)
      | None => []
      end
  | _, _ => []
  end.

Definition nMedianTimeSpan : nat := 11.

Definition GetMedianTimePast (st : BlockMap) (h : Z) : Z :=
  let times := merge_sort Z.le (past_times nMedianTimeSpan st (Some h)) in
  default 0 (times !! (length times / 2)%nat).

(** The checkpoint data is an ordered map, searched from the highest height down. *)
Definition GetLastCheckpoint (st : BlockMap) (checkpoints : list (Z * Z)) : option CBlockIndex :=
  head (omap (λ c : Z * Z, st !! c.2) (reverse checkpoints)).

Section accept.
Context (SHA256d : list Z → Z) (hashGenesisBlock : Z) (params : Params) (opts : Options).
Context (address : Z → Z).

Definition dag_mode : bool := default (fDagMode params) (arg_dag opts).

Definition CheckBlockHeader (block : CBlockHeader) : option Failure :=
  if CheckProofOfWork (GetHash SHA256d block) (hdr_nBits block) params then None
  else Some (Invalid BLOCK_INVALID_HEADER "high-hash").

Definition before_checkpoint (st : BlockMap) (height : Z) : bool :=
  checkpoints_enabled opts &&
  match GetLastCheckpoint st (mapCheckpoints opts) with
  | Some c => height <? nHeight c
  | None => false
  end.

Definition outdated_version (nVersion height : Z) : bool :=
  (nVersion <? 2) && (BIP34Height params <=? height) ||
  (nVersion <? 3) && (BIP66Height params <=? height) ||
  (nVersion <? 4) && (BIP65Height params <=? height).

(** The reason for an outdated version also carries the version number. *)
Definition ContextualCheckBlockHeader (st : BlockMap) (block : CBlockHeader) (prev : Z)
    (prev_b : CBlockIndex) (now : Z) : option Failure :=
  let height := nHeight prev_b + 1 in
  let interval := DifficultyAdjustmentInterval params in
  match GetNextWorkRequired st params (arg_dag opts) prev (hdr_nTime block) with
  | None => Some Abort
  | Some bits =>
      if negb (hdr_nBits block =? bits) then Some (Invalid BLOCK_INVALID_HEADER "bad-diffbits")
      else if before_checkpoint st height
      then Some (Invalid BLOCK_CHECKPOINT "bad-fork-prior-to-checkpoint")
      else if hdr_nTime block <=? GetMedianTimePast st prev
      then Some (Invalid BLOCK_INVALID_HEADER "time-too-old")
      else if enforce_BIP94 params && (interval =? 0) then Some Abort
      else if enforce_BIP94 params && (Z.rem height interval =? 0) &&
              (hdr_nTime block <? nTime prev_b - MAX_TIMEWARP)
      then Some (Invalid BLOCK_INVALID_HEADER "time-timewarp-attack")
      else if now + MAX_FUTURE_BLOCK_TIME <? hdr_nTime block
      then Some (Invalid BLOCK_TIME_FUTURE "time-too-new")
      else if outdated_version (hdr_nVersion block) height
      then Some (Invalid BLOCK_INVALID_HEADER "bad-version")
      else None
  end.

(** The loop over [hashParents]; [seen] is [seen_extra_parents]. *)
Fixpoint check_dag_parents (st : BlockMap) (prev : Z) (prev_b : CBlockIndex) (seen : gset Z)
    (ps : list Z) : option Failure :=
  match ps with
  | [] => None
  | p :: ps' =>
      if p =? prev then Some (Invalid BLOCK_CONSENSUS "duplicate-dag-parent")
      else if bool_decide (p ∈ seen) then Some (Invalid BLOCK_CONSENSUS "duplicate-dag-parent")
      else
        match st !! p with
        | None => check_dag_parents st prev prev_b ({[p]} ∪ seen) ps'
        | Some b =>
            if IsFailed b then Some (Invalid BLOCK_INVALID_PREV "bad-dag-parent")
            else if (nHeight prev_b <? nHeight b) &&
                    bool_decide (GetAncestor st p (nHeight prev_b) = Some prev)
            then Some (Invalid BLOCK_CONSENSUS "dag-parent-descends-from-selected-parent")
            else check_dag_parents st prev prev_b ({[p]} ∪ seen) ps'
        end
  end.

Definition check_dag_header (st : BlockMap) (block : CBlockHeader) (prev_b : CBlockIndex)
    : option Failure :=
  if IsDagBlock block && dag_mode then
    if nMaxDagParents params <? Z.of_nat (length (hdr_hashParents block))
    then Some (Invalid BLOCK_CONSENSUS "too-many-dag-parents")
    else if negb (hdr_hashParentsRoot block =? ComputeParentsRoot SHA256d (hdr_hashParents block))
    then Some (Invalid BLOCK_CONSENSUS "bad-dag-parents-root")
    else check_dag_parents st (hdr_hashPrevBlock block) prev_b ∅ (hdr_hashParents block)
  else None.

(** ** [AcceptBlockHeader] *)

(** The walk that marks the blocks from [walk] down to a failed ancestor. *)
Fixpoint mark_failed_child (fuel : nat) (st : BlockMap) (walk failedit : Z) : BlockMap :=
  match fuel with
  | O => st
  | S fuel' =>
      if walk =? failedit then st
      else match st !! walk with
           | None => st
           | Some b =>
               let st' := <[walk := set_nStatus (Z.lor (nStatus b) BLOCK_FAILED_CHILD) b]> st in
               match pprev b with
               | Some p => mark_failed_child fuel' st' p failedit
               | None => st'
               end
           end
  end.

(** The loop over [m_failed_blocks]: the marked index when the previous block descends from
    a failed one, [Some None] when that one is not marked as failed itself. *)
Fixpoint descends_from_failed (st : BlockMap) (prev : Z) (prev_b : CBlockIndex)
    (failed : list Z) : option (option BlockMap) :=
  match failed with
  | [] => None
  | f :: failed' =>
      match st !! f with
      | Some fb =>
          if bool_decide (GetAncestor st prev (nHeight fb) = Some f)
          then Some (if Z.land (nStatus fb) BLOCK_FAILED_VALID =? 0 then None
                     else Some (mark_failed_child (S (Z.to_nat (nHeight prev_b))) st prev f))
          else descends_from_failed st prev prev_b failed'
      | None => descends_from_failed st prev prev_b failed'
      end
  end.

(** The checks of a header that is not in the index, in the order of the code; the index
    changes only when the previous block descends from a failed one. *)
Definition check_new_header (cm : ChainstateManager) (block : CBlockHeader) (now : Z)
    : ChainstateManager * option Failure :=
  let st := m_block_index cm in
  let prev := hdr_hashPrevBlock block in
  match CheckBlockHeader block with
  | Some f => (cm, Some f)
  | None =>
      match st !! prev with
      | None => (cm, Some (Invalid BLOCK_MISSING_PREV "prev-blk-not-found"))
      | Some prev_b =>
          if IsFailed prev_b then (cm, Some (Invalid BLOCK_INVALID_PREV "bad-prevblk"))
          else match ContextualCheckBlockHeader st block prev prev_b now with
          | Some f => (cm, Some f)
          | None =>
              match check_dag_header st block prev_b with
              | Some f => (cm, Some f)
              | None =>
                  if IsValid prev_b BLOCK_VALID_SCRIPTS then (cm, None)
                  else match descends_from_failed st prev prev_b (m_failed_blocks cm) with
                       | Some (Some st') =>
                           (with_index cm st', Some (Invalid BLOCK_INVALID_PREV "bad-prevblk"))
                       | Some None => (cm, Some Abort)
                       | None => (cm, None)
                       end
              end
          end
      end
  end.

Definition add_header_entry (cm : ChainstateManager) (hash : Z) (block : CBlockHeader)
    : ChainstateManager :=
  let '(st, best) := AddToBlockIndex (m_block_index cm) hash block (m_best_header cm) in
  mkChainman st best (m_best_invalid cm) (m_failed_blocks cm) (m_blocks_unlinked cm)
    (nBlockSequenceId cm) (setBlockIndexCandidates cm) (m_chain cm) (m_dag_tips cm)
    (g_early_protection cm).

(** The value is [*ppindex]. *)
Definition AcceptBlockHeader (cm : ChainstateManager) (block : CBlockHeader)
    (min_pow_checked : bool) (now : Z) : ChainstateManager * (Z + Failure) :=
  let hash := GetHash SHA256d block in
  let add (cm : ChainstateManager) :=
    if min_pow_checked then (add_header_entry cm hash block, inl hash)
    else (cm, inr (Invalid BLOCK_HEADER_LOW_WORK "too-little-chainwork")) in
  if negb (hash =? hashGenesisBlock) then
    match m_block_index cm !! hash with
    | Some b =>
        if IsFailed b then (cm, inr (Invalid BLOCK_CACHED_INVALID "duplicate"))
        else (cm, inl hash)
    | None =>
        match check_new_header cm block now with
        | (cm', Some f) => (cm', inr f)
        | (cm', None) => add cm'
        end
    end
  else add cm.

(** ** The stages of [AcceptBlock] *)

(** Re-resolving [vDagParents] from the block: the pointers pushed so far, and the failure
    that ended the loop. *)
Fixpoint resolve_parents (st : BlockMap) (ps : list Z) : list (option Z) * option Failure :=
  match ps with
  | [] => ([], None)
  | p :: ps' =>
      match st !! p with
      | Some b =>
          if IsFailed b then ([], Some (Invalid BLOCK_INVALID_PREV "bad-dag-parent"))
          else let '(l, f) := resolve_parents st ps' in (Some p :: l, f)
      | None => ([], Some (Invalid BLOCK_MISSING_PREV "dag-parent-not-found"))
      end
  end.

Definition resolve_stage (st : BlockMap) (hash : Z) (b : CBlockIndex) (block : CBlockHeader)
    : BlockMap * option Failure :=
  if IsDagBlock block && (length (vDagParents b) <? length (hdr_hashParents block))%nat
  then let '(l, f) := resolve_parents st (hdr_hashParents block) in
       (<[hash := set_vDagParents l b]> st, f)
  else (st, None).

(** The scores of the block from those of its parents. *)
Definition score_stage (st : BlockMap) (hash : Z) : BlockMap * option Failure :=
  let provider := BlockIndexGhostdagProvider st in
  match st !! hash with
  | None => (st, Some Abort)
  | Some b =>
      match Index_GetParents st hash with
      | [] => (<[hash := set_dagData (mkGhostdagData 0 (selected_parent (dagData b))
                           (mergeset_blues (dagData b)) (mergeset_reds (dagData b)) 0) b]> st, None)
      | all_parents =>
          if forallb (λ p, match Index_GetGhostdagData st p with Some _ => true | None => false end)
               all_parents
          then match ComputeGhostdag (P := provider) (size st) (ghostdag_k params) all_parents with
               | Some (Some d) => (<[hash := set_dagData d b]> st, None)
               | Some None => (st, Some (Invalid BLOCK_CONSENSUS "bad-dag-mergeset-overflow"))
               | None => (st, Some Abort)
               end
          else (st, Some (Invalid BLOCK_MISSING_PREV "dag-parent-context-missing"))
      end
  end.

Definition dag_stage (cm : ChainstateManager) (hash : Z) (block : CBlockHeader)
    : ChainstateManager * option Failure :=
  if dag_mode then
    match m_block_index cm !! hash with
    | None => (cm, Some Abort)
    | Some b =>
        match resolve_stage (m_block_index cm) hash b block with
        | (st, Some f) => (with_index cm st, Some f)
        | (st, None) => let '(st', f) := score_stage st hash in (with_index cm st', f)
        end
    end
  else (cm, None).

(** [now] and [rand] are what the clock and the random generator return. *)
Definition early_stage (cm : ChainstateManager) (hash now rand : Z) : ChainstateManager :=
  match m_block_index cm !! hash with
  | None => cm
  | Some b =>
      let force_flag := default (fEarlyProtection params) (arg_earlyprotection opts) in
      let height_ok := nHeight b <=? EARLY_PROTECTION_HEIGHT_LIMIT in
      let is_set := match arg_earlyprotection opts with Some _ => true | None => false end in
      if (0 <? nHeight b) && (force_flag && (height_ok || is_set)) then
        let '(ep, bwi) := PopBlockWeight (g_early_protection cm) hash in
        let '(ep, weight) :=
          if bw_peer_id bwi =? -1 then
            let '(ep, _) := RegisterPeer ep now rand (-1) in
            let w_activation := GetActivationWeight ep now (-1) in
            let '(ep, w_throttle) := RecordBlockIPAndGetThrottleWeight ep localhost in
            let '(ep, w_ramp) := RecordBlockAndGetRampWeight ep (-1) in
            (ep, fmul (fmul w_activation w_throttle) w_ramp)
          else (ep, bw_weight bwi) in
        mkChainman (<[hash := set_weight weight b]> (m_block_index cm)) (m_best_header cm)
          (m_best_invalid cm) (m_failed_blocks cm) (m_blocks_unlinked cm) (nBlockSequenceId cm)
          (setBlockIndexCandidates cm) (m_chain cm) (m_dag_tips cm) ep
      else cm
  end.

(** ** [ReceivedBlockTransactions] *)

Definition prev_tx_sum (st : BlockMap) (b : CBlockIndex) : Z :=
  u64 (nTx b + match pprev b ≫= (st !!.) with Some p => m_chain_tx_count p | None => 0 end).

(** The queue of blocks whose ancestors all have their transactions: each is counted and
    numbered and becomes a candidate, and the blocks waiting for it are queued behind. *)
Fixpoint link_loop (fuel : nat) (cm : ChainstateManager) (queue : list Z) : ChainstateManager :=
  match fuel, queue with
  | S fuel', h :: queue' =>
      match m_block_index cm !! h with
      | None => cm
      | Some b =>
          let seq := nBlockSequenceId cm in
          let st := <[h := set_counts (nTx b) (prev_tx_sum (m_block_index cm) b) seq b]>
                      (m_block_index cm) in
          let cands := TryAddBlockIndexCandidate address st (m_chain cm)
                         (setBlockIndexCandidates cm) h in
          let waiting := filter (λ e : Z * Z, e.1 = h) (m_blocks_unlinked cm) in
          link_loop fuel'
            (with_candidates (with_index cm st)
               (filter (λ e : Z * Z, e.1 ≠ h) (m_blocks_unlinked cm)) (s32 (seq + 1)) cands)
            (queue' ++ waiting.*2)
      end
  | _, _ => cm
  end.

Definition received_entry (st : BlockMap) (vtx_size : Z) (b : CBlockIndex) : CBlockIndex :=
  let b1 := set_counts vtx_size (m_chain_tx_count b) (nSequenceId b) b in
  let count := if (m_chain_tx_count b =? 0) || (m_chain_tx_count b =? prev_tx_sum st b1)
               then m_chain_tx_count b else 0 in
  let s1 := Z.lor (nStatus b) BLOCK_HAVE_DATA in
  let s2 := if SegwitHeight params <=? nHeight b then Z.lor s1 BLOCK_OPT_WITNESS else s1 in
  set_nStatus (RaiseValidity s2 BLOCK_VALID_TRANSACTIONS)
    (set_counts vtx_size count (nSequenceId b) b).

Definition ReceivedBlockTransactions (cm : ChainstateManager) (hash vtx_size : Z)
    : ChainstateManager :=
  match m_block_index cm !! hash with
  | None => cm
  | Some b0 =>
      let b := received_entry (m_block_index cm) vtx_size b0 in
      let cm' := with_index cm (<[hash := b]> (m_block_index cm)) in
      let link := link_loop (S (length (m_blocks_unlinked cm))) cm' [hash] in
      match pprev b with
      | None => link
      | Some p =>
          match m_block_index cm' !! p with
          | Some pb =>
              if negb (m_chain_tx_count pb =? 0) then link
              else if IsValid pb BLOCK_VALID_TREE
              then with_candidates cm' (m_blocks_unlinked cm ++ [(p, hash)]) (nBlockSequenceId cm)
                     (setBlockIndexCandidates cm)
              else cm'
          | None => cm'
          end
      end
  end.

Definition tips_stage (cm : ChainstateManager) (hash : Z) : ChainstateManager :=
  match m_block_index cm !! hash with
  | Some b =>
      if dag_mode then
        mkChainman (m_block_index cm) (m_best_header cm) (m_best_invalid cm) (m_failed_blocks cm)
          (m_blocks_unlinked cm) (nBlockSequenceId cm) (setBlockIndexCandidates cm) (m_chain cm)
          (BlockConnected (m_dag_tips cm) hash (blue_score (dagData b))
             (Index_GetParents (m_block_index cm) hash))
          (g_early_protection cm)
      else cm
  | None => cm
  end.

(** ** [AcceptBlock] *)

(** The transactions of a block, and what is done with them elsewhere. *)
Context {Body : Type} (vtx_size : Body → Z).
Context (CheckBlock : CBlockHeader → Body → option Failure).
Context (ContextualCheckBlock : BlockMap → CBlockHeader → Body → option Z → option Failure).
Context (SaveBlockToDisk : CBlockHeader → Body → Z → bool).

(** Blocks that are not processed although the header is accepted. *)
Definition skip_block (cm : ChainstateManager) (b : CBlockIndex) (fRequested : bool) : bool :=
  let tip := Tip (m_chain cm) ≫= (m_block_index cm !!.) in
  let fAlreadyHave := negb (Z.land (nStatus b) BLOCK_HAVE_DATA =? 0) in
  let fHasMoreOrSameWork :=
    match tip with Some t => nChainWork t <=? nChainWork b | None => true end in
  let fTooFarAhead := Height (m_chain cm) + MIN_BLOCKS_TO_KEEP <? nHeight b in
  fAlreadyHave ||
  negb fRequested && (negb (nTx b =? 0) || negb fHasMoreOrSameWork || fTooFarAhead ||
                      (nChainWork b <? MinimumChainWork opts)).

Definition check_body (st : BlockMap) (block : CBlockHeader) (body : Body) (prev : option Z)
    : option Failure :=
  match CheckBlock block body with
  | Some f => Some f
  | None => ContextualCheckBlock st block body prev
  end.

Definition body_failed (cm : ChainstateManager) (hash : Z) (b : CBlockIndex) (f : Failure)
    : ChainstateManager :=
  match f with
  | Invalid r _ =>
      if bool_decide (r = BLOCK_MUTATED) then cm
      else with_index cm
             (<[hash := set_nStatus (Z.lor (nStatus b) BLOCK_FAILED_VALID) b]> (m_block_index cm))
  | _ => cm
  end.

(** The value tells whether the genesis block is loaded. *)
Definition LoadGenesisBlock (cm : ChainstateManager) (block : CBlockHeader) (body : Body)
    : ChainstateManager * bool :=
  let hash := GetHash SHA256d block in
  match m_block_index cm !! hash with
  | Some _ => (cm, true)
  | None =>
      if SaveBlockToDisk block body 0
      then (ReceivedBlockTransactions (add_header_entry cm hash block) hash (vtx_size body), true)
      else (cm, false)
  end.

(** The value is [fNewBlock]. *)
Definition AcceptBlock (cm : ChainstateManager) (block : CBlockHeader) (body : Body)
    (fRequested min_pow_checked : bool) (now rand : Z) : ChainstateManager * (bool + Failure) :=
  match AcceptBlockHeader cm block min_pow_checked now with
  | (cm, inr f) => (cm, inr f)
  | (cm, inl hash) =>
      match m_block_index cm !! hash with
      | None => (cm, inr Abort)
      | Some b =>
          if skip_block cm b fRequested then (cm, inl false)
          else
            match check_body (m_block_index cm) block body (pprev b) with
            | Some f => (body_failed cm hash b f, inr f)
            | None =>
                match dag_stage cm hash block with
                | (cm, Some f) => (cm, inr f)
                | (cm, None) =>
                    let cm := early_stage cm hash now rand in
                    if SaveBlockToDisk block body (nHeight b)
                    then (tips_stage (ReceivedBlockTransactions cm hash (vtx_size body)) hash,
                          inl true)
                    else (cm, inr SystemError)
                end
            end
      end
  end.
End accept.

(** ** The stages keep the chain *)

(** Every view of the entries that does not show what a stage assigns is kept. *)
Section views.
Context {A : Type} (f : CBlockIndex → A).

Lemma mark_failed_child_view fuel : (∀ b, f b = f (set_nStatus (Z.lor (nStatus b) BLOCK_FAILED_CHILD) b)) →
  ∀ st walk failed, f <$> st = f <$> mark_failed_child fuel st walk failed.
Proof.
  intros Hf. induction fuel as [|fuel IH]; intros st walk failed; [done|]. simpl.
  destruct (walk =? failed); [done|]. destruct (st !! walk) as [b|] eqn:Hb; [|done].
  pose proof (fmap_insert_same f st walk b _ Hb (Hf b)) as H.
  destruct (pprev b); [|done]. rewrite H. apply IH.
Qed.

Lemma descends_from_failed_view st prev prev_b failed st' :
  (∀ b, f b = f (set_nStatus (Z.lor (nStatus b) BLOCK_FAILED_CHILD) b)) →
  descends_from_failed st prev prev_b failed = Some (Some st') → f <$> st = f <$> st'.
Proof.
  intros Hf. induction failed as [|g failed IH]; [done|]. cbn [descends_from_failed].
  destruct (st !! g); [|done]. destruct (bool_decide _); [|done]. destruct (_ =? 0); [done|].
  intros <-%(inj Some)%(inj Some). by apply mark_failed_child_view.
Qed.

Context (f_counts : ∀ tx c s b, f b = f (set_counts tx c s b)).

Lemma link_loop_view address fuel : ∀ cm queue,
  f <$> m_block_index cm = f <$> m_block_index (link_loop address fuel cm queue).
Proof.
  induction fuel as [|fuel IH]; intros cm queue; [done|]. cbn [link_loop].
  destruct queue as [|h queue]; [done|]. destruct (m_block_index cm !! h) as [b|] eqn:Hb; [|done].
  rewrite <- IH. simpl. by apply (fmap_insert_same _ _ _ b).
Qed.

(** Receiving the transactions: the entry is replaced, then blocks are linked. *)
Lemma Received_view params address cm hash n b :
  m_block_index cm !! hash = Some b →
  f <$> <[hash := received_entry params (m_block_index cm) n b]> (m_block_index cm) =
  f <$> m_block_index (ReceivedBlockTransactions params address cm hash n).
Proof.
  intros Hb. unfold ReceivedBlockTransactions. rewrite Hb. cbv zeta.
  set (cm' := with_index cm (<[hash := _]> _)).
  pose proof (link_loop_view address (S (length (m_blocks_unlinked cm))) cm' [hash]) as Hl.
  by repeat case_match.
Qed.

Context (f_status : ∀ s b, f b = f (set_nStatus s b)) (f_weight : ∀ w b, f b = f (set_weight w b)).

Lemma ReceivedBlockTransactions_view params address cm hash n :
  f <$> m_block_index cm = f <$> m_block_index (ReceivedBlockTransactions params address cm hash n).
Proof.
  destruct (m_block_index cm !! hash) as [b|] eqn:Hb.
  - rewrite <- (Received_view params address cm hash n b Hb). apply (fmap_insert_same _ _ _ b); [done|].
    unfold received_entry. by rewrite <- f_status, <- f_counts.
  - unfold ReceivedBlockTransactions. by rewrite Hb.
Qed.

Lemma early_stage_view params opts cm hash now rand :
  f <$> m_block_index cm = f <$> m_block_index (early_stage params opts cm hash now rand).
Proof.
  unfold early_stage. destruct (m_block_index cm !! hash) as [b|] eqn:Hb; [|done].
  destruct (_ && _); [|done]. repeat case_match; simpl; by apply (fmap_insert_same _ _ _ b).
Qed.
End views.

Lemma score_stage_links params st hash :
  dag_links <$> st = dag_links <$> (score_stage params st hash).1.
Proof.
  unfold score_stage. destruct (st !! hash) as [b|] eqn:Hb; [|done].
  repeat case_match; simpl; try done; by apply (fmap_insert_same _ _ _ b).
Qed.

Lemma resolve_parents_spec st ps :
  (∀ p, Some p ∈ (resolve_parents st ps).1 → is_Some (st !! p)) ∧
  ((resolve_parents st ps).2 = None → (resolve_parents st ps).1 = Some <$> ps).
Proof.
  induction ps as [|p ps [IH1 IH2]]; simpl.
  - split; [intros p Hp; by apply elem_of_nil in Hp|done].
  - destruct (st !! p) as [b|] eqn:Hb; [|split; [intros q Hq; by apply elem_of_nil in Hq|done]].
    destruct (IsFailed b); [split; [intros q Hq; by apply elem_of_nil in Hq|done]|].
    destruct (resolve_parents st ps) as [l f]. cbn [fst snd] in *. split.
    + intros q [[= ->]|Hq]%elem_of_cons; [by eauto|by apply IH1].
    + intros ->. by rewrite IH2.
Qed.

Lemma resolve_stage_ok st hash b block :
  st !! hash = Some b → index_closed st →
  links <$> st = links <$> (resolve_stage st hash b block).1 ∧
  index_closed (resolve_stage st hash b block).1.
Proof.
  intros Hb Hc. unfold resolve_stage. destruct (_ && _); [|done].
  pose proof (resolve_parents_spec st (hdr_hashParents block)) as [Hl _].
  destruct (resolve_parents _ _) as [l f]. cbn [fst] in *.
  split; [by apply (fmap_insert_same _ _ _ b)|].
  assert (Hknown : ∀ p, is_Some (st !! p) → is_Some (<[hash:=set_vDagParents l b]> st !! p)).
  { intros p [c Hp]. destruct (decide (hash = p)) as [<-|Hne].
    - rewrite lookup_insert_eq. eauto.
    - rewrite lookup_insert_ne by done. eauto. }
  intros h c p Hc' Hp. apply Hknown. unfold Index_GetParents in Hp.
  destruct (decide (hash = h)) as [<-|Hne].
  - rewrite lookup_insert_eq in Hp. simpl in Hp. apply elem_of_app in Hp as [Hp|Hp].
    + apply (Hc hash b); [done|]. unfold Index_GetParents. rewrite Hb. by apply elem_of_app; left.
    + apply list_elem_of_omap in Hp as (o & Ho & Hid). simpl in Hid. subst o. by apply Hl.
  - rewrite lookup_insert_ne in Hp, Hc' by done. apply (Hc h c); [done|].
    unfold Index_GetParents. by rewrite Hc' in Hp |- *.
Qed.
