(* ===== verification/BlockCheck.v ===== *)
(** * Checks of the contents of a block: src/src/validation.cpp and
    src/src/consensus/validation.h

    [CheckBlock] and [ContextualCheckBlock], the checks for contents that were changed on
    the way ([CheckMerkleRoot], [CheckWitnessMalleation], [IsBlockMutated]) and the making
    of the witness commitment.  A block object remembers which checks it has passed; the
    model keeps these flags and the properties show that they never change a result. *)

From Stdlib Require Import String.
From S2P Require Import Prelude OrdSet TipSet Arith256 Serialize BlockHeader Formats Ghostdag Mergeset.
From S2P Require Import BlockIndex BlockIndexProvider GhostdagProps Pow Subsidy Transaction Script Merkle.
From S2P Require Import EarlyProtection Chainman Accept.

Local Open Scope Z_scope.

(** ** Data *)

Record CBlock := mkBlock {
  blk_header : CBlockHeader;
  blk_vtx : list CTransaction;
  fChecked : bool;
  m_checked_witness_commitment : bool;
  m_checked_merkle_root : bool
}.

(** A block that nothing has been checked of. *)
Definition new_block (header : CBlockHeader) (vtx : list CTransaction) : CBlock :=
  mkBlock header vtx false false false.

Definition set_fChecked (b : CBlock) : CBlock :=
  mkBlock (blk_header b) (blk_vtx b) true (m_checked_witness_commitment b) (m_checked_merkle_root b).
Definition set_checked_witness (b : CBlock) : CBlock :=
  mkBlock (blk_header b) (blk_vtx b) (fChecked b) true (m_checked_merkle_root b).
Definition set_checked_merkle (b : CBlock) : CBlock :=
  mkBlock (blk_header b) (blk_vtx b) (fChecked b) (m_checked_witness_commitment b) true.

Definition SerializeBlock (fAllowWitness : bool) (header : CBlockHeader) (vtx : list CTransaction)
    : list Z :=
  SerializeHeader header ++ WriteCompactSize (Z.of_nat (length vtx)) ++
  concat (SerializeTransaction fAllowWitness <$> vtx).

Definition UnserializeBlock (fAllowWitness : bool) : parser (CBlockHeader * list CTransaction) :=
  header ← UnserializeHeader null_header;
  size ← ReadCompactSize;
  vtx ← read_n (Z.to_nat size) (UnserializeTransaction fAllowWitness);
  mret (header, vtx).

Definition BlockSerializeSize (fAllowWitness : bool) (header : CBlockHeader)
    (vtx : list CTransaction) : Z := Z.of_nat (length (SerializeBlock fAllowWitness header vtx)).

Definition GetBlockWeight (header : CBlockHeader) (vtx : list CTransaction) : Z :=
  s64 (u64 (BlockSerializeSize false header vtx * (WITNESS_SCALE_FACTOR - 1) +
            BlockSerializeSize true header vtx)).

Definition MINIMUM_WITNESS_COMMITMENT : nat := 38.
Definition MAX_BLOCK_SIGOPS_COST : Z := 80000.
Definition LOCKTIME_THRESHOLD : Z := 500000000.
Definition SEQUENCE_FINAL : Z := 0xffffffff.

(** The consensus parameters that only these checks read. *)
Record BodyParams := mkBodyParams {
  CSVHeight : Z;
  nMaxBlockWeightPQC : Z;
  signet_blocks : bool
}.

(** ** The witness commitment *)

Definition is_commitment (script : list Z) : bool :=
  (MINIMUM_WITNESS_COMMITMENT <=? length script)%nat &&
  (byte_at script 0 =? OP_RETURN) && (byte_at script 1 =? 0x24) && (byte_at script 2 =? 0xaa) &&
  (byte_at script 3 =? 0x21) && (byte_at script 4 =? 0xa9) && (byte_at script 5 =? 0xed).

Fixpoint commitment_index (o : nat) (outs : list CTxOut) (commitpos : option nat) : option nat :=
  match outs with
  | [] => commitpos
  | out :: outs' =>
      commitment_index (S o) outs'
        (if is_commitment (scriptPubKey out) then Some o else commitpos)
  end.

(** The last output that commits; [None] is [NO_WITNESS_COMMITMENT]. *)
Definition GetWitnessCommitmentIndex (vtx : list CTransaction) : option nat :=
  match vtx with
  | [] => None
  | coinbase :: _ => commitment_index 0 (vout coinbase) None
  end.

(** ** Locks and signature operations *)

Definition IsFinalTx (tx : CTransaction) (nBlockHeight nBlockTime : Z) : bool :=
  if nLockTime tx =? 0 then true
  else if nLockTime tx <? (if nLockTime tx <? LOCKTIME_THRESHOLD then nBlockHeight else nBlockTime)
  then true
  else forallb (λ txin, nSequence txin =? SEQUENCE_FINAL) (vin tx).

Definition GetLegacySigOpCount (tx : CTransaction) : Z :=
  let ins := fold_left (λ n txin, u32 (n + GetSigOpCount false (scriptSig txin))) (vin tx) 0 in
  fold_left (λ n txout, u32 (n + GetSigOpCount false (scriptPubKey txout))) (vout tx) ins.

(** ** Checks *)

Section checks.
Context (SHA256d : list Z → Z) (params : Params) (bparams : BodyParams).
Context (CheckSignetBlockSolution : CBlockHeader → list CTransaction → bool).

Definition CheckMerkleRoot (b : CBlock) : CBlock * option Failure :=
  if m_checked_merkle_root b then (b, None)
  else
    let '(merkle_root, mutated) := BlockMerkleRoot SHA256d (blk_vtx b) in
    if negb (hdr_hashMerkleRoot (blk_header b) =? merkle_root)
    then (b, Some (Invalid BLOCK_MUTATED "bad-txnmrklroot"))
    else if mutated then (b, Some (Invalid BLOCK_MUTATED "bad-txns-duplicate"))
    else (set_checked_merkle b, None).

(** The hash of the witness root and the reserved value. *)
Definition commitment_hash (vtx : list CTransaction) (nonce : list Z) : Z :=
  SHA256d (write_uint256 (BlockWitnessMerkleRoot SHA256d vtx).1 ++ nonce).

(** The bytes of the commitment in the output. *)
Definition commitment_bytes (coinbase : CTransaction) (commitpos : nat) : list Z :=
  match vout coinbase !! commitpos with
  | Some out => take 32 (drop 6 (scriptPubKey out))
  | None => []
  end.

(** With a commitment; the failed assertions are [Abort]. *)
Definition check_commitment (vtx : list CTransaction) (commitpos : nat) : option Failure :=
  match vtx with
  | [] => Some Abort
  | coinbase :: _ =>
      match vin coinbase with
      | [] => Some Abort
      | input :: _ =>
          match scriptWitness input with
          | [nonce] =>
              if negb (length nonce =? 32)%nat
              then Some (Invalid BLOCK_MUTATED "bad-witness-nonce-size")
              else if bool_decide (write_uint256 (commitment_hash vtx nonce)
                                   = commitment_bytes coinbase commitpos)
              then None
              else Some (Invalid BLOCK_MUTATED "bad-witness-merkle-match")
          | _ => Some (Invalid BLOCK_MUTATED "bad-witness-nonce-size")
          end
      end
  end.

Definition no_witness (vtx : list CTransaction) : option Failure :=
  if existsb HasWitness vtx then Some (Invalid BLOCK_MUTATED "unexpected-witness") else None.

Definition CheckWitnessMalleation (b : CBlock) (expect_witness_commitment : bool)
    : CBlock * option Failure :=
  if expect_witness_commitment then
    if m_checked_witness_commitment b then (b, None)
    else match GetWitnessCommitmentIndex (blk_vtx b) with
         | Some commitpos =>
             match check_commitment (blk_vtx b) commitpos with
             | Some f => (b, Some f)
             | None => (set_checked_witness b, None)
             end
         | None => (b, no_witness (blk_vtx b))
         end
  else (b, no_witness (blk_vtx b)).

Definition IsBlockMutated (b : CBlock) (check_witness_root : bool) : CBlock * bool :=
  match CheckMerkleRoot b with
  | (b, Some _) => (b, true)
  | (b, None) =>
      if match blk_vtx b with [] => true | coinbase :: _ => negb (IsCoinBase coinbase) end
      then (b, existsb (λ tx, TxSerializeSize false tx =? 64) (blk_vtx b))
      else match CheckWitnessMalleation b check_witness_root with
           | (b, Some _) => (b, true)
           | (b, None) => (b, false)
           end
  end.

(** The loop over the transactions; the reason is the transaction's. *)
Fixpoint check_transactions (vtx : list CTransaction) : option Failure :=
  match vtx with
  | [] => None
  | tx :: vtx' =>
      match CheckTransaction tx with
      | Some reason => Some (Invalid BLOCK_CONSENSUS reason)
      | None => check_transactions vtx'
      end
  end.

Definition block_sigops (vtx : list CTransaction) : Z :=
  fold_left (λ n tx, u32 (n + GetLegacySigOpCount tx)) vtx 0.

(** The part of [CheckBlock] after the merkle root. *)
Definition check_contents (header : CBlockHeader) (vtx : list CTransaction) : option Failure :=
  if (length vtx =? 0)%nat ||
     (MAX_BLOCK_WEIGHT <? u64 (Z.of_nat (length vtx) * WITNESS_SCALE_FACTOR)) ||
     (MAX_BLOCK_WEIGHT <? u64 (BlockSerializeSize false header vtx * WITNESS_SCALE_FACTOR))
  then Some (Invalid BLOCK_CONSENSUS "bad-blk-length")
  else if match vtx with [] => true | coinbase :: _ => negb (IsCoinBase coinbase) end
  then Some (Invalid BLOCK_CONSENSUS "bad-cb-missing")
  else if existsb IsCoinBase (tail vtx) then Some (Invalid BLOCK_CONSENSUS "bad-cb-multiple")
  else match check_transactions vtx with
       | Some f => Some f
       | None =>
           if MAX_BLOCK_SIGOPS_COST <? u32 (block_sigops vtx * WITNESS_SCALE_FACTOR)
           then Some (Invalid BLOCK_CONSENSUS "bad-blk-sigops") else None
       end.

Definition CheckBlock (b : CBlock) (fCheckPOW fCheckMerkleRoot : bool) : CBlock * option Failure :=
  if fChecked b then (b, None)
  else
    match (if fCheckPOW then CheckBlockHeader SHA256d params (blk_header b) else None) with
    | Some f => (b, Some f)
    | None =>
        if signet_blocks bparams && fCheckPOW &&
           negb (CheckSignetBlockSolution (blk_header b) (blk_vtx b))
        then (b, Some (Invalid BLOCK_CONSENSUS "bad-signet-blksig"))
        else
          match (if fCheckMerkleRoot then CheckMerkleRoot b else (b, None)) with
          | (b, Some f) => (b, Some f)
          | (b, None) =>
              match check_contents (blk_header b) (blk_vtx b) with
              | Some f => (b, Some f)
              | None => (if fCheckPOW && fCheckMerkleRoot then set_fChecked b else b, None)
              end
          end
    end.

(** [DeploymentActiveAfter] for the deployments with a height. *)
Definition ActiveAfter (height deployment_height : Z) : bool := deployment_height <=? height.

(** The coinbase script starts with the height. *)
Definition height_in_coinbase (vtx : list CTransaction) (height : Z) : option Failure :=
  match vtx with
  | [] => Some Abort
  | coinbase :: _ =>
      match vin coinbase with
      | [] => Some Abort
      | input :: _ =>
          let expect := push_int64 height in
          if (length (scriptSig input) <? length expect)%nat ||
             negb (bool_decide (expect = take (length expect) (scriptSig input)))
          then Some (Invalid BLOCK_CONSENSUS "bad-cb-height") else None
      end
  end.

Definition check_weight (header : CBlockHeader) (vtx : list CTransaction) : option Failure :=
  let block_weight := GetBlockWeight header vtx in
  if MAX_BLOCK_WEIGHT <? block_weight then Some (Invalid BLOCK_CONSENSUS "bad-blk-weight")
  else if (0 <? nMaxBlockWeightPQC bparams) && (nMaxBlockWeightPQC bparams <? block_weight)
  then Some (Invalid BLOCK_CONSENSUS "bad-pqc-blk-weight") else None.

Definition block_height (st : BlockMap) (prev : option Z) : Z :=
  match prev ≫= (st !!.) with Some prev_b => nHeight prev_b + 1 | None => 0 end.

(** [None] is the failed assertion that the genesis block has no median time. *)
Definition lock_time_cutoff (st : BlockMap) (header : CBlockHeader) (prev : option Z) : option Z :=
  if ActiveAfter (block_height st prev) (CSVHeight bparams)
  then GetMedianTimePast st <$> prev else Some (hdr_nTime header).

Definition ContextualCheckBlock (st : BlockMap) (b : CBlock) (prev : option Z)
    : CBlock * option Failure :=
  let height := block_height st prev in
  match lock_time_cutoff st (blk_header b) prev with
  | None => (b, Some Abort)
  | Some cutoff =>
      if negb (forallb (λ tx, IsFinalTx tx height cutoff) (blk_vtx b))
      then (b, Some (Invalid BLOCK_CONSENSUS "bad-txns-nonfinal"))
      else
        match (if ActiveAfter height (BIP34Height params)
               then height_in_coinbase (blk_vtx b) height else None) with
        | Some f => (b, Some f)
        | None =>
            match CheckWitnessMalleation b (ActiveAfter height (SegwitHeight params)) with
            | (b, Some f) => (b, Some f)
            | (b, None) => (b, check_weight (blk_header b) (blk_vtx b))
            end
        end
  end.

(** The two checks [AcceptBlock] makes of a block. *)
Definition check_block (st : BlockMap) (b : CBlock) (prev : option Z) : CBlock * option Failure :=
  match CheckBlock b true true with
  | (b, Some f) => (b, Some f)
  | (b, None) => ContextualCheckBlock st b prev
  end.

(** [AcceptBlock] with these checks of the contents. *)
Definition AcceptFullBlock (hashGenesisBlock : Z) (opts : Options) (address : Z → Z)
    (SaveBlockToDisk : CBlockHeader → list CTransaction → Z → bool) (cm : ChainstateManager)
    (header : CBlockHeader) (vtx : list CTransaction) (fRequested min_pow_checked : bool)
    (now rand : Z) : ChainstateManager * (bool + Failure) :=
  AcceptBlock SHA256d hashGenesisBlock params opts address (λ vtx, Z.of_nat (length vtx))
    (λ header vtx, (CheckBlock (new_block header vtx) true true).2)
    (λ st header vtx prev, (ContextualCheckBlock st (new_block header vtx) prev).2)
    SaveBlockToDisk cm header vtx fRequested min_pow_checked now rand.

(** ** Making the commitment *)

Definition set_first_witness (tx : CTransaction) (stack : list (list Z)) : CTransaction :=
  match vin tx with
  | [] => tx
  | i :: ins => mkTransaction (set_witness i stack :: ins) (vout tx) (version tx) (nLockTime tx)
  end.

(** [active] tells whether witnesses are active after the previous block. *)
Definition UpdateUncommittedBlockStructures (vtx : list CTransaction) (active : bool)
    : list CTransaction :=
  match vtx with
  | coinbase :: rest =>
      if bool_decide (GetWitnessCommitmentIndex vtx ≠ None) && active && negb (HasWitness coinbase)
      then set_first_witness coinbase [replicate 32 0] :: rest
      else vtx
  | [] => []
  end.

Definition commitment_script (root : Z) : list Z :=
  [OP_RETURN; 0x24; 0xaa; 0x21; 0xa9; 0xed] ++ write_uint256 root.

(** The transactions with the commitment, and the script, empty if there was one before. *)
Definition GenerateCoinbaseCommitment (vtx : list CTransaction) (active : bool)
    : list CTransaction * list Z :=
  match vtx, GetWitnessCommitmentIndex vtx with
  | coinbase :: rest, None =>
      let witnessroot := commitment_hash vtx (replicate 32 0) in
      let script := commitment_script witnessroot in
      let coinbase :=
        mkTransaction (vin coinbase) (vout coinbase ++ [mkTxOut 0 script]) (version coinbase)
          (nLockTime coinbase) in
      (UpdateUncommittedBlockStructures (coinbase :: rest) active, script)
  | _, _ => (UpdateUncommittedBlockStructures vtx active, [])
  end.

(** ** The flags *)

Definition bare (b : CBlock) : CBlock := new_block (blk_header b) (blk_vtx b).

(** A flag is set only on a block that passes the check. *)
Record flags_ok (b : CBlock) : Prop := {
  flag_merkle : m_checked_merkle_root b = true → (CheckMerkleRoot (bare b)).2 = None;
  flag_witness :
    m_checked_witness_commitment b = true → (CheckWitnessMalleation (bare b) true).2 = None;
  flag_checked : fChecked b = true → (CheckBlock (bare b) true true).2 = None
}.

(** The result is that of a block without flags, and the new flags are right. *)
Definition transparent (b : CBlock) (r : CBlock * option Failure) (bare_result : option Failure)
    : Prop :=
  r.2 = bare_result ∧ bare r.1 = bare b ∧ flags_ok r.1.

Lemma flags_ok_bare b : flags_ok (bare b).
Proof. by split. Qed.

Lemma CheckMerkleRoot_flags b :
  flags_ok b → transparent b (CheckMerkleRoot b) (CheckMerkleRoot (bare b)).2.
Proof.
  intros Hb. unfold CheckMerkleRoot at 1. destruct (m_checked_merkle_root b) eqn:E.
  { destruct Hb. unfold transparent. cbn [fst snd]. by rewrite flag_merkle0. }
  assert (Hbare : (CheckMerkleRoot (bare b)).2 =
    let '(merkle_root, mutated) := BlockMerkleRoot SHA256d (blk_vtx b) in
    if negb (hdr_hashMerkleRoot (blk_header b) =? merkle_root)
    then Some (Invalid BLOCK_MUTATED "bad-txnmrklroot")
    else if mutated then Some (Invalid BLOCK_MUTATED "bad-txns-duplicate") else None).
  { unfold CheckMerkleRoot. cbn [bare new_block m_checked_merkle_root blk_vtx blk_header].
    destruct (BlockMerkleRoot SHA256d (blk_vtx b)) as [r m]. by destruct (negb _), m. }
  destruct (BlockMerkleRoot SHA256d (blk_vtx b)) as [r m] eqn:Er.
  destruct (negb _) eqn:En; [by rewrite Hbare|]. destruct m; [by rewrite Hbare|].
  split_and!; [by rewrite Hbare|done|]. destruct Hb. by split.
Qed.

Lemma CheckWitnessMalleation_flags b expect :
  flags_ok b →
  transparent b (CheckWitnessMalleation b expect) (CheckWitnessMalleation (bare b) expect).2.
Proof.
  intros Hb. unfold CheckWitnessMalleation at 1. destruct expect; [|done].
  destruct (m_checked_witness_commitment b) eqn:E.
  { destruct Hb. unfold transparent. cbn [fst snd]. by rewrite flag_witness0. }
  assert (Hbare : (CheckWitnessMalleation (bare b) true).2 =
    match GetWitnessCommitmentIndex (blk_vtx b) with
    | Some commitpos => check_commitment (blk_vtx b) commitpos
    | None => no_witness (blk_vtx b)
    end).
  { unfold CheckWitnessMalleation. cbn [bare new_block m_checked_witness_commitment blk_vtx].
    destruct (GetWitnessCommitmentIndex _); [|done]. by destruct (check_commitment _ _). }
  destruct (GetWitnessCommitmentIndex (blk_vtx b)) as [pos|]; [|by rewrite Hbare].
  destruct (check_commitment (blk_vtx b) pos) eqn:Ec; [by rewrite Hbare|].
  split_and!; [by rewrite Hbare|done|]. destruct Hb. by split.
Qed.

(** What [CheckBlock] does without the flag, by the result of the merkle check. *)
Lemma CheckBlock_bare b p m :
  (CheckBlock (bare b) p m).2 =
  match (if p then CheckBlockHeader SHA256d params (blk_header b) else None) with
  | Some f => Some f
  | None =>
      if signet_blocks bparams && p && negb (CheckSignetBlockSolution (blk_header b) (blk_vtx b))
      then Some (Invalid BLOCK_CONSENSUS "bad-signet-blksig")
      else match (if m then (CheckMerkleRoot (bare b)).2 else None) with
           | Some f => Some f
           | None => check_contents (blk_header b) (blk_vtx b)
           end
  end.
Proof.
  unfold CheckBlock. cbn [bare new_block fChecked blk_header blk_vtx].
  destruct (if p then _ else _); [done|]. destruct (_ && _ && _); [done|]. destruct m.
  - destruct (CheckMerkleRoot_flags (bare b) (flags_ok_bare b)) as (_ & Hb & _).
    change (new_block (blk_header b) (blk_vtx b)) with (bare b) in *.
    destruct (CheckMerkleRoot (bare b)) as [b' [f|]]; [done|]. cbn [fst snd] in *.
    destruct b'. injection Hb as -> ->. cbn [blk_header blk_vtx]. by destruct (check_contents _ _).
  - cbn [blk_header blk_vtx new_block]. by destruct (check_contents _ _).
Qed.

Lemma CheckBlock_bare_mono b p m :
  (CheckBlock (bare b) true true).2 = None → (CheckBlock (bare b) p m).2 = None.
Proof.
  rewrite !CheckBlock_bare. destruct (CheckBlockHeader _ _ _); [done|].
  destruct (signet_blocks bparams); cbn [andb]; [destruct (CheckSignetBlockSolution _ _); [|done]|];
    cbn [negb andb]; (destruct (CheckMerkleRoot (bare b)).2; [done|]); intros H;
    destruct p, m; cbn [andb]; done.
Qed.

Lemma CheckBlock_flags b p m :
  flags_ok b → transparent b (CheckBlock b p m) (CheckBlock (bare b) p m).2.
Proof.
  intros Hb. destruct (fChecked b) eqn:E.
  { unfold CheckBlock at 1. rewrite E. split_and!; [|done|done]. symmetry. apply CheckBlock_bare_mono. by apply Hb. }
  rewrite CheckBlock_bare. unfold CheckBlock. rewrite E.
  destruct (if p then _ else _) eqn:Ep; [done|]. destruct (_ && _ && _) eqn:Es; [done|]. destruct m.
  - destruct (CheckMerkleRoot_flags b Hb) as (Hr & Hc & Hf). rewrite <- Hr.
    destruct (CheckMerkleRoot b) as [b' [f|]] eqn:Em; cbn [fst snd] in *; [done|].
    assert (blk_header b' = blk_header b ∧ blk_vtx b' = blk_vtx b) as [Eh Ev] by (by injection Hc).
    rewrite Eh, Ev. destruct (check_contents _ _) eqn:Ec; [done|]. destruct p; [|done]. cbn [andb].
    split_and!; [done|done|]. cbn [fst]. destruct Hf. split; [done..|]. intros _.
    change (bare (set_fChecked b')) with (bare b'). rewrite Hc, CheckBlock_bare, Ep, Es, <- Hr. done.
  - destruct (check_contents _ _); [done|]. rewrite andb_false_r. done.
Qed.

Lemma ContextualCheckBlock_flags st b prev :
  flags_ok b → transparent b (ContextualCheckBlock st b prev) (ContextualCheckBlock st (bare b) prev).2.
Proof.
  intros Hb. unfold ContextualCheckBlock. cbn [bare new_block blk_header blk_vtx].
  destruct (lock_time_cutoff _ _ _) as [cutoff|]; [|done].
  destruct (negb (forallb _ _)); [done|]. destruct (if ActiveAfter _ _ then _ else _); [done|].
  set (ex := ActiveAfter _ (SegwitHeight params)).
  destruct (CheckWitnessMalleation_flags b ex Hb) as (Hr & Hc & Hf).
  destruct (CheckWitnessMalleation_flags (bare b) ex (flags_ok_bare b)) as (_ & Hc' & _).
  change (new_block (blk_header b) (blk_vtx b)) with (bare b).
  destruct (CheckWitnessMalleation b ex) as [b1 r1], (CheckWitnessMalleation (bare b) ex) as [b2 r2].
  cbn [fst snd] in *. subst r2. destruct r1; [done|].
  assert (blk_header b1 = blk_header b ∧ blk_vtx b1 = blk_vtx b) as [-> ->] by (by injection Hc).
  assert (blk_header b2 = blk_header b ∧ blk_vtx b2 = blk_vtx b) as [-> ->] by (by injection Hc').
  done.
Qed.
End checks.
