(* ===== verification/BlockCheckProps.v ===== *)
(** * What a block's hash commits to, and what its contents are checked for

    Properties of the checks of BlockCheck: the flags of a block object change no result,
    the hash of a block commits to its transactions and their witnesses, changed contents
    are never blamed on the header, and what the accepted contents satisfy. *)

From Stdlib Require Import String.
From S2P Require Import Prelude OrdSet TipSet Arith256 Serialize BlockHeader Formats Ghostdag Mergeset.
From S2P Require Import BlockIndex BlockIndexProvider GhostdagProps Pow Subsidy Transaction Script Merkle.
From S2P Require Import EarlyProtection Chainman Accept BlockCheck.

Local Open Scope Z_scope.

(** ** Transactions without their witnesses *)

Lemma strip_IsCoinBase tx : IsCoinBase (strip_witness tx) = IsCoinBase tx.
Proof. unfold IsCoinBase. cbn [strip_witness vin]. by destruct (vin tx) as [|i [|]]. Qed.

Lemma strip_size tx : TxSerializeSize false (strip_witness tx) = TxSerializeSize false tx.
Proof. unfold TxSerializeSize. by rewrite SerializeTransaction_strip. Qed.

Lemma check_duplicates_strip ins seen : check_duplicates (strip <$> ins) seen = check_duplicates ins seen.
Proof.
  revert seen. induction ins as [|i ins IH]; intros seen; [done|]. rewrite fmap_cons. cbn [check_duplicates].
  change (prevout (strip i)) with (prevout i). by rewrite IH.
Qed.

Lemma existsb_fmap {A B} (f : B → bool) (g : A → B) l : existsb f (g <$> l) = existsb (λ x, f (g x)) l.
Proof. induction l as [|x l IH]; [done|]. rewrite fmap_cons. cbn [existsb]. by rewrite IH. Qed.

Lemma forallb_fmap {A B} (f : B → bool) (g : A → B) l : forallb f (g <$> l) = forallb (λ x, f (g x)) l.
Proof. induction l as [|x l IH]; [done|]. rewrite fmap_cons. cbn [forallb]. by rewrite IH. Qed.

Lemma fold_left_fmap {A B C} (f : C → B → C) (g : A → B) l c :
  fold_left f (g <$> l) c = fold_left (λ c x, f c (g x)) l c.
Proof. revert c. induction l as [|x l IH]; intros c; [done|]. rewrite fmap_cons. cbn [fold_left]. apply IH. Qed.

Lemma strip_CheckTransaction tx : CheckTransaction (strip_witness tx) = CheckTransaction tx.
Proof.
  unfold CheckTransaction, check_prevouts. rewrite strip_size, strip_IsCoinBase.
  cbn [strip_witness vin vout]. rewrite length_fmap, check_duplicates_strip, existsb_fmap.
  destruct (_ =? 0)%nat; [done|]. destruct (_ =? 0)%nat; [done|]. destruct (_ <? _); [done|].
  destruct (check_outputs _ _); [done|]. destruct (check_duplicates _ _); [done|].
  destruct (IsCoinBase tx); [|done]. by destruct (vin tx).
Qed.

Lemma strip_IsFinalTx tx height time : IsFinalTx (strip_witness tx) height time = IsFinalTx tx height time.
Proof. unfold IsFinalTx. cbn [strip_witness vin nLockTime]. by rewrite forallb_fmap. Qed.

Lemma strip_sigops tx : GetLegacySigOpCount (strip_witness tx) = GetLegacySigOpCount tx.
Proof. unfold GetLegacySigOpCount. cbn [strip_witness vin vout]. by rewrite fold_left_fmap. Qed.

Lemma strip_check_transactions vtx : check_transactions (strip_witness <$> vtx) = check_transactions vtx.
Proof.
  induction vtx as [|tx vtx IH]; [done|]. rewrite fmap_cons. cbn [check_transactions].
  by rewrite strip_CheckTransaction, IH.
Qed.

Lemma strip_block_size h vtx : BlockSerializeSize false h (strip_witness <$> vtx) = BlockSerializeSize false h vtx.
Proof.
  unfold BlockSerializeSize, SerializeBlock. rewrite length_fmap, <- list_fmap_compose.
  rewrite (list_fmap_ext _ (SerializeTransaction false) vtx); [done|].
  intros ? tx _. apply SerializeTransaction_strip.
Qed.

Lemma strip_check_contents h vtx : check_contents h (strip_witness <$> vtx) = check_contents h vtx.
Proof.
  unfold check_contents, block_sigops. rewrite length_fmap, strip_block_size, strip_check_transactions.
  rewrite fold_left_fmap. destruct vtx as [|tx vtx]; [done|]. rewrite !fmap_cons. cbn [tail].
  rewrite strip_IsCoinBase, existsb_fmap. cbn [fold_left]. rewrite strip_sigops.
  destruct (_ || _); [done|]. destruct (negb (IsCoinBase tx)); [done|].
  replace (existsb (λ x, IsCoinBase (strip_witness x)) vtx) with (existsb IsCoinBase vtx).
  2: { induction vtx as [|x vtx IH]; [done|]. cbn [existsb]. by rewrite strip_IsCoinBase, IH. }
  destruct (existsb _ _); [done|]. destruct (check_transactions _); [done|].
  set (c := u32 (0 + GetLegacySigOpCount tx)). clearbody c.
  replace (fold_left (λ n t, u32 (n + GetLegacySigOpCount (strip_witness t))) vtx c)
    with (fold_left (λ n t, u32 (n + GetLegacySigOpCount t)) vtx c); [done|].
  revert c. induction vtx as [|x vtx IH]; intros c; [done|]. cbn [fold_left]. by rewrite strip_sigops, IH.
Qed.

Lemma cons_eq {A} (x y : A) l k : x :: l = y :: k → x = y ∧ l = k.
Proof. by intros [= -> ->]. Qed.

Lemma strip_commitment_index vtx :
  GetWitnessCommitmentIndex (strip_witness <$> vtx) = GetWitnessCommitmentIndex vtx.
Proof. by destruct vtx. Qed.

Lemma strip_height vtx height : height_in_coinbase (strip_witness <$> vtx) height = height_in_coinbase vtx height.
Proof. destruct vtx as [|tx vtx]; [done|]. cbn. by destruct (vin tx). Qed.

Lemma strip_finals vtx height time :
  forallb (λ tx, IsFinalTx tx height time) (strip_witness <$> vtx) =
  forallb (λ tx, IsFinalTx tx height time) vtx.
Proof. induction vtx as [|tx vtx IH]; [done|]. rewrite fmap_cons. cbn [forallb]. by rewrite strip_IsFinalTx, IH. Qed.

(** A transaction is its part without witnesses and its witnesses. *)
Lemma strip_witness_inj_none tx tx' :
  HasWitness tx = false → HasWitness tx' = false → strip_witness tx = strip_witness tx' → tx = tx'.
Proof. intros H H' E. by rewrite <- (strip_no_witness tx), <- (strip_no_witness tx'). Qed.

(** ** Commitment *)

(** The strings hashed for the two Merkle roots of a block and for its witness commitment. *)
Section hashed.
Context (SHA256d : list Z → Z).

Definition txids_bytes (vtx : list CTransaction) : list (list Z) :=
  (SerializeTransaction false <$> vtx) ++ merkle_bytes SHA256d (GetTxid SHA256d <$> vtx).

Definition commitment_preimage (vtx : list CTransaction) : list (list Z) :=
  (λ nonce, write_uint256 (BlockWitnessMerkleRoot SHA256d vtx).1 ++ nonce) <$>
  match vtx with
  | coinbase :: _ => default [] (scriptWitness <$> head (vin coinbase))
  | [] => []
  end.

Definition witness_bytes (vtx : list CTransaction) : list (list Z) :=
  (SerializeTransaction true <$> vtx) ++ merkle_bytes SHA256d (witness_leaves SHA256d vtx) ++ commitment_preimage vtx.

Definition contents_bytes (vtx : list CTransaction) : list (list Z) := txids_bytes vtx ++ witness_bytes vtx.

Lemma commitment_preimage_eq cb rest i ins nonce :
  vin cb = i :: ins → scriptWitness i = [nonce] →
  commitment_preimage (cb :: rest) = [write_uint256 (BlockWitnessMerkleRoot SHA256d (cb :: rest)).1 ++ nonce].
Proof. intros Hi Hw. unfold commitment_preimage. rewrite Hi. cbn [head fmap option_fmap option_map default]. by rewrite Hw. Qed.
End hashed.

Section binding.
Context (SHA256d : list Z → Z) (Fits : ∀ x, fits 256 (SHA256d x)) (hashed : list (list Z)).
Context (params : Params) (bparams : BodyParams) (sgn : CBlockHeader → list CTransaction → bool).

Lemma CheckMerkleRoot_iff h vtx :
  (CheckMerkleRoot SHA256d (new_block h vtx)).2 = None ↔
  BlockMerkleRoot SHA256d vtx = (hdr_hashMerkleRoot h, false).
Proof.
  unfold CheckMerkleRoot. cbn [new_block m_checked_merkle_root blk_vtx blk_header].
  destruct (BlockMerkleRoot SHA256d vtx) as [r m].
  destruct (Z.eqb_spec (hdr_hashMerkleRoot h) r) as [->|Hr]; cbn [negb]; [|split; [done|intros [=]; congruence]].
  destruct m; split; try done.
Qed.

Lemma txids_fit vtx : Forall (fits 256) (GetTxid SHA256d <$> vtx).
Proof using Fits. apply Forall_fmap, Forall_true. intros tx. apply Fits. Qed.

(** Transactions whose ids are inner nodes are as long as two hashes. *)
Lemma inner_nodes_64 vtx k :
  SerializeTransaction false <$> vtx ⊆ hashed → level_bytes k ⊆ hashed →
  GetTxid SHA256d <$> vtx = level SHA256d k →
  Forall (λ tx, TxSerializeSize false tx = 64) vtx ∨ collision SHA256d hashed.
Proof.
  intros Hs Hk E. destruct (decide (Forall (λ tx, TxSerializeSize false tx = 64) vtx)) as [|Hn]; [by left|right].
  apply not_Forall_Exists, Exists_exists in Hn as (tx & Htx & Hn); [|apply _].
  assert (Hin : GetTxid SHA256d tx ∈ level SHA256d k) by (rewrite <- E; by apply list_elem_of_fmap_2).
  apply level_elem in Hin as (a & b & _ & _ & E2 & Hx).
  apply (hash_eq SHA256d hashed) in E2 as [Hy|]; [|done|by apply Hs, list_elem_of_fmap_2|by apply Hk].
  exfalso. apply Hn. unfold TxSerializeSize. rewrite Hy, length_app. unfold write_uint256.
  by rewrite !length_reverse, !le_bytes_length.
Qed.

Lemma txids_inj vtx vtx' :
  SerializeTransaction false <$> vtx ⊆ hashed → SerializeTransaction false <$> vtx' ⊆ hashed →
  Forall tx_ok vtx → Forall tx_ok vtx' → GetTxid SHA256d <$> vtx = GetTxid SHA256d <$> vtx' →
  strip_witness <$> vtx = strip_witness <$> vtx' ∨ collision SHA256d hashed.
Proof.
  intros Hs Hs' H. revert vtx' Hs Hs'. induction H as [|tx vtx Htx _ IH]; intros [|tx' vtx'] Hs Hs' H' E; try done; [by left|].
  rewrite !fmap_cons in *. injection E as E Es. apply Forall_cons in H' as [Htx' H']. split_sub.
  apply (txid_binding SHA256d hashed) in E as [->|]; [|by right|done..].
  destruct (IH vtx') as [->|]; [done..|by left|by right].
Qed.

(** Two contents that pass the merkle check of one header. *)
Lemma merkle_same h vtx vtx' :
  txids_bytes SHA256d vtx ⊆ hashed → txids_bytes SHA256d vtx' ⊆ hashed →
  Forall tx_ok vtx → Forall tx_ok vtx' → vtx ≠ [] → vtx' ≠ [] →
  (CheckMerkleRoot SHA256d (new_block h vtx)).2 = None →
  (CheckMerkleRoot SHA256d (new_block h vtx')).2 = None →
  strip_witness <$> vtx = strip_witness <$> vtx' ∨
  Forall (λ tx, TxSerializeSize false tx = 64) vtx ∨
  Forall (λ tx, TxSerializeSize false tx = 64) vtx' ∨ collision SHA256d hashed.
Proof using Fits.
  rewrite !CheckMerkleRoot_iff. unfold BlockMerkleRoot, txids_bytes. intros Hh Hh' Hok Hok' Hne Hne' E E'. split_sub.
  set (l := GetTxid SHA256d <$> vtx) in *. set (l' := GetTxid SHA256d <$> vtx') in *.
  assert (Hl : l ≠ []) by (by intros ?%fmap_nil_inv). assert (Hl' : l' ≠ []) by (by intros ?%fmap_nil_inv).
  destruct (root_inj SHA256d Fits hashed l l') as [Hi|[Hi|?]];
    [done|done|apply txids_fit|apply txids_fit|done|done|by rewrite E|by rewrite E'|by rewrite E, E'| | |by auto].
  - apply in_levels_cases in Hi as [Hi|(k & Hi & Hk)].
    + destruct (txids_inj vtx vtx') as [?|?]; auto.
    + apply inner_nodes_64 in Hi as [?|?]; auto. by etransitivity.
  - apply in_levels_cases in Hi as [Hi|(k & Hi & Hk)].
    + destruct (txids_inj vtx vtx') as [?|?]; auto.
    + apply inner_nodes_64 in Hi as [?|?]; auto. by etransitivity.
Qed.

(** *** Witnesses *)

Lemma CheckWitnessMalleation_new h vtx expect :
  (CheckWitnessMalleation SHA256d (new_block h vtx) expect).2 =
  match (if expect then GetWitnessCommitmentIndex vtx else None) with
  | Some commitpos => check_commitment SHA256d vtx commitpos
  | None => no_witness vtx
  end.
Proof.
  unfold CheckWitnessMalleation. cbn [new_block m_checked_witness_commitment blk_vtx].
  destruct expect; [|done]. destruct (GetWitnessCommitmentIndex vtx); [|done].
  by destruct (check_commitment _ _ _).
Qed.

Lemma check_commitment_inv coinbase rest pos :
  check_commitment SHA256d (coinbase :: rest) pos = None →
  ∃ input ins nonce, vin coinbase = input :: ins ∧ scriptWitness input = [nonce] ∧
    length nonce = 32%nat ∧
    write_uint256 (commitment_hash SHA256d (coinbase :: rest) nonce) = commitment_bytes coinbase pos.
Proof.
  unfold check_commitment. destruct (vin coinbase) as [|i ins]; [done|].
  destruct (scriptWitness i) as [|nonce [|]] eqn:Ew; [done| |done].
  destruct (Nat.eqb_spec (length nonce) 32) as [Hn|]; [|done]. cbn [negb].
  case_bool_decide as Hc; [|done]. intros _. by exists i, ins, nonce.
Qed.

Lemma no_witness_inj vtx vtx' :
  no_witness vtx = None → no_witness vtx' = None →
  strip_witness <$> vtx = strip_witness <$> vtx' → vtx = vtx'.
Proof.
  unfold no_witness. intros H H' E. assert (Hs : ∀ v, existsb HasWitness v = false → strip_witness <$> v = v).
  { induction v as [|tx v IH]; [done|]. cbn [existsb]. rewrite orb_false_iff. intros [Hw ?].
    rewrite fmap_cons, IH, strip_no_witness by done. done. }
  destruct (existsb HasWitness vtx) eqn:E1; [done|]. destruct (existsb HasWitness vtx') eqn:E2; [done|].
  by rewrite <- (Hs vtx), <- (Hs vtx').
Qed.

Lemma witness_leaves_fit vtx : Forall (fits 256) (witness_leaves SHA256d vtx).
Proof using Fits.
  destruct vtx as [|tx vtx]; [done|]. constructor; [unfold fits; lia|].
  apply Forall_fmap, Forall_true. intros t. cbn. rewrite GetWitnessHash_eq. apply Fits.
Qed.

Lemma root_fits l : Forall (fits 256) l → fits 256 (ComputeMerkleRoot SHA256d l).1.
Proof using Fits.
  intros Hl. destruct (decide (l = [])) as [->|Hne]; [unfold fits; cbn; lia|].
  pose proof (in_levels_fits SHA256d Fits _ _ (root_in_levels SHA256d l Hne) Hl) as H. by apply Forall_inv in H.
Qed.

(** Equal witness ids and equal parts without witnesses. *)
Lemma wtxids_inj vtx vtx' :
  SerializeTransaction true <$> vtx ⊆ hashed → SerializeTransaction true <$> vtx' ⊆ hashed →
  Forall tx_ok vtx → Forall tx_ok vtx' → strip_witness <$> vtx = strip_witness <$> vtx' →
  GetWitnessHash SHA256d <$> vtx = GetWitnessHash SHA256d <$> vtx' → vtx = vtx' ∨ collision SHA256d hashed.
Proof.
  intros Hs Hs' H. revert vtx' Hs Hs'. induction H as [|tx vtx Htx _ IH]; intros [|tx' vtx'] Hs Hs' H' Es E; try done; [by left|].
  rewrite !fmap_cons in *. injection E as E E2. apply cons_eq in Es as [Es1 Es2]. apply Forall_cons in H' as [Htx' H']. split_sub.
  assert (tx = tx' ∨ collision SHA256d hashed) as [->|]; [|destruct (IH vtx') as [->|]; [done..|by left|by right]|by right].
  assert (Hlen : length (vin tx) = length (vin tx')).
  { apply (f_equal (λ t, length (vin t))) in Es1. cbn in Es1. by rewrite !length_fmap in Es1. }
  destruct (decide (vin tx = [])) as [E0|Hne].
  - left. assert (vin tx' = []) as E0' by (apply length_zero_iff_nil; by rewrite <- Hlen, E0).
    apply strip_witness_inj_none; [| |done]; unfold HasWitness; [by rewrite E0|by rewrite E0'].
  - apply wtxid_binding; try done. intros E0. by rewrite E0 in Hlen; apply length_zero_iff_nil in Hlen.
Qed.

Lemma write_uint256_inj a b : fits 256 a → fits 256 b → write_uint256 a = write_uint256 b → a = b.
Proof.
  intros Ha Hb E. apply (f_equal (λ l, l ++ [])) in E.
  by apply (codec_inj uint256_codec) in E as [-> _].
Qed.

Definition starts_with_coinbase (vtx : list CTransaction) : bool :=
  match vtx with [] => false | coinbase :: _ => IsCoinBase coinbase end.

(** A coinbase is its part without the witness and the witness of its only input. *)
Lemma coinbase_same cb cb' i ins i' ins' w :
  IsCoinBase cb = true → strip_witness cb = strip_witness cb' →
  vin cb = i :: ins → vin cb' = i' :: ins' → scriptWitness i = w → scriptWitness i' = w → cb = cb'.
Proof.
  intros Hc E Hi Hi' Hw Hw'. destruct cb as [vi vo ve lo], cb' as [vi' vo' ve' lo'].
  unfold IsCoinBase in Hc. cbn in *. subst vi vi'. destruct ins as [|]; [|done].
  unfold strip_witness in E. cbn in E. destruct ins' as [|]; [|done]. destruct i, i'. cbn in *.
  injection E. intros. by subst.
Qed.

(** The witnesses are committed to as well. *)
Lemma witness_same h vtx vtx' expect :
  witness_bytes SHA256d vtx ⊆ hashed → witness_bytes SHA256d vtx' ⊆ hashed →
  Forall tx_ok vtx → Forall tx_ok vtx' → starts_with_coinbase vtx = true →
  strip_witness <$> vtx = strip_witness <$> vtx' →
  (CheckWitnessMalleation SHA256d (new_block h vtx) expect).2 = None →
  (CheckWitnessMalleation SHA256d (new_block h vtx') expect).2 = None →
  vtx = vtx' ∨ collision SHA256d hashed.
Proof using Fits.
  intros Hh Hh' Hok Hok' Hcb Es. rewrite !CheckWitnessMalleation_new.
  assert (Ei : GetWitnessCommitmentIndex vtx' = GetWitnessCommitmentIndex vtx)
    by (by rewrite <- strip_commitment_index, <- Es, strip_commitment_index).
  rewrite Ei. destruct (if expect then _ else _) as [pos|]; [|left; by apply no_witness_inj].
  destruct vtx as [|cb rest]; [done|]. destruct vtx' as [|cb' rest']; [done|].
  intros (i & ins & nonce & Hi & Hw & Hn & Hc)%check_commitment_inv.
  intros (i' & ins' & nonce' & Hi' & Hw' & Hn' & Hc')%check_commitment_inv.
  rewrite !fmap_cons in Es. apply cons_eq in Es as [Es1 Es2].
  assert (Ev : vout cb = vout cb') by (by apply (f_equal vout) in Es1).
  unfold commitment_bytes in Hc, Hc'. rewrite Ev, <- Hc' in Hc. apply write_uint256_inj in Hc; [|apply Fits..].
  unfold witness_bytes in Hh, Hh'. rewrite (commitment_preimage_eq SHA256d cb rest i ins nonce) in Hh by done.
  rewrite (commitment_preimage_eq SHA256d cb' rest' i' ins' nonce') in Hh' by done. rewrite !fmap_cons in Hh, Hh'. split_sub.
  unfold commitment_hash in Hc. apply (hash_eq SHA256d hashed) in Hc as [Hc|]; [|by right|done..].
  apply (codec_inj uint256_codec) in Hc as [Er En]; [|apply root_fits, witness_leaves_fit..]. subst nonce'.
  apply (root_inj_length SHA256d Fits hashed) in Er as [El|]; [|by right|done|done|apply witness_leaves_fit..|].
  2: { cbn [witness_leaves length]. rewrite !length_fmap. f_equal.
       apply (f_equal length) in Es2. by rewrite !length_fmap in Es2. }
  injection El as El. apply Forall_cons in Hok as [_ Hok], Hok' as [_ Hok'].
  destruct (wtxids_inj rest rest') as [->|]; [done..| |by right]. left. f_equal.
  by eapply coinbase_same.
Qed.

(** Two contents of one header that are not recognised as changed are the same. *)
Lemma unmutated_same h vtx vtx' expect :
  contents_bytes SHA256d vtx ⊆ hashed → contents_bytes SHA256d vtx' ⊆ hashed →
  Forall tx_ok vtx → Forall tx_ok vtx' →
  starts_with_coinbase vtx = true → starts_with_coinbase vtx' = true →
  (CheckMerkleRoot SHA256d (new_block h vtx)).2 = None →
  (CheckMerkleRoot SHA256d (new_block h vtx')).2 = None →
  (CheckWitnessMalleation SHA256d (new_block h vtx) expect).2 = None →
  (CheckWitnessMalleation SHA256d (new_block h vtx') expect).2 = None →
  vtx = vtx' ∨ Forall (λ tx, TxSerializeSize false tx = 64) vtx ∨
  Forall (λ tx, TxSerializeSize false tx = 64) vtx' ∨ collision SHA256d hashed.
Proof using Fits.
  unfold contents_bytes. intros Hh Hh' Hok Hok' Hcb Hcb' Hm Hm' Hw Hw'. split_sub.
  destruct (merkle_same h vtx vtx') as [Es|?]; [done|done|done|done|by destruct vtx|by destruct vtx'|done|done| |by auto].
  destruct (witness_same h vtx vtx' expect) as [->|?]; auto.
Qed.

Lemma IsBlockMutated_false h vtx expect :
  starts_with_coinbase vtx = true →
  (IsBlockMutated SHA256d (new_block h vtx) expect).2 = false →
  (CheckMerkleRoot SHA256d (new_block h vtx)).2 = None ∧
  (CheckWitnessMalleation SHA256d (new_block h vtx) expect).2 = None.
Proof.
  (* the checks do not depend on the parameters *)
  set (ps := CQbtcTestNetParams). set (bps := mkBodyParams 0 0 false).
  set (sol := λ (_ : CBlockHeader) (_ : list CTransaction), true).
  intros Hcb. unfold IsBlockMutated.
  pose proof (CheckMerkleRoot_flags SHA256d ps bps sol (new_block h vtx)
    (flags_ok_bare SHA256d ps bps sol (new_block h vtx))) as (_ & Hb & Hf).
  destruct (CheckMerkleRoot SHA256d (new_block h vtx)) as [b [f|]]; [done|]. cbn [fst snd] in *.
  assert (Hv : blk_vtx b = vtx) by (by injection Hb). rewrite Hv.
  destruct vtx as [|cb rest]; [done|]. cbn [starts_with_coinbase] in Hcb. rewrite Hcb. cbn [negb].
  pose proof (CheckWitnessMalleation_flags SHA256d ps bps sol b expect Hf) as (Hr & _).
  rewrite Hb in Hr. change (bare (new_block h (cb :: rest))) with (new_block h (cb :: rest)) in Hr.
  rewrite <- Hr. by destruct (CheckWitnessMalleation SHA256d b expect) as [? []].
Qed.

(** *** The checks, one after the other *)

Lemma ContextualCheckBlock_new st h vtx prev :
  (ContextualCheckBlock SHA256d params bparams st (new_block h vtx) prev).2 =
  match lock_time_cutoff bparams st h prev with
  | None => Some Abort
  | Some cutoff =>
      if negb (forallb (λ tx, IsFinalTx tx (block_height st prev) cutoff) vtx)
      then Some (Invalid BLOCK_CONSENSUS "bad-txns-nonfinal")
      else match (if ActiveAfter (block_height st prev) (BIP34Height params)
                  then height_in_coinbase vtx (block_height st prev) else None) with
           | Some f => Some f
           | None =>
               match (CheckWitnessMalleation SHA256d (new_block h vtx)
                        (ActiveAfter (block_height st prev) (SegwitHeight params))).2 with
               | Some f => Some f
               | None => check_weight bparams h vtx
               end
           end
  end.
Proof.
  unfold ContextualCheckBlock. cbn [new_block blk_header blk_vtx].
  destruct (lock_time_cutoff _ _ _ _) as [cutoff|]; [|done].
  destruct (negb (forallb _ _)); [done|]. destruct (if ActiveAfter _ (BIP34Height params) then _ else _); [done|].
  set (ex := ActiveAfter _ _).
  destruct (CheckWitnessMalleation_flags SHA256d params bparams sgn (new_block h vtx) ex
    (flags_ok_bare SHA256d params bparams sgn (new_block h vtx))) as (_ & Hb & _).
  change (mkBlock h vtx false false false) with (new_block h vtx).
  destruct (CheckWitnessMalleation SHA256d (new_block h vtx) ex) as [b [f|]]; [done|]. cbn [fst snd] in *.
  destruct b. injection Hb as -> ->. done.
Qed.

Lemma check_block_new st h vtx prev :
  (check_block SHA256d params bparams sgn st (new_block h vtx) prev).2 =
  match CheckBlockHeader SHA256d params h with
  | Some f => Some f
  | None =>
      if signet_blocks bparams && true && negb (sgn h vtx)
      then Some (Invalid BLOCK_CONSENSUS "bad-signet-blksig")
      else match (CheckMerkleRoot SHA256d (new_block h vtx)).2 with
           | Some f => Some f
           | None =>
               match check_contents h vtx with
               | Some f => Some f
               | None => (ContextualCheckBlock SHA256d params bparams st (new_block h vtx) prev).2
               end
           end
  end.
Proof.
  unfold check_block. pose proof (CheckBlock_bare SHA256d params bparams sgn (new_block h vtx) true true) as Hc.
  destruct (CheckBlock_flags SHA256d params bparams sgn (new_block h vtx) true true
    (flags_ok_bare SHA256d params bparams sgn (new_block h vtx))) as (_ & Hb & Hf).
  change (bare (new_block h vtx)) with (new_block h vtx) in *. cbn [new_block blk_header blk_vtx] in Hc.
  change (mkBlock h vtx false false false) with (new_block h vtx) in *.
  destruct (CheckBlock SHA256d params bparams sgn (new_block h vtx) true true) as [b [f|]]; cbn [fst snd] in *.
  - rewrite Hc. destruct (CheckBlockHeader _ _ _); [done|]. destruct (_ && _ && _); [done|].
    destruct (CheckMerkleRoot _ _).2; [done|]. by destruct (check_contents h vtx).
  - pose proof (ContextualCheckBlock_flags SHA256d params bparams sgn st b prev Hf) as (Hr & _).
    rewrite Hr, Hb. destruct (CheckBlockHeader _ _ _); [done|]. destruct (_ && _ && _); [done|].
    destruct (CheckMerkleRoot _ _).2; [done|]. by destruct (check_contents h vtx).
Qed.

(** The ways the two checks for changed contents fail. *)
Lemma CheckMerkleRoot_fails h vtx f :
  (CheckMerkleRoot SHA256d (new_block h vtx)).2 = Some f → ∃ r, f = Invalid BLOCK_MUTATED r.
Proof.
  unfold CheckMerkleRoot. cbn [new_block m_checked_merkle_root]. destruct (BlockMerkleRoot _ _).
  repeat case_match; intros [=]; eauto.
Qed.

Lemma CheckWitnessMalleation_fails h vtx expect f :
  starts_with_coinbase vtx = true →
  (CheckWitnessMalleation SHA256d (new_block h vtx) expect).2 = Some f →
  ∃ r, f = Invalid BLOCK_MUTATED r.
Proof.
  rewrite CheckWitnessMalleation_new. destruct vtx as [|cb rest]; [done|]. cbn [starts_with_coinbase].
  intros Hc. unfold check_commitment, no_witness.
  destruct (vin cb) as [|i ins] eqn:Ei; [by unfold IsCoinBase in Hc; rewrite Ei in Hc|].
  repeat case_match; intros [=]; eauto.
Qed.

Lemma check_contents_coinbase h vtx : check_contents h vtx = None → starts_with_coinbase vtx = true.
Proof.
  unfold check_contents. destruct (_ || _); [done|]. destruct vtx as [|cb rest]; [done|].
  cbn [starts_with_coinbase]. by destruct (IsCoinBase cb).
Qed.

Lemma starts_with_coinbase_strip vtx : starts_with_coinbase (strip_witness <$> vtx) = starts_with_coinbase vtx.
Proof. destruct vtx as [|tx vtx]; [done|]. apply strip_IsCoinBase. Qed.

(** Contents whose transactions are those of contents that pass, up to the witnesses, fail
    only with the result for changed contents. *)
Lemma same_transactions_mutated st h vtx vtx' prev f :
  witness_bytes SHA256d vtx ⊆ hashed → witness_bytes SHA256d vtx' ⊆ hashed →
  Forall tx_ok vtx → Forall tx_ok vtx' → signet_blocks bparams = false →
  (CheckMerkleRoot SHA256d (new_block h vtx)).2 = None →
  strip_witness <$> vtx = strip_witness <$> vtx' →
  (check_block SHA256d params bparams sgn st (new_block h vtx') prev).2 = None →
  (check_block SHA256d params bparams sgn st (new_block h vtx) prev).2 = Some f →
  (∃ r, f = Invalid BLOCK_MUTATED r) ∨ collision SHA256d hashed.
Proof using Fits.
  intros Hh Hh' Hok Hok' Hsg Hm Es. rewrite !check_block_new, Hsg, Hm. cbn [andb].
  destruct (CheckBlockHeader _ _ _); [done|]. destruct (CheckMerkleRoot SHA256d (new_block h vtx')).2; [done|].
  assert (Ec : check_contents h vtx = check_contents h vtx')
    by (by rewrite <- strip_check_contents, Es, strip_check_contents).
  rewrite Ec. destruct (check_contents h vtx') eqn:Ec'; [done|]. rewrite !ContextualCheckBlock_new.
  assert (Hcb : starts_with_coinbase vtx = true)
    by (rewrite <- starts_with_coinbase_strip, Es, starts_with_coinbase_strip;
        by eapply check_contents_coinbase).
  destruct (lock_time_cutoff _ _ _ _) as [cutoff|]; [|done].
  rewrite <- (strip_finals vtx), <- (strip_finals vtx'), Es.
  destruct (negb (forallb _ _)); [done|].
  rewrite <- (strip_height vtx), <- (strip_height vtx'), Es.
  destruct (if ActiveAfter _ (BIP34Height params) then _ else _); [done|].
  set (ex := ActiveAfter _ _).
  destruct (CheckWitnessMalleation SHA256d (new_block h vtx') ex).2 eqn:Ew'; [done|].
  destruct (CheckWitnessMalleation SHA256d (new_block h vtx) ex).2 eqn:Ew.
  - intros _ [= <-]. left. by eapply CheckWitnessMalleation_fails.
  - intros Hn Hf. destruct (witness_same h vtx vtx' ex) as [->|]; [done..| |by right]. congruence.
Qed.
End binding.

(** ** Heights, weights and signature operations *)

Lemma height_in_coinbase_inv cb rest height :
  height_in_coinbase (cb :: rest) height = None →
  ∃ i ins s, vin cb = i :: ins ∧ scriptSig i = push_int64 height ++ s.
Proof.
  unfold height_in_coinbase. destruct (vin cb) as [|i ins]; [done|]. cbv zeta.
  destruct (_ <? _)%nat; [done|]. cbn [orb]. case_bool_decide as E; [|done]. intros _.
  exists i, ins, (drop (length (push_int64 height)) (scriptSig i)). split; [done|].
  rewrite <- (take_drop (length (push_int64 height)) (scriptSig i)) at 1. by rewrite <- E.
Qed.

Lemma scriptSig_short tx i : tx_ok tx → i ∈ vin tx → Z.of_nat (length (scriptSig i)) < 2 ^ 31.
Proof.
  intros [_ _ _ Hi _] Hin. rewrite Forall_forall in Hi. destruct (Hi i Hin) as [[(_ & [Hs _] & _) _] _].
  unfold vector_size_ok, MAX_SIZE in Hs. cbn in Hs. lia.
Qed.

(** Sums over lists. *)
Definition zsum {A} (f : A → Z) (l : list A) : Z := foldr (λ x s, f x + s) 0 l.

Lemma zsum_le {A} (f g : A → Z) l : (∀ x, x ∈ l → f x <= g x) → zsum f l <= zsum g l.
Proof.
  induction l as [|x l IH]; intros H; cbn [zsum foldr]; [lia|]. fold (zsum f l) (zsum g l).
  pose proof (H x ltac:(apply elem_of_cons; by left)).
  assert (zsum f l <= zsum g l) by (apply IH; intros y Hy; apply H, elem_of_cons; by right). lia.
Qed.

Lemma zsum_nonneg {A} (f : A → Z) l : (∀ x, x ∈ l → 0 <= f x) → 0 <= zsum f l.
Proof.
  intros H. assert (E : zsum (λ _, 0) l = 0) by (induction l; cbn in *; unfold zsum in *; set_solver by lia).
  rewrite <- E. by apply zsum_le.
Qed.

Lemma zsum_scale {A} (f : A → Z) k l : zsum (λ x, k * f x) l = k * zsum f l.
Proof. induction l as [|x l IH]; cbn [zsum foldr]; [lia|]. fold (zsum (λ x, k * f x) l) (zsum f l). lia. Qed.

Lemma concat_length {A} (e : A → list Z) l :
  Z.of_nat (length (concat (e <$> l))) = zsum (λ x, Z.of_nat (length (e x))) l.
Proof.
  induction l as [|x l IH]; [done|]. rewrite fmap_cons. cbn [concat zsum foldr].
  rewrite length_app, Nat2Z.inj_add, IH. done.
Qed.

(** A counter of 32 bits that does not reach its end. *)
Lemma counter_exact {A} (f : A → Z) l c :
  (∀ x, x ∈ l → 0 <= f x) → 0 <= c → c + zsum f l < 2 ^ 32 →
  fold_left (λ c x, u32 (c + f x)) l c = c + zsum f l.
Proof.
  revert c. induction l as [|x l IH]; intros c Hf Hc Hs; cbn [fold_left zsum foldr] in *; [lia|].
  fold (zsum f l) in *. pose proof (Hf x ltac:(apply elem_of_cons; by left)).
  assert (Hl : ∀ y, y ∈ l → 0 <= f y) by (intros y Hy; apply Hf, elem_of_cons; by right).
  pose proof (zsum_nonneg f l Hl). rewrite wrap_small by (unfold fits; lia). rewrite IH by (done || lia). lia.
Qed.

(** The scripts are part of what is serialized. *)
Definition script_bytes (tx : CTransaction) : Z :=
  zsum (λ i, Z.of_nat (length (scriptSig i))) (vin tx) +
  zsum (λ o, Z.of_nat (length (scriptPubKey o))) (vout tx).

Lemma script_bytes_size tx : script_bytes tx <= TxSerializeSize false tx.
Proof.
  unfold script_bytes, TxSerializeSize, SerializeTransaction. cbn [andb].
  rewrite !length_app. cbn [encode vector_codec]. unfold write_vector. rewrite !length_app.
  pose proof (concat_length (encode CTxIn_codec) (vin tx)).
  pose proof (concat_length (encode CTxOut_codec) (vout tx)).
  assert (zsum (λ i, Z.of_nat (length (scriptSig i))) (vin tx)
          <= zsum (λ i, Z.of_nat (length (encode CTxIn_codec i))) (vin tx)).
  { apply zsum_le. intros i _. cbn. unfold write_bytes. rewrite !length_app. lia. }
  assert (zsum (λ o, Z.of_nat (length (scriptPubKey o))) (vout tx)
          <= zsum (λ o, Z.of_nat (length (encode CTxOut_codec o))) (vout tx)).
  { apply zsum_le. intros i _. cbn. unfold write_bytes. rewrite !length_app. lia. }
  lia.
Qed.

Lemma script_bytes_block h vtx : zsum script_bytes vtx <= BlockSerializeSize false h vtx.
Proof.
  unfold BlockSerializeSize, SerializeBlock. rewrite !length_app, !Nat2Z.inj_add, concat_length.
  pose proof (zsum_le script_bytes (TxSerializeSize false) vtx (λ tx _, script_bytes_size tx)).
  unfold TxSerializeSize in *. lia.
Qed.

(** The signature operations of a transaction, counted without a bound. *)
Definition sigops (tx : CTransaction) : Z :=
  zsum (λ i, GetSigOpCount false (scriptSig i)) (vin tx) +
  zsum (λ o, GetSigOpCount false (scriptPubKey o)) (vout tx).

Lemma zsum_elem {A} (f : A → Z) l x : (∀ y, y ∈ l → 0 <= f y) → x ∈ l → f x <= zsum f l.
Proof.
  intros Hf Hx. induction l as [|y l IH]; [by apply elem_of_nil in Hx|]. cbn [zsum foldr]. fold (zsum f l).
  assert (Hl : ∀ z, z ∈ l → 0 <= f z) by (intros z Hz; apply Hf, elem_of_cons; by right).
  pose proof (zsum_nonneg f l Hl). pose proof (Hf y ltac:(apply elem_of_cons; by left)).
  apply elem_of_cons in Hx as [->|Hx]; [lia|]. specialize (IH Hl Hx). lia.
Qed.

(** The operations of the scripts of a list. *)
Lemma scripts_sigops {A} (script : A → list Z) l :
  20 * zsum (λ x, Z.of_nat (length (script x))) l < 2 ^ 32 →
  (∀ x, x ∈ l → 0 <= GetSigOpCount false (script x)) ∧
  zsum (λ x, GetSigOpCount false (script x)) l <= 20 * zsum (λ x, Z.of_nat (length (script x))) l.
Proof.
  intros Hb. assert (H : ∀ x, x ∈ l → 0 <= GetSigOpCount false (script x) <= 20 * Z.of_nat (length (script x))).
  { intros x Hx. apply GetSigOpCount_bound.
    pose proof (zsum_elem (λ x, Z.of_nat (length (script x))) l x ltac:(intros; cbn; lia) Hx). cbn in *. lia. }
  split; [intros x Hx; by apply H|]. rewrite <- zsum_scale. apply zsum_le. intros x Hx. by apply H.
Qed.

Lemma GetLegacySigOpCount_exact tx :
  20 * script_bytes tx < 2 ^ 32 →
  GetLegacySigOpCount tx = sigops tx ∧ 0 <= sigops tx <= 20 * script_bytes tx.
Proof.
  unfold script_bytes, sigops, GetLegacySigOpCount. intros Hb.
  assert (0 <= zsum (λ i, Z.of_nat (length (scriptSig i))) (vin tx)) by (apply zsum_nonneg; lia).
  assert (0 <= zsum (λ o, Z.of_nat (length (scriptPubKey o))) (vout tx)) by (apply zsum_nonneg; lia).
  destruct (scripts_sigops scriptSig (vin tx)) as [Hi Hi2]; [lia|].
  destruct (scripts_sigops scriptPubKey (vout tx)) as [Ho Ho2]; [lia|].
  pose proof (zsum_nonneg _ _ Hi). pose proof (zsum_nonneg _ _ Ho).
  rewrite (counter_exact (λ i, GetSigOpCount false (scriptSig i))) by (done || lia).
  rewrite (counter_exact (λ o, GetSigOpCount false (scriptPubKey o))) by (done || lia). lia.
Qed.

Lemma block_sigops_exact vtx :
  20 * zsum script_bytes vtx < 2 ^ 32 →
  block_sigops vtx = zsum sigops vtx ∧ zsum sigops vtx <= 20 * zsum script_bytes vtx.
Proof.
  intros Hb. assert (Hp : ∀ tx, 0 <= script_bytes tx).
  { intros tx. unfold script_bytes.
    assert (0 <= zsum (λ i, Z.of_nat (length (scriptSig i))) (vin tx)) by (apply zsum_nonneg; lia).
    assert (0 <= zsum (λ o, Z.of_nat (length (scriptPubKey o))) (vout tx)) by (apply zsum_nonneg; lia). lia. }
  assert (H : ∀ tx, tx ∈ vtx → GetLegacySigOpCount tx = sigops tx ∧ 0 <= sigops tx <= 20 * script_bytes tx).
  { intros tx Htx. apply GetLegacySigOpCount_exact.
    pose proof (zsum_elem script_bytes vtx tx (λ t _, Hp t) Htx). lia. }
  assert (Hle : zsum sigops vtx <= 20 * zsum script_bytes vtx)
    by (rewrite <- zsum_scale; apply zsum_le; intros tx Htx; by apply H).
  split; [|done]. unfold block_sigops.
  assert (E : zsum GetLegacySigOpCount vtx = zsum sigops vtx).
  { apply Z.le_antisymm; apply zsum_le; intros tx Htx; destruct (H tx Htx) as [-> ?]; lia. }
  rewrite counter_exact; [lia| |lia|lia]. intros tx Htx. destruct (H tx Htx) as [-> ?]. lia.
Qed.

(** *** What the parts of the checks leave *)

Lemma check_transactions_all vtx :
  (∀ tx, tx ∈ vtx → TxSerializeSize false tx < 2 ^ 61) → check_transactions vtx = None → Forall tx_valid vtx.
Proof.
  induction vtx as [|tx vtx IH]; intros Hs H; [done|]. cbn [check_transactions] in H.
  destruct (CheckTransaction tx) eqn:E; [done|]. constructor.
  - apply CheckTransaction_iff; [|done]. apply Hs, elem_of_cons. by left.
  - apply IH; [|done]. intros t Ht. apply Hs, elem_of_cons. by right.
Qed.

Lemma TxSerializeSize_block w h vtx tx : tx ∈ vtx → TxSerializeSize w tx <= BlockSerializeSize w h vtx.
Proof.
  intros Htx. unfold BlockSerializeSize, SerializeBlock. rewrite !length_app, !Nat2Z.inj_add, concat_length.
  pose proof (zsum_elem (TxSerializeSize w) vtx tx) as H. unfold TxSerializeSize in *.
  specialize (H ltac:(lia) Htx). lia.
Qed.

Lemma check_contents_inv h vtx :
  BlockSerializeSize false h vtx < 2 ^ 60 → check_contents h vtx = None →
  ∃ coinbase rest, vtx = coinbase :: rest ∧ IsCoinBase coinbase = true ∧
    Forall (λ tx, IsCoinBase tx = false) rest ∧ Forall tx_valid vtx ∧
    4 * zsum sigops vtx <= MAX_BLOCK_SIGOPS_COST.
Proof.
  intros Hsz. unfold check_contents. destruct (_ || _) eqn:Eo; [done|].
  apply orb_false_iff in Eo as [_ Eo]. breflect.
  rewrite wrap_small in Eo by (unfold fits, WITNESS_SCALE_FACTOR, BlockSerializeSize in *; lia).
  destruct vtx as [|cb rest]; [done|]. destruct (IsCoinBase cb) eqn:Hcb; [|done]. cbn [negb tail].
  destruct (existsb IsCoinBase rest) eqn:Ex; [done|]. destruct (check_transactions _) eqn:Et; [done|].
  destruct (_ <? _) eqn:Es; [done|]. intros _. breflect. exists cb, rest. split_and!; try done.
  - apply Forall_forall. intros tx Htx. destruct (IsCoinBase tx) eqn:E; [|done].
    rewrite <- Ex. symmetry. apply existsb_exists. exists tx. split; [by apply list_elem_of_In|done].
  - apply check_transactions_all; [|done]. intros tx Htx.
    pose proof (TxSerializeSize_block false h _ tx Htx). lia.
  - pose proof (script_bytes_block h (cb :: rest)) as Hb. unfold MAX_BLOCK_WEIGHT, WITNESS_SCALE_FACTOR in *.
    destruct (block_sigops_exact (cb :: rest)) as [E Hle]; [lia|]. rewrite E in Es.
    assert (0 <= zsum sigops (cb :: rest)).
    { apply zsum_nonneg. intros tx Htx. apply GetLegacySigOpCount_exact.
      pose proof (script_bytes_size tx). pose proof (TxSerializeSize_block false h _ tx Htx). lia. }
    rewrite wrap_small in Es by (unfold fits; lia). lia.
Qed.

Lemma check_weight_inv bparams h vtx :
  BlockSerializeSize false h vtx < 2 ^ 60 → BlockSerializeSize true h vtx < 2 ^ 60 →
  check_weight bparams h vtx = None →
  3 * BlockSerializeSize false h vtx + BlockSerializeSize true h vtx <= MAX_BLOCK_WEIGHT.
Proof.
  intros Hsz Hszw. unfold check_weight, GetBlockWeight, WITNESS_SCALE_FACTOR.
  assert (0 <= BlockSerializeSize false h vtx) by (unfold BlockSerializeSize; lia).
  assert (0 <= BlockSerializeSize true h vtx) by (unfold BlockSerializeSize; lia).
  rewrite (wrap_small 64) by (unfold fits; lia). rewrite swrap_small by lia.
  destruct (Z.ltb_spec MAX_BLOCK_WEIGHT (BlockSerializeSize false h vtx * (4 - 1) + BlockSerializeSize true h vtx));
    [done|]. intros _. lia.
Qed.

(** The output that was added last is the one found. *)
Lemma commitment_index_app o outs out pos :
  commitment_index o (outs ++ [out]) pos =
  if is_commitment (scriptPubKey out) then Some (o + length outs)%nat else commitment_index o outs pos.
Proof.
  revert o pos. induction outs as [|x outs IH]; intros o pos; cbn [app commitment_index length].
  - rewrite Nat.add_0_r. by destruct (is_commitment _).
  - rewrite IH. by rewrite Nat.add_succ_r.
Qed.

Lemma commitment_script_found root : is_commitment (commitment_script root) = true.
Proof.
  unfold is_commitment, commitment_script.
  assert (E : length ([OP_RETURN; 0x24; 0xaa; 0x21; 0xa9; 0xed] ++ write_uint256 root) = 38%nat).
  { rewrite length_app. unfold write_uint256. by rewrite length_reverse, le_bytes_length. }
  by rewrite E.
Qed.

Lemma commitment_index_snoc outs v root :
  commitment_index 0 (outs ++ [mkTxOut v (commitment_script root)]) None = Some (length outs).
Proof. rewrite commitment_index_app. cbn [scriptPubKey]. by rewrite commitment_script_found. Qed.

(** Contents of a header with contents that pass fail only as mutated. *)
Lemma failure_mutated SHA256d (Fits : ∀ x, fits 256 (SHA256d x)) hashed params bparams sgn st h vtx vtx' prev f :
  contents_bytes SHA256d vtx ⊆ hashed → contents_bytes SHA256d vtx' ⊆ hashed →
  signet_blocks bparams = false → hdr_hashMerkleRoot h ≠ 0 →
  Forall tx_ok vtx → Forall tx_ok vtx' →
  (check_block SHA256d params bparams sgn st (new_block h vtx') prev).2 = None →
  (check_block SHA256d params bparams sgn st (new_block h vtx) prev).2 = Some f →
  (∃ reason, f = Invalid BLOCK_MUTATED reason) ∨
  Forall (λ tx, TxSerializeSize false tx = 64) vtx ∨
  Forall (λ tx, TxSerializeSize false tx = 64) vtx' ∨ collision SHA256d hashed.
Proof.
  unfold contents_bytes. intros Hh Hh' Hsg Hr0 Hok Hok' Hv' Hv. pose proof Hv' as Hc'. rewrite check_block_new in Hc'.
  rewrite Hsg in Hc'. cbn [andb] in Hc'. destruct (CheckBlockHeader SHA256d params h) eqn:Eh; [done|].
  destruct (CheckMerkleRoot SHA256d (new_block h vtx')).2 eqn:Em'; [done|].
  destruct (CheckMerkleRoot SHA256d (new_block h vtx)).2 as [f'|] eqn:Em.
  - rewrite check_block_new, Hsg, Eh, Em in Hv. cbn [andb] in Hv. injection Hv as <-.
    left. by eapply CheckMerkleRoot_fails.
  - destruct (check_contents h vtx') eqn:Ec'; [done|]. apply check_contents_coinbase in Ec'.
    split_sub. destruct (merkle_same SHA256d Fits hashed h vtx vtx') as [Es|?]; [done|done|done|done| |by destruct vtx'|done|done| |by auto].
    + intros ->. apply CheckMerkleRoot_iff in Em. cbn in Em. congruence.
    + destruct (same_transactions_mutated SHA256d Fits hashed params bparams sgn st h vtx vtx' prev f) as [?|?]; auto.
Qed.

(** The two checks as [AcceptBlock] composes them. *)
Lemma check_body_eq SHA256d params bparams sgn st h vtx prev :
  check_body (λ h vtx, (CheckBlock SHA256d params bparams sgn (new_block h vtx) true true).2)
    (λ st h vtx prev, (ContextualCheckBlock SHA256d params bparams st (new_block h vtx) prev).2)
    st h vtx prev = (check_block SHA256d params bparams sgn st (new_block h vtx) prev).2.
Proof.
  unfold check_body. rewrite check_block_new.
  pose proof (CheckBlock_bare SHA256d params bparams sgn (new_block h vtx) true true) as E.
  change (bare (new_block h vtx)) with (new_block h vtx) in E. rewrite E. cbn [new_block blk_header blk_vtx].
  destruct (CheckBlockHeader _ _ _); [done|]. destruct (_ && _ && _); [done|].
  change (mkBlock h vtx false false false) with (new_block h vtx).
  destruct (CheckMerkleRoot _ _).2; [done|]. by destruct (check_contents h vtx).
Qed.

(** What contents that pass the checks satisfy. *)
Lemma checked_contents SHA256d params bparams sgn st h vtx prev :
  BlockSerializeSize false h vtx < 2 ^ 60 → BlockSerializeSize true h vtx < 2 ^ 60 →
  (check_block SHA256d params bparams sgn st (new_block h vtx) prev).2 = None →
  ∃ coinbase rest cutoff, vtx = coinbase :: rest ∧
    IsCoinBase coinbase = true ∧ Forall (λ tx, IsCoinBase tx = false) rest ∧
    Forall tx_valid vtx ∧
    4 * zsum sigops vtx <= MAX_BLOCK_SIGOPS_COST ∧
    3 * BlockSerializeSize false h vtx + BlockSerializeSize true h vtx <= MAX_BLOCK_WEIGHT ∧
    BlockMerkleRoot SHA256d vtx = (hdr_hashMerkleRoot h, false) ∧
    lock_time_cutoff bparams st h prev = Some cutoff ∧
    Forall (λ tx, IsFinalTx tx (block_height st prev) cutoff = true) vtx ∧
    (BIP34Height params <= block_height st prev →
     ∃ i ins s, vin coinbase = i :: ins ∧ scriptSig i = push_int64 (block_height st prev) ++ s) ∧
    (CheckWitnessMalleation SHA256d (new_block h vtx)
       (ActiveAfter (block_height st prev) (SegwitHeight params))).2 = None.
Proof.
  intros Hsz Hszw. rewrite check_block_new. destruct (CheckBlockHeader _ _ _); [done|].
  destruct (_ && _ && _); [done|].
  destruct (CheckMerkleRoot SHA256d (new_block h vtx)).2 eqn:Em; [done|]. apply CheckMerkleRoot_iff in Em.
  destruct (check_contents h vtx) eqn:Ec; [done|].
  rewrite (ContextualCheckBlock_new SHA256d params bparams sgn).
  apply check_contents_inv in Ec as (cb & rest & -> & Hcb & Hrest & Hvalid & Hsig); [|done].
  destruct (lock_time_cutoff _ _ _ _) as [cutoff|]; [|done].
  destruct (forallb _ _) eqn:Ef; [|done]. cbn [negb].
  destruct (if ActiveAfter _ (BIP34Height params) then _ else _) eqn:Eh; [done|].
  destruct (CheckWitnessMalleation _ _ _).2; [done|]. intros Hw%check_weight_inv; [|done..].
  exists cb, rest, cutoff. split_and!; try done.
  - apply Forall_forall. intros tx Htx. rewrite forallb_forall in Ef. apply Ef. by apply list_elem_of_In.
  - intros Ha. unfold ActiveAfter in Eh. rewrite (proj2 (Z.leb_le _ _) Ha) in Eh. by apply height_in_coinbase_inv in Eh.
Qed.

(** ** Blocks on the wire *)

(** What a header has to satisfy to be written. *)
Definition header_writable (h : CBlockHeader) : Prop :=
  header_ok h ∧ dag_fields_ok h ∧
  Z.of_nat (length (hdr_hashParents h)) <= MAX_BLOCK_PARENTS_SERIALIZATION.

Lemma header_read h rest :
  header_writable h → UnserializeHeader null_header (SerializeHeader h ++ rest) = Some (h, rest).
Proof.
  intros (Hok & Hdag & Hl). unfold MAX_BLOCK_PARENTS_SERIALIZATION in *.
  rewrite header_roundtrip by (done || unfold MAX_SIZE; lia).
  unfold MAX_BLOCK_PARENTS_SERIALIZATION. rewrite (proj2 (Z.ltb_ge _ _)) by lia. by rewrite andb_false_r.
Qed.

Lemma transactions_read w (back : CTransaction → CTransaction) vtx rest :
  (∀ tx r, tx ∈ vtx → UnserializeTransaction w (SerializeTransaction w tx ++ r) = Some (back tx, r)) →
  read_n (length vtx) (UnserializeTransaction w) (concat (SerializeTransaction w <$> vtx) ++ rest)
  = Some (back <$> vtx, rest).
Proof.
  induction vtx as [|tx vtx IH]; intros H; [done|]. rewrite !fmap_cons. cbn [length read_n concat].
  rewrite <- app_assoc. erewrite parser_bind_Some by (apply H, elem_of_cons; by left).
  erewrite parser_bind_Some by (apply IH; intros t r Ht; apply H, elem_of_cons; by right). done.
Qed.

Lemma read_transactions_inv w k s vtx rest :
  Forall is_byte s → read_n k (UnserializeTransaction w) s = Some (vtx, rest) →
  s = concat (SerializeTransaction w <$> vtx) ++ rest ∧ length vtx = k ∧ Forall tx_ok vtx ∧
  (w = false → Forall (λ tx, HasWitness tx = false) vtx).
Proof.
  revert s vtx. induction k as [|k IH]; intros s vtx Hs; cbn [read_n]; [by intros [= <- <-]|].
  intros (tx & s1 & Htx & (v & s2 & Hv & [= <- <-])%parser_bind_inv)%parser_bind_inv.
  apply transaction_canonical in Htx as (-> & Hok & Hw); [|done]. apply Forall_app in Hs as [_ Hs].
  apply IH in Hv as (-> & <- & Hv & Hvw); [|done]. rewrite fmap_cons. cbn [concat length].
  rewrite <- app_assoc. split_and!; [done|done|by constructor|]. intros E. constructor; auto.
Qed.

Lemma block_read w (back : CTransaction → CTransaction) h vtx rest :
  header_writable h → vector_size_ok vtx →
  (∀ tx r, tx ∈ vtx → UnserializeTransaction w (SerializeTransaction w tx ++ r) = Some (back tx, r)) →
  UnserializeBlock w (SerializeBlock w h vtx ++ rest) = Some ((h, back <$> vtx), rest).
Proof.
  intros Hh Hsz Hv. unfold UnserializeBlock, SerializeBlock. rewrite <- !app_assoc.
  erewrite parser_bind_Some by (by apply header_read).
  erewrite parser_bind_Some by (apply (decode_encode CompactSize_codec); cbn; unfold vector_size_ok in *; lia).
  rewrite Nat2Z.id. by erewrite parser_bind_Some by (by apply transactions_read).
Qed.

(** ** Properties *)

(** C28. A block is read back from what was written: in full in the format with witnesses, if
    every transaction has an input, and without the witnesses in the other format; and the
    rest of the stream is left. *)
Theorem block_roundtrip h vtx rest :
  header_writable h → vector_size_ok vtx → Forall tx_ok vtx →
  (Forall (λ tx, vin tx ≠ []) vtx →
   UnserializeBlock true (SerializeBlock true h vtx ++ rest) = Some ((h, vtx), rest)) ∧
  UnserializeBlock false (SerializeBlock false h vtx ++ rest)
  = Some ((h, strip_witness <$> vtx), rest).
Proof.
  intros Hh Hsz Hok. rewrite Forall_forall in Hok. split.
  - intros Hne. rewrite Forall_forall in Hne. rewrite <- (list_fmap_id vtx) at 2.
    apply block_read; [done..|]. intros tx r Htx. apply unserialize_with; auto.
  - apply block_read; [done..|]. intros tx r Htx. apply unserialize_basic; auto.
Qed.

(** There is one way to write a block: what a reader accepts, in either format, is the
    serialization of the block it returns, followed by what it left.  The fields of the
    block are in range, parent hashes occur only with the DAG bit and are at most
    [MAX_BLOCK_PARENTS_SERIALIZATION], and there are no witnesses in the format without. *)
Theorem block_canonical w s h vtx rest :
  Forall is_byte s → UnserializeBlock w s = Some ((h, vtx), rest) →
  s = SerializeBlock w h vtx ++ rest ∧ header_writable h ∧ Forall tx_ok vtx ∧
  (w = false → Forall (λ tx, HasWitness tx = false) vtx).
Proof.
  intros Hs (h' & s1 & Hh & H)%parser_bind_inv. apply header_canonical in Hh as (-> & Hok & Hdag & Hl); [|done].
  apply Forall_app in Hs as [_ Hs]. apply parser_bind_inv in H as (size & s2 & Hsz & H).
  apply read_size_inv in Hsz as (-> & Hz & Hs2); [|done].
  apply parser_bind_inv in H as (v & s3 & Hv & [= <- <- <-]).
  apply read_transactions_inv in Hv as (-> & Hlen & Hv & Hw); [|done].
  unfold SerializeBlock. rewrite Hlen, Z2Nat.id, <- !app_assoc by lia. done.
Qed.

(** The flags of a block object that record passed checks never change a result: each
    check of a block whose flags are right returns what it returns for the block without
    flags, leaves the header and the transactions alone, and sets flags that are right. *)
Theorem block_flags_invisible SHA256d params bparams sgn st b prev p m expect :
  flags_ok SHA256d params bparams sgn b →
  transparent SHA256d params bparams sgn b (CheckMerkleRoot SHA256d b)
    (CheckMerkleRoot SHA256d (bare b)).2 ∧
  transparent SHA256d params bparams sgn b (CheckWitnessMalleation SHA256d b expect)
    (CheckWitnessMalleation SHA256d (bare b) expect).2 ∧
  transparent SHA256d params bparams sgn b (CheckBlock SHA256d params bparams sgn b p m)
    (CheckBlock SHA256d params bparams sgn (bare b) p m).2 ∧
  transparent SHA256d params bparams sgn b (ContextualCheckBlock SHA256d params bparams st b prev)
    (ContextualCheckBlock SHA256d params bparams st (bare b) prev).2.
Proof.
  intros Hb. split_and!; [by apply CheckMerkleRoot_flags|by apply CheckWitnessMalleation_flags|
    by apply CheckBlock_flags|by apply ContextualCheckBlock_flags].
Qed.

(** C18. The hash of a block commits to everything in it: two blocks with the same hash that
    start with a coinbase (of a size other than the 64 bytes of two hashes) and are not
    recognised as mutated have the same transactions with the same witnesses, unless two
    different strings among those hashed for the two blocks (the headers, the transactions
    with and without witnesses, the pairs of both Merkle trees and the commitment) have the
    same hash. *)
Theorem block_commits_to_contents SHA256d h h' vtx vtx' expect :
  (∀ x, fits 256 (SHA256d x)) → header_ok h → header_ok h' →
  GetHash SHA256d h = GetHash SHA256d h' →
  Forall tx_ok vtx → Forall tx_ok vtx' →
  starts_with_coinbase vtx = true → starts_with_coinbase vtx' = true →
  (∀ tx, head vtx = Some tx → TxSerializeSize false tx ≠ 64) →
  (∀ tx, head vtx' = Some tx → TxSerializeSize false tx ≠ 64) →
  (IsBlockMutated SHA256d (new_block h vtx) expect).2 = false →
  (IsBlockMutated SHA256d (new_block h' vtx') expect).2 = false →
  vtx = vtx' ∨
  collision SHA256d (hash_preimage h :: hash_preimage h' :: contents_bytes SHA256d vtx ++ contents_bytes SHA256d vtx').
Proof.
  set (hashed := _ :: _ :: _). intros Fits Hh Hh' Eh Hok Hok' Hcb Hcb' H64 H64' Hm Hm'.
  assert (Hsub : contents_bytes SHA256d vtx ⊆ hashed ∧ contents_bytes SHA256d vtx' ⊆ hashed)
    by (split; intros x Hx; do 2 right; apply elem_of_app; auto). destruct Hsub as [Hs Hs'].
  apply (hash_eq SHA256d hashed) in Eh as [Eh|]; [|by right|by left|by right; left].
  apply preimage_inj in Eh as (_ & _ & Er & _); [|done..].
  apply IsBlockMutated_false in Hm as [Hm Hw]; [|done].
  apply IsBlockMutated_false in Hm' as [Hm' Hw']; [|done].
  rewrite CheckMerkleRoot_iff, <- Er, <- CheckMerkleRoot_iff in Hm'.
  rewrite CheckWitnessMalleation_new, <- (CheckWitnessMalleation_new SHA256d h) in Hw'.
  destruct (unmutated_same SHA256d Fits hashed h vtx vtx' expect) as [?|[H|[H|?]]]; auto.
  - destruct vtx as [|tx vtx]; [done|]. by destruct (H64 tx eq_refl); apply Forall_inv in H.
  - destruct vtx' as [|tx vtx']; [done|]. by destruct (H64' tx eq_refl); apply Forall_inv in H.
Qed.

(** C19. Changed contents do no harm to a header: on a network without signed blocks (not a
    signet), if some contents of a header whose Merkle root is not zero would pass the
    checks, then a block with the same header and other contents that fail them leaves the
    node as it is after the header alone, so the header is not marked as failed and the
    right contents can still be accepted; unless all transactions of one of the two are 64
    bytes long, or two different strings among those hashed for the two contents have the
    same hash. *)
Theorem changed_contents_harmless SHA256d genesis params opts address bparams sgn save cm h vtx vtx'
    fRequested min_pow_checked now rand cm1 hash b :
  (∀ x, fits 256 (SHA256d x)) → signet_blocks bparams = false → hdr_hashMerkleRoot h ≠ 0 →
  Forall tx_ok vtx → Forall tx_ok vtx' →
  AcceptBlockHeader SHA256d genesis params opts cm h min_pow_checked now = (cm1, inl hash) →
  m_block_index cm1 !! hash = Some b →
  (check_block SHA256d params bparams sgn (m_block_index cm1) (new_block h vtx') (pprev b)).2 = None →
  (check_block SHA256d params bparams sgn (m_block_index cm1) (new_block h vtx) (pprev b)).2 ≠ None →
  (AcceptFullBlock SHA256d params bparams sgn genesis opts address save cm h vtx fRequested
     min_pow_checked now rand).1 = cm1 ∨
  Forall (λ tx, TxSerializeSize false tx = 64) vtx ∨
  Forall (λ tx, TxSerializeSize false tx = 64) vtx' ∨
  collision SHA256d (contents_bytes SHA256d vtx ++ contents_bytes SHA256d vtx').
Proof.
  intros Fits Hsg Hr0 Hok Hok' Hh Hb Hv' Hv. unfold AcceptFullBlock, AcceptBlock. rewrite Hh, Hb.
  destruct (skip_block opts cm1 b fRequested); [by left|]. rewrite check_body_eq.
  destruct (check_block SHA256d params bparams sgn (m_block_index cm1) (new_block h vtx) (pprev b)).2
    as [f|] eqn:Ef; [|done]. cbn [fst].
  destruct (failure_mutated SHA256d Fits (contents_bytes SHA256d vtx ++ contents_bytes SHA256d vtx') params bparams sgn
    (m_block_index cm1) h vtx vtx' (pprev b) f) as [[r ->]|?];
    [by apply list_subseteq_app_l|by apply list_subseteq_app_r|done..|left|by right]. done.
Qed.

(** The mandatory height at the start of the coinbase script makes the coinbases of
    different heights different: if the coinbases of two contents with the height rule
    active have the same id, the heights are equal, or the two coinbases are different
    strings with the same hash. *)
Theorem coinbase_heights_distinct SHA256d vtx vtx' cb cb' height height' :
  0 <= height < 2 ^ 31 → 0 <= height' < 2 ^ 31 →
  head vtx = Some cb → head vtx' = Some cb' → tx_ok cb → tx_ok cb' →
  height_in_coinbase vtx height = None → height_in_coinbase vtx' height' = None →
  GetTxid SHA256d cb = GetTxid SHA256d cb' →
  height = height' ∨ collision SHA256d [SerializeTransaction false cb; SerializeTransaction false cb'].
Proof.
  intros Hh Hh' Hcb Hcb' Hok Hok' H H' E. eapply txid_binding in E as [Es|Hc]; [|by right|by left|by right; left|done..]. left.
  destruct vtx as [|? vtx], vtx' as [|? vtx']; try done. injection Hcb as ->. injection Hcb' as ->.
  apply height_in_coinbase_inv in H as (i & ins & s & Hi & Hs).
  apply height_in_coinbase_inv in H' as (i' & ins' & s' & Hi' & Hs').
  assert (E : scriptSig i = scriptSig i').
  { apply (f_equal vin) in Es. cbn in Es. rewrite Hi, Hi', !fmap_cons in Es. by apply cons_eq in Es as [E%(f_equal scriptSig) _]. }
  apply (push_int64_inj height height' s s'); try lia; [| |by rewrite <- Hs, <- Hs'].
  - pose proof (scriptSig_short cb i Hok ltac:(rewrite Hi; apply elem_of_cons; by left)) as Hl.
    rewrite Hs, length_app in Hl. lia.
  - pose proof (scriptSig_short cb' i' Hok' ltac:(rewrite Hi'; apply elem_of_cons; by left)) as Hl.
    rewrite Hs', length_app in Hl. lia.
Qed.

(** C17. What the contents of a block that was stored satisfy, in the block index as it is once
    [AcceptBlockHeader] has accepted the header, where [b] is the entry of the block and the
    height is one more than that of its parent: one coinbase, at the front; every transaction
    valid on its own and final at the height and the cut-off time of the parent; the header's
    merkle root, without a repeated pair; the height in the coinbase where the rule is active;
    the witness rules; and the limits on signature operations and weight, as integers: no
    counter and no size computation wraps. *)
Theorem stored_contents_sound SHA256d genesis params opts address bparams sgn save cm h vtx fRequested
    min_pow_checked now rand cm' :
  BlockSerializeSize false h vtx < 2 ^ 60 → BlockSerializeSize true h vtx < 2 ^ 60 →
  AcceptFullBlock SHA256d params bparams sgn genesis opts address save cm h vtx fRequested
    min_pow_checked now rand = (cm', inl true) →
  ∃ cm1 b, AcceptBlockHeader SHA256d genesis params opts cm h min_pow_checked now = (cm1, inl (GetHash SHA256d h)) ∧
    m_block_index cm1 !! GetHash SHA256d h = Some b ∧
    let st := m_block_index cm1 in
    let height := block_height st (pprev b) in
    ∃ coinbase rest cutoff, vtx = coinbase :: rest ∧
      IsCoinBase coinbase = true ∧ Forall (λ tx, IsCoinBase tx = false) rest ∧
      Forall tx_valid vtx ∧
      4 * zsum sigops vtx <= MAX_BLOCK_SIGOPS_COST ∧
      3 * BlockSerializeSize false h vtx + BlockSerializeSize true h vtx <= MAX_BLOCK_WEIGHT ∧
      BlockMerkleRoot SHA256d vtx = (hdr_hashMerkleRoot h, false) ∧
      lock_time_cutoff bparams st h (pprev b) = Some cutoff ∧
      Forall (λ tx, IsFinalTx tx height cutoff = true) vtx ∧
      (BIP34Height params <= height →
       ∃ i ins s, vin coinbase = i :: ins ∧ scriptSig i = push_int64 height ++ s) ∧
      (CheckWitnessMalleation SHA256d (new_block h vtx)
         (ActiveAfter height (SegwitHeight params))).2 = None.
Proof.
  intros Hsz Hszw. unfold AcceptFullBlock, AcceptBlock.
  destruct (AcceptBlockHeader _ _ _ _ _ _ _ _) as [cm1 [hash|f]] eqn:Eh; [|done].
  assert (hash = GetHash SHA256d h) as ->.
  { unfold AcceptBlockHeader in Eh. repeat case_match; by simplify_eq. }
  destruct (m_block_index cm1 !! GetHash SHA256d h) as [b|] eqn:Eb; [|done].
  destruct (skip_block opts cm1 b fRequested); [done|]. rewrite check_body_eq.
  destruct (check_block _ _ _ _ _ _ _).2 eqn:Ec; [done|]. intros _.
  exists cm1, b. split_and!; [done..|]. by apply (checked_contents SHA256d params bparams sgn).
Qed.

(** A block with a coinbase without witness and without commitment, after
    [GenerateCoinbaseCommitment], passes the witness checks with the commitment expected. *)
Theorem generated_commitment_valid SHA256d h vtx :
  starts_with_coinbase vtx = true → GetWitnessCommitmentIndex vtx = None →
  (∀ tx, head vtx = Some tx → HasWitness tx = false) →
  (CheckWitnessMalleation SHA256d
     (new_block h (GenerateCoinbaseCommitment SHA256d vtx true).1) true).2 = None.
Proof.
  intros Hcb Hi Hw. destruct vtx as [|cb rest]; [done|]. cbn [starts_with_coinbase] in Hcb.
  specialize (Hw cb eq_refl). unfold GenerateCoinbaseCommitment. rewrite Hi. cbn [fst].
  set (script := commitment_script _). set (cb' := mkTransaction _ _ _ _).
  assert (Hpos : ∀ rest', GetWitnessCommitmentIndex (cb' :: rest') = Some (length (vout cb)))
    by (intros rest'; by apply commitment_index_snoc).
  unfold UpdateUncommittedBlockStructures. rewrite Hpos, bool_decide_true by done.
  change (HasWitness cb') with (HasWitness cb). rewrite Hw. cbn [andb negb].
  rewrite CheckWitnessMalleation_new. unfold IsCoinBase in Hcb.
  destruct (vin cb) as [|i [|]] eqn:Ev; [done| |done]. unfold set_first_witness. cbn [vin cb'].
  set (cb2 := mkTransaction _ _ _ _). assert (H2 : GetWitnessCommitmentIndex (cb2 :: rest) = _) by exact (Hpos rest).
  rewrite H2. unfold check_commitment. cbn [vin cb2 set_witness scriptWitness length replicate Nat.eqb negb].
  rewrite bool_decide_true; [done|]. unfold commitment_bytes. cbn [vout cb2 cb'].
  rewrite lookup_app_r, Nat.sub_diag by lia. cbn [lookup list_lookup scriptPubKey].
  unfold script, commitment_script. rewrite (drop_app_length' _ _ 6) by done. rewrite take_ge; [done|].
  unfold write_uint256. by rewrite length_reverse, le_bytes_length.
Qed.

(** The weight limit for post-quantum blocks of 16,000,000 that every network sets is never
    the one that decides: with a limit of at least [MAX_BLOCK_WEIGHT] no block is refused
    by it, and every block heavier than the general limit of 4,000,000 is refused. *)
Theorem pqc_weight_limit_idle SHA256d params bparams st b prev :
  MAX_BLOCK_WEIGHT <= nMaxBlockWeightPQC bparams →
  (ContextualCheckBlock SHA256d params bparams st b prev).2
    ≠ Some (Invalid BLOCK_CONSENSUS "bad-pqc-blk-weight") ∧
  (MAX_BLOCK_WEIGHT < GetBlockWeight (blk_header b) (blk_vtx b) →
   (ContextualCheckBlock SHA256d params bparams st b prev).2 ≠ None).
Proof.
  intros Hlim. assert (Hw : ∀ h vtx, check_weight bparams h vtx =
    if MAX_BLOCK_WEIGHT <? GetBlockWeight h vtx then Some (Invalid BLOCK_CONSENSUS "bad-blk-weight") else None).
  { intros h vtx. unfold check_weight. destruct (Z.ltb_spec MAX_BLOCK_WEIGHT (GetBlockWeight h vtx)); [done|].
    by rewrite (proj2 (Z.ltb_ge (nMaxBlockWeightPQC bparams) _)), andb_false_r by lia. }
  unfold ContextualCheckBlock. destruct (lock_time_cutoff _ _ _ _) as [cutoff|]; [|done].
  destruct (negb (forallb _ _)); [done|].
  destruct (if ActiveAfter _ (BIP34Height params) then _ else _) as [f|] eqn:Eh.
  { cbn [snd]. split; [|done]. destruct (ActiveAfter _ _); [|done]. unfold height_in_coinbase in Eh.
    repeat case_match; congruence. }
  assert (Hm : ∀ r b', CheckWitnessMalleation SHA256d b
      (ActiveAfter (block_height st prev) (SegwitHeight params)) = (b', r) →
      blk_header b' = blk_header b ∧ blk_vtx b' = blk_vtx b ∧
      r ≠ Some (Invalid BLOCK_CONSENSUS "bad-pqc-blk-weight")).
  { unfold CheckWitnessMalleation, check_commitment, no_witness.
    repeat (case_match; simplify_eq); intros ? ? [= <- <-]; done. }
  destruct (CheckWitnessMalleation _ _ _) as [b' r]. destruct (Hm _ _ eq_refl) as (-> & -> & Hr).
  destruct r as [f|]; [done|]. cbn [snd]. rewrite Hw.
  destruct (Z.ltb_spec MAX_BLOCK_WEIGHT (GetBlockWeight (blk_header b) (blk_vtx b))); split; done || lia.
Qed.

(** ** A concrete block *)

Definition example_coinbase : CTransaction :=
  mkTransaction [mkTxIn (mkOutPoint 0 NULL_INDEX) [0x51; 1; 2] SEQUENCE_FINAL []]
    [mkTxOut 100000000 [0x51; OP_CHECKSIG]] 2 0.
Definition example_payment : CTransaction :=
  mkTransaction [mkTxIn (mkOutPoint 7 0) [] SEQUENCE_FINAL [[1; 2]; [3]]] [mkTxOut 5 [0x51]] 2 0.

Definition example_vtx : list CTransaction :=
  (GenerateCoinbaseCommitment small_hash [example_coinbase; example_payment] true).1.

Definition example_genesis : CBlockHeader := mkHeader 1 0 0 1743379200 0x1e0fffff 748526 0 [].
Definition example_genesis_hash : Z := GetHash small_hash example_genesis.
Definition example_options : Options := mkOptions None None false [] 0.
Definition example_bparams : BodyParams := mkBodyParams 1 16000000 false.

(** The node with the genesis block. *)
Definition example_node : ChainstateManager :=
  (LoadGenesisBlock small_hash CQbtcTestNetParams id (λ vtx, Z.of_nat (length vtx)) (λ _ _ _, true)
     (mkChainman ∅ None None [] [] 1 [] [] empty_tipset empty_manager) example_genesis
     [example_coinbase]).1.

Definition example_header (vtx : list CTransaction) : CBlockHeader :=
  mkHeader 0x30000000 example_genesis_hash (BlockMerkleRoot small_hash vtx).1 1743379210 0x1e0fffff 1 0 [].

(** The node after the header of the block. *)
Abbreviation example_accept_header :=
  (AcceptBlockHeader small_hash example_genesis_hash CQbtcTestNetParams example_options example_node
    (example_header example_vtx) true 1743400000).

Definition example_index : BlockMap := m_block_index example_accept_header.1.

Abbreviation example_check vtx :=
  (check_block small_hash CQbtcTestNetParams example_bparams (λ _ _, true) example_index
    (new_block (example_header example_vtx) vtx) (Some example_genesis_hash)).

Abbreviation example_accept vtx :=
  (AcceptFullBlock small_hash CQbtcTestNetParams example_bparams (λ _ _, true) example_genesis_hash
    example_options id (λ _ _ _, true) example_node (example_header example_vtx) vtx true true
    1743400000 5).

(** The same transactions with another witness of the payment. *)
Definition changed_vtx : list CTransaction :=
  match example_vtx with
  | [coinbase; tx] => [coinbase; set_first_witness tx [[9]]]
  | _ => []
  end.

Lemma example_ok : Forall tx_ok example_vtx ∧ Forall tx_ok changed_vtx.
Proof.
  split; vm_compute; repeat (constructor || done || (intros [=])).
Qed.

Lemma example_passes : (example_check example_vtx).2 = None.
Proof. vm_compute. reflexivity. Qed.

Lemma example_coinbase_first : starts_with_coinbase example_vtx = true.
Proof. vm_compute. reflexivity. Qed.

Lemma example_coinbase_size tx : head example_vtx = Some tx → TxSerializeSize false tx ≠ 64.
Proof.
  assert (E : (TxSerializeSize false <$> head example_vtx) = Some 112) by (vm_compute; reflexivity).
  intros H. rewrite H in E. apply (inj Some) in E. change (TxSerializeSize false tx = 112) in E. by rewrite E.
Qed.

#[local] Opaque small_hash.

Definition example_flagged : CBlock :=
  (CheckMerkleRoot small_hash (new_block (example_header example_vtx) example_vtx)).1.

Lemma example_flagged_ok :
  flags_ok small_hash CQbtcTestNetParams example_bparams (λ _ _, true) example_flagged.
Proof.
  assert (E : fChecked example_flagged = false ∧ m_checked_witness_commitment example_flagged = false)
    by (vm_compute; done).
  destruct E as [E1 E2]. split; [intros _; vm_compute; reflexivity|rewrite E2; discriminate|rewrite E1; discriminate].
Qed.

Lemma block_flags_invisible_witness :
  m_checked_merkle_root example_flagged = true ∧
  (CheckBlock small_hash CQbtcTestNetParams example_bparams (λ _ _, true) example_flagged true true).2 =
  (CheckBlock small_hash CQbtcTestNetParams example_bparams (λ _ _, true) (bare example_flagged) true true).2.
Proof.
  split; [vm_compute; reflexivity|].
  destruct (block_flags_invisible small_hash CQbtcTestNetParams example_bparams (λ _ _, true) ∅
    example_flagged None true true true example_flagged_ok) as (_ & _ & [H _] & _).
  exact H.
Defined.

Lemma example_header_ok vtx : header_ok (example_header vtx).
Proof.
  split; cbn [example_header hdr_nVersion hdr_hashPrevBlock hdr_hashMerkleRoot hdr_nTime hdr_nBits hdr_nNonce
    hdr_hashParentsRoot hdr_hashParents];
    [lia|apply small_hash_fits|apply (root_fits small_hash small_hash_fits), (txids_fit small_hash small_hash_fits)|
     unfold fits; lia..|constructor].
Qed.

Lemma block_commits_to_contents_witness :
  (IsBlockMutated small_hash (new_block (example_header example_vtx) example_vtx) true).2 = false ∧
  (example_vtx = example_vtx ∨ collision small_hash
    (hash_preimage (example_header example_vtx) :: hash_preimage (example_header example_vtx) ::
     contents_bytes small_hash example_vtx ++ contents_bytes small_hash example_vtx)).
Proof.
  assert (Hm : (IsBlockMutated small_hash (new_block (example_header example_vtx) example_vtx) true).2 = false)
    by (vm_compute; reflexivity).
  pose proof (example_header_ok example_vtx) as Hh. split; [exact Hm|].
  exact (block_commits_to_contents small_hash _ _ example_vtx example_vtx true small_hash_fits Hh Hh eq_refl
    (proj1 example_ok) (proj1 example_ok) example_coinbase_first example_coinbase_first example_coinbase_size example_coinbase_size Hm Hm).
Defined.

Lemma example_entry :
  example_accept_header.2 = inl (GetHash small_hash (example_header example_vtx)) ∧
  pprev <$> example_index !! GetHash small_hash (example_header example_vtx) = Some (Some example_genesis_hash).
Proof. vm_compute. done. Qed.

Lemma changed_contents_harmless_witness :
  (example_check changed_vtx).2 = Some (Invalid BLOCK_MUTATED "bad-witness-merkle-match") ∧
  ((example_accept changed_vtx).1 = example_accept_header.1 ∨
   Forall (λ tx, TxSerializeSize false tx = 64) changed_vtx ∨
   Forall (λ tx, TxSerializeSize false tx = 64) example_vtx ∨
   collision small_hash (contents_bytes small_hash changed_vtx ++ contents_bytes small_hash example_vtx)).
Proof.
  assert (Hc : (example_check changed_vtx).2 = Some (Invalid BLOCK_MUTATED "bad-witness-merkle-match"))
    by (vm_compute; reflexivity).
  split; [exact Hc|]. destruct example_entry as [Ha Hb].
  assert (Hr : hdr_hashMerkleRoot (example_header example_vtx) ≠ 0) by (vm_compute; discriminate).
  destruct (example_index !! GetHash small_hash (example_header example_vtx)) as [b|] eqn:Eb; [|discriminate Hb].
  injection Hb as Hb. pose proof example_passes as Hp. rewrite <- Hb in Hp, Hc.
  assert (Hn : (check_block small_hash CQbtcTestNetParams example_bparams (λ _ _, true) example_index
    (new_block (example_header example_vtx) changed_vtx) (pprev b)).2 ≠ None) by (rewrite Hc; discriminate).
  refine (changed_contents_harmless small_hash example_genesis_hash CQbtcTestNetParams example_options id
    example_bparams (λ _ _, true) (λ _ _ _, true) example_node (example_header example_vtx) changed_vtx
    example_vtx true true 1743400000 5 example_accept_header.1 _ b small_hash_fits eq_refl Hr (proj2 example_ok)
    (proj1 example_ok) _ Eb Hp Hn).
  rewrite <- Ha. apply surjective_pairing.
Defined.

Lemma coinbase_heights_distinct_witness :
  ∃ cb, head example_vtx = Some cb ∧ height_in_coinbase example_vtx 1 = None ∧
        (1 = 1 ∨ collision small_hash [SerializeTransaction false cb; SerializeTransaction false cb]).
Proof.
  eexists. split; [reflexivity|]. split; [vm_compute; reflexivity|].
  eapply (coinbase_heights_distinct small_hash example_vtx example_vtx);
    [lia|lia|reflexivity|reflexivity| | |vm_compute; reflexivity|vm_compute; reflexivity|reflexivity];
    apply (Forall_inv (proj1 example_ok)).
Defined.

Lemma stored_contents_sound_witness :
  (example_accept example_vtx).2 = inl true ∧
  ∃ coinbase rest, example_vtx = coinbase :: rest ∧ IsCoinBase coinbase = true.
Proof.
  assert (Ha : (example_accept example_vtx).2 = inl true) by (vm_compute; reflexivity).
  split; [exact Ha|].
  destruct (stored_contents_sound small_hash example_genesis_hash CQbtcTestNetParams example_options id
    example_bparams (λ _ _, true) (λ _ _ _, true) example_node (example_header example_vtx) example_vtx true true
    1743400000 5 (example_accept example_vtx).1) as (cm1 & b & _ & _ & cb & rest & cutoff & E & Hcb & _);
    [vm_compute; reflexivity|vm_compute; reflexivity|rewrite <- Ha; apply surjective_pairing|].
  exists cb, rest. split; [exact E|exact Hcb].
Defined.

Lemma generated_commitment_valid_witness :
  (CheckWitnessMalleation small_hash (new_block null_header
     (GenerateCoinbaseCommitment small_hash [example_coinbase; example_payment] true).1) true).2 = None.
Proof.
  apply (generated_commitment_valid small_hash null_header [example_coinbase; example_payment]);
    [reflexivity|reflexivity|]. intros tx [= <-]. reflexivity.
Defined.

Lemma pqc_weight_limit_idle_witness :
  MAX_BLOCK_WEIGHT <= nMaxBlockWeightPQC example_bparams ∧
  (ContextualCheckBlock small_hash CQbtcTestNetParams example_bparams example_index
     (new_block (example_header example_vtx) example_vtx) (Some example_genesis_hash)).2
    ≠ Some (Invalid BLOCK_CONSENSUS "bad-pqc-blk-weight").
Proof.
  assert (H : MAX_BLOCK_WEIGHT <= nMaxBlockWeightPQC example_bparams) by (vm_compute; discriminate).
  split; [exact H|].
  apply (pqc_weight_limit_idle small_hash CQbtcTestNetParams example_bparams example_index _ (Some example_genesis_hash) H).
Defined.

Lemma block_roundtrip_witness :
  UnserializeBlock true (SerializeBlock true (example_header example_vtx) example_vtx ++ [1])
  = Some ((example_header example_vtx, example_vtx), [1]).
Proof.
  apply (block_roundtrip (example_header example_vtx) example_vtx [1]).
  - split; [apply example_header_ok|]. split; [intros _; split; reflexivity|]. vm_compute. discriminate.
  - vm_compute. discriminate.
  - apply example_ok.
  - vm_compute. repeat constructor; discriminate.
Defined.

Definition tx_example_bare : CTransaction := strip_witness tx_example.

Lemma block_canonical_witness :
  ∃ s, UnserializeBlock false s = Some ((null_header, [tx_example_bare]), [5]) ∧
       s = SerializeBlock false null_header [tx_example_bare] ++ [5].
Proof.
  exists (SerializeBlock false null_header [tx_example_bare] ++ [5]).
  assert (H : UnserializeBlock false (SerializeBlock false null_header [tx_example_bare] ++ [5])
              = Some ((null_header, [tx_example_bare]), [5])) by (vm_compute; reflexivity).
  assert (Hall : forallb (λ b, (0 <=? b) && (b <? 256)) (SerializeBlock false null_header [tx_example_bare] ++ [5]) = true)
    by (vm_compute; reflexivity).
  split; [exact H|]. eapply (block_canonical false); [|exact H].
  apply Forall_forall. intros b Hb. rewrite forallb_forall in Hall. specialize (Hall b).
  rewrite <- list_elem_of_In in Hall. specialize (Hall Hb). unfold is_byte. lia.
Defined.
