(* ===== verification/TxOutProof.v ===== *)
(** * Proofs of inclusion over RPC: src/src/rpc/txoutproof.cpp and [CMerkleBlock] of
    src/src/merkleblock.cpp

    [gettxoutproof] for a block that was found and [verifytxoutproof], without the
    conversion to and from hexadecimal digits.  [None] is the error the command throws. *)

From S2P Require Import Prelude OrdSet TipSet Arith256 Serialize BlockHeader Formats Ghostdag Mergeset.
From S2P Require Import BlockIndex BlockIndexProvider GhostdagProps Pow Subsidy Transaction Script Merkle.
From S2P Require Import PartialMerkle EarlyProtection Chainman Accept BlockCheck BlockCheckProps.

Local Open Scope Z_scope.

Record CMerkleBlock := mkMerkleBlock { mb_header : CBlockHeader; mb_txn : CPartialMerkleTree }.

Definition SerializeMerkleBlock (mb : CMerkleBlock) : list Z :=
  SerializeHeader (mb_header mb) ++ SerializePartial (mb_txn mb).

Definition UnserializeMerkleBlock : parser CMerkleBlock :=
  header ← UnserializeHeader null_header; txn ← UnserializePartial; mret (mkMerkleBlock header txn).

Section proofs.
Context (SHA256d : list Z → Z).

(** The constructor from a set of ids. *)
Definition NewMerkleBlock (header : CBlockHeader) (vtx : list CTransaction) (txids : list Z)
    : CMerkleBlock :=
  let vHashes := GetTxid SHA256d <$> vtx in
  mkMerkleBlock header
    (NewPartialMerkleTree SHA256d vHashes ((λ hash, bool_decide (hash ∈ txids)) <$> vHashes)).

(** The proof for the ids, once their block is read. *)
Definition gettxoutproof (header : CBlockHeader) (vtx : list CTransaction) (txids : list Z)
    : option (list Z) :=
  if (length txids =? 0)%nat then None
  else if negb (bool_decide (NoDup txids)) then None
  else
    let ntxFound := length (List.filter (λ tx, bool_decide (GetTxid SHA256d tx ∈ txids)) vtx) in
    if negb (ntxFound =? length txids)%nat then None
    else Some (SerializeMerkleBlock (NewMerkleBlock header vtx txids)).

(** The ids that are proved. *)
Definition verifytxoutproof (st : BlockMap) (chain : CChain) (proof : list Z) : option (list Z) :=
  match UnserializeMerkleBlock proof with
  | None => None
  | Some (mb, _) =>
      let '(root, vMatch, _) := ExtractMatches SHA256d (mb_txn mb) [] in
      if negb (root =? hdr_hashMerkleRoot (mb_header mb)) then Some []
      else
        let hash := GetHash SHA256d (mb_header mb) in
        match st !! hash with
        | None => None
        | Some b =>
            if negb (Contains st chain hash) || (nTx b =? 0) then None
            else if nTx b =? nTransactions (mb_txn mb) then Some vMatch
            else Some []
        end
  end.

(** The strings hashed while a proof is verified. *)
Definition proof_bytes (proof : list Z) : list (list Z) :=
  match UnserializeMerkleBlock proof with
  | Some (mb, _) => hash_preimage (mb_header mb) :: matches_bytes SHA256d (mb_txn mb)
  | None => []
  end.
End proofs.

(** ** Lemmas *)

(** Selecting by position and by value. *)
Lemma select_by_position (f : Z → bool) l :
  (λ p, default 0 (l !! p)) <$> List.filter (λ p, default false ((f <$> l) !! p)) (seq 0 (length l))
  = List.filter f l.
Proof.
  induction l as [|x l IH]; [done|]. cbn [length]. rewrite <- cons_seq, <- fmap_S_seq. cbn [List.filter].
  rewrite fmap_cons. change (default false ((f x :: (f <$> l)) !! 0%nat)) with (f x).
  assert (E : List.filter (λ p, default false ((f x :: (f <$> l)) !! p)) (S <$> seq 0 (length l))
              = S <$> List.filter (λ p, default false ((f <$> l) !! p)) (seq 0 (length l))).
  { generalize (seq 0 (length l)) as s. induction s as [|p s IHs]; [done|]. rewrite fmap_cons. cbn [List.filter].
    change ((f x :: (f <$> l)) !! S p) with ((f <$> l) !! p). destruct (default false _); [|done].
    rewrite fmap_cons. by f_equal. }
  rewrite E. destruct (f x); [rewrite fmap_cons; cbn [lookup list_lookup default]; f_equal|];
    rewrite <- list_fmap_compose; exact IH.
Qed.

Lemma filter_fmap {A B} (f : B → bool) (g : A → B) l :
  List.filter f (g <$> l) = g <$> List.filter (λ x, f (g x)) l.
Proof.
  induction l as [|x l IH]; [done|]. rewrite fmap_cons. cbn [List.filter]. destruct (f (g x)); [|done].
  by rewrite fmap_cons, IH.
Qed.

(** A partial tree that was read has hashes in range. *)
Lemma partial_read_fits s t rest :
  Forall is_byte s → UnserializePartial s = Some (t, rest) → Forall (fits 256) (vHash t).
Proof.
  intros Hs (n & s1 & Hn & H)%parser_bind_inv. apply canonical in Hn as [-> _]; [|done].
  apply Forall_app in Hs as [_ Hs]. apply parser_bind_inv in H as (hs & s2 & Hh & H).
  apply canonical in Hh as [_ [_ Hh]]; [|done]. by apply parser_bind_inv in H as (bs & s3 & _ & [= <- <-]).
Qed.

(** ** Properties *)

(** C26. A proof of inclusion proves nothing false: if [verifytxoutproof] returns ids for some
    bytes, whoever made them, then there is a block of the active chain such that, whatever
    header and transactions have its hash, its number of transactions and its Merkle root,
    all these ids are ids of these transactions; unless two different strings among those
    hashed for the block (its header and the pairs of its tree of ids) and for verifying the
    proof have the same hash. *)
Theorem txout_proof_sound SHA256d st chain proof res :
  (∀ x, fits 256 (SHA256d x)) → Forall is_byte proof →
  verifytxoutproof SHA256d st chain proof = Some res → res ≠ [] →
  ∃ hash b, st !! hash = Some b ∧ Contains st chain hash = true ∧
    ∀ h vtx, header_ok h → GetHash SHA256d h = hash → nTx b = Z.of_nat (length vtx) →
      (BlockMerkleRoot SHA256d vtx).1 = hdr_hashMerkleRoot h → hdr_hashMerkleRoot h ≠ 0 →
      (∀ x, x ∈ res → x ∈ GetTxid SHA256d <$> vtx) ∨
      collision SHA256d (hash_preimage h :: merkle_bytes SHA256d (GetTxid SHA256d <$> vtx) ++ proof_bytes SHA256d proof).
Proof.
  intros Fits Hbytes Hv Hres. unfold verifytxoutproof in Hv.
  destruct (UnserializeMerkleBlock proof) as [[mb rest]|] eqn:Eu; [|done].
  assert (Hpb : proof_bytes SHA256d proof = hash_preimage (mb_header mb) :: matches_bytes SHA256d (mb_txn mb))
    by (unfold proof_bytes; by rewrite Eu). rewrite Hpb. clear Hpb.
  apply parser_bind_inv in Eu as (ph & s1 & Eh & (pt & s2 & Et & [= <- <-])%parser_bind_inv).
  apply header_canonical in Eh as (-> & Hph & _); [|done]. apply Forall_app in Hbytes as [_ Hs1].
  apply partial_read_fits in Et; [|done]. cbn [mb_header mb_txn] in Hv.
  destruct (ExtractMatches SHA256d pt []) as [[root vMatch] idx] eqn:Ee.
  destruct (Z.eqb_spec root (hdr_hashMerkleRoot ph)) as [->|]; [|cbn in Hv; congruence]. cbn [negb] in Hv.
  destruct (st !! GetHash SHA256d ph) as [b|] eqn:Eb; [|done].
  destruct (Contains st chain (GetHash SHA256d ph)) eqn:Ec; [|done]. destruct (nTx b =? 0); [done|]. cbn [negb orb] in Hv.
  destruct (Z.eqb_spec (nTx b) (nTransactions pt)) as [En|]; [|congruence]. injection Hv as ->.
  exists (GetHash SHA256d ph), b. split_and!; [done..|]. intros h vtx Hh Eq Hn Hroot Hr0.
  cbn [mb_header mb_txn]. set (hashed := _ :: _).
  assert (Hsub : merkle_bytes SHA256d (GetTxid SHA256d <$> vtx) ++ matches_bytes SHA256d pt ⊆ hashed)
    by (apply list_subseteq_cons; intros x [Hx|Hx]%elem_of_app; apply elem_of_app; [by left|right; by right]).
  apply (hash_eq SHA256d hashed) in Eq as [Eq|]; [|by right|by left|right; apply elem_of_app; right; by left].
  apply preimage_inj in Eq as (_ & _ & Er & _); [|done..].
  unfold BlockMerkleRoot in Hroot. rewrite <- Er, <- Hroot in Ee.
  destruct (partial_tree_sound SHA256d (GetTxid SHA256d <$> vtx) pt res idx) as [(ps & -> & _ & Hps)|?];
    [done|by apply txids_fit|done|rewrite length_fmap; congruence|congruence|done| |right; by eapply collision_mono].
  left. intros x Hx. apply list_elem_of_fmap in Hx as ([i y] & -> & Hi). cbn [snd].
  rewrite Forall_forall in Hps. eapply list_elem_of_lookup_2. exact (Hps _ Hi).
Qed.

(** The proofs the node makes verify: for a block of the active chain with its
    transactions, a proof from [gettxoutproof] makes [verifytxoutproof] return the requested
    ids that are in the block, in the order of the block, and these are all that were
    requested if no id occurs twice in the block. *)
Theorem txout_proof_complete SHA256d st chain h vtx b txids proof :
  (∀ x, fits 256 (SHA256d x)) → header_writable h →
  BlockMerkleRoot SHA256d vtx = (hdr_hashMerkleRoot h, false) →
  st !! GetHash SHA256d h = Some b → Contains st chain (GetHash SHA256d h) = true →
  nTx b = Z.of_nat (length vtx) →
  1 <= nTx b <= MAX_BLOCK_WEIGHT / MIN_TRANSACTION_WEIGHT →
  gettxoutproof SHA256d h vtx txids = Some proof →
  let found := List.filter (λ x, bool_decide (x ∈ txids)) (GetTxid SHA256d <$> vtx) in
  verifytxoutproof SHA256d st chain proof = Some found ∧
  (NoDup (GetTxid SHA256d <$> vtx) → found ≡ₚ txids).
Proof.
  intros Fits Hh Hroot Hb Hc Hn Hrange Hp found. unfold gettxoutproof in Hp.
  destruct (length txids =? 0)%nat; [done|]. case_bool_decide as Hd; [|done]. cbn [negb] in Hp.
  destruct (Nat.eqb_spec (length (List.filter (λ tx, bool_decide (GetTxid SHA256d tx ∈ txids)) vtx)) (length txids))
    as [Hlen|]; [|done]. injection Hp as <-. split.
  - unfold verifytxoutproof, UnserializeMerkleBlock, SerializeMerkleBlock. cbn [NewMerkleBlock mb_header mb_txn].
    unfold BlockMerkleRoot in Hroot.
    destruct (partial_tree_roundtrip SHA256d (GetTxid SHA256d <$> vtx)
      ((λ hash, bool_decide (hash ∈ txids)) <$> (GetTxid SHA256d <$> vtx)) []) as (t & Et & Hnt & Ex);
      [done|by apply txids_fit|rewrite length_fmap; lia|rewrite length_fmap; lia|by rewrite Hroot|].
    rewrite app_nil_r in Et. erewrite parser_bind_Some by (by apply header_read).
    erewrite parser_bind_Some by exact Et. unfold mret, parser_ret. cbn [mb_txn mb_header].
    rewrite Ex, Hroot, select_by_position. cbn [fst]. rewrite Z.eqb_refl. cbn [negb].
    rewrite Hb, Hc. cbn [negb orb]. rewrite (proj2 (Z.eqb_neq (nTx b) 0)) by lia.
    by rewrite Hnt, length_fmap, <- Hn, Z.eqb_refl.
  - intros Hnd. apply submseteq_length_Permutation.
    + apply NoDup_submseteq; [by apply NoDup_ListNoDup, List.NoDup_filter, NoDup_ListNoDup|].
      intros x [_ Hx]%list_elem_of_In%List.filter_In. by apply bool_decide_eq_true in Hx.
    + unfold found. rewrite filter_fmap, length_fmap, Hlen. done.
Qed.

(** ** A concrete proof *)

Definition proof_index : BlockMap := m_block_index (example_accept example_vtx).1.
Definition proof_hash : Z := GetHash small_hash (example_header example_vtx).
Definition proof_chain : CChain := [Some example_genesis_hash; Some proof_hash].
Definition proof_txids : list Z := [GetTxid small_hash example_payment].
Definition example_proof : list Z :=
  default [] (gettxoutproof small_hash (example_header example_vtx) example_vtx proof_txids).

Lemma example_proof_verifies :
  verifytxoutproof small_hash proof_index proof_chain example_proof = Some proof_txids.
Proof. vm_compute. reflexivity. Qed.

Lemma proof_entry : ∃ b, proof_index !! proof_hash = Some b ∧ nTx b = Z.of_nat (length example_vtx).
Proof.
  assert (H : nTx <$> proof_index !! proof_hash = Some (Z.of_nat (length example_vtx))) by (vm_compute; reflexivity).
  destruct (proof_index !! proof_hash) as [b|]; [|discriminate H]. injection H as H. by exists b.
Qed.

#[local] Opaque small_hash.

Lemma txout_proof_sound_witness :
  ∃ hash b, proof_index !! hash = Some b ∧ Contains proof_index proof_chain hash = true.
Proof.
  assert (Hall : forallb (λ b, (0 <=? b) && (b <? 256)) example_proof = true) by (vm_compute; reflexivity).
  destruct (txout_proof_sound small_hash proof_index proof_chain example_proof proof_txids small_hash_fits)
    as (hash & b & Hb & Hc & _).
  - apply Forall_forall. intros x Hx. rewrite forallb_forall in Hall. specialize (Hall x).
    rewrite <- list_elem_of_In in Hall. specialize (Hall Hx). unfold is_byte. lia.
  - exact example_proof_verifies.
  - discriminate.
  - exists hash, b. split; [exact Hb|exact Hc].
Defined.

Lemma txout_proof_complete_witness :
  verifytxoutproof small_hash proof_index proof_chain example_proof =
  Some (List.filter (λ x, bool_decide (x ∈ proof_txids)) (GetTxid small_hash <$> example_vtx)).
Proof.
  destruct proof_entry as (b & Hb & Hn).
  assert (Hl : Z.of_nat (length example_vtx) = 2) by (vm_compute; reflexivity).
  apply (txout_proof_complete small_hash proof_index proof_chain (example_header example_vtx) example_vtx b
    proof_txids example_proof small_hash_fits).
  - split; [apply example_header_ok|]. split; [intros _; split; reflexivity|]. vm_compute. discriminate.
  - vm_compute. reflexivity.
  - exact Hb.
  - vm_compute. reflexivity.
  - exact Hn.
  - rewrite Hn, Hl. vm_compute. split; discriminate.
  - vm_compute. reflexivity.
Defined.
