(* ===== verification/Coins.v ===== *)
(** * The unspent outputs: src/src/coins.h and src/src/coins.cpp

    [CCoinsViewCache] is a write-back cache of coins in front of another view: an entry
    remembers whether it differs from the view below ([DIRTY]) and whether that view lacks
    the coin ([FRESH]), and flushing writes the differences down.  A view is a type class,
    so that caches can be stacked; its laws say that it implements a finite map from out
    points to coins, and the cache is shown to be such a view over any other.  The clients
    of the cache (Connect.v) are written against the class [CoinOps] of its operations,
    which the finite map implements too. *)

From stdpp Require Import gmap.
From S2P Require Import Prelude Serialize BlockHeader Transaction Script.

Local Open Scope Z_scope.

#[export] Instance COutPoint_countable : Countable COutPoint.
Proof.
  apply (inj_countable' (λ o, (op_hash o, op_n o)) (λ p, mkOutPoint p.1 p.2)). by intros [].
Defined.

(** ** Coins *)

Definition CTxOut_null : CTxOut := mkTxOut (-1) [].
Definition CTxOut_IsNull (out : CTxOut) : bool := nValue out =? -1.

(** The height has 31 bits. *)
Record Coin := mkCoin { out : CTxOut; fCoinBase : bool; coin_nHeight : Z }.

Definition NewCoin (outIn : CTxOut) (nHeightIn : Z) (fCoinBaseIn : bool) : Coin :=
  mkCoin outIn fCoinBaseIn (wrap 31 nHeightIn).

(** The empty constructor, and what [Clear] leaves. *)
Definition coinEmpty : Coin := mkCoin CTxOut_null false 0.

Definition IsSpent (c : Coin) : bool := CTxOut_IsNull (out c).

(** ** Cache entries *)

Definition DIRTY : Z := 1.
Definition FRESH : Z := 2.

Record CCoinsCacheEntry := mkEntry { entry_coin : Coin; m_flags : Z }.

Definition IsDirty (e : CCoinsCacheEntry) : bool := negb (Z.land (m_flags e) DIRTY =? 0).
Definition IsFresh (e : CCoinsCacheEntry) : bool := negb (Z.land (m_flags e) FRESH =? 0).

(** ** Views *)

(** [GetCoin] and [GetBestBlock] may fill caches below.  [BatchWrite] takes the flagged
    entries; [None] is an exception. *)
Class CCoinsView (V : Type) := {
  GetCoin : COutPoint → V → V * option Coin;
  View_GetBestBlock : V → V * Z;
  BatchWrite : list (COutPoint * CCoinsCacheEntry) → Z → V → option V
}.

(** The linked list of flagged entries is the list of their keys.  Memory accounting is left
    out. *)
Record CCoinsViewCache (V : Type) := mkCache {
  base : V;
  hashBlock : Z;
  cacheCoins : gmap COutPoint CCoinsCacheEntry;
  m_flagged : list COutPoint
}.
Arguments mkCache {V} _ _ _ _.
Arguments base {V} _.
Arguments hashBlock {V} _.
Arguments cacheCoins {V} _.
Arguments m_flagged {V} _.

Section cache.
Context {V : Type} `{!CCoinsView V}.
Implicit Types (c : CCoinsViewCache V) (o : COutPoint) (e : CCoinsCacheEntry).

Definition NewCache (baseIn : V) : CCoinsViewCache V := mkCache baseIn 0 ∅ [].

Definition with_base c (b : V) : CCoinsViewCache V :=
  mkCache b (hashBlock c) (cacheCoins c) (m_flagged c).

(** An entry with the given coin, with the flags it had. *)
Definition set_coin o (coin : Coin) c : CCoinsViewCache V :=
  let e := default (mkEntry coinEmpty 0) (cacheCoins c !! o) in
  mkCache (base c) (hashBlock c) (<[o := mkEntry coin (m_flags e)]> (cacheCoins c)) (m_flagged c).

(** Flagging an entry links it when it was not flagged. *)
Definition AddFlags o (flags : Z) c : CCoinsViewCache V :=
  match cacheCoins c !! o with
  | Some e =>
      mkCache (base c) (hashBlock c)
        (<[o := mkEntry (entry_coin e) (Z.lor (m_flags e) flags)]> (cacheCoins c))
        (if (m_flags e =? 0) && negb (flags =? 0) then m_flagged c ++ [o] else m_flagged c)
  | None => c
  end.

(** Erasing an entry unlinks it. *)
Definition erase o c : CCoinsViewCache V :=
  mkCache (base c) (hashBlock c) (delete o (cacheCoins c)) (filter (λ k, k ≠ o) (m_flagged c)).

Definition FetchCoin o c : CCoinsViewCache V * option CCoinsCacheEntry :=
  match cacheCoins c !! o with
  | Some e => (c, Some e)
  | None =>
      let '(b, r) := GetCoin o (base c) in
      match r with
      | None => (with_base c b, None)
      | Some coin =>
          let c1 := set_coin o coin (with_base c b) in
          let c2 := if IsSpent coin then AddFlags o FRESH c1 else c1 in
          (c2, cacheCoins c2 !! o)
      end
  end.

Definition Cache_GetCoin o c : CCoinsViewCache V * option Coin :=
  match FetchCoin o c with
  | (c, Some e) => (c, if IsSpent (entry_coin e) then None else Some (entry_coin e))
  | (c, None) => (c, None)
  end.

(** [None]: the coin is spent (assertion) or overwrites an unspent one (exception). *)
Definition Cache_AddCoin o (coin : Coin) (possible_overwrite : bool) c
    : option (CCoinsViewCache V) :=
  if IsSpent coin then None
  else if IsUnspendable (scriptPubKey (out coin)) then Some c
  else
    let e := default (mkEntry coinEmpty 0) (cacheCoins c !! o) in
    if negb possible_overwrite && negb (IsSpent (entry_coin e)) then None
    else
      let fresh := negb possible_overwrite && negb (IsDirty e) in
      Some (AddFlags o (Z.lor DIRTY (if fresh then FRESH else 0)) (set_coin o coin c)).

(** The coin moved out, whether it is unspent or not; [None]: not there. *)
Definition Cache_SpendCoin o c : CCoinsViewCache V * option Coin :=
  match FetchCoin o c with
  | (c, None) => (c, None)
  | (c, Some e) =>
      (if IsFresh e then erase o c else set_coin o coinEmpty (AddFlags o DIRTY c),
       Some (entry_coin e))
  end.

Definition Cache_AccessCoin o c : CCoinsViewCache V * Coin :=
  match FetchCoin o c with
  | (c, None) => (c, coinEmpty)
  | (c, Some e) => (c, entry_coin e)
  end.

Definition Cache_HaveCoin o c : CCoinsViewCache V * bool :=
  match FetchCoin o c with
  | (c, None) => (c, false)
  | (c, Some e) => (c, negb (IsSpent (entry_coin e)))
  end.

Definition HaveCoinInCache o c : bool :=
  match cacheCoins c !! o with
  | None => false
  | Some e => negb (IsSpent (entry_coin e))
  end.

Definition Cache_SetBestBlock (hashBlockIn : Z) c : CCoinsViewCache V :=
  mkCache (base c) hashBlockIn (cacheCoins c) (m_flagged c).

Definition Cache_GetBestBlock c : CCoinsViewCache V * Z :=
  if hashBlock c =? 0
  then let '(b, h) := View_GetBestBlock (base c) in
       let c' := Cache_SetBestBlock h (with_base c b) in (c', h)
  else (c, hashBlock c).

(** One entry of the cache above. *)
Definition write_entry (oe : COutPoint * CCoinsCacheEntry) c : option (CCoinsViewCache V) :=
  let '(o, e) := oe in
  if negb (IsDirty e) then Some c
  else match cacheCoins c !! o with
       | None =>
           if IsFresh e && IsSpent (entry_coin e) then Some c
           else
             let c1 := AddFlags o DIRTY (set_coin o (entry_coin e) c) in
             Some (if IsFresh e then AddFlags o FRESH c1 else c1)
       | Some us =>
           if IsFresh e && negb (IsSpent (entry_coin us)) then None
           else if IsFresh us && IsSpent (entry_coin e) then Some (erase o c)
           else Some (AddFlags o DIRTY (set_coin o (entry_coin e) c))
       end.

Fixpoint write_entries (es : list (COutPoint * CCoinsCacheEntry)) c : option (CCoinsViewCache V) :=
  match es with
  | [] => Some c
  | oe :: es' => c' ← write_entry oe c; write_entries es' c'
  end.

Definition Cache_BatchWrite (es : list (COutPoint * CCoinsCacheEntry)) (hashBlockIn : Z) c
    : option (CCoinsViewCache V) :=
  c' ← write_entries es c; Some (Cache_SetBestBlock hashBlockIn c').

(** The flagged entries in the order of the list. *)
Definition flagged_entries c : list (COutPoint * CCoinsCacheEntry) :=
  omap (λ o, (λ e, (o, e)) <$> cacheCoins c !! o) (m_flagged c).

Definition Flush c : option (CCoinsViewCache V) :=
  b ← BatchWrite (flagged_entries c) (hashBlock c) (base c);
  Some (mkCache b (hashBlock c) ∅ []).

(** [ClearFlags] *)
Definition ClearFlags o c : CCoinsViewCache V :=
  match cacheCoins c !! o with
  | Some e => mkCache (base c) (hashBlock c) (<[o := mkEntry (entry_coin e) 0]> (cacheCoins c))
                (filter (λ k, k ≠ o) (m_flagged c))
  | None => c
  end.

(** What the cursor does with an entry that was written and is not to be erased. *)
Definition NextAndMaybeErase c (oe : COutPoint * CCoinsCacheEntry) : CCoinsViewCache V :=
  if IsSpent (entry_coin oe.2) then erase oe.1 c else ClearFlags oe.1 c.

Definition Sync c : option (CCoinsViewCache V) :=
  b ← BatchWrite (flagged_entries c) (hashBlock c) (base c);
  let c' := foldl NextAndMaybeErase (with_base c b) (flagged_entries c) in
  match m_flagged c' with [] => Some c' | _ => None end.

Definition Uncache o c : CCoinsViewCache V :=
  match cacheCoins c !! o with
  | Some e => if negb (IsDirty e) && negb (IsFresh e) then erase o c else c
  | None => c
  end.

(** [SanityCheck]: the combinations of flags, and the list of flagged entries. *)
Definition entry_attr e : Z :=
  (if IsDirty e then 1 else 0) + (if IsFresh e then 2 else 0) +
  (if IsSpent (entry_coin e) then 4 else 0).

Definition SanityCheck c : bool :=
  forallb (λ oe : COutPoint * CCoinsCacheEntry,
    negb (entry_attr oe.2 =? 2) && negb (entry_attr oe.2 =? 4) && negb (entry_attr oe.2 =? 7))
    (map_to_list (cacheCoins c)) &&
  forallb (λ o, match cacheCoins c !! o with Some e => IsDirty e || IsFresh e | None => false end)
    (m_flagged c) &&
  (length (m_flagged c) =?
   length (List.filter (λ oe : COutPoint * CCoinsCacheEntry, IsDirty oe.2 || IsFresh oe.2)
     (map_to_list (cacheCoins c))))%nat.
End cache.

(** A cache is a view. *)
#[export] Instance Cache_view {V} `{!CCoinsView V} : CCoinsView (CCoinsViewCache V) := {
  GetCoin := Cache_GetCoin;
  View_GetBestBlock := Cache_GetBestBlock;
  BatchWrite := Cache_BatchWrite
}.

(** ** What a view implements *)

(** The states of an entry over a map [m] below: fetched, changed, spent, and new. *)
Inductive entry_ok (m : gmap COutPoint Coin) (o : COutPoint) : CCoinsCacheEntry → Prop :=
  | entry_fetched coin : m !! o = Some coin → IsSpent coin = false → entry_ok m o (mkEntry coin 0)
  | entry_changed coin : IsSpent coin = false → entry_ok m o (mkEntry coin DIRTY)
  | entry_spent : entry_ok m o (mkEntry coinEmpty DIRTY)
  | entry_new coin : m !! o = None → IsSpent coin = false →
      entry_ok m o (mkEntry coin (Z.lor DIRTY FRESH)).

(** What writing an entry does to the map. *)
Definition apply_entry (oe : COutPoint * CCoinsCacheEntry) (m : gmap COutPoint Coin)
    : gmap COutPoint Coin :=
  if IsDirty oe.2
  then if IsSpent (entry_coin oe.2) then delete oe.1 m else <[oe.1 := entry_coin oe.2]> m
  else m.

Class CoinsViewOk (V : Type) `{!CCoinsView V} := {
  view_ok : V → Prop;
  coins : V → gmap COutPoint Coin;
  best : V → Z;
  (** the best blocks that a write may set *)
  may_write : V → Z → Prop;
  coins_unspent v o coin : view_ok v → coins v !! o = Some coin → IsSpent coin = false;
  GetCoin_ok v o v' r : view_ok v → GetCoin o v = (v', r) →
    view_ok v' ∧ coins v' = coins v ∧ best v' = best v ∧
    (∀ h, may_write v h → may_write v' h) ∧ r = coins v !! o;
  GetBestBlock_ok v v' h : view_ok v → View_GetBestBlock v = (v', h) →
    view_ok v' ∧ coins v' = coins v ∧ best v' = best v ∧
    (∀ h, may_write v h → may_write v' h) ∧ h = best v;
  BatchWrite_ok v es h : view_ok v → NoDup es.*1 →
    (∀ o e, (o, e) ∈ es → entry_ok (coins v) o e) → h ≠ 0 → may_write v h →
    ∃ v', BatchWrite es h v = Some v' ∧ view_ok v' ∧
      coins v' = foldl (λ m oe, apply_entry oe m) (coins v) es ∧ best v' = h ∧
      ∀ h', h' ≠ 0 → may_write v' h'
}.

Lemma entry_ok_at m m' o e : m !! o = m' !! o → entry_ok m o e → entry_ok m' o e.
Proof. intros E []; [apply entry_fetched|apply entry_changed|apply entry_spent|apply entry_new]; congruence. Qed.

Lemma apply_entry_ne oe m o : oe.1 ≠ o → apply_entry oe m !! o = m !! o.
Proof.
  intros Hne. unfold apply_entry. repeat case_match; [by apply lookup_delete_ne|by apply lookup_insert_ne|done].
Qed.

Lemma entry_flagged m o e : entry_ok m o e → m_flags e ≠ 0 ↔ IsDirty e = true.
Proof. by destruct 1. Qed.

Section cache_ok.
Context {V : Type} `{!CCoinsView V, !CoinsViewOk V}.
Implicit Types (c : CCoinsViewCache V) (o : COutPoint) (e : CCoinsCacheEntry).

(** The map that a cache shows: its own entries first. *)
Definition shown (oe : option CCoinsCacheEntry) (below : option Coin) : option Coin :=
  match oe with
  | Some e => if IsSpent (entry_coin e) then None else Some (entry_coin e)
  | None => below
  end.

Definition cache_coins c : gmap COutPoint Coin := merge shown (cacheCoins c) (coins (base c)).
Definition cache_best c : Z := if hashBlock c =? 0 then best (base c) else hashBlock c.

Record cache_ok c : Prop := {
  ch_base : view_ok (base c);
  ch_entry o e : cacheCoins c !! o = Some e → entry_ok (coins (base c)) o e;
  ch_once : NoDup (m_flagged c);
  ch_flagged o : o ∈ m_flagged c ↔ ∃ e, cacheCoins c !! o = Some e ∧ m_flags e ≠ 0
}.

Lemma cache_coins_lookup c o : cache_coins c !! o = shown (cacheCoins c !! o) (coins (base c) !! o).
Proof.
  unfold cache_coins. rewrite lookup_merge.
  by destruct (cacheCoins c !! o), (coins (base c) !! o).
Qed.

Lemma cache_coins_unspent c o coin :
  cache_ok c → cache_coins c !! o = Some coin → IsSpent coin = false.
Proof.
  intros Hc. rewrite cache_coins_lookup. unfold shown. repeat case_match; intros ?; simplify_eq; [done|].
  eapply coins_unspent; [apply Hc|done].
Qed.

(** Two caches over the same map with the same entries show the same. *)
Lemma cache_coins_base c b :
  coins b = coins (base c) → cache_coins (with_base c b) = cache_coins c.
Proof. intros E. unfold cache_coins. simpl. by rewrite E. Qed.

Lemma cache_ok_base c b :
  coins b = coins (base c) → view_ok b → cache_ok c → cache_ok (with_base c b).
Proof. intros E Hb [H1 H2 H3 H4]. split; simpl; [done| |done|done]. rewrite E. done. Qed.

(** Storing a coin that is the one below. *)
Lemma fetched_ok c o coin :
  cache_ok c → cacheCoins c !! o = None → coins (base c) !! o = Some coin →
  let c' := set_coin o coin c in
  cache_ok c' ∧ cache_coins c' = cache_coins c ∧ cacheCoins c' !! o = Some (mkEntry coin 0).
Proof.
  intros [H1 H2 H3 H4] Hn Hb. cbv zeta. unfold set_coin. rewrite Hn. cbn [m_flags default].
  assert (Hu : IsSpent coin = false) by (by eapply coins_unspent).
  split; [split; simpl; try done|split].
  - intros k e. rewrite lookup_insert_Some. intros [[<- <-]|[_ ?]]; [by apply entry_fetched|by apply H2].
  - intros k. rewrite H4. split; intros (e & He & Hf); exists e; split; try done.
    + rewrite lookup_insert_ne; [done|]. congruence.
    + apply lookup_insert_Some in He as [[<- <-]|[_ ?]]; done.
  - apply map_eq. intros k. rewrite !cache_coins_lookup. simpl. destruct (decide (o = k)) as [<-|].
    + by rewrite lookup_insert_eq, Hn, Hb; simpl; rewrite Hu.
    + by rewrite lookup_insert_ne.
  - apply lookup_insert_eq.
Qed.

(** Storing a coin and flagging the entry. *)
Lemma stored_ok c o coin f :
  let fl := m_flags (default (mkEntry coinEmpty 0) (cacheCoins c !! o)) in
  cache_ok c → f ≠ 0 → entry_ok (coins (base c)) o (mkEntry coin (Z.lor fl f)) →
  let c' := AddFlags o f (set_coin o coin c) in
  cache_ok c' ∧ cache_coins c' = (if IsSpent coin then delete o (cache_coins c)
                                  else <[o := coin]> (cache_coins c)) ∧
  base c' = base c ∧ hashBlock c' = hashBlock c.
Proof.
  intros fl [H1 H2 H3 H4] Hf He. cbv zeta. unfold AddFlags, set_coin. cbn [cacheCoins].
  rewrite lookup_insert_eq. fold fl. cbn [base hashBlock m_flagged m_flags entry_coin].
  rewrite insert_insert_eq. rewrite (proj2 (Z.eqb_neq f 0) Hf), andb_true_r.
  assert (Hfl : Z.lor fl f ≠ 0) by (rewrite Z.lor_eq_0_iff; tauto).
  assert (Ho : o ∈ m_flagged c ↔ fl ≠ 0).
  { rewrite H4. unfold fl. split; [by intros (e & -> & ?)|].
    destruct (cacheCoins c !! o); simpl; [eauto|done]. }
  split; [split; simpl; try done|split; [|done]].
  - intros k e. rewrite lookup_insert_Some. intros [[<- <-]|[_ ?]]; [done|by apply H2].
  - destruct (Z.eqb_spec fl 0) as [E|E]; [|done]. apply NoDup_app. split; [done|].
    split; [|by apply NoDup_singleton]. intros k Hk ->%list_elem_of_singleton. by apply Ho in Hk.
  - intros k. destruct (decide (o = k)) as [<-|Hne].
    + rewrite lookup_insert_eq. split; [intros _; by eexists|intros _].
      destruct (Z.eqb_spec fl 0) as [E|E]; [|by apply Ho]. apply elem_of_app. right. by constructor.
    + rewrite lookup_insert_ne, <- H4 by done. destruct (fl =? 0); [|done].
      rewrite elem_of_app, list_elem_of_singleton. split; [intros [?|?]; congruence|by left].
  - apply map_eq. intros k. rewrite cache_coins_lookup. simpl. destruct (decide (o = k)) as [<-|Hne].
    + rewrite lookup_insert_eq. simpl. destruct (IsSpent coin); by rewrite ?lookup_delete_eq, ?lookup_insert_eq.
    + rewrite lookup_insert_ne by done.
      destruct (IsSpent coin); by rewrite ?lookup_delete_ne, ?lookup_insert_ne, cache_coins_lookup.
Qed.

(** Erasing an entry that the view below lacks, or one that was only fetched. *)
Lemma erased_ok c o :
  cache_ok c →
  let c' := erase o c in
  cache_ok c' ∧ base c' = base c ∧ hashBlock c' = hashBlock c ∧
  (coins (base c) !! o = None → cache_coins c' = delete o (cache_coins c)) ∧
  (coins (base c) !! o = cache_coins c !! o → cache_coins c' = cache_coins c).
Proof.
  intros [H1 H2 H3 H4]. cbv zeta. split; [split; simpl; try done|split_and!; [done|done|..]].
  - intros k e [_ ?]%lookup_delete_Some. by apply H2.
  - by apply NoDup_filter.
  - intros k. rewrite list_elem_of_filter, H4. split.
    + intros [Hne (e & ? & ?)]. exists e. by rewrite lookup_delete_ne.
    + intros (e & [? ?]%lookup_delete_Some & ?). eauto.
  - intros Hb. apply map_eq. intros k. rewrite cache_coins_lookup. simpl. destruct (decide (o = k)) as [<-|].
    + by rewrite !lookup_delete_eq.
    + by rewrite !lookup_delete_ne, cache_coins_lookup.
  - intros Hb. apply map_eq. intros k. rewrite cache_coins_lookup. simpl. destruct (decide (o = k)) as [<-|].
    + by rewrite lookup_delete_eq.
    + by rewrite lookup_delete_ne, cache_coins_lookup.
Qed.
(** A query may move coins between the levels, nothing else. *)
Definition same_view c c' : Prop :=
  cache_ok c' ∧ cache_coins c' = cache_coins c ∧ cache_best c' = cache_best c ∧
  ∀ h, may_write (base c) h → may_write (base c') h.

Lemma FetchCoin_spec c o :
  cache_ok c →
  let '(c', r) := FetchCoin o c in
  same_view c c' ∧ r = cacheCoins c' !! o ∧
  (r = None → cache_coins c !! o = None ∧ coins (base c') !! o = None).
Proof.
  intros Hc. unfold FetchCoin. destruct (cacheCoins c !! o) as [e|] eqn:He.
  { split; [done|]. split; [by rewrite He|done]. }
  destruct (GetCoin o (base c)) as [b r] eqn:Hg.
  destruct (GetCoin_ok _ _ _ _ (ch_base c Hc) Hg) as (Hb & Ec & Eb & Ew & ->).
  assert (Hok : cache_ok (with_base c b)) by (by apply cache_ok_base).
  assert (Hbest : cache_best (with_base c b) = cache_best c) by (unfold cache_best; simpl; by rewrite Eb).
  destruct (coins (base c) !! o) as [coin|] eqn:Hl.
  - assert (Hu : IsSpent coin = false) by (eapply coins_unspent; [apply Hc|done]). rewrite Hu.
    destruct (fetched_ok (with_base c b) o coin Hok He) as (H1 & H2 & H3); [simpl; congruence|].
    split; [|split; [done|by rewrite H3]]. split; [done|]. rewrite H2.
    split; [by apply cache_coins_base|split; [done|exact Ew]].
  - split; [split; [done|]; split; [by apply cache_coins_base|split; [done|exact Ew]]|].
    split; [done|]. intros _. rewrite cache_coins_lookup, He. simpl. split; [done|congruence].
Qed.

(** What the queries and updates answer and leave, on the map. *)
Lemma GetCoin_spec c o c' r :
  cache_ok c → Cache_GetCoin o c = (c', r) → same_view c c' ∧ r = cache_coins c !! o.
Proof.
  intros Hc. pose proof (FetchCoin_spec c o Hc) as Hf. unfold Cache_GetCoin.
  destruct (FetchCoin o c) as [c1 [e|]]; destruct Hf as (Hs & He & Hn); intros [= <- <-]; (split; [done|]).
  - destruct Hs as (_ & <- & _). by rewrite cache_coins_lookup, <- He.
  - symmetry. by apply Hn.
Qed.

Lemma AccessCoin_spec c o c' coin :
  cache_ok c → Cache_AccessCoin o c = (c', coin) →
  same_view c c' ∧ coin = default coinEmpty (cache_coins c !! o).
Proof.
  intros Hc. pose proof (FetchCoin_spec c o Hc) as Hf. unfold Cache_AccessCoin.
  destruct (FetchCoin o c) as [c1 [e|]]; destruct Hf as (Hs & He & Hn); intros [= <- <-]; (split; [done|]).
  - destruct Hs as (Hok & <- & _). rewrite cache_coins_lookup, <- He. simpl.
    destruct (ch_entry c1 Hok o e (eq_sym He)) as [? ? Hu|? Hu| |? ? Hu]; simpl; by rewrite ?Hu.
  - by rewrite (proj1 (Hn eq_refl)).
Qed.

Lemma HaveCoin_spec c o c' r :
  cache_ok c → Cache_HaveCoin o c = (c', r) →
  same_view c c' ∧ r = bool_decide (is_Some (cache_coins c !! o)).
Proof.
  intros Hc. pose proof (FetchCoin_spec c o Hc) as Hf. unfold Cache_HaveCoin.
  destruct (FetchCoin o c) as [c1 [e|]]; destruct Hf as (Hs & He & Hn); intros [= <- <-]; (split; [done|]).
  - destruct Hs as (_ & <- & _). rewrite cache_coins_lookup, <- He. simpl. by destruct (IsSpent _).
  - by rewrite (proj1 (Hn eq_refl)).
Qed.

Lemma SpendCoin_spec c o c' r :
  cache_ok c → Cache_SpendCoin o c = (c', r) →
  cache_ok c' ∧ cache_coins c' = delete o (cache_coins c) ∧ cache_best c' = cache_best c ∧
  (∀ h, may_write (base c) h → may_write (base c') h) ∧
  match cache_coins c !! o with
  | Some coin => r = Some coin
  | None => r = None ∨ r = Some coinEmpty
  end.
Proof.
  intros Hc. pose proof (FetchCoin_spec c o Hc) as Hf. unfold Cache_SpendCoin.
  destruct (FetchCoin o c) as [c1 [e|]]; destruct Hf as ((Hok & Em & Eb & Ew) & He & Hn); intros [= <- <-].
  2:{ rewrite Em, (proj1 (Hn eq_refl)). split; [done|]. rewrite delete_id by apply Hn, eq_refl. auto. }
  assert (Hans : match cache_coins c !! o with
    | Some coin => Some (entry_coin e) = Some coin
    | None => Some (entry_coin e) = None ∨ Some (entry_coin e) = Some coinEmpty end).
  { rewrite <- Em, cache_coins_lookup, <- He. simpl.
    destruct (ch_entry c1 Hok o e (eq_sym He)) as [? ? Hu|? Hu| |? ? Hu]; simpl; rewrite ?Hu; auto. }
  assert (Hput : IsFresh e = false → set_coin o coinEmpty (AddFlags o DIRTY c1) =
    AddFlags o DIRTY (set_coin o coinEmpty c1)).
  { intros _. unfold set_coin, AddFlags. rewrite <- He. simpl. rewrite !lookup_insert_eq. simpl.
    by rewrite !insert_insert_eq. }
  destruct (IsFresh e) eqn:Hfr.
  - destruct (erased_ok c1 o Hok) as (H1 & H2 & H3 & H4 & _). split; [done|].
    rewrite H4; [|by destruct (ch_entry c1 Hok o e (eq_sym He))].
    rewrite Em. split; [done|]. split; [|by rewrite H2]. unfold cache_best. rewrite H2, H3. exact Eb.
  - rewrite Hput by done. destruct (stored_ok c1 o coinEmpty DIRTY Hok) as (H1 & H2 & H3 & H4); [done| |].
    { rewrite <- He. simpl. by destruct (ch_entry c1 Hok o e (eq_sym He)); try done; apply entry_spent. }
    split; [done|]. rewrite H2, Em. split; [done|]. split; [|by rewrite H3].
    unfold cache_best. rewrite H3, H4. exact Eb.
Qed.

(** Adding is safe when the caller is right that nothing unspent is overwritten. *)
Lemma AddCoin_spec c o coin overwrite :
  cache_ok c → IsSpent coin = false → (overwrite = false → cache_coins c !! o = None) →
  ∃ c', Cache_AddCoin o coin overwrite c = Some c' ∧ cache_ok c' ∧ cache_best c' = cache_best c ∧ base c' = base c ∧
    cache_coins c' = (if IsUnspendable (scriptPubKey (out coin)) then cache_coins c
                      else <[o := coin]> (cache_coins c)).
Proof.
  intros Hc Hu Hov. unfold Cache_AddCoin. rewrite Hu.
  destruct (IsUnspendable _); [by exists c|]. set (e := default _ _).
  assert (He : overwrite = false → IsSpent (entry_coin e) = true ∧
    (IsDirty e = false → e = mkEntry coinEmpty 0 ∧ coins (base c) !! o = None) ∧
    (IsDirty e = true → m_flags e = DIRTY)).
  { intros H%Hov. rewrite cache_coins_lookup in H. unfold e.
    destruct (cacheCoins c !! o) as [e'|] eqn:He'; simpl in *; [|by split_and!].
    destruct (ch_entry c Hc o e' He') as [? ? Hs|? Hs| |? ? Hs]; simpl in *; rewrite ?Hs in H; done. }
  assert (Hno : negb overwrite && negb (IsSpent (entry_coin e)) = false).
  { destruct overwrite; [done|]. by rewrite (proj1 (He eq_refl)). }
  rewrite Hno. eexists. split; [done|]. set (f := Z.lor DIRTY _).
  destruct (stored_ok c o coin f Hc) as (H1 & H2 & H3 & H4).
  - unfold f. case_match; vm_compute; done.
  - fold e. unfold f. destruct overwrite; simpl.
    + unfold e. destruct (cacheCoins c !! o) as [e'|] eqn:He'; [|by apply entry_changed].
      destruct (ch_entry c Hc o e' He'); [by apply entry_changed..|by apply entry_new].
    + destruct (He eq_refl) as (_ & Hclean & Hdirty). destruct (IsDirty e) eqn:Hd; simpl.
      * rewrite Hdirty by done. by apply entry_changed.
      * destruct (Hclean eq_refl) as [-> ?]. by apply entry_new.
  - rewrite Hu in H2. split; [done|]. split; [|done]. unfold cache_best. by rewrite H3, H4.
Qed.

Lemma GetBestBlock_spec c c' h :
  cache_ok c → Cache_GetBestBlock c = (c', h) → same_view c c' ∧ h = cache_best c.
Proof.
  intros Hc. unfold Cache_GetBestBlock, cache_best.
  destruct (Z.eqb_spec (hashBlock c) 0) as [E|E]; [|intros [= <- <-]; split; [done|]; done].
  destruct (View_GetBestBlock (base c)) as [b h'] eqn:Hg. intros [= <- <-].
  destruct (GetBestBlock_ok _ _ _ (ch_base c Hc) Hg) as (Hb & Ec & Eb & Ew & ->).
  split; [|done]. split; [|split; [|split; [|exact Ew]]].
  - pose proof (cache_ok_base c b Ec Hb Hc) as [H1 H2 H3 H4]. by split.
  - by apply (cache_coins_base c).
  - unfold cache_best. simpl. destruct (Z.eqb_spec (best (base c)) 0) as [E'|]; rewrite E; simpl; congruence.
Qed.
(** *** Writing down *)

Lemma AddFlags_twice c o f g : f ≠ 0 → AddFlags o g (AddFlags o f c) = AddFlags o (Z.lor f g) c.
Proof.
  intros Hf. unfold AddFlags. destruct (cacheCoins c !! o) as [e|] eqn:He; [|by rewrite He].
  cbn [cacheCoins]. rewrite lookup_insert_eq. cbn [m_flags entry_coin base hashBlock m_flagged].
  rewrite insert_insert_eq, Z.lor_assoc. f_equal.
  assert (H1 : Z.lor f g =? 0 = false) by (apply Z.eqb_neq; rewrite Z.lor_eq_0_iff; tauto).
  assert (H2 : Z.lor (m_flags e) f =? 0 = false) by (apply Z.eqb_neq; rewrite Z.lor_eq_0_iff; tauto).
  by rewrite H1, H2, (proj2 (Z.eqb_neq f 0) Hf).
Qed.

(** Writing an entry of the cache above keeps the cache and changes the map accordingly. *)
Lemma write_entry_spec c o e :
  cache_ok c → entry_ok (cache_coins c) o e →
  ∃ c', write_entry (o, e) c = Some c' ∧ cache_ok c' ∧
    cache_coins c' = apply_entry (o, e) (cache_coins c) ∧
    base c' = base c ∧ hashBlock c' = hashBlock c.
Proof.
  intros Hc He. unfold write_entry, apply_entry. cbn [fst snd].
  assert (Hstore : ∀ coin f, f ≠ 0 →
    entry_ok (coins (base c)) o
      (mkEntry coin (Z.lor (m_flags (default (mkEntry coinEmpty 0) (cacheCoins c !! o))) f)) →
    ∃ c', Some (AddFlags o f (set_coin o coin c)) = Some c' ∧ cache_ok c' ∧
      cache_coins c' = (if IsSpent coin then delete o (cache_coins c)
                        else <[o := coin]> (cache_coins c)) ∧
      base c' = base c ∧ hashBlock c' = hashBlock c)
    by (intros coin f Hf Hen; eexists; split; [done|by apply stored_ok]).
  destruct He as [coin Hm Hu|coin Hu| |coin Hm Hu]; cbn [IsDirty m_flags entry_coin negb].
  - by exists c.
  - change (negb (IsDirty _)) with false. cbv iota. change (IsFresh (mkEntry coin DIRTY)) with false.
    pose proof (Hstore coin DIRTY ltac:(done)) as H. rewrite Hu in H.
    destruct (cacheCoins c !! o) as [us|] eqn:Hus; rewrite Hu, ?andb_false_r; apply H; [|by apply entry_changed].
    destruct (ch_entry c Hc o us Hus); [by apply entry_changed..|by apply entry_new].
  - change (negb (IsDirty _)) with false. cbv iota. change (IsFresh (mkEntry coinEmpty DIRTY)) with false.
    pose proof (Hstore coinEmpty DIRTY ltac:(done)) as H. simpl in H.
    destruct (cacheCoins c !! o) as [us|] eqn:Hus; [|apply H; apply entry_spent].
    destruct (ch_entry c Hc o us Hus) as [| | |coin Hn]; [apply H; apply entry_spent..|].
    change (IsFresh _) with true. cbv iota. destruct (erased_ok c o Hc) as (? & ? & ? & Hd & _).
    eexists. split; [done|]. split; [done|]. split; [by apply Hd|done].
  - change (negb (IsDirty _)) with false. cbv iota.
    change (IsFresh (mkEntry coin (Z.lor DIRTY FRESH))) with true.
    rewrite AddFlags_twice by done. rewrite cache_coins_lookup in Hm.
    destruct (cacheCoins c !! o) as [us|] eqn:Hus; simpl in Hm.
    + pose proof (Hstore coin DIRTY ltac:(done)) as H. rewrite Hu in H. rewrite Hu, andb_false_r.
      destruct (ch_entry c Hc o us Hus) as [? ? Hs|? Hs| |? ? Hs]; cbn [entry_coin] in *; try (by rewrite Hs in Hm).
      change (IsSpent coinEmpty) with true. apply H. by apply entry_changed.
    + pose proof (Hstore coin (Z.lor DIRTY FRESH) ltac:(done)) as H. rewrite Hu in H. rewrite Hu. apply H. by apply entry_new.
Qed.

Lemma write_entries_spec es : ∀ c,
  cache_ok c → NoDup es.*1 → (∀ o e, (o, e) ∈ es → entry_ok (cache_coins c) o e) →
  ∃ c', write_entries es c = Some c' ∧ cache_ok c' ∧
    cache_coins c' = foldl (λ m oe, apply_entry oe m) (cache_coins c) es ∧
    base c' = base c ∧ hashBlock c' = hashBlock c.
Proof.
  induction es as [|[o e] es IH]; intros c Hc Hnd Hes; [by exists c|].
  apply NoDup_cons in Hnd as [Hno Hnd]. cbn [write_entries foldl].
  destruct (write_entry_spec c o e Hc) as (c1 & -> & H1 & E1 & E2 & E3); [apply Hes; by left|].
  simpl. rewrite <- E1, <- E2, <- E3. apply IH; [done|done|]. intros k f Hk.
  apply (entry_ok_at (cache_coins c)); [|apply Hes; by right].
  rewrite E1. symmetry. apply apply_entry_ne. cbn [fst]. intros <-. apply Hno, list_elem_of_fmap. by exists (o, f).
Qed.

Lemma SetBestBlock_ok c h : cache_ok c → cache_ok (Cache_SetBestBlock h c).
Proof. by intros [H1 H2 H3 H4]. Qed.

(** A cache is a view that keeps the laws, whatever view is below. *)
#[export] Program Instance Cache_view_ok : CoinsViewOk (CCoinsViewCache V) := {|
  view_ok := cache_ok; coins := cache_coins; best := cache_best; may_write _ h := h ≠ 0
|}.
Next Obligation. intros c o coin. apply cache_coins_unspent. Qed.
Next Obligation.
  intros c o c' r Hc Hg. destruct (GetCoin_spec c o c' r Hc Hg) as [(H1 & H2 & H3 & _) ->]. done.
Qed.
Next Obligation.
  intros c c' h Hc Hg. destruct (GetBestBlock_spec c c' h Hc Hg) as [(H1 & H2 & H3 & _) ->]. done.
Qed.
Next Obligation.
  intros c es h Hc Hnd Hes Hh _. destruct (write_entries_spec es c Hc Hnd Hes) as (c' & E & H1 & H2 & H3 & H4).
  exists (Cache_SetBestBlock h c'). cbn [BatchWrite Cache_view]. unfold Cache_BatchWrite. rewrite E.
  split; [done|]. split; [by apply SetBestBlock_ok|]. split; [exact H2|]. split; [|done].
  unfold cache_best. simpl. by rewrite (proj2 (Z.eqb_neq h 0) Hh).
Qed.
Lemma foldl_apply_lookup es : ∀ m o, NoDup es.*1 →
  (o ∉ es.*1 → foldl (λ m oe, apply_entry oe m) m es !! o = m !! o) ∧
  (∀ e, (o, e) ∈ es → foldl (λ m oe, apply_entry oe m) m es !! o = apply_entry (o, e) m !! o).
Proof.
  induction es as [|[k f] es IH]; intros m o Hnd; [split; [done|by intros e ?%elem_of_nil]|].
  cbn [fmap list_fmap] in *. apply NoDup_cons in Hnd as [Hk Hnd]. cbn [foldl fst] in *.
  destruct (IH (apply_entry (k, f) m) o Hnd) as [H1 H2]. split.
  - intros [Hne Hno]%not_elem_of_cons. rewrite H1 by done. by apply apply_entry_ne.
  - intros e [[= -> ->]|He]%elem_of_cons; [by apply H1|]. rewrite (H2 e He).
    assert (k ≠ o) by (intros ->; apply Hk, list_elem_of_fmap; by exists (o, e)).
    unfold apply_entry at 1 3. cbn [fst snd].
    repeat case_match; rewrite ?lookup_delete_eq, ?lookup_insert_eq; try done. by apply apply_entry_ne.
Qed.

Lemma elem_of_flagged_entries c o e :
  (o, e) ∈ flagged_entries c ↔ o ∈ m_flagged c ∧ cacheCoins c !! o = Some e.
Proof.
  unfold flagged_entries. rewrite list_elem_of_omap. split.
  - intros (k & Hk & Hl). destruct (cacheCoins c !! k) eqn:E; simplify_eq/=. by rewrite E.
  - intros [Hk Hl]. exists o. by rewrite Hl.
Qed.

Lemma flagged_entries_once c : NoDup (m_flagged c) → NoDup (flagged_entries c).*1.
Proof.
  unfold flagged_entries. induction 1 as [|o l Ho Hl IH]; simpl; [constructor|].
  destruct (cacheCoins c !! o) as [e|]; simpl; [|done]. constructor; [|done].
  intros ([k f] & E & Hin)%list_elem_of_fmap. apply list_elem_of_omap in Hin as (k' & Hk' & Hf).
  destruct (cacheCoins c !! k'); simplify_eq/=. done.
Qed.

(** The entries written down turn the map below into the one shown. *)
Lemma flagged_entries_flush c :
  cache_ok c → foldl (λ m oe, apply_entry oe m) (coins (base c)) (flagged_entries c) = cache_coins c.
Proof.
  intros Hc. apply map_eq. intros o.
  pose proof (flagged_entries_once c (ch_once c Hc)) as Hnd.
  destruct (foldl_apply_lookup (flagged_entries c) (coins (base c)) o Hnd) as [H1 H2].
  rewrite cache_coins_lookup. destruct (cacheCoins c !! o) as [e|] eqn:He.
  2:{ rewrite H1; [done|]. intros ([k f] & -> & [_ ?]%elem_of_flagged_entries)%list_elem_of_fmap.
      simplify_eq/=. }
  destruct (decide (m_flags e = 0)) as [E|E].
  - rewrite H1.
    + destruct (ch_entry c Hc o e He) as [coin Hm Hu|? ?| |? ? ?]; [|done..]. simpl. by rewrite Hu.
    + intros ([k f] & -> & [Hin _]%elem_of_flagged_entries)%list_elem_of_fmap. simpl in *.
      apply (ch_flagged c Hc) in Hin as (e' & ? & ?). congruence.
  - rewrite (H2 e) by (apply elem_of_flagged_entries; rewrite (ch_flagged c Hc); eauto).
    unfold apply_entry. cbn [fst snd]. rewrite (proj1 (entry_flagged _ _ _ (ch_entry c Hc o e He)) E).
    simpl. destruct (IsSpent _); by rewrite ?lookup_delete_eq, ?lookup_insert_eq.
Qed.

Lemma written_down c :
  cache_ok c → hashBlock c ≠ 0 → may_write (base c) (hashBlock c) →
  ∃ b, BatchWrite (flagged_entries c) (hashBlock c) (base c) = Some b ∧ view_ok b ∧
    coins b = cache_coins c ∧ best b = hashBlock c ∧ ∀ h, h ≠ 0 → may_write b h.
Proof.
  intros Hc Hh Hw. destruct (BatchWrite_ok (base c) (flagged_entries c) (hashBlock c)) as (b & E & H1 & H2 & H3 & H4).
  - apply Hc.
  - apply flagged_entries_once, Hc.
  - intros o e [_ He]%elem_of_flagged_entries. by apply Hc.
  - done.
  - done.
  - exists b. by rewrite H2, flagged_entries_flush.
Qed.

Lemma NewCache_ok b : view_ok b → cache_ok (NewCache b) ∧ cache_coins (NewCache b) = coins b ∧
  cache_best (NewCache b) = best b.
Proof.
  intros Hb. split; [split; simpl; try done; try constructor|split; [|done]].
  - by intros ?%elem_of_nil.
  - by intros (e & ? & _).
  - apply map_eq. intros o. by rewrite cache_coins_lookup.
Qed.

(** Flushing empties the cache and leaves below what it showed. *)
Lemma Flush_spec c :
  cache_ok c → hashBlock c ≠ 0 → may_write (base c) (hashBlock c) →
  ∃ c', Flush c = Some c' ∧ cache_ok c' ∧ cache_coins c' = cache_coins c ∧
    cache_best c' = cache_best c ∧ coins (base c') = cache_coins c ∧
    best (base c') = cache_best c ∧ view_ok (base c') ∧ ∀ h, h ≠ 0 → may_write (base c') h.
Proof.
  intros Hc Hh Hw. destruct (written_down c Hc Hh Hw) as (b & E & H1 & H2 & H3 & H4). unfold Flush. rewrite E.
  eexists. split; [done|]. destruct (NewCache_ok b H1) as (Hn & Ec & _). split_and!.
  - destruct Hn as [? ? ? ?]. by split.
  - by rewrite <- H2, <- Ec.
  - unfold cache_best. simpl. by rewrite (proj2 (Z.eqb_neq _ _) Hh).
  - exact H2.
  - unfold cache_best. by rewrite (proj2 (Z.eqb_neq _ _) Hh).
  - exact H1.
  - exact H4.
Qed.
(** The cursor leaves every written entry clean, or gone when it is spent. *)
Definition cleaned e : option CCoinsCacheEntry :=
  if IsSpent (entry_coin e) then None else Some (mkEntry (entry_coin e) 0).

Lemma NextAndMaybeErase_fields c o e :
  cacheCoins c !! o = Some e →
  let c' := NextAndMaybeErase c (o, e) in
  base c' = base c ∧ hashBlock c' = hashBlock c ∧ m_flagged c' = filter (λ k, k ≠ o) (m_flagged c) ∧
  cacheCoins c' !! o = cleaned e ∧ ∀ k, k ≠ o → cacheCoins c' !! k = cacheCoins c !! k.
Proof.
  intros He. cbv zeta. unfold NextAndMaybeErase, cleaned, ClearFlags. cbn [fst snd]. rewrite He.
  destruct (IsSpent (entry_coin e)); simpl; split_and!; try done.
  - apply lookup_delete_eq.
  - intros k Hk. by apply lookup_delete_ne.
  - apply lookup_insert_eq.
  - intros k Hk. by apply lookup_insert_ne.
Qed.

Lemma cursor_spec es : ∀ c, NoDup es.*1 → (∀ o e, (o, e) ∈ es → cacheCoins c !! o = Some e) →
  let c' := foldl NextAndMaybeErase c es in
  base c' = base c ∧ hashBlock c' = hashBlock c ∧
  (∀ o, o ∈ m_flagged c' ↔ o ∈ m_flagged c ∧ o ∉ es.*1) ∧
  (∀ o e, (o, e) ∈ es → cacheCoins c' !! o = cleaned e) ∧
  (∀ o, o ∉ es.*1 → cacheCoins c' !! o = cacheCoins c !! o).
Proof.
  induction es as [|[k f] es IH]; intros c Hnd Hes; cbn [foldl].
  { split_and!; try done; [intros o; set_solver|by intros o e ?%elem_of_nil]. }
  cbn [fmap list_fmap fst] in *. apply NoDup_cons in Hnd as [Hk Hnd].
  destruct (NextAndMaybeErase_fields c k f) as (E1 & E2 & E3 & E4 & E5); [apply Hes; by left|].
  assert (Hne : ∀ o e, (o, e) ∈ es → o ≠ k)
    by (intros o e Hin ->; apply Hk, list_elem_of_fmap; by exists (k, e)).
  destruct (IH (NextAndMaybeErase c (k, f)) Hnd) as (F1 & F2 & F3 & F4 & F5).
  { intros o e Hin. rewrite E5 by eauto. apply Hes. by right. }
  split_and!; [congruence|congruence|..].
  - intros o. rewrite F3, E3, list_elem_of_filter, not_elem_of_cons. tauto.
  - intros o e [[= -> ->]|Hin]%elem_of_cons; [by rewrite F5|by apply F4].
  - intros o [Ho1 Ho2]%not_elem_of_cons. rewrite F5 by done. by apply E5.
Qed.

(** Writing down without emptying: the entries stay, all clean. *)
Lemma Sync_spec c :
  cache_ok c → hashBlock c ≠ 0 → may_write (base c) (hashBlock c) →
  ∃ c', Sync c = Some c' ∧ cache_ok c' ∧ cache_coins c' = cache_coins c ∧
    cache_best c' = cache_best c ∧ coins (base c') = cache_coins c ∧
    best (base c') = cache_best c ∧ m_flagged c' = [] ∧ ∀ h, h ≠ 0 → may_write (base c') h.
Proof.
  intros Hc Hh Hw. destruct (written_down c Hc Hh Hw) as (b & E & Hb & H2 & H3 & H4). unfold Sync. rewrite E.
  destruct (cursor_spec (flagged_entries c) (with_base c b)) as (E1 & E2 & E3 & E4 & E5).
  { apply flagged_entries_once, Hc. }
  { by intros o e [_ ?]%elem_of_flagged_entries. }
  simpl. set (c' := foldl _ _ _) in *.
  assert (Hin : ∀ o e, cacheCoins c !! o = Some e → m_flags e ≠ 0 → (o, e) ∈ flagged_entries c)
    by (intros o e ? ?; apply elem_of_flagged_entries; rewrite (ch_flagged c Hc); eauto).
  assert (Hfl : m_flagged c' = []).
  { apply elem_of_nil_inv. intros o [Ho Hno]%E3. apply (ch_flagged c Hc) in Ho as (e & He & Hf).
    apply Hno, list_elem_of_fmap. exists (o, e). eauto. }
  assert (Hent : ∀ o, cacheCoins c' !! o = cacheCoins c !! o ≫= cleaned).
  { intros o. destruct (cacheCoins c !! o) as [e|] eqn:He.
    - destruct (decide (m_flags e = 0)) as [Ez|Ez]; [|by apply E4, Hin]. rewrite E5.
      + simpl. rewrite He. destruct (ch_entry c Hc o e He) as [? ? Hu|? ?| |? ? ?]; [|done..].
        unfold cleaned. simpl. by rewrite Hu.
      + intros ([k f] & -> & [Hm _]%elem_of_flagged_entries)%list_elem_of_fmap. simpl in *.
        apply (ch_flagged c Hc) in Hm as (e' & ? & ?). congruence.
    - rewrite E5; [done|]. intros ([k f] & -> & [_ ?]%elem_of_flagged_entries)%list_elem_of_fmap.
      simplify_eq/=. }
  rewrite Hfl. exists c'. split; [done|].
  assert (Hcoins : cache_coins c' = cache_coins c).
  { apply map_eq. intros o. rewrite cache_coins_lookup, Hent, E1. simpl. rewrite H2, cache_coins_lookup.
    unfold cleaned. destruct (cacheCoins c !! o) as [e|]; simpl; [|done].
    destruct (IsSpent (entry_coin e)) eqn:Hs; simpl; by rewrite ?Hs. }
  split; [split|split_and!].
  - by rewrite E1.
  - intros o e He. rewrite Hent in He. apply bind_Some in He as (e0 & He0 & Hcl). unfold cleaned in Hcl.
    destruct (IsSpent _) eqn:Hs; simplify_eq. apply entry_fetched; [|done].
    rewrite E1. simpl. rewrite H2, cache_coins_lookup, He0. simpl. by rewrite Hs.
  - rewrite Hfl. constructor.
  - intros o. rewrite Hfl. split; [by intros ?%elem_of_nil|]. intros (e & He & Hf).
    rewrite Hent in He. apply bind_Some in He as (e0 & _ & Hcl). unfold cleaned in Hcl.
    destruct (IsSpent _); by simplify_eq.
  - done.
  - unfold cache_best. rewrite E1, E2. simpl. by rewrite (proj2 (Z.eqb_neq _ _) Hh).
  - rewrite E1. exact H2.
  - rewrite E1. simpl. rewrite H3. unfold cache_best. by rewrite (proj2 (Z.eqb_neq _ _) Hh).
  - done.
  - rewrite E1. exact H4.
Qed.

Lemma Uncache_spec c o : cache_ok c → same_view c (Uncache o c).
Proof.
  intros Hc. unfold Uncache. destruct (cacheCoins c !! o) as [e|] eqn:He; [|done].
  destruct (negb (IsDirty e) && negb (IsFresh e)) eqn:Ef; [|done].
  destruct (erased_ok c o Hc) as (H1 & H2 & H3 & _ & H4). split; [done|].
  split; [|split; [unfold cache_best|]; by rewrite ?H2, ?H3]. apply H4. rewrite cache_coins_lookup, He.
  destruct (ch_entry c Hc o e He) as [? Hm Hu|? ?| |? ? ?]; [|done..]. simpl. by rewrite Hm, Hu.
Qed.
Lemma entry_ok_attr m o e :
  entry_ok m o e →
  negb (entry_attr e =? 2) && negb (entry_attr e =? 4) && negb (entry_attr e =? 7) = true ∧
  IsDirty e || IsFresh e = bool_decide (m_flags e ≠ 0).
Proof. intros [? ? Hu|? Hu| |? ? Hu]; unfold entry_attr; simpl; rewrite ?Hu; done. Qed.

Lemma filter_keys_once {A B} (f : A * B → bool) l : NoDup l.*1 → NoDup (List.filter f l).*1.
Proof.
  induction l as [|x l IH]; [done|]. intros [Hx Hl]%NoDup_cons. simpl.
  destruct (f x); [|by apply IH]. apply NoDup_cons. split; [|by apply IH].
  intros (y & E & [Hy _]%list_elem_of_In%List.filter_In)%list_elem_of_fmap.
  apply Hx. rewrite E. apply list_elem_of_fmap. exists y. split; [done|]. by apply list_elem_of_In.
Qed.

(** The checks the node can run on its cache pass. *)
Lemma SanityCheck_ok c : cache_ok c → SanityCheck c = true.
Proof.
  intros Hc. unfold SanityCheck. apply andb_true_intro. split; [apply andb_true_intro; split|].
  - apply forallb_forall. intros [o e] Hin%list_elem_of_In%elem_of_map_to_list.
    by apply (entry_ok_attr (coins (base c)) o), Hc.
  - apply forallb_forall. intros o (e & He & Hf)%list_elem_of_In%(ch_flagged c Hc). rewrite He.
    rewrite (proj2 (entry_ok_attr _ _ _ (ch_entry c Hc o e He))). by apply bool_decide_eq_true.
  - apply Nat.eqb_eq.
    rewrite <- (length_fmap fst (List.filter _ _)). apply Permutation_length, NoDup_Permutation.
    + apply Hc.
    + apply filter_keys_once, NoDup_fst_map_to_list.
    + intros o. rewrite (ch_flagged c Hc), list_elem_of_fmap. split.
      * intros (e & He & Hf). exists (o, e). split; [done|]. apply list_elem_of_In, List.filter_In.
        split; [by apply list_elem_of_In, elem_of_map_to_list|]. simpl.
        rewrite (proj2 (entry_ok_attr _ _ _ (ch_entry c Hc o e He))). by apply bool_decide_eq_true.
      * intros ([k e] & -> & [Hin Hf]%list_elem_of_In%List.filter_In). apply list_elem_of_In, elem_of_map_to_list in Hin.
        simpl in *. exists e. split; [done|].
        rewrite (proj2 (entry_ok_attr _ _ _ (ch_entry c Hc k e Hin))) in Hf. by apply bool_decide_eq_true in Hf.
Qed.
End cache_ok.

(** ** The operations clients use *)

(** [SpendCoin] gives the coin moved out, [None] when it returns false; [AddCoin] gives
    [None] for a failed assertion or an exception. *)
Class CoinOps (S : Type) := {
  HaveCoin : COutPoint → S → S * bool;
  AccessCoin : COutPoint → S → S * Coin;
  SpendCoin : COutPoint → S → S * option Coin;
  AddCoin : COutPoint → Coin → bool → S → option S;
  GetBestBlock : S → S * Z;
  SetBestBlock : Z → S → S
}.

#[export] Instance Cache_ops {V} `{!CCoinsView V} : CoinOps (CCoinsViewCache V) := {|
  HaveCoin := Cache_HaveCoin; AccessCoin := Cache_AccessCoin; SpendCoin := Cache_SpendCoin;
  AddCoin := Cache_AddCoin; GetBestBlock := Cache_GetBestBlock; SetBestBlock := Cache_SetBestBlock
|}.

(** The reference: the set of unspent outputs as a finite map.  Overwriting without leave is
    an error. *)
Record UTXO := mkUTXO { utxo : gmap COutPoint Coin; utxo_best : Z }.

#[export] Instance UTXO_ops : CoinOps UTXO := {|
  HaveCoin o u := (u, bool_decide (is_Some (utxo u !! o)));
  AccessCoin o u := (u, default coinEmpty (utxo u !! o));
  SpendCoin o u := (mkUTXO (delete o (utxo u)) (utxo_best u), utxo u !! o);
  AddCoin o coin overwrite u :=
    if IsSpent coin then None
    else if IsUnspendable (scriptPubKey (out coin)) then Some u
    else if negb overwrite && bool_decide (is_Some (utxo u !! o)) then None
    else Some (mkUTXO (<[o := coin]> (utxo u)) (utxo_best u));
  GetBestBlock u := (u, utxo_best u);
  SetBestBlock h u := mkUTXO (utxo u) h
|}.

(** Any sequence of operations.  [OpFlush] and [OpSync] ask for the best block first and
    do nothing while there is none, as [FlushStateToDisk] does; a best block that is set is
    never null. *)
Inductive coin_op :=
  | OpHave (o : COutPoint)
  | OpAccess (o : COutPoint)
  | OpSpend (o : COutPoint)
  | OpAdd (o : COutPoint) (coin : Coin) (possible_overwrite : bool)
  | OpBest
  | OpSetBest (h : Z)
  | OpFlush
  | OpSync
  | OpUncache (o : COutPoint).

Inductive coin_answer := Done | Answer (b : bool) | Moved (c : Coin) | Hash (h : Z).

Section run.
Context {S : Type} `{!CoinOps S} (flush sync : S → option S) (uncache : COutPoint → S → S).

Definition when_best (f : S → option S) (s : S) : option (S * coin_answer) :=
  let '(s, h) := GetBestBlock s in
  if h =? 0 then Some (s, Done) else s' ← f s; Some (s', Done).

(** A caller of [SpendCoin] that gets no coin keeps the empty one it passed. *)
Definition run_op (op : coin_op) (s : S) : option (S * coin_answer) :=
  match op with
  | OpHave o => let '(s, b) := HaveCoin o s in Some (s, Answer b)
  | OpAccess o => let '(s, c) := AccessCoin o s in Some (s, Moved c)
  | OpSpend o => let '(s, r) := SpendCoin o s in Some (s, Moved (default coinEmpty r))
  | OpAdd o coin overwrite => s ← AddCoin o coin overwrite s; Some (s, Done)
  | OpBest => let '(s, h) := GetBestBlock s in Some (s, Hash h)
  | OpSetBest h => if h =? 0 then None else Some (SetBestBlock h s, Done)
  | OpFlush => when_best flush s
  | OpSync => when_best sync s
  | OpUncache o => Some (uncache o s, Done)
  end.

Fixpoint run_ops (ops : list coin_op) (s : S) : option (S * list coin_answer) :=
  match ops with
  | [] => Some (s, [])
  | op :: ops' =>
      '(s, a) ← run_op op s;
      '(s, r) ← run_ops ops' s;
      Some (s, a :: r)
  end.
End run.

Section refine.
Context {V : Type} `{!CCoinsView V, !CoinsViewOk V}.
Implicit Types (c : CCoinsViewCache V) (u : UTXO).

(** A cache shows a map and the view below it takes the best blocks of [W]. *)
Record refines_for (W : Z → Prop) c u : Prop := {
  rf_ok : cache_ok c;
  rf_coins : cache_coins c = utxo u;
  rf_best : cache_best c = utxo_best u;
  rf_write h : W h → may_write (base c) h
}.

Section any_write.
Context {W : Z → Prop}.
Abbreviation refines := (refines_for W).

Lemma refines_same c c' u : same_view c c' → refines c u → refines c' u.
Proof. intros (H1 & H2 & H3 & H4) [R1 R2 R3 R4]. split; [done|congruence|congruence|auto]. Qed.

Lemma refines_HaveCoin c u o :
  refines c u → refines (HaveCoin o c).1 u ∧ (HaveCoin o c).2 = (HaveCoin o u).2.
Proof.
  intros R. destruct (Cache_HaveCoin o c) as [c' b] eqn:E.
  destruct (HaveCoin_spec c o c' b (rf_ok _ _ _ R) E) as [Hs ->]. cbn [HaveCoin Cache_ops]. rewrite E.
  split; [by eapply refines_same|]. simpl. by rewrite (rf_coins _ _ _ R).
Qed.

Lemma refines_AccessCoin c u o :
  refines c u → refines (AccessCoin o c).1 u ∧ (AccessCoin o c).2 = (AccessCoin o u).2.
Proof.
  intros R. destruct (Cache_AccessCoin o c) as [c' b] eqn:E.
  destruct (AccessCoin_spec c o c' b (rf_ok _ _ _ R) E) as [Hs ->]. cbn [AccessCoin Cache_ops]. rewrite E.
  split; [by eapply refines_same|]. simpl. by rewrite (rf_coins _ _ _ R).
Qed.

Lemma refines_SpendCoin c u o :
  refines c u →
  refines (SpendCoin o c).1 (SpendCoin o u).1 ∧
  ((SpendCoin o c).2 = (SpendCoin o u).2 ∨
   (SpendCoin o c).2 = Some coinEmpty ∧ (SpendCoin o u).2 = None).
Proof.
  intros R. destruct (Cache_SpendCoin o c) as [c' r] eqn:E.
  destruct (SpendCoin_spec c o c' r (rf_ok _ _ _ R) E) as (H1 & H2 & H3 & Hw & H4). cbn [SpendCoin Cache_ops]. rewrite E.
  rewrite (rf_coins _ _ _ R) in *. split; [split; simpl; [done|done|by rewrite H3; apply R|]|].
  - intros h Hh. by apply Hw, R.
  - simpl. destruct (utxo u !! o); destruct H4; auto.
Qed.

Lemma refines_AddCoin c u o coin overwrite u' :
  refines c u → AddCoin o coin overwrite u = Some u' →
  ∃ c', AddCoin o coin overwrite c = Some c' ∧ refines c' u'.
Proof.
  intros R. cbn [AddCoin UTXO_ops]. destruct (IsSpent coin) eqn:Hs; [done|]. intros Hu.
  assert (Hov : IsUnspendable (scriptPubKey (out coin)) = true ∨
    (overwrite = false → cache_coins c !! o = None)).
  { destruct (IsUnspendable _); [by left|]. right. rewrite (rf_coins _ _ _ R). intros ->. simpl in Hu.
    case_bool_decide as Hn; [done|]. by apply eq_None_not_Some. }
  destruct (IsUnspendable _) eqn:Hun.
  - exists c. cbn [AddCoin Cache_ops]. unfold Cache_AddCoin. rewrite Hs, Hun. by simplify_eq.
  - destruct (AddCoin_spec c o coin overwrite (rf_ok _ _ _ R) Hs) as (c' & E & H1 & H2 & Hb & H3); [by destruct Hov|].
    exists c'. cbn [AddCoin Cache_ops]. split; [done|]. destruct (_ && _); simplify_eq.
    rewrite Hun in H3.
    split; simpl; [done|by rewrite H3, (rf_coins _ _ _ R)|by rewrite H2; apply R|by rewrite Hb; apply R].
Qed.

Lemma refines_GetBestBlock c u :
  refines c u → refines (GetBestBlock c).1 u ∧ (GetBestBlock c).2 = utxo_best u ∧
    (utxo_best u ≠ 0 → hashBlock (GetBestBlock c).1 ≠ 0).
Proof.
  intros R. destruct (Cache_GetBestBlock c) as [c' h] eqn:E.
  destruct (GetBestBlock_spec c c' h (rf_ok _ _ _ R) E) as [Hs ->]. cbn [GetBestBlock Cache_ops]. rewrite E.
  split; [by eapply refines_same|]. split; [apply R|]. rewrite <- (rf_best _ _ _ R). intros Hb. cbn [fst].
  unfold Cache_GetBestBlock in E. destruct (Z.eqb_spec (hashBlock c) 0) as [E0|E0].
  - destruct (View_GetBestBlock (base c)) as [b h]. by injection E as <- ->.
  - by injection E as <- _.
Qed.

Lemma refines_SetBestBlock c u h :
  refines c u → h ≠ 0 → refines (SetBestBlock h c) (SetBestBlock h u).
Proof.
  intros [R1 R2 R3 R4] Hh. split; simpl; [by apply SetBestBlock_ok|exact R2| |exact R4].
  unfold cache_best. simpl. by rewrite (proj2 (Z.eqb_neq h 0) Hh).
Qed.

End any_write.

(** The cache of a running node, which can be flushed at any time. *)
Abbreviation refines := (refines_for (λ h, h ≠ 0)).

Lemma refines_write c u f :
  (∀ c1, cache_ok c1 → hashBlock c1 ≠ 0 → may_write (base c1) (hashBlock c1) →
     ∃ c2, f c1 = Some c2 ∧ cache_ok c2 ∧ cache_coins c2 = cache_coins c1 ∧
       cache_best c2 = cache_best c1 ∧ ∀ h, h ≠ 0 → may_write (base c2) h) →
  refines c u → ∃ c', when_best f c = Some (c', Done) ∧ refines c' u.
Proof.
  intros Hf R. unfold when_best. destruct (refines_GetBestBlock c u R) as (R1 & E & Hh).
  destruct (GetBestBlock c) as [c1 h]. cbn [fst snd] in *. subst h.
  destruct (Z.eqb_spec (utxo_best u) 0); [eauto|].
  destruct R1 as [R1 R2 R3 R4].
  destruct (Hf c1 R1 (Hh n) (R4 _ (Hh n))) as (c2 & -> & H1 & H2 & H3 & H4). exists c2.
  split; [done|]. split; [done|congruence..|done].
Qed.

Lemma refines_op op c u u' a :
  refines c u → run_op Some Some (λ _ u, u) op u = Some (u', a) →
  ∃ c', run_op Flush Sync Uncache op c = Some (c', a) ∧ refines c' u'.
Proof.
  intros R. destruct op as [o|o|o|o coin ov| |h| | |o]; cbn [run_op].
  - destruct (refines_HaveCoin c u o R) as [R' E]. destruct (HaveCoin o c), (HaveCoin o u) eqn:Hu.
    simplify_eq/=. intros [= -> <-]. eauto.
  - destruct (refines_AccessCoin c u o R) as [R' E]. destruct (AccessCoin o c), (AccessCoin o u) eqn:Hu.
    simplify_eq/=. intros [= -> <-]. eauto.
  - destruct (refines_SpendCoin c u o R) as [R' E]. destruct (SpendCoin o c), (SpendCoin o u) eqn:Hu.
    simplify_eq/=. intros [= <- <-]. destruct E as [->|[-> ->]]; eauto.
  - destruct (AddCoin o coin ov u) as [u1|] eqn:Hu; [|done]. intros [= -> <-].
    destruct (refines_AddCoin c u o coin ov u' R Hu) as (c' & -> & R'). eauto.
  - destruct (refines_GetBestBlock c u R) as (R' & E & _). destruct (GetBestBlock c). simplify_eq/=.
    intros [= <- <-]. eauto.
  - destruct (Z.eqb_spec h 0); [done|]. intros [= <- <-].
    eexists. split; [done|]. by apply refines_SetBestBlock.
  - intros Hu. assert (u' = u ∧ a = Done) as [-> ->]
      by (unfold when_best in Hu; simpl in Hu; destruct (_ =? _); by simplify_eq).
    apply refines_write; [|done]. intros c1 H1 H2 H3.
    destruct (Flush_spec c1 H1 H2 H3) as (c2 & E & ? & ? & ? & _ & _ & _ & ?). eauto 10.
  - intros Hu. assert (u' = u ∧ a = Done) as [-> ->]
      by (unfold when_best in Hu; simpl in Hu; destruct (_ =? _); by simplify_eq).
    apply refines_write; [|done]. intros c1 H1 H2 H3.
    destruct (Sync_spec c1 H1 H2 H3) as (c2 & E & ? & ? & ? & _ & _ & _ & ?). eauto 10.
  - intros [= <- <-]. eexists. split; [done|]. eapply refines_same; [apply Uncache_spec, R|done].
Qed.

Lemma refines_ops ops : ∀ c u u' answers,
  refines c u → run_ops Some Some (λ _ u, u) ops u = Some (u', answers) →
  ∃ c', run_ops Flush Sync Uncache ops c = Some (c', answers) ∧ refines c' u'.
Proof.
  induction ops as [|op ops IH]; intros c u u' answers R H; cbn [run_ops] in *; [simplify_eq; eauto|].
  apply bind_Some in H as ([u1 a] & H1 & H). apply bind_Some in H as ([u2 r] & H2 & H). simplify_eq.
  destruct (refines_op op c u u1 a R H1) as (c1 & -> & R1). simpl.
  destruct (IH c1 u1 u' r R1 H2) as (c2 & -> & R2). simpl. eauto.
Qed.

(** C14. The cache of unspent outputs is transparent: over any view that implements a map
    from out points to coins (the database, or another cache), every sequence of lookups,
    spends, additions, flushes, syncs and evictions that a caller may make answers what the
    plain map answers and ends in a cache that shows the resulting map; it raises no
    exception, it keeps the flag combinations and the list of flagged entries that
    [SanityCheck] asserts, and flushing it leaves exactly that map in the view below. *)
Theorem coins_cache_refines ops c u u' answers :
  refines c u → run_ops Some Some (λ _ u, u) ops u = Some (u', answers) →
  ∃ c', run_ops Flush Sync Uncache ops c = Some (c', answers) ∧
    cache_coins c' = utxo u' ∧ cache_best c' = utxo_best u' ∧ SanityCheck c' = true ∧
    (hashBlock c' ≠ 0 → ∃ c'', Flush c' = Some c'' ∧ coins (base c'') = utxo u' ∧
       best (base c'') = utxo_best u').
Proof.
  intros R H. destruct (refines_ops ops c u u' answers R H) as (c' & E & R').
  exists c'. split_and!; [done|apply R'|apply R'|apply SanityCheck_ok, R'|]. intros Hh.
  destruct (Flush_spec c' (rf_ok _ _ _ R') Hh (rf_write _ _ _ R' _ Hh)) as (c'' & E' & _ & _ & _ & H1 & H2 & _).
  exists c''. split; [done|]. rewrite H1, H2. split; apply R'.
Qed.
End refine.

Abbreviation refines := (refines_for (λ h, h ≠ 0)).
