(* ===== verification/CoinsDB.v ===== *)
(** * The coins database: src/src/txdb.cpp

    [CCoinsViewDB] keeps the unspent outputs, the best block and, while a flush is under way,
    the two heads it moves between.  The key-value store below it is a record of these three
    kinds of keys; a batch is applied atomically, as LevelDB promises, and a flush may be cut
    into several batches by their size, so that a crash leaves the store after any number of
    them. *)

From stdpp Require Import gmap.
From S2P Require Import Prelude Serialize BlockHeader Transaction Script Coins.

Local Open Scope Z_scope.

(** ** The store *)

Record CCoinsViewDB := mkDB {
  db_coins : gmap COutPoint Coin;
  db_best_block : option Z;
  db_head_blocks : option (list Z)
}.

Inductive batch_op :=
  | EraseCoin (o : COutPoint)
  | WriteCoin (o : COutPoint) (coin : Coin)
  | EraseBestBlock
  | WriteBestBlock (h : Z)
  | EraseHeadBlocks
  | WriteHeadBlocks (hs : list Z).

Definition apply_op (db : CCoinsViewDB) (op : batch_op) : CCoinsViewDB :=
  match op with
  | EraseCoin o => mkDB (delete o (db_coins db)) (db_best_block db) (db_head_blocks db)
  | WriteCoin o coin => mkDB (<[o := coin]> (db_coins db)) (db_best_block db) (db_head_blocks db)
  | EraseBestBlock => mkDB (db_coins db) None (db_head_blocks db)
  | WriteBestBlock h => mkDB (db_coins db) (Some h) (db_head_blocks db)
  | EraseHeadBlocks => mkDB (db_coins db) (db_best_block db) None
  | WriteHeadBlocks hs => mkDB (db_coins db) (db_best_block db) (Some hs)
  end.

Definition WriteBatch (db : CCoinsViewDB) (batch : list batch_op) : CCoinsViewDB :=
  foldl apply_op db batch.

(** ** The view *)

Definition DB_GetCoin (o : COutPoint) (db : CCoinsViewDB) : CCoinsViewDB * option Coin :=
  (db, db_coins db !! o).

Definition DB_GetBestBlock (db : CCoinsViewDB) : Z := default 0 (db_best_block db).

Definition GetHeadBlocks (db : CCoinsViewDB) : list Z := default [] (db_head_blocks db).

(** The tip the store is at, also in the middle of replaying; [None]: the assertion that a
    replay goes on to the block it was started for. *)
Definition old_tip (db : CCoinsViewDB) (hashBlock : Z) : option Z :=
  if DB_GetBestBlock db =? 0
  then match GetHeadBlocks db with
       | [new_head; old_head] => if new_head =? hashBlock then Some old_head else None
       | _ => Some 0
       end
  else Some (DB_GetBestBlock db).

Definition entry_op (oe : COutPoint * CCoinsCacheEntry) : batch_op :=
  if IsSpent (entry_coin oe.2) then EraseCoin oe.1 else WriteCoin oe.1 (entry_coin oe.2).

Section write.
(** Whether [SizeEstimate] of a batch exceeds [batch_write_bytes]. *)
Context (too_large : list batch_op → bool).

(** The batches of a flush from an entry on, with what the current batch holds. *)
Fixpoint batches_loop (es : list (COutPoint * CCoinsCacheEntry)) (hashBlock : Z)
    (batch : list batch_op) : list (list batch_op) :=
  match es with
  | [] => [batch ++ [EraseHeadBlocks; WriteBestBlock hashBlock]]
  | oe :: es' =>
      let batch := if IsDirty oe.2 then batch ++ [entry_op oe] else batch in
      if too_large batch then batch :: batches_loop es' hashBlock []
      else batches_loop es' hashBlock batch
  end.

Definition flush_batches (es : list (COutPoint * CCoinsCacheEntry)) (hashBlock : Z)
    (db : CCoinsViewDB) : option (list (list batch_op)) :=
  if hashBlock =? 0 then None
  else tip ← old_tip db hashBlock;
       Some (batches_loop es hashBlock [EraseBestBlock; WriteHeadBlocks [hashBlock; tip]]).

Definition DB_BatchWrite (es : list (COutPoint * CCoinsCacheEntry)) (hashBlock : Z)
    (db : CCoinsViewDB) : option CCoinsViewDB :=
  batches ← flush_batches es hashBlock db; Some (foldl WriteBatch db batches).

(** The stores that a crash during the flush can leave. *)
Definition crash_states (es : list (COutPoint * CCoinsCacheEntry)) (hashBlock : Z)
    (db : CCoinsViewDB) : list CCoinsViewDB :=
  match flush_batches es hashBlock db with
  | Some batches => (λ n, foldl WriteBatch db (take n batches)) <$> seq 0 (length batches)
  | None => []
  end.

#[local] Instance DB_view : CCoinsView CCoinsViewDB := {|
  GetCoin := DB_GetCoin;
  View_GetBestBlock db := (db, DB_GetBestBlock db);
  BatchWrite := DB_BatchWrite
|}.

(** ** The store implements the map *)

Definition db_ok (db : CCoinsViewDB) : Prop :=
  ∀ o coin, db_coins db !! o = Some coin → IsSpent coin = false.

(** A store between two heads takes no other block. *)
Definition db_may_write (db : CCoinsViewDB) (h : Z) : Prop := is_Some (old_tip db h).

Lemma WriteBatch_app db l k : WriteBatch db (l ++ k) = WriteBatch (WriteBatch db l) k.
Proof. apply foldl_app. Qed.

Lemma batches_loop_concat es h : ∀ batch,
  concat (batches_loop es h batch) =
  batch ++ omap (λ oe, if IsDirty oe.2 then Some (entry_op oe) else None) es ++
  [EraseHeadBlocks; WriteBestBlock h].
Proof.
  induction es as [|oe es IH]; intros batch; cbn [batches_loop].
  { simpl. by rewrite app_nil_r. }
  cbv zeta. destruct (too_large _); [cbn [concat]|]; rewrite IH; cbn [omap list_omap];
    destruct (IsDirty oe.2); rewrite <- ?app_assoc; done.
Qed.

Lemma foldl_WriteBatch batches : ∀ db, foldl WriteBatch db batches = WriteBatch db (concat batches).
Proof. induction batches as [|b bs IH]; intros db; [done|]. cbn [foldl concat]. by rewrite IH, WriteBatch_app. Qed.

(** Only coins are written between the first operations and the last. *)
Lemma entry_ops_coins es : ∀ db,
  let db' := WriteBatch db (omap (λ oe, if IsDirty oe.2 then Some (entry_op oe) else None) es) in
  db_coins db' = foldl (λ m oe, apply_entry oe m) (db_coins db) es ∧
  db_best_block db' = db_best_block db ∧ db_head_blocks db' = db_head_blocks db.
Proof.
  induction es as [|oe es IH]; intros db; [done|]. cbn [omap list_omap foldl]. unfold apply_entry at 2.
  destruct (IsDirty oe.2); [|apply IH]. cbv zeta. unfold WriteBatch. cbn [foldl]. unfold entry_op at 1 3 5.
  destruct (IsSpent (entry_coin oe.2));
    (match goal with |- context [foldl apply_op ?d _] => destruct (IH d) as (E1 & E2 & E3) end;
     unfold WriteBatch in E1, E2, E3; rewrite E1, E2, E3; done).
Qed.

Lemma DB_BatchWrite_spec es h db :
  h ≠ 0 → db_may_write db h →
  ∃ db', DB_BatchWrite es h db = Some db' ∧
    db_coins db' = foldl (λ m oe, apply_entry oe m) (db_coins db) es ∧
    db_best_block db' = Some h ∧ db_head_blocks db' = None.
Proof.
  intros Hh [tip Ht]. unfold DB_BatchWrite, flush_batches.
  rewrite (proj2 (Z.eqb_neq h 0) Hh), Ht. eexists. split; [done|].
  rewrite foldl_WriteBatch, batches_loop_concat, !WriteBatch_app.
  set (db1 := WriteBatch db [EraseBestBlock; WriteHeadBlocks [h; tip]]).
  destruct (entry_ops_coins es db1) as (E1 & E2 & E3). split; [exact E1|done].
Qed.

Lemma foldl_apply_unspent m es :
  (∀ o c, m !! o = Some c → IsSpent c = false) →
  ∀ o c, foldl (λ m oe, apply_entry oe m) m es !! o = Some c → IsSpent c = false.
Proof.
  revert m. induction es as [|[k e] es IH]; intros m Hm; [done|]. cbn [foldl]. apply IH.
  intros o c. unfold apply_entry. cbn [fst snd]. destruct (IsDirty e); [|apply Hm].
  destruct (IsSpent (entry_coin e)) eqn:Es.
  - intros [_ ?]%lookup_delete_Some. eauto.
  - intros [[_ <-]|[_ ?]]%lookup_insert_Some; eauto.
Qed.

#[local] Program Instance DB_view_ok : CoinsViewOk CCoinsViewDB := {|
  view_ok := db_ok; coins := db_coins; best := DB_GetBestBlock; may_write := db_may_write
|}.
Next Obligation. intros db o coin H. apply H. Qed.
Next Obligation. intros db o db' r Hdb [= <- <-]. done. Qed.
Next Obligation. intros db db' h Hdb [= <- <-]. done. Qed.
Next Obligation.
  intros db es h Hdb Hnd Hes Hh Hw. destruct (DB_BatchWrite_spec es h db Hh Hw) as (db' & E & E1 & E2 & E3).
  exists db'. split; [done|]. unfold db_ok. rewrite E1. split; [by apply foldl_apply_unspent|].
  split; [done|]. split; [unfold DB_GetBestBlock; by rewrite E2|].
  intros h' Hh'. unfold db_may_write, old_tip, DB_GetBestBlock. rewrite E2. simpl.
  by rewrite (proj2 (Z.eqb_neq h 0) Hh).
Qed.
(** ** What a crash leaves *)

Lemma batches_loop_take es h : ∀ batch n, (n < length (batches_loop es h batch))%nat →
  n = 0%nat ∨ ∃ k, concat (take n (batches_loop es h batch)) =
    batch ++ omap (λ oe, if IsDirty oe.2 then Some (entry_op oe) else None) (take k es).
Proof.
  induction es as [|oe es IH]; intros batch n; cbn [batches_loop].
  { simpl. intros Hn. left. lia. }
  cbv zeta. set (batch' := if IsDirty oe.2 then batch ++ [entry_op oe] else batch).
  assert (Hb : ∀ k, batch' ++ omap (λ oe, if IsDirty oe.2 then Some (entry_op oe) else None) (take k es) =
    batch ++ omap (λ oe, if IsDirty oe.2 then Some (entry_op oe) else None) (take (S k) (oe :: es))).
  { intros k. unfold batch'. cbn [take omap list_omap]. destruct (IsDirty oe.2); [by rewrite <- app_assoc|done]. }
  destruct (too_large batch').
  - intros Hn. destruct n as [|n]; [by left|right]. cbn [length take concat] in *.
    destruct (IH [] n ltac:(lia)) as [->|[k ->]].
    + exists 1%nat. etransitivity; [|apply (Hb 0%nat)]. simpl. by rewrite !app_nil_r.
    + exists (S k). etransitivity; [|apply Hb]. done.
  - intros Hn. destruct (IH batch' n Hn) as [->|[k ->]]; [by left|right]. exists (S k). apply Hb.
Qed.

Lemma old_tip_consistent db h : db_head_blocks db = None → old_tip db h = Some (DB_GetBestBlock db).
Proof.
  intros Hn. unfold old_tip, GetHeadBlocks. rewrite Hn. simpl.
  destruct (Z.eqb_spec (DB_GetBestBlock db) 0) as [->|]; done.
Qed.

(** A crash leaves the store untouched, or marked with both heads and with every coin as it
    was or as it was to become. *)
Lemma crash_state_spec es h tip db db' :
  NoDup es.*1 → old_tip db h = Some tip → db' ∈ crash_states es h db →
  db' = db ∨
  (db_best_block db' = None ∧ db_head_blocks db' = Some [h; tip] ∧
   ∀ o, db_coins db' !! o = db_coins db !! o ∨
        db_coins db' !! o = foldl (λ m oe, apply_entry oe m) (db_coins db) es !! o).
Proof.
  intros Hnd Htip. unfold crash_states, flush_batches. rewrite Htip.
  destruct (h =? 0); [by intros ?%elem_of_nil|]. simpl.
  intros (n & -> & [_ Hn]%elem_of_seq)%list_elem_of_fmap. rewrite foldl_WriteBatch.
  destruct (batches_loop_take es h _ n Hn) as [->|[k ->]]; [by left|right].
  rewrite WriteBatch_app. set (db1 := WriteBatch db [EraseBestBlock; WriteHeadBlocks [h; tip]]).
  destruct (entry_ops_coins (take k es) db1) as (E1 & E2 & E3).
  split; [exact E2|]. split; [exact E3|]. intros o. rewrite E1. change (db_coins db1) with (db_coins db).
  assert (Hk : NoDup (take k es).*1)
    by (rewrite fmap_take; eapply sublist_NoDup; [exact Hnd|apply sublist_take]).
  destruct (decide (o ∈ (take k es).*1)) as [([k' e] & E & Hin)%list_elem_of_fmap|Hout].
  - right. simpl in E. subst k'. rewrite (proj2 (foldl_apply_lookup _ _ o Hk) e Hin).
    by rewrite (proj2 (foldl_apply_lookup _ _ o Hnd) e (elem_of_sublist _ _ _ Hin (sublist_take _ _))).
  - left. by apply foldl_apply_lookup.
Qed.

(** A flush that is completed leaves the store at its block. *)
Lemma DB_BatchWrite_heads es h db db' :
  DB_BatchWrite es h db = Some db' → db_best_block db' = Some h ∧ db_head_blocks db' = None.
Proof.
  unfold DB_BatchWrite. intros (batches & Hb & [= <-])%bind_Some. unfold flush_batches in Hb.
  destruct (h =? 0); [done|]. apply bind_Some in Hb as (tip & _ & [= <-]).
  by rewrite foldl_WriteBatch, batches_loop_concat, !WriteBatch_app.
Qed.
End write.

(** A cache over a store that is consistent. *)
Lemma fresh_cache_refines too_large (db : CCoinsViewDB) :
  db_ok db → db_head_blocks db = None →
  refines_for (V := CCoinsViewDB) (CCoinsView0 := DB_view too_large) (CoinsViewOk0 := DB_view_ok too_large)
    (λ h, h ≠ 0) (NewCache db) (mkUTXO (db_coins db) (DB_GetBestBlock db)).
Proof.
  intros Hok Hh. destruct (NewCache_ok (V := CCoinsViewDB) (CCoinsView0 := DB_view too_large)
    (CoinsViewOk0 := DB_view_ok too_large) db Hok) as (H1 & H2 & H3).
  split; [done|exact H2|exact H3|]. intros h _. exists (DB_GetBestBlock db). by apply old_tip_consistent.
Qed.

(** A store with one coin, and a caller that spends it, adds another and flushes. *)
Definition example_db : CCoinsViewDB :=
  mkDB {[ mkOutPoint 7 0 := mkCoin (mkTxOut 20000000 [0x51]) false 1 ]} (Some 5) None.
Definition example_ops : list coin_op :=
  [OpHave (mkOutPoint 7 0); OpSpend (mkOutPoint 7 0);
   OpAdd (mkOutPoint 8 1) (mkCoin (mkTxOut 3 [0x51]) true 6) false;
   OpUncache (mkOutPoint 8 1); OpSetBest 6; OpSync; OpSpend (mkOutPoint 8 1); OpFlush;
   OpHave (mkOutPoint 8 1); OpBest].

Lemma example_db_ok : db_ok example_db.
Proof. intros o coin H. unfold example_db in H. cbn [db_coins] in H. by apply lookup_singleton_Some in H as [_ <-]. Qed.

Definition example_answers : list coin_answer :=
  [Answer true; Moved (mkCoin (mkTxOut 20000000 [0x51]) false 1); Done; Done; Done; Done;
   Moved (mkCoin (mkTxOut 3 [0x51]) true 6); Done; Answer false; Hash 6].

Lemma coins_cache_refines_witness :
  ∃ c',
    run_ops (S := CCoinsViewCache CCoinsViewDB) (CoinOps0 := Cache_ops (CCoinsView0 := DB_view (λ _, false)))
      (Flush (CCoinsView0 := DB_view (λ _, false))) (Sync (CCoinsView0 := DB_view (λ _, false))) Uncache
      example_ops (NewCache example_db) = Some (c', example_answers) ∧ SanityCheck c' = true.
Proof.
  destruct (coins_cache_refines (V := CCoinsViewDB) (CCoinsView0 := DB_view (λ _, false))
    (CoinsViewOk0 := DB_view_ok (λ _, false)) example_ops (NewCache example_db)
    (mkUTXO (db_coins example_db) 5) (mkUTXO ∅ 6) example_answers
    (fresh_cache_refines (λ _, false) example_db example_db_ok eq_refl)
    ltac:(vm_compute; reflexivity)) as (c' & E & _ & _ & H & _).
  exact (ex_intro _ c' (conj E H)).
Defined.
