(* ===== verification/Connect.v ===== *)
(** * Connecting and disconnecting blocks: [Chainstate::ConnectBlock] and
    [Chainstate::DisconnectBlock] of src/src/validation.cpp, with
    src/src/consensus/tx_verify.cpp and the undo data of src/src/undo.h

    The handlers run in a state and error monad over the coins they work on, any type with
    the operations of class [CoinOps] (Coins.v).  The script machine (one input at a time),
    the state of the post-quantum deployment, the signet solution and the writing of undo
    files are arguments; the caches of script results, the counters and the timing are left
    out. *)

From Stdlib Require Import String.
From stdpp Require Import gmap.
From S2P Require Import Prelude PqcWitness Arith256 Serialize BlockHeader BlockIndex Pow Subsidy.
From S2P Require Import Transaction Script Chainman Accept BlockCheck Coins.

Local Open Scope Z_scope.

(** ** A monad for code that reads and changes coins *)

Definition M (S E A : Type) : Type := S → S * (A + E).

Definition mret {S E A} (a : A) : M S E A := λ s, (s, inl a).
Definition fail {S E A} (e : E) : M S E A := λ s, (s, inr e).
Definition mthen {S E A B} (m : M S E A) (f : A → M S E B) : M S E B :=
  λ s, match m s with
       | (s, inl a) => f a s
       | (s, inr e) => (s, inr e)
       end.

(** An operation that cannot fail, and one whose failure is [e]. *)
Definition lift {S E A} (op : S → S * A) : M S E A := λ s, let '(s, a) := op s in (s, inl a).
Definition attempt {S E} (e : E) (op : S → option S) : M S E unit :=
  λ s, match op s with Some s => (s, inl tt) | None => (s, inr e) end.
Definition map_error {S E F A} (f : E → F) (m : M S E A) : M S F A :=
  λ s, match m s with
       | (s, inl a) => (s, inl a)
       | (s, inr e) => (s, inr (f e))
       end.

Declare Scope coins_scope.
Delimit Scope coins_scope with coins.
Notation "x <- m ;; k" := (mthen m (λ x, k))
  (at level 100, m at next level, right associativity) : coins_scope.
Notation "m ;;; k" := (mthen m (λ _, k)) (at level 100, right associativity) : coins_scope.
Local Open Scope coins_scope.

(** ** Data *)

(** The undo data of a transaction: the coins its inputs spent; of a block: of all its
    transactions but the coinbase. *)
Abbreviation CTxUndo := (list Coin).
Abbreviation CBlockUndo := (list (list Coin)).

Definition COINBASE_MATURITY : Z := 100.
Definition LOCKTIME_VERIFY_SEQUENCE : Z := 1.
Definition SEQUENCE_LOCKTIME_DISABLE_FLAG : Z := Z.shiftl 1 31.
Definition SEQUENCE_LOCKTIME_TYPE_FLAG : Z := Z.shiftl 1 22.
Definition SEQUENCE_LOCKTIME_MASK : Z := 0xffff.
Definition SEQUENCE_LOCKTIME_GRANULARITY : Z := 9.
Definition BIP34_IMPLIES_BIP30_LIMIT : Z := 1983702.
Definition BLOCK_HAVE_UNDO : Z := 16.

Definition SCRIPT_VERIFY_P2SH : Z := Z.shiftl 1 0.
Definition SCRIPT_VERIFY_DERSIG : Z := Z.shiftl 1 2.
Definition SCRIPT_VERIFY_NULLDUMMY : Z := Z.shiftl 1 4.
Definition SCRIPT_VERIFY_CHECKLOCKTIMEVERIFY : Z := Z.shiftl 1 9.
Definition SCRIPT_VERIFY_CHECKSEQUENCEVERIFY : Z := Z.shiftl 1 10.
Definition SCRIPT_VERIFY_WITNESS : Z := Z.shiftl 1 11.
Definition SCRIPT_VERIFY_TAPROOT : Z := Z.shiftl 1 17.

Inductive TxValidationResult := TX_CONSENSUS | TX_MISSING_INPUTS | TX_PREMATURE_SPEND.

(** A rejected transaction; [TxAbort] is a failed assertion or an exception. *)
Inductive TxFailure :=
  | TxInvalid (result : TxValidationResult) (reject_reason : string)
  | TxAbort.

Inductive DisconnectResult := DISCONNECT_OK | DISCONNECT_UNCLEAN | DISCONNECT_FAILED.

#[export] Instance DisconnectResult_eq_dec : EqDecision DisconnectResult.
Proof. solve_decision. Defined.

#[export] Instance CTxOut_eq_dec : EqDecision CTxOut.
Proof. solve_decision. Defined.

(** The consensus parameters that only connecting reads. *)
Record ConnectParams := mkConnectParams {
  hashGenesisBlock : Z;
  BIP34Hash : Z;
  nHybridSigHeight : Z;
  script_flag_exceptions : gmap Z Z;
  AssumedValidBlock : Z
}.

(** ** Relative lock times *)

(** The last invalid height and time after the inputs; [None]: a missing ancestor. *)
Fixpoint sequence_loop (st : BlockMap) (block : Z) (ins : list (CTxIn * Z))
    (nMinHeight nMinTime : Z) : option (Z * Z) :=
  match ins with
  | [] => Some (nMinHeight, nMinTime)
  | (txin, nCoinHeight) :: ins' =>
      let seq := nSequence txin in
      if negb (Z.land seq SEQUENCE_LOCKTIME_DISABLE_FLAG =? 0)
      then sequence_loop st block ins' nMinHeight nMinTime
      else if negb (Z.land seq SEQUENCE_LOCKTIME_TYPE_FLAG =? 0)
      then match GetAncestor st block (Z.max (nCoinHeight - 1) 0) with
           | None => None
           | Some a =>
               let nCoinTime := GetMedianTimePast st a in
               let lock := Z.shiftl (Z.land seq SEQUENCE_LOCKTIME_MASK) SEQUENCE_LOCKTIME_GRANULARITY in
               sequence_loop st block ins' nMinHeight (Z.max nMinTime (nCoinTime + lock - 1))
           end
      else sequence_loop st block ins'
             (Z.max nMinHeight (nCoinHeight + Z.land seq SEQUENCE_LOCKTIME_MASK - 1)) nMinTime
  end.

Definition CalculateSequenceLocks (st : BlockMap) (tx : CTransaction) (flags : Z)
    (prevHeights : list Z) (block : Z) : option (Z * Z) :=
  if negb (length prevHeights =? length (vin tx))%nat then None
  else if (2 <=? version tx) && negb (Z.land flags LOCKTIME_VERIFY_SEQUENCE =? 0)
  then sequence_loop st block (zip (vin tx) prevHeights) (-1) (-1)
  else Some (-1, -1).

(** [None]: the block has no predecessor. *)
Definition EvaluateSequenceLocks (st : BlockMap) (block : Z) (lockPair : Z * Z) : option bool :=
  b ← st !! block;
  p ← pprev b;
  let nBlockTime := GetMedianTimePast st p in
  Some (negb ((nHeight b <=? lockPair.1) || (nBlockTime <=? lockPair.2))).

Definition SequenceLocks (st : BlockMap) (tx : CTransaction) (flags : Z) (prevHeights : list Z)
    (block : Z) : option bool :=
  locks ← CalculateSequenceLocks st tx flags prevHeights block;
  EvaluateSequenceLocks st block locks.

(** ** Signature operations *)

Definition WitnessSigOps (witversion : Z) (witprogram : list Z) (witness : list (list Z)) : Z :=
  if witversion =? 0
  then if (length witprogram =? WITNESS_V0_KEYHASH_SIZE)%nat then 1
       else if (length witprogram =? WITNESS_V0_SCRIPTHASH_SIZE)%nat
       then match last witness with Some script => GetSigOpCount true script | None => 0 end
       else 0
  else 0.

(** The data of the last operation of a script, whatever it is. *)
Fixpoint last_data (fuel : nat) (pc data : list Z) : list Z :=
  match fuel, pc with
  | S fuel', _ :: _ =>
      match GetScriptOp pc with
      | Some (_, data, pc) => last_data fuel' pc data
      | None => []
      end
  | _, _ => data
  end.

(** [None]: the assertion that P2SH is verified with witnesses. *)
Definition CountWitnessSigOps (scriptSig scriptPubKey : list Z) (witness : list (list Z)) (flags : Z)
    : option Z :=
  if negb (has_flag flags SCRIPT_VERIFY_WITNESS) then Some 0
  else if negb (has_flag flags SCRIPT_VERIFY_P2SH) then None
  else match IsWitnessProgram scriptPubKey with
       | Some (v, program) => Some (WitnessSigOps v program witness)
       | None =>
           if IsPayToScriptHash scriptPubKey && IsPushOnly scriptSig
           then match IsWitnessProgram (last_data (length scriptSig) scriptSig []) with
                | Some (v, program) => Some (WitnessSigOps v program witness)
                | None => Some 0
                end
           else Some 0
       end.

(** ** Operations on the coins *)

Section coins.
Context {V : Type} `{!CoinOps V}.
Context (SHA256d : list Z → Z).

(** [AccessCoin] with the assertion that the coin is unspent. *)
Definition access_unspent {E} (abort : E) (o : COutPoint) : M V E Coin :=
  coin <- lift (AccessCoin o) ;;
  if IsSpent coin then fail abort else mret coin.

Fixpoint access_all {E} (abort : E) (ins : list CTxIn) : M V E (list Coin) :=
  match ins with
  | [] => mret []
  | txin :: ins' =>
      coin <- access_unspent abort (prevout txin) ;;
      rest <- access_all abort ins' ;;
      mret (coin :: rest)
  end.

Fixpoint prev_heights {E} (ins : list CTxIn) : M V E (list Z) :=
  match ins with
  | [] => mret []
  | txin :: ins' =>
      coin <- lift (AccessCoin (prevout txin)) ;;
      rest <- prev_heights ins' ;;
      mret (coin_nHeight coin :: rest)
  end.

Fixpoint p2sh_loop (ins : list CTxIn) (nSigOps : Z) : M V Failure Z :=
  match ins with
  | [] => mret nSigOps
  | txin :: ins' =>
      coin <- access_unspent Abort (prevout txin) ;;
      let script := scriptPubKey (out coin) in
      p2sh_loop ins' (if IsPayToScriptHash script
                      then u32 (nSigOps + GetSigOpCount_P2SH script (scriptSig txin)) else nSigOps)
  end.

Definition GetP2SHSigOpCount (tx : CTransaction) : M V Failure Z :=
  if IsCoinBase tx then mret 0 else p2sh_loop (vin tx) 0.

Fixpoint witness_sigops_loop (ins : list CTxIn) (flags nSigOps : Z) : M V Failure Z :=
  match ins with
  | [] => mret nSigOps
  | txin :: ins' =>
      coin <- access_unspent Abort (prevout txin) ;;
      match CountWitnessSigOps (scriptSig txin) (scriptPubKey (out coin)) (scriptWitness txin) flags with
      | Some n => witness_sigops_loop ins' flags (s64 (nSigOps + n))
      | None => fail Abort
      end
  end.

Definition GetTransactionSigOpCost (tx : CTransaction) (flags : Z) : M V Failure Z :=
  let nSigOps := u32 (GetLegacySigOpCount tx * WITNESS_SCALE_FACTOR) in
  if IsCoinBase tx then mret nSigOps
  else
    p2sh <- (if has_flag flags SCRIPT_VERIFY_P2SH then GetP2SHSigOpCount tx else mret 0) ;;
    witness_sigops_loop (vin tx) flags (nSigOps + u32 (p2sh * WITNESS_SCALE_FACTOR)).

(** ** The amounts of a transaction *)

Fixpoint have_inputs {E} (ins : list CTxIn) : M V E bool :=
  match ins with
  | [] => mret true
  | txin :: ins' =>
      have <- lift (HaveCoin (prevout txin)) ;;
      if have then have_inputs ins' else mret false
  end.

Definition HaveInputs {E} (tx : CTransaction) : M V E bool :=
  if IsCoinBase tx then mret true else have_inputs (vin tx).

Fixpoint sum_inputs (ins : list CTxIn) (nSpendHeight nValueIn : Z) : M V TxFailure Z :=
  match ins with
  | [] => mret nValueIn
  | txin :: ins' =>
      coin <- access_unspent TxAbort (prevout txin) ;;
      if fCoinBase coin && (nSpendHeight - coin_nHeight coin <? COINBASE_MATURITY)
      then fail (TxInvalid TX_PREMATURE_SPEND "bad-txns-premature-spend-of-coinbase")
      else
        let nValueIn := s64 (nValueIn + nValue (out coin)) in
        if negb (MoneyRange (nValue (out coin))) || negb (MoneyRange nValueIn)
        then fail (TxInvalid TX_CONSENSUS "bad-txns-inputvalues-outofrange")
        else sum_inputs ins' nSpendHeight nValueIn
  end.

(** The fee of the transaction. *)
Definition CheckTxInputs (tx : CTransaction) (nSpendHeight : Z) : M V TxFailure Z :=
  have <- HaveInputs tx ;;
  if negb have then fail (TxInvalid TX_MISSING_INPUTS "bad-txns-inputs-missingorspent")
  else
    nValueIn <- sum_inputs (vin tx) nSpendHeight 0 ;;
    match GetValueOut tx with
    | None => fail TxAbort
    | Some value_out =>
        if nValueIn <? value_out then fail (TxInvalid TX_CONSENSUS "bad-txns-in-belowout")
        else
          let txfee_aux := nValueIn - value_out in
          if negb (MoneyRange txfee_aux) then fail (TxInvalid TX_CONSENSUS "bad-txns-fee-outofrange")
          else mret txfee_aux
    end.

(** ** Spending and adding *)

Fixpoint spend_inputs (ins : list CTxIn) : M V Failure CTxUndo :=
  match ins with
  | [] => mret []
  | txin :: ins' =>
      moved <- lift (SpendCoin (prevout txin)) ;;
      match moved with
      | None => fail Abort
      | Some coin => rest <- spend_inputs ins' ;; mret (coin :: rest)
      end
  end.

(** The outputs from index [i] on. *)
Fixpoint add_outputs (txid : Z) (i : nat) (outs : list CTxOut) (nHeight : Z)
    (fCoinbase check_for_overwrite : bool) : M V Failure unit :=
  match outs with
  | [] => mret tt
  | out :: outs' =>
      let o := mkOutPoint txid (u32 (Z.of_nat i)) in
      overwrite <- (if check_for_overwrite then lift (HaveCoin o) else mret fCoinbase) ;;
      attempt Abort (AddCoin o (NewCoin out nHeight fCoinbase) overwrite) ;;;
      add_outputs txid (S i) outs' nHeight fCoinbase check_for_overwrite
  end.

Definition AddCoins (tx : CTransaction) (nHeight : Z) (check_for_overwrite : bool) : M V Failure unit :=
  add_outputs (GetTxid SHA256d tx) 0 (vout tx) nHeight (IsCoinBase tx) check_for_overwrite.

Definition UpdateCoins (tx : CTransaction) (nHeight : Z) : M V Failure CTxUndo :=
  txundo <- (if IsCoinBase tx then mret [] else spend_inputs (vin tx)) ;;
  AddCoins tx nHeight false ;;;
  mret txundo.

(** ** Undoing *)

Definition MIN_TRANSACTION_OUTPUT_WEIGHT : Z :=
  WITNESS_SCALE_FACTOR * Z.of_nat (length (encode CTxOut_codec CTxOut_null)).
Definition MAX_OUTPUTS_PER_BLOCK : Z := MAX_BLOCK_WEIGHT / MIN_TRANSACTION_OUTPUT_WEIGHT.

Fixpoint access_by_txid {E} (fuel : nat) (txid n : Z) : M V E Coin :=
  match fuel with
  | O => mret coinEmpty
  | S fuel' =>
      alternate <- lift (AccessCoin (mkOutPoint txid n)) ;;
      if IsSpent alternate then access_by_txid fuel' txid (n + 1) else mret alternate
  end.

Definition AccessByTxid {E} (txid : Z) : M V E Coin :=
  access_by_txid (Z.to_nat MAX_OUTPUTS_PER_BLOCK) txid 0.

Definition ApplyTxInUndo (undo : Coin) (o : COutPoint) : M V Failure DisconnectResult :=
  have <- lift (HaveCoin o) ;;
  let fClean := negb have in
  restored <-
    (if coin_nHeight undo =? 0
     then alternate <- AccessByTxid (op_hash o) ;;
          mret (if IsSpent alternate then None
                else Some (mkCoin (out undo) (fCoinBase alternate) (coin_nHeight alternate)))
     else mret (Some undo)) ;;
  match restored with
  | None => mret DISCONNECT_FAILED
  | Some coin =>
      attempt Abort (AddCoin o coin (negb fClean)) ;;;
      mret (if fClean then DISCONNECT_OK else DISCONNECT_UNCLEAN)
  end.

(** Removing the outputs of a transaction, from index [i] on. *)
Fixpoint remove_outputs {E} (txid : Z) (i : nat) (outs : list CTxOut) (nHeight : Z)
    (is_coinbase is_bip30_exception fClean : bool) : M V E bool :=
  match outs with
  | [] => mret fClean
  | txout :: outs' =>
      if IsUnspendable (scriptPubKey txout)
      then remove_outputs txid (S i) outs' nHeight is_coinbase is_bip30_exception fClean
      else
        moved <- lift (SpendCoin (mkOutPoint txid (u32 (Z.of_nat i)))) ;;
        let coin := default coinEmpty moved in
        let mismatch := bool_decide (moved = None) || negb (bool_decide (txout = out coin)) ||
          negb (nHeight =? coin_nHeight coin) || negb (Bool.eqb is_coinbase (fCoinBase coin)) in
        remove_outputs txid (S i) outs' nHeight is_coinbase is_bip30_exception
          (if mismatch && negb is_bip30_exception then false else fClean)
  end.

(** Restoring the inputs from the last to the first: the lists are reversed. *)
Fixpoint restore_inputs (ins : list (CTxIn * Coin)) (fClean : bool) : M V Failure (option bool) :=
  match ins with
  | [] => mret (Some fClean)
  | (txin, undo) :: ins' =>
      res <- ApplyTxInUndo undo (prevout txin) ;;
      match res with
      | DISCONNECT_FAILED => mret None
      | DISCONNECT_UNCLEAN => restore_inputs ins' false
      | DISCONNECT_OK => restore_inputs ins' fClean
      end
  end.

(** The transactions from the last to the first, each with its undo data; the coinbase,
    which comes last, has none.  [None]: DISCONNECT_FAILED. *)
Fixpoint disconnect_txs (txs : list (CTransaction * option CTxUndo)) (nHeight : Z)
    (fEnforceBIP30 fClean : bool) : M V Failure (option bool) :=
  match txs with
  | [] => mret (Some fClean)
  | (tx, txundo) :: txs' =>
      let is_coinbase := IsCoinBase tx in
      fClean <- remove_outputs (GetTxid SHA256d tx) 0 (vout tx) nHeight is_coinbase
                  (is_coinbase && negb fEnforceBIP30) fClean ;;
      restored <-
        (match txundo with
         | None => mret (Some fClean)
         | Some vprevout =>
             if negb (length vprevout =? length (vin tx))%nat then mret None
             else restore_inputs (reverse (zip (vin tx) vprevout)) fClean
         end) ;;
      match restored with
      | None => mret None
      | Some fClean => disconnect_txs txs' nHeight fEnforceBIP30 fClean
      end
  end.

(** The coinbase has no undo data, every other transaction its own. *)
Definition with_undo (vtx : list CTransaction) (blockUndo : CBlockUndo)
    : list (CTransaction * option CTxUndo) :=
  match vtx with
  | [] => []
  | coinbase :: vtx' => (coinbase, None) :: zip vtx' (Some <$> blockUndo)
  end.
End coins.

(** ** [ConnectBlock] *)

(** [None]: division by a block proof of zero. *)
Definition GetBlockProofEquivalentTime (to from tip : CBlockIndex) (nPowTargetSpacing : Z) : option Z :=
  let '(r, sign) := if nChainWork from <? nChainWork to then (u256 (nChainWork to - nChainWork from), 1)
                    else (u256 (nChainWork from - nChainWork to), -1) in
  let proof := GetBlockProof (nBits tip) in
  if proof =? 0 then None
  else
    let r := u256 (r * u256 (u64 nPowTargetSpacing)) / proof in
    Some (if 63 <? bits r then sign * (2 ^ 63 - 1) else sign * r).

(** [uint256] from its display form, which is reversed. *)
Definition IsBIP30Repeat (nHeight hash : Z) : bool :=
  ((nHeight =? 91842) &&
   (hash =? ArithToUint256 0x00000000000a4d0a398161ffc163c503763b1f4360639393e0e4c8e300e0caec)) ||
  ((nHeight =? 91880) &&
   (hash =? ArithToUint256 0x00000000000743f190a18c5577a3c2d2a1f610ae9601ac046a38084ccb7cd721)).

(** The exceptions of [DisconnectBlock]: the blocks these overwrite. *)
Definition bip30_overwritten (nHeight hash : Z) : bool :=
  ((nHeight =? 91722) &&
   (hash =? ArithToUint256 0x00000000000271a2dc26e7667f8419f2e15416dc6955e5a6c6cdf3f2574dd08e)) ||
  ((nHeight =? 91812) &&
   (hash =? ArithToUint256 0x00000000000af0aed4792b1acee3d966af36cf5def14935db8de83d6f9306f2f)).

(** The block index and the undo files, which connecting changes too. *)
Abbreviation Disk := (BlockMap * gmap Z CBlockUndo)%type.

Section connect.
Context {V : Type} `{!CoinOps V}.
Context (SHA256d : list Z → Z) (params : Params) (bparams : BodyParams) (cparams : ConnectParams)
  (opts : Options).
Context (CheckSignetBlockSolution : CBlockHeader → list CTransaction → bool).
(** [VerifyScript] on an input of a transaction with the outputs all inputs spend: the
    reason it fails. *)
Context (CScriptCheck : CTransaction → nat → list CTxOut → Z → option string).
(** Whether the post-quantum deployment is active after a block, and whether the script
    checks run in other threads. *)
Context (pqc_active : option Z → bool) (parallel_script_checks : bool).
(** Whether the undo data of a block can be written. *)
Context (UndoWriteToDisk : Z → CBlockUndo → bool).

Definition add_flag (b : bool) (flag flags : Z) : Z := if b then Z.lor flags flag else flags.

Definition GetBlockScriptFlags (hash : Z) (b : CBlockIndex) : Z :=
  let flags := default (Z.lor (Z.lor SCRIPT_VERIFY_P2SH SCRIPT_VERIFY_WITNESS) SCRIPT_VERIFY_TAPROOT)
                 (script_flag_exceptions cparams !! hash) in
  let flags := add_flag (BIP66Height params <=? nHeight b) SCRIPT_VERIFY_DERSIG flags in
  let flags := add_flag (BIP65Height params <=? nHeight b) SCRIPT_VERIFY_CHECKLOCKTIMEVERIFY flags in
  let flags := add_flag (CSVHeight bparams <=? nHeight b) SCRIPT_VERIFY_CHECKSEQUENCEVERIFY flags in
  let flags := add_flag (SegwitHeight params <=? nHeight b) SCRIPT_VERIFY_NULLDUMMY flags in
  if pqc_active (pprev b)
  then add_flag (nHybridSigHeight cparams <=? nHeight b) SCRIPT_VERIFY_HYBRID_SIG
         (Z.lor flags SCRIPT_VERIFY_PQC)
  else flags.

(** Whether scripts are checked, or skipped below the block assumed valid; [None]: a null
    best header or a division by zero. *)
Definition script_checks (st : BlockMap) (best_header : option Z) (pindex : Z) (b : CBlockIndex)
    : option bool :=
  if AssumedValidBlock cparams =? 0 then Some true
  else match st !! AssumedValidBlock cparams with
       | None => Some true
       | Some _ =>
           if negb (bool_decide (GetAncestor st (AssumedValidBlock cparams) (nHeight b) = Some pindex))
           then Some true
           else
             best ← best_header;
             best_b ← st !! best;
             if bool_decide (GetAncestor st best (nHeight b) = Some pindex) &&
                (MinimumChainWork opts <=? nChainWork best_b)
             then t ← GetBlockProofEquivalentTime best_b b best_b (nPowTargetSpacing params);
                  Some (t <=? 60 * 60 * 24 * 7 * 2)
             else Some true
       end.

(** The spent outputs, then the inputs in order. *)
Fixpoint check_scripts (tx : CTransaction) (i : nat) (ins : list CTxIn) (spent_outputs : list CTxOut)
    (flags : Z) : option string :=
  match ins with
  | [] => None
  | _ :: ins' =>
      match CScriptCheck tx i spent_outputs flags with
      | Some reason => Some reason
      | None => check_scripts tx (S i) ins' spent_outputs flags
      end
  end.

Definition CheckInputScripts (tx : CTransaction) (flags : Z) : M V Failure (option string) :=
  if IsCoinBase tx then mret None
  else spent <- access_all Abort (vin tx) ;;
       mret (check_scripts tx 0 (vin tx) (out <$> spent) flags).

Definition block_failure (f : TxFailure) : Failure :=
  match f with
  | TxInvalid _ reason => Invalid BLOCK_CONSENSUS reason
  | TxAbort => Abort
  end.

Definition pqc_reason (r : PQCReject) : string :=
  match r with bad_pqc_witness _ => "bad-pqc-witness" | missing_pqc_sig _ => "missing-pqc-sig" end.

(** The rules on a transaction that is not the coinbase: the new total of the fees. *)
Definition check_spending (st : BlockMap) (pindex : Z) (b : CBlockIndex) (flags nLockTimeFlags : Z)
    (tx : CTransaction) (nFees : Z) : M V Failure Z :=
  match (if has_flag flags SCRIPT_VERIFY_HYBRID_SIG
         then CheckPQCSignatures (scriptWitness <$> vin tx) flags else None) with
  | Some r => fail (Invalid BLOCK_CONSENSUS (pqc_reason r))
  | None =>
      txfee <- map_error block_failure (CheckTxInputs tx (nHeight b)) ;;
      let nFees := s64 (nFees + txfee) in
      if negb (MoneyRange nFees)
      then fail (Invalid BLOCK_CONSENSUS "bad-txns-accumulated-fee-outofrange")
      else
        prevheights <- prev_heights (vin tx) ;;
        match SequenceLocks st tx nLockTimeFlags prevheights pindex with
        | None => fail Abort
        | Some false => fail (Invalid BLOCK_CONSENSUS "bad-txns-nonfinal")
        | Some true => mret nFees
        end
  end.

(** The running totals: fees, signature operations, the undo data, and whether the checks
    handed to other threads pass. *)
Record Totals := mkTotals {
  nFees : Z;
  nSigOpsCost : Z;
  vtxundo : CBlockUndo;
  checks_pass : bool
}.

(** One transaction; [first] is the first of the block. *)
Definition connect_tx (st : BlockMap) (pindex : Z) (b : CBlockIndex) (flags nLockTimeFlags : Z)
    (fScriptChecks first : bool) (tx : CTransaction) (t : Totals) : M V Failure Totals :=
  fees <- (if IsCoinBase tx then mret (nFees t)
           else check_spending st pindex b flags nLockTimeFlags tx (nFees t)) ;;
  cost <- GetTransactionSigOpCost tx flags ;;
  let sigops := s64 (nSigOpsCost t + cost) in
  if MAX_BLOCK_SIGOPS_COST <? sigops then fail (Invalid BLOCK_CONSENSUS "bad-blk-sigops")
  else
    failed <- (if negb (IsCoinBase tx) && fScriptChecks then CheckInputScripts tx flags else mret None) ;;
    match failed, parallel_script_checks with
    | Some reason, false => fail (Invalid BLOCK_CONSENSUS reason)
    | _, _ =>
        txundo <- UpdateCoins SHA256d tx (nHeight b) ;;
        mret (mkTotals fees sigops (if first then vtxundo t else vtxundo t ++ [txundo])
                (checks_pass t && bool_decide (failed = None)))
    end.

Fixpoint connect_txs (st : BlockMap) (pindex : Z) (b : CBlockIndex) (flags nLockTimeFlags : Z)
    (fScriptChecks first : bool) (vtx : list CTransaction) (t : Totals) : M V Failure Totals :=
  match vtx with
  | [] => mret t
  | tx :: vtx' =>
      t <- connect_tx st pindex b flags nLockTimeFlags fScriptChecks first tx t ;;
      connect_txs st pindex b flags nLockTimeFlags fScriptChecks false vtx' t
  end.

Fixpoint overwrites_output {E} (txid : Z) (n : nat) (i : nat) : M V E bool :=
  match n with
  | O => mret false
  | S n' =>
      have <- lift (HaveCoin (mkOutPoint txid (u32 (Z.of_nat i)))) ;;
      if have then mret true else overwrites_output txid n' (S i)
  end.

Fixpoint overwrites_any {E} (vtx : list CTransaction) : M V E bool :=
  match vtx with
  | [] => mret false
  | tx :: vtx' =>
      found <- overwrites_output (GetTxid SHA256d tx) (length (vout tx)) 0 ;;
      if found then mret true else overwrites_any vtx'
  end.

Definition enforce_BIP30 (st : BlockMap) (pindex : Z) (b : CBlockIndex) (prev : Z) : bool :=
  (negb (IsBIP30Repeat (nHeight b) pindex) &&
   match GetAncestor st prev (BIP34Height params) with
   | Some a => negb (a =? BIP34Hash cparams)
   | None => true
   end) ||
  (BIP34_IMPLIES_BIP30_LIMIT <=? nHeight b).

(** From the rule against overwriting on, for a block that is not the genesis block. *)
Definition connect_contents (st : BlockMap) (best_header : option Z) (pindex : Z) (b : CBlockIndex)
    (vtx : list CTransaction) : M V Failure CBlockUndo :=
  match script_checks st best_header pindex b, pprev b with
  | Some fScriptChecks, Some prev =>
      found <- (if enforce_BIP30 st pindex b prev then overwrites_any vtx else mret false) ;;
      if found then fail (Invalid BLOCK_CONSENSUS "bad-txns-BIP30")
      else
        let nLockTimeFlags := if CSVHeight bparams <=? nHeight b then LOCKTIME_VERIFY_SEQUENCE else 0 in
        let flags := GetBlockScriptFlags pindex b in
        t <- connect_txs st pindex b flags nLockTimeFlags fScriptChecks true vtx (mkTotals 0 0 [] true) ;;
        match head vtx ≫= GetValueOut with
        | None => fail Abort
        | Some value_out =>
            let blockReward :=
              nFees t + GetBlockSubsidy (nHeight b) params (1 <? Z.of_nat (length vtx)) in
            if blockReward <? value_out then fail (Invalid BLOCK_CONSENSUS "bad-cb-amount")
            else if negb (checks_pass t) then fail (Invalid BLOCK_CONSENSUS "block-validation-failed")
            else mret (vtxundo t)
        end
  | _, _ => fail Abort
  end.

Definition WriteUndoDataForBlock (disk : Disk) (pindex : Z) (blockundo : CBlockUndo) : option Disk :=
  let '(st, undo) := disk in
  b ← st !! pindex;
  if Z.land (nStatus b) BLOCK_HAVE_UNDO =? 0
  then if UndoWriteToDisk pindex blockundo
       then Some (<[pindex := set_nStatus (Z.lor (nStatus b) BLOCK_HAVE_UNDO) b]> st,
                  <[pindex := blockundo]> undo)
       else None
  else Some disk.

(** Raising the validity of a block that was connected. *)
Definition raise_scripts (st : BlockMap) (pindex : Z) : BlockMap :=
  match st !! pindex with
  | Some b => if IsValid b BLOCK_VALID_SCRIPTS then st
              else <[pindex := set_nStatus (RaiseValidity (nStatus b) BLOCK_VALID_SCRIPTS) b]> st
  | None => st
  end.

Definition ConnectBlock (disk : Disk) (best_header : option Z) (pindex : Z) (block : CBlock)
    (fJustCheck : bool) (view : V) : Disk * V * option Failure :=
  let st := disk.1 in
  match st !! pindex with
  | None => (disk, view, Some Abort)
  | Some b =>
      if negb (GetHash SHA256d (blk_header block) =? pindex) then (disk, view, Some Abort)
      else
        match (CheckBlock SHA256d params bparams CheckSignetBlockSolution block
                 (negb fJustCheck) (negb fJustCheck)).2 with
        | Some (Invalid BLOCK_MUTATED _) => (disk, view, Some SystemError)
        | Some f => (disk, view, Some f)
        | None =>
            let '(view, best) := GetBestBlock view in
            if negb (best =? default 0 (pprev b)) then (disk, view, Some Abort)
            else if pindex =? hashGenesisBlock cparams
            then (disk, if fJustCheck then view else SetBestBlock pindex view, None)
            else
              match connect_contents st best_header pindex b (blk_vtx block) view with
              | (view, inr f) => (disk, view, Some f)
              | (view, inl blockundo) =>
                  if fJustCheck then (disk, view, None)
                  else
                    match WriteUndoDataForBlock disk pindex blockundo with
                    | None => (disk, view, Some SystemError)
                    | Some (st, undo) =>
                        ((raise_scripts st pindex, undo), SetBestBlock pindex view, None)
                    end
              end
        end
  end.

(** ** [DisconnectBlock] *)

Definition UndoReadFromDisk (disk : Disk) (pindex : Z) : option CBlockUndo :=
  b ← disk.1 !! pindex;
  if Z.land (nStatus b) BLOCK_HAVE_UNDO =? 0 then None else disk.2 !! pindex.

Definition DisconnectBlock (disk : Disk) (pindex : Z) (vtx : list CTransaction)
    : M V Failure DisconnectResult :=
  match UndoReadFromDisk disk pindex, disk.1 !! pindex with
  | Some blockUndo, Some b =>
      if negb (length blockUndo + 1 =? length vtx)%nat then mret DISCONNECT_FAILED
      else
        let fEnforceBIP30 := negb (bip30_overwritten (nHeight b) pindex) in
        r <- disconnect_txs SHA256d (reverse (with_undo vtx blockUndo)) (nHeight b) fEnforceBIP30 true ;;
        match r, pprev b with
        | None, _ => mret DISCONNECT_FAILED
        | Some _, None => fail Abort
        | Some fClean, Some prev =>
            lift (λ view, (SetBestBlock prev view, if fClean then DISCONNECT_OK else DISCONNECT_UNCLEAN))
        end
  | _, _ => mret DISCONNECT_FAILED
  end.
End connect.
