(* ===== verification/ConnectSim.v ===== *)
(** * Connecting on a cache does what connecting on the map does

    The definitions of Connect.v work on any type of coins.  Here each is related to itself
    on the reference map of Coins.v: run on a cache that shows the map, it gives the same
    result and a cache that shows the resulting map, unless the run on the map aborts.  So
    what is proved of connecting on the map holds for the stack of caches the node uses. *)

From Stdlib Require Import String.
From stdpp Require Import gmap.
From S2P Require Import Prelude PqcWitness Arith256 Serialize BlockHeader BlockIndex Pow Subsidy.
From S2P Require Import Transaction Script Chainman Accept BlockCheck Coins Connect.

Local Open Scope Z_scope.

Section sim.
Context {V : Type} `{!CCoinsView V, !CoinsViewOk V} {W : Z → Prop}.
Abbreviation refines := (refines_for W).
Implicit Types (c : CCoinsViewCache V) (u : UTXO).

(** [bad] errors of the map excuse the cache. *)
Definition sim {E A} (bad : E → Prop) (m : M (CCoinsViewCache V) E A) (m' : M UTXO E A) : Prop :=
  ∀ c u, refines c u →
    (∃ e, (m' u).2 = inr e ∧ bad e) ∨ ((m c).2 = (m' u).2 ∧ refines (m c).1 (m' u).1).

Lemma sim_ret {E A} (bad : E → Prop) (a : A) : sim bad (mret a) (mret a).
Proof. intros c u R. by right. Qed.

Lemma sim_fail {E A} (bad : E → Prop) (e : E) : sim (A := A) bad (fail e) (fail e).
Proof. intros c u R. by right. Qed.

Lemma sim_then {E A B} (bad : E → Prop) m m' (f f' : A → _) :
  sim bad m m' → (∀ a, sim (A := B) bad (f a) (f' a)) → sim bad (mthen m f) (mthen m' f').
Proof.
  intros Hm Hf c u R. unfold mthen. destruct (Hm c u R) as [(e & He & Hb)|[Hr R']].
  - left. destruct (m' u) as [u' r]. simpl in He. subst r. eauto.
  - destruct (m c) as [c1 r], (m' u) as [u1 r']. simpl in *. subst r'.
    destruct r as [a|e]; [by apply Hf|by right].
Qed.

Lemma sim_map_error {E F A} (bad : E → Prop) (bad' : F → Prop) f (m : M _ E A) m' :
  (∀ e, bad e → bad' (f e)) → sim bad m m' → sim bad' (map_error f m) (map_error f m').
Proof.
  intros Hf Hm c u R. unfold map_error. destruct (Hm c u R) as [(e & He & Hb)|[Hr R']].
  - left. destruct (m' u) as [u' r]. simpl in He. subst r. simpl. eauto.
  - right. destruct (m c) as [c1 r], (m' u) as [u1 r']. simpl in *. subst r'. by destruct r.
Qed.

Lemma sim_HaveCoin {E} (bad : E → Prop) o : sim bad (lift (HaveCoin o)) (lift (HaveCoin o)).
Proof.
  intros c u R. right. destruct (refines_HaveCoin c u o R) as [R' E']. unfold lift.
  destruct (HaveCoin o c), (HaveCoin o u) eqn:Hu. simplify_eq/=. done.
Qed.

Lemma sim_AccessCoin {E} (bad : E → Prop) o : sim bad (lift (AccessCoin o)) (lift (AccessCoin o)).
Proof.
  intros c u R. right. destruct (refines_AccessCoin c u o R) as [R' E']. unfold lift.
  destruct (AccessCoin o c), (AccessCoin o u) eqn:Hu. simplify_eq/=. done.
Qed.

(** Adding may differ only where the map refuses. *)
Lemma sim_AddCoin {E} (bad : E → Prop) e o coin ov :
  bad e → sim bad (attempt e (AddCoin o coin ov)) (attempt e (AddCoin o coin ov)).
Proof.
  intros He c u R. unfold attempt. destruct (AddCoin o coin ov u) as [u'|] eqn:Hu; [|by left; eauto].
  destruct (refines_AddCoin c u o coin ov u' R Hu) as (c' & -> & R'). by right.
Qed.

(** Spending, for continuations that do not tell an absent coin from an empty one, or for
    which its absence is bad. *)
Lemma sim_SpendCoin {E A} (bad : E → Prop) o (f f' : option Coin → M _ E A) :
  (∀ r, sim bad (f r) (f' r)) →
  (∀ u, (∃ e, (f' None u).2 = inr e ∧ bad e) ∨ f (Some coinEmpty) = f None) →
  sim bad (mthen (lift (SpendCoin o)) f) (mthen (lift (SpendCoin o)) f').
Proof.
  intros Hf Hn c u R. unfold mthen, lift. destruct (refines_SpendCoin c u o R) as [R' E'].
  destruct (SpendCoin o c) as [c1 r], (SpendCoin o u) as [u1 r'] eqn:Hu. cbn [fst snd] in *.
  destruct E' as [->|[-> ->]]; [by apply Hf|].
  destruct (Hn u1) as [Hb|E']; [by left|]. rewrite E'. by apply Hf.
Qed.
End sim.

Create HintDb sim discriminated.
#[export] Hint Resolve sim_ret sim_fail sim_HaveCoin sim_AccessCoin sim_AddCoin : sim.
#[export] Hint Constants Opaque : sim.

Ltac sim_auto :=
  repeat match goal with
    | |- ∀ _, _ => intros ?
    | |- sim _ (mthen _ _) (mthen _ _) => apply sim_then
    | |- sim _ (if ?b then _ else _) (if ?b then _ else _) => destruct b
    | |- sim _ (match ?o with _ => _ end) (match ?o with _ => _ end) => destruct o
    | |- sim _ (let _ := _ in _) _ => cbv zeta
    | |- sim _ _ _ => solve [auto with sim]
    end.

(** Aborting is what excuses the cache. *)
Abbreviation aborts := (λ f : Failure, f = Abort).

Section connect_sim.
Context {V : Type} `{!CCoinsView V, !CoinsViewOk V} {W : Z → Prop}.
Abbreviation refines := (refines_for W).
Context (SHA256d : list Z → Z).

Lemma sim_access_unspent {E} (bad : E → Prop) e o :
  sim (V := V) (W := W) bad (access_unspent e o) (access_unspent e o).
Proof. unfold access_unspent. sim_auto. Qed.
Hint Resolve sim_access_unspent : sim.

Lemma sim_access_all {E} (bad : E → Prop) e ins :
  sim (V := V) (W := W) bad (access_all e ins) (access_all e ins).
Proof. induction ins; cbn [access_all]; sim_auto. Qed.

Lemma sim_prev_heights {E} (bad : E → Prop) ins :
  sim (V := V) (W := W) bad (prev_heights ins) (prev_heights ins).
Proof. induction ins; cbn [prev_heights]; sim_auto. Qed.

Lemma sim_p2sh_loop bad ins : ∀ n, sim (V := V) (W := W) bad (p2sh_loop ins n) (p2sh_loop ins n).
Proof. induction ins; intros n; cbn [p2sh_loop]; sim_auto. Qed.

Lemma sim_witness_sigops bad ins flags : ∀ n,
  sim (V := V) (W := W) bad (witness_sigops_loop ins flags n) (witness_sigops_loop ins flags n).
Proof. induction ins; intros n; cbn [witness_sigops_loop]; sim_auto. Qed.
Hint Resolve sim_access_all sim_prev_heights sim_p2sh_loop sim_witness_sigops : sim.

Lemma sim_sigop_cost bad tx flags :
  sim (V := V) (W := W) bad (GetTransactionSigOpCost tx flags) (GetTransactionSigOpCost tx flags).
Proof. unfold GetTransactionSigOpCost, GetP2SHSigOpCount. sim_auto. Qed.

Lemma sim_have_inputs {E} (bad : E → Prop) ins :
  sim (V := V) (W := W) bad (have_inputs ins) (have_inputs ins).
Proof. induction ins; cbn [have_inputs]; sim_auto. Qed.

Lemma sim_sum_inputs bad ins h : ∀ n, sim (V := V) (W := W) bad (sum_inputs ins h n) (sum_inputs ins h n).
Proof. induction ins; intros n; cbn [sum_inputs]; sim_auto. Qed.
Hint Resolve sim_sigop_cost sim_have_inputs sim_sum_inputs : sim.

Lemma sim_CheckTxInputs bad tx h : sim (V := V) (W := W) bad (CheckTxInputs tx h) (CheckTxInputs tx h).
Proof. unfold CheckTxInputs, HaveInputs. sim_auto. Qed.
Hint Resolve sim_CheckTxInputs : sim.


Lemma sim_spend_inputs ins : sim (V := V) (W := W) aborts (spend_inputs ins) (spend_inputs ins).
Proof.
  induction ins; cbn [spend_inputs]; [sim_auto|]. apply sim_SpendCoin; [sim_auto|].
  intros u. left. by exists Abort.
Qed.

Lemma sim_add_outputs txid outs h cb check : ∀ i,
  sim (V := V) (W := W) aborts (add_outputs txid i outs h cb check) (add_outputs txid i outs h cb check).
Proof. induction outs; intros i; cbn [add_outputs]; sim_auto. Qed.
Hint Resolve sim_spend_inputs sim_add_outputs : sim.

Lemma sim_UpdateCoins tx h :
  sim (V := V) (W := W) aborts (UpdateCoins SHA256d tx h) (UpdateCoins SHA256d tx h).
Proof. unfold UpdateCoins, AddCoins. sim_auto. Qed.
Hint Resolve sim_UpdateCoins : sim.

Lemma sim_access_by_txid {E} (bad : E → Prop) fuel txid : ∀ n,
  sim (V := V) (W := W) bad (access_by_txid fuel txid n) (access_by_txid fuel txid n).
Proof. induction fuel; intros n; cbn [access_by_txid]; sim_auto. Qed.
Hint Resolve sim_access_by_txid : sim.

Lemma sim_ApplyTxInUndo undo o :
  sim (V := V) (W := W) aborts (ApplyTxInUndo undo o) (ApplyTxInUndo undo o).
Proof. unfold ApplyTxInUndo, AccessByTxid. sim_auto. Qed.
Hint Resolve sim_ApplyTxInUndo : sim.

(** An output that is not null is missed whether the coin is absent or empty. *)
Lemma sim_remove_outputs {E} (bad : E → Prop) txid outs h cb exc :
  Forall (λ o, CTxOut_IsNull o = false) outs → ∀ i clean,
  sim (V := V) (W := W) bad (remove_outputs txid i outs h cb exc clean) (remove_outputs txid i outs h cb exc clean).
Proof.
  induction 1 as [|o outs Ho Houts IH]; intros i clean; cbn [remove_outputs]; [sim_auto|].
  destruct (IsUnspendable _); [apply IH|]. apply sim_SpendCoin; [sim_auto|]. intros u. right.
  cbn [default out coinEmpty]. rewrite (bool_decide_eq_false_2 (o = CTxOut_null)); [by rewrite !orb_true_r|].
  intros ->. done.
Qed.

Lemma sim_restore_inputs ins : ∀ clean,
  sim (V := V) (W := W) aborts (restore_inputs ins clean) (restore_inputs ins clean).
Proof. induction ins; intros clean; cbn [restore_inputs]; sim_auto. Qed.
Hint Resolve sim_restore_inputs : sim.

Lemma sim_disconnect_txs txs h enforce :
  Forall (λ t, Forall (λ o, CTxOut_IsNull o = false) (vout t.1)) txs → ∀ clean,
  sim (V := V) (W := W) aborts (disconnect_txs SHA256d txs h enforce clean) (disconnect_txs SHA256d txs h enforce clean).
Proof.
  induction 1 as [|[tx txundo] txs Ht Htxs IH]; intros clean; cbn [disconnect_txs]; [sim_auto|].
  apply sim_then; [by apply sim_remove_outputs|]. sim_auto. 
Qed.
Context (params : Params) (bparams : BodyParams) (cparams : ConnectParams) (opts : Options).
Context (CheckSignetBlockSolution : CBlockHeader → list CTransaction → bool).
Context (CScriptCheck : CTransaction → nat → list CTxOut → Z → option string).
Context (pqc_active : option Z → bool) (parallel_script_checks : bool).
Context (UndoWriteToDisk : Z → CBlockUndo → bool).

Lemma sim_CheckInputScripts bad tx flags :
  sim (V := V) (W := W) bad (CheckInputScripts CScriptCheck tx flags) (CheckInputScripts CScriptCheck tx flags).
Proof. unfold CheckInputScripts. sim_auto. Qed.

Lemma sim_check_spending st pindex b flags lflags tx fees :
  sim (V := V) (W := W) aborts (check_spending st pindex b flags lflags tx fees)
    (check_spending st pindex b flags lflags tx fees).
Proof.
  unfold check_spending. sim_auto. apply (sim_map_error (λ _, False)); [done|apply sim_CheckTxInputs].
Qed.
Hint Resolve sim_CheckInputScripts sim_check_spending : sim.

Lemma sim_connect_txs st pindex b flags lflags fscripts vtx : ∀ first t,
  sim (V := V) (W := W) aborts
    (connect_txs SHA256d CScriptCheck parallel_script_checks st pindex b flags lflags fscripts first vtx t)
    (connect_txs SHA256d CScriptCheck parallel_script_checks st pindex b flags lflags fscripts first vtx t).
Proof.
  induction vtx as [|tx vtx IH]; intros first t; cbn [connect_txs]; [sim_auto|].
  apply sim_then; [|sim_auto]. unfold connect_tx. sim_auto.
Qed.

Lemma sim_overwrites_output {E} (bad : E → Prop) txid n : ∀ i,
  sim (V := V) (W := W) bad (overwrites_output txid n i) (overwrites_output txid n i).
Proof. induction n; intros i; cbn [overwrites_output]; sim_auto. Qed.
Hint Resolve sim_connect_txs sim_overwrites_output : sim.

Lemma sim_overwrites_any {E} (bad : E → Prop) vtx :
  sim (V := V) (W := W) bad (overwrites_any SHA256d vtx) (overwrites_any SHA256d vtx).
Proof. induction vtx; cbn [overwrites_any]; sim_auto. Qed.
Hint Resolve sim_overwrites_any : sim.

Abbreviation contents := (connect_contents SHA256d params bparams cparams opts CScriptCheck pqc_active
  parallel_script_checks).
Abbreviation connect := (ConnectBlock SHA256d params bparams cparams opts CheckSignetBlockSolution
  CScriptCheck pqc_active parallel_script_checks UndoWriteToDisk).

Lemma sim_connect_contents st best_header pindex b vtx :
  sim (V := V) (W := W) aborts (contents st best_header pindex b vtx) (contents st best_header pindex b vtx).
Proof. unfold connect_contents. sim_auto. Qed.

(** [ConnectBlock] on a cache: the same changes of the index and the undo files, the same
    verdict, and a cache that shows the new map. *)
Lemma ConnectBlock_sim disk best_header pindex block just (c : CCoinsViewCache V) u :
  pindex ≠ 0 → refines c u →
  (connect disk best_header pindex block just u).2 = Some Abort ∨
  (connect disk best_header pindex block just c).1.1 = (connect disk best_header pindex block just u).1.1 ∧
  (connect disk best_header pindex block just c).2 = (connect disk best_header pindex block just u).2 ∧
  refines (connect disk best_header pindex block just c).1.2 (connect disk best_header pindex block just u).1.2.
Proof.
  intros Hp R. unfold ConnectBlock. destruct (disk.1 !! pindex) as [b|]; [|by left].
  destruct (negb _); [by left|].
  destruct (CheckBlock _ _ _ _ _ _ _).2 as [[[] ?| |]|]; try (by right).
  destruct (refines_GetBestBlock c u R) as (R1 & Eb & _).
  destruct (GetBestBlock c) as [c1 best]. cbn [fst snd] in *. subst best.
  change (GetBestBlock u) with (u, utxo_best u). cbv beta iota.
  destruct (negb _); [by left|].
  destruct (pindex =? hashGenesisBlock cparams).
  { right. destruct just; split_and!; try done. by apply refines_SetBestBlock. }
  destruct (sim_connect_contents (disk.1) best_header pindex b (blk_vtx block) c1 u R1)
    as [(e & He & ->)|[Er R2]].
  { left. destruct (contents disk.1 best_header pindex b (blk_vtx block) u) as [u2 r]. simpl in He. by subst r. }
  right. destruct (contents disk.1 best_header pindex b (blk_vtx block) c1) as [c2 r].
  destruct (contents disk.1 best_header pindex b (blk_vtx block) u) as [u2 r']. simpl in *. subst r'.
  destruct r as [blockundo|f]; [|done]. destruct just; [done|].
  destruct (WriteUndoDataForBlock _ _ _ _) as [[st undo]|]; [|done].
  split_and!; try done. by apply refines_SetBestBlock.
Qed.

Lemma sim_DisconnectBlock disk pindex vtx :
  (∀ b, disk.1 !! pindex = Some b → pprev b ≠ Some 0) →
  Forall (λ tx, Forall (λ o, CTxOut_IsNull o = false) (vout tx)) vtx →
  sim (V := V) (W := W) aborts (DisconnectBlock SHA256d disk pindex vtx) (DisconnectBlock SHA256d disk pindex vtx).
Proof.
  intros Hp Hout. unfold DisconnectBlock. destruct (UndoReadFromDisk _ _) as [undo|]; [|sim_auto].
  destruct (disk.1 !! pindex) as [b|] eqn:Hb; [|sim_auto]. destruct (negb _); [sim_auto|].
  apply sim_then.
  - apply sim_disconnect_txs. apply Forall_reverse. unfold with_undo. destruct vtx as [|cb vtx]; [constructor|].
    apply Forall_cons in Hout as [H1 H2]. constructor; [done|]. apply Forall_forall.
    intros [tx t] Hin%elem_of_zip_l. by rewrite Forall_forall in H2; apply H2.
  - intros [clean|]; [|sim_auto]. destruct (pprev b) as [p|] eqn:Hpp; [|sim_auto].
    intros c1 u1 R1. right. split; [done|]. apply refines_SetBestBlock; [done|].
    intros ->. by apply (Hp b).
Qed.

Lemma DisconnectBlock_sim disk pindex vtx (c : CCoinsViewCache V) u :
  (∀ b, disk.1 !! pindex = Some b → pprev b ≠ Some 0) →
  Forall (λ tx, Forall (λ o, CTxOut_IsNull o = false) (vout tx)) vtx → refines c u →
  (DisconnectBlock SHA256d disk pindex vtx u).2 = inr Abort ∨
  (DisconnectBlock SHA256d disk pindex vtx c).2 = (DisconnectBlock SHA256d disk pindex vtx u).2 ∧
  refines (DisconnectBlock SHA256d disk pindex vtx c).1 (DisconnectBlock SHA256d disk pindex vtx u).1.
Proof.
  intros Hp Hout R. destruct (sim_DisconnectBlock disk pindex vtx Hp Hout c u R) as [(e & ? & ->)|?]; auto.
Qed.
End connect_sim.
