(* ===== verification/ConnectProps.v ===== *)
(** * What connecting a block does to the unspent outputs

    On the reference map of Coins.v: a transaction takes away the coins of its inputs and
    adds its spendable outputs, and a block does so transaction by transaction.  From this
    follow that [DisconnectBlock] restores exactly the map from before, and that a block
    increases the total of the unspent outputs by at most its subsidy. *)

From Stdlib Require Import String.
From stdpp Require Import gmap.
From S2P Require Import Prelude PqcWitness Arith256 Serialize BlockHeader Formats BlockIndex Pow Subsidy.
From S2P Require Import Transaction Script Merkle Chainman Accept BlockCheck BlockCheckProps Coins CoinsDB Connect ConnectSim.

Local Open Scope Z_scope.

(** ** The coins of a transaction *)

(** The spendable outputs from index [i] on. *)
Fixpoint new_coins (txid : Z) (i : nat) (outs : list CTxOut) (nHeight : Z) (cb : bool)
    : gmap COutPoint Coin :=
  match outs with
  | [] => ∅
  | out :: outs' =>
      if IsUnspendable (scriptPubKey out) then new_coins txid (S i) outs' nHeight cb
      else <[mkOutPoint txid (u32 (Z.of_nat i)) := NewCoin out nHeight cb]>
             (new_coins txid (S i) outs' nHeight cb)
  end.

(** The coins that inputs spend. *)
Definition spent_coins (ins : list CTxIn) (cs : list Coin) : gmap COutPoint Coin :=
  list_to_map (zip (prevout <$> ins) cs).

Definition inputs_of (tx : CTransaction) : list CTxIn := if IsCoinBase tx then [] else vin tx.

Definition sum_coins (cs : list Coin) : Z := foldr (λ c sum, nValue (out c) + sum) 0 cs.

Definition mature (nHeight : Z) (coin : Coin) : Prop :=
  fCoinBase coin = true → coin_nHeight coin + COINBASE_MATURITY <= nHeight.

(** A transaction that is not the coinbase spends mature coins and pays at least its outputs. *)
Record tx_rules (nHeight : Z) (tx : CTransaction) (cs : list Coin) (fee : Z) : Prop := {
  tr_value : IsCoinBase tx = false → ∃ out, GetValueOut tx = Some out ∧ sum_coins cs = out + fee ∧ 0 <= fee;
  tr_mature : Forall (mature nHeight) cs;
  tr_positive : Forall (λ c, 0 <= nValue (out c)) cs;
  tr_coinbase : IsCoinBase tx = true → fee = 0
}.

Section effect.
Context (SHA256d : list Z → Z).

(** None of the spendable outputs is there. *)
Definition fresh (u : gmap COutPoint Coin) (tx : CTransaction) : Prop :=
  ∀ n x, vout tx !! n = Some x → IsUnspendable (scriptPubKey x) = false →
    u !! mkOutPoint (GetTxid SHA256d tx) (Z.of_nat n) = None.

(** The effect of a transaction on the map: what it spends is there, once, and goes; its
    outputs come, and overwrite nothing unless it is a coinbase. *)
Record tx_effect (nHeight : Z) (tx : CTransaction) (u u' : gmap COutPoint Coin) (cs : list Coin)
    : Prop := {
  te_found : Forall2 (λ i coin, u !! prevout i = Some coin) (inputs_of tx) cs;
  te_once : NoDup (prevout <$> inputs_of tx);
  te_fresh : IsCoinBase tx = false → fresh (u ∖ spent_coins (inputs_of tx) cs) tx;
  te_after : u' = new_coins (GetTxid SHA256d tx) 0 (vout tx) nHeight (IsCoinBase tx) ∪
                  (u ∖ spent_coins (inputs_of tx) cs)
}.

(** With the undo data of each transaction and the sum of the fees. *)
Inductive effects (nHeight : Z) : list CTransaction → gmap COutPoint Coin → gmap COutPoint Coin →
    list (list Coin) → Z → Prop :=
  | effects_nil u : effects nHeight [] u u [] 0
  | effects_cons tx vtx u u1 u' cs css fee fees :
      tx_effect nHeight tx u u1 cs → tx_rules nHeight tx cs fee → effects nHeight vtx u1 u' css fees →
      effects nHeight (tx :: vtx) u u' (cs :: css) (fee + fees).
End effect.

(** ** Queries change nothing *)

Definition quiet {E A} (m : M UTXO E A) : Prop := ∀ u, (m u).1 = u.

Lemma quiet_then {E A B} (m : M UTXO E A) (f : A → M UTXO E B) :
  quiet m → (∀ a, quiet (f a)) → quiet (mthen m f).
Proof.
  intros Hm Hf u. unfold mthen. specialize (Hm u). destruct (m u) as [u' [a|e]]; simpl in *; subst; [apply Hf|done].
Qed.

Ltac quiet_auto :=
  repeat match goal with
    | |- ∀ _, quiet _ => intros ?
    | |- quiet (mthen _ _) => apply quiet_then
    | |- quiet (if ?b then _ else _) => destruct b
    | |- quiet (match ?o with _ => _ end) => destruct o
    | |- quiet (mret _) => intros ?; reflexivity
    | |- quiet (fail _) => intros ?; reflexivity
    | |- quiet (lift _) => intros ?; reflexivity
    | |- quiet _ => solve [auto]
    end.

Lemma quiet_access_all {E} (e : E) ins : quiet (access_all e ins).
Proof. induction ins; cbn [access_all]; unfold access_unspent; quiet_auto. Qed.

Lemma quiet_prev_heights {E} ins : quiet (E := E) (prev_heights ins).
Proof. induction ins; cbn [prev_heights]; quiet_auto. Qed.

Lemma quiet_sigop_cost tx flags : quiet (GetTransactionSigOpCost tx flags).
Proof.
  assert (H1 : ∀ ins n, quiet (p2sh_loop ins n))
    by (induction ins; intros n; cbn [p2sh_loop]; unfold access_unspent; quiet_auto).
  assert (H2 : ∀ ins n, quiet (witness_sigops_loop ins flags n))
    by (induction ins; intros n; cbn [witness_sigops_loop]; unfold access_unspent; quiet_auto).
  unfold GetTransactionSigOpCost, GetP2SHSigOpCount. quiet_auto.
Qed.

Lemma quiet_CheckTxInputs tx h : quiet (CheckTxInputs tx h).
Proof.
  assert (H1 : ∀ ins, quiet (E := TxFailure) (have_inputs ins))
    by (induction ins; cbn [have_inputs]; quiet_auto).
  assert (H2 : ∀ ins n, quiet (sum_inputs ins h n))
    by (induction ins; intros n; cbn [sum_inputs]; unfold access_unspent; quiet_auto).
  unfold CheckTxInputs, HaveInputs. quiet_auto.
Qed.

Lemma quiet_map_error {E F A} (f : E → F) (m : M UTXO E A) : quiet m → quiet (map_error f m).
Proof. intros Hm u. specialize (Hm u). unfold map_error. destruct (m u) as [u' []]; simpl in *; congruence. Qed.

(** Running a quiet computation that succeeds. *)
Lemma then_inv {S E A B} (m : M S E A) (f : A → M S E B) s s' b :
  mthen m f s = (s', inl b) → ∃ s1 a, m s = (s1, inl a) ∧ f a s1 = (s', inl b).
Proof. unfold mthen. destruct (m s) as [s1 [a|e]]; [eauto|done]. Qed.

Lemma then_quiet_inv {E A B} (m : M UTXO E A) (f : A → M UTXO E B) u u' b :
  quiet m → mthen m f u = (u', inl b) → ∃ a, m u = (u, inl a) ∧ f a u = (u', inl b).
Proof.
  intros Hq (u1 & a & E1 & E2)%then_inv. specialize (Hq u). rewrite E1 in Hq. simpl in Hq. subst. eauto.
Qed.

(** ** Spending and adding on the map *)

Lemma spent_coins_lookup ins cs o coin (u : gmap COutPoint Coin) :
  NoDup (prevout <$> ins) → Forall2 (λ i c, u !! prevout i = Some c) ins cs →
  spent_coins ins cs !! o = Some coin ↔ ∃ i, i ∈ ins ∧ prevout i = o ∧ u !! o = Some coin.
Proof.
  intros Hnd Hf. assert (Hlen : length (prevout <$> ins) = length cs)
    by (rewrite length_fmap; by eapply Forall2_length).
  unfold spent_coins. rewrite <- elem_of_list_to_map by (by rewrite fst_zip by lia). split.
  - intros Hin. revert Hin. clear Hnd Hlen. induction Hf as [|i c ins cs Hic Hf IH]; cbn [fmap list_fmap zip zip_with].
    + by intros ?%elem_of_nil.
    + intros [[= -> ->]|Hin]%elem_of_cons; [exists i; split; [by left|done]|].
      destruct (IH Hin) as (j & ? & ? & ?). exists j. split; [by right|done].
  - intros (i & Hi & <- & Hu). clear Hnd Hlen. induction Hf as [|j c ins cs Hjc Hf IH]; [by apply elem_of_nil in Hi|].
    cbn [fmap list_fmap zip zip_with]. apply elem_of_cons in Hi as [->|Hi].
    + replace coin with c by congruence. by left.
    + right. by apply IH.
Qed.

Lemma spent_coins_subset ins cs (u : gmap COutPoint Coin) :
  NoDup (prevout <$> ins) → Forall2 (λ i c, u !! prevout i = Some c) ins cs → spent_coins ins cs ⊆ u.
Proof.
  intros Hnd Hf. apply map_subseteq_spec. intros o coin.
  rewrite (spent_coins_lookup ins cs o coin u Hnd Hf). by intros (i & _ & _ & ?).
Qed.

Lemma spend_inputs_spec ins : ∀ u u' cs,
  spend_inputs ins u = (u', inl cs) →
  Forall2 (λ i c, utxo u !! prevout i = Some c) ins cs ∧ NoDup (prevout <$> ins) ∧
  utxo u' = utxo u ∖ spent_coins ins cs ∧ utxo_best u' = utxo_best u.
Proof.
  induction ins as [|i ins IH]; intros u u' cs; cbn [spend_inputs].
  - intros [= <- <-]. split; [constructor|]. split; [constructor|]. split; [|done].
    unfold spent_coins. simpl. by rewrite map_difference_empty.
  - intros (u1 & r & E1 & E2)%then_inv. unfold lift in E1. cbn [SpendCoin UTXO_ops] in E1.
    injection E1 as <- <-. destruct (utxo u !! prevout i) as [c|] eqn:Hc; [|done].
    apply then_inv in E2 as (u2 & cs' & E2 & [= <- <-]).
    destruct (IH _ _ _ E2) as (Hf & Hnd & Hu & Hb). cbn [utxo utxo_best] in *.
    assert (Hni : prevout i ∉ prevout <$> ins).
    { intros (j & Ej & Hj)%list_elem_of_fmap. apply list_elem_of_lookup in Hj as [k Hk].
      destruct (Forall2_lookup_l _ _ _ _ _ Hf Hk) as (c' & _ & Hc'). rewrite <- Ej in Hc'.
      by rewrite lookup_delete_eq in Hc'. }
    split; [constructor; [done|]|split; [by constructor|split; [|done]]].
    + eapply Forall2_impl; [exact Hf|]. intros j c' [_ ?]%lookup_delete_Some. done.
    + rewrite Hu. unfold spent_coins. cbn [fmap list_fmap zip zip_with].
      rewrite list_to_map_cons. apply map_eq. intros o. rewrite !lookup_difference.
      destruct (decide (prevout i = o)) as [<-|Hne].
      * rewrite lookup_insert_eq, lookup_delete_eq. by destruct (list_to_map _ !! _).
      * by rewrite lookup_insert_ne, lookup_delete_ne.
Qed.

(** The outputs a transaction can have: their index fits the out point. *)
Definition indices_fit (i : nat) (outs : list CTxOut) : Prop := Z.of_nat (i + length outs) <= 2 ^ 32.

Lemma new_coins_lookup txid h cb outs : ∀ i o coin, indices_fit i outs →
  new_coins txid i outs h cb !! o = Some coin ↔
  ∃ k out, outs !! k = Some out ∧ o = mkOutPoint txid (Z.of_nat (i + k)) ∧
    IsUnspendable (scriptPubKey out) = false ∧ coin = NewCoin out h cb.
Proof.
  induction outs as [|out outs IH]; intros i o coin Hfit; cbn [new_coins].
  { rewrite lookup_empty. split; [done|by intros (k & x & ? & _)]. }
  unfold indices_fit in *. cbn [length] in Hfit.
  assert (Hi : u32 (Z.of_nat i) = Z.of_nat i) by (unfold wrap; apply Z.mod_small; lia).
  assert (Hstep : (∃ k x, outs !! k = Some x ∧ o = mkOutPoint txid (Z.of_nat (S i + k)) ∧
      IsUnspendable (scriptPubKey x) = false ∧ coin = NewCoin x h cb) ↔
    ∃ k x, (out :: outs) !! S k = Some x ∧ o = mkOutPoint txid (Z.of_nat (i + S k)) ∧
      IsUnspendable (scriptPubKey x) = false ∧ coin = NewCoin x h cb).
  { split; intros (k & x & H); exists k, x; replace (i + S k)%nat with (S i + k)%nat in * by lia; done. }
  destruct (IsUnspendable (scriptPubKey out)) eqn:Hun.
  - rewrite IH by lia. rewrite Hstep. split; [intros (k & x & ?); by exists (S k), x|].
    intros (k & x & Hk & Ho & Hx & ?). destruct k as [|k]; [simplify_eq/=; congruence|]. by exists k, x.
  - rewrite Hi, lookup_insert_Some, IH by lia. rewrite Hstep. split.
    + intros [[<- <-]|[_ (k & x & ?)]]; [exists 0%nat, out|by exists (S k), x].
      by rewrite Nat.add_0_r.
    + intros (k & x & Hk & Ho & Hx & ->). destruct k as [|k].
      * left. simplify_eq/=. by rewrite Nat.add_0_r.
      * right. split; [rewrite Ho; intros [=]; lia|]. by exists k, x.
Qed.

Lemma add_outputs_spec txid h cb outs : ∀ i u u',
  add_outputs txid i outs h cb false u = (u', inl tt) → indices_fit i outs →
  utxo u' = new_coins txid i outs h cb ∪ utxo u ∧ utxo_best u' = utxo_best u ∧
  Forall (λ o, CTxOut_IsNull o = false) outs ∧
  (cb = false → ∀ k x, outs !! k = Some x → IsUnspendable (scriptPubKey x) = false →
     utxo u !! mkOutPoint txid (Z.of_nat (i + k)) = None).
Proof.
  induction outs as [|out outs IH]; intros i u u'; cbn [add_outputs new_coins].
  { intros [= <-] _. by rewrite (left_id_L ∅ (∪)). }
  intros (u1 & ov & [= <- <-] & E)%then_inv Hfit.
  apply then_inv in E as (u2 & [] & E1 & E2). unfold attempt in E1.
  destruct (AddCoin _ _ _ _) as [u3|] eqn:Ha; [|done]. injection E1 as ->.
  assert (Hfit' : indices_fit (S i) outs) by (unfold indices_fit in *; cbn [length] in Hfit; lia).
  destruct (IH _ _ _ E2 Hfit') as (Hu & Hb & Hn & Hfr). cbn [AddCoin UTXO_ops] in Ha.
  destruct (IsSpent _) eqn:Hs; [done|]. cbn [Coins.out NewCoin] in *.
  assert (Hnull : CTxOut_IsNull out = false) by exact Hs.
  assert (Hi : u32 (Z.of_nat i) = Z.of_nat i)
    by (unfold wrap, indices_fit in *; cbn [length] in Hfit; apply Z.mod_small; lia).
  destruct (IsUnspendable (scriptPubKey out)) eqn:Hun.
  - injection Ha as <-. split_and!; [done|done|by constructor|]. intros Hcb [|k] x Hk Hx; [simplify_eq/=; congruence|].
    replace (i + S k)%nat with (S i + k)%nat by lia. by eapply Hfr.
  - destruct (_ && _) eqn:Hov; [done|]. injection Ha as <-. cbn [utxo utxo_best] in *. split_and!; [|done|by constructor|].
    2:{ intros -> [|k] x Hk Hx.
        - cbn [negb andb] in Hov. rewrite Nat.add_0_r, <- Hi. apply bool_decide_eq_false in Hov. by apply eq_None_not_Some.
        - replace (i + S k)%nat with (S i + k)%nat by lia. by apply (Hfr eq_refl k x Hk), lookup_insert_None in Hx as [? _]. }
    rewrite Hu, <- insert_union_l. apply map_eq. intros o.
    destruct (decide (mkOutPoint txid (u32 (Z.of_nat i)) = o)) as [<-|Hne].
    + rewrite lookup_insert_eq, lookup_union, lookup_insert_eq.
      destruct (new_coins txid (S i) outs h cb !! _) as [c|] eqn:Hc; [|done]. exfalso.
      apply new_coins_lookup in Hc as (k & x & Hk & [= Ho] & _); [|done].
      apply lookup_lt_Some in Hk. unfold indices_fit in Hfit'.
      unfold wrap in Ho. rewrite Z.mod_small in Ho by lia. lia.
    + by rewrite lookup_insert_ne, !lookup_union, lookup_insert_ne.
Qed.

(** What [UpdateCoins] leaves. *)
Lemma UpdateCoins_effect SHA256d tx h u u' cs :
  UpdateCoins SHA256d tx h u = (u', inl cs) → indices_fit 0 (vout tx) →
  tx_effect SHA256d h tx (utxo u) (utxo u') cs ∧ utxo_best u' = utxo_best u ∧
  Forall (λ o, CTxOut_IsNull o = false) (vout tx).
Proof.
  intros (u1 & cs' & E1 & E2)%then_inv Hfit. apply then_inv in E2 as (u2 & [] & E2 & [= <- <-]).
  destruct (add_outputs_spec _ _ _ _ _ _ _ E2 Hfit) as (H1 & H2 & H3 & H4).
  assert (Hsp : Forall2 (λ i c, utxo u !! prevout i = Some c) (inputs_of tx) cs' ∧
    NoDup (prevout <$> inputs_of tx) ∧ utxo u1 = utxo u ∖ spent_coins (inputs_of tx) cs' ∧
    utxo_best u1 = utxo_best u).
  { unfold inputs_of. destruct (IsCoinBase tx); [|by apply spend_inputs_spec].
    injection E1 as <- <-. split_and!; [constructor|constructor| |done].
    unfold spent_coins. simpl. by rewrite map_difference_empty. }
  destruct Hsp as (S1 & S2 & S3 & S4). split_and!; [|congruence|done].
  split; [done|done| |by rewrite H1, S3]. intros Hcb n x Hn Hx. rewrite <- S3. by apply (H4 Hcb n x).
Qed.

(** ** The rules a connected transaction keeps *)

Lemma access_unspent_inv {E} (e : E) o u u' coin :
  access_unspent e o u = (u', inl coin) → u' = u ∧ utxo u !! o = Some coin.
Proof.
  intros (u1 & c & [= <- <-] & E')%then_inv. destruct (IsSpent _) eqn:Hs; [done|].
  injection E' as <- <-. split; [done|]. destruct (utxo u !! o); [done|]. by vm_compute in Hs.
Qed.

Lemma sum_inputs_spec ins h : ∀ n u u' r,
  sum_inputs ins h n u = (u', inl r) → 0 <= n <= MAX_MONEY →
  ∃ cs, Forall2 (λ i c, utxo u !! prevout i = Some c) ins cs ∧ r = n + sum_coins cs ∧
    Forall (λ c, 0 <= nValue (out c)) cs ∧ Forall (mature h) cs ∧ 0 <= r <= MAX_MONEY.
Proof.
  induction ins as [|i ins IH]; intros n u u' r; cbn [sum_inputs].
  { intros [= <- <-] Hn. exists []. split_and!; try done; simpl; lia. }
  intros (u1 & c & [-> Hc]%access_unspent_inv & E)%then_inv Hn.
  destruct (fCoinBase c && _) eqn:Hm; [done|]. cbv zeta in E. destruct (_ || _) eqn:Hr; [done|].
  apply orb_false_iff in Hr as [Hr1%negb_false_iff Hr2%negb_false_iff].
  unfold MoneyRange in Hr1, Hr2. apply andb_true_iff in Hr1 as [H1 H2], Hr2 as [H3 H4].
  assert (Hs : s64 (n + nValue (out c)) = n + nValue (out c))
    by (apply swrap_small; [lia|]; unfold MAX_MONEY, COIN in *; lia).
  rewrite Hs in *. destruct (IH _ _ _ _ E ltac:(lia)) as (cs & Hf & -> & Hv & Hmt & Hb).
  exists (c :: cs). split_and!; [by constructor|simpl; lia|constructor; [lia|done]|constructor; [|done]|lia|lia].
  intros Hcb. rewrite Hcb in Hm. cbn [andb] in Hm. lia.
Qed.

(** The fee is what the inputs hold beyond the outputs. *)
Lemma CheckTxInputs_spec tx h u u' fee :
  CheckTxInputs tx h u = (u', inl fee) →
  ∃ cs out, Forall2 (λ i c, utxo u !! prevout i = Some c) (vin tx) cs ∧
    GetValueOut tx = Some out ∧ fee = sum_coins cs - out ∧ 0 <= fee <= MAX_MONEY ∧
    Forall (λ c, 0 <= nValue (Coins.out c)) cs ∧ Forall (mature h) cs.
Proof.
  assert (Hq : quiet (E := TxFailure) (HaveInputs tx)).
  { assert (∀ ins, quiet (E := TxFailure) (have_inputs ins)) by (induction ins; cbn [have_inputs]; quiet_auto).
    unfold HaveInputs. quiet_auto. }
  intros (have & _ & E)%then_quiet_inv; [|done]. destruct have; [|done]. cbn [negb] in E.
  apply then_inv in E as (u2 & r & E1 & E2).
  destruct (sum_inputs_spec _ _ _ _ _ _ E1) as (cs & Hf & -> & Hv & Hm & _);
    [unfold MAX_MONEY, COIN; lia|].
  destruct (GetValueOut tx) as [out|]; [|done]. destruct (_ <? _); [done|].
  destruct (negb _) eqn:Hr; [done|]. injection E2 as <- <-.
  apply negb_false_iff in Hr. unfold MoneyRange in Hr. apply andb_true_iff in Hr as [H1 H2].
  exists cs, out. split_and!; try done; lia.
Qed.

(** The coins found under given out points are determined. *)
Lemma found_unique (u : gmap COutPoint Coin) ins cs cs' :
  Forall2 (λ i c, u !! prevout i = Some c) ins cs → Forall2 (λ i c, u !! prevout i = Some c) ins cs' → cs = cs'.
Proof.
  intros H. revert cs'. induction H as [|i c ins cs Hc _ IH]; intros cs' H'; [by inversion H'|].
  inversion H' as [|? c' ? cs2 Hc' H2]; subst. f_equal; [congruence|auto].
Qed.

Section rules.
Context (SHA256d : list Z → Z) (params : Params) (bparams : BodyParams) (cparams : ConnectParams)
  (opts : Options).
Context (CheckSignetBlockSolution : CBlockHeader → list CTransaction → bool).
Context (CScriptCheck : CTransaction → nat → list CTxOut → Z → option string).
Context (pqc_active : option Z → bool) (parallel_script_checks : bool).
Context (UndoWriteToDisk : Z → CBlockUndo → bool).

Abbreviation txs := (connect_txs (V := UTXO) SHA256d CScriptCheck parallel_script_checks).

Lemma check_spending_spec st pindex b flags lflags tx fees u u' fees' :
  check_spending st pindex b flags lflags tx fees u = (u', inl fees') → 0 <= fees <= MAX_MONEY →
  u' = u ∧ 0 <= fees' <= MAX_MONEY ∧
  ∃ cs out, Forall2 (λ i c, utxo u !! prevout i = Some c) (vin tx) cs ∧
    GetValueOut tx = Some out ∧ sum_coins cs = out + (fees' - fees) ∧ fees <= fees' ∧
    Forall (mature (nHeight b)) cs ∧ Forall (λ c, 0 <= nValue (Coins.out c)) cs.
Proof.
  unfold check_spending. intros E Hf. destruct (if has_flag _ _ then _ else _); [done|].
  apply then_quiet_inv in E as (fee & E1 & E2); [|apply quiet_map_error, quiet_CheckTxInputs].
  unfold map_error in E1. destruct (CheckTxInputs tx (nHeight b) u) as [u1 [fee'|]] eqn:Ec; [|done].
  injection E1 as -> ->. destruct (CheckTxInputs_spec _ _ _ _ _ Ec) as (cs & o & H1 & H2 & H3 & H4 & H5 & H6).
  cbv zeta in E2. destruct (negb (MoneyRange _)) eqn:Hr; [done|]. apply negb_false_iff in Hr.
  assert (Hs : s64 (fees + fee) = fees + fee)
    by (apply swrap_small; [lia|]; unfold MAX_MONEY, COIN in *; lia).
  rewrite Hs in *. unfold MoneyRange in Hr. apply andb_true_iff in Hr as [Hr1 Hr2].
  apply then_quiet_inv in E2 as (hs & _ & E3); [|apply quiet_prev_heights].
  destruct (SequenceLocks _ _ _ _ _) as [[]|]; [|done|done]. injection E3 as <- <-.
  split; [done|]. split; [lia|]. exists cs, o. split_and!; try done; lia.
Qed.

(** One transaction: its effect, its rules, and the totals. *)
Lemma connect_tx_spec st pindex b flags lflags fscripts first tx t u u' t' :
  connect_tx SHA256d CScriptCheck parallel_script_checks st pindex b flags lflags fscripts first tx t u =
    (u', inl t') →
  0 <= nFees t <= MAX_MONEY → indices_fit 0 (vout tx) →
  ∃ cs fee, tx_effect SHA256d (nHeight b) tx (utxo u) (utxo u') cs ∧ tx_rules (nHeight b) tx cs fee ∧
    nFees t' = nFees t + fee ∧ 0 <= nFees t' <= MAX_MONEY ∧ utxo_best u' = utxo_best u ∧
    vtxundo t' = (if first then vtxundo t else vtxundo t ++ [cs]) ∧
    Forall (λ o, CTxOut_IsNull o = false) (vout tx).
Proof.
  unfold connect_tx. intros E Ht Hfit. apply then_inv in E as (u1 & fees & E1 & E2).
  apply then_quiet_inv in E2 as (cost & _ & E2); [|apply quiet_sigop_cost].
  cbv zeta in E2. destruct (MAX_BLOCK_SIGOPS_COST <? _); [done|].
  apply then_quiet_inv in E2 as (failed & _ & E2);
    [|unfold CheckInputScripts; destruct (_ && _); [|by intros ?]; destruct (IsCoinBase tx); [by intros ?|];
      apply quiet_then; [apply quiet_access_all|by intros ? ?]].
  assert (Hupd : ∃ cs, UpdateCoins SHA256d tx (nHeight b) u1 = (u', inl cs) ∧ nFees t' = fees ∧
    vtxundo t' = (if first then vtxundo t else vtxundo t ++ [cs])).
  { destruct failed, parallel_script_checks; try done;
      apply then_inv in E2 as (u2 & cs & E2 & [= <- <-]); eauto. }
  destruct Hupd as (cs & Eu & Ef & Ev).
  destruct (UpdateCoins_effect _ _ _ _ _ _ Eu Hfit) as (He & Hb & Hn).
  destruct (IsCoinBase tx) eqn:Hcb.
  - injection E1 as <- <-. exists cs, 0. split_and!; try done; try lia.
    assert (cs = []) as ->
      by (destruct He as [Hfound _ _ _]; unfold inputs_of in Hfound; rewrite Hcb in Hfound; by inversion Hfound).
    split; [congruence|constructor|constructor|done].
  - destruct (check_spending_spec _ _ _ _ _ _ _ _ _ _ E1 Ht) as (-> & Hr & cs' & o & H1 & H2 & H3 & H4 & H5 & H6).
    assert (cs' = cs) as ->.
    { apply (found_unique (utxo u) (vin tx)); [done|]. destruct He as [Hfound _ _ _].
      unfold inputs_of in Hfound. by rewrite Hcb in Hfound. }
    exists cs, (fees - nFees t). split_and!; try done; try lia. split; [|done|done|congruence].
    intros _. exists o. split_and!; try done; lia.
Qed.
Lemma connect_txs_spec st pindex b flags lflags fscripts vtx : ∀ first t u u' t',
  txs st pindex b flags lflags fscripts first vtx t u = (u', inl t') →
  0 <= nFees t <= MAX_MONEY → Forall (λ tx, indices_fit 0 (vout tx)) vtx →
  ∃ css fees, effects SHA256d (nHeight b) vtx (utxo u) (utxo u') css fees ∧
    nFees t' = nFees t + fees ∧ utxo_best u' = utxo_best u ∧
    vtxundo t' = vtxundo t ++ (if first then tail css else css) ∧
    Forall (λ tx, Forall (λ o, CTxOut_IsNull o = false) (vout tx)) vtx.
Proof.
  induction vtx as [|tx vtx IH]; intros first t u u' t'; cbn [connect_txs].
  { intros [= <- <-] _ _. exists [], 0. split_and!; [constructor|lia|done| |constructor].
    destruct first; by rewrite app_nil_r. }
  intros (u1 & t1 & E1 & E2)%then_inv Ht Hfit. apply Forall_cons in Hfit as [Hfit1 Hfit2].
  destruct (connect_tx_spec _ _ _ _ _ _ _ _ _ _ _ _ E1 Ht Hfit1) as (cs & fee & H1 & H2 & H3 & H4 & H5 & H6 & H7).
  destruct (IH _ _ _ _ _ E2 H4 Hfit2) as (css & fees & G1 & G2 & G3 & G4 & G5).
  exists (cs :: css), (fee + fees). split_and!; [by econstructor|lia|congruence| |by constructor].
  rewrite G4, H6. destruct first; [done|]. by rewrite <- app_assoc.
Qed.
End rules.

(** ** No transaction of a block overwrites an output *)

Section fresh.
Context (SHA256d : list Z → Z).

Lemma tx_ok_indices tx : tx_ok tx → indices_fit 0 (vout tx).
Proof.
  intros Hok. unfold indices_fit. pose proof (tx_vout_ok tx Hok) as [Hsz _].
  unfold vector_size_ok, MAX_SIZE in Hsz. simpl. lia.
Qed.

Lemma overwrites_output_spec {E} txid n : ∀ i u u',
  overwrites_output (E := E) txid n i u = (u', inl false) →
  u' = u ∧ ∀ k, (i <= k < i + n)%nat → utxo u !! mkOutPoint txid (u32 (Z.of_nat k)) = None.
Proof.
  induction n as [|n IH]; intros i u u'; cbn [overwrites_output].
  { intros [= <-]. split; [done|]. lia. }
  intros (u1 & have & [= <- <-] & E')%then_inv. case_bool_decide as Hh; [done|].
  destruct (IH _ _ _ E') as [-> Hk]. split; [done|]. intros k Hlt.
  destruct (decide (k = i)) as [->|]; [by apply eq_None_not_Some|]. apply Hk. lia.
Qed.

Lemma overwrites_any_spec {E} vtx : ∀ u u',
  overwrites_any (E := E) SHA256d vtx u = (u', inl false) →
  Forall (λ tx, indices_fit 0 (vout tx)) vtx → u' = u ∧ Forall (fresh SHA256d (utxo u)) vtx.
Proof.
  induction vtx as [|tx vtx IH]; intros u u'; cbn [overwrites_any]; [intros [= <-]; by split|].
  intros (u1 & found & E1 & E2)%then_inv [Hfit1 Hfit2]%Forall_cons. destruct found; [done|].
  destruct (overwrites_output_spec _ _ _ _ _ E1) as [-> H1]. destruct (IH _ _ E2 Hfit2) as [-> H2].
  split; [done|]. constructor; [|done]. intros n x Hn%lookup_lt_Some _. unfold indices_fit in Hfit1. simpl in Hfit1.
  specialize (H1 n ltac:(lia)). unfold wrap in H1. by rewrite Z.mod_small in H1 by lia.
Qed.

End fresh.

(** ** Undoing *)

(** What the coins of the map are like: unspent, spendable, of a block after the genesis. *)
Record coin_ok (c : Coin) : Prop := {
  ck_unspent : IsSpent c = false;
  ck_spendable : IsUnspendable (scriptPubKey (out c)) = false;
  ck_coin_height : 0 < coin_nHeight c < 2 ^ 31
}.

Definition coins_ok (u : gmap COutPoint Coin) : Prop := ∀ o c, u !! o = Some c → coin_ok c.

Lemma NewCoin_height x h cb : 0 <= h < 2 ^ 31 → coin_nHeight (NewCoin x h cb) = h.
Proof. intros Hh. simpl. unfold wrap. by apply Z.mod_small. Qed.

Lemma remove_outputs_undo {E} txid h cb exc outs : 0 <= h < 2 ^ 31 → ∀ i clean m best,
  indices_fit i outs →
  (∀ k x, outs !! k = Some x → IsUnspendable (scriptPubKey x) = false →
     m !! mkOutPoint txid (Z.of_nat (i + k)) = None) →
  remove_outputs (E := E) txid i outs h cb exc clean (mkUTXO (new_coins txid i outs h cb ∪ m) best) =
    (mkUTXO m best, inl clean).
Proof.
  intros Hh. induction outs as [|x outs IH]; intros i clean m best Hfit Hm; cbn [remove_outputs new_coins].
  { by rewrite (left_id_L ∅ (∪)). }
  assert (Hfit' : indices_fit (S i) outs) by (unfold indices_fit in *; cbn [length] in Hfit; lia).
  assert (Hm' : ∀ k y, outs !! k = Some y → IsUnspendable (scriptPubKey y) = false →
    m !! mkOutPoint txid (Z.of_nat (S i + k)) = None).
  { intros k y Hk. replace (S i + k)%nat with (i + S k)%nat by lia. by apply Hm. }
  destruct (IsUnspendable (scriptPubKey x)) eqn:Hx; [by apply IH|].
  set (key := mkOutPoint txid (u32 (Z.of_nat i))).
  assert (Hkey : key = mkOutPoint txid (Z.of_nat i))
    by (unfold key, wrap, indices_fit in *; rewrite Z.mod_small by (cbn [length] in Hfit; lia); done).
  unfold mthen, lift. cbn [SpendCoin UTXO_ops utxo utxo_best].
  rewrite <- insert_union_l, lookup_insert_eq. cbv zeta. change (default coinEmpty (Some ?y)) with y.
  change (out (NewCoin x h cb)) with x. change (fCoinBase (NewCoin x h cb)) with cb.
  rewrite NewCoin_height by done. rewrite (bool_decide_eq_false_2 (Some _ = None)) by done.
  rewrite bool_decide_eq_true_2 by done. rewrite Z.eqb_refl, Bool.eqb_reflx. cbn [negb orb andb].
  rewrite delete_insert_id; [by apply IH|].
  apply lookup_union_None. split.
  - apply eq_None_not_Some. intros [c (k & y & Hk & E' & _)%new_coins_lookup]; [|done].
    rewrite Hkey in E'. injection E' as E'. lia.
  - rewrite Hkey. specialize (Hm 0%nat x). rewrite Nat.add_0_r in Hm. by apply Hm.
Qed.

Lemma ApplyTxInUndo_absent c o u :
  coin_ok c → utxo u !! o = None →
  ApplyTxInUndo c o u = (mkUTXO (<[o := c]> (utxo u)) (utxo_best u), inl DISCONNECT_OK).
Proof.
  intros [H1 H2 H3] Hn. unfold ApplyTxInUndo, mthen, lift, attempt. cbn [HaveCoin UTXO_ops AddCoin].
  assert (Hb : bool_decide (is_Some (utxo u !! o)) = false)
    by (apply bool_decide_eq_false_2; rewrite Hn; by intros []).
  rewrite Hb, (proj2 (Z.eqb_neq (coin_nHeight c) 0)) by lia. unfold mret. cbn [negb].
  rewrite H1, H2, Hb. done.
Qed.

Lemma restore_inputs_undo l : ∀ clean u,
  Forall coin_ok l.*2 → NoDup (prevout <$> l.*1) →
  (∀ i, i ∈ l.*1 → utxo u !! prevout i = None) →
  restore_inputs l clean u =
    (mkUTXO (list_to_map ((λ p, (prevout p.1, p.2)) <$> l) ∪ utxo u) (utxo_best u), inl (Some clean)).
Proof.
  induction l as [|[i c] l IH]; intros clean u Hok Hnd Hn; cbn [restore_inputs fmap list_fmap].
  { simpl. rewrite (left_id_L ∅ (∪)). by destruct u. }
  cbn [fmap list_fmap fst snd] in *. apply Forall_cons in Hok as [Hc Hok]. apply NoDup_cons in Hnd as [Hni Hnd].
  unfold mthen. rewrite ApplyTxInUndo_absent by (done || (apply Hn; by left)).
  rewrite IH; [|done|done|].
  - cbn [utxo utxo_best]. rewrite list_to_map_cons. f_equal. f_equal.
    rewrite <- insert_union_l. symmetry. apply insert_union_r.
    apply not_elem_of_list_to_map_1. rewrite <- list_fmap_compose. simpl.
    rewrite <- list_fmap_compose in Hni. exact Hni.
  - cbn [utxo]. intros j Hj. rewrite lookup_insert_ne; [apply Hn; by right|].
    intros E. apply Hni. rewrite E. by apply list_elem_of_fmap_2.
Qed.

Section undo.
Context (SHA256d : list Z → Z).

(** Undoing the effect of one transaction. *)
Lemma undo_tx h tx u u1 cs enforce clean best txundo :
  tx_effect SHA256d h tx u u1 cs → (IsCoinBase tx = true → fresh SHA256d u tx) → tx_ok tx → coins_ok u →
  0 < h < 2 ^ 31 →
  (txundo = Some cs ∧ IsCoinBase tx = false ∨ txundo = None ∧ IsCoinBase tx = true) →
  disconnect_txs SHA256d [(tx, txundo)] h enforce clean (mkUTXO u1 best) = (mkUTXO u best, inl (Some clean)).
Proof.
  intros [Hf Hnd Hfr' ->] Hfr Hok Hu Hh Hundo. cbn [disconnect_txs]. unfold mthen at 1.
  pose proof (spent_coins_subset _ _ _ Hnd Hf) as Hsub.
  rewrite remove_outputs_undo; [|lia|by apply tx_ok_indices|].
  2:{ intros k x Hk Hx. destruct (IsCoinBase tx); [|by apply (Hfr' eq_refl k x)].
      apply lookup_difference_None. left. by apply (Hfr eq_refl k x). }
  destruct Hundo as [[-> Hcb]|[-> Hcb]]; unfold inputs_of in *; rewrite Hcb in *.
  2:{ inversion Hf. subst. unfold mthen, mret, spent_coins. simpl. by rewrite map_difference_empty. }
  pose proof (Forall2_length _ _ _ Hf) as Hlen. rewrite (proj2 (Nat.eqb_eq _ _)) by done. cbn [negb].
  assert (Hz1 : (zip (vin tx) cs).*1 = vin tx) by (apply fst_zip; lia).
  assert (Hz2 : (zip (vin tx) cs).*2 = cs) by (apply snd_zip; lia).
  assert (Hkeys : (λ p : CTxIn * Coin, (prevout p.1, p.2)) <$> zip (vin tx) cs = zip (prevout <$> vin tx) cs).
  { clear. generalize (vin tx). intros l. revert cs. induction l; intros [|]; simpl; [done..|]. by rewrite IHl. }
  unfold mthen. rewrite restore_inputs_undo.
  - unfold mret. cbn [utxo utxo_best]. f_equal. f_equal.
    transitivity (spent_coins (vin tx) cs ∪ u ∖ spent_coins (vin tx) cs); [f_equal|by apply map_difference_union].
    unfold spent_coins. rewrite <- Hkeys. symmetry. apply list_to_map_proper.
    + rewrite <- list_fmap_compose. simpl. rewrite <- Hz1 in Hnd. by rewrite <- list_fmap_compose in Hnd.
    + by rewrite reverse_Permutation.
  - rewrite fmap_reverse. apply Forall_reverse. rewrite Hz2. apply Forall_forall. intros c [k Hk]%list_elem_of_lookup.
    destruct (Forall2_lookup_r _ _ _ _ _ Hf Hk) as (i & _ & Hi). by apply (Hu (prevout i)).
  - rewrite !fmap_reverse, Hz1. by rewrite reverse_Permutation.
  - rewrite fmap_reverse, Hz1. intros i Hi. rewrite elem_of_reverse in Hi. cbn [utxo]. apply lookup_difference_None. right.
    apply list_elem_of_lookup in Hi as Hi'. destruct Hi' as [k Hk].
    destruct (Forall2_lookup_l _ _ _ _ _ Hf Hk) as (c & _ & Hc).
    exists c. apply (spent_coins_lookup _ _ _ _ u Hnd Hf). eauto.
Qed.

Lemma disconnect_txs_app l1 l2 h enforce : ∀ clean (u : UTXO),
  disconnect_txs SHA256d (l1 ++ l2) h enforce clean u =
  match disconnect_txs SHA256d l1 h enforce clean u with
  | (u, inl (Some clean)) => disconnect_txs SHA256d l2 h enforce clean u
  | r => r
  end.
Proof.
  induction l1 as [|[tx txundo] l1 IH]; intros clean u; [done|]. cbn [disconnect_txs app]. unfold mthen.
  destruct (remove_outputs _ _ _ _ _ _ _ _) as [u1 [clean1|]]; [|done].
  match goal with |- context [match ?x with (_, _) => _ end] => destruct x as [u2 [[clean2|]|]] end; [apply IH|done|done].
Qed.

Lemma tx_effect_coins h tx u u1 cs :
  tx_effect SHA256d h tx u u1 cs → tx_ok tx → coins_ok u → 0 < h < 2 ^ 31 →
  Forall (λ o, CTxOut_IsNull o = false) (vout tx) → coins_ok u1.
Proof.
  intros [_ _ _ ->] Hok Hu Hh Hn o c [Hc|[_ [Hc _]%lookup_difference_Some]]%lookup_union_Some_raw; [|by apply (Hu o)].
  apply new_coins_lookup in Hc as (k & x & Hk & -> & Hx & ->); [|by apply tx_ok_indices].
  rewrite Forall_forall in Hn. split; [|done|by rewrite NewCoin_height by lia].
  apply (Hn x). by eapply list_elem_of_lookup_2.
Qed.

(** Undoing a whole block, from the last transaction to the first. *)
Lemma undo_effects h enforce vtx : ∀ u u' css fees clean best,
  effects SHA256d h vtx u u' css fees → Forall tx_ok vtx → coins_ok u → 0 < h < 2 ^ 31 →
  Forall (λ tx, Forall (λ o, CTxOut_IsNull o = false) (vout tx)) vtx →
  Forall (λ tx, IsCoinBase tx = false) vtx →
  disconnect_txs SHA256d (reverse (zip vtx (Some <$> css))) h enforce clean (mkUTXO u' best) =
    (mkUTXO u best, inl (Some clean)) ∧ coins_ok u'.
Proof.
  induction vtx as [|tx vtx IH]; intros u u' css fees clean best He Hok Hu Hh Hn Hcb;
    inversion He as [|? ? ? u1 ? cs css' fee fees' He1 Hr He2]; subst; [done|].
  apply Forall_cons in Hok as [Hok Hok']. apply Forall_cons in Hn as [Hn Hn']. apply Forall_cons in Hcb as [Hcb Hcb'].
  destruct (IH u1 u' css' fees' clean best He2 Hok') as [E Hu']; try done; [by eapply tx_effect_coins|].
  split; [|done]. cbn [fmap list_fmap zip zip_with]. rewrite reverse_cons, disconnect_txs_app, E.
  apply (undo_tx h tx u u1 cs); auto. congruence.
Qed.
End undo.

(** ** The value of the map *)

Definition total (u : gmap COutPoint Coin) : Z := map_fold (λ _ c sum, nValue (out c) + sum) 0 u.

Definition values_ok (u : gmap COutPoint Coin) : Prop := ∀ o c, u !! o = Some c → 0 <= nValue (out c).

Lemma total_insert (u : gmap COutPoint Coin) o c :
  u !! o = None → total (<[o := c]> u) = nValue (out c) + total u.
Proof. intros Hn. unfold total. rewrite map_fold_insert_L; [done|intros; lia|done]. Qed.

Lemma total_delete (u : gmap COutPoint Coin) o c :
  u !! o = Some c → total u = nValue (out c) + total (delete o u).
Proof.
  intros Hc. rewrite <- (total_insert (delete o u) o c) by apply lookup_delete_eq. by rewrite insert_delete_id.
Qed.

Lemma total_insert_le (u : gmap COutPoint Coin) o c :
  values_ok u → total (<[o := c]> u) <= nValue (out c) + total u.
Proof.
  intros Hu. destruct (u !! o) as [c'|] eqn:Hc; [|by rewrite total_insert].
  rewrite <- insert_delete_eq, total_insert by apply lookup_delete_eq.
  rewrite (total_delete u o c' Hc). pose proof (Hu o c' Hc). lia.
Qed.

Lemma total_nonneg (u : gmap COutPoint Coin) : values_ok u → 0 <= total u.
Proof.
  unfold total. apply (map_fold_weak_ind (λ s v, values_ok v → 0 <= s)); [done|].
  intros o c v s Ho IH Hv. pose proof (Hv o c (lookup_insert_eq _ _ _)). apply Z.add_nonneg_nonneg; [done|].
  apply IH. intros o' c' Hc'. apply (Hv o' c'). by rewrite lookup_insert_ne by congruence.
Qed.

Lemma total_disjoint (a : gmap COutPoint Coin) : ∀ m, a ##ₘ m → total (a ∪ m) = total a + total m.
Proof.
  induction a as [|o c a Hc IH] using map_ind; intros m Hd.
  { by rewrite (left_id_L ∅ (∪)). }
  apply map_disjoint_insert_l in Hd as [Hm Hd].
  rewrite <- insert_union_l, total_insert, IH, total_insert by (done || by apply lookup_union_None). lia.
Qed.

Lemma total_spent ins cs : length ins = length cs → NoDup (prevout <$> ins) →
  total (spent_coins ins cs) = sum_coins cs.
Proof.
  unfold spent_coins. revert cs. induction ins as [|i ins IH]; intros [|c cs]; try done.
  cbn [length fmap list_fmap zip zip_with]. intros [= Hl] [Hni Hnd]%NoDup_cons. rewrite list_to_map_cons, total_insert.
  - rewrite IH by done. done.
  - apply not_elem_of_list_to_map_1. by rewrite fst_zip by (rewrite length_fmap; lia).
Qed.

Lemma values_insert u o c : values_ok u → 0 <= nValue (out c) → values_ok (<[o := c]> u).
Proof. intros Hu Hc k d [[_ <-]|[_ ?]]%lookup_insert_Some; [done|by apply (Hu k)]. Qed.

Lemma total_new txid h cb outs : Forall (λ o, 0 <= nValue o) outs → ∀ i (m : gmap COutPoint Coin),
  values_ok m → total (new_coins txid i outs h cb ∪ m) <= total_value outs + total m ∧
    values_ok (new_coins txid i outs h cb ∪ m).
Proof.
  induction 1 as [|x outs Hx Hxs IH]; intros i m Hm; cbn [new_coins].
  { rewrite (left_id_L ∅ (∪)). done. }
  assert (Ht : total_value (x :: outs) = nValue x + total_value outs) by done. rewrite Ht.
  destruct (IH (S i) m Hm) as [IH1 IH2]. destruct (IsUnspendable _); [split; [lia|done]|].
  rewrite <- insert_union_l. split; [|by apply values_insert].
  pose proof (total_insert_le _ (mkOutPoint txid (u32 (Z.of_nat i))) (NewCoin x h cb) IH2) as Hle.
  change (nValue (out (NewCoin x h cb))) with (nValue x) in Hle. lia.
Qed.

(** A transaction adds at most its outputs and takes away its inputs. *)
Lemma tx_effect_total SHA256d h tx u u1 cs :
  tx_effect SHA256d h tx u u1 cs → Forall (λ o, 0 <= nValue o) (vout tx) → values_ok u →
  total u1 <= total u - sum_coins cs + total_value (vout tx) ∧ values_ok u1.
Proof.
  intros [Hf Hnd _ ->] Hv Hu. pose proof (spent_coins_subset _ _ _ Hnd Hf) as Hsub.
  set (sp := spent_coins _ _) in *.
  assert (Hd : total u = sum_coins cs + total (u ∖ sp)).
  { rewrite <- (map_difference_union sp u Hsub) at 1.
    rewrite total_disjoint by (by apply map_disjoint_difference_r1).
    unfold sp. by rewrite total_spent by (done || by eapply Forall2_length). }
  destruct (total_new (GetTxid SHA256d tx) h (IsCoinBase tx) (vout tx) Hv 0 (u ∖ sp)) as [H1 H2].
  - intros o c [Hc _]%lookup_difference_Some. by apply (Hu o).
  - split; [lia|done].
Qed.

(** The transactions after the coinbase: what they take in covers what they give and the fees. *)
Lemma effects_total SHA256d h vtx : ∀ u u' css fees,
  effects SHA256d h vtx u u' css fees → Forall tx_valid vtx → Forall (λ tx, IsCoinBase tx = false) vtx →
  values_ok u → total u' <= total u - fees ∧ values_ok u'.
Proof.
  induction vtx as [|tx vtx IH]; intros u u' css fees He Hv Hcb Hu;
    inversion He as [|? ? ? u1 ? cs css' fee fees' He1 Hr He2]; subst; [split; [lia|done]|].
  apply Forall_cons in Hv as [Hv1 Hv], Hcb as [Hcb1 Hcb]. destruct Hv1.
  destruct (tx_effect_total _ _ _ _ _ _ He1) as [H1 H2]; [done|done|].
  destruct (IH _ _ _ _ He2 Hv Hcb H2) as [H3 H4]. split; [|done].
  destruct (tr_value _ _ _ _ Hr Hcb1) as (o & Ho & Hs & _).
  destruct (value_out_exact (vout tx) 0) as [Evo _]; [unfold MAX_MONEY, COIN; lia|done|done|].
  unfold GetValueOut in Ho. rewrite Evo in Ho. injection Ho as <-. lia.
Qed.

(** ** The whole block *)

Section block.
Context (SHA256d : list Z → Z) (params : Params) (bparams : BodyParams) (cparams : ConnectParams)
  (opts : Options).
Context (CheckSignetBlockSolution : CBlockHeader → list CTransaction → bool).
Context (CScriptCheck : CTransaction → nat → list CTxOut → Z → option string).
Context (pqc_active : option Z → bool) (parallel_script_checks : bool).
Context (UndoWriteToDisk : Z → CBlockUndo → bool).

Abbreviation contents := (connect_contents (V := UTXO) SHA256d params bparams cparams opts CScriptCheck
  pqc_active parallel_script_checks).
Abbreviation connect := (ConnectBlock SHA256d params bparams cparams opts CheckSignetBlockSolution
  CScriptCheck pqc_active parallel_script_checks UndoWriteToDisk).

(** A block whose flags were set by the checks, with transactions that can be serialized. *)
Record block_ok (block : CBlock) : Prop := {
  bk_flags : flags_ok SHA256d params bparams CheckSignetBlockSolution block;
  bk_txs : Forall tx_ok (blk_vtx block);
  bk_size : BlockSerializeSize false (blk_header block) (blk_vtx block) < 2 ^ 60
}.

Lemma CheckBlock_contents block p m :
  block_ok block →
  (CheckBlock SHA256d params bparams CheckSignetBlockSolution block p m).2 = None →
  check_contents (blk_header block) (blk_vtx block) = None.
Proof.
  intros [Hf _ _] H. destruct (CheckBlock_flags _ _ _ _ block p m Hf) as [E _]. rewrite H, CheckBlock_bare in E.
  symmetry in E. destruct (if p then _ else _); [done|]. destruct (_ && _ && _); [done|]. by destruct (if m then _ else _).
Qed.

(** What a block that was connected did: its transactions, on the map; with their undo data,
    their fees, and what the coinbase claims. *)
Record connected (st : BlockMap) (pindex : Z) (b : CBlockIndex) (prev : Z) (vtx : list CTransaction)
    (u u' : gmap COutPoint Coin) (css : list (list Coin)) (fees : Z) : Prop := {
  cn_effects : effects SHA256d (nHeight b) vtx u u' css fees;
  cn_coinbase : ∃ coinbase rest, vtx = coinbase :: rest ∧ IsCoinBase coinbase = true ∧
    Forall (λ tx, IsCoinBase tx = false) rest ∧
    total_value (vout coinbase) <= fees + GetBlockSubsidy (nHeight b) params (1 <? Z.of_nat (length vtx));
  cn_valid : Forall tx_valid vtx;
  cn_not_null : Forall (λ tx, Forall (λ o, CTxOut_IsNull o = false) (vout tx)) vtx;
  cn_fresh : enforce_BIP30 params cparams st pindex b prev = true → Forall (fresh SHA256d u) vtx
}.

Lemma connect_contents_spec st best_header pindex b vtx u u' undo :
  contents st best_header pindex b vtx u = (u', inl undo) → Forall tx_ok vtx → Forall tx_valid vtx →
  (∃ coinbase rest, vtx = coinbase :: rest ∧ IsCoinBase coinbase = true ∧
     Forall (λ tx, IsCoinBase tx = false) rest) →
  ∃ prev css fees, pprev b = Some prev ∧ utxo_best u' = utxo_best u ∧ undo = tail css ∧
    connected st pindex b prev vtx (utxo u) (utxo u') css fees.
Proof.
  unfold connect_contents. intros E Hok Hv (cb & rest & Ev & Hcb & Hrest).
  destruct (script_checks _ _ _ _ _ _) as [fs|]; [|done]. destruct (pprev b) as [prev|] eqn:Hp; [|done].
  assert (Hfit : Forall (λ tx, indices_fit 0 (vout tx)) vtx) by (eapply Forall_impl; [exact Hok|apply tx_ok_indices]).
  apply then_inv in E as (u1 & found & E1 & E2). destruct found; [done|].
  assert (Hf : u1 = u ∧ (enforce_BIP30 params cparams st pindex b prev = true → Forall (fresh SHA256d (utxo u)) vtx)).
  { destruct (enforce_BIP30 _ _ _ _ _ _); [|by injection E1]. by apply overwrites_any_spec in E1 as [-> ?]. }
  destruct Hf as [-> Hf]. cbv zeta in E2. apply then_inv in E2 as (u2 & t & E2 & E3).
  destruct (connect_txs_spec _ _ _ _ _ _ _ _ _ _ _ _ _ _ _ E2) as (css & fees & H1 & H2 & H3 & H4 & H5);
    [unfold MAX_MONEY, COIN; simpl; lia|done|].
  subst vtx. cbn [head mbind option_bind] in E3. apply Forall_cons in Hv as Hv'. destruct Hv' as [[] _].
  destruct (value_out_exact (vout cb) 0) as [Evo _]; [unfold MAX_MONEY, COIN; lia|done|done|].
  unfold GetValueOut in E3. rewrite Evo in E3. destruct (Z.ltb_spec
    (nFees t + GetBlockSubsidy (nHeight b) params (1 <? Z.of_nat (length (cb :: rest)))) (0 + total_value (vout cb)));
    [done|]. destruct (negb _); [done|]. injection E3 as <- <-.
  exists prev, css, fees. simpl in H2, H4. split_and!; try done.
  split; try done. exists cb, rest. split_and!; try done. lia.
Qed.

Lemma ConnectBlock_spec disk best_header pindex block u disk' u' b :
  connect disk best_header pindex block false u = (disk', u', None) →
  disk.1 !! pindex = Some b → pindex ≠ hashGenesisBlock cparams → block_ok block →
  ∃ prev css fees, pprev b = Some prev ∧ utxo_best u = prev ∧ utxo_best u' = pindex ∧
    connected disk.1 pindex b prev (blk_vtx block) (utxo u) (utxo u') css fees ∧
    ∃ d, WriteUndoDataForBlock UndoWriteToDisk disk pindex (tail css) = Some d ∧
      disk' = (raise_scripts d.1 pindex, d.2).
Proof.
  unfold ConnectBlock. intros E Hb Hg Hok. rewrite Hb in E. destruct (negb _); [done|].
  destruct (CheckBlock _ _ _ _ _ _ _).2 as [[[] ?| |]|] eqn:Hc; try done.
  apply CheckBlock_contents in Hc; [|done]. destruct Hok as [_ Htx Hsz].
  destruct (check_contents_inv _ _ Hsz Hc) as (cb & rest & Ev & Hcb & Hrest & Hv & _).
  change (GetBestBlock u) with (u, utxo_best u) in E. cbv beta iota in E.
  destruct (Z.eqb_spec (utxo_best u) (default 0 (pprev b))) as [Hbest|]; [|done]. cbn [negb] in E.
  rewrite (proj2 (Z.eqb_neq _ _) Hg) in E. destruct (contents _ _ _ _ _ u) as [u2 [undo|]] eqn:Ec; [|done].
  destruct (connect_contents_spec _ _ _ _ _ _ _ _ Ec Htx Hv) as (prev & css & fees & Hp & Hb2 & -> & Hcn); [eauto|].
  rewrite Hp in Hbest. cbn [default] in Hbest.
  destruct (WriteUndoDataForBlock _ _ _ _) as [[st undo]|] eqn:Ew; [|done]. injection E as <- <-.
  exists prev, css, fees. split_and!; try done. by exists (st, undo).
Qed.

(** *** The undo data *)

Lemma effects_unique h vtx : ∀ u u1 u2 css1 css2 fees1 fees2,
  effects SHA256d h vtx u u1 css1 fees1 → effects SHA256d h vtx u u2 css2 fees2 → css1 = css2 ∧ u1 = u2.
Proof.
  induction vtx as [|tx vtx IH]; intros u u1 u2 css1 css2 fees1 fees2 H1 H2; inversion H1; inversion H2; subst;
    [done|].
  match goal with Ha : tx_effect _ _ tx u ?a ?cs, Hb : tx_effect _ _ tx u ?b ?ds |- _ =>
    destruct Ha as [Ha1 _ _ ->], Hb as [Hb1 _ _ ->];
    pose proof (found_unique _ _ _ _ Ha1 Hb1) as ->
  end.
  match goal with Ha : effects _ _ vtx ?m _ _ _, Hb : effects _ _ vtx ?m _ _ _ |- _ =>
    destruct (IH _ _ _ _ _ _ _ Ha Hb) as [-> ->]
  end. done.
Qed.

Lemma effects_length h vtx u u' css fees : effects SHA256d h vtx u u' css fees → length css = length vtx.
Proof. induction 1; simpl; congruence. Qed.

(** The undo data on disk, if there is any, was written for this map. *)
Definition undo_current (disk : Disk) (pindex : Z) (b : CBlockIndex) (vtx : list CTransaction)
    (u : gmap COutPoint Coin) : Prop :=
  Z.land (nStatus b) BLOCK_HAVE_UNDO = 0 ∨
  ∃ u' css fees, effects SHA256d (nHeight b) vtx u u' css fees ∧ disk.2 !! pindex = Some (tail css).

Lemma have_undo_bit s : Z.land s BLOCK_HAVE_UNDO = 0 ↔ Z.testbit s 4 = false.
Proof.
  change BLOCK_HAVE_UNDO with (2 ^ 4). rewrite <- Z.bits_inj_iff'. split.
  - intros H. specialize (H 4 ltac:(lia)). by rewrite Z.land_spec, Z.bits_0, andb_true_r in H.
  - intros H n Hn. rewrite Z.land_spec, Z.bits_0, Z.pow2_bits_eqb by lia.
    destruct (Z.eqb_spec 4 n) as [<-|]; [by rewrite H|apply andb_false_r].
Qed.

Lemma RaiseValidity_have_undo s : Z.testbit (RaiseValidity s BLOCK_VALID_SCRIPTS) 4 = Z.testbit s 4.
Proof.
  unfold RaiseValidity. repeat case_match; try done. rewrite Z.lor_spec, Z.ldiff_spec.
  change (Z.testbit BLOCK_VALID_SCRIPTS 4) with false. change (Z.testbit BLOCK_VALID_MASK 4) with false.
  by rewrite orb_false_r, andb_true_r.
Qed.

Lemma raise_scripts_read st undo pindex b :
  st !! pindex = Some b →
  UndoReadFromDisk (raise_scripts st pindex, undo) pindex = UndoReadFromDisk (st, undo) pindex ∧
  ∃ b', raise_scripts st pindex !! pindex = Some b' ∧ nHeight b' = nHeight b ∧ pprev b' = pprev b.
Proof.
  intros Hb. unfold UndoReadFromDisk, raise_scripts. cbn [fst snd]. rewrite Hb.
  destruct (IsValid b BLOCK_VALID_SCRIPTS); [split; [by rewrite Hb|eauto]|].
  rewrite lookup_insert_eq. split; [|eauto]. cbn [mbind option_bind].
  change (nStatus (set_nStatus ?s b)) with s.
  destruct (Z.eqb_spec (Z.land (RaiseValidity (nStatus b) BLOCK_VALID_SCRIPTS) BLOCK_HAVE_UNDO) 0) as [E|E],
    (Z.eqb_spec (Z.land (nStatus b) BLOCK_HAVE_UNDO) 0) as [E'|E']; try done; exfalso;
    rewrite have_undo_bit, ?RaiseValidity_have_undo in E; rewrite have_undo_bit in E'; congruence.
Qed.

(** What connecting a block leaves on disk for disconnecting it. *)
Lemma undo_stored disk pindex b vtx u u' css fees d :
  disk.1 !! pindex = Some b → undo_current disk pindex b vtx u →
  effects SHA256d (nHeight b) vtx u u' css fees →
  WriteUndoDataForBlock UndoWriteToDisk disk pindex (tail css) = Some d →
  UndoReadFromDisk (raise_scripts d.1 pindex, d.2) pindex = Some (tail css) ∧
  ∃ b', raise_scripts d.1 pindex !! pindex = Some b' ∧ nHeight b' = nHeight b ∧ pprev b' = pprev b.
Proof.
  destruct disk as [st undo]. cbn [fst]. intros Hb Hcur He Hw. unfold WriteUndoDataForBlock in Hw.
  rewrite Hb in Hw. cbn [mbind option_bind] in Hw.
  destruct (Z.eqb_spec (Z.land (nStatus b) BLOCK_HAVE_UNDO) 0) as [E|E].
  - destruct (UndoWriteToDisk _ _); [|done]. injection Hw as <-. cbn [fst snd].
    set (b1 := set_nStatus (Z.lor (nStatus b) BLOCK_HAVE_UNDO) b).
    destruct (raise_scripts_read (<[pindex := b1]> st) (<[pindex := tail css]> undo) pindex b1) as [-> H];
      [apply lookup_insert_eq|]. split; [|exact H].
    unfold UndoReadFromDisk. cbn [fst snd]. rewrite !lookup_insert_eq. cbn [mbind option_bind].
    change (nStatus b1) with (Z.lor (nStatus b) BLOCK_HAVE_UNDO).
    destruct (Z.eqb_spec (Z.land (Z.lor (nStatus b) BLOCK_HAVE_UNDO) BLOCK_HAVE_UNDO) 0) as [E'|]; [|done].
    exfalso. rewrite have_undo_bit, Z.lor_spec in E'. change (Z.testbit BLOCK_HAVE_UNDO 4) with true in E'.
    by rewrite orb_true_r in E'.
  - injection Hw as <-. cbn [fst snd]. destruct (raise_scripts_read st undo pindex b Hb) as [-> H].
    split; [|exact H]. destruct Hcur as [|(u2 & css2 & fees2 & He2 & Hd)]; [done|]. cbn [snd] in Hd.
    unfold UndoReadFromDisk. cbn [fst snd]. rewrite Hb. cbn [mbind option_bind].
    rewrite (proj2 (Z.eqb_neq _ _) E), Hd. by destruct (effects_unique _ _ _ _ _ _ _ _ _ He He2) as [-> _].
Qed.

(** Undoing the transactions of a block that overwrote nothing. *)
Lemma undo_block st pindex b prev vtx u u' css fees enforce best :
  connected st pindex b prev vtx u u' css fees → enforce_BIP30 params cparams st pindex b prev = true →
  Forall tx_ok vtx → coins_ok u → 0 < nHeight b < 2 ^ 31 →
  disconnect_txs SHA256d (reverse (with_undo vtx (tail css))) (nHeight b) enforce true (mkUTXO u' best) =
    (mkUTXO u best, inl (Some true)) ∧ coins_ok u'.
Proof.
  intros [He (cb & rest & -> & Hcb & Hrest & _) Hv Hn Hf] H30 Hok Hu Hh.
  specialize (Hf H30). apply Forall_cons in Hf as [Hf _].
  inversion He as [|? ? ? u1 ? cs css' fee fees' He1 Hr1 Hfe']; subst.
  apply Forall_cons in Hok as [Hok1 Hok], Hn as [Hn1 Hn].
  assert (Hu1 : coins_ok u1) by (by eapply tx_effect_coins).
  destruct (undo_effects SHA256d (nHeight b) enforce rest u1 u' css' fees' true best) as [E Hu']; try done.
  split; [|done]. unfold with_undo. cbn [tail]. rewrite reverse_cons, disconnect_txs_app, E.
  apply (undo_tx SHA256d (nHeight b) cb u u1 cs); auto.
Qed.

(** Disconnecting a block with its undo data, on the map. *)
Lemma disconnect_exact st disk pindex b b' prev vtx u u' css fees :
  connected st pindex b prev vtx u u' css fees → enforce_BIP30 params cparams st pindex b prev = true →
  Forall tx_ok vtx → coins_ok u → 0 < nHeight b < 2 ^ 31 →
  disk.1 !! pindex = Some b' → nHeight b' = nHeight b → pprev b' = Some prev →
  UndoReadFromDisk disk pindex = Some (tail css) →
  DisconnectBlock SHA256d disk pindex vtx (mkUTXO u' pindex) = (mkUTXO u prev, inl DISCONNECT_OK) ∧ coins_ok u'.
Proof.
  intros Hcn H30 Hok Hu Hh Hb' Eh Ep Hread.
  destruct (undo_block _ _ _ _ _ _ _ _ _ (negb (bip30_overwritten (nHeight b) pindex)) pindex Hcn H30
    Hok Hu Hh) as [Hundo Hu']. split; [|done].
  unfold DisconnectBlock. rewrite Hread, Hb', Eh, Ep.
  pose proof (effects_length _ _ _ _ _ _ (cn_effects _ _ _ _ _ _ _ _ _ Hcn)) as Hl.
  destruct (cn_coinbase _ _ _ _ _ _ _ _ _ Hcn) as (cb & rest & Ev & _). rewrite Ev in Hl, Hundo |- *.
  destruct css as [|cs css]; [done|]. cbn [tail length] in *.
  rewrite (proj2 (Nat.eqb_eq _ _)) by lia. cbn [negb]. unfold mthen. by rewrite Hundo.
Qed.

(** Disconnecting a block right after it was connected, on the map. *)
Lemma disconnect_connected disk best_header pindex block u disk' u' b :
  connect disk best_header pindex block false u = (disk', u', None) →
  disk.1 !! pindex = Some b → pindex ≠ hashGenesisBlock cparams →
  0 < nHeight b < 2 ^ 31 → block_ok block → coins_ok (utxo u) →
  enforce_BIP30 params cparams disk.1 pindex b (utxo_best u) = true →
  undo_current disk pindex b (blk_vtx block) (utxo u) →
  DisconnectBlock SHA256d disk' pindex (blk_vtx block) u' = (u, inl DISCONNECT_OK) ∧ coins_ok (utxo u').
Proof.
  intros Hc Hb Hg Hh Hok Hu H30 Hcur.
  destruct (ConnectBlock_spec _ _ _ _ _ _ _ _ Hc Hb Hg Hok)
    as (prev & css & fees & Hp & <- & Hbest & Hcn & d & Hw & ->).
  destruct (undo_stored _ _ _ _ _ _ _ _ _ Hb Hcur (cn_effects _ _ _ _ _ _ _ _ _ Hcn) Hw)
    as (Hread & b' & Hb' & Eh & Ep). rewrite Hp in Ep. destruct u as [m best], u' as [m' best']. cbn in Hbest. subst best'.
  by apply (disconnect_exact _ _ _ _ b' _ _ _ _ css fees Hcn H30 (bk_txs _ Hok) Hu Hh).
Qed.

(** *** The value of the coins *)

Lemma connected_total st pindex b prev vtx u u' css fees :
  connected st pindex b prev vtx u u' css fees → values_ok u →
  total u' <= total u + GetBlockSubsidy (nHeight b) params (1 <? Z.of_nat (length vtx)) ∧ values_ok u'.
Proof.
  intros [He (cb & rest & -> & Hcb & Hrest & Hle) Hv _ _] Hu.
  inversion He as [|? ? ? u1 ? cs css' fee fees' He1 Hr He2]; subst.
  apply Forall_cons in Hv as [Hv1 Hv]. destruct Hv1.
  destruct (tx_effect_total _ _ _ _ _ _ He1) as [H1 H2]; [done|done|].
  destruct (effects_total _ _ _ _ _ _ _ He2 Hv Hrest H2) as [H3 H4]. split; [|done].
  rewrite (tr_coinbase _ _ _ _ Hr Hcb) in Hle.
  assert (cs = []) as ->
    by (destruct He1 as [Hf _ _ _]; unfold inputs_of in Hf; rewrite Hcb in Hf; by inversion Hf).
  cbn [sum_coins foldr] in H1. lia.
Qed.

(** *** Claims *)

(** C12. What a block that [ConnectBlock] accepts did to the unspent outputs.  The map was that of
    its parent and becomes that of the block.  Transaction by transaction, every input was
    there, once, and goes; every spendable output comes; the coins spent are mature, and
    hold at least what the transaction gives, the rest being its fee.  The first
    transaction, and no other, is a coinbase, and it claims at most the fees and the
    subsidy.  So the value of all unspent outputs grows by at most the subsidy. *)
Theorem connected_block_sound disk best_header pindex block u disk' u' b :
  connect disk best_header pindex block false u = (disk', u', None) →
  disk.1 !! pindex = Some b → pindex ≠ hashGenesisBlock cparams → block_ok block → values_ok (utxo u) →
  let subsidy := GetBlockSubsidy (nHeight b) params (1 <? Z.of_nat (length (blk_vtx block))) in
  ∃ css fees coinbase rest,
    pprev b = Some (utxo_best u) ∧ utxo_best u' = pindex ∧
    effects SHA256d (nHeight b) (blk_vtx block) (utxo u) (utxo u') css fees ∧
    blk_vtx block = coinbase :: rest ∧ IsCoinBase coinbase = true ∧
    Forall (λ tx, IsCoinBase tx = false) rest ∧
    total_value (vout coinbase) <= fees + subsidy ∧
    total (utxo u') <= total (utxo u) + subsidy ∧ values_ok (utxo u').
Proof.
  intros Hc Hb Hg Hok Hu.
  destruct (ConnectBlock_spec _ _ _ _ _ _ _ _ Hc Hb Hg Hok) as (prev & css & fees & Hp & <- & Hbest & Hcn & _).
  destruct (connected_total _ _ _ _ _ _ _ _ _ Hcn Hu) as [H1 H2].
  destruct Hcn as [He (cb & rest & Ev & Hcb & Hrest & Hle) _ _ _].
  exists css, fees, cb, rest. by split_and!.
Qed.

Section over_view.
Context {V : Type} `{!CCoinsView V, !CoinsViewOk V}.

(** C11. [DisconnectBlock] undoes [ConnectBlock]: on a cache over any view that shows a map of
    coins, if the map lets a block connect then so does the cache, with the same changes of
    the index and the undo files; and disconnecting the block with the undo data from disk
    returns [DISCONNECT_OK] and leaves a cache that shows exactly the map and the best block
    from before.  For a block for which the rule against overwriting outputs is enforced. *)
Theorem disconnect_undoes_connect disk best_header pindex block (c : CCoinsViewCache V) u disk' u' b :
  connect disk best_header pindex block false u = (disk', u', None) →
  disk.1 !! pindex = Some b → pindex ≠ 0 → pindex ≠ hashGenesisBlock cparams → pprev b ≠ Some 0 →
  0 < nHeight b < 2 ^ 31 → block_ok block → coins_ok (utxo u) →
  enforce_BIP30 params cparams disk.1 pindex b (utxo_best u) = true →
  undo_current disk pindex b (blk_vtx block) (utxo u) → refines c u →
  ∃ c' c'', connect disk best_header pindex block false c = (disk', c', None) ∧ refines c' u' ∧
    DisconnectBlock SHA256d disk' pindex (blk_vtx block) c' = (c'', inl DISCONNECT_OK) ∧ refines c'' u.
Proof.
  intros Hc Hb H0 Hg Hp0 Hh Hok Hu H30 Hcur R.
  destruct (disconnect_connected _ _ _ _ _ _ _ _ Hc Hb Hg Hh Hok Hu H30 Hcur) as [Hd _].
  destruct (ConnectBlock_spec _ _ _ _ _ _ _ _ Hc Hb Hg Hok)
    as (prev & css & fees & Hp & <- & Hbest & Hcn & d & Hw & ->).
  destruct (undo_stored _ _ _ _ _ _ _ _ _ Hb Hcur (cn_effects _ _ _ _ _ _ _ _ _ Hcn) Hw)
    as (_ & b' & Hb' & _ & Ep).
  set (disk' := (raise_scripts d.1 pindex, d.2)) in *.
  destruct (ConnectBlock_sim SHA256d params bparams cparams opts CheckSignetBlockSolution CScriptCheck pqc_active
    parallel_script_checks UndoWriteToDisk disk best_header pindex block false c u H0 R) as [E|(E1 & E2 & R')];
    [by rewrite Hc in E|].
  rewrite Hc in E1, E2, R'. destruct (connect _ _ _ _ _ c) as [[disk2 c'] r]. cbn [fst snd] in E1, E2, R'. subst.
  destruct (DisconnectBlock_sim (W := λ h, h ≠ 0) SHA256d disk' (utxo_best u') (blk_vtx block) c' u') as [E|[E3 R'']];
    [|apply (cn_not_null _ _ _ _ _ _ _ _ _ Hcn)|done|by rewrite Hd in E|].
  { cbn [fst disk']. intros b2 Hb2. replace b2 with b' by congruence. by rewrite Ep. }
  rewrite Hd in E3, R''. exists c', (DisconnectBlock SHA256d disk' (utxo_best u') (blk_vtx block) c').1.
  split_and!; [done|done| |done]. cbn [snd] in E3. rewrite <- E3. by destruct (DisconnectBlock _ _ _ _ c').
Qed.
End over_view.
End block.

(** ** A concrete block *)

Definition example_cparams : ConnectParams := mkConnectParams example_genesis_hash 0 1000 ∅ 0.
Definition example_block : CBlock := new_block (example_header example_vtx) example_vtx.
Definition example_hash : Z := GetHash small_hash (example_header example_vtx).
Definition example_utxo : UTXO :=
  mkUTXO {[ mkOutPoint 7 0 := mkCoin (mkTxOut 20000000 [0x51]) false 1 ]} example_genesis_hash.
Definition example_disk : Disk := (example_index, ∅).

Abbreviation example_connect := (ConnectBlock small_hash CQbtcTestNetParams example_bparams example_cparams
  example_options (λ _ _, true) (λ _ _ _ _, None) (λ _, true) false (λ _ _, true) example_disk None
  example_hash example_block false).

Definition example_connected : Disk * UTXO := (example_connect example_utxo).1.

Lemma example_connects : example_connect example_utxo = (example_connected.1, example_connected.2, None).
Proof.
  assert (E : (example_connect example_utxo).2 = None) by (vm_compute; reflexivity).
  unfold example_connected. destruct (example_connect example_utxo) as [[d u] r]. simpl in E. by subst.
Qed.

Lemma example_block_ok : block_ok small_hash CQbtcTestNetParams example_bparams (λ _ _, true) example_block.
Proof.
  split; [exact (flags_ok_bare _ _ _ _ example_block)|apply example_ok|vm_compute; reflexivity].
Qed.

Definition example_facts (b : CBlockIndex) : bool :=
  (nHeight b =? 1) && (nStatus b =? 2) &&
  bool_decide (pprev b = Some example_genesis_hash) &&
  enforce_BIP30 CQbtcTestNetParams example_cparams example_index example_hash b example_genesis_hash.

Lemma example_index_entry :
  ∃ b, example_index !! example_hash = Some b ∧ nHeight b = 1 ∧ nStatus b = 2 ∧
    pprev b = Some example_genesis_hash ∧
    enforce_BIP30 CQbtcTestNetParams example_cparams example_index example_hash b example_genesis_hash = true.
Proof.
  assert (E : (example_facts <$> (example_index !! example_hash)) = Some true) by (vm_compute; reflexivity).
  destruct (example_index !! example_hash) as [b|]; [|done]. injection E as E. unfold example_facts in E.
  apply andb_true_iff in E as [E E4]. apply andb_true_iff in E as [E E3]. apply andb_true_iff in E as [E1 E2].
  exists b. split_and!; [done|lia|lia|by apply bool_decide_eq_true in E3|done].
Qed.

Lemma example_utxo_ok : values_ok (utxo example_utxo) ∧ coins_ok (utxo example_utxo).
Proof.
  split; intros o c H; unfold example_utxo in H; cbn [utxo] in H; apply lookup_singleton_Some in H as [_ <-];
    [simpl; lia|by split].
Qed.

Lemma example_hashes : example_hash ≠ 0 ∧ example_hash ≠ example_genesis_hash ∧ example_genesis_hash ≠ 0.
Proof. split_and!; vm_compute; discriminate. Qed.

Lemma connected_block_sound_witness :
  total (utxo example_connected.2) <= 20000000 + 83333333 ∧ utxo_best example_connected.2 = example_hash.
Proof.
  destruct example_index_entry as (b & Hb & Hh & _).
  destruct (connected_block_sound small_hash CQbtcTestNetParams example_bparams example_cparams example_options
    (λ _ _, true) (λ _ _ _ _, None) (λ _, true) false (λ _ _, true) example_disk None example_hash example_block
    example_utxo example_connected.1 example_connected.2 b example_connects Hb (proj1 (proj2 example_hashes))
    example_block_ok (proj1 example_utxo_ok)) as (css & fees & cb & rest & _ & H1 & _ & _ & _ & _ & _ & H2 & _).
  rewrite Hh in H2. split; [exact H2|exact H1].
Defined.

Lemma disconnect_undoes_connect_witness :
  ∃ c' c'' : CCoinsViewCache CCoinsViewDB,
    DisconnectBlock (CoinOps0 := Cache_ops (CCoinsView0 := DB_view (λ _, false))) small_hash example_connected.1
      example_hash example_vtx c' = (c'', inl DISCONNECT_OK).
Proof.
  destruct example_index_entry as (b & Hb & Hh & Hs & Hp & H30).
  destruct example_hashes as (H1 & H2 & H3).
  destruct (disconnect_undoes_connect small_hash CQbtcTestNetParams example_bparams example_cparams example_options
    (λ _ _, true) (λ _ _ _ _, None) (λ _, true) false (λ _ _, true)
    (V := CCoinsViewDB) (CCoinsView0 := DB_view (λ _, false)) (CoinsViewOk0 := DB_view_ok (λ _, false))
    example_disk None example_hash example_block
    (NewCache (mkDB (utxo example_utxo) (Some example_genesis_hash) None))
    example_utxo example_connected.1 example_connected.2 b example_connects Hb H1 H2)
    as (c' & c'' & _ & _ & E & _); [..|by exists c', c''].
  - rewrite Hp. intros E. apply (inj Some) in E. exact (H3 E).
  - rewrite Hh. lia.
  - exact example_block_ok.
  - apply example_utxo_ok.
  - exact H30.
  - left. by rewrite Hs.
  - apply (fresh_cache_refines (λ _, false)); [|done]. intros o c Hc. apply (proj2 example_utxo_ok o c Hc).
Defined.
