(* ===== verification/Replay.v ===== *)
(** * Recovery after a crash

    A flush of the coins writes its batches one after another; a crash in between leaves a
    store with some coins of the old tip and some of the new one, and the two tips as its
    head blocks (CoinsDB.v).  On the next start [Chainstate::ReplayBlocks]
    (src/src/validation.cpp) rolls the old branch back and the new one forward, on a cache
    over that store.  Every step writes or deletes given coins whatever was there, so the
    result is the map of the new tip from any such store. *)

From Stdlib Require Import String.
From stdpp Require Import gmap.
From S2P Require Import Prelude PqcWitness Arith256 Serialize BlockHeader Formats BlockIndex Pow Subsidy.
From S2P Require Import Transaction Script Merkle Chainman Accept BlockCheck BlockCheckProps Coins CoinsDB.
From S2P Require Import Connect ConnectSim ConnectProps.

Local Open Scope Z_scope.
Local Open Scope coins_scope.

(** ** The last common ancestor *)

(** The outer [None] is a failed assertion. *)
Fixpoint common_loop (fuel : nat) (st : BlockMap) (pa pb : option Z) : option (option Z) :=
  match pa, pb with
  | Some a, Some b =>
      if a =? b then Some (Some a)
      else match fuel with
           | O => None
           | S fuel' => common_loop fuel' st (st !! a ≫= pprev) (st !! b ≫= pprev)
           end
  | None, None => Some None
  | _, _ => None
  end.

Definition LastCommonAncestor (st : BlockMap) (pa pb : Z) : option (option Z) :=
  a ← st !! pa;
  b ← st !! pb;
  let pa' := if nHeight b <? nHeight a then GetAncestor st pa (nHeight b) else Some pa in
  let pb' := if nHeight a <? nHeight b then GetAncestor st pb (nHeight a) else Some pb in
  common_loop (S (Z.to_nat (Z.min (nHeight a) (nHeight b)))) st pa' pb'.

(** ** Reading a block *)

(** [block_file] is what can be read at the position of a block; [None]: the file cannot be
    opened. *)
Definition ReadBlockFromDisk (SHA256d : list Z → Z) (params : Params) (bparams : BodyParams)
    (CheckSignetBlockSolution : CBlockHeader → list CTransaction → bool)
    (block_file : Z → option (list Z)) (pindex : Z) : option CBlock :=
  bytes ← block_file pindex;
  '((header, vtx), _) ← UnserializeBlock true bytes;
  if negb (CheckProofOfWork (GetHash SHA256d header) (hdr_nBits header) params) then None
  else if signet_blocks bparams && negb (CheckSignetBlockSolution header vtx) then None
  else if negb (GetHash SHA256d header =? pindex) then None
  else Some (new_block header vtx).

(** What was written for a block is read back, and nothing else is taken for it. *)
Lemma ReadBlockFromDisk_written SHA256d params bparams sgn block_file pindex h vtx rest :
  block_file pindex = Some (SerializeBlock true h vtx ++ rest) → GetHash SHA256d h = pindex →
  header_writable h → vector_size_ok vtx → Forall tx_ok vtx → Forall (λ tx, vin tx ≠ []) vtx →
  CheckProofOfWork pindex (hdr_nBits h) params = true → (signet_blocks bparams = true → sgn h vtx = true) →
  ReadBlockFromDisk SHA256d params bparams sgn block_file pindex = Some (new_block h vtx).
Proof.
  intros Hf Hh Hw Hsz Hok Hne Hpow Hsig. unfold ReadBlockFromDisk. rewrite Hf. cbn [mbind option_bind].
  rewrite Forall_forall in Hok, Hne.
  rewrite (block_read true id) by (done || (intros tx r Htx; apply unserialize_with; auto)).
  cbn [mbind option_bind]. rewrite list_fmap_id, Hh, Hpow, Z.eqb_refl. cbn [negb].
  destruct (signet_blocks bparams); cbn [andb]; [by rewrite Hsig|done].
Qed.

Lemma ReadBlockFromDisk_hash SHA256d params bparams sgn block_file pindex block :
  ReadBlockFromDisk SHA256d params bparams sgn block_file pindex = Some block →
  GetHash SHA256d (blk_header block) = pindex.
Proof.
  unfold ReadBlockFromDisk. intros (bytes & _ & H)%bind_Some. apply bind_Some in H as ([[h vtx] rest] & _ & H).
  destruct (negb _); [done|]. destruct (_ && _); [done|].
  destruct (Z.eqb_spec (GetHash SHA256d h) pindex); [|done]. by injection H as <-.
Qed.

(** ** Rolling back and forward *)

Section roll.
Context {V : Type} `{!CoinOps V} (SHA256d : list Z → Z).
Context (ReadBlock : Z → option CBlock).

Fixpoint spend_all {E} (ins : list CTxIn) : M V E unit :=
  match ins with
  | [] => mret tt
  | txin :: ins' => lift (SpendCoin (prevout txin)) ;;; spend_all ins'
  end.

Fixpoint rollforward_txs (vtx : list CTransaction) (nHeight : Z) : M V Failure unit :=
  match vtx with
  | [] => mret tt
  | tx :: vtx' =>
      (if IsCoinBase tx then mret tt else spend_all (vin tx)) ;;;
      AddCoins SHA256d tx nHeight true ;;;
      rollforward_txs vtx' nHeight
  end.

Definition RollforwardBlock (st : BlockMap) (pindex : Z) : M V Failure bool :=
  match st !! pindex with
  | None => fail Abort
  | Some b =>
      match ReadBlock pindex with
      | None => mret false
      | Some block => rollforward_txs (blk_vtx block) (nHeight b) ;;; mret true
      end
  end.

(** Down the old branch to the fork; the genesis block is never disconnected. *)
Fixpoint roll_back (fuel : nat) (disk : Disk) (pindexOld pindexFork : option Z) : M V Failure bool :=
  if bool_decide (pindexOld = pindexFork) then mret true
  else
    match fuel, pindexOld with
    | S fuel', Some h =>
        match disk.1 !! h with
        | None => fail Abort
        | Some b =>
            ok <- (if 0 <? nHeight b
                   then match ReadBlock h with
                        | None => mret false
                        | Some block =>
                            r <- DisconnectBlock SHA256d disk h (blk_vtx block) ;;
                            mret (negb (bool_decide (r = DISCONNECT_FAILED)))
                        end
                   else mret true) ;;
            if ok then roll_back fuel' disk (pprev b) pindexFork else mret false
        end
    | _, _ => fail Abort
    end.

Fixpoint roll_forward (count : nat) (st : BlockMap) (pindexNew nHeight : Z) : M V Failure bool :=
  match count with
  | O => mret true
  | S count' =>
      match GetAncestor st pindexNew nHeight with
      | None => fail Abort
      | Some pindex =>
          ok <- RollforwardBlock st pindex ;;
          if ok then roll_forward count' st pindexNew (nHeight + 1) else mret false
      end
  end.

(** From the old tip over the fork to the new tip. *)
Definition replay_branches (disk : Disk) (pindexOld pindexFork : option Z) (pindexNew : Z) : M V Failure bool :=
  let height h := default 0 (nHeight <$> (h ≫= λ h, disk.1 !! h)) in
  ok <- roll_back (S (Z.to_nat (height pindexOld))) disk pindexOld pindexFork ;;
  if ok
  then let nForkHeight := height pindexFork in
       roll_forward (Z.to_nat (height (Some pindexNew) - nForkHeight)) disk.1 pindexNew (nForkHeight + 1)
  else mret false.
End roll.

(** ** [ReplayBlocks] *)

Section replay.
Context (SHA256d : list Z → Z) (ReadBlock : Z → option CBlock).
Context (too_large : list batch_op → bool).
#[local] Instance replay_view : CCoinsView CCoinsViewDB := DB_view too_large.

(** [None]: a failed assertion; otherwise the store and what is returned. *)
Definition ReplayBlocks (disk : Disk) (db : CCoinsViewDB) : option (CCoinsViewDB * bool) :=
  let st := disk.1 in
  let replay pindexOld pindexFork pindexNew :=
    match replay_branches SHA256d ReadBlock disk pindexOld pindexFork pindexNew
            (NewCache db) with
    | (_, inr _) => None
    | (cache, inl false) => Some (base cache, false)
    | (cache, inl true) =>
        cache ← Flush (SetBestBlock pindexNew cache);
        Some (base cache, true)
    end in
  match GetHeadBlocks db with
  | [] => Some (db, true)
  | [head0; head1] =>
      match st !! head0 with
      | None => Some (db, false)
      | Some _ =>
          if head1 =? 0 then replay None None head0
          else match st !! head1 with
               | None => Some (db, false)
               | Some _ =>
                   match LastCommonAncestor st head1 head0 with
                   | Some (Some pindexFork) => replay (Some head1) (Some pindexFork) head0
                   | _ => None
                   end
               end
      end
  | _ => Some (db, false)
  end.
End replay.

(** ** The last common ancestor is one, and the last *)

Lemma prev_n_le st n : chain_ok st → ∀ h b a,
  st !! h = Some b → prev_n st n h = Some a →
  Z.of_nat n <= nHeight b ∧ ∃ ba, st !! a = Some ba ∧ nHeight ba = nHeight b - Z.of_nat n.
Proof.
  intros Hok. induction n as [|n IH]; intros h b a Hb Ha.
  { injection Ha as <-. pose proof (ck_height _ Hok _ _ Hb). split; [lia|]. exists b. split; [done|lia]. }
  cbn [prev_n] in Ha. rewrite Hb in Ha. simpl in Ha. apply bind_Some in Ha as (p & Hp & Ha).
  destruct (ck_prev _ Hok _ _ _ Hb Hp) as (bp & Hbp & Hhp).
  destruct (IH p bp a Hbp Ha) as (Hle & ba & Hba & Hh). split; [lia|]. exists ba. split; [done|lia].
Qed.

Lemma prev_n_S st n h a :
  prev_n st (S n) h = Some a ↔ ∃ b p, st !! h = Some b ∧ pprev b = Some p ∧ prev_n st n p = Some a.
Proof.
  cbn [prev_n]. split.
  - intros (b & Hb & (p & Hp & H)%bind_Some)%bind_Some. eauto.
  - intros (b & p & -> & Hp & H). simpl. by rewrite Hp.
Qed.

Lemma common_loop_spec st fuel : ∀ n a b c,
  prev_n st n a = Some c → prev_n st n b = Some c → (n <= fuel)%nat →
  ∃ f k, common_loop fuel st (Some a) (Some b) = Some (Some f) ∧ (k <= n)%nat ∧
    prev_n st k a = Some f ∧ prev_n st k b = Some f ∧ prev_n st (n - k) f = Some c.
Proof.
  induction fuel as [|fuel IH]; intros n a b c Ha Hb Hn; cbn [common_loop].
  { assert (n = 0%nat) as -> by lia. injection Ha as <-. injection Hb as ->.
    rewrite Z.eqb_refl. by exists a, 0%nat. }
  destruct (Z.eqb_spec a b) as [<-|Hne].
  { exists a, 0%nat. split_and!; [done|lia|done|done|by rewrite Nat.sub_0_r]. }
  destruct n as [|n]; [injection Ha as <-; injection Hb as ->; done|].
  apply prev_n_S in Ha as (ba & pa & Hba & Hpa & Ha). apply prev_n_S in Hb as (bb & pb & Hbb & Hpb & Hb).
  rewrite Hba, Hbb. simpl. rewrite Hpa, Hpb.
  destruct (IH n pa pb c Ha Hb ltac:(lia)) as (f & k & E & Hk & H1 & H2 & H3).
  exists f, (S k). split_and!; [done|lia|apply prev_n_S; eauto|apply prev_n_S; eauto|done].
Qed.

(** If the blocks have a common ancestor, one is returned that has every common ancestor
    below it. *)
Lemma LastCommonAncestor_spec st pa pb a b n m c :
  chain_ok st → st !! pa = Some a → st !! pb = Some b →
  prev_n st n pa = Some c → prev_n st m pb = Some c →
  ∃ f i j, LastCommonAncestor st pa pb = Some (Some f) ∧ prev_n st i pa = Some f ∧
    prev_n st j pb = Some f ∧ ∃ k, prev_n st k f = Some c.
Proof.
  intros Hok Ha Hb Hn Hm.
  destruct (prev_n_le _ _ Hok _ _ _ Ha Hn) as (Hn1 & bc & Hbc & Hhc).
  destruct (prev_n_le _ _ Hok _ _ _ Hb Hm) as (Hm1 & bc' & Hbc' & Hhc'). assert (bc' = bc) as -> by congruence.
  assert (Hup : ∀ p e d q, st !! p = Some e → prev_n st (d + q) p = Some c → Z.of_nat d <= nHeight e →
    ∃ p', GetAncestor st p (nHeight e - Z.of_nat d) = Some p' ∧ prev_n st d p = Some p' ∧ prev_n st q p' = Some c).
  { intros p e d q He Hq Hd. rewrite (GetAncestor_prev_n st p e) by (done || lia).
    replace (Z.to_nat (nHeight e - (nHeight e - Z.of_nat d))) with d by lia.
    rewrite prev_n_add in Hq. apply bind_Some in Hq as (p' & Hp' & Hq). eauto. }
  unfold LastCommonAncestor. rewrite Ha. simpl. rewrite Hb. simpl.
  assert (Hgo : ∀ i j pa' pb' q, prev_n st i pa = Some pa' → prev_n st j pb = Some pb' →
    prev_n st q pa' = Some c → prev_n st q pb' = Some c → Z.of_nat q <= Z.min (nHeight a) (nHeight b) →
    ∃ f i' j', common_loop (S (Z.to_nat (Z.min (nHeight a) (nHeight b)))) st (Some pa') (Some pb') = Some (Some f) ∧
      prev_n st i' pa = Some f ∧ prev_n st j' pb = Some f ∧ ∃ k, prev_n st k f = Some c).
  { intros i j pa' pb' q Hi Hj H1 H2 Hq.
    destruct (common_loop_spec st (S (Z.to_nat (Z.min (nHeight a) (nHeight b)))) q pa' pb' c H1 H2 ltac:(lia))
      as (f & k & E & _ & F1 & F2 & F3).
    exists f, (i + k)%nat, (j + k)%nat. rewrite !prev_n_add, Hi, Hj. eauto 10. }
  destruct (Z.ltb_spec (nHeight b) (nHeight a)), (Z.ltb_spec (nHeight a) (nHeight b)); try lia.
  - destruct (Hup pa a (n - m)%nat m Ha) as (p' & E & H1 & H2); [by replace (n - m + m)%nat with n by lia|lia|].
    replace (nHeight a - Z.of_nat (n - m)) with (nHeight b) in E by lia. rewrite E.
    apply (Hgo (n - m)%nat 0%nat p' pb m); (done || lia).
  - destruct (Hup pb b (m - n)%nat n Hb) as (p' & E & H1 & H2); [by replace (m - n + n)%nat with m by lia|lia|].
    replace (nHeight b - Z.of_nat (m - n)) with (nHeight a) in E by lia. rewrite E.
    apply (Hgo 0%nat (m - n)%nat pa p' n); (done || lia).
  - apply (Hgo 0%nat 0%nat pa pb n); [done|done|done| |lia]. by replace n with m by lia.
Qed.

(** ** Absolute writes *)

(** A write sets or deletes a coin whatever was there. *)
Definition apply_write (m : gmap COutPoint Coin) (w : COutPoint * option Coin) : gmap COutPoint Coin :=
  match w.2 with Some coin => <[w.1 := coin]> m | None => delete w.1 m end.

Definition apply_writes (ws : list (COutPoint * option Coin)) (m : gmap COutPoint Coin)
    : gmap COutPoint Coin := foldl apply_write m ws.

Lemma apply_writes_app ws1 ws2 m : apply_writes (ws1 ++ ws2) m = apply_writes ws2 (apply_writes ws1 m).
Proof. apply foldl_app. Qed.

Lemma apply_write_lookup m w o :
  apply_write m w !! o = if bool_decide (w.1 = o) then w.2 else m !! o.
Proof.
  unfold apply_write. destruct w as [k [coin|]]; cbn [fst snd]; case_bool_decide as H; subst.
  - apply lookup_insert_eq.
  - by rewrite lookup_insert_ne.
  - apply lookup_delete_eq.
  - by rewrite lookup_delete_ne.
Qed.

(** A coin that is written does not depend on the map before; any other is as before. *)
Lemma apply_writes_lookup ws o : ∀ m m',
  apply_writes ws m !! o = apply_writes ws m' !! o ∨
  apply_writes ws m !! o = m !! o ∧ apply_writes ws m' !! o = m' !! o.
Proof.
  induction ws as [|w ws IH]; intros m m'; [by right|]. cbn [apply_writes foldl].
  destruct (IH (apply_write m w) (apply_write m' w)) as [H|[H1 H2]]; [by left|].
  unfold apply_writes in H1, H2. rewrite H1, H2, !apply_write_lookup. case_bool_decide; auto.
Qed.

(** From a mixture of the map before and the map after the writes give the map after. *)
Lemma apply_writes_mixed ws old x :
  (∀ o, x !! o = old !! o ∨ x !! o = apply_writes ws old !! o) → apply_writes ws x = apply_writes ws old.
Proof.
  intros Hx. apply map_eq. intros o. destruct (apply_writes_lookup ws o x old) as [?|[H1 H2]]; [done|].
  rewrite H1. destruct (Hx o) as [->| ->]; [by rewrite H2|done].
Qed.

(** A computation that makes these writes and returns. *)
Definition writes {E A} (m : M UTXO E A) (ws : list (COutPoint * option Coin)) (P : A → Prop) : Prop :=
  ∀ u, ∃ a best, m u = (mkUTXO (apply_writes ws (utxo u)) best, inl a) ∧ P a.

Lemma writes_ret {E A} (a : A) (P : A → Prop) : P a → writes (E := E) (mret a) [] P.
Proof. intros Ha [m best]. by exists a, best. Qed.

Lemma writes_then {E A B} (m : M UTXO E A) (f : A → M UTXO E B) ws1 ws2 P Q :
  writes m ws1 P → (∀ a, P a → writes (f a) ws2 Q) → writes (mthen m f) (ws1 ++ ws2) Q.
Proof.
  intros Hm Hf u. destruct (Hm u) as (a & best & E1 & Ha).
  destruct (Hf a Ha (mkUTXO (apply_writes ws1 (utxo u)) best)) as (b & best' & E2 & Hb).
  exists b, best'. unfold mthen. rewrite E1, E2, apply_writes_app. done.
Qed.

Lemma writes_impl {E A} (m : M UTXO E A) ws (P Q : A → Prop) :
  writes m ws P → (∀ a, P a → Q a) → writes m ws Q.
Proof. intros Hm HPQ u. destruct (Hm u) as (a & best & E1 & Ha). eauto. Qed.

Lemma writes_spend {E} o (P : option Coin → Prop) :
  (∀ r, P r) → writes (E := E) (lift (SpendCoin o)) [(o, None)] P.
Proof. intros HP u. exists (utxo u !! o), (utxo_best u). split; [done|apply HP]. Qed.

(** Adding a coin with leave to overwrite what is there. *)
Lemma writes_add {E A} (e : E) (c : Coin) o (f : bool → A) :
  IsSpent c = false → IsUnspendable (scriptPubKey (out c)) = false →
  writes (have <- lift (HaveCoin o) ;; attempt e (AddCoin o c have) ;;; mret (f have)) [(o, Some c)]
    (λ _, True).
Proof.
  intros H1 H2 u. set (have := bool_decide (is_Some (utxo u !! o))). exists (f have), (utxo_best u).
  split; [|done]. unfold mthen, lift, attempt. cbn [HaveCoin AddCoin UTXO_ops]. rewrite H1, H2.
  fold have. by destruct have.
Qed.

Lemma writes_ApplyTxInUndo c o :
  coin_ok c → writes (ApplyTxInUndo c o) [(o, Some c)] (λ r, r ≠ DISCONNECT_FAILED).
Proof.
  intros [H1 H2 H3] u. unfold ApplyTxInUndo, mthen, lift, attempt. cbn [HaveCoin AddCoin UTXO_ops].
  set (have := bool_decide (is_Some (utxo u !! o))).
  rewrite (proj2 (Z.eqb_neq (coin_nHeight c) 0)) by lia. unfold mret. rewrite H1, H2, negb_involutive. fold have.
  destruct have; by eexists _, _.
Qed.

(** *** Disconnecting *)

Definition spendable_keys (txid : Z) : nat → list CTxOut → list COutPoint :=
  fix go i outs :=
    match outs with
    | [] => []
    | x :: outs' =>
        if IsUnspendable (scriptPubKey x) then go (S i) outs'
        else mkOutPoint txid (u32 (Z.of_nat i)) :: go (S i) outs'
    end.

Lemma writes_remove_outputs {E} txid h cb exc outs : ∀ i clean,
  writes (E := E) (remove_outputs txid i outs h cb exc clean) ((λ o, (o, None)) <$> spendable_keys txid i outs)
    (λ _, True).
Proof.
  induction outs as [|x outs IH]; intros i clean; cbn [remove_outputs spendable_keys]; [by apply writes_ret|].
  destruct (IsUnspendable _); [apply IH|]. apply (writes_then _ _ [_] _ (λ _, True)); [by apply writes_spend|].
  intros r _. apply IH.
Qed.

Lemma writes_restore_inputs l : Forall coin_ok l.*2 → ∀ clean,
  writes (restore_inputs l clean) ((λ p, (prevout p.1, Some p.2)) <$> l) is_Some.
Proof.
  induction l as [|[i c] l IH]; intros Hok clean; cbn [restore_inputs]; [apply writes_ret; eauto|].
  apply Forall_cons in Hok as [Hc Hok]. eapply (writes_then _ _ [_]); [by apply writes_ApplyTxInUndo|].
  intros [] Hr; [by apply IH..|done].
Qed.

(** The undo data fits the transaction. *)
Definition undo_fits (tx : CTransaction) (txundo : option CTxUndo) : Prop :=
  match txundo with Some cs => length cs = length (vin tx) ∧ Forall coin_ok cs | None => True end.

Definition undo_writes (SHA256d : list Z → Z) (p : CTransaction * option CTxUndo)
    : list (COutPoint * option Coin) :=
  ((λ o, (o, None)) <$> spendable_keys (GetTxid SHA256d p.1) 0 (vout p.1)) ++
  match p.2 with
  | Some cs => (λ q, (prevout q.1, Some q.2)) <$> reverse (zip (vin p.1) cs)
  | None => []
  end.

Lemma writes_disconnect_txs SHA256d h enforce txs : Forall (λ p, undo_fits p.1 p.2) txs → ∀ clean,
  writes (disconnect_txs SHA256d txs h enforce clean) (txs ≫= undo_writes SHA256d) is_Some.
Proof.
  induction 1 as [|[tx txundo] txs Hfit Htxs IH]; intros clean; cbn [disconnect_txs]; [apply writes_ret; eauto|].
  rewrite bind_cons. unfold undo_writes at 1. cbn [fst snd] in *. rewrite <- app_assoc.
  eapply writes_then; [apply writes_remove_outputs|]. intros clean1 _.
  apply (writes_then _ _ _ _ is_Some).
  - destruct txundo as [cs|]; [|apply writes_ret; eauto]. destruct Hfit as [Hl Hc].
    rewrite (proj2 (Nat.eqb_eq _ _)) by done. cbn [negb]. apply writes_restore_inputs.
    rewrite fmap_reverse, snd_zip by lia. by apply Forall_reverse.
  - intros r [clean2 ->]. apply IH.
Qed.

Lemma writes_DisconnectBlock SHA256d disk h b prev vtx undo :
  disk.1 !! h = Some b → pprev b = Some prev → UndoReadFromDisk disk h = Some undo →
  length vtx = S (length undo) → Forall (λ p, undo_fits p.1 p.2) (with_undo vtx undo) →
  writes (DisconnectBlock SHA256d disk h vtx) (reverse (with_undo vtx undo) ≫= undo_writes SHA256d)
    (λ r, r ≠ DISCONNECT_FAILED).
Proof.
  intros Hb Hp Hu Hl Hfit. unfold DisconnectBlock. rewrite Hu, Hb, Hp.
  rewrite (proj2 (Nat.eqb_eq _ _)) by lia. cbn [negb].
  rewrite <- (app_nil_r (_ ≫= _)). eapply writes_then; [apply writes_disconnect_txs; by apply Forall_reverse|].
  intros r [clean ->] u. eexists _, prev. split; [done|]. by destruct clean.
Qed.

(** *** Rolling forward *)

Fixpoint output_writes (txid : Z) (i : nat) (outs : list CTxOut) (h : Z) (cb : bool)
    : list (COutPoint * option Coin) :=
  match outs with
  | [] => []
  | x :: outs' =>
      if IsUnspendable (scriptPubKey x) then output_writes txid (S i) outs' h cb
      else (mkOutPoint txid (u32 (Z.of_nat i)), Some (NewCoin x h cb)) :: output_writes txid (S i) outs' h cb
  end.

Definition forward_writes (SHA256d : list Z → Z) (h : Z) (tx : CTransaction) : list (COutPoint * option Coin) :=
  ((λ o, (o, None)) <$> (prevout <$> inputs_of tx)) ++
  output_writes (GetTxid SHA256d tx) 0 (vout tx) h (IsCoinBase tx).

Lemma writes_spend_all {E} ins :
  writes (E := E) (spend_all ins) ((λ o, (o, None)) <$> (prevout <$> ins)) (λ _, True).
Proof.
  induction ins as [|i ins IH]; cbn [spend_all fmap list_fmap]; [by apply writes_ret|].
  apply (writes_then _ _ [_] _ (λ _, True)); [by apply writes_spend|]. by intros _ _.
Qed.

Lemma writes_add_outputs txid h cb outs : Forall (λ o, CTxOut_IsNull o = false) outs → ∀ i,
  writes (add_outputs txid i outs h cb true) (output_writes txid i outs h cb) (λ _, True).
Proof.
  induction 1 as [|x outs Hx Hxs IH]; intros i; cbn [add_outputs output_writes]; [by apply writes_ret|].
  assert (Hs : IsSpent (NewCoin x h cb) = false) by exact Hx.
  destruct (IsUnspendable (scriptPubKey x)) eqn:Hun.
  - rewrite <- (app_nil_l (output_writes _ _ _ _ _)). eapply (writes_then _ _ [] _ (λ _, True)).
    { intros [m best]. by eexists _, best. }
    intros have _. eapply (writes_then _ _ [] _ (λ _, True)); [|intros _ _; apply IH].
    intros [m best]. exists tt, best. split; [|done]. unfold attempt. cbn [AddCoin UTXO_ops].
    rewrite Hs. change (out (NewCoin x h cb)) with x. by rewrite Hun.
  - intros u. destruct (writes_add (E := Failure) Abort (NewCoin x h cb) (mkOutPoint txid (u32 (Z.of_nat i))) (λ _, tt)
      Hs Hun u) as (a & best & E1 & _).
    destruct (IH (S i) (mkUTXO (apply_writes [(mkOutPoint txid (u32 (Z.of_nat i)), Some (NewCoin x h cb))] (utxo u)) best))
      as ([] & best' & E2 & _).
    exists tt, best'. split; [|done]. unfold mthen in *.
    destruct (lift _ u) as [u1 [have|]]; [|done].
    destruct (attempt _ _ u1) as [u2 [[]|]]; [|done]. injection E1 as -> _. exact E2.
Qed.

Lemma writes_rollforward_txs SHA256d h vtx :
  Forall (λ tx, Forall (λ o, CTxOut_IsNull o = false) (vout tx)) vtx →
  writes (rollforward_txs SHA256d vtx h) (vtx ≫= forward_writes SHA256d h) (λ _, True).
Proof.
  induction 1 as [|tx vtx Htx Hvtx IH]; cbn [rollforward_txs]; [by apply writes_ret|].
  rewrite bind_cons. unfold forward_writes at 1. rewrite <- app_assoc.
  eapply (writes_then _ _ _ _ (λ _, True)).
  - unfold inputs_of. destruct (IsCoinBase tx); [by apply writes_ret|apply writes_spend_all].
  - intros _ _. eapply (writes_then _ _ _ _ (λ _, True)); [by apply writes_add_outputs|]. by intros _ _.
Qed.

Lemma apply_deletes ks (m : gmap COutPoint Coin) o :
  apply_writes ((λ o, (o, None)) <$> ks) m !! o = if decide (o ∈ ks) then None else m !! o.
Proof.
  revert m. induction ks as [|k ks IH]; intros m; [done|]. cbn [fmap list_fmap]. unfold apply_writes. cbn [foldl].
  fold (apply_writes ((λ o, (o, None)) <$> ks) (apply_write m (k, None))). rewrite IH, apply_write_lookup.
  cbn [fst snd]. repeat case_decide; repeat case_bool_decide; set_solver.
Qed.

Lemma apply_outputs txid h cb outs : ∀ i (m : gmap COutPoint Coin), indices_fit i outs →
  apply_writes (output_writes txid i outs h cb) m = new_coins txid i outs h cb ∪ m.
Proof.
  induction outs as [|x outs IH]; intros i m Hfit; cbn [output_writes new_coins].
  { by rewrite (left_id_L ∅ (∪)). }
  assert (Hfit' : indices_fit (S i) outs) by (unfold indices_fit in *; cbn [length] in Hfit; lia).
  destruct (IsUnspendable _); [by apply IH|]. unfold apply_writes. cbn [foldl]. unfold apply_writes in IH.
  rewrite IH by done. unfold apply_write. cbn [fst snd]. rewrite <- insert_union_l. symmetry. apply insert_union_r.
  apply eq_None_not_Some. intros [c (k & y & Hk & E & _)%new_coins_lookup]; [|done]. injection E as E.
  unfold wrap, indices_fit in *. cbn [length] in Hfit. rewrite Z.mod_small in E by lia. lia.
Qed.

(** On the map before the block this is the effect of the block. *)
Lemma forward_effect SHA256d h tx u u1 cs :
  tx_effect SHA256d h tx u u1 cs → tx_ok tx → apply_writes (forward_writes SHA256d h tx) u = u1.
Proof.
  intros [Hf Hnd _ ->] Hok. unfold forward_writes. rewrite apply_writes_app, apply_outputs by (by apply tx_ok_indices).
  f_equal. apply map_eq. intros o. rewrite apply_deletes, lookup_difference. case_decide as Hin.
  - apply list_elem_of_fmap in Hin as (i & -> & Hi). apply list_elem_of_lookup in Hi as Hk. destruct Hk as [k Hk].
    destruct (Forall2_lookup_l _ _ _ _ _ Hf Hk) as (c & _ & Hc).
    by rewrite (proj2 (spent_coins_lookup _ _ (prevout i) c u Hnd Hf)) by eauto.
  - destruct (spent_coins (inputs_of tx) cs !! o) as [c|] eqn:Hs; [|done]. exfalso.
    apply (spent_coins_lookup _ _ o c u Hnd Hf) in Hs as (i & Hi & <- & _). by apply Hin, list_elem_of_fmap_2.
Qed.

Lemma forward_effects SHA256d h vtx : ∀ u u' css fees,
  effects SHA256d h vtx u u' css fees → Forall tx_ok vtx →
  apply_writes (vtx ≫= forward_writes SHA256d h) u = u'.
Proof.
  induction vtx as [|tx vtx IH]; intros u u' css fees He Hok; inversion He; subst; [done|].
  apply Forall_cons in Hok as [Hok1 Hok]. rewrite bind_cons, apply_writes_app.
  erewrite forward_effect by done. by eapply IH.
Qed.

(** ** The map of a chain *)

Section chain.
Context (SHA256d : list Z → Z) (params : Params) (cparams : ConnectParams).
(** The transactions of each block, and how the disk answers for a block. *)
Context (contents : Z → list CTransaction) (disk : Disk) (ReadBlock : Z → option CBlock).

(** The unspent outputs after the blocks from the genesis block, whose outputs do not count,
    to [h]. *)
Inductive chain_coins : Z → gmap COutPoint Coin → Prop :=
  | chain_root h b : disk.1 !! h = Some b → pprev b = None → chain_coins h ∅
  | chain_block h b prev u u' css fees :
      disk.1 !! h = Some b → pprev b = Some prev → chain_coins prev u →
      connected SHA256d params cparams disk.1 h b prev (contents h) u u' css fees →
      Forall tx_ok (contents h) → 0 < nHeight b < 2 ^ 31 →
      enforce_BIP30 params cparams disk.1 h b prev = true →
      (UndoReadFromDisk disk h = None ∨ UndoReadFromDisk disk h = Some (tail css)) →
      chain_coins h u'.

Lemma chain_coins_unique h u : chain_coins h u → ∀ u', chain_coins h u' → u = u'.
Proof.
  induction 1 as [h b Hb Hp|h b prev u u' css fees Hb Hp _ IH Hc Ht Hh H30 Hr];
    intros v Hv; inversion Hv as [h2 b2 Hb2 Hp2|h2 b2 prev2 w w' css2 fees2 Hb2 Hp2 Hw Hc2]; subst; try congruence.
  assert (b2 = b) as -> by congruence. assert (prev2 = prev) as -> by congruence.
  apply IH in Hw as <-. destruct Hc as [He _ _ _ _], Hc2 as [He2 _ _ _ _].
  by destruct (effects_unique _ _ _ _ _ _ _ _ _ _ He He2).
Qed.

Lemma chain_coins_ancestor n : ∀ h u a, chain_coins h u → prev_n disk.1 n h = Some a → ∃ ua, chain_coins a ua.
Proof.
  induction n as [|n IH]; intros h u a Hc Ha; [injection Ha as <-; eauto|]. cbn [prev_n] in Ha.
  inversion Hc as [h2 b Hb Hp|h2 b prev v v' css fees Hb Hp Hv]; subst; rewrite Hb in Ha; simpl in Ha;
    rewrite Hp in Ha; [done|]. by eapply IH.
Qed.

Lemma effects_coins h vtx : ∀ u u' css fees,
  effects SHA256d h vtx u u' css fees → Forall tx_ok vtx → coins_ok u → 0 < h < 2 ^ 31 →
  Forall (λ tx, Forall (λ o, CTxOut_IsNull o = false) (vout tx)) vtx →
  coins_ok u' ∧ Forall2 (λ tx cs, length cs = length (inputs_of tx) ∧ Forall coin_ok cs) vtx css.
Proof.
  induction vtx as [|tx vtx IH]; intros u u' css fees He Hok Hu Hh Hn;
    inversion He as [|? ? ? u1 ? cs css' fee fees' He1 Hr He2]; subst; [by split|].
  apply Forall_cons in Hok as [Hok1 Hok], Hn as [Hn1 Hn].
  assert (Hu1 : coins_ok u1) by (by eapply tx_effect_coins).
  destruct (IH _ _ _ _ He2 Hok Hu1 Hh Hn) as [H1 H2]. split; [done|]. constructor; [|done].
  destruct He1 as [Hf _ _ _]. split; [symmetry; by eapply Forall2_length|].
  apply Forall_forall. intros c [k Hk]%list_elem_of_lookup.
  destruct (Forall2_lookup_r _ _ _ _ _ Hf Hk) as (i & _ & Hi). by apply (Hu (prevout i)).
Qed.

Lemma chain_coins_ok h u : chain_coins h u → coins_ok u.
Proof.
  induction 1 as [h b Hb Hp|h b prev u u' css fees Hb Hp _ IH [He _ _ Hn _] Ht Hh H30 Hr].
  - intros o c. by rewrite lookup_empty.
  - by eapply effects_coins.
Qed.

(** What the disk has to hold of a block to disconnect it, or to roll forward over it. *)
Definition readable (h : Z) : Prop := ∃ block, ReadBlock h = Some block ∧ blk_vtx block = contents h.

Definition undoable (h : Z) : Prop := readable h ∧ is_Some (UndoReadFromDisk disk h).

(** *** One block *)

Abbreviation replays m u u' :=
  (∃ ws, writes m ws (eq true) ∧ apply_writes ws u = u').

Lemma disconnect_block h b prev u u' :
  chain_coins h u' → disk.1 !! h = Some b → pprev b = Some prev → chain_coins prev u → undoable h →
  ∃ block ws, ReadBlock h = Some block ∧ blk_vtx block = contents h ∧
    writes (DisconnectBlock SHA256d disk h (blk_vtx block)) ws (λ r, r ≠ DISCONNECT_FAILED) ∧
    apply_writes ws u' = u.
Proof.
  intros Hc Hb Hp Hu [(block & Hread & Hvtx) [undo Hundo]].
  inversion Hc as [h2 b2 Hb2 Hp2|h2 b2 prev2 v v' css fees Hb2 Hp2 Hv Hcn Ht Hh H30 Hr]; subst; [congruence|].
  assert (b2 = b) as -> by congruence. assert (prev2 = prev) as -> by congruence.
  rewrite (chain_coins_unique _ _ Hv u Hu) in Hcn.
  assert (undo = tail css) as -> by (destruct Hr; congruence).
  pose proof (effects_length _ _ _ _ _ _ _ (cn_effects _ _ _ _ _ _ _ _ _ _ _ _ Hcn)) as Hl.
  exists block, (reverse (with_undo (contents h) (tail css)) ≫= undo_writes SHA256d).
  split; [done|]. split; [done|]. rewrite Hvtx.
  assert (Hlen : length (contents h) = S (length (tail css))).
  { destruct (cn_coinbase _ _ _ _ _ _ _ _ _ _ _ _ Hcn) as (cb & rest & E & _). rewrite E in *.
    destruct css; simpl in *; lia. }
  assert (Hw : writes (DisconnectBlock SHA256d disk h (contents h))
    (reverse (with_undo (contents h) (tail css)) ≫= undo_writes SHA256d) (λ r, r ≠ DISCONNECT_FAILED)).
  { apply (writes_DisconnectBlock _ _ _ b prev); [done..|].
    destruct (effects_coins _ _ _ _ _ _ (cn_effects _ _ _ _ _ _ _ _ _ _ _ _ Hcn) Ht (chain_coins_ok _ _ Hu) Hh
      (cn_not_null _ _ _ _ _ _ _ _ _ _ _ _ Hcn)) as [_ Hf].
    destruct (cn_coinbase _ _ _ _ _ _ _ _ _ _ _ _ Hcn) as (cb & rest & E & _ & Hrest & _). rewrite E in *.
    inversion Hf as [|? cs ? css' _ Hf']; subst. cbn [with_undo tail]. constructor; [done|].
    clear -Hf' Hrest. induction Hf' as [|tx c rest css [H1 H2] _ IH]; [constructor|].
    apply Forall_cons in Hrest as [Hcb Hrest]. unfold inputs_of in H1. rewrite Hcb in H1.
    constructor; [done|by apply IH]. }
  split; [exact Hw|].
  destruct (undo_block SHA256d params cparams disk.1 h b prev (contents h) u u' css fees
    (negb (bip30_overwritten (nHeight b) h)) h Hcn H30 Ht (chain_coins_ok _ _ Hu) Hh) as [Hd _].
  destruct (Hw (mkUTXO u' h)) as (r & best & E & _). cbn [utxo] in E.
  unfold DisconnectBlock in E. rewrite Hundo, Hb, Hp, (proj2 (Nat.eqb_eq _ _)) in E by lia. cbn [negb] in E.
  unfold mthen in E. rewrite Hd in E. by injection E as E _ _.
Qed.

Lemma forward_block h b prev u u' :
  chain_coins h u' → disk.1 !! h = Some b → pprev b = Some prev → chain_coins prev u → readable h →
  ∃ block ws, ReadBlock h = Some block ∧ blk_vtx block = contents h ∧
    writes (RollforwardBlock SHA256d ReadBlock disk.1 h) ws (eq true) ∧ apply_writes ws u = u'.
Proof.
  intros Hc Hb Hp Hu (block & Hread & Hvtx).
  inversion Hc as [h2 b2 Hb2 Hp2|h2 b2 prev2 v v' css fees Hb2 Hp2 Hv Hcn Ht Hh H30 Hr]; subst; [congruence|].
  assert (b2 = b) as -> by congruence. assert (prev2 = prev) as -> by congruence.
  rewrite (chain_coins_unique _ _ Hv u Hu) in Hcn. destruct Hcn as [He _ _ Hn _].
  exists block, (contents h ≫= forward_writes SHA256d (nHeight b)). split_and!; [done|done| |by eapply forward_effects].
  unfold RollforwardBlock. rewrite Hb, Hread, Hvtx. rewrite <- (app_nil_r (_ ≫= _)).
  eapply writes_then; [by apply writes_rollforward_txs|]. intros _ _. by apply writes_ret.
Qed.

(** *** The branches *)

Context (Hchain : chain_ok disk.1) (Hzero : disk.1 !! 0 = None).

Lemma roll_back_exact fuel : ∀ n h u f uf, (n <= fuel)%nat →
  chain_coins h u → prev_n disk.1 n h = Some f → chain_coins f uf →
  (∀ m a, (m < n)%nat → prev_n disk.1 m h = Some a → undoable a) →
  replays (roll_back SHA256d ReadBlock fuel disk (Some h) (Some f)) u uf.
Proof.
  induction fuel as [|fuel IH]; intros n h u f uf Hn Hc Hf Huf Hav.
  { assert (n = 0%nat) as -> by lia. injection Hf as <-. exists [].
    cbn [roll_back]. rewrite bool_decide_eq_true_2 by done. split; [by apply writes_ret|].
    by apply (chain_coins_unique h). }
  cbn [roll_back]. destruct n as [|n].
  { injection Hf as <-. exists []. rewrite bool_decide_eq_true_2 by done.
    split; [by apply writes_ret|]. by apply (chain_coins_unique h). }
  cbn [prev_n] in Hf. apply bind_Some in Hf as (b & Hb & Hf). apply bind_Some in Hf as (prev & Hp & Hf).
  destruct (ck_prev _ Hchain _ _ _ Hb Hp) as (bp & Hbp & Hhp). pose proof (ck_height _ Hchain _ _ Hbp) as Hh0.
  destruct (prev_n_le _ _ Hchain _ _ _ Hbp Hf) as (Hlt & bf & Hbf & Hhf).
  rewrite bool_decide_eq_false_2.
  2:{ intros [= ->]. rewrite Hb in Hbf. injection Hbf as ->. lia. }
  rewrite Hb, (proj2 (Z.ltb_lt 0 (nHeight b))) by lia.
  destruct (chain_coins_ancestor 1 h u prev Hc) as [up Hup]; [cbn [prev_n]; rewrite Hb; simpl; by rewrite Hp|].
  destruct (disconnect_block h b prev up u Hc Hb Hp Hup) as (block & ws & Hread & _ & Hw & Hex);
    [apply (Hav 0%nat); [lia|done]|].
  destruct (IH n prev up f uf) as (ws' & Hw' & Hex'); [lia|done|done|done| |].
  { intros m a Hm Ha. apply (Hav (S m)); [lia|]. cbn [prev_n]. rewrite Hb. simpl. by rewrite Hp. }
  exists (ws ++ ws'). rewrite Hread. split.
  - eapply (writes_then _ _ _ _ (eq true)).
    + rewrite <- (app_nil_r ws). eapply writes_then; [exact Hw|]. intros r Hr. apply writes_ret.
      by rewrite bool_decide_eq_false_2.
    + intros ok <-. by rewrite Hp.
  - by rewrite apply_writes_app, Hex.
Qed.

Lemma ancestor_step new bn k :
  disk.1 !! new = Some bn → 0 <= k < nHeight bn →
  ∃ a ba prev, GetAncestor disk.1 new (k + 1) = Some a ∧ disk.1 !! a = Some ba ∧ pprev ba = Some prev ∧
    GetAncestor disk.1 new k = Some prev.
Proof.
  intros Hb Hk. rewrite !(GetAncestor_prev_n _ new bn) by (done || lia).
  destruct (prev_n_height _ (Z.to_nat (nHeight bn - (k + 1))) new bn Hchain Hb) as (a & ba & H1 & H2 & H3); [lia|].
  destruct (pprev ba) as [prev|] eqn:Hp; [|pose proof (ck_root _ Hchain _ _ H2 Hp); lia].
  exists a, ba, prev. split_and!; [done..|].
  replace (Z.to_nat (nHeight bn - k)) with (Z.to_nat (nHeight bn - (k + 1)) + 1)%nat by lia.
  rewrite prev_n_add, H1. cbn. rewrite H2. simpl. by rewrite Hp.
Qed.

Lemma roll_forward_exact new bn unew : disk.1 !! new = Some bn → chain_coins new unew → ∀ count k a u,
  0 <= k → k + Z.of_nat count = nHeight bn → GetAncestor disk.1 new k = Some a → chain_coins a u →
  (∀ j c, k < j → GetAncestor disk.1 new j = Some c → readable c) →
  ∃ ws, writes (roll_forward SHA256d ReadBlock count disk.1 new (k + 1)) ws (eq true) ∧ apply_writes ws u = unew.
Proof.
  intros Hb Hnew. induction count as [|count IH]; intros k a u Hk Hsum Ha Hu Hav; cbn [roll_forward].
  - exists []. split; [by apply writes_ret|]. rewrite (GetAncestor_prev_n _ new bn) in Ha by (done || lia).
    replace (Z.to_nat (nHeight bn - k)) with 0%nat in Ha by lia. injection Ha as <-. by apply (chain_coins_unique new).
  - destruct (ancestor_step new bn k Hb) as (c & bc & prev & Hc & Hbc & Hp & Hprev); [lia|].
    assert (prev = a) as -> by congruence.
    assert (Hcc : ∃ uc, chain_coins c uc).
    { rewrite (GetAncestor_prev_n _ new bn) in Hc by (done || lia). exact (chain_coins_ancestor _ new unew c Hnew Hc). }
    destruct Hcc as [uc Huc]. rewrite Hc.
    destruct (forward_block c bc a u uc Huc Hbc Hp Hu) as (block & ws & _ & _ & Hw & Ew);
      [apply (Hav (k + 1)); [lia|done]|].
    destruct (IH (k + 1) c uc) as (ws' & Hw' & Ew'); [lia|lia|done|done| |].
    { intros j d Hj. apply Hav. lia. }
    exists (ws ++ ws'). split; [|by rewrite apply_writes_app, Ew].
    eapply writes_then; [exact Hw|]. by intros ok <-.
Qed.

(** *** On a cache *)

Context (Hnull : ∀ h block, ReadBlock h = Some block →
  Forall (λ tx, Forall (λ o, CTxOut_IsNull o = false) (vout tx)) (blk_vtx block)).

Section sim_replay.
Context {V : Type} `{!CCoinsView V, !CoinsViewOk V} {W : Z → Prop}.

Lemma sim_spend_all {E} (bad : E → Prop) ins : sim (V := V) (W := W) bad (spend_all ins) (spend_all ins).
Proof.
  induction ins; cbn [spend_all]; [sim_auto|]. apply sim_SpendCoin; [sim_auto|]. intros u. by right.
Qed.

Lemma sim_rollforward_txs h vtx :
  sim (V := V) (W := W) aborts (rollforward_txs SHA256d vtx h) (rollforward_txs SHA256d vtx h).
Proof.
  pose proof @sim_spend_all. pose proof @sim_add_outputs.
  induction vtx; cbn [rollforward_txs]; unfold AddCoins; sim_auto.
Qed.

Lemma sim_roll_forward st new count : ∀ h,
  sim (V := V) (W := W) aborts (roll_forward SHA256d ReadBlock count st new h)
    (roll_forward SHA256d ReadBlock count st new h).
Proof.
  pose proof sim_rollforward_txs.
  induction count; intros h; cbn [roll_forward]; unfold RollforwardBlock; sim_auto.
Qed.

Lemma sim_roll_back fuel : ∀ old fork,
  sim (V := V) (W := W) aborts (roll_back SHA256d ReadBlock fuel disk old fork)
    (roll_back SHA256d ReadBlock fuel disk old fork).
Proof.
  induction fuel as [|fuel IH]; intros old fork; cbn [roll_back]; [sim_auto|].
  destruct (bool_decide _); [sim_auto|]. destruct old as [h|]; [|sim_auto].
  destruct (disk.1 !! h) as [b|] eqn:Hb; [|sim_auto]. apply sim_then; [|sim_auto].
  destruct (0 <? nHeight b); [|sim_auto]. destruct (ReadBlock h) as [block|] eqn:Hr; [|sim_auto].
  apply sim_then; [|sim_auto]. apply sim_DisconnectBlock; [|by apply (Hnull h)].
  intros b' Hb' Hp. destruct (ck_prev _ Hchain _ _ _ Hb' Hp) as (bp & Hbp & _). congruence.
Qed.

Lemma sim_replay old fork new :
  sim (V := V) (W := W) aborts (replay_branches SHA256d ReadBlock disk old fork new)
    (replay_branches SHA256d ReadBlock disk old fork new).
Proof.
  unfold replay_branches. apply sim_then; [apply sim_roll_back|]. intros [|]; [apply sim_roll_forward|sim_auto].
Qed.
End sim_replay.

(** *** From the old tip to the new one *)

(** The tip of the store before a flush, if there was one, and the blocks of its chain. *)
Definition tip_coins (old : option Z) (u : gmap COutPoint Coin) : Prop :=
  match old with Some h => chain_coins h u | None => u = ∅ end.

Definition on_chain (old : option Z) (a : Z) : Prop :=
  match old with
  | Some h => ∃ n, prev_n disk.1 n h = Some a
  | None => ∃ b, disk.1 !! a = Some b ∧ pprev b = None
  end.

(** The disk has what is needed to go from one tip to the other. *)
Definition branches_on_disk (old : option Z) (new : Z) : Prop :=
  (∀ a, on_chain old a → ¬ on_chain (Some new) a → undoable a) ∧
  (∀ a, on_chain (Some new) a → ¬ on_chain old a → readable a).

(** The fork that [ReplayBlocks] finds. *)
Definition fork_of (old : option Z) (new : Z) (fork : option Z) : Prop :=
  match old, fork with
  | None, None => True
  | Some o, Some f =>
      (∃ i, prev_n disk.1 i o = Some f) ∧ (∃ j, prev_n disk.1 j new = Some f) ∧
      ∀ a, on_chain (Some o) a → on_chain (Some new) a → ∃ k, prev_n disk.1 k f = Some a
  | _, _ => False
  end.

Lemma above_fork f bf a ba k :
  disk.1 !! f = Some bf → disk.1 !! a = Some ba → nHeight bf < nHeight ba → prev_n disk.1 k f ≠ Some a.
Proof.
  intros Hf Ha Hlt Hk. destruct (prev_n_le _ _ Hchain _ _ _ Hf Hk) as (_ & ba' & Hba' & Hh).
  replace ba' with ba in Hh by congruence. lia.
Qed.

Lemma GetAncestor_inv new bn k a :
  disk.1 !! new = Some bn → 0 <= k → GetAncestor disk.1 new k = Some a →
  on_chain (Some new) a ∧ ∃ ba, disk.1 !! a = Some ba ∧ nHeight ba = k.
Proof.
  intros Hbn Hk Ha. destruct (decide (k <= nHeight bn)) as [Hkb|Hkb].
  2:{ unfold GetAncestor in Ha. rewrite Hbn, (proj2 (Z.ltb_lt _ _)) in Ha by lia. done. }
  rewrite (GetAncestor_prev_n _ new bn) in Ha by (done || lia). split; [by eexists|].
  destruct (prev_n_le _ _ Hchain _ _ _ Hbn Ha) as (_ & ba & Hba & Hha). exists ba. split; [done|lia].
Qed.

(** The first flush: forward from the genesis block. *)
Lemma replay_first new bn unew :
  disk.1 !! new = Some bn → chain_coins new unew → branches_on_disk None new →
  replays (replay_branches SHA256d ReadBlock disk None None new) ∅ unew.
Proof.
  intros Hbn Hnew [_ Hread]. pose proof (ck_height _ Hchain _ _ Hbn) as Hh0.
  unfold replay_branches. cbn [mbind option_bind]. rewrite Hbn. cbn [fmap option_fmap option_map default].
  destruct (prev_n_height _ (Z.to_nat (nHeight bn)) new bn Hchain Hbn) as (r & br & Hr & Hbr & Hhr); [lia|].
  assert (Hroot : pprev br = None).
  { destruct (pprev br) as [p|] eqn:Hp; [|done]. destruct (ck_prev _ Hchain _ _ _ Hbr Hp) as (bp & Hbp & ?).
    pose proof (ck_height _ Hchain _ _ Hbp). lia. }
  destruct (roll_forward_exact new bn unew Hbn Hnew (Z.to_nat (nHeight bn - 0)) 0 r ∅) as (ws & Hw & Ew);
    [lia|lia| |by eapply chain_root| |].
  { rewrite (GetAncestor_prev_n _ new bn) by (done || lia). by rewrite Z.sub_0_r. }
  { intros k a Hk Ha. destruct (GetAncestor_inv new bn k a Hbn ltac:(lia) Ha) as (Hon & ba & Hba & Hha).
    apply Hread; [done|]. intros (ba' & Hba' & Hpa). assert (ba' = ba) as -> by congruence.
    rewrite (ck_root _ Hchain _ _ Hba Hpa) in Hha. lia. }
  exists ws. split; [|done]. cbn [roll_back]. rewrite bool_decide_eq_true_2 by done.
  by apply (writes_then _ _ [] _ (eq true)); [apply writes_ret|intros ok <-].
Qed.

Lemma replay_exact old fork new bn uold unew :
  disk.1 !! new = Some bn → chain_coins new unew → tip_coins old uold → fork_of old new fork →
  branches_on_disk old new → replays (replay_branches SHA256d ReadBlock disk old fork new) uold unew.
Proof.
  intros Hbn Hnew Hold Hfork Hdisk. destruct old as [o|], fork as [f|]; try done; cbn [fork_of tip_coins] in *;
    [|subst uold; by apply (replay_first new bn)].
  destruct Hfork as ([i Hi] & [j Hj] & Hmax), Hdisk as [Hundo Hread].
  destruct (chain_coins_ancestor i o uold f Hold Hi) as [uf Huf].
  assert (Ho : is_Some (disk.1 !! o)) by (inversion Hold; eauto). destruct Ho as [bo Hbo].
  destruct (prev_n_le _ _ Hchain _ _ _ Hbo Hi) as (Hi1 & bf & Hbf & Hhf).
  destruct (prev_n_le _ _ Hchain _ _ _ Hbn Hj) as (Hj1 & bf' & Hbf' & Hhf'). assert (bf' = bf) as -> by congruence.
  pose proof (ck_height _ Hchain _ _ Hbf). unfold replay_branches.
  cbn [mbind option_bind]. rewrite Hbo, Hbf, Hbn. cbn [fmap option_fmap option_map default].
  destruct (roll_back_exact (S (Z.to_nat (nHeight bo))) i o uold f uf) as (ws & Hw & Ew); [lia|done..| |].
  { intros m a Hm Ha. apply Hundo; [by exists m|]. intros Hon.
    destruct (prev_n_le _ _ Hchain _ _ _ Hbo Ha) as (_ & ba & Hba & Hha).
    destruct (Hmax a) as [k Hk]; [by exists m|done|]. by apply (above_fork f bf a ba k Hbf Hba); [lia|]. }
  destruct (roll_forward_exact new bn unew Hbn Hnew (Z.to_nat (nHeight bn - nHeight bf)) (nHeight bf) f uf)
    as (ws' & Hw' & Ew'); [lia|lia| |done| |].
  { rewrite (GetAncestor_prev_n _ new bn) by (done || lia). rewrite <- Hj. f_equal. lia. }
  { intros k a Hk Ha. destruct (GetAncestor_inv new bn k a Hbn ltac:(lia) Ha) as (Hon & ba & Hba & Hha).
    apply Hread; [done|]. intros Ho. destruct (Hmax a) as [q Hq]; [done|done|].
    by apply (above_fork f bf a ba q Hbf Hba); [lia|]. }
  exists (ws ++ ws'). split; [eapply writes_then; [exact Hw|]; by intros ok <-|].
  by rewrite apply_writes_app, Ew.
Qed.

(** *** Recovery *)

Section recovery.
Context (too_large : list batch_op → bool).
#[local] Instance recovery_view : CCoinsView CCoinsViewDB := DB_view too_large.
#[local] Instance recovery_view_ok : CoinsViewOk CCoinsViewDB := DB_view_ok too_large.

(** The tip of a store that no flush has touched. *)
Definition store_tip (db : CCoinsViewDB) : option Z :=
  if DB_GetBestBlock db =? 0 then None else Some (DB_GetBestBlock db).

(** The stores that crashes leave: of the flush to [new], and of the flushes of the replays
    after it. *)
Inductive crashed (db : CCoinsViewDB) (new : Z) (unew : gmap COutPoint Coin) : CCoinsViewDB → Prop :=
  | crash_flush es db' :
      NoDup es.*1 → foldl (λ m oe, apply_entry oe m) (db_coins db) es = unew →
      db' ∈ crash_states too_large es new db → crashed db new unew db'
  | crash_replay es db1 db' :
      crashed db new unew db1 → NoDup es.*1 →
      foldl (λ m oe, apply_entry oe m) (db_coins db1) es = unew →
      db' ∈ crash_states too_large es new db1 → crashed db new unew db'.

Lemma crashed_spec db new unew db' :
  new ≠ 0 → db_head_blocks db = None → crashed db new unew db' →
  db' = db ∨
  (db_best_block db' = None ∧ db_head_blocks db' = Some [new; DB_GetBestBlock db] ∧
   ∀ o, db_coins db' !! o = db_coins db !! o ∨ db_coins db' !! o = unew !! o).
Proof.
  intros Hn Hh. induction 1 as [es db' Hnd Hu Hc|es db1 db' _ IH Hnd Hu Hc].
  - destruct (crash_state_spec too_large es new (DB_GetBestBlock db) db db' Hnd) as [?|(H1 & H2 & H3)];
      [by apply old_tip_consistent|done|by left|right]. subst unew. done.
  - destruct IH as [->|(H1 & H2 & H3)].
    + destruct (crash_state_spec too_large es new (DB_GetBestBlock db) db db' Hnd) as [?|(E1 & E2 & E3)];
        [by apply old_tip_consistent|done|by left|right]. subst unew. done.
    + right. destruct (crash_state_spec too_large es new (DB_GetBestBlock db) db1 db' Hnd)
        as [->|(E1 & E2 & E3)]; [|done|done|].
      * unfold old_tip. replace (DB_GetBestBlock db1) with 0 by (unfold DB_GetBestBlock; by rewrite H1).
        unfold GetHeadBlocks. rewrite H2. simpl. by rewrite Z.eqb_refl.
      * split; [done|]. split; [done|]. intros o. destruct (E3 o) as [->| ->]; [apply H3|right; by rewrite Hu].
Qed.

(** What replaying makes of an interrupted store. *)
Lemma replay_interrupted db db' new bn unew fork :
  disk.1 !! new = Some bn → chain_coins new unew → tip_coins (store_tip db) (db_coins db) →
  fork_of (store_tip db) new fork → branches_on_disk (store_tip db) new →
  db_best_block db' = None → db_head_blocks db' = Some [new; DB_GetBestBlock db] →
  (∀ o, db_coins db' !! o = db_coins db !! o ∨ db_coins db' !! o = unew !! o) →
  ∃ cache db'', replay_branches SHA256d ReadBlock disk (store_tip db) fork new (NewCache db') = (cache, inl true) ∧
    Flush (SetBestBlock new cache) = Some db'' ∧
    db_coins (base db'') = unew ∧ db_best_block (base db'') = Some new ∧ db_head_blocks (base db'') = None.
Proof.
  intros Hbn Hnew Hold Hfork Hdisk H1 H2 H3.
  assert (Hn0 : new ≠ 0) by congruence.
  destruct (replay_exact _ _ _ _ _ _ Hbn Hnew Hold Hfork Hdisk) as (ws & Hw & Ew).
  destruct (Hw (mkUTXO (db_coins db') 0)) as (ok & best & E & <-). cbn [utxo] in E.
  rewrite (apply_writes_mixed ws (db_coins db)) in E by (by rewrite Ew). rewrite Ew in E.
  assert (Htip : old_tip db' new = Some (DB_GetBestBlock db)).
  { unfold old_tip. replace (DB_GetBestBlock db') with 0 by (unfold DB_GetBestBlock; by rewrite H1).
    unfold GetHeadBlocks. rewrite H2. simpl. by rewrite Z.eqb_refl. }
  assert (Hok : db_ok db').
  { intros o c Hc. destruct (H3 o) as [Ho|Ho]; rewrite Hc in Ho; symmetry in Ho.
    - unfold tip_coins in Hold. destruct (store_tip db); [by apply (chain_coins_ok _ _ Hold o)|].
      by rewrite Hold, lookup_empty in Ho.
    - by apply (chain_coins_ok _ _ Hnew o). }
  assert (R : refines_for (V := CCoinsViewDB) (λ h, h = new) (NewCache db') (mkUTXO (db_coins db') 0)).
  { destruct (NewCache_ok (V := CCoinsViewDB) (CoinsViewOk0 := DB_view_ok too_large) db' Hok) as (N1 & N2 & N3). split; [done|exact N2| |].
    - etransitivity; [exact N3|]. change (DB_GetBestBlock db' = 0). unfold DB_GetBestBlock. by rewrite H1.
    - intros h ->. by exists (DB_GetBestBlock db). }
  destruct (sim_replay (V := CCoinsViewDB) (store_tip db) fork new _ _ R) as [(e & He & _)|[Er R']];
    [by rewrite E in He|].
  rewrite E in Er, R'. destruct (replay_branches _ _ _ _ _ _ (NewCache db')) as [cache r]. cbn [fst snd] in Er, R'.
  subst r. apply (refines_SetBestBlock _ _ new) in R'; [|done].
  destruct (Flush_spec (SetBestBlock new cache) (rf_ok _ _ _ R')) as (c' & Ef & _ & _ & _ & Ec & _);
    [done|by apply R'|].
  exists cache, c'. split_and!; [done|done| |..].
  - etransitivity; [exact Ec|]. apply R'.
  - unfold Flush in Ef. apply bind_Some in Ef as (d & Ed & [= <-]). by apply DB_BatchWrite_heads in Ed as [? ?].
  - unfold Flush in Ef. apply bind_Some in Ef as (d & Ed & [= <-]). by apply DB_BatchWrite_heads in Ed as [? ?].
Qed.

(** C10. Recovery after crashes.  Let the store be at a tip with the unspent outputs of its
    chain, and let the cache be flushed to it for another tip.  Whatever the sizes of the
    batches, after a crash at any point of this flush, and after any further crashes in the
    flushes of later attempts to recover, [ReplayBlocks] succeeds: either nothing had been
    written and the store is left as it was, or it ends with exactly the unspent outputs of
    the chain of the new tip, at that tip and with no flush under way.  This holds if the
    disk has the blocks of both branches and the undo data of the old one. *)
Theorem crash_recovery db new bn unew db' :
  db_head_blocks db = None → disk.1 !! new = Some bn → chain_coins new unew →
  tip_coins (store_tip db) (db_coins db) →
  (∀ o, store_tip db = Some o → ∃ a, on_chain (Some o) a ∧ on_chain (Some new) a) →
  branches_on_disk (store_tip db) new → crashed db new unew db' →
  db' = db ∧ ReplayBlocks SHA256d ReadBlock too_large disk db' = Some (db, true) ∨
  ∃ db'', ReplayBlocks SHA256d ReadBlock too_large disk db' = Some (db'', true) ∧
    db_coins db'' = unew ∧ db_best_block db'' = Some new ∧ db_head_blocks db'' = None.
Proof.
  intros Hh Hbn Hnew Hold Hcommon Hdisk Hcr.
  destruct (crashed_spec db new unew db') as [->|(H1 & H2 & H3)]; [congruence|done|done| |].
  { left. split; [done|]. unfold ReplayBlocks, GetHeadBlocks. by rewrite Hh. }
  assert (Hfork : ∃ fork, fork_of (store_tip db) new fork ∧
    (∀ o, store_tip db = Some o → ∃ bo, disk.1 !! o = Some bo ∧ LastCommonAncestor disk.1 o new = Some fork)).
  { unfold tip_coins in Hold. destruct (store_tip db) as [o|]; [|by exists None].
    assert (Ho : is_Some (disk.1 !! o)) by (inversion Hold; eauto). destruct Ho as [bo Hbo].
    destruct (Hcommon o eq_refl) as (a & [n Hn] & [m Hm]).
    destruct (LastCommonAncestor_spec _ _ _ _ _ n m a Hchain Hbo Hbn Hn Hm) as (f & i & j & E & Hi & Hj & _).
    exists (Some f). split; [|intros o' [= <-]; eauto]. split; [eauto|]. split; [eauto|].
    intros a' [n' Hn'] [m' Hm'].
    destruct (LastCommonAncestor_spec _ _ _ _ _ n' m' a' Hchain Hbo Hbn Hn' Hm') as (f' & i' & j' & E' & _ & _ & Hk).
    by replace f with f' by congruence. }
  destruct Hfork as (fork & Hfork & Hlca).
  destruct (replay_interrupted db db' new bn unew fork) as (cache & c' & E1 & E2 & E3 & E4 & E5);
    try done; right.
  exists (base c'). split; [|done]. unfold ReplayBlocks, GetHeadBlocks. cbv zeta. rewrite H2. cbn [default id]. rewrite Hbn. change (replay_view too_large) with recovery_view.
  unfold store_tip in *. destruct (Z.eqb_spec (DB_GetBestBlock db) 0) as [E0|E0].
  - destruct fork; [done|]. rewrite E1, E2. done.
  - destruct (Hlca _ eq_refl) as (bo & -> & ->). destruct fork as [f|]; [|done]. rewrite E1, E2. done.
Qed.
End recovery.
End chain.

(** A block that connects to the map of its parent gives the map of its chain. *)
Lemma connect_chain_coins SHA256d params bparams cparams opts sgn check active parallel undo contents
    disk best_header pindex block u disk' u' b :
  ConnectBlock SHA256d params bparams cparams opts sgn check active parallel undo disk best_header pindex block
    false u = (disk', u', None) →
  disk.1 !! pindex = Some b → pindex ≠ hashGenesisBlock cparams →
  block_ok SHA256d params bparams sgn block → contents pindex = blk_vtx block → 0 < nHeight b < 2 ^ 31 →
  enforce_BIP30 params cparams disk.1 pindex b (utxo_best u) = true →
  Z.land (nStatus b) BLOCK_HAVE_UNDO = 0 →
  chain_coins SHA256d params cparams contents disk (utxo_best u) (utxo u) →
  chain_coins SHA256d params cparams contents disk pindex (utxo u').
Proof.
  intros E Hb Hg Hok Hcont Hh H30 Hu Hc.
  destruct (ConnectBlock_spec _ _ _ _ _ _ _ _ _ _ _ _ _ _ _ _ _ _ E Hb Hg Hok)
    as (prev & css & fees & Hp & <- & _ & Hcn & _).
  eapply chain_block; [exact Hb|exact Hp|exact Hc|by rewrite Hcont|rewrite Hcont; apply Hok|done|done|].
  left. unfold UndoReadFromDisk. rewrite Hb. simpl. by rewrite Hu.
Qed.

(** Entries that write a map into an empty store. *)
Definition new_entries (m : gmap COutPoint Coin) : list (COutPoint * CCoinsCacheEntry) :=
  (λ p, (p.1, mkEntry p.2 (Z.lor DIRTY FRESH))) <$> map_to_list m.

Lemma new_entries_NoDup m : NoDup (new_entries m).*1.
Proof. unfold new_entries. rewrite <- list_fmap_compose. apply NoDup_fst_map_to_list. Qed.

Lemma new_entries_apply m :
  (∀ o c, m !! o = Some c → IsSpent c = false) → foldl (λ m oe, apply_entry oe m) ∅ (new_entries m) = m.
Proof.
  intros Hm. apply map_eq. intros o.
  destruct (foldl_apply_lookup (new_entries m) ∅ o (new_entries_NoDup m)) as [H1 H2].
  destruct (m !! o) as [c|] eqn:Hc.
  - rewrite (H2 (mkEntry c (Z.lor DIRTY FRESH))).
    + unfold apply_entry. cbn [fst snd entry_coin]. rewrite (Hm o c Hc). apply lookup_insert_eq.
    + apply list_elem_of_fmap. exists (o, c). split; [done|]. by apply elem_of_map_to_list.
  - rewrite H1; [apply lookup_empty|]. intros ([k e] & -> & ([k' c] & E & Hin)%list_elem_of_fmap)%list_elem_of_fmap.
    injection E as -> _. apply elem_of_map_to_list in Hin. simpl in Hc. congruence.
Qed.

(** ** A concrete crash *)

(** The genesis block and a block with a coinbase of two outputs. *)
Definition crash_vtx : list CTransaction :=
  [mkTransaction [mkTxIn (mkOutPoint 0 NULL_INDEX) [0x51; 1; 3] SEQUENCE_FINAL []]
     [mkTxOut 40000000 [0x51]; mkTxOut 30000000 [0x52]] 2 0].
Definition crash_hash : Z := GetHash small_hash (example_header crash_vtx).
Definition crash_index : BlockMap :=
  (AddToBlockIndex (AddToBlockIndex ∅ example_genesis_hash example_genesis None).1 crash_hash
     (example_header crash_vtx) None).1.
Definition crash_disk : Disk := (crash_index, ∅).
Definition crash_block : CBlock := new_block (example_header crash_vtx) crash_vtx.

Abbreviation crash_connect := (ConnectBlock small_hash CQbtcTestNetParams example_bparams example_cparams
  example_options (λ _ _, true) (λ _ _ _ _, None) (λ _, true) false (λ _ _, true) crash_disk None
  crash_hash crash_block false (mkUTXO ∅ example_genesis_hash)).

Definition crash_coins : gmap COutPoint Coin := utxo crash_connect.1.2.

(** The entries of the flush, and the store after the first batch. *)
Definition crash_entries : list (COutPoint * CCoinsCacheEntry) := new_entries crash_coins.
Definition crash_before : CCoinsViewDB := mkDB ∅ (Some example_genesis_hash) None.
Definition crash_after : CCoinsViewDB :=
  default crash_before (crash_states (λ _, true) crash_entries crash_hash crash_before !! 1%nat).

Lemma crash_hashes : crash_hash ≠ 0 ∧ crash_hash ≠ example_genesis_hash ∧ example_genesis_hash ≠ 0.
Proof. split_and!; vm_compute; discriminate. Qed.

Lemma crash_index_ok : chain_ok crash_index ∧ crash_index !! 0 = None.
Proof.
  split; [|vm_compute; reflexivity].
  apply AddToBlockIndex_chain_ok; [apply AddToBlockIndex_chain_ok; [apply chain_ok_empty|]|];
    vm_compute; discriminate.
Qed.

Definition crash_facts (st : BlockMap) : bool :=
  match st !! crash_hash, st !! example_genesis_hash with
  | Some b, Some g =>
      (nHeight b =? 1) && bool_decide (pprev b = Some example_genesis_hash) &&
      bool_decide (pprev g = None) && (Z.land (nStatus b) BLOCK_HAVE_UNDO =? 0) &&
      enforce_BIP30 CQbtcTestNetParams example_cparams st crash_hash b example_genesis_hash
  | _, _ => false
  end.

Lemma crash_index_entries :
  ∃ b g, crash_index !! crash_hash = Some b ∧ crash_index !! example_genesis_hash = Some g ∧
    nHeight b = 1 ∧ pprev b = Some example_genesis_hash ∧ pprev g = None ∧
    Z.land (nStatus b) BLOCK_HAVE_UNDO = 0 ∧
    enforce_BIP30 CQbtcTestNetParams example_cparams crash_index crash_hash b example_genesis_hash = true.
Proof.
  assert (E : crash_facts crash_index = true) by (vm_compute; reflexivity). unfold crash_facts in E.
  destruct (crash_index !! crash_hash) as [b|]; [|done].
  destruct (crash_index !! example_genesis_hash) as [g|]; [|done].
  apply andb_true_iff in E as [E E5]. apply andb_true_iff in E as [E E4]. apply andb_true_iff in E as [E E3].
  apply andb_true_iff in E as [E1 E2]. apply bool_decide_eq_true in E2, E3.
  exists b, g. split_and!; (done || lia).
Qed.

Lemma crash_vtx_ok : Forall tx_ok crash_vtx.
Proof. vm_compute. repeat (constructor || done || (intros [=])). Qed.

Lemma crash_connects : crash_connect = (crash_connect.1.1, crash_connect.1.2, None).
Proof.
  assert (E : crash_connect.2 = None) by (vm_compute; reflexivity).
  destruct crash_connect as [[d u] r]. simpl in E. by subst.
Qed.

Lemma crash_block_ok : block_ok small_hash CQbtcTestNetParams example_bparams (λ _ _, true) crash_block.
Proof. split; [exact (flags_ok_bare _ _ _ _ crash_block)|exact crash_vtx_ok|vm_compute; reflexivity]. Qed.

#[local] Opaque crash_index crash_hash example_genesis_hash crash_coins.

Lemma crash_chain :
  chain_coins small_hash CQbtcTestNetParams example_cparams (λ _, crash_vtx) crash_disk crash_hash crash_coins.
Proof.
  destruct crash_index_entries as (b & g & Hb & Hg & Hh & Hp & Hr & Hu & H30).
  apply (connect_chain_coins _ _ _ _ _ _ _ _ _ _ _ _ _ _ _ _ _ _ b crash_connects Hb
    (proj1 (proj2 crash_hashes)) crash_block_ok eq_refl ltac:(rewrite Hh; lia) H30 Hu).
  cbn [utxo utxo_best]. apply (chain_root _ _ _ _ _ _ g); [exact Hg|exact Hr].
Qed.

Lemma crash_happens : crashed (λ _, true) crash_before crash_hash crash_coins crash_after.
Proof.
  apply (crash_flush _ _ _ _ crash_entries).
  - apply new_entries_NoDup.
  - apply (new_entries_apply crash_coins). intros o c. by apply (chain_coins_ok _ _ _ _ _ _ _ crash_chain).
  - apply (list_elem_of_lookup_2 _ 1). unfold crash_after.
    destruct (lookup_lt_is_Some_2 (crash_states (λ _, true) crash_entries crash_hash crash_before) 1) as [d ->];
      [|reflexivity].
    assert (E : length (crash_states (λ _, true) crash_entries crash_hash crash_before) = 3%nat)
      by (vm_compute; reflexivity).
    rewrite E. lia.
Qed.

(** One of the two coins is there. *)
Lemma crash_partial : base.size (db_coins crash_after) = 1%nat ∧ base.size crash_coins = 2%nat.
Proof. split; vm_compute; reflexivity. Qed.

Lemma crash_not_null : ∀ (h : Z) (block : CBlock), Some crash_block = Some block →
  Forall (λ tx, Forall (λ o, CTxOut_IsNull o = false) (vout tx)) (blk_vtx block).
Proof. intros _ block [= <-]. repeat constructor. Qed.

Lemma crash_branches :
  branches_on_disk (λ _, crash_vtx) crash_disk (λ _, Some crash_block) (Some example_genesis_hash) crash_hash.
Proof.
  destruct crash_index_entries as (b & g & Hb & Hg & _ & Hp & Hr & _). split.
  - intros a [[|n] Hn] Hout.
    + change (Some example_genesis_hash = Some a) in Hn. apply (inj Some) in Hn. subst a. exfalso. apply Hout. exists 1%nat. cbn [prev_n fst crash_disk]. rewrite Hb. simpl. by rewrite Hp.
    + cbn [prev_n fst crash_disk] in Hn. rewrite Hg in Hn. simpl in Hn. by rewrite Hr in Hn.
  - intros a _ _. exact (ex_intro _ crash_block (conj eq_refl eq_refl)).
Qed.

Lemma crash_recovery_witness :
  crash_after = crash_before ∧ ReplayBlocks small_hash (λ _, Some crash_block) (λ _, true) crash_disk crash_after =
    Some (crash_before, true) ∨
  ∃ db, ReplayBlocks small_hash (λ _, Some crash_block) (λ _, true) crash_disk crash_after = Some (db, true) ∧
    db_coins db = crash_coins ∧ db_best_block db = Some crash_hash ∧ db_head_blocks db = None.
Proof.
  destruct crash_index_entries as (b & g & Hb & Hg & _ & Hp & Hr & _).
  assert (Htip : store_tip crash_before = Some example_genesis_hash) by (vm_compute; reflexivity).
  apply (crash_recovery small_hash CQbtcTestNetParams example_cparams (λ _, crash_vtx) crash_disk
    (λ _, Some crash_block) (proj1 crash_index_ok) (proj2 crash_index_ok) crash_not_null (λ _, true)
    crash_before crash_hash b crash_coins crash_after eq_refl Hb crash_chain).
  - rewrite Htip. apply (chain_root _ _ _ _ _ _ g); [exact Hg|exact Hr].
  - intros o Ho. rewrite Htip in Ho. apply (inj Some) in Ho. subst o. exists example_genesis_hash. split.
    + by exists 0%nat.
    + exists 1%nat. cbn [prev_n fst crash_disk]. rewrite Hb. simpl. by rewrite Hp.
  - rewrite Htip. exact crash_branches.
  - exact crash_happens.
Defined.
