(* ===== verification/ConnectTotal.v ===== *)
(** * Connecting a block fails no assertion

    [ConnectBlock] asserts that the coins it reads and spends are there, that adding an
    output overwrites none, and that the ancestors which relative lock times refer to exist.
    On the map of unspent outputs of the parent's chain this holds for every block: it is
    connected or found invalid.  For a network that enforces the rule against overwriting
    for all blocks and assumes none valid, and a block no two transactions of which have the
    same id but different contents. *)

From Stdlib Require Import String.
From stdpp Require Import gmap.
From S2P Require Import Prelude PqcWitness Arith256 Serialize BlockHeader BlockIndex Pow Subsidy.
From S2P Require Import Transaction Script Chainman Accept BlockCheck BlockCheckProps Coins.
From S2P Require Import Connect ConnectSim ConnectProps Replay.

Local Open Scope Z_scope.
Local Open Scope coins_scope.

(** ** Computations that do not fail with a bad error *)

Definition safe {S E A} (bad : E → Prop) (m : M S E A) (s : S) (Q : S → A → Prop) : Prop :=
  match m s with
  | (s', inl a) => Q s' a
  | (_, inr e) => ¬ bad e
  end.

Lemma safe_then {S E A B} (bad : E → Prop) (m : M S E A) (f : A → M S E B) s (P : S → A → Prop) Q :
  safe bad m s P → (∀ s' a, P s' a → safe bad (f a) s' Q) → safe bad (mthen m f) s Q.
Proof. unfold safe, mthen. intros Hm Hf. destruct (m s) as [s' [a|e]]; [by apply Hf|done]. Qed.

Lemma safe_impl {S E A} (bad : E → Prop) (m : M S E A) s (P Q : S → A → Prop) :
  safe bad m s P → (∀ s' a, P s' a → Q s' a) → safe bad m s Q.
Proof. unfold safe. destruct (m s) as [s' [a|e]]; auto. Qed.

Lemma safe_then_run {S E A B} (bad : E → Prop) (m : M S E A) (f : A → M S E B) s s' a Q :
  m s = (s', inl a) → safe bad (f a) s' Q → safe bad (mthen m f) s Q.
Proof. intros E' HQ. unfold safe, mthen. by rewrite E'. Qed.

Lemma safe_fail {S E A} (bad : E → Prop) (e : E) (s : S) (Q : S → A → Prop) : ¬ bad e → safe bad (fail e) s Q.
Proof. done. Qed.

Lemma safe_map_error {S E F A} (bad : E → Prop) (bad' : F → Prop) (f : E → F) (m : M S E A) s Q :
  (∀ e, bad' (f e) → bad e) → safe bad m s Q → safe bad' (map_error f m) s Q.
Proof. intros Hf. unfold safe, map_error. destruct (m s) as [s' [a|e]]; auto. Qed.

(** ** Reading coins that are there *)

Section reading.
Context (u : UTXO) (Hu : coins_ok (utxo u)).

Abbreviation found := (Forall2 (λ (i : CTxIn) c, utxo u !! prevout i = Some c)).

Lemma access_unspent_found {E} (e : E) o c : utxo u !! o = Some c → access_unspent e o u = (u, inl c).
Proof using Hu.
  intros Hc. unfold access_unspent, mthen, lift. cbn [AccessCoin UTXO_ops]. rewrite Hc. cbn [default id].
  by rewrite (ck_unspent _ (Hu o c Hc)).
Qed.

Lemma access_all_found {E} (e : E) ins cs : found ins cs → access_all e ins u = (u, inl cs).
Proof using Hu.
  induction 1 as [|i c ins cs Hc _ IH]; cbn [access_all]; [done|]. unfold mthen.
  by rewrite (access_unspent_found _ _ _ Hc), IH.
Qed.

Lemma prev_heights_found {E} ins cs :
  found ins cs → prev_heights (E := E) ins u = (u, inl (coin_nHeight <$> cs)).
Proof using Type.
  induction 1 as [|i c ins cs Hc _ IH]; cbn [prev_heights]; [done|]. unfold mthen at 1, lift. cbn [AccessCoin UTXO_ops].
  rewrite Hc. unfold mthen. by rewrite IH.
Qed.

Lemma have_inputs_found {E} ins :
  ∃ r, have_inputs (E := E) ins u = (u, inl r) ∧ (r = true → ∃ cs, found ins cs).
Proof using Type.
  induction ins as [|i ins (r & E1 & IH)]; cbn [have_inputs]; [by exists true; eauto|]. unfold mthen, lift.
  cbn [HaveCoin UTXO_ops]. case_bool_decide as Hi; [|by exists false]. exists r. split; [done|].
  intros [cs Hcs]%IH. destruct Hi as [c Hc]. exists (c :: cs). by constructor.
Qed.

Lemma sum_inputs_safe h ins cs : found ins cs → ∀ n,
  safe (λ f, f = TxAbort) (sum_inputs ins h n) u (λ u' _, u' = u).
Proof using Hu.
  induction 1 as [|i c ins cs Hc _ IH]; intros n; cbn [sum_inputs]; [done|].
  eapply safe_then_run; [by apply access_unspent_found|]. destruct (_ && _); [done|]. cbv zeta. destruct (_ || _); [done|]. apply IH.
Qed.

(** Checking the inputs of a transaction that is well formed. *)
Lemma CheckTxInputs_safe tx h :
  tx_valid tx → IsCoinBase tx = false →
  safe (λ f, f = TxAbort) (CheckTxInputs tx h) u (λ u' _, u' = u ∧ ∃ cs, found (vin tx) cs).
Proof using Hu.
  intros Hv Hcb. unfold CheckTxInputs, HaveInputs. rewrite Hcb.
  destruct (have_inputs_found (E := TxFailure) (vin tx)) as (r & E & Hr).
  eapply safe_then_run; [exact E|].
  destruct r; [|done]. destruct (Hr eq_refl) as [cs Hcs]. cbn [negb].
  eapply safe_then; [by eapply sum_inputs_safe|]. intros u' n ->. unfold GetValueOut.
  destruct (value_out_exact (vout tx) 0) as [-> _]; [unfold MAX_MONEY, COIN; lia|apply Hv|apply Hv|].
  destruct (_ <? _); [done|]. cbv zeta. destruct (negb _); [done|]. by split; eauto.
Qed.

(** Counting signature operations. *)
Lemma p2sh_loop_found ins cs : found ins cs → ∀ n, ∃ r, p2sh_loop ins n u = (u, inl r).
Proof using Hu.
  induction 1 as [|i c ins cs Hc _ IH]; intros n; cbn [p2sh_loop]; [eauto|]. unfold mthen.
  rewrite (access_unspent_found _ _ _ Hc). apply IH.
Qed.

Lemma witness_sigops_found flags ins cs :
  (has_flag flags SCRIPT_VERIFY_WITNESS = true → has_flag flags SCRIPT_VERIFY_P2SH = true) →
  found ins cs → ∀ n, ∃ r, witness_sigops_loop ins flags n u = (u, inl r).
Proof using Hu.
  intros Hfl. induction 1 as [|i c ins cs Hc _ IH]; intros n; cbn [witness_sigops_loop]; [eauto|]. unfold mthen.
  rewrite (access_unspent_found _ _ _ Hc).
  assert (H : ∃ k, CountWitnessSigOps (scriptSig i) (scriptPubKey (out c)) (scriptWitness i) flags = Some k).
  { unfold CountWitnessSigOps. destruct (has_flag flags SCRIPT_VERIFY_WITNESS); [|cbn; eauto]. rewrite Hfl by done.
    cbn [negb]. repeat case_match; eauto. }
  destruct H as [k ->]. apply IH.
Qed.

Lemma sigop_cost_found tx flags cs :
  (has_flag flags SCRIPT_VERIFY_WITNESS = true → has_flag flags SCRIPT_VERIFY_P2SH = true) →
  found (inputs_of tx) cs → ∃ r, GetTransactionSigOpCost tx flags u = (u, inl r).
Proof using Hu.
  unfold inputs_of, GetTransactionSigOpCost, GetP2SHSigOpCount. intros Hfl Hcs.
  destruct (IsCoinBase tx); [by eexists|]. cbv zeta. unfold mthen. destruct (has_flag flags SCRIPT_VERIFY_P2SH) eqn:E.
  - destruct (p2sh_loop_found _ _ Hcs 0) as [r ->]. by eapply witness_sigops_found.
  - cbn [mret]. eapply witness_sigops_found; [|done]. by rewrite E.
Qed.
End reading.

(** ** Relative lock times *)

Lemma sequence_loop_some st h b ins : chain_ok st → st !! h = Some b →
  Forall (λ p : CTxIn * Z, p.2 <= nHeight b) ins → ∀ x y, is_Some (sequence_loop st h ins x y).
Proof.
  intros Hok Hb. pose proof (ck_height _ Hok _ _ Hb) as Hh0.
  induction 1 as [|[i hc] ins Hhc _ IH]; intros x y; cbn [sequence_loop]; [eauto|]. cbn [snd] in Hhc.
  destruct (negb _); [apply IH|]. destruct (negb _); [|apply IH].
  rewrite (GetAncestor_prev_n st h b) by (done || lia).
  destruct (prev_n_height st (Z.to_nat (nHeight b - Z.max (hc - 1) 0)) h b Hok Hb) as (a & _ & -> & _); [lia|]. apply IH.
Qed.

Lemma SequenceLocks_some st h b prev tx flags heights :
  chain_ok st → st !! h = Some b → pprev b = Some prev → length heights = length (vin tx) →
  Forall (λ hc, hc <= nHeight b) heights → is_Some (SequenceLocks st tx flags heights h).
Proof.
  intros Hok Hb Hp Hl Hh. unfold SequenceLocks, CalculateSequenceLocks. rewrite (proj2 (Nat.eqb_eq _ _) Hl). cbn [negb].
  assert (He : ∀ l, is_Some (EvaluateSequenceLocks st h l))
    by (intros l; unfold EvaluateSequenceLocks; rewrite Hb; simpl; rewrite Hp; simpl; eauto).
  destruct (_ && _); [|apply He].
  destruct (sequence_loop_some st h b (zip (vin tx) heights) Hok Hb) with (x := -1) (y := -1) as [l ->]; [|apply He].
  apply Forall_forall. intros [i hc] Hin%elem_of_zip_r. rewrite Forall_forall in Hh. by apply Hh.
Qed.

(** ** Spending and adding *)

Lemma spend_inputs_found ins : ∀ (m : gmap COutPoint Coin) best cs,
  Forall2 (λ i c, m !! prevout i = Some c) ins cs → NoDup (prevout <$> ins) →
  ∃ u', spend_inputs ins (mkUTXO m best) = (u', inl cs).
Proof.
  induction ins as [|i ins IH]; intros m best cs Hf Hnd; inversion Hf as [|? c ? cs' Hc Hf']; subst;
    cbn [spend_inputs]; [by eexists|].
  apply NoDup_cons in Hnd as [Hni Hnd]. unfold mthen at 1, lift. cbn [SpendCoin UTXO_ops utxo utxo_best]. rewrite Hc.
  destruct (IH (delete (prevout i) m) best cs') as [u' E]; [|done|].
  - clear -Hf' Hni. induction Hf' as [|j d ins cs Hd _ IH]; [constructor|]. cbn in Hni.
    apply not_elem_of_cons in Hni as [Hne Hni]. constructor; [by rewrite lookup_delete_ne|by apply IH].
  - exists u'. unfold mthen. by rewrite E.
Qed.

Lemma add_outputs_absent txid h cb outs : ∀ i (m : gmap COutPoint Coin) best,
  indices_fit i outs → Forall (λ o, CTxOut_IsNull o = false) outs →
  (cb = false → ∀ k x, outs !! k = Some x → IsUnspendable (scriptPubKey x) = false →
     m !! mkOutPoint txid (Z.of_nat (i + k)) = None) →
  ∃ u', add_outputs txid i outs h cb false (mkUTXO m best) = (u', inl tt).
Proof.
  induction outs as [|x outs IH]; intros i m best Hfit Hn Hab; cbn [add_outputs]; [by eexists|].
  apply Forall_cons in Hn as [Hx Hn]. unfold indices_fit in Hfit. cbn [length] in Hfit.
  assert (Hi : u32 (Z.of_nat i) = Z.of_nat i) by (unfold wrap; apply Z.mod_small; lia). rewrite Hi.
  unfold mthen at 1, mret. unfold mthen, attempt. cbn [AddCoin UTXO_ops utxo utxo_best].
  replace (IsSpent (NewCoin x h cb)) with false by (symmetry; exact Hx). change (out (NewCoin x h cb)) with x.
  assert (Hrest : ∀ m', (∀ k y, outs !! k = Some y → IsUnspendable (scriptPubKey y) = false → cb = false →
    m' !! mkOutPoint txid (Z.of_nat (S i + k)) = None) →
    ∃ u', add_outputs txid (S i) outs h cb false (mkUTXO m' best) = (u', inl tt)).
  { intros m' Hm'. apply IH; [unfold indices_fit; lia|done|]. intros Hcb k y Hk Hy. by eapply Hm'. }
  assert (Hm : ∀ k y, outs !! k = Some y → IsUnspendable (scriptPubKey y) = false → cb = false →
    m !! mkOutPoint txid (Z.of_nat (S i + k)) = None).
  { intros k y Hk Hy Hcb. replace (S i + k)%nat with (i + S k)%nat by lia. by apply (Hab Hcb (S k) y). }
  destruct (IsUnspendable (scriptPubKey x)) eqn:Hun; [by apply Hrest|].
  assert (negb cb && bool_decide (is_Some (m !! mkOutPoint txid (Z.of_nat i))) = false) as ->.
  { destruct cb; [done|]. cbn [negb andb]. apply bool_decide_eq_false. rewrite <- eq_None_not_Some.
    specialize (Hab eq_refl 0%nat x eq_refl Hun). by rewrite Nat.add_0_r in Hab. }
  apply Hrest. intros k y Hk Hy Hcb. rewrite lookup_insert_ne; [by eapply Hm|]. intros [=]. lia.
Qed.

Lemma UpdateCoins_total SHA256d tx h (m : gmap COutPoint Coin) best cs :
  Forall2 (λ i c, m !! prevout i = Some c) (inputs_of tx) cs → tx_ok tx → tx_valid tx →
  (IsCoinBase tx = false → fresh SHA256d m tx) → ∃ u' r, UpdateCoins SHA256d tx h (mkUTXO m best) = (u', inl r).
Proof.
  intros Hf Hok Hv Hfr. unfold UpdateCoins, AddCoins, mthen.
  assert (Hn : Forall (λ o, CTxOut_IsNull o = false) (vout tx)).
  { eapply Forall_impl; [apply Hv|]. intros o Ho. unfold CTxOut_IsNull. simpl in Ho. lia. }
  assert (Hsp : ∃ m' cs', (if IsCoinBase tx then mret [] else spend_inputs (vin tx)) (mkUTXO m best)
    = (mkUTXO m' best, inl cs') ∧ ∀ o, m !! o = None → m' !! o = None).
  { unfold inputs_of in Hf. destruct (IsCoinBase tx); [by exists m, []|].
    destruct (spend_inputs_found _ _ best _ Hf (tx_distinct_inputs _ Hv)) as [[m' best'] E].
    destruct (spend_inputs_spec _ _ _ _ E) as (_ & _ & Hm & Hb). cbn in Hm, Hb. subst m' best'.
    exists (m ∖ spent_coins (vin tx) cs), cs. split; [done|]. intros o Ho. apply lookup_difference_None. by left. }
  destruct Hsp as (m' & cs' & -> & Hm').
  destruct (add_outputs_absent (GetTxid SHA256d tx) h (IsCoinBase tx) (vout tx) 0 m' best) as [u' E];
    [by apply tx_ok_indices|done| |rewrite E; by eexists _, _].
  intros Hcb k x Hk Hx. apply Hm'. by apply (Hfr Hcb k x).
Qed.

(** ** No transaction repeats one before it *)

Section fresh.
Context (SHA256d : list Z → Z).

(** Transactions with the same id differ in their witnesses at most. *)
Definition ids_tell (vtx : list CTransaction) : Prop :=
  ∀ tx tx', tx ∈ vtx → tx' ∈ vtx → GetTxid SHA256d tx = GetTxid SHA256d tx' → strip_witness tx = strip_witness tx'.

Lemma strip_inputs tx tx' :
  strip_witness tx = strip_witness tx' → prevout <$> vin tx = prevout <$> vin tx' ∧ IsCoinBase tx = IsCoinBase tx'.
Proof using Type.
  unfold strip_witness. intros [= E _ _ _].
  assert (Hp : prevout <$> vin tx = prevout <$> vin tx').
  { apply (f_equal (fmap prevout)) in E. by rewrite <- !list_fmap_compose in E. }
  split; [done|]. unfold IsCoinBase.
  destruct (vin tx) as [|i [|]], (vin tx') as [|i' [|]]; simplify_eq/=; congruence.
Qed.

(** What the transactions connected so far, from a map [u0] on, leave in the map. *)
Record prefix_inv (u0 : gmap COutPoint Coin) (before : list CTransaction) (u : gmap COutPoint Coin) : Prop := {
  pi_origin o : is_Some (u !! o) → is_Some (u0 !! o) ∨ op_hash o ∈ GetTxid SHA256d <$> before;
  pi_spent tx i : tx ∈ before → i ∈ inputs_of tx → u !! prevout i = None;
  pi_source tx i : tx ∈ before → i ∈ inputs_of tx →
    is_Some (u0 !! prevout i) ∨ op_hash (prevout i) ∈ GetTxid SHA256d <$> before
}.

Lemma prefix_nil u : prefix_inv u [] u.
Proof using Type. split; [by left|by intros ? ? ?%elem_of_nil..]. Qed.

(** A transaction does not repeat one before it: its inputs are gone. *)
Lemma txid_new u0 before u tx cs :
  prefix_inv u0 before u → Forall2 (λ i c, u !! prevout i = Some c) (inputs_of tx) cs →
  ids_tell (tx :: before) → vin tx ≠ [] → (before = [] ∨ IsCoinBase tx = false) →
  GetTxid SHA256d tx ∉ GetTxid SHA256d <$> before.
Proof using Type.
  intros [_ Hsp _] Hf Hids Hne Hcb (d & Ed & Hd)%list_elem_of_fmap.
  destruct (strip_inputs tx d) as [Ep Ec]; [apply Hids; [by left|by right|done]|].
  destruct Hcb as [->|Hcb]; [by apply elem_of_nil in Hd|]. unfold inputs_of in Hf. rewrite Hcb in Hf.
  destruct (vin tx) as [|i ins] eqn:Hi; [done|]. destruct (vin d) as [|i' ins'] eqn:Hi'; [done|].
  injection Ep as Ep _. inversion Hf as [|? c ? ? Hc]; subst.
  assert (Hnone : u !! prevout i' = None).
  { apply (Hsp d); [done|]. unfold inputs_of. rewrite <- Ec, Hcb, Hi'. by left. }
  congruence.
Qed.

Lemma fresh_after u0 before u tx :
  prefix_inv u0 before u → fresh SHA256d u0 tx → GetTxid SHA256d tx ∉ GetTxid SHA256d <$> before → fresh SHA256d u tx.
Proof using Type.
  intros [Ho _ _] Hf Hn n x Hx Hsp. apply eq_None_not_Some. intros H%Ho. destruct H as [H|H]; [|done].
  rewrite (Hf n x Hx Hsp) in H. by destruct H.
Qed.

Lemma prefix_step h u0 before u tx u1 cs :
  prefix_inv u0 before u → tx_effect SHA256d h tx u u1 cs → tx_ok tx → fresh SHA256d u0 tx →
  GetTxid SHA256d tx ∉ GetTxid SHA256d <$> before → prefix_inv u0 (tx :: before) u1.
Proof using Type.
  intros Hinv He Hok Hf Hn. pose proof (fresh_after u0 before u tx Hinv Hf Hn) as Hfu.
  destruct Hinv as [Ho Hsp Hsrc]. pose proof He as [Hfound Honce _ ->].
  set (new := new_coins _ _ _ _ _). set (sp := spent_coins _ _).
  assert (Hin : ∀ i, i ∈ inputs_of tx → ∃ c, u !! prevout i = Some c).
  { intros i [k Hk]%list_elem_of_lookup. destruct (Forall2_lookup_l _ _ _ _ _ Hfound Hk) as (c & _ & ?). eauto. }
  assert (Hnew : ∀ o c, new !! o = Some c → ∃ n x, vout tx !! n = Some x ∧ IsUnspendable (scriptPubKey x) = false ∧
    o = mkOutPoint (GetTxid SHA256d tx) (Z.of_nat n)).
  { intros o c (k & x & Hk & -> & Hx & _)%new_coins_lookup; [|by apply tx_ok_indices]. by exists k, x. }
  assert (Hkeep : ∀ o, (new ∪ u ∖ sp) !! o = None ↔ new !! o = None ∧ (u ∖ sp) !! o = None)
    by (intros o; apply lookup_union_None).
  split.
  - intros o [c [Hc|[_ [Hc _]%lookup_difference_Some]]%lookup_union_Some_raw].
    + destruct (Hnew o c Hc) as (n & x & _ & _ & ->). right. by left.
    + destruct (Ho o ltac:(eauto)); [by left|right; by right].
  - intros d i Hd Hi. apply Hkeep. apply elem_of_cons in Hd as [->|Hd].
    + destruct (Hin i Hi) as [c Hc]. split.
      * apply eq_None_not_Some. intros [c' (n & x & Hx & Hux & E)%Hnew]. rewrite E, (Hfu n x Hx Hux) in Hc. done.
      * apply lookup_difference_None. right. exists c. apply (spent_coins_lookup _ _ _ _ u Honce Hfound). eauto.
    + split.
      * apply eq_None_not_Some. intros [c' (n & x & Hx & Hux & E)%Hnew].
        destruct (Hsrc d i Hd Hi) as [H|H]; rewrite E in H; [|done]. rewrite (Hf n x Hx Hux) in H. by destruct H.
      * apply lookup_difference_None. left. by apply (Hsp d).
  - intros d i Hd Hi. apply elem_of_cons in Hd as [->|Hd].
    + destruct (Ho (prevout i)) as [?|?]; [by apply Hin|by left|right; by right].
    + destruct (Hsrc d i Hd Hi); [by left|right; by right].
Qed.
End fresh.

(** ** The block *)

(** What connecting the contents of a block does not end with: a failed assertion, an error
    of the system, or a block that is not the one its header commits to. *)
Definition unexpected (f : Failure) : Prop :=
  match f with Abort | SystemError | Invalid BLOCK_MUTATED _ => True | _ => False end.

Definition heights_le (h : Z) (u : gmap COutPoint Coin) : Prop := ∀ o c, u !! o = Some c → coin_nHeight c <= h.

Lemma tx_effect_heights SHA256d h tx u u1 cs :
  tx_effect SHA256d h tx u u1 cs → tx_ok tx → 0 <= h < 2 ^ 31 → heights_le h u → heights_le h u1.
Proof.
  intros [_ _ _ ->] Hok Hh Hu o c [Hc|[_ [Hc _]%lookup_difference_Some]]%lookup_union_Some_raw; [|by eapply Hu].
  apply new_coins_lookup in Hc as (k & x & _ & _ & _ & ->); [|by apply tx_ok_indices]. by rewrite NewCoin_height.
Qed.

Section total.
Context (SHA256d : list Z → Z) (params : Params) (bparams : BodyParams) (cparams : ConnectParams) (opts : Options).
Context (CScriptCheck : CTransaction → nat → list CTxOut → Z → option string).
Context (pqc_active : option Z → bool) (parallel_script_checks : bool).
Context (st : BlockMap) (pindex prev : Z) (b : CBlockIndex).
Context (Hok : chain_ok st) (Hb : st !! pindex = Some b) (Hp : pprev b = Some prev) (Hh : 0 < nHeight b < 2 ^ 31).

Lemma check_spending_safe flags lflags tx fees u :
  coins_ok (utxo u) → heights_le (nHeight b) (utxo u) → tx_valid tx → IsCoinBase tx = false →
  safe unexpected (check_spending st pindex b flags lflags tx fees) u
    (λ u' _, u' = u ∧ ∃ cs, Forall2 (λ i c, utxo u !! prevout i = Some c) (vin tx) cs).
Proof using Hok Hb Hp.
  intros Hu Hhe Hv Hcb. unfold check_spending. destruct (if has_flag _ _ then _ else _); [intros []|].
  eapply safe_then.
  { eapply safe_map_error; [|by apply CheckTxInputs_safe]. by intros []. }
  intros u' fee [-> [cs Hcs]]. cbv zeta. destruct (negb _); [intros []|].
  eapply safe_then_run; [by apply prev_heights_found|].
  destruct (SequenceLocks_some st pindex b prev tx lflags (coin_nHeight <$> cs) Hok Hb Hp) as [[] ->].
  - rewrite length_fmap. symmetry. by eapply Forall2_length.
  - apply Forall_fmap, Forall_forall. intros c [k Hk]%list_elem_of_lookup.
    destruct (Forall2_lookup_r _ _ _ _ _ Hcs Hk) as (i & _ & Hi). by eapply Hhe.
  - by split; eauto.
  - intros [].
Qed.

Lemma connect_tx_safe flags lflags fscripts first tx t u u0 before :
  (has_flag flags SCRIPT_VERIFY_WITNESS = true → has_flag flags SCRIPT_VERIFY_P2SH = true) →
  coins_ok (utxo u) → heights_le (nHeight b) (utxo u) → tx_ok tx → tx_valid tx →
  prefix_inv SHA256d u0 before (utxo u) → fresh SHA256d u0 tx → ids_tell SHA256d (tx :: before) →
  (before = [] ∨ IsCoinBase tx = false) →
  safe unexpected (connect_tx SHA256d CScriptCheck parallel_script_checks st pindex b flags lflags fscripts first tx t) u
    (λ _ _, True).
Proof using Hok Hb Hp.
  intros Hfl Hu Hhe Htx Hv Hpre Hfr Hids Hcb. unfold connect_tx.
  eapply (safe_then _ _ _ _ (λ u' _, u' = u ∧ ∃ cs, Forall2 (λ i c, utxo u !! prevout i = Some c) (inputs_of tx) cs)).
  { unfold inputs_of. destruct (IsCoinBase tx) eqn:E; [split; [done|]; by exists []|]. by apply check_spending_safe. }
  intros u' fees [-> [cs Hcs]]. destruct (sigop_cost_found u Hu tx flags cs Hfl Hcs) as [cost Ec].
  eapply safe_then_run; [exact Ec|]. cbv zeta. destruct (_ <? _); [intros []|].
  eapply (safe_then _ _ _ _ (λ u' _, u' = u)).
  { destruct (_ && _) eqn:E; [|done]. unfold CheckInputScripts, inputs_of in *. destruct (IsCoinBase tx); [done|].
    eapply safe_then_run; [by apply access_all_found|]. done. }
  intros u' failed ->. destruct u as [m best]. cbn [utxo] in *.
  destruct (UpdateCoins_total SHA256d tx (nHeight b) m best cs Hcs Htx Hv) as (u' & r & Eu).
  { intros Hncb. eapply fresh_after; [done..|]. by eapply txid_new; [done|done|done|apply Hv|right]. }
  destruct failed, parallel_script_checks; try (intros []); (eapply safe_then_run; [exact Eu|done]).
Qed.

Lemma connect_txs_safe flags lflags fscripts u0 vtx :
  (has_flag flags SCRIPT_VERIFY_WITNESS = true → has_flag flags SCRIPT_VERIFY_P2SH = true) → ∀ before first t u,
  0 <= nFees t <= MAX_MONEY →
  coins_ok (utxo u) → heights_le (nHeight b) (utxo u) → Forall tx_ok vtx → Forall tx_valid vtx →
  prefix_inv SHA256d u0 before (utxo u) → Forall (fresh SHA256d u0) vtx → ids_tell SHA256d (before ++ vtx) →
  match vtx with
  | [] => True
  | tx :: rest => (before = [] ∨ IsCoinBase tx = false) ∧ Forall (λ tx, IsCoinBase tx = false) rest
  end →
  safe unexpected (connect_txs SHA256d CScriptCheck parallel_script_checks st pindex b flags lflags fscripts first vtx t) u
    (λ _ _, True).
Proof using Hok Hb Hp Hh.
  intros Hfl. induction vtx as [|tx vtx IH]; intros before first t u Ht Hu Hhe Hoks Hvs Hpre Hfrs Hids Hcb;
    cbn [connect_txs]; [done|].
  apply Forall_cons in Hoks as [Htx Hoks], Hvs as [Hv Hvs], Hfrs as [Hfr Hfrs]. destruct Hcb as [Hcb Hrest].
  assert (Hids' : ids_tell SHA256d (tx :: before)) by (intros ? ? H1 H2; apply Hids; set_solver).
  pose proof (connect_tx_safe flags lflags fscripts first tx t u u0 before Hfl Hu Hhe Htx Hv Hpre Hfr Hids' Hcb) as Hs.
  unfold safe in Hs |- *. unfold mthen. destruct (connect_tx _ _ _ _ _ _ _ _ _ _ _ _ u) as [u1 [t1|f]] eqn:E; [|done].
  destruct (connect_tx_spec _ _ _ _ _ _ _ _ _ _ _ _ _ _ _ E Ht (tx_ok_indices _ Htx))
    as (cs & fee & He & _ & _ & Ht1 & _ & _ & Hnull).
  apply (IH (tx :: before)); try done.
  - by eapply tx_effect_coins.
  - eapply tx_effect_heights; [done..|lia|done].
  - eapply prefix_step; [done..|]. eapply txid_new; [done|by apply He|done|apply Hv|done].
  - intros ? ? H1 H2. apply Hids; set_solver.
  - destruct vtx as [|tx' vtx]; [done|]. apply Forall_cons in Hrest as [? ?]. by split; [right|].
Qed.

Lemma overwrites_any_total {E} vtx u : ∃ r, overwrites_any (E := E) SHA256d vtx u = (u, inl r).
Proof using Type.
  assert (H : ∀ txid n i, ∃ r, overwrites_output (E := E) txid n i u = (u, inl r)).
  { intros txid n. induction n as [|n IH]; intros i; cbn [overwrites_output]; [by eexists|]. unfold mthen, lift.
    cbn [HaveCoin UTXO_ops]. case_bool_decide; [by eexists|apply IH]. }
  induction vtx as [|tx vtx IH]; cbn [overwrites_any]; [by eexists|]. unfold mthen.
  destruct (H (GetTxid SHA256d tx) (length (vout tx)) 0%nat) as [[] ->]; [by eexists|apply IH].
Qed.

Lemma block_flags_p2sh hash :
  script_flag_exceptions cparams = ∅ →
  has_flag (GetBlockScriptFlags params bparams cparams pqc_active hash b) SCRIPT_VERIFY_P2SH = true.
Proof using Type.
  intros Hex. unfold GetBlockScriptFlags. rewrite Hex, lookup_empty. cbn [default id].
  assert (H0 : ∀ c f flags, Z.testbit flags 0 = true → Z.testbit (add_flag c f flags) 0 = true).
  { intros c f flags H. unfold add_flag. destruct c; [|done]. by rewrite Z.lor_spec, H. }
  assert (H1 : ∀ flags, Z.testbit flags 0 = true → has_flag flags SCRIPT_VERIFY_P2SH = true).
  { intros flags H. unfold has_flag. apply negb_true_iff, Z.eqb_neq. intros E.
    apply (f_equal (λ z, Z.testbit z 0)) in E. by rewrite Z.land_spec, H in E. }
  apply H1. destruct (pqc_active _); repeat apply H0; [rewrite Z.lor_spec, orb_true_iff; left|]; by repeat apply H0.
Qed.

(** The rules that decide on the contents reject them or let them in. *)
Lemma connect_contents_total best_header vtx coinbase rest u :
  AssumedValidBlock cparams = 0 → script_flag_exceptions cparams = ∅ →
  enforce_BIP30 params cparams st pindex b prev = true →
  coins_ok (utxo u) → heights_le (nHeight b) (utxo u) → Forall tx_ok vtx → Forall tx_valid vtx →
  vtx = coinbase :: rest → Forall (λ tx, IsCoinBase tx = false) rest → ids_tell SHA256d vtx →
  safe unexpected (connect_contents SHA256d params bparams cparams opts CScriptCheck pqc_active
    parallel_script_checks st best_header pindex b vtx) u (λ _ _, True).
Proof using Hok Hb Hp Hh.
  intros Ha Hex H30 Hu Hhe Hoks Hvs -> Hrest Hids. unfold connect_contents, script_checks. rewrite Ha, Z.eqb_refl, Hp, H30.
  assert (Hfit : Forall (λ tx, indices_fit 0 (vout tx)) (coinbase :: rest))
    by (eapply Forall_impl; [exact Hoks|apply tx_ok_indices]).
  destruct (overwrites_any_total (E := Failure) (coinbase :: rest) u) as [found E].
  eapply safe_then_run; [exact E|]. destruct found; [intros []|].
  apply overwrites_any_spec in E as [_ Hfr]; [|done]. cbv zeta.
  eapply safe_then; [apply (connect_txs_safe _ _ _ (utxo u) _ (λ _, block_flags_p2sh pindex Hex) [])|]; try done.
  { apply prefix_nil. }
  { by split; [left|]. }
  intros u2 t _. cbn [head mbind option_bind]. apply Forall_cons in Hvs as [[] _]. unfold GetValueOut.
  destruct (value_out_exact (vout coinbase) 0) as [-> _]; [unfold MAX_MONEY, COIN; lia|done|done|].
  destruct (_ <? _); [intros []|]. destruct (negb _); [intros []|done].
Qed.
End total.
