(* ===== verification/HeadersSync.v ===== *)
(** * Header synchronisation: [HeadersSyncState] of src/src/headerssync.{h,cpp}

    A peer's chain is downloaded twice.  In PRESYNC only its work is added up and one bit
    for every 615 headers is kept; in REDOWNLOAD the headers are compared to these bits and
    buffered, and those buried deep enough are released to the caller.  The members the
    constructor sets once are a record of their own, [SyncParams].  The salted hasher is one
    of them, the clock and the random offset are arguments.  [None] is an assertion that
    fails in the difficulty rule.  [LocatorEntries] is that of src/src/chain.cpp. *)

From S2P Require Import Prelude OrdSet TipSet Arith256 Serialize BlockHeader Ghostdag.
From S2P Require Import BlockIndex BlockIndexProvider Pow Chainman Accept.

Local Open Scope Z_scope.

(** ** Data *)

Definition HEADER_COMMITMENT_PERIOD : Z := 615.
Definition REDOWNLOAD_BUFFER_SIZE : Z := 14621.

Record CompressedHeader := mkCompressed {
  ch_nVersion : Z;
  ch_hashMerkleRoot : Z;
  ch_nTime : Z;
  ch_nBits : Z;
  ch_nNonce : Z
}.

(** The constructor from a header. *)
Definition compress (header : CBlockHeader) : CompressedHeader :=
  mkCompressed (hdr_nVersion header) (hdr_hashMerkleRoot header) (hdr_nTime header)
    (hdr_nBits header) (hdr_nNonce header).

Definition GetFullHeader (c : CompressedHeader) (hash_prev_block : Z) : CBlockHeader :=
  mkHeader (ch_nVersion c) hash_prev_block (ch_hashMerkleRoot c) (ch_nTime c) (ch_nBits c)
    (ch_nNonce c) 0 [].

Inductive SyncPhase := PRESYNC | REDOWNLOAD | FINAL.

#[export] Instance SyncPhase_eq_dec : EqDecision SyncPhase.
Proof. solve_decision. Defined.

Record ProcessingResult := mkResult {
  pow_validated_headers : list CBlockHeader;
  success : bool;
  request_more : bool
}.

(** What the constructor sets and no method changes; [start_entry] is the entry
    [m_chain_start] points to, of which only constant fields are read. *)
Record SyncParams := mkSync {
  m_commit_offset : Z;
  m_consensus_params : Params;
  m_chain_start : Z;
  start_entry : CBlockIndex;
  m_minimum_required_work : Z;
  m_hasher : Z → Z;
  m_max_commitments : Z
}.

Record HeadersSyncState := mkSyncState {
  m_current_chain_work : Z;
  m_header_commitments : list bool;
  m_last_header_received : CBlockHeader;
  m_current_height : Z;
  m_redownloaded_headers : list CompressedHeader;
  m_redownload_buffer_last_height : Z;
  m_redownload_buffer_last_hash : Z;
  m_redownload_buffer_first_prev_hash : Z;
  m_redownload_chain_work : Z;
  m_process_all_remaining_headers : bool;
  m_download_state : SyncPhase
}.

(** ** Locators *)

Fixpoint LocatorEntries_loop (fuel : nat) (st : BlockMap) (index : option Z) (step size : Z)
    : option (list Z) :=
  match index with
  | None => Some []
  | Some h =>
      match fuel with
      | O => None
      | S fuel' =>
          b ← st !! h;
          if nHeight b =? 0 then Some [h]
          else
            let height := Z.max (nHeight b - step) 0 in
            let step' := if 10 <? size + 1 then s32 (step * 2) else step in
            rest ← LocatorEntries_loop fuel' st (GetAncestor st h height) step' (size + 1);
            Some (h :: rest)
      end
  end.

(** Heights fall with every entry, so the height of the block plus one is enough. *)
Definition LocatorEntries (st : BlockMap) (index : option Z) : option (list Z) :=
  let fuel := match index with
              | Some h => match st !! h with Some b => S (Z.to_nat (nHeight b)) | None => 1%nat end
              | None => O
              end in
  LocatorEntries_loop fuel st index 1 0.

Section sync.
Context (SHA256d : list Z → Z).
Abbreviation hash_of := (GetHash SHA256d).

(** [PeerManagerImpl::CheckHeadersAreContinuous], which every message passes first. *)
Fixpoint continuous_from (hashLastBlock : Z) (headers : list CBlockHeader) : bool :=
  match headers with
  | [] => true
  | header :: rest =>
      if negb (IsNull hashLastBlock) && negb (hdr_hashPrevBlock header =? hashLastBlock) then false
      else continuous_from (hash_of header) rest
  end.

Definition CheckHeadersAreContinuous (headers : list CBlockHeader) : bool :=
  continuous_from 0 headers.

(** ** The constructor *)

(** [now] is the clock in nanoseconds, [random] the offset drawn below the period. *)
Definition NewHeadersSync (st : BlockMap) (params : Params) (hasher : Z → Z)
    (chain_start minimum_required_work now random : Z) : option (SyncParams * HeadersSyncState) :=
  b ← st !! chain_start;
  let seconds := Z.quot (now - GetMedianTimePast st chain_start * 10 ^ 9) (10 ^ 9) in
  let max_commitments :=
    u64 (6 * (seconds + MAX_FUTURE_BLOCK_TIME)) / HEADER_COMMITMENT_PERIOD in
  Some (mkSync random params chain_start b minimum_required_work hasher max_commitments,
        mkSyncState (nChainWork b) [] (GetBlockHeader b) (nHeight b) [] 0 0 0 0 false PRESYNC).

Context (c : SyncParams).

(** ** Methods *)

Definition Finalize (s : HeadersSyncState) : HeadersSyncState :=
  mkSyncState (m_current_chain_work s) [] null_header 0 [] (m_redownload_buffer_last_height s)
    0 0 (m_redownload_chain_work s) false FINAL.

(** Heights where a bit is kept; the height is converted to [size_t]. *)
Definition commit_height (height : Z) : bool :=
  u64 height mod HEADER_COMMITMENT_PERIOD =? m_commit_offset c.

Definition commitment (header : CBlockHeader) : bool :=
  negb (Z.land (m_hasher c (hash_of header)) 1 =? 0).

Definition ValidateAndProcessSingleHeader (s : HeadersSyncState) (current : CBlockHeader)
    : option (HeadersSyncState * bool) :=
  if negb (bool_decide (m_download_state s = PRESYNC)) then Some (s, false)
  else
    let next_height := s32 (m_current_height s + 1) in
    permitted ← PermittedDifficultyTransition (m_consensus_params c) next_height
      (hdr_nBits (m_last_header_received s)) (hdr_nBits current);
    if negb permitted then Some (s, false)
    else
      let commitments := if commit_height next_height
        then m_header_commitments s ++ [commitment current] else m_header_commitments s in
      let with_fields work last height :=
        mkSyncState work commitments last height (m_redownloaded_headers s)
          (m_redownload_buffer_last_height s) (m_redownload_buffer_last_hash s)
          (m_redownload_buffer_first_prev_hash s) (m_redownload_chain_work s)
          (m_process_all_remaining_headers s) (m_download_state s) in
      if commit_height next_height && (m_max_commitments c <? Z.of_nat (length commitments))
      then Some (with_fields (m_current_chain_work s) (m_last_header_received s)
                   (m_current_height s), false)
      else Some (with_fields (u256 (m_current_chain_work s + GetBlockProof (hdr_nBits current)))
                   current next_height, true).

Fixpoint presync_loop (s : HeadersSyncState) (headers : list CBlockHeader)
    : option (HeadersSyncState * bool) :=
  match headers with
  | [] => Some (s, true)
  | hdr :: rest =>
      '(s', ok) ← ValidateAndProcessSingleHeader s hdr;
      if negb ok then Some (s', false) else presync_loop s' rest
  end.

(** The switch to REDOWNLOAD: everything starts again from [m_chain_start]. *)
Definition start_redownload (s : HeadersSyncState) : HeadersSyncState :=
  mkSyncState (m_current_chain_work s) (m_header_commitments s) (m_last_header_received s)
    (m_current_height s) [] (nHeight (start_entry c)) (m_chain_start c) (m_chain_start c)
    (nChainWork (start_entry c)) (m_process_all_remaining_headers s) REDOWNLOAD.

Definition ValidateAndStoreHeadersCommitments (s : HeadersSyncState) (headers : list CBlockHeader)
    : option (HeadersSyncState * bool) :=
  match headers with
  | [] => Some (s, true)
  | first :: _ =>
      if negb (bool_decide (m_download_state s = PRESYNC)) then Some (s, false)
      else if negb (hdr_hashPrevBlock first =? hash_of (m_last_header_received s))
      then Some (s, false)
      else
        '(s', ok) ← presync_loop s headers;
        if negb ok then Some (s', false)
        else if m_minimum_required_work c <=? m_current_chain_work s'
        then Some (start_redownload s', true) else Some (s', true)
  end.

Definition ValidateAndStoreRedownloadedHeader (s : HeadersSyncState) (header : CBlockHeader)
    : option (HeadersSyncState * bool) :=
  if negb (bool_decide (m_download_state s = REDOWNLOAD)) then Some (s, false)
  else
    let next_height := m_redownload_buffer_last_height s + 1 in
    if negb (hdr_hashPrevBlock header =? m_redownload_buffer_last_hash s) then Some (s, false)
    else
      let previous_nBits := match last (m_redownloaded_headers s) with
                            | Some back => ch_nBits back
                            | None => nBits (start_entry c)
                            end in
      permitted ← PermittedDifficultyTransition (m_consensus_params c) next_height previous_nBits
        (hdr_nBits header);
      if negb permitted then Some (s, false)
      else
        let work := u256 (m_redownload_chain_work s + GetBlockProof (hdr_nBits header)) in
        let all := (m_minimum_required_work c <=? work) || m_process_all_remaining_headers s in
        let with_fields commitments headers height hash :=
          mkSyncState (m_current_chain_work s) commitments (m_last_header_received s)
            (m_current_height s) headers height hash (m_redownload_buffer_first_prev_hash s) work
            all (m_download_state s) in
        let kept commitments := with_fields commitments (m_redownloaded_headers s)
          (m_redownload_buffer_last_height s) (m_redownload_buffer_last_hash s) in
        let stored commitments := with_fields commitments
          (m_redownloaded_headers s ++ [compress header]) next_height (hash_of header) in
        if negb all && commit_height next_height
        then match m_header_commitments s with
             | [] => Some (kept [], false)
             | expected :: rest =>
                 if negb (eqb (commitment header) expected) then Some (kept rest, false)
                 else Some (stored rest, true)
             end
        else Some (stored (m_header_commitments s), true).

Fixpoint redownload_loop (s : HeadersSyncState) (headers : list CBlockHeader)
    : option (HeadersSyncState * bool) :=
  match headers with
  | [] => Some (s, true)
  | hdr :: rest =>
      '(s', ok) ← ValidateAndStoreRedownloadedHeader s hdr;
      if negb ok then Some (s', false) else redownload_loop s' rest
  end.

(** The loop of [PopHeadersReadyForAcceptance]: what is released, what stays in the buffer
    and the hash the next header released builds on. *)
Fixpoint pop_loop (all : bool) (prev : Z) (buffer : list CompressedHeader)
    : list CBlockHeader * list CompressedHeader * Z :=
  match buffer with
  | [] => ([], [], prev)
  | front :: rest =>
      if (REDOWNLOAD_BUFFER_SIZE <? Z.of_nat (length buffer)) || all then
        let header := GetFullHeader front prev in
        let '(ret, buffer', prev') := pop_loop all (hash_of header) rest in
        (header :: ret, buffer', prev')
      else ([], buffer, prev)
  end.

Definition PopHeadersReadyForAcceptance (s : HeadersSyncState)
    : list CBlockHeader * HeadersSyncState :=
  if negb (bool_decide (m_download_state s = REDOWNLOAD)) then ([], s)
  else
    let '(ret, buffer, prev) := pop_loop (m_process_all_remaining_headers s)
      (m_redownload_buffer_first_prev_hash s) (m_redownloaded_headers s) in
    (ret, mkSyncState (m_current_chain_work s) (m_header_commitments s)
       (m_last_header_received s) (m_current_height s) buffer
       (m_redownload_buffer_last_height s) (m_redownload_buffer_last_hash s) prev
       (m_redownload_chain_work s) (m_process_all_remaining_headers s) (m_download_state s)).

Definition finish (s : HeadersSyncState) (ret : ProcessingResult)
    : option (HeadersSyncState * ProcessingResult) :=
  Some (if negb (success ret && request_more ret) then Finalize s else s, ret).

Definition ProcessNextHeaders (s : HeadersSyncState) (received_headers : list CBlockHeader)
    (full_headers_message : bool) : option (HeadersSyncState * ProcessingResult) :=
  match received_headers, m_download_state s with
  | [], _ | _, FINAL => Some (s, mkResult [] false false)
  | _, PRESYNC =>
      '(s', ok) ← ValidateAndStoreHeadersCommitments s received_headers;
      finish s' (mkResult [] ok
        (ok && (full_headers_message || bool_decide (m_download_state s' = REDOWNLOAD))))
  | _, REDOWNLOAD =>
      '(s', ok) ← redownload_loop s received_headers;
      if negb ok then finish s' (mkResult [] false false)
      else
        let '(ret, s'') := PopHeadersReadyForAcceptance s' in
        let complete := bool_decide (m_redownloaded_headers s'' = [])
                        && m_process_all_remaining_headers s'' in
        finish s'' (mkResult ret true (negb complete && full_headers_message))
  end.

Definition NextHeadersRequestLocator (st : BlockMap) (s : HeadersSyncState) : option (list Z) :=
  match m_download_state s with
  | FINAL => Some []
  | PRESYNC => cons (hash_of (m_last_header_received s)) <$> LocatorEntries st (Some (m_chain_start c))
  | REDOWNLOAD => cons (m_redownload_buffer_last_hash s) <$> LocatorEntries st (Some (m_chain_start c))
  end.

(** A sync with a peer: the messages it sends, each with whether it was full, and the
    headers released in all. *)
Fixpoint sync_run (s : HeadersSyncState) (msgs : list (list CBlockHeader * bool))
    : option (HeadersSyncState * list CBlockHeader) :=
  match msgs with
  | [] => Some (s, [])
  | (headers, full) :: rest =>
      '(s', r) ← ProcessNextHeaders s headers full;
      '(s'', released) ← sync_run s' rest;
      Some (s'', pow_validated_headers r ++ released)
  end.
End sync.
