(* ===== verification/Candidates.v ===== *)
(** * The candidates for the tip stay consistent

    [setBlockIndexCandidates] is sorted by fields of the block index that change while
    blocks are accepted; a change to an entry that is already in the set would corrupt it.
    The invariant [cands_ok] says that this does not happen, that every candidate has the
    data of all its ancestors, and that no block waits in [m_blocks_unlinked] for a parent
    that is already linked.  It is proved here for every stage of acceptance (Accept.v) and
    for the operations of Chainman.v; AcceptProps.v puts the stages together. *)

From S2P Require Import Prelude OrdSet TipSet Arith256 Serialize BlockHeader Ghostdag Mergeset.
From S2P Require Import BlockIndex BlockIndexProvider GhostdagProps Pow EarlyProtection Chainman.
From S2P Require Import Accept.

Local Open Scope Z_scope.

Lemma complete_data st h : complete st h → data_at st h.
Proof. intros H. by apply (H 0%nat). Qed.

Lemma complete_child st h b p :
  st !! h = Some b → pprev b = Some p → has_data b = true → complete st p → complete st h.
Proof.
  intros Hb Hp Hd Hc [|n] a; [intros [= <-]; by exists b|].
  cbn [prev_n]. rewrite Hb. simpl. rewrite Hp. apply Hc.
Qed.

Lemma complete_root st h b :
  st !! h = Some b → pprev b = None → has_data b = true → complete st h.
Proof.
  intros Hb Hp Hd [|n] a; [intros [= <-]; by exists b|]. cbn [prev_n]. rewrite Hb. simpl. by rewrite Hp.
Qed.

(** Entries stay, with their links; data is not lost, a block with data keeps its sort key,
    and no block becomes counted. *)
Record keeps (st st' : BlockMap) : Prop := {
  kp_old h b : st !! h = Some b → ∃ b', st' !! h = Some b' ∧ links b' = links b ∧
    (m_chain_tx_count b' = m_chain_tx_count b ∨ m_chain_tx_count b' = 0) ∧
    (has_data b = true → has_data b' = true ∧ sort_key b' = sort_key b);
  kp_new h b' : st !! h = None → st' !! h = Some b' → m_chain_tx_count b' = 0
}.

Lemma keeps_refl st : keeps st st.
Proof. split; [by eauto 10|congruence]. Qed.

Lemma keeps_trans st1 st2 st3 : keeps st1 st2 → keeps st2 st3 → keeps st1 st3.
Proof.
  intros [O1 N1] [O2 N2]. split.
  - intros h b Hb. destruct (O1 h b Hb) as (b2 & Hb2 & L2 & C2 & D2).
    destruct (O2 h b2 Hb2) as (b3 & Hb3 & L3 & C3 & D3). exists b3.
    split; [done|]. split; [congruence|]. split; [destruct C2, C3; [left|right..]; congruence|].
    intros Hd. destruct (D2 Hd) as [Hd2 E2]. destruct (D3 Hd2). split; [done|congruence].
  - intros h b3 H1 H3. destruct (st2 !! h) as [b2|] eqn:H2; [|eauto].
    pose proof (N1 h b2 H1 H2). destruct (O2 h b2 H2) as (b3' & ? & _ & C & _). simplify_eq.
    destruct C; congruence.
Qed.

Lemma keeps_insert st h b b' :
  st !! h = Some b → links b' = links b →
  (m_chain_tx_count b' = m_chain_tx_count b ∨ m_chain_tx_count b' = 0) →
  (has_data b = true → has_data b' = true ∧ sort_key b' = sort_key b) →
  keeps st (<[h := b']> st).
Proof.
  intros Hb Hl Hc Hd. split.
  - intros g c Hg. destruct (decide (h = g)) as [<-|Hne].
    + assert (c = b) as -> by congruence. exists b'. by rewrite lookup_insert_eq.
    + exists c. rewrite lookup_insert_ne by done. split_and!; auto.
  - intros g c Hn Hg. rewrite lookup_insert_ne in Hg by congruence. congruence.
Qed.

Lemma keeps_fresh st h b' :
  st !! h = None → m_chain_tx_count b' = 0 → keeps st (<[h := b']> st).
Proof.
  intros Hn Hc. split.
  - intros g c Hg. exists c. rewrite lookup_insert_ne by congruence. split_and!; auto.
  - intros g c Hg. destruct (decide (h = g)) as [<-|Hne].
    + rewrite lookup_insert_eq. by intros [= <-].
    + rewrite lookup_insert_ne by done. congruence.
Qed.

(** A change of fields that the view shows none of. *)
Definition cand_view (b : CBlockIndex) := (links b, sort_key b, m_chain_tx_count b, has_data b).

Lemma keeps_view st st' : cand_view <$> st = cand_view <$> st' → keeps st st'.
Proof.
  intros Hv. split.
  - intros h b Hb. destruct (fmap_lookup_eq cand_view st' st h b (eq_sym Hv) Hb) as (b' & Hb' & E).
    apply pair_equal_spec in E as [E Ed]. apply pair_equal_spec in E as [E Ec].
    apply pair_equal_spec in E as [El Ek]. exists b'. rewrite Ed. eauto 10.
  - intros h b' Hn Hb'. destruct (fmap_lookup_eq cand_view st st' h b' Hv Hb') as (b & Hb & _). congruence.
Qed.

Lemma prev_n_keeps st st' n : chain_ok st → keeps st st' → ∀ h,
  is_Some (st !! h) → prev_n st' n h = prev_n st n h.
Proof.
  intros Hok [Ho _]. induction n as [|n IH]; intros h [b Hb]; [done|]. cbn [prev_n].
  destruct (Ho h b Hb) as (b' & -> & L & _). rewrite Hb. simpl. unfold links in L. apply (f_equal (λ x, x.1.1.1.1)) in L. cbn in L. rewrite L.
  destruct (pprev b) as [p|] eqn:Hp; [|done]. simpl. apply IH.
  destruct (ck_prev st Hok _ _ _ Hb Hp) as (bp & -> & _). eauto.
Qed.

Lemma data_keeps st st' h : keeps st st' → data_at st h → data_at st' h.
Proof.
  intros [Ho _] (b & Hb & Hd). destruct (Ho h b Hb) as (b' & Hb' & _ & _ & D). exists b'.
  split; [done|]. by apply D.
Qed.

Lemma complete_keeps st st' h : chain_ok st → keeps st st' → complete st h → complete st' h.
Proof.
  intros Hok Hk Hc n a Ha. destruct (complete_data st h Hc) as (b & Hb & _).
  rewrite (prev_n_keeps st st' n Hok Hk h) in Ha by eauto. eapply data_keeps; eauto.
Qed.

(** ** What the stages of acceptance keep *)

Lemma has_data_testbit b : has_data b = Z.testbit (nStatus b) 3.
Proof.
  unfold has_data. change BLOCK_HAVE_DATA with (2 ^ 3). destruct (Z.testbit (nStatus b) 3) eqn:E.
  - apply negb_true_iff, Z.eqb_neq. intros H. apply (f_equal (λ z, Z.testbit z 3)) in H.
    by rewrite Z.land_spec, E in H.
  - apply negb_false_iff, Z.eqb_eq, Z.bits_inj'. intros n Hn.
    rewrite Z.land_spec, Z.bits_0, Z.pow2_bits_eqb by lia.
    destruct (Z.eqb_spec 3 n) as [<-|]; [by rewrite E|apply andb_false_r].
Qed.

Lemma received_has_data params st n b : has_data (received_entry params st n b) = true.
Proof.
  rewrite has_data_testbit. cbn [nStatus received_entry set_nStatus].
  assert (H8 : ∀ s, Z.testbit s 3 = true → Z.testbit (RaiseValidity s BLOCK_VALID_TRANSACTIONS) 3 = true).
  { intros s Hs. unfold RaiseValidity. repeat case_match; try done.
    by rewrite Z.lor_spec, Z.ldiff_spec, Hs. }
  apply H8. case_match; by rewrite !Z.lor_spec, ?orb_true_r, ?orb_true_l.
Qed.

(** Scoring a block changes the sort key of that block only. *)
Lemma set_scores_keeps st h b ps d :
  st !! h = Some b → has_data b = false →
  keeps st (<[h := set_vDagParents ps b]> st) ∧ keeps st (<[h := set_dagData d b]> st).
Proof. intros Hb Hd. split; apply (keeps_insert _ _ b); auto; congruence. Qed.

Lemma dag_stage_keeps params opts cm hash block b :
  m_block_index cm !! hash = Some b → has_data b = false →
  keeps (m_block_index cm) (m_block_index (dag_stage params opts cm hash block).1) ∧
  (∃ b', m_block_index (dag_stage params opts cm hash block).1 !! hash = Some b' ∧ has_data b' = false).
Proof.
  intros Hb Hd. unfold dag_stage. destruct (dag_mode params opts); [|split; [apply keeps_refl|eauto]].
  rewrite Hb.
  assert (Hr : ∃ b1, (resolve_stage (m_block_index cm) hash b block).1 !! hash = Some b1 ∧
    has_data b1 = false ∧ keeps (m_block_index cm) (resolve_stage (m_block_index cm) hash b block).1).
  { unfold resolve_stage. destruct (_ && _); [|exists b; split_and!; try done; apply keeps_refl].
    destruct (resolve_parents _ _) as [l f]. exists (set_vDagParents l b). cbn [fst].
    rewrite lookup_insert_eq. split_and!; try done. by apply (set_scores_keeps _ _ _ l null_data). }
  destruct (resolve_stage _ _ _ _) as [st [f|]]; cbn [fst] in Hr; destruct Hr as (b1 & Hb1 & Hd1 & Hk).
  { split; [done|by eauto]. }
  assert (Hs : keeps st (score_stage params st hash).1 ∧
    ∃ b', (score_stage params st hash).1 !! hash = Some b' ∧ has_data b' = false).
  { unfold score_stage. rewrite Hb1.
    assert (Hset : ∀ d, keeps st (<[hash := set_dagData d b1]> st) ∧
      ∃ b', <[hash := set_dagData d b1]> st !! hash = Some b' ∧ has_data b' = false).
    { intros d. split; [by apply (set_scores_keeps _ _ _ [] d)|]. rewrite lookup_insert_eq. eauto. }
    assert (Hsame : keeps st st ∧ ∃ b', st !! hash = Some b' ∧ has_data b' = false)
      by (split; [apply keeps_refl|eauto]).
    repeat case_match; cbn [fst]; done. }
  destruct (score_stage params st hash) as [st' f]. cbn [fst] in *. destruct Hs as [Hk' Hb'].
  split; [by eapply keeps_trans|done].
Qed.

Lemma AddToBlockIndex_keeps st hash block best :
  keeps st (AddToBlockIndex st hash block best).1.
Proof.
  unfold AddToBlockIndex. destruct (st !! hash) eqn:Hh; [apply keeps_refl|]. cbv zeta. cbn [fst].
  by apply keeps_fresh.
Qed.
Section candidates.
Context (address : Z → Z) `{!Inj (=) (=) address}.

Record cands_ok (cm : ChainstateManager) : Prop := {
  co_sorted : ordered (work_less address (m_block_index cm)) (setBlockIndexCandidates cm);
  co_complete h : h ∈ setBlockIndexCandidates cm → complete (m_block_index cm) h;
  co_counted h b : m_block_index cm !! h = Some b → m_chain_tx_count b ≠ 0 →
                   complete (m_block_index cm) h;
  co_waiting p h : (p, h) ∈ m_blocks_unlinked cm →
    h ∉ setBlockIndexCandidates cm ∧
    (∃ b, m_block_index cm !! h = Some b ∧ has_data b = true ∧ pprev b = Some p) ∧
    ∃ bp, m_block_index cm !! p = Some bp ∧ m_chain_tx_count bp = 0;
  co_once : NoDup (m_blocks_unlinked cm).*2
}.

(** Steps that neither link nor add candidates. *)
Lemma cands_ok_keeps cm cm' :
  chain_ok (m_block_index cm) → keeps (m_block_index cm) (m_block_index cm') →
  m_blocks_unlinked cm' = m_blocks_unlinked cm →
  (∀ x, x ∈ setBlockIndexCandidates cm' → x ∈ setBlockIndexCandidates cm) →
  ordered (work_less address (m_block_index cm)) (setBlockIndexCandidates cm') →
  cands_ok cm → cands_ok cm'.
Proof.
  intros Hok Hk Hu Hsub Hord [S C K W N]. split.
  - apply (ordered_keys address (m_block_index cm)); [|done]. intros h Hh.
    destruct (complete_data _ _ (C h (Hsub h Hh))) as (b & Hb & Hd).
    destruct (kp_old _ _ Hk h b Hb) as (b' & Hb' & _ & _ & D). destruct (D Hd) as [_ E].
    rewrite Hb, Hb'. simpl. by rewrite E.
  - intros h Hh. eapply complete_keeps; eauto.
  - intros h b' Hb' Hc. destruct (m_block_index cm !! h) as [b|] eqn:Hb.
    + destruct (kp_old _ _ Hk h b Hb) as (b2 & Hb2 & _ & Hcnt & _). simplify_eq.
      eapply complete_keeps; eauto. eapply K; eauto. destruct Hcnt; congruence.
    + by rewrite (kp_new _ _ Hk h b' Hb Hb') in Hc.
  - rewrite Hu. intros p h Hin. destruct (W p h Hin) as (Hn & (b & Hb & Hd & Hp) & bp & Hbp & Hz).
    split; [auto|]. destruct (kp_old _ _ Hk h b Hb) as (b' & Hb' & L & _ & D).
    destruct (kp_old _ _ Hk p bp Hbp) as (bp' & Hbp' & _ & Hcnt & _). split.
    + exists b'. split; [done|]. split; [by apply D|]. unfold links in L. congruence.
    + exists bp'. split; [done|]. destruct Hcnt; congruence.
  - by rewrite Hu.
Qed.

(** ** Linking *)

(** The queue holds complete blocks, each once, that are neither candidates nor waiting. *)
Definition queue_ok (cm : ChainstateManager) (queue : list Z) : Prop :=
  (∀ h, h ∈ queue → complete (m_block_index cm) h ∧ h ∉ setBlockIndexCandidates cm) ∧
  NoDup (queue ++ (m_blocks_unlinked cm).*2).

(** Counting and numbering a complete block changes neither links nor data, and only its
    own sort key. *)
Lemma set_counts_complete st h b tx c s g :
  chain_ok st → st !! h = Some b → complete st g → complete (<[h := set_counts tx c s b]> st) g.
Proof.
  intros Hok Hb Hc n a Ha.
  assert (Hl : links <$> st = links <$> <[h := set_counts tx c s b]> st)
    by (by apply (fmap_insert_same _ _ _ b)).
  rewrite <- (prev_n_links _ _ n Hl) in Ha. destruct (Hc n a Ha) as (d & Hd & Hdata).
  destruct (decide (h = a)) as [<-|Hne].
  - exists (set_counts tx c s b). rewrite lookup_insert_eq. split; [done|].
    replace d with b in Hdata by congruence. done.
  - exists d. by rewrite lookup_insert_ne.
Qed.

Section link_step.
Context (cm : ChainstateManager) (h : Z) (queue : list Z) (b : CBlockIndex).
Context (Hok : chain_ok (m_block_index cm)) (Hcm : cands_ok cm) (Hq : queue_ok cm (h :: queue)).
Context (Hb : m_block_index cm !! h = Some b).

Definition linked_index : BlockMap :=
  <[h := set_counts (nTx b) (prev_tx_sum (m_block_index cm) b) (nBlockSequenceId cm) b]>
    (m_block_index cm).

Definition linked : ChainstateManager :=
  with_candidates (with_index cm linked_index)
    (filter (λ e : Z * Z, e.1 ≠ h) (m_blocks_unlinked cm)) (s32 (nBlockSequenceId cm + 1))
    (TryAddBlockIndexCandidate address linked_index (m_chain cm) (setBlockIndexCandidates cm) h).

Definition waiting : list Z := (filter (λ e : Z * Z, e.1 = h) (m_blocks_unlinked cm)).*2.

Lemma linked_out x :
  x ∈ queue ++ (m_blocks_unlinked cm).*2 → x ∉ setBlockIndexCandidates cm →
  x ∉ setBlockIndexCandidates linked.
Proof using Hq Inj0.
  intros Hx Hn Hin. apply (TryAdd_elem address) in Hin as [->|?]; [|done].
  destruct Hq as [_ Hnd]. by apply NoDup_cons in Hnd as [? _].
Qed.

Lemma linked_lookup x : x ≠ h → m_block_index linked !! x = m_block_index cm !! x.
Proof using. intros Hne. by apply lookup_insert_ne. Qed.

Lemma linked_waiting p x :
  (p, x) ∈ m_blocks_unlinked cm → p ≠ h →
  x ∉ setBlockIndexCandidates linked ∧
  (∃ c, m_block_index linked !! x = Some c ∧ has_data c = true ∧ pprev c = Some p) ∧
  ∃ bp, m_block_index linked !! p = Some bp ∧ m_chain_tx_count bp = 0.
Proof using Hq Hcm Inj0.
  intros Hin Hne. destruct (co_waiting _ Hcm p x Hin) as (Hn & Hx & Hp).
  assert (Hx2 : x ∈ (m_blocks_unlinked cm).*2) by (apply list_elem_of_fmap; by exists (p, x)).
  split; [apply linked_out; [apply elem_of_app; by right|done]|].
  assert (Hxh : x ≠ h).
  { intros ->. destruct Hq as [_ Hnd]. apply NoDup_cons in Hnd as [Hnin _].
    apply Hnin, elem_of_app. by right. }
  by rewrite !linked_lookup.
Qed.

Lemma linked_ok : cands_ok linked.
Proof using All.
  destruct Hq as [Hc Hnd]. destruct (Hc h) as [Hcomp Hout]; [by left|]. split.
  - apply TryAdd_ordered; [done|]. apply (ordered_keys address (m_block_index cm)); [|apply Hcm].
    intros x Hx. unfold linked_index. rewrite lookup_insert_ne; [done|]. by intros ->.
  - intros x [->|Hx]%(TryAdd_elem address); apply set_counts_complete; try done. by apply Hcm.
  - intros x c Hx Hcnt. apply set_counts_complete; [done..|].
    destruct (decide (x = h)) as [->|Hne]; [done|]. rewrite linked_lookup in Hx by done.
    by apply (co_counted _ Hcm x c).
  - intros p x [Hne Hin]%list_elem_of_filter. by apply linked_waiting.
  - pose proof (co_once _ Hcm) as Hone.
    rewrite <- (filter_app_complement (λ e : Z * Z, e.1 = h) (m_blocks_unlinked cm)), fmap_app in Hone.
    by apply NoDup_app in Hone as (_ & _ & Hone).
Qed.

Lemma linked_queue : queue_ok linked (queue ++ waiting).
Proof using All.
  destruct Hq as [Hc Hnd]. destruct (Hc h) as [Hcomp _]; [by left|]. split.
  - intros x [Hx|Hx]%elem_of_app.
    + destruct (Hc x) as [H1 H2]; [by right|]. split; [by apply set_counts_complete|].
      apply linked_out; [|done]. apply elem_of_app. by left.
    + apply list_elem_of_fmap in Hx as ([p y] & -> & [Hp Hin]%list_elem_of_filter).
      cbn [fst snd] in *. subst p.
      destruct (co_waiting _ Hcm h y Hin) as (Hn & (c & Hy & Hd & Hp) & _). split.
      * apply set_counts_complete; [done..|]. by apply (complete_child _ y c h).
      * apply linked_out; [|done]. apply elem_of_app. right. apply list_elem_of_fmap. by exists (h, y).
  - apply NoDup_cons in Hnd as [_ Hnd]. unfold waiting, linked. cbn [m_blocks_unlinked with_candidates].
    rewrite <- app_assoc, <- fmap_app, (filter_app_complement (λ e : Z * Z, e.1 = h)). exact Hnd.
Qed.
End link_step.

Lemma link_loop_ok fuel : ∀ cm queue,
  chain_ok (m_block_index cm) → cands_ok cm → queue_ok cm queue →
  cands_ok (link_loop address fuel cm queue).
Proof.
  induction fuel as [|fuel IH]; intros cm queue Hok Hcm Hq; [done|]. cbn [link_loop].
  destruct queue as [|h queue]; [done|]. destruct (m_block_index cm !! h) as [b|] eqn:Hb; [|done].
  apply (IH (linked cm h b)).
  - apply (chain_ok_links (m_block_index cm)); [|done]. by apply (fmap_insert_same _ _ _ b).
  - by apply (linked_ok cm h queue b).
  - by apply (linked_queue cm h queue b).
Qed.

(** Every round empties one place of the queue, so that as many rounds as there are queued
    and waiting blocks are enough: more make no difference. *)
Lemma link_loop_fuel fuel : ∀ cm queue extra,
  (length queue + length (m_blocks_unlinked cm) <= fuel)%nat →
  link_loop address (fuel + extra) cm queue = link_loop address fuel cm queue.
Proof.
  induction fuel as [|fuel IH]; intros cm queue extra Hf.
  - destruct queue; [by destruct extra|simpl in Hf; lia].
  - cbn [link_loop Nat.add]. destruct queue as [|h queue]; [done|].
    destruct (m_block_index cm !! h) as [b|]; [|done]. cbv zeta. apply IH.
    cbn [m_blocks_unlinked with_candidates length] in *. rewrite length_app, length_fmap.
    pose proof (Permutation_length
      (filter_app_complement (λ e : Z * Z, e.1 = h) (m_blocks_unlinked cm))) as Hl.
    rewrite length_app in Hl. lia.
Qed.

(** ** The stages of acceptance *)

(** A block that receives its data was neither a candidate nor waiting. *)
Lemma no_data_fresh cm h b :
  cands_ok cm → m_block_index cm !! h = Some b → has_data b = false →
  h ∉ setBlockIndexCandidates cm ∧ h ∉ (m_blocks_unlinked cm).*2 ∧ m_chain_tx_count b = 0.
Proof.
  intros Hcm Hb Hd. split_and!.
  - intros Hin. destruct (complete_data _ _ (co_complete _ Hcm h Hin)) as (c & Hc & Hdc). congruence.
  - intros ([p g] & -> & Hin)%list_elem_of_fmap. cbn [snd] in *.
    destruct (co_waiting _ Hcm p g Hin) as (_ & (c & Hc & Hdc & _) & _). congruence.
  - destruct (decide (m_chain_tx_count b = 0)) as [|Hne]; [done|].
    destruct (complete_data _ _ (co_counted _ Hcm h b Hb Hne)) as (c & Hc & Hdc). congruence.
Qed.

Lemma Received_cands params cm hash n b :
  chain_ok (m_block_index cm) → cands_ok cm → m_block_index cm !! hash = Some b →
  has_data b = false → cands_ok (ReceivedBlockTransactions params address cm hash n).
Proof.
  intros Hok Hcm Hb Hd. destruct (no_data_fresh cm hash b Hcm Hb Hd) as (Hc & Hw & Hz).
  unfold ReceivedBlockTransactions. rewrite Hb. cbv zeta.
  set (e := received_entry params (m_block_index cm) n b).
  set (cm' := with_index cm (<[hash := e]> (m_block_index cm))).
  assert (He : has_data e = true) by apply received_has_data.
  assert (Hk : keeps (m_block_index cm) (m_block_index cm')).
  { apply (keeps_insert _ _ b); [done|done| |congruence]. simpl. destruct (_ || _); auto. }
  assert (Hok' : chain_ok (m_block_index cm')).
  { apply (chain_ok_links (m_block_index cm)); [|done]. by apply (fmap_insert_same _ _ _ b). }
  assert (Hcm' : cands_ok cm') by (by apply (cands_ok_keeps cm cm'); try apply Hcm).
  assert (He' : m_block_index cm' !! hash = Some e) by apply lookup_insert_eq.
  assert (Hlink : complete (m_block_index cm') hash →
    cands_ok (link_loop address (S (length (m_blocks_unlinked cm))) cm' [hash])).
  { intros Hcomp. apply link_loop_ok; [done..|]. split.
    - intros x ->%list_elem_of_singleton. done.
    - constructor; [done|apply Hcm]. }
  destruct (pprev e) as [p|] eqn:Hp; [|by apply Hlink, (complete_root _ _ e)].
  destruct (m_block_index cm' !! p) as [bp|] eqn:Hbp; [|done].
  destruct (Z.eqb_spec (m_chain_tx_count bp) 0) as [Hz'|Hnz]; cbn [negb].
  2:{ apply Hlink, (complete_child _ _ e p); [done..|]. by apply (co_counted _ Hcm' p bp). }
  destruct (IsValid bp BLOCK_VALID_TREE); [|done]. destruct Hcm' as [S C K W N]. split; [done..| |].
  - cbn [m_blocks_unlinked with_candidates]. intros q x [Hin|Hin]%elem_of_app; [by apply W|].
    apply list_elem_of_singleton in Hin as [= -> ->]. eauto 10.
  - cbn [m_blocks_unlinked with_candidates]. rewrite fmap_app. apply NoDup_app. split; [done|].
    split; [|by apply NoDup_singleton]. intros x Hx ->%list_elem_of_singleton. done.
Qed.

End candidates.
