(* ===== verification/AcceptProps.v ===== *)
(** * What acceptance guarantees

    The invariant of the block index over all runs of the handlers of Accept.v, what an
    accepted header and an accepted block have been checked for and leave behind, the
    candidates for the tip, and what is not guaranteed, with concrete runs. *)

From Stdlib Require Import String.
From S2P Require Import Prelude OrdSet TipSet Arith256 Serialize BlockHeader Ghostdag Mergeset.
From S2P Require Import BlockIndex BlockIndexProvider GhostdagProps Pow EarlyProtection Chainman.
From S2P Require Import Accept Candidates.

Local Open Scope Z_scope.

(** ** The invariant *)

(** The header of every entry hashes to the entry's key. *)
Definition index_hashed (SHA256d : list Z → Z) (st : BlockMap) : Prop :=
  ∀ h b, st !! h = Some b → GetHash SHA256d (GetBlockHeader b) = h.

Record cm_ok (SHA256d : list Z → Z) (genesis : Z) (cm : ChainstateManager) : Prop := {
  ok_chain : chain_ok (m_block_index cm);
  ok_closed : index_closed (m_block_index cm);
  ok_best : best_ok (m_block_index cm, m_best_header cm);
  ok_genesis : is_Some (m_block_index cm !! genesis);
  ok_hashed : index_hashed SHA256d (m_block_index cm)
}.

Lemma hashed_links SHA256d (st st' : BlockMap) :
  links <$> st = links <$> st' → index_hashed SHA256d st → index_hashed SHA256d st'.
Proof.
  intros Hl Hh h b' Hb'. destruct (fmap_lookup_eq _ _ _ _ _ Hl Hb') as (b & Hb & E).
  rewrite <- (Hh h b Hb). unfold GetHash. f_equal. unfold hash_preimage, IsDagBlock.
  unfold links, header_fields in E. cbn. by injection E as -> _ _ _ -> -> -> -> -> ->.
Qed.

Lemma cm_ok_links SHA256d genesis cm cm' :
  links <$> m_block_index cm = links <$> m_block_index cm' → index_closed (m_block_index cm') →
  m_best_header cm = m_best_header cm' → cm_ok SHA256d genesis cm → cm_ok SHA256d genesis cm'.
Proof.
  intros Hl Hcl Hb [H1 H2 H3 H4 H5]. split; [by eapply chain_ok_links|done| | |].
  - rewrite <- Hb. by eapply best_ok_links.
  - eapply fmap_lookup_is_Some; eauto.
  - by eapply hashed_links.
Qed.

Lemma cm_ok_dag_links SHA256d genesis cm cm' :
  dag_links <$> m_block_index cm = dag_links <$> m_block_index cm' →
  m_best_header cm = m_best_header cm' → cm_ok SHA256d genesis cm → cm_ok SHA256d genesis cm'.
Proof.
  intros Hl Hb Hok. eapply cm_ok_links; [by apply dag_links_links| |done|done].
  eapply closed_dag_links; [done|]. by destruct Hok.
Qed.

(** Adding an entry keeps all parents known: those of the entry are looked up. *)
Lemma AddToBlockIndex_closed st hash block best :
  index_closed st → index_closed (AddToBlockIndex st hash block best).1.
Proof.
  intros Hc. unfold AddToBlockIndex. destruct (st !! hash) eqn:Hh; [done|]. cbv zeta. cbn [fst].
  set (st0 := <[hash := index_of_header block]> st). set (e := new_entry st0 block).
  assert (Hknown : ∀ p, is_Some (st0 !! p) → is_Some (<[hash := e]> st !! p)).
  { intros p. unfold st0. destruct (decide (hash = p)) as [<-|Hne].
    - rewrite !lookup_insert_eq. eauto.
    - by rewrite !lookup_insert_ne by done. }
  intros h c p Hc' Hp. apply Hknown. unfold Index_GetParents in Hp.
  destruct (decide (hash = h)) as [<-|Hne].
  - rewrite lookup_insert_eq in Hp. apply elem_of_app in Hp as [Hp|Hp].
    + unfold e, new_entry in Hp. simpl in Hp. destruct (st0 !! hdr_hashPrevBlock block) eqn:E;
        simpl in Hp; [|by apply elem_of_nil in Hp]. apply list_elem_of_singleton in Hp as ->. eauto.
    + apply list_elem_of_omap in Hp as (o & Ho & Hid). simpl in Hid. subst o. unfold e, new_entry in Ho. simpl in Ho.
      destruct (IsDagBlock block); [|by apply elem_of_nil in Ho].
      apply list_elem_of_fmap in Ho as (q & [= <-] & Hq). by apply list_elem_of_filter in Hq as [? _].
  - rewrite lookup_insert_ne in Hp, Hc' by done. unfold st0.
    assert (is_Some (st !! p)) as [d Hd]
      by (apply (Hc h c); [done|]; unfold Index_GetParents; by rewrite Hc' in Hp |- * ).
    destruct (decide (hash = p)) as [<-|Hnp]; [congruence|]. rewrite lookup_insert_ne by done. eauto.
Qed.

(** An entry keeps the fields that are hashed, when its previous block is known or null. *)
Lemma AddToBlockIndex_hashed SHA256d st hash block best :
  GetHash SHA256d block = hash →
  is_Some (st !! hdr_hashPrevBlock block) ∨ hdr_hashPrevBlock block = 0 →
  index_hashed SHA256d st → index_hashed SHA256d (AddToBlockIndex st hash block best).1.
Proof.
  intros Hh Hp Hst. unfold AddToBlockIndex. destruct (st !! hash) eqn:E; [done|]. cbv zeta. cbn [fst].
  intros h b. destruct (decide (hash = h)) as [<-|Hne].
  2: { rewrite lookup_insert_ne by done. apply Hst. }
  rewrite lookup_insert_eq. intros <-%(inj Some). rewrite <- Hh at 2. unfold GetHash. f_equal.
  unfold hash_preimage, IsDagBlock, GetBlockHeader, new_entry. cbn.
  set (st0 := <[hash := index_of_header block]> st).
  assert (Hpp : default 0 (match st0 !! hdr_hashPrevBlock block with
      Some _ => Some (hdr_hashPrevBlock block) | None => None end) = hdr_hashPrevBlock block);
    [|by rewrite Hpp].
  destruct (st0 !! hdr_hashPrevBlock block) eqn:E0; [done|]. destruct Hp as [[p Hp]| ->]; [|done].
  unfold st0 in E0. rewrite lookup_insert_ne in E0 by congruence. congruence.
Qed.

Lemma add_header_entry_ok SHA256d genesis cm hash block :
  (hdr_hashPrevBlock block ≠ hash ∧ GetHash SHA256d block = hash ∧
   (is_Some (m_block_index cm !! hdr_hashPrevBlock block) ∨ hdr_hashPrevBlock block = 0)) ∨
  is_Some (m_block_index cm !! hash) →
  cm_ok SHA256d genesis cm → cm_ok SHA256d genesis (add_header_entry cm hash block).
Proof.
  intros Hne [H1 H2 H3 H4 H5]. unfold add_header_entry.
  pose proof (AddToBlockIndex_closed _ hash block (m_best_header cm) H2) as Hcl.
  pose proof (AddToBlockIndex_best_ok _ _ hash block H3) as Hb.
  assert (Hch : chain_ok (AddToBlockIndex (m_block_index cm) hash block (m_best_header cm)).1).
  { destruct Hne as [[Hne _]|[b Hb']]; [by apply AddToBlockIndex_chain_ok|].
    unfold AddToBlockIndex. by rewrite Hb'. }
  assert (Hh : index_hashed SHA256d
    (AddToBlockIndex (m_block_index cm) hash block (m_best_header cm)).1).
  { destruct Hne as [(_ & Hh & Hp)|[b Hb']]; [by apply AddToBlockIndex_hashed|].
    unfold AddToBlockIndex. by rewrite Hb'. }
  assert (Hg : is_Some ((AddToBlockIndex (m_block_index cm) hash block (m_best_header cm)).1
                          !! genesis)).
  { unfold AddToBlockIndex. destruct (m_block_index cm !! hash) eqn:E; [done|]. cbv zeta. cbn [fst].
    destruct (decide (hash = genesis)) as [->|]; [rewrite lookup_insert_eq; eauto|].
    by rewrite lookup_insert_ne. }
  destruct (AddToBlockIndex _ _ _ _) as [st best]. by constructor.
Qed.

Section invariant.
Context (SHA256d : list Z → Z) (genesis : Z) (params : Params) (opts : Options).

(** A new header that passes: what was checked, and nothing has changed yet. *)
Lemma check_new_header_pass cm block now cm' :
  check_new_header SHA256d params opts cm block now = (cm', None) →
  cm' = cm ∧ CheckBlockHeader SHA256d params block = None ∧
  ∃ prev_b, m_block_index cm !! hdr_hashPrevBlock block = Some prev_b ∧ IsFailed prev_b = false ∧
    ContextualCheckBlockHeader params opts (m_block_index cm) block (hdr_hashPrevBlock block)
      prev_b now = None ∧
    check_dag_header SHA256d params opts (m_block_index cm) block prev_b = None.
Proof.
  unfold check_new_header. destruct (CheckBlockHeader _ _ _) eqn:E1; [done|].
  destruct (m_block_index cm !! hdr_hashPrevBlock block) as [prev_b|]; [|done].
  destruct (IsFailed prev_b) eqn:E2; [done|].
  destruct (ContextualCheckBlockHeader _ _ _ _ _ _ _) eqn:E3; [done|].
  destruct (check_dag_header _ _ _ _ _ _) eqn:E4; [done|].
  intros H. assert (cm' = cm) as ->; [|by eauto 10].
  destruct (IsValid _ _); [by simplify_eq|]. by destruct (descends_from_failed _ _ _ _) as [[?|]|]; simplify_eq.
Qed.

(** What the loop over the extra parents has checked. *)
Lemma check_dag_parents_pass st prev prev_b ps : ∀ seen,
  check_dag_parents st prev prev_b seen ps = None →
  NoDup ps ∧ prev ∉ ps ∧ (∀ p, p ∈ ps → p ∉ seen) ∧
  ∀ p b, p ∈ ps → st !! p = Some b → IsFailed b = false ∧
    (nHeight prev_b < nHeight b → GetAncestor st p (nHeight prev_b) ≠ Some prev).
Proof.
  induction ps as [|p ps IH]; intros seen; simpl.
  { intros _. split; [constructor|]. split; [apply not_elem_of_nil|].
    split; intros ? *; by intros ?%elem_of_nil. }
  destruct (Z.eqb_spec p prev) as [?|Hp]; [done|].
  destruct (decide (p ∈ seen)) as [Hs|Hs]; [by rewrite bool_decide_eq_true_2|].
  rewrite bool_decide_eq_false_2 by done. intros H.
  assert (Hrest : check_dag_parents st prev prev_b ({[p]} ∪ seen) ps = None ∧
    ∀ b, st !! p = Some b → IsFailed b = false ∧
      (nHeight prev_b < nHeight b → GetAncestor st p (nHeight prev_b) ≠ Some prev)).
  { destruct (st !! p) as [b|]; [|by split]. destruct (IsFailed b) eqn:Ef; [done|].
    destruct (Z.ltb_spec (nHeight prev_b) (nHeight b)); simpl in H.
    - destruct (bool_decide (GetAncestor st p (nHeight prev_b) = Some prev)) eqn:Ea; [done|].
      apply bool_decide_eq_false in Ea. split; [done|]. by intros ? [= <-].
    - split; [done|]. intros ? [= <-]. split; [done|lia]. }
  destruct Hrest as [Hrest Hb]. apply IH in Hrest as (H1 & H2 & H3 & H4).
  split; [constructor; [|done]; intros Hin; apply (H3 p Hin); set_solver|].
  split; [by apply not_elem_of_cons|]. split.
  - intros q [->|Hq]%elem_of_cons; [done|]. pose proof (H3 q Hq). set_solver.
  - intros q b [->|Hq]%elem_of_cons; [apply Hb|by apply H4].
Qed.

(** C21. A header is added only when it has been checked: its hash meets the target of its
    bits, the bits are those the difficulty rule asks for on the previous block, which is
    known and not failed, its time is after the median past and at most two hours ahead;
    and, in DAG mode, its extra parents are at most [nMaxDagParents], pairwise different
    and different from the selected parent, committed to by [hashParentsRoot], and those
    already known are neither failed nor descend from the selected parent through the
    chain.  All that changes then is the new entry and perhaps the best header. *)
Theorem accepted_header_sound cm block mp now cm' hash :
  AcceptBlockHeader SHA256d genesis params opts cm block mp now = (cm', inl hash) →
  hash ≠ genesis → m_block_index cm !! hash = None →
  let st := m_block_index cm in let prev := hdr_hashPrevBlock block in
  hash = GetHash SHA256d block ∧ mp = true ∧ cm' = add_header_entry cm hash block ∧
  CheckProofOfWork hash (hdr_nBits block) params = true ∧
  ∃ prev_b, st !! prev = Some prev_b ∧ IsFailed prev_b = false ∧
    GetNextWorkRequired st params (arg_dag opts) prev (hdr_nTime block) = Some (hdr_nBits block) ∧
    GetMedianTimePast st prev < hdr_nTime block <= now + MAX_FUTURE_BLOCK_TIME ∧
    (IsDagBlock block = true → dag_mode params opts = true →
     Z.of_nat (length (hdr_hashParents block)) <= nMaxDagParents params ∧
     hdr_hashParentsRoot block = ComputeParentsRoot SHA256d (hdr_hashParents block) ∧
     NoDup (prev :: hdr_hashParents block) ∧
     ∀ p b, p ∈ hdr_hashParents block → st !! p = Some b → IsFailed b = false ∧
       (nHeight prev_b < nHeight b → GetAncestor st p (nHeight prev_b) ≠ Some prev)).
Proof.
  intros H Hg Hnew st prev. unfold AcceptBlockHeader in H.
  destruct (Z.eqb_spec (GetHash SHA256d block) genesis) as [E|E]; cbn [negb] in H.
  { destruct mp; [|done]. congruence. }
  destruct (m_block_index cm !! GetHash SHA256d block) as [b|] eqn:Eb.
  { destruct (IsFailed b); [done|]. congruence. }
  destruct (check_new_header SHA256d params opts cm block now) as [cm1 [f|]] eqn:Ec; [done|].
  apply check_new_header_pass in Ec as (-> & Hpow & prev_b & Hp & Hf & Hctx & Hdag).
  destruct mp; [|done]. injection H as <- <-. split; [done|]. split; [done|]. split; [done|].
  unfold CheckBlockHeader in Hpow. destruct (CheckProofOfWork _ _ _); [|done].
  split; [done|]. exists prev_b. split; [done|]. split; [done|].
  unfold ContextualCheckBlockHeader in Hctx.
  destruct (GetNextWorkRequired _ _ _ _ _) as [bits|] eqn:Ebits; [|done].
  destruct (Z.eqb_spec (hdr_nBits block) bits) as [<-|]; cbn [negb] in Hctx; [|done].
  split; [done|].
  destruct (before_checkpoint _ _ _); [done|].
  unfold st, prev in *.
  destruct (Z.leb_spec (hdr_nTime block) (GetMedianTimePast (m_block_index cm) (hdr_hashPrevBlock block)));
    [done|].
  destruct (_ && (_ =? 0)); [done|]. destruct (_ && _ && _); [done|].
  destruct (Z.ltb_spec (now + MAX_FUTURE_BLOCK_TIME) (hdr_nTime block)); [done|].
  split; [lia|]. intros Hd Hm. unfold check_dag_header in Hdag. rewrite Hd, Hm in Hdag. cbn [andb] in Hdag.
  destruct (Z.ltb_spec (nMaxDagParents params) (Z.of_nat (length (hdr_hashParents block)))); [done|].
  destruct (Z.eqb_spec (hdr_hashParentsRoot block) (ComputeParentsRoot SHA256d (hdr_hashParents block)));
    cbn [negb] in Hdag; [|done].
  apply check_dag_parents_pass in Hdag as (? & ? & _ & ?).
  split; [lia|]. split; [done|]. split; [by constructor|done].
Qed.

Lemma check_new_header_links cm block now :
  let cm' := (check_new_header SHA256d params opts cm block now).1 in
  dag_links <$> m_block_index cm = dag_links <$> m_block_index cm' ∧
  m_best_header cm = m_best_header cm'.
Proof.
  unfold check_new_header. repeat (case_match; try done). simpl. split; [|done].
  by eapply descends_from_failed_view.
Qed.

Lemma AcceptBlockHeader_ok cm block mp now :
  cm_ok SHA256d genesis cm → cm_ok SHA256d genesis (AcceptBlockHeader SHA256d genesis params opts cm block mp now).1.
Proof.
  intros Hok. unfold AcceptBlockHeader. remember (GetHash SHA256d block) as hash eqn:Ehash.
  destruct (Z.eqb_spec hash genesis) as [->|Hne]; cbn [negb].
  - destruct mp; [|done]. apply add_header_entry_ok; [|done]. right. by destruct Hok.
  - destruct (m_block_index cm !! hash) as [b|] eqn:Hh; [by destruct (IsFailed b)|].
    pose proof (check_new_header_links cm block now) as [Hl Hb].
    destruct (check_new_header _ _ _ cm block now) as [cm' [f|]] eqn:E; cbn [fst] in *.
    + by eapply cm_ok_dag_links.
    + apply check_new_header_pass in E as (-> & _ & prev_b & Hp & _). destruct mp; [|done].
      apply add_header_entry_ok; [|done]. left. split; [congruence|]. split; [done|]. left. eauto.
Qed.

Lemma dag_stage_ok cm hash block :
  cm_ok SHA256d genesis cm → cm_ok SHA256d genesis (dag_stage params opts cm hash block).1.
Proof.
  intros Hok. unfold dag_stage. destruct (dag_mode params opts); [|done].
  destruct (m_block_index cm !! hash) as [b|] eqn:Hb; [|done].
  pose proof (resolve_stage_ok _ hash b block Hb (ok_closed _ _ _ Hok)) as [Hl Hc].
  destruct (resolve_stage _ _ _ _) as [st [f|]]; cbn [fst] in *.
  - by apply (cm_ok_links SHA256d genesis cm).
  - pose proof (score_stage_links params st hash) as Hs.
    destruct (score_stage params st hash) as [st' f]. cbn [fst] in *.
    apply (cm_ok_links SHA256d genesis cm); [simpl; rewrite Hl; by apply dag_links_links| |done|done].
    by eapply closed_dag_links.
Qed.

Lemma early_stage_best cm hash now rand :
  m_best_header (early_stage params opts cm hash now rand) = m_best_header cm.
Proof. unfold early_stage. by repeat case_match. Qed.

(** Where the entries lie in memory. *)
Context (address : Z → Z) `{!Inj (=) (=) address}.

Lemma link_loop_frame fuel : ∀ cm queue,
  let cm' := link_loop address fuel cm queue in
  m_best_header cm' = m_best_header cm ∧ m_dag_tips cm' = m_dag_tips cm ∧ m_chain cm' = m_chain cm.
Proof.
  induction fuel as [|fuel IH]; intros cm queue; [done|]. cbv zeta. cbn [link_loop].
  destruct queue as [|h queue]; [done|]. destruct (m_block_index cm !! h); [|done].
  cbv zeta. edestruct IH as (-> & -> & ->). done.
Qed.

Lemma Received_frame cm hash n :
  let cm' := ReceivedBlockTransactions params address cm hash n in
  m_best_header cm' = m_best_header cm ∧ m_dag_tips cm' = m_dag_tips cm ∧ m_chain cm' = m_chain cm.
Proof.
  cbv zeta. unfold ReceivedBlockTransactions. cbv zeta.
  destruct (m_block_index cm !! hash) as [b|]; [|done].
  set (cm' := with_index cm _).
  pose proof (link_loop_frame (S (length (m_blocks_unlinked cm))) cm' [hash]) as Hl.
  by repeat case_match.
Qed.

Lemma Received_best cm hash n :
  m_best_header (ReceivedBlockTransactions params address cm hash n) = m_best_header cm.
Proof. apply Received_frame. Qed.

Lemma tips_stage_index cm hash :
  m_block_index (tips_stage params opts cm hash) = m_block_index cm ∧
  m_best_header (tips_stage params opts cm hash) = m_best_header cm.
Proof. unfold tips_stage. by repeat case_match. Qed.

Context {Body : Type} (vtx_size : Body → Z).
Context (CheckBlock : CBlockHeader → Body → option Failure).
Context (ContextualCheckBlock : BlockMap → CBlockHeader → Body → option Z → option Failure).
Context (SaveBlockToDisk : CBlockHeader → Body → Z → bool).

Abbreviation accept := (AcceptBlock SHA256d genesis params opts address vtx_size CheckBlock
  ContextualCheckBlock SaveBlockToDisk).

Lemma AcceptBlock_ok cm block body req mp now rand :
  cm_ok SHA256d genesis cm → cm_ok SHA256d genesis (accept cm block body req mp now rand).1.
Proof.
  intros Hok. unfold AcceptBlock. pose proof (AcceptBlockHeader_ok cm block mp now Hok) as Hok1.
  destruct (AcceptBlockHeader _ _ _ _ cm block mp now) as [cm1 [hash|f]]; [|done]. cbn [fst] in Hok1.
  destruct (m_block_index cm1 !! hash) as [b|] eqn:Hb; [|done].
  destruct (skip_block _ _ _ _); [done|].
  destruct (check_body _ _ _ _ _ _) as [f|].
  { destruct f; try done. simpl. destruct (bool_decide _); [done|].
    apply (cm_ok_dag_links SHA256d genesis cm1); [by apply (fmap_insert_same _ _ _ b)|done|done]. }
  pose proof (dag_stage_ok cm1 hash block Hok1) as Hok2.
  destruct (dag_stage _ _ cm1 hash block) as [cm2 [f|]]; [done|]. cbn [fst] in Hok2.
  assert (Hok3 : cm_ok SHA256d genesis (early_stage params opts cm2 hash now rand)).
  { eapply cm_ok_dag_links; [by apply early_stage_view|by rewrite early_stage_best|done]. }
  destruct (SaveBlockToDisk _ _ _); [|done]. cbn [fst].
  destruct (tips_stage_index (ReceivedBlockTransactions params address
    (early_stage params opts cm2 hash now rand) hash (vtx_size body)) hash) as [Hi Hbest].
  apply (cm_ok_dag_links SHA256d genesis (early_stage params opts cm2 hash now rand));
    [rewrite Hi; by apply ReceivedBlockTransactions_view|by rewrite Hbest, Received_best|done].
Qed.

(** ** Runs *)

(** What the rest of the node does not change: the links, sort keys and transaction counts of
    the entries, and whether their data is there (a node that does not prune). *)
Definition node_view (b : CBlockIndex) := (dag_links b, cand_view b).

(** Headers and blocks arrive in any order and from anyone, and the best chain is looked for
    and its candidates pruned at any time; the rest of the node changes flags, tips and the
    active chain. *)
Inductive cm_step : ChainstateManager → ChainstateManager → Prop :=
  | step_accept_header cm block mp now :
      cm_step cm (AcceptBlockHeader SHA256d genesis params opts cm block mp now).1
  | step_accept_block cm block body req mp now rand :
      cm_step cm (accept cm block body req mp now rand).1
  | step_find cm cm' r : FindMostWorkChain address cm = Some (cm', r) → cm_step cm cm'
  | step_prune cm tip cands :
      PruneBlockIndexCandidates address (m_block_index cm) tip (setBlockIndexCandidates cm) = Some cands →
      cm_step cm (with_candidates cm (m_blocks_unlinked cm) (nBlockSequenceId cm) cands)
  | step_rest cm cm' :
      node_view <$> m_block_index cm = node_view <$> m_block_index cm' →
      m_best_header cm = m_best_header cm' → m_blocks_unlinked cm = m_blocks_unlinked cm' →
      setBlockIndexCandidates cm = setBlockIndexCandidates cm' → cm_step cm cm'.

(** Nothing is known before the genesis block is loaded. *)
Definition empty_chainman : ChainstateManager :=
  mkChainman ∅ None None [] [] 1 [] [] empty_tipset empty_manager.

Abbreviation load_genesis := (LoadGenesisBlock SHA256d params address vtx_size SaveBlockToDisk).

Lemma LoadGenesisBlock_ok g body cm :
  GetHash SHA256d g = genesis → hdr_hashPrevBlock g = 0 → genesis ≠ 0 →
  load_genesis empty_chainman g body = (cm, true) → cm_ok SHA256d genesis cm.
Proof.
  intros Hg Hz Hnz. assert (Hne : hdr_hashPrevBlock g ≠ genesis) by congruence.
  unfold LoadGenesisBlock. rewrite Hg. cbn [m_block_index empty_chainman].
  rewrite lookup_empty. destruct (SaveBlockToDisk g body 0); [|done]. intros H.
  replace cm with (ReceivedBlockTransactions params address (add_header_entry empty_chainman genesis g)
    genesis (vtx_size body)) by congruence. clear H cm.
  assert (Hok : cm_ok SHA256d genesis (add_header_entry empty_chainman genesis g)).
  { unfold add_header_entry.
    pose proof (AddToBlockIndex_chain_ok ∅ genesis g None chain_ok_empty Hne) as H1.
    pose proof (AddToBlockIndex_best_ok ∅ None genesis g eq_refl) as H3.
    assert (Hc : index_closed ∅) by (intros h b p Hb; by rewrite lookup_empty in Hb).
    pose proof (AddToBlockIndex_closed ∅ genesis g None Hc) as H2.
    cbn [m_block_index m_best_header empty_chainman]. revert H1 H2 H3.
    unfold AddToBlockIndex. rewrite lookup_empty. cbv zeta. cbn [fst]. intros H1 H2 H3.
    constructor; [done..| |].
    - cbn [m_block_index]. rewrite lookup_insert_eq. eauto.
    - pose proof (AddToBlockIndex_hashed SHA256d ∅ genesis g None Hg (or_intror Hz)) as H5.
      unfold AddToBlockIndex in H5. rewrite lookup_empty in H5. apply H5.
      intros h b Hb. by rewrite lookup_empty in Hb. }
  eapply cm_ok_dag_links; [by apply ReceivedBlockTransactions_view| |exact Hok].
  by rewrite Received_best.
Qed.

(** The states of a node whose genesis block is [g]. *)
Definition cm_reachable (g : CBlockHeader) (body : Body) (cm : ChainstateManager) : Prop :=
  GetHash SHA256d g = genesis ∧ hdr_hashPrevBlock g = 0 ∧ genesis ≠ 0 ∧
  ∃ cm0, load_genesis empty_chainman g body = (cm0, true) ∧ rtc cm_step cm0 cm.

(** ** Candidates over a run *)

Abbreviation cok := (cands_ok address).

Lemma AcceptBlockHeader_keeps cm block mp now :
  let cm' := (AcceptBlockHeader SHA256d genesis params opts cm block mp now).1 in
  keeps (m_block_index cm) (m_block_index cm') ∧ m_blocks_unlinked cm' = m_blocks_unlinked cm ∧
  setBlockIndexCandidates cm' = setBlockIndexCandidates cm.
Proof.
  cbv zeta. unfold AcceptBlockHeader. generalize (GetHash SHA256d block). intros hash.
  assert (Hadd : ∀ mp : bool, let cm' := (if mp then (add_header_entry cm hash block, inl hash)
      else (cm, inr (Invalid BLOCK_HEADER_LOW_WORK "too-little-chainwork"))
      : ChainstateManager * (Z + Failure)).1 in
    keeps (m_block_index cm) (m_block_index cm') ∧ m_blocks_unlinked cm' = m_blocks_unlinked cm ∧
    setBlockIndexCandidates cm' = setBlockIndexCandidates cm).
  { intros [|]; cbv zeta; cbn [fst]; [|split; [apply keeps_refl|done]]. unfold add_header_entry.
    pose proof (AddToBlockIndex_keeps (m_block_index cm) hash block (m_best_header cm)) as Hk.
    by destruct (AddToBlockIndex _ _ _ _). }
  assert (Hsame : keeps (m_block_index cm) (m_block_index cm)) by apply keeps_refl.
  destruct (negb _); [|apply Hadd].
  destruct (m_block_index cm !! hash) as [b|]; [by destruct (IsFailed b)|].
  destruct (check_new_header SHA256d params opts cm block now) as [cm' [f|]] eqn:E.
  - cbn [fst]. revert E. unfold check_new_header. repeat (case_match; try (by intros [= <- _])).
    intros [= <- _]. split; [|done]. apply keeps_view. eapply descends_from_failed_view; [|done].
    intros b'. unfold cand_view. by rewrite has_data_failed.
  - apply check_new_header_pass in E as (-> & _). apply Hadd.
Qed.

Lemma AcceptBlockHeader_cands cm block mp now :
  chain_ok (m_block_index cm) → cok cm →
  cok (AcceptBlockHeader SHA256d genesis params opts cm block mp now).1.
Proof.
  intros Hok Hcm. destruct (AcceptBlockHeader_keeps cm block mp now) as (Hk & Hu & Hc).
  eapply cands_ok_keeps; eauto; rewrite Hc; [done|by apply Hcm].
Qed.

Lemma early_stage_frame cm hash now rand :
  let cm' := early_stage params opts cm hash now rand in
  cand_view <$> m_block_index cm = cand_view <$> m_block_index cm' ∧
  m_blocks_unlinked cm' = m_blocks_unlinked cm ∧
  setBlockIndexCandidates cm' = setBlockIndexCandidates cm.
Proof.
  split; [by apply early_stage_view|]. unfold early_stage. by repeat (case_match; try done).
Qed.

Lemma tips_stage_cands cm hash : cok cm → cok (tips_stage params opts cm hash).
Proof.
  intros [S C K W N]. unfold tips_stage. repeat (case_match; try done).
Qed.

Lemma AcceptBlock_cands cm block body req mp now rand :
  cm_ok SHA256d genesis cm → cok cm → cok (accept cm block body req mp now rand).1.
Proof.
  intros Hok Hcm. unfold AcceptBlock. pose proof (AcceptBlockHeader_ok cm block mp now Hok) as Hok1.
  pose proof (AcceptBlockHeader_cands cm block mp now (ok_chain _ _ _ Hok) Hcm) as Hcm1.
  destruct (AcceptBlockHeader _ _ _ _ cm block mp now) as [cm1 [hash|f]]; [|done]. cbn [fst] in Hok1, Hcm1.
  destruct (m_block_index cm1 !! hash) as [b|] eqn:Hb; [|done].
  destruct (skip_block opts cm1 b req) eqn:Hskip; [done|].
  apply orb_false_iff in Hskip as [Hd _].
  destruct (check_body _ _ _ _ _ _) as [f|].
  { destruct f; try done. cbn [body_failed]. case_bool_decide; [done|].
    eapply (cands_ok_keeps address cm1); try done; [apply Hok1| |apply Hcm1].
    apply (keeps_insert _ _ b); auto. unfold has_data. congruence. }
  pose proof (dag_stage_ok cm1 hash block Hok1) as Hok2.
  destruct (dag_stage_keeps params opts cm1 hash block b Hb Hd) as (Hk & b2 & Hb2 & Hd2).
  assert (Hcm2 : cok (dag_stage params opts cm1 hash block).1).
  { apply (cands_ok_keeps address cm1); [apply Hok1|done|..|done];
      unfold dag_stage; repeat (case_match; try done); try apply Hcm1. }
  destruct (dag_stage _ _ cm1 hash block) as [cm2 [f|]]; [done|]. cbn [fst] in *.
  destruct (early_stage_frame cm2 hash now rand) as (Hv & Hu & Hc).
  set (cm3 := early_stage params opts cm2 hash now rand) in *.
  assert (Hcm3 : cok cm3).
  { apply (cands_ok_keeps address cm2); [apply Hok2|by apply keeps_view|done|by rewrite Hc| |done].
    rewrite Hc. apply Hcm2. }
  destruct (SaveBlockToDisk _ _ _); [|done]. cbn [fst]. apply tips_stage_cands.
  destruct (fmap_lookup_eq cand_view _ _ _ _ (eq_sym Hv) Hb2) as (b3 & Hb3 & E).
  apply (Received_cands address params cm3 hash (vtx_size body) b3); [|done|done|].
  - eapply chain_ok_links; [|apply Hok2]. by apply early_stage_view.
  - apply pair_equal_spec in E as [_ ->]. done.
Qed.

Lemma FindMostWorkChain_keeps cm cm' r :
  cm_ok SHA256d genesis cm → cok cm → FindMostWorkChain address cm = Some (cm', r) →
  cm_ok SHA256d genesis cm' ∧ cok cm'.
Proof.
  intros Hok Hcm Hf.
  pose proof (find_most_work_spec address (m_block_index cm) (length (setBlockIndexCandidates cm))
    (ok_chain _ _ _ Hok) cm) as H. unfold FindMostWorkChain in Hf. rewrite Hf in H.
  destruct H as (Hp & _ & Hu); [done|apply marks_refl|apply Hcm| |].
  { intros h Hh. destruct (complete_data _ _ (co_complete _ _ Hcm h Hh)) as (b & Hb & _). eauto. }
  destruct Hp as [M C E S B O]. split.
  - apply (cm_ok_dag_links SHA256d genesis cm); [by eapply marks_view|done|done].
  - apply (cands_ok_keeps address cm); [apply Hok| |apply Hu, Hcm|done| |done].
    + split.
      * intros h b Hb. specialize (M h). rewrite Hb in M.
        destruct (m_block_index cm' !! h) as [b'|]; [|done]. destruct M as (s & -> & D & _).
        exists (set_nStatus s b). split_and!; auto. rewrite D. auto.
      * intros h b' Hn Hb'. specialize (M h). by rewrite Hn, Hb' in M.
    + apply (ordered_keys address (m_block_index cm')); [|done]. intros h _.
      pose proof (marks_view sort_key _ _ _ _ (λ _ _, eq_refl) M) as Hv.
      apply (f_equal (.!! h)) in Hv. by rewrite !lookup_fmap in Hv.
Qed.

Lemma fmap_coarser {A B} (f : CBlockIndex → A) (g : A → B) (st st' : BlockMap) :
  f <$> st = f <$> st' → (λ b, g (f b)) <$> st = (λ b, g (f b)) <$> st'.
Proof.
  intros H. apply map_eq. intros h. apply (f_equal (.!! h)) in H. rewrite !lookup_fmap in *.
  destruct (st !! h), (st' !! h); simpl in *; congruence.
Qed.

Lemma cm_step_ok cm cm' : cm_step cm cm' → cm_ok SHA256d genesis cm ∧ cok cm → cm_ok SHA256d genesis cm' ∧ cok cm'.
Proof.
  intros Hstep [Hok Hcm].
  destruct Hstep as [cm block mp now|cm block body req mp now rand|cm cm' r Hf|cm tip cands Hp|cm cm' Hv Hb Hu Hc].
  - split; [by apply AcceptBlockHeader_ok|by apply AcceptBlockHeader_cands; [apply Hok|]].
  - split; [by apply AcceptBlock_ok|by apply AcceptBlock_cands].
  - by eapply FindMostWorkChain_keeps.
  - assert (cands = prune_worse address (m_block_index cm) tip (setBlockIndexCandidates cm)) as ->
      by (unfold PruneBlockIndexCandidates in Hp; by repeat case_match; simplify_eq).
    split; [by apply (cm_ok_dag_links SHA256d genesis cm)|].
    apply (cands_ok_keeps address cm); [apply Hok|apply keeps_refl|done| | |done].
    + intros x Hx. cbn [setBlockIndexCandidates with_candidates] in Hx.
      apply (prune_worse_elem address) in Hx as [? _]; [done|apply Hcm].
    + apply prune_worse_ordered, Hcm.
  - assert (Hd : dag_links <$> m_block_index cm = dag_links <$> m_block_index cm')
      by exact (fmap_coarser node_view fst _ _ Hv).
    assert (Hk : cand_view <$> m_block_index cm = cand_view <$> m_block_index cm')
      by exact (fmap_coarser node_view snd _ _ Hv).
    split; [by apply (cm_ok_dag_links SHA256d genesis cm)|].
    apply (cands_ok_keeps address cm); [apply Hok|by apply keeps_view|done|by rewrite Hc| |done].
    rewrite <- Hc. apply Hcm.
Qed.

Lemma LoadGenesisBlock_cands g body cm :
  GetHash SHA256d g = genesis → hdr_hashPrevBlock g = 0 → genesis ≠ 0 →
  load_genesis empty_chainman g body = (cm, true) → cok cm.
Proof.
  intros Hg Hz Hnz. assert (Hne : hdr_hashPrevBlock g ≠ genesis) by congruence.
  unfold LoadGenesisBlock. rewrite Hg. cbn [m_block_index empty_chainman].
  rewrite lookup_empty. destruct (SaveBlockToDisk g body 0); [|done].
  set (cm1 := add_header_entry empty_chainman genesis g). intros H.
  replace cm with (ReceivedBlockTransactions params address cm1 genesis (vtx_size body)) by congruence.
  assert (Hi : m_block_index cm1 = <[genesis := new_entry (<[genesis := index_of_header g]> ∅) g]> ∅)
    by reflexivity.
  set (e := new_entry _ g) in Hi.
  assert (Hchain : chain_ok (m_block_index cm1))
    by exact (AddToBlockIndex_chain_ok ∅ genesis g None chain_ok_empty Hne).
  apply (Received_cands address params cm1 genesis (vtx_size body) e); [done| |by rewrite Hi, lookup_insert_eq|done].
  split.
  - constructor.
  - intros h Hh. by apply elem_of_nil in Hh.
  - intros h b Hb Hc. rewrite Hi in Hb. apply lookup_insert_Some in Hb as [[_ <-]|[_ Hb]]; [done|].
    by rewrite lookup_empty in Hb.
  - intros p h Hh. by apply elem_of_nil in Hh.
  - constructor.
Qed.

Lemma cm_reachable_both g body cm : cm_reachable g body cm → cm_ok SHA256d genesis cm ∧ cok cm.
Proof.
  intros (Hg & Hz & Hnz & cm0 & H0 & Hr). revert cm Hr. apply rtc_ind_r.
  - split; [by eapply LoadGenesisBlock_ok|by eapply LoadGenesisBlock_cands].
  - intros cm cm' _ Hstep IH. by eapply cm_step_ok.
Qed.

Lemma cm_reachable_ok g body cm : cm_reachable g body cm → cm_ok SHA256d genesis cm.
Proof. intros H. by apply (cm_reachable_both g body). Qed.

(** ** Properties *)

(** C9. Whatever headers and blocks arrive, in whatever order, and whatever the rest of
    the node does to flags and tips, the block index stays consistent: the header of every
    entry hashes to its key; every parent an entry points to, selected or extra, is an
    entry; the skip list finds the ancestor at every height; and the best header, as long as
    no block below it is found invalid and it is moved back, is an entry with maximal work. *)
Theorem acceptance_invariant g body cm h b k :
  cm_reachable g body cm →
  m_block_index cm !! h = Some b →
  GetHash SHA256d (GetBlockHeader b) = h ∧
  (∀ p, p ∈ Index_GetParents (m_block_index cm) h → is_Some (m_block_index cm !! p)) ∧
  (0 <= k <= nHeight b → ∃ a ba, GetAncestor (m_block_index cm) h k = Some a ∧
     m_block_index cm !! a = Some ba ∧ nHeight ba = k ∧
     prev_n (m_block_index cm) (Z.to_nat (nHeight b - k)) h = Some a) ∧
  ∃ bh bb, m_best_header cm = Some bh ∧ m_block_index cm !! bh = Some bb ∧
    nChainWork b <= nChainWork bb.
Proof.
  intros Hr Hb. pose proof (cm_reachable_ok g body cm Hr) as [H1 H2 H3 _ H5].
  split; [exact (H5 h b Hb)|]. split; [intros p; exact (H2 h b p Hb)|]. split.
  - intros Hk. rewrite (GetAncestor_prev_n _ h b k H1 Hb Hk).
    destruct (prev_n_height _ (Z.to_nat (nHeight b - k)) h b H1 Hb) as (a & ba & E1 & E2 & E3); [lia|].
    exists a, ba. repeat (split; [done|]). split; [lia|done].
  - unfold best_ok in H3. cbn [fst snd] in H3. destruct (m_best_header cm) as [bh|].
    + destruct H3 as (bb & Hbb & Hmax). exists bh, bb. split; [done|]. split; [done|].
      exact (Hmax h b Hb).
    + rewrite H3 in Hb. by rewrite lookup_empty in Hb.
Qed.

(** C15. However blocks arrive, the candidates for the tip are never corrupted: although
    acceptance changes the fields they are sorted by, the set stays strictly sorted by the
    current values; every candidate has the data of all its ancestors; and a block with data
    waits to be linked only while its parent is not linked, and is then no candidate. *)
Theorem candidates_consistent g body cm :
  cm_reachable g body cm →
  let st := m_block_index cm in
  ordered (work_less address st) (setBlockIndexCandidates cm) ∧
  (∀ h n a, h ∈ setBlockIndexCandidates cm → prev_n st n h = Some a →
     ∃ b, st !! a = Some b ∧ Z.testbit (nStatus b) 3 = true) ∧
  (∀ p h, (p, h) ∈ m_blocks_unlinked cm → h ∉ setBlockIndexCandidates cm ∧
     ∃ b bp, st !! h = Some b ∧ pprev b = Some p ∧ Z.testbit (nStatus b) 3 = true ∧
       st !! p = Some bp ∧ m_chain_tx_count bp = 0).
Proof.
  intros Hr. destruct (cm_reachable_both g body cm Hr) as [_ [S C K W N]]. split; [done|]. split.
  - intros h n a Hh Ha. destruct (C h Hh n a Ha) as (b & Hb & Hd). exists b.
    by rewrite <- has_data_testbit.
  - intros p h Hin. destruct (W p h Hin) as (Hn & (b & Hb & Hd & Hp) & bp & Hbp & Hz).
    split; [done|]. exists b, bp. by rewrite <- has_data_testbit.
Qed.

(** ** What an accepted block leaves behind *)

Lemma add_header_entry_known cm hash block :
  is_Some (m_block_index cm !! hash) → add_header_entry cm hash block = cm.
Proof. intros [b Hb]. unfold add_header_entry, AddToBlockIndex. rewrite Hb. by destruct cm. Qed.

(** A header that is accepted is in the index, and nothing else happens. *)
Lemma AcceptBlockHeader_adds cm block mp now cm' hash :
  AcceptBlockHeader SHA256d genesis params opts cm block mp now = (cm', inl hash) →
  hash = GetHash SHA256d block ∧ cm' = add_header_entry cm hash block.
Proof.
  unfold AcceptBlockHeader. intros H. destruct (negb _); [|destruct mp; by simplify_eq].
  destruct (m_block_index cm !! _) as [b|] eqn:E.
  - destruct (IsFailed b); [done|]. injection H as <- <-. by rewrite add_header_entry_known by (by eexists).
  - destruct (check_new_header _ _ _ cm block now) as [cm1 [f|]] eqn:Ec; [done|].
    apply check_new_header_pass in Ec as (-> & _). destruct mp; by simplify_eq.
Qed.

Lemma AcceptBlockHeader_frame cm block mp now cm' hash :
  AcceptBlockHeader SHA256d genesis params opts cm block mp now = (cm', inl hash) →
  hash = GetHash SHA256d block ∧ m_dag_tips cm' = m_dag_tips cm.
Proof.
  intros [-> ->]%AcceptBlockHeader_adds. split; [done|]. unfold add_header_entry. by destruct (AddToBlockIndex _ _ _ _).
Qed.

(** The extra parents of an entry after a body has arrived: those the body lists when they
    are more than the entry has, otherwise what the entry has. *)
Definition listed_parents (block : CBlockHeader) (old : list (option Z)) : list (option Z) :=
  if IsDagBlock block && (length old <? length (hdr_hashParents block))%nat
  then Some <$> hdr_hashParents block else old.

Lemma resolve_stage_listed st hash b block st' :
  st !! hash = Some b → resolve_stage st hash b block = (st', None) →
  ∃ b', st' !! hash = Some b' ∧ vDagParents b' = listed_parents block (vDagParents b).
Proof.
  intros Hb. unfold resolve_stage, listed_parents.
  destruct (_ && _); [|intros [= <-]; by exists b].
  pose proof (resolve_parents_spec st (hdr_hashParents block)) as [_ Hl].
  destruct (resolve_parents _ _) as [l f]. cbn [fst snd] in Hl. intros [= <- ->].
  eexists. rewrite lookup_insert_eq. split; [done|]. by apply Hl.
Qed.

Lemma filter_short (P : Z → Prop) `{!∀ x, Decision (P x)} (l : list Z) :
  filter P l = l ∨ (length (filter P l) < length l)%nat.
Proof.
  induction l as [|x l IH]; [by left|]. rewrite filter_cons. pose proof (length_filter P l).
  destruct (decide (P x)); [|right; simpl; lia]. destruct IH as [->|]; [by left|right; simpl; lia].
Qed.

(** A new entry has those of its parents that are known; the rest is added with the body. *)
Lemma new_entry_listed st block :
  listed_parents block (vDagParents (new_entry st block)) = listed_parents block [].
Proof.
  unfold listed_parents, new_entry. cbn [vDagParents]. destruct (IsDagBlock block); [|done]. cbn [andb].
  rewrite length_fmap.
  destruct (filter_short (λ h, is_Some (st !! h)) (hdr_hashParents block)) as [->|H].
  - rewrite Nat.ltb_irrefl. by destruct (hdr_hashParents block).
  - rewrite (proj2 (Nat.ltb_lt _ _) H). destruct (hdr_hashParents block); [simpl in H; lia|done].
Qed.

Lemma AcceptBlockHeader_listed cm block mp now cm' hash b :
  AcceptBlockHeader SHA256d genesis params opts cm block mp now = (cm', inl hash) →
  m_block_index cm' !! hash = Some b →
  listed_parents block (vDagParents b) =
  listed_parents block (default [] (vDagParents <$> m_block_index cm !! hash)).
Proof.
  intros [_ ->]%AcceptBlockHeader_adds Hb. unfold add_header_entry, AddToBlockIndex in Hb.
  destruct (m_block_index cm !! hash) as [b0|] eqn:E0; simpl in *; [congruence|].
  rewrite lookup_insert_eq in Hb. injection Hb as <-. apply new_entry_listed.
Qed.

(** The scores come from GHOSTDAG over the index at hand, with every parent resolved. *)
Lemma dag_stage_scored cm hash block b0 cm' :
  dag_mode params opts = true → m_block_index cm !! hash = Some b0 →
  dag_stage params opts cm hash block = (cm', None) →
  ∃ st b d, st !! hash = Some b ∧ cm' = with_index cm (<[hash := set_dagData d b]> st) ∧
    vDagParents b = listed_parents block (vDagParents b0) ∧
    (Index_GetParents st hash = [] ∨
     ComputeGhostdag (P := BlockIndexGhostdagProvider st) (size st) (ghostdag_k params)
       (Index_GetParents st hash) = Some (Some d)).
Proof.
  intros Hm Hb0. unfold dag_stage. rewrite Hm, Hb0.
  destruct (resolve_stage (m_block_index cm) hash b0 block) as [st [f|]] eqn:Er; [done|].
  intros H. exists st. unfold score_stage in H.
  destruct (resolve_stage_listed _ _ _ _ _ Hb0 Er) as (b & Hb & Hlist). rewrite Hb in H. exists b.
  destruct (Index_GetParents st hash) as [|p ps] eqn:Hp.
  { injection H as <-. eexists. split; [done|]. split; [done|]. split; [done|by left]. }
  destruct (forallb _ _); [|done].
  destruct (ComputeGhostdag _ _ _) as [[d|]|] eqn:Eg; [|done..].
  injection H as <-. exists d. split; [done|]. split; [done|]. split; [done|by right].
Qed.

(** The part of an entry GHOSTDAG reads and writes. *)
Definition dag_view (b : CBlockIndex) := (dag_links b, dagData b).

Lemma late_stages cm hash now rand n :
  let cm' := tips_stage params opts
    (ReceivedBlockTransactions params address (early_stage params opts cm hash now rand) hash n) hash in
  dag_view <$> m_block_index cm = dag_view <$> m_block_index cm' ∧
  (dag_mode params opts = true → ∀ e, m_block_index cm' !! hash = Some e →
   m_dag_tips cm' = BlockConnected (m_dag_tips cm) hash (blue_score (dagData e))
     (Index_GetParents (m_block_index cm') hash)).
Proof.
  set (cm1 := early_stage params opts cm hash now rand).
  set (cm2 := ReceivedBlockTransactions params address cm1 hash n). cbv zeta.
  destruct (tips_stage_index cm2 hash) as [Hi _]. rewrite !Hi. split.
  - unfold cm2. rewrite <- ReceivedBlockTransactions_view by done.
    unfold cm1. by apply early_stage_view.
  - intros Hm e He. unfold tips_stage. rewrite He, Hm. simpl. f_equal.
    destruct (Received_frame cm1 hash n) as (_ & Ht & _). unfold cm2. rewrite Ht.
    unfold cm1, early_stage. by repeat (case_match; try done).
Qed.

Lemma late_have_data cm hash now rand n e :
  m_block_index (tips_stage params opts
    (ReceivedBlockTransactions params address (early_stage params opts cm hash now rand) hash n) hash)
    !! hash = Some e → Z.testbit (nStatus e) 3 = true.
Proof.
  set (cm1 := early_stage params opts cm hash now rand). rewrite (proj1 (tips_stage_index _ _)).
  destruct (m_block_index cm1 !! hash) as [b|] eqn:Hb.
  - intros He. pose proof (Received_view nStatus (λ _ _ _ _, eq_refl) params address cm1 hash n b Hb) as Hv.
    destruct (fmap_lookup_eq _ _ _ _ _ Hv He) as (c & Hc & <-).
    rewrite lookup_insert_eq in Hc. injection Hc as <-. rewrite <- has_data_testbit.
    apply received_has_data.
  - unfold ReceivedBlockTransactions. rewrite Hb. congruence.
Qed.

(** C20. A block that is accepted as new in DAG mode is stored and scored: its entry has
    the data flag; its extra parents are exactly those the block lists, each resolved to the
    block of that hash, except that an entry the index already had keeps its list when the
    block lists no more parents than that (or is not a DAG block); every parent is known, its
    GHOSTDAG data is what [ComputeGhostdag] gives on the parents over the index as it was, in which
    only the block's own data has been set since, and it has replaced its parents in the
    tip set under its blue score. *)
Theorem accepted_block_scored g gbody cm block body req mp now rand cm' :
  cm_reachable g gbody cm → dag_mode params opts = true →
  accept cm block body req mp now rand = (cm', inl true) →
  let hash := GetHash SHA256d block in
  let parents := Index_GetParents (m_block_index cm') hash in
  ∃ e st, m_block_index cm' !! hash = Some e ∧ Z.testbit (nStatus e) 3 = true ∧
    vDagParents e = listed_parents block (default [] (vDagParents <$> m_block_index cm !! hash)) ∧
    (∀ p, p ∈ parents → is_Some (m_block_index cm' !! p)) ∧
    dag_links <$> st = dag_links <$> m_block_index cm' ∧
    (∀ h, h ≠ hash → dagData <$> st !! h = dagData <$> m_block_index cm' !! h) ∧
    (parents ≠ [] → ComputeGhostdag (P := BlockIndexGhostdagProvider st) (size st)
       (ghostdag_k params) parents = Some (Some (dagData e))) ∧
    m_dag_tips cm' = BlockConnected (m_dag_tips cm) hash (blue_score (dagData e)) parents.
Proof.
  intros Hr Hm H. cbv zeta.
  pose proof (AcceptBlock_ok cm block body req mp now rand (cm_reachable_ok g gbody cm Hr)) as Hok.
  rewrite H in Hok. cbn [fst] in Hok. unfold AcceptBlock in H.
  destruct (AcceptBlockHeader _ _ _ _ cm block mp now) as [cm1 [hash|f]] eqn:Eh; [|done].
  destruct (AcceptBlockHeader_frame _ _ _ _ _ _ Eh) as [-> Ht]. set (hash := GetHash SHA256d block) in *.
  destruct (m_block_index cm1 !! hash) as [b1|] eqn:Hb1; [|done].
  pose proof (AcceptBlockHeader_listed _ _ _ _ _ _ _ Eh Hb1) as Hlisted.
  destruct (skip_block _ _ _ _); [done|]. destruct (check_body _ _ _ _ _ _); [done|].
  destruct (dag_stage _ _ cm1 hash block) as [cm2 [f|]] eqn:Ed; [done|].
  destruct (dag_stage_scored cm1 hash block b1 cm2 Hm Hb1 Ed) as (st & b & d & Hb & Ecm2 & Hlen & Hd).
  destruct (SaveBlockToDisk _ _ _); [|done]. injection H as Ecm'.
  destruct (late_stages cm2 hash now rand (vtx_size body)) as [Hv Htips].
  rewrite Ecm' in Hv, Htips. specialize (Htips Hm).
  assert (Hi2 : m_block_index cm2 = <[hash := set_dagData d b]> st) by (by rewrite Ecm2).
  assert (Hb2 : m_block_index cm2 !! hash = Some (set_dagData d b)) by (by rewrite Hi2, lookup_insert_eq).
  destruct (fmap_lookup_eq dag_view _ _ _ _ (eq_sym Hv) Hb2) as (e & He & Hve).
  unfold dag_view, dag_links in Hve. injection Hve as _ _ _ _ _ _ _ _ _ _ Hve_p Hve_d.
  assert (Hlinks : dag_links <$> st = dag_links <$> m_block_index cm').
  { rewrite (fmap_insert_same dag_links st hash b (set_dagData d b) Hb eq_refl), <- Hi2.
    apply map_eq. intros h. apply (f_equal (.!! h)) in Hv. rewrite !lookup_fmap in *.
    unfold dag_view in Hv. destruct (m_block_index cm2 !! h), (m_block_index cm' !! h); simpl in *; congruence. }
  exists e, st. split; [done|].
  split; [eapply late_have_data; by rewrite Ecm'|]. split; [rewrite Hve_p; simpl; congruence|].
  split; [intros p; exact (ok_closed _ _ _ Hok hash e p He)|]. split; [done|].
  split; [|split].
  - intros h Hne. apply (f_equal (.!! h)) in Hv. rewrite Hi2, !lookup_fmap, lookup_insert_ne in Hv by done.
    unfold dag_view in Hv. destruct (st !! h), (m_block_index cm' !! h); simpl in *; congruence.
  - intros Hne. rewrite <- (parents_dag_links st _ hash Hlinks) in *.
    destruct Hd as [?|Hd]; [done|]. by rewrite Hd, Hve_d.
  - rewrite (Htips e He). f_equal. by rewrite Ecm2.
Qed.

(** ** What acceptance does not guarantee *)

(** The same header with another list of parents; the list is not hashed. *)
Definition with_parents (block : CBlockHeader) (ps : list Z) : CBlockHeader :=
  mkHeader (hdr_nVersion block) (hdr_hashPrevBlock block) (hdr_hashMerkleRoot block)
    (hdr_nTime block) (hdr_nBits block) (hdr_nNonce block) (hdr_hashParentsRoot block) ps.

(** A header that is known is not checked again, whatever list it comes with. *)
Lemma known_header_accepted cm block b mp now :
  GetHash SHA256d block ≠ genesis → m_block_index cm !! GetHash SHA256d block = Some b →
  IsFailed b = false →
  AcceptBlockHeader SHA256d genesis params opts cm block mp now = (cm, inl (GetHash SHA256d block)).
Proof.
  intros Hg Hb Hf. unfold AcceptBlockHeader. rewrite (proj2 (Z.eqb_neq _ _) Hg). cbn [negb].
  by rewrite Hb, Hf.
Qed.

Lemma resolve_parents_known st ps :
  (∀ p, p ∈ ps → ∃ b, st !! p = Some b ∧ IsFailed b = false) →
  resolve_parents st ps = (Some <$> ps, None).
Proof.
  induction ps as [|p ps IH]; intros H; [done|]. simpl.
  destruct (H p) as (b & -> & ->); [by left|]. rewrite IH; [done|]. intros q Hq. apply H. by right.
Qed.

(** The block gets the listed parents and the scores they give. *)
Lemma dag_stage_replaces cm hash block b d :
  let ps := hdr_hashParents block in
  let st := <[hash := set_vDagParents (Some <$> ps) b]> (m_block_index cm) in
  index_closed (m_block_index cm) → dag_mode params opts = true → IsDagBlock block = true →
  m_block_index cm !! hash = Some b → (length (vDagParents b) < length ps)%nat →
  (∀ p, p ∈ ps → ∃ c, m_block_index cm !! p = Some c ∧ IsFailed c = false) →
  ComputeGhostdag (P := BlockIndexGhostdagProvider st) (size st) (ghostdag_k params)
    (Index_GetParents st hash) = Some (Some d) →
  dag_stage params opts cm hash block =
    (with_index cm (<[hash := set_dagData d (set_vDagParents (Some <$> ps) b)]> st), None).
Proof.
  intros ps st Hc Hm Hd Hb Hlen Hps Hg. unfold dag_stage, resolve_stage. fold ps.
  rewrite Hm, Hb, Hd, (proj2 (Nat.ltb_lt _ _) Hlen). cbn [andb].
  rewrite resolve_parents_known by done. fold ps st.
  assert (Hc' : index_closed st).
  { pose proof (resolve_stage_ok _ hash b block Hb Hc) as [_ H]. unfold resolve_stage in H. fold ps in H.
    rewrite Hd, (proj2 (Nat.ltb_lt _ _) Hlen), resolve_parents_known in H by done. exact H. }
  assert (Hh : st !! hash = Some (set_vDagParents (Some <$> ps) b)) by apply lookup_insert_eq.
  unfold score_stage. rewrite Hh.
  assert (Hf : forallb (λ p, match Index_GetGhostdagData st p with Some _ => true | None => false end)
    (Index_GetParents st hash) = true).
  { apply forallb_forall. intros p Hp%list_elem_of_In. destruct (Hc' _ _ _ Hh Hp) as [c Ec].
    unfold Index_GetGhostdagData. by rewrite Ec. }
  destruct (Index_GetParents st hash) as [|q qs] eqn:Eq; [|by rewrite Hf, Hg].
  unfold Index_GetParents in Eq. rewrite Hh in Eq. apply app_eq_nil in Eq as [_ Eq]. simpl in Eq.
  destruct ps; [simpl in Hlen; lia|done].
Qed.

(** C36. The extra parents of a mined block can be replaced.  In DAG mode, once the header of
    a DAG block (not the genesis block) is known and not failed and its data is still to
    come, a body that passes the other checks and comes with the same header but any
    other, longer list of known and not failed blocks as parents (for which GHOSTDAG has a
    result) is accepted, and that list becomes the block's DAG parents and decides its
    scores, whatever list [hashParentsRoot] commits to: the header hash is the same, and the
    root is only compared for new headers, where a wrong one is refused. *)
Theorem parents_replaced_after_mining g gbody cm block b ps body req mp now rand d :
  let hash := GetHash SHA256d block in
  let forged := with_parents block ps in
  let st := <[hash := set_vDagParents (Some <$> ps) b]> (m_block_index cm) in
  cm_reachable g gbody cm → dag_mode params opts = true → IsDagBlock block = true →
  hash ≠ genesis → m_block_index cm !! hash = Some b → IsFailed b = false →
  skip_block opts cm b req = false →
  check_body CheckBlock ContextualCheckBlock (m_block_index cm) forged body (pprev b) = None →
  SaveBlockToDisk forged body (nHeight b) = true →
  (length (vDagParents b) < length ps)%nat →
  (∀ p, p ∈ ps → ∃ c, m_block_index cm !! p = Some c ∧ IsFailed c = false) →
  ComputeGhostdag (P := BlockIndexGhostdagProvider st) (size st) (ghostdag_k params)
    (Index_GetParents st hash) = Some (Some d) →
  GetHash SHA256d forged = hash ∧
  (∃ cm' e, accept cm forged body req mp now rand = (cm', inl true) ∧
    m_block_index cm' !! hash = Some e ∧ vDagParents e = Some <$> ps ∧ dagData e = d) ∧
  (hdr_hashParentsRoot block ≠ ComputeParentsRoot SHA256d ps →
   ∀ st' prev_b, check_dag_header SHA256d params opts st' forged prev_b ≠ None).
Proof.
  intros hash forged st Hr Hm Hd Hg Hb Hf Hs Hbody Hsave Hlen Hps HG.
  split; [done|]. split.
  - unfold AcceptBlock. rewrite (known_header_accepted cm forged b) by done.
    replace (GetHash SHA256d forged) with hash by done. rewrite Hb, Hs, Hbody.
    rewrite (dag_stage_replaces cm hash forged b d) by (try done; by destruct (cm_reachable_ok g gbody cm Hr)).
    rewrite Hsave. set (cm2 := with_index cm _).
    destruct (late_stages cm2 hash now rand (vtx_size body)) as [Hv _].
    eexists. destruct (fmap_lookup_eq dag_view _ _ hash _ (eq_sym Hv) (lookup_insert_eq _ _ _)) as (e & He & Hve).
    exists e. split; [done|]. split; [done|]. unfold dag_view, dag_links in Hve. by simplify_eq/=.
  - intros Hroot st' prev_b. unfold check_dag_header.
    replace (IsDagBlock forged) with true by done. rewrite Hm. cbn [andb].
    destruct (_ <? _); [done|]. cbn [forged with_parents hdr_hashParentsRoot hdr_hashParents].
    by rewrite (proj2 (Z.eqb_neq _ _) Hroot).
Qed.
End invariant.

(** ** Concrete runs *)

(** A stand-in for double SHA-256 with small values, so that every header meets the
    easiest target; nothing is checked in the body of a block. *)
Definition toy_sha256d (bs : list Z) : Z :=
  ArithToUint256 (1 + foldl (λ a b, a * 257 + b) 7 bs mod 2 ^ 200).

Definition toy_options : Options := mkOptions None None false [] 0.

Definition toy_genesis : CBlockHeader := mkHeader 1 0 0 1743379200 0x1e0fffff 748526 0 [].
Definition toy_genesis_hash : Z := GetHash toy_sha256d toy_genesis.

(** The chain parameters of the test network; bodies are numbers of transactions. *)
Definition toy_header (cm : ChainstateManager) (block : CBlockHeader) :=
  AcceptBlockHeader toy_sha256d toy_genesis_hash CQbtcTestNetParams toy_options cm block true
    1743400000.

Definition toy_block (cm : ChainstateManager) (block : CBlockHeader) :=
  AcceptBlock toy_sha256d toy_genesis_hash CQbtcTestNetParams toy_options id id (λ _ _, None)
    (λ _ _ _ _, None) (λ _ _ _, true) cm block 1 true true 1743400000 5.

Definition toy_initial : ChainstateManager :=
  (LoadGenesisBlock toy_sha256d CQbtcTestNetParams id id (λ _ _ _, true) empty_chainman toy_genesis 1).1.

(** Runs the handlers and gives up at the first failure. *)
Fixpoint toy_run (cm : ChainstateManager) (events : list (bool * CBlockHeader))
    : option ChainstateManager :=
  match events with
  | [] => Some cm
  | (true, block) :: events' =>
      match toy_block cm block with (cm', inl true) => toy_run cm' events' | _ => None end
  | (false, block) :: events' =>
      match toy_header cm block with (cm', inl _) => toy_run cm' events' | _ => None end
  end.

Definition toy_score (cm : ChainstateManager) (block : CBlockHeader) : option Z :=
  (λ b, blue_score (dagData b)) <$> m_block_index cm !! GetHash toy_sha256d block.

(** Two DAG blocks on top of each other. *)
Definition block_1 : CBlockHeader :=
  mkHeader 0x30000000 toy_genesis_hash 0 1743379210 0x1e0fffff 1 0 [].
Definition block_2 : CBlockHeader :=
  mkHeader 0x30000000 (GetHash toy_sha256d block_1) 0 1743379220 0x1e0fffff 2 0 [].


(** Scores depend on the order in which bodies arrive: when the headers of block 1 and
    of its child block 2 are known and the body of block 2 comes first, block 2 is accepted
    with the scores of a parent that has none yet (the test for missing GHOSTDAG context
    never fires for a known header), and keeps blue score 1; with the bodies in chain order
    it has blue score 2.  All four deliveries are accepted in both runs and the two indices
    have the same chain. *)
Theorem scores_depend_on_order :
  ∃ cm1 cm2,
    toy_run toy_initial [(false, block_1); (false, block_2); (true, block_1); (true, block_2)]
      = Some cm1 ∧
    toy_run toy_initial [(false, block_1); (false, block_2); (true, block_2); (true, block_1)]
      = Some cm2 ∧
    dag_links <$> m_block_index cm1 = dag_links <$> m_block_index cm2 ∧
    toy_score cm1 block_1 = Some 1 ∧ toy_score cm2 block_1 = Some 1 ∧
    toy_score cm1 block_2 = Some 2 ∧ toy_score cm2 block_2 = Some 1.
Proof.
  assert (H : (cm1 ← toy_run toy_initial
      [(false, block_1); (false, block_2); (true, block_1); (true, block_2)];
    cm2 ← toy_run toy_initial
      [(false, block_1); (false, block_2); (true, block_2); (true, block_1)];
    Some (bool_decide (dag_links <$> m_block_index cm1 = dag_links <$> m_block_index cm2),
      toy_score cm1 block_1, toy_score cm2 block_1, toy_score cm1 block_2, toy_score cm2 block_2))
    = Some (true, Some 1, Some 1, Some 2, Some 1)) by (vm_compute; reflexivity).
  apply bind_Some in H as (cm1 & E1 & H). apply bind_Some in H as (cm2 & E2 & H).
  apply (inj Some), pair_equal_spec in H as [H ?]. apply pair_equal_spec in H as [H ?].
  apply pair_equal_spec in H as [H ?]. apply pair_equal_spec in H as [H ?].
  apply bool_decide_eq_true in H. exists cm1, cm2. split_and!; assumption.
Qed.

(** The states of a run are reachable. *)
Abbreviation toy_step := (cm_step toy_sha256d toy_genesis_hash CQbtcTestNetParams toy_options id id
  (λ _ _, None) (λ _ _ _ _, None) (λ _ _ _, true)).
Abbreviation toy_reachable := (cm_reachable toy_sha256d toy_genesis_hash CQbtcTestNetParams
  toy_options id id (λ _ _, None) (λ _ _ _ _, None) (λ _ _ _, true) toy_genesis 1).

Lemma toy_run_steps events : ∀ cm cm', toy_run cm events = Some cm' → rtc toy_step cm cm'.
Proof.
  induction events as [|[[|] block] events IH]; intros cm cm'; cbn [toy_run].
  - intros <-%(inj Some). reflexivity.
  - destruct (toy_block cm block) as [cm1 [[|]|]] eqn:E; [|done..]. intros H.
    eapply rtc_l; [|by apply IH].
    replace cm1 with (toy_block cm block).1 by (by rewrite E). apply step_accept_block.
  - destruct (toy_header cm block) as [cm1 [?|]] eqn:E; [|done]. intros H.
    eapply rtc_l; [|by apply IH].
    replace cm1 with (toy_header cm block).1 by (by rewrite E). apply step_accept_header.
Qed.

(** A sibling of block 1, and a block that merges it. *)
Definition block_1b : CBlockHeader :=
  mkHeader 0x30000000 toy_genesis_hash 0 1743379211 0x1e0fffff 3 0 [].
Definition block_merge : CBlockHeader :=
  mkHeader 0x30000000 (GetHash toy_sha256d block_1) 0 1743379220 0x1e0fffff 4
    (ComputeParentsRoot toy_sha256d [GetHash toy_sha256d block_1b]) [GetHash toy_sha256d block_1b].

(** Both siblings are stored, and the merging block is a new header. *)
Lemma toy_siblings :
  ∃ cm, toy_run toy_initial [(true, block_1); (true, block_1b)] = Some cm ∧
    m_block_index cm !! GetHash toy_sha256d block_merge = None ∧
    (∃ cm', toy_header cm block_merge = (cm', inl (GetHash toy_sha256d block_merge))) ∧
    (∃ cm', toy_block cm block_merge = (cm', inl true)) ∧
    (∃ b, m_block_index cm !! GetHash toy_sha256d block_1b = Some b ∧ nHeight b = 1) ∧
    length (setBlockIndexCandidates cm) = 3%nat ∧
    map_Forall (λ _ b, m_chain_tx_count b ≠ 0) (m_block_index cm).
Proof.
  assert (H : (cm ← toy_run toy_initial [(true, block_1); (true, block_1b)];
    b ← m_block_index cm !! GetHash toy_sha256d block_1b;
    Some (bool_decide (m_block_index cm !! GetHash toy_sha256d block_merge = None),
      (toy_header cm block_merge).2, (toy_block cm block_merge).2, nHeight b,
      length (setBlockIndexCandidates cm),
      bool_decide (map_Forall (λ _ b, m_chain_tx_count b ≠ 0) (m_block_index cm))))
    = Some (true, inl (GetHash toy_sha256d block_merge), inl true, 1, 3%nat, true))
    by (vm_compute; reflexivity).
  apply bind_Some in H as (cm & E1 & H). apply bind_Some in H as (b & Hb & H).
  apply (inj Some), pair_equal_spec in H as [H H6]. apply pair_equal_spec in H as [H H5].
  apply pair_equal_spec in H as [H H4]. apply pair_equal_spec in H as [H H3].
  apply pair_equal_spec in H as [H1 H2].
  apply bool_decide_eq_true in H1, H6. exists cm. split; [exact E1|]. split; [exact H1|].
  split; [exists (toy_header cm block_merge).1; rewrite <- H2; apply surjective_pairing|].
  split; [exists (toy_block cm block_merge).1; rewrite <- H3; apply surjective_pairing|].
  split; [exists b; split; assumption|]. split; assumption.
Qed.

Lemma toy_run_reachable events cm : toy_run toy_initial events = Some cm → toy_reachable cm.
Proof.
  intros H. split; [vm_compute; reflexivity|]. split; [reflexivity|].
  split; [vm_compute; discriminate|]. exists toy_initial. split; [vm_compute; reflexivity|]. by eapply toy_run_steps.
Qed.

(** Block 1, whose header commits to no extra parent, is made its own parent. *)
Lemma toy_forged :
  ∃ cm b d, toy_run toy_initial [(false, block_1)] = Some cm ∧
    m_block_index cm !! GetHash toy_sha256d block_1 = Some b ∧ IsFailed b = false ∧
    skip_block toy_options cm b true = false ∧ vDagParents b = [] ∧
    let st := <[GetHash toy_sha256d block_1 := set_vDagParents [Some (GetHash toy_sha256d block_1)] b]>
      (m_block_index cm) in
    ComputeGhostdag (P := BlockIndexGhostdagProvider st) (size st) (ghostdag_k CQbtcTestNetParams)
      (Index_GetParents st (GetHash toy_sha256d block_1)) = Some (Some d).
Proof.
  set (hash := GetHash toy_sha256d block_1).
  set (index := λ (cm : ChainstateManager) b, <[hash := set_vDagParents [Some hash] b]> (m_block_index cm)).
  assert (H : (cm ← toy_run toy_initial [(false, block_1)]; b ← m_block_index cm !! hash;
    d ← ComputeGhostdag (P := BlockIndexGhostdagProvider (index cm b)) (size (index cm b))
          (ghostdag_k CQbtcTestNetParams) (Index_GetParents (index cm b) hash);
    Some (IsFailed b, skip_block toy_options cm b true, vDagParents b, bool_decide (is_Some d)))
    = Some (false, false, [], true)) by (vm_compute; reflexivity).
  apply bind_Some in H as (cm & Hr & H). apply bind_Some in H as (b & Hb & H).
  apply bind_Some in H as (d & Hd & H).
  apply (inj Some), pair_equal_spec in H as [H H4]. apply pair_equal_spec in H as [H H3].
  apply pair_equal_spec in H as [H1 H2]. apply bool_decide_eq_true in H4 as [d' ->].
  exists cm, b, d'. split_and!; assumption.
Qed.

(** Hashes are compared, never computed, from here on. *)
#[local] Opaque GetHash.

Lemma acceptance_invariant_witness :
  ∃ cm b, toy_reachable cm ∧
    m_block_index cm !! GetHash toy_sha256d block_1b = Some b ∧ nHeight b = 1 ∧
    (∃ a, GetAncestor (m_block_index cm) (GetHash toy_sha256d block_1b) 0 = Some a) ∧
    ∃ bh, m_best_header cm = Some bh.
Proof.
  destruct toy_siblings as (cm & Hr & _ & _ & _ & (b & Hb & Hh) & _).
  apply toy_run_reachable in Hr. exists cm, b. split; [exact Hr|]. split; [exact Hb|].
  split; [exact Hh|].
  destruct (acceptance_invariant toy_sha256d toy_genesis_hash CQbtcTestNetParams toy_options id id
    (λ _ _, None) (λ _ _ _ _, None) (λ _ _ _, true) toy_genesis 1 cm _ b 0 Hr Hb)
    as (_ & _ & Ha & bh & _ & Hbest & _).
  split; [|by exists bh].
  destruct Ha as (a & _ & Ha & _); [rewrite Hh; split; discriminate|]. by exists a.
Defined.

Lemma accepted_header_sound_witness :
  ∃ cm cm', toy_header cm block_merge = (cm', inl (GetHash toy_sha256d block_merge)) ∧
    ∃ prev_b, m_block_index cm !! hdr_hashPrevBlock block_merge = Some prev_b ∧
      IsFailed prev_b = false ∧
      NoDup (hdr_hashPrevBlock block_merge :: hdr_hashParents block_merge).
Proof.
  destruct toy_siblings as (cm & _ & Hnew & (cm' & Hh) & _). exists cm, cm'. split; [exact Hh|].
  destruct (accepted_header_sound _ _ _ _ _ _ _ _ _ _ Hh) as
    (_ & _ & _ & _ & prev_b & Hp & Hf & _ & _ & Hd); [vm_compute; discriminate|exact Hnew|].
  exists prev_b. split; [exact Hp|]. split; [exact Hf|].
  destruct (Hd eq_refl eq_refl) as (_ & _ & Hn & _). exact Hn.
Defined.

Lemma accepted_block_scored_witness :
  ∃ cm cm' e, toy_block cm block_merge = (cm', inl true) ∧
    m_block_index cm' !! GetHash toy_sha256d block_merge = Some e ∧
    Z.testbit (nStatus e) 3 = true ∧ vDagParents e = [Some (GetHash toy_sha256d block_1b)].
Proof.
  destruct toy_siblings as (cm & Hr & Hnew & _ & (cm' & Ha) & _). apply toy_run_reachable in Hr.
  destruct (accepted_block_scored _ _ _ _ _ _ _ _ _ toy_genesis 1 _ _ _ _ _ _ _ _ Hr
    eq_refl Ha) as (e & _ & He & Hs & Hl & _).
  exists cm, cm', e. split; [exact Ha|]. split; [exact He|]. split; [exact Hs|].
  rewrite Hnew in Hl. exact Hl.
Defined.

Lemma parents_replaced_after_mining_witness :
  let hash := GetHash toy_sha256d block_1 in
  hdr_hashParentsRoot block_1 ≠ ComputeParentsRoot toy_sha256d [hash] ∧
  ∃ cm cm' e, toy_block cm (with_parents block_1 [hash]) = (cm', inl true) ∧
    m_block_index cm' !! hash = Some e ∧ vDagParents e = [Some hash].
Proof.
  cbv zeta. split; [vm_compute; discriminate|].
  destruct toy_forged as (cm & b & d & Hr & Hb & Hf & Hs & Hv & Hd).
  destruct (parents_replaced_after_mining toy_sha256d toy_genesis_hash CQbtcTestNetParams toy_options id id
    (λ _ _, None) (λ _ _ _ _, None) (λ _ _ _, true) toy_genesis 1 cm block_1 b
    [GetHash toy_sha256d block_1] 1 true true 1743400000 5 d (toy_run_reachable _ _ Hr) eq_refl eq_refl)
    as (_ & (cm' & e & Ha & He & Hp & _) & _).
  - vm_compute. discriminate.
  - exact Hb.
  - exact Hf.
  - exact Hs.
  - reflexivity.
  - reflexivity.
  - rewrite Hv. apply Nat.lt_0_1.
  - intros p Hp. apply list_elem_of_singleton in Hp as ->. exists b. split; assumption.
  - exact Hd.
  - exists cm, cm', e. split; [exact Ha|]. split; assumption.
Defined.

Lemma candidates_consistent_witness :
  ∃ cm, toy_reachable cm ∧ length (setBlockIndexCandidates cm) = 3%nat ∧
    ordered (work_less id (m_block_index cm)) (setBlockIndexCandidates cm).
Proof.
  destruct toy_siblings as (cm & Hr & _ & _ & _ & _ & Hl & _). apply toy_run_reachable in Hr.
  exists cm. split; [exact Hr|]. split; [exact Hl|].
  exact (proj1 (candidates_consistent _ _ _ _ _ _ _ _ _ _ _ _ Hr)).
Defined.

(** A reachable state on which the operations of the active chain are applied. *)
Lemma toy_state :
  ∃ cm, toy_reachable cm ∧ chain_ok (m_block_index cm) ∧
    ordered (work_less id (m_block_index cm)) (setBlockIndexCandidates cm) ∧
    (∃ b, m_block_index cm !! GetHash toy_sha256d block_1b = Some b ∧ nHeight b = 1) ∧
    length (setBlockIndexCandidates cm) = 3%nat ∧
    ∀ h, h ∈ setBlockIndexCandidates cm → is_Some (m_block_index cm !! h) ∧ counted (m_block_index cm) h.
Proof.
  destruct toy_siblings as (cm & Hr & _ & _ & _ & Hb & Hl & Hc). apply toy_run_reachable in Hr.
  pose proof (cm_reachable_both _ _ _ _ _ _ _ _ _ _ _ _ Hr) as [Hok Hcm].
  exists cm. split; [exact Hr|]. split; [apply Hok|]. split; [apply Hcm|]. split; [exact Hb|].
  split; [exact Hl|]. intros h Hh. split.
  - destruct (complete_data _ _ (co_complete _ _ Hcm h Hh)) as (b & Hb' & _). by exists b.
  - intros n a b _ Ha. left. exact (Hc a b Ha).
Qed.

Lemma FindMostWorkChain_correct_witness :
  ∃ cm cm' r, FindMostWorkChain id cm = Some (cm', r) ∧
    length (setBlockIndexCandidates cm) = 3%nat ∧ last (setBlockIndexCandidates cm') = r.
Proof.
  destruct toy_state as (cm & _ & Hok & Hs & _ & Hl & Hc).
  destruct (FindMostWorkChain_correct id cm Hok Hs Hc) as (cm' & r & Hf & [Hr _] & _).
  exists cm, cm', r. split; [exact Hf|]. split; [exact Hl|exact Hr].
Defined.
