(* ===== verification/HeadersSyncProps.v ===== *)
(** * What header synchronisation guarantees

    The invariant of a sync over all messages a peer may send (HeadersSync.v), what is
    released, what memory is used, that an honest peer's chain comes through, and the
    headers that do not survive compression.  The ghosts of the invariant are the headers
    taken in PRESYNC, those taken in REDOWNLOAD, and those released. *)

From Stdlib Require Import String.
From S2P Require Import Prelude OrdSet TipSet Arith256 Serialize BlockHeader Ghostdag Mergeset.
From S2P Require Import BlockIndex BlockIndexProvider GhostdagProps Pow EarlyProtection Chainman.
From S2P Require Import Accept HeadersSync Candidates AcceptProps.

Local Open Scope Z_scope.

Section sync_props.
Context (SHA256d : list Z → Z) (c : SyncParams).

Abbreviation hash_of := (GetHash SHA256d).
Abbreviation start := (m_chain_start c).
Abbreviation start_height := (nHeight (start_entry c)).
Abbreviation start_work := (nChainWork (start_entry c)).
Abbreviation start_bits := (nBits (start_entry c)).
Abbreviation min_work := (m_minimum_required_work c).

(** ** Chains of headers *)

(** Every header builds on the one before it. *)
Fixpoint linked (prev : Z) (hs : list CBlockHeader) : Prop :=
  match hs with
  | [] => True
  | h :: rest => hdr_hashPrevBlock h = prev ∧ linked (hash_of h) rest
  end.

(** Every change of difficulty is permitted, above a block of the height and bits. *)
Fixpoint permitted (height bits : Z) (hs : list CBlockHeader) : Prop :=
  match hs with
  | [] => True
  | h :: rest =>
      PermittedDifficultyTransition (m_consensus_params c) (height + 1) bits (hdr_nBits h)
        = Some true ∧ permitted (height + 1) (hdr_nBits h) rest
  end.

Definition last_hash (prev : Z) (hs : list CBlockHeader) : Z := foldl (λ _ h, hash_of h) prev hs.
Definition last_bits (bits : Z) (hs : list CBlockHeader) : Z := foldl (λ _ h, hdr_nBits h) bits hs.

Definition chain_work (w : Z) (hs : list CBlockHeader) : Z :=
  foldl (λ w h, u256 (w + GetBlockProof (hdr_nBits h))) w hs.

(** The bits a chain commits to, above a block of the height. *)
Fixpoint commits (height : Z) (hs : list CBlockHeader) : list bool :=
  match hs with
  | [] => []
  | h :: rest =>
      (if commit_height c (height + 1) then [commitment SHA256d c h] else [])
      ++ commits (height + 1) rest
  end.

(** The headers before the one that brings the work to the minimum. *)
Fixpoint below (w : Z) (hs : list CBlockHeader) : list CBlockHeader :=
  match hs with
  | [] => []
  | h :: rest =>
      let w' := u256 (w + GetBlockProof (hdr_nBits h)) in
      if min_work <=? w' then [] else h :: below w' rest
  end.

(** Compressed headers put back together, each on the hash of the one before. *)
Fixpoint relink (prev : Z) (cs : list CompressedHeader) : list CBlockHeader :=
  match cs with
  | [] => []
  | x :: rest => let h := GetFullHeader x prev in h :: relink (hash_of h) rest
  end.

Definition plain (h : CBlockHeader) : Prop := hdr_hashParentsRoot h = 0 ∧ hdr_hashParents h = [].

Definition peer_chain (hs : list CBlockHeader) : Prop :=
  linked start hs ∧ permitted start_height start_bits hs.

Lemma linked_app prev hs hs' :
  linked prev (hs ++ hs') ↔ linked prev hs ∧ linked (last_hash prev hs) hs'.
Proof.
  revert prev. induction hs as [|h hs IH]; intros prev; [simpl; tauto|].
  cbn [app linked last_hash foldl]. rewrite IH. unfold last_hash. tauto.
Qed.

Lemma permitted_app height bits hs hs' :
  permitted height bits (hs ++ hs') ↔
  permitted height bits hs ∧ permitted (height + Z.of_nat (length hs)) (last_bits bits hs) hs'.
Proof.
  revert height bits. induction hs as [|h hs IH]; intros height bits.
  - cbn [app permitted length last_bits foldl]. rewrite Z.add_0_r. tauto.
  - cbn [app permitted length last_bits foldl]. rewrite IH, Nat2Z.inj_succ.
    replace (height + Z.succ (Z.of_nat (length hs))) with (height + 1 + Z.of_nat (length hs)) by lia.
    unfold last_bits. tauto.
Qed.

Lemma commits_app height hs hs' :
  commits height (hs ++ hs') = commits height hs ++ commits (height + Z.of_nat (length hs)) hs'.
Proof.
  revert height. induction hs as [|h hs IH]; intros height.
  - cbn [app commits length]. by rewrite Z.add_0_r.
  - cbn [app commits length]. rewrite IH, Nat2Z.inj_succ, <- app_assoc.
    by replace (height + Z.succ (Z.of_nat (length hs))) with (height + 1 + Z.of_nat (length hs)) by lia.
Qed.

Lemma last_hash_app prev hs hs' : last_hash prev (hs ++ hs') = last_hash (last_hash prev hs) hs'.
Proof. apply foldl_app. Qed.

Lemma last_bits_app bits hs hs' : last_bits bits (hs ++ hs') = last_bits (last_bits bits hs) hs'.
Proof. apply foldl_app. Qed.

Lemma chain_work_app w hs hs' : chain_work w (hs ++ hs') = chain_work (chain_work w hs) hs'.
Proof. apply foldl_app. Qed.

Lemma below_prefix w hs : below w hs `prefix_of` hs.
Proof.
  revert w. induction hs as [|h hs IH]; intros w; [done|]. cbn [below].
  destruct (_ <=? _); [apply prefix_nil|]. apply prefix_cons, IH.
Qed.

(** The headers below the minimum of a longer chain. *)
Lemma below_snoc w hs h :
  below w (hs ++ [h]) =
  if (length (below w hs) <? length hs)%nat then below w hs
  else if min_work <=? chain_work w (hs ++ [h]) then hs else hs ++ [h].
Proof.
  revert w. induction hs as [|x hs IH]; intros w.
  - cbn. by destruct (_ <=? _).
  - cbn [app below length]. change (chain_work w (x :: hs ++ [h])) with
      (chain_work (u256 (w + GetBlockProof (hdr_nBits x))) (hs ++ [h])).
    destruct (min_work <=? u256 (w + GetBlockProof (hdr_nBits x))); [done|].
    cbn [length]. rewrite IH. change (S ?a <? S ?b)%nat with (a <? b)%nat.
    destruct (_ <? _)%nat; [done|]. by destruct (_ <=? _).
Qed.

Lemma below_all w hs : (length (below w hs) <? length hs)%nat = false → below w hs = hs.
Proof.
  intros Hl%Nat.ltb_ge. destruct (below_prefix w hs) as [k Hk].
  assert (k = []) as ->; [|by rewrite app_nil_r in Hk].
  apply length_zero_iff_nil. apply (f_equal length) in Hk. rewrite length_app in Hk. lia.
Qed.

(** Whether the minimum has been reached, [flag] of a chain, one header later. *)
Definition reached (hs : list CBlockHeader) : bool :=
  (length (below start_work hs) <? length hs)%nat.

Lemma reached_snoc hs h :
  reached (hs ++ [h]) = (min_work <=? chain_work start_work (hs ++ [h])) || reached hs.
Proof.
  unfold reached. rewrite below_snoc, length_app. cbn [length].
  pose proof (prefix_length _ _ (below_prefix start_work hs)).
  destruct (length (below start_work hs) <? length hs)%nat eqn:E.
  - rewrite orb_true_r. apply Nat.ltb_lt. lia.
  - rewrite orb_false_r. destruct (_ <=? _); [apply Nat.ltb_lt; lia|].
    rewrite length_app. apply Nat.ltb_irrefl.
Qed.

Lemma below_reached hs h :
  reached (hs ++ [h]) = true → below start_work (hs ++ [h]) = below start_work hs.
Proof.
  rewrite reached_snoc. rewrite below_snoc. unfold reached. intros H.
  destruct (_ <? _)%nat eqn:E; [done|]. rewrite orb_false_r in H. rewrite H.
  symmetry. by apply below_all.
Qed.

Lemma reached_false hs : reached hs = false → below start_work hs = hs.
Proof. apply below_all. Qed.

Lemma relink_app prev cs cs' :
  relink prev (cs ++ cs') = relink prev cs ++ relink (last_hash prev (relink prev cs)) cs'.
Proof.
  revert prev. induction cs as [|x cs IH]; intros prev; [done|].
  cbn [app relink]. by rewrite IH.
Qed.

Lemma relink_length prev cs : length (relink prev cs) = length cs.
Proof. revert prev. induction cs as [|x cs IH]; intros prev; [done|]. cbn. by rewrite IH. Qed.

(** Headers without extra parents survive compression. *)
Lemma relink_plain prev hs :
  linked prev hs → Forall plain hs → relink prev (compress <$> hs) = hs.
Proof.
  intros Hl Hp. revert prev Hl. induction Hp as [|h hs [Hr Hq] _ IH]; intros prev; [done|].
  intros [Hprev Hl]. cbn [fmap list_fmap relink].
  assert (GetFullHeader (compress h) prev = h) as ->.
  { destruct h; cbn in *. by subst. }
  f_equal. by apply IH.
Qed.

Lemma continuous_linked h hs :
  hash_of h ≠ 0 → Forall (λ x, hash_of x ≠ 0) hs →
  continuous_from SHA256d (hash_of h) hs = true → linked (hash_of h) hs.
Proof.
  intros Hh Hnz. revert h Hh. induction Hnz as [|x hs Hx _ IH]; intros h Hh; [done|].
  cbn [continuous_from linked].
  unfold IsNull. destruct (Z.eqb_spec (hash_of h) 0) as [E|_]; [done|]. cbn [negb andb].
  destruct (Z.eqb_spec (hdr_hashPrevBlock x) (hash_of h)); [|done]. cbn [negb]. auto.
Qed.

(** ** PRESYNC *)

Record presync_inv (s : HeadersSyncState) (P : list CBlockHeader) : Prop := {
  pi_state : m_download_state s = PRESYNC;
  pi_buffer : m_redownloaded_headers s = [];
  pi_all : m_process_all_remaining_headers s = false;
  pi_work : m_current_chain_work s = chain_work start_work P;
  pi_commits : m_header_commitments s = commits start_height P;
  pi_bound : Z.of_nat (length (commits start_height P)) <= m_max_commitments c;
  pi_height : m_current_height s = start_height + Z.of_nat (length P);
  pi_hash : hash_of (m_last_header_received s) = last_hash start P;
  pi_bits : hdr_nBits (m_last_header_received s) = last_bits start_bits P;
  pi_permitted : permitted start_height start_bits P
}.

(** The heights of the chain are [int] values. *)
Definition in_range (n : nat) : Prop := 0 <= start_height ∧ start_height + Z.of_nat n < 2 ^ 31.

Lemma commits_snoc height hs h :
  commits height (hs ++ [h]) =
  if commit_height c (height + Z.of_nat (length hs) + 1)
  then commits height hs ++ [commitment SHA256d c h] else commits height hs.
Proof.
  rewrite commits_app. cbn [commits]. rewrite app_nil_r.
  destruct (commit_height _ _); [done|]. by rewrite app_nil_r.
Qed.

Lemma permitted_snoc hs h :
  permitted start_height start_bits (hs ++ [h]) ↔
  permitted start_height start_bits hs ∧
  PermittedDifficultyTransition (m_consensus_params c) (start_height + Z.of_nat (length hs) + 1)
    (last_bits start_bits hs) (hdr_nBits h) = Some true.
Proof. rewrite permitted_app. cbn [permitted]. tauto. Qed.

(** A header is taken exactly when the chain with it is permitted and short enough. *)
Lemma single_step s P h :
  presync_inv s P → in_range (S (length P)) →
  (∀ s', ValidateAndProcessSingleHeader SHA256d c s h = Some (s', true) → presync_inv s' (P ++ [h])) ∧
  (permitted start_height start_bits (P ++ [h]) →
   Z.of_nat (length (commits start_height (P ++ [h]))) <= m_max_commitments c →
   ∃ s', ValidateAndProcessSingleHeader SHA256d c s h = Some (s', true)).
Proof.
  intros [Hs Hb Ha Hw Hc Hm Hh Hl Hbits Hp] [Hr1 Hr2]. unfold ValidateAndProcessSingleHeader.
  rewrite Hs, Hh, Hbits, Hc, Hw. rewrite bool_decide_true by done. cbn [negb].
  rewrite permitted_snoc, commits_snoc.
  rewrite (swrap_small 32) by lia.
  destruct (PermittedDifficultyTransition _ _ _ _) as [[]|] eqn:Ep; cbn [mbind option_bind negb];
    [|by split; [intros s'|intros []]..].
  destruct (commit_height c _) eqn:Ec; cbn [andb].
  - destruct (Z.ltb_spec (m_max_commitments c)
      (Z.of_nat (length (commits start_height P ++ [commitment SHA256d c h])))) as [Hlt|Hge].
    + split; [intros s' H; by simplify_eq|]. intros _ ?. lia.
    + split; [|eauto]. intros s' [= <-]. constructor; cbn;
        rewrite ?chain_work_app, ?last_hash_app, ?last_bits_app, ?length_app, ?commits_snoc, ?Ec,
          ?permitted_snoc; cbn [length]; try done; lia.
  - split; [|eauto]. intros s' [= <-]. constructor; cbn;
      rewrite ?chain_work_app, ?last_hash_app, ?last_bits_app, ?length_app, ?commits_snoc, ?Ec,
        ?permitted_snoc; cbn [length]; try done; lia.
Qed.

Lemma presync_loop_spec hs s P :
  presync_inv s P → in_range (length (P ++ hs)) →
  (∀ s', presync_loop SHA256d c s hs = Some (s', true) → presync_inv s' (P ++ hs)) ∧
  (permitted start_height start_bits (P ++ hs) →
   Z.of_nat (length (commits start_height (P ++ hs))) <= m_max_commitments c →
   ∃ s', presync_loop SHA256d c s hs = Some (s', true)).
Proof.
  revert s P. induction hs as [|h hs IH]; intros s P Hi Hr; cbn [presync_loop].
  { rewrite app_nil_r. split; [|eauto]. by intros s' [= <-]. }
  destruct (single_step s P h Hi) as [S1 S2].
  { destruct Hr as [? Hr]. split; [done|]. rewrite length_app in Hr. cbn [length] in Hr. lia. }
  replace (P ++ h :: hs) with ((P ++ [h]) ++ hs) in * by (by rewrite <- app_assoc).
  split.
  - intros s' H. destruct (ValidateAndProcessSingleHeader SHA256d c s h) as [[s1 []]|] eqn:E;
      cbn [mbind option_bind negb] in H; [|done..].
    by eapply (IH s1 (P ++ [h])); [apply S1|..].
  - intros Hp Hc. destruct S2 as [s1 E].
    { by apply permitted_app in Hp as [? _]. }
    { rewrite commits_app, length_app in Hc. lia. }
    rewrite E. cbn [mbind option_bind negb]. by apply (IH s1 (P ++ [h])); [apply S1|..].
Qed.

(** ** REDOWNLOAD *)

Record redownload_inv (s : HeadersSyncState) (P D R : list CBlockHeader) : Prop := {
  ri_state : m_download_state s = REDOWNLOAD;
  ri_height : m_redownload_buffer_last_height s = start_height + Z.of_nat (length D);
  ri_hash : m_redownload_buffer_last_hash s = last_hash start D;
  ri_work : m_redownload_chain_work s = chain_work start_work D;
  ri_all : m_process_all_remaining_headers s = reached D;
  ri_commits : commits start_height P
               = commits start_height (below start_work D) ++ m_header_commitments s;
  ri_buffer : m_redownloaded_headers s = compress <$> drop (length R) D;
  ri_released : R = relink start (compress <$> take (length R) D);
  ri_prev : m_redownload_buffer_first_prev_hash s = last_hash start R;
  ri_chain : peer_chain D;
  ri_rest : D = [] ∨ (length R < length D)%nat
}.

Lemma last_bits_last bits hs :
  last_bits bits hs = match last hs with Some h => hdr_nBits h | None => bits end.
Proof.
  destruct hs as [|h hs] using rev_ind; [done|]. by rewrite last_bits_app, last_snoc.
Qed.

(** The bits of the last header are those of the last header in the buffer. *)
Lemma buffer_bits s P D R :
  redownload_inv s P D R →
  match last (m_redownloaded_headers s) with Some x => ch_nBits x | None => start_bits end
  = last_bits start_bits D.
Proof.
  intros [_ _ _ _ _ _ Hb _ _ _ Hr]. rewrite Hb, last_bits_last, fmap_last.
  destruct Hr as [->|Hr]; [by rewrite drop_nil|].
  destruct D as [|x D _] using rev_ind; [cbn in Hr; lia|]. rewrite length_app in Hr. cbn in Hr.
  rewrite drop_app_le by lia. by rewrite !last_snoc.
Qed.

Lemma store_keeps s P D R h s' cms :
  redownload_inv s P D R → hdr_hashPrevBlock h = last_hash start D →
  permitted start_height start_bits (D ++ [h]) →
  m_download_state s' = REDOWNLOAD →
  m_redownload_buffer_last_height s' = start_height + Z.of_nat (length D) + 1 →
  m_redownload_buffer_last_hash s' = hash_of h →
  m_redownload_chain_work s' = chain_work start_work (D ++ [h]) →
  m_process_all_remaining_headers s' = reached (D ++ [h]) →
  m_header_commitments s' = cms →
  commits start_height P = commits start_height (below start_work (D ++ [h])) ++ cms →
  m_redownloaded_headers s' = m_redownloaded_headers s ++ [compress h] →
  m_redownload_buffer_first_prev_hash s' = m_redownload_buffer_first_prev_hash s →
  redownload_inv s' P (D ++ [h]) R.
Proof.
  intros [Hs Hh Hl Hw Ha Hc Hb Hr Hp [Hc1 Hc2] Hrest] Hprev Hperm E1 E2 E3 E4 E5 E6 E7 E8 E9.
  assert (Hle : (length R <= length D)%nat).
  { rewrite Hr, relink_length, length_fmap, length_take. lia. }
  constructor; [done|..].
  - rewrite E2, length_app. cbn [length]. lia.
  - by rewrite E3, last_hash_app.
  - done.
  - done.
  - by rewrite E6.
  - rewrite E8, Hb, drop_app_le by done. by rewrite fmap_app.
  - by rewrite take_app_le by done.
  - by rewrite E9.
  - split; [|done]. apply linked_app. split; [done|]. cbn. auto.
  - right. rewrite length_app. cbn. lia.
Qed.

(** A header is taken exactly when it continues a permitted chain and, before the minimum
    work is reached, agrees with the bits of PRESYNC. *)
Lemma redownload_step s P D R h :
  redownload_inv s P D R →
  (∀ s', ValidateAndStoreRedownloadedHeader SHA256d c s h = Some (s', true) →
     redownload_inv s' P (D ++ [h]) R) ∧
  (peer_chain (D ++ [h]) →
   commits start_height (below start_work (D ++ [h])) `prefix_of` commits start_height P →
   ∃ s', ValidateAndStoreRedownloadedHeader SHA256d c s h = Some (s', true)).
Proof.
  intros Hi. pose proof (store_keeps s P D R h) as Hkeep. pose proof (buffer_bits s P D R Hi) as Hbits.
  pose proof Hi as [Hs Hh Hl Hw Ha Hc Hb Hr Hp [Hc1 Hc2] Hrest].
  unfold ValidateAndStoreRedownloadedHeader. rewrite Hbits, Hs, Hh, Hl, Hw, Ha.
  rewrite bool_decide_true by done. cbn [negb].
  unfold peer_chain. rewrite permitted_snoc, linked_app. cbn [linked].
  destruct (Z.eqb_spec (hdr_hashPrevBlock h) (last_hash start D)) as [Eh|Eh]; cbn [negb].
  2: { split; [intros s'|]; naive_solver. }
  destruct (PermittedDifficultyTransition _ _ _ _) as [[]|] eqn:Ep; cbn [mbind option_bind negb];
    [|by split; [intros s'|]; naive_solver..].
  assert (Hperm : permitted start_height start_bits (D ++ [h])) by (by apply permitted_snoc).
  change (u256 (chain_work start_work D + GetBlockProof (hdr_nBits h)))
    with (chain_work (chain_work start_work D) [h]). rewrite <- chain_work_app, <- reached_snoc.
  destruct (reached (D ++ [h])) eqn:Ea; cbn [negb andb].
  - split; [|eauto]. intros s' [= <-]. eapply Hkeep; cbn; eauto. by rewrite below_reached.
  - assert (reached D = false) as Ea' by (rewrite reached_snoc in Ea; by apply orb_false_iff in Ea as [_ ?]).
    rewrite (reached_false _ Ea') in Hc.
    assert (Ec : commits start_height P = commits start_height D ++ m_header_commitments s) by done.
    rewrite (reached_false _ Ea), commits_snoc in *.
    destruct (commit_height c _) eqn:Eq.
    + destruct (m_header_commitments s) as [|e cms] eqn:Em.
      * split; [intros s' [=]|]. intros _ [k Hk]. rewrite Ec, app_nil_r, <- app_assoc in Hk.
        apply (f_equal length) in Hk. rewrite !length_app in Hk. cbn in Hk. lia.
      * destruct (eqb_spec (commitment SHA256d c h) e) as [He|He]; cbn [negb].
        -- split; [|eauto]. intros s' [= <-]. eapply Hkeep; cbn; eauto.
           rewrite Ec, <- app_assoc. by subst e.
        -- split; [intros s' [=]|]. intros _ [k Hk]. rewrite Ec, <- app_assoc in Hk.
           apply app_inv_head in Hk. cbn in Hk. congruence.
    + split; [|eauto]. intros s' [= <-]. eapply Hkeep; cbn; eauto.
Qed.

Lemma below_app w hs hs' : below w hs `prefix_of` below w (hs ++ hs').
Proof.
  revert w. induction hs as [|h hs IH]; intros w; [apply prefix_nil|]. cbn [app below].
  destruct (_ <=? _); [done|]. apply prefix_cons, IH.
Qed.

Lemma commits_prefix height hs hs' :
  hs `prefix_of` hs' → commits height hs `prefix_of` commits height hs'.
Proof. intros [k ->]. rewrite commits_app. by exists (commits (height + Z.of_nat (length hs)) k). Qed.

Lemma peer_chain_app hs hs' : peer_chain (hs ++ hs') → peer_chain hs.
Proof. intros [[H _]%linked_app [H' _]%permitted_app]. by split. Qed.

Lemma redownload_loop_spec hs s P D R :
  redownload_inv s P D R →
  (∀ s', redownload_loop SHA256d c s hs = Some (s', true) → redownload_inv s' P (D ++ hs) R) ∧
  (peer_chain (D ++ hs) →
   commits start_height (below start_work (D ++ hs)) `prefix_of` commits start_height P →
   ∃ s', redownload_loop SHA256d c s hs = Some (s', true)).
Proof.
  revert s D. induction hs as [|h hs IH]; intros s D Hi; cbn [redownload_loop].
  { rewrite app_nil_r. split; [|eauto]. by intros s' [= <-]. }
  destruct (redownload_step s P D R h Hi) as [S1 S2].
  replace (D ++ h :: hs) with ((D ++ [h]) ++ hs) in * by (by rewrite <- app_assoc). split.
  - intros s' H. destruct (ValidateAndStoreRedownloadedHeader SHA256d c s h) as [[s1 []]|] eqn:E;
      cbn [mbind option_bind negb] in H; [|done..].
    by eapply (IH s1 (D ++ [h])); [apply S1|].
  - intros Hp Hc. destruct S2 as [s1 E].
    { by eapply peer_chain_app. }
    { etrans; [|exact Hc]. apply commits_prefix, below_app. }
    rewrite E. cbn [mbind option_bind negb]. by apply (IH s1 (D ++ [h])); [apply S1|..].
Qed.

(** ** What is released *)

Lemma buffer_size_pos : 0 < REDOWNLOAD_BUFFER_SIZE.
Proof. done. Qed.

(** How many headers of a buffer are popped. *)
Definition pop_count (all : bool) (n : nat) : nat :=
  if all then n else (n - Z.to_nat REDOWNLOAD_BUFFER_SIZE)%nat.

Lemma pop_loop_spec all prev cs :
  let popped := relink prev (take (pop_count all (length cs)) cs) in
  pop_loop SHA256d all prev cs
  = (popped, drop (pop_count all (length cs)) cs, last_hash prev popped).
Proof.
  pose proof buffer_size_pos as Hpos. revert prev. unfold pop_count.
  induction cs as [|x cs IH]; intros prev; cbn [pop_loop].
  { destruct all; [done|]. by rewrite take_nil, drop_nil. }
  destruct (Z.ltb_spec REDOWNLOAD_BUFFER_SIZE (Z.of_nat (length (x :: cs)))) as [Hlt|Hge]; cbn [orb].
  - rewrite IH. destruct all; [done|]. cbn [length] in Hlt |- *.
    by replace (S (length cs) - Z.to_nat REDOWNLOAD_BUFFER_SIZE)%nat
      with (S (length cs - Z.to_nat REDOWNLOAD_BUFFER_SIZE)) by lia.
  - destruct all; [by rewrite IH|].
    by replace (length (x :: cs) - Z.to_nat REDOWNLOAD_BUFFER_SIZE)%nat with O by lia.
Qed.

(** Releasing keeps the invariant while the minimum is not reached, and empties the buffer
    once it is. *)
Lemma pop_spec s P D R ret s' :
  redownload_inv s P D R → PopHeadersReadyForAcceptance SHA256d s = (ret, s') →
  R ++ ret = relink start (compress <$> take (length (R ++ ret)) D) ∧
  m_process_all_remaining_headers s' = reached D ∧
  if reached D then m_redownloaded_headers s' = [] ∧ length (R ++ ret) = length D
  else redownload_inv s' P D (R ++ ret) ∧
       Z.of_nat (length (m_redownloaded_headers s')) <= REDOWNLOAD_BUFFER_SIZE ∧
       (ret ≠ [] → Z.of_nat (length (R ++ ret)) + REDOWNLOAD_BUFFER_SIZE <= Z.of_nat (length D)).
Proof.
  intros [Hs Hh Hl Hw Ha Hc Hb Hr Hp Hch Hrest]. unfold PopHeadersReadyForAcceptance.
  rewrite Hs, bool_decide_true by done. cbn [negb]. rewrite pop_loop_spec, Ha, Hb, Hp.
  intros [= <- <-]. cbn [m_process_all_remaining_headers m_redownloaded_headers].
  pose proof buffer_size_pos as Hpos.
  assert (Hle : (length R <= length D)%nat).
  { rewrite Hr, relink_length, length_fmap, length_take. lia. }
  rewrite length_fmap, length_drop, <- fmap_take, <- fmap_drop, drop_drop.
  set (m := pop_count (reached D) (length D - length R)).
  assert (Hm : (m <= length D - length R)%nat) by (unfold m, pop_count; destruct (reached D); lia).
  set (ret := relink (last_hash start R) (compress <$> take m (drop (length R) D))).
  assert (Hlen : length (R ++ ret) = (length R + m)%nat).
  { unfold ret. rewrite length_app, relink_length, length_fmap, length_take, length_drop. lia. }
  assert (Hrel : R ++ ret = relink start (compress <$> take (length (R ++ ret)) D)).
  { rewrite Hlen, <- take_take_drop, fmap_app, relink_app, <- Hr. done. }
  split; [done|]. split; [done|]. destruct (reached D) eqn:Ea.
  - rewrite Hlen. unfold m, pop_count. split; [|lia].
    rewrite drop_ge; [done|]. lia.
  - split; [|split].
    + constructor; cbn [m_download_state m_redownload_buffer_last_height
        m_redownload_buffer_last_hash m_redownload_chain_work m_process_all_remaining_headers
        m_header_commitments m_redownloaded_headers m_redownload_buffer_first_prev_hash];
        try done.
      * by rewrite Hlen.
      * by rewrite last_hash_app.
      * rewrite Hlen. unfold m, pop_count. destruct Hrest as [?|?]; [by left|right; lia].
    + rewrite length_fmap, length_drop. unfold m, pop_count. lia.
    + intros Hne. rewrite Hlen. assert (m ≠ O); [|unfold m, pop_count in *; lia].
      intros E. apply Hne. unfold ret. by rewrite E.
Qed.

(** ** The invariant of a sync *)

(** What holds of the headers [P] taken first, [D] taken again, and [R] released. *)
Record sync_facts (P D R : list CBlockHeader) : Prop := {
  sf_presync : peer_chain P;
  sf_chain : peer_chain D;
  sf_work : D ≠ [] → min_work <= chain_work start_work P;
  sf_commits : commits start_height (below start_work D) `prefix_of` commits start_height P;
  sf_released : R = relink start (compress <$> take (length R) D);
  sf_buried : R ≠ [] → Z.of_nat (length R) + REDOWNLOAD_BUFFER_SIZE <= Z.of_nat (length D)
                       ∨ reached D = true
}.

Lemma presync_facts s P : presync_inv s P → linked start P → sync_facts P [] [].
Proof.
  intros [] Hl. constructor; try done. apply prefix_nil.
Qed.

(** The state after the messages whose headers are [seen], with [R] released. *)
Inductive sync_ok (s : HeadersSyncState) : list CBlockHeader → list CBlockHeader → Prop :=
  | ok_presync P : presync_inv s P → linked start P → sync_ok s P []
  | ok_redownload P D R :
      redownload_inv s P D R → sync_facts P D R → min_work <= chain_work start_work P →
      Z.of_nat (length (commits start_height P)) <= m_max_commitments c → reached D = false →
      Z.of_nat (length (m_redownloaded_headers s)) <= REDOWNLOAD_BUFFER_SIZE →
      sync_ok s (P ++ D) R
  | ok_final P D R rest :
      m_download_state s = FINAL → m_header_commitments s = [] → m_redownloaded_headers s = [] →
      sync_facts P D R → sync_ok s (P ++ D ++ rest) R.

(** Ending the sync keeps what has been shown. *)
Lemma Finalize_ok s P D R rest : sync_facts P D R → sync_ok (Finalize s) (P ++ D ++ rest) R.
Proof. by apply ok_final. Qed.

Lemma sync_ok_facts s seen R : sync_ok s seen R → ∃ P D rest, seen = P ++ D ++ rest ∧ sync_facts P D R.
Proof.
  intros [P H1 H2|P D R' H1 H2|P D R' rest _ _ _ H].
  - exists P, [], []. rewrite app_nil_r. split; [done|]. by eapply presync_facts.
  - exists P, D, []. by rewrite app_nil_r.
  - by exists P, D, rest.
Qed.

(** A message that passes [CheckHeadersAreContinuous]. *)
Definition message_ok (hs : list CBlockHeader) : Prop :=
  CheckHeadersAreContinuous SHA256d hs = true ∧ Forall (λ x, hash_of x ≠ 0) hs.

Lemma message_linked x hs : message_ok (x :: hs) → linked (hdr_hashPrevBlock x) (x :: hs).
Proof.
  intros [Hc Hnz]. apply Forall_cons in Hnz as [Hx Hnz]. split; [done|].
  unfold CheckHeadersAreContinuous in Hc. cbn [continuous_from] in Hc.
  by apply continuous_linked.
Qed.

Lemma start_redownload_ok s P :
  presync_inv s P → linked start P → min_work <= chain_work start_work P →
  sync_ok (start_redownload c s) P [].
Proof.
  intros Hi Hl Hw. pose proof Hi as []. rewrite <- (app_nil_r P) at 1.
  apply ok_redownload; [|by eapply presync_facts|done|done|done|done].
  constructor; cbn; try done; [lia|by left].
Qed.

Lemma presync_message s P hs s' ok :
  presync_inv s P → linked start P → message_ok hs → in_range (length (P ++ hs)) →
  ValidateAndStoreHeadersCommitments SHA256d c s hs = Some (s', ok) →
  if ok then sync_ok s' (P ++ hs) [] ∧ m_download_state s' ≠ FINAL else True.
Proof.
  intros Hi Hl Hm Hr. destruct hs as [|x hs]; cbn [ValidateAndStoreHeadersCommitments].
  { intros [= <- <-]. rewrite app_nil_r. split; [by apply ok_presync|]. by destruct Hi as [->]. }
  destruct (presync_loop_spec (x :: hs) s P Hi Hr) as [HL _]. pose proof Hi as [Hs _ _ _ _ _ _ Hh _ _].
  rewrite Hs, bool_decide_true, Hh by done. cbn [negb].
  destruct (Z.eqb_spec (hdr_hashPrevBlock x) (last_hash start P)) as [E|]; cbn [negb].
  2: { by intros [= <- <-]. }
  destruct (presync_loop SHA256d c s (x :: hs)) as [[s1 []]|]; cbn [mbind option_bind negb]; [|by intros [= <- <-]|done].
  specialize (HL s1 eq_refl).
  assert (Hl' : linked start (P ++ x :: hs)).
  { apply linked_app. split; [done|]. rewrite <- E. by apply message_linked. }
  destruct (Z.leb_spec min_work (m_current_chain_work s1)) as [Hw|Hw]; intros [= <- <-].
  - split; [|done]. apply start_redownload_ok; [done..|]. by destruct HL as [_ _ _ <- _ _ _ _ _ _].
  - split; [by apply ok_presync|]. by destruct HL as [->].
Qed.

Lemma redownload_message s P D R hs s' :
  redownload_inv s P D R → sync_facts P D R → min_work <= chain_work start_work P →
  Z.of_nat (length (commits start_height P)) <= m_max_commitments c → reached D = false →
  redownload_loop SHA256d c s hs = Some (s', true) →
  ∀ ret s'', PopHeadersReadyForAcceptance SHA256d s' = (ret, s'') →
  sync_facts P (D ++ hs) (R ++ ret) ∧
  (m_redownloaded_headers s'' = [] ∧ m_process_all_remaining_headers s'' = true ∨
   sync_ok s'' (P ++ D ++ hs) (R ++ ret)).
Proof.
  intros Hi [F1 F2 F3 F4 F5 F6] Hw Hm Hrd Hl ret s'' Hpop.
  apply (redownload_loop_spec hs s P D R Hi) in Hl.
  destruct (pop_spec _ _ _ _ _ _ Hl Hpop) as (Hrel & Hall & Hcase).
  assert (Hf : sync_facts P (D ++ hs) (R ++ ret)).
  { pose proof Hl as []. constructor; [done|done|done| |done|].
    - by eexists.
    - intros Hne. destruct (reached (D ++ hs)) eqn:Ea; [by right|left].
      destruct Hcase as (_ & _ & Hbur). destruct (decide (ret = [])) as [->|Hret]; [|by apply Hbur].
      rewrite app_nil_r in Hne |- *. destruct (F6 Hne) as [Hb|Hb]; [|congruence].
      rewrite length_app. lia. }
  split; [done|]. destruct (reached (D ++ hs)) eqn:Ea.
  - left. by destruct Hcase.
  - right. destruct Hcase as (H1 & H2 & _). by apply ok_redownload.
Qed.

Lemma ProcessNextHeaders_ok s seen R hs full s' r :
  sync_ok s seen R → message_ok hs → in_range (length (seen ++ hs)) →
  ProcessNextHeaders SHA256d c s hs full = Some (s', r) →
  sync_ok s' (seen ++ hs) (R ++ pow_validated_headers r).
Proof.
  intros Hok Hm Hr. destruct hs as [|x hs].
  { unfold ProcessNextHeaders. intros [= <- <-]. by rewrite !app_nil_r. }
  set (m := x :: hs) in *. pose proof (sync_ok_facts s seen R Hok) as (P0 & D0 & rest0 & E0 & F0).
  assert (Hfin : ∀ t, sync_ok (Finalize t) (seen ++ m) R).
  { intros t. subst seen. rewrite <- !app_assoc. by apply Finalize_ok. }
  unfold ProcessNextHeaders. subst m.
  destruct Hok as [P Hi Hl|P D R Hi Hf Hw Hc Ha Hb|P D R rest Hs Hc Hb Hf].
  - pose proof Hi as [-> _]. cbn [app].
    destruct (ValidateAndStoreHeadersCommitments SHA256d c s (x :: hs)) as [[s1 ok]|] eqn:E;
      cbn [mbind option_bind]; [|done].
    pose proof (presync_message s P _ s1 ok Hi Hl Hm Hr E) as Hp.
    intros [= <- <-]. cbn [pow_validated_headers success request_more].
    destruct ok; cbn [andb negb]; [|apply Hfin]. destruct Hp as [Hp _].
    by destruct (full || _); cbn [negb].
  - pose proof Hi as [-> _]. destruct (redownload_loop SHA256d c s (x :: hs)) as [[s1 ok]|] eqn:E;
      cbn [mbind option_bind]; [|done].
    destruct ok; cbn [negb].
    2: { intros [= <- <-]. cbn. rewrite app_nil_r. apply Hfin. }
    destruct (PopHeadersReadyForAcceptance SHA256d s1) as [ret s2] eqn:Ep.
    destruct (redownload_message s P D R _ s1 Hi Hf Hw Hc Ha E ret s2 Ep) as [F Hcase].
    assert (Hfin' : sync_ok (Finalize s2) ((P ++ D) ++ x :: hs) (R ++ ret)).
    { pose proof (Finalize_ok s2 P (D ++ x :: hs) (R ++ ret) [] F) as H.
      by rewrite app_nil_r, app_assoc in H. }
    intros [= <- <-]. cbn [pow_validated_headers success request_more andb].
    destruct (negb _ && full) eqn:Eq; cbn [negb]; [|done]. rewrite <- app_assoc.
    destruct Hcase as [[E1 E2]|]; [|done].
    rewrite E1, E2, bool_decide_true in Eq by done. done.
  - rewrite Hs. intros [= <- <-]. cbn [pow_validated_headers]. rewrite app_nil_r, <- !app_assoc.
    by apply ok_final.
Qed.

Lemma sync_run_ok msgs s seen R s' R' :
  sync_ok s seen R → Forall (λ m, message_ok m.1) msgs →
  in_range (length (seen ++ concat msgs.*1)) →
  sync_run SHA256d c s msgs = Some (s', R') →
  sync_ok s' (seen ++ concat msgs.*1) (R ++ R').
Proof.
  intros Hok Hm. revert s seen R R' Hok.
  induction Hm as [|[hs full] msgs Hh _ IH]; intros s seen R R' Hok Hr H; cbn [sync_run] in H.
  { simplify_eq. cbn. by rewrite !app_nil_r. }
  cbn [fmap list_fmap concat fst] in *.
  destruct (ProcessNextHeaders SHA256d c s hs full) as [[s1 r]|] eqn:E; cbn [mbind option_bind] in H; [|done].
  destruct (sync_run SHA256d c s1 msgs) as [[s2 R2]|] eqn:E2; cbn [mbind option_bind] in H; [|done].
  simplify_eq. rewrite !app_assoc. rewrite app_assoc in Hr.
  assert (Hr1 : in_range (length (seen ++ hs))).
  { destruct Hr as [? Hr]. split; [done|]. rewrite length_app in Hr. lia. }
  apply (IH s1); [|done|done]. by eapply ProcessNextHeaders_ok.
Qed.

(** The constructor, over an index as acceptance keeps it. *)
Lemma NewHeadersSync_ok st params hasher chain_start minimum now random s :
  NewHeadersSync st params hasher chain_start minimum now random = Some (c, s) →
  index_hashed SHA256d st → presync_inv s [].
Proof.
  unfold NewHeadersSync. destruct (st !! chain_start) as [b|] eqn:Hb; cbn [mbind option_bind]; [|done].
  intros H. apply (inj Some), pair_equal_spec in H as [Hc <-].
  assert (Hm : 0 <= m_max_commitments c).
  { rewrite <- Hc. cbn [m_max_commitments]. apply Z.div_pos; [apply wrap_fits; lia|done]. }
  assert (start_entry c = b) as Eb by (by rewrite <- Hc).
  assert (start = chain_start) as E by (by rewrite <- Hc).
  intros Hh. specialize (Hh chain_start b Hb). constructor; cbn; rewrite ?E, ?Eb; try done. lia.
Qed.

(** ** Properties *)

Lemma reached_prefix hs : reached hs = true → ∃ k, min_work <= chain_work start_work (take k hs).
Proof.
  induction hs as [|h hs IH] using rev_ind; [done|]. rewrite reached_snoc.
  intros [H|H]%orb_true_iff.
  - exists (length (hs ++ [h])). rewrite firstn_all. by apply Z.leb_le.
  - destruct (IH H) as [k Hk]. exists (k `min` length hs)%nat.
    rewrite take_app_le by lia. destruct (Nat.min_spec k (length hs)) as [[_ ->]|[? ->]]; [done|].
    rewrite firstn_all. by rewrite take_ge in Hk by done.
Qed.

Section runs.
Context (st : BlockMap) (params : Params) (hasher : Z → Z).
Context (chain_start minimum now random : Z) (s0 : HeadersSyncState).
Context (New : NewHeadersSync st params hasher chain_start minimum now random = Some (c, s0)).
Context (Hash : index_hashed SHA256d st).

Lemma run_ok msgs s R :
  Forall (λ m, message_ok m.1) msgs → in_range (length (concat msgs.*1)) →
  sync_run SHA256d c s0 msgs = Some (s, R) → sync_ok s (concat msgs.*1) R.
Proof using New Hash.
  intros Hm Hr H. pose proof (NewHeadersSync_ok _ _ _ _ _ _ _ _ New Hash) as Hi.
  apply (sync_run_ok msgs s0 [] [] s R); [|done..]. by apply ok_presync.
Qed.

(** C22. Whatever a peer sends, headers are released only on proof of work: they come, in
    order, from a second chain [D] that starts at the known block, keeps the difficulty
    rule, and agrees with every bit kept of a first chain [P] that had the required work,
    until [D] itself has it; and each is released either below [REDOWNLOAD_BUFFER_SIZE]
    headers of [D] or once [D] has the required work.  They are the headers of [D] put
    together from their compressed form, and when no header of [D] has extra parents they
    are those headers themselves. *)
Theorem released_headers_sound msgs s R :
  Forall (λ m, message_ok m.1) msgs → in_range (length (concat msgs.*1)) →
  sync_run SHA256d c s0 msgs = Some (s, R) →
  ∃ P D rest, concat msgs.*1 = P ++ D ++ rest ∧ peer_chain P ∧ peer_chain D ∧
    (D ≠ [] → min_work <= chain_work start_work P) ∧
    commits start_height (below start_work D) `prefix_of` commits start_height P ∧
    R = relink start (compress <$> take (length R) D) ∧
    (Forall plain D → R = take (length R) D) ∧
    (R ≠ [] → Z.of_nat (length R) + REDOWNLOAD_BUFFER_SIZE <= Z.of_nat (length D) ∨
              ∃ k, min_work <= chain_work start_work (take k D)).
Proof using New Hash.
  intros Hm Hr H. destruct (sync_ok_facts _ _ _ (run_ok msgs s R Hm Hr H)) as (P & D & rest & E & []).
  exists P, D, rest. repeat (split; [done|]). split.
  - intros Hp. rewrite sf_released0 at 1. apply relink_plain; [|by apply Forall_take].
    destruct sf_chain0 as [Hl _]. rewrite <- (take_drop (length R) D) in Hl.
    by apply linked_app in Hl as [? _].
  - intros Hne. destruct (sf_buried0 Hne) as [?|?]; [by left|right]. by apply reached_prefix.
Qed.

(** The memory a peer can make the node use for a sync is bounded whatever it sends:
    between two messages there are at most [m_max_commitments] bits and
    [REDOWNLOAD_BUFFER_SIZE] compressed headers, and none when the sync is over. *)
Theorem sync_memory_bounded msgs s R :
  Forall (λ m, message_ok m.1) msgs → in_range (length (concat msgs.*1)) →
  sync_run SHA256d c s0 msgs = Some (s, R) →
  Z.of_nat (length (m_header_commitments s)) <= m_max_commitments c ∧
  Z.of_nat (length (m_redownloaded_headers s)) <= REDOWNLOAD_BUFFER_SIZE ∧
  (m_download_state s = FINAL → m_header_commitments s = [] ∧ m_redownloaded_headers s = []).
Proof using New Hash.
  intros Hm Hr H. pose proof buffer_size_pos.
  destruct (NewHeadersSync_ok _ _ _ _ _ _ _ _ New Hash) as [_ _ _ _ _ Hz _ _ _ _]. cbn in Hz.
  destruct (run_ok msgs s R Hm Hr H) as [P [] _|P D R' [] _ _ Hc _ Hb|P D R' rest Hs Hc Hb _].
  - rewrite pi_buffer0, pi_commits0. split; [done|]. split; [cbn; lia|]. congruence.
  - split; [|split; [done|congruence]].
    apply (f_equal length) in ri_commits0. rewrite length_app in ri_commits0. lia.
  - rewrite Hc, Hb. cbn. auto with lia.
Qed.
End runs.

(** ** An honest peer *)

(** The work of a chain, as an exact sum. *)
Definition work_sum (hs : list CBlockHeader) : Z :=
  foldr (λ h n, GetBlockProof (hdr_nBits h) + n) 0 hs.

Lemma GetBlockProof_nonneg bits : 0 <= GetBlockProof bits.
Proof. unfold GetBlockProof. destruct (_ || _); [lia|]. apply wrap_fits. lia. Qed.

Lemma work_sum_nonneg hs : 0 <= work_sum hs.
Proof.
  induction hs as [|h hs IH]; cbn; [lia|]. pose proof (GetBlockProof_nonneg (hdr_nBits h)).
  unfold work_sum in IH. lia.
Qed.

Lemma work_sum_app hs hs' : work_sum (hs ++ hs') = work_sum hs + work_sum hs'.
Proof. unfold work_sum. induction hs as [|h hs IH]; cbn [app foldr]; lia. Qed.

Lemma chain_work_sum w hs : 0 <= w → w + work_sum hs < 2 ^ 256 → chain_work w hs = w + work_sum hs.
Proof.
  revert w. induction hs as [|h hs IH]; intros w Hw Hb; [cbn; lia|].
  pose proof (GetBlockProof_nonneg (hdr_nBits h)). pose proof (work_sum_nonneg hs).
  cbn [work_sum foldr] in *. fold (work_sum hs) in *.
  change (chain_work w (h :: hs)) with (chain_work (u256 (w + GetBlockProof (hdr_nBits h))) hs).
  rewrite wrap_small by (unfold fits; lia). rewrite IH; lia.
Qed.

Section honest.
Context (H : list CBlockHeader).
Context (Work : 0 <= start_work) (Bound : start_work + work_sum H < 2 ^ 256).

Lemma prefix_work hs : hs `prefix_of` H → chain_work start_work hs = start_work + work_sum hs.
Proof using Bound Work.
  intros [k E]. pose proof Bound as Hb. rewrite E, work_sum_app in Hb. pose proof (work_sum_nonneg k).
  apply chain_work_sum; lia.
Qed.

Lemma prefix_work_mono hs hs' :
  hs ++ hs' `prefix_of` H → chain_work start_work hs <= chain_work start_work (hs ++ hs').
Proof using Bound Work.
  intros Hp. assert (hs `prefix_of` H) by (etrans; [|exact Hp]; by exists hs').
  rewrite !prefix_work by done. rewrite work_sum_app. pose proof (work_sum_nonneg hs'). lia.
Qed.

Lemma prefix_reached hs :
  hs `prefix_of` H → hs ≠ [] → reached hs = (min_work <=? chain_work start_work hs).
Proof using Bound Work.
  induction hs as [|h hs IH] using rev_ind; [done|]. intros Hp _. rewrite reached_snoc.
  destruct (decide (hs = [])) as [->|Hne]; [cbn; by rewrite orb_false_r|].
  rewrite IH by (done || (etrans; [|exact Hp]; by exists [h])).
  pose proof (prefix_work_mono hs [h] Hp).
  destruct (Z.leb_spec min_work (chain_work start_work (hs ++ [h]))); [done|].
  cbn [orb]. apply Z.leb_gt. lia.
Qed.

(** Past the minimum, a longer chain has the same headers below it. *)
Lemma below_reached_app hs hs' :
  reached hs = true → below start_work (hs ++ hs') = below start_work hs.
Proof.
  intros Hr. induction hs' as [|h hs' IH] using rev_ind; [by rewrite app_nil_r|].
  rewrite app_assoc, below_reached; [done|]. rewrite reached_snoc. unfold reached.
  rewrite IH, length_app. apply orb_true_iff. right. apply Nat.ltb_lt in Hr. apply Nat.ltb_lt. lia.
Qed.

(** Of two downloads of the chain, the second agrees with the bits of the first. *)
Lemma prefix_commits P D :
  P `prefix_of` H → D `prefix_of` H → P ≠ [] → min_work <= chain_work start_work P →
  commits start_height (below start_work D) `prefix_of` commits start_height P.
Proof using Bound Work.
  intros HP HD Hne Hw. apply commits_prefix.
  assert (Hr : reached P = true) by (rewrite prefix_reached by done; by apply Z.leb_le).
  destruct (prefix_weak_total P D H HP HD) as [[k ->]|HDP].
  - rewrite below_reached_app by done. apply below_prefix.
  - etrans; [apply below_prefix|done].
Qed.

Lemma chain_prefix hs : peer_chain H → hs `prefix_of` H → peer_chain hs.
Proof. intros Hc [k E]. rewrite E in Hc. by eapply peer_chain_app. Qed.

(** *** Forward steps *)

Context (Chain : peer_chain H) (Range : in_range (length H)).

Lemma prefix_in_range hs : hs `prefix_of` H → in_range (length hs).
Proof using Range.
  intros Hp%prefix_length. destruct Range as [? ?]. split; [done|lia].
Qed.

Lemma honest_presync_msg s P hs full :
  presync_inv s P → P ++ hs `prefix_of` H → hs ≠ [] →
  Z.of_nat (length (commits start_height (P ++ hs))) <= m_max_commitments c →
  ∃ s1, presync_inv s1 (P ++ hs) ∧
    ProcessNextHeaders SHA256d c s hs full =
    if min_work <=? chain_work start_work (P ++ hs)
    then Some (start_redownload c s1, mkResult [] true true)
    else Some (if full then s1 else Finalize s1, mkResult [] true full).
Proof using Chain Range.
  intros Hi Hp Hne Hc. destruct (chain_prefix _ Chain Hp) as [Hl Hperm].
  destruct (presync_loop_spec hs s P Hi (prefix_in_range _ Hp)) as [L1 L2].
  destruct (L2 Hperm Hc) as [s1 E]. specialize (L1 s1 E). exists s1. split; [done|].
  pose proof Hi as [Hs _ _ _ _ _ _ Hh _ _]. pose proof L1 as [Hs1 _ _ Hw _ _ _ _ _ _].
  destruct hs as [|x hs]; [done|]. unfold ProcessNextHeaders, ValidateAndStoreHeadersCommitments.
  rewrite Hs, bool_decide_true, Hh by done. cbn [negb].
  apply linked_app in Hl as [_ [-> _]]. rewrite Z.eqb_refl. cbn [negb]. rewrite E.
  cbn [mbind option_bind negb]. rewrite Hw. unfold finish.
  destruct (_ <=? _); cbn [mbind option_bind andb success request_more start_redownload].
  - rewrite bool_decide_true by done. by rewrite orb_true_r.
  - rewrite Hs1, bool_decide_false, orb_false_r by done. by destruct full.
Qed.

Lemma honest_redownload_msg s P D R hs full :
  redownload_inv s P D R → P `prefix_of` H → P ≠ [] → min_work <= chain_work start_work P →
  D ++ hs `prefix_of` H → hs ≠ [] → (reached (D ++ hs) = false → full = true) →
  ∃ s1 r, ProcessNextHeaders SHA256d c s hs full = Some (s1, r) ∧
    if reached (D ++ hs)
    then m_download_state s1 = FINAL ∧
         R ++ pow_validated_headers r = relink start (compress <$> D ++ hs)
    else redownload_inv s1 P (D ++ hs) (R ++ pow_validated_headers r).
Proof using Chain Work Bound.
  intros Hi HP HPne Hw Hp Hne Hfull.
  destruct (redownload_loop_spec hs s P D R Hi) as [L1 L2].
  destruct L2 as [s1 E].
  { by apply chain_prefix. }
  { by apply prefix_commits. }
  specialize (L1 s1 E).
  destruct (PopHeadersReadyForAcceptance SHA256d s1) as [ret s2] eqn:Ep.
  destruct (pop_spec _ _ _ _ _ _ L1 Ep) as (Hrel & Hall & Hcase).
  destruct hs as [|x hs]; [done|]. unfold ProcessNextHeaders. pose proof Hi as [-> _].
  rewrite E. cbn [mbind option_bind negb]. rewrite Ep. unfold finish.
  eexists _, _. split; [done|]. cbn [pow_validated_headers success request_more andb].
  rewrite Hall. destruct (reached (D ++ x :: hs)).
  - destruct Hcase as [E1 E2]. rewrite E1, bool_decide_true by done. cbn. split; [done|].
    by rewrite Hrel, E2, firstn_all.
  - rewrite andb_false_r, Hfull by done. cbn. by destruct Hcase.
Qed.

Lemma sync_run_app s m1 m2 :
  sync_run SHA256d c s (m1 ++ m2) =
  ('(s1, r1) ← sync_run SHA256d c s m1; '(s2, r2) ← sync_run SHA256d c s1 m2; Some (s2, r1 ++ r2)).
Proof.
  revert s. induction m1 as [|[hs full] m1 IH]; intros s; cbn [app sync_run mbind option_bind].
  { by destruct (sync_run SHA256d c s m2) as [[]|]. }
  destruct (ProcessNextHeaders SHA256d c s hs full) as [[s1 r]|]; cbn [mbind option_bind]; [|done].
  rewrite IH. destruct (sync_run SHA256d c s1 m1) as [[s2 r1]|]; cbn [mbind option_bind]; [|done].
  destruct (sync_run SHA256d c s2 m2) as [[s3 r2]|]; cbn [mbind option_bind]; [|done].
  by rewrite app_assoc.
Qed.

(** Full messages. *)
Abbreviation fulls front := ((λ b, (b, true)) <$> front).

Lemma honest_presync_front front s P :
  presync_inv s P → Forall (λ b, b ≠ []) front → P ++ concat front `prefix_of` H →
  chain_work start_work (P ++ concat front) < min_work →
  Z.of_nat (length (commits start_height (P ++ concat front))) <= m_max_commitments c →
  ∃ s1, sync_run SHA256d c s (fulls front) = Some (s1, []) ∧ presync_inv s1 (P ++ concat front).
Proof using Chain Work Bound Range.
  intros Hi Hne. revert s P Hi. induction Hne as [|b front Hb _ IH]; intros s P Hi Hp Hw Hc.
  { exists s. cbn. by rewrite app_nil_r. }
  cbn [concat] in *. rewrite app_assoc in *.
  destruct (honest_presync_msg s P b true Hi) as (s1 & Hi1 & E); [|done| |].
  { etrans; [|exact Hp]. by eexists. }
  { rewrite commits_app, length_app in Hc. lia. }
  pose proof (prefix_work_mono _ _ Hp) as Hmono.
  destruct (Z.leb_spec min_work (chain_work start_work (P ++ b))); [lia|].
  destruct (IH s1 (P ++ b) Hi1 Hp Hw Hc) as (s2 & E2 & Hi2). exists s2. split; [|done].
  cbn [fmap list_fmap sync_run]. rewrite E. cbn [mbind option_bind]. by rewrite E2.
Qed.

Lemma honest_redownload_front front s P D R :
  redownload_inv s P D R → P `prefix_of` H → P ≠ [] → min_work <= chain_work start_work P →
  Forall (λ b, b ≠ []) front → D ++ concat front `prefix_of` H →
  chain_work start_work (D ++ concat front) < min_work →
  ∃ s1 r, sync_run SHA256d c s (fulls front) = Some (s1, r) ∧
    redownload_inv s1 P (D ++ concat front) (R ++ r).
Proof using Chain Work Bound.
  intros Hi HP HPne HPw Hne. revert s D R Hi.
  induction Hne as [|b front Hb _ IH]; intros s D R Hi Hp Hw.
  { exists s, []. cbn. by rewrite !app_nil_r. }
  cbn [concat] in *. rewrite app_assoc in *.
  assert (Hpb : D ++ b `prefix_of` H) by (etrans; [|exact Hp]; by eexists).
  assert (Hr : reached (D ++ b) = false).
  { rewrite prefix_reached by (done || by destruct D, b).
    pose proof (prefix_work_mono _ _ Hp). apply Z.leb_gt. lia. }
  destruct (honest_redownload_msg s P D R b true Hi) as (s1 & r & E & Hs1); [done..|].
  rewrite Hr in Hs1. destruct (IH s1 _ _ Hs1 Hp Hw) as (s2 & r2 & E2 & Hi2).
  exists s2, (pow_validated_headers r ++ r2). rewrite app_assoc. split; [|done].
  cbn [fmap list_fmap sync_run]. rewrite E. cbn [mbind option_bind]. by rewrite E2.
Qed.
End honest.

(** The messages serve the chain: full ones whose work is below the minimum, and one more
    that reaches it. *)
Definition serves (msgs : list (list CBlockHeader * bool)) (hs : list CBlockHeader) : Prop :=
  ∃ front final full, msgs = ((λ b, (b, true)) <$> front) ++ [(final, full)] ∧
    Forall (λ b, b ≠ []) front ∧ final ≠ [] ∧ hs = concat front ++ final ∧
    chain_work start_work (concat front) < min_work <= chain_work start_work hs.

Lemma app_right_ne {A} (l l' : list A) : l' ≠ [] → l ++ l' ≠ [].
Proof. by destruct l, l'. Qed.

(** The chain of an honest peer is released as it is put back together. *)
Lemma honest_run st params hasher chain_start minimum now random s0 H P D msgs1 msgs2 :
  NewHeadersSync st params hasher chain_start minimum now random = Some (c, s0) →
  index_hashed SHA256d st → peer_chain H → 0 <= start_work → start_work + work_sum H < 2 ^ 256 → in_range (length H) →
  Z.of_nat (length (commits start_height P)) <= m_max_commitments c →
  P `prefix_of` H → D `prefix_of` H → serves msgs1 P → serves msgs2 D →
  ∃ s, sync_run SHA256d c s0 (msgs1 ++ msgs2) = Some (s, relink start (compress <$> D)) ∧ m_download_state s = FINAL.
Proof.
  intros New Hash Chain Work Bound Range Hc HP HD
    (f1 & l1 & b1 & -> & Hf1 & Hl1 & -> & Hw1) (f2 & l2 & b2 & -> & Hf2 & Hl2 & -> & Hw2).
  pose proof (NewHeadersSync_ok _ _ _ _ _ _ _ _ New Hash) as Hi.
  assert (HP1 : concat f1 `prefix_of` H) by (etrans; [|exact HP]; by eexists).
  assert (HD1 : concat f2 `prefix_of` H) by (etrans; [|exact HD]; by eexists).
  destruct (honest_presync_front H Work Bound Chain Range f1 s0 [] Hi) as (s1 & E1 & Hi1); [done..|tauto| |].
  { rewrite commits_app, length_app in Hc. cbn [app]. lia. }
  destruct (honest_presync_msg H Chain Range s1 (concat f1) l1 b1 Hi1) as (s2 & Hi2 & E2); [done..|].
  destruct (Z.leb_spec min_work (chain_work start_work (concat f1 ++ l1))); [|lia].
  pose proof (app_right_ne (concat f1) l1 Hl1) as HPne.
  assert (Hr0 : redownload_inv (start_redownload c s2) (concat f1 ++ l1) [] []).
  { destruct Hi2. constructor; cbn; try done; [lia|by left]. }
  destruct (honest_redownload_front H Work Bound Chain f2 _ _ [] [] Hr0) as (s3 & r3 & E3 & Hi3);
    [done..|tauto|].
  assert (Hr : reached (concat f2 ++ l2) = true).
  { rewrite (prefix_reached H Work Bound) by (done || by apply app_right_ne). apply Z.leb_le. lia. }
  destruct (honest_redownload_msg H Work Bound Chain s3 _ (concat f2) r3 l2 b2 Hi3)
    as (s4 & r4 & E4 & H4); [done..|cbn [app]; congruence|].
  rewrite Hr in H4. destruct H4 as [HF HR].
  exists s4. split; [|done].
  rewrite 2!sync_run_app, E1. cbn [sync_run mbind option_bind]. rewrite E2. cbn [mbind option_bind].
  rewrite sync_run_app, E3. cbn [sync_run mbind option_bind]. rewrite E4.
  cbn. by rewrite app_nil_r, HR.
Qed.

(** C23. An honest peer's chain comes through: when the peer serves, twice, a chain that
    keeps the difficulty rule and reaches the required work, in messages of any size, the
    sync ends and has released one header for each header of the second download; without
    extra parents these are the headers served. *)
Theorem honest_sync st params hasher chain_start minimum now random s0 H P D msgs1 msgs2 :
  NewHeadersSync st params hasher chain_start minimum now random = Some (c, s0) →
  index_hashed SHA256d st → peer_chain H → 0 <= start_work → start_work + work_sum H < 2 ^ 256 → in_range (length H) →
  Z.of_nat (length (commits start_height P)) <= m_max_commitments c →
  P `prefix_of` H → D `prefix_of` H → serves msgs1 P → serves msgs2 D →
  ∃ s R, sync_run SHA256d c s0 (msgs1 ++ msgs2) = Some (s, R) ∧ m_download_state s = FINAL ∧
    length R = length D ∧ (Forall plain D → R = D).
Proof.
  intros New Hash Chain Work Bound Range Hc HP HD S1 S2.
  destruct (honest_run _ _ _ _ _ _ _ _ _ _ _ _ _ New Hash Chain Work Bound Range Hc HP HD S1 S2) as (s & E & HF).
  exists s, (relink start (compress <$> D)). split; [done|]. split; [done|].
  split; [by rewrite relink_length, length_fmap|].
  intros Hp. apply relink_plain; [|done]. by apply (chain_prefix H _ Chain) in HD as [? _].
Qed.

(** ** Headers with extra parents *)

Lemma relink_ok (Hfits : ∀ x, fits 256 (SHA256d x)) hs : Forall header_ok hs → ∀ prev,
  fits 256 prev → Forall header_ok (relink prev (compress <$> hs)).
Proof.
  induction 1 as [|h hs [] _ IH]; intros prev Hp; [done|]. cbn [fmap list_fmap relink].
  constructor; [|by apply IH, Hfits]. by constructor.
Qed.

(** Once a header is put on another hash than it was, all above it are. *)
Lemma relink_differs hashed hs : ∀ prev prev',
  let R := relink prev' (compress <$> hs) in
  linked prev hs → prev ≠ prev' → Forall header_ok (hs ++ R) →
  Forall (λ h, hash_preimage h ∈ hashed) (hs ++ R) →
  collision SHA256d hashed ∨
  ∀ i x y, R !! i = Some x → hs !! i = Some y → hdr_hashPrevBlock x ≠ hdr_hashPrevBlock y ∧ hash_of x ≠ hash_of y.
Proof.
  induction hs as [|h hs IH]; intros prev prev'; [by right|]. cbn [fmap list_fmap relink].
  set (g := GetFullHeader (compress h) prev'). cbv zeta. intros [Hp Hl] Hne Hok Hin.
  rewrite !Forall_app, !Forall_cons in Hok, Hin. destruct Hok as [[O1 O2] [O3 O4]], Hin as [[I1 I2] [I3 I4]].
  destruct (decide (hash_of g = hash_of h)) as [E|E].
  - left. destruct (hash_eq SHA256d hashed _ _ I3 I1 E) as [Hpre|]; [|done].
    destruct (preimage_inj g h O3 O1 Hpre) as (_ & Hprev & _). simpl in Hprev. congruence.
  - destruct (IH (hash_of h) (hash_of g) Hl (not_eq_sym E)) as [?|H]; [by apply Forall_app..|by left|right].
    intros [|i] x y; [|by apply H]. intros [= <-] [= <-]. split; [simpl; congruence|done].
Qed.

(** C37. A chain that contains a block with extra parents does not come through.  When an
    honest peer serves, twice, a chain that keeps the difficulty rule and reaches the
    required work, whose first headers have no extra parents and whose next header [h] is a
    DAG block with a root of extra parents other than zero (all fields in their machine
    ranges, hashes of 256 bits), the sync succeeds and releases the first headers, but every later header it releases, from [h] on,
    has another hash than the header served in its place, and builds on another hash if it
    is above [h]: compression drops [hashParentsRoot].  (Unless the headers served and
    released contain two that are different where hashed and have the same hash.) *)
Theorem dag_headers_corrupted st params hasher chain_start minimum now random s0 H P D msgs1 msgs2 front h rest :
  NewHeadersSync st params hasher chain_start minimum now random = Some (c, s0) →
  index_hashed SHA256d st → peer_chain H → 0 <= start_work → start_work + work_sum H < 2 ^ 256 → in_range (length H) →
  Z.of_nat (length (commits start_height P)) <= m_max_commitments c →
  P `prefix_of` H → D `prefix_of` H → serves msgs1 P → serves msgs2 D →
  (∀ x, fits 256 (SHA256d x)) → fits 256 start → Forall header_ok D →
  D = front ++ h :: rest → Forall plain front → IsDagBlock h = true → hdr_hashParentsRoot h ≠ 0 →
  ∃ s R, sync_run SHA256d c s0 (msgs1 ++ msgs2) = Some (s, R) ∧ m_download_state s = FINAL ∧
    length R = length D ∧ take (length front) R = front ∧
    (collision SHA256d (hash_preimage <$> D ++ R) ∨
     ∀ i x y, (length front <= i)%nat → R !! i = Some x → D !! i = Some y →
       hash_of x ≠ hash_of y ∧ (length front < i → hdr_hashPrevBlock x ≠ hdr_hashPrevBlock y)%nat).
Proof.
  intros New Hash Chain Work Bound Range Hc HP HD S1 S2 Hfits Hstart Hok ED Hplain Hdag Hroot.
  destruct (honest_run _ _ _ _ _ _ _ _ _ _ _ _ _ New Hash Chain Work Bound Range Hc HP HD S1 S2) as (s & E & HF).
  pose proof (relink_ok Hfits D Hok start Hstart) as HokR. set (R := relink start (compress <$> D)) in *.
  exists s, R. split; [done|]. split; [done|]. split; [unfold R; by rewrite relink_length, length_fmap|].
  assert (Hl : linked start D) by (by apply (chain_prefix H _ Chain) in HD as [? _]).
  rewrite ED in Hl. apply linked_app in Hl as [Hl1 [Hprev Hl2]].
  set (g := GetFullHeader (compress h) (last_hash start front)).
  set (R2 := relink (hash_of g) (compress <$> rest)).
  assert (ER : R = front ++ g :: R2).
  { unfold R. rewrite ED, fmap_app, relink_app, relink_plain by done. done. }
  split; [by rewrite ER, take_app_length|].
  set (hashed := hash_preimage <$> D ++ R).
  assert (Hin : Forall (λ x, hash_preimage x ∈ hashed) (D ++ R)).
  { apply Forall_forall. intros x Hx. by apply list_elem_of_fmap_2. }
  clearbody hashed.
  rewrite ER, ED, !Forall_app, !Forall_cons in Hin. rewrite ED, Forall_app, Forall_cons in Hok.
  rewrite ER, Forall_app, Forall_cons in HokR.
  destruct Hin as [(_ & I1 & I2) (_ & I3 & I4)], Hok as (_ & O1 & O2), HokR as (_ & O3 & O4).
  destruct (decide (hash_of g = hash_of h)) as [Eg|Eg].
  { left. destruct (hash_eq SHA256d hashed _ _ I1 I3 (eq_sym Eg)) as [Hpre|]; [|done].
    destruct (preimage_inj h g O1 O3 Hpre) as (_ & _ & _ & _ & _ & _ & Hr). by specialize (Hr Hdag). }
  destruct (relink_differs hashed rest (hash_of h) (hash_of g) Hl2 (not_eq_sym Eg)) as [?|Hd];
    [by apply Forall_app..|by left|right].
  intros i x y Hi Hx Hy. rewrite ER in Hx. rewrite ED in Hy. rewrite lookup_app_r in Hx, Hy by done.
  destruct (i - length front)%nat as [|j] eqn:Ej.
  - injection Hx as <-. injection Hy as <-. split; [done|lia].
  - destruct (Hd j x y Hx Hy) as [Hp Hh]. split; [done|]. by intros _.
Qed.

(** ** Locators *)

(** Blocks on the chain of [h], each lower than the one before, down to height 0. *)
Fixpoint descends (st : BlockMap) (h above : Z) (l : list Z) : Prop :=
  match l with
  | [] => above = 0
  | x :: rest =>
      ∃ b, st !! x = Some b ∧ 0 <= nHeight b < above ∧ GetAncestor st h (nHeight b) = Some x ∧
        descends st h (nHeight b) rest
  end.

(** What is left of the heights, of the step and of the number of entries: steps have size 1
    until there are ten entries, and then double. *)
Inductive locator_budget (n step size : Z) : Z → Prop :=
  | budget_end budget : n = 0 → 1 <= budget → locator_budget n step size budget
  | budget_single j : step = 1 → 0 <= size < 10 → 0 <= j <= 31 → 0 <= n < 2 ^ j →
      locator_budget n step size (10 - size + j + 1)
  | budget_double i j : 10 <= size → 0 <= i → 0 <= j → i + j <= 31 → step = 2 ^ i →
      0 <= n <= 2 ^ i * (2 ^ j - 1) → locator_budget n step size (j + 1).

Lemma budget_step n step size budget :
  locator_budget n step size budget → 0 < n →
  let n' := Z.max (n - step) 0 in
  let step' := if 10 <? size + 1 then s32 (step * 2) else step in
  0 <= n' < n ∧ 1 <= budget ∧ locator_budget n' step' (size + 1) (budget - 1).
Proof.
  intros [b ->|j -> Hs Hj Hn|i j Hs Hi Hj Hij -> Hn] Hpos; cbv zeta; [lia|..].
  - destruct (Z.ltb_spec 10 (size + 1)); [lia|]. split; [lia|]. split; [lia|].
    destruct (decide (size = 9)) as [->|].
    + replace (10 - 9 + j + 1 - 1) with (j + 1) by lia.
      apply (budget_double _ _ _ 0 j); try lia.
    + replace (10 - size + j + 1 - 1) with (10 - (size + 1) + j + 1) by lia.
      apply budget_single; lia.
  - destruct (Z.ltb_spec 10 (size + 1)); [|lia].
    pose proof (Z.pow_pos_nonneg 2 i ltac:(lia) Hi) as Hp.
    assert (j ≠ 0) by (intros ->; cbn in Hn; lia).
    split; [lia|]. split; [lia|]. destruct (decide (j = 1)) as [->|].
    + apply budget_end; [|lia]. change (2 ^ 1 - 1) with 1 in Hn. lia.
    + replace (j + 1 - 1) with (j - 1 + 1) by lia.
      assert (E : 2 ^ i * 2 = 2 ^ (i + 1)) by (rewrite Z.pow_add_r by lia; lia).
      assert (2 ^ (i + 1) <= 2 ^ 30) by (apply Z.pow_le_mono_r; lia).
      apply (budget_double _ _ _ (i + 1) (j - 1)); try lia.
      * rewrite swrap_small; lia.
      * assert (E' : 2 ^ j = 2 * 2 ^ (j - 1)).
        { replace j with (1 + (j - 1)) at 1 by lia. by rewrite Z.pow_add_r by lia. }
        pose proof (Z.pow_pos_nonneg 2 (j - 1) ltac:(lia) ltac:(lia)).
        rewrite E' in Hn. rewrite <- E. split; [lia|]. apply Z.max_lub; nia.
Qed.

Lemma GetAncestor_trans st h b x k m :
  chain_ok st → st !! h = Some b → 0 <= k <= m → m <= nHeight b → GetAncestor st h m = Some x →
  GetAncestor st x k = GetAncestor st h k.
Proof.
  intros Hok Hb Hk Hm Hx. rewrite (GetAncestor_prev_n st h b m Hok Hb) in Hx by lia.
  destruct (prev_n_height st (Z.to_nat (nHeight b - m)) h b Hok Hb) as (a & ba & Ha & Hba & Hh); [lia|].
  assert (a = x) as -> by congruence.
  rewrite (GetAncestor_prev_n st x ba k Hok Hba), (GetAncestor_prev_n st h b k Hok Hb) by lia.
  replace (Z.to_nat (nHeight b - k)) with (Z.to_nat (nHeight b - m) + Z.to_nat (nHeight ba - k))%nat by lia.
  by rewrite prev_n_add, Hx.
Qed.

Lemma ancestor_entry st h b k :
  chain_ok st → st !! h = Some b → 0 <= k <= nHeight b →
  ∃ x bx, GetAncestor st h k = Some x ∧ st !! x = Some bx ∧ nHeight bx = k.
Proof.
  intros Hok Hb Hk. rewrite (GetAncestor_prev_n st h b k Hok Hb Hk).
  destruct (prev_n_height st (Z.to_nat (nHeight b - k)) h b Hok Hb) as (a & ba & Ha & Hba & Hh); [lia|].
  exists a, ba. repeat (split; [done|]). lia.
Qed.

Lemma LocatorEntries_loop_spec st h b fuel n step size budget x :
  chain_ok st → st !! h = Some b → n <= nHeight b → (Z.to_nat n < fuel)%nat →
  locator_budget n step size budget → GetAncestor st h n = Some x → 0 <= n →
  ∃ l, LocatorEntries_loop fuel st (Some x) step size = Some (x :: l) ∧
    descends st h (n + 1) (x :: l) ∧ Z.of_nat (length (x :: l)) <= budget.
Proof.
  intros Hok Hb. revert n step size budget x.
  induction fuel as [|fuel IH]; intros n step size budget x Hn Hf Hbud Hx Hn0; [lia|].
  destruct (ancestor_entry st h b n Hok Hb) as (x' & bx & Hx' & Hbx & Hh); [lia|].
  assert (x' = x) as -> by congruence. cbn [LocatorEntries_loop]. rewrite Hbx. cbn [mbind option_bind].
  rewrite Hh. destruct (Z.eqb_spec n 0) as [->|Hne].
  - exists []. split; [done|]. split.
    + exists bx. rewrite Hh. repeat (split; [done|]). done.
    + cbn [length]. destruct Hbud; lia.
  - destruct (budget_step n step size budget Hbud) as (H1 & H2 & H3); [lia|]. cbv zeta in H1, H3.
    rewrite (GetAncestor_trans st h b x _ n Hok Hb) by (done || lia).
    destruct (ancestor_entry st h b (Z.max (n - step) 0) Hok Hb) as (y & by' & Hy & _ & _); [lia|].
    destruct (IH (Z.max (n - step) 0) _ _ _ y ltac:(lia) ltac:(lia) H3 Hy ltac:(lia)) as (l & El & Hd & Hlen).
    rewrite Hy, El. cbn [mbind option_bind]. exists (y :: l). split; [done|]. split.
    + exists bx. rewrite Hh. split; [done|]. split; [lia|]. split; [done|].
      destruct Hd as (b2 & Hb2 & Hlt & Ha & Hd). exists b2. split; [done|]. split; [|done].
      split; [lia|]. lia.
    + cbn [length] in *. lia.
Qed.

(** A block locator is a sound summary of a chain: it starts at the block, names
    ancestors of it at falling heights, ends at height 0, and has at most twelve entries
    more than the binary logarithm of the height. *)
Theorem locator_correct st h b :
  chain_ok st → st !! h = Some b → nHeight b < 2 ^ 31 →
  ∃ l, LocatorEntries st (Some h) = Some (h :: l) ∧ descends st h (nHeight b + 1) (h :: l) ∧
    Z.of_nat (length (h :: l)) <= 12 + Z.log2 (nHeight b).
Proof.
  intros Hok Hb Hlt. pose proof (ck_height _ Hok h b Hb) as Hn. unfold LocatorEntries. rewrite Hb.
  assert (Hlog : 0 <= Z.log2 (nHeight b) <= 30 ∧ nHeight b < 2 ^ (Z.log2 (nHeight b) + 1)).
  { split; [split; [apply Z.log2_nonneg|]|].
    - destruct (decide (nHeight b = 0)) as [->|]; [done|].
      apply Z.lt_succ_r, Z.log2_lt_pow2; lia.
    - destruct (decide (nHeight b = 0)) as [->|]; [done|]. apply Z.log2_spec. lia. }
  apply (LocatorEntries_loop_spec st h b); [done|done|lia|lia| | |lia].
  - replace (12 + Z.log2 (nHeight b)) with (10 - 0 + (Z.log2 (nHeight b) + 1) + 1) by lia.
    apply budget_single; lia.
  - rewrite (GetAncestor_prev_n st h b _ Hok Hb) by lia. by rewrite Z.sub_diag.
Qed.
End sync_props.

(** ** Concrete syncs *)

Definition toy_start : CBlockIndex :=
  default (index_of_header toy_genesis) (m_block_index toy_initial !! toy_genesis_hash).

(** The work of the start and of [n] headers of the easiest target. *)
Definition toy_work (n : Z) : Z := nChainWork toy_start + n * GetBlockProof 0x1e0fffff.

Definition toy_sync (n : Z) : SyncParams :=
  mkSync 2 CQbtcTestNetParams toy_genesis_hash toy_start (toy_work n) id 273.

Definition toy_sync_start : HeadersSyncState :=
  mkSyncState (nChainWork toy_start) [] (GetBlockHeader toy_start) (nHeight toy_start) [] 0 0 0 0
    false PRESYNC.

Lemma toy_sync_new n :
  NewHeadersSync (m_block_index toy_initial) CQbtcTestNetParams id toy_genesis_hash (toy_work n)
    (1743400000 * 10 ^ 9) 2 = Some (toy_sync n, toy_sync_start).
Proof.
  unfold NewHeadersSync. assert (m_block_index toy_initial !! toy_genesis_hash = Some toy_start) as ->.
  { vm_compute. reflexivity. }
  cbn [mbind option_bind]. do 2 f_equal.
Qed.

Lemma toy_sync_hash : index_hashed toy_sha256d (m_block_index toy_initial).
Proof.
  pose proof (toy_run_reachable [] toy_initial eq_refl) as Hr.
  exact (ok_hashed _ _ _ (cm_reachable_ok _ _ _ _ _ _ _ _ _ _ _ _ Hr)).
Qed.

Definition toy_headers : list CBlockHeader := [block_1; block_2].

Lemma toy_sync_chain n : peer_chain toy_sha256d (toy_sync n) toy_headers.
Proof. split; vm_compute; repeat split. Qed.

Lemma toy_sync_range n m : (m <= 10)%nat → in_range (toy_sync n) m.
Proof.
  intros Hm. unfold in_range, toy_sync. cbn [start_entry].
  assert (nHeight toy_start = 0) as -> by (vm_compute; reflexivity). lia.
Qed.

Lemma toy_sync_messages : Forall (λ m, message_ok toy_sha256d m.1)
  [([block_1], true); ([block_2], false); (toy_headers, false)].
Proof.
  repeat constructor; vm_compute; done.
Qed.

Lemma toy_work_between (front hs : list CBlockHeader) :
  (chain_work (nChainWork toy_start) front <? toy_work 2) &&
  (toy_work 2 <=? chain_work (nChainWork toy_start) hs) = true →
  chain_work (nChainWork toy_start) front < toy_work 2 <= chain_work (nChainWork toy_start) hs.
Proof. intros [?%Z.ltb_lt ?%Z.leb_le]%andb_true_iff. done. Qed.

Lemma toy_serves : serves (toy_sync 2) [([block_1], true); ([block_2], false)] toy_headers
  ∧ serves (toy_sync 2) [(toy_headers, false)] toy_headers.
Proof.
  split.
  - exists [[block_1]], [block_2], false. split; [done|]. split; [by repeat constructor|].
    split; [done|]. split; [done|]. apply toy_work_between. vm_compute. reflexivity.
  - exists [], toy_headers, false. split; [done|]. split; [by repeat constructor|].
    split; [done|]. split; [done|]. apply toy_work_between. vm_compute. reflexivity.
Qed.

Lemma toy_sync_small : 0 <= nChainWork toy_start ∧
  nChainWork toy_start + work_sum toy_headers < 2 ^ 256 ∧
  Z.of_nat (length (commits toy_sha256d (toy_sync 2) (nHeight toy_start) toy_headers)) <= 273.
Proof. vm_compute. split; [discriminate|]. split; [reflexivity|discriminate]. Qed.

#[local] Instance CBlockHeader_eq_dec : EqDecision CBlockHeader.
Proof. solve_decision. Defined.

(** A third block, on the merging one. *)
Definition block_3 : CBlockHeader :=
  mkHeader 0x30000000 (GetHash toy_sha256d block_merge) 0 1743379230 0x1e0fffff 5 0 [].

(** An honest peer serves block 1, a block that merges its sibling, and a third block; the
    sync succeeds, but the third header released is not accepted after the first two of the
    chain. *)
Definition toy_merge : list CBlockHeader := [block_1; block_merge; block_3].

Example toy_merge_lost :
  let served := toy_merge in
  peer_chain toy_sha256d (toy_sync 3) served ∧
  ∃ s released, sync_run toy_sha256d (toy_sync 3) toy_sync_start [(served, true); (served, true)]
      = Some (s, released) ∧ m_download_state s = FINAL ∧
    length released = 3%nat ∧ take 1 released = [block_1] ∧
    Forall (λ h, GetHash toy_sha256d h ∉ GetHash toy_sha256d <$> served) (drop 1 released) ∧
    ∃ cm x, toy_run toy_initial [(false, block_1); (false, block_1b); (false, block_merge)] = Some cm ∧
      released !! 2%nat = Some x ∧
      (toy_header cm block_3).2 = inl (GetHash toy_sha256d block_3) ∧
      (toy_header cm x).2 = inr (Invalid BLOCK_MISSING_PREV "prev-blk-not-found").
Proof.
  cbv zeta. split; [split; vm_compute; repeat split|].
  set (served := toy_merge).
  assert (H : ('(s, r) ← sync_run toy_sha256d (toy_sync 3) toy_sync_start [(served, true); (served, true)];
    cm ← toy_run toy_initial [(false, block_1); (false, block_1b); (false, block_merge)];
    x ← r !! 2%nat;
    Some (m_download_state s, length r, bool_decide (take 1 r = [block_1] ∧
      Forall (λ h, GetHash toy_sha256d h ∉ GetHash toy_sha256d <$> served) (drop 1 r)),
      (toy_header cm block_3).2, (toy_header cm x).2))
    = Some (FINAL, 3%nat, true, inl (GetHash toy_sha256d block_3),
        inr (Invalid BLOCK_MISSING_PREV "prev-blk-not-found"))) by (vm_compute; reflexivity).
  apply bind_Some in H as ([s r] & E & H). apply bind_Some in H as (cm & Ecm & H).
  apply bind_Some in H as (x & Ex & H).
  apply (inj Some), pair_equal_spec in H as [H H5]. apply pair_equal_spec in H as [H H4].
  apply pair_equal_spec in H as [H H3]. apply pair_equal_spec in H as [H1 H2].
  apply bool_decide_eq_true in H3 as [H3 H6].
  exists s, r. repeat (split; [assumption|]). exists cm, x. split_and!; assumption.
Qed.

Lemma toy_sync_runs : ∃ s R, sync_run toy_sha256d (toy_sync 2) toy_sync_start
  [([block_1], true); ([block_2], false); (toy_headers, false)] = Some (s, R).
Proof. vm_compute. eauto. Qed.

Lemma byteswap_bound n : ∀ x, 0 <= byteswap n x < 256 ^ Z.of_nat n.
Proof.
  induction n as [|n IH]; intros x; [done|]. cbn [byteswap]. specialize (IH (x / 256)).
  rewrite Nat2Z.inj_succ, Z.pow_succ_r by lia. pose proof (Z.mod_pos_bound x 256). nia.
Qed.

Lemma toy_sha256d_fits x : fits 256 (toy_sha256d x).
Proof. apply (byteswap_bound 32). Qed.

Lemma toy_merge_facts :
  peer_chain toy_sha256d (toy_sync 3) toy_merge ∧
  nChainWork toy_start + work_sum toy_merge < 2 ^ 256 ∧
  Z.of_nat (length (commits toy_sha256d (toy_sync 3) (nHeight toy_start) toy_merge)) <= 273 ∧
  nChainWork toy_start < toy_work 3 <= chain_work (nChainWork toy_start) toy_merge.
Proof. split_and!; vm_compute; try reflexivity; try discriminate; repeat split. Qed.

Lemma toy_merge_ok : Forall header_ok toy_merge.
Proof.
  repeat constructor; try apply toy_sha256d_fits; vm_compute; first [reflexivity|discriminate].
Qed.

#[local] Opaque GetHash.

Lemma honest_sync_witness :
  ∃ s, sync_run toy_sha256d (toy_sync 2) toy_sync_start
    [([block_1], true); ([block_2], false); (toy_headers, false)] = Some (s, toy_headers) ∧
    m_download_state s = FINAL.
Proof.
  destruct toy_sync_small as (W1 & W2 & W3), toy_serves as [S1 S2].
  destruct (honest_sync toy_sha256d (toy_sync 2) _ _ _ _ _ _ _ _ toy_headers toy_headers toy_headers
    _ _ (toy_sync_new 2) toy_sync_hash (toy_sync_chain 2) W1 W2
    (toy_sync_range 2 2 ltac:(lia)) W3 (reflexivity _) (reflexivity _) S1 S2)
    as (s & R & H1 & H2 & _ & H3).
  exists s. rewrite <- H3 at 2; [exact (conj H1 H2)|]. repeat constructor.
Defined.

Lemma dag_headers_corrupted_witness :
  ∃ s R, sync_run toy_sha256d (toy_sync 3) toy_sync_start [(toy_merge, true); (toy_merge, true)] = Some (s, R) ∧
    m_download_state s = FINAL ∧ take 1 R = [block_1] ∧
    (collision toy_sha256d (hash_preimage <$> toy_merge ++ R) ∨
     ∀ x y, R !! 2%nat = Some x → toy_merge !! 2%nat = Some y → hdr_hashPrevBlock x ≠ hdr_hashPrevBlock y).
Proof.
  destruct toy_merge_facts as (Hc & W2 & W3 & W4).
  assert (S : serves (toy_sync 3) [(toy_merge, true)] toy_merge).
  { exists [], toy_merge, true. split; [done|]. split; [constructor|]. split; [done|]. split; [done|exact W4]. }
  destruct (dag_headers_corrupted toy_sha256d (toy_sync 3) _ _ _ _ _ _ _ _ toy_merge toy_merge toy_merge _ _
    [block_1] block_merge [block_3] (toy_sync_new 3) toy_sync_hash Hc (proj1 toy_sync_small) W2
    (toy_sync_range 3 3 ltac:(lia)) W3 (reflexivity _) (reflexivity _) S S toy_sha256d_fits (toy_sha256d_fits _)
    toy_merge_ok eq_refl) as (s & R & E & HF & _ & Ht & Hd).
  - repeat constructor.
  - reflexivity.
  - vm_compute. discriminate.
  - exists s, R. split; [exact E|]. split; [exact HF|]. split; [exact Ht|]. destruct Hd as [Hd|Hd]; [left; exact Hd|right].
    intros x y Hx Hy. apply (Hd 2%nat x y); [simpl; lia|exact Hx|exact Hy|simpl; lia].
Defined.

Lemma released_headers_sound_witness :
  ∃ s R P D rest, sync_run toy_sha256d (toy_sync 2) toy_sync_start
    [([block_1], true); ([block_2], false); (toy_headers, false)] = Some (s, R) ∧
    [block_1; block_2; block_1; block_2] = P ++ D ++ rest ∧
    peer_chain toy_sha256d (toy_sync 2) D.
Proof.
  destruct toy_sync_runs as (s & R & H).
  destruct (released_headers_sound toy_sha256d (toy_sync 2) _ _ _ _ _ _ _ _ (toy_sync_new 2)
    toy_sync_hash _ s R toy_sync_messages (toy_sync_range 2 4 ltac:(lia)) H)
    as (P & D & rest & E & _ & HD & _).
  exists s, R, P, D, rest. exact (conj H (conj E HD)).
Defined.

Lemma sync_memory_bounded_witness :
  ∃ s R, sync_run toy_sha256d (toy_sync 2) toy_sync_start
    [([block_1], true); ([block_2], false); (toy_headers, false)] = Some (s, R) ∧
    Z.of_nat (length (m_redownloaded_headers s)) <= REDOWNLOAD_BUFFER_SIZE.
Proof.
  destruct toy_sync_runs as (s & R & H).
  destruct (sync_memory_bounded toy_sha256d (toy_sync 2) _ _ _ _ _ _ _ _ (toy_sync_new 2)
    toy_sync_hash _ s R toy_sync_messages (toy_sync_range 2 4 ltac:(lia)) H) as (_ & Hb & _).
  exists s, R. exact (conj H Hb).
Defined.

