(* ===== verification/Activation.v ===== *)
(** * Activation of the best chain: [Chainstate::ActivateBestChain] of src/src/validation.cpp

    With what it calls: [ActivateBestChainStep], [ConnectTip], [DisconnectTip],
    [InvalidBlockFound] and [InvalidChainFound], on the state of Chainman.v together with a
    ledger, the coins of the active chain.  The ledger is the class [Ledger]: what the
    handlers do with coins, undo data and the disk; Chainstate.v is the instance of the node.
    The handlers run in the monad of Connect.v; a failure is a system error or a failed
    assertion, after which the node stops.

    Of one chainstate without a snapshot.  The mempool, notifications, warnings, locks and
    the request to shut down are left out. *)

From stdpp Require Import gmap.
From S2P Require Import Prelude OrdSet TipSet Arith256 Serialize BlockHeader Ghostdag.
From S2P Require Import BlockIndex BlockIndexProvider EarlyProtection Chainman Accept BlockCheck Connect.

Local Open Scope Z_scope.
Local Open Scope coins_scope.

(** ** The ledger *)

Inductive FlushStateMode := NONE | IF_NEEDED | PERIODIC | ALWAYS.

#[export] Instance FlushStateMode_eq_dec : EqDecision FlushStateMode.
Proof. solve_decision. Defined.

(** Connecting a block, with its changes of the index, and disconnecting one, both with the
    flush that follows, and the flush on its own.  The block may be given or is read from
    disk; the best header is read by [ConnectBlock]. *)
Class Ledger (L : Type) := {
  connect_coins : BlockMap → option Z → Z → option CBlock → L → BlockMap * L * option Failure;
  disconnect_coins : BlockMap → Z → L → L * option Failure;
  flush_coins : FlushStateMode → L → L * option Failure
}.

Record Node (L : Type) := mkNode { node_cm : ChainstateManager; node_ledger : L }.
Arguments mkNode {L} _ _.
Arguments node_cm {L} _.
Arguments node_ledger {L} _.

(** Assignments to fields of the state. *)
Definition with_chain (cm : ChainstateManager) (chain : CChain) : ChainstateManager :=
  mkChainman (m_block_index cm) (m_best_header cm) (m_best_invalid cm) (m_failed_blocks cm)
    (m_blocks_unlinked cm) (nBlockSequenceId cm) (setBlockIndexCandidates cm) chain
    (m_dag_tips cm) (g_early_protection cm).

Definition with_best_header (cm : ChainstateManager) (h : option Z) : ChainstateManager :=
  mkChainman (m_block_index cm) h (m_best_invalid cm) (m_failed_blocks cm)
    (m_blocks_unlinked cm) (nBlockSequenceId cm) (setBlockIndexCandidates cm) (m_chain cm)
    (m_dag_tips cm) (g_early_protection cm).

Definition with_failed (cm : ChainstateManager) (failed : list Z) : ChainstateManager :=
  mkChainman (m_block_index cm) (m_best_header cm) (m_best_invalid cm) failed
    (m_blocks_unlinked cm) (nBlockSequenceId cm) (setBlockIndexCandidates cm) (m_chain cm)
    (m_dag_tips cm) (g_early_protection cm).

Definition with_cands (cm : ChainstateManager) (cands : list Z) : ChainstateManager :=
  with_candidates cm (m_blocks_unlinked cm) (nBlockSequenceId cm) cands.

(** ** Blocks found invalid *)

(** [None]: there is no tip, which the code asserts. *)
Definition InvalidChainFound (cm : ChainstateManager) (pindexNew : Z) : option ChainstateManager :=
  let cm := note_invalid cm pindexNew in
  let cm := match m_best_header cm with
            | Some bh =>
                if bool_decide (GetAncestor (m_block_index cm) bh
                                  (nHeight (entry_at (m_block_index cm) pindexNew)) = Some pindexNew)
                then with_best_header cm (Tip (m_chain cm)) else cm
            | None => cm
            end in
  match Tip (m_chain cm) with Some _ => Some cm | None => None end.

Section activation.
Context {L : Type} `{!Ledger L}.
Context (address : Z → Z).
Implicit Types (n : Node L) (cm : ChainstateManager).

Definition InvalidBlockFound cm (pindex : Z) (result : BlockValidationResult)
    : option ChainstateManager :=
  if bool_decide (result = BLOCK_MUTATED) then Some cm
  else
    match m_block_index cm !! pindex with
    | None => None
    | Some b =>
        let st := m_block_index cm in
        let cm := with_index cm (<[pindex := set_nStatus (Z.lor (nStatus b) BLOCK_FAILED_VALID) b]> st) in
        let cm := with_failed cm (if bool_decide (pindex ∈ m_failed_blocks cm) then m_failed_blocks cm
                                  else pindex :: m_failed_blocks cm) in
        let cm := with_cands cm (set_erase (work_less address (m_block_index cm)) pindex
                                   (setBlockIndexCandidates cm)) in
        InvalidChainFound cm pindex
    end.

(** ** One block *)

(** The DAG data of a block deeply below the new tip is freed. *)
Definition DAG_MERGESET_PRUNE_DEPTH : Z := 1000.

Definition prune_mergeset (st : BlockMap) (pindexNew : Z) : BlockMap :=
  let nHeight := nHeight (entry_at st pindexNew) in
  if DAG_MERGESET_PRUNE_DEPTH <? nHeight
  then match GetAncestor st pindexNew (nHeight - DAG_MERGESET_PRUNE_DEPTH) with
       | None => st
       | Some pPrune =>
           match st !! pPrune with
           | Some b =>
               let d := dagData b in
               match mergeset_blues d with
               | [] => st
               | _ => <[pPrune := mkIndex (pprev b) (pskip b) (BlockIndex.nHeight b) (nChainWork b) (nTx b)
                         (m_chain_tx_count b) (nStatus b) (nVersion b) (hashMerkleRoot b) (nTime b)
                         (nBits b) (hashParentsRoot b) (nNonce b) (vDagParents b)
                         (mkGhostdagData (blue_score d) (selected_parent d) [] [] (blue_work d))
                         (nDagHeight b) (nEarlyProtectionWeight b) (nSequenceId b) (nTimeMax b)]> st
               end
           | None => st
           end
       end
  else st.

Definition DisconnectTip : M (Node L) Failure unit := λ n,
  let cm := node_cm n in
  match Tip (m_chain cm) with
  | None => (n, inr Abort)
  | Some pindexDelete =>
      match m_block_index cm !! pindexDelete ≫= pprev with
      | None => (n, inr Abort)
      | Some prev =>
          match disconnect_coins (m_block_index cm) pindexDelete (node_ledger n) with
          | (l, Some f) => (mkNode cm l, inr f)
          | (l, None) =>
              (mkNode (with_chain cm (SetTip (m_block_index cm) (m_chain cm) prev)) l, inl tt)
          end
      end
  end.

(** Why the block was found invalid, or [None] when it was connected. *)
Definition ConnectTip (pindexNew : Z) (pblock : option CBlock)
    : M (Node L) Failure (option BlockValidationResult) := λ n,
  let cm := node_cm n in
  match m_block_index cm !! pindexNew with
  | None => (n, inr Abort)
  | Some b =>
      if negb (bool_decide (pprev b = Tip (m_chain cm))) then (n, inr Abort)
      else
        match connect_coins (m_block_index cm) (m_best_header cm) pindexNew pblock (node_ledger n) with
        | (st, l, Some (Invalid result _)) =>
            match InvalidBlockFound (with_index cm st) pindexNew result with
            | Some cm => (mkNode cm l, inl (Some result))
            | None => (mkNode (with_index cm st) l, inr Abort)
            end
        | (st, l, Some f) => (mkNode (with_index cm st) l, inr f)
        | (st, l, None) =>
            let chain := SetTip st (m_chain cm) pindexNew in
            (mkNode (with_chain (with_index cm (prune_mergeset st pindexNew)) chain) l, inl None)
        end
  end.

(** ** One step towards the best chain *)

(** While there is a tip and it is not the fork. *)
Fixpoint disconnect_to (fuel : nat) (pindexFork : option Z) : M (Node L) Failure unit := λ n,
  match Tip (m_chain (node_cm n)) with
  | None => (n, inl tt)
  | Some tip =>
      if bool_decide (Some tip = pindexFork) then (n, inl tt)
      else match fuel with
           | O => (n, inr Abort)
           | S fuel' => (DisconnectTip ;;; disconnect_to fuel' pindexFork) n
           end
  end.

(** The blocks from [pindexIter] down to above [nHeight]. *)
Fixpoint to_connect (fuel : nat) (st : BlockMap) (pindexIter : option Z) (nHeight : Z) : list Z :=
  match fuel, pindexIter with
  | S fuel', Some h =>
      match st !! h with
      | Some b => if BlockIndex.nHeight b =? nHeight then []
                  else h :: to_connect fuel' st (pprev b) nHeight
      | None => []
      end
  | _, _ => []
  end.

(** How connecting a list of blocks ends: all are connected, the tip is better than the old
    one, or a block was invalid. *)
Inductive Progress := AllConnected | BetterTip | InvalidFound.

Definition prune_candidates : M (Node L) Failure unit := λ n,
  let cm := node_cm n in
  match Tip (m_chain cm) with
  | None => (n, inr Abort)
  | Some tip =>
      match PruneBlockIndexCandidates address (m_block_index cm) tip (setBlockIndexCandidates cm) with
      | Some cands => (mkNode (with_cands cm cands) (node_ledger n), inl tt)
      | None => (n, inr Abort)
      end
  end.

(** Whether the tip has more work than the old one had. *)
Definition tip_better (pindexOldTip : option Z) n : bool :=
  let st := m_block_index (node_cm n) in
  match pindexOldTip, Tip (m_chain (node_cm n)) with
  | Some old, Some tip => nChainWork (entry_at st old) <? nChainWork (entry_at st tip)
  | _, _ => true
  end.

(** What is noted of the highest block that was to be connected. *)
Definition invalid_front (front : Z) : M (Node L) Failure unit := λ n,
  match InvalidChainFound (node_cm n) front with
  | Some cm => (mkNode cm (node_ledger n), inl tt)
  | None => (n, inr Abort)
  end.

Fixpoint connect_path (pindexMostWork : Z) (pblock : option CBlock) (pindexOldTip : option Z)
    (front : Z) (path : list Z) : M (Node L) Failure Progress :=
  match path with
  | [] => mret AllConnected
  | pindexConnect :: path' =>
      invalid <- ConnectTip pindexConnect (if pindexConnect =? pindexMostWork then pblock else None) ;;
      match invalid with
      | None =>
          prune_candidates ;;;
          better <- lift (λ n, (n, tip_better pindexOldTip n)) ;;
          if better : bool then mret BetterTip
          else connect_path pindexMostWork pblock pindexOldTip front path'
      | Some result =>
          (if bool_decide (result = BLOCK_MUTATED) then mret tt else invalid_front front) ;;;
          mret InvalidFound
      end
  end.

(** At most 32 blocks at a time, until the best block is reached. *)
Fixpoint connect_batches (fuel : nat) (pindexMostWork : Z) (pblock : option CBlock)
    (pindexOldTip : option Z) (nHeight : Z) : M (Node L) Failure Progress := λ n,
  let st := m_block_index (node_cm n) in
  let target := BlockIndex.nHeight (entry_at st pindexMostWork) in
  if nHeight =? target then (n, inl AllConnected)
  else
    match fuel with
    | O => (n, inr Abort)
    | S fuel' =>
        let nTargetHeight := Z.min (nHeight + 32) target in
        let pindexIter := GetAncestor st pindexMostWork nTargetHeight in
        let vpindexToConnect := to_connect (Z.to_nat (nTargetHeight - nHeight)) st pindexIter nHeight in
        (p <- connect_path pindexMostWork pblock pindexOldTip (default 0 (head vpindexToConnect))
                (reverse vpindexToConnect) ;;
         match p with
         | AllConnected => connect_batches fuel' pindexMostWork pblock pindexOldTip nTargetHeight
         | p => mret p
         end) n
    end.

(** Whether an invalid block was found. *)
Definition ActivateBestChainStep (pindexMostWork : Z) (pblock : option CBlock)
    : M (Node L) Failure bool := λ n,
  let cm := node_cm n in
  let st := m_block_index cm in
  let pindexOldTip := Tip (m_chain cm) in
  let pindexFork := FindFork st (m_chain cm) (Some pindexMostWork) in
  let nHeight := match pindexFork with Some f => BlockIndex.nHeight (entry_at st f) | None => -1 end in
  (disconnect_to (length (m_chain cm)) pindexFork ;;;
   p <- connect_batches (S (Z.to_nat (BlockIndex.nHeight (entry_at st pindexMostWork))))
          pindexMostWork pblock pindexOldTip nHeight ;;
   mret (match p with InvalidFound => true | _ => false end)) n.

(** ** [ActivateBestChain] *)

Inductive Halt := Stopped (f : Failure) | OutOfFuel.

Definition find_most_work_chain : M (Node L) Failure (option Z) := λ n,
  match FindMostWorkChain address (node_cm n) with
  | Some (cm, r) => (mkNode cm (node_ledger n), inl r)
  | None => (n, inr Abort)
  end.

(** The variables that live across the rounds. *)
Record Rounds := mkRounds {
  pindexMostWork : option Z;
  pindexNewTip : option Z;
  blocks_connected : bool
}.

(** Whether the tip has fallen behind the one the round started with. *)
Definition behind (starting_tip : option Z) n : bool :=
  match Tip (m_chain (node_cm n)), starting_tip with
  | None, _ => true
  | Some tip, Some s => work_less address (m_block_index (node_cm n)) tip s
  | Some _, None => false
  end.

(** The loop that does not release the lock. *)
Fixpoint activate_round (fuel : nat) (get_hash : CBlock → Z) (pblock : option CBlock)
    (starting_tip : option Z) (r : Rounds) : M (Node L) Halt Rounds :=
  match fuel with
  | O => fail OutOfFuel
  | S fuel' =>
      best <- map_error Stopped (match pindexMostWork r with
                                 | None => find_most_work_chain
                                 | Some h => mret (Some h)
                                 end) ;;
      tip <- lift (λ n, (n, Tip (m_chain (node_cm n)))) ;;
      match best with
      | None => mret (mkRounds None (pindexNewTip r) (blocks_connected r))
      | Some h =>
          if bool_decide (tip = Some h) then mret (mkRounds best (pindexNewTip r) (blocks_connected r))
          else
            let given := match pblock with
                         | Some block => if get_hash block =? h then pblock else None
                         | None => None
                         end in
            fInvalidFound <- map_error Stopped (ActivateBestChainStep h given) ;;
            tip <- lift (λ n, (n, Tip (m_chain (node_cm n)))) ;;
            again <- lift (λ n, (n, behind starting_tip n)) ;;
            let r := mkRounds (if fInvalidFound : bool then None else best) tip true in
            if again : bool then activate_round fuel' get_hash pblock starting_tip r else mret r
      end
  end.

(** The outer loop; [true]: the state is written to disk afterwards. *)
Fixpoint activate_loop (fuel rounds : nat) (get_hash : CBlock → Z) (pblock : option CBlock)
    (best new_tip : option Z) : M (Node L) Halt bool :=
  match fuel with
  | O => fail OutOfFuel
  | S fuel' =>
      starting_tip <- lift (λ n, (n, Tip (m_chain (node_cm n)))) ;;
      r <- activate_round rounds get_hash pblock starting_tip (mkRounds best new_tip false) ;;
      if negb (blocks_connected r) then mret false
      else if bool_decide (pindexNewTip r = pindexMostWork r) then mret true
      else activate_loop fuel' rounds get_hash pblock (pindexMostWork r) (pindexNewTip r)
  end.

Definition flush_state (mode : FlushStateMode) : M (Node L) Failure unit := λ n,
  match flush_coins mode (node_ledger n) with
  | (l, Some f) => (mkNode (node_cm n) l, inr f)
  | (l, None) => (mkNode (node_cm n) l, inl tt)
  end.

Definition ActivateBestChain (fuel : nat) (get_hash : CBlock → Z) (pblock : option CBlock)
    : M (Node L) Halt unit :=
  write <- activate_loop fuel fuel get_hash pblock None None ;;
  if write : bool then map_error Stopped (flush_state PERIODIC) else mret tt.
End activation.
