(* ===== verification/ActivationProps.v ===== *)
(** * Activation ends on the best valid chain

    The laws of a ledger (class [LedgerOk]), and the theorem on [ActivateBestChain]
    (Activation.v) proved against them: with enough rounds it ends, on a block that is valid
    and not below any valid block whose data is there, with the coins of exactly its chain;
    it stops early only when the ledger does.  The candidates, the active chain and the
    marks of failed blocks are consistent again afterwards. *)

From stdpp Require Import gmap.
From S2P Require Import Prelude OrdSet TipSet Arith256 Serialize BlockHeader Ghostdag.
From S2P Require Import BlockIndex BlockIndexProvider EarlyProtection Chainman Accept BlockCheck.
From S2P Require Import Connect Replay Candidates Activation.

Local Open Scope Z_scope.
Local Open Scope coins_scope.

(** ** The index *)

Definition has_undo (b : CBlockIndex) : bool := Z.testbit (nStatus b) 4.

(** An index with one root, in which work grows from block to block, and without the two
    blocks of another network that the rule against overwriting makes exceptions for. *)
Record sane (genesis : Z) (st : BlockMap) : Prop := {
  sn_chain : chain_ok st;
  sn_zero : st !! 0 = None;
  sn_root h b : st !! h = Some b → pprev b = None → h = genesis;
  sn_height h b : st !! h = Some b → nHeight b < 2 ^ 31;
  sn_repeat h b : st !! h = Some b → IsBIP30Repeat (nHeight b) h = false;
  sn_work h b p bp : st !! h = Some b → pprev b = Some p → st !! p = Some bp → nChainWork bp < nChainWork b
}.

(** Later states of the index: entries keep the links and whether there is data, and new
    entries have none. *)
Record evolves (st st' : BlockMap) : Prop := {
  ev_old h b : st !! h = Some b →
    ∃ b', st' !! h = Some b' ∧ links b' = links b ∧ has_undo b' = has_undo b ∧ has_data b' = has_data b;
  ev_new h b' : st !! h = None → st' !! h = Some b' → has_undo b' = false ∧ has_data b' = false
}.

(** What a ledger depends on. *)
Definition ledger_view (b : CBlockIndex) := (links b, has_undo b, has_data b).

Definition extends (st st' : BlockMap) : Prop :=
  ∀ h b, st !! h = Some b → ∃ b', st' !! h = Some b' ∧ links b' = links b.

Lemma extends_prev_n st st' n : chain_ok st → extends st st' → ∀ h,
  is_Some (st !! h) → prev_n st' n h = prev_n st n h.
Proof.
  intros Hok He. induction n as [|n IH]; intros h [b Hb]; [done|]. cbn [prev_n].
  destruct (He h b Hb) as (b' & -> & [= Ep _]). rewrite Hb. cbn [mbind option_bind]. rewrite Ep.
  destruct (pprev b) as [p|] eqn:Hp; [|done]. cbn [mbind option_bind]. apply IH.
  destruct (ck_prev _ Hok _ _ _ Hb Hp) as (bp & -> & _). eauto.
Qed.

(** ** What activation needs of a ledger *)

(** [ledger_at]: the ledger holds the coins of the chain to a block, and what it takes to
    disconnect it; [good]: the block and all below it are valid; [stored]: what is on disk
    for a block; [stops]: failures of the machine. *)
Class LedgerOk (genesis : Z) (L : Type) `{!Ledger L} := {
  ledger_at : BlockMap → L → option Z → Prop;
  good : BlockMap → Z → Prop;
  stored : Z → CBlock → Prop;
  stops : Failure → Prop;
  ledger_evolves st st' l tip :
    sane genesis st → sane genesis st' → evolves st st' → ledger_at st l tip → ledger_at st' l tip;
  good_extends st st' h :
    sane genesis st → sane genesis st' → extends st st' → good st h → good st' h;
  good_prev st h b p : good st h → st !! h = Some b → pprev b = Some p → good st p;
  ledger_good st l t : ledger_at st l (Some t) → good st t;
  connect_ok st best_header h b pblock l :
    sane genesis st → st !! h = Some b → has_data b = true → ledger_at st l (pprev b) →
    (∀ block, pblock = Some block → stored h block) →
    match connect_coins st best_header h pblock l with
    | (st', l', None) =>
        good st h ∧ ledger_at st' l' (Some h) ∧
        ∃ s, st' = <[h := set_nStatus s b]> st ∧ IsFailed (set_nStatus s b) = IsFailed b ∧
             has_data (set_nStatus s b) = has_data b
    | (st', l', Some (Invalid result _)) =>
        ¬ good st h ∧ result ≠ BLOCK_MUTATED ∧ st' = st ∧ ledger_at st l' (pprev b)
    | (_, _, Some f) => stops f
    end;
  disconnect_ok st h b p l :
    sane genesis st → st !! h = Some b → pprev b = Some p → ledger_at st l (Some h) →
    match disconnect_coins st h l with
    | (l', None) => ledger_at st l' (Some p)
    | (_, Some f) => stops f
    end;
  flush_ok st mode l tip :
    ledger_at st l tip →
    match flush_coins mode l with
    | (l', None) => ledger_at st l' tip
    | (_, Some f) => stops f
    end
}.

(** ** The active chain *)

(** The vector holds the ancestors of the tip, by height. *)
Definition chain_to (st : BlockMap) (v : CChain) (tip : option Z) : Prop :=
  match tip with
  | None => v = []
  | Some t => ∃ b, st !! t = Some b ∧ length v = S (Z.to_nat (nHeight b)) ∧
      ∀ m, (m <= Z.to_nat (nHeight b))%nat → v !! (Z.to_nat (nHeight b) - m)%nat = Some (prev_n st m t)
  end.

Lemma chain_to_Tip st v tip : chain_to st v tip → Tip v = tip.
Proof.
  destruct tip as [t|]; [|by intros ->]. intros (b & _ & Hl & Hv). unfold Tip. rewrite last_lookup, Hl. cbn [pred].
  specialize (Hv 0%nat ltac:(lia)). rewrite Nat.sub_0_r in Hv. by rewrite Hv.
Qed.

Lemma chain_to_active st v tip : chain_to st v tip → active_ok st v.
Proof.
  destruct tip as [t|]; [|by intros -> i h m Hi]. intros (b & _ & H1 & H2) i h m Hi Hm.
  pose proof (lookup_lt_Some _ _ _ Hi) as Hlt. rewrite H1 in Hlt. set (n := Z.to_nat (nHeight b)) in *.
  replace i with (n - (n - i))%nat in Hi by lia. rewrite H2 in Hi by lia.
  replace (i - m)%nat with (n - ((n - i) + m))%nat by lia. rewrite H2 by lia.
  injection Hi as Hi. by rewrite prev_n_add, Hi.
Qed.

Lemma chain_to_SetTip st v tip t b :
  chain_ok st → chain_to st v tip → st !! t = Some b → chain_to st (SetTip st v t) (Some t).
Proof.
  intros Hok Hv Hb. destruct (SetTip_spec st v t b Hok (chain_to_active _ _ _ Hv) Hb). by exists b.
Qed.

Lemma chain_to_links st st' v tip : links <$> st = links <$> st' → chain_to st v tip → chain_to st' v tip.
Proof.
  intros Hl. destruct tip as [t|]; [|done]. intros (b & Hb & H1 & H2).
  destruct (fmap_lookup_eq links st' st t b (eq_sym Hl) Hb) as (b' & Hb' & E).
  apply (f_equal (λ x, x.1.1.2)) in E. cbn in E. exists b'. rewrite E. split; [done|]. split; [done|].
  intros m Hm. rewrite <- (prev_n_links st st' m Hl). by apply H2.
Qed.

Lemma Contains_nil st h : Contains st [] h = false.
Proof.
  unfold Contains, chain_at. destruct (st !! h); [|done]. apply bool_decide_eq_false. by destruct (_ || _).
Qed.

(** The blocks on the chain are the ancestors of the tip. *)
Lemma chain_to_Contains st v t h :
  chain_ok st → chain_to st v (Some t) → Contains st v h = true ↔ ∃ n, prev_n st n t = Some h.
Proof.
  intros Hok (b & Hb & Hl & Hv). pose proof (ck_height _ Hok _ _ Hb) as Hh. unfold Contains. split.
  - destruct (st !! h) as [c|] eqn:Hc; [|done]. rewrite bool_decide_eq_true. unfold chain_at. rewrite Hl.
    destruct (_ || _) eqn:E; [done|]. apply orb_false_iff in E as [E1%Z.ltb_ge E2%Z.leb_gt].
    specialize (Hv (Z.to_nat (nHeight b) - Z.to_nat (nHeight c))%nat ltac:(lia)).
    replace (_ - (_ - _))%nat with (Z.to_nat (nHeight c)) in Hv by lia. rewrite Hv. cbn [mjoin option_join]. eauto.
  - intros [n Hn]. destruct (prev_n_le _ _ Hok _ _ _ Hb Hn) as (Hle & c & Hc & Hhc). rewrite Hc.
    apply bool_decide_eq_true. unfold chain_at. rewrite Hl. pose proof (ck_height _ Hok _ _ Hc).
    rewrite (proj2 (Z.ltb_ge _ _)), (proj2 (Z.leb_gt _ _)) by lia. cbn [orb].
    replace (Z.to_nat (nHeight c)) with (Z.to_nat (nHeight b) - n)%nat by lia. rewrite Hv by lia. by rewrite Hn.
Qed.

(** ** Usable blocks *)

(** A block on disk, counted and not failed; and with all its ancestors. *)
Definition usable_entry (b : CBlockIndex) : Prop :=
  has_data b = true ∧ IsFailed b = false ∧ (m_chain_tx_count b ≠ 0 ∨ nHeight b = 0).

Definition usable (st : BlockMap) (x : Z) : Prop :=
  ∀ n a, prev_n st n x = Some a → ∃ b, st !! a = Some b ∧ usable_entry b.

Lemma usable_ancestor st x n a : usable st x → prev_n st n x = Some a → usable st a.
Proof. intros H Ha m c Hc. apply (H (n + m)%nat). by rewrite prev_n_add, Ha. Qed.

Lemma usable_here st x : usable st x → ∃ b, st !! x = Some b ∧ usable_entry b.
Proof. intros H. by apply (H 0%nat). Qed.

Lemma usable_counted st x : usable st x → counted st x.
Proof. intros H n a b Ha Hb. destruct (H n a Ha) as (b' & Hb' & _ & _ & Hc). by simplify_eq. Qed.

Lemma usable_clear st v x : chain_ok st → usable st x → clear st v (Some x).
Proof.
  intros Hok Hx. destruct (usable_here _ _ Hx) as (b & Hb & _).
  assert (H : ∀ n h b, (Z.to_nat (nHeight b) <= n)%nat → st !! h = Some b → usable st h → clear st v (Some h)).
  { induction n as [n IH] using lt_wf_ind. intros h c Hn Hc Hu.
    destruct (usable_here _ _ Hu) as (c' & Hc' & H1 & H2 & _). assert (c' = c) as -> by congruence.
    eapply clear_step; [done..|]. destruct (pprev c) as [p|] eqn:Hp; [|constructor].
    destruct (ck_prev _ Hok _ _ _ Hc Hp) as (bp & Hbp & Hh). pose proof (ck_height _ Hok _ _ Hbp).
    apply (IH (Z.to_nat (nHeight bp)) ltac:(lia) p bp); [lia|done|]. apply (usable_ancestor st h 1); [done|].
    apply prev_n_S. eauto. }
  by eapply H.
Qed.

(** A way to the active chain that is clear, with a usable tip, makes a usable block. *)
Lemma clear_usable st v t x :
  chain_ok st → chain_to st v t → (∀ h, t = Some h → usable st h) → counted st x → is_Some (st !! x) →
  clear st v (Some x) → usable st x.
Proof.
  intros Hok Hv Ht Hcnt Hx Hcl. remember (Some x) as o eqn:Eo. revert x Eo Hcnt Hx.
  induction Hcl as [|h Hc|h b Hb Hf Hd Hcl IH]; intros x Eo Hcnt Hx; simplify_eq.
  - destruct t as [t|]; [|by cbn in Hv; rewrite Hv, Contains_nil in Hc].
    apply (chain_to_Contains st v t x Hok Hv) in Hc as [n Hn]. by eapply usable_ancestor; [apply Ht|].
  - intros [|n] a.
    { intros [= <-]. exists b. split; [done|]. split_and!; [done..|]. by apply (Hcnt 0%nat x). }
    cbn [prev_n]. rewrite Hb. simpl. destruct (pprev b) as [p|] eqn:Hp; [|done]. simpl. apply IH; [done| |].
    + by eapply counted_prev.
    + destruct (ck_prev _ Hok _ _ _ Hb Hp) as (bp & Hbp & _). eauto.
Qed.

(** ** What activation changes in the index *)

(** The block or one below it is marked as failed. *)
Definition failed_below (st : BlockMap) (h : Z) : Prop :=
  ∃ k a b, prev_n st k h = Some a ∧ st !! a = Some b ∧ IsFailed b = true.

Lemma failed_here st h b : st !! h = Some b → IsFailed b = true → failed_below st h.
Proof. intros Hb Hf. by exists 0%nat, h, b. Qed.

(** Blocks are marked as failed only above a failed one, or when they are not valid. *)
Record worse {L} `{!Ledger L} (genesis : Z) `{!LedgerOk genesis L} (st st' : BlockMap) : Prop := {
  ws_view : cand_view <$> st = cand_view <$> st';
  ws_failed h b b' : st !! h = Some b → st' !! h = Some b' → IsFailed b = true → IsFailed b' = true;
  ws_good x : usable st x → good st x → usable st' x;
  ws_blame h b' : st' !! h = Some b' → IsFailed b' = true → failed_below st h ∨ ¬ good st h
}.

Lemma view_links (st st' : BlockMap) : cand_view <$> st = cand_view <$> st' → links <$> st = links <$> st'.
Proof.
  intros H. apply map_eq. intros h. apply (f_equal (.!! h)) in H. rewrite !lookup_fmap in *.
  unfold cand_view in H. destruct (st !! h), (st' !! h); simpl in *; congruence.
Qed.

Lemma view_keys (st st' : BlockMap) h :
  cand_view <$> st = cand_view <$> st' → sort_key <$> st !! h = sort_key <$> st' !! h.
Proof.
  intros H. apply (f_equal (.!! h)) in H. rewrite !lookup_fmap in *.
  unfold cand_view in H. destruct (st !! h), (st' !! h); simpl in *; congruence.
Qed.

Lemma view_lookup (st st' : BlockMap) h b :
  cand_view <$> st = cand_view <$> st' → st !! h = Some b → ∃ b', st' !! h = Some b' ∧ cand_view b' = cand_view b.
Proof. intros H. apply fmap_lookup_eq. by symmetry. Qed.

Lemma view_counted (st st' : BlockMap) h : cand_view <$> st = cand_view <$> st' → counted st h → counted st' h.
Proof.
  intros V. apply counted_links; [by apply view_links|]. apply map_eq. intros a. apply (f_equal (.!! a)) in V.
  rewrite !lookup_fmap in *. unfold cand_view in V. destruct (st !! a), (st' !! a); simpl in *; congruence.
Qed.

Lemma links_extends st st' : links <$> st = links <$> st' → extends st st'.
Proof. intros Hl h b Hb. by apply (fmap_lookup_eq links st' st). Qed.

Lemma view_usable st st' x :
  cand_view <$> st = cand_view <$> st' →
  (∀ h b b', st !! h = Some b → st' !! h = Some b' → IsFailed b = true → IsFailed b' = true) →
  usable st' x → usable st x.
Proof.
  intros Hv Hf Hu n a Ha. rewrite (prev_n_links _ _ n (view_links _ _ Hv)) in Ha.
  destruct (Hu n a Ha) as (b' & Hb' & H1 & H2 & H3).
  destruct (fmap_lookup_eq cand_view st st' a b' Hv Hb') as (b & Hb & E).
  exists b. split; [done|]. unfold cand_view, links in E. injection E as _ _ E1 _ _ _ _ _ _ _ _ _ _ E2 E3.
  unfold usable_entry. rewrite E1, E2, E3. split_and!; [done| |done].
  destruct (IsFailed b) eqn:E; [|done]. by rewrite (Hf a b b' Hb Hb' E) in H2.
Qed.

Lemma sane_links genesis st st' : links <$> st = links <$> st' → sane genesis st → sane genesis st'.
Proof.
  intros Hl [H1 H2 H3 H4 H6 H5]. assert (Hinv : ∀ h b', st' !! h = Some b' → ∃ b, st !! h = Some b ∧ links b = links b')
    by (intros h b' Hb'; by apply (fmap_lookup_eq links st st')). split.
  - by eapply chain_ok_links.
  - destruct (st' !! 0) as [b'|] eqn:Hb'; [|done]. apply Hinv in Hb' as (b & Hb & _). congruence.
  - intros h b' Hb' Hp. destruct (Hinv h b' Hb') as (b & Hb & [= E _]). apply (H3 h b Hb). congruence.
  - intros h b' Hb'. destruct (Hinv h b' Hb') as (b & Hb & [= _ _ E _]). rewrite <- E. eauto.
  - intros h b' Hb'. destruct (Hinv h b' Hb') as (b & Hb & [= _ _ E _]). rewrite <- E. eauto.
  - intros h b' p bp' Hb' Hp Hbp'. destruct (Hinv h b' Hb') as (b & Hb & [= E1 _ _ E2]).
    destruct (Hinv p bp' Hbp') as (bp & Hbp & [= _ _ _ E3]). rewrite <- E2, <- E3. apply (H5 h b p bp); congruence.
Qed.

Section activate.
Context {L : Type} `{!Ledger L} {genesis : Z} `{!LedgerOk genesis L}.
Context (address : Z → Z) `{!Inj (=) (=) address}.

Abbreviation less := (work_less address).
Abbreviation index n := (m_block_index (node_cm n)).
Abbreviation tip n := (Tip (m_chain (node_cm n))).
Abbreviation cands n := (setBlockIndexCandidates (node_cm n)).
Implicit Types (n : Node L).

Lemma good_links st st' x : sane genesis st → links <$> st = links <$> st' → good st x → good st' x.
Proof using Type. intros Hs Hl. apply good_extends; [done|by eapply sane_links|by apply links_extends]. Qed.

Lemma ledger_fields st st' l t :
  sane genesis st → ledger_view <$> st = ledger_view <$> st' →
  ledger_at st l t → ledger_at st' l t.
Proof using Type.
  intros Hs U. apply ledger_evolves; [done| |].
  - eapply sane_links; [|done]. apply map_eq. intros h. apply (f_equal (.!! h)) in U. rewrite !lookup_fmap in *.
    unfold ledger_view in U. destruct (st !! h), (st' !! h); simpl in *; congruence.
  - split.
    + intros h b Hb. destruct (fmap_lookup_eq _ _ _ _ _ (eq_sym U) Hb) as (b' & Hb' & E').
      apply pair_equal_spec in E' as [[? ?]%pair_equal_spec ?]. eauto.
    + intros h b' Hnone Hb'. destruct (fmap_lookup_eq _ _ _ _ _ U Hb') as (b & Hb & _). congruence.
Qed.

(** Marking a block as failed. *)
Lemma failed_ledger_view b m :
  m = BLOCK_FAILED_VALID ∨ m = BLOCK_FAILED_CHILD → ledger_view (set_nStatus (Z.lor (nStatus b) m) b) = ledger_view b.
Proof using Type.
  intros H. unfold ledger_view. rewrite !has_data_testbit. unfold has_undo. cbn [nStatus set_nStatus]. rewrite !Z.lor_spec.
  destruct H as [-> | ->]; by rewrite !orb_false_r.
Qed.

(** ** The order *)

Lemma ge_trans st x y z : less st x y = false → less st y z = false → less st x z = false.
Proof using Inj0.
  intros H1 H2. destruct (less st x z) eqn:E; [|done]. destruct (less st y x) eqn:E'.
  - by rewrite (st_trans _ _ _ E' E) in H2.
  - rewrite (st_total (lt := less st) x y H1 E') in E. congruence.
Qed.

Lemma less_ancestor st k : sane genesis st → ∀ h b a,
  st !! h = Some b → prev_n st (S k) h = Some a → less st a h = true.
Proof using Inj0.
  intros Hs. assert (H : ∀ k h b a, st !! h = Some b → prev_n st (S k) h = Some a →
    nChainWork (entry_at st a) < nChainWork b).
  { clear k. induction k as [|k IH]; intros h b a Hb (b' & p & Hb' & Hp & Ha)%prev_n_S; simplify_eq;
      destruct (ck_prev _ (sn_chain _ _ Hs) _ _ _ Hb Hp) as (bp & Hbp & _);
      pose proof (sn_work _ _ Hs _ _ _ _ Hb Hp Hbp).
    - injection Ha as <-. unfold entry_at. by rewrite Hbp.
    - pose proof (IH p bp a Hbp Ha). lia. }
  intros h b a Hb Ha. apply work_less_true. left. pose proof (H k h b a Hb Ha). unfold entry_at at 2. by rewrite Hb.
Qed.

(** A block is not below its ancestors. *)
Lemma ge_ancestor st k h b a :
  sane genesis st → st !! h = Some b → prev_n st k h = Some a → less st h a = false.
Proof using Inj0.
  intros Hs Hb Ha. destruct k as [|k]; [injection Ha as <-; apply (st_irrefl (lt := less st))|].
  apply (st_asym _). by eapply less_ancestor.
Qed.

Lemma view_less st st' x y : cand_view <$> st = cand_view <$> st' → less st x y = less st' x y.
Proof using Type. intros H. apply work_less_keys; by apply view_keys. Qed.

(** ** The invariant *)

(** Every usable block that is not below [R] is a candidate; the tip is not above [R]. *)
Record node_ok n (R : option Z) : Prop := {
  no_sane : sane genesis (index n);
  no_chain : chain_to (index n) (m_chain (node_cm n)) (tip n);
  no_tip t : tip n = Some t → usable (index n) t ∧ ∃ r, R = Some r ∧ less (index n) r t = false;
  no_ref r : R = Some r → usable (index n) r ∧ good (index n) r;
  no_genesis : tip n = None → good (index n) genesis;
  no_sorted : ordered (less (index n)) (cands n);
  no_cands h : h ∈ cands n → is_Some (index n !! h) ∧ counted (index n) h;
  no_covers x : usable (index n) x → (∀ r, R = Some r → less (index n) x r = false) → x ∈ cands n;
  no_ledger : ledger_at (index n) (node_ledger n) (tip n)
}.

Lemma no_tip_good n R t : node_ok n R → tip n = Some t → good (index n) t.
Proof using Type. intros Hn Ht. eapply (ledger_good _ (node_ledger n)). rewrite <- Ht. apply Hn. Qed.

Lemma worse_refl st : worse genesis st st.
Proof using Type. split; [done|congruence|done|]. intros h b Hb Hf. left. by eapply failed_here. Qed.

(** What is below a valid block is valid. *)
Lemma good_below st k : ∀ h a, good st h → prev_n st k h = Some a → good st a.
Proof using Type.
  induction k as [|k IH]; intros h a Hg; [by intros [= <-]|].
  intros (b & p & Hb & Hp & Ha)%prev_n_S. eapply (IH p); [by eapply good_prev|done].
Qed.

Lemma worse_trans st1 st2 st3 :
  sane genesis st1 → worse genesis st1 st2 → worse genesis st2 st3 → worse genesis st1 st3.
Proof using Type.
  intros Hs [V1 F1 G1 B1] [V2 F2 G2 B2]. split; [congruence| | |].
  - intros h b b'' Hb Hb'' Hf. destruct (view_lookup _ _ _ _ V1 Hb) as (b' & Hb' & _). eauto.
  - intros x Hu Hg. apply G2; [auto|]. eapply good_links; [done|apply view_links, V1|done].
  - intros h b'' Hb Hf. destruct (B2 h b'' Hb Hf) as [(k & a & b' & Ha & Hb' & Hf')|Hg].
    + rewrite <- (prev_n_links _ _ k (view_links _ _ V1)) in Ha.
      destruct (B1 a b' Hb' Hf') as [(j & r & c & Hr & Hc)|Hg].
      * left. exists (k + j)%nat, r, c. by rewrite prev_n_add, Ha.
      * right. intros Hh. by apply Hg, (good_below st1 k h).
    + right. intros Hh. apply Hg. eapply good_links; [done|apply view_links, V1|done].
Qed.

(** Changes that leave the chain. *)
Lemma node_ok_worse n n' R :
  node_ok n R → worse genesis (index n) (index n') → m_chain (node_cm n') = m_chain (node_cm n) →
  (∀ x, x ∈ cands n' → x ∈ cands n) → ordered (less (index n)) (cands n') →
  (∀ x, usable (index n') x → (∀ r, R = Some r → less (index n) x r = false) → x ∈ cands n → x ∈ cands n') →
  ledger_at (index n') (node_ledger n') (tip n') → node_ok n' R.
Proof using Type.
  intros Hn [V F G _] Ec Hsub Hord Hkeep Hl. pose proof (view_links _ _ V) as Hlk.
  assert (Hgood : ∀ x, good (index n) x → good (index n') x)
    by (intros x; apply good_links; [apply Hn|done]).
  split; rewrite ?Ec in *.
  - by apply (sane_links genesis (index n)), Hn.
  - by apply (chain_to_links (index n)), Hn.
  - intros t Ht. destruct (no_tip _ _ Hn t Ht) as (Hu & r & Hr & Hlt). split.
    + apply G; [done|by eapply no_tip_good].
    + exists r. split; [done|]. by rewrite <- (view_less _ _ _ _ V).
  - intros r Hr. destruct (no_ref _ _ Hn r Hr). auto.
  - intros Ht. by apply Hgood, (no_genesis _ _ Hn).
  - eapply ordered_keys; [|exact Hord]. intros h _. by apply view_keys.
  - intros h Hh. destruct (no_cands _ _ Hn h (Hsub h Hh)) as [[b Hb] Hc]. split.
    + destruct (view_lookup _ _ _ _ V Hb) as (b' & -> & _). eauto.
    + by eapply view_counted.
  - intros x Hx Hr. assert (Hr' : ∀ r, R = Some r → less (index n) x r = false)
      by (intros r E; rewrite (view_less _ _ _ _ V); by apply Hr).
    apply Hkeep; [done|done|]. apply (no_covers _ _ Hn); [by eapply view_usable|done].
  - done.
Qed.

(** ** Removing unusable candidates *)

Lemma remove_chain_view {A} (f : CBlockIndex → A) fuel ff : 
  (∀ b, f (set_nStatus (Z.lor (nStatus b) BLOCK_FAILED_CHILD) b) = f b) → ∀ cm h t cm',
  remove_chain address fuel ff cm h t = Some cm' → f <$> m_block_index cm = f <$> m_block_index cm'.
Proof using Type.
  intros Hf. induction fuel as [|fuel IH]; intros cm h t cm'; cbn [remove_chain];
    (destruct (h =? t); [by intros <-%(inj Some)|]); [done|].
  destruct (m_block_index cm !! h) as [b|] eqn:Hb; [|done]. destruct (pprev b) as [p|]; [|done].
  intros H%IH. rewrite <- H. destruct ff; [|done]. cbn [m_block_index with_candidates with_index].
  by apply (fmap_insert_same f _ _ b).
Qed.

Lemma find_most_work_view {A} (f : CBlockIndex → A) fuel :
  (∀ b, f (set_nStatus (Z.lor (nStatus b) BLOCK_FAILED_CHILD) b) = f b) → ∀ cm cm' r,
  find_most_work address fuel cm = Some (cm', r) → f <$> m_block_index cm = f <$> m_block_index cm'.
Proof using Type.
  intros Hf. induction fuel as [|fuel IH]; intros cm cm' r; cbn [find_most_work];
    (destruct (last _) as [h|]; [|by intros [= <- _]]); [done|].
  destruct (find_unusable _ _ _ _) as [[[t b]|]|]; [|by intros [= <- _]|done].
  destruct (remove_chain _ _ _ _ _ _) as [cm1|] eqn:E; [|done]. intros H%IH. rewrite <- H.
  apply (remove_chain_view f) in E; [|done]. rewrite <- E. destruct (IsFailed b); [|done].
  by destruct (note_invalid_same cm h) as (-> & _).
Qed.

(** Only blocks above a failed one are marked. *)
Lemma remove_chain_blame fuel ff k : ∀ cm h t bt cm',
  remove_chain address fuel ff cm h t = Some cm' → prev_n (m_block_index cm) k h = Some t →
  m_block_index cm !! t = Some bt → (ff = true → IsFailed bt = true) →
  ∀ g b', m_block_index cm' !! g = Some b' → IsFailed b' = true → failed_below (m_block_index cm) g.
Proof using Type.
  revert k. induction fuel as [|fuel IH]; intros k cm h t bt cm'; cbn [remove_chain];
    (destruct (Z.eqb_spec h t); [intros <-%(inj Some) _ _ _ g b' Hb Hf; by eapply failed_here|]); [done|].
  destruct (m_block_index cm !! h) as [b|] eqn:Hb; [|done]. destruct (pprev b) as [p|] eqn:Hp; [|done].
  intros H Hk Ht Hff g b' Hg Hf. destruct k as [|k]; [by injection Hk as ->|].
  assert (Hk' : prev_n (m_block_index cm) k p = Some t).
  { apply prev_n_S in Hk as (b2 & p2 & ? & ? & ?). by simplify_eq. }
  destruct ff; [|by apply (IH k _ _ _ bt _ H) with b'].
  set (st' := <[h := _]> _) in H.
  assert (Hl : links <$> m_block_index cm = links <$> st') by (by apply (fmap_insert_same _ _ _ b)).
  assert (Hfb : failed_below st' g).
  { apply (IH k _ _ _ bt _ H) with b'; cbn [m_block_index with_candidates with_index]; try done.
    - by rewrite <- (prev_n_links _ _ k Hl).
    - unfold st'. by rewrite lookup_insert_ne. }
  destruct Hfb as (j & a & c & Ha & Hc & Hfc). rewrite <- (prev_n_links _ _ j Hl) in Ha.
  destruct (decide (a = h)) as [->|Hne].
  - exists (j + S k)%nat, t, bt. rewrite prev_n_add, Ha. split_and!; [|done|by apply Hff].
    cbn [mbind option_bind prev_n]. rewrite Hb. cbn. by rewrite Hp.
  - unfold st' in Hc. rewrite lookup_insert_ne in Hc by done. by exists j, a, c.
Qed.

Lemma find_unusable_below st v fuel : ∀ h t b,
  find_unusable fuel st v (Some h) = Some (Some (t, b)) → ∃ k, prev_n st k h = Some t ∧ st !! t = Some b.
Proof using Type.
  induction fuel as [|fuel IH]; intros h t b; [done|]. cbn [find_unusable].
  destruct (st !! h) as [c|] eqn:Hc; [|done]. destruct (Contains _ _ _); [done|]. destruct (_ && _); [done|].
  destruct (_ || _); [intros [= <- <-]; by exists 0%nat|]. destruct (pprev c) as [p|] eqn:Hp; [|by destruct fuel].
  intros (k & Hk & Ht)%IH. exists (S k). cbn [prev_n]. rewrite Hc. cbn. by rewrite Hp.
Qed.

Lemma find_most_work_blame fuel : ∀ cm cm' r, find_most_work address fuel cm = Some (cm', r) →
  ∀ g b', m_block_index cm' !! g = Some b' → IsFailed b' = true → failed_below (m_block_index cm) g.
Proof using Type.
  induction fuel as [|fuel IH]; intros cm cm' r; cbn [find_most_work];
    (destruct (last _) as [h|]; [|intros [= <- _] g b' Hb Hf; by eapply failed_here]); [done|].
  destruct (find_unusable _ _ _ _) as [[[t b]|]|] eqn:Eu; [|intros [= <- _] g b' Hb Hf; by eapply failed_here|done].
  destruct (remove_chain _ _ _ _ _ _) as [cm1|] eqn:E; [|done]. intros H g b' Hb Hf.
  destruct (find_unusable_below _ _ _ _ _ _ Eu) as (k & Hk & Ht).
  set (cm0 := if IsFailed b then note_invalid cm h else cm) in *.
  assert (Ei : m_block_index cm0 = m_block_index cm)
    by (unfold cm0; destruct (IsFailed b); [apply note_invalid_same|done]).
  assert (Hl : links <$> m_block_index cm = links <$> m_block_index cm1)
    by (rewrite <- Ei; by eapply (remove_chain_view links)).
  destruct (IH cm1 cm' r H g b' Hb Hf) as (j & a & c & Ha & Hc & Hfc).
  rewrite <- (prev_n_links _ _ j Hl) in Ha. rewrite <- Ei in Hk, Ht.
  destruct (remove_chain_blame _ _ k _ _ _ b _ E Hk Ht ltac:(done) a c Hc Hfc) as (i & q & e & Hq & He).
  rewrite Ei in Hq, He. exists (j + i)%nat, q, e. by rewrite prev_n_add, Ha.
Qed.

(** The number of blocks not failed. *)
Definition unfailed (st : BlockMap) : nat := size (filter (λ hb : Z * CBlockIndex, IsFailed hb.2 = false) st).

Lemma unfailed_le (st st' : BlockMap) :
  (∀ h b', st' !! h = Some b' → IsFailed b' = false → ∃ b, st !! h = Some b ∧ IsFailed b = false) →
  (unfailed st' <= unfailed st)%nat.
Proof using Type.
  intros H. unfold unfailed. rewrite <- !size_dom. apply subseteq_size. intros h.
  rewrite !elem_of_dom. intros [b' [H1 H2]%map_lookup_filter_Some]. destruct (H h b' H1 H2) as (b & Hb & Hf).
  exists b. by apply map_lookup_filter_Some.
Qed.

Lemma unfailed_lt (st st' : BlockMap) h b b' :
  (∀ h b', st' !! h = Some b' → IsFailed b' = false → ∃ b, st !! h = Some b ∧ IsFailed b = false) →
  st !! h = Some b → IsFailed b = false → st' !! h = Some b' → IsFailed b' = true →
  (unfailed st' < unfailed st)%nat.
Proof using Type.
  intros H Hb Hf Hb' Hf'. unfold unfailed. rewrite <- !size_dom. apply subset_size. split.
  - intros g. rewrite !elem_of_dom. intros [c' [H1 H2]%map_lookup_filter_Some].
    destruct (H g c' H1 H2) as (c & Hc & Hcf). exists c. by apply map_lookup_filter_Some.
  - intros Hs. specialize (Hs h). rewrite !elem_of_dom in Hs. destruct Hs as [c [H1 H2]%map_lookup_filter_Some].
    + exists b. by apply map_lookup_filter_Some.
    + cbn [snd] in H2. congruence.
Qed.

Lemma worse_unfailed st st' h b' :
  worse genesis st st' → st' !! h = Some b' → IsFailed b' = false → ∃ b, st !! h = Some b ∧ IsFailed b = false.
Proof using Type.
  intros [V F _] Hb' Hf. destruct (view_lookup _ _ _ _ (eq_sym V) Hb') as (b & Hb & _). exists b. split; [done|].
  destruct (IsFailed b) eqn:E; [|done]. by rewrite (F h b b' Hb Hb' E) in Hf.
Qed.

(** The best block there is to go to. *)
Record target n (m : Z) : Prop := {
  tg_usable : usable (index n) m;
  tg_cand : m ∈ cands n;
  tg_best x : usable (index n) x → less (index n) m x = false
}.

(** What the search makes of the state. *)
Section found.
Context n (R : option Z) (cm' : ChainstateManager) (r : option Z).
Context (Hn : node_ok n R) (E : FindMostWorkChain address (node_cm n) = Some (cm', r)).
Context (Hp : pruned address (index n) (node_cm n) cm').
#[local] Abbreviation n' := (mkNode cm' (node_ledger n)).

Lemma found_view : cand_view <$> index n = cand_view <$> index n'.
Proof using E. eapply find_most_work_view; [|exact E]. intros b. unfold cand_view. by rewrite has_data_failed. Qed.

Lemma found_usable x : usable (index n) x → usable (index n') x.
Proof using Hn E Hp.
  intros Hx k a Ha. rewrite <- (prev_n_links _ _ k (view_links _ _ found_view)) in Ha.
  pose proof (usable_ancestor _ _ _ _ Hx Ha) as Hua. destruct (usable_here _ _ Hua) as (b & Hb & H1 & H2 & H3).
  pose proof (pr_marks _ _ _ _ Hp a) as M. rewrite Hb in M. cbn [node_cm].
  destruct (m_block_index cm' !! a) as [b'|] eqn:Hb'; [|done]. destruct M as (s & -> & D & [->|[Hnc _]]).
  - exists b. rewrite set_nStatus_id. by split_and!.
  - exfalso. apply Hnc, usable_clear; [apply Hn|done].
Qed.

Lemma found_worse : worse genesis (index n) (index n').
Proof using Hn E Hp.
  split; [apply found_view| |intros x Hx _; by apply found_usable|].
  2: { intros h b' Hb' Hf. left. exact (find_most_work_blame _ _ _ _ E h b' Hb' Hf). }
  intros h b b' Hb Hb' Hf. pose proof (pr_marks _ _ _ _ Hp h) as M. cbn [node_cm] in Hb'. rewrite Hb, Hb' in M.
  destruct M as (s & -> & _ & [->|[_ ?]]); [by rewrite set_nStatus_id|done].
Qed.

Lemma found_cands x : usable (index n) x → x ∈ cands n → x ∈ cands n'.
Proof using Hn Hp.
  intros Hx Hc. destruct (decide (x ∈ cands n')) as [|Hnot]; [done|]. exfalso.
  apply (pr_bad _ _ _ _ Hp x Hc Hnot), usable_clear; [apply Hn|done].
Qed.

Lemma found_ok : node_ok n' R.
Proof using Hn E Hp.
  apply (node_ok_worse n n'); [done|apply found_worse|apply Hp|apply Hp| | |].
  - eapply ordered_keys; [|apply Hp]. intros h _. symmetry. apply (view_keys _ _ _ found_view).
  - intros x Hx _. apply found_cands. eapply view_usable; [apply found_view|apply found_worse|done].
  - cbn [node_cm node_ledger]. rewrite (pr_chain _ _ _ _ Hp). eapply ledger_fields; [apply Hn| |apply Hn].
    eapply find_most_work_view; [|exact E]. intros b. apply failed_ledger_view. by right.
Qed.
End found.

(** Usable candidates of a consistent state: what is best of them is best of all. *)
Lemma ref_cand n R r : node_ok n R → R = Some r → r ∈ cands n ∧ clear (index n) (m_chain (node_cm n)) (Some r).
Proof using Inj0.
  intros Hn ->. destruct (no_ref _ _ Hn r eq_refl) as [Hu _]. split.
  - apply (no_covers _ _ Hn); [done|]. intros r' [= <-]. apply (st_irrefl (lt := less (index n))).
  - apply usable_clear; [apply Hn|done].
Qed.

Lemma find_spec n R :
  node_ok n R →
  ∃ n' r, find_most_work_chain address n = (n', inl r) ∧ node_ok n' R ∧ worse genesis (index n) (index n') ∧
    m_chain (node_cm n') = m_chain (node_cm n) ∧
    match r with Some m => target n' m | None => tip n = None ∧ ∀ x, ¬ usable (index n) x end.
Proof using Inj0.
  intros Hn. pose proof (sn_chain _ _ (no_sane _ _ Hn)) as Hok.
  pose proof (find_most_work_spec address (index n) (length (cands n)) Hok (node_cm n) (Nat.le_refl _)
    (marks_refl _ _ _) (no_sorted _ _ Hn) (λ h Hh, proj1 (no_cands _ _ Hn h Hh))) as H.
  unfold find_most_work_chain. destruct (FindMostWorkChain address (node_cm n)) as [[cm' r]|] eqn:E;
    pose proof E as E'; unfold FindMostWorkChain in E'; rewrite E' in H.
  2:{ destruct H as (h & Hh & Hc). by destruct (no_cands _ _ Hn h Hh). }
  destruct H as (Hp & [Hl Hr] & _). pose proof (found_worse n R cm' r Hn E Hp) as W.
  exists (mkNode cm' (node_ledger n)), r. split; [done|]. split; [by eapply found_ok|]. split; [done|].
  split; [apply Hp|]. destruct r as [m|].
  - destruct Hr as (Hin & Hcl & Hmax). assert (Hum : usable (index n) m).
    { eapply clear_usable; [done|apply Hn|intros h Ht; by apply (no_tip _ _ Hn)|apply (no_cands _ _ Hn m Hin)..|done]. }
    assert (Hge : ∀ r, R = Some r → less (index n) m r = false).
    { intros r Er. destruct (ref_cand n R r Hn Er) as [Hc Hcr]. destruct (less (index n) m r) eqn:El; [|done].
      exfalso. by apply (Hmax r Hc El). }
    split; [by eapply found_usable|by eapply found_cands|]. intros x Hx.
    rewrite <- (view_less _ _ _ _ (ws_view _ _ _ W)). destruct (less (index n) m x) eqn:El; [|done]. exfalso.
    assert (Hux : usable (index n) x) by (eapply view_usable; [apply W|apply W|done]).
    apply (Hmax x); [|done|by apply usable_clear]. apply (no_covers _ _ Hn x Hux). intros r Er.
    apply (ge_trans _ x m r); [by apply (st_asym _)|by apply Hge].
  - assert (HR : R = None).
    { destruct R as [r|]; [|done]. destruct (ref_cand n _ r Hn eq_refl) as [Hc Hcr]. by destruct (Hr r Hc). }
    split.
    + destruct (tip n) as [t|] eqn:Ht; [|done]. destruct (no_tip _ _ Hn t Ht) as (_ & r & Er & _). congruence.
    + intros x Hx. apply (Hr x); [|by apply usable_clear]. apply (no_covers _ _ Hn x Hx). congruence.
Qed.

(** ** The tip moves *)

Lemma node_ok_tip n n' R p :
  node_ok n R → worse genesis (index n) (index n') → cands n' = cands n →
  chain_to (index n') (m_chain (node_cm n')) (Some p) → usable (index n') p →
  (∃ r, R = Some r ∧ less (index n) r p = false) → ledger_at (index n') (node_ledger n') (Some p) →
  node_ok n' R ∧ tip n' = Some p.
Proof using Type.
  intros Hn [V F G] Ec Hc Hu (r & Er & Hr) Hl. pose proof (chain_to_Tip _ _ _ Hc) as Ht. split; [|done].
  pose proof (view_links _ _ V) as Hlk.
  assert (Hgood : ∀ x, good (index n) x → good (index n') x)
    by (intros x; apply good_links; [apply Hn|done]).
  split; rewrite ?Ht, ?Ec; try done.
  - by apply (sane_links genesis (index n)), Hn.
  - intros t [= <-]. split; [done|]. exists r. split; [done|]. by rewrite <- (view_less _ _ _ _ V).
  - intros r' Er'. destruct (no_ref _ _ Hn r' Er'). auto.
  - eapply ordered_keys; [|apply Hn]. intros h _. by apply view_keys.
  - intros h Hh. destruct (no_cands _ _ Hn h Hh) as [[b Hb] Hcnt]. split; [|by eapply view_counted].
    destruct (view_lookup _ _ _ _ V Hb) as (b' & -> & _). eauto.
  - intros x Hx Hxr. apply (no_covers _ _ Hn); [by eapply view_usable|].
    intros q E. rewrite (view_less _ _ _ _ V). by apply Hxr.
Qed.

Lemma DisconnectTip_spec n R t b p :
  node_ok n R → tip n = Some t → index n !! t = Some b → pprev b = Some p →
  match DisconnectTip n with
  | (n', inl _) => node_ok n' R ∧ tip n' = Some p ∧ index n' = index n ∧ cands n' = cands n
  | (_, inr f) => stops f
  end.
Proof using Inj0.
  intros Hn Ht Hb Hp. unfold DisconnectTip. rewrite Ht, Hb. cbn [mbind option_bind]. rewrite Hp.
  pose proof (no_sane _ _ Hn) as Hs. pose proof (no_ledger _ _ Hn) as Hl. rewrite Ht in Hl.
  pose proof (disconnect_ok (index n) t b p (node_ledger n) Hs Hb Hp Hl) as Hd.
  destruct (disconnect_coins _ _ _) as [l [f|]]; [done|].
  destruct (ck_prev _ (sn_chain _ _ Hs) _ _ _ Hb Hp) as (bp & Hbp & _).
  destruct (no_tip _ _ Hn t Ht) as (Hu & r & Er & Hr). assert (H1 : prev_n (index n) 1 t = Some p) by (apply prev_n_S; eauto).
  set (n' := mkNode (with_chain (node_cm n) (SetTip (index n) (m_chain (node_cm n)) p)) l).
  destruct (node_ok_tip n n' R p) as [H2 H3]; [done|apply worse_refl|done| |by eapply usable_ancestor| |done|by split_and!].
  { eapply chain_to_SetTip; [apply Hs|apply Hn|done]. }
  exists r. split; [done|]. eapply ge_trans; [exact Hr|by eapply ge_ancestor].
Qed.

(** *** Connecting *)

(** The fields activation looks at. *)
Definition act_view (b : CBlockIndex) := (cand_view b, IsFailed b).

Lemma same_worse st st' : act_view <$> st = act_view <$> st' → worse genesis st st'.
Proof using Type.
  intros H. assert (V : cand_view <$> st = cand_view <$> st').
  { apply map_eq. intros h. apply (f_equal (.!! h)) in H. rewrite !lookup_fmap in *.
    unfold act_view in H. destruct (st !! h), (st' !! h); simpl in *; congruence. }
  assert (F : ∀ h b b', st !! h = Some b → st' !! h = Some b' → IsFailed b = IsFailed b').
  { intros h b b' Hb Hb'. apply (f_equal (.!! h)) in H. rewrite !lookup_fmap, Hb, Hb' in H.
    by apply (inj Some), (f_equal snd) in H. }
  split; [done| | |].
  - intros h b b' Hb Hb' Hf. by rewrite <- (F h b b').
  - intros x Hx _. eapply view_usable; [by symmetry|intros h b' b Hb' Hb; by rewrite (F h b b')|done].
  - intros h b' Hb' Hf. left. destruct (fmap_lookup_eq _ _ _ _ _ H Hb') as (b & Hb & _).
    apply (failed_here _ _ b); [done|]. by rewrite (F h b b').
Qed.

Lemma same_unfailed st st' : act_view <$> st = act_view <$> st' → unfailed st' = unfailed st.
Proof using LedgerOk0.
  intros H. apply Nat.le_antisymm; apply unfailed_le; intros h b Hb Hf;
    eapply worse_unfailed; try exact Hb; try done; by apply same_worse.
Qed.

Lemma prune_mergeset_view {A} (f : CBlockIndex → A) st h :
  (∀ b d, f (mkIndex (pprev b) (pskip b) (BlockIndex.nHeight b) (nChainWork b) (nTx b)
               (m_chain_tx_count b) (nStatus b) (nVersion b) (hashMerkleRoot b) (nTime b)
               (nBits b) (hashParentsRoot b) (nNonce b) (vDagParents b)
               (mkGhostdagData (blue_score (dagData b)) (selected_parent (dagData b)) [] d (blue_work (dagData b)))
               (nDagHeight b) (nEarlyProtectionWeight b) (nSequenceId b) (nTimeMax b)) = f b) →
  f <$> st = f <$> prune_mergeset st h.
Proof using Type.
  intros Hf. unfold prune_mergeset. destruct (_ <? _); [|done]. destruct (GetAncestor _ _ _) as [a|]; [|done].
  destruct (st !! a) as [b|] eqn:Hb; [|done]. destruct (mergeset_blues _); [done|].
  apply (fmap_insert_same f _ _ b); [done|]. symmetry. apply Hf.
Qed.

Definition ref_max (st : BlockMap) (R : option Z) (t : Z) : option Z :=
  match R with Some r => if less st t r then Some r else Some t | None => Some t end.

Lemma ref_max_ge st R t : ∃ r, ref_max st R t = Some r ∧ less st r t = false ∧ ∀ q, R = Some q → less st r q = false.
Proof using Inj0.
  unfold ref_max. destruct R as [q|].
  - destruct (less st t q) eqn:E.
    + exists q. split; [done|]. split; [by apply (st_asym _)|]. intros ? [= <-]. apply (st_irrefl (lt := less st)).
    + exists t. split; [done|]. split; [apply (st_irrefl (lt := less st))|]. by intros ? [= <-].
  - exists t. split; [done|]. split; [apply (st_irrefl (lt := less st))|done].
Qed.

Lemma node_ok_ref n R t :
  node_ok n R → usable (index n) t → good (index n) t → node_ok n (ref_max (index n) R t).
Proof using Inj0.
  intros Hn Hu Hg. destruct (ref_max_ge (index n) R t) as (r & Er & Hr1 & Hr2).
  destruct Hn as [H1 H2 H3 H4 H5 H6 H7 H8 H9]. split; try done.
  - intros t' Ht'. destruct (H3 t' Ht') as (Hu' & q & Eq & Hq). split; [done|]. exists r. split; [done|].
    eapply ge_trans; [by apply Hr2|done].
  - intros r' Er'. rewrite Er in Er'. injection Er' as <-. unfold ref_max in Er.
    destruct R as [q|]; [destruct (less _ t q)|]; injection Er as <-; auto.
  - intros x Hx Hxr. apply H8; [done|]. intros q Eq. eapply ge_trans; [by apply Hxr|by apply Hr2].
Qed.

Lemma connected_ok n R h b s l :
  node_ok n R → index n !! h = Some b → pprev b = tip n → usable (index n) h → good (index n) h →
  let st := <[h := set_nStatus s b]> (index n) in
  IsFailed (set_nStatus s b) = IsFailed b → has_data (set_nStatus s b) = has_data b →
  ledger_at st l (Some h) →
  let n' := mkNode (with_chain (with_index (node_cm n) (prune_mergeset st h))
                      (SetTip st (m_chain (node_cm n)) h)) l in
  node_ok n' (ref_max (index n) R h) ∧ tip n' = Some h ∧ act_view <$> index n = act_view <$> index n'.
Proof using Inj0.
  intros Hn Hb Hp Hu Hg st Hf Hd Hl n'.
  assert (V1 : act_view <$> index n = act_view <$> st).
  { apply (fmap_insert_same _ _ _ b); [done|]. unfold act_view, cand_view. by rewrite Hf, Hd. }
  assert (V2 : act_view <$> st = act_view <$> index n') by (by apply prune_mergeset_view).
  assert (W : worse genesis (index n) (index n')) by (apply same_worse; congruence).
  pose proof (same_worse _ _ V1) as [L1%view_links _ _ _]. pose proof (same_worse _ _ V2) as [L2%view_links _ _ _].
  assert (Hb' : st !! h = Some (set_nStatus s b)) by apply lookup_insert_eq.
  pose proof (sane_links _ _ _ L1 (no_sane _ _ Hn)) as Hs.
  destruct (node_ok_tip n n' (ref_max (index n) R h) h) as [H1 H2]; [by apply node_ok_ref|done|done| | | | |].
  - apply (chain_to_links st); [exact L2|]. eapply chain_to_SetTip; [apply Hs| |exact Hb'].
    eapply chain_to_links; [exact L1|apply Hn].
  - by apply (ws_good _ _ _ W).
  - destruct (ref_max_ge (index n) R h) as (r & ? & ? & _). eauto.
  - eapply ledger_fields; [exact Hs| |exact Hl]. by apply prune_mergeset_view.
  - split_and!; [done|done|congruence].
Qed.

Lemma lor_failed b : IsFailed (set_nStatus (Z.lor (nStatus b) BLOCK_FAILED_VALID) b) = true.
Proof using Type.
  unfold IsFailed. cbn [nStatus set_nStatus]. apply negb_true_iff, Z.eqb_neq. intros E.
  apply (f_equal (λ z, Z.testbit z 5)) in E. by rewrite Z.land_spec, Z.lor_spec, Z.bits_0, orb_true_r in E.
Qed.

Lemma InvalidChainFound_same cm h t :
  Tip (m_chain cm) = Some t →
  ∃ cm', InvalidChainFound cm h = Some cm' ∧ m_block_index cm' = m_block_index cm ∧
    m_chain cm' = m_chain cm ∧ setBlockIndexCandidates cm' = setBlockIndexCandidates cm.
Proof using Type.
  intros Ht. unfold InvalidChainFound. destruct (note_invalid_same cm h) as (E1 & E2 & E3 & E4 & E5). cbv zeta.
  set (cm1 := note_invalid cm h) in *. set (cm2 := match m_best_header cm1 with Some _ => _ | None => _ end).
  assert (H : m_block_index cm2 = m_block_index cm1 ∧ m_chain cm2 = m_chain cm1 ∧
    setBlockIndexCandidates cm2 = setBlockIndexCandidates cm1).
  { unfold cm2. destruct (m_best_header cm1); [|done]. by case_bool_decide. }
  destruct H as (H1 & H2 & H3). rewrite H2, E2, Ht. exists cm2. split_and!; congruence.
Qed.

(** A change of the index that marks an invalid block. *)
Lemma marked_worse n R h b :
  node_ok n R → index n !! h = Some b → ¬ good (index n) h →
  worse genesis (index n) (<[h := set_nStatus (Z.lor (nStatus b) BLOCK_FAILED_VALID) b]> (index n)).
Proof using Type.
  intros Hn Hb Hg. set (b' := set_nStatus _ b).
  assert (V : cand_view <$> index n = cand_view <$> <[h := b']> (index n)).
  { apply (fmap_insert_same _ _ _ b); [done|]. unfold cand_view. f_equal. rewrite !has_data_testbit.
    unfold b'. cbn [nStatus set_nStatus]. by rewrite Z.lor_spec, orb_false_r. }
  split; [done| | |].
  - intros g c c' Hc Hc' Hf. destruct (decide (g = h)) as [->|Hne].
    + rewrite lookup_insert_eq in Hc'. injection Hc' as <-. apply lor_failed.
    + rewrite lookup_insert_ne in Hc' by done. congruence.
  - intros x Hx Hgx k a Ha. rewrite <- (prev_n_links _ _ k (view_links _ _ V)) in Ha.
    assert (Hga : good (index n) a) by (by eapply good_below).
    destruct (Hx k a Ha) as (c & Hc & Hus). exists c. rewrite lookup_insert_ne by congruence. done.
  - intros g c' Hc' Hf. destruct (decide (g = h)) as [->|Hne]; [by right|].
    rewrite lookup_insert_ne in Hc' by done. left. by eapply failed_here.
Qed.

Lemma InvalidBlockFound_spec n R h b result l :
  node_ok n R → index n !! h = Some b → pprev b = tip n → usable (index n) h → ¬ good (index n) h →
  result ≠ BLOCK_MUTATED → ledger_at (index n) l (tip n) →
  ∃ cm' t, InvalidBlockFound address (node_cm n) h result = Some cm' ∧
    let n' := mkNode cm' l in
    node_ok n' R ∧ worse genesis (index n) (index n') ∧ m_chain cm' = m_chain (node_cm n) ∧
    tip n = Some t ∧ (unfailed (index n') < unfailed (index n))%nat.
Proof using Inj0.
  intros Hn Hb Hp Hu Hg Hr Hl. unfold InvalidBlockFound. rewrite bool_decide_eq_false_2 by done. rewrite Hb.
  destruct (tip n) as [t|] eqn:Ht.
  2:{ exfalso. apply Hg. rewrite (sn_root _ _ (no_sane _ _ Hn) h b Hb Hp). by apply (no_genesis _ _ Hn). }
  pose proof (marked_worse n R h b Hn Hb Hg) as W. set (b' := set_nStatus _ b) in *.
  set (cands' := set_erase _ _ _). set (failed := if bool_decide _ then _ else _).
  set (cm1 := with_cands (with_failed (with_index (node_cm n) (<[h := b']> (index n))) failed) cands').
  destruct (InvalidChainFound_same cm1 h t Ht) as (cm' & E & E1 & E2 & E3). exists cm', t. split; [exact E|].
  cbv zeta. cbn [node_cm node_ledger]. rewrite E1. change (m_block_index cm1) with (<[h := b']> (index n)).
  assert (Hin : ∀ x, x ∈ cands' ↔ x ≠ h ∧ x ∈ cands n).
  { intros x. unfold cands'. cbn [m_block_index with_failed with_index setBlockIndexCandidates].
    apply (elem_of_set_erase _). eapply ordered_keys; [|apply Hn]. intros g _. apply view_keys, W. }
  split_and!; [|done|done|done|].
  - apply (node_ok_worse n); cbn [node_cm node_ledger]; rewrite ?E1, ?E2, ?E3; [done..| | | |].
    + intros x [_ ?]%Hin. done.
    + eapply (ordered_sublist _); [apply set_erase_sublist|apply Hn].
    + intros x Hx _ Hc. apply Hin. split; [|done]. intros ->. destruct (usable_here _ _ Hx) as (c & Hc' & _ & Hf & _).
      change (m_block_index cm1) with (<[h := b']> (index n)) in Hc'. rewrite lookup_insert_eq in Hc'.
      injection Hc' as <-. unfold b' in Hf. by rewrite lor_failed in Hf.
    + change (m_chain cm1) with (m_chain (node_cm n)). rewrite Ht.
      eapply ledger_fields; [apply Hn| |exact Hl]. apply (fmap_insert_same _ _ _ b); [done|].
      symmetry. apply failed_ledger_view. by left.
  - destruct (usable_here _ _ Hu) as (c & Hc & _ & Hf & _). assert (c = b) as -> by congruence.
    eapply (unfailed_lt _ _ h b b'); [|done|done|apply lookup_insert_eq|apply lor_failed].
    intros g c'. by apply worse_unfailed.
Qed.

Lemma ConnectTip_spec n R h b pblock :
  node_ok n R → index n !! h = Some b → pprev b = tip n → usable (index n) h →
  (∀ block, pblock = Some block → stored h block) →
  match ConnectTip address h pblock n with
  | (n', inl None) =>
      node_ok n' (ref_max (index n) R h) ∧ tip n' = Some h ∧ cands n' = cands n ∧
      act_view <$> index n = act_view <$> index n'
  | (n', inl (Some result)) =>
      result ≠ BLOCK_MUTATED ∧ node_ok n' R ∧ worse genesis (index n) (index n') ∧
      (unfailed (index n') < unfailed (index n))%nat ∧ ∃ t, tip n = Some t ∧ tip n' = Some t
  | (_, inr f) => stops f
  end.
Proof using Inj0.
  intros Hn Hb Hp Hu Hst. unfold ConnectTip. rewrite Hb, bool_decide_eq_true_2 by done. cbn [negb].
  pose proof (no_sane _ _ Hn) as Hs. pose proof (no_ledger _ _ Hn) as Hl. rewrite <- Hp in Hl.
  assert (Hd : has_data b = true) by (destruct (usable_here _ _ Hu) as (c & Hc & ? & _); congruence).
  pose proof (connect_ok _ (m_best_header (node_cm n)) h b pblock _ Hs Hb Hd Hl Hst) as Hc.
  destruct (connect_coins _ _ _ _ _) as [[st l] [[result reason| |]|]]; [|done..|].
  - destruct Hc as (Hg & Hr & -> & Hl'). rewrite Hp in Hl'.
    destruct (InvalidBlockFound_spec n R h b result l Hn Hb Hp Hu Hg Hr Hl') as (cm' & t & E & H1 & H2 & H3 & H4 & H5).
    replace (with_index (node_cm n) (index n)) with (node_cm n) by (by destruct (node_cm n)). rewrite E.
    split_and!; try done. exists t. split; [done|]. cbn [node_cm]. by rewrite H3.
  - destruct Hc as (Hg & Hl' & s & -> & Hf & Hd').
    destruct (connected_ok n R h b s l Hn Hb Hp Hu Hg Hf Hd' Hl') as (H1 & H2 & H3). by split_and!.
Qed.

Lemma view_same_less st st' x y : act_view <$> st = act_view <$> st' → less st x y = less st' x y.
Proof using LedgerOk0. intros H. apply view_less, (same_worse _ _ H). Qed.

Lemma target_view n n' m :
  act_view <$> index n = act_view <$> index n' → m ∈ cands n' → target n m → target n' m.
Proof using LedgerOk0.
  intros V Hm [Hu _ Hb]. pose proof (same_worse _ _ V) as [V1 F1 _ _]. pose proof (same_worse _ _ (eq_sym V)) as [V2 F2 _ _].
  split; [by eapply view_usable|done|]. intros x Hx. rewrite <- (view_less _ _ _ _ V1). apply Hb. by eapply view_usable.
Qed.

Lemma prune_candidates_spec n R t m :
  node_ok n R → tip n = Some t → target n m →
  ∃ n', prune_candidates address n = (n', inl tt) ∧ node_ok n' R ∧ index n' = index n ∧
    m_chain (node_cm n') = m_chain (node_cm n) ∧ target n' m.
Proof using Inj0.
  intros Hn Ht Hm. unfold prune_candidates, PruneBlockIndexCandidates. rewrite Ht.
  destruct (no_tip _ _ Hn t Ht) as (Hut & r & Er & Hr).
  assert (Hel : ∀ x, x ∈ prune_worse address (index n) t (cands n) ↔ x ∈ cands n ∧ less (index n) x t = false)
    by (intros x; apply (prune_worse_elem address), Hn).
  assert (Hin : m ∈ prune_worse address (index n) t (cands n)) by (apply Hel; split; [apply Hm|by apply Hm]).
  destruct (prune_worse address (index n) t (cands n)) as [|c cs] eqn:E; [by apply elem_of_nil in Hin|].
  eexists. split; [done|]. cbn [node_cm]. split_and!; try done.
  - apply (node_ok_worse n); cbn [node_cm node_ledger]; [done|apply worse_refl|done| | | |apply Hn].
    + intros x [? _]%Hel. done.
    + cbn [setBlockIndexCandidates with_cands with_candidates]. rewrite <- E. apply prune_worse_ordered, Hn.
    + intros x Hx Hxr Hc. apply Hel. split; [done|]. eapply ge_trans; [by apply Hxr|done].
  - by apply (target_view n).
Qed.

(** ** The way up *)

(** Blocks below [m], each the child of the one before, the first the child of [base]. *)
Fixpoint climbs (st : BlockMap) (m : Z) (base : option Z) (path : list Z) : Prop :=
  match path with
  | [] => True
  | h :: path' =>
      (∃ b k, st !! h = Some b ∧ pprev b = base ∧ prev_n st k m = Some h) ∧ climbs st m (Some h) path'
  end.

Definition top (base : option Z) (path : list Z) : option Z :=
  match last path with Some h => Some h | None => base end.

Lemma climbs_snoc st m h b k path : ∀ base,
  climbs st m base path → st !! h = Some b → pprev b = top base path → prev_n st k m = Some h →
  climbs st m base (path ++ [h]).
Proof using Type.
  induction path as [|x path IH]; intros base Hc Hb Hp Hk; cbn [climbs app] in *; [by eauto 10|].
  destruct Hc as [Hx Hc]. split; [done|]. apply IH; [done..| |done]. rewrite Hp. unfold top. rewrite last_cons. by destruct (last path).
Qed.

Lemma climbs_links st st' m path : links <$> st = links <$> st' → ∀ base,
  climbs st m base path → climbs st' m base path.
Proof using Type.
  intros Hl. induction path as [|h path IH]; intros base; cbn [climbs]; [done|].
  intros [(b & k & Hb & Hp & Hk) Hc]. split; [|by apply IH].
  destruct (links_extends _ _ Hl h b Hb) as (b' & Hb' & [= E _]). exists b', k.
  rewrite <- (prev_n_links _ _ k Hl). split_and!; [done|congruence|done].
Qed.

Lemma top_app base path h : top base (path ++ [h]) = Some h.
Proof using Type. unfold top. by rewrite last_snoc. Qed.

(** The list that is built from the top down, read from the bottom up. *)
Lemma to_connect_climbs st m lo fuel : chain_ok st → ∀ h b k,
  st !! h = Some b → prev_n st k m = Some h → nHeight b = lo + Z.of_nat fuel → -1 <= lo →
  let path := reverse (to_connect fuel st (Some h) lo) in
  climbs st m (prev_n st fuel h) path ∧ top (prev_n st fuel h) path = Some h ∧ length path = fuel.
Proof using Type.
  intros Hok. induction fuel as [|fuel IH]; intros h b k Hb Hk Hh Hlo; [done|]. cbv zeta. cbn [to_connect].
  rewrite Hb, (proj2 (Z.eqb_neq _ _)) by lia. rewrite reverse_cons.
  assert (H : climbs st m (prev_n st (S fuel) h) (reverse (to_connect fuel st (pprev b) lo)) ∧
    top (prev_n st (S fuel) h) (reverse (to_connect fuel st (pprev b) lo)) = pprev b ∧
    length (reverse (to_connect fuel st (pprev b) lo)) = fuel).
  { cbn [prev_n]. rewrite Hb. cbn [mbind option_bind]. destruct (pprev b) as [p|] eqn:Hp.
    - destruct (ck_prev _ Hok _ _ _ Hb Hp) as (bp & Hbp & Hhp). cbn [mbind option_bind].
      apply (IH p bp (k + 1)%nat); [done| |lia|done]. rewrite prev_n_add, Hk. cbn. rewrite Hb. cbn. by rewrite Hp.
    - pose proof (ck_root _ Hok _ _ Hb Hp). assert (fuel = 0%nat) as -> by lia. done. }
  destruct H as (H1 & H2 & H3). split; [|split; [apply top_app|rewrite length_app, H3; cbn; lia]].
  by apply (climbs_snoc st m h b k).
Qed.

Lemma ref_max_trans st R t1 t2 : less st t2 t1 = false → ref_max st (ref_max st R t1) t2 = ref_max st R t2.
Proof using Inj0.
  intros H. unfold ref_max. destruct R as [r|]; [|by rewrite H]. destruct (less st t1 r) eqn:E; [done|].
  rewrite H, (ge_trans _ _ _ _ H E). done.
Qed.

Lemma ref_max_view st st' R t : act_view <$> st = act_view <$> st' → ref_max st R t = ref_max st' R t.
Proof using LedgerOk0. intros V. unfold ref_max. destruct R; [|done]. by rewrite (view_same_less _ _ _ _ V). Qed.

Lemma ref_max_tip n R t : node_ok n R → tip n = Some t → ref_max (index n) R t = R.
Proof using Inj0.
  intros Hn Ht. destruct (no_tip _ _ Hn t Ht) as (_ & r & -> & Hr). unfold ref_max.
  destruct (less (index n) t r) eqn:E; [done|]. by rewrite (st_total (lt := less (index n)) t r E Hr).
Qed.

(** What connecting blocks towards [m] leads to. *)
Definition outcome n (R : option Z) (m : Z) n' (p : Progress) : Prop :=
  worse genesis (index n) (index n') ∧
  (∃ t, tip n' = Some t ∧ node_ok n' (ref_max (index n) R t) ∧
     ∀ t0, tip n = Some t0 → less (index n) t t0 = false) ∧
  match p with
  | InvalidFound => (unfailed (index n') < unfailed (index n))%nat
  | _ => act_view <$> index n = act_view <$> index n' ∧ target n' m
  end.

Lemma outcome_trans n R m n1 t1 n' p :
  sane genesis (index n) → act_view <$> index n = act_view <$> index n1 → tip n1 = Some t1 →
  (∀ t0, tip n = Some t0 → less (index n) t1 t0 = false) →
  outcome n1 (ref_max (index n) R t1) m n' p → outcome n R m n' p.
Proof using Inj0.
  intros Hs V Ht1 Hge (W & (t & Ht & Hn & Hle) & Hp). specialize (Hle t1 Ht1).
  rewrite <- (view_same_less _ _ _ _ V) in Hle. rewrite <- (ref_max_view _ _ _ _ V), ref_max_trans in Hn by done.
  split; [eapply worse_trans; [done|by apply same_worse|done]|]. split.
  - exists t. split; [done|]. split; [done|]. intros t0 Ht0. eapply ge_trans; [done|auto].
  - destruct p; [destruct Hp; split; [congruence|done]..|]. by rewrite <- (same_unfailed _ _ V).
Qed.

Lemma node_ok_same n n' R :
  index n' = index n → m_chain (node_cm n') = m_chain (node_cm n) → cands n' = cands n →
  node_ledger n' = node_ledger n → node_ok n R → node_ok n' R.
Proof using Type.
  intros E1 E2 E3 E4 Hn. apply (node_ok_worse n); rewrite ?E1, ?E2, ?E3, ?E4; try done; [apply worse_refl|apply Hn..].
Qed.

Lemma invalid_front_spec n R t front :
  node_ok n R → tip n = Some t →
  ∃ n', invalid_front front n = (n', inl tt) ∧ node_ok n' R ∧ index n' = index n ∧ tip n' = Some t.
Proof using Type.
  intros Hn Ht. unfold invalid_front. destruct (InvalidChainFound_same (node_cm n) front t Ht) as (cm' & -> & E1 & E2 & E3).
  eexists. split; [done|]. cbn [node_cm]. rewrite E2. split_and!; [|done..]. by apply (node_ok_same n).
Qed.

Lemma connect_path_spec m pblock old front : (∀ block, pblock = Some block → stored m block) → ∀ path n R,
  node_ok n R → target n m → climbs (index n) m (tip n) path → path ≠ [] →
  match connect_path address m pblock old front path n with
  | (_, inr f) => stops f
  | (n', inl p) => outcome n R m n' p ∧
      match p with
      | AllConnected => tip n' = last path
      | BetterTip => ∃ t, tip n' = Some t ∧ t ∈ path
      | InvalidFound => True
      end
  end.
Proof using Inj0.
  intros Hst. induction path as [|h path IH]; intros n R Hn Hm Hc Hne; [done|]. clear Hne.
  destruct Hc as [(b & k & Hb & Hp & Hk) Hc]. cbn [connect_path]. pose proof (no_sane _ _ Hn) as Hs.
  assert (Hge : ∀ t0, tip n = Some t0 → less (index n) h t0 = false).
  { intros t0 Ht0. apply (ge_ancestor _ 1 h b); [done..|]. apply prev_n_S. exists b, t0. by rewrite Hp. }
  pose proof (ConnectTip_spec n R h b (if h =? m then pblock else None) Hn Hb Hp) as H. unfold mthen at 1.
  destruct (ConnectTip _ _ _ _) as [n1 [[result|]|f]];
    (specialize (H (usable_ancestor _ _ _ _ (tg_usable _ _ Hm) Hk)));
    (specialize (H ltac:(destruct (Z.eqb_spec h m) as [->|]; [done|by intros ?]))); [| |done].
  - destruct H as (Hr & Hn1 & W & Hlt & t & Ht & Ht1). rewrite bool_decide_eq_false_2 by done.
    destruct (invalid_front_spec n1 R t front Hn1 Ht1) as (n2 & E & Hn2 & Ei & Ht2). unfold mthen. rewrite E.
    split; [|done]. split; [by rewrite Ei|]. split; [|by rewrite Ei]. exists t. split; [done|].
    rewrite (ref_max_tip n R t Hn Ht). split; [done|]. rewrite Ht. intros t0 [= <-]. apply (st_irrefl (lt := less (index n))).
  - destruct H as (Hn1 & Ht1 & Ec & V).
    assert (Hm1 : target n1 m) by (apply (target_view n); [done|rewrite Ec; apply Hm|done]).
    destruct (prune_candidates_spec n1 _ h m Hn1 Ht1 Hm1) as (n2 & E & Hn2 & Ei & Eh & Hm2).
    unfold mthen at 1. rewrite E. unfold lift, mthen at 1. rewrite <- Ei in V.
    assert (Ht2 : tip n2 = Some h) by (by rewrite Eh).
    assert (Ho : outcome n R m n2 AllConnected).
    { split; [by apply same_worse|]. split; [|done]. by exists h. }
    destruct (tip_better old n2).
    { split; [done|]. exists h. split; [done|]. by left. }
    destruct path as [|g path].
    { cbn [connect_path]. by split. }
    specialize (IH n2 (ref_max (index n) R h) Hn2 Hm2). rewrite Ht2 in IH.
    specialize (IH (climbs_links _ _ _ _ (view_links _ _ (ws_view _ _ _ (same_worse _ _ V))) _ Hc) ltac:(done)).
    destruct (connect_path _ _ _ _ _ (g :: path) n2) as [n' [p|f]]; [|done]. destruct IH as [Ho' Hp'].
    split; [by eapply outcome_trans|]. destruct p; [done| |done]. destruct Hp' as (t & ? & ?). exists t. split; [done|by right].
Qed.

Lemma outcome_refl n R m t : node_ok n R → tip n = Some t → target n m → outcome n R m n AllConnected.
Proof using Inj0.
  intros Hn Ht Hm. split; [apply worse_refl|]. split; [|done]. exists t. rewrite (ref_max_tip n R t Hn Ht).
  split_and!; [done|done|]. rewrite Ht. intros t0 [= <-]. apply (st_irrefl (lt := less (index n))).
Qed.

Lemma climbs_above st m lo path : chain_ok st → ∀ base t,
  climbs st m base path → match base with Some x => ∃ bx, st !! x = Some bx ∧ lo <= nHeight bx | None => lo < 0 end →
  t ∈ path → ∃ b k, st !! t = Some b ∧ prev_n st k m = Some t ∧ lo < nHeight b.
Proof using Type.
  intros Hok. induction path as [|h path IH]; intros base t Hc Hbase Ht; [by apply elem_of_nil in Ht|].
  destruct Hc as [(b & k & Hb & Hp & Hk) Hc].
  assert (Hh : lo < nHeight b).
  { destruct base as [x|].
    - destruct Hbase as (bx & Hbx & Hlo). destruct (ck_prev _ Hok _ _ _ Hb Hp) as (bp & ? & ?). simplify_eq. lia.
    - pose proof (ck_height _ Hok _ _ Hb). lia. }
  apply elem_of_cons in Ht as [->|Ht]; [by exists b, k|]. apply (IH (Some h)); [done| |done]. exists b. split; [done|lia].
Qed.

(** Where a block below [m] lies. *)
Lemma below_steps st m bm t b k lo :
  chain_ok st → st !! m = Some bm → prev_n st k m = Some t → st !! t = Some b → -1 <= lo < nHeight b →
  (k < Z.to_nat (nHeight bm - lo))%nat.
Proof using Type.
  intros Hok Hbm Hk Hb Hlo. destruct (prev_n_le _ _ Hok _ _ _ Hbm Hk) as (? & b' & ? & ?). simplify_eq. lia.
Qed.

Section batches.
Context (m : Z) (pblock : option CBlock) (old : option Z).
Context (Hst : ∀ block, pblock = Some block → stored m block).

(** One batch, of at most 32 blocks. *)
Lemma batch_spec n R bm lo hi :
  node_ok n R → target n m → index n !! m = Some bm → -1 <= lo < hi → hi <= nHeight bm →
  tip n = prev_n (index n) (Z.to_nat (nHeight bm - lo)) m →
  let vs := to_connect (Z.to_nat (hi - lo)) (index n) (GetAncestor (index n) m hi) lo in
  match connect_path address m pblock old (default 0 (head vs)) (reverse vs) n with
  | (_, inr f) => stops f
  | (n', inl p) => outcome n R m n' p ∧
      match p with
      | AllConnected => tip n' = prev_n (index n) (Z.to_nat (nHeight bm - hi)) m
      | BetterTip => ∃ t k, tip n' = Some t ∧ prev_n (index n) k m = Some t ∧ (k < Z.to_nat (nHeight bm - lo))%nat
      | InvalidFound => True
      end
  end.
Proof using Inj0 Hst.
  intros Hn Hm Hbm Hlo Hhi Ht vs. pose proof (sn_chain _ _ (no_sane _ _ Hn)) as Hok.
  destruct (prev_n_height _ (Z.to_nat (nHeight bm - hi)) m bm Hok Hbm) as (h & bh & Hh & Hbh & Ehh); [lia|].
  assert (Evs : vs = to_connect (Z.to_nat (hi - lo)) (index n) (Some h) lo)
    by (unfold vs; by rewrite (GetAncestor_prev_n _ m bm) by (done || lia); rewrite Hh). rewrite Evs.
  destruct (to_connect_climbs (index n) m lo (Z.to_nat (hi - lo)) Hok h bh _ Hbh Hh) as (H1 & H2 & H3); [lia|lia|].
  set (path := reverse _) in *.
  assert (Hbase : prev_n (index n) (Z.to_nat (hi - lo)) h = tip n).
  { rewrite Ht. replace (Z.to_nat (nHeight bm - lo)) with (Z.to_nat (nHeight bm - hi) + Z.to_nat (hi - lo))%nat by lia.
    by rewrite prev_n_add, Hh. }
  rewrite Hbase in H1, H2.
  assert (Hlast : last path = Some h).
  { unfold top in H2. destruct (last path) eqn:E; [done|]. apply last_None in E. rewrite E in H3. cbn in H3. lia. }
  pose proof (connect_path_spec m pblock old (default 0 (head (to_connect (Z.to_nat (hi - lo)) (index n) (Some h) lo)))
    Hst path n R Hn Hm H1) as H. specialize (H ltac:(intros E; by rewrite E in Hlast)).
  destruct (connect_path _ _ _ _ _ path n) as [n' [p|f]]; [|done]. destruct H as [Ho Hp]. split; [done|].
  destruct p; [by rewrite Hp, Hlast|  |done]. destruct Hp as (t & Ht' & Hin).
  destruct (climbs_above _ m lo path Hok _ t H1) as (b & k & Hb & Hk & Hab); [|done|].
  - rewrite Ht. destruct (prev_n _ _ m) as [x|] eqn:Ex.
    + destruct (prev_n_le _ _ Hok _ _ _ Hbm Ex) as (? & bx & ? & ?). exists bx. split; [done|]. lia.
    + destruct (decide (lo < 0)); [done|]. destruct (prev_n_height _ (Z.to_nat (nHeight bm - lo)) m bm Hok Hbm) as (? & ? & ? & _); [lia|]. congruence.
  - exists t, k. split_and!; [done|done|]. eapply below_steps; [done..|lia].
Qed.

Lemma connect_batches_spec fuel : ∀ n R bm lo,
  node_ok n R → target n m → index n !! m = Some bm → -1 <= lo <= nHeight bm →
  tip n = prev_n (index n) (Z.to_nat (nHeight bm - lo)) m → (Z.to_nat (nHeight bm - lo) <= fuel)%nat →
  match connect_batches address fuel m pblock old lo n with
  | (_, inr f) => stops f
  | (n', inl p) => outcome n R m n' p ∧
      (p = InvalidFound ∨ ∃ t k, tip n' = Some t ∧ prev_n (index n) k m = Some t ∧
         (k = 0 ∨ k < Z.to_nat (nHeight bm - lo))%nat)
  end.
Proof using Inj0 Hst.
  induction fuel as [|fuel IH]; intros n R bm lo Hn Hm Hbm Hlo Ht Hf; cbn [connect_batches];
    unfold entry_at; rewrite Hbm; cbn [default id];
    (destruct (Z.eqb_spec lo (nHeight bm)) as [E|Hne];
     [replace (Z.to_nat (nHeight bm - lo)) with 0%nat in Ht by lia; split;
      [by apply (outcome_refl n R m m)|right; exists m, 0%nat; auto]|]); [lia|].
  set (hi := Z.min (lo + 32) (nHeight bm)).
  pose proof (batch_spec n R bm lo hi Hn Hm Hbm ltac:(lia) ltac:(lia) Ht) as Hb. cbv zeta in Hb. unfold mthen.
  destruct (connect_path _ _ _ _ _ _ n) as [n1 [p|f]]; [|done]. destruct Hb as [Ho Hp].
  destruct p; [|split; [done|right; destruct Hp as (t & k & ? & ? & ?); exists t, k; auto]|by split; [|left]].
  destruct Ho as (W & (t & Ht1 & Hn1 & Hge) & V & Hm1). pose proof (view_links _ _ (ws_view _ _ _ W)) as Hl.
  destruct (links_extends _ _ Hl m bm Hbm) as (bm' & Hbm' & [= _ _ Eh _]).
  specialize (IH n1 _ bm' hi Hn1 Hm1 Hbm' ltac:(lia)). rewrite Eh, <- (prev_n_links _ _ _ Hl) in IH.
  specialize (IH Hp ltac:(lia)). destruct (connect_batches _ _ _ _ _ _ n1) as [n' [p|f]]; [|done].
  destruct IH as [Ho' Hp']. split; [eapply outcome_trans; [apply Hn|done..]|].
  destruct Hp' as [->|(t' & k & F1 & F2 & F3)]; [by left|]. right. exists t', k.
  rewrite <- (prev_n_links _ _ _ Hl) in F2. split_and!; [done|done|]. lia.
Qed.
End batches.

(** ** A step *)

Lemma disconnect_to_spec fuel : ∀ k n R t f,
  node_ok n R → tip n = Some t → prev_n (index n) k t = Some f → (k <= fuel)%nat →
  match disconnect_to fuel (Some f) n with
  | (n', inl _) => node_ok n' R ∧ tip n' = Some f ∧ index n' = index n ∧ cands n' = cands n
  | (_, inr e) => stops e
  end.
Proof using Inj0.
  induction fuel as [|fuel IH]; intros k n R t f Hn Ht Hk Hf; cbn [disconnect_to]; rewrite Ht.
  { assert (k = 0%nat) as -> by lia. injection Hk as <-. by rewrite bool_decide_eq_true_2. }
  case_bool_decide as E; [by injection E as <-|]. destruct k as [|k]; [by injection Hk as <-|].
  apply prev_n_S in Hk as (b & p & Hb & Hp & Hk). pose proof (DisconnectTip_spec n R t b p Hn Ht Hb Hp) as H.
  unfold mthen. destruct (DisconnectTip n) as [n1 [[]|e]]; [|done]. destruct H as (Hn1 & Ht1 & Ei & Ec).
  rewrite <- Ei in Hk. specialize (IH k n1 R p f Hn1 Ht1 Hk ltac:(lia)).
  destruct (disconnect_to fuel (Some f) n1) as [n' [?|?]]; [|done]. by rewrite Ei, Ec in IH.
Qed.

(** The blocks between the fork and a block. *)
Definition dist n (m : Z) : nat :=
  let h := nHeight (entry_at (index n) m) in
  match FindFork (index n) (m_chain (node_cm n)) (Some m) with
  | Some f => Z.to_nat (h - nHeight (entry_at (index n) f))
  | None => Z.to_nat (h + 1)
  end.

(** Every block has the genesis block below it. *)
Lemma genesis_below st h b :
  sane genesis st → st !! h = Some b → prev_n st (Z.to_nat (nHeight b)) h = Some genesis.
Proof using Type.
  intros Hs Hb. pose proof (sn_chain _ _ Hs) as Hok. pose proof (ck_height _ Hok _ _ Hb).
  destruct (prev_n_height _ (Z.to_nat (nHeight b)) h b Hok Hb) as (a & ba & Ha & Hba & Eh); [lia|].
  rewrite Ha. f_equal. apply (sn_root _ _ Hs a ba Hba). destruct (pprev ba) as [p|] eqn:Hp; [|done].
  destruct (ck_prev _ Hok _ _ _ Hba Hp) as (bp & Hbp & ?). pose proof (ck_height _ Hok _ _ Hbp). lia.
Qed.

(** The fork of the best block with the chain. *)
Lemma fork_spec n R m bm :
  node_ok n R → target n m → index n !! m = Some bm → tip n ≠ Some m →
  match tip n, FindFork (index n) (m_chain (node_cm n)) (Some m) with
  | Some t, Some f => ∃ i j bf, prev_n (index n) i t = Some f ∧ prev_n (index n) j m = Some f ∧
      index n !! f = Some bf ∧ nHeight bf = nHeight bm - Z.of_nat j ∧ (0 < j)%nat ∧
      (i <= length (m_chain (node_cm n)))%nat
  | None, None => True
  | _, _ => False
  end.
Proof using Inj0.
  intros Hn Hm Hbm Hne. pose proof (no_sane _ _ Hn) as Hs. pose proof (sn_chain _ _ Hs) as Hok.
  pose proof (FindFork_correct (index n) (m_chain (node_cm n)) m bm Hok Hbm) as Hf.
  pose proof (no_chain _ _ Hn) as Hc. destruct (tip n) as [t|] eqn:Ht.
  2:{ cbn in Hc. rewrite Hc in *. destruct (FindFork _ _ _); [|done]. destruct Hf as [Hf _]. by rewrite Contains_nil in Hf. }
  pose proof Hc as (bt & Hbt & Hlen & _).
  destruct (FindFork _ _ _) as [f|].
  - destruct Hf as [Hcf (j & Hj & _)]. apply (chain_to_Contains _ _ t f Hok Hc) in Hcf as [i Hi].
    destruct (prev_n_le _ _ Hok _ _ _ Hbm Hj) as (_ & bf & Hbf & Eh).
    destruct (prev_n_le _ _ Hok _ _ _ Hbt Hi) as (Hle & _).
    exists i, j, bf. split_and!; [done..| |lia]. destruct j as [|j]; [|lia]. exfalso. injection Hj as <-.
    destruct i as [|i]; [injection Hi as ->; by apply Hne|].
    pose proof (less_ancestor _ i Hs t bt m Hbt Hi) as Hl.
    by rewrite (tg_best _ _ Hm t (proj1 (no_tip _ _ Hn t Ht))) in Hl.
  - specialize (Hf _ _ (genesis_below _ _ _ Hs Hbm)).
    assert (Hg : Contains (index n) (m_chain (node_cm n)) genesis = true)
      by (apply (chain_to_Contains _ _ t _ Hok Hc); eexists; by apply (genesis_below _ t bt)).
    congruence.
Qed.

Lemma dist_below n R m t k :
  node_ok n R → tip n = Some t → is_Some (index n !! m) → prev_n (index n) k m = Some t → (dist n m <= k)%nat.
Proof using Type.
  intros Hn Ht [bm Hbm] Hk. pose proof (sn_chain _ _ (no_sane _ _ Hn)) as Hok.
  pose proof (FindFork_correct (index n) (m_chain (node_cm n)) m bm Hok Hbm) as Hf.
  pose proof (no_chain _ _ Hn) as Hc. rewrite Ht in Hc.
  assert (Hct : Contains (index n) (m_chain (node_cm n)) t = true)
    by (apply (chain_to_Contains _ _ t _ Hok Hc); by exists 0%nat).
  unfold dist. destruct (FindFork _ _ _) as [f|]; [|by rewrite (Hf k t Hk) in Hct].
  destruct Hf as [_ (j & Hj & Hlt)]. destruct (prev_n_le _ _ Hok _ _ _ Hbm Hj) as (Hle & bf & Hbf & Eh).
  unfold entry_at. rewrite Hbm, Hbf. cbn [default id]. rewrite Eh.
  destruct (decide (k < j)%nat) as [Hkj|]; [|lia]. by rewrite (Hlt k t Hkj Hk) in Hct.
Qed.

(** How a step towards [m] ends. *)
Definition step_end n (R : option Z) (m : Z) n' (invalid : bool) : Prop :=
  worse genesis (index n) (index n') ∧ ∃ t, tip n' = Some t ∧ node_ok n' (ref_max (index n) R t) ∧
  if invalid then (unfailed (index n') < unfailed (index n))%nat
  else act_view <$> index n = act_view <$> index n' ∧ target n' m ∧ (dist n' m < dist n m)%nat.

(** The part that connects, after the tip was taken down to the fork at height [lo]. *)
Lemma step_connects n R m bm pblock n1 lo :
  node_ok n R → target n m → index n !! m = Some bm → (∀ block, pblock = Some block → stored m block) →
  node_ok n1 R → index n1 = index n → cands n1 = cands n → -1 <= lo < nHeight bm →
  tip n1 = prev_n (index n) (Z.to_nat (nHeight bm - lo)) m → dist n m = Z.to_nat (nHeight bm - lo) →
  match (p <- connect_batches address (S (Z.to_nat (nHeight bm))) m pblock (tip n) lo ;;
         mret (match p with InvalidFound => true | _ => false end)) n1 with
  | (_, inr f) => stops f
  | (n', inl invalid) => step_end n R m n' invalid
  end.
Proof using Inj0.
  intros Hn Hm Hbm Hst Hn1 Ei Ec Hlo Ht1 Hd.
  assert (Hm1 : target n1 m) by (apply (target_view n); rewrite ?Ei, ?Ec; [done|apply Hm|done]).
  pose proof (connect_batches_spec m pblock (tip n) Hst (S (Z.to_nat (nHeight bm))) n1 R bm lo Hn1 Hm1) as H.
  rewrite Ei in H. specialize (H Hbm ltac:(lia) Ht1 ltac:(lia)). unfold mthen.
  destruct (connect_batches _ _ _ _ _ _ n1) as [n' [p|f]]; [|done]. destruct H as [(W & (t & Ht & Hn' & _) & Hp) Hk].
  rewrite Ei in W, Hn', Hp. cbn [mret]. split; [done|]. exists t. split; [done|]. split; [done|].
  destruct Hk as [->|(t' & k & Ht' & Hk & Hkd)]; [done|].
  assert (Hd' : (dist n' m < dist n m)%nat).
  { pose proof (view_links _ _ (ws_view _ _ _ W)) as Hl. rewrite (prev_n_links _ _ _ Hl) in Hk.
    destruct (links_extends _ _ Hl m bm Hbm) as (bm' & Hbm' & _).
    pose proof (dist_below n' _ m t' k Hn' Ht' ltac:(eauto) Hk). lia. }
  destruct p; [by destruct Hp..|done].
Qed.

Lemma ActivateBestChainStep_spec n R m pblock :
  node_ok n R → target n m → tip n ≠ Some m → (∀ block, pblock = Some block → stored m block) →
  match ActivateBestChainStep address m pblock n with
  | (_, inr f) => stops f
  | (n', inl invalid) => step_end n R m n' invalid
  end.
Proof using Inj0.
  intros Hn Hm Hne Hst. destruct (usable_here _ _ (tg_usable _ _ Hm)) as (bm & Hbm & _).
  pose proof (fork_spec n R m bm Hn Hm Hbm Hne) as Hf. pose proof (sn_chain _ _ (no_sane _ _ Hn)) as Hok.
  pose proof (ck_height _ Hok _ _ Hbm) as Hh0.
  unfold ActivateBestChainStep. unfold mthen at 1. replace (nHeight (entry_at (index n) m)) with (nHeight bm)
    by (unfold entry_at; by rewrite Hbm).
  destruct (tip n) as [t|] eqn:Ht, (FindFork _ _ _) as [f|] eqn:Ef; [|done..|].
  - destruct Hf as (i & j & bf & Hi & Hj & Hbf & Eh & Hj0 & Hil).
    destruct (prev_n_le _ _ Hok _ _ _ Hbm Hj) as (Hjle & _).
    pose proof (disconnect_to_spec _ i n R t f Hn Ht Hi Hil) as H.
    destruct (disconnect_to _ _ n) as [n1 [[]|e]]; [|done]. destruct H as (Hn1 & Ht1 & Ei & Ec).
    replace (nHeight (entry_at (index n) f)) with (nHeight bf) by (unfold entry_at; by rewrite Hbf).
    rewrite <- Ht. apply step_connects; [done..|lia| |].
    + rewrite Ht1. by replace (Z.to_nat (nHeight bm - nHeight bf)) with j by lia.
    + unfold dist. rewrite Ef. unfold entry_at. by rewrite Hbm, Hbf.
  - assert (E : disconnect_to (length (m_chain (node_cm n))) None n = (n, inl tt))
      by (destruct (length _); cbn [disconnect_to]; by rewrite Ht).
    rewrite E, <- Ht. apply step_connects; [done..|lia| |
      unfold dist; rewrite Ef; unfold entry_at; rewrite Hbm; cbn; f_equal; lia].
    rewrite Ht. symmetry. apply eq_None_not_Some. intros [x Hx]. destruct (prev_n_le _ _ Hok _ _ _ Hbm Hx); lia.
Qed.

(** ** The rounds end *)

Lemma ancestors_once st h b : chain_ok st → st !! h = Some b → ∀ k s,
  Z.of_nat (s + k) <= nHeight b + 1 →
  let l := omap (λ i, prev_n st i h) (seq s k) in
  NoDup l ∧ length l = k ∧ ∀ a, a ∈ l → ∃ ba, st !! a = Some ba ∧ nHeight ba <= nHeight b - Z.of_nat s.
Proof using Type.
  intros Hok Hb. induction k as [|k IH]; intros s Hs; cbn [seq omap list_omap].
  { split_and!; [constructor|done|]. by intros a ?%elem_of_nil. }
  destruct (prev_n_height st s h b Hok Hb) as (a & ba & -> & Hba & Eh); [lia|].
  destruct (IH (S s)) as (IH1 & IH2 & IH3); [lia|]. cbn [length]. split_and!; [|by f_equal|].
  - constructor; [|done]. intros (ba' & ? & ?)%IH3. simplify_eq. lia.
  - intros x [->|(bx & ? & ?)%IH3]%elem_of_cons; [exists ba|exists bx]; (split; [done|lia]).
Qed.

Lemma height_size st h b : chain_ok st → st !! h = Some b → nHeight b < Z.of_nat (size st).
Proof using Type.
  intros Hok Hb. pose proof (ck_height _ Hok _ _ Hb) as Hh0.
  destruct (ancestors_once st h b Hok Hb (S (Z.to_nat (nHeight b))) 0) as (Hnd & Hlen & Hin); [lia|].
  set (l := omap _ _) in *. assert (Hs : list_to_set (C := gset Z) l ⊆ dom st).
  { intros a. rewrite elem_of_list_to_set, elem_of_dom. intros (ba & ? & _)%Hin. eauto. }
  apply subseteq_size in Hs. rewrite size_list_to_set, size_dom in Hs by done. lia.
Qed.

Lemma dist_size n R m : node_ok n R → is_Some (index n !! m) → (dist n m <= size (index n))%nat.
Proof using Type.
  intros Hn [bm Hbm]. pose proof (sn_chain _ _ (no_sane _ _ Hn)) as Hok.
  pose proof (height_size _ _ _ Hok Hbm). pose proof (ck_height _ Hok _ _ Hbm).
  pose proof (FindFork_correct (index n) (m_chain (node_cm n)) m bm Hok Hbm) as Hf.
  unfold dist. destruct (FindFork _ _ _) as [f|].
  - destruct Hf as [_ (j & Hj & _)]. destruct (prev_n_le _ _ Hok _ _ _ Hbm Hj) as (_ & bf & Hbf & Eh).
    pose proof (ck_height _ Hok _ _ Hbf). unfold entry_at. rewrite Hbm, Hbf. cbn [default id]. lia.
  - unfold entry_at. rewrite Hbm. cbn [default id]. lia.
Qed.

(** Failed blocks first, then the way to go. *)
Definition rounds_left n (best : option Z) : nat :=
  unfailed (index n) * (size (index n) + 2) +
  match best with Some m => dist n m | None => size (index n) + 1 end.

Lemma view_size (st st' : BlockMap) : cand_view <$> st = cand_view <$> st' → size st = size st'.
Proof using Type. intros V. apply (f_equal size) in V. by rewrite !map_size_fmap in V. Qed.

Lemma rounds_left_find n R n' m :
  node_ok n' R → worse genesis (index n) (index n') → is_Some (index n' !! m) →
  (rounds_left n' (Some m) < rounds_left n None)%nat.
Proof using Type.
  intros Hn' W Hm. unfold rounds_left. rewrite (view_size _ _ (ws_view _ _ _ W)).
  pose proof (dist_size n' R m Hn' Hm). assert (unfailed (index n') <= unfailed (index n))%nat
    by (apply unfailed_le; intros h b; by apply worse_unfailed). nia.
Qed.

Lemma rounds_left_step n n' m (invalid : bool) :
  worse genesis (index n) (index n') →
  (if invalid then (unfailed (index n') < unfailed (index n))%nat
   else unfailed (index n') = unfailed (index n) ∧ (dist n' m < dist n m)%nat) →
  (rounds_left n' (if invalid then None else Some m) < rounds_left n (Some m))%nat.
Proof using Type.
  intros W H. unfold rounds_left. rewrite (view_size _ _ (ws_view _ _ _ W)). destruct invalid; [|destruct H]; nia.
Qed.

(** ** [ActivateBestChain] *)

Section rounds.
Context (get_hash : CBlock → Z) (pblock : option CBlock).
Context (Hst : ∀ block, pblock = Some block → stored (get_hash block) block).

(** Nothing better is left. *)
Definition settled n : Prop :=
  ∀ x, usable (index n) x → ∃ t, tip n = Some t ∧ less (index n) t x = false.

Lemma target_settled n m : target n m → tip n = Some m → settled n.
Proof using Type. intros Hm Ht x Hx. exists m. split; [done|]. by apply Hm. Qed.

(** The state between rounds. *)
Record round_ok n (r : Rounds) : Prop := {
  ro_best m : pindexMostWork r = Some m → target n m;
  ro_tip : blocks_connected r = true → pindexNewTip r = tip n ∧ is_Some (tip n)
}.

(** What a round ends with. *)
Definition round_end n (r : Rounds) n' (r' : Rounds) : Prop :=
  worse genesis (index n) (index n') ∧ node_ok n' (tip n') ∧ round_ok n' r' ∧
  (blocks_connected r' = false → settled n') ∧
  (rounds_left n' (pindexMostWork r') <= rounds_left n (pindexMostWork r))%nat ∧
  (blocks_connected r' = true → blocks_connected r = false →
   (rounds_left n' (pindexMostWork r') < rounds_left n (pindexMostWork r))%nat).

(** The block to go to: the one at hand, or a new one. *)
Lemma choose_spec n s r :
  node_ok n s → round_ok n r →
  ∃ n' best, (match pindexMostWork r with None => find_most_work_chain address | Some h => mret (Some h) end) n
      = (n', inl best) ∧
    node_ok n' s ∧ worse genesis (index n) (index n') ∧ tip n' = tip n ∧
    match best with
    | Some m => target n' m ∧ (rounds_left n' (Some m) <= rounds_left n (pindexMostWork r))%nat
    | None => tip n' = None ∧ pindexMostWork r = None ∧ ∀ x, ¬ usable (index n') x
    end.
Proof using Inj0.
  intros Hn Hr. destruct (pindexMostWork r) as [m|] eqn:Em.
  { exists n, (Some m). split_and!; [done..|apply worse_refl|done|by apply Hr|done]. }
  destruct (find_spec n s Hn) as (n' & best & E & Hn' & W & Ec & Hb). exists n', best.
  split_and!; [done..|by rewrite Ec|]. destruct best as [m|].
  - split; [done|]. destruct (usable_here _ _ (tg_usable _ _ Hb)) as (b & ? & _).
    pose proof (rounds_left_find n s n' m Hn' W ltac:(eauto)). lia.
  - destruct Hb as [Ht Hno]. rewrite Ec. split_and!; [done..|]. intros x Hx. apply (Hno x).
    eapply view_usable; [apply W|apply W|done].
Qed.

Lemma node_ok_settled n R m : node_ok n R → target n m → tip n = Some m → node_ok n (tip n).
Proof using Inj0.
  intros Hn Hm Ht. pose proof (node_ok_ref n R m Hn (tg_usable _ _ Hm) (no_tip_good _ _ _ Hn Ht)) as H.
  rewrite Ht. assert (ref_max (index n) R m = Some m) as <-; [|done]. unfold ref_max.
  destruct R as [r|]; [|done]. by rewrite (tg_best _ _ Hm r (proj1 (no_ref _ _ Hn r eq_refl))).
Qed.

(** A round that goes no further. *)
Lemma round_stop n s r n1 best :
  node_ok n s → round_ok n r → node_ok n1 s → worse genesis (index n) (index n1) → tip n1 = tip n →
  match best with
  | Some m => target n1 m ∧ (rounds_left n1 (Some m) <= rounds_left n (pindexMostWork r))%nat ∧ tip n1 = Some m
  | None => tip n1 = None ∧ pindexMostWork r = None ∧ ∀ x, ¬ usable (index n1) x
  end → round_end n r n1 (mkRounds best (pindexNewTip r) (blocks_connected r)).
Proof using Inj0.
  intros Hn Hr Hn1 W Et Hb. unfold round_end. cbn [pindexMostWork pindexNewTip blocks_connected].
  split; [done|]. destruct best as [m|].
  - destruct Hb as (Hm & Hle & Ht). split; [by eapply node_ok_settled|]. split; [|split_and!; [|done|congruence]].
    + split; cbn; [by intros ? [= <-]|]. rewrite Et. apply Hr.
    + intros _. by eapply target_settled.
  - destruct Hb as (Ht & Em & Hno). assert (s = None) as ->.
    { destruct s as [x|]; [|done]. by destruct (Hno x (proj1 (no_ref _ _ Hn1 x eq_refl))). }
    rewrite Ht. split; [done|]. split; [|split_and!].
    + split; cbn; [done|]. rewrite Et. apply Hr.
    + intros _ x Hx. by apply Hno in Hx.
    + rewrite Em. unfold rounds_left. rewrite (view_size _ _ (ws_view _ _ _ W)).
      assert (unfailed (index n1) <= unfailed (index n))%nat by (apply unfailed_le; intros h b; by apply worse_unfailed). nia.
    + congruence.
Qed.

Lemma activate_round_spec fuel : ∀ n s r,
  node_ok n s → round_ok n r → (rounds_left n (pindexMostWork r) < fuel)%nat →
  match activate_round address fuel get_hash pblock s r n with
  | (_, inr (Stopped f)) => stops f
  | (_, inr OutOfFuel) => False
  | (n', inl r') => round_end n r n' r'
  end.
Proof using Inj0 Hst.
  induction fuel as [|fuel IH]; intros n s r Hn Hr Hf; [lia|]. cbn [activate_round].
  destruct (choose_spec n s r Hn Hr) as (n1 & best & E & Hn1 & W & Et & Hb).
  unfold mthen at 1, map_error at 1. rewrite E. unfold lift at 1, mthen at 1.
  destruct best as [m|]; [|by apply (round_stop n s)]. destruct Hb as [Hm Hle].
  case_bool_decide as Htm; [by apply (round_stop n s)|].
  set (given := match pblock with Some _ => _ | None => _ end).
  assert (Hg : ∀ block, given = Some block → stored m block).
  { intros block. unfold given. destruct pblock as [bl|]; [|done]. destruct (Z.eqb_spec (get_hash bl) m) as [<-|]; [|done].
    intros [= <-]. by apply Hst. }
  pose proof (ActivateBestChainStep_spec n1 s m given Hn1 Hm Htm Hg) as H. unfold mthen at 1, map_error at 1.
  destruct (ActivateBestChainStep _ _ _ n1) as [n2 [invalid|f]]; [|done].
  destruct H as (W2 & t & Ht2 & Hn2 & Hi). unfold lift, mthen. rewrite Ht2.
  set (r' := mkRounds (if invalid then None else Some m) (Some t) true).
  assert (Hr' : round_ok n2 r').
  { split; cbn; [|by rewrite Ht2; eauto]. intros m' Em. destruct invalid; [done|]. injection Em as <-. apply Hi. }
  assert (Hlt : (rounds_left n2 (pindexMostWork r') < rounds_left n (pindexMostWork r))%nat).
  { eapply Nat.lt_le_trans; [|exact Hle]. apply rounds_left_step; [done|]. destruct invalid; [done|].
    destruct Hi as (V & _ & ?). by rewrite (same_unfailed _ _ V). }
  assert (W' : worse genesis (index n) (index n2)) by (eapply worse_trans; [apply Hn|done..]).
  destruct (behind address s n2) eqn:Ebh; unfold behind in Ebh; rewrite Ht2 in Ebh.
  - destruct s as [q|]; [|done]. rewrite <- (view_less _ _ _ _ (ws_view _ _ _ W2)) in Ebh.
    unfold ref_max in Hn2. rewrite Ebh in Hn2. specialize (IH n2 (Some q) r' Hn2 Hr' ltac:(lia)).
    destruct (activate_round _ _ _ _ _ _ n2) as [n' [r''|[]]]; [|done..]. destruct IH as (W3 & H1 & H2 & H3 & H4 & _).
    split; [eapply worse_trans; [apply Hn|done..]|]. split_and!; [done|done|done|lia|lia].
  - assert (Hn2' : node_ok n2 (tip n2)).
    { rewrite Ht2. unfold ref_max in Hn2. destruct s as [q|]; [|done].
      rewrite <- (view_less _ _ _ _ (ws_view _ _ _ W2)) in Ebh. by rewrite Ebh in Hn2. }
    split; [done|]. split_and!; [done|done|done|lia|lia].
Qed.

Lemma activate_loop_spec rounds fuel : ∀ n best new_tip,
  node_ok n (tip n) → (∀ m, best = Some m → target n m) →
  (rounds_left n best < fuel)%nat → (rounds_left n best < rounds)%nat →
  match activate_loop address fuel rounds get_hash pblock best new_tip n with
  | (_, inr (Stopped f)) => stops f
  | (_, inr OutOfFuel) => False
  | (n', inl _) => worse genesis (index n) (index n') ∧ node_ok n' (tip n') ∧ settled n'
  end.
Proof using Inj0 Hst.
  induction fuel as [|fuel IH]; intros n best new_tip Hn Hb Hf Hfr; [lia|]. cbn [activate_loop].
  unfold lift, mthen at 1.
  pose proof (activate_round_spec rounds n (tip n) (mkRounds best new_tip false) Hn) as H.
  unfold mthen. cbn [pindexMostWork] in H.
  destruct (activate_round _ _ _ _ _ _ n) as [n' [r|[]]]; specialize (H ltac:(by split) Hfr); [|done..].
  destruct H as (W & Hn' & Hr & Hs & Hle & Hlt). destruct (blocks_connected r) eqn:Ec; cbn [negb]; [|by split_and!; auto].
  case_bool_decide as Et.
  - destruct (ro_tip _ _ Hr Ec) as [E [t Ht]]. rewrite E, Ht in Et. split_and!; [done..|].
    eapply target_settled; [by apply (ro_best _ _ Hr)|done].
  - specialize (Hlt eq_refl eq_refl). cbn [pindexMostWork] in *.
    specialize (IH n' (pindexMostWork r) (pindexNewTip r) Hn' (ro_best _ _ Hr) ltac:(lia) ltac:(lia)).
    destruct (activate_loop _ _ _ _ _ _ _ n') as [n2 [?|[]]]; [|done..]. destruct IH as (W2 & ? & ?).
    split; [eapply worse_trans; [apply Hn|done..]|done].
Qed.

Lemma ActivateBestChain_spec fuel n :
  node_ok n (tip n) → ((size (index n) + 1) * (size (index n) + 2) <= fuel)%nat →
  match ActivateBestChain address fuel get_hash pblock n with
  | (_, inr (Stopped f)) => stops f
  | (_, inr OutOfFuel) => False
  | (n', inl _) => worse genesis (index n) (index n') ∧ node_ok n' (tip n') ∧ settled n'
  end.
Proof using Inj0 Hst.
  intros Hn Hf. assert (Hr : (rounds_left n None < fuel)%nat).
  { unfold rounds_left. assert (unfailed (index n) <= size (index n))%nat; [|nia].
    unfold unfailed. apply map_size_filter. }
  unfold ActivateBestChain, mthen.
  pose proof (activate_loop_spec fuel fuel n None None Hn ltac:(done) Hr Hr) as H.
  destruct (activate_loop _ _ _ _ _ _ _ n) as [n' [write|[]]]; [|done..]. destruct write; [|done].
  unfold map_error, flush_state. destruct H as (W & Hn' & Hs).
  pose proof (flush_ok (index n') PERIODIC (node_ledger n') (tip n') (no_ledger _ _ Hn')) as Hl.
  destruct (flush_coins _ _) as [l [f|]]; [done|]. split; [done|]. split; [|done].
  apply (node_ok_worse n'); try done; [apply worse_refl|apply Hn'].
Qed.
End rounds.

(** When there is nothing better than the tip, the block that is given is not looked at. *)
Lemma settled_activate fuel get_hash pblock n :
  node_ok n (tip n) → settled n →
  ActivateBestChain address fuel get_hash pblock n = ActivateBestChain address fuel get_hash None n.
Proof using Inj0.
  intros Hn Hs. destruct fuel as [|fuel]; [done|]. destruct (find_spec n (tip n) Hn) as (n' & r & E & Hn' & W & Ec & Hr).
  unfold ActivateBestChain, mthen. cbn [activate_loop activate_round]. unfold lift, map_error, mthen. cbn [pindexMostWork].
  rewrite E, Ec. destruct r as [m|]; [|done]. pose proof Hr as [Hu _ Hb].
  pose proof (view_usable _ _ _ (ws_view _ _ _ W) (ws_failed _ _ _ W) Hu) as Hu0.
  destruct (Hs m Hu0) as (t & Ht & Hle). destruct (no_tip _ _ Hn t Ht) as [Hut _].
  assert (m = t) as ->; [|by rewrite Ht, bool_decide_eq_true_2].
  apply (st_total (lt := less (index n))); [|done]. rewrite (view_less _ _ _ _ (ws_view _ _ _ W)). apply Hb.
  apply (ws_good _ _ _ W); [done|]. by eapply no_tip_good.
Qed.
End activate.
