(* ===== verification/Linking.v ===== *)
(** * Acceptance adds every block that can become the tip to the candidates

    [candidates_consistent] (AcceptProps.v) says that the candidates are never corrupted; here
    is the converse, that none is missing: whatever headers and blocks arrive, a block whose
    data and that of all below it is there, that is not failed and not below the tip, is a
    candidate.  Counts of transactions do not wrap on the way, so that no block that was
    linked looks as if it were not. *)

From stdpp Require Import gmap.
From S2P Require Import Prelude OrdSet TipSet Arith256 Serialize BlockHeader Ghostdag.
From S2P Require Import BlockIndex BlockIndexProvider Pow EarlyProtection Transaction Chainman Accept BlockCheck.
From S2P Require Import Connect Replay Candidates AcceptProps Activation ActivationProps.

Local Open Scope Z_scope.

Section linking.
Context (address : Z → Z) `{!Inj (=) (=) address}.

Abbreviation less := (work_less address).
Abbreviation tip cm := (Tip (m_chain cm)).
Implicit Types (cm : ChainstateManager).

(** What is not failed was found to be connected to the genesis block. *)
Definition treed (b : CBlockIndex) : Prop := IsFailed b = true ∨ IsValid b BLOCK_VALID_TREE = true.

Lemma treed_status b b' : nStatus b' = nStatus b → treed b → treed b'.
Proof using Type. unfold treed, IsValid, IsFailed. by intros ->. Qed.

(** While the blocks of [queue] wait to be counted. *)
Record link_ok cm (queue : list Z) : Prop := {
  li_chain : chain_ok (m_block_index cm);
  li_height h b : m_block_index cm !! h = Some b → nHeight b < 2 ^ 31;
  li_cands : cands_ok address cm;
  li_queue : queue_ok cm queue;
  li_txs h b : m_block_index cm !! h = Some b → has_data b = true → 1 <= nTx b <= MAX_BLOCK_WEIGHT;
  li_count h b : m_block_index cm !! h = Some b → m_chain_tx_count b ≠ 0 →
    0 < m_chain_tx_count b <= (nHeight b + 1) * MAX_BLOCK_WEIGHT;
  li_down h b p bp : m_block_index cm !! h = Some b → pprev b = Some p → m_block_index cm !! p = Some bp →
    m_chain_tx_count b ≠ 0 → m_chain_tx_count bp ≠ 0;
  li_ready q b : q ∈ queue → m_block_index cm !! q = Some b → m_chain_tx_count b = 0 ∧
    ∀ p, pprev b = Some p → ∃ bp, m_block_index cm !! p = Some bp ∧ m_chain_tx_count bp ≠ 0;
  li_tip t : tip cm = Some t → usable (m_block_index cm) t ∧ t ∉ queue;
  li_counted x : x ∈ setBlockIndexCandidates cm → counted (m_block_index cm) x;
  li_covers x : usable (m_block_index cm) x → x ∉ queue →
    (∀ t, tip cm = Some t → less (m_block_index cm) x t = false) → x ∈ setBlockIndexCandidates cm;
  li_tree h b : m_block_index cm !! h = Some b → treed b;
  li_root h b : m_block_index cm !! h = Some b → pprev b = None → has_data b = true →
    m_chain_tx_count b ≠ 0 ∨ h ∈ queue;
  li_waits h b p bp : m_block_index cm !! h = Some b → has_data b = true → pprev b = Some p →
    m_block_index cm !! p = Some bp → m_chain_tx_count b = 0 →
    h ∈ queue ∨ (p, h) ∈ m_blocks_unlinked cm ∨ IsFailed bp = true
}.

(** ** Flags *)

Lemma IsFailed_bits b : IsFailed b = Z.testbit (nStatus b) 5 || Z.testbit (nStatus b) 6.
Proof using Type.
  unfold IsFailed. destruct (Z.testbit (nStatus b) 5 || Z.testbit (nStatus b) 6) eqn:E.
  - apply negb_true_iff, Z.eqb_neq. intros H. apply orb_true_iff in E as [E|E];
      [apply (f_equal (λ z, Z.testbit z 5)) in H|apply (f_equal (λ z, Z.testbit z 6)) in H];
      by rewrite Z.land_spec, E in H.
  - apply orb_false_iff in E as [E5 E6]. apply negb_false_iff, Z.eqb_eq, Z.bits_inj'. intros n Hn.
    change BLOCK_FAILED_MASK with (2 ^ 5 + 2 ^ 6). rewrite Z.land_spec, Z.bits_0.
    change (2 ^ 5 + 2 ^ 6) with (Z.lor (2 ^ 5) (2 ^ 6)). rewrite Z.lor_spec, !Z.pow2_bits_eqb by lia.
    destruct (Z.eqb_spec 5 n) as [<-|]; [by rewrite E5|]. destruct (Z.eqb_spec 6 n) as [<-|]; [by rewrite E6|].
    apply andb_false_r.
Qed.

Lemma raise_bit s up i :
  Z.testbit BLOCK_VALID_MASK i = false → Z.testbit up i = false → Z.testbit (RaiseValidity s up) i = Z.testbit s i.
Proof using Type.
  intros H1 H2. unfold RaiseValidity. repeat case_match; try done.
  by rewrite Z.lor_spec, Z.ldiff_spec, H1, H2, orb_false_r, andb_true_r.
Qed.

Lemma received_bit params st n b i :
  Z.testbit BLOCK_VALID_MASK i = false → Z.testbit BLOCK_VALID_TRANSACTIONS i = false →
  Z.testbit BLOCK_HAVE_DATA i = false → Z.testbit BLOCK_OPT_WITNESS i = false →
  Z.testbit (nStatus (received_entry params st n b)) i = Z.testbit (nStatus b) i.
Proof using Type.
  intros H1 H2 H3 H4. cbn [nStatus received_entry set_nStatus]. rewrite raise_bit by done.
  destruct (_ <=? _); by rewrite !Z.lor_spec, ?H4, H3, ?orb_false_r.
Qed.

Lemma raised_level s up :
  0 <= up <= BLOCK_VALID_MASK → Z.land (Z.lor (Z.ldiff s BLOCK_VALID_MASK) up) BLOCK_VALID_MASK = up.
Proof using Type.
  intros Hup. rewrite Z.land_lor_distr_l.
  replace (Z.land (Z.ldiff s BLOCK_VALID_MASK) BLOCK_VALID_MASK) with 0.
  - rewrite Z.lor_0_l. change BLOCK_VALID_MASK with (Z.ones 3). rewrite Z.land_ones by lia. apply Z.mod_small.
    unfold BLOCK_VALID_MASK in Hup. lia.
  - symmetry. apply Z.bits_inj'. intros n Hn. rewrite Z.land_spec, Z.ldiff_spec, Z.bits_0.
    by destruct (Z.testbit s n), (Z.testbit BLOCK_VALID_MASK n).
Qed.

(** Raising the validity to that of a block with its transactions or more. *)
Lemma raise_treed b s up : BLOCK_VALID_TREE <= up <= BLOCK_VALID_MASK → treed (set_nStatus (RaiseValidity s up) b).
Proof using Type.
  intros Hup. unfold treed, IsValid, IsFailed, RaiseValidity. cbn [nStatus set_nStatus].
  destruct (Z.eqb_spec (Z.land s BLOCK_FAILED_MASK) 0) as [E|E]; cbn [negb].
  2: { left. by apply negb_true_iff, Z.eqb_neq. }
  destruct (Z.ltb_spec (Z.land s BLOCK_VALID_MASK) up) as [Hlt|Hge]; [|rewrite E; right; cbn; apply Z.leb_le; lia].
  destruct (Z.eqb_spec (Z.land (Z.lor (Z.ldiff s BLOCK_VALID_MASK) up) BLOCK_FAILED_MASK) 0) as [E'|]; cbn [negb];
    [right|by left]. rewrite raised_level by (unfold BLOCK_VALID_TREE in Hup; lia). apply Z.leb_le, Hup.
Qed.

(** What is below a block that is counted is counted. *)
Lemma counted_below cm queue k : link_ok cm queue → ∀ h b a ba,
  m_block_index cm !! h = Some b → m_chain_tx_count b ≠ 0 → prev_n (m_block_index cm) k h = Some a →
  m_block_index cm !! a = Some ba → m_chain_tx_count ba ≠ 0.
Proof using Type.
  intros Hl. induction k as [|k IH]; intros h b a ba Hb Hc; [intros [= <-]; congruence|].
  intros (b2 & p & Hb2 & Hp & Ha)%prev_n_S Hba. assert (b2 = b) as -> by congruence.
  destruct (ck_prev _ (li_chain _ _ Hl) _ _ _ Hb Hp) as (bp & Hbp & _).
  apply (IH p bp a ba); [done| |done|done]. by apply (li_down _ _ Hl h b p bp).
Qed.

Lemma TryAdd_intro st v cands h x :
  (x = h ∧ ∀ t, Tip v = Some t → less st h t = false) ∨ x ∈ cands →
  x ∈ TryAddBlockIndexCandidate address st v cands h.
Proof using Inj0.
  unfold TryAddBlockIndexCandidate. intros [[-> H]|H]; destruct (Tip v) as [t|].
  - rewrite (H t eq_refl). apply (elem_of_set_emplace _). by left.
  - apply (elem_of_set_emplace _). by left.
  - destruct (less st h t); [done|]. apply (elem_of_set_emplace _). by right.
  - apply (elem_of_set_emplace _). by right.
Qed.

Lemma waiting_elem cm h x : x ∈ waiting cm h → (h, x) ∈ m_blocks_unlinked cm.
Proof using Type.
  intros ([p y] & -> & [Hp Hin]%list_elem_of_filter)%list_elem_of_fmap. cbn [fst snd] in *. by subst.
Qed.

(** ** One block is counted *)

Section link_step.
Context cm (h : Z) (queue : list Z) (b : CBlockIndex).
Context (Hl : link_ok cm (h :: queue)) (Hb : m_block_index cm !! h = Some b).

#[local] Abbreviation st := (m_block_index cm).
#[local] Abbreviation st' := (m_block_index (linked address cm h b)).
#[local] Abbreviation count := (prev_tx_sum st b).

Lemma step_data : has_data b = true.
Proof using Hl Hb.
  destruct (proj1 (li_queue _ _ Hl) h) as [Hc _]; [by left|]. destruct (complete_data _ _ Hc) as (b2 & Hb2 & Hd). congruence.
Qed.

Lemma step_count : 0 < count <= (nHeight b + 1) * MAX_BLOCK_WEIGHT.
Proof using Hl Hb.
  pose proof (li_txs _ _ Hl _ _ Hb step_data) as Htx. pose proof (li_height _ _ Hl _ _ Hb) as Hh.
  destruct (li_ready _ _ Hl h b) as [_ Hr]; [by left|done|]. unfold prev_tx_sum.
  destruct (pprev b) as [p|] eqn:Hp; cbn [mbind option_bind].
  - destruct (Hr p eq_refl) as (bp & Hbp & Hc). rewrite Hbp. pose proof (li_count _ _ Hl _ _ Hbp Hc) as Hbd.
    destruct (ck_prev _ (li_chain _ _ Hl) _ _ _ Hb Hp) as (bp2 & Hbp2 & Eh). assert (bp2 = bp) as -> by congruence.
    rewrite Eh in Hbd. unfold MAX_BLOCK_WEIGHT in *. rewrite wrap_small by (unfold fits; lia). lia.
  - pose proof (ck_root _ (li_chain _ _ Hl) _ _ Hb Hp). unfold MAX_BLOCK_WEIGHT in *. rewrite wrap_small by (unfold fits; lia). lia.
Qed.

Lemma step_lookup x : x ≠ h → st' !! x = st !! x.
Proof using Type. apply linked_lookup. Qed.

Lemma step_here : st' !! h = Some (set_counts (nTx b) count (nBlockSequenceId cm) b).
Proof using Type. apply lookup_insert_eq. Qed.

Lemma step_links : links <$> st = links <$> st'.
Proof using Hb. by apply (fmap_insert_same _ _ _ b). Qed.

Lemma step_entry x c' : st' !! x = Some c' → ∃ c, st !! x = Some c ∧ nHeight c' = nHeight c ∧ pprev c' = pprev c ∧
  has_data c' = has_data c ∧ nTx c' = nTx c ∧ nStatus c' = nStatus c ∧
  (x = h ∧ m_chain_tx_count c' = count ∨ x ≠ h ∧ c' = c).
Proof using Hb.
  intros Hc'. destruct (decide (x = h)) as [->|Hne].
  - rewrite step_here in Hc'. injection Hc' as <-. exists b. split_and!; try done. by left.
  - rewrite step_lookup in Hc' by done. exists c'. split_and!; try done. by right.
Qed.

Lemma step_usable x : usable st x → usable st' x.
Proof using Hl Hb.
  intros Hx k a Ha. rewrite <- (prev_n_links _ _ k step_links) in Ha. destruct (Hx k a Ha) as (c & Hc & H1 & H2 & H3).
  destruct (decide (a = h)) as [->|Hne].
  - rewrite step_here. eexists. split; [done|]. assert (c = b) as -> by congruence. split_and!; try done.
    left. cbn [m_chain_tx_count set_counts]. pose proof step_count. lia.
  - rewrite step_lookup by done. by exists c.
Qed.

(** A usable block other than the one that is counted was usable. *)
Lemma step_usable_back x : x ≠ h → usable st' x → usable st x.
Proof using Hl Hb.
  intros Hne Hx k a Ha. pose proof Ha as Ha'. rewrite (prev_n_links _ _ k step_links) in Ha'.
  destruct (Hx k a Ha') as (c' & Hc' & H1 & H2 & H3). destruct (decide (a = h)) as [->|Hna].
  - exfalso. destruct k as [|k]; [by injection Ha as ->|].
    destruct (usable_here _ _ Hx) as (c & Hc & _ & _ & Hcnt). rewrite step_lookup in Hc by done.
    destruct (li_ready _ _ Hl h b) as [Hz _]; [by left|done|].
    destruct Hcnt as [Hcnt|H0]; [by apply (counted_below cm _ (S k) Hl x c h b Hc Hcnt Ha Hb)|].
    destruct (prev_n_le _ _ (li_chain _ _ Hl) _ _ _ Hc Ha). lia.
  - rewrite step_lookup in Hc' by done. by exists c'.
Qed.

Lemma step_less x y : x ≠ h → y ≠ h → less st' x y = less st x y.
Proof using Type. intros Hx Hy. apply work_less_keys; by rewrite step_lookup. Qed.

Lemma step_counted x : x ≠ h → counted st x → counted st' x.
Proof using Hl Hb.
  intros Hne Hx k a c Ha Hc. rewrite <- (prev_n_links _ _ k step_links) in Ha. destruct (decide (a = h)) as [->|Hna].
  - rewrite step_here in Hc. injection Hc as <-. left. cbn [m_chain_tx_count set_counts]. pose proof step_count. lia.
  - rewrite step_lookup in Hc by done. by apply (Hx k a c).
Qed.

Lemma step_waiting x :
  x ∈ waiting cm h → x ≠ h ∧ ∃ c, st !! x = Some c ∧ pprev c = Some h ∧ m_chain_tx_count c = 0.
Proof using Hl Hb.
  intros Hx%waiting_elem. destruct (co_waiting _ _ (li_cands _ _ Hl) h x Hx) as (_ & (c & Hc & _ & Hp) & _).
  destruct (li_ready _ _ Hl h b) as [Hz _]; [by left|done|]. split.
  - intros ->. apply (NoDup_cons_1_1 _ _ (proj2 (li_queue _ _ Hl))), elem_of_app. right. apply list_elem_of_fmap. by exists (h, h).
  - exists c. split_and!; [done..|]. destruct (decide (m_chain_tx_count c = 0)); [done|]. by destruct (li_down _ _ Hl x c h b).
Qed.

Lemma step_queued x : x ∈ queue → x ≠ h.
Proof using Hl. intros Hx ->. apply (NoDup_cons_1_1 _ _ (proj2 (li_queue _ _ Hl))), elem_of_app. by left. Qed.

Lemma step_down x c' p bp' :
  st' !! x = Some c' → pprev c' = Some p → st' !! p = Some bp' → m_chain_tx_count c' ≠ 0 → m_chain_tx_count bp' ≠ 0.
Proof using Hl Hb.
  intros Hc' Hp Hbp' Hn. destruct (step_entry x c' Hc') as (c & Hc & _ & Ep & _ & _ & _ & Hcase).
  destruct (step_entry p bp' Hbp') as (bp & Hbp & _ & _ & _ & _ & _ & [[-> E]|[Hph ->]]);
    [pose proof step_count; lia|]. rewrite Ep in Hp.
  destruct Hcase as [[-> _]|[_ ->]]; [|by apply (li_down _ _ Hl x c p)].
  assert (c = b) as -> by congruence. destruct (li_ready _ _ Hl h b) as [_ Hr]; [by left|done|].
  destruct (Hr p Hp) as (bp2 & Hbp2 & ?). congruence.
Qed.

Lemma step_ready x c' : x ∈ queue ++ waiting cm h → st' !! x = Some c' → m_chain_tx_count c' = 0 ∧
  ∀ p, pprev c' = Some p → ∃ bp, st' !! p = Some bp ∧ m_chain_tx_count bp ≠ 0.
Proof using Hl Hb.
  intros [Hx|Hx]%elem_of_app Hc'.
  - rewrite step_lookup in Hc' by (by apply step_queued). destruct (li_ready _ _ Hl x c') as [H0 Hr]; [by right|done|].
    split; [done|]. intros p Hp. destruct (Hr p Hp) as (bp & Hbp & Hcp). exists bp. rewrite step_lookup; [done|].
    intros ->. destruct (li_ready _ _ Hl h b) as [Hz _]; [by left|done|]. congruence.
  - destruct (step_waiting x Hx) as (Hne & c & Hc & Hp & Hz). rewrite step_lookup in Hc' by done.
    assert (c' = c) as -> by congruence. split; [done|]. intros q Hq. assert (q = h) as -> by congruence.
    rewrite step_here. eexists. split; [done|]. cbn [m_chain_tx_count set_counts]. pose proof step_count. lia.
Qed.

Lemma step_tip t : tip cm = Some t → usable st' t ∧ t ∉ queue ++ waiting cm h.
Proof using Hl Hb.
  intros Ht. destruct (li_tip _ _ Hl t Ht) as [Hu Hnt]. split; [by apply step_usable|]. intros [Hx|Hx]%elem_of_app.
  - apply Hnt. by right.
  - destruct (step_waiting t Hx) as (_ & c & Hc & Hp & Hz). destruct (usable_here _ _ Hu) as (c2 & Hc2 & _ & _ & Hct).
    assert (c2 = c) as -> by congruence. destruct Hct as [?|H0]; [done|].
    destruct (ck_prev _ (li_chain _ _ Hl) _ _ _ Hc Hp) as (b2 & Hb2 & Eh). pose proof (ck_height _ (li_chain _ _ Hl) _ _ Hb2). lia.
Qed.

Lemma step_counted_here : counted st' h.
Proof using Hl Hb.
  intros k a c Ha Hc. pose proof step_count as Hcnt. rewrite <- (prev_n_links _ _ k step_links) in Ha.
  destruct (step_entry a c Hc) as (c0 & Hc0 & _ & _ & _ & _ & _ & [[-> ->]|[Hne ->]]); [left; lia|left].
  destruct k as [|k]; [by injection Ha as ->|]. apply prev_n_S in Ha as (b2 & p & Hb2 & Hp & Ha).
  assert (b2 = b) as -> by congruence. destruct (li_ready _ _ Hl h b) as [_ Hr]; [by left|done|].
  destruct (Hr p Hp) as (bp & Hbp & Hcp). by apply (counted_below cm _ k Hl p bp a).
Qed.

Lemma step_covers x :
  usable st' x → x ∉ queue ++ waiting cm h → (∀ t, tip cm = Some t → less st' x t = false) →
  x ∈ setBlockIndexCandidates (linked address cm h b).
Proof using Hl Hb Inj0.
  intros Hu Hq Ht. apply TryAdd_intro. destruct (decide (x = h)) as [->|Hne]; [by left|right].
  apply (li_covers _ _ Hl); [by apply step_usable_back| |].
  - intros [->|Hx]%elem_of_cons; [done|]. apply Hq, elem_of_app. by left.
  - intros t Htt. destruct (li_tip _ _ Hl t Htt) as [_ Hnt]. rewrite <- (step_less x t); [by apply Ht|done|].
    intros ->. apply Hnt. by left.
Qed.

Lemma step_waits x c' p bp' :
  st' !! x = Some c' → has_data c' = true → pprev c' = Some p → st' !! p = Some bp' → m_chain_tx_count c' = 0 →
  x ∈ queue ++ waiting cm h ∨ (p, x) ∈ m_blocks_unlinked (linked address cm h b) ∨ IsFailed bp' = true.
Proof using Hl Hb.
  intros Hc' Hd Hp Hbp' Hz. destruct (step_entry x c' Hc') as (c & Hc & _ & Ep & Ed & _ & _ & [[-> E]|[Hne ->]]).
  { pose proof step_count. lia. }
  destruct (step_entry p bp' Hbp') as (bp & Hbp & _ & _ & _ & _ & Es & _).
  destruct (li_waits _ _ Hl x c p bp Hc Hd Hp Hbp Hz) as [Hx|[Hx|Hx]].
  - apply elem_of_cons in Hx as [?|Hx]; [done|]. left. apply elem_of_app. by left.
  - destruct (decide (p = h)) as [->|Hph].
    + left. apply elem_of_app. right. apply list_elem_of_fmap. exists (h, x). split; [done|]. by apply list_elem_of_filter.
    + right. left. by apply list_elem_of_filter.
  - right. right. unfold IsFailed in *. by rewrite Es.
Qed.
End link_step.

Lemma linked_link_ok cm h queue b :
  link_ok cm (h :: queue) → m_block_index cm !! h = Some b →
  link_ok (linked address cm h b) (queue ++ waiting cm h).
Proof using Inj0.
  intros Hl Hb. pose proof (step_entry cm h b Hb) as Hentry. split.
  - apply (chain_ok_links (m_block_index cm)); [by apply step_links|apply Hl].
  - intros x c' Hc'. destruct (Hentry x c' Hc') as (c & Hc & -> & _). by eapply (li_height _ _ Hl).
  - by apply (linked_ok address cm h queue b); try apply Hl.
  - by apply (linked_queue address cm h queue b); try apply Hl.
  - intros x c' Hc' Hd. destruct (Hentry x c' Hc') as (c & Hc & _ & _ & Ed & -> & _). apply (li_txs _ _ Hl x c Hc). congruence.
  - intros x c' Hc' Hn. destruct (Hentry x c' Hc') as (c & Hc & -> & _ & _ & _ & _ & [[-> ->]|[_ ->]]).
    + assert (c = b) as -> by congruence. by apply (step_count cm h queue).
    + by apply (li_count _ _ Hl x c).
  - by apply (step_down cm h queue).
  - by apply (step_ready cm h queue).
  - by apply (step_tip cm h queue).
  - intros x Hx. destruct (decide (x = h)) as [->|Hne]; [by eapply step_counted_here|].
    eapply step_counted; [done..|]. apply (TryAdd_elem address) in Hx as [?|?]; [done|]. by apply (li_counted _ _ Hl).
  - by apply (step_covers cm h queue).
  - intros x c' Hc'. destruct (Hentry x c' Hc') as (c & Hc & _ & _ & _ & _ & Es & _).
    apply (treed_status c); [done|]. by apply (li_tree _ _ Hl x).
  - intros x c' Hc' Hp Hd. destruct (Hentry x c' Hc') as (c & Hc & _ & _ & _ & _ & _ & [[-> ->]|[Hne ->]]).
    + left. assert (c = b) as -> by congruence. pose proof (step_count cm h queue b Hl Hb). lia.
    + destruct (li_root _ _ Hl x c Hc Hp Hd) as [?|[?|Hx]%elem_of_cons]; [by left|done|right]. apply elem_of_app. by left.
  - by apply (step_waits cm h queue).
Qed.

(** Every block of the queue is counted. *)
Lemma link_loop_link_ok fuel : ∀ cm queue,
  (length queue + length (m_blocks_unlinked cm) <= fuel)%nat → link_ok cm queue →
  link_ok (link_loop address fuel cm queue) [] ∧ m_chain (link_loop address fuel cm queue) = m_chain cm.
Proof using Inj0.
  induction fuel as [|fuel IH]; intros cm queue Hf Hl; destruct queue as [|h queue]; [done|cbn in Hf; lia|done|].
  cbn [link_loop]. destruct (proj1 (li_queue _ _ Hl) h) as [Hc _]; [by left|].
  destruct (complete_data _ _ Hc) as (b & Hb & _). rewrite Hb. cbv zeta.
  apply (IH (linked address cm h b) (queue ++ waiting cm h)); [|by apply linked_link_ok].
  cbn [m_blocks_unlinked linked with_candidates length] in *. unfold waiting. rewrite length_app, length_fmap.
  pose proof (Permutation_length (filter_app_complement (λ e : Z * Z, e.1 = h) (m_blocks_unlinked cm))) as Hlen.
  rewrite length_app in Hlen. lia.
Qed.

(** ** A block receives its data *)

Section receive.
Context (params : Params) cm (hash n : Z) (b : CBlockIndex).
Context (Hl : link_ok cm []) (Hb : m_block_index cm !! hash = Some b) (Hd : has_data b = false).
Context (Hn : 1 <= n <= MAX_BLOCK_WEIGHT).

#[local] Abbreviation st := (m_block_index cm).
#[local] Abbreviation e := (received_entry params st n b).
Definition received : ChainstateManager := with_index cm (<[hash := e]> st).
#[local] Abbreviation st' := (m_block_index received).

Lemma recv_fresh :
  hash ∉ setBlockIndexCandidates cm ∧ hash ∉ (m_blocks_unlinked cm).*2 ∧ m_chain_tx_count b = 0.
Proof using Hl Hb Hd. apply (no_data_fresh address); [apply Hl|done|done]. Qed.

Lemma recv_count : m_chain_tx_count e = 0.
Proof using Hl Hb Hd. destruct recv_fresh as (_ & _ & Hz). cbn. rewrite Hz. done. Qed.

Lemma recv_here : st' !! hash = Some e.
Proof using Type. apply lookup_insert_eq. Qed.

Lemma recv_lookup x : x ≠ hash → st' !! x = st !! x.
Proof using Type. intros Hne. by apply lookup_insert_ne. Qed.

Lemma recv_links : links <$> st = links <$> st'.
Proof using Hb. by apply (fmap_insert_same _ _ _ b). Qed.

Lemma recv_chain : chain_ok st'.
Proof using Hl Hb. apply (chain_ok_links st); [apply recv_links|apply Hl]. Qed.

Lemma recv_less x y : less st' x y = less st x y.
Proof using Hb.
  assert (H : sort_key <$> st = sort_key <$> st') by (by apply (fmap_insert_same _ _ _ b)).
  symmetry. apply work_less_keys; [apply (f_equal (.!! x)) in H|apply (f_equal (.!! y)) in H]; by rewrite !lookup_fmap in H.
Qed.

Lemma recv_entry x c' : st' !! x = Some c' → ∃ c, st !! x = Some c ∧ nHeight c' = nHeight c ∧ pprev c' = pprev c ∧
  m_chain_tx_count c' = m_chain_tx_count c ∧ (x = hash ∧ c' = e ∨ x ≠ hash ∧ c' = c).
Proof using Hl Hb Hd.
  intros Hc'. destruct (decide (x = hash)) as [->|Hne].
  - rewrite recv_here in Hc'. injection Hc' as <-. exists b. destruct recv_fresh as (_ & _ & Hz).
    rewrite recv_count, Hz. split_and!; try done. by left.
  - rewrite recv_lookup in Hc' by done. exists c'. split_and!; try done. by right.
Qed.

Lemma recv_usable x : usable st x → usable st' x.
Proof using Hb Hd.
  intros Hx k a Ha. rewrite <- (prev_n_links _ _ k recv_links) in Ha. destruct (Hx k a Ha) as (c & Hc & Hu).
  exists c. rewrite recv_lookup; [done|]. intros ->. destruct Hu as [? _]. congruence.
Qed.

Lemma recv_usable_back x : x ≠ hash → usable st' x → usable st x.
Proof using Hl Hb Hd.
  intros Hne Hx k a Ha. pose proof Ha as Ha'. rewrite (prev_n_links _ _ k recv_links) in Ha'.
  destruct (Hx k a Ha') as (c' & Hc' & Hu). destruct (decide (a = hash)) as [->|Hna].
  - exfalso. destruct k as [|k]; [by injection Ha as ->|].
    destruct (usable_here _ _ Hx) as (c & Hc & _ & _ & Hcnt). rewrite recv_lookup in Hc by done.
    destruct Hcnt as [Hcnt|H0].
    + destruct (co_counted _ _ (li_cands _ _ Hl) x c Hc Hcnt _ _ Ha) as (b2 & Hb2 & Hd2). congruence.
    + destruct (prev_n_le _ _ (li_chain _ _ Hl) _ _ _ Hc Ha). lia.
  - rewrite recv_lookup in Hc' by done. by exists c'.
Qed.

Lemma recv_cands : cands_ok address received.
Proof using Hl Hb Hd.
  assert (Hk : keeps st st') by (apply (keeps_insert _ _ b); [done|done|left; destruct recv_fresh as (_ & _ & ->); apply recv_count|congruence]).
  apply (cands_ok_keeps address cm received); [apply Hl|done|done|done|apply (li_cands _ _ Hl)|apply Hl].
Qed.

Lemma recv_failed : IsFailed e = IsFailed b.
Proof using Type. rewrite !IsFailed_bits. by rewrite !received_bit. Qed.

(** It is not usable before it is counted, unless it is the root. *)
Lemma recv_root : usable st' hash → pprev b = None.
Proof using Hl Hb Hd.
  intros Hu. destruct (usable_here _ _ Hu) as (c & Hc & _ & _ & Hcnt). rewrite recv_here in Hc. injection Hc as <-.
  rewrite recv_count in Hcnt. destruct Hcnt as [?|Hh]; [done|]. change (nHeight e) with (nHeight b) in Hh.
  destruct (pprev b) as [p|] eqn:Hp; [|done]. destruct (ck_prev _ (li_chain _ _ Hl) _ _ _ Hb Hp) as (bp & Hbp & Eh).
  pose proof (ck_height _ (li_chain _ _ Hl) _ _ Hbp). lia.
Qed.

(** Before it is queued, or when it is not; [cm'] is [received] but for the blocks that
    wait. *)
Lemma recv_link cm' queue :
  m_block_index cm' = st' → m_chain cm' = m_chain cm → setBlockIndexCandidates cm' = setBlockIndexCandidates cm →
  (∀ x, x ∈ m_blocks_unlinked cm → x ∈ m_blocks_unlinked cm') → cands_ok address cm' → queue_ok cm' queue →
  (∀ x, x ∈ queue → x = hash) → (hash ∈ queue ∨ pprev b ≠ None) →
  (∀ p bp, pprev b = Some p → st !! p = Some bp →
     hash ∈ queue ∧ m_chain_tx_count bp ≠ 0 ∨ hash ∉ queue ∧ ((p, hash) ∈ m_blocks_unlinked cm' ∨ IsFailed bp = true)) →
  link_ok cm' queue.
Proof using Hl Hb Hd Hn.
  intros Ei Ec Es Hu Hcands Hqok Hq Hroot Hwait. destruct recv_fresh as (Hf1 & Hf2 & Hz).
  pose proof (li_chain _ _ Hl) as Hok. split; rewrite ?Ei, ?Ec, ?Es.
  - apply recv_chain.
  - intros x c' Hc'. destruct (recv_entry x c' Hc') as (c & Hc & -> & _). by eapply (li_height _ _ Hl).
  - done.
  - done.
  - intros x c' Hc' Hdat. destruct (recv_entry x c' Hc') as (c & Hc & _ & _ & _ & [[-> ->]|[_ ->]]); [done|].
    by apply (li_txs _ _ Hl x c).
  - intros x c' Hc' Hcnt. destruct (recv_entry x c' Hc') as (c & Hc & -> & _ & E & _). rewrite E in *.
    by apply (li_count _ _ Hl x c).
  - intros x c' p bp' Hc' Hp Hbp' Hcnt. destruct (recv_entry x c' Hc') as (c & Hc & _ & Ep & E & _).
    destruct (recv_entry p bp' Hbp') as (bp & Hbp & _ & _ & -> & _). rewrite Ep in Hp. rewrite E in Hcnt.
    by apply (li_down _ _ Hl x c p bp).
  - intros x c' Hx Hc'. pose proof (Hq x Hx) as ->. rewrite recv_here in Hc'. injection Hc' as <-.
    split; [apply recv_count|]. intros p Hp. destruct (ck_prev _ Hok _ _ _ Hb Hp) as (bp & Hbp & _).
    destruct (Hwait p bp Hp Hbp) as [[_ Hc]|[? _]]; [|done]. exists bp. rewrite recv_lookup; [done|]. intros ->. congruence.
  - intros t Ht. destruct (li_tip _ _ Hl t Ht) as [Hut _]. split; [by apply recv_usable|]. intros Hx. rewrite (Hq t Hx) in Hut.
    destruct (usable_here _ _ Hut) as (c & Hc & Hdat & _). congruence.
  - intros x Hx k a c' Ha Hc'. rewrite <- (prev_n_links _ _ k recv_links) in Ha.
    destruct (recv_entry a c' Hc') as (c & Hc & -> & _ & -> & _). by apply (li_counted _ _ Hl x Hx k a c).
  - intros x Hux Hx Ht. apply (li_covers _ _ Hl); [|apply not_elem_of_nil|intros t Htt; rewrite <- recv_less; by apply Ht].
    apply recv_usable_back; [|done]. intros ->. pose proof (recv_root Hux). by destruct Hroot.
  - intros x c' Hc'. destruct (recv_entry x c' Hc') as (c & Hc & _ & _ & _ & [[-> ->]|[_ ->]]);
      [by apply raise_treed|by apply (li_tree _ _ Hl x)].
  - intros x c' Hc' Hp Hdat. destruct (recv_entry x c' Hc') as (c & Hc & _ & Ep & E & [[-> ->]|[_ ->]]).
    + destruct Hroot as [?|Hr]; [by right|]. rewrite Ep in Hp. congruence.
    + destruct (li_root _ _ Hl x c Hc Hp Hdat) as [?|?%elem_of_nil]; [by left|done].
  - intros x c' p bp' Hc' Hdat Hp Hbp' Hcnt. destruct (recv_entry x c' Hc') as (c & Hc & _ & Ep & E & Hx).
    destruct (recv_entry p bp' Hbp') as (bp & Hbp & _ & _ & _ & Hpx). rewrite Ep in Hp.
    assert (Hfp : IsFailed bp' = IsFailed bp) by (destruct Hpx as [[-> ->]|[_ ->]]; [|done];
      assert (bp = b) as -> by congruence; apply recv_failed).
    rewrite Hfp. destruct Hx as [[-> ->]|[_ ->]].
    + assert (c = b) as -> by congruence. destruct (Hwait p bp Hp Hbp) as [[? _]|[_ ?]]; auto.
    + destruct (li_waits _ _ Hl x c p bp Hc Hdat Hp Hbp) as [?%elem_of_nil|[?|?]]; [congruence|done|auto..].
Qed.

Lemma Received_link_ok :
  link_ok (ReceivedBlockTransactions params address cm hash n) [] ∧
  m_chain (ReceivedBlockTransactions params address cm hash n) = m_chain cm.
Proof using Hl Hb Hd Hn Inj0.
  pose proof (Received_cands address params cm hash n b (li_chain _ _ Hl) (li_cands _ _ Hl) Hb Hd) as Hc.
  destruct recv_fresh as (Hf1 & Hf2 & Hz). pose proof (co_once _ _ (li_cands _ _ Hl)) as Hone.
  revert Hc. unfold ReceivedBlockTransactions. rewrite Hb. cbv zeta. fold received.
  assert (Hlink : complete st' hash → (∀ p bp, pprev b = Some p → st !! p = Some bp → m_chain_tx_count bp ≠ 0) →
    link_ok (link_loop address (S (length (m_blocks_unlinked cm))) received [hash]) [] ∧
    m_chain (link_loop address (S (length (m_blocks_unlinked cm))) received [hash]) = m_chain cm).
  { intros H1 H2. assert (Hin : hash ∈ [hash]) by (by apply list_elem_of_singleton).
    apply (link_loop_link_ok _ received [hash]); [cbn; lia|]. apply recv_link; try done; [apply recv_cands| | |by left|by eauto].
    - split; [by intros x ->%list_elem_of_singleton|]. by constructor.
    - by intros x ->%list_elem_of_singleton. }
  change (pprev e) with (pprev b). intros Hc.
  destruct (pprev b) as [p|] eqn:Hp; [|by apply Hlink; [apply (complete_root _ _ e); [apply recv_here|done|apply received_has_data]|]].
  destruct (ck_prev _ (li_chain _ _ Hl) _ _ _ Hb Hp) as (bp & Hbp & Eh).
  assert (Hph : p ≠ hash) by (intros ->; assert (bp = b) as -> by congruence; lia).
  rewrite recv_lookup, Hbp in * by done. destruct (Z.eqb_spec (m_chain_tx_count bp) 0) as [Hz'|Hnz]; cbn [negb] in *.
  2: { apply Hlink.
    - apply (complete_child _ _ e p); [apply recv_here|done|apply received_has_data|].
      apply (co_counted _ _ recv_cands p bp); [by rewrite recv_lookup|done].
    - congruence. }
  assert (Hnone : ∀ cm', m_block_index cm' = st' → m_chain cm' = m_chain cm →
    setBlockIndexCandidates cm' = setBlockIndexCandidates cm → (∀ x, x ∈ m_blocks_unlinked cm → x ∈ m_blocks_unlinked cm') →
    cands_ok address cm' → ((p, hash) ∈ m_blocks_unlinked cm' ∨ IsFailed bp = true) → link_ok cm' []).
  { intros cm' H1 H2 H3 H4 H5 H6. apply recv_link; try done; [|by intros x ?%elem_of_nil|right; congruence|].
    - split; [by intros x ?%elem_of_nil|]. apply (co_once _ _ H5).
    - intros q bq Hq Hbq. right. split; [apply not_elem_of_nil|]. by replace bq with bp by congruence; replace q with p by congruence. }
  destruct (IsValid bp BLOCK_VALID_TREE) eqn:Hv; (split; [|done]).
  - apply Hnone; try done.
    + intros x Hx. cbn [m_blocks_unlinked with_candidates]. apply elem_of_app. by left.
    + left. cbn [m_blocks_unlinked with_candidates]. apply elem_of_app. right. by apply list_elem_of_singleton.
  - apply Hnone; try done. right. destruct (li_tree _ _ Hl p bp Hbp); congruence.
Qed.
End receive.

(** ** Changes that come with no data *)

(** A block is above one that was failed, or above a failed one without data. *)
Definition blamed (st st' : BlockMap) (h : Z) : Prop := ∃ k a c,
  prev_n st' k h = Some a ∧ (st !! a = Some c ∧ IsFailed c = true ∨
  st' !! a = Some c ∧ IsFailed c = true ∧ has_data c = false).

(** Entries keep what linking depends on, blocks that are usable stay so, and every block
    that is failed is so for a reason. *)
Record mild (st st' : BlockMap) : Prop := {
  md_old h b : st !! h = Some b → ∃ b', st' !! h = Some b' ∧ links b' = links b ∧ has_data b' = has_data b ∧
    nTx b' = nTx b ∧ m_chain_tx_count b' = m_chain_tx_count b ∧ has_undo b' = has_undo b ∧
    (IsFailed b = true → IsFailed b' = true) ∧ (has_data b = true → sort_key b' = sort_key b);
  md_new h b' : st !! h = None → st' !! h = Some b' →
    has_data b' = false ∧ m_chain_tx_count b' = 0 ∧ has_undo b' = false;
  md_usable x : usable st x → usable st' x;
  md_blame h b' : st' !! h = Some b' → IsFailed b' = true → blamed st st' h;
  md_tree : (∀ h b, st !! h = Some b → treed b) → ∀ h b, st' !! h = Some b → treed b
}.

Lemma mild_extends st st' : mild st st' → extends st st'.
Proof using Type. intros H h b Hb. destruct (md_old _ _ H h b Hb) as (b' & ? & ? & _). eauto. Qed.

Lemma blamed_here st st' h b : st !! h = Some b → IsFailed b = true → blamed st st' h.
Proof using Type. intros Hb Hf. exists 0%nat, h, b. auto. Qed.

Lemma mild_refl st : mild st st.
Proof using Type.
  split; [|congruence|done| |done].
  - intros h b Hb. exists b. by split_and!.
  - intros h b. apply blamed_here.
Qed.

Lemma mild_trans st1 st2 st3 : chain_ok st2 → mild st1 st2 → mild st2 st3 → mild st1 st3.
Proof using Type.
  intros Hok M1 M2. pose proof (mild_extends _ _ M2) as E2. split.
  - intros h b Hb. destruct (md_old _ _ M1 h b Hb) as (b2 & Hb2 & A1 & A2 & A3 & A4 & A5 & A6 & A7).
    destruct (md_old _ _ M2 h b2 Hb2) as (b3 & Hb3 & B1 & B2 & B3 & B4 & B5 & B6 & B7). exists b3.
    split_and!; try congruence; [by auto|]. intros Hd. rewrite B7, A7; congruence.
  - intros h b3 Hn Hb3. destruct (st2 !! h) as [b2|] eqn:Hb2; [|by apply (md_new _ _ M2 h)].
    destruct (md_new _ _ M1 h b2 Hn Hb2) as (A1 & A2 & A3).
    destruct (md_old _ _ M2 h b2 Hb2) as (b3' & Hb3' & _ & B2 & _ & B4 & B5 & _).
    assert (b3' = b3) as -> by congruence. split_and!; congruence.
  - intros x Hx. by apply (md_usable _ _ M2), (md_usable _ _ M1).
  - intros h b3 Hb3 Hf. destruct (md_blame _ _ M2 h b3 Hb3 Hf) as (k & a & c & Hk & [[Hc Hcf]|Hc]); [|exists k, a, c; by auto].
    destruct (md_blame _ _ M1 a c Hc Hcf) as (j & r & d & Hj & Hr). exists (k + j)%nat, r.
    assert (Hkj : prev_n st3 (k + j) h = Some r) by (rewrite prev_n_add, Hk; cbn; by rewrite (extends_prev_n st2 st3) by eauto).
    destruct Hr as [Hr|(Hd & Hdf & Hdd)]; [exists d; by auto|].
    destruct (md_old _ _ M2 r d Hd) as (d3 & Hd3 & _ & D2 & _ & _ & _ & D6 & _). exists d3. split; [done|].
    right. split_and!; [done|by auto|congruence].
  - intros H. by apply (md_tree _ _ M2), (md_tree _ _ M1).
Qed.

(** One entry without data changes. *)
Lemma mild_insert st h b b' :
  st !! h = Some b → has_data b = false → links b' = links b → has_data b' = false → nTx b' = nTx b →
  m_chain_tx_count b' = m_chain_tx_count b → has_undo b' = has_undo b → (IsFailed b = true → IsFailed b' = true) →
  (treed b → treed b') → mild st (<[h := b']> st).
Proof using Type.
  intros Hb Hd H1 H2 H3 H4 H5 H6 H7.
  assert (Hlk : links <$> st = links <$> <[h := b']> st) by (by apply (fmap_insert_same _ _ _ b)). split.
  - intros g c Hg. destruct (decide (g = h)) as [->|Hne].
    + rewrite lookup_insert_eq. assert (c = b) as -> by congruence. exists b'. split_and!; congruence || auto.
    + rewrite lookup_insert_ne by done. exists c. by split_and!.
  - intros g c' Hn Hg. rewrite lookup_insert_ne in Hg by congruence. congruence.
  - intros x Hx k a Ha. rewrite <- (prev_n_links _ _ k Hlk) in Ha. destruct (Hx k a Ha) as (c & Hc & Hu).
    exists c. rewrite lookup_insert_ne; [done|]. intros ->. destruct Hu as [? _]. congruence.
  - intros g c' Hg Hf. destruct (decide (g = h)) as [->|Hne].
    + rewrite lookup_insert_eq in Hg. injection Hg as <-. exists 0%nat, h, b'. rewrite lookup_insert_eq. auto.
    + rewrite lookup_insert_ne in Hg by done. by eapply blamed_here.
  - intros Ht g c [[-> <-]|[_ Hc]]%lookup_insert_Some; eauto.
Qed.

(** A block above a failed one is marked. *)
Lemma mild_mark st h b :
  st !! h = Some b → failed_below st h →
  mild st (<[h := set_nStatus (Z.lor (nStatus b) BLOCK_FAILED_CHILD) b]> st).
Proof using Type.
  intros Hb Hfb. set (b' := set_nStatus _ b).
  assert (Hlk : links <$> st = links <$> <[h := b']> st) by (by apply (fmap_insert_same _ _ _ b)).
  assert (Hv : ledger_view b' = ledger_view b) by (apply failed_ledger_view; by right).
  apply pair_equal_spec in Hv as [[_ Hu]%pair_equal_spec Hd].
  assert (Hf' : IsFailed b' = true)
    by (rewrite IsFailed_bits; unfold b'; cbn [nStatus set_nStatus]; by rewrite !Z.lor_spec, !orb_true_r).
  split.
  - intros g c Hg. destruct (decide (g = h)) as [->|Hne].
    + rewrite lookup_insert_eq. assert (c = b) as -> by congruence. exists b'. by split_and!.
    + rewrite lookup_insert_ne by done. exists c. by split_and!.
  - intros g c' Hn Hg. rewrite lookup_insert_ne in Hg by congruence. congruence.
  - intros x Hx k a Ha. rewrite <- (prev_n_links _ _ k Hlk) in Ha. destruct (Hx k a Ha) as (c & Hc & Hus).
    exists c. rewrite lookup_insert_ne; [done|]. intros ->. destruct Hfb as (j & r & d & Hj & Hrd & Hdf).
    destruct (usable_ancestor _ _ _ _ Hx Ha j r Hj) as (d' & Hd' & _ & ? & _). congruence.
  - intros g c' Hg Hf. destruct (decide (g = h)) as [->|Hne].
    + destruct Hfb as (j & r & d & Hj & Hrd & Hdf). exists j, r, d. rewrite <- (prev_n_links _ _ j Hlk). auto.
    + rewrite lookup_insert_ne in Hg by done. by eapply blamed_here.
  - intros Ht g c [[-> <-]|[_ Hc]]%lookup_insert_Some; [by left|eauto].
Qed.

(** A new entry. *)
Lemma mild_fresh st h b' :
  chain_ok st → st !! h = None → has_data b' = false → m_chain_tx_count b' = 0 → has_undo b' = false →
  IsFailed b' = false → treed b' → mild st (<[h := b']> st).
Proof using Type.
  intros Hok Hn H1 H2 H3 H4 H5. assert (He : extends st (<[h := b']> st)).
  { intros g c Hg. rewrite lookup_insert_ne by congruence. eauto. } split.
  - intros g c Hg. rewrite lookup_insert_ne by congruence. exists c. by split_and!.
  - intros g c Hg Hc. destruct (decide (g = h)) as [->|Hne]; [|rewrite lookup_insert_ne in Hc by done; congruence].
    rewrite lookup_insert_eq in Hc. by injection Hc as <-.
  - intros x Hx k a Ha. destruct (usable_here _ _ Hx) as (bx & Hbx & _).
    rewrite (extends_prev_n st) in Ha by eauto. destruct (Hx k a Ha) as (c & Hc & Hu).
    exists c. rewrite lookup_insert_ne by congruence. done.
  - intros g c Hg Hf. destruct (decide (g = h)) as [->|Hne].
    + rewrite lookup_insert_eq in Hg. injection Hg as <-. congruence.
    + rewrite lookup_insert_ne in Hg by done. by eapply blamed_here.
  - intros Ht g c [[-> <-]|[_ Hc]]%lookup_insert_Some; eauto.
Qed.

Lemma mild_data st st' h b' :
  mild st st' → st' !! h = Some b' → has_data b' = true ∨ m_chain_tx_count b' ≠ 0 →
  ∃ b, st !! h = Some b ∧ nHeight b' = nHeight b ∧ pprev b' = pprev b ∧ has_data b' = has_data b ∧ nTx b' = nTx b ∧
    m_chain_tx_count b' = m_chain_tx_count b ∧ (IsFailed b = true → IsFailed b' = true).
Proof using Type.
  intros M Hb' Hor. destruct (st !! h) as [b|] eqn:Hb.
  - destruct (md_old _ _ M h b Hb) as (b2 & Hb2 & L & D & T & C & _ & F & _). assert (b2 = b') as -> by congruence.
    exists b. unfold links in L. split_and!; congruence || auto.
  - destruct (md_new _ _ M h b' Hb Hb') as (? & ? & _). destruct Hor; congruence.
Qed.

Lemma mild_usable_back st st' x : chain_ok st → mild st st' → usable st' x → usable st x.
Proof using Type.
  intros Hok M Hx k a Ha. destruct (usable_here _ _ Hx) as (bx & Hbx & Hdx & _).
  destruct (mild_data _ _ x bx M Hbx (or_introl Hdx)) as (cx & Hcx & _). pose proof Ha as Ha'.
  rewrite <- (extends_prev_n st st') in Ha' by (eauto using mild_extends).
  destruct (Hx k a Ha') as (c' & Hc' & H1 & H2 & H3).
  destruct (mild_data _ _ a c' M Hc' (or_introl H1)) as (c & Hc & E1 & _ & E2 & _ & E3 & E4).
  exists c. split; [done|]. split_and!; [congruence| |by rewrite <- E1, <- E3]. destruct (IsFailed c); [|done].
  rewrite E4 in H2 by done. done.
Qed.

Lemma mild_key st st' x : mild st st' → usable st x → sort_key <$> st' !! x = sort_key <$> st !! x.
Proof using Type.
  intros M Hx. destruct (usable_here _ _ Hx) as (b & Hb & Hd & _).
  destruct (md_old _ _ M x b Hb) as (b' & -> & _ & _ & _ & _ & _ & _ & K). rewrite Hb. cbn. by rewrite K.
Qed.

Lemma link_ok_mild cm cm' :
  link_ok cm [] → mild (m_block_index cm) (m_block_index cm') → chain_ok (m_block_index cm') →
  (∀ h b, m_block_index cm' !! h = Some b → nHeight b < 2 ^ 31) → m_chain cm' = m_chain cm →
  setBlockIndexCandidates cm' = setBlockIndexCandidates cm → m_blocks_unlinked cm' = m_blocks_unlinked cm →
  cands_ok address cm' → link_ok cm' [].
Proof using Type.
  intros Hl M Hok' Hh Ec Es Eu Hcands. pose proof (mild_extends _ _ M) as He. pose proof (li_chain _ _ Hl) as Hok.
  split; rewrite ?Es, ?Ec, ?Eu; [done|done|done|..].
  - split; [by intros x ?%elem_of_nil|]. apply (co_once _ _ Hcands).
  - intros h b' Hb' Hd. destruct (mild_data _ _ h b' M Hb' (or_introl Hd)) as (b & Hb & _ & _ & E2 & -> & _).
    apply (li_txs _ _ Hl h b Hb). congruence.
  - intros h b' Hb' Hc. destruct (mild_data _ _ h b' M Hb' (or_intror Hc)) as (b & Hb & -> & _ & _ & _ & E & _).
    rewrite E in *. by apply (li_count _ _ Hl h b).
  - intros h b' p bp' Hb' Hp Hbp' Hc. destruct (mild_data _ _ h b' M Hb' (or_intror Hc)) as (b & Hb & _ & Ep & _ & _ & E & _).
    rewrite Ep in Hp. destruct (ck_prev _ Hok _ _ _ Hb Hp) as (bp & Hbp & _).
    destruct (md_old _ _ M p bp Hbp) as (bp2 & Hbp2 & _ & _ & _ & C & _). assert (bp2 = bp') as -> by congruence.
    rewrite C. apply (li_down _ _ Hl h b p bp); congruence.
  - by intros x b ?%elem_of_nil.
  - intros t Ht. destruct (li_tip _ _ Hl t Ht) as [Hu Hq]. split; [by apply M|done].
  - intros x Hx k a c' Ha Hc'. destruct (complete_data _ _ (co_complete _ _ (li_cands _ _ Hl) x Hx)) as (bx & Hbx & _).
    rewrite (extends_prev_n (m_block_index cm)) in Ha by eauto.
    destruct (prev_n_le _ _ Hok _ _ _ Hbx Ha) as (_ & c & Hc & _).
    destruct (md_old _ _ M a c Hc) as (c2 & Hc2 & L & _ & _ & C & _). assert (c2 = c') as -> by congruence.
    destruct (li_counted _ _ Hl x Hx k a c Ha Hc) as [?|H0]; [left; congruence|right]. unfold links in L. congruence.
  - intros x Hx Hq Ht. pose proof (mild_usable_back _ _ x Hok M Hx) as Hux. apply (li_covers _ _ Hl); [done..|].
    intros t Htt. destruct (li_tip _ _ Hl t Htt) as [Hut _]. rewrite <- (Ht t Htt). symmetry.
    apply work_less_keys; by apply mild_key.
  - apply (md_tree _ _ M). apply (li_tree _ _ Hl).
  - intros h b' Hb' Hp Hd. destruct (mild_data _ _ h b' M Hb' (or_introl Hd)) as (b & Hb & _ & Ep & Ed & _ & -> & _).
    rewrite Ep in Hp. rewrite Ed in Hd. by apply (li_root _ _ Hl h b).
  - intros h b' p bp' Hb' Hd Hp Hbp' Hc. destruct (mild_data _ _ h b' M Hb' (or_introl Hd)) as (b & Hb & _ & Ep & Ed & _ & E & _).
    rewrite Ep in Hp. rewrite E in Hc. rewrite Ed in Hd. destruct (ck_prev _ Hok _ _ _ Hb Hp) as (bp & Hbp & _).
    destruct (md_old _ _ M p bp Hbp) as (bp2 & Hbp2 & _ & _ & _ & _ & _ & F & _). assert (bp2 = bp') as -> by congruence.
    destruct (li_waits _ _ Hl h b p bp Hb Hd Hp Hbp Hc) as [?|[?|?]]; auto.
Qed.

(** ** The stages of acceptance *)

Lemma mark_failed_child_mild fuel : ∀ st walk f fb k,
  chain_ok st → prev_n st k walk = Some f → st !! f = Some fb → IsFailed fb = true →
  mild st (mark_failed_child fuel st walk f).
Proof using Type.
  induction fuel as [|fuel IH]; intros st walk f fb k Hok Hk Hf Hfail; [apply mild_refl|]. cbn [mark_failed_child].
  destruct (Z.eqb_spec walk f) as [|Hne]; [apply mild_refl|]. destruct (st !! walk) as [b|] eqn:Hb; [|apply mild_refl].
  cbv zeta. set (st' := <[walk := _]> st). assert (M : mild st st') by (apply mild_mark; [done|by exists k, f, fb]).
  destruct (pprev b) as [p|] eqn:Hp; [|done]. destruct k as [|k]; [by injection Hk|].
  apply prev_n_S in Hk as (b2 & p2 & Hb2 & Hp2 & Hk). assert (p2 = p) as -> by congruence.
  assert (Hlk : links <$> st = links <$> st') by (by apply (fmap_insert_same _ _ _ b)).
  assert (Hok' : chain_ok st') by (by apply (chain_ok_links st)).
  apply (mild_trans st st'); [done..|]. apply (IH st' p f fb k); [done| | |done].
  - by rewrite <- (prev_n_links _ _ k Hlk).
  - unfold st'. by rewrite lookup_insert_ne.
Qed.

Lemma GetAncestor_below st h b k a :
  chain_ok st → st !! h = Some b → GetAncestor st h k = Some a → ∃ n, prev_n st n h = Some a.
Proof using Type.
  intros Hok Hb Ha. destruct (decide (0 <= k <= nHeight b)) as [Hk|Hk].
  - rewrite (GetAncestor_prev_n st h b) in Ha by done. eauto.
  - exfalso. unfold GetAncestor in Ha. rewrite Hb in Ha. replace (_ || _) with true in Ha; [done|].
    symmetry. apply orb_true_iff. lia.
Qed.

Lemma descends_mild st prev prev_b failed st' :
  chain_ok st → st !! prev = Some prev_b → descends_from_failed st prev prev_b failed = Some (Some st') → mild st st'.
Proof using Type.
  intros Hok Hp. induction failed as [|f failed IH]; [done|]. cbn [descends_from_failed].
  destruct (st !! f) as [fb|] eqn:Hf; [|done]. case_bool_decide as Ha; [|done].
  destruct (Z.eqb_spec (Z.land (nStatus fb) BLOCK_FAILED_VALID) 0) as [|Hv]; [done|]. intros [= <-].
  destruct (GetAncestor_below _ _ _ _ _ Hok Hp Ha) as [k Hk]. apply (mark_failed_child_mild (S (Z.to_nat (nHeight prev_b))) st prev f fb k); [done..|].
  unfold IsFailed. apply negb_true_iff, Z.eqb_neq. intros E. apply Hv.
  change BLOCK_FAILED_VALID with (Z.land BLOCK_FAILED_MASK BLOCK_FAILED_VALID). by rewrite Z.land_assoc, E.
Qed.

Section stages.
Context (SHA256d : list Z → Z) (genesis : Z) (params : Params) (opts : Options).

(** The header was new and passed the checks. *)
Record header_added (st : BlockMap) (block : CBlockHeader) (st' : BlockMap) : Prop := {
  ha_new : st !! GetHash SHA256d block = None;
  ha_prev : is_Some (st !! hdr_hashPrevBlock block);
  ha_work : CheckProofOfWork (GetHash SHA256d block) (hdr_nBits block) params = true;
  ha_index : st' = <[GetHash SHA256d block :=
    new_entry (<[GetHash SHA256d block := index_of_header block]> st) block]> st
}.

Lemma header_added_mild st block st' : chain_ok st → header_added st block st' → mild st st'.
Proof using Type. intros Hok [H1 _ _ ->]. apply mild_fresh; try done. by right. Qed.

Lemma AcceptBlockHeader_stage cm block mp now :
  chain_ok (m_block_index cm) → is_Some (m_block_index cm !! genesis) →
  let '(cm', r) := AcceptBlockHeader SHA256d genesis params opts cm block mp now in
  mild (m_block_index cm) (m_block_index cm') ∧ m_chain cm' = m_chain cm ∧
  setBlockIndexCandidates cm' = setBlockIndexCandidates cm ∧
  (links <$> m_block_index cm = links <$> m_block_index cm' ∨
   header_added (m_block_index cm) block (m_block_index cm')) ∧
  ∀ h, r = inl h → h = GetHash SHA256d block ∧
    ∃ b, m_block_index cm' !! h = Some b ∧ (IsFailed b = false ∨ h = genesis).
Proof using Type.
  intros Hok Hg. unfold AcceptBlockHeader. set (hash := GetHash SHA256d block).
  assert (Hsame : ∀ r : Z + Failure, (∀ h, r = inl h → h = hash ∧
      ∃ b, m_block_index cm !! h = Some b ∧ (IsFailed b = false ∨ h = genesis)) →
    mild (m_block_index cm) (m_block_index cm) ∧ m_chain cm = m_chain cm ∧
    setBlockIndexCandidates cm = setBlockIndexCandidates cm ∧
    (links <$> m_block_index cm = links <$> m_block_index cm ∨ header_added (m_block_index cm) block (m_block_index cm)) ∧
    ∀ h, r = inl h → h = hash ∧ ∃ b, m_block_index cm !! h = Some b ∧ (IsFailed b = false ∨ h = genesis)).
  { intros r Hr. split_and!; [apply mild_refl|done|done|by left|done]. }
  destruct (Z.eqb_spec hash genesis) as [E|Hne]; cbn [negb].
  { destruct mp; [|by apply Hsame]. unfold add_header_entry, AddToBlockIndex. destruct Hg as [b Hb].
    rewrite <- E in Hb. rewrite Hb.
    cbn [m_block_index m_chain setBlockIndexCandidates]. apply Hsame. intros h [= <-]. eauto. }
  destruct (m_block_index cm !! hash) as [b|] eqn:Hb.
  { destruct (IsFailed b) eqn:Hf; apply Hsame; [done|]. intros h [= <-]. eauto. }
  destruct (check_new_header SHA256d params opts cm block now) as [cm' [f|]] eqn:Ec.
  - unfold check_new_header in Ec. destruct (CheckBlockHeader _ _ _); [injection Ec as <- _; by apply Hsame|].
    destruct (m_block_index cm !! hdr_hashPrevBlock block) as [prev_b|] eqn:Hp; [|injection Ec as <- _; by apply Hsame].
    repeat (case_match; try (injection Ec as <- _; by apply Hsame)); try done. injection Ec as <- _.
    match goal with H : descends_from_failed _ _ _ _ = Some (Some _) |- _ => rename H into Hdf end.
    cbn [m_block_index with_index m_chain setBlockIndexCandidates].
    split_and!; [by eapply descends_mild|done|done|left; by eapply descends_from_failed_view|done].
  - apply check_new_header_pass in Ec as (-> & Hcheck & prev_b & Hp & _). destruct mp; [|by apply Hsame].
    assert (Ha : header_added (m_block_index cm) block (m_block_index (add_header_entry cm hash block))).
    { split; [done|by eauto| |].
      - unfold CheckBlockHeader in Hcheck. by destruct (CheckProofOfWork _ _ _).
      - unfold add_header_entry, AddToBlockIndex. by rewrite Hb. }
    pose proof Ha as [_ _ _ Hi]. split_and!; [by eapply header_added_mild| | |by right|];
      try (unfold add_header_entry, AddToBlockIndex; by rewrite Hb).
    intros h [= <-]. split; [done|]. rewrite Hi, lookup_insert_eq. eexists. split; [done|]. by left.
Qed.
End stages.

(** Stages that change the entry of one block, but not its links, flags and counts. *)
Definition touch_view (b : CBlockIndex) := (links b, nStatus b, nTx b, m_chain_tx_count b).

Definition touched (hash : Z) (st st' : BlockMap) : Prop := ∃ b b',
  st !! hash = Some b ∧ st' = <[hash := b']> st ∧ touch_view b' = touch_view b.

Lemma touched_refl hash st b : st !! hash = Some b → touched hash st st.
Proof using Type. intros Hb. exists b, b. by rewrite insert_id. Qed.

Lemma touched_insert hash st b b' :
  st !! hash = Some b → touch_view b' = touch_view b → touched hash st (<[hash := b']> st).
Proof using Type. intros Hb E. by exists b, b'. Qed.

Lemma touched_trans hash st1 st2 st3 : touched hash st1 st2 → touched hash st2 st3 → touched hash st1 st3.
Proof using Type.
  intros (b1 & b2 & H1 & -> & E2) (c2 & b3 & H2 & -> & E3). rewrite lookup_insert_eq in H2. injection H2 as <-.
  exists b1, b3. rewrite insert_insert_eq. split_and!; [done..|congruence].
Qed.

Lemma touched_links hash st st' : touched hash st st' → links <$> st = links <$> st'.
Proof using Type.
  intros (b & b' & Hb & -> & E). apply (fmap_insert_same _ _ _ b); [done|]. unfold touch_view in E. congruence.
Qed.

Lemma touched_mild hash st st' b :
  st !! hash = Some b → has_data b = false → touched hash st st' →
  mild st st' ∧ ∃ b', st' !! hash = Some b' ∧ has_data b' = false ∧ IsFailed b' = IsFailed b.
Proof using Type.
  intros Hb Hd (b2 & b' & Hb2 & -> & E). assert (b2 = b) as -> by congruence.
  assert (Es : nStatus b' = nStatus b) by (unfold touch_view in E; congruence).
  assert (Hd' : has_data b' = false) by (unfold has_data in *; by rewrite Es).
  assert (Hf : IsFailed b' = IsFailed b) by (unfold IsFailed; by rewrite Es). split.
  - apply (mild_insert st hash b); try done; try (unfold touch_view in E; congruence).
    + unfold has_undo. by rewrite Es.
    + by apply treed_status.
  - exists b'. by rewrite lookup_insert_eq.
Qed.

Section body.
Context (SHA256d : list Z → Z) (genesis : Z) (params : Params) (opts : Options).

Lemma dag_stage_touched cm hash block b :
  m_block_index cm !! hash = Some b →
  let cm' := (dag_stage params opts cm hash block).1 in
  touched hash (m_block_index cm) (m_block_index cm') ∧ m_chain cm' = m_chain cm ∧
  setBlockIndexCandidates cm' = setBlockIndexCandidates cm ∧ m_blocks_unlinked cm' = m_blocks_unlinked cm.
Proof using Type.
  intros Hb. cbv zeta. unfold dag_stage. destruct (dag_mode params opts); [|split; [by eapply touched_refl|done]]. rewrite Hb.
  assert (Hr : ∃ b1, (resolve_stage (m_block_index cm) hash b block).1 !! hash = Some b1 ∧
    touched hash (m_block_index cm) (resolve_stage (m_block_index cm) hash b block).1).
  { unfold resolve_stage. destruct (_ && _); [|exists b; split; [done|by eapply touched_refl]].
    destruct (resolve_parents _ _) as [l f]. cbn [fst]. rewrite lookup_insert_eq. eexists. split; [done|].
    by apply (touched_insert _ _ b). }
  destruct (resolve_stage _ _ _ _) as [st [f|]]; cbn [fst] in Hr; destruct Hr as (b1 & Hb1 & Ht).
  { by split. }
  assert (Hs : touched hash st (score_stage params st hash).1).
  { unfold score_stage. rewrite Hb1. repeat case_match; cbn [fst]; first [by eapply touched_refl|by apply (touched_insert _ _ b1)]. }
  destruct (score_stage params st hash) as [st' f]. cbn [fst] in *. split; [by eapply touched_trans|done].
Qed.

Lemma early_stage_touched cm hash now rand b :
  m_block_index cm !! hash = Some b →
  let cm' := early_stage params opts cm hash now rand in
  touched hash (m_block_index cm) (m_block_index cm') ∧ m_chain cm' = m_chain cm ∧
  setBlockIndexCandidates cm' = setBlockIndexCandidates cm ∧ m_blocks_unlinked cm' = m_blocks_unlinked cm.
Proof using Type.
  intros Hb. cbv zeta. unfold early_stage. rewrite Hb. destruct (_ && _); [|split; [by eapply touched_refl|done]].
  repeat case_match; (split; [by apply (touched_insert _ _ b)|done]).
Qed.
End body.

(** ** A new header *)

(** What the node takes for granted of a header: that its hash is neither zero nor one of
    two of another network, and that its fields, heights and work stay within their types. *)
Record header_fits (SHA256d : list Z → Z) (st : BlockMap) (block : CBlockHeader) : Prop := {
  hf_bits : fits 32 (hdr_nBits block);
  hf_zero : GetHash SHA256d block ≠ 0;
  hf_prev b : st !! hdr_hashPrevBlock block = Some b →
    nHeight b + 1 < 2 ^ 31 ∧ IsBIP30Repeat (nHeight b + 1) (GetHash SHA256d block) = false ∧
    0 <= nChainWork b ∧ nChainWork b + GetBlockProof (hdr_nBits block) < 2 ^ 256
}.

Lemma checked_proof_positive params hash bits :
  fits 32 bits → CheckProofOfWork hash bits params = true → 0 < GetBlockProof bits.
Proof using Type.
  unfold CheckProofOfWork. intros Hb H. destruct (_ || _ || _ || _) eqn:E; [done|].
  apply orb_false_iff in E as [E _]. apply orb_false_iff in E as [E Eo]. apply orb_false_iff in E as [En Ez].
  pose proof (SetCompact_range bits Hb) as Hr. rewrite (GetBlockProof_value bits); [|done..|lia].
  apply Z.div_str_pos. lia.
Qed.

Lemma header_added_sane SHA256d genesis params st block st' :
  sane genesis st → header_fits SHA256d st block → header_added SHA256d params st block st' → sane genesis st'.
Proof using Type.
  intros Hs [Hbits H0 Hp] [Hnew [pb Hpb] Hpow ->]. set (hash := GetHash SHA256d block) in *.
  destruct (Hp pb Hpb) as (Hh & H30 & Hw0 & Hw). pose proof (checked_proof_positive _ _ _ Hbits Hpow) as Hpos.
  assert (Hne : hdr_hashPrevBlock block ≠ hash) by congruence.
  pose proof (new_entry_prev st hash block Hnew Hne) as He. cbv zeta in He. rewrite Hpb in He.
  set (e := new_entry _ block) in *. destruct He as (E1 & E2 & E3 & _). rewrite wrap_small in E3 by (unfold fits; lia).
  pose proof (AddToBlockIndex_chain_ok st hash block None (sn_chain _ _ Hs) Hne) as Hok.
  unfold AddToBlockIndex in Hok. rewrite Hnew in Hok. cbn [fst] in Hok. fold e in Hok. split.
  - done.
  - rewrite lookup_insert_ne by done. apply Hs.
  - intros h b [[-> <-]|[Hne' Hb]]%lookup_insert_Some Hr; [congruence|]. by eapply sn_root.
  - intros h b [[-> <-]|[Hne' Hb]]%lookup_insert_Some; [lia|]. by eapply sn_height.
  - intros h b [[-> <-]|[Hne' Hb]]%lookup_insert_Some; [by rewrite E2|]. by eapply sn_repeat.
  - intros h b p bp [[-> <-]|[Hne' Hb]]%lookup_insert_Some Hpp Hbp.
    + assert (p = hdr_hashPrevBlock block) as -> by congruence. rewrite lookup_insert_ne in Hbp by done.
      assert (bp = pb) as -> by congruence. lia.
    + apply lookup_insert_Some in Hbp as [[-> <-]|[_ Hbp]]; [|by eapply sn_work].
      destruct (ck_prev _ (sn_chain _ _ Hs) _ _ _ Hb Hpp) as (? & ? & _). congruence.
Qed.

(** ** The whole acceptance *)

(** The block received its data. *)
Definition flag_view (b : CBlockIndex) := (links b, IsFailed b, has_undo b).

Record gains (hash : Z) (st st' : BlockMap) : Prop := {
  gn_same : flag_view <$> st = flag_view <$> st';
  gn_data x b b' : st !! x = Some b → st' !! x = Some b' → has_data b' = has_data b || bool_decide (x = hash)
}.

Lemma Received_gains params cm hash n b :
  m_block_index cm !! hash = Some b → has_data b = false →
  gains hash (m_block_index cm) (m_block_index (ReceivedBlockTransactions params address cm hash n)).
Proof using Type.
  intros Hb Hd. set (e := received_entry params (m_block_index cm) n b).
  assert (Hv : (λ b, (flag_view b, has_data b)) <$> <[hash := e]> (m_block_index cm) =
    (λ b, (flag_view b, has_data b)) <$> m_block_index (ReceivedBlockTransactions params address cm hash n))
    by (by apply Received_view).
  assert (He : flag_view e = flag_view b).
  { unfold flag_view. rewrite !IsFailed_bits. unfold has_undo, e. by rewrite !received_bit. }
  split.
  - transitivity (flag_view <$> <[hash := e]> (m_block_index cm)).
    + by apply (fmap_insert_same _ _ _ b).
    + apply map_eq. intros x. apply (f_equal (.!! x)) in Hv. rewrite !lookup_fmap in *.
      destruct (<[hash:=e]> (m_block_index cm) !! x), (m_block_index (ReceivedBlockTransactions _ _ _ _ _) !! x);
        cbn in *; congruence.
  - intros x c c' Hc Hc'. apply (f_equal (.!! x)) in Hv. rewrite !lookup_fmap, Hc' in Hv.
    case_bool_decide as Hx.
    + subst x. rewrite lookup_insert_eq in Hv. apply (inj Some), (f_equal snd) in Hv. cbn [snd] in Hv. rewrite <- Hv, orb_true_r. apply received_has_data.
    + rewrite lookup_insert_ne, Hc in Hv by done. apply (inj Some), (f_equal snd) in Hv. cbn [snd] in Hv. by rewrite <- Hv, orb_false_r.
Qed.

Lemma mild_keeps st st' : mild st st' → keeps st st'.
Proof using Type.
  intros M. split.
  - intros h b Hb. destruct (md_old _ _ M h b Hb) as (b' & Hb' & L & D & _ & C & _ & _ & K). exists b'.
    split_and!; [done|done|by left|]. intros Hd. split; [congruence|auto].
  - intros h b' Hn Hb'. by destruct (md_new _ _ M h b' Hn Hb') as (_ & ? & _).
Qed.

(** What the stages that store no data leave. *)
Record same_cands cm cm' : Prop := {
  sc_chain : m_chain cm' = m_chain cm;
  sc_cands : setBlockIndexCandidates cm' = setBlockIndexCandidates cm;
  sc_unlinked : m_blocks_unlinked cm' = m_blocks_unlinked cm
}.

Lemma same_cands_trans cm1 cm2 cm3 : same_cands cm1 cm2 → same_cands cm2 cm3 → same_cands cm1 cm3.
Proof using Type. intros [? ? ?] [? ? ?]. split; congruence. Qed.

Lemma link_ok_stage genesis cm cm' :
  link_ok cm [] → mild (m_block_index cm) (m_block_index cm') → sane genesis (m_block_index cm') → same_cands cm cm' →
  link_ok cm' [].
Proof using Type.
  intros Hl M Hs [Ec Es Eu]. apply (link_ok_mild cm cm'); [done|done|apply Hs|apply Hs|done|done|done|].
  pose proof (li_cands _ _ Hl) as Hc.
  apply (cands_ok_keeps address cm cm'); [apply Hl|by apply mild_keeps|done|by rewrite Es|rewrite Es; apply Hc|done].
Qed.

Section accept.
Context (SHA256d : list Z → Z) (genesis : Z) (params : Params) (opts : Options).
Context {Body : Type} (vtx_size : Body → Z) (CheckBlock : CBlockHeader → Body → option Failure).
Context (ContextualCheckBlock : BlockMap → CBlockHeader → Body → option Z → option Failure).
Context (SaveBlockToDisk : CBlockHeader → Body → Z → bool).

Abbreviation accept := (AcceptBlock SHA256d genesis params opts address vtx_size CheckBlock ContextualCheckBlock
  SaveBlockToDisk).

Lemma AcceptBlock_saved cm block body req mp now rand cm' :
  accept cm block body req mp now rand = (cm', inl true) → ∃ height, SaveBlockToDisk block body height = true.
Proof using Type. unfold AcceptBlock. repeat (case_match; try done); eauto. Qed.

(** How acceptance ends: without new data, or with that of the block. *)
Definition accept_end cm (block : CBlockHeader) cm' (r : bool + Failure) : Prop :=
  link_ok cm' [] ∧ sane genesis (m_block_index cm') ∧ m_chain cm' = m_chain cm ∧
  (r ≠ inl true ∧ mild (m_block_index cm) (m_block_index cm') ∨
   r = inl true ∧ ∃ st1 b, mild (m_block_index cm) st1 ∧ sane genesis st1 ∧ st1 !! GetHash SHA256d block = Some b ∧
     has_data b = false ∧ IsFailed b = false ∧ gains (GetHash SHA256d block) st1 (m_block_index cm')).

Lemma AcceptBlockHeader_end cm block mp now :
  link_ok cm [] → sane genesis (m_block_index cm) → is_Some (m_block_index cm !! genesis) →
  header_fits SHA256d (m_block_index cm) block →
  let '(cm', r) := AcceptBlockHeader SHA256d genesis params opts cm block mp now in
  link_ok cm' [] ∧ sane genesis (m_block_index cm') ∧ same_cands cm cm' ∧ mild (m_block_index cm) (m_block_index cm') ∧
  ∀ h, r = inl h → h = GetHash SHA256d block ∧
    ∃ b, m_block_index cm' !! h = Some b ∧ (IsFailed b = false ∨ h = genesis).
Proof using Type.
  intros Hl Hs Hg Hfit. pose proof (AcceptBlockHeader_stage SHA256d genesis params opts cm block mp now (li_chain _ _ Hl) Hg) as H.
  destruct (AcceptBlockHeader_keeps SHA256d genesis params opts cm block mp now) as (_ & Eu & _).
  destruct (AcceptBlockHeader _ _ _ _ _ _ _ _) as [cm' r]. destruct H as (M & Ec & Es & Hcase & Hr).
  assert (Hs' : sane genesis (m_block_index cm'))
    by (destruct Hcase as [Hlk|Ha]; [by apply (sane_links genesis (m_block_index cm))|by eapply header_added_sane]).
  assert (Hsc : same_cands cm cm') by done.
  split_and!; try done. by apply (link_ok_stage genesis cm).
Qed.

(** The last stages, for a block whose data was stored. *)
Lemma received_end cm cm3 block n b :
  let hash := GetHash SHA256d block in
  link_ok cm3 [] → sane genesis (m_block_index cm3) → same_cands cm cm3 → mild (m_block_index cm) (m_block_index cm3) →
  m_block_index cm3 !! hash = Some b → has_data b = false → IsFailed b = false → 1 <= n <= MAX_BLOCK_WEIGHT →
  accept_end cm block (tips_stage params opts (ReceivedBlockTransactions params address cm3 hash n) hash) (inl true).
Proof using Inj0.
  intros hash Hl Hs Hc M Hb Hd Hf Hn. destruct (Received_link_ok params cm3 hash n b Hl Hb Hd Hn) as [Hl' Ec'].
  pose proof (Received_gains params cm3 hash n b Hb Hd) as G.
  set (cm4 := ReceivedBlockTransactions params address cm3 hash n) in *.
  assert (Hlk : links <$> m_block_index cm3 = links <$> m_block_index cm4)
    by (apply ReceivedBlockTransactions_view; done).
  assert (Ht : m_block_index (tips_stage params opts cm4 hash) = m_block_index cm4 ∧
    same_cands cm4 (tips_stage params opts cm4 hash)) by (unfold tips_stage; by repeat case_match).
  destruct Ht as [Ei Hsc]. unfold accept_end. rewrite Ei.
  assert (Hs4 : sane genesis (m_block_index cm4)) by (by apply (sane_links genesis (m_block_index cm3))).
  split_and!; [|done|rewrite (sc_chain _ _ Hsc), Ec'; apply Hc|].
  - apply (link_ok_stage genesis cm4); rewrite ?Ei; [done|apply mild_refl|done|done].
  - right. split; [done|]. by exists (m_block_index cm3), b.
Qed.

(** A stage after the header, which changes flags and scores of a block without data. *)
Lemma later_stage cm cm1 cm2 :
  link_ok cm1 [] → sane genesis (m_block_index cm1) → same_cands cm cm1 → mild (m_block_index cm) (m_block_index cm1) →
  same_cands cm1 cm2 → mild (m_block_index cm1) (m_block_index cm2) →
  links <$> m_block_index cm1 = links <$> m_block_index cm2 →
  link_ok cm2 [] ∧ sane genesis (m_block_index cm2) ∧ same_cands cm cm2 ∧ mild (m_block_index cm) (m_block_index cm2).
Proof using Type.
  intros Hl1 Hs1 Hc1 M1 Hc2 M2 Hlk.
  assert (Hs2 : sane genesis (m_block_index cm2)) by (by apply (sane_links genesis (m_block_index cm1))).
  split_and!; [by apply (link_ok_stage genesis cm1)|done|by eapply same_cands_trans|].
  apply (mild_trans _ (m_block_index cm1)); [apply Hs1|done..].
Qed.

Lemma body_failed_stage cm hash b f :
  m_block_index cm !! hash = Some b → has_data b = false →
  same_cands cm (body_failed cm hash b f) ∧ mild (m_block_index cm) (m_block_index (body_failed cm hash b f)) ∧
  links <$> m_block_index cm = links <$> m_block_index (body_failed cm hash b f).
Proof using Type.
  intros Hb Hd. assert (Hsame : same_cands cm cm ∧ mild (m_block_index cm) (m_block_index cm) ∧
    links <$> m_block_index cm = links <$> m_block_index cm) by (split_and!; [done|apply mild_refl|done]).
  unfold body_failed. destruct f; [|done..]. case_bool_decide; [done|]. set (b' := set_nStatus _ b).
  assert (Hv : ledger_view b' = ledger_view b) by (apply failed_ledger_view; by left).
  apply pair_equal_spec in Hv as [[_ Hu]%pair_equal_spec Hd']. split_and!; [done| |by apply (fmap_insert_same _ _ _ b)].
  assert (Hf : IsFailed b' = true)
    by (rewrite IsFailed_bits; unfold b'; cbn [nStatus set_nStatus]; by rewrite !Z.lor_spec, orb_true_r).
  apply (mild_insert _ _ b); try done; [congruence|by left].
Qed.

Lemma AcceptBlock_end cm block body req mp now rand :
  link_ok cm [] → sane genesis (m_block_index cm) → data_at (m_block_index cm) genesis →
  header_fits SHA256d (m_block_index cm) block →
  (∀ h, CheckBlock block body = None → SaveBlockToDisk block body h = true → 1 <= vtx_size body <= MAX_BLOCK_WEIGHT) →
  let '(cm', r) := accept cm block body req mp now rand in accept_end cm block cm' r.
Proof using Inj0.
  intros Hl Hs (bg & Hbg & Hdg) Hfit Hsize. unfold AcceptBlock.
  pose proof (AcceptBlockHeader_end cm block mp now Hl Hs ltac:(eauto) Hfit) as H1.
  destruct (AcceptBlockHeader _ _ _ _ _ _ _ _) as [cm1 [hash|f]]; destruct H1 as (Hl1 & Hs1 & Hc1 & M1 & Hr).
  2: { split_and!; [done|done|apply Hc1|by left]. }
  destruct (Hr hash eq_refl) as (-> & b & Hb & Hf). rewrite Hb. set (hash := GetHash SHA256d block) in *.
  destruct (skip_block opts cm1 b req) eqn:Hskip; [split_and!; [done|done|apply Hc1|by left]|].
  apply orb_false_iff in Hskip as [Hd _]. change (has_data b = false) in Hd.
  assert (Hf' : IsFailed b = false).
  { destruct Hf as [?|E]; [done|]. destruct (md_old _ _ M1 genesis bg Hbg) as (b2 & Hb2 & _ & D2 & _). congruence. }
  destruct (check_body _ _ _ _ _ _) as [f|] eqn:Hbody.
  { destruct (body_failed_stage cm1 hash b f Hb Hd) as (Hc2 & M2 & Hlk).
    destruct (later_stage cm cm1 _ Hl1 Hs1 Hc1 M1 Hc2 M2 Hlk) as (? & ? & ? & ?). split_and!; [done|done|by apply sc_chain|by left]. }
  destruct (dag_stage_touched params opts cm1 hash block b Hb) as (T2 & C2).
  destruct (touched_mild _ _ _ _ Hb Hd T2) as (M2 & b2 & Hb2 & Hd2 & Hf2). pose proof (touched_links _ _ _ T2) as Hlk2.
  destruct (dag_stage params opts cm1 hash block) as [cm2 f2]. cbn [fst] in *.
  assert (Hc2 : same_cands cm1 cm2) by (by destruct C2 as (? & ? & ?)).
  destruct (later_stage cm cm1 cm2 Hl1 Hs1 Hc1 M1 Hc2 M2 Hlk2) as (Hl2 & Hs2 & Hc2' & M2').
  destruct f2 as [f|]; [split_and!; [done|done|by apply sc_chain|by left]|].
  destruct (early_stage_touched params opts cm2 hash now rand b2 Hb2) as (T3 & C3).
  destruct (touched_mild _ _ _ _ Hb2 Hd2 T3) as (M3 & b3 & Hb3 & Hd3 & Hf3). pose proof (touched_links _ _ _ T3) as Hlk3.
  set (cm3 := early_stage params opts cm2 hash now rand) in *.
  assert (Hc3 : same_cands cm2 cm3) by (by destruct C3 as (? & ? & ?)).
  destruct (later_stage cm cm2 cm3 Hl2 Hs2 Hc2' M2' Hc3 M3 Hlk3) as (Hl3 & Hs3 & Hc3' & M3').
  destruct (SaveBlockToDisk block body (nHeight b)) eqn:Hsave; [|split_and!; [done|done|by apply sc_chain|by left]].
  assert (Hn : 1 <= vtx_size body <= MAX_BLOCK_WEIGHT).
  { apply (Hsize (nHeight b)); [|done]. unfold check_body in Hbody. by destruct (CheckBlock block body). }
  apply (received_end cm cm3 block (vtx_size body) b3); try done. congruence.
Qed.
End accept.

(** ** What follows for a block with all its data *)

Lemma complete_counted cm x b k :
  link_ok cm [] → complete (m_block_index cm) x → ¬ failed_below (m_block_index cm) x →
  m_block_index cm !! x = Some b → Z.to_nat (nHeight b) = k → m_chain_tx_count b ≠ 0.
Proof using Type.
  intros Hl. revert x b. induction k as [k IH] using lt_wf_ind. intros x b Hc Hf Hb Hk.
  destruct (Hc 0%nat x eq_refl) as (b2 & Hb2 & Hd). assert (b2 = b) as -> by congruence.
  destruct (pprev b) as [p|] eqn:Hp; [|by destruct (li_root _ _ Hl x b Hb Hp Hd) as [?|?%elem_of_nil]].
  destruct (ck_prev _ (li_chain _ _ Hl) _ _ _ Hb Hp) as (bp & Hbp & Eh).
  pose proof (ck_height _ (li_chain _ _ Hl) _ _ Hbp) as Hh.
  assert (Hnext : ∀ n, prev_n (m_block_index cm) (S n) x = prev_n (m_block_index cm) n p).
  { intros n. cbn [prev_n]. rewrite Hb. cbn. by rewrite Hp. }
  assert (Hcp : m_chain_tx_count bp ≠ 0).
  { apply (IH (Z.to_nat (nHeight bp)) ltac:(lia) p bp); [| |done|done].
    - intros n a Ha. apply (Hc (S n) a). by rewrite Hnext.
    - intros (n & a & c & Ha & Hac). apply Hf. exists (S n), a, c. by rewrite Hnext. }
  intros Hz. destruct (li_waits _ _ Hl x b p bp Hb Hd Hp Hbp Hz) as [?%elem_of_nil|[Hw|Hw]]; [done| |].
  - destruct (co_waiting _ _ (li_cands _ _ Hl) p x Hw) as (_ & _ & bp2 & Hbp2 & ?). congruence.
  - apply Hf. exists 1%nat, p, bp. by rewrite Hnext.
Qed.

Lemma complete_usable cm x :
  link_ok cm [] → complete (m_block_index cm) x → ¬ failed_below (m_block_index cm) x → usable (m_block_index cm) x.
Proof using Type.
  intros Hl Hc Hf k a Ha. destruct (Hc k a Ha) as (b & Hb & Hd). exists b. split; [done|]. split_and!; [done| |left].
  - destruct (IsFailed b) eqn:E; [|done]. exfalso. apply Hf. by exists k, a, b.
  - apply (complete_counted cm a b (Z.to_nat (nHeight b))); [done| | |done|done].
    + intros n c Hn. apply (Hc (k + n)%nat). by rewrite prev_n_add, Ha.
    + intros (n & c & d & Hn & Hcd). apply Hf. exists (k + n)%nat, c, d. by rewrite prev_n_add, Ha.
Qed.

(** ** What activation keeps of it *)

Record base_ok cm : Prop := {
  bo_chain : chain_ok (m_block_index cm);
  bo_cands : cands_ok address cm;
  bo_txs h b : m_block_index cm !! h = Some b → has_data b = true → 1 <= nTx b <= MAX_BLOCK_WEIGHT;
  bo_tree h b : m_block_index cm !! h = Some b → treed b;
  bo_waits h b p bp : m_block_index cm !! h = Some b → has_data b = true → pprev b = Some p →
    m_block_index cm !! p = Some bp → m_chain_tx_count b = 0 →
    (p, h) ∈ m_blocks_unlinked cm ∨ IsFailed bp = true
}.

Lemma link_base cm : link_ok cm [] → base_ok cm.
Proof using Type.
  intros Hl. split; try apply Hl. intros h b p bp Hb Hd Hp Hbp Hz.
  destruct (li_waits _ _ Hl h b p bp Hb Hd Hp Hbp Hz) as [?%elem_of_nil|?]; done.
Qed.

(** Changes of flags and of what is known of the DAG. *)
Record calm (st st' : BlockMap) : Prop := {
  cl_old h b : st !! h = Some b → ∃ b', st' !! h = Some b' ∧ cand_view b' = cand_view b ∧ nTx b' = nTx b ∧
    (IsFailed b = true → IsFailed b' = true) ∧ (treed b → treed b');
  cl_new h b' : st' !! h = Some b' → is_Some (st !! h)
}.

Lemma calm_refl st : calm st st.
Proof using Type. split; [|by eauto]. intros h b Hb. exists b. by split_and!. Qed.

Lemma calm_trans st1 st2 st3 : calm st1 st2 → calm st2 st3 → calm st1 st3.
Proof using Type.
  intros [O1 N1] [O2 N2]. split.
  - intros h b Hb. destruct (O1 h b Hb) as (b2 & Hb2 & A1 & A2 & A3 & A4).
    destruct (O2 h b2 Hb2) as (b3 & Hb3 & B1 & B2 & B3 & B4). exists b3. split_and!; congruence || auto.
  - intros h b Hb. destruct (N2 h b Hb) as [b2 Hb2]. by eapply N1.
Qed.

Lemma calm_insert st h b b' :
  st !! h = Some b → cand_view b' = cand_view b → nTx b' = nTx b → (IsFailed b = true → IsFailed b' = true) →
  (treed b → treed b') → calm st (<[h := b']> st).
Proof using Type.
  intros Hb H1 H2 H3 H4. split.
  - intros g c Hg. destruct (decide (g = h)) as [->|Hne].
    + rewrite lookup_insert_eq. assert (c = b) as -> by congruence. eauto 10.
    + rewrite lookup_insert_ne by done. exists c. by split_and!.
  - intros g c [[-> _]|[_ Hc]]%lookup_insert_Some; eauto.
Qed.

Lemma calm_view st st' : calm st st' → cand_view <$> st = cand_view <$> st'.
Proof using Type.
  intros [O N]. apply map_eq. intros h. rewrite !lookup_fmap. destruct (st !! h) as [b|] eqn:Hb.
  - destruct (O h b Hb) as (b' & -> & E & _). cbn. by rewrite E.
  - destruct (st' !! h) as [b'|] eqn:Hb'; [|done]. destruct (N h b' Hb') as [? ?]. congruence.
Qed.

Lemma base_ok_calm cm cm' :
  base_ok cm → calm (m_block_index cm) (m_block_index cm') →
  (∀ x, x ∈ setBlockIndexCandidates cm' → x ∈ setBlockIndexCandidates cm) →
  ordered (less (m_block_index cm)) (setBlockIndexCandidates cm') → m_blocks_unlinked cm' = m_blocks_unlinked cm →
  base_ok cm'.
Proof using Type.
  intros [C1 C2 C3 C4 C5] Hc Hsub Hord Eu. pose proof (calm_view _ _ Hc) as Hv. pose proof (view_links _ _ Hv) as Hlk.
  assert (Hback : ∀ h b', m_block_index cm' !! h = Some b' → ∃ b, m_block_index cm !! h = Some b ∧
    pprev b' = pprev b ∧ has_data b' = has_data b ∧ m_chain_tx_count b' = m_chain_tx_count b ∧ nTx b' = nTx b ∧
    (IsFailed b = true → IsFailed b' = true) ∧ (treed b → treed b')).
  { intros h b' Hb'. destruct (cl_new _ _ Hc h b' Hb') as [b Hb]. exists b.
    destruct (cl_old _ _ Hc h b Hb) as (b2 & Hb2 & E & ? & ? & ?). assert (b2 = b') as -> by congruence.
    unfold cand_view, links in E. split_and!; congruence || auto. }
  split.
  - by apply (chain_ok_links (m_block_index cm)).
  - by apply (cands_ok_keeps address cm cm'); [|apply keeps_view|..].
  - intros h b' Hb' Hd. destruct (Hback h b' Hb') as (b & Hb & _ & Ed & _ & -> & _). apply (C3 h b Hb). congruence.
  - intros h b' Hb'. destruct (Hback h b' Hb') as (b & Hb & _ & _ & _ & _ & _ & Ht). eauto.
  - rewrite Eu. intros h b' p bp' Hb' Hd Hp Hbp' Hz. destruct (Hback h b' Hb') as (b & Hb & Ep & Ed & Ez & _).
    destruct (Hback p bp' Hbp') as (bp & Hbp & _ & _ & _ & _ & F & _).
    destruct (C5 h b p bp) as [?|?]; [done|congruence..|by left|right; auto].
Qed.
End linking.
