(* ===== verification/Guards.v ===== *)
(** * No assertion of acceptance fails

    Blocks and headers come from anyone, so a failed assertion while one is accepted would
    stop the node from afar.  Here: the difficulty rules always answer, the search for the
    mergeset always ends, and the blocks in [m_failed_blocks] are marked as failed, so that
    [AcceptBlock] (Accept.v, BlockCheck.v) never stops the node. *)

From stdpp Require Import gmap.
From S2P Require Import Prelude OrdSet TipSet Arith256 Serialize BlockHeader Ghostdag Mergeset.
From S2P Require Import BlockIndex BlockIndexProvider Pow EarlyProtection Transaction Chainman Accept BlockCheck.
From S2P Require Import BlockCheckProps Connect Replay Candidates AcceptProps Activation ActivationProps Linking.

Local Open Scope Z_scope.

(** ** The difficulty rules always answer *)

(** What the rules divide by is not zero. *)
Record retarget_params (params : Params) : Prop := {
  rp_window : 1 < nDagDiffWindowSize params < 2 ^ 31;
  rp_spacing : 0 <= nDagTargetSpacingMs params < 2 ^ 32;
  rp_slow : 0 < nDagEmaSlowHalfLife params < 2 ^ 30;
  rp_adjust : 0 < nDagEmaMaxAdjust params < 2 ^ 64;
  rp_base : nLoadDiffBaseline params < 2 ^ 63;
  rp_mult : nLoadDiffMaxMultiplier params < 2 ^ 47;
  rp_BIP94 : enforce_BIP94 params = false
}.

Lemma GetAncestor_known st h b k a : chain_ok st → st !! h = Some b → GetAncestor st h k = Some a → is_Some (st !! a).
Proof.
  intros Hok Hb Ha. assert (Hk : 0 <= k <= nHeight b).
  { unfold GetAncestor in Ha. rewrite Hb in Ha. destruct (Z.ltb_spec (nHeight b) k); [done|].
    destruct (Z.ltb_spec k 0); [done|]. lia. }
  rewrite (GetAncestor_prev_n st h b k Hok Hb Hk) in Ha.
  destruct (prev_n_height st (Z.to_nat (nHeight b - k)) h b Hok Hb) as (a' & ba & Ha' & Hba & _); [lia|].
  rewrite Ha in Ha'. injection Ha' as <-. eauto.
Qed.

Lemma load_adjust_total params bn avg :
  retarget_params params → (0 <? nLoadDiffBaseline params) && (1 <? nLoadDiffMaxMultiplier params) = true →
  is_Some (load_adjust params bn avg).
Proof.
  intros [] Hl. apply andb_true_iff in Hl as [Hb Hm]. unfold load_adjust, udiv.
  rewrite (wrap_small 64 (nLoadDiffBaseline params)) by (unfold fits; lia).
  rewrite (wrap_small 64 (nLoadDiffMaxMultiplier params)) by (unfold fits; lia).
  destruct (_ && _); [|by eexists]. destruct (Z.eqb_spec (nLoadDiffBaseline params) 0); [lia|]. cbn [mbind option_bind].
  rewrite (wrap_small 64 (nLoadDiffMaxMultiplier params * FP_SCALE)) by (unfold fits, FP_SCALE; lia).
  set (m := IntegerSquareRoot _). match goal with |- is_Some (if ?x =? 0 then _ else _) => assert (Hx : x ≠ 0) end.
  { unfold FP_SCALE. repeat case_match; lia. }
  apply Z.eqb_neq in Hx as ->. by eexists.
Qed.

Section retarget.
Context (st : BlockMap) (params : Params) (last time : Z) (b : CBlockIndex).
Context (Hok : chain_ok st) (Hb : st !! last = Some b) (Hh : nHeight b < 2 ^ 31) (Hp : retarget_params params).

Lemma load_stage_ema_total post bn : 0 <= post <= nHeight b → is_Some (load_stage_ema st params last b post bn).
Proof using Hok Hb Hh Hp.
  intros Hpost. unfold load_stage_ema. destruct (_ && _ && _) eqn:El; [|by eexists]. apply andb_true_iff in El as [El _].
  destruct (rp_slow _ Hp) as [Hs1 Hs2]. set (lw := Z.min _ post).
  assert (Hlw : 0 <= lw <= nHeight b) by (unfold lw; lia).
  destruct (GetAncestor st last _) as [a|] eqn:Ea; [|by eexists].
  destruct (GetAncestor_known _ _ _ _ _ Hok Hb Ea) as [ba Hba]. rewrite Hba. cbn [mbind option_bind].
  destruct (Z.ltb_spec (m_chain_tx_count ba) (m_chain_tx_count b)); [|by eexists].
  rewrite (wrap_small 64 lw) by (unfold fits; lia). unfold udiv.
  destruct (Z.eqb_spec lw 0) as [E|]; cbn [mbind option_bind]; [exfalso|by apply load_adjust_total].
  rewrite E, swrap_small, Z.sub_0_r, (GetAncestor_prev_n st last b) in Ea by (done || lia).
  rewrite Z.sub_diag in Ea. injection Ea as <-.
  rewrite Hb in Hba. injection Hba as <-. lia.
Qed.

Lemma next_work_ema_total spacing : 0 < spacing < 2 ^ 32 → is_Some (next_work_ema st params last time b spacing).
Proof using Hok Hb Hh Hp.
  intros Hsp. unfold next_work_ema. destruct (rp_window _ Hp) as [Hw1 Hw2]. rewrite swrap_small by lia.
  destruct (Z.ltb_spec (nHeight b) (Z.max 4 (nDagDiffWindowSize params))); [by eexists|].
  destruct (_ && _); [by eexists|]. unfold ComputeBlockTimeEMA. rewrite Hb. cbn [mbind option_bind].
  unfold ema_adjust, udiv. destruct (rp_adjust _ Hp) as [Ha1 Ha2].
  rewrite (wrap_small 64 (nDagEmaMaxAdjust params)) by (unfold fits; lia).
  rewrite (wrap_small 64 spacing), (wrap_small 64 (spacing * FP_SCALE)) by (unfold fits, FP_SCALE; lia).
  destruct (Z.eqb_spec (spacing * FP_SCALE) 0); [unfold FP_SCALE in *; lia|].
  destruct (Z.eqb_spec (spacing * FP_SCALE) 0); [lia|]. cbn [mbind option_bind].
  destruct (Z.eqb_spec (nDagEmaMaxAdjust params) 0); [lia|]. cbn [mbind option_bind].
  set (bn := u256 _). destruct (load_stage_ema_total (nHeight b - Z.max 4 (nDagDiffWindowSize params)) bn) as [x ->]; [lia|].
  by eexists.
Qed.

Lemma next_work_window_total spacing : 0 < spacing < 2 ^ 32 → is_Some (next_work_window st params last time b spacing).
Proof using Hok Hb Hh Hp.
  intros Hsp. unfold next_work_window. destruct (rp_window _ Hp) as [Hw1 Hw2].
  set (w := nDagDiffWindowSize params) in *. destruct (Z.ltb_spec (nHeight b) w); [by eexists|].
  destruct (Z.eqb_spec w 0); [lia|]. destruct (negb _); [destruct (_ && _); by eexists|].
  rewrite swrap_small by lia. rewrite (GetAncestor_prev_n st last b) by (done || lia).
  destruct (prev_n_height st (Z.to_nat (nHeight b - (nHeight b - (w - 1)))) last b Hok Hb) as (a & ba & -> & Hba & _); [lia|].
  cbn [mbind option_bind]. rewrite Hba. cbn [mbind option_bind]. unfold udiv at 1.
  rewrite (wrap_small 64 (w * spacing)) by (unfold fits; nia). destruct (Z.eqb_spec (w * spacing) 0); [nia|].
  cbn [mbind option_bind]. unfold load_stage_window. destruct (_ && _) eqn:El; [|by eexists].
  destruct (m_chain_tx_count ba <? m_chain_tx_count b); [|by eexists]. unfold udiv. rewrite (wrap_small 64 (w - 1)) by (unfold fits; lia).
  destruct (Z.eqb_spec (w - 1) 0); [lia|]. cbn [mbind option_bind].
  match goal with |- context [load_adjust params ?x ?y] => destruct (load_adjust_total params x y Hp El) as [z ->] end.
  by eexists.
Qed.

Lemma GetNextWorkRequired_total opts : dag_mode params opts = true →
  is_Some (GetNextWorkRequired st params (arg_dag opts) last time).
Proof using Hok Hb Hh Hp.
  unfold dag_mode, GetNextWorkRequired. intros Hd. rewrite Hb. cbn [mbind option_bind]. rewrite Hd.
  unfold GetNextWorkRequiredDAG. rewrite Hb. cbn [mbind option_bind]. destruct (fPowNoRetargeting params); [by eexists|].
  destruct (Z.leb_spec (Z.quot (nDagTargetSpacingMs params) 1000) 0); [by eexists|].
  pose proof (rp_spacing _ Hp) as Hs. assert (Z.quot (nDagTargetSpacingMs params) 1000 < 2 ^ 32).
  { rewrite Z.quot_div_nonneg by lia. apply Z.div_lt_upper_bound; lia. }
  destruct (fDagUseEma params); [by apply next_work_ema_total|by apply next_work_window_total].
Qed.
End retarget.

Lemma testnet_retarget : retarget_params CQbtcTestNetParams.
Proof. split; vm_compute; done. Qed.

Lemma mainnet_retarget : retarget_params CQbtcMainParams.
Proof. split; vm_compute; done. Qed.

(** ** The search for the mergeset ends *)

Section search.
Context `{P : IGhostdagBlockProvider} (blocks : gset Z).
Context (Hclosed : ∀ b a, b ∈ blocks → a ∈ GetParents b → a ∈ blocks).

Definition waiting (st : bfs) : Prop := ∀ x, x ∈ queue st → x ∈ blocks.

Lemma visit_parents_left sp ps : ∀ st, (∀ a, a ∈ ps → a ∈ blocks) → waiting st →
  let st' := foldl (visit_parent sp) st ps in
  waiting st' ∧ bfs_measure (blocks := blocks) st' = bfs_measure (blocks := blocks) st.
Proof using Type.
  induction ps as [|a ps IH]; intros st Hps Hw; cbn [foldl]; [done|].
  assert (Ha : a ∈ blocks) by (apply Hps; by left).
  assert (H : waiting (visit_parent sp st a) ∧ bfs_measure (blocks := blocks) (visit_parent sp st a) = bfs_measure (blocks := blocks) st).
  { unfold visit_parent. destruct (bool_decide (a ∉ visited st)) eqn:Ev; [|done]. apply bool_decide_eq_true in Ev.
    destruct (negb _); [|done]. cbn [andb]. split.
    - intros x [Hx|Hx]%elem_of_app; [by apply Hw|]. by apply list_elem_of_singleton in Hx as ->.
    - unfold bfs_measure. cbn [visited queue]. rewrite length_app, (measure_add a blocks (visited st)) by done. simpl. lia. }
  destruct H as [H1 H2]. destruct (IH (visit_parent sp st a)) as [H3 H4]; [|done|split; [done|congruence]].
  intros x Hx. apply Hps. by right.
Qed.

Lemma mergeset_loop_ends sp fuel : ∀ st,
  waiting st → (bfs_measure (blocks := blocks) st <= fuel)%nat → is_Some (mergeset_loop fuel sp st).
Proof using Hclosed.
  induction fuel as [|fuel IH]; intros st Hw Hf; cbn [mergeset_loop]; unfold bfs_measure in Hf;
    (destruct (queue st) as [|cur q] eqn:Eq; [by eexists|]).
  { simpl in Hf. lia. }
  assert (Hcur : cur ∈ blocks) by (apply Hw; rewrite Eq; by left).
  set (st1 := mkBfs (visited st) (out_mergeset st) q).
  assert (Hw1 : waiting st1) by (intros x Hx; apply Hw; rewrite Eq; by right).
  assert (Hm1 : (bfs_measure (blocks := blocks) st1 <= fuel)%nat) by (unfold bfs_measure; simpl in *; lia).
  destruct (IsAncestorOf cur sp); [by apply IH|].
  destruct (visit_parents_left sp (GetParents cur) st1 (λ a Ha, Hclosed cur a Hcur Ha) Hw1) as [Hw2 Hm2].
  cbv zeta. destruct (_ <=? _); [by eexists|]. apply IH; [done|lia].
Qed.

Lemma ComputeGhostdag_ends fuel k parents :
  (∀ p, p ∈ parents → p ∈ blocks) → (size blocks <= fuel)%nat → is_Some (ComputeGhostdag fuel k parents).
Proof using Hclosed.
  intros Hp Hf. unfold ComputeGhostdag. destruct parents as [|p0 ps] eqn:Eps; [by eexists|]. rewrite <- Eps in *. clear Eps p0 ps.
  destruct (GetGhostdagData _); [|by eexists]. destruct (inherited_blues_loop _ _); [|by eexists].
  assert (H : is_Some (ComputeMergeset fuel parents (SelectBestParent parents))).
  { unfold ComputeMergeset. set (sp := SelectBestParent parents).
    destruct (seed_spec sp parents) as (Hq & Hnd & Ho & Hv & _).
    destruct (mergeset_loop_ends sp fuel (mergeset_seed parents sp)) as [r ->]; [| |destruct r; by eexists].
    - intros x Hx. apply Hp. rewrite Hq in Hx. by apply Ho in Hx as [Hx _].
    - unfold bfs_measure. rewrite Hq, <- (size_list_to_set (C := gset Z)) by done.
      rewrite <- size_union; [etrans; [|exact Hf]; apply subseteq_size|].
      + intros x [Hx|Hx]%elem_of_union; [set_solver|]. apply elem_of_list_to_set, Ho in Hx as [Hx _]. auto.
      + intros x Hx Hx'. apply elem_of_list_to_set in Hx'. apply elem_of_difference in Hx as [_ Hx].
        apply Hx, Hv. right. by apply Ho. }
  destruct H as [[ms|] ->]; [|by eexists]. destruct (ClassifyMergeset _ _ _). by eexists.
Qed.
End search.

(** ** What the assertions need *)

Definition invalid_bit (b : CBlockIndex) : bool := Z.testbit (nStatus b) 5.

(** An entry with its data has reached the level of its transactions. *)
Definition leveled (b : CBlockIndex) : Prop :=
  has_data b = true → BLOCK_VALID_TRANSACTIONS <= Z.land (nStatus b) BLOCK_VALID_MASK.

(** Every parent an entry points to is an entry, what is in [m_failed_blocks] is marked, and
    entries have the level of what is there of them. *)
Record guarded (cm : ChainstateManager) : Prop := {
  gd_closed : index_closed (m_block_index cm);
  gd_failed h : h ∈ m_failed_blocks cm → ∃ b, m_block_index cm !! h = Some b ∧ invalid_bit b = true;
  gd_level h b : m_block_index cm !! h = Some b → leveled b
}.

(** Marks and levels are not taken back. *)
Record graver (st st' : BlockMap) : Prop := {
  gv_bit h b : st !! h = Some b → invalid_bit b = true → ∃ b', st' !! h = Some b' ∧ invalid_bit b' = true;
  gv_level h b' : st' !! h = Some b' → leveled b' ∨ ∃ b, st !! h = Some b ∧ (leveled b → leveled b')
}.

Definition guard_flags (b : CBlockIndex) := (invalid_bit b, has_data b, Z.land (nStatus b) BLOCK_VALID_MASK).

Lemma guard_flags_status b b' : nStatus b = nStatus b' → guard_flags b = guard_flags b'.
Proof. unfold guard_flags, invalid_bit, has_data. by intros ->. Qed.

Lemma guard_flags_level b b' : guard_flags b = guard_flags b' → leveled b → leveled b'.
Proof. unfold leveled. intros [= _ -> ->]. done. Qed.

Lemma graver_refl st : graver st st.
Proof. split; eauto. Qed.

Lemma graver_view st st' : guard_flags <$> st = guard_flags <$> st' → graver st st'.
Proof.
  intros E. split.
  - intros h b Hb Hi. destruct (fmap_lookup_eq _ _ _ _ _ (eq_sym E) Hb) as (b' & Hb' & [= Ei _ _]).
    exists b'. split; [done|congruence].
  - intros h b' Hb'. right. destruct (fmap_lookup_eq _ _ _ _ _ E Hb') as (b & Hb & Ef). exists b. split; [done|].
    by apply guard_flags_level.
Qed.

Lemma graver_insert st h b b' :
  st !! h = Some b → (invalid_bit b = true → invalid_bit b' = true) → (leveled b → leveled b') → graver st (<[h := b']> st).
Proof.
  intros Hb Hi Hl. split.
  - intros g c Hg Hc. destruct (decide (g = h)) as [->|Hne].
    + rewrite lookup_insert_eq. assert (c = b) as -> by congruence. eauto.
    + rewrite lookup_insert_ne by done. eauto.
  - intros g c [[<- <-]|[_ Hc]]%lookup_insert_Some; right; eauto.
Qed.

Lemma graver_trans st1 st2 st3 : graver st1 st2 → graver st2 st3 → graver st1 st3.
Proof.
  intros [B1 L1] [B2 L2]. split.
  - intros h b Hb Hi. destruct (B1 h b Hb Hi) as (b' & Hb' & Hi'). by apply (B2 h b').
  - intros h b' Hb'. destruct (L2 h b' Hb') as [?|(b2 & Hb2 & H2)]; [by left|].
    destruct (L1 h b2 Hb2) as [?|(b1 & Hb1 & H1)]; [left|right]; eauto.
Qed.

Lemma guarded_graver cm cm' :
  guarded cm → index_closed (m_block_index cm') → graver (m_block_index cm) (m_block_index cm') →
  m_failed_blocks cm' = m_failed_blocks cm → guarded cm'.
Proof.
  intros [_ Hf Hl] Hc Hg E. split; [done| |].
  - rewrite E. intros h Hh. destruct (Hf h Hh) as (b & Hb & Hi). by apply (gv_bit _ _ Hg h b).
  - intros h b' Hb'. destruct (gv_level _ _ Hg h b' Hb') as [?|(b & Hb & H)]; eauto.
Qed.

(** Adding a bit that is not one of the level. *)
Lemma lor_flags b m :
  Z.land m BLOCK_VALID_MASK = 0 → Z.testbit m 5 = false → Z.land m BLOCK_HAVE_DATA = 0 →
  guard_flags b = guard_flags (set_nStatus (Z.lor (nStatus b) m) b).
Proof.
  intros H1 H2 H3. unfold guard_flags, invalid_bit, has_data. cbn [nStatus set_nStatus].
  by rewrite Z.lor_spec, H2, !Z.land_lor_distr_l, H1, H3, !Z.lor_0_r, orb_false_r.
Qed.

Lemma lor_leveled b m :
  Z.land m BLOCK_VALID_MASK = 0 → Z.land m BLOCK_HAVE_DATA = 0 → leveled b → leveled (set_nStatus (Z.lor (nStatus b) m) b).
Proof.
  intros H1 H3. unfold leveled, has_data. cbn [nStatus set_nStatus]. by rewrite !Z.land_lor_distr_l, H1, H3, !Z.lor_0_r.
Qed.

Lemma raise_level s up :
  0 <= up <= BLOCK_VALID_MASK →
  Z.land s BLOCK_VALID_MASK <= Z.land (RaiseValidity s up) BLOCK_VALID_MASK ∧
  (Z.land s BLOCK_FAILED_MASK = 0 → up <= Z.land (RaiseValidity s up) BLOCK_VALID_MASK).
Proof.
  intros Hu. unfold RaiseValidity. destruct (Z.eqb_spec (Z.land s BLOCK_FAILED_MASK) 0); cbn [negb]; [|by split].
  destruct (Z.ltb_spec (Z.land s BLOCK_VALID_MASK) up); [|by split].
  rewrite raised_level by done. lia.
Qed.

(** Changes of flags and scores. *)
Definition steady (st st' : BlockMap) : Prop := dag_links <$> st = dag_links <$> st' ∧ graver st st'.

Lemma steady_refl st : steady st st.
Proof. split; [done|apply graver_refl]. Qed.

Lemma steady_trans st1 st2 st3 : steady st1 st2 → steady st2 st3 → steady st1 st3.
Proof. intros [H1 H2] [H3 H4]. split; [congruence|by eapply graver_trans]. Qed.

Lemma steady_insert st h b b' :
  st !! h = Some b → dag_links b = dag_links b' → (invalid_bit b = true → invalid_bit b' = true) →
  (leveled b → leveled b') → steady st (<[h := b']> st).
Proof. intros Hb Hl Hi Hlv. split; [by apply (fmap_insert_same _ _ _ b)|by apply (graver_insert _ _ b)]. Qed.

Lemma guarded_steady cm cm' :
  guarded cm → steady (m_block_index cm) (m_block_index cm') → m_failed_blocks cm' = m_failed_blocks cm → guarded cm'.
Proof. intros Hg [Hl Hgr] E. apply (guarded_graver cm); [done| |done|done]. eapply closed_dag_links; [done|apply Hg]. Qed.

Lemma failed_child_flags b : guard_flags b = guard_flags (set_nStatus (Z.lor (nStatus b) BLOCK_FAILED_CHILD) b).
Proof. by apply lor_flags. Qed.

Lemma failed_valid_bit b : invalid_bit (set_nStatus (Z.lor (nStatus b) BLOCK_FAILED_VALID) b) = true.
Proof. unfold invalid_bit. cbn [nStatus set_nStatus]. by rewrite Z.lor_spec, orb_true_r. Qed.

Lemma failed_valid_insert st h b :
  st !! h = Some b → steady st (<[h := set_nStatus (Z.lor (nStatus b) BLOCK_FAILED_VALID) b]> st).
Proof. intros Hb. apply (steady_insert _ _ b); [done..| |by apply lor_leveled]. intros _. apply failed_valid_bit. Qed.

Lemma marked_bit b : invalid_bit b = true → Z.land (nStatus b) BLOCK_FAILED_VALID ≠ 0.
Proof.
  unfold invalid_bit. intros H E. apply (f_equal (λ z, Z.testbit z 5)) in E. rewrite Z.land_spec, H in E. done.
Qed.

Lemma remove_chain_failed address fuel ff : ∀ cm h t cm',
  remove_chain address fuel ff cm h t = Some cm' → m_failed_blocks cm' = m_failed_blocks cm.
Proof.
  induction fuel as [|fuel IH]; intros cm h t cm'; cbn [remove_chain]; (destruct (_ =? _); [by intros [= <-]|]); [done|].
  destruct (m_block_index cm !! h) as [b|]; [|done]. destruct (pprev b); [|done]. intros ->%IH. by destruct ff.
Qed.

Lemma find_most_work_failed address fuel : ∀ cm cm' r,
  find_most_work address fuel cm = Some (cm', r) → m_failed_blocks cm' = m_failed_blocks cm.
Proof.
  induction fuel as [|fuel IH]; intros cm cm' r; cbn [find_most_work];
    (destruct (last _) as [h|]; [|by intros [= <- _]]); [done|]. cbv zeta.
  destruct (find_unusable _ _ _ _) as [[[t b]|]|]; [|by intros [= <- _]|done].
  destruct (remove_chain _ _ _ _ _ _) as [cm1|] eqn:E; [|done]. intros ->%IH. apply remove_chain_failed in E as ->.
  destruct (IsFailed b); [|done]. unfold note_invalid. by repeat case_match.
Qed.

Section guards.
Context (SHA256d : list Z → Z) (genesis : Z) (params : Params) (opts : Options).
Context (Hdag : dag_mode params opts = true) (Hparams : retarget_params params).
Implicit Types (cm : ChainstateManager).

Lemma descends_asserted st prev prev_b failed :
  (∀ f, f ∈ failed → ∃ b, st !! f = Some b ∧ invalid_bit b = true) → descends_from_failed st prev prev_b failed ≠ Some None.
Proof using Type.
  induction failed as [|f failed IH]; intros Hf; cbn [descends_from_failed]; [done|].
  destruct (Hf f) as (b & -> & Hi); [by left|]. case_bool_decide.
  - apply marked_bit, Z.eqb_neq in Hi as ->. done.
  - apply IH. intros g Hg. apply Hf. by right.
Qed.

Lemma dag_header_asserted st block prev_b : check_dag_header SHA256d params opts st block prev_b ≠ Some Abort.
Proof using Type.
  unfold check_dag_header. destruct (_ && _); [|done]. destruct (_ <? _); [done|]. destruct (negb _); [done|].
  generalize (∅ : gset Z). induction (hdr_hashParents block) as [|p ps IH]; intros seen; cbn [check_dag_parents]; [done|].
  destruct (_ =? _); [done|]. case_bool_decide; [done|]. destruct (st !! p); [|apply IH].
  destruct (IsFailed _); [done|]. destruct (_ && _); [done|apply IH].
Qed.

Lemma check_new_header_asserted cm block now :
  chain_ok (m_block_index cm) → (∀ h b, m_block_index cm !! h = Some b → nHeight b < 2 ^ 31) → guarded cm →
  (check_new_header SHA256d params opts cm block now).2 ≠ Some Abort.
Proof using Hdag Hparams.
  intros Hok Hh Hg. unfold check_new_header. unfold CheckBlockHeader. destruct (CheckProofOfWork _ _ _); [|done].
  destruct (m_block_index cm !! hdr_hashPrevBlock block) as [b|] eqn:Hb; [|done]. destruct (IsFailed b); [done|].
  unfold ContextualCheckBlockHeader.
  destruct (GetNextWorkRequired_total _ params (hdr_hashPrevBlock block) (hdr_nTime block) b Hok Hb (Hh _ _ Hb) Hparams opts Hdag) as [bits ->].
  rewrite (rp_BIP94 _ Hparams). cbn [andb].
  destruct (negb _); [done|]. destruct (before_checkpoint _ _ _); [done|]. destruct (_ <=? _); [done|].
  destruct (_ <? _); [done|]. destruct (outdated_version _ _ _); [done|].
  pose proof (dag_header_asserted (m_block_index cm) block b) as Hd. destruct (check_dag_header _ _ _ _ _ _); [done|].
  destruct (IsValid _ _); [done|].
  pose proof (descends_asserted _ (hdr_hashPrevBlock block) b (m_failed_blocks cm) (gd_failed _ Hg)) as Hf.
  by destruct (descends_from_failed _ _ _ _) as [[]|].
Qed.

Lemma add_header_entry_guarded cm hash block : guarded cm → guarded (add_header_entry cm hash block).
Proof using Type.
  intros Hg. pose proof (AddToBlockIndex_closed _ hash block (m_best_header cm) (gd_closed _ Hg)) as Hc.
  unfold add_header_entry. destruct (AddToBlockIndex _ _ _ _) as [st best] eqn:E. apply (guarded_graver cm); [done..| |done].
  unfold AddToBlockIndex in E. destruct (m_block_index cm !! hash) eqn:Eh; injection E as <- _; [apply graver_refl|].
  cbn. split.
  - intros h b Hb Hi. exists b. by rewrite lookup_insert_ne by congruence.
  - intros h b' [[_ <-]|[_ Hb']]%lookup_insert_Some; [by left|right; eauto].
Qed.

Lemma AcceptBlockHeader_guarded cm block mp now :
  chain_ok (m_block_index cm) → (∀ h b, m_block_index cm !! h = Some b → nHeight b < 2 ^ 31) → guarded cm →
  let r := AcceptBlockHeader SHA256d genesis params opts cm block mp now in guarded r.1 ∧ r.2 ≠ inr Abort.
Proof using Hdag Hparams.
  intros Hok Hh Hg. cbv zeta. unfold AcceptBlockHeader.
  destruct (negb _); [|destruct mp; (split; [|done]); [by apply add_header_entry_guarded|done]].
  destruct (m_block_index cm !! _) as [b|]; [by destruct (IsFailed b)|].
  pose proof (check_new_header_asserted cm block now Hok Hh Hg) as Ha.
  assert (Hc : guarded (check_new_header SHA256d params opts cm block now).1).
  { unfold check_new_header. repeat (case_match; try done). cbn [fst]. apply (guarded_graver cm); [done| | |done].
    - eapply closed_dag_links; [by eapply descends_from_failed_view|apply Hg].
    - apply graver_view. eapply descends_from_failed_view; [apply failed_child_flags|done]. }
  destruct (check_new_header _ _ _ _ _ _) as [cm' [f|]]; cbn [fst snd] in *.
  - split; [done|]. congruence.
  - destruct mp; (split; [|done]); [by apply add_header_entry_guarded|done].
Qed.

(** *** The stages of a block *)

Lemma score_stage_asserted st hash :
  index_closed st → is_Some (st !! hash) → (score_stage params st hash).2 ≠ Some Abort.
Proof using Type.
  intros Hc [b Hb]. unfold score_stage. rewrite Hb. destruct (Index_GetParents st hash) as [|p0 ps] eqn:Ep; [done|].
  destruct (forallb _ _); [|done]. rewrite <- Ep.
  destruct (ComputeGhostdag_ends (P := BlockIndexGhostdagProvider st) (dom st)) with (size st) (ghostdag_k params)
    (Index_GetParents st hash) as [[d|] ->]; [| | |done|done].
  - intros h a [c Hh]%elem_of_dom Ha. apply elem_of_dom. by apply (Hc h c).
  - intros p Hp. apply elem_of_dom. by apply (Hc hash b).
  - by rewrite size_dom.
Qed.

Lemma dag_stage_guarded cm hash block :
  guarded cm → is_Some (m_block_index cm !! hash) →
  let r := dag_stage params opts cm hash block in guarded r.1 ∧ r.2 ≠ Some Abort.
Proof using Hdag.
  intros Hg [b Hb]. cbv zeta. unfold dag_stage. rewrite Hdag, Hb.
  pose proof (resolve_stage_ok _ hash b block Hb (gd_closed _ Hg)) as [Hl Hc].
  assert (Hr : graver (m_block_index cm) (resolve_stage (m_block_index cm) hash b block).1 ∧
    (resolve_stage (m_block_index cm) hash b block).2 ≠ Some Abort).
  { unfold resolve_stage. destruct (_ && _); [|split; [apply graver_refl|done]].
    assert (Hp : (resolve_parents (m_block_index cm) (hdr_hashParents block)).2 ≠ Some Abort).
    { induction (hdr_hashParents block) as [|p ps IH]; cbn [resolve_parents]; [done|]. destruct (_ !! p); [|done].
      destruct (IsFailed _); [done|]. by destruct (resolve_parents _ _). }
    destruct (resolve_parents _ _) as [l f]. split; [|done]. by apply (graver_insert _ _ b). }
  destruct Hr as [Hgr Ha]. assert (Hk : is_Some ((resolve_stage (m_block_index cm) hash b block).1 !! hash))
    by (eapply fmap_lookup_is_Some; [exact Hl|by eexists]).
  destruct (resolve_stage _ _ _ _) as [st [f|]]; cbn [fst snd] in *.
  { split; [by apply (guarded_graver cm)|congruence]. }
  pose proof (score_stage_asserted st hash Hc Hk) as Hs. pose proof (score_stage_links params st hash) as Hsl.
  assert (Hsg : graver st (score_stage params st hash).1).
  { unfold score_stage. destruct (st !! hash) as [c|] eqn:Hc'; [|apply graver_refl].
    repeat (case_match; try done); try apply graver_refl; by apply (graver_insert _ _ c). }
  destruct (score_stage params st hash) as [st' f]. cbn [fst snd] in *. split; [|congruence].
  apply (guarded_graver cm); [done|by eapply closed_dag_links|by eapply graver_trans|done].
Qed.

Lemma early_stage_guarded cm hash now rand : guarded cm → guarded (early_stage params opts cm hash now rand).
Proof using Type.
  intros Hg. apply (guarded_graver cm); [done| | |].
  - eapply closed_dag_links; [by apply early_stage_view|apply Hg].
  - apply graver_view. by apply early_stage_view.
  - unfold early_stage. by repeat (case_match; try done).
Qed.

Lemma Received_guarded address cm hash n b :
  guarded cm → m_block_index cm !! hash = Some b → IsFailed b = false →
  guarded (ReceivedBlockTransactions params address cm hash n).
Proof using Type.
  intros Hg Hb Hnf. apply (guarded_graver cm); [done| | |].
  - eapply closed_dag_links; [by apply ReceivedBlockTransactions_view|apply Hg].
  - eapply graver_trans; [|apply graver_view; by apply (Received_view guard_flags (λ _ _ _ _, eq_refl) params address cm hash n b)].
    apply (graver_insert _ _ b); [done| |]; [unfold invalid_bit; by rewrite received_bit|]. intros _ _.
    cbn [nStatus received_entry set_nStatus]. apply raise_level; [done|]. apply negb_false_iff, Z.eqb_eq in Hnf.
    destruct (_ <=? _); by rewrite !Z.land_lor_distr_l, Hnf.
  - assert (Hloop : ∀ fuel cm queue, m_failed_blocks (link_loop address fuel cm queue) = m_failed_blocks cm).
    { induction fuel as [|fuel IH]; intros c queue; [done|]. cbn [link_loop]. destruct queue; [done|].
      destruct (m_block_index c !! _); [|done]. cbv zeta. by rewrite IH. }
    unfold ReceivedBlockTransactions. rewrite Hb. cbv zeta. repeat (case_match; try done); by rewrite Hloop.
Qed.

(** *** The block *)

Section block.
Context (address : Z → Z) (bparams : BodyParams) (CheckSignetBlockSolution : CBlockHeader → list CTransaction → bool).
Context (SaveBlockToDisk : CBlockHeader → list CTransaction → Z → bool).

(** A block that passes [CheckBlock] starts with a coinbase, which has an input. *)
Lemma check_contents_first header vtx :
  check_contents header vtx = None → ∃ cb input rest, vtx = cb :: rest ∧ vin cb = [input].
Proof using Type.
  unfold check_contents. destruct (_ || _ || _); [done|]. destruct vtx as [|cb rest]; [done|].
  destruct (IsCoinBase cb) eqn:Ec; cbn [negb]; [|done]. intros _. unfold IsCoinBase in Ec.
  destruct (vin cb) as [|input [|]] eqn:Ev; try done. by exists cb, input, rest.
Qed.

Lemma CheckBlock_asserted header vtx :
  match (CheckBlock SHA256d params bparams CheckSignetBlockSolution (new_block header vtx) true true).2 with
  | Some f => f ≠ Abort
  | None => check_contents header vtx = None
  end.
Proof using Type.
  change (new_block header vtx) with (bare (new_block header vtx)) at 1. rewrite CheckBlock_bare.
  cbn [blk_header blk_vtx new_block]. unfold CheckBlockHeader.
  destruct (CheckProofOfWork _ _ _); [|done]. destruct (_ && _ && _); [done|].
  assert (Hm : (CheckMerkleRoot SHA256d (new_block header vtx)).2 ≠ Some Abort)
    by (unfold CheckMerkleRoot; by repeat (case_match; try done)).
  destruct (CheckMerkleRoot _ _).2; [congruence|].
  assert (Hc : check_contents header vtx ≠ Some Abort).
  { unfold check_contents. destruct (_ || _ || _); [done|]. destruct (match vtx with [] => _ | _ => _ end); [done|].
    destruct (existsb _ _); [done|].
    assert (Ht : check_transactions vtx ≠ Some Abort).
    { clear. induction vtx as [|tx txs IH]; cbn [check_transactions]; [done|]. by destruct (CheckTransaction tx). }
    destruct (check_transactions _); [done|]. by destruct (_ <? _). }
  destruct (check_contents _ _); [congruence|done].
Qed.

Lemma ContextualCheckBlock_asserted st header vtx prev :
  check_contents header vtx = None →
  (ContextualCheckBlock SHA256d params bparams st (new_block header vtx) (Some prev)).2 ≠ Some Abort.
Proof using Type.
  intros (cb & input & rest & -> & Hv)%check_contents_first. unfold ContextualCheckBlock.
  destruct (lock_time_cutoff _ _ _ _) as [cutoff|] eqn:El; [|unfold lock_time_cutoff in El; by destruct (ActiveAfter _ _)].
  destruct (negb _); [done|].
  assert (Hh : (if ActiveAfter (block_height st (Some prev)) (BIP34Height params)
     then height_in_coinbase (blk_vtx (new_block header (cb :: rest))) (block_height st (Some prev)) else None) ≠ Some Abort).
  { destruct (ActiveAfter _ _); [|done]. unfold height_in_coinbase. cbn [blk_vtx new_block]. rewrite Hv. by destruct (_ || _). }
  destruct (if ActiveAfter _ _ then _ else _); [done|].
  assert (Hn : no_witness (cb :: rest) ≠ Some Abort) by (unfold no_witness; by destruct (existsb _ _)).
  assert (Hw : ∀ e, (CheckWitnessMalleation SHA256d (new_block header (cb :: rest)) e).2 ≠ Some Abort).
  { intros e. unfold CheckWitnessMalleation. cbn [m_checked_witness_commitment new_block blk_vtx].
    destruct e; [|done]. destruct (GetWitnessCommitmentIndex _); [|done].
    assert (Hk : ∀ pos, check_commitment SHA256d (cb :: rest) pos ≠ Some Abort)
      by (intros pos; unfold check_commitment; rewrite Hv; by repeat (case_match; try done)).
    specialize (Hk n). by destruct (check_commitment _ _ _). }
  specialize (Hw (ActiveAfter (block_height st (Some prev)) (SegwitHeight params))).
  destruct (CheckWitnessMalleation _ _ _) as [b [f|]]; [done|]. cbn [snd]. unfold check_weight.
  destruct (_ <? _); [done|]. by destruct (_ && _).
Qed.

Lemma body_asserted st header vtx prev :
  check_body (λ header vtx, (CheckBlock SHA256d params bparams CheckSignetBlockSolution (new_block header vtx) true true).2)
    (λ st header vtx prev, (ContextualCheckBlock SHA256d params bparams st (new_block header vtx) prev).2)
    st header vtx (Some prev) ≠ Some Abort.
Proof using Type.
  unfold check_body. pose proof (CheckBlock_asserted header vtx) as Hc.
  destruct (CheckBlock _ _ _ _ _ _ _).2; [congruence|]. by apply ContextualCheckBlock_asserted.
Qed.

(** A block, whatever it contains, is accepted or turned down. *)
Lemma AcceptFullBlock_guarded cm header vtx req mp now rand :
  link_ok address cm [] → sane genesis (m_block_index cm) → data_at (m_block_index cm) genesis →
  header_fits SHA256d (m_block_index cm) header → guarded cm →
  let r := AcceptFullBlock SHA256d params bparams CheckSignetBlockSolution genesis opts address SaveBlockToDisk cm header vtx
    req mp now rand in
  guarded r.1 ∧ r.2 ≠ inr Abort.
Proof using Hdag Hparams.
  intros Hl Hs (bg & Hbg & Hdg) Hfit Hg. cbv zeta. unfold AcceptFullBlock, AcceptBlock.
  pose proof (AcceptBlockHeader_end address SHA256d genesis params opts cm header mp now Hl Hs ltac:(eauto) Hfit) as H1.
  destruct (AcceptBlockHeader_guarded cm header mp now (li_chain _ _ _ Hl) (li_height _ _ _ Hl) Hg) as [Hg1 Ha1].
  destruct (AcceptBlockHeader _ _ _ _ _ _ _ _) as [cm1 [hash|f]]; destruct H1 as (_ & Hs1 & _ & M1 & Hr); cbn [fst snd] in *;
    [|split; [done|congruence]].
  destruct (Hr hash eq_refl) as (-> & b & Hb & Hnf). rewrite Hb. set (hash := GetHash SHA256d header) in *.
  destruct (skip_block opts cm1 b req) eqn:Hskip; [done|]. apply orb_false_iff in Hskip as [Hd _]. change (has_data b = false) in Hd.
  destruct (pprev b) as [prev|] eqn:Hp.
  2: { pose proof (sn_root _ _ Hs1 _ _ Hb Hp) as ->. destruct (md_old _ _ M1 genesis bg Hbg) as (b2 & Hb2 & _ & D2 & _). congruence. }
  assert (Hf : IsFailed b = false).
  { destruct Hnf as [?|E]; [done|]. destruct (md_old _ _ M1 genesis bg Hbg) as (b2 & Hb2 & _ & D2 & _). congruence. }
  pose proof (body_asserted (m_block_index cm1) header vtx prev) as Hbody.
  destruct (check_body _ _ _ _ _ _) as [f|].
  { split; [|cbn [snd]; congruence]. unfold body_failed. destruct f as [r reason| |]; [|done..]. case_bool_decide; [done|].
    cbn [fst]. apply (guarded_graver cm1); [done| | |done].
    - eapply closed_dag_links; [|apply Hg1]. by apply (fmap_insert_same _ _ _ b).
    - by apply failed_valid_insert. }
  destruct (dag_stage_guarded cm1 hash header Hg1) as [Hg2 Ha2]; [by eexists|].
  destruct (dag_stage_touched params opts cm1 hash header b Hb) as (T2 & _).
  destruct (touched_mild _ _ _ _ Hb Hd T2) as (_ & b2 & Hb2 & _ & Hf2).
  destruct (dag_stage params opts cm1 hash header) as [cm2 [f|]]; cbn [fst snd] in *; [split; [done|congruence]|].
  pose proof (early_stage_guarded cm2 hash now rand Hg2) as Hg3.
  destruct (SaveBlockToDisk _ _ _); [|done]. split; [|done]. cbn [fst].
  destruct (fmap_lookup_eq IsFailed _ _ hash b2 (eq_sym (early_stage_view IsFailed (λ _ _, eq_refl) params opts cm2 hash now rand)) Hb2)
    as (b3 & Hb3 & Ef3).
  pose proof (Received_guarded address _ hash (Z.of_nat (length vtx)) b3 Hg3 Hb3 ltac:(congruence)) as Hg4.
  destruct (tips_stage_index params opts (ReceivedBlockTransactions params address
    (early_stage params opts cm2 hash now rand) hash (Z.of_nat (length vtx))) hash) as [Hi _].
  apply (guarded_graver _ _ Hg4); rewrite ?Hi; [apply Hg4|apply graver_refl|].
  unfold tips_stage. by repeat (case_match; try done).
Qed.
End block.
End guards.
