(* ===== verification/Chainstate.v ===== *)
(** * The chainstate of the node: coins in memory and on disk

    What [ConnectTip] and [DisconnectTip] of src/src/validation.cpp do with coins and undo
    data, and [FlushStateToDisk], as an instance of [Ledger] (Activation.v).  A block is
    connected on a cache over [CoinsTip], which is flushed into it when the block is valid;
    [CoinsTip] is a cache over a view, the database.

    What the machine answers during a flush, the clock, the use of memory and whether the
    disk takes the data, are given per call by an environment.  Pruning is left out. *)

From Stdlib Require Import String.
From stdpp Require Import gmap.
From S2P Require Import Prelude PqcWitness Arith256 Serialize BlockHeader BlockIndex Pow Subsidy.
From S2P Require Import Transaction Script Chainman Accept BlockCheck Coins Connect Activation.

Local Open Scope Z_scope.
Local Open Scope coins_scope.

(** ** When to flush *)

Inductive CoinsCacheSizeState := OK | LARGE | CRITICAL.

(** The values of the enumerators, which are compared. *)
Definition cache_state_value (s : CoinsCacheSizeState) : Z :=
  match s with OK => 0 | LARGE => 1 | CRITICAL => 2 end.

Definition MAX_BLOCK_COINSDB_USAGE_BYTES : Z := 10 * 1024 * 1024.

(** Seconds. *)
Definition DATABASE_WRITE_INTERVAL : Z := 60 * 60.
Definition DATABASE_FLUSH_INTERVAL : Z := 24 * 60 * 60.

Definition GetCoinsCacheSizeState (max_coins_cache_size_bytes max_mempool_size_bytes : Z)
    (nMempoolUsage cacheSize : Z) : CoinsCacheSizeState :=
  let nTotalSpace :=
    s64 (max_coins_cache_size_bytes + Z.max (s64 max_mempool_size_bytes - nMempoolUsage) 0) in
  let large_threshold :=
    Z.max (Z.quot (9 * nTotalSpace) 10) (nTotalSpace - MAX_BLOCK_COINSDB_USAGE_BYTES) in
  if nTotalSpace <? cacheSize then CRITICAL
  else if large_threshold <? cacheSize then LARGE
  else OK.

Section chainstate.
Context {V : Type} `{!CCoinsView V}.

(** [flush_calls] counts the calls of [FlushStateToDisk], for the environment. *)
Record Chainstate := mkChainstate {
  undo_files : gmap Z CBlockUndo;
  CoinsTip : CCoinsViewCache V;
  m_last_write : Z;
  m_last_flush : Z;
  flush_calls : nat
}.

(** What the machine answers in one call: the time, the use of memory, whether there is
    space for the blocks and for the coins, and whether the block index and the coins can be
    written. *)
Record FlushEnv := mkFlushEnv {
  nNow : Z;
  coins_usage : CCoinsViewCache V → Z;
  mempool_usage : Z;
  blocks_space : bool;
  index_written : bool;
  coins_space : bool;
  coins_writable : bool
}.

Context (env : nat → FlushEnv) (m_coinstip_cache_size_bytes max_mempool_size_bytes : Z).

Definition FlushStateToDisk (mode : FlushStateMode) (l : Chainstate) : Chainstate * option Failure :=
  let e := env (flush_calls l) in
  let now := nNow e in
  let cache_state := GetCoinsCacheSizeState m_coinstip_cache_size_bytes max_mempool_size_bytes
                       (mempool_usage e) (coins_usage e (CoinsTip l)) in
  let last_write := if m_last_write l =? 0 then now else m_last_write l in
  let last_flush := if m_last_flush l =? 0 then now else m_last_flush l in
  let l1 write flush coins := mkChainstate (undo_files l) coins write flush (S (flush_calls l)) in
  let fCacheLarge := bool_decide (mode = PERIODIC) && (cache_state_value LARGE <=? cache_state_value cache_state) in
  let fCacheCritical :=
    bool_decide (mode = IF_NEEDED) && (cache_state_value CRITICAL <=? cache_state_value cache_state) in
  let fPeriodicWrite := bool_decide (mode = PERIODIC) && (last_write + DATABASE_WRITE_INTERVAL <? now) in
  let fPeriodicFlush := bool_decide (mode = PERIODIC) && (last_flush + DATABASE_FLUSH_INTERVAL <? now) in
  let fDoFullFlush := bool_decide (mode = ALWAYS) || fCacheLarge || fCacheCritical || fPeriodicFlush in
  let write := fDoFullFlush || fPeriodicWrite in
  if write && negb (blocks_space e) then (l1 last_write last_flush (CoinsTip l), Some SystemError)
  else if write && negb (index_written e) then (l1 last_write last_flush (CoinsTip l), Some SystemError)
  else
    let last_write := if write then now else last_write in
    if fDoFullFlush
    then let '(coins, best) := GetBestBlock (CoinsTip l) in
         if best =? 0 then (l1 last_write last_flush coins, None)
         else if negb (coins_space e) then (l1 last_write last_flush coins, Some SystemError)
         else
           let empty_cache := bool_decide (mode = ALWAYS) || fCacheLarge || fCacheCritical in
           if negb (coins_writable e) then (l1 last_write last_flush coins, Some SystemError)
           else match (if empty_cache then Flush coins else Sync coins) with
                | None => (l1 last_write last_flush coins, Some Abort)
                | Some coins => (l1 last_write now coins, None)
                end
    else (l1 last_write last_flush (CoinsTip l), None).

(** ** Connecting and disconnecting the tip *)

Context (SHA256d : list Z → Z) (params : Params) (bparams : BodyParams) (cparams : ConnectParams)
  (opts : Options).
Context (CheckSignetBlockSolution : CBlockHeader → list CTransaction → bool).
Context (CScriptCheck : CTransaction → nat → list CTxOut → Z → option string).
Context (pqc_active : option Z → bool) (parallel_script_checks : bool).
Context (UndoWriteToDisk : Z → CBlockUndo → bool) (ReadBlock : Z → option CBlock).

Definition with_coins (l : Chainstate) (undo : gmap Z CBlockUndo) (coins : CCoinsViewCache V) : Chainstate :=
  mkChainstate undo coins (m_last_write l) (m_last_flush l) (flush_calls l).

(** The block that is given or read, connected on a cache over [CoinsTip]. *)
Definition connect_view (st : BlockMap) (best_header : option Z) (pindexNew : Z) (pblock : option CBlock)
    (l : Chainstate) : BlockMap * Chainstate * option Failure :=
  match (match pblock with Some block => Some block | None => ReadBlock pindexNew end) with
  | None => (st, l, Some SystemError)
  | Some block =>
      match ConnectBlock SHA256d params bparams cparams opts CheckSignetBlockSolution CScriptCheck pqc_active
              parallel_script_checks UndoWriteToDisk (st, undo_files l) best_header pindexNew block false
              (NewCache (CoinsTip l)) with
      | ((st, undo), view, Some f) => (st, with_coins l undo (base view), Some f)
      | ((st, undo), view, None) =>
          match Flush view with
          | None => (st, with_coins l undo (base view), Some Abort)
          | Some view =>
              let '(l, r) := FlushStateToDisk IF_NEEDED (with_coins l undo (base view)) in (st, l, r)
          end
      end
  end.

Definition disconnect_view (st : BlockMap) (pindexDelete : Z) (l : Chainstate) : Chainstate * option Failure :=
  match ReadBlock pindexDelete with
  | None => (l, Some SystemError)
  | Some block =>
      let '(view, best) := GetBestBlock (NewCache (CoinsTip l)) in
      if negb (best =? pindexDelete) then (with_coins l (undo_files l) (base view), Some Abort)
      else
        match DisconnectBlock SHA256d (st, undo_files l) pindexDelete (blk_vtx block) view with
        | (view, inr f) => (with_coins l (undo_files l) (base view), Some f)
        | (view, inl r) =>
            if negb (bool_decide (r = DISCONNECT_OK))
            then (with_coins l (undo_files l) (base view), Some SystemError)
            else match Flush view with
                 | None => (with_coins l (undo_files l) (base view), Some Abort)
                 | Some view => FlushStateToDisk IF_NEEDED (with_coins l (undo_files l) (base view))
                 end
        end
  end.

#[export] Instance Chainstate_ledger : Ledger Chainstate := {|
  connect_coins := connect_view;
  disconnect_coins := disconnect_view;
  flush_coins := FlushStateToDisk
|}.
End chainstate.
Arguments Chainstate V : clear implicits.
Arguments FlushEnv V : clear implicits.
