(* ===== verification/ChainstateProps.v ===== *)
(** * The chainstate is a ledger

    The chainstate of the node (Chainstate.v) keeps the laws that activation needs
    (ActivationProps.v): its coins are those of the chain to the tip, and its undo files hold
    what was spent by every block that was ever connected.  So the theorem on activation
    holds of the node, down to the caches of coins and the database. *)

From Stdlib Require Import String.
From stdpp Require Import gmap.
From S2P Require Import Prelude PqcWitness OrdSet Arith256 Serialize BlockHeader BlockIndex Pow Subsidy.
From S2P Require Import Transaction Script Chainman Accept BlockCheck BlockCheckProps Coins CoinsDB.
From S2P Require Import Connect ConnectSim ConnectProps Replay ConnectTotal Candidates.
From S2P Require Import Activation ActivationProps Chainstate.

Local Open Scope Z_scope.
Local Open Scope coins_scope.

(** ** What connecting leaves of the view below *)

(** A property that every operation on coins keeps is kept by connecting a block. *)
Section stable.
Context {V : Type} `{!CoinOps V} (Inv : V → Prop).

Record ops_keep : Prop := {
  ok_have o v : Inv v → Inv (HaveCoin o v).1;
  ok_access o v : Inv v → Inv (AccessCoin o v).1;
  ok_spend o v : Inv v → Inv (SpendCoin o v).1;
  ok_add o c ov v v' : Inv v → AddCoin o c ov v = Some v' → Inv v';
  ok_best v : Inv v → Inv (GetBestBlock v).1;
  ok_set h v : Inv v → Inv (SetBestBlock h v)
}.

Context (Hkeep : ops_keep).

Definition stable {E A} (m : M V E A) : Prop := ∀ v, Inv v → Inv (m v).1.

Lemma stable_then {E A B} (m : M V E A) (f : A → M V E B) :
  stable m → (∀ a, stable (f a)) → stable (mthen m f).
Proof using Type.
  intros Hm Hf v Hv. unfold mthen. specialize (Hm v Hv). destruct (m v) as [v' [a|e]]; [by apply Hf|done].
Qed.

Lemma stable_lift {E A} (op : V → V * A) : (∀ v, Inv v → Inv (op v).1) → stable (E := E) (lift op).
Proof using Type. intros H v Hv. unfold lift. specialize (H v Hv). by destruct (op v). Qed.

Lemma stable_add {E} (e : E) o c ov : stable (attempt e (AddCoin o c ov)).
Proof using Hkeep.
  intros v Hv. unfold attempt. destruct (AddCoin o c ov v) as [v'|] eqn:E'; [|done]. by eapply (ok_add Hkeep).
Qed.

Lemma stable_map_error {E F A} (f : E → F) (m : M V E A) : stable m → stable (map_error f m).
Proof using Type. intros Hm v Hv. unfold map_error. specialize (Hm v Hv). by destruct (m v) as [v' []]. Qed.

Ltac stable_auto :=
  repeat match goal with
    | |- ∀ _, stable _ => intros ?
    | |- stable (mthen _ _) => apply stable_then
    | |- stable (if ?b then _ else _) => destruct b
    | |- stable (match ?o with _ => _ end) => destruct o
    | |- stable (mret _) => by intros ? ?
    | |- stable (fail _) => by intros ? ?
    | |- stable (lift _) => apply stable_lift, Hkeep
    | |- stable (attempt _ _) => apply stable_add
    | |- stable (map_error _ _) => apply stable_map_error
    | |- stable _ => solve [auto]
    end.

Context (SHA256d : list Z → Z) (params : Params) (bparams : BodyParams) (cparams : ConnectParams) (opts : Options).
Context (CheckSignetBlockSolution : CBlockHeader → list CTransaction → bool).
Context (CScriptCheck : CTransaction → nat → list CTxOut → Z → option string).
Context (pqc_active : option Z → bool) (parallel_script_checks : bool).
Context (UndoWriteToDisk : Z → CBlockUndo → bool).

Lemma stable_access_all {E} (e : E) ins : stable (access_all e ins).
Proof using Hkeep. induction ins; cbn [access_all]; unfold access_unspent; stable_auto. Qed.

Lemma stable_prev_heights {E} ins : stable (E := E) (prev_heights ins).
Proof using Hkeep. induction ins; cbn [prev_heights]; stable_auto. Qed.

Lemma stable_sigop_cost tx flags : stable (GetTransactionSigOpCost tx flags).
Proof using Hkeep.
  assert (H1 : ∀ ins n, stable (p2sh_loop ins n))
    by (induction ins; intros n; cbn [p2sh_loop]; unfold access_unspent; stable_auto).
  assert (H2 : ∀ ins n, stable (witness_sigops_loop ins flags n))
    by (induction ins; intros n; cbn [witness_sigops_loop]; unfold access_unspent; stable_auto).
  unfold GetTransactionSigOpCost, GetP2SHSigOpCount. stable_auto.
Qed.

Lemma stable_CheckTxInputs tx h : stable (CheckTxInputs tx h).
Proof using Hkeep.
  assert (H1 : ∀ ins, stable (E := TxFailure) (have_inputs ins))
    by (induction ins; cbn [have_inputs]; stable_auto).
  assert (H2 : ∀ ins n, stable (sum_inputs ins h n))
    by (induction ins; intros n; cbn [sum_inputs]; unfold access_unspent; stable_auto).
  unfold CheckTxInputs, HaveInputs. stable_auto.
Qed.

Lemma stable_UpdateCoins tx h : stable (UpdateCoins SHA256d tx h).
Proof using Hkeep.
  assert (H1 : ∀ ins, stable (spend_inputs ins)) by (induction ins; cbn [spend_inputs]; stable_auto).
  assert (H2 : ∀ txid outs i cb, stable (add_outputs txid i outs h cb false))
    by (induction outs; intros i cb; cbn [add_outputs]; stable_auto).
  unfold UpdateCoins, AddCoins. stable_auto.
Qed.

Lemma stable_connect_contents st best_header pindex b vtx :
  stable (connect_contents SHA256d params bparams cparams opts CScriptCheck pqc_active parallel_script_checks
    st best_header pindex b vtx).
Proof using Hkeep.
  pose proof @stable_access_all. pose proof @stable_prev_heights. pose proof stable_sigop_cost.
  pose proof stable_CheckTxInputs. pose proof stable_UpdateCoins.
  assert (Ho : ∀ txid n i, stable (E := Failure) (overwrites_output txid n i))
    by (induction n; intros i; cbn [overwrites_output]; stable_auto).
  assert (Ha : ∀ vtx, stable (E := Failure) (overwrites_any SHA256d vtx))
    by (induction vtx0; cbn [overwrites_any]; stable_auto).
  assert (Ht : ∀ vtx flags lflags fs first t, stable (connect_txs SHA256d CScriptCheck parallel_script_checks
    st pindex b flags lflags fs first vtx t)).
  { induction vtx0; intros flags lflags fs first t; cbn [connect_txs];
      unfold connect_tx, check_spending, CheckInputScripts; stable_auto. }
  unfold connect_contents. cbv zeta. stable_auto.
Qed.

Lemma stable_ConnectBlock disk best_header pindex block just v :
  Inv v → Inv (ConnectBlock SHA256d params bparams cparams opts CheckSignetBlockSolution CScriptCheck pqc_active
    parallel_script_checks UndoWriteToDisk disk best_header pindex block just v).1.2.
Proof using Hkeep.
  intros Hv. unfold ConnectBlock. destruct (disk.1 !! pindex) as [b|]; [|done]. destruct (negb _); [done|].
  destruct (CheckBlock _ _ _ _ _ _ _).2 as [[[] ?| |]|]; try done.
  pose proof (ok_best Hkeep v Hv) as Hb. destruct (GetBestBlock v) as [v1 best]. cbn [fst] in Hb.
  destruct (negb _); [done|]. destruct (pindex =? _); [destruct just; [done|by apply (ok_set Hkeep)]|].
  pose proof (stable_connect_contents disk.1 best_header pindex b (blk_vtx block) v1 Hb) as Hc.
  destruct (connect_contents _ _ _ _ _ _ _ _ _ _ _ _ _ v1) as [v2 [undo|f]]; [|done]. cbn [fst] in Hc.
  destruct just; [done|]. destruct (WriteUndoDataForBlock _ _ _ _) as [[st undo']|]; [|done]. by apply (ok_set Hkeep).
Qed.
Lemma stable_DisconnectBlock disk pindex vtx : stable (DisconnectBlock SHA256d disk pindex vtx).
Proof using Hkeep.
  assert (H1 : ∀ fuel txid n, stable (E := Failure) (access_by_txid fuel txid n))
    by (induction fuel; intros txid n; cbn [access_by_txid]; stable_auto).
  assert (H2 : ∀ txid h cb exc outs i clean, stable (E := Failure) (remove_outputs txid i outs h cb exc clean))
    by (induction outs; intros i clean; cbn [remove_outputs]; stable_auto).
  assert (H3 : ∀ ins clean, stable (restore_inputs ins clean)).
  { induction ins as [|[i c] ins IH]; intros clean; cbn [restore_inputs]; unfold ApplyTxInUndo, AccessByTxid; stable_auto. }
  assert (H4 : ∀ h enforce txs clean, stable (disconnect_txs SHA256d txs h enforce clean)).
  { induction txs as [|[tx txundo] txs IH]; intros clean; cbn [disconnect_txs]; stable_auto. }
  unfold DisconnectBlock. stable_auto.
Qed.
End stable.

(** The operations of a cache only read the view below. *)
Lemma cache_ops_keep_base {V} `{!CCoinsView V, !CoinsViewOk V} (u : UTXO) :
  ops_keep (V := CCoinsViewCache (CCoinsViewCache V)) (λ c, refines (base c) u).
Proof.
  assert (Hf : ∀ o (c : CCoinsViewCache (CCoinsViewCache V)),
    refines (base c) u → refines (base (FetchCoin o c).1) u).
  { intros o c R. unfold FetchCoin. destruct (cacheCoins c !! o); [done|]. cbn [GetCoin Cache_view].
    destruct (Cache_GetCoin o (base c)) as [b r] eqn:E.
    assert (R' : refines b u).
    { destruct (GetCoin_spec (base c) o b r (rf_ok _ _ _ R) E) as [Hs _]. by eapply refines_same. }
    destruct r as [coin|]; [|done]. destruct (IsSpent coin); [|done]. unfold AddFlags. by destruct (_ !! o). }
  split.
  - intros o c R. specialize (Hf o c R). cbn [HaveCoin Cache_ops]. unfold Cache_HaveCoin.
    by destruct (FetchCoin o c) as [c' [e|]].
  - intros o c R. specialize (Hf o c R). cbn [AccessCoin Cache_ops]. unfold Cache_AccessCoin.
    by destruct (FetchCoin o c) as [c' [e|]].
  - intros o c R. specialize (Hf o c R). cbn [SpendCoin Cache_ops]. unfold Cache_SpendCoin.
    destruct (FetchCoin o c) as [c' [e|]]; [|done]. cbn [fst] in *. destruct (IsFresh e); [done|].
    unfold AddFlags. by destruct (cacheCoins c' !! o).
  - intros o coin ov c c' R. cbn [AddCoin Cache_ops]. unfold Cache_AddCoin. destruct (IsSpent coin); [done|].
    destruct (IsUnspendable _); [by intros [= <-]|]. destruct (_ && _); [done|]. intros [= <-].
    unfold AddFlags. by destruct (cacheCoins _ !! o).
  - intros c R. cbn [GetBestBlock Cache_ops]. unfold Cache_GetBestBlock at 1. destruct (_ =? _); [|done].
    cbn [View_GetBestBlock Cache_view]. destruct (Cache_GetBestBlock (base c)) as [b h] eqn:E. cbn.
    destruct (GetBestBlock_spec (base c) b h (rf_ok _ _ _ R) E) as [Hs _]. by eapply refines_same.
  - by intros h c R.
Qed.

(** ** What connecting reads of the index *)

Lemma extends_GetAncestor st st' h k :
  chain_ok st → chain_ok st' → extends st st' → is_Some (st !! h) → GetAncestor st' h k = GetAncestor st h k.
Proof.
  intros Hok Hok' He [b Hb]. destruct (He h b Hb) as (b' & Hb' & [= _ _ Eh _]).
  destruct (decide (0 <= k <= nHeight b)) as [Hk|Hk].
  - rewrite (GetAncestor_prev_n st' h b'), (GetAncestor_prev_n st h b), Eh by (done || lia).
    apply extends_prev_n; eauto.
  - unfold GetAncestor. rewrite Hb, Hb', Eh. replace ((nHeight b <? k) || (k <? 0)) with true; [done|].
    symmetry. apply orb_true_iff. lia.
Qed.

Lemma extends_past_times st st' n : chain_ok st → extends st st' → ∀ o,
  (∀ h, o = Some h → is_Some (st !! h)) → past_times n st' o = past_times n st o.
Proof.
  intros Hok He. induction n as [|n IH]; intros o Ho; [done|]. destruct o as [h|]; [|done]. cbn [past_times].
  destruct (Ho h eq_refl) as [b Hb]. destruct (He h b Hb) as (b' & Hb' & E). rewrite Hb, Hb'.
  injection E as Ep _ _ _ _ _ Et _ _ _. rewrite Et, Ep. f_equal. apply IH. intros p Hp.
  destruct (ck_prev _ Hok _ _ _ Hb Hp) as (bp & -> & _). eauto.
Qed.

Lemma extends_median st st' h :
  chain_ok st → extends st st' → is_Some (st !! h) → GetMedianTimePast st' h = GetMedianTimePast st h.
Proof.
  intros Hok He Hh. unfold GetMedianTimePast. rewrite (extends_past_times st st'); [done..|]. by intros ? [= <-].
Qed.

Lemma mthen_ext {S E A B} (m : M S E A) (f g : A → M S E B) s :
  (∀ a s, f a s = g a s) → mthen m f s = mthen m g s.
Proof. intros H. unfold mthen. destruct (m s) as [s' [a|e]]; [apply H|done]. Qed.

Section reads.
Context (st st' : BlockMap) (h : Z) (b b' : CBlockIndex).
Context (Hok : chain_ok st) (Hok' : chain_ok st') (He : extends st st').
Context (Hb : st !! h = Some b) (Hb' : st' !! h = Some b') (Hl : links b' = links b).

Lemma reads_height : nHeight b' = nHeight b.
Proof using Hl. by injection Hl. Qed.

Lemma reads_pprev : pprev b' = pprev b.
Proof using Hl. by injection Hl. Qed.

Lemma sequence_loop_extends ins : ∀ x y, sequence_loop st' h ins x y = sequence_loop st h ins x y.
Proof using Hok Hok' He Hb.
  induction ins as [|[i c] ins IH]; intros x y; cbn [sequence_loop]; [done|].
  destruct (negb _); [apply IH|]. destruct (negb _); [|apply IH].
  rewrite (extends_GetAncestor st st') by eauto. destruct (GetAncestor st h _) as [a|] eqn:E; [|done]. cbv zeta.
  rewrite (extends_median st st' a), IH; [done|done|done|].
  destruct (decide (Z.max (c - 1) 0 <= nHeight b)).
  - rewrite (GetAncestor_prev_n st h b) in E by (done || lia). destruct (prev_n_le _ _ Hok _ _ _ Hb E) as (_ & ba & -> & _). eauto.
  - unfold GetAncestor in E. rewrite Hb, (proj2 (Z.ltb_lt _ _)) in E by lia. done.
Qed.

Lemma SequenceLocks_extends tx flags heights : SequenceLocks st' tx flags heights h = SequenceLocks st tx flags heights h.
Proof using Hok Hok' He Hb Hb' Hl.
  unfold SequenceLocks. assert (Ee : ∀ l, EvaluateSequenceLocks st' h l = EvaluateSequenceLocks st h l).
  { intros l. unfold EvaluateSequenceLocks. rewrite Hb, Hb'. cbn [mbind option_bind]. rewrite reads_pprev, reads_height.
    destruct (pprev b) as [p|] eqn:Hp; [|done]. cbn [mbind option_bind]. rewrite (extends_median st st'); [done..|].
    destruct (ck_prev _ Hok _ _ _ Hb Hp) as (bp & -> & _). eauto. }
  unfold CalculateSequenceLocks. destruct (negb _); [done|]. destruct (_ && _); [|apply Ee].
  rewrite sequence_loop_extends. destruct (sequence_loop _ _ _ _ _); [apply Ee|done].
Qed.

Context (SHA256d : list Z → Z) (params : Params) (bparams : BodyParams) (cparams : ConnectParams) (opts : Options).
Context (CScriptCheck : CTransaction → nat → list CTxOut → Z → option string).
Context (pqc_active : option Z → bool) (parallel_script_checks : bool).

Lemma connect_txs_extends flags lflags fs vtx : ∀ first t (u : UTXO),
  connect_txs SHA256d CScriptCheck parallel_script_checks st' h b' flags lflags fs first vtx t u =
  connect_txs SHA256d CScriptCheck parallel_script_checks st h b flags lflags fs first vtx t u.
Proof using Hok Hok' He Hb Hb' Hl.
  assert (Hs : ∀ tx fees (u : UTXO), check_spending st' h b' flags lflags tx fees u = check_spending st h b flags lflags tx fees u).
  { intros tx fees u. unfold check_spending. destruct (if has_flag _ _ then _ else _); [done|]. rewrite reads_height.
    apply mthen_ext. intros fee u1. cbv zeta. destruct (negb _); [done|]. apply mthen_ext. intros hs u2.
    by rewrite SequenceLocks_extends. }
  induction vtx as [|tx vtx IH]; intros first t u; cbn [connect_txs]; [done|].
  transitivity (mthen (connect_tx SHA256d CScriptCheck parallel_script_checks st' h b' flags lflags fs first tx t)
    (λ t, connect_txs SHA256d CScriptCheck parallel_script_checks st h b flags lflags fs false vtx t) u);
    [by apply mthen_ext|].
  assert (Ht : connect_tx SHA256d CScriptCheck parallel_script_checks st' h b' flags lflags fs first tx t u =
    connect_tx SHA256d CScriptCheck parallel_script_checks st h b flags lflags fs first tx t u).
  { unfold connect_tx. rewrite reads_height. unfold mthen at 1. symmetry. unfold mthen at 1.
    destruct (IsCoinBase tx); [done|]. by rewrite Hs. }
  unfold mthen. by rewrite Ht.
Qed.

Lemma connect_contents_extends best best' vtx (u : UTXO) :
  AssumedValidBlock cparams = 0 →
  connect_contents SHA256d params bparams cparams opts CScriptCheck pqc_active parallel_script_checks st' best' h b' vtx u =
  connect_contents SHA256d params bparams cparams opts CScriptCheck pqc_active parallel_script_checks st best h b vtx u.
Proof using Hok Hok' He Hb Hb' Hl.
  intros Ha. unfold connect_contents, script_checks. rewrite Ha, Z.eqb_refl, reads_pprev.
  destruct (pprev b) as [prev|] eqn:Hp; [|done].
  assert (E30 : enforce_BIP30 params cparams st' h b' prev = enforce_BIP30 params cparams st h b prev).
  { unfold enforce_BIP30. rewrite reads_height, (extends_GetAncestor st st'); [done..|].
    destruct (ck_prev _ Hok _ _ _ Hb Hp) as (bp & -> & _). eauto. }
  assert (Ef : GetBlockScriptFlags params bparams cparams pqc_active h b' = GetBlockScriptFlags params bparams cparams pqc_active h b)
    by (unfold GetBlockScriptFlags; by rewrite reads_height, reads_pprev).
  rewrite E30, Ef, reads_height. apply mthen_ext. intros found u1. destruct found; [done|]. cbv zeta.
  unfold mthen. by rewrite connect_txs_extends.
Qed.
End reads.

(** ** Valid chains *)

Section valid.
Context (SHA256d : list Z → Z) (params : Params) (bparams : BodyParams) (cparams : ConnectParams) (opts : Options).
Context (CheckSignetBlockSolution : CBlockHeader → list CTransaction → bool).
Context (CScriptCheck : CTransaction → nat → list CTxOut → Z → option string).
Context (pqc_active : option Z → bool) (parallel_script_checks : bool).
Context (ReadBlock : Z → option CBlock).

Abbreviation genesis := (hashGenesisBlock cparams).
Abbreviation check block :=
  ((CheckBlock SHA256d params bparams CheckSignetBlockSolution (bare block) true true).2).
Abbreviation contents st := (connect_contents (V := UTXO) SHA256d params bparams cparams opts CScriptCheck pqc_active
  parallel_script_checks st None).

(** What is on disk for a block: a block with its hash, with transactions that can be
    serialized and whose ids tell them apart. *)
Record disk_block (h : Z) (block : CBlock) : Prop := {
  db_hash : GetHash SHA256d (blk_header block) = h;
  db_ok : block_ok SHA256d params bparams CheckSignetBlockSolution block;
  db_ids : ids_tell SHA256d (blk_vtx block)
}.

(** A network that assumes no block valid, has no exceptions for old blocks, and always
    enforces the rule against overwriting. *)
Record network_ok : Prop := {
  nw_assumed : AssumedValidBlock cparams = 0;
  nw_exceptions : script_flag_exceptions cparams = ∅;
  nw_BIP34 : BIP34Hash cparams = 0;
  nw_disk h block : ReadBlock h = Some block → disk_block h block
}.

(** The chain to a block is valid, and these are its unspent outputs: every block passes the
    checks and connects on those of its parent. *)
Inductive valid_chain (st : BlockMap) : Z → gmap COutPoint Coin → Prop :=
  | valid_genesis b block :
      st !! genesis = Some b → pprev b = None → ReadBlock genesis = Some block → check block = None →
      valid_chain st genesis ∅
  | valid_block h b prev block u u' undo :
      st !! h = Some b → pprev b = Some prev → h ≠ genesis → valid_chain st prev u →
      ReadBlock h = Some block → check block = None →
      contents st h b (blk_vtx block) (mkUTXO u prev) = (mkUTXO u' prev, inl undo) →
      valid_chain st h u'.

Context (Hnet : network_ok).

Lemma valid_unique st h u : valid_chain st h u → ∀ u', valid_chain st h u' → u = u'.
Proof using Type.
  induction 1 as [b block Hb Hp Hr Hc|h b prev block u u' undo Hb Hp Hg _ IH Hr Hc Hk]; intros v Hv;
    inversion Hv as [b2 block2 Hb2 Hp2|h2 b2 prev2 block2 w w' undo2 Hb2 Hp2 Hg2 Hw Hr2 Hc2 Hk2]; subst; try congruence; try done.
  assert (b2 = b) as -> by congruence. assert (prev2 = prev) as -> by congruence.
  assert (block2 = block) as -> by congruence. apply IH in Hw as <-. congruence.
Qed.

Lemma valid_extends st st' h u :
  chain_ok st → chain_ok st' → extends st st' → valid_chain st h u → valid_chain st' h u.
Proof using Hnet.
  intros Hok Hok' He. induction 1 as [b block Hb Hp Hr Hc|h b prev block u u' undo Hb Hp Hg _ IH Hr Hc Hk].
  - destruct (He _ _ Hb) as (b' & Hb' & [= E _]). apply (valid_genesis st' b' block); [done|congruence|done..].
  - destruct (He _ _ Hb) as (b' & Hb' & Hl). pose proof (reads_pprev _ _ Hl) as Ep.
    apply (valid_block st' h b' prev block u u' undo); [done|congruence|done|done|done|done|].
    rewrite <- Hk. apply connect_contents_extends; [done..|]. apply Hnet.
Qed.

(** And back, for a block that was there. *)
Lemma valid_back st st' h u :
  chain_ok st → chain_ok st' → extends st st' → valid_chain st' h u → is_Some (st !! h) → valid_chain st h u.
Proof using Hnet.
  intros Hok Hok' He. induction 1 as [b' block Hb' Hp Hr Hc|h b' prev block u u' undo Hb' Hp Hg _ IH Hr Hc Hk]; intros [b Hb];
    destruct (He _ _ Hb) as (b2 & Hb2 & Hl); assert (b2 = b') as -> by congruence; pose proof (reads_pprev _ _ Hl) as Ep.
  - apply (valid_genesis st b block); [done|congruence|done..].
  - rewrite Ep in Hp. destruct (ck_prev _ Hok _ _ _ Hb Hp) as (bp & Hbp & _).
    apply (valid_block st h b prev block u u' undo); [done|done|done|by eauto|done|done|].
    rewrite <- Hk. symmetry. apply connect_contents_extends; [done..|]. apply Hnet.
Qed.

Lemma valid_index st h u : valid_chain st h u → is_Some (st !! h).
Proof using Type. destruct 1; eauto. Qed.

Lemma BIP30_enforced st h b prev :
  sane genesis st → st !! h = Some b → pprev b = Some prev → enforce_BIP30 params cparams st h b prev = true.
Proof using Hnet.
  intros Hs Hb Hp. unfold enforce_BIP30. rewrite (sn_repeat _ _ Hs _ _ Hb), (nw_BIP34 Hnet). cbn [negb andb].
  apply orb_true_iff. left. destruct (ck_prev _ (sn_chain _ _ Hs) _ _ _ Hb Hp) as (bp & Hbp & _).
  destruct (GetAncestor st prev (BIP34Height params)) as [a|] eqn:E; [|done]. apply negb_true_iff, Z.eqb_neq. intros ->.
  pose proof (sn_zero _ _ Hs) as H0. destruct (decide (0 <= BIP34Height params <= nHeight bp)).
  - rewrite (GetAncestor_prev_n st prev bp) in E by (done || apply Hs || lia).
    destruct (prev_n_le _ _ (sn_chain _ _ Hs) _ _ _ Hbp E) as (_ & ? & ? & _). congruence.
  - unfold GetAncestor in E. rewrite Hbp in E. replace (_ || _) with true in E; [done|]. symmetry. apply orb_true_iff. lia.
Qed.

(** The contents of a block that passes the checks. *)
Lemma readable_contents h block :
  ReadBlock h = Some block → check block = None →
  ∃ coinbase rest, blk_vtx block = coinbase :: rest ∧ IsCoinBase coinbase = true ∧
    Forall (λ tx, IsCoinBase tx = false) rest ∧ Forall tx_valid (blk_vtx block) ∧ Forall tx_ok (blk_vtx block).
Proof using Hnet.
  intros Hr Hc. destruct (db_ok _ _ (nw_disk Hnet h block Hr)) as [Hf Htx Hsz].
  rewrite CheckBlock_bare in Hc. destruct (CheckBlockHeader _ _ _); [done|]. destruct (_ && _ && _); [done|].
  destruct (CheckMerkleRoot _ _).2; [done|]. destruct (check_contents_inv _ _ Hsz Hc) as (cb & rest & H1 & H2 & H3 & H4 & _).
  by exists cb, rest.
Qed.

Lemma height_positive st h b p : sane genesis st → st !! h = Some b → pprev b = Some p → 0 < nHeight b < 2 ^ 31.
Proof using Type.
  intros Hs Hb Hp. pose proof (sn_height _ _ Hs _ _ Hb). destruct (ck_prev _ (sn_chain _ _ Hs) _ _ _ Hb Hp) as (bp & Hbp & ?).
  pose proof (ck_height _ (sn_chain _ _ Hs) _ _ Hbp). lia.
Qed.

(** What a block of a valid chain did. *)
Lemma valid_connected st h b prev block u u' undo :
  sane genesis st → st !! h = Some b → pprev b = Some prev → ReadBlock h = Some block → check block = None →
  contents st h b (blk_vtx block) (mkUTXO u prev) = (mkUTXO u' prev, inl undo) →
  ∃ css fees, undo = tail css ∧
    connected SHA256d params cparams st h b prev (blk_vtx block) u u' css fees.
Proof using Hnet.
  intros Hs Hb Hp Hr Hc Hk. destruct (readable_contents h block Hr Hc) as (cb & rest & Ev & Hcb & Hrest & Hv & Hok).
  destruct (connect_contents_spec _ _ _ _ _ _ _ _ _ _ _ _ _ _ _ _ Hk Hok Hv) as (prev' & css & fees & Hp' & _ & -> & Hcn);
    [eauto|]. assert (prev' = prev) as -> by congruence. cbn [utxo] in Hcn. eauto.
Qed.

(** The coins of a valid chain. *)
Lemma effects_heights h vtx : ∀ u u' css fees,
  effects SHA256d h vtx u u' css fees → Forall tx_ok vtx → 0 <= h < 2 ^ 31 → heights_le h u → heights_le h u'.
Proof using Type.
  induction vtx as [|tx vtx IH]; intros u u' css fees He Hok Hh Hu; inversion He; subst; [done|].
  apply Forall_cons in Hok as [Hok1 Hok]. eapply IH; [done..|]. by eapply tx_effect_heights.
Qed.

Lemma valid_coins st h u b :
  sane genesis st → valid_chain st h u → st !! h = Some b → coins_ok u ∧ heights_le (nHeight b) u.
Proof using Hnet.
  intros Hs Hv. revert b. induction Hv as [b0 block Hb Hp Hr Hc|h b0 prev block u u' undo Hb Hp Hg Hv IH Hr Hc Hk];
    intros b Hb'; assert (b0 = b) as -> by congruence.
  - split; intros o c; by rewrite lookup_empty.
  - destruct (ck_prev _ (sn_chain _ _ Hs) _ _ _ Hb Hp) as (bp & Hbp & Eh). destruct (IH bp Hbp) as [H1 H2].
    pose proof (height_positive _ _ _ _ Hs Hb Hp) as Hh.
    destruct (valid_connected _ _ _ _ _ _ _ _ Hs Hb Hp Hr Hc Hk) as (css & fees & _ & [He _ _ Hn _]).
    destruct (readable_contents h block Hr Hc) as (cb & rest & _ & _ & _ & _ & Hok).
    split; [by eapply effects_coins|]. eapply effects_heights; [done|done|lia|]. intros o c Hoc. specialize (H2 o c Hoc). lia.
Qed.

(** What a valid chain has issued is no longer to come. *)
Lemma valid_supply st h u b :
  sane genesis st → valid_chain st h u → st !! h = Some b → 0 < nSubsidyHalvingInterval params →
  values_ok u ∧ total u + remaining params (nHeight b + 1) <= remaining params 0.
Proof using Hnet.
  intros Hs Hv Hb' Hi. revert b Hb'. induction Hv as [b0 block Hb Hp Hr Hc|h b0 prev block u u' undo Hb Hp Hg Hv IH Hr Hc Hk];
    intros b Hb'; assert (b0 = b) as -> by congruence.
  - split; [intros o c; by rewrite lookup_empty|]. rewrite (ck_root _ (sn_chain _ _ Hs) _ _ Hb Hp).
    pose proof (remaining_step params 0 Hi ltac:(lia)) as H. pose proof (shifted_subsidy_pos params (0 / nSubsidyHalvingInterval params)).
    change (total ∅) with 0. lia.
  - destruct (ck_prev _ (sn_chain _ _ Hs) _ _ _ Hb Hp) as (bp & Hbp & Eh). destruct (IH bp Hbp) as [H1 H2].
    pose proof (height_positive _ _ _ _ Hs Hb Hp) as Hh. replace (nHeight bp + 1) with (nHeight b) in H2 by lia.
    destruct (valid_connected _ _ _ _ _ _ _ _ Hs Hb Hp Hr Hc Hk) as (css & fees & _ & Hcn).
    destruct (connected_total _ _ _ _ _ _ _ _ _ _ _ _ Hcn H1) as [H3 H4]. split; [done|].
    pose proof (remaining_step params (nHeight b) Hi ltac:(lia)).
    pose proof (GetBlockSubsidy_le params (nHeight b) (1 <? Z.of_nat (length (blk_vtx block))) Hi ltac:(lia)). lia.
Qed.

(** ** Connecting on the map *)

Lemma CheckBlock_invalid block p m f :
  (CheckBlock SHA256d params bparams CheckSignetBlockSolution (bare block) p m).2 = Some f → ∃ r s, f = Invalid r s.
Proof using Type.
  assert (Ht : ∀ vtx f, check_transactions vtx = Some f → ∃ r s, f = Invalid r s).
  { induction vtx as [|tx vtx IH]; intros g; cbn [check_transactions]; [done|].
    destruct (CheckTransaction tx); [intros [= <-]; eauto|apply IH]. }
  rewrite CheckBlock_bare. unfold CheckBlockHeader.
  destruct p; [destruct (CheckProofOfWork _ _ _); [|intros [= <-]; eauto]|];
    (destruct (_ && _ && _); [intros [= <-]; eauto|]);
    (destruct m; [unfold CheckMerkleRoot; cbn [bare m_checked_merkle_root new_block];
       destruct (Merkle.BlockMerkleRoot _ _) as [root []]; (destruct (negb _); [intros [= <-]; eauto|]);
       [intros [= <-]; eauto|cbn [snd]]|]);
    unfold check_contents; (destruct (_ || _); [intros [= <-]; eauto|]);
    (destruct (match blk_vtx block with [] => _ | _ => _ end); [intros [= <-]; eauto|]);
    (destruct (existsb _ _); [intros [= <-]; eauto|]);
    (destruct (check_transactions _) as [g|] eqn:E; [intros [= <-]; by eapply Ht|]);
    (destruct (_ <? _); [intros [= <-]; eauto|done]).
Qed.

Lemma genesis_root st b : sane genesis st → st !! genesis = Some b → pprev b = None.
Proof using Type.
  intros Hs Hb. destruct (pprev b) as [p|] eqn:Hp; [|done]. pose proof (height_positive _ _ _ _ Hs Hb Hp).
  pose proof (genesis_below _ _ _ Hs Hb) as Hg.
  destruct (prev_n_le _ _ (sn_chain _ _ Hs) _ _ _ Hb Hg) as (_ & b' & Hb' & Eh). simplify_eq. lia.
Qed.

Definition coins_at (st : BlockMap) (tip : option Z) (u : gmap COutPoint Coin) : Prop :=
  match tip with Some t => valid_chain st t u | None => u = ∅ end.

Context (UndoWriteToDisk : Z → CBlockUndo → bool).
Abbreviation connect := (ConnectBlock SHA256d params bparams cparams opts CheckSignetBlockSolution CScriptCheck
  pqc_active parallel_script_checks UndoWriteToDisk).

(** A block that can be read, with the contents its header commits to. *)
Definition readable (h : Z) : Prop := ∃ block,
  ReadBlock h = Some block ∧ ∀ reason, check block ≠ Some (Invalid BLOCK_MUTATED reason).

Definition undo_writable (h : Z) : Prop := ∀ undo, UndoWriteToDisk h undo = true.

(** The verdict on a block, on the map of its parent. *)
Lemma connect_verdict st undo best_header h b u disk block :
  sane genesis st → st !! h = Some b → coins_at st (pprev b) u → ReadBlock h = Some disk →
  bare block = bare disk → flags_ok SHA256d params bparams CheckSignetBlockSolution block →
  match connect (st, undo) best_header h block false (mkUTXO u (default 0 (pprev b))) with
  | (d, u', None) =>
      ∃ m, u' = mkUTXO m h ∧ valid_chain st h m ∧
        (pprev b = None ∧ d = (st, undo) ∨
         ∃ prev css fees w, pprev b = Some prev ∧ effects SHA256d (nHeight b) (blk_vtx disk) u m css fees ∧
           WriteUndoDataForBlock UndoWriteToDisk (st, undo) h (tail css) = Some w ∧ d = (raise_scripts w.1 h, w.2))
  | (d, _, Some (Invalid r _)) => r ≠ BLOCK_MUTATED ∧ d = (st, undo) ∧ ¬ ∃ m, valid_chain st h m
  | (_, _, Some SystemError) => ¬ (readable h ∧ undo_writable h)
  | (_, _, Some Abort) => False
  end.
Proof using Hnet.
  intros Hs Hb Hu Hr Ebare Hfl. pose proof (nw_disk Hnet h disk Hr) as Hd.
  assert (Eh : blk_header block = blk_header disk ∧ blk_vtx block = blk_vtx disk) by (by injection Ebare).
  destruct Eh as [Eh Ev]. unfold ConnectBlock. cbn [fst]. rewrite Hb, Eh, (db_hash _ _ Hd), Z.eqb_refl, Ev. cbn [negb].
  assert (Hno : check disk ≠ None → ¬ ∃ m, valid_chain st h m).
  { intros Hc [m Hv]. inversion Hv; subst; congruence. }
  destruct (CheckBlock_flags _ _ _ _ block true true Hfl) as [-> _]. rewrite Ebare.
  destruct (check disk) as [f|] eqn:Hc.
  { destruct (CheckBlock_invalid _ _ _ _ Hc) as (r & s & ->). destruct r; try (split_and!; [done|done|by apply Hno]).
    intros [(disk2 & Hr2 & Hm) _]. apply (Hm s). congruence. }
  cbn [GetBestBlock UTXO_ops utxo_best]. rewrite Z.eqb_refl. cbn [negb]. destruct (Z.eqb_spec h genesis) as [->|Hg].
  { assert (Hp : pprev b = None) by (by eapply genesis_root). rewrite Hp in Hu. cbn in Hu. subst u.
    exists ∅. split; [done|]. split; [by eapply valid_genesis|]. by left. }
  destruct (pprev b) as [prev|] eqn:Hp; [|by destruct Hg; eapply sn_root]. cbn [default id coins_at] in *.
  destruct (readable_contents h disk Hr Hc) as (cb & rest & Evtx & Hcb & Hrest & Hv & Hok).
  destruct (ck_prev _ (sn_chain _ _ Hs) _ _ _ Hb Hp) as (bp & Hbp & Ebp).
  destruct (valid_coins st prev u bp Hs Hu Hbp) as [Hcoins Hheights].
  assert (Hbest : connect_contents SHA256d params bparams cparams opts CScriptCheck pqc_active parallel_script_checks
    st best_header h b (blk_vtx disk) (mkUTXO u prev) = contents st h b (blk_vtx disk) (mkUTXO u prev)).
  { apply connect_contents_extends; try apply Hs; try done; [|apply Hnet]. intros g c Hgc. eauto. }
  rewrite Hbest.
  assert (Hsafe : safe unexpected (contents st h b (blk_vtx disk)) (mkUTXO u prev) (λ _ _, True)).
  { eapply connect_contents_total; try done; try apply Hnet.
    - apply Hs.
    - by eapply height_positive.
    - by eapply BIP30_enforced.
    - intros o c Hoc. specialize (Hheights o c Hoc). cbn [utxo]. lia.
    - apply Hd. }
  unfold safe in Hsafe. destruct (contents st h b (blk_vtx disk) (mkUTXO u prev)) as [[m best] [blockundo|f]] eqn:Hk.
  - destruct (connect_contents_spec _ _ _ _ _ _ _ _ _ _ _ _ _ _ _ _ Hk Hok Hv) as (prev' & css & fees & Hp' & Eb & -> & Hcn);
      [eauto|]. cbn [utxo utxo_best] in *. subst best.
    destruct (WriteUndoDataForBlock _ _ _ _) as [[st1 undo1]|] eqn:Ew.
    2: { unfold WriteUndoDataForBlock in Ew. rewrite Hb in Ew. cbn [mbind option_bind] in Ew.
      intros [_ Hwr]. rewrite Hwr in Ew. by destruct (_ =? _). }
    exists m. split; [done|]. split; [exact (valid_block st h b prev disk u m (tail css) Hb Hp Hg Hu Hr Hc Hk)|]. right.
    exists prev, css, fees, (st1, undo1). split_and!; [done|apply Hcn|done|done].
  - destruct f as [r s| |]; [|by destruct (Hsafe I)|exact (Hsafe I)]. split; [intros ->; exact (Hsafe I)|]. split; [done|].
    intros [m' Hv']. inversion Hv' as [|h2 b2 prev2 block2 w w' undo2 Hb2 Hp2 Hg2 Hw Hr2 Hc2 Hk2]; subst; [done|].
    assert (b2 = b) as -> by congruence. assert (prev2 = prev) as -> by congruence.
    assert (block2 = disk) as -> by congruence. rewrite (valid_unique _ _ _ Hw u Hu) in Hk2. congruence.
Qed.

(** ** Flushing *)

Context {V : Type} `{!CCoinsView V, !CoinsViewOk V}.
Context (env : nat → FlushEnv V) (cache_bytes mempool_bytes : Z).

(** The disk takes what a flush writes. *)
Definition flush_writable (e : FlushEnv V) : Prop :=
  blocks_space e = true ∧ index_written e = true ∧ coins_space e = true ∧ coins_writable e = true.

Lemma FlushStateToDisk_spec mode (l : Chainstate V) u :
  refines (CoinsTip l) u →
  match FlushStateToDisk env cache_bytes mempool_bytes mode l with
  | (l', None) => refines (CoinsTip l') u ∧ undo_files l' = undo_files l
  | (_, Some f) => f = SystemError ∧ ¬ flush_writable (env (flush_calls l))
  end.
Proof using CoinsViewOk0.
  intros R. unfold FlushStateToDisk, flush_writable. cbv zeta.
  destruct (_ && negb (blocks_space _)) eqn:E1; [split; [done|]; intros (H & _); by rewrite H, andb_false_r in E1|].
  destruct (_ && negb (index_written _)) eqn:E2; [split; [done|]; intros (_ & H & _); by rewrite H, andb_false_r in E2|].
  clear E1 E2. destruct (_ || _ || _ || _); [|done].
  destruct (refines_GetBestBlock (CoinsTip l) u R) as (R1 & Eb & Hh). destruct (GetBestBlock (CoinsTip l)) as [c best].
  cbn [fst snd] in *. subst best. destruct (Z.eqb_spec (utxo_best u) 0) as [|Hb]; [done|].
  destruct (coins_space _); cbn [negb]; [|by split; [|intros (_ & _ & ? & _)]].
  destruct (coins_writable _); cbn [negb]; [|by split; [|intros (_ & _ & _ & ?)]].
  specialize (Hh Hb). destruct R1 as [O1 O2 O3 O4].
  destruct (_ || _).
  - destruct (Flush_spec c O1 Hh (O4 _ Hh)) as (c' & -> & F1 & F2 & F3 & _ & _ & _ & F4).
    split; [split; cbn; [done|congruence|congruence|done]|done].
  - destruct (Sync_spec c O1 Hh (O4 _ Hh)) as (c' & -> & F1 & F2 & F3 & _ & _ & _ & F4).
    split; [split; cbn; [done|congruence|congruence|done]|done].
Qed.

(** Flushing a cache over [CoinsTip] into it. *)
Lemma write_entries_base es : ∀ c c' : CCoinsViewCache V, write_entries es c = Some c' → base c' = base c.
Proof using Type.
  assert (Ha : ∀ o f (c : CCoinsViewCache V), base (AddFlags o f c) = base c)
    by (intros o f c; unfold AddFlags; by destruct (_ !! o)).
  assert (Hw : ∀ oe (c c' : CCoinsViewCache V), write_entry oe c = Some c' → base c' = base c).
  { intros [o e] c c'. unfold write_entry. destruct (negb _); [by intros [= <-]|]. destruct (_ !! o) as [us|].
    - destruct (_ && _); [done|]. destruct (_ && _); intros [= <-]; [done|]. by rewrite Ha.
    - destruct (_ && _); intros [= <-]; [done|]. destruct (IsFresh e); by rewrite ?Ha. }
  induction es as [|oe es IH]; intros c c'; cbn [write_entries]; [by intros [= <-]|].
  intros (c1 & E1 & E2)%bind_Some. rewrite (IH _ _ E2). by eapply Hw.
Qed.

Lemma view_flush (c : CCoinsViewCache (CCoinsViewCache V)) u u0 :
  refines c u → refines (base c) u0 → hashBlock c ≠ 0 → ∃ c', Flush c = Some c' ∧ refines (base c') u.
Proof using CoinsViewOk0.
  intros R R0 Hh. destruct (Flush_spec c (rf_ok _ _ _ R) Hh Hh) as (c' & E & _ & _ & _ & E1 & E2 & E3 & _).
  exists c'. split; [done|]. split; [exact E3| | |].
  - rewrite <- (rf_coins _ _ _ R). exact E1.
  - rewrite <- (rf_best _ _ _ R). exact E2.
  - unfold Flush in E. apply bind_Some in E as (b & Hw & [= <-]). cbn [base]. cbn [BatchWrite Cache_view] in Hw.
    unfold Cache_BatchWrite in Hw. apply bind_Some in Hw as (b1 & Hw & [= <-]). cbn [base Cache_SetBestBlock].
    rewrite (write_entries_base _ _ _ Hw). apply R0.
Qed.

Lemma NewCache_refines (c : CCoinsViewCache V) u : refines c u → refines (NewCache c) u.
Proof using Type.
  intros R. assert (Hc : view_ok c) by exact (rf_ok _ _ _ R). destruct (NewCache_ok c Hc) as (H1 & H2 & H3).
  split; [done| | |].
  - rewrite H2. apply R.
  - rewrite H3. apply R.
  - by intros h Hh.
Qed.

(** ** The ledger *)

Implicit Types (l : Chainstate V).

(** The undo files hold what the blocks that were connected spent. *)
Definition undo_known (st : BlockMap) (undo : gmap Z CBlockUndo) : Prop := ∀ h b,
  st !! h = Some b → has_undo b = true →
  ∃ prev block u u' css fees, pprev b = Some prev ∧ valid_chain st prev u ∧ ReadBlock h = Some block ∧
    effects SHA256d (nHeight b) (blk_vtx block) u u' css fees ∧ undo !! h = Some (tail css).

(** Every block of the chain but the first was connected. *)
Definition undo_there (st : BlockMap) (tip : option Z) : Prop := ∀ t n a b,
  tip = Some t → prev_n st n t = Some a → st !! a = Some b → pprev b ≠ None → has_undo b = true.

(** The blocks whose data was received are among those in [data]. *)
Context (data : Z → Prop).

Definition data_known (st : BlockMap) : Prop := ∀ h b, st !! h = Some b → has_data b = true → data h.

(** The machine works: the disk takes what is written, and gives the blocks that were
    received back as they were. *)
Record machine_ok : Prop := {
  mc_flush i : flush_writable (env i);
  mc_undo h : undo_writable h;
  mc_read h : data h → readable h
}.

Definition machine_stops (f : Failure) : Prop := f = SystemError ∧ ¬ machine_ok.

Lemma flush_stops i f : f = SystemError ∧ ¬ flush_writable (env i) → machine_stops f.
Proof using Type. intros [-> H]. split; [done|]. intros Hm. apply H, Hm. Qed.

Definition chain_ledger (st : BlockMap) l (tip : option Z) : Prop := ∃ u,
  coins_at st tip u ∧ refines (CoinsTip l) (mkUTXO u (default 0 tip)) ∧
  undo_known st (undo_files l) ∧ undo_there st tip ∧ data_known st.

Lemma coins_at_extends st st' tip u :
  chain_ok st → chain_ok st' → extends st st' → coins_at st tip u → coins_at st' tip u.
Proof using Hnet. destruct tip; [|done]. apply valid_extends. Qed.

(** The index grows: entries keep their links and whether they were connected, and new ones
    were not. *)
Record grows (st st' : BlockMap) : Prop := {
  gr_old h b : st !! h = Some b → ∃ b', st' !! h = Some b' ∧ links b' = links b ∧ has_undo b' = has_undo b;
  gr_new h b' : st !! h = None → st' !! h = Some b' → has_undo b' = false
}.

Lemma chain_ledger_grows st st' l tip :
  sane genesis st → sane genesis st' → grows st st' → data_known st' → chain_ledger st l tip → chain_ledger st' l tip.
Proof using Hnet.
  intros [Hok _ _ _ _ _] [Hok' _ _ _ _ _] [Hold Hnew] Hd (u & Hu & R & Hk & Ht & _).
  assert (He : extends st st') by (intros h b Hb; destruct (Hold h b Hb) as (b' & ? & ? & _); eauto).
  exists u. split_and!; [by apply (coins_at_extends st)|done| | |done].
  - intros h b' Hb' Hun. destruct (st !! h) as [b|] eqn:Hb; [|pose proof (Hnew h b' Hb Hb'); congruence].
    destruct (Hold h b Hb) as (b2 & Hb2 & Hl & Eu). assert (b2 = b') as -> by congruence.
    destruct (Hk h b Hb ltac:(congruence)) as (prev & block & v & v' & css & fees & F1 & F2 & F3 & F4 & F5).
    exists prev, block, v, v', css, fees. rewrite (reads_pprev _ _ Hl), (reads_height _ _ Hl).
    split_and!; [done|by apply (valid_extends st)|done..].
  - intros t n a b' -> Ha Hb' Hp. cbn in Hu. rewrite (extends_prev_n st st') in Ha; [|done|done|by eapply valid_index].
    destruct (valid_index _ _ _ Hu) as [bt Hbt]. destruct (prev_n_le _ _ Hok _ _ _ Hbt Ha) as (_ & b & Hb & _).
    destruct (Hold a b Hb) as (b2 & Hb2 & Hl & Eu). assert (b2 = b') as -> by congruence. rewrite Eu.
    apply (Ht t n a); [done..|]. by rewrite <- (reads_pprev _ _ Hl).
Qed.

Lemma chain_ledger_evolves st st' l tip :
  sane genesis st → sane genesis st' → evolves st st' → chain_ledger st l tip → chain_ledger st' l tip.
Proof using Hnet.
  intros Hs Hs' [Hold Hnew] Hl. apply (chain_ledger_grows st st'); [done|done| | |done].
  - split; [|intros h b' Hb Hb'; by apply (Hnew h)].
    intros h b Hb. destruct (Hold h b Hb) as (b' & ? & ? & ? & _). eauto.
  - destruct Hl as (_ & _ & _ & _ & _ & Hd). intros h b' Hb' Hh.
    destruct (st !! h) as [b|] eqn:Hb; [|destruct (Hnew h b' Hb Hb'); congruence].
    destruct (Hold h b Hb) as (b2 & Hb2 & _ & _ & Ed). apply (Hd h b Hb). congruence.
Qed.

(** *** The entry of a connected block *)

(** Writing undo data and raising the validity change the status of one entry, and of its
    bits only some. *)
Definition status_keeps (b : CBlockIndex) (s : Z) : Prop :=
  IsFailed (set_nStatus s b) = IsFailed b ∧ has_data (set_nStatus s b) = has_data b.

Lemma raise_keeps b s :
  status_keeps b s → status_keeps b (RaiseValidity s BLOCK_VALID_SCRIPTS).
Proof using Type.
  intros [H1 H2]. unfold RaiseValidity. repeat case_match; try done. split.
  - rewrite <- H1. unfold IsFailed. cbn [nStatus set_nStatus]. do 2 f_equal. rewrite Z.land_lor_distr_l.
    change (Z.land BLOCK_VALID_SCRIPTS BLOCK_FAILED_MASK) with 0. rewrite Z.lor_0_r. apply Z.bits_inj'. intros n Hn.
    assert (Hm : Z.testbit (Z.land BLOCK_VALID_MASK BLOCK_FAILED_MASK) n = false) by apply Z.bits_0.
    rewrite !Z.land_spec, Z.ldiff_spec in *. destruct (Z.testbit BLOCK_FAILED_MASK n); [|by rewrite !andb_false_r].
    rewrite andb_true_r in Hm. by rewrite Hm, !andb_true_r.
  - rewrite <- H2, !has_data_testbit. cbn [nStatus set_nStatus]. rewrite Z.lor_spec, Z.ldiff_spec.
    change (Z.testbit BLOCK_VALID_MASK 3) with false. change (Z.testbit BLOCK_VALID_SCRIPTS 3) with false.
    by rewrite orb_false_r, andb_true_r.
Qed.

Lemma undo_keeps b : status_keeps b (Z.lor (nStatus b) BLOCK_HAVE_UNDO).
Proof using Type.
  split.
  - unfold IsFailed. cbn [nStatus set_nStatus]. by rewrite Z.land_lor_distr_l, Z.lor_0_r.
  - rewrite !has_data_testbit. cbn [nStatus set_nStatus]. by rewrite Z.lor_spec, orb_false_r.
Qed.

Lemma connected_entry st undo h b css w :
  st !! h = Some b → WriteUndoDataForBlock UndoWriteToDisk (st, undo) h css = Some w →
  ∃ s, raise_scripts w.1 h = <[h := set_nStatus s b]> st ∧ status_keeps b s ∧ Z.testbit s 4 = true ∧
    (∀ g, g ≠ h → w.2 !! g = undo !! g) ∧ (w.2 !! h = Some css ∨ has_undo b = true ∧ w.2 = undo).
Proof using Type.
  intros Hb Hw. unfold WriteUndoDataForBlock in Hw. rewrite Hb in Hw. cbn [mbind option_bind] in Hw.
  assert (H : ∃ s, w.1 = <[h := set_nStatus s b]> st ∧ status_keeps b s ∧ Z.testbit s 4 = true ∧
    (∀ g, g ≠ h → w.2 !! g = undo !! g) ∧ (w.2 !! h = Some css ∨ has_undo b = true ∧ w.2 = undo)).
  { destruct (Z.eqb_spec (Z.land (nStatus b) BLOCK_HAVE_UNDO) 0) as [E|E].
    - destruct (UndoWriteToDisk _ _); [|done]. injection Hw as <-. exists (Z.lor (nStatus b) BLOCK_HAVE_UNDO).
      split_and!; [done|apply undo_keeps..| | |].
      + by rewrite Z.lor_spec, orb_true_r.
      + intros g Hg. by apply lookup_insert_ne.
      + left. apply lookup_insert_eq.
    - injection Hw as <-. exists (nStatus b). rewrite set_nStatus_id, insert_id by done.
      assert (Hu : Z.testbit (nStatus b) 4 = true) by (apply not_false_iff_true; by rewrite <- have_undo_bit).
      split_and!; try done; [by rewrite set_nStatus_id..|by right]. }
  destruct H as (s & Ew & Hs & H4 & H5). unfold raise_scripts. rewrite Ew, lookup_insert_eq.
  destruct (IsValid _ _); [by exists s|]. exists (RaiseValidity s BLOCK_VALID_SCRIPTS).
  rewrite insert_insert_eq. split_and!; [done|by apply raise_keeps..| |apply H5|apply H5].
  by rewrite RaiseValidity_have_undo.
Qed.

Lemma insert_extends st h b s : st !! h = Some b → extends st (<[h := set_nStatus s b]> st).
Proof using Type.
  intros Hb g c Hg. destruct (decide (g = h)) as [->|Hne].
  - rewrite lookup_insert_eq. exists (set_nStatus s b). by simplify_eq.
  - rewrite lookup_insert_ne by done. eauto.
Qed.

Lemma insert_sane st h b s : st !! h = Some b → sane genesis st → sane genesis (<[h := set_nStatus s b]> st).
Proof using Type. intros Hb. apply sane_links. by apply (fmap_insert_same links _ _ b). Qed.

(** The ledger after a block was connected. *)
Lemma connected_ledger st undo h b prev u m css fees disk w s l :
  sane genesis st → st !! h = Some b → pprev b = Some prev → valid_chain st prev u → valid_chain st h m →
  undo_known st undo → undo_there st (Some prev) → data_known st → ReadBlock h = Some disk →
  effects SHA256d (nHeight b) (blk_vtx disk) u m css fees →
  (∀ g, g ≠ h → w !! g = undo !! g) → (w !! h = Some (tail css) ∨ has_undo b = true ∧ w = undo) →
  Z.testbit s 4 = true → status_keeps b s → refines (CoinsTip l) (mkUTXO m h) → undo_files l = w →
  chain_ledger (<[h := set_nStatus s b]> st) l (Some h).
Proof using Hnet.
  intros Hs Hb Hp Hu Hm Hk Ht Hd Hr He Hother Hh Hbit Hkeep R Eu. set (st' := <[h := set_nStatus s b]> st).
  pose proof (insert_extends st h b s Hb) as Hext. pose proof (insert_sane st h b s Hb Hs) as Hs'.
  assert (Hv : ∀ g v, valid_chain st g v → valid_chain st' g v)
    by (intros g v; apply valid_extends; [apply Hs|apply Hs'|done]).
  exists m. split_and!; [by apply Hv|done| | |].
  - rewrite Eu. intros g c Hg Hun. destruct (decide (g = h)) as [->|Hne].
    + unfold st' in Hg. rewrite lookup_insert_eq in Hg. injection Hg as <-.
      exists prev, disk, u, m, css, fees. cbn [pprev set_nStatus nHeight]. split_and!; [done|by apply Hv|done|done|].
      destruct Hh as [?|[Hub ->]]; [done|]. destruct (Hk h b Hb Hub) as (p2 & bl2 & v & v' & css2 & f2 & F1 & F2 & F3 & F4 & F5).
      assert (p2 = prev) as -> by congruence. assert (bl2 = disk) as -> by congruence.
      rewrite (valid_unique _ _ _ F2 u Hu) in F4. by destruct (effects_unique _ _ _ _ _ _ _ _ _ _ He F4) as [-> _].
    + unfold st' in Hg. rewrite lookup_insert_ne in Hg by done.
      destruct (Hk g c Hg Hun) as (p2 & bl2 & v & v' & css2 & f2 & F1 & F2 & F3 & F4 & F5).
      exists p2, bl2, v, v', css2, f2. split_and!; [done|by apply Hv|done|done|]. by rewrite Hother.
  - intros t n a c [= <-] Ha Hc Hpc. destruct (decide (a = h)) as [->|Hne].
    { unfold st' in Hc. rewrite lookup_insert_eq in Hc. by injection Hc as <-. }
    unfold st' in Hc. rewrite lookup_insert_ne in Hc by done.
    rewrite (extends_prev_n st st') in Ha; [|apply Hs|done|eauto]. destruct n as [|n]; [by injection Ha as <-|].
    apply prev_n_S in Ha as (b2 & p & Hb2 & Hp2 & Ha). simplify_eq. by apply (Ht prev n a c).
  - intros g c Hg Hdata. destruct (decide (g = h)) as [->|Hne].
    + apply (Hd h b Hb). unfold st' in Hg. rewrite lookup_insert_eq in Hg. injection Hg as <-.
      by rewrite <- (proj2 Hkeep).
    + unfold st' in Hg. rewrite lookup_insert_ne in Hg by done. eauto.
Qed.

(** *** Connecting *)

(** A block given in memory is the one on disk, whatever was recorded on its checks. *)
Definition stored_block (h : Z) (block : CBlock) : Prop := ∃ disk,
  ReadBlock h = Some disk ∧ bare block = bare disk ∧ flags_ok SHA256d params bparams CheckSignetBlockSolution block.

Lemma read_stored h disk : ReadBlock h = Some disk → stored_block h disk.
Proof using Hnet.
  intros Hr. exists disk. split_and!; [done..|]. apply (bk_flags _ _ _ _ _ (db_ok _ _ (nw_disk Hnet _ _ Hr))).
Qed.

Lemma ConnectBlock_best {W} `{!CoinOps W} disk best_header h block (c : W) :
  match connect disk best_header h block false c with (_, c', None) => ∃ v, c' = SetBestBlock h v | _ => True end.
Proof using Type.
  unfold ConnectBlock. destruct (_ !! h); [|done]. destruct (negb _); [done|].
  destruct (CheckBlock _ _ _ _ _ _ _).2 as [[[] ?| |]|]; try done.
  destruct (GetBestBlock c). destruct (negb _); [done|]. destruct (_ =? _); [by eexists|].
  destruct (connect_contents _ _ _ _ _ _ _ _ _ _ _ _ _ _) as [? [?|?]]; [|done].
  destruct (WriteUndoDataForBlock _ _ _ _) as [[? ?]|]; [by eexists|done].
Qed.

(** The same on a cache over [CoinsTip]: the coins below are kept. *)
Lemma connect_cache_verdict st undo best_header h b u (c : CCoinsViewCache V) block :
  sane genesis st → st !! h = Some b → coins_at st (pprev b) u → stored_block h block →
  refines c (mkUTXO u (default 0 (pprev b))) →
  match connect (st, undo) best_header h block false (NewCache c) with
  | (d, view, None) =>
      ∃ m, refines view (mkUTXO m h) ∧ hashBlock view ≠ 0 ∧
        refines (base view) (mkUTXO u (default 0 (pprev b))) ∧ valid_chain st h m ∧
        (pprev b = None ∧ d = (st, undo) ∨
         ∃ prev disk css fees w, pprev b = Some prev ∧ ReadBlock h = Some disk ∧
           effects SHA256d (nHeight b) (blk_vtx disk) u m css fees ∧
           WriteUndoDataForBlock UndoWriteToDisk (st, undo) h (tail css) = Some w ∧ d = (raise_scripts w.1 h, w.2))
  | (d, view, Some (Invalid r _)) =>
      r ≠ BLOCK_MUTATED ∧ d = (st, undo) ∧ (¬ ∃ m, valid_chain st h m) ∧
      refines (base view) (mkUTXO u (default 0 (pprev b)))
  | (_, _, Some SystemError) => ¬ (readable h ∧ undo_writable h)
  | (_, _, Some Abort) => False
  end.
Proof using Hnet CoinsViewOk0.
  intros Hs Hb Hu (disk & Hr & Ebare & Hfl) R. pose proof (NewCache_refines _ _ R) as Rn.
  assert (Hh : h ≠ 0) by (intros ->; by rewrite (sn_zero _ _ Hs) in Hb).
  pose proof (connect_verdict st undo best_header h b u disk block Hs Hb Hu Hr Ebare Hfl) as Hv.
  pose proof (ConnectBlock_best (st, undo) best_header h block (NewCache c)) as Hbest.
  pose proof (stable_ConnectBlock (λ c, refines (base c) (mkUTXO u (default 0 (pprev b)))) (cache_ops_keep_base _)
    SHA256d params bparams cparams opts CheckSignetBlockSolution CScriptCheck pqc_active parallel_script_checks
    UndoWriteToDisk (st, undo) best_header h block false (NewCache c) R) as Hbase.
  destruct (ConnectBlock_sim (V := CCoinsViewCache V) SHA256d params bparams cparams opts CheckSignetBlockSolution
    CScriptCheck pqc_active parallel_script_checks UndoWriteToDisk (st, undo) best_header h block false (NewCache c) _
    Hh Rn) as [Ha|(E1 & E2 & R')].
  { destruct (connect _ _ _ _ _ (mkUTXO _ _)) as [[? ?] ?]. cbn [snd] in Ha. by subst. }
  destruct (connect _ _ _ _ _ (mkUTXO _ _)) as [[d u'] r]. destruct (connect _ _ _ _ _ (NewCache c)) as [[d2 view] r2].
  cbn [fst snd] in *. subst d2 r2. destruct r as [[r s| |]|]; try done.
  - destruct Hv as (H1 & H2 & H3). by split_and!.
  - destruct Hv as (m & -> & Hv & Hd). destruct Hbest as [v ->]. exists m. split_and!; [done|exact Hh|done|done|].
    destruct Hd as [?|(prev & css & fees & w & F1 & F2 & F3 & F4)]; [by left|right].
    by exists prev, disk, css, fees, w.
Qed.

Abbreviation connect_tip := (connect_view env cache_bytes mempool_bytes SHA256d params bparams cparams opts
  CheckSignetBlockSolution CScriptCheck pqc_active parallel_script_checks UndoWriteToDisk ReadBlock).
Abbreviation disconnect_tip := (disconnect_view env cache_bytes mempool_bytes SHA256d ReadBlock).

Lemma connect_view_ok st best_header h b pblock l :
  sane genesis st → st !! h = Some b → has_data b = true → chain_ledger st l (pprev b) →
  (∀ block, pblock = Some block → stored_block h block) →
  match connect_tip st best_header h pblock l with
  | (st', l', None) =>
      (∃ m, valid_chain st h m) ∧ chain_ledger st' l' (Some h) ∧ ∃ s, st' = <[h := set_nStatus s b]> st ∧ status_keeps b s
  | (st', l', Some (Invalid result _)) =>
      (¬ ∃ m, valid_chain st h m) ∧ result ≠ BLOCK_MUTATED ∧ st' = st ∧ chain_ledger st l' (pprev b)
  | (_, _, Some f) => machine_stops f
  end.
Proof using Hnet CoinsViewOk0.
  intros Hs Hb Hhd (u & Hu & R & Hk & Ht & Hdk) Hp. unfold connect_view.
  destruct (match pblock with Some block => _ | None => _ end) as [block|] eqn:Eblock.
  2: { split; [done|]. intros Hm. destruct (mc_read Hm h (Hdk h b Hb Hhd)) as (bl & Hr & _). by destruct pblock; simplify_eq. }
  assert (Hblock : stored_block h block).
  { destruct pblock as [pb|]; [apply Hp; congruence|by apply read_stored]. }
  pose proof (connect_cache_verdict st (undo_files l) best_header h b u (CoinsTip l) block Hs Hb Hu Hblock R) as Hv.
  destruct (connect _ _ _ _ _ _) as [[[st1 undo1] view] [[r s| |]|]]; try done.
  { destruct Hv as (H1 & [= -> ->] & H3 & H4). split_and!; try done. by exists u. }
  { split; [done|]. intros Hm. apply Hv. split; [apply Hm; eauto|apply Hm]. }
  destruct Hv as (m & R1 & Hh & R0 & Hv & Hd). destruct (view_flush view _ _ R1 R0 Hh) as (view' & -> & R2).
  pose proof (FlushStateToDisk_spec IF_NEEDED (with_coins l undo1 (base view')) _ R2) as Hfl.
  destruct (FlushStateToDisk _ _ _ _ _) as [l' [f|]]; [apply flush_stops in Hfl as [-> ?]; by split|]. destruct Hfl as [R3 Eu].
  cbn [undo_files with_coins] in Eu. split; [by exists m|].
  destruct Hd as [[Hpn [= -> ->]]|(prev & disk & css & fees & w & F1 & F2 & F3 & F4 & [= -> ->])].
  - split; [|exists (nStatus b); rewrite set_nStatus_id, insert_id by done; split; [done|by split; rewrite set_nStatus_id]].
    exists m. split_and!; [done|done|by rewrite Eu| |done]. intros t [|n] a c [= <-] Ha Hc Hpc.
    + injection Ha as <-. congruence.
    + apply prev_n_S in Ha as (b2 & p & Hb2 & Hp2 & _). congruence.
  - destruct (connected_entry _ _ _ _ _ _ Hb F4) as (s & Est & Hst & H4 & Hother & Hh').
    rewrite Est. split; [|by exists s]. rewrite F1 in Hu, Ht.
    by apply (connected_ledger st (undo_files l) h b prev u m css fees disk w.2 s l').
Qed.

(** *** Disconnecting *)

Lemma disconnect_valid st undo h b p m :
  sane genesis st → st !! h = Some b → pprev b = Some p → valid_chain st h m → undo_known st undo → has_undo b = true →
  ∃ disk u, ReadBlock h = Some disk ∧ valid_chain st p u ∧
    DisconnectBlock SHA256d (st, undo) h (blk_vtx disk) (mkUTXO m h) = (mkUTXO u p, inl DISCONNECT_OK) ∧
    Forall (λ tx, Forall (λ o, CTxOut_IsNull o = false) (vout tx)) (blk_vtx disk).
Proof using Hnet.
  intros Hs Hb Hp Hv Hk Hun. pose proof (height_positive _ _ _ _ Hs Hb Hp) as Hh.
  inversion Hv as [b2 disk Hb2 Hp2|h2 b2 p2 disk u m2 undo2 Hb2 Hp2 Hg Hu Hr Hc Hcon]; subst; [congruence|].
  assert (b2 = b) as -> by congruence. assert (p2 = p) as -> by congruence.
  destruct (valid_connected _ _ _ _ _ _ _ _ Hs Hb Hp Hr Hc Hcon) as (css & fees & -> & Hcn).
  destruct (Hk h b Hb Hun) as (p3 & disk3 & v & v' & css3 & fees3 & F1 & F2 & F3 & F4 & F5).
  assert (p3 = p) as -> by congruence. assert (disk3 = disk) as -> by congruence.
  rewrite (valid_unique _ _ _ F2 u Hu) in F4.
  destruct (effects_unique _ _ _ _ _ _ _ _ _ _ (cn_effects _ _ _ _ _ _ _ _ _ _ _ _ Hcn) F4) as [<- _].
  destruct (readable_contents h disk Hr Hc) as (_ & _ & _ & _ & _ & _ & Hok).
  destruct (ck_prev _ (sn_chain _ _ Hs) _ _ _ Hb Hp) as (bp & Hbp & _).
  exists disk, u. split_and!; [done|done| |apply Hcn].
  eapply disconnect_exact; [done|by eapply BIP30_enforced|done|by eapply valid_coins|done|done|done|done|].
  unfold UndoReadFromDisk. cbn [fst snd]. rewrite Hb. cbn [mbind option_bind].
  destruct (Z.eqb_spec (Z.land (nStatus b) BLOCK_HAVE_UNDO) 0) as [E|]; [|done].
  apply have_undo_bit in E. unfold has_undo in Hun. congruence.
Qed.

Lemma DisconnectBlock_best {W} `{!CoinOps W} disk h b p vtx (c : W) :
  disk.1 !! h = Some b → pprev b = Some p → (DisconnectBlock SHA256d disk h vtx c).2 = inl DISCONNECT_OK →
  ∃ v, (DisconnectBlock SHA256d disk h vtx c).1 = SetBestBlock p v.
Proof using Type.
  intros Hb Hp. unfold DisconnectBlock. destruct (UndoReadFromDisk _ _); [|done]. rewrite Hb, Hp.
  destruct (negb _); [done|]. unfold mthen. destruct (disconnect_txs _ _ _ _ _ _) as [v [[clean|]|]]; [|done..].
  intros _. by exists v.
Qed.

Lemma disconnect_view_ok st h b p l :
  sane genesis st → st !! h = Some b → pprev b = Some p → chain_ledger st l (Some h) →
  match disconnect_tip st h l with (l', None) => chain_ledger st l' (Some p) | (_, Some f) => machine_stops f end.
Proof using Hnet CoinsViewOk0.
  intros Hs Hb Hp (m & Hm & R & Hk & Ht & Hdk). cbn [coins_at default] in *.
  assert (Hun : has_undo b = true) by (apply (Ht h 0%nat h b); by rewrite ?Hp).
  destruct (disconnect_valid _ _ _ _ _ _ Hs Hb Hp Hm Hk Hun) as (disk & u & Hr & Hu & Hd & Hnull).
  unfold disconnect_view. rewrite Hr. pose proof (NewCache_refines _ _ R) as Rn.
  destruct (refines_GetBestBlock _ _ Rn) as (R1 & Eb & _).
  pose proof (ok_best _ (cache_ops_keep_base _) (NewCache (CoinsTip l)) R) as R0.
  destruct (GetBestBlock (NewCache (CoinsTip l))) as [view best]. cbn [fst snd utxo_best id] in *. subst best.
  rewrite Z.eqb_refl. cbn [negb].
  assert (Hp0 : p ≠ 0).
  { intros ->. destruct (ck_prev _ (sn_chain _ _ Hs) _ _ _ Hb Hp) as (? & Hz & _). by rewrite (sn_zero _ _ Hs) in Hz. }
  pose proof (stable_DisconnectBlock _ (cache_ops_keep_base _) SHA256d (st, undo_files l) h (blk_vtx disk) view R0) as R0'.
  pose proof (DisconnectBlock_best (st, undo_files l) h b p (blk_vtx disk) view Hb Hp) as Hbest.
  destruct (DisconnectBlock_sim (V := CCoinsViewCache V) SHA256d (st, undo_files l) h (blk_vtx disk) view _
    ltac:(intros b' Hb'; cbn [fst] in Hb'; congruence) Hnull R1) as [Ha|[E2 R']]; rewrite Hd in *; [done|].
  destruct (DisconnectBlock SHA256d (st, undo_files l) h (blk_vtx disk) view) as [view1 r]. cbn [fst snd] in *. subst r.
  destruct (Hbest eq_refl) as [v ->]. rewrite bool_decide_true by done. cbn [negb].
  destruct (view_flush _ _ _ R' R0' Hp0) as (view' & -> & R2).
  pose proof (FlushStateToDisk_spec IF_NEEDED (with_coins l (undo_files l) (base view')) _ R2) as Hfl.
  destruct (FlushStateToDisk _ _ _ _ _) as [l' [f|]]; [by eapply flush_stops|]. destruct Hfl as [R3 Eu].
  cbn [undo_files with_coins] in Eu. exists u. split_and!; [done|done|by rewrite Eu| |done]. intros t n a c [= <-] Ha. apply (Ht h (S n) a c); [done|].
  cbn [prev_n]. rewrite Hb. cbn [mbind option_bind]. by rewrite Hp.
Qed.

(** *** The laws *)

Lemma flush_chain_ledger st mode l tip :
  chain_ledger st l tip →
  match FlushStateToDisk env cache_bytes mempool_bytes mode l with
  | (l', None) => chain_ledger st l' tip
  | (_, Some f) => machine_stops f
  end.
Proof using CoinsViewOk0.
  intros (u & Hu & R & Hk & Ht). pose proof (FlushStateToDisk_spec mode l _ R) as Hfl.
  destruct (FlushStateToDisk _ _ _ _ _) as [l' [f|]]; [by eapply flush_stops|]. destruct Hfl as [R' Eu].
  exists u. by rewrite Eu.
Qed.

Lemma valid_prev st h b p :
  (∃ u, valid_chain st h u) → st !! h = Some b → pprev b = Some p → ∃ u, valid_chain st p u.
Proof using Type.
  intros [u Hv] Hb Hp. inversion Hv as [b2 bl Hb2 Hp2|h2 b2 p2 bl v v' undo Hb2 Hp2 Hg Hu]; subst; [congruence|].
  assert (p2 = p) as -> by congruence. eauto.
Qed.

#[local] Instance node_ledger_ops : Ledger (Chainstate V) := Chainstate_ledger env cache_bytes mempool_bytes SHA256d
  params bparams cparams opts CheckSignetBlockSolution CScriptCheck pqc_active parallel_script_checks
  UndoWriteToDisk ReadBlock.

#[local] Instance Chainstate_ok : LedgerOk genesis (Chainstate V).
Proof using Hnet CoinsViewOk0 data.
  refine {| ledger_at := chain_ledger; good := λ st h, ∃ u, valid_chain st h u; stored := stored_block;
            stops := machine_stops; ledger_evolves := chain_ledger_evolves; good_prev := valid_prev;
            connect_ok := connect_view_ok; disconnect_ok := disconnect_view_ok;
            flush_ok := flush_chain_ledger |}.
  - intros st st' h Hs Hs' He [u Hu]. exists u. apply (valid_extends st); [apply Hs|apply Hs'|done..].
  - intros st l t (u & Hu & _). by exists u.
Defined.

(** ** The best chain *)

Context (address : Z → Z) `{!Inj (=) (=) address}.
Abbreviation index n := (m_block_index (node_cm n)).
Abbreviation tip n := (Tip (m_chain (node_cm n))).
Abbreviation node := (Node (Chainstate V)).

(** C7. From a consistent node, [ActivateBestChain] ends within [(size + 1) * (size + 2)]
    rounds for an index of [size] blocks, and stops early only if the machine fails.  It ends
    on the best block that is valid and whose data is there, with all below it: the tip is
    such a block, and no such block is above it.  The coins are those of exactly the
    chain to the tip, read through every cache, and the node is consistent again. *)
Theorem best_chain_activated fuel get_hash pblock (n : node) :
  node_ok address n (tip n) → (∀ block, pblock = Some block → stored_block (get_hash block) block) →
  ((base.size (index n) + 1) * (base.size (index n) + 2) <= fuel)%nat →
  match ActivateBestChain address fuel get_hash pblock n with
  | (_, inr OutOfFuel) => False
  | (_, inr (Stopped f)) => f = SystemError ∧ ¬ machine_ok
  | (n', inl _) =>
      node_ok address n' (tip n') ∧
      (∀ x m, usable (index n) x → valid_chain (index n) x m →
         ∃ t, tip n' = Some t ∧ work_less address (index n) t x = false) ∧
      (∀ t, tip n' = Some t → usable (index n) t ∧
         ∃ u, valid_chain (index n) t u ∧ refines (CoinsTip (node_ledger n')) (mkUTXO u t))
  end.
Proof using Hnet CoinsViewOk0 Inj0.
  intros Hn Hst Hf. pose proof (ActivateBestChain_spec address get_hash pblock Hst fuel n Hn Hf) as H.
  destruct (ActivateBestChain _ _ _ _ n) as [n' [[]|[f|]]]; [|done..]. destruct H as ([W1 W2 W3 _] & Hn' & Hs).
  split_and!; [done| |].
  - intros x m Hx Hm. destruct (Hs x (W3 x Hx (ex_intro _ m Hm))) as (t & Ht & Hl). exists t. split; [done|].
    by rewrite (view_less _ _ _ _ _ W1).
  - intros t Ht. destruct (no_tip _ _ _ Hn' t Ht) as [Hu _].
    split; [by eapply view_usable|].
    destruct (no_ledger _ _ _ Hn') as (u & Hc & R & _). rewrite Ht in Hc, R. exists u. split; [|done].
    apply (valid_extends (index n')); [apply Hn'|apply Hn|apply links_extends; symmetry; by apply view_links|done].
Qed.
End valid.
