(* ===== verification/Process.v ===== *)
(** * Blocks and headers that arrive: [ProcessNewBlock] of src/src/validation.cpp

    What the node does with a block it receives: the checks that do not depend on the chain,
    acceptance (Accept.v, BlockCheck.v) and activation of the best chain (Activation.v), with
    [ProcessNewBlockHeaders] for headers that come without their blocks.  Signals,
    notifications, locks and the background chainstate of a snapshot are left out. *)

From stdpp Require Import gmap.
From S2P Require Import Prelude Serialize BlockHeader BlockIndex Pow Transaction Chainman Accept.
From S2P Require Import BlockCheck Connect Activation.

Local Open Scope Z_scope.
Local Open Scope coins_scope.

Section process.
Context {L : Type} `{!Ledger L} (address : Z → Z).
Context (SHA256d : list Z → Z) (params : Params) (bparams : BodyParams).
Context (CheckSignetBlockSolution : CBlockHeader → list CTransaction → bool).
Context (hashGenesisBlock : Z) (opts : Options).
Context (SaveBlockToDisk : CBlockHeader → list CTransaction → Z → bool).

(** Every header comes with the time at which it is looked at.  The values are [*ppindex],
    the last header that was accepted, and the failure that ended the loop. *)
Fixpoint ProcessNewBlockHeaders (headers : list (CBlockHeader * Z)) (min_pow_checked : bool)
    (ppindex : option Z) (cm : ChainstateManager) : ChainstateManager * option Z * option Failure :=
  match headers with
  | [] => (cm, ppindex, None)
  | (header, now) :: headers' =>
      match AcceptBlockHeader SHA256d hashGenesisBlock params opts cm header min_pow_checked now with
      | (cm, inr f) => (cm, ppindex, Some f)
      | (cm, inl pindex) => ProcessNewBlockHeaders headers' min_pow_checked (Some pindex) cm
      end
  end.

(** As many rounds as [ActivateBestChain] can need. *)
Definition enough_rounds (cm : ChainstateManager) : nat :=
  (size (m_block_index cm) + 1) * (size (m_block_index cm) + 2).

Definition activate (pblock : option CBlock) : M (Node L) Halt unit := λ n,
  ActivateBestChain address (enough_rounds (node_cm n)) (λ b, GetHash SHA256d (blk_header b)) pblock n.

(** [false]: the block is not accepted, because it is invalid or could not be stored.  A block
    that is accepted for the first time is followed by a call of [FlushStateToDisk] whose
    result is not looked at.  A failed assertion, and an error of the system in the choice of
    the chain, stop the node. *)
Definition ProcessNewBlock (block : CBlock) (force_processing min_pow_checked : bool) (now rand : Z)
    : M (Node L) Halt bool := λ n,
  match CheckBlock SHA256d params bparams CheckSignetBlockSolution block true true with
  | (_, Some _) => (n, inl false)
  | (block, None) =>
      match AcceptFullBlock SHA256d params bparams CheckSignetBlockSolution hashGenesisBlock opts address
              SaveBlockToDisk (node_cm n) (blk_header block) (blk_vtx block) force_processing
              min_pow_checked now rand with
      | (cm, inr Abort) => (mkNode cm (node_ledger n), inr (Stopped Abort))
      | (cm, inr _) => (mkNode cm (node_ledger n), inl false)
      | (cm, inl fNewBlock) =>
          let l := if fNewBlock : bool then (flush_coins NONE (node_ledger n)).1 else node_ledger n in
          (activate (Some block) ;;; mret true) (mkNode cm l)
      end
  end.
End process.
