(* ===== verification/ProcessProps.v ===== *)
(** * A node that receives headers and blocks in any order

    Acceptance (Linking.v) and activation (ActivationProps.v, ChainstateProps.v) together:
    after any run of [ProcessNewBlock] and [ProcessNewBlockHeaders] (Process.v), the tip of
    the node is the best of all blocks that are valid and whose data is there with that of
    all below, and its coins are exactly those of the chain to the tip. *)

From Stdlib Require Import String.
From stdpp Require Import gmap.
From S2P Require Import Prelude OrdSet TipSet Arith256 Serialize BlockHeader Ghostdag BlockIndex Pow Subsidy.
From S2P Require Import EarlyProtection Transaction Script Chainman Accept BlockCheck BlockCheckProps Coins CoinsDB.
From S2P Require Import Connect ConnectSim ConnectProps Replay ConnectTotal Candidates AcceptProps.
From S2P Require Import Activation ActivationProps Linking Guards Chainstate ChainstateProps Process.

Local Open Scope Z_scope.
Local Open Scope coins_scope.

(** ** What every primitive step keeps, activation keeps *)

Section steps.
Context {L : Type} `{!Ledger L} (address : Z → Z) (Inv : Node L → Prop).
Context (Hdisconnect : stable Inv DisconnectTip).
Context (Hconnect : ∀ h pblock, stable Inv (ConnectTip address h pblock)).
Context (Hprune : stable Inv (prune_candidates address)).
Context (Hfront : ∀ h, stable Inv (invalid_front h)).
Context (Hfind : stable Inv (find_most_work_chain address)).
Context (Hflush : ∀ mode, stable Inv (flush_state mode)).

Lemma disconnect_to_stable fuel fork : stable Inv (disconnect_to fuel fork).
Proof using All.
  induction fuel as [|fuel IH]; intros n Hb; cbn [disconnect_to]; (destruct (Tip _); [|done]); (case_bool_decide; [done|]);
    [done|]. by apply (stable_then Inv); [apply Hdisconnect|intros _; apply IH|].
Qed.

Lemma connect_path_stable most pblock old front path : stable Inv (connect_path address most pblock old front path).
Proof using All.
  induction path as [|h path IH]; cbn [connect_path]; [by intros n Hb|].
  apply stable_then; [apply Hconnect|]. intros [result|].
  - apply stable_then; [|by intros [] n Hb]. case_bool_decide; [by intros n Hb|apply Hfront].
  - apply stable_then; [apply Hprune|]. intros []. apply stable_then; [by apply stable_lift|].
    intros []; [by intros n Hb|apply IH].
Qed.

Lemma connect_batches_stable fuel most pblock old : ∀ height, stable Inv (connect_batches address fuel most pblock old height).
Proof using All.
  induction fuel as [|fuel IH]; intros height n Hb; cbn [connect_batches]; (destruct (_ =? _); [done|]); [done|].
  apply (stable_then Inv); [apply connect_path_stable| |done].
  intros []; [apply IH|by intros n' Hb'..].
Qed.

Lemma ActivateBestChainStep_stable most pblock : stable Inv (ActivateBestChainStep address most pblock).
Proof using All.
  intros n Hb. unfold ActivateBestChainStep. apply (stable_then Inv); [|intros _|done].
  - apply disconnect_to_stable.
  - apply stable_then; [apply connect_batches_stable|by intros p n' Hb'].
Qed.

Lemma activate_round_stable fuel get_hash pblock start : ∀ r, stable Inv (activate_round address fuel get_hash pblock start r).
Proof using All.
  induction fuel as [|fuel IH]; intros r; cbn [activate_round]; [by intros n Hb|].
  apply stable_then; [apply stable_map_error; destruct (pindexMostWork r); [by intros n Hb|apply Hfind]|].
  intros best. apply stable_then; [by apply stable_lift|]. intros t. destruct best as [h|]; [|by intros n Hb].
  case_bool_decide; [by intros n Hb|]. apply stable_then; [apply stable_map_error, ActivateBestChainStep_stable|].
  intros invalid. apply stable_then; [by apply stable_lift|]. intros t'. apply stable_then; [by apply stable_lift|].
  intros []; [apply IH|by intros n Hb].
Qed.

Lemma activate_stable fuel get_hash pblock : stable Inv (ActivateBestChain address fuel get_hash pblock).
Proof using All.
  assert (Hloop : ∀ fuel rounds best new, stable Inv (activate_loop address fuel rounds get_hash pblock best new)).
  { clear fuel. induction fuel as [|fuel IH]; intros rounds best new; cbn [activate_loop]; [by intros n Hb|].
    apply stable_then; [by apply stable_lift|]. intros start. apply stable_then; [apply activate_round_stable|].
    intros r. destruct (negb _); [by intros n Hb|]. case_bool_decide; [by intros n Hb|apply IH]. }
  apply stable_then; [apply Hloop|]. intros [|]; [|by intros n Hb]. apply stable_map_error, Hflush.
Qed.
End steps.

(** ** Activation keeps what linking needs *)

Section base.
Context {L : Type} `{!Ledger L} (address : Z → Z) `{!Inj (=) (=) address}.
Context (Hconnect : ∀ st best_header h pblock (l : L), calm st (connect_coins st best_header h pblock l).1.1).
Implicit Types (n : Node L) (cm : ChainstateManager).

Abbreviation base cm := (base_ok address cm).
Abbreviation base_stable m := (stable (λ n : Node L, base (node_cm n)) m).

Lemma base_same cm cm' :
  base cm → m_block_index cm' = m_block_index cm → setBlockIndexCandidates cm' = setBlockIndexCandidates cm →
  m_blocks_unlinked cm' = m_blocks_unlinked cm → base cm'.
Proof using Type.
  intros Hb Ei Ec Eu. apply (base_ok_calm address cm); rewrite ?Ei, ?Ec; try done; [apply calm_refl|].
  apply (co_sorted _ _ (bo_cands _ _ Hb)).
Qed.

Lemma InvalidChainFound_base cm h cm' : base cm → InvalidChainFound cm h = Some cm' → base cm'.
Proof using Type.
  intros Hb. unfold InvalidChainFound, note_invalid. repeat (case_match; try done);
    intros [= <-]; by apply (base_same cm).
Qed.

Lemma InvalidBlockFound_base cm h r cm' : base cm → InvalidBlockFound address cm h r = Some cm' → base cm'.
Proof using Inj0.
  intros Hb. unfold InvalidBlockFound. case_bool_decide; [by intros [= <-]|].
  destruct (m_block_index cm !! h) as [b|] eqn:Eb; [|done]. cbv zeta. intros Hf. eapply InvalidChainFound_base; [|exact Hf].
  clear Hf. set (b' := set_nStatus _ b). pose proof (co_sorted _ _ (bo_cands _ _ Hb)) as Hs.
  assert (Hcalm : calm (m_block_index cm) (<[h := b']> (m_block_index cm))).
  { assert (Hf : IsFailed b' = true) by apply lor_failed. apply (calm_insert _ _ b); try done; [|by left].
    unfold cand_view. f_equal. pose proof (failed_ledger_view b BLOCK_FAILED_VALID (or_introl eq_refl)) as Hv.
    by apply pair_equal_spec in Hv as [_ Hv]. }
  assert (Hs' : ordered (work_less address (<[h := b']> (m_block_index cm))) (setBlockIndexCandidates cm)).
  { apply (ordered_keys address (m_block_index cm)); [|done]. intros g _. apply view_keys. by apply calm_view. }
  apply (base_ok_calm address cm); cbn; try done.
  - intros x Hx. by eapply (elem_of_set_erase _ _ _ _ Hs').
  - apply (ordered_sublist _ _ (setBlockIndexCandidates cm)); [apply set_erase_sublist|done].
Qed.

Lemma DisconnectTip_base : base_stable DisconnectTip.
Proof using Type.
  intros n Hb. unfold DisconnectTip. destruct (Tip _); [|done]. destruct (_ ≫= _); [|done].
  destruct (disconnect_coins _ _ _) as [l [f|]]; [done|]. by apply (base_same (node_cm n)).
Qed.

Lemma prune_mergeset_calm st h : calm st (prune_mergeset st h).
Proof using Type.
  unfold prune_mergeset. destruct (_ <? _); [|apply calm_refl]. destruct (GetAncestor _ _ _) as [a|]; [|apply calm_refl].
  destruct (st !! a) as [b|] eqn:Hb; [|apply calm_refl]. destruct (mergeset_blues _); [apply calm_refl|].
  by apply (calm_insert _ _ b).
Qed.

Lemma ConnectTip_base h pblock : base_stable (ConnectTip address h pblock).
Proof using Inj0 Hconnect.
  intros n Hb. unfold ConnectTip. destruct (_ !! h); [|done]. destruct (negb _); [done|].
  pose proof (Hconnect (m_block_index (node_cm n)) (m_best_header (node_cm n)) h pblock (node_ledger n)) as Hc.
  destruct (connect_coins _ _ _ _ _) as [[st l] r]. cbn [fst] in Hc.
  assert (Hst : ∀ st', calm st st' → base (with_index (node_cm n) st')).
  { intros st' H. apply (base_ok_calm address (node_cm n)); try done; [by eapply calm_trans|].
    apply (co_sorted _ _ (bo_cands _ _ Hb)). }
  destruct r as [[result reason| |]|]; try (apply Hst, calm_refl).
  - destruct (InvalidBlockFound _ _ _ _) as [cm|] eqn:E; [|apply Hst, calm_refl].
    eapply InvalidBlockFound_base; [|exact E]. apply Hst, calm_refl.
  - cbn [node_cm fst]. eapply base_same; [apply (Hst _ (prune_mergeset_calm st h))|done..].
Qed.

Lemma prune_candidates_base : base_stable (prune_candidates address).
Proof using Inj0.
  intros n Hb. unfold prune_candidates, PruneBlockIndexCandidates. destruct (Tip _) as [t|]; [|done].
  pose proof (co_sorted _ _ (bo_cands _ _ Hb)) as Hs.
  destruct (prune_worse _ _ _ _) as [|c cs] eqn:E; [done|]. cbn [fst node_cm].
  apply (base_ok_calm address (node_cm n)); try done; [apply calm_refl| |].
  - cbn. intros x Hx. rewrite <- E in Hx. apply (prune_worse_elem address) in Hx as [? _]; done.
  - cbn. rewrite <- E. by apply prune_worse_ordered.
Qed.

Lemma invalid_front_base h : base_stable (invalid_front h).
Proof using Type.
  intros n Hb. unfold invalid_front. destruct (InvalidChainFound _ _) as [cm|] eqn:E; [|done].
  by eapply InvalidChainFound_base.
Qed.

Lemma find_most_work_base : base_stable (find_most_work_chain address).
Proof using Inj0.
  intros n Hb. unfold find_most_work_chain. destruct (FindMostWorkChain address (node_cm n)) as [[cm' r]|] eqn:E; [|done].
  set (cm := node_cm n) in *. pose proof (bo_cands _ _ Hb) as Hc. cbn [fst node_cm].
  pose proof (find_most_work_spec address (m_block_index cm) (length (setBlockIndexCandidates cm)) (bo_chain _ _ Hb) cm) as H.
  unfold FindMostWorkChain in E. rewrite E in H.
  destruct H as ([M C _ S B O] & _ & Hu); [done|apply marks_refl|apply Hc| |].
  { intros h Hh. destruct (complete_data _ _ (co_complete _ _ Hc h Hh)) as (b & Hb' & _). eauto. }
  assert (Hcalm : calm (m_block_index cm) (m_block_index cm')).
  { split.
    - intros h b Hbh. specialize (M h). rewrite Hbh in M. destruct (m_block_index cm' !! h) as [b'|]; [|done].
      destruct M as (s & -> & D & Hs). exists (set_nStatus s b). split; [done|].
      split; [unfold cand_view; by rewrite D|]. split; [done|].
      destruct Hs as [->|[_ Hf]]; [by rewrite set_nStatus_id|]. split; [done|by left].
    - intros h b' Hb'. specialize (M h). rewrite Hb' in M. destruct (m_block_index cm !! h); [by eauto|done]. }
  apply (base_ok_calm address cm); [done|done|done| |apply Hu, Hc].
  apply (ordered_keys address (m_block_index cm')); [|done]. intros h _. symmetry. apply view_keys. by apply calm_view.
Qed.

Lemma flush_state_base mode : base_stable (flush_state mode).
Proof using Type. intros n Hb. unfold flush_state. by destruct (flush_coins _ _) as [l [f|]]. Qed.

Lemma ActivateBestChain_base fuel get_hash pblock : base_stable (ActivateBestChain address fuel get_hash pblock).
Proof using Inj0 Hconnect.
  apply activate_stable; intros; [apply DisconnectTip_base|apply ConnectTip_base|apply prune_candidates_base
    |apply invalid_front_base|apply find_most_work_base|apply flush_state_base].
Qed.
End base.

(** ** Activation keeps what the assertions of acceptance need *)

Section guards.
Context {L : Type} `{!Ledger L} (address : Z → Z).
Context (Hconnect : ∀ st best_header h pblock (l : L), steady st (connect_coins st best_header h pblock l).1.1).
Implicit Types (n : Node L) (cm : ChainstateManager).

Abbreviation guard_stable m := (stable (λ n : Node L, guarded (node_cm n)) m).

Lemma InvalidChainFound_guarded cm h cm' : guarded cm → InvalidChainFound cm h = Some cm' → guarded cm'.
Proof using Type.
  intros Hg. unfold InvalidChainFound, note_invalid. repeat (case_match; try done); intros [= <-];
    apply (guarded_steady cm); try done; apply steady_refl.
Qed.

Lemma InvalidBlockFound_guarded cm h r cm' : guarded cm → InvalidBlockFound address cm h r = Some cm' → guarded cm'.
Proof using Type.
  intros Hg. unfold InvalidBlockFound. case_bool_decide; [by intros [= <-]|].
  destruct (m_block_index cm !! h) as [b|] eqn:Eb; [|done]. cbv zeta. intros Hf. eapply InvalidChainFound_guarded; [|exact Hf].
  clear Hf. set (b' := set_nStatus _ b). assert (Hi : invalid_bit b' = true) by apply failed_valid_bit.
  destruct (guarded_steady cm (with_index cm (<[h := b']> (m_block_index cm))) Hg) as [Hc Hm Hlv]; [|done|].
  { by apply failed_valid_insert. }
  split; [done| |done]. cbn. intros g Hgf. assert (g = h ∨ g ∈ m_failed_blocks cm) as [->|Hin].
  { case_bool_decide; [by right|]. apply elem_of_cons in Hgf as [->|?]; auto. }
  - exists b'. by rewrite lookup_insert_eq.
  - by apply Hm.
Qed.

Lemma ConnectTip_guarded h pblock : guard_stable (ConnectTip address h pblock).
Proof using Hconnect.
  intros n Hg. unfold ConnectTip. destruct (_ !! h); [|done]. destruct (negb _); [done|].
  pose proof (Hconnect (m_block_index (node_cm n)) (m_best_header (node_cm n)) h pblock (node_ledger n)) as Hc.
  destruct (connect_coins _ _ _ _ _) as [[st l] r]. cbn [fst] in Hc.
  assert (Hst : guarded (with_index (node_cm n) st)) by (by apply (guarded_steady (node_cm n))).
  destruct r as [[result reason| |]|]; try done.
  - destruct (InvalidBlockFound _ _ _ _) as [cm|] eqn:E; [|done]. by eapply InvalidBlockFound_guarded.
  - cbn [node_cm fst]. apply (guarded_steady _ _ Hst); [|done]. cbn. unfold prune_mergeset.
    destruct (_ <? _); [|apply steady_refl]. destruct (GetAncestor _ _ _) as [a|]; [|apply steady_refl].
    destruct (st !! a) as [b|] eqn:Hb; [|apply steady_refl]. destruct (mergeset_blues _); [apply steady_refl|].
    by apply (steady_insert _ _ b).
Qed.

Lemma find_most_work_guarded : guard_stable (find_most_work_chain address).
Proof using Type.
  intros n Hg. unfold find_most_work_chain. destruct (FindMostWorkChain address (node_cm n)) as [[cm' r]|] eqn:E; [|done].
  unfold FindMostWorkChain in E. cbn [fst node_cm]. apply (guarded_steady (node_cm n)); [done|split|].
  - by apply (find_most_work_view address dag_links) in E.
  - apply graver_view. apply (find_most_work_view address guard_flags) in E; [done|]. intros b. symmetry. apply failed_child_flags.
  - by apply find_most_work_failed in E.
Qed.

Lemma ActivateBestChain_guarded fuel get_hash pblock : guard_stable (ActivateBestChain address fuel get_hash pblock).
Proof using Hconnect.
  apply activate_stable; intros; [|apply ConnectTip_guarded| | |apply find_most_work_guarded|].
  - intros n Hg. unfold DisconnectTip. destruct (Tip _); [|done]. destruct (_ ≫= _); [|done].
    destruct (disconnect_coins _ _ _) as [l [f|]]; [done|]. apply (guarded_steady (node_cm n)); [done|apply steady_refl|done].
  - intros n Hg. unfold prune_candidates. destruct (Tip _); [|done]. destruct (PruneBlockIndexCandidates _ _ _ _); [|done].
    apply (guarded_steady (node_cm n)); [done|apply steady_refl|done].
  - intros n Hg. unfold invalid_front. destruct (InvalidChainFound _ _) as [cm|] eqn:E; [|done].
    by eapply InvalidChainFound_guarded.
  - intros n Hg. unfold flush_state. by destruct (flush_coins _ _) as [l [f|]].
Qed.
End guards.

(** ** The node *)

Section node.
Context (SHA256d : list Z → Z) (params : Params) (bparams : BodyParams) (cparams : ConnectParams) (opts : Options).
Context (CheckSignetBlockSolution : CBlockHeader → list CTransaction → bool).
Context (CScriptCheck : CTransaction → nat → list CTxOut → Z → option string).
Context (pqc_active : option Z → bool) (parallel_script_checks : bool).
Context (ReadBlock : Z → option CBlock) (UndoWriteToDisk : Z → CBlockUndo → bool).
Context {V : Type} `{!CCoinsView V, !CoinsViewOk V}.
Context (env : nat → FlushEnv V) (cache_bytes mempool_bytes : Z).
Context (address : Z → Z) `{!Inj (=) (=) address}.

Abbreviation genesis := (hashGenesisBlock cparams).
Abbreviation network := (network_ok SHA256d params bparams cparams CheckSignetBlockSolution ReadBlock).
Abbreviation valid_chain := (valid_chain SHA256d params bparams cparams opts CheckSignetBlockSolution CScriptCheck
  pqc_active parallel_script_checks ReadBlock).
Abbreviation readable := (readable SHA256d params bparams CheckSignetBlockSolution ReadBlock).
Abbreviation chain_ledger := (chain_ledger SHA256d params bparams cparams opts CheckSignetBlockSolution CScriptCheck
  pqc_active parallel_script_checks ReadBlock readable).
Abbreviation machine_ok := (machine_ok SHA256d params bparams CheckSignetBlockSolution ReadBlock UndoWriteToDisk env readable).
Context (Hnet : network).

#[local] Instance chain_ops : Ledger (Chainstate V) := Chainstate_ledger env cache_bytes mempool_bytes SHA256d
  params bparams cparams opts CheckSignetBlockSolution CScriptCheck pqc_active parallel_script_checks
  UndoWriteToDisk ReadBlock.

#[local] Instance chain_laws : LedgerOk genesis (Chainstate V) := Chainstate_ok SHA256d params bparams cparams opts
  CheckSignetBlockSolution CScriptCheck pqc_active parallel_script_checks ReadBlock Hnet UndoWriteToDisk env
  cache_bytes mempool_bytes readable.

Abbreviation node := (Node (Chainstate V)).
Abbreviation index n := (m_block_index (node_cm n)).
Abbreviation tip n := (Tip (m_chain (node_cm n))).
Abbreviation less := (work_less address).
Implicit Types (n : node).

(** Connecting a block changes flags only. *)
Lemma raise_scripts_treed st h c : raise_scripts st h !! h = Some c → treed c.
Proof using Type.
  unfold raise_scripts. destruct (st !! h) as [b|] eqn:Hb; [|congruence].
  destruct (IsValid b BLOCK_VALID_SCRIPTS) eqn:Hv.
  - rewrite Hb. intros [= <-]. right. unfold IsValid in *. destruct (IsFailed b); [done|]. apply Z.leb_le in Hv.
    apply Z.leb_le. unfold BLOCK_VALID_SCRIPTS, BLOCK_VALID_TREE in *. lia.
  - rewrite lookup_insert_eq. intros [= <-]. by apply raise_treed.
Qed.

Lemma connected_calm st undo h css w :
  WriteUndoDataForBlock UndoWriteToDisk (st, undo) h css = Some w → calm st (raise_scripts w.1 h).
Proof using Type.
  intros Hw. destruct (st !! h) as [b|] eqn:Hb; [|unfold WriteUndoDataForBlock in Hw; cbn [fst] in Hw; by rewrite Hb in Hw].
  destruct (connected_entry UndoWriteToDisk st undo h b css w Hb Hw) as (s & E & [Hf Hd] & _). pose proof E as E'. rewrite E'.
  apply (calm_insert _ _ b); try done.
  - unfold cand_view. by rewrite Hd.
  - by rewrite Hf.
  - intros _. apply (raise_scripts_treed w.1 h). by rewrite E, lookup_insert_eq.
Qed.

Lemma connected_steady st undo h css w :
  WriteUndoDataForBlock UndoWriteToDisk (st, undo) h css = Some w → steady st (raise_scripts w.1 h).
Proof using Type.
  intros Hw. apply (steady_trans _ w.1).
  - unfold WriteUndoDataForBlock in Hw. destruct (st !! h) as [b|] eqn:Hb; [|done]. cbn [mbind option_bind] in Hw.
    destruct (_ =? 0); [|by injection Hw as <-; apply steady_refl]. destruct (UndoWriteToDisk _ _); [|done].
    injection Hw as <-. apply (steady_insert _ _ b); [done..| |by apply lor_leveled]. unfold invalid_bit.
    cbn [nStatus set_nStatus]. intros Hi. by rewrite Z.lor_spec, Hi.
  - unfold raise_scripts. destruct (w.1 !! h) as [b|] eqn:Hb; [|apply steady_refl].
    destruct (IsValid _ _); [apply steady_refl|]. apply (steady_insert _ _ b); [done..| |].
    + unfold invalid_bit. cbn [nStatus set_nStatus]. by rewrite raise_bit.
    + unfold leveled. rewrite !has_data_testbit. cbn [nStatus set_nStatus]. rewrite raise_bit by done. intros Hl Hd. specialize (Hl Hd).
      destruct (raise_level (nStatus b) BLOCK_VALID_SCRIPTS) as [? _]; [done|]. lia.
Qed.

(** What holds when nothing is changed, and when the block is connected. *)
Lemma connect_changes (R : BlockMap → BlockMap → Prop) st best_header h pblock (l : Chainstate V) :
  R st st → (∀ undo css w, WriteUndoDataForBlock UndoWriteToDisk (st, undo) h css = Some w → R st (raise_scripts w.1 h)) →
  R st (connect_coins st best_header h pblock l).1.1.
Proof using Type.
  intros H0 H1. cbn [connect_coins chain_ops Chainstate_ledger]. unfold connect_view.
  destruct (match pblock with Some block => _ | None => _ end) as [block|]; [|done].
  assert (H : ∀ c : CCoinsViewCache (CCoinsViewCache V), R st (ConnectBlock SHA256d params bparams cparams opts
    CheckSignetBlockSolution CScriptCheck pqc_active parallel_script_checks UndoWriteToDisk (st, undo_files l) best_header h
    block false c).1.1.1).
  { intros c. unfold ConnectBlock. cbn [fst]. destruct (st !! h); [|done]. destruct (negb _); [done|].
    destruct (CheckBlock _ _ _ _ _ _ _).2 as [[[] ?| |]|]; try done. destruct (GetBestBlock c).
    destruct (negb _); [done|]. destruct (_ =? _); [done|].
    destruct (connect_contents _ _ _ _ _ _ _ _ _ _ _ _ _ _) as [? [?|?]]; [|done].
    destruct (WriteUndoDataForBlock _ _ _ _) as [[st1 undo1]|] eqn:Ew; [|done]. apply (H1 _ _ _ Ew). }
  specialize (H (NewCache (CoinsTip l))). destruct (ConnectBlock _ _ _ _ _ _ _ _ _ _ _ _ _ _ _ _) as [[[st1 undo1] view] [f|]];
    [done|]. destruct (Flush view); [|done]. by destruct (FlushStateToDisk _ _ _ _ _).
Qed.

Lemma connect_calm st best_header h pblock (l : Chainstate V) : calm st (connect_coins st best_header h pblock l).1.1.
Proof using Type. apply connect_changes; [apply calm_refl|]. intros undo css w. apply connected_calm. Qed.

Lemma connect_steady st best_header h pblock (l : Chainstate V) : steady st (connect_coins st best_header h pblock l).1.1.
Proof using Type. apply connect_changes; [apply steady_refl|]. intros undo css w. apply connected_steady. Qed.

(** *** The invariant *)

Abbreviation valid st h := (∃ u, valid_chain st h u).

(** A block is failed because of one without data that did not pass the checks, or one that
    is not valid. *)
Definition rooted (st : BlockMap) (h : Z) : Prop := ∃ k a b,
  prev_n st k h = Some a ∧ st !! a = Some b ∧ IsFailed b = true ∧ (has_data b = false ∨ ¬ valid st a).

Definition failed_rooted (st : BlockMap) : Prop := ∀ h b, st !! h = Some b → IsFailed b = true → rooted st h.

Record node_inv n : Prop := {
  ni_ok : node_ok address n (tip n);
  ni_link : link_ok address (node_cm n) [];
  ni_failed : failed_rooted (index n);
  ni_genesis : data_at (index n) genesis
}.

Lemma link_node_ok n :
  link_ok address (node_cm n) [] → sane genesis (index n) → chain_to (index n) (m_chain (node_cm n)) (tip n) →
  chain_ledger (index n) (node_ledger n) (tip n) → (tip n = None → valid (index n) genesis) → node_ok address n (tip n).
Proof using Hnet Inj0.
  intros Hl Hs Hc Hled Hg. split; try done.
  - intros t Ht. split; [by apply (li_tip _ _ _ Hl)|]. exists t. split; [done|]. apply (st_irrefl (lt := less (index n))).
  - intros t Ht. split; [by apply (li_tip _ _ _ Hl)|]. rewrite Ht in Hled. destruct Hled as (u & Hu & _). by exists u.
  - apply (co_sorted _ _ (li_cands _ _ _ Hl)).
  - intros h Hh. split; [|by apply (li_counted _ _ _ Hl)].
    destruct (complete_data _ _ (co_complete _ _ (li_cands _ _ _ Hl) h Hh)) as (b & Hb & _). eauto.
  - intros x Hx Ht. by apply (li_covers _ _ _ Hl); [|apply not_elem_of_nil|].
Qed.

(** *** Acceptance keeps it *)

Lemma rooted_grows st st' h k a :
  sane genesis st → sane genesis st' → extends st st' →
  (∀ x b b', st !! x = Some b → st' !! x = Some b' → IsFailed b = true → IsFailed b' = true ∧ has_data b' = has_data b) →
  prev_n st' k h = Some a → rooted st a → rooted st' h.
Proof using Hnet.
  intros Hs Hs' He Hf Hk (j & r & b & Hj & Hb & Hbf & Hor).
  assert (Ha : is_Some (st !! a)).
  { destruct j as [|j]; [injection Hj as <-; eauto|]. by apply prev_n_S in Hj as (ba & p & -> & _). }
  destruct (He r b Hb) as (b' & Hb' & _). destruct (Hf r b b' Hb Hb' Hbf) as [Hf' Hd'].
  exists (k + j)%nat, r, b'. split_and!; [|done|done|].
  - rewrite prev_n_add, Hk. cbn. rewrite (extends_prev_n st st'); [done|apply Hs|done|done].
  - destruct Hor as [?|Hv]; [left; congruence|right]. intros [u Hu]. apply Hv. exists u.
    eapply (valid_back _ _ _ _ _ _ _ _ _ _ Hnet st st'); [apply Hs|apply Hs'|done|done|eauto].
Qed.

Lemma rooted_mild st st' :
  sane genesis st → sane genesis st' → mild st st' → failed_rooted st → failed_rooted st'.
Proof using Hnet.
  intros Hs Hs' M H h b' Hb' Hf. destruct (md_blame _ _ M h b' Hb' Hf) as (k & a & c & Hk & [[Hc Hcf]|(Hc & Hcf & Hd)]).
  - apply (rooted_grows st st' h k a); [done|done|by apply mild_extends| |done|by eapply H].
    intros x b b2 Hb Hb2 Hbf. destruct (md_old _ _ M x b Hb) as (b3 & Hb3 & _ & D & _ & _ & _ & F & _).
    assert (b3 = b2) as -> by congruence. auto.
  - exists k, a, c. auto.
Qed.

Lemma gains_entry hash st st' x b' :
  gains hash st st' → st' !! x = Some b' →
  ∃ b, st !! x = Some b ∧ links b' = links b ∧ IsFailed b' = IsFailed b ∧ has_undo b' = has_undo b ∧
    has_data b' = has_data b || bool_decide (x = hash).
Proof using Type.
  intros [Hv Hd] Hb'. destruct (fmap_lookup_eq _ _ _ _ _ Hv Hb') as (b & Hb & E). exists b. split; [done|].
  apply pair_equal_spec in E as [[E1 E2]%pair_equal_spec E3]. split_and!; [done..|by apply Hd].
Qed.

Lemma gains_links hash st st' : gains hash st st' → links <$> st = links <$> st'.
Proof using Type.
  intros [Hv _]. apply map_eq. intros h. apply (f_equal (.!! h)) in Hv. rewrite !lookup_fmap in *. unfold flag_view in Hv.
  destruct (st !! h), (st' !! h); cbn in *; congruence.
Qed.

Lemma rooted_gains hash st st' b :
  sane genesis st → gains hash st st' → st !! hash = Some b → IsFailed b = false → failed_rooted st → failed_rooted st'.
Proof using Hnet.
  intros Hs G Hb Hf H h c' Hc' Hcf. pose proof (gains_links _ _ _ G) as Hlk.
  destruct (gains_entry _ _ _ h c' G Hc') as (c & Hc & _ & Ef & _). apply (rooted_grows st st' h 0%nat h); try done.
  - by apply (sane_links genesis st).
  - by apply links_extends.
  - intros x d d' Hd Hd' Hdf. destruct (gains_entry _ _ _ x d' G Hd') as (d2 & Hd2 & _ & -> & _ & ->).
    assert (d2 = d) as -> by congruence. split; [done|]. rewrite bool_decide_eq_false_2; [by rewrite orb_false_r|]. congruence.
  - apply (H h c Hc). congruence.
Qed.

Lemma mild_grows st st' : mild st st' → grows st st'.
Proof using Type.
  intros M. split.
  - intros h b Hb. destruct (md_old _ _ M h b Hb) as (b' & ? & ? & _ & _ & _ & ? & _). eauto.
  - intros h b' Hn Hb'. by destruct (md_new _ _ M h b' Hn Hb') as (_ & _ & ?).
Qed.

Lemma gains_grows hash st st' : gains hash st st' → grows st st'.
Proof using Type.
  intros G. split.
  - intros h b Hb. destruct (links_extends _ _ (gains_links _ _ _ G) h b Hb) as (b' & Hb' & Hl). exists b'.
    destruct (gains_entry _ _ _ h b' G Hb') as (b2 & Hb2 & _ & _ & E & _). assert (b2 = b) as -> by congruence. auto.
  - intros h b' Hn Hb'. destruct (gains_entry _ _ _ h b' G Hb') as (b & ? & _). congruence.
Qed.

Lemma grows_trans st1 st2 st3 : grows st1 st2 → grows st2 st3 → grows st1 st3.
Proof using Type.
  intros [O1 N1] [O2 N2]. split.
  - intros h b Hb. destruct (O1 h b Hb) as (b2 & Hb2 & ? & ?). destruct (O2 h b2 Hb2) as (b3 & ? & ? & ?).
    exists b3. split_and!; congruence.
  - intros h b3 Hn Hb3. destruct (st2 !! h) as [b2|] eqn:Hb2; [|by eapply N2].
    destruct (O2 h b2 Hb2) as (b3' & ? & _ & E). assert (b3' = b3) as -> by congruence. rewrite E. by eapply N1.
Qed.

Lemma grows_extends st st' : grows st st' → extends st st'.
Proof using Type. intros G h b Hb. destruct (gr_old _ _ G h b Hb) as (b' & ? & ? & _). eauto. Qed.

Lemma chain_to_extends st st' v t :
  chain_ok st → extends st st' → chain_to st v t → chain_to st' v t.
Proof using Type.
  intros Hok He. destruct t as [t|]; [|done]. intros (b & Hb & Hl & Hv). destruct (He t b Hb) as (b' & Hb' & Hlk).
  assert (Eh : nHeight b' = nHeight b) by (unfold links in Hlk; congruence).
  exists b'. rewrite Eh. split_and!; [done..|]. intros m Hm. rewrite (Hv m Hm). f_equal. symmetry.
  apply extends_prev_n; eauto.
Qed.

(** A change of the index that keeps the tip. *)
Lemma inv_grows n cm' l' :
  node_inv n → link_ok address cm' [] → sane genesis (m_block_index cm') → m_chain cm' = m_chain (node_cm n) →
  grows (index n) (m_block_index cm') → failed_rooted (m_block_index cm') → data_at (m_block_index cm') genesis →
  (∀ h b, m_block_index cm' !! h = Some b → has_data b = true → readable h) →
  chain_ledger (index n) l' (tip n) → node_inv (mkNode cm' l').
Proof using Hnet Inj0.
  intros Hn Hl Hs Ec G Hf Hd Hr Hled. pose proof (no_sane _ _ _ (ni_ok _ Hn)) as Hs0. split; try done.
  pose proof (grows_extends _ _ G) as He. apply link_node_ok; cbn [node_cm node_ledger]; rewrite ?Ec; [done|done|..].
  - eapply chain_to_extends; [apply Hs0|exact He|]. apply (no_chain _ _ _ (ni_ok _ Hn)).
  - by eapply (chain_ledger_grows _ _ _ _ _ _ _ _ _ _ Hnet readable (index n)).
  - intros Ht. destruct (no_genesis _ _ _ (ni_ok _ Hn) Ht) as [u Hu]. exists u.
    eapply (valid_extends _ _ _ _ _ _ _ _ _ _ Hnet (index n)); [apply Hs0|apply Hs|done|done].
Qed.

Lemma ledger_data st l t h b : chain_ledger st l t → st !! h = Some b → has_data b = true → readable h.
Proof using Type. intros (u & _ & _ & _ & _ & Hd). apply Hd. Qed.

(** Changes without data. *)
Lemma inv_mild n cm' :
  node_inv n → link_ok address cm' [] → sane genesis (m_block_index cm') → m_chain cm' = m_chain (node_cm n) →
  mild (index n) (m_block_index cm') →
  node_inv (mkNode cm' (node_ledger n)) ∧ (settled address n → settled address (mkNode cm' (node_ledger n))).
Proof using Hnet Inj0.
  intros Hn Hl Hs Ec M. pose proof (no_sane _ _ _ (ni_ok _ Hn)) as Hs0. pose proof (no_ledger _ _ _ (ni_ok _ Hn)) as Hled. split.
  - apply (inv_grows n); try done.
    + by apply mild_grows.
    + by apply (rooted_mild (index n)), (ni_failed _ Hn).
    + destruct (ni_genesis _ Hn) as (b & Hb & Hd). destruct (md_old _ _ M _ b Hb) as (b' & Hb' & _ & D & _). exists b'. by rewrite D.
    + intros h b' Hb' Hd. destruct (mild_data _ _ h b' M Hb' (or_introl Hd)) as (b & Hb & _ & _ & E & _).
      eapply ledger_data; [exact Hled|exact Hb|congruence].
  - intros Hset x Hx. cbn [node_cm] in *. pose proof (mild_usable_back _ _ x (sn_chain _ _ Hs0) M Hx) as Hx0.
    destruct (Hset x Hx0) as (t & Ht & Hle). exists t. rewrite Ec. split; [done|].
    rewrite <- Hle. destruct (no_tip _ _ _ (ni_ok _ Hn) t Ht) as [Hut _]. apply work_less_keys; by apply mild_key.
Qed.

(** A block received its data. *)
Lemma inv_gains n cm' l' hash st1 b :
  node_inv n → link_ok address cm' [] → sane genesis (m_block_index cm') → m_chain cm' = m_chain (node_cm n) →
  mild (index n) st1 → sane genesis st1 → st1 !! hash = Some b → has_data b = false → IsFailed b = false →
  gains hash st1 (m_block_index cm') → readable hash → chain_ledger (index n) l' (tip n) → node_inv (mkNode cm' l').
Proof using Hnet Inj0.
  intros Hn Hl Hs Ec M Hs1 Hb Hd Hf G Hr Hled. pose proof (no_sane _ _ _ (ni_ok _ Hn)) as Hs0.
  apply (inv_grows n); try done.
  - eapply grows_trans; [by apply mild_grows|by eapply gains_grows].
  - eapply rooted_gains; [exact Hs1|done..|]. by apply (rooted_mild (index n)), (ni_failed _ Hn).
  - destruct (ni_genesis _ Hn) as (bg & Hbg & Hdg). destruct (md_old _ _ M _ bg Hbg) as (b1 & Hb1 & _ & D & _).
    destruct (links_extends _ _ (gains_links _ _ _ G) _ b1 Hb1) as (b2 & Hb2 & _). exists b2. split; [done|].
    rewrite (gn_data _ _ _ G _ _ _ Hb1 Hb2), D, Hdg. done.
  - intros h c' Hc' Hdc. destruct (gains_entry _ _ _ h c' G Hc') as (c & Hc & _ & _ & _ & E). rewrite E in Hdc.
    apply orb_true_iff in Hdc as [Hdc|Hx]; [|apply bool_decide_eq_true in Hx; by subst].
    destruct (mild_data _ _ h c M Hc (or_introl Hdc)) as (c0 & Hc0 & _ & _ & E0 & _).
    eapply ledger_data; [exact Hled|exact Hc0|congruence].
Qed.

(** *** Activation keeps it *)

Lemma activated_link n n' :
  link_ok address (node_cm n) [] → cand_view <$> index n = cand_view <$> index n' → node_ok address n' (tip n') →
  base_ok address (node_cm n') → link_ok address (node_cm n') [].
Proof using Type.
  intros Hl Hv Hn' Hb. pose proof (no_sane _ _ _ Hn') as Hs.
  assert (Hback : ∀ h b', index n' !! h = Some b' → ∃ b, index n !! h = Some b ∧ nHeight b' = nHeight b ∧
    pprev b' = pprev b ∧ has_data b' = has_data b ∧ m_chain_tx_count b' = m_chain_tx_count b).
  { intros h b' Hb'. destruct (fmap_lookup_eq _ _ _ _ _ Hv Hb') as (b & Hbh & E). exists b.
    unfold cand_view, links in E. split_and!; congruence. }
  split; try apply Hs; try apply Hb.
  - split; [by intros h ?%elem_of_nil|]. apply (co_once _ _ (bo_cands _ _ Hb)).
  - intros h b' Hb' Hc. destruct (Hback h b' Hb') as (b & Hbh & -> & _ & _ & E). rewrite E in *. by apply (li_count _ _ _ Hl h b).
  - intros h b' p bp' Hb' Hp Hbp' Hc. destruct (Hback h b' Hb') as (b & Hbh & _ & Ep & _ & E).
    destruct (Hback p bp' Hbp') as (bp & Hbp & _ & _ & _ & ->). rewrite E in Hc. rewrite Ep in Hp. by apply (li_down _ _ _ Hl h b p bp).
  - by intros q b ?%elem_of_nil.
  - intros t Ht. split; [by apply (no_tip _ _ _ Hn' t)|apply not_elem_of_nil].
  - intros x Hx. by apply (no_cands _ _ _ Hn' x).
  - intros x Hx _ Ht. by apply (no_covers _ _ _ Hn').
  - intros h b' Hb' Hp Hd. destruct (Hback h b' Hb') as (b & Hbh & _ & Ep & Ed & ->). rewrite Ep in Hp. rewrite Ed in Hd.
    by apply (li_root _ _ _ Hl h b).
  - intros h b p bp Hbh Hd Hp Hbp Hz. right. by apply (bo_waits _ _ Hb h b p bp).
Qed.

Lemma rooted_worse st st' : sane genesis st → worse genesis st st' → failed_rooted st → failed_rooted st'.
Proof using Hnet.
  intros Hs W H h b' Hb' Hf. pose proof (view_links _ _ (ws_view _ _ _ W)) as Hlk.
  pose proof (sane_links genesis _ _ Hlk Hs) as Hs'. destruct (ws_blame _ _ _ W h b' Hb' Hf) as [(k & a & b & Hk & Hb & Hbf)|Hg].
  - rewrite (prev_n_links _ _ k Hlk) in Hk. apply (rooted_grows st st' h k a); [done|done|by apply links_extends| |done|by eapply H].
    intros x c c' Hc Hc' Hcf. split; [by eapply (ws_failed _ _ _ W)|].
    destruct (view_lookup _ _ _ _ (ws_view _ _ _ W) Hc) as (c2 & Hc2 & E). unfold cand_view in E. congruence.
  - exists 0%nat, h, b'. split_and!; [done..|right]. intros [u Hu]. apply Hg. exists u.
    eapply (valid_extends _ _ _ _ _ _ _ _ _ _ Hnet st'); [apply Hs'|apply Hs|by apply links_extends|done].
Qed.

(** What is given is what is on disk, or there is nothing to be done. *)
Lemma inv_activate n fuel get_hash pblock :
  node_inv n → (∀ block, pblock = Some block → stored_block SHA256d params bparams CheckSignetBlockSolution ReadBlock
    (get_hash block) block) → (enough_rounds (node_cm n) <= fuel)%nat →
  match ActivateBestChain address fuel get_hash pblock n with
  | (_, inr OutOfFuel) => False
  | (_, inr (Stopped f)) => f = SystemError ∧ ¬ machine_ok
  | (n', inl _) => node_inv n' ∧ settled address n'
  end.
Proof using Hnet CoinsViewOk0 Inj0.
  intros Hn Hst Hf. pose proof (ActivateBestChain_spec address get_hash pblock Hst fuel n (ni_ok _ Hn) Hf) as H.
  pose proof (ActivateBestChain_base address connect_calm fuel get_hash pblock n (link_base _ _ (ni_link _ Hn))) as Hb.
  destruct (ActivateBestChain _ _ _ _ n) as [n' [[]|[f|]]]; [|done..]. destruct H as (W & Hn' & Hs). split; [|done].
  pose proof (no_sane _ _ _ (ni_ok _ Hn)) as Hs0. split.
  - done.
  - by apply (activated_link n); [apply Hn|apply W|..].
  - by apply (rooted_worse (index n)), (ni_failed _ Hn).
  - destruct (ni_genesis _ Hn) as (b & Hbg & Hd). destruct (view_lookup _ _ _ _ (ws_view _ _ _ W) Hbg) as (b' & Hb' & E).
    exists b'. split; [done|]. unfold cand_view in E. congruence.
Qed.

(** *** Processing a block *)

Lemma check_contents_size h vtx :
  BlockSerializeSize false h vtx < 2 ^ 60 → check_contents h vtx = None → 1 <= Z.of_nat (length vtx) <= MAX_BLOCK_WEIGHT.
Proof using Type.
  intros Hsz Hc. assert (Hlen : Z.of_nat (length vtx) <= BlockSerializeSize false h vtx).
  { unfold BlockSerializeSize, SerializeBlock. rewrite !length_app, !Nat2Z.inj_add, concat_length.
    assert (Hz : zsum (λ _ : CTransaction, 1) vtx <= zsum (TxSerializeSize false) vtx).
    { apply zsum_le. intros tx _. unfold TxSerializeSize, SerializeTransaction. rewrite length_app.
      assert (length (encode uint32_codec (version tx)) = 4%nat) by reflexivity. lia. }
    unfold TxSerializeSize in Hz. assert (E : zsum (λ _ : CTransaction, 1) vtx = Z.of_nat (length vtx)); [|lia].
    clear. induction vtx as [|tx vtx IH]; [done|]. cbn [zsum foldr length]. fold (zsum (λ _ : CTransaction, 1) vtx). lia. }
  unfold check_contents in Hc. destruct (_ || _ || _) eqn:E; [done|]. apply orb_false_iff in E as [E _].
  apply orb_false_iff in E as [E1 E2]. apply Nat.eqb_neq in E1. apply Z.ltb_ge in E2. unfold WITNESS_SCALE_FACTOR in E2.
  rewrite wrap_small in E2 by (unfold fits; lia). lia.
Qed.

Abbreviation hash_of block := (GetHash SHA256d (blk_header block)).
Abbreviation check block := ((CheckBlock SHA256d params bparams CheckSignetBlockSolution (bare block) true true).2).
Abbreviation stored_ok block := (flags_ok SHA256d params bparams CheckSignetBlockSolution block).

Lemma checked_size block :
  ReadBlock (hash_of block) = Some (bare block) → check block = None → 1 <= Z.of_nat (length (blk_vtx block)) <= MAX_BLOCK_WEIGHT.
Proof using Hnet.
  intros Hr Hc. destruct (db_ok _ _ _ _ _ _ (nw_disk _ _ _ _ _ _ Hnet _ _ Hr)) as [_ _ Hsz].
  rewrite CheckBlock_bare in Hc. destruct (CheckBlockHeader _ _ _); [done|]. destruct (_ && _ && _); [done|].
  destruct (CheckMerkleRoot _ _).2; [done|]. by apply (check_contents_size (blk_header block)).
Qed.

Lemma checked_readable block :
  ReadBlock (hash_of block) = Some (bare block) → check block = None → readable (hash_of block).
Proof using Type. intros Hr Hc. exists (bare block). split; [done|]. intros reason. change (bare (bare block)) with (bare block). congruence. Qed.

Lemma flush_none_ledger st l t : chain_ledger st l t → chain_ledger st (flush_coins NONE l).1 t.
Proof using CoinsViewOk0.
  intros Hl. pose proof (flush_chain_ledger _ _ _ _ _ _ _ _ _ _ UndoWriteToDisk env cache_bytes mempool_bytes readable st NONE l t Hl) as H.
  assert (E : (FlushStateToDisk env cache_bytes mempool_bytes NONE l).2 = None) by reflexivity.
  cbn [flush_coins chain_ops Chainstate_ledger]. destruct (FlushStateToDisk _ _ _ _ _) as [l' r]. cbn [snd] in E. by subst r.
Qed.

Section block.
Context (SaveBlockToDisk : CBlockHeader → list CTransaction → Z → bool) (block : CBlock).
Context (force min_pow : bool) (now rand : Z).

Abbreviation accept n := (AcceptFullBlock SHA256d params bparams CheckSignetBlockSolution genesis opts address
  SaveBlockToDisk (node_cm n) (blk_header block) (blk_vtx block) force min_pow now rand).
Abbreviation process := (ProcessNewBlock address SHA256d params bparams CheckSignetBlockSolution genesis opts
  SaveBlockToDisk block force min_pow now rand).

(** The disk gives back what was stored. *)
Definition saved : Prop := ∀ height, SaveBlockToDisk (blk_header block) (blk_vtx block) height = true →
  ReadBlock (hash_of block) = Some (bare block).

Lemma accept_inv n :
  node_inv n → header_fits SHA256d (index n) (blk_header block) → saved →
  match accept n with
  | (cm, inl true) => check block = None → node_inv (mkNode cm (flush_coins NONE (node_ledger n)).1) ∧
      ReadBlock (hash_of block) = Some (bare block)
  | (cm, _) => node_inv (mkNode cm (node_ledger n)) ∧ (settled address n → settled address (mkNode cm (node_ledger n)))
  end.
Proof using Hnet CoinsViewOk0 Inj0.
  intros Hn Hfit Hsave. destruct (accept n) as [cm r] eqn:E. unfold AcceptFullBlock in E.
  epose proof (AcceptBlock_end address SHA256d genesis params opts _ _ _ SaveBlockToDisk (node_cm n) (blk_header block)
    (blk_vtx block) force min_pow now rand (ni_link _ Hn) (no_sane _ _ _ (ni_ok _ Hn)) (ni_genesis _ Hn) Hfit) as H.
  rewrite E in H. destruct H as (Hl & Hs & Ec & [[Hne M]|[-> (st1 & b & M & Hs1 & Hb & Hd & Hf & G)]]).
  - intros height Hc Hsv. apply checked_size; [by eapply Hsave|done].
  - destruct (inv_mild n cm Hn Hl Hs Ec M) as [H1 H2]. by destruct r as [[]|].
  - intros Hc. destruct (AcceptBlock_saved _ _ _ _ _ _ _ _ _ _ _ _ _ _ _ _ _ E) as [height Hh]. pose proof (Hsave height Hh) as Hread. split; [|done].
    eapply (inv_gains n); try done; [by apply checked_readable|]. apply flush_none_ledger, (no_ledger _ _ _ (ni_ok _ Hn)).
Qed.

(** A node that is consistent and on its best block is so again after a block was processed,
    and stops only if an assertion of acceptance or the machine fails. *)
Lemma process_inv n :
  node_inv n → settled address n → header_fits SHA256d (index n) (blk_header block) → stored_ok block → saved →
  match process n with
  | (_, inr OutOfFuel) => False
  | (_, inr (Stopped f)) => f = Abort ∧ (accept n).2 = inr Abort ∨ f = SystemError ∧ ¬ machine_ok
  | (n', inl _) => node_inv n' ∧ settled address n'
  end.
Proof using Hnet CoinsViewOk0 Inj0.
  intros Hn Hset Hfit Hfl Hsave. unfold ProcessNewBlock.
  destruct (CheckBlock_flags SHA256d params bparams CheckSignetBlockSolution block true true Hfl) as (Ec & Ebare & Hfl').
  destruct (CheckBlock _ _ _ _ block true true) as [block' [f|]]; cbn [fst snd] in *; [by split|].
  assert (E : blk_header block' = blk_header block ∧ blk_vtx block' = blk_vtx block) by (by injection Ebare).
  destruct E as [Eh Ev]. rewrite Eh, Ev. pose proof (accept_inv n Hn Hfit Hsave) as Ha.
  destruct (accept n) as [cm [[]|[]]]; cbn [snd]; [| |by destruct Ha; auto|by destruct Ha; auto|by left]; unfold activate, mthen.
  - destruct (Ha (eq_sym Ec)) as [Hn1 Hr].
    assert (Hst : ∀ b, Some block' = Some b →
      stored_block SHA256d params bparams CheckSignetBlockSolution ReadBlock (hash_of b) b).
    { intros b [= <-]. exists (bare block). by rewrite Eh. }
    pose proof (inv_activate _ (enough_rounds cm) (λ b, hash_of b) (Some block') Hn1 Hst (Nat.le_refl _)) as H.
    destruct (ActivateBestChain _ _ _ _ _) as [n' [[]|[f|]]]; auto.
  - destruct Ha as [Hn1 Hs1]. specialize (Hs1 Hset). rewrite (settled_activate address _ _ _ _ (ni_ok _ Hn1) Hs1).
    pose proof (inv_activate _ (enough_rounds cm) (λ b, hash_of b) None Hn1 ltac:(done) (Nat.le_refl _)) as H.
    destruct (ActivateBestChain _ _ _ _ _) as [n' [[]|[f|]]]; auto.
Qed.
End block.

(** *** Headers *)

Abbreviation accept_header := (AcceptBlockHeader SHA256d genesis params opts).
Abbreviation process_headers := (ProcessNewBlockHeaders SHA256d params genesis opts).

Fixpoint headers_fit (headers : list (CBlockHeader * Z)) (min_pow : bool) (cm : ChainstateManager) : Prop :=
  match headers with
  | [] => True
  | (header, now) :: headers =>
      header_fits SHA256d (m_block_index cm) header ∧
      match accept_header cm header min_pow now with
      | (cm, inl _) => headers_fit headers min_pow cm
      | _ => True
      end
  end.

Lemma headers_inv headers min_pow : ∀ last n,
  node_inv n → settled address n → headers_fit headers min_pow (node_cm n) →
  let n' := mkNode (process_headers headers min_pow last (node_cm n)).1.1 (node_ledger n) in
  node_inv n' ∧ settled address n'.
Proof using Hnet Inj0.
  induction headers as [|[header now] headers IH]; intros last n Hn Hset Hfit; cbv zeta; cbn [ProcessNewBlockHeaders headers_fit] in *.
  { by destruct n. }
  destruct Hfit as [Hfit Hrest]. destruct (ni_genesis _ Hn) as (bg & Hbg & _).
  pose proof (AcceptBlockHeader_end address SHA256d genesis params opts (node_cm n) header min_pow now (ni_link _ Hn)
    (no_sane _ _ _ (ni_ok _ Hn)) ltac:(eauto) Hfit) as H.
  destruct (accept_header (node_cm n) header min_pow now) as [cm r]. destruct H as (Hl & Hs & Hc & M & _).
  destruct (inv_mild n cm Hn Hl Hs (sc_chain _ _ Hc) M) as [Hn1 Hs1].
  destruct r as [h|f]; [|by auto]. apply (IH (Some h) (mkNode cm (node_ledger n))); auto.
Qed.

(** *** The start *)

Lemma empty_link : link_ok address empty_chainman [].
Proof using Type.
  assert (Hno : ∀ h b, m_block_index empty_chainman !! h = Some b → False) by (intros h b H; cbn in H; by rewrite lookup_empty in H).
  assert (Hnil : ∀ x, x ∈ setBlockIndexCandidates empty_chainman → False) by (intros x; apply not_elem_of_nil).
  assert (Hun : ∀ x, x ∈ m_blocks_unlinked empty_chainman → False) by (intros x; apply not_elem_of_nil).
  split; try (intros; exfalso; by eauto).
  - apply chain_ok_empty.
  - split; try (intros; exfalso; by eauto); constructor.
  - split; [by intros h ?%elem_of_nil|constructor].
  - intros x Hx. destruct (usable_here _ _ Hx) as (b & Hb & _). exfalso. eauto.
Qed.

Section start.
Context (SaveBlockToDisk : CBlockHeader → list CTransaction → Z → bool) (g : CBlockHeader) (vtx : list CTransaction).
Context (Hg : GetHash SHA256d g = genesis) (Hprev : hdr_hashPrevBlock g = 0) (Hnz : genesis ≠ 0).
Context (Hread : ReadBlock genesis = Some (new_block g vtx)) (Hcheck : check (new_block g vtx) = None).

#[local] Abbreviation cm1 := (add_header_entry empty_chainman genesis g).

Lemma start_entry : ∃ e, m_block_index cm1 = {[ genesis := e ]} ∧ pprev e = None ∧ pskip e = None ∧ nHeight e = 0 ∧
  nStatus e = 2 ∧ m_chain_tx_count e = 0.
Proof using Hprev Hnz.
  unfold add_header_entry, AddToBlockIndex. cbn [m_block_index empty_chainman]. rewrite lookup_empty.
  cbn [m_block_index]. set (e := new_entry _ g). exists e.
  pose proof (new_entry_prev ∅ genesis g (lookup_empty _) ltac:(congruence)) as H. cbv zeta in H. fold e in H.
  rewrite lookup_empty in H. destruct H as (H1 & H2 & H3 & _). by split_and!.
Qed.

Lemma start_sane : sane genesis (m_block_index cm1).
Proof using Hprev Hnz.
  destruct start_entry as (e & -> & H1 & H2 & H3 & _). split.
  - split.
    + intros h b [_ <-]%lookup_singleton_Some. lia.
    + intros h b p [_ <-]%lookup_singleton_Some. congruence.
    + by intros h b [_ <-]%lookup_singleton_Some.
    + intros h b s [_ <-]%lookup_singleton_Some. congruence.
  - by apply lookup_singleton_None.
  - by intros h b [<- _]%lookup_singleton_Some.
  - intros h b [_ <-]%lookup_singleton_Some. lia.
  - intros h b [_ <-]%lookup_singleton_Some. by rewrite H3.
  - intros h b p bp [_ <-]%lookup_singleton_Some. congruence.
Qed.

Lemma start_link :
  ∃ e, m_block_index cm1 = {[ genesis := e ]} ∧ has_data e = false ∧ IsFailed e = false ∧ has_undo e = false ∧ pprev e = None ∧
    link_ok address cm1 [].
Proof using Hprev Hnz.
  destruct start_entry as (e & Ei & H1 & H2 & H3 & H4 & H5).
  assert (Hd : has_data e = false ∧ IsFailed e = false ∧ has_undo e = false)
    by (unfold has_data, IsFailed, has_undo; by rewrite H4).
  destruct Hd as (Hd & Hf & Hu). exists e. split_and!; try done. apply (link_ok_stage address genesis empty_chainman).
  - apply empty_link.
  - rewrite Ei. apply (mild_fresh ∅ genesis e); try done. right. unfold IsValid. by rewrite Hf, H4.
  - apply start_sane.
  - unfold add_header_entry. by destruct (AddToBlockIndex _ _ _ _).
Qed.

Definition fresh_ledger (l : Chainstate V) : Prop := undo_files l = ∅ ∧ refines (CoinsTip l) (mkUTXO ∅ 0).

Lemma start_inv cm l :
  LoadGenesisBlock SHA256d params address (λ vtx, Z.of_nat (length vtx)) SaveBlockToDisk empty_chainman g vtx = (cm, true) →
  fresh_ledger l → node_inv (mkNode cm l).
Proof using Hg Hprev Hnz Hread Hcheck Hnet Inj0.
  intros E [Eu R]. destruct start_link as (e & Ei & Hd & Hf & Hun & Hp & Hl).
  assert (Hsize : 1 <= Z.of_nat (length vtx) <= MAX_BLOCK_WEIGHT)
    by (apply (checked_size (new_block g vtx)); [cbn [blk_header new_block]; by rewrite Hg|done]).
  assert (Ecm : cm = ReceivedBlockTransactions params address cm1 genesis (Z.of_nat (length vtx))).
  { unfold LoadGenesisBlock in E. rewrite Hg in E. cbn [m_block_index empty_chainman] in E. rewrite lookup_empty in E.
    destruct (SaveBlockToDisk _ _ _); [by injection E as <-|done]. }
  assert (Hb : m_block_index cm1 !! genesis = Some e) by (rewrite Ei; apply lookup_singleton_eq).
  destruct (Received_link_ok address params cm1 genesis _ e Hl Hb Hd Hsize) as [Hl' Ec].
  pose proof (Received_gains address params cm1 genesis (Z.of_nat (length vtx)) e Hb Hd) as G.
  rewrite <- Ecm in Hl', Ec, G. pose proof (gains_links _ _ _ G) as Hlk.
  pose proof (sane_links genesis _ _ Hlk start_sane) as Hs. clear Ecm E.
  assert (Hone : ∀ h b, m_block_index cm !! h = Some b → h = genesis ∧ IsFailed b = false ∧ has_undo b = false ∧ has_data b = true ∧
    pprev b = None).
  { intros h b Hbh. destruct (gains_entry _ _ _ h b G Hbh) as (b0 & Hb0 & Hlb & -> & -> & ->). rewrite Ei in Hb0.
    apply lookup_singleton_Some in Hb0 as [<- <-]. rewrite bool_decide_eq_true_2, orb_true_r by done.
    split_and!; try done. unfold links in Hlb. congruence. }
  destruct (links_extends _ _ Hlk genesis e Hb) as (b & Hbg & _). destruct (Hone _ _ Hbg) as (_ & _ & _ & Hdata & Hpn).
  assert (Hr : readable genesis).
  { rewrite <- Hg. change g with (blk_header (new_block g vtx)). apply checked_readable; [|done].
    cbn [blk_header new_block]. by rewrite Hg. }
  assert (Et : Tip (m_chain cm) = None) by (rewrite Ec; unfold add_header_entry; by destruct (AddToBlockIndex _ _ _ _)).
  assert (Hempty : m_chain cm = []) by (rewrite Ec; unfold add_header_entry; by destruct (AddToBlockIndex _ _ _ _)).
  split; cbn [node_cm node_ledger]; [|done| |by exists b].
  - apply link_node_ok; cbn [node_cm node_ledger]; rewrite ?Et; try done.
    + exists ∅. split_and!; try done.
      * intros h c Hc Hu. destruct (Hone h c Hc) as (_ & _ & ? & _). congruence.
      * intros h c Hc _. destruct (Hone h c Hc) as (-> & _). done.
    + intros _. exists ∅. by apply (valid_genesis _ _ _ _ _ _ _ _ _ _ _ b (new_block g vtx)).
  - intros h c Hc Hcf. destruct (Hone h c Hc) as (_ & ? & _). congruence.
Qed.
End start.

(** ** The running node *)

Abbreviation load_genesis save := (LoadGenesisBlock SHA256d params address (λ vtx, Z.of_nat (length vtx)) save empty_chainman).
Abbreviation process_block save := (ProcessNewBlock address SHA256d params bparams CheckSignetBlockSolution genesis opts save).
Abbreviation activate := (activate address SHA256d).

(** The node starts with the genesis block and an empty set of coins.  It is given headers
    and blocks, in any order, and looks for a better chain on its own; [now] and [rand] are
    the clock and the random numbers at each step, and [save] is what the disk does. *)
Inductive reachable : node → Prop :=
  | reach_start save g vtx cm l n :
      GetHash SHA256d g = genesis → hdr_hashPrevBlock g = 0 → genesis ≠ 0 →
      ReadBlock genesis = Some (new_block g vtx) → check (new_block g vtx) = None →
      load_genesis save g vtx = (cm, true) → fresh_ledger l →
      activate None (mkNode cm l) = (n, inl tt) → reachable n
  | reach_headers n headers min_pow last :
      reachable n → headers_fit headers min_pow (node_cm n) →
      reachable (mkNode (process_headers headers min_pow last (node_cm n)).1.1 (node_ledger n))
  | reach_block save block force min_pow now rand n n' r :
      reachable n → header_fits SHA256d (index n) (blk_header block) → stored_ok block → saved save block →
      process_block save block force min_pow now rand n = (n', inl r) → reachable n'
  | reach_activate n n' :
      reachable n → activate None n = (n', inl tt) → reachable n'.

Lemma running_inv n : reachable n → node_inv n ∧ settled address n.
Proof using Hnet CoinsViewOk0 Inj0.
  assert (Hact : ∀ n n', node_inv n → activate None n = (n', inl tt) → node_inv n' ∧ settled address n').
  { intros m m' Hm E. pose proof (inv_activate m _ (λ b, hash_of b) None Hm ltac:(done) (Nat.le_refl _)) as H.
    unfold Process.activate in E. by rewrite E in H. }
  induction 1 as [save g vtx cm l n Hg Hp Hz Hr Hc Hl Hf Ha|n headers mp last _ [IH1 IH2] Hfit
                 |save block force mp now rand n n' r _ [IH1 IH2] Hfit Hst Hsv E|n n' _ [IH1 _] E].
  - eapply Hact; [|done]. by apply (start_inv save g vtx Hg Hp Hz Hr Hc).
  - by apply headers_inv.
  - pose proof (process_inv save block force mp now rand n IH1 IH2 Hfit Hst Hsv) as H. by rewrite E in H.
  - by apply (Hact n).
Qed.

(** Only blocks that are not valid, or lack data below, are passed over. *)
Lemma valid_usable n x u :
  node_inv n → complete (index n) x → valid_chain (index n) x u → usable (index n) x.
Proof using Hnet Inj0.
  intros Hn Hc Hv. apply (complete_usable address); [apply Hn|done|]. intros (k & a & b & Ha & Hb & Hf).
  destruct (ni_failed _ Hn a b Hb Hf) as (k' & a' & b' & Ha' & Hb' & _ & Hbad).
  assert (Hxa : prev_n (index n) (k + k') x = Some a') by (by rewrite prev_n_add, Ha).
  destruct Hbad as [Hd|Hd].
  - destruct (Hc _ _ Hxa) as (c & Hcx & Hcd). congruence.
  - apply Hd. change (good (LedgerOk := chain_laws) (index n) a'). eapply good_below; [|done]. by exists u.
Qed.

Lemma reachable_tip n : reachable n → is_Some (tip n).
Proof using Hnet CoinsViewOk0 Inj0.
  intros [Hn Hs]%running_inv. destruct (tip n) as [t|] eqn:Et; [by eexists|].
  destruct (no_genesis _ _ _ (ni_ok _ Hn) Et) as [u Hu].
  destruct (Hs genesis) as (t & Ht & _); [|congruence]. apply (valid_usable n genesis u Hn); [|done].
  destruct (ni_genesis _ Hn) as (b & Hb & Hd). intros [|k] a Ha.
  - cbn in Ha. injection Ha as <-. by exists b.
  - exfalso. cbn [prev_n] in Ha. rewrite Hb in Ha. simpl in Ha.
    inversion Hu as [b' block Hb' Hp|]; [|congruence]. by simplify_eq; rewrite Hp in Ha.
Qed.

(** C5. Whatever headers and blocks the node is given, in whatever order, it is on the best
    chain it knows: its tip is a valid block with the data of all its ancestors, and no block
    that is valid and has the data of all its ancestors is above it by work, then blue work,
    then arrival.  The active chain is the path to the tip, and the coins, read through every cache,
    are exactly what the blocks on this path leave unspent.  So blocks that fail, that arrive
    before their ancestors, or that are left by a reorganisation leave no trace. *)
Theorem node_on_best_chain n :
  reachable n →
  ∃ t u, tip n = Some t ∧ chain_to (index n) (m_chain (node_cm n)) (Some t) ∧ complete (index n) t ∧
    valid_chain (index n) t u ∧ refines (CoinsTip (node_ledger n)) (mkUTXO u t) ∧
    ∀ x v, complete (index n) x → valid_chain (index n) x v → less (index n) t x = false.
Proof using Hnet CoinsViewOk0 Inj0.
  intros Hr. destruct (running_inv n Hr) as [Hn Hs]. destruct (reachable_tip n Hr) as [t Ht].
  destruct (no_ledger _ _ _ (ni_ok _ Hn)) as (u & Hu & R & _). rewrite Ht in Hu, R. exists t, u.
  split_and!; [done|rewrite <- Ht; apply (ni_ok _ Hn)| |done|done|].
  - intros k a Ha. destruct (no_tip _ _ _ (ni_ok _ Hn) t Ht) as [Hus _].
    destruct (Hus k a Ha) as (b & Hb & Hd & _). by exists b.
  - intros x v Hc Hv. destruct (Hs x (valid_usable n x v Hn Hc Hv)) as (t' & Ht' & Hl). congruence.
Qed.

(** C13. However the node got to its chain, the unspent outputs it holds are worth no more than
    the subsidies can add up to, twice the halving interval times the first subsidy; with the
    halving interval of the test network this is below [MAX_MONEY]. *)
Theorem node_supply_bounded n :
  reachable n → 0 < nSubsidyHalvingInterval params →
  let supply := total (cache_coins (CoinsTip (node_ledger n))) in
  0 <= supply <= 2 * (initial_subsidy params * nSubsidyHalvingInterval params) ∧
  (nSubsidyHalvingInterval params = nSubsidyHalvingInterval CQbtcTestNetParams → fDagMode params = true → supply < MAX_MONEY).
Proof using Hnet CoinsViewOk0 Inj0.
  intros Hr Hi. destruct (running_inv n Hr) as [Hn _]. destruct (reachable_tip n Hr) as [t Ht].
  destruct (no_ledger _ _ _ (ni_ok _ Hn)) as (u & Hu & R & _). rewrite Ht in Hu, R. cbn in Hu, R.
  pose proof (no_sane _ _ _ (ni_ok _ Hn)) as Hs. destruct (no_tip _ _ _ (ni_ok _ Hn) t Ht) as [(b & Hb & _)%usable_here _].
  destruct (valid_supply _ _ _ _ _ _ _ _ _ _ Hnet _ _ _ b Hs Hu Hb Hi) as [Hv Hsum].
  pose proof (remaining_nonneg params (nHeight b + 1) Hi) as Hrem. cbv zeta. rewrite (rf_coins _ _ _ R). cbn [utxo].
  pose proof (total_nonneg u Hv) as H0. unfold remaining at 2 in Hsum.
  rewrite Zmod_0_l, Zdiv_0_l, Z.shiftr_0_r in Hsum. split; [lia|]. intros Hint Hdag. unfold initial_subsidy in Hsum.
  rewrite Hdag, Hint in Hsum. cbn in Hsum. unfold DAG_INITIAL_BLOCK_REWARD in Hsum. unfold MAX_MONEY, COIN. lia.
Qed.

(** *** No assertion of acceptance fails *)

Section asserted.
Context (Hdag : dag_mode params opts = true) (Hparams : retarget_params params).

Lemma headers_guarded headers min_pow : ∀ last n,
  node_inv n → settled address n → headers_fit headers min_pow (node_cm n) → guarded (node_cm n) →
  let r := process_headers headers min_pow last (node_cm n) in guarded r.1.1 ∧ r.2 ≠ Some Abort.
Proof using Hnet Inj0 Hdag Hparams.
  induction headers as [|[header now] headers IH]; intros last n Hn Hset Hfit Hg; cbv zeta;
    cbn [ProcessNewBlockHeaders headers_fit] in *; [done|].
  destruct Hfit as [Hfit Hrest]. destruct (ni_genesis _ Hn) as (bg & Hbg & _). pose proof (ni_link _ Hn) as Hl0.
  pose proof (AcceptBlockHeader_end address SHA256d genesis params opts (node_cm n) header min_pow now Hl0
    (no_sane _ _ _ (ni_ok _ Hn)) ltac:(eauto) Hfit) as H.
  destruct (AcceptBlockHeader_guarded SHA256d genesis params opts Hdag Hparams (node_cm n) header min_pow now
    (li_chain _ _ _ Hl0) (li_height _ _ _ Hl0) Hg) as [Hg1 Ha1].
  destruct (accept_header (node_cm n) header min_pow now) as [cm r]. destruct H as (Hl & Hs & Hc & M & _). cbn [fst snd] in *.
  destruct (inv_mild n cm Hn Hl Hs (sc_chain _ _ Hc) M) as [Hn1 Hs1].
  destruct r as [h|f]; [|split; [done|cbn [snd]; congruence]]. apply (IH (Some h) (mkNode cm (node_ledger n))); auto.
Qed.

Lemma process_guarded save block force min_pow now rand n :
  node_inv n → header_fits SHA256d (index n) (blk_header block) → stored_ok block → guarded (node_cm n) →
  guarded (node_cm (process_block save block force min_pow now rand n).1) ∧
  (AcceptFullBlock SHA256d params bparams CheckSignetBlockSolution genesis opts address save (node_cm n)
    (blk_header block) (blk_vtx block) force min_pow now rand).2 ≠ inr Abort.
Proof using Hnet Hdag Hparams.
  intros Hn Hfit Hfl Hg.
  destruct (AcceptFullBlock_guarded SHA256d genesis params opts Hdag Hparams address bparams CheckSignetBlockSolution save
    (node_cm n) (blk_header block) (blk_vtx block) force min_pow now rand (ni_link _ Hn) (no_sane _ _ _ (ni_ok _ Hn))
    (ni_genesis _ Hn) Hfit Hg) as [Hg1 Ha]. split; [|done]. unfold ProcessNewBlock.
  destruct (CheckBlock_flags SHA256d params bparams CheckSignetBlockSolution block true true Hfl) as (_ & Ebare & _).
  destruct (CheckBlock _ _ _ _ block true true) as [block' [f|]]; cbn [fst snd] in *; [done|].
  assert (E : blk_header block' = blk_header block ∧ blk_vtx block' = blk_vtx block) by (by injection Ebare).
  destruct E as [-> ->]. destruct (AcceptFullBlock _ _ _ _ _ _ _ _ _ _ _ _ _ _ _) as [cm [new|[]]]; try done. cbn [fst] in Hg1.
  unfold mthen. set (l := if new then _ else _).
  pose proof (ActivateBestChain_guarded address connect_steady (enough_rounds cm) (λ b, hash_of b) (Some block') (mkNode cm l) Hg1) as H.
  unfold Process.activate. cbn [node_cm]. destruct (ActivateBestChain _ _ _ _ _) as [n' [[]|]]; done.
Qed.

Lemma reachable_guarded n : reachable n → guarded (node_cm n).
Proof using Hnet CoinsViewOk0 Inj0 Hdag Hparams.
  assert (Hact : ∀ n n', guarded (node_cm n) → activate None n = (n', inl tt) → guarded (node_cm n')).
  { intros m m' Hm E. pose proof (ActivateBestChain_guarded address connect_steady (enough_rounds (node_cm m)) (λ b, hash_of b) None m Hm) as H.
    unfold Process.activate in E. by rewrite E in H. }
  induction 1 as [save g vtx cm l n Hg Hp Hz Hr Hc Hl Hf Ha|n headers mp last Hr IH Hfit
                 |save block force mp now rand n n' r Hr IH Hfit Hst Hsv E|n n' _ IH E].
  - apply (Hact (mkNode cm l)); [|done]. cbn [node_cm]. unfold LoadGenesisBlock in Hl. rewrite Hg in Hl.
    cbn [m_block_index empty_chainman] in Hl. rewrite lookup_empty in Hl. destruct (save _ _ _); [|done]. injection Hl as <-.
    destruct (start_entry g Hp Hz) as (e & Ei & _ & _ & _ & Es & _).
    apply (Received_guarded params address _ _ _ e); [|rewrite Ei; apply lookup_singleton_eq|unfold IsFailed; by rewrite Es].
    apply add_header_entry_guarded.
    split; [intros h b p Hb|by intros h ?%elem_of_nil|intros h b Hb]; cbn in Hb; by rewrite lookup_empty in Hb.
  - destruct (running_inv n Hr) as [Hn Hs]. by apply (headers_guarded headers mp last n).
  - destruct (running_inv n Hr) as [Hn Hs].
    destruct (process_guarded save block force mp now rand n Hn Hfit Hst IH) as [H _]. by rewrite E in H.
  - by apply (Hact n).
Qed.

(** C6. No block from the network can stop a node in DAG mode: [ProcessNewBlock] comes to an
    end on a running node, no assertion of acceptance or activation fails, and the node is
    stopped only if the machine fails; whatever the block contains, a running node, on its
    best chain, is left.  Processing headers leaves one as well and fails no assertion. *)
Theorem block_processed save block force min_pow now rand headers last n :
  reachable n → header_fits SHA256d (index n) (blk_header block) → stored_ok block → saved save block →
  headers_fit headers min_pow (node_cm n) →
  match process_block save block force min_pow now rand n with
  | (_, inr OutOfFuel) => False
  | (_, inr (Stopped f)) => f = SystemError ∧ ¬ machine_ok
  | (n', inl _) => reachable n'
  end ∧
  (process_headers headers min_pow last (node_cm n)).2 ≠ Some Abort.
Proof using Hnet CoinsViewOk0 Inj0 Hdag Hparams.
  intros Hr Hfit Hst Hsv Hh. destruct (running_inv n Hr) as [Hn Hs]. pose proof (reachable_guarded n Hr) as Hg. split.
  - pose proof (process_inv save block force min_pow now rand n Hn Hs Hfit Hst Hsv) as H.
    destruct (process_guarded save block force min_pow now rand n Hn Hfit Hst Hg) as [_ Ha].
    destruct (process_block save block force min_pow now rand n) as [n' [r|[f|]]] eqn:E; [by eapply reach_block| |done].
    by destruct H as [[_ H]|H].
  - by apply headers_guarded.
Qed.
End asserted.
End node.
