(* ===== verification/ProcessExample.v ===== *)
(** * A node at work

    A concrete run of the node of ProcessProps.v: blocks on a branch that turns out not to be
    valid, data that arrives before that of the parent, and a reorganisation.  It shows that
    the hypotheses of the theorems on the best chain hold together. *)

From Stdlib Require Import String.
From stdpp Require Import gmap.
From S2P Require Import Prelude OrdSet TipSet Arith256 Serialize BlockHeader Ghostdag BlockIndex Pow Subsidy.
From S2P Require Import EarlyProtection Transaction Script Merkle Chainman Accept BlockCheck BlockCheckProps Coins CoinsDB.
From S2P Require Import Connect ConnectSim ConnectProps Replay ConnectTotal Candidates AcceptProps.
From S2P Require Import Activation ActivationProps Linking Guards Chainstate ChainstateProps Process ProcessProps.

Local Open Scope Z_scope.

(** ** Blocks *)

Definition run_coinbase (height value : Z) : CTransaction :=
  mkTransaction [mkTxIn (mkOutPoint 0 NULL_INDEX) [0x50 + height; 1; 2] SEQUENCE_FINAL []]
    [mkTxOut value [0x51; OP_CHECKSIG]] 2 0.

Definition run_block (prev height time nonce value : Z) : CBlock :=
  let vtx := [run_coinbase height value] in
  new_block (mkHeader 0x30000000 prev (BlockMerkleRoot small_hash vtx).1 time 0x1e0fffff nonce 0 []) vtx.

Abbreviation run_hash block := (GetHash small_hash (blk_header block)).

Definition run_genesis : CBlock := run_block 0 0 1743379200 748526 1.
Definition block_a1 : CBlock := Eval vm_compute in run_block (run_hash run_genesis) 1 1743379210 1 50000000.

(** Its coinbase takes more than the subsidy. *)
Definition block_b1 : CBlock := Eval vm_compute in run_block (run_hash run_genesis) 1 1743379210 2 90000000.
Definition block_b2 : CBlock := Eval vm_compute in run_block (run_hash block_b1) 2 1743379220 3 50000000.
Definition block_c1 : CBlock := Eval vm_compute in run_block (run_hash run_genesis) 1 1743379210 4 60000000.
Definition block_c2 : CBlock := Eval vm_compute in run_block (run_hash block_c1) 2 1743379220 5 50000000.

Definition run_blocks : list CBlock := [run_genesis; block_a1; block_b1; block_b2; block_c1; block_c2].

Definition run_read (h : Z) : option CBlock := snd <$> list_find (λ b, run_hash b = h) run_blocks.

Definition run_cparams : ConnectParams := mkConnectParams (run_hash run_genesis) 0 1000 ∅ 0.

(** ** Runs *)

#[local] Instance run_view : CCoinsView CCoinsViewDB := DB_view (λ _, false).
#[local] Instance run_view_ok : CoinsViewOk CCoinsViewDB := DB_view_ok (λ _, false).

Definition run_env (_ : nat) : FlushEnv CCoinsViewDB := mkFlushEnv 1743400000 (λ _, 0) 0 true true true true.

#[local] Instance run_ops : Ledger (Chainstate CCoinsViewDB) := Chainstate_ledger run_env 1000000 1000000 small_hash
  CQbtcTestNetParams example_bparams run_cparams example_options (λ _ _, true) (λ _ _ _ _, None) (λ _, true) false
  (λ _ _, true) run_read.

Abbreviation run_node := (Node (Chainstate CCoinsViewDB)).
Abbreviation run_genesis_hash := (hashGenesisBlock run_cparams).

Definition run_ledger : Chainstate CCoinsViewDB := mkChainstate ∅ (NewCache (mkDB ∅ None None)) 0 0 0.

Definition run_chainman : ChainstateManager * bool :=
  LoadGenesisBlock small_hash CQbtcTestNetParams id (λ vtx, Z.of_nat (length vtx)) (λ _ _ _, true) empty_chainman
    (blk_header run_genesis) (blk_vtx run_genesis).

Definition run_start : run_node := mkNode run_chainman.1 run_ledger.

Abbreviation run_process block := (ProcessNewBlock id small_hash CQbtcTestNetParams example_bparams (λ _ _, true)
  run_genesis_hash example_options (λ _ _ _, true) block true true 1743400000 0).
Abbreviation run_headers := (ProcessNewBlockHeaders small_hash CQbtcTestNetParams run_genesis_hash example_options).
Abbreviation run_activate := (Process.activate id small_hash None).

(** ** Reachable states *)

Abbreviation run_check block := ((CheckBlock small_hash CQbtcTestNetParams example_bparams (λ _ _, true) block true true).2).

Lemma run_read_block h block : run_read h = Some block → run_hash block = h ∧ block ∈ run_blocks.
Proof.
  unfold run_read. intros ([i b] & Hb & E)%fmap_Some. cbn in E. subst b.
  apply list_find_Some in Hb as (Hb & Hh & _). split; [done|]. by eapply list_elem_of_lookup_2.
Qed.

Lemma run_blocks_read : Forall (λ b, run_read (run_hash b) = Some b ∧ bare b = b) run_blocks.
Proof. repeat (apply Forall_cons; split; [split; vm_compute; reflexivity|]). by apply Forall_nil. Qed.

Lemma run_blocks_ok : Forall (block_ok small_hash CQbtcTestNetParams example_bparams (λ _ _, true)) run_blocks.
Proof.
  assert (H : Forall (λ b, bare b = b ∧ Forall tx_ok (blk_vtx b) ∧
    BlockSerializeSize false (blk_header b) (blk_vtx b) < 2 ^ 60) run_blocks).
  { repeat (apply Forall_cons; split; [split_and!; [reflexivity|vm_compute; repeat (constructor || done || (intros [=]))|
      vm_compute; reflexivity]|]). apply Forall_nil. done. }
  eapply Forall_impl; [exact H|]. intros b (Hb & Ht & Hs). split; [|done..]. rewrite <- Hb. apply flags_ok_bare.
Qed.

Lemma run_network :
  network_ok small_hash CQbtcTestNetParams example_bparams run_cparams (λ _ _, true) run_read.
Proof.
  split; [done..|]. intros h block [Hh Hb]%run_read_block. split; [done| |].
  - pose proof run_blocks_ok as H. rewrite Forall_forall in H. by apply H.
  - assert (H : Forall (λ b, length (blk_vtx b) = 1%nat) run_blocks) by (repeat constructor).
    rewrite Forall_forall in H. specialize (H _ Hb). intros tx tx'.
    destruct (blk_vtx block) as [|t [|]]; [done| |done]. by intros ->%list_elem_of_singleton ->%list_elem_of_singleton.
Qed.

Abbreviation run_reachable := (reachable small_hash CQbtcTestNetParams example_bparams run_cparams example_options
  (λ _ _, true) (λ _ _ _ _, None) (λ _, true) false run_read (λ _ _, true) run_env 1000000 1000000 id).

(** What is asked of a header can be computed. *)
Definition fitsb (st : BlockMap) (block : CBlockHeader) : bool :=
  (0 <=? hdr_nBits block) && (hdr_nBits block <? 2 ^ 32) && negb (GetHash small_hash block =? 0) &&
  match st !! hdr_hashPrevBlock block with
  | Some b =>
      (nHeight b + 1 <? 2 ^ 31) && negb (IsBIP30Repeat (nHeight b + 1) (GetHash small_hash block)) &&
      (0 <=? nChainWork b) && (nChainWork b + GetBlockProof (hdr_nBits block) <? 2 ^ 256)
  | None => true
  end.

Lemma fitsb_ok st block : fitsb st block = true → header_fits small_hash st block.
Proof.
  unfold fitsb. rewrite !andb_true_iff. intros (((H1 & H2) & H3) & H4). split.
  - split; lia.
  - intros E. by rewrite E in H3.
  - intros b Hb. rewrite Hb in H4. rewrite !andb_true_iff in H4. destruct H4 as (((H5 & H6) & H7) & H8).
    split_and!; [lia|by apply negb_true_iff in H6|lia|lia].
Qed.

(** The arrival of a block, and of the header of a block before it. *)
Inductive arrival :=
  | Body (block : CBlock)
  | Header (block : CBlock).

Definition run_arrival (n : run_node) (a : arrival) : option run_node :=
  match a with
  | Body block =>
      if fitsb (m_block_index (node_cm n)) (blk_header block)
      then match run_process block n with (n', inl _) => Some n' | _ => None end else None
  | Header block =>
      if fitsb (m_block_index (node_cm n)) (blk_header block)
      then Some (mkNode (run_headers [(blk_header block, 1743400000)] true None (node_cm n)).1.1 (node_ledger n))
      else None
  end.

Fixpoint run_arrivals (n : run_node) (l : list arrival) : option run_node :=
  match l with
  | [] => Some n
  | a :: l => n' ← run_arrival n a; run_arrivals n' l
  end.

(** Hashes are compared, never computed, in the proofs. *)
#[local] Opaque GetHash ProcessNewBlock AcceptBlockHeader.

Definition arrived (a : arrival) : CBlock := match a with Body block | Header block => block end.

Lemma run_block_reachable block n n' r :
  block ∈ run_blocks → fitsb (m_block_index (node_cm n)) (blk_header block) = true → run_reachable n →
  run_process block n = (n', inl r) → run_reachable n'.
Proof.
  intros Hb Hf Hr E. pose proof run_blocks_read as H. rewrite Forall_forall in H. destruct (H _ Hb) as [Hread Hbare].
  refine (reach_block _ _ _ _ _ _ _ _ _ _ _ _ _ _ _ (λ _ _ _, true) block true true 1743400000 0 n n' r Hr (fitsb_ok _ _ Hf) _ _ E).
  - rewrite <- Hbare. apply flags_ok_bare.
  - intros height _. rewrite Hbare. exact Hread.
Qed.

Lemma run_header_fits block (n : run_node) :
  fitsb (m_block_index (node_cm n)) (blk_header block) = true →
  headers_fit small_hash CQbtcTestNetParams run_cparams example_options [(blk_header block, 1743400000)] true (node_cm n).
Proof.
  intros Hf. split; [exact (fitsb_ok _ _ Hf)|]. destruct (AcceptBlockHeader _ _ _ _ _ _ _ _) as [? []]; exact I.
Qed.

Lemma run_header_reachable block n :
  fitsb (m_block_index (node_cm n)) (blk_header block) = true → run_reachable n →
  run_reachable (mkNode (run_headers [(blk_header block, 1743400000)] true None (node_cm n)).1.1 (node_ledger n)).
Proof.
  intros Hf Hr. exact (reach_headers _ _ _ _ _ _ _ _ _ _ _ _ _ _ _ n _ true None Hr (run_header_fits block n Hf)).
Qed.

Lemma run_arrivals_reachable l : Forall (λ a, arrived a ∈ run_blocks) l →
  ∀ n n', run_reachable n → run_arrivals n l = Some n' → run_reachable n'.
Proof.
  induction 1 as [|a l Hb _ IH]; intros n n' Hr E; cbn [run_arrivals] in E.
  - apply (inj Some) in E. rewrite <- E. exact Hr.
  - apply bind_Some in E as (m & Em & E). refine (IH m n' _ E). clear IH E.
    destruct a as [block|block]; cbn [run_arrival] in Em; destruct (fitsb _ _) eqn:Hf; try discriminate Em.
    + destruct (run_process block n) as [m' [r|]] eqn:Ep; [|discriminate Em]. apply (inj Some) in Em. rewrite <- Em.
      exact (run_block_reachable block n m' r Hb Hf Hr Ep).
    + apply (inj Some) in Em. rewrite <- Em. exact (run_header_reachable block n Hf Hr).
Qed.

(** ** The run *)

Lemma run_loaded : run_chainman = (run_chainman.1, true).
Proof. vm_compute. reflexivity. Qed.

Lemma run_fresh : fresh_ledger run_ledger.
Proof.
  split; [reflexivity|]. apply (fresh_cache_refines (λ _, false) (mkDB ∅ None None)); [|reflexivity].
  intros o c Hc. cbn [db_coins] in Hc. by rewrite lookup_empty in Hc.
Qed.

Lemma run_genesis_checked : GetHash small_hash (blk_header run_genesis) ≠ 0 ∧ run_check (bare run_genesis) = None.
Proof. split; vm_compute; [discriminate|reflexivity]. Qed.

Lemma run_genesis_read : run_read run_genesis_hash = Some (new_block (blk_header run_genesis) (blk_vtx run_genesis)).
Proof. vm_compute. reflexivity. Qed.

Definition finished {A} (r : run_node * (A + Halt)) : option run_node :=
  match r with (n, inl _) => Some n | _ => None end.

Definition run_running : option run_node := finished (run_activate run_start).

Lemma run_running_reachable n : run_running = Some n → run_reachable n.
Proof.
  unfold run_running, finished. destruct (run_activate run_start) as [m [[]|]] eqn:E; intros Em; [|discriminate Em].
  apply (inj Some) in Em. rewrite <- Em. destruct run_genesis_checked as [H1 H2].
  refine (reach_start _ _ _ _ _ _ _ _ _ _ _ _ _ _ _ (λ _ _ _, true) (blk_header run_genesis) (blk_vtx run_genesis)
    run_chainman.1 run_ledger m _ _ _ _ _ _ _ _).
  - reflexivity.
  - reflexivity.
  - exact H1.
  - exact run_genesis_read.
  - exact H2.
  - exact run_loaded.
  - exact run_fresh.
  - exact E.
Qed.

(** The headers of the branch that is not valid come first, then its second block, and then
    the first one. *)
Definition run_before : list arrival := [Body block_a1; Header block_b1; Header block_b2; Body block_b2].
Definition run_after : list arrival := [Body block_b1; Body block_c1; Body block_c2].

Definition run_state (l : list arrival) : option run_node := run_running ≫= λ n, run_arrivals n l.

Lemma run_state_reachable l n : Forall (λ a, arrived a ∈ run_blocks) l → run_state l = Some n → run_reachable n.
Proof.
  intros Hl E. unfold run_state in E. destruct run_running as [m|] eqn:Hm; [|discriminate E].
  exact (run_arrivals_reachable l Hl m n (run_running_reachable m Hm) E).
Qed.

Lemma run_arrived : Forall (λ a, arrived a ∈ run_blocks) (run_before ++ run_after).
Proof. repeat (apply Forall_cons; split; [cbn [arrived]; unfold run_blocks; repeat constructor|]). by apply Forall_nil. Qed.

(** The node passes over the branch that is not valid, and leaves its own for a better one. *)
Lemma run_tips :
  (λ n : run_node, (Tip (m_chain (node_cm n)), IsFailed <$> (m_block_index (node_cm n) !! run_hash block_b2))) <$>
    run_state run_before = Some (Some (run_hash block_a1), Some false) ∧
  (λ n : run_node, (Tip (m_chain (node_cm n)), IsFailed <$> (m_block_index (node_cm n) !! run_hash block_b2))) <$>
    run_state (run_before ++ [Body block_b1]) = Some (Some (run_hash block_a1), Some true) ∧
  (λ n : run_node, Tip (m_chain (node_cm n))) <$> run_state (run_before ++ run_after) = Some (Some (run_hash block_c2)).
Proof. vm_compute. done. Qed.

Lemma node_on_best_chain_witness :
  ∃ n u, run_reachable n ∧ Tip (m_chain (node_cm n)) = Some (run_hash block_c2) ∧
    refines_for (λ h, h ≠ 0) (CoinsTip (node_ledger n)) (mkUTXO u (run_hash block_c2)).
Proof.
  destruct run_tips as (_ & _ & E). apply fmap_Some in E as (n & En & Ht). symmetry in Ht.
  pose proof (run_state_reachable _ _ run_arrived En) as Hr. clear En.
  destruct (node_on_best_chain small_hash CQbtcTestNetParams example_bparams run_cparams example_options
    (λ _ _, true) (λ _ _ _ _, None) (λ _, true) false run_read (λ _ _, true) run_env 1000000 1000000 id
    run_network n Hr) as (t & u & Et & _ & _ & _ & R & _).
  rewrite Ht in Et. apply (inj Some) in Et. rewrite <- Et in R.
  exists n, u. exact (conj Hr (conj Ht R)).
Defined.

Lemma node_supply_bounded_witness :
  ∃ n, run_reachable n ∧ Tip (m_chain (node_cm n)) = Some (run_hash block_c2) ∧
    0 <= total (cache_coins (CoinsTip (node_ledger n))) < MAX_MONEY.
Proof.
  destruct run_tips as (_ & _ & E). apply fmap_Some in E as (n & En & Ht). symmetry in Ht.
  pose proof (run_state_reachable _ _ run_arrived En) as Hr. clear En.
  destruct (node_supply_bounded small_hash CQbtcTestNetParams example_bparams run_cparams example_options
    (λ _ _, true) (λ _ _ _ _, None) (λ _, true) false run_read (λ _ _, true) run_env 1000000 1000000 id
    run_network n Hr eq_refl) as [[H _] Hmax].
  exists n. exact (conj Hr (conj Ht (conj H (Hmax eq_refl eq_refl)))).
Defined.

(** The first block of the branch that is not valid, as it arrives. *)
Lemma run_b1_fits :
  (λ n : run_node, (fitsb (m_block_index (node_cm n)) (blk_header block_b1), match (run_process block_b1 n).2 with inl r => r | _ => false end))
    <$> run_state run_before = Some (true, true).
Proof. vm_compute. reflexivity. Qed.

Lemma block_processed_witness :
  ∃ n n', run_process block_b1 n = (n', inl true) ∧ run_reachable n' ∧
    (run_headers [(blk_header block_b1, 1743400000)] true None (node_cm n)).2 ≠ Some Abort.
Proof.
  pose proof run_b1_fits as E. apply fmap_Some in E as (n & En & E). symmetry in E. apply pair_equal_spec in E as [Ef Ep].
  assert (Hl : Forall (λ a, arrived a ∈ run_blocks) run_before) by exact (proj1 (proj1 (Forall_app _ _ _) run_arrived)).
  pose proof (run_state_reachable _ _ Hl En) as Hr. clear En.
  assert (Hb : run_read (run_hash block_b1) = Some (bare block_b1)) by (vm_compute; reflexivity).
  pose proof (block_processed small_hash CQbtcTestNetParams example_bparams run_cparams example_options
    (λ _ _, true) (λ _ _ _ _, None) (λ _, true) false run_read (λ _ _, true) run_env 1000000 1000000 id
    run_network eq_refl testnet_retarget (λ _ _ _, true) block_b1 true true 1743400000 0 [(blk_header block_b1, 1743400000)]
    None n Hr (fitsb_ok _ _ Ef) (flags_ok_bare _ _ _ _ block_b1) (λ _ _, Hb) (run_header_fits block_b1 n Ef)) as [H Hh].
  exists n. destruct (run_process block_b1 n) as [n' [r|f]]; [|discriminate Ep].
  exists n'. cbn [snd] in Ep. rewrite Ep. split; [reflexivity|]. exact (conj H Hh).
Defined.

Lemma run_start_inv :
  node_inv small_hash CQbtcTestNetParams example_bparams run_cparams example_options
    (λ _ _, true) (λ _ _ _ _, None) (λ _, true) false run_read (λ _ _, true) run_env 1000000 1000000 id run_network run_start.
Proof.
  destruct run_genesis_checked as [H1 H2].
  refine (start_inv _ _ _ _ _ _ _ _ _ _ _ _ _ _ _ run_network (λ _ _ _, true) (blk_header run_genesis) (blk_vtx run_genesis)
    _ _ _ _ _ run_chainman.1 run_ledger _ _).
  - reflexivity.
  - reflexivity.
  - exact H1.
  - exact run_genesis_read.
  - exact H2.
  - exact run_loaded.
  - exact run_fresh.
Qed.

(** The start of the node, without and with the genesis block as its tip. *)
Lemma run_start_facts :
  bool_decide (size (m_block_index (node_cm run_start)) = 1%nat) = true ∧
  (let r := ActivateBestChain id 6 (λ b, run_hash b) None run_start in
   (Tip (m_chain (node_cm r.1)), r.2)) = (Some run_genesis_hash, inl tt).
Proof. vm_compute. done. Qed.

Lemma best_chain_activated_witness :
  ∃ n, ActivateBestChain id 6 (λ b, run_hash b) None run_start = (n, inl tt) ∧
    usable (m_block_index (node_cm run_start)) run_genesis_hash ∧
    ∃ u, refines_for (λ h, h ≠ 0) (CoinsTip (node_ledger n)) (mkUTXO u run_genesis_hash).
Proof.
  destruct run_start_facts as [Hs E]. cbv zeta in E. apply pair_equal_spec in E as [Et Er]. apply bool_decide_eq_true in Hs.
  pose proof (best_chain_activated small_hash CQbtcTestNetParams example_bparams run_cparams example_options
    (λ _ _, true) (λ _ _ _ _, None) (λ _, true) false run_read run_network (λ _ _, true) run_env 1000000 1000000
    (readable small_hash CQbtcTestNetParams example_bparams (λ _ _, true) run_read) id 6 (λ b, run_hash b) None run_start
    (ni_ok _ _ _ _ _ _ _ _ _ _ _ _ _ _ _ _ _ run_start_inv)) as H.
  destruct (ActivateBestChain id 6 _ None run_start) as [n [[]|f]]; [|discriminate Er]. exists n. split; [reflexivity|].
  destruct H as (_ & _ & H); [discriminate|rewrite Hs; exact (Nat.le_refl 6)|].
  destruct (H _ Et) as (Hu & u & _ & R). exact (conj Hu (ex_intro _ u R)).
Defined.
