(* ===== verification/Operator.v ===== *)
(** * The operator's commands on the chain, of src/src/validation.cpp

    [Chainstate::InvalidateBlock], [ResetBlockFailureFlags] and [PreciousBlock], behind the
    remote calls invalidateblock, reconsiderblock and preciousblock.  They change the flags and
    the order of blocks by hand, disconnect blocks, and leave it to [ActivateBestChain]
    (Activation.v) to find the best chain of what is left.

    Of one chainstate without a snapshot.  The mempool, notifications, locks and the request to
    shut down are left out; the order in which a hash map is gone through is that of
    [map_to_list]. *)

From stdpp Require Import gmap.
From S2P Require Import Prelude OrdSet TipSet Arith256 Serialize BlockHeader Ghostdag.
From S2P Require Import BlockIndex BlockIndexProvider EarlyProtection Chainman Accept BlockCheck Connect Activation.

Local Open Scope Z_scope.
Local Open Scope coins_scope.

(** [IsValid(BLOCK_VALID_TRANSACTIONS)] and [HaveNumChainTxs]. *)
Definition can_be_candidate (b : CBlockIndex) : bool :=
  IsValid b BLOCK_VALID_TRANSACTIONS && negb (m_chain_tx_count b =? 0).

Section operator.
Context {L : Type} `{!Ledger L} (address : Z → Z).
Implicit Types (n : Node L) (cm : ChainstateManager) (st : BlockMap).

Definition insert_all st (hs : list Z) (cands : list Z) : list Z :=
  foldl (λ cands h, set_emplace (work_less address st) h cands) cands hs.

(** ** [InvalidateBlock] *)

(** The multimap of blocks off the active chain that may become candidates. *)
Definition candidate_blocks_by_work cm (prev : Z) : list Z :=
  (filter (λ e : Z * CBlockIndex,
     negb (Contains (m_block_index cm) (m_chain cm) e.1) &&
     negb (work_less address (m_block_index cm) e.1 prev) && can_be_candidate e.2)
   (map_to_list (m_block_index cm))).*1.

(** The block that has just been disconnected is marked; the blocks of the multimap that are
    not below its parent are moved to the candidates. *)
Definition mark_disconnected cm (invalid_walk_tip pprev to_mark_failed : Z) (pending : list Z)
    : ChainstateManager * list Z :=
  let mark st h s := match st !! h with Some b => <[h := set_nStatus (s (nStatus b)) b]> st | None => st end in
  let st := mark (m_block_index cm) invalid_walk_tip (λ s, Z.lor s BLOCK_FAILED_VALID) in
  let cands := set_erase (work_less address st) invalid_walk_tip (setBlockIndexCandidates cm) in
  let cands := set_emplace (work_less address st) pprev cands in
  let st :=
    if (pprev =? to_mark_failed) &&
       negb (Z.land (nStatus (entry_at st to_mark_failed)) BLOCK_FAILED_VALID =? 0)
    then mark st to_mark_failed (λ s, Z.lor (Z.lxor s BLOCK_FAILED_VALID) BLOCK_FAILED_CHILD)
    else st in
  let moves h := (nChainWork (entry_at st pprev) <=? nChainWork (entry_at st h)) &&
                 negb (work_less address st h pprev) in
  (with_cands (with_index cm st) (insert_all st (filter moves pending) cands), filter (λ h, negb (moves h)) pending).

(** [None]: a block could not be disconnected. *)
Fixpoint invalidate_loop (fuel : nat) (pindex to_mark_failed : Z) (pindex_was_in_chain : bool) (pending : list Z)
    : M (Node L) Failure (option (Z * bool)) := λ n,
  let cm := node_cm n in
  if negb (Contains (m_block_index cm) (m_chain cm) pindex)
  then (n, inl (Some (to_mark_failed, pindex_was_in_chain)))
  else
    match fuel, Tip (m_chain cm) with
    | S fuel', Some invalid_walk_tip =>
        match DisconnectTip n with
        | (n, inr Abort) => (n, inr Abort)
        | (n, inr _) => (n, inl None)
        | (n, inl _) =>
            let cm := node_cm n in
            match m_block_index cm !! invalid_walk_tip ≫= pprev with
            | None => (n, inr Abort)
            | Some prev =>
                if negb (bool_decide (Tip (m_chain cm) = Some prev)) then (n, inr Abort)
                else
                  let '(cm, pending) := mark_disconnected cm invalid_walk_tip prev to_mark_failed pending in
                  invalidate_loop fuel' pindex invalid_walk_tip true pending (mkNode cm (node_ledger n))
            end
        end
    | _, _ => (n, inr Abort)
    end.

(** What is done once the block is off the chain. *)
Definition mark_invalid cm (to_mark_failed : Z) : option ChainstateManager :=
  b ← m_block_index cm !! to_mark_failed;
  tip ← Tip (m_chain cm);
  let st := <[to_mark_failed := set_nStatus (Z.lor (nStatus b) BLOCK_FAILED_VALID) b]> (m_block_index cm) in
  let failed := if bool_decide (to_mark_failed ∈ m_failed_blocks cm) then m_failed_blocks cm
                else to_mark_failed :: m_failed_blocks cm in
  let cands := set_erase (work_less address st) to_mark_failed (setBlockIndexCandidates cm) in
  let missing := (filter (λ e : Z * CBlockIndex, can_be_candidate e.2 && negb (work_less address st e.1 tip))
                    (map_to_list st)).*1 in
  InvalidChainFound (with_cands (with_failed (with_index cm st) failed) (insert_all st missing cands)) to_mark_failed.

Definition InvalidateBlock (pindex : Z) : M (Node L) Failure bool := λ n,
  match m_block_index (node_cm n) !! pindex with
  | None => (n, inr Abort)
  | Some b =>
      if nHeight b =? 0 then (n, inl false)
      else
        match pprev b with
        | None => (n, inr Abort)
        | Some prev =>
            (r <- invalidate_loop (length (m_chain (node_cm n))) pindex pindex false
                    (candidate_blocks_by_work (node_cm n) prev) ;;
             match r with
             | None => mret false
             | Some (to_mark_failed, _) => λ n,
                 if Contains (m_block_index (node_cm n)) (m_chain (node_cm n)) to_mark_failed then (n, inl false)
                 else match mark_invalid (node_cm n) to_mark_failed with
                      | Some cm => (mkNode cm (node_ledger n), inl true)
                      | None => (n, inr Abort)
                      end
             end) n
        end
  end.

(** ** [ResetBlockFailureFlags] *)

Definition unfail st (h : Z) : BlockMap :=
  match st !! h with
  | Some b => <[h := set_nStatus (Z.ldiff (nStatus b) BLOCK_FAILED_MASK) b]> st
  | None => st
  end.

Definition forget_failed cm (h : Z) : ChainstateManager := with_failed cm (filter (.≠ h) (m_failed_blocks cm)).

(** One entry of the first loop; [None]: there is no tip to compare with. *)
Definition reset_entry (pindex nHeight : Z) cm (h : Z) : option ChainstateManager :=
  match m_block_index cm !! h with
  | None => Some cm
  | Some b =>
      if negb (IsValid b BLOCK_VALID_TRANSACTIONS) &&
         bool_decide (GetAncestor (m_block_index cm) h nHeight = Some pindex)
      then
        let st := unfail (m_block_index cm) h in
        cands ← (if can_be_candidate (entry_at st h)
                 then tip ← Tip (m_chain cm);
                      Some (if work_less address st tip h
                            then set_emplace (work_less address st) h (setBlockIndexCandidates cm)
                            else setBlockIndexCandidates cm)
                 else Some (setBlockIndexCandidates cm));
        let cm := with_cands (with_index cm st) cands in
        let cm := if bool_decide (m_best_invalid cm = Some h)
                  then mkChainman (m_block_index cm) (m_best_header cm) None (m_failed_blocks cm)
                         (m_blocks_unlinked cm) (nBlockSequenceId cm) (setBlockIndexCandidates cm) (m_chain cm)
                         (m_dag_tips cm) (g_early_protection cm)
                  else cm in
        Some (forget_failed cm h)
      else Some cm
  end.

Fixpoint reset_descendants (pindex nHeight : Z) (hs : list Z) cm : option ChainstateManager :=
  match hs with
  | [] => Some cm
  | h :: hs => cm ← reset_entry pindex nHeight cm h; reset_descendants pindex nHeight hs cm
  end.

(** The walk down from the block; the height bounds it. *)
Fixpoint reset_ancestors (fuel : nat) (pindex : option Z) cm : ChainstateManager :=
  match fuel, pindex with
  | S fuel', Some h =>
      match m_block_index cm !! h with
      | Some b =>
          let cm := if IsFailed b then forget_failed (with_index cm (unfail (m_block_index cm) h)) h else cm in
          reset_ancestors fuel' (pprev b) cm
      | None => cm
      end
  | _, _ => cm
  end.

Definition ResetBlockFailureFlags cm (pindex : Z) : option ChainstateManager :=
  b ← m_block_index cm !! pindex;
  cm ← reset_descendants pindex (nHeight b) (map_to_list (m_block_index cm)).*1 cm;
  Some (reset_ancestors (S (Z.to_nat (nHeight b))) (Some pindex) cm).

(** ** [PreciousBlock] *)

(** The two members of [ChainstateManager] that only this command uses. *)
Record Precious := mkPrecious { nLastPreciousChainwork : Z; nBlockReverseSequenceId : Z }.

(** The part before [ActivateBestChain]; [None] in the value: nothing to do. *)
Definition make_precious (pindex : Z) (p : Precious) cm : option (option (ChainstateManager * Precious)) :=
  b ← m_block_index cm !! pindex;
  tip ← Tip (m_chain cm);
  let tip_work := nChainWork (entry_at (m_block_index cm) tip) in
  if nChainWork b <? tip_work then Some None
  else
    let reverse_id := if nLastPreciousChainwork p <? tip_work then -1 else nBlockReverseSequenceId p in
    let cands := set_erase (work_less address (m_block_index cm)) pindex (setBlockIndexCandidates cm) in
    let b := set_counts (nTx b) (m_chain_tx_count b) reverse_id b in
    let st := <[pindex := b]> (m_block_index cm) in
    let p := mkPrecious tip_work (if - 2 ^ 31 <? reverse_id then reverse_id - 1 else reverse_id) in
    cands ← (if can_be_candidate b
             then PruneBlockIndexCandidates address st tip (set_emplace (work_less address st) pindex cands)
             else Some cands);
    Some (Some (with_cands (with_index cm st) cands, p)).

Definition PreciousBlock (fuel : nat) (get_hash : CBlock → Z) (pindex : Z) (p : Precious)
    : M (Node L) Halt Precious := λ n,
  match make_precious pindex p (node_cm n) with
  | None => (n, inr (Stopped Abort))
  | Some None => (n, inl p)
  | Some (Some (cm, p)) => (ActivateBestChain address fuel get_hash None ;;; mret p) (mkNode cm (node_ledger n))
  end.
End operator.
