(* ===== verification/OperatorProps.v ===== *)
(** * What the operator's commands do

    [InvalidateBlock] takes the node off a block and everything above it, and leaves a
    consistent node on the parent of the block, or where it was; the [ActivateBestChain] that
    follows ends on the best chain without the block.  [PreciousBlock] makes a block win
    against those of the same work and blue work. *)

From Stdlib Require Import String.
From stdpp Require Import gmap.
From S2P Require Import Prelude OrdSet TipSet Arith256 Serialize BlockHeader Ghostdag BlockIndex Pow Subsidy.
From S2P Require Import EarlyProtection Transaction Script Merkle Chainman Accept BlockCheck BlockCheckProps Coins CoinsDB.
From S2P Require Import Connect ConnectSim ConnectProps Replay ConnectTotal Candidates AcceptProps.
From S2P Require Import Activation ActivationProps Linking Guards Chainstate ChainstateProps Process ProcessProps.
From S2P Require Import Operator.

Local Open Scope Z_scope.
Local Open Scope coins_scope.

(** [x] is the block or above it. *)
Definition above (st : BlockMap) (pindex x : Z) : Prop := ∃ k, prev_n st k x = Some pindex.

(** ** [InvalidateBlock] *)

Section invalidate.
Context {L : Type} `{!Ledger L} {genesis : Z} `{!LedgerOk genesis L}.
Context (address : Z → Z) `{!Inj (=) (=) address}.

Abbreviation less := (work_less address).
Abbreviation index n := (m_block_index (node_cm n)).
Abbreviation tip n := (Tip (m_chain (node_cm n))).
Abbreviation cands n := (setBlockIndexCandidates (node_cm n)).
Implicit Types (n : Node L) (st : BlockMap).

Lemma elem_of_insert_all st hs x : ∀ c, x ∈ insert_all address st hs c ↔ x ∈ hs ∨ x ∈ c.
Proof using Inj0.
  induction hs as [|h hs IH]; intros c; cbn [insert_all foldl]; [by split; [right|intros [?%elem_of_nil|]]|].
  change (x ∈ insert_all address st hs (set_emplace (less st) h c) ↔ x ∈ h :: hs ∨ x ∈ c).
  rewrite IH, (elem_of_set_emplace (less st)), elem_of_cons. naive_solver.
Qed.

Lemma insert_all_ordered st hs : ∀ c, ordered (less st) c → ordered (less st) (insert_all address st hs c).
Proof using Inj0.
  induction hs as [|h hs IH]; intros c Hc; [done|]. cbn [insert_all foldl]. apply IH. by apply (set_emplace_ordered (less st)).
Qed.

(** The node before the command. *)
Context (n0 : Node L) (t0 : Z) (pindex : Z) (b0 : CBlockIndex).
Abbreviation st0 := (index n0).
Context (Hn0 : node_ok address n0 (tip n0)) (Ht0 : tip n0 = Some t0).
Context (Hpindex : st0 !! pindex = Some b0) (Hheight : nHeight b0 ≠ 0).
Context (Hcounted : ∀ h b, st0 !! h = Some b → m_chain_tx_count b ≠ 0 → counted st0 h).
Context (Hlinked : ∀ x b, usable st0 x → st0 !! x = Some b → m_chain_tx_count b ≠ 0).
Context (Hlevel : ∀ h b, st0 !! h = Some b → leveled b).

Definition flag_fields (b : CBlockIndex) := (cand_view b, has_undo b).

Lemma fields_view st st' : flag_fields <$> st = flag_fields <$> st' →
  cand_view <$> st = cand_view <$> st' ∧ ledger_view <$> st = ledger_view <$> st'.
Proof using Type.
  intros H. split; apply map_eq; intros h; apply (f_equal (.!! h)) in H; rewrite !lookup_fmap in *;
    destruct (st !! h), (st' !! h); simpl in *; try done; apply (inj Some), pair_equal_spec in H as [Hc Hu].
  - by rewrite Hc.
  - unfold ledger_view. rewrite Hu. unfold cand_view in Hc. congruence.
Qed.

Lemma failed_fields b m : m = BLOCK_FAILED_VALID ∨ m = BLOCK_FAILED_CHILD →
  flag_fields b = flag_fields (set_nStatus (Z.lor (nStatus b) m) b).
Proof using Type.
  intros Hm. pose proof (failed_ledger_view b m Hm) as H. unfold flag_fields, cand_view.
  apply pair_equal_spec in H as [[_ ->]%pair_equal_spec ->]. done.
Qed.

(** The node while blocks are disconnected, on the block [t] of its old chain.  What is not
    above [t] is as it was; what was disconnected is marked. *)
Record left_ok n (t : Z) : Prop := {
  lo_fields : flag_fields <$> st0 = flag_fields <$> index n;
  lo_chain : chain_to (index n) (m_chain (node_cm n)) (Some t);
  lo_ledger : ledger_at (index n) (node_ledger n) (Some t);
  lo_sorted : ordered (less (index n)) (cands n);
  lo_cands h : h ∈ cands n → is_Some (st0 !! h) ∧ counted st0 h;
  lo_tip : ∃ k, prev_n st0 k t0 = Some t;
  lo_low h b bt : st0 !! h = Some b → st0 !! t = Some bt → nHeight b <= nHeight bt → index n !! h = Some b;
  lo_marks h b' : index n !! h = Some b' → st0 !! h = Some b' ∨ IsFailed b' = true ∧ above st0 pindex h;
  lo_left k h b bt b' : prev_n st0 k t0 = Some h → st0 !! h = Some b → st0 !! t = Some bt → nHeight bt < nHeight b →
    index n !! h = Some b' → invalid_bit b' = true
}.

Lemma lo_links n t : left_ok n t → links <$> st0 = links <$> index n.
Proof using Type. intros H. by apply view_links, fields_view, H. Qed.

Lemma lo_sane n t : left_ok n t → sane genesis (index n).
Proof using Hn0. intros H. apply (sane_links genesis st0); [by eapply lo_links|apply Hn0]. Qed.

Lemma lo_known n t : left_ok n t → ∃ bt, st0 !! t = Some bt.
Proof using Hn0 Ht0.
  intros H. destruct (lo_tip _ _ H) as [k Hk]. destruct (no_tip _ _ _ Hn0 t0 Ht0) as [Hu _].
  destruct (Hu k t Hk) as (bt & Hbt & _). eauto.
Qed.

Lemma lo_usable n t : left_ok n t → usable (index n) t.
Proof using Hn0 Ht0.
  intros H k a Ha. rewrite <- (prev_n_links _ _ k (lo_links _ _ H)) in Ha. destruct (lo_tip _ _ H) as [j Hj].
  destruct (no_tip _ _ _ Hn0 t0 Ht0) as [Hu _]. destruct (Hu (j + k)%nat a) as (b & Hb & Hub); [by rewrite prev_n_add, Hj|].
  destruct (lo_known _ _ H) as [bt Hbt]. exists b. split; [|done]. apply (lo_low _ _ H a b bt Hb Hbt).
  destruct (prev_n_le _ _ (sn_chain _ _ (no_sane _ _ _ Hn0)) _ _ _ Hbt Ha) as (_ & ba & Hba & ?). assert (ba = b) as -> by congruence. lia.
Qed.

Lemma lo_start : left_ok n0 t0.
Proof using Hn0 Ht0.
  pose proof (no_ledger _ _ _ Hn0) as Hl. pose proof (no_chain _ _ _ Hn0) as Hc. rewrite Ht0 in Hl, Hc.
  split; try done; [apply Hn0| |by exists 0%nat|by left|].
  - intros h Hh. by apply (no_cands _ _ _ Hn0).
  - intros k h b bt b' Hk Hb Hbt Hlt. exfalso.
    destruct (prev_n_le _ _ (sn_chain _ _ (no_sane _ _ _ Hn0)) _ _ _ Hbt Hk) as (_ & ba & Hba & ?).
    assert (ba = b) as -> by congruence. lia.
Qed.

Lemma not_failed_bit b : IsFailed b = false → Z.land (nStatus b) BLOCK_FAILED_VALID = 0.
Proof using Type.
  unfold IsFailed. intros H%negb_false_iff%Z.eqb_eq. apply Z.bits_inj'. intros i Hi. apply (f_equal (λ z, Z.testbit z i)) in H.
  rewrite Z.bits_0, !Z.land_spec in *. change BLOCK_FAILED_MASK with (Z.lor BLOCK_FAILED_VALID BLOCK_FAILED_CHILD) in H.
  rewrite Z.lor_spec in H. destruct (Z.testbit (nStatus b) i), (Z.testbit BLOCK_FAILED_VALID i); done.
Qed.

Lemma view_ordered st st' c : cand_view <$> st = cand_view <$> st' → ordered (less st) c → ordered (less st') c.
Proof using Type. intros Hv. apply (ordered_keys address st). intros h _. by apply view_keys. Qed.

(** Marking the block that was disconnected, and moving the candidates. *)
Lemma mark_disconnected_eq cm t p to_mark pending bt bp :
  m_block_index cm !! t = Some bt → m_block_index cm !! p = Some bp → p ≠ t → IsFailed bp = false →
  let st := <[t := set_nStatus (Z.lor (nStatus bt) BLOCK_FAILED_VALID) bt]> (m_block_index cm) in
  ∃ moved pending', mark_disconnected address cm t p to_mark pending =
    (with_cands (with_index cm st) (insert_all address st moved
       (set_emplace (less st) p (set_erase (less st) t (setBlockIndexCandidates cm)))), pending') ∧
    (∀ x, x ∈ moved → x ∈ pending) ∧ (∀ x, x ∈ pending' → x ∈ pending).
Proof using Type.
  intros Ht Hp Hne Hf st. unfold mark_disconnected. rewrite Ht. fold st. cbv zeta.
  assert (E : (p =? to_mark) && negb (Z.land (nStatus (entry_at st to_mark)) BLOCK_FAILED_VALID =? 0) = false).
  { destruct (Z.eqb_spec p to_mark) as [<-|]; [|done]. unfold entry_at, st. rewrite lookup_insert_ne, Hp by done. change (default _ (Some bp)) with bp.
    rewrite (not_failed_bit bp Hf). done. }
  rewrite E. eexists _, _. split; [done|]. split; intros x [_ Hx]%list_elem_of_filter; exact Hx.
Qed.

Definition pending_ok (pending : list Z) : Prop := ∀ h, h ∈ pending → is_Some (st0 !! h) ∧ counted st0 h.

Lemma mark_step n t p b to_mark pending l :
  left_ok n t → above st0 pindex t → st0 !! t = Some b → pprev b = Some p → pending_ok pending →
  ledger_at (index n) l (Some p) →
  let cm := with_chain (node_cm n) (SetTip (index n) (m_chain (node_cm n)) p) in
  let '(cm', pending') := mark_disconnected address cm t p to_mark pending in
  left_ok (mkNode cm' l) p ∧ pending_ok pending'.
Proof using Inj0 Hn0 Ht0 Hcounted.
  intros H Habove Hb Hp Hpend Hl. cbv zeta. pose proof (no_sane _ _ _ Hn0) as Hs0. pose proof (sn_chain _ _ Hs0) as Hok0.
  destruct (ck_prev _ Hok0 _ _ _ Hb Hp) as (bp & Hbp & Ehp).
  assert (Hpt : p ≠ t) by (intros ->; assert (bp = b) as -> by congruence; lia).
  assert (Hbt : index n !! t = Some b) by (apply (lo_low _ _ H t b b); [done..|lia]).
  assert (Hbp' : index n !! p = Some bp) by (apply (lo_low _ _ H p bp b); [done..|lia]).
  assert (Hprev : prev_n (index n) 1 t = Some p) by (apply prev_n_S; eauto).
  destruct (lo_usable _ _ H 1%nat p Hprev) as (bp2 & Hbp2 & _ & Hfp & _). assert (bp2 = bp) as -> by congruence.
  set (cm := with_chain _ _). destruct (mark_disconnected_eq cm t p to_mark pending b bp Hbt Hbp' Hpt Hfp)
    as (moved & pending' & -> & Hmv & Hpd). set (b' := set_nStatus _ b). set (st := <[t := b']> (index n)).
  change (<[t := b']> (m_block_index cm)) with st.
  assert (Hfb : IsFailed b' = true) by apply lor_failed.
  assert (Hst : flag_fields <$> index n = flag_fields <$> st)
    by (apply (fmap_insert_same _ _ _ b); [done|]; apply failed_fields; by left).
  destruct (fields_view _ _ Hst) as [Hcv Hlv]. pose proof (view_links _ _ Hcv) as Hlk.
  split; [|by intros x Hx; apply Hpend, Hpd]. destruct (lo_tip _ _ H) as [j Hj]. split; cbn [node_cm node_ledger].
  - by rewrite (lo_fields _ _ H).
  - apply (chain_to_links (index n) st); [done|]. eapply chain_to_SetTip; [by eapply lo_sane|apply H|done].
  - by apply (ledger_fields (index n)); [eapply lo_sane|..].
  - cbn. apply insert_all_ordered, (set_emplace_ordered (less st)), set_erase_ordered. by apply (view_ordered (index n)), H.
  - cbn. intros h [Hh|Hh]%elem_of_insert_all; [by apply Hpend, Hmv|].
    apply (elem_of_set_emplace (less st)) in Hh as [->|Hh].
    + split; [by eauto|]. destruct (no_tip _ _ _ Hn0 t0 Ht0) as [Hu _]. apply usable_counted.
      apply (usable_ancestor st0 t0 (j + 1)); [done|]. rewrite prev_n_add, Hj. apply prev_n_S. eauto.
    + apply (elem_of_set_erase (less st)) in Hh as [_ Hh]; [by apply (lo_cands _ _ H)|].
      by apply (view_ordered (index n)), H.
  - exists (j + 1)%nat. rewrite prev_n_add, Hj. apply prev_n_S. eauto.
  - cbn. intros h c bt Hh Hbt' Hle. assert (bt = bp) as -> by congruence. unfold st.
    assert (h ≠ t) by (intros ->; assert (c = b) as -> by congruence; lia). rewrite lookup_insert_ne by done.
    apply (lo_low _ _ H h c b); [done..|lia].
  - cbn. intros h c [[<- <-]|[_ Hc]]%lookup_insert_Some; [by right|]. by apply (lo_marks _ _ H).
  - cbn. intros k h c bt c' Hk Hc Hbt' Hlt [[<- <-]|[Hne Hc']]%lookup_insert_Some.
    + apply failed_valid_bit.
    + assert (bt = bp) as -> by congruence. apply (lo_left _ _ H k h c b c'); try done.
      destruct (lo_known n0 t0 lo_start) as [bt0 Hbt0].
      destruct (prev_n_le _ _ Hok0 _ _ _ Hbt0 Hk) as (_ & c1 & Hc1 & E1).
      destruct (prev_n_le _ _ Hok0 _ _ _ Hbt0 Hj) as (_ & c2 & Hc2 & E2).
      assert (c1 = c) as -> by congruence. assert (c2 = b) as -> by congruence.
      destruct (decide (k = j)) as [->|]; [congruence|lia].
Qed.

Lemma left_above n t : left_ok n t → Contains (index n) (m_chain (node_cm n)) pindex = true ↔ above st0 pindex t.
Proof using Hn0.
  intros H. rewrite (chain_to_Contains _ _ t pindex (sn_chain _ _ (lo_sane _ _ H)) (lo_chain _ _ H)).
  unfold above. by setoid_rewrite (prev_n_links _ _ _ (lo_links _ _ H)).
Qed.

(** A block above [pindex] has a parent, and is [pindex] or its parent is above it. *)
Lemma above_parent t b :
  st0 !! t = Some b → above st0 pindex t → ∃ p, pprev b = Some p ∧ (t = pindex ∨ above st0 pindex p).
Proof using Hn0 Hpindex Hheight.
  intros Hb [k Hk]. pose proof (sn_chain _ _ (no_sane _ _ _ Hn0)) as Hok.
  destruct (prev_n_le _ _ Hok _ _ _ Hb Hk) as (_ & c & Hc & Eh). assert (c = b0) as -> by congruence.
  pose proof (ck_height _ Hok _ _ Hc). destruct (pprev b) as [p|] eqn:Hp; [|pose proof (ck_root _ Hok _ _ Hb Hp); lia].
  exists p. split; [done|]. destruct k as [|k]; [left; by injection Hk|right]. exists k.
  apply prev_n_S in Hk as (b2 & p2 & Hb2 & Hp2 & Hk). congruence.
Qed.

Lemma invalidate_loop_spec fuel : ∀ n t bt to_mark was pending,
  left_ok n t → st0 !! t = Some bt → (Z.to_nat (nHeight bt) < fuel)%nat → pending_ok pending →
  (¬ above st0 pindex t → to_mark = pindex) →
  match invalidate_loop address fuel pindex to_mark was pending n with
  | (n', inl (Some (m, _))) => m = pindex ∧ ∃ t', left_ok n' t' ∧ ¬ above st0 pindex t'
  | (_, inl None) => ∃ f, stops f
  | (_, inr f) => stops f
  end.
Proof using Inj0 Hn0 Ht0 Hpindex Hheight Hcounted.
  pose proof (sn_chain _ _ (no_sane _ _ _ Hn0)) as Hok.
  induction fuel as [|fuel IH]; intros n t bt to_mark was pending H Hbt Hf Hpend Hm; [lia|]. cbn [invalidate_loop].
  destruct (Contains (index n) (m_chain (node_cm n)) pindex) eqn:Ec; cbn [negb].
  2: { assert (Hna : ¬ above st0 pindex t) by (intros Ha%(left_above n t H); congruence). split; [by apply Hm|by exists t]. }
  apply (left_above n t H) in Ec. destruct (above_parent t bt Hbt Ec) as (p & Hp & Hcase).
  destruct (ck_prev _ Hok _ _ _ Hbt Hp) as (bp & Hbp & Ehp). pose proof (ck_height _ Hok _ _ Hbp).
  assert (Hbt' : index n !! t = Some bt) by (apply (lo_low _ _ H t bt bt); [done..|lia]).
  assert (Hbp' : index n !! p = Some bp) by (apply (lo_low _ _ H p bp bt); [done..|lia]).
  pose proof (chain_to_SetTip _ _ _ p bp (sn_chain _ _ (lo_sane _ _ H)) (lo_chain _ _ H) Hbp') as Hset.
  rewrite (chain_to_Tip _ _ _ (lo_chain _ _ H)). unfold DisconnectTip.
  rewrite (chain_to_Tip _ _ _ (lo_chain _ _ H)), Hbt'. cbn [mbind option_bind]. rewrite Hp.
  pose proof (disconnect_ok (index n) t bt p (node_ledger n) (lo_sane _ _ H) Hbt' Hp (lo_ledger _ _ H)) as Hd.
  destruct (disconnect_coins _ _ _) as [l [f|]]; [destruct f; eauto|].
  cbn [node_cm m_block_index with_chain m_chain]. rewrite Hbt'. cbn [mbind option_bind]. rewrite Hp, (chain_to_Tip _ _ _ Hset).
  rewrite bool_decide_eq_true_2 by done. cbn [negb node_ledger].
  pose proof (mark_step n t p bt to_mark pending l H Ec Hbt Hp Hpend Hd) as Hs. cbv zeta in Hs.
  destruct (mark_disconnected _ _ _ _ _ _) as [cm pending']. destruct Hs as [H' Hpend'].
  apply (IH _ p bp); [done|done|lia|done|]. intros Hna. by destruct Hcase.
Qed.

(** Entries that can be candidates when they are usable. *)
Lemma usable_candidate x b : usable st0 x → st0 !! x = Some b → IsFailed b = false → can_be_candidate b = true.
Proof using Hlinked Hlevel.
  intros Hu Hb Hf. unfold can_be_candidate, IsValid. rewrite Hf. destruct (usable_here _ _ Hu) as (b2 & Hb2 & Hd & _).
  assert (b2 = b) as -> by congruence. pose proof (Hlevel _ _ Hb Hd). pose proof (Hlinked _ _ Hu Hb).
  apply andb_true_iff. split; [by apply Z.leb_le|]. by apply negb_true_iff, Z.eqb_neq.
Qed.

Lemma candidate_counted h b b' :
  Is_true (can_be_candidate b') → st0 !! h = Some b → m_chain_tx_count b' = m_chain_tx_count b → counted st0 h.
Proof using Hcounted.
  intros Hc Hb E. apply (Hcounted h b Hb). apply Is_true_true, andb_true_iff in Hc as [_ Hc].
  apply negb_true_iff, Z.eqb_neq in Hc. congruence.
Qed.

(** What is left of the node: only the block and what is above it is marked. *)
Record invalidated n (t : Z) : Prop := {
  iv_ok : node_ok address n (tip n);
  iv_tip : tip n = Some t;
  iv_low : ∃ k, prev_n st0 k t0 = Some t;
  iv_fields : flag_fields <$> st0 = flag_fields <$> index n;
  iv_marks h b' : index n !! h = Some b' → st0 !! h = Some b' ∨ IsFailed b' = true ∧ above st0 pindex h;
  iv_failed : ∃ b', index n !! pindex = Some b' ∧ IsFailed b' = true;
  iv_left k h b' : prev_n st0 k t0 = Some h → above st0 pindex h → index n !! h = Some b' → invalid_bit b' = true
}.

(** The index once the block is marked. *)
Section marked.
Context (n : Node L) (t : Z) (b : CBlockIndex) (H : left_ok n t) (Hna : ¬ above st0 pindex t).
Context (Hb : index n !! pindex = Some b).
Abbreviation marked := (<[pindex := set_nStatus (Z.lor (nStatus b) BLOCK_FAILED_VALID) b]> (index n)).

Lemma marked_fields : flag_fields <$> index n = flag_fields <$> marked.
Proof using Hb. apply (fmap_insert_same _ _ _ b); [done|]. apply failed_fields. by left. Qed.

Lemma marked_view : cand_view <$> st0 = cand_view <$> marked.
Proof using Hb H.
  destruct (fields_view _ _ (lo_fields _ _ H)) as [-> _]. by destruct (fields_view _ _ marked_fields) as [-> _].
Qed.

Lemma marked_marks h c : marked !! h = Some c → st0 !! h = Some c ∨ IsFailed c = true ∧ above st0 pindex h.
Proof using H.
  intros [[<- <-]|[_ Hc]]%lookup_insert_Some; [|by apply (lo_marks _ _ H)].
  right. split; [apply lor_failed|by exists 0%nat].
Qed.

Lemma marked_tip : usable marked t.
Proof using Hn0 Ht0 H Hna Hb.
  pose proof (lo_links _ _ H) as Hlk. pose proof (view_links _ _ marked_view) as Hlk'.
  intros k a Ha. rewrite <- (prev_n_links _ _ k Hlk') in Ha.
  assert (Ha' : prev_n (index n) k t = Some a) by (by rewrite <- (prev_n_links _ _ k Hlk)).
  destruct (lo_usable _ _ H k a Ha') as (c & Hc & Hu). exists c. split; [|done].
  rewrite lookup_insert_ne; [done|]. intros <-. apply Hna. by exists k.
Qed.

Lemma marked_usable x : usable marked x → usable st0 x.
Proof using H Hb.
  apply view_usable; [apply marked_view|]. intros h c c' Hc Hc' Hf.
  destruct (marked_marks h c' Hc') as [?|[? _]]; [congruence|done].
Qed.

Lemma marked_ordered : ordered (less marked) (cands n).
Proof using H Hb. apply (view_ordered (index n)); [apply fields_view, marked_fields|apply H]. Qed.

Lemma marked_candidate h c : marked !! h = Some c → Is_true (can_be_candidate c) → is_Some (st0 !! h) ∧ counted st0 h.
Proof using H Hb Hcounted.
  intros Hc Hcan. destruct (fmap_lookup_eq _ _ _ _ _ marked_view Hc) as (c0 & Hc0 & E). split; [by eauto|].
  apply (candidate_counted h c0 c Hcan Hc0). unfold cand_view in E. congruence.
Qed.

Lemma marked_left k h c : prev_n st0 k t0 = Some h → above st0 pindex h → marked !! h = Some c → invalid_bit c = true.
Proof using Hn0 Ht0 H Hna.
  intros Hk Ha [[<- <-]|[Hne Hc]]%lookup_insert_Some; [apply failed_valid_bit|].
  destruct (lo_known _ _ H) as [bt Hbt]. pose proof (sn_chain _ _ (no_sane _ _ _ Hn0)) as Hok.
  destruct (lo_known n0 t0 lo_start) as [bt0 Hbt0]. destruct (prev_n_le _ _ Hok _ _ _ Hbt0 Hk) as (_ & c0 & Hc0 & E1).
  apply (lo_left _ _ H k h c0 bt c Hk Hc0 Hbt); [|done]. destruct (lo_tip _ _ H) as [j Hj].
  destruct (prev_n_le _ _ Hok _ _ _ Hbt0 Hj) as (_ & c1 & Hc1 & E2). assert (c1 = bt) as -> by congruence.
  destruct (decide (k < j)%nat); [lia|]. exfalso. apply Hna. destruct Ha as [i Hi]. exists (k - j + i)%nat.
  replace k with (j + (k - j))%nat in Hk by lia. rewrite prev_n_add, Hj in Hk. cbn [mbind option_bind] in Hk.
  by rewrite prev_n_add, Hk.
Qed.
End marked.

Lemma mark_invalid_spec n t :
  left_ok n t → ¬ above st0 pindex t →
  ∃ cm, mark_invalid address (node_cm n) pindex = Some cm ∧ invalidated (mkNode cm (node_ledger n)) t.
Proof using Inj0 Hn0 Ht0 Hpindex Hcounted Hlinked Hlevel.
  intros H Hna. destruct (view_lookup _ _ _ _ (proj1 (fields_view _ _ (lo_fields _ _ H))) Hpindex) as (b & Hb & _).
  unfold mark_invalid. rewrite Hb, (chain_to_Tip _ _ _ (lo_chain _ _ H)). cbn [mbind option_bind].
  set (st := <[pindex := _]> (index n)). set (missing := (filter _ _).*1). set (cm0 := with_cands _ _).
  destruct (InvalidChainFound_same cm0 pindex t (chain_to_Tip _ _ _ (lo_chain _ _ H))) as (cm & -> & Ei & Ec & Es).
  exists cm. split; [done|]. cbn in Ei, Ec, Es. change (m_block_index cm = st) in Ei.
  destruct (fields_view _ _ (marked_fields n b Hb)) as [Hcv Hlv]. pose proof (view_links _ _ Hcv) as Hlk.
  pose proof (marked_view n t b H Hb) as Hcv1. pose proof (marked_ordered n t b H Hb) as Hso.
  assert (Hl' : ledger_at st (node_ledger n) (Some t)) by (by apply (ledger_fields (index n)); [eapply lo_sane|done|apply H]).
  assert (Htip : Tip (m_chain cm) = Some t) by (rewrite Ec; apply (chain_to_Tip _ _ _ (lo_chain _ _ H))).
  split; cbn [node_cm node_ledger]; rewrite ?Ei, ?Htip; try done; [|apply H| | | |].
  - split; cbn [node_cm node_ledger]; rewrite ?Ei, ?Htip, ?Es; try done.
    + apply (sane_links genesis (index n)); [done|by eapply lo_sane].
    + rewrite Ec. apply (chain_to_links (index n)); [done|apply H].
    + intros t' [= <-]. split; [by apply marked_tip|]. exists t. split; [done|]. apply (st_irrefl (lt := less st)).
    + intros r [= <-]. split; [by apply marked_tip|]. by eapply ledger_good.
    + by apply insert_all_ordered, set_erase_ordered.
    + intros h Hh. assert (Hk : is_Some (st0 !! h) ∧ counted st0 h).
      { apply elem_of_insert_all in Hh as [Hh|Hh].
        - apply list_elem_of_fmap in Hh as ([g c] & -> & Hh). apply list_elem_of_filter in Hh as [Hc Hh].
          apply elem_of_map_to_list in Hh. apply andb_prop_elim in Hc as [Hc _]. by apply (marked_candidate n t b H Hb g c).
        - apply (elem_of_set_erase (less st)) in Hh as [_ Hh]; [by apply (lo_cands _ _ H)|done]. }
      destruct Hk as [[c Hc] Hcn]. split; [|by apply (view_counted st0)].
      destruct (view_lookup _ _ _ _ Hcv1 Hc) as (c' & Hc' & _). eauto.
    + intros x Hx Hge. apply elem_of_insert_all. left. destruct (usable_here _ _ Hx) as (c & Hc & _ & Hf & _).
      apply list_elem_of_fmap. exists (x, c). split; [done|]. apply list_elem_of_filter.
      split; [|by apply elem_of_map_to_list]. cbn [fst snd]. rewrite (Hge t eq_refl).
      destruct (marked_marks n t b H x c Hc) as [Hc0|[? _]]; [|congruence].
      by rewrite (usable_candidate x c (marked_usable n t b H Hb x Hx) Hc0 Hf).
  - rewrite (lo_fields _ _ H). apply (marked_fields n b Hb).
  - apply (marked_marks n t b H).
  - eexists. split; [apply lookup_insert_eq|apply lor_failed].
  - by apply (marked_left n t b H Hna).
Qed.

Lemma InvalidateBlock_spec :
  match InvalidateBlock address pindex n0 with
  | (n', inl true) => ∃ t, invalidated n' t ∧ ¬ above st0 pindex t
  | (_, inl false) => ∃ f, stops f
  | (_, inr f) => stops f
  end.
Proof using Inj0 Hn0 Ht0 Hpindex Hheight Hcounted Hlinked Hlevel.
  unfold InvalidateBlock. rewrite Hpindex. destruct (Z.eqb_spec (nHeight b0) 0) as [|_]; [done|].
  destruct (above_parent pindex b0 Hpindex) as (p & -> & _); [by exists 0%nat|].
  destruct (lo_known n0 t0 lo_start) as [bt0 Hbt0].
  assert (Hlen : (Z.to_nat (nHeight bt0) < length (m_chain (node_cm n0)))%nat).
  { destruct (lo_chain _ _ lo_start) as (b & Hb & -> & _). assert (b = bt0) as -> by congruence. lia. }
  assert (Hpend : pending_ok (candidate_blocks_by_work address (node_cm n0) p)).
  { intros h Hh. apply list_elem_of_fmap in Hh as ([g c] & -> & Hh). apply list_elem_of_filter in Hh as [Hc Hh].
    apply elem_of_map_to_list in Hh. split; [by eauto|]. apply andb_prop_elim in Hc as [_ Hc]. by apply (candidate_counted g c c). }
  pose proof (invalidate_loop_spec _ n0 t0 bt0 pindex false _ lo_start Hbt0 Hlen Hpend (λ _, eq_refl)) as Hl. unfold mthen.
  destruct (invalidate_loop _ _ _ _ _ _ _) as [n [[[m was]|]|f]]; [|done..]. destruct Hl as (-> & t & H & Hna).
  destruct (Contains (index n) (m_chain (node_cm n)) pindex) eqn:Ec; [by apply (left_above n t H) in Ec|].
  destruct (mark_invalid_spec n t H Hna) as (cm & -> & Hiv). by exists t.
Qed.
End invalidate.

(** ** [PreciousBlock] *)

(** An entry without the number of its arrival. *)
Definition timeless (b : CBlockIndex) : CBlockIndex := set_counts (nTx b) (m_chain_tx_count b) 0 b.

Lemma timeless_view {A} (f : CBlockIndex → A) (st st' : BlockMap) :
  (∀ b, f (timeless b) = f b) → timeless <$> st = timeless <$> st' → f <$> st = f <$> st'.
Proof.
  intros Hf H. apply map_eq. intros h. apply (f_equal (.!! h)) in H. rewrite !lookup_fmap in *.
  destruct (st !! h) as [b|], (st' !! h) as [b'|]; simpl in *; [|done..]. apply (inj Some) in H.
  by rewrite <- (Hf b), <- (Hf b'), H.
Qed.

(** Compared by work and blue work alone. *)
Definition lighter (st : BlockMap) (x y : Z) : bool :=
  let a := entry_at st x in
  let b := entry_at st y in
  (nChainWork a <? nChainWork b) ||
  (nChainWork a =? nChainWork b) && (blue_work (dagData a) <? blue_work (dagData b)).

Lemma lighter_less address st x y : lighter st x y = true → work_less address st x y = true.
Proof. unfold lighter. rewrite work_less_true, orb_true_iff, andb_true_iff. cbv zeta. lia. Qed.

Lemma not_less_lighter address st x y : work_less address st x y = false → lighter st x y = false.
Proof. intros H. apply not_true_iff_false. intros E%(lighter_less address). congruence. Qed.

Section precious.
Context {L : Type} `{!Ledger L} {genesis : Z} `{!LedgerOk genesis L}.
Context (address : Z → Z) `{!Inj (=) (=) address}.

Abbreviation less := (work_less address).
Abbreviation index n := (m_block_index (node_cm n)).
Abbreviation tip n := (Tip (m_chain (node_cm n))).
Abbreviation cands n := (setBlockIndexCandidates (node_cm n)).
Implicit Types (n : Node L) (st : BlockMap).

Context (n0 : Node L) (t0 : Z) (pindex rev : Z) (b0 : CBlockIndex).
Abbreviation st0 := (index n0).
Abbreviation b1 := (set_counts (nTx b0) (m_chain_tx_count b0) rev b0).
Abbreviation st1 := (<[pindex := b1]> st0).
Context (Hn0 : node_ok address n0 (tip n0)) (Ht0 : tip n0 = Some t0) (Hpindex : st0 !! pindex = Some b0).
Context (Hcounted : ∀ h b, st0 !! h = Some b → m_chain_tx_count b ≠ 0 → counted st0 h).
Context (Hlinked : ∀ x b, usable st0 x → st0 !! x = Some b → m_chain_tx_count b ≠ 0).
Context (Hlevel : ∀ h b, st0 !! h = Some b → leveled b).
Context (Hrev : ∀ h b, st0 !! h = Some b → h ≠ pindex → rev < nSequenceId b).

Lemma precious_timeless : timeless <$> st0 = timeless <$> st1.
Proof using Hpindex. by apply (fmap_insert_same _ _ _ b0). Qed.

Lemma precious_links : links <$> st0 = links <$> st1.
Proof using Hpindex. by apply timeless_view; [|apply precious_timeless]. Qed.

Lemma precious_counted x : counted st0 x → counted st1 x.
Proof using Hpindex. apply counted_links; [apply precious_links|]. by apply timeless_view; [|apply precious_timeless]. Qed.

Lemma precious_usable x : usable st0 x ↔ usable st1 x.
Proof using Hpindex.
  pose proof precious_links as Hl. unfold usable. split; intros H k a Ha.
  - rewrite <- (prev_n_links _ _ k Hl) in Ha. destruct (H k a Ha) as (b & Hb & Hu).
    destruct (decide (a = pindex)) as [->|]; [|exists b; by rewrite lookup_insert_ne].
    exists b1. assert (b = b0) as -> by congruence. by rewrite lookup_insert_eq.
  - rewrite (prev_n_links _ _ k Hl) in Ha. destruct (H k a Ha) as (b & Hb & Hu).
    apply lookup_insert_Some in Hb as [[<- <-]|[_ Hb]]; [by exists b0|by exists b].
Qed.

(** The block is moved up, and the order of all others is kept. *)
Lemma precious_entry x : x ≠ pindex → entry_at st1 x = entry_at st0 x.
Proof using Type. intros H. unfold entry_at. by rewrite lookup_insert_ne. Qed.

Lemma precious_keys x : x ≠ pindex → sort_key <$> st0 !! x = sort_key <$> st1 !! x.
Proof using Type. intros H. by rewrite lookup_insert_ne. Qed.

Lemma precious_entries : entry_at st0 pindex = b0 ∧ entry_at st1 pindex = b1.
Proof using Hpindex. unfold entry_at. by rewrite Hpindex, lookup_insert_eq. Qed.

Lemma precious_above x : is_Some (st0 !! x) → x ≠ pindex → less st1 x pindex = lighter st0 x pindex || negb (lighter st0 pindex x).
Proof using Inj0 Hpindex Hrev.
  intros [b Hb] Hne. pose proof (Hrev _ _ Hb Hne) as Hs. destruct precious_entries as [E0 E1].
  apply eq_true_iff_eq. rewrite work_less_true. unfold lighter. rewrite E0, E1, (precious_entry x Hne). cbv zeta.
  assert (entry_at st0 x = b) as -> by (unfold entry_at; by rewrite Hb). cbn [set_counts nChainWork dagData nSequenceId].
  rewrite orb_true_iff, negb_true_iff, orb_true_iff, orb_false_iff, !andb_true_iff, andb_false_iff. lia.
Qed.

Lemma precious_lighter x y : lighter st1 x y = lighter st0 x y.
Proof using Hpindex.
  assert (E : ∀ z, nChainWork (entry_at st1 z) = nChainWork (entry_at st0 z) ∧
    blue_work (dagData (entry_at st1 z)) = blue_work (dagData (entry_at st0 z))).
  { intros z. destruct (decide (z = pindex)) as [->|]; [|by rewrite precious_entry]. by destruct precious_entries as [-> ->]. }
  destruct (E x) as [Ex1 Ex2], (E y) as [Ey1 Ey2]. unfold lighter. by rewrite Ex1, Ex2, Ey1, Ey2.
Qed.

Lemma precious_kept x : is_Some (st0 !! x) → less st1 x t0 = false → x ≠ pindex → less st0 x t0 = false.
Proof using Inj0 Hpindex Hrev.
  intros Hx Hge Hne. destruct (decide (t0 = pindex)) as [E|Ht].
  - rewrite E in Hge |- *. rewrite (precious_above x Hx Hne) in Hge. apply orb_false_iff in Hge as [H1 H2].
    apply not_true_iff_false. rewrite work_less_true. unfold lighter in *. rewrite negb_false_iff, orb_true_iff, andb_true_iff in H2.
    cbv zeta. lia.
  - by rewrite (work_less_keys address st0 st1); [|apply precious_keys..].
Qed.

(** The node on which the best chain is looked for. *)
Lemma precious_ok cs :
  ordered (less st1) cs → (∀ h, h ∈ cs → h = pindex ∧ can_be_candidate b0 = true ∨ h ∈ cands n0) →
  (∀ x, usable st0 x → less st1 x t0 = false → x ∈ cs) →
  let n := mkNode (with_cands (with_index (node_cm n0) st1) cs) (node_ledger n0) in node_ok address n (tip n).
Proof using Hn0 Ht0 Hpindex Hcounted Inj0.
  intros Hso Hin Hcov. cbv zeta. pose proof precious_links as Hl. pose proof (no_sane _ _ _ Hn0) as Hs.
  assert (Ht1 : usable st1 t0) by (by apply precious_usable, (no_tip _ _ _ Hn0)).
  split; cbn [node_cm node_ledger m_block_index m_chain setBlockIndexCandidates with_cands with_candidates with_index];
    rewrite ?Ht0.
  - by apply (sane_links genesis st0).
  - rewrite <- Ht0. apply (chain_to_links st0); [done|apply Hn0].
  - intros t [= <-]. split; [done|]. exists t0. split; [done|]. apply (st_irrefl (lt := less st1)).
  - intros r [= <-]. split; [done|]. apply (good_links st0); [done|done|]. by apply (no_tip_good address n0 _ t0 Hn0).
  - done.
  - done.
  - intros h Hh. assert (Hk : is_Some (st0 !! h) ∧ counted st0 h).
    { destruct (Hin h Hh) as [[-> Hc]|Hc]; [|by apply (no_cands _ _ _ Hn0)]. split; [by eexists|].
      apply (Hcounted pindex b0 Hpindex). apply andb_true_iff in Hc as [_ Hc]. by apply negb_true_iff, Z.eqb_neq in Hc. }
    destruct Hk as [Hk Hc]. split; [|by apply precious_counted]. apply lookup_insert_is_Some. destruct (decide (pindex = h)); auto.
  - intros x Hx Hge. apply Hcov; [by apply precious_usable|by apply Hge].
  - rewrite <- Ht0. apply (ledger_fields st0); [done| |apply Hn0]. by apply timeless_view; [|apply precious_timeless].
Qed.

Lemma precious_candidates :
  let cs := set_erase (less st0) pindex (cands n0) in
  ∃ cs', (if can_be_candidate b1 then PruneBlockIndexCandidates address st1 t0 (set_emplace (less st1) pindex cs) else Some cs) = Some cs' ∧
    let n := mkNode (with_cands (with_index (node_cm n0) st1) cs') (node_ledger n0) in node_ok address n (tip n).
Proof using Hn0 Ht0 Hpindex Hcounted Hlinked Hlevel Hrev Inj0.
  cbv zeta. set (cs := set_erase (less st0) pindex (cands n0)). pose proof (no_sorted _ _ _ Hn0) as Hso.
  assert (Hcs : ∀ x, x ∈ cs ↔ x ≠ pindex ∧ x ∈ cands n0) by (intros x; by apply (elem_of_set_erase (less st0))).
  assert (Hso1 : ordered (less st1) cs).
  { apply (ordered_keys address st0); [|by apply set_erase_ordered]. intros h [Hh _]%Hcs. by apply precious_keys. }
  assert (Hkept : ∀ x, usable st0 x → less st1 x t0 = false → x ≠ pindex → x ∈ cs).
  { intros x Hx Hge Hne. apply Hcs. split; [done|]. apply (no_covers _ _ _ Hn0 x Hx). intros r Hr.
    assert (r = t0) as -> by congruence. destruct (usable_here _ _ Hx) as (b & Hb & _). apply precious_kept; eauto. }
  assert (Hcan : usable st0 pindex → can_be_candidate b0 = true).
  { intros Hu. destruct (usable_here _ _ Hu) as (b & Hb & _ & Hf & _). assert (b = b0) as -> by congruence.
    by apply (usable_candidate n0 Hlinked Hlevel pindex). }
  change (can_be_candidate b1) with (can_be_candidate b0). destruct (can_be_candidate b0) eqn:Ec.
  - assert (Hel : ∀ x, x ∈ prune_worse address st1 t0 (set_emplace (less st1) pindex cs) ↔ (x = pindex ∨ x ∈ cs) ∧ less st1 x t0 = false).
    { intros x. rewrite (prune_worse_elem address) by (by apply (set_emplace_ordered (less st1))).
      by rewrite (elem_of_set_emplace (less st1)). }
    assert (Hcov : ∀ x, usable st0 x → less st1 x t0 = false → x ∈ prune_worse address st1 t0 (set_emplace (less st1) pindex cs)).
    { intros x Hx Hge. apply Hel. split; [|done]. destruct (decide (x = pindex)); auto. }
    unfold PruneBlockIndexCandidates. destruct (prune_worse _ _ _ _) as [|c l] eqn:E.
    { exfalso. apply (not_elem_of_nil t0), Hcov; [by apply (no_tip _ _ _ Hn0)|]. apply (st_irrefl (lt := less st1)). }
    eexists. split; [done|]. rewrite <- E in *. apply precious_ok; [|intros h [[->|[_ ?]%Hcs] _]%Hel; auto|done].
    by apply prune_worse_ordered, (set_emplace_ordered (less st1)).
  - exists cs. split; [done|]. apply precious_ok; [done|intros h [_ ?]%Hcs; auto|]. intros x Hx Hge. apply Hkept; [done|done|].
    intros ->. specialize (Hcan Hx). congruence.
Qed.
End precious.

(** ** The running node *)

Section commands.
Context (SHA256d : list Z → Z) (params : Params) (bparams : BodyParams) (cparams : ConnectParams) (opts : Options).
Context (CheckSignetBlockSolution : CBlockHeader → list CTransaction → bool).
Context (CScriptCheck : CTransaction → nat → list CTxOut → Z → option string).
Context (pqc_active : option Z → bool) (parallel_script_checks : bool).
Context (ReadBlock : Z → option CBlock) (UndoWriteToDisk : Z → CBlockUndo → bool).
Context {V : Type} `{!CCoinsView V, !CoinsViewOk V}.
Context (env : nat → FlushEnv V) (cache_bytes mempool_bytes : Z).
Context (address : Z → Z) `{!Inj (=) (=) address}.

Abbreviation genesis := (hashGenesisBlock cparams).
Abbreviation valid_chain := (valid_chain SHA256d params bparams cparams opts CheckSignetBlockSolution CScriptCheck
  pqc_active parallel_script_checks ReadBlock).
Abbreviation readable := (readable SHA256d params bparams CheckSignetBlockSolution ReadBlock).
Abbreviation machine_ok := (machine_ok SHA256d params bparams CheckSignetBlockSolution ReadBlock UndoWriteToDisk env readable).
Abbreviation reachable := (reachable SHA256d params bparams cparams opts CheckSignetBlockSolution CScriptCheck
  pqc_active parallel_script_checks ReadBlock UndoWriteToDisk env cache_bytes mempool_bytes address).
Context (Hnet : network_ok SHA256d params bparams cparams CheckSignetBlockSolution ReadBlock).

#[local] Instance command_ops : Ledger (Chainstate V) := Chainstate_ledger env cache_bytes mempool_bytes SHA256d
  params bparams cparams opts CheckSignetBlockSolution CScriptCheck pqc_active parallel_script_checks
  UndoWriteToDisk ReadBlock.

#[local] Instance command_laws : LedgerOk genesis (Chainstate V) := Chainstate_ok SHA256d params bparams cparams opts
  CheckSignetBlockSolution CScriptCheck pqc_active parallel_script_checks ReadBlock Hnet UndoWriteToDisk env
  cache_bytes mempool_bytes readable.

Abbreviation index n := (m_block_index (node_cm n)).
Abbreviation tip n := (Tip (m_chain (node_cm n))).
Abbreviation less := (work_less address).
Abbreviation activate := (Process.activate address SHA256d None).
Implicit Types (n : Node (Chainstate V)).

Lemma linked_counted cm : link_ok address cm [] →
  ∀ h b, m_block_index cm !! h = Some b → m_chain_tx_count b ≠ 0 → counted (m_block_index cm) h.
Proof using Type.
  intros Hl h b Hb Hc k. revert h b Hb Hc. induction k as [|k IH]; intros h b Hb Hc a c Ha Hac.
  - cbn in Ha. injection Ha as <-. left. congruence.
  - cbn [prev_n] in Ha. rewrite Hb in Ha. cbn in Ha. destruct (pprev b) as [p|] eqn:Hp; [|done].
    destruct (ck_prev _ (li_chain _ _ _ Hl) _ _ _ Hb Hp) as (bp & Hbp & _).
    by apply (IH p bp Hbp (li_down _ _ _ Hl _ _ _ _ Hb Hp Hbp Hc) a c).
Qed.

Lemma usable_linked cm : link_ok address cm [] →
  ∀ x b, usable (m_block_index cm) x → m_block_index cm !! x = Some b → m_chain_tx_count b ≠ 0.
Proof using Type.
  intros Hl x b Hx Hb. apply (complete_counted address cm x b (Z.to_nat (nHeight b)) Hl); try done.
  - intros k a Ha. destruct (Hx k a Ha) as (c & Hc & Hd & _). by exists c.
  - intros (k & a & c & Ha & Hc & Hf). destruct (Hx k a Ha) as (c' & Hc' & _ & Hf' & _). congruence.
Qed.

Context (Hdag : dag_mode params opts = true) (Hparams : retarget_params params).

Lemma reachable_invalidate n pindex b t :
  reachable n → tip n = Some t → index n !! pindex = Some b → nHeight b ≠ 0 →
  match InvalidateBlock address pindex n with
  | (n', inl true) => ∃ t', invalidated address n t pindex n' t' ∧ ¬ above (index n) pindex t'
  | (_, inl false) => ¬ machine_ok
  | (_, inr f) => f = SystemError ∧ ¬ machine_ok
  end.
Proof using Hnet CoinsViewOk0 Inj0 Hdag Hparams.
  intros Hr Ht Hb Hh. eapply running_inv in Hr as Hi; [|done..]. destruct Hi as [Hn _].
  eapply reachable_guarded in Hr as Hg; [|done..].
  pose proof (InvalidateBlock_spec address n t pindex b (ni_ok _ _ _ _ _ _ _ _ _ _ _ _ _ _ _ _ _ Hn) Ht Hb Hh) as H.
  pose proof (ni_link _ _ _ _ _ _ _ _ _ _ _ _ _ _ _ _ _ Hn) as Hl.
  specialize (H (linked_counted _ Hl) (usable_linked _ Hl) (gd_level _ Hg)).
  destruct (InvalidateBlock address pindex n) as [n' [[]|f]]; [done| |done]. by destruct H as (f & _ & H).
Qed.

(** A block that is not above the one declared invalid is as usable as before. *)
Lemma invalidated_usable n t0 pindex n1 t1 x :
  invalidated address n t0 pindex n1 t1 → usable (index n) x → ¬ above (index n) pindex x → usable (index n1) x.
Proof using Type.
  intros Hiv Hx Hna k a Ha. pose proof (proj1 (fields_view _ _ (iv_fields _ _ _ _ _ _ Hiv))) as Hv.
  rewrite <- (prev_n_links _ _ k (view_links _ _ Hv)) in Ha. destruct (Hx k a Ha) as (b & Hb & Hub).
  destruct (view_lookup _ _ _ _ Hv Hb) as (b' & Hb' & _). destruct (iv_marks _ _ _ _ _ _ Hiv a b' Hb') as [Hb2|[_ [j Hj]]].
  - exists b. split; [congruence|done].
  - destruct Hna. exists (k + j)%nat. by rewrite prev_n_add, Ha.
Qed.

Lemma left_for_best n t0 pindex n1 t1 n2 :
  reachable n → invalidated address n t0 pindex n1 t1 → worse genesis (index n1) (index n2) →
  node_ok address n2 (tip n2) → settled address n2 →
  ∃ t u, tip n2 = Some t ∧ ¬ above (index n) pindex t ∧ valid_chain (index n) t u ∧
    refines (CoinsTip (node_ledger n2)) (mkUTXO u t) ∧
    ∀ x v, complete (index n) x → valid_chain (index n) x v → ¬ above (index n) pindex x → less (index n) t x = false.
Proof using Hnet CoinsViewOk0 Inj0.
  intros Hr Hiv W Hok Hset. destruct (running_inv _ _ _ _ _ _ _ _ _ _ _ _ _ _ _ Hnet n Hr) as [Hn _].
  pose proof (no_sane _ _ _ (ni_ok _ _ _ _ _ _ _ _ _ _ _ _ _ _ _ _ _ Hn)) as Hs.
  pose proof (iv_ok _ _ _ _ _ _ Hiv) as Hok1. pose proof (iv_tip _ _ _ _ _ _ Hiv) as Ht1.
  pose proof (proj1 (fields_view _ _ (iv_fields _ _ _ _ _ _ Hiv))) as Hv1.
  assert (Hv : cand_view <$> index n = cand_view <$> index n2) by (rewrite Hv1; apply W).
  destruct (Hset t1) as (t & Ht & _).
  { apply (ws_good _ _ _ W); [by apply (no_tip _ _ _ Hok1)|by apply (no_tip_good address n1 _ t1 Hok1)]. }
  destruct (no_ledger _ _ _ Hok) as (u & Hu & R & _). rewrite Ht in Hu, R. exists t, u. split_and!; [done| | |done|].
  - intros [k Hk]. destruct (iv_failed _ _ _ _ _ _ Hiv) as (b & Hb & Hf).
    rewrite (prev_n_links _ _ k (view_links _ _ Hv)) in Hk. destruct (no_tip _ _ _ Hok t Ht) as [Hus _].
    destruct (Hus k pindex Hk) as (c & Hc & _ & Hcf & _). pose proof (ws_failed _ _ _ W _ _ _ Hb Hc Hf). congruence.
  - eapply (valid_extends _ _ _ _ _ _ _ _ _ _ Hnet (index n2)); [apply (no_sane _ _ _ Hok)|apply Hs| |done].
    by apply links_extends, view_links.
  - intros x v Hc Hx Hna. assert (Hus : usable (index n) x) by (by eapply valid_usable).
    destruct (Hset x) as (t' & Ht' & Hl).
    + apply (ws_good _ _ _ W); [by eapply invalidated_usable|].
      apply (good_links (index n)); [done|by apply view_links|by exists v].
    + assert (t' = t) as -> by congruence. by rewrite (view_less address _ _ _ _ Hv).
Qed.

(** C8. When the operator declares a block invalid, the node leaves it and all that is above it,
    and no other block is given up.  [InvalidateBlock] on a running node in DAG mode fails no
    assertion and gives up only if the machine fails; the [ActivateBestChain] that follows
    comes to an end, on a valid block that is not above the one declared invalid, with exactly
    the coins of the chain to it; and no block that is valid, has the data of all its
    ancestors and is not above the one declared invalid is better than the new tip. *)
Theorem invalidated_chain_left n pindex b :
  reachable n → index n !! pindex = Some b → nHeight b ≠ 0 →
  match InvalidateBlock address pindex n with
  | (_, inl false) => ¬ machine_ok
  | (_, inr f) => f = SystemError ∧ ¬ machine_ok
  | (n1, inl true) =>
      match activate n1 with
      | (_, inr OutOfFuel) => False
      | (_, inr (Stopped f)) => f = SystemError ∧ ¬ machine_ok
      | (n2, inl _) => ∃ t u,
          tip n2 = Some t ∧ ¬ above (index n) pindex t ∧ valid_chain (index n) t u ∧
          refines (CoinsTip (node_ledger n2)) (mkUTXO u t) ∧
          ∀ x v, complete (index n) x → valid_chain (index n) x v → ¬ above (index n) pindex x →
            less (index n) t x = false
      end
  end.
Proof using Hnet CoinsViewOk0 Inj0 Hdag Hparams.
  intros Hr Hb Hh. eapply reachable_tip in Hr as Ht; [|done..]. destruct Ht as [t0 Ht0].
  pose proof (reachable_invalidate n pindex b t0 Hr Ht0 Hb Hh) as H.
  destruct (InvalidateBlock address pindex n) as [n1 [[]|f]]; [|done..]. destruct H as (t1 & Hiv & _).
  pose proof (ActivateBestChain_spec address (λ b, GetHash SHA256d (blk_header b)) None ltac:(done) _ n1
    (iv_ok _ _ _ _ _ _ Hiv) (Nat.le_refl _)) as H. unfold Process.activate, enough_rounds.
  destruct (ActivateBestChain _ _ _ _ n1) as [n2 [[]|[f|]]]; [|done..]. destruct H as (W & Hok & Hset).
  by apply (left_for_best n t0 pindex n1 t1 n2).
Qed.

(** C34. A comment in [InvalidateBlock] says that only the last of the blocks it disconnects is
    to be marked as failing itself, and those above it as having a failed ancestor.  All of
    them are marked as failing themselves: the condition for changing the mark compares the
    parent of a block with the block disconnected before it, which is its child. *)
Theorem disconnected_marked_failed n n1 pindex b t k h b' :
  reachable n → index n !! pindex = Some b → nHeight b ≠ 0 → InvalidateBlock address pindex n = (n1, inl true) →
  tip n = Some t → prev_n (index n) k t = Some h → above (index n) pindex h → index n1 !! h = Some b' →
  Z.land (nStatus b') BLOCK_FAILED_VALID ≠ 0.
Proof using Hnet CoinsViewOk0 Inj0 Hdag Hparams.
  intros Hr Hb Hh E Ht Hk Ha Hb'. pose proof (reachable_invalidate n pindex b t Hr Ht Hb Hh) as H. rewrite E in H.
  destruct H as (t' & Hiv & _). pose proof (iv_left _ _ _ _ _ _ Hiv k h b' Hk Ha Hb') as Hbit.
  intros H. apply (f_equal (λ z, Z.testbit z 5)) in H. unfold invalid_bit in Hbit. by rewrite Z.land_spec, Hbit in H.
Qed.

(** The number given to a precious block. *)
Definition next_reverse_id (p : Precious) n (t : Z) : Z :=
  if nLastPreciousChainwork p <? nChainWork (entry_at (index n) t) then -1 else nBlockReverseSequenceId p.

Lemma node_tip_complete n t :
  reachable n → tip n = Some t → ∃ u, complete (index n) t ∧ valid_chain (index n) t u.
Proof using Hnet CoinsViewOk0 Inj0.
  intros Hr Ht. destruct (running_inv _ _ _ _ _ _ _ _ _ _ _ _ _ _ _ Hnet n Hr) as [Hn _].
  pose proof (ni_ok _ _ _ _ _ _ _ _ _ _ _ _ _ _ _ _ _ Hn) as Hok. destruct (no_ledger _ _ _ Hok) as (u & Hu & _).
  rewrite Ht in Hu. exists u. split; [|done]. intros k a Ha. destruct (no_tip _ _ _ Hok t Ht) as [Hus _].
  destruct (Hus k a Ha) as (c & Hc & Hd & _). by exists c.
Qed.

Section chosen.
Context n (t0 pindex rev : Z) (b : CBlockIndex) (n2 : Node (Chainstate V)) (Hr : reachable n) (Ht0 : tip n = Some t0).
Context (Hb : index n !! pindex = Some b) (Hrev : ∀ h c, index n !! h = Some c → h ≠ pindex → rev < nSequenceId c).
Abbreviation st1 := (<[pindex := set_counts (nTx b) (m_chain_tx_count b) rev b]> (index n)).
Context (W : worse genesis st1 (index n2)) (Hok : node_ok address n2 (tip n2)) (Hset : settled address n2).

Lemma chosen_valid x v : complete (index n) x → valid_chain (index n) x v → usable (index n2) x.
Proof using Hnet CoinsViewOk0 Inj0 Hr Hb W.
  intros Hc Hx. destruct (running_inv _ _ _ _ _ _ _ _ _ _ _ _ _ _ _ Hnet n Hr) as [Hn _].
  pose proof (no_sane _ _ _ (ni_ok _ _ _ _ _ _ _ _ _ _ _ _ _ _ _ _ _ Hn)) as Hs. apply (ws_good _ _ _ W).
  - apply (precious_usable n pindex rev b Hb). by eapply valid_usable.
  - apply (good_links (index n)); [done|by apply (precious_links n pindex rev b)|by exists v].
Qed.

Lemma chosen_back x : usable (index n2) x → usable (index n) x.
Proof using Hb W.
  intros Hx. apply (precious_usable n pindex rev b Hb), (view_usable st1 (index n2)); [apply W|apply W|done].
Qed.

(** The block is the tip if it is not lighter than the old one. *)
Lemma chosen_precious t v :
  tip n2 = Some t → complete (index n) pindex → valid_chain (index n) pindex v → lighter (index n) pindex t0 = false → t = pindex.
Proof using Hnet CoinsViewOk0 Inj0 Hr Ht0 Hb Hrev W Hok Hset.
  intros Ht Hc Hv Hl. destruct (decide (t = pindex)) as [|Hne]; [done|exfalso].
  destruct (running_inv _ _ _ _ _ _ _ _ _ _ _ _ _ _ _ Hnet n Hr) as [_ Hs0].
  destruct (no_tip _ _ _ Hok t Ht) as [Hu _]. pose proof (chosen_back t Hu) as Hut.
  destruct (Hs0 t Hut) as (t1 & Ht1 & Hle). assert (t1 = t0) as -> by congruence.
  destruct (Hset pindex (chosen_valid _ _ Hc Hv)) as (t' & Ht' & Hle1). assert (t' = t) as -> by congruence.
  rewrite <- (view_less address st1) in Hle1 by apply W. destruct (usable_here _ _ Hut) as (c & Hct & _).
  rewrite (precious_above address n pindex rev b Hb Hrev) in Hle1; [|by eexists|done].
  apply orb_false_iff in Hle1 as [_ Hle1%negb_false_iff]. apply not_true_iff_false in Hle. apply Hle, work_less_true.
  unfold lighter in *. rewrite orb_true_iff, andb_true_iff in Hle1. rewrite orb_false_iff, andb_false_iff in Hl. cbv zeta. lia.
Qed.

Lemma chosen_best :
  ∃ t u, tip n2 = Some t ∧ valid_chain (index n) t u ∧ refines (CoinsTip (node_ledger n2)) (mkUTXO u t) ∧
    (∀ x v, complete (index n) x → valid_chain (index n) x v → lighter (index n) t x = false) ∧
    (∀ v, complete (index n) pindex → valid_chain (index n) pindex v → lighter (index n) pindex t0 = false → t = pindex).
Proof using Hnet CoinsViewOk0 Inj0 Hr Ht0 Hb Hrev W Hok Hset.
  destruct (node_tip_complete n t0 Hr Ht0) as (u0 & Hc0 & Hu0). destruct (Hset t0 (chosen_valid _ _ Hc0 Hu0)) as (t & Ht & _).
  destruct (no_ledger _ _ _ Hok) as (u & Hu & R & _). rewrite Ht in Hu, R. exists t, u.
  destruct (running_inv _ _ _ _ _ _ _ _ _ _ _ _ _ _ _ Hnet n Hr) as [Hn Hs0].
  pose proof (no_sane _ _ _ (ni_ok _ _ _ _ _ _ _ _ _ _ _ _ _ _ _ _ _ Hn)) as Hs. split_and!; [done| |done| |].
  - eapply (valid_extends _ _ _ _ _ _ _ _ _ _ Hnet (index n2)); [apply (no_sane _ _ _ Hok)|apply Hs| |done].
    apply links_extends. rewrite (precious_links n pindex rev b Hb). symmetry. apply view_links, W.
  - intros x v Hc Hx. destruct (Hset x (chosen_valid _ _ Hc Hx)) as (t' & Ht' & Hle). assert (t' = t) as -> by congruence.
    rewrite <- (view_less address st1) in Hle by apply W. rewrite <- (precious_lighter n pindex rev b Hb).
    by apply (not_less_lighter address).
  - intros v. by apply chosen_precious.
Qed.
End chosen.

(** C16. A precious block is treated as if it had arrived before all others.  [PreciousBlock] on a
    running node in DAG mode fails no assertion, comes to an end, and stops the node only if
    the machine fails.  The node is then on a valid block, with exactly the coins of the chain
    to it, and no valid block with the data of all its ancestors has more work, or the same
    work and more blue work; and if the precious block is valid, has the data of all its
    ancestors and is in work and blue work what the old tip was, it is the new tip.  The
    hypothesis says that the next number, which is below zero, is below those of the other
    blocks. *)
Theorem precious_block_chosen n pindex b t0 p :
  reachable n → tip n = Some t0 → index n !! pindex = Some b →
  (∀ h c, index n !! h = Some c → h ≠ pindex → next_reverse_id p n t0 < nSequenceId c) →
  match PreciousBlock address (enough_rounds (node_cm n)) (λ b, GetHash SHA256d (blk_header b)) pindex p n with
  | (_, inr OutOfFuel) => False
  | (_, inr (Stopped f)) => f = SystemError ∧ ¬ machine_ok
  | (n', inl _) => ∃ t u,
      tip n' = Some t ∧ valid_chain (index n) t u ∧ refines (CoinsTip (node_ledger n')) (mkUTXO u t) ∧
      (∀ x v, complete (index n) x → valid_chain (index n) x v → lighter (index n) t x = false) ∧
      (∀ v, complete (index n) pindex → valid_chain (index n) pindex v → lighter (index n) pindex t0 = false → t = pindex)
  end.
Proof using Hnet CoinsViewOk0 Inj0 Hdag Hparams.
  intros Hr Ht Hb Hrev. destruct (running_inv _ _ _ _ _ _ _ _ _ _ _ _ _ _ _ Hnet n Hr) as [Hn Hs].
  pose proof (reachable_guarded _ _ _ _ _ _ _ _ _ _ _ _ _ _ _ Hnet Hdag Hparams n Hr) as Hg.
  pose proof (ni_link _ _ _ _ _ _ _ _ _ _ _ _ _ _ _ _ _ Hn) as Hl. pose proof (ni_ok _ _ _ _ _ _ _ _ _ _ _ _ _ _ _ _ _ Hn) as Hok.
  unfold PreciousBlock, make_precious. rewrite Hb, Ht. cbn [mbind option_bind]. fold (next_reverse_id p n t0).
  assert (Hen : entry_at (index n) pindex = b) by (unfold entry_at; by rewrite Hb).
  destruct (Z.ltb_spec (nChainWork b) (nChainWork (entry_at (index n) t0))) as [Hlt|_].
  - destruct (no_ledger _ _ _ Hok) as (u & Hu & R & _). rewrite Ht in Hu, R. exists t0, u. split_and!; [done..| |].
    + intros x v Hc Hx. destruct (Hs x) as (t & Ht' & Hle); [by eapply valid_usable|]. assert (t = t0) as -> by congruence.
      by apply (not_less_lighter address).
    + intros v _ _ Hli. exfalso. unfold lighter in Hli. rewrite Hen in Hli. apply orb_false_iff in Hli as [Hli _]. lia.
  - destruct (precious_candidates address n t0 pindex (next_reverse_id p n t0) b Hok Ht Hb (linked_counted _ Hl) (usable_linked _ Hl)
      (gd_level _ Hg) Hrev) as (cs & -> & Hok1). cbn [mbind option_bind]. unfold mthen. set (n1 := mkNode _ _).
    assert (Hsz : size (index n1) = size (index n)) by (apply map_size_insert_Some; by eexists).
    pose proof (ActivateBestChain_spec address (λ b, GetHash SHA256d (blk_header b)) None ltac:(done) (enough_rounds (node_cm n))
      n1 Hok1) as H. destruct (ActivateBestChain _ _ _ _ n1) as [n2 [[]|[f|]]];
      [|by apply H; rewrite Hsz..]. destruct H as (W & Hok2 & Hset); [by rewrite Hsz|].
    by apply (chosen_best n t0 pindex (next_reverse_id p n t0) b n2).
Qed.
End commands.
