(* ===== verification/Reconsider.v ===== *)
(** * What [ResetBlockFailureFlags] does

    The command behind reconsiderblock, exactly: which marks it clears and which blocks it
    makes candidates for the tip.  The two are not the same blocks. *)

From S2P Require Import Prelude OrdSet TipSet Arith256 Serialize BlockHeader Ghostdag BlockIndex Replay Chainman Operator OperatorProps.

Local Open Scope Z_scope.

(** An entry without the marks of a failure. *)
Definition unfailed (b : CBlockIndex) : CBlockIndex := set_nStatus (Z.ldiff (nStatus b) BLOCK_FAILED_MASK) b.

Lemma unfailed_same b : IsFailed b = false → unfailed b = b.
Proof.
  unfold IsFailed, unfailed. intros H%negb_false_iff%Z.eqb_eq.
  replace (Z.ldiff (nStatus b) BLOCK_FAILED_MASK) with (nStatus b); [by destruct b|].
  apply Z.bits_inj'. intros i Hi. apply (f_equal (λ z, Z.testbit z i)) in H.
  rewrite Z.land_spec, Z.bits_0 in H. rewrite Z.ldiff_spec. destruct (Z.testbit (nStatus b) i); simpl in *; [by rewrite H|done].
Qed.

Lemma unfailed_ok b : IsFailed (unfailed b) = false.
Proof.
  unfold IsFailed, unfailed. simpl. apply negb_false_iff, Z.eqb_eq, Z.bits_inj'. intros i Hi.
  rewrite Z.land_spec, Z.ldiff_spec, Z.bits_0. destruct (Z.testbit BLOCK_FAILED_MASK i); simpl; [|by rewrite andb_false_r].
  by rewrite andb_false_r.
Qed.

Lemma unfailed_twice b : unfailed (unfailed b) = unfailed b.
Proof. apply unfailed_same, unfailed_ok. Qed.

Lemma unfail_lookup st h x : unfail st h !! x = if decide (x = h) then unfailed <$> st !! x else st !! x.
Proof.
  unfold unfail. destruct (st !! h) as [b|] eqn:E; destruct (decide (x = h)) as [->|]; rewrite ?E; try done.
  - by rewrite lookup_insert_eq.
  - by rewrite lookup_insert_ne.
Qed.

Lemma unfail_view {A} (f : CBlockIndex → A) st h : (∀ b, f (unfailed b) = f b) → f <$> unfail st h = f <$> st.
Proof.
  intros Hf. apply map_eq. intros x. rewrite !lookup_fmap, unfail_lookup. destruct (decide (x = h)); [|done].
  destruct (st !! x); simpl; [by rewrite Hf|done].
Qed.

(** ** The block and its descendants *)

Lemma above_GetAncestor st pindex b h c :
  chain_ok st → st !! pindex = Some b → st !! h = Some c →
  GetAncestor st h (nHeight b) = Some pindex ↔ above st pindex h.
Proof.
  intros Hok Hb Hc. pose proof (ck_height _ Hok _ _ Hb) as H0. split.
  - intros H. destruct (decide (nHeight b <= nHeight c)).
    + rewrite (GetAncestor_prev_n _ _ c) in H by (done || lia). by eexists.
    + unfold GetAncestor in H. rewrite Hc, (proj2 (Z.ltb_lt _ _)) in H by lia. done.
  - intros [k Hk]. destruct (prev_n_le _ _ Hok _ _ _ Hc Hk) as (Hle & b' & Hb' & Hh).
    assert (b' = b) as -> by congruence. rewrite (GetAncestor_prev_n _ _ c) by (done || lia).
    by replace (Z.to_nat (nHeight c - nHeight b)) with k by lia.
Qed.

Section reset.
Context (address : Z → Z) `{!Inj (=) (=) address}.
Abbreviation less := (work_less address).
Implicit Types (cm : ChainstateManager) (st : BlockMap).

Context (t pindex height : Z).

(** The entries that become candidates. *)
Definition joins st h : Prop :=
  ∃ c, st !! h = Some c ∧ IsValid c BLOCK_VALID_TRANSACTIONS = false ∧ above st pindex h ∧
    can_be_candidate (unfailed c) = true ∧ less st t h = true.

Record reset_ok cm : Prop := {
  ro_chain : chain_ok (m_block_index cm);
  ro_tip : Tip (m_chain cm) = Some t;
  ro_index : ∃ b, m_block_index cm !! pindex = Some b ∧ nHeight b = height
}.

(** What a part of the first loop does: [done] holds the entries it goes over. *)
Record reset_part (done : Z → Prop) cm cm' : Prop := {
  rp_ok : reset_ok cm';
  rp_reset x : done x → above (m_block_index cm) pindex x → m_block_index cm' !! x = unfailed <$> m_block_index cm !! x;
  rp_other x : ¬ (done x ∧ above (m_block_index cm) pindex x) → m_block_index cm' !! x = m_block_index cm !! x;
  rp_either x : m_block_index cm' !! x = m_block_index cm !! x ∨ m_block_index cm' !! x = unfailed <$> m_block_index cm !! x;
  rp_cands x : x ∈ setBlockIndexCandidates cm' ↔ x ∈ setBlockIndexCandidates cm ∨ done x ∧ joins (m_block_index cm) x
}.

Lemma unfail_ok cm h cm' :
  reset_ok cm → m_block_index cm' = unfail (m_block_index cm) h → m_chain cm' = m_chain cm → reset_ok cm'.
Proof using Type.
  intros [Hok Ht (b & Hb & Hh)] Hi Hc. split.
  - rewrite Hi. apply (chain_ok_links (m_block_index cm)); [|done]. symmetry. by apply unfail_view.
  - by rewrite Hc.
  - rewrite Hi, unfail_lookup, Hb. destruct (decide (pindex = h)); by eexists.
Qed.

Lemma unfail_less st h x y : less (unfail st h) x y = less st x y.
Proof using Type.
  apply work_less_keys; rewrite <- !lookup_fmap; f_equal; by apply unfail_view.
Qed.

Lemma reset_entry_spec cm h c :
  reset_ok cm → m_block_index cm !! h = Some c →
  ∃ cm', reset_entry address pindex height cm h = Some cm' ∧ reset_part (.= h) cm cm'.
Proof using Inj0.
  intros Hr Hc. pose proof Hr as [Hok Ht (b & Hb & <-)].
  pose proof (above_GetAncestor _ _ _ _ _ Hok Hb Hc) as Ha. unfold reset_entry. rewrite Hc.
  destruct (negb _ && _) eqn:Eg.
  - apply andb_true_iff in Eg as [Ev%negb_true_iff Eg%bool_decide_eq_true]. apply Ha in Eg.
    set (st' := unfail (m_block_index cm) h).
    assert (He : entry_at st' h = unfailed c).
    { unfold entry_at, st'. by rewrite unfail_lookup, decide_True, Hc by done. }
    assert (Hpart : ∀ cm', m_block_index cm' = st' → m_chain cm' = m_chain cm →
      (∀ x, x ∈ setBlockIndexCandidates cm' ↔ x ∈ setBlockIndexCandidates cm ∨ x = h ∧
        can_be_candidate (unfailed c) = true ∧ less (m_block_index cm) t h = true) → reset_part (.= h) cm cm').
    { intros cm' Hi Hch Hcd. split; [by apply (unfail_ok cm h)|..].
      - intros x -> _. rewrite Hi. unfold st'. by rewrite (unfail_lookup _ h h), decide_True.
      - intros x Hx. rewrite Hi. unfold st'. rewrite unfail_lookup. destruct (decide (x = h)) as [->|]; [|done].
        by destruct Hx.
      - intros x. rewrite Hi. unfold st'. rewrite unfail_lookup. destruct (decide (x = h)); auto.
      - intros x. rewrite Hcd. unfold joins. split; (intros [?|[-> Hj]]; [by left|right]); split; try done.
        + by exists c.
        + destruct Hj as (c' & Hc' & _ & _ & Hj). assert (c' = c) as -> by congruence. done. }
    rewrite Ht, He. cbn [mbind option_bind].
    assert (Hless : less st' t h = less (m_block_index cm) t h) by apply unfail_less.
    destruct (can_be_candidate (unfailed c)); [destruct (less st' t h) eqn:El|]; cbn [mbind option_bind];
      (eexists; split; [done|]; apply Hpart; [by case_bool_decide..|]); intros x;
      (case_bool_decide; simpl; rewrite ?(elem_of_set_emplace (less st')), <- ?Hless; naive_solver).
  - exists cm. split; [done|]. split; [done|..].
    + intros x -> Hx. apply Ha in Hx. rewrite Hx, bool_decide_eq_true_2, andb_true_r in Eg by done.
      apply negb_false_iff in Eg. rewrite Hc. simpl. rewrite unfailed_same; [done|].
      unfold IsValid in Eg. by destruct (IsFailed c).
    + done.
    + by left.
    + intros x. split; [by left|]. intros [?|[-> (c' & Hc' & Hv & Hx & _)]]; [done|]. assert (c' = c) as -> by congruence.
      apply Ha in Hx. by rewrite Hx, Hv, bool_decide_eq_true_2 in Eg.
Qed.

Lemma reset_part_view {A} (f : CBlockIndex → A) D cm cm' :
  (∀ b, f (unfailed b) = f b) → reset_part D cm cm' → f <$> m_block_index cm = f <$> m_block_index cm'.
Proof using Type.
  intros Hf Hp. apply map_eq. intros x. rewrite !lookup_fmap.
  destruct (rp_either _ _ _ Hp x) as [->| ->]; [done|]. destruct (m_block_index cm !! x); simpl; [by rewrite Hf|done].
Qed.

Lemma reset_part_above D cm cm' x y :
  reset_part D cm cm' → above (m_block_index cm) x y ↔ above (m_block_index cm') x y.
Proof using Type.
  intros Hp. pose proof (reset_part_view links D cm cm' (λ _, eq_refl) Hp) as Hl.
  unfold above. by setoid_rewrite (prev_n_links _ _ _ Hl).
Qed.

Lemma reset_part_joins D cm cm' x :
  reset_part D cm cm' → ¬ D x → joins (m_block_index cm) x ↔ joins (m_block_index cm') x.
Proof using Type.
  intros Hp Hx. unfold joins. rewrite (rp_other _ _ _ Hp x) by naive_solver.
  setoid_rewrite (reset_part_above D cm cm' pindex x Hp).
  rewrite (work_less_keys address (m_block_index cm) (m_block_index cm') t x); [done|..];
    rewrite <- !lookup_fmap; by rewrite (reset_part_view sort_key D cm cm' (λ _, eq_refl) Hp).
Qed.

Lemma reset_part_trans D E F cm1 cm2 cm3 :
  reset_part D cm1 cm2 → reset_part E cm2 cm3 → (∀ x, D x → ¬ E x) → (∀ x, F x ↔ D x ∨ E x) → reset_part F cm1 cm3.
Proof using Type.
  intros HD HE Hdis HF.
  assert (Hab : ∀ x, above (m_block_index cm1) pindex x ↔ above (m_block_index cm2) pindex x)
    by (intros x; by eapply reset_part_above).
  split; [apply HE|..].
  - intros x [Hx|Hx]%HF Ha.
    + rewrite (rp_other _ _ _ HE) by naive_solver. by apply (rp_reset _ _ _ HD).
    + rewrite (rp_reset _ _ _ HE) by naive_solver. rewrite (rp_other _ _ _ HD); [done|naive_solver].
  - intros x Hx. rewrite HF in Hx. rewrite (rp_other _ _ _ HE) by naive_solver. apply (rp_other _ _ _ HD). naive_solver.
  - intros x. destruct (rp_either _ _ _ HD x) as [H1|H1], (rp_either _ _ _ HE x) as [H2|H2]; rewrite H2, H1; auto.
    right. destruct (m_block_index cm1 !! x); simpl; [by rewrite unfailed_twice|done].
  - intros x. rewrite (rp_cands _ _ _ HE), (rp_cands _ _ _ HD), HF.
    pose proof (reset_part_joins D cm1 cm2 x HD). naive_solver.
Qed.

Lemma reset_descendants_spec hs : NoDup hs → ∀ cm,
  reset_ok cm → (∀ h, h ∈ hs → is_Some (m_block_index cm !! h)) →
  ∃ cm', reset_descendants address pindex height hs cm = Some cm' ∧ reset_part (.∈ hs) cm cm'.
Proof using Inj0.
  induction 1 as [|h hs Hh _ IH]; intros cm Hr Hk; simpl.
  - exists cm. split; [done|]. split; [done|..]; try done; [intros x Hx; by apply elem_of_nil in Hx|by left|].
    intros x. split; [by left|]. intros [?|[Hx _]]; [done|]. by apply elem_of_nil in Hx.
  - destruct (Hk h) as [c Hc]; [by left|]. destruct (reset_entry_spec cm h c Hr Hc) as (cm1 & -> & H1). simpl.
    destruct (IH cm1) as (cm2 & -> & H2); [apply H1| |].
    + intros x Hx. rewrite (rp_other _ _ _ H1); [apply Hk; by right|]. by intros [-> _].
    + exists cm2. split; [done|]. apply (reset_part_trans (.= h) (.∈ hs) _ cm cm1 cm2 H1 H2); [by intros x ->|].
      intros x. apply elem_of_cons.
Qed.
End reset.

(** ** The ancestors *)

Lemma above_antisym st x y c : chain_ok st → st !! y = Some c → above st x y → above st y x → x = y.
Proof.
  intros Hok Hc [k Hk] [j Hj]. destruct (prev_n_le _ _ Hok _ _ _ Hc Hk) as (_ & d & Hd & E1).
  destruct (prev_n_le _ _ Hok _ _ _ Hd Hj) as (_ & c' & Hc' & E2). assert (c' = c) as -> by congruence.
  assert (k = 0%nat) as -> by lia. by injection Hk.
Qed.

Lemma above_prev st x h c : st !! h = Some c → above st x h ↔ x = h ∨ ∃ p, pprev c = Some p ∧ above st x p.
Proof.
  intros Hc. split.
  - intros [[|k] Hk]; [left; by injection Hk|right]. simpl in Hk. rewrite Hc in Hk. simpl in Hk.
    destruct (pprev c) as [p|]; [|done]. exists p. split; [done|by exists k].
  - intros [->|(p & Hp & k & Hk)]; [by exists 0%nat|]. exists (S k). simpl. by rewrite Hc; simpl; rewrite Hp.
Qed.

Lemma unfail_above st h x y : above (unfail st h) x y ↔ above st x y.
Proof. unfold above. by setoid_rewrite (prev_n_links _ _ _ (unfail_view links st h (λ _, eq_refl))). Qed.

Lemma reset_ancestors_spec fuel : ∀ (cm : ChainstateManager) h c,
  chain_ok (m_block_index cm) → m_block_index cm !! h = Some c → nHeight c < Z.of_nat fuel →
  let cm' := reset_ancestors fuel (Some h) cm in
  setBlockIndexCandidates cm' = setBlockIndexCandidates cm ∧
  (∀ x, above (m_block_index cm) x h → m_block_index cm' !! x = unfailed <$> m_block_index cm !! x) ∧
  (∀ x, ¬ above (m_block_index cm) x h → m_block_index cm' !! x = m_block_index cm !! x).
Proof.
  induction fuel as [|fuel IH]; intros cm h c Hok Hc Hf; [pose proof (ck_height _ Hok _ _ Hc); lia|]. cbv zeta.
  cbn [reset_ancestors]. rewrite Hc. set (cm1 := if IsFailed c then _ else _).
  assert (Hcd : setBlockIndexCandidates cm1 = setBlockIndexCandidates cm) by (unfold cm1; by destruct (IsFailed c)).
  assert (Hi : m_block_index cm1 = unfail (m_block_index cm) h).
  { unfold cm1. destruct (IsFailed c) eqn:E; [done|]. unfold unfail. rewrite Hc. fold (unfailed c).
    by rewrite unfailed_same, insert_id. }
  assert (Hok1 : chain_ok (m_block_index cm1)).
  { rewrite Hi. apply (chain_ok_links (m_block_index cm)); [|done]. symmetry. by apply unfail_view. }
  setoid_rewrite (above_prev _ _ h c Hc). destruct (pprev c) as [p|] eqn:Hp.
  - destruct (ck_prev _ Hok _ _ _ Hc Hp) as (d & Hd & Hh). rewrite <- Hcd.
    assert (Hne : p ≠ h) by (intros ->; assert (d = c) by congruence; subst; lia).
    assert (Hd1 : m_block_index cm1 !! p = Some d) by (by rewrite Hi, unfail_lookup, decide_False).
    destruct (IH cm1 p d Hok1 Hd1) as (-> & H2 & H3); [lia|]. rewrite Hi in H2, H3. split; [done|].
    assert (Hhp : ¬ above (m_block_index cm) h p).
    { intros [k Hk]. destruct (prev_n_le _ _ Hok _ _ _ Hd Hk) as (_ & c' & Hc' & E). assert (c' = c) as -> by congruence. lia. }
    setoid_rewrite unfail_above in H2. setoid_rewrite unfail_above in H3.
    split; intros x Hx.
    + destruct Hx as [->|(p' & [= <-] & Hx)].
      * rewrite (H3 h Hhp), unfail_lookup. by rewrite decide_True.
      * rewrite (H2 x Hx), unfail_lookup. rewrite decide_False; [done|]. by intros ->.
    + rewrite H3, unfail_lookup, decide_False by naive_solver. done.
  - assert (reset_ancestors fuel None cm1 = cm1) as -> by (by destruct fuel). rewrite Hi. split; [done|].
    split; intros x Hx; rewrite unfail_lookup.
    + destruct Hx as [->|(? & ? & _)]; [by rewrite decide_True|done].
    + rewrite decide_False; [done|]. intros ->. apply Hx. by left.
Qed.

(** C35. Reconsidering a known block, exactly, on a node that has a tip and whose entries
    have well-formed chains of ancestors.  The marks of a failure are cleared on the block, its
    descendants and its ancestors, and on no other block.  Candidates for the tip are only
    added at or above the block: the blocks there that did not count as valid and, once
    unmarked, have their transactions counted and are better than the tip.  So an ancestor
    of the block is a candidate afterwards only if it was one before, although its mark is
    cleared and however much work it has; the help of reconsiderblock says that the
    ancestors are reconsidered for activation too. *)
Theorem reconsidered_exact (address : Z → Z) `{!Inj (=) (=) address} cm pindex b t :
  let st := m_block_index cm in
  chain_ok st → Tip (m_chain cm) = Some t → st !! pindex = Some b →
  ∃ cm', ResetBlockFailureFlags address cm pindex = Some cm' ∧
    (∀ x, above st pindex x ∨ above st x pindex → m_block_index cm' !! x = unfailed <$> st !! x) ∧
    (∀ x, ¬ (above st pindex x ∨ above st x pindex) → m_block_index cm' !! x = st !! x) ∧
    (∀ x, x ∈ setBlockIndexCandidates cm' ↔ x ∈ setBlockIndexCandidates cm ∨ joins address t pindex st x) ∧
    (∀ a, above st a pindex → a ≠ pindex → a ∈ setBlockIndexCandidates cm' ↔ a ∈ setBlockIndexCandidates cm).
Proof.
  intros st Hok Ht Hb. unfold ResetBlockFailureFlags. fold st. rewrite Hb. cbn [mbind option_bind].
  assert (Hr : reset_ok t pindex (nHeight b) cm) by (split; [done..|by exists b]).
  destruct (reset_descendants_spec address t pindex (nHeight b) (map_to_list st).*1 (NoDup_fst_map_to_list st) cm Hr)
    as (cm1 & -> & H1).
  { intros h ((h' & c) & -> & Hc%elem_of_map_to_list)%list_elem_of_fmap. by exists c. }
  eexists. split; [done|].
  assert (Hab : ∀ x y, above st x y ↔ above (m_block_index cm1) x y) by (intros; by eapply reset_part_above).
  assert (Hkeys : ∀ x, is_Some (st !! x) → x ∈ (map_to_list st).*1).
  { intros x [c Hc]. apply list_elem_of_fmap. exists (x, c). by rewrite elem_of_map_to_list. }
  assert (Hdesc : ∀ x, above st pindex x → m_block_index cm1 !! x = unfailed <$> st !! x).
  { intros x Hx. apply (rp_reset _ _ _ _ _ _ _ H1); [|done]. apply Hkeys. destruct Hx as [[|k] Hk]; [|].
    - injection Hk as ->. by exists b.
    - simpl in Hk. destruct (st !! x); [by eexists|done]. }
  assert (Hb1 : m_block_index cm1 !! pindex = Some (unfailed b)) by (rewrite Hdesc, Hb; [done|by exists 0%nat]).
  destruct (reset_ancestors_spec (S (Z.to_nat (nHeight b))) cm1 pindex (unfailed b)) as (-> & H2 & H3);
    [apply H1|done|simpl; pose proof (ck_height _ Hok _ _ Hb); lia|].
  assert (Hcands : ∀ x, x ∈ setBlockIndexCandidates cm1 ↔ x ∈ setBlockIndexCandidates cm ∨ joins address t pindex st x).
  { intros x. rewrite (rp_cands _ _ _ _ _ _ _ H1). split; [naive_solver|]. intros [?|Hj]; [by left|right].
    split; [|done]. destruct Hj as (c & Hc & _). apply Hkeys. by exists c. }
  split_and!; [| |done|].
  - intros x Hx. destruct (decide (x = pindex)) as [->|Hne].
    { rewrite H2 by (apply Hab; by exists 0%nat). by rewrite Hb1, Hb; simpl; rewrite unfailed_twice. }
    destruct Hx as [Hx|Hx].
    + rewrite H3, Hdesc; [done..|]. rewrite <- Hab. intros Hx'. by apply Hne, (above_antisym st x pindex b).
    + rewrite H2 by (by apply Hab). rewrite (rp_other _ _ _ _ _ _ _ H1); [done|].
      intros [_ Hx']. by apply Hne, (above_antisym st x pindex b).
  - intros x Hx. rewrite H3 by (rewrite <- Hab; naive_solver). apply (rp_other _ _ _ _ _ _ _ H1). naive_solver.
  - intros a Ha Hne. rewrite Hcands. split; [|by left]. intros [?|(c & _ & _ & Hx & _)]; [done|].
    destruct Hne. by apply (above_antisym st a pindex b).
Qed.
