(* ===== verification/OperatorExample.v ===== *)
(** * The operator's commands on the node of ProcessExample.v

    Runs in which a block is declared invalid, reconsidered or made precious.  They show that
    the hypotheses of the theorems in OperatorProps.v and Reconsider.v hold together, and
    that a node does not go back to the reconsidered ancestor of a block. *)

From Stdlib Require Import String.
From stdpp Require Import gmap.
From S2P Require Import Prelude OrdSet TipSet Arith256 Serialize BlockHeader Ghostdag BlockIndex Pow Subsidy.
From S2P Require Import EarlyProtection Transaction Script Merkle Chainman Accept BlockCheck BlockCheckProps Coins CoinsDB.
From S2P Require Import Connect ConnectSim ConnectProps Replay ConnectTotal Candidates AcceptProps.
From S2P Require Import Activation ActivationProps Linking Guards Chainstate ChainstateProps Process ProcessProps.
From S2P Require Import ProcessExample Operator OperatorProps Reconsider.

Local Open Scope Z_scope.

#[local] Existing Instances run_view run_view_ok run_ops.

Abbreviation run_invalidate h := (InvalidateBlock (L := Chainstate CCoinsViewDB) id h).

(** The command and the choice of the chain that follows it. *)
Definition run_command (command : run_node → option run_node) (n : option run_node) : option run_node :=
  n ← n; n ← command n; finished (run_activate n).

Definition run_invalidated (h : Z) (n : run_node) : option run_node :=
  match run_invalidate h n with (n', inl true) => Some n' | _ => None end.

Definition run_reconsidered (h : Z) (n : run_node) : option run_node :=
  (λ cm, mkNode cm (node_ledger n)) <$> ResetBlockFailureFlags id (node_cm n) h.

Definition run_tip (n : run_node) : option Z := Tip (m_chain (node_cm n)).

Definition run_child : list arrival := [Body block_c1; Header block_c2].

Definition reconsider_run (h : Z) : option run_node :=
  run_command (run_reconsidered h) (run_command (run_invalidated (run_hash block_c1)) (run_state run_child)).

(** After the tip is declared invalid, reconsidering a child of it of which only the header
    is known clears the mark of the old tip, and the node stays on the parent of a block that
    is usable and better.  Reconsidering the old tip itself brings the node back to it. *)
Example reconsidered_parent_left :
  run_tip <$> reconsider_run (run_hash block_c1) = Some (Some (run_hash block_c1)) ∧
  (λ n, (run_tip n, (λ b, (IsFailed b, has_data b, m_chain_tx_count b)) <$> (m_block_index (node_cm n) !! run_hash block_c1),
         work_less id (m_block_index (node_cm n)) run_genesis_hash (run_hash block_c1),
         setBlockIndexCandidates (node_cm n))) <$> reconsider_run (run_hash block_c2) =
    Some (Some run_genesis_hash, Some (false, true, 2), true, [run_genesis_hash]).
Proof. vm_compute. done. Qed.

(** The node of ProcessExample.v is told that the first block of its chain is not valid; it
    goes back to the chain it had left. *)
Definition run_end : option run_node := run_state (run_before ++ run_after).

Lemma run_invalidates :
  (λ n : run_node,
     (run_tip n, nHeight <$> (m_block_index (node_cm n) !! run_hash block_c1),
      prev_n (m_block_index (node_cm n)) 1 (run_hash block_c2),
      let n1 := (run_invalidate (run_hash block_c1) n).1 in
      ((run_invalidate (run_hash block_c1) n).2, bool_decide (is_Some (m_block_index (node_cm n1) !! run_hash block_c2)),
       run_tip (run_activate n1).1, (run_activate n1).2))) <$> run_end =
  Some (Some (run_hash block_c2), Some 1, Some (run_hash block_c1), (inl true, true, Some (run_hash block_a1), inl tt)).
Proof. vm_compute. reflexivity. Qed.

(** The state in which the child is reconsidered. *)
Lemma run_child_arrived : Forall (λ a, arrived a ∈ run_blocks) run_child.
Proof. repeat (apply Forall_cons; split; [cbn [arrived]; unfold run_blocks; repeat constructor|]). by apply Forall_nil. Qed.

Lemma run_child_facts :
  (λ n : run_node,
     (run_tip n, nHeight <$> (m_block_index (node_cm n) !! run_hash block_c1),
      let '(n1, r) := run_invalidate (run_hash block_c1) n in
      let st := m_block_index (node_cm n1) in
      (r, run_tip n1, bool_decide (is_Some (st !! run_hash block_c2)), prev_n st 1 (run_hash block_c2),
       IsFailed <$> (st !! run_hash block_c1), bool_decide (run_hash block_c1 ∉ setBlockIndexCandidates (node_cm n1)))))
    <$> run_state run_child =
  Some (Some (run_hash block_c1), Some 1, (inl true, Some run_genesis_hash, true, Some (run_hash block_c1), Some true, true)).
Proof. vm_compute. reflexivity. Qed.

#[local] Opaque InvalidateBlock GetHash.

Lemma invalidated_chain_left_witness :
  ∃ n n1 n2 u, run_reachable n ∧ run_invalidate (run_hash block_c1) n = (n1, inl true) ∧ run_activate n1 = (n2, inl tt) ∧
    run_tip n2 = Some (run_hash block_a1) ∧
    refines_for (λ h, h ≠ 0) (CoinsTip (node_ledger n2)) (mkUTXO u (run_hash block_a1)).
Proof.
  pose proof run_invalidates as E. apply fmap_Some in E as (n & En & E). symmetry in E.
  apply pair_equal_spec in E as [E Ei]. apply pair_equal_spec in E as [E _]. apply pair_equal_spec in E as [_ Eh].
  pose proof (run_state_reachable _ _ run_arrived En) as Hr. clear En. apply fmap_Some in Eh as (b & Hb & Eh).
  assert (Hh : nHeight b ≠ 0) by (rewrite <- Eh; discriminate).
  pose proof (invalidated_chain_left small_hash CQbtcTestNetParams example_bparams run_cparams example_options
    (λ _ _, true) (λ _ _ _ _, None) (λ _, true) false run_read (λ _ _, true) run_env 1000000 1000000 id
    run_network eq_refl testnet_retarget n (run_hash block_c1) b Hr Hb Hh) as H.
  exists n. destruct (run_invalidate (run_hash block_c1) n) as [n1 r]. cbn [fst snd] in Ei.
  apply pair_equal_spec in Ei as [Ei Er2]. apply pair_equal_spec in Ei as [Ei Et]. apply pair_equal_spec in Ei as [Er _].
  rewrite Er in H |- *. clear Er r. exists n1. destruct (run_activate n1) as [n2 r]. cbn [fst snd] in Et, Er2.
  rewrite Er2 in H |- *. destruct H as (t & u & Ht & _ & _ & R & _). exists n2, u.
  unfold run_tip in Et. rewrite Et in Ht. apply (inj Some) in Ht. rewrite <- Ht in R.
  exact (conj Hr (conj eq_refl (conj eq_refl (conj Et R)))).
Defined.

Lemma disconnected_marked_failed_witness :
  ∃ n n1 b', run_reachable n ∧ run_invalidate (run_hash block_c1) n = (n1, inl true) ∧
    m_block_index (node_cm n1) !! run_hash block_c2 = Some b' ∧ Z.land (nStatus b') BLOCK_FAILED_VALID ≠ 0.
Proof.
  pose proof run_invalidates as E. apply fmap_Some in E as (n & En & E). symmetry in E.
  apply pair_equal_spec in E as [E Ei]. apply pair_equal_spec in E as [E Ep]. apply pair_equal_spec in E as [Et Eh].
  pose proof (run_state_reachable _ _ run_arrived En) as Hr. clear En. apply fmap_Some in Eh as (b & Hb & Eh).
  assert (Hh : nHeight b ≠ 0) by (rewrite <- Eh; discriminate).
  apply pair_equal_spec in Ei as [Ei _]. apply pair_equal_spec in Ei as [Ei _]. apply pair_equal_spec in Ei as [Er Es].
  destruct (run_invalidate (run_hash block_c1) n) as [n1 r] eqn:E. cbn [fst snd] in Er, Es. rewrite Er in E.
  apply bool_decide_eq_true in Es as [b' Hb']. exists n, n1, b'.
  exact (conj Hr (conj E (conj Hb' (disconnected_marked_failed small_hash CQbtcTestNetParams example_bparams run_cparams
    example_options (λ _ _, true) (λ _ _ _ _, None) (λ _, true) false run_read (λ _ _, true) run_env 1000000 1000000 id
    run_network eq_refl testnet_retarget n n1 (run_hash block_c1) b (run_hash block_c2) 0 (run_hash block_c2) b' Hr Hb Hh E Et
    eq_refl (ex_intro _ 1%nat Ep) Hb')))).
Defined.

Lemma reconsidered_exact_witness :
  ∃ n n1 cm, run_reachable n ∧ run_invalidate (run_hash block_c1) n = (n1, inl true) ∧
    IsFailed <$> (m_block_index (node_cm n1) !! run_hash block_c1) = Some true ∧
    ResetBlockFailureFlags id (node_cm n1) (run_hash block_c2) = Some cm ∧
    IsFailed <$> (m_block_index cm !! run_hash block_c1) = Some false ∧
    run_hash block_c1 ∉ setBlockIndexCandidates cm.
Proof.
  pose proof run_child_facts as E. apply fmap_Some in E as (n & En & E). symmetry in E.
  apply pair_equal_spec in E as [E Ei]. apply pair_equal_spec in E as [Et Eh].
  pose proof (run_state_reachable _ _ run_child_arrived En) as Hr. clear En. apply fmap_Some in Eh as (b & Hb & Eh).
  assert (Hh : nHeight b ≠ 0) by (rewrite <- Eh; discriminate).
  pose proof (reachable_invalidate small_hash CQbtcTestNetParams example_bparams run_cparams
    example_options (λ _ _, true) (λ _ _ _ _, None) (λ _, true) false run_read (λ _ _, true) run_env 1000000 1000000 id
    run_network eq_refl testnet_retarget n (run_hash block_c1) b _ Hr Et Hb Hh) as H.
  destruct (run_invalidate (run_hash block_c1) n) as [n1 r] eqn:E1. cbn [fst snd] in Ei.
  apply pair_equal_spec in Ei as [Ei Ec]. apply pair_equal_spec in Ei as [Ei Ef]. apply pair_equal_spec in Ei as [Ei Ep].
  apply pair_equal_spec in Ei as [Ei Es]. apply pair_equal_spec in Ei as [Er Et1]. rewrite Er in H. destruct H as (t1 & Hiv & _).
  apply bool_decide_eq_true in Es as [b2 Hb2]. apply bool_decide_eq_true in Ec.
  destruct (reconsidered_exact id (node_cm n1) (run_hash block_c2) b2 run_genesis_hash
    (sn_chain _ _ (no_sane _ _ _ (iv_ok _ _ _ _ _ _ Hiv))) Et1 Hb2) as (cm & Hcm & Hmark & _ & _ & Hc).
  exists n, n1, cm. split; [exact Hr|]. split; [rewrite <- Er; exact E1|]. split; [exact Ef|]. split; [exact Hcm|].
  assert (Ha : above (m_block_index (node_cm n1)) (run_hash block_c1) (run_hash block_c2)) by (exists 1%nat; exact Ep).
  split.
  - rewrite (Hmark _ (or_intror Ha)). apply fmap_Some in Ef as (c & Hc1 & _). rewrite Hc1. cbn. by rewrite unfailed_ok.
  - intros Hin. apply Ec, Hc; [exact Ha|vm_compute; discriminate|exact Hin].
Defined.

(** Of two blocks that are the same in work and blue work, the one that came second is made
    precious. *)
Definition run_two : list arrival := [Body block_a1; Body block_c1].
Definition run_precious : Precious := mkPrecious 0 (-1).

Lemma run_two_arrived : Forall (λ a, arrived a ∈ run_blocks) run_two.
Proof. repeat (apply Forall_cons; split; [cbn [arrived]; unfold run_blocks; repeat constructor|]). by apply Forall_nil. Qed.

Abbreviation run_make_precious n := (PreciousBlock id (enough_rounds (node_cm n)) (λ b, run_hash b) (run_hash block_c1) run_precious n).

Lemma run_two_facts :
  (λ n : run_node,
     (run_tip n, bool_decide (is_Some (m_block_index (node_cm n) !! run_hash block_c1)),
      next_reverse_id run_precious n (run_hash block_a1),
      bool_decide (map_Forall (λ _ c, -1 < nSequenceId c) (m_block_index (node_cm n))),
      (run_tip (run_make_precious n).1, nLastPreciousChainwork <$> match (run_make_precious n).2 with inl p => Some p | inr _ => None end)))
    <$> run_state run_two =
  Some (Some (run_hash block_a1), true, -1, true, (Some (run_hash block_c1), Some 2097154)).
Proof. vm_compute. reflexivity. Qed.

#[local] Opaque PreciousBlock.

Lemma precious_block_chosen_witness :
  ∃ n n' p' u, run_reachable n ∧ run_tip n = Some (run_hash block_a1) ∧ run_make_precious n = (n', inl p') ∧
    run_tip n' = Some (run_hash block_c1) ∧ refines_for (λ h, h ≠ 0) (CoinsTip (node_ledger n')) (mkUTXO u (run_hash block_c1)).
Proof.
  pose proof run_two_facts as E. apply fmap_Some in E as (n & En & E). symmetry in E.
  apply pair_equal_spec in E as [E Ep]. apply pair_equal_spec in E as [E Es]. apply pair_equal_spec in E as [E Er].
  apply pair_equal_spec in E as [Et Eb]. apply bool_decide_eq_true in Eb as [b Hb]. apply bool_decide_eq_true in Es.
  pose proof (run_state_reachable _ _ run_two_arrived En) as Hr. clear En.
  assert (Hrev : ∀ h c, m_block_index (node_cm n) !! h = Some c → h ≠ run_hash block_c1 →
    next_reverse_id run_precious n (run_hash block_a1) < nSequenceId c) by (rewrite Er; intros h c Hc _; exact (Es h c Hc)).
  pose proof (precious_block_chosen small_hash CQbtcTestNetParams example_bparams run_cparams example_options
    (λ _ _, true) (λ _ _ _ _, None) (λ _, true) false run_read (λ _ _, true) run_env 1000000 1000000 id
    run_network eq_refl testnet_retarget n (run_hash block_c1) b (run_hash block_a1) run_precious Hr Et Hb Hrev) as H.
  exists n. apply pair_equal_spec in Ep as [Et' Ep]. destruct (run_make_precious n) as [n' [p'|]]; [|discriminate Ep].
  cbn [fst snd] in Et'. destruct H as (t & u & Ht & _ & R & _). exists n', p', u.
  unfold run_tip in Et'. rewrite Et' in Ht. apply (inj Some) in Ht. rewrite <- Ht in R.
  exact (conj Hr (conj Et (conj eq_refl (conj Et' R)))).
Defined.
