(* ===== verification/Htlc.v ===== *)
(** The EVM leg of the atomic swap: contract [QBTCUSDCHTLC] of
    src/contrib/evm-htlc/contracts/QBTCUSDCHTLC.sol.

    The contract's storage is a record; an external function is a function from the
    caller, the block timestamp and the world to a result or the error it reverts with
    (a revert leaves the world unchanged).  Values of the ABI types are [Z]; arithmetic
    is checked, as in Solidity 0.8.  The escrowed token and the hash built-ins are
    arguments; [ERC20Ok] states what the contract relies on of the token (a plain
    ERC-20: exact transfers, failures revert).  Modifier [nonReentrant] is the flag
    [entered]: a call that arrives while another is running reverts. *)

From S2P Require Import Prelude Serialize.

(** ** Data *)

Definition MIN_LOCKTIME : Z := 3600.

Record LockContract := mkLock {
  lc_sender : Z;
  lc_receiver : Z;
  lc_amount : Z;
  lc_hashlock : Z;
  lc_timelock : Z;
  lc_withdrawn : bool;
  lc_refunded : bool;
  lc_preimage : Z
}.

(** A record that was never written. *)
Definition zero_lock : LockContract := mkLock 0 0 0 0 0 false false 0.

Record Storage := mkStorage {
  entered : bool;
  nonces : gmap Z Z;
  contracts : gmap Z LockContract
}.

Inductive Event :=
  | HTLCInitiate (contractId sender receiver amount hashlock timelock : Z)
  | HTLCWithdraw (contractId preimage : Z)
  | HTLCRefund (contractId : Z).

Inductive Error :=
  | ContractNotFound (contractId : Z)
  | AlreadyWithdrawn (contractId : Z)
  | AlreadyRefunded (contractId : Z)
  | HashlockMismatch (contractId : Z)
  | PreimageIsZero
  | TimelockNotExpired (contractId : Z)
  | TimelockExpired (contractId : Z)
  | TimelockTooShort (provided minimum : Z)
  | ZeroReceiver
  | ZeroAmount
  | ContractIdCollision
  | TokenIsZero
  | ReentrantCall
  | ArithmeticPanic
  | TokenReverted.

(** The token's interface, on a token state [TS]; [None] is a revert. *)
Class IERC20 (TS : Type) := {
  balanceOf : TS → Z → Z;
  safeTransfer : TS → Z → Z → Z → option TS;             (* caller, to, amount *)
  safeTransferFrom : TS → Z → Z → Z → Z → option TS;     (* caller, from, to, amount *)
  permit : TS → Z → Z → Z → Z → Z * Z * Z → option TS    (* owner, spender, value, deadline, v r s *)
}.

(** ** Operations *)

Section contract.
Context {TS : Type} `{Tok : IERC20 TS}.
Context (keccak256 sha256 : list Z → Z).
Context (this : Z).

Record World := mkWorld { storage : Storage; token : TS; logs : list Event }.

Definition outcome (A : Type) : Type := A + Error.

Definition lookup_contract (s : Storage) (contractId : Z) : LockContract :=
  default zero_lock (contracts s !! contractId).

Definition be_bytes (n : nat) (x : Z) : list Z := reverse (le_bytes n x).

(** [keccak256(abi.encodePacked(sender, receiver, amount, hashlock, timelock, nonce))]. *)
Definition derive_id (sender receiver amount hashlock timelock nonce : Z) : Z :=
  keccak256 (be_bytes 20 sender ++ be_bytes 20 receiver ++ be_bytes 32 amount ++
             be_bytes 32 hashlock ++ be_bytes 32 timelock ++ be_bytes 32 nonce).

Definition checked_add (a b : Z) : option Z := if a + b <? 2 ^ 256 then Some (a + b) else None.

Definition set_contract (s : Storage) (contractId : Z) (c : LockContract) : Storage :=
  mkStorage (entered s) (nonces s) (<[contractId := c]> (contracts s)).

(** The constructor. *)
Definition construct (tokenAddress : Z) (ts : TS) : outcome World :=
  if tokenAddress =? 0 then inr TokenIsZero else inl (mkWorld (mkStorage false ∅ ∅) ts []).

Definition nonReentrant {A} (w : World) (body : World → outcome (World * A)) : outcome (World * A) :=
  let s := storage w in
  if entered s then inr ReentrantCall
  else match body (mkWorld (mkStorage true (nonces s) (contracts s)) (token w) (logs w)) with
       | inr e => inr e
       | inl (w', a) =>
           let s' := storage w' in
           inl (mkWorld (mkStorage false (nonces s') (contracts s')) (token w') (logs w'), a)
       end.

Definition _initiate (w : World) (timestamp sender receiver hashlock timelock amount : Z)
    : outcome (World * Z) :=
  let s := storage w in
  if receiver =? 0 then inr ZeroReceiver
  else if amount =? 0 then inr ZeroAmount
  else match checked_add timestamp MIN_LOCKTIME with
  | None => inr ArithmeticPanic
  | Some earliest =>
      if timelock <? earliest
      then inr (TimelockTooShort (if timestamp <? timelock then timelock - timestamp else 0)
                                 MIN_LOCKTIME)
      else
        let nonce := default 0 (nonces s !! sender) in
        match checked_add nonce 1 with
        | None => inr ArithmeticPanic
        | Some nonce' =>
            let contractId := derive_id sender receiver amount hashlock timelock nonce in
            if negb (lc_amount (lookup_contract s contractId) =? 0) then inr ContractIdCollision
            else
              let c := mkLock sender receiver amount hashlock timelock false false 0 in
              let s' := mkStorage (entered s) (<[sender := nonce']> (nonces s))
                                  (<[contractId := c]> (contracts s)) in
              match safeTransferFrom (token w) this sender this amount with
              | None => inr TokenReverted
              | Some ts' =>
                  inl (mkWorld s' ts' (logs w ++
                         [HTLCInitiate contractId sender receiver amount hashlock timelock]),
                       contractId)
              end
        end
  end.

Definition initiate (w : World) (msg_sender timestamp receiver hashlock timelock amount : Z)
    : outcome (World * Z) :=
  nonReentrant w (λ w, _initiate w timestamp msg_sender receiver hashlock timelock amount).

Definition initiateWithPermit (w : World)
    (msg_sender timestamp receiver hashlock timelock amount deadline : Z) (vrs : Z * Z * Z)
    : outcome (World * Z) :=
  nonReentrant w (λ w,
    match permit (token w) msg_sender this amount deadline vrs with
    | None => inr TokenReverted
    | Some ts' => _initiate (mkWorld (storage w) ts' (logs w)) timestamp msg_sender receiver
                            hashlock timelock amount
    end).

Definition withdraw (w : World) (timestamp contractId preimage : Z) : outcome (World * unit) :=
  nonReentrant w (λ w,
    let c := lookup_contract (storage w) contractId in
    if lc_amount c =? 0 then inr (ContractNotFound contractId)
    else if lc_withdrawn c then inr (AlreadyWithdrawn contractId)
    else if lc_refunded c then inr (AlreadyRefunded contractId)
    else if preimage =? 0 then inr PreimageIsZero
    else if lc_timelock c <=? timestamp then inr (TimelockExpired contractId)
    else if negb (lc_hashlock c =? sha256 (be_bytes 32 preimage))
    then inr (HashlockMismatch contractId)
    else
      let c' := mkLock (lc_sender c) (lc_receiver c) (lc_amount c) (lc_hashlock c)
                       (lc_timelock c) true (lc_refunded c) preimage in
      match safeTransfer (token w) this (lc_receiver c) (lc_amount c) with
      | None => inr TokenReverted
      | Some ts' => inl (mkWorld (set_contract (storage w) contractId c') ts'
                                 (logs w ++ [HTLCWithdraw contractId preimage]), tt)
      end).

Definition refund (w : World) (timestamp contractId : Z) : outcome (World * unit) :=
  nonReentrant w (λ w,
    let c := lookup_contract (storage w) contractId in
    if lc_amount c =? 0 then inr (ContractNotFound contractId)
    else if lc_withdrawn c then inr (AlreadyWithdrawn contractId)
    else if lc_refunded c then inr (AlreadyRefunded contractId)
    else if timestamp <? lc_timelock c then inr (TimelockNotExpired contractId)
    else
      let c' := mkLock (lc_sender c) (lc_receiver c) (lc_amount c) (lc_hashlock c)
                       (lc_timelock c) (lc_withdrawn c) true (lc_preimage c) in
      match safeTransfer (token w) this (lc_sender c) (lc_amount c) with
      | None => inr TokenReverted
      | Some ts' => inl (mkWorld (set_contract (storage w) contractId c') ts'
                                 (logs w ++ [HTLCRefund contractId]), tt)
      end).

Definition getContract (w : World) (contractId : Z) : LockContract :=
  lookup_contract (storage w) contractId.
End contract.

(** ** The escrowed total *)

(** What a record still holds. *)
Definition open_amount (c : LockContract) : Z :=
  if lc_withdrawn c || lc_refunded c then 0 else lc_amount c.

Definition escrow (m : gmap Z LockContract) : Z := map_fold (λ _ c acc, open_amount c + acc) 0 m.

Lemma escrow_insert m i c : m !! i = None → escrow (<[i := c]> m) = open_amount c + escrow m.
Proof.
  intros Hi. unfold escrow. rewrite map_fold_insert_L; [done| |done].
  intros j1 j2 c1 c2 acc _ _ _. lia.
Qed.

Lemma escrow_update m i c c' :
  m !! i = Some c → escrow (<[i := c']> m) = escrow m - open_amount c + open_amount c'.
Proof.
  intros Hi. rewrite <- (insert_delete_id m i c Hi) at 2.
  rewrite <- insert_delete_eq. rewrite !escrow_insert by apply lookup_delete_eq. lia.
Qed.

Lemma escrow_member m i c :
  (∀ j d, m !! j = Some d → 0 <= lc_amount d) → m !! i = Some c → open_amount c <= escrow m.
Proof.
  intros Hpos Hi. rewrite <- (insert_delete_id m i c Hi).
  rewrite escrow_insert by apply lookup_delete_eq.
  assert (Hnn : ∀ m' : gmap Z LockContract,
    (∀ j d, m' !! j = Some d → 0 <= lc_amount d) → 0 <= escrow m').
  { intros m'. induction m' as [|j d m' Hj IH] using map_ind; intros Hm; [done|].
    rewrite escrow_insert by done. assert (0 <= escrow m').
    { apply IH. intros k e Hk. apply (Hm k). rewrite lookup_insert_ne by congruence. done. }
    pose proof (Hm j d ltac:(by rewrite lookup_insert_eq)). unfold open_amount. case_match; lia. }
  specialize (Hnn (delete i m)). enough (0 <= escrow (delete i m)) by lia.
  apply Hnn. intros j d [_ Hj]%lookup_delete_Some. by eapply Hpos.
Qed.

(** ** What the contract relies on of the token *)

Class ERC20Ok (TS : Type) `{IERC20 TS} : Prop := {
  tok_transfer ts caller to a ts' x :
    safeTransfer ts caller to a = Some ts' →
    balanceOf ts' x = balanceOf ts x - (if x =? caller then a else 0) + (if x =? to then a else 0);
  tok_transferFrom ts caller from to a ts' x :
    safeTransferFrom ts caller from to a = Some ts' →
    balanceOf ts' x = balanceOf ts x - (if x =? from then a else 0) + (if x =? to then a else 0);
  tok_permit ts o s v d vrs ts' x :
    permit ts o s v d vrs = Some ts' → balanceOf ts' x = balanceOf ts x;
  tok_progress ts caller to a :
    0 <= a <= balanceOf ts caller → to ≠ 0 → is_Some (safeTransfer ts caller to a)
}.

Section properties.
Context {TS : Type} `{Tok : IERC20 TS} {HTok : ERC20Ok TS}.
Context (keccak256 sha256 : list Z → Z) (this : Z).

(** ** Transactions *)

(** The chain at a time: transactions with increasing timestamps, and anything else that
    happens to the token, which cannot spend the balance of a contract that grants no
    allowance.  The contract never calls itself. *)
Inductive htlc_step : Z * @World TS → Z * @World TS → Prop :=
  | step_tick t t' w : t <= t' → htlc_step (t, w) (t', w)
  | step_token t w ts' :
      balanceOf (token w) this <= balanceOf ts' this →
      htlc_step (t, w) (t, mkWorld (storage w) ts' (logs w))
  | step_initiate t w sender receiver hashlock timelock amount w' contractId :
      sender ≠ this → sender ≠ 0 → fits 256 amount →
      initiate keccak256 this w sender t receiver hashlock timelock amount = inl (w', contractId) →
      htlc_step (t, w) (t, w')
  | step_permit t w sender receiver hashlock timelock amount deadline vrs w' contractId :
      sender ≠ this → sender ≠ 0 → fits 256 amount →
      initiateWithPermit keccak256 this w sender t receiver hashlock timelock amount deadline vrs
        = inl (w', contractId) →
      htlc_step (t, w) (t, w')
  | step_withdraw t w contractId preimage w' :
      withdraw sha256 this w t contractId preimage = inl (w', tt) → htlc_step (t, w) (t, w')
  | step_refund t w contractId w' :
      refund this w t contractId = inl (w', tt) → htlc_step (t, w) (t, w').

(** A freshly deployed contract. *)
Definition deployed (tw : Z * @World TS) : Prop :=
  ∃ addr ts, construct addr ts = inl tw.2 ∧ 0 <= balanceOf ts this.

Definition htlc_reachable (tw : Z * @World TS) : Prop := ∃ tw0, deployed tw0 ∧ rtc htlc_step tw0 tw.

(** ** Invariant *)

Record lock_ok (c : LockContract) : Prop := {
  lk_amount : 0 < lc_amount c;
  lk_receiver : lc_receiver c ≠ 0;
  lk_sender : lc_sender c ≠ 0;
  lk_once : lc_withdrawn c && lc_refunded c = false;
  lk_secret : lc_withdrawn c = true →
              lc_preimage c ≠ 0 ∧ lc_hashlock c = sha256 (be_bytes 32 (lc_preimage c))
}.

Record htlc_inv (w : @World TS) : Prop := {
  hi_entered : entered (storage w) = false;
  hi_locks : map_Forall (λ _ c, lock_ok c) (contracts (storage w));
  hi_solvent : escrow (contracts (storage w)) <= balanceOf (token w) this
}.

(** A record with an amount is stored. *)
Lemma lookup_stored s i :
  lc_amount (lookup_contract s i) ≠ 0 → contracts s !! i = Some (lookup_contract s i).
Proof. unfold lookup_contract. by destruct (contracts s !! i). Qed.

(** What a successful initiation does. *)
Lemma initiate_effect w t sender receiver hashlock timelock amount w' i :
  _initiate keccak256 this w t sender receiver hashlock timelock amount = inl (w', i) →
  map_Forall (λ _ c, lock_ok c) (contracts (storage w)) →
  receiver ≠ 0 ∧ amount ≠ 0 ∧ t + MIN_LOCKTIME <= timelock ∧
  contracts (storage w) !! i = None ∧ entered (storage w') = entered (storage w) ∧
  contracts (storage w') = <[i := mkLock sender receiver amount hashlock timelock false false 0]>
                             (contracts (storage w)) ∧
  safeTransferFrom (token w) this sender this amount = Some (token w').
Proof.
  unfold _initiate, checked_add. intros E Hlocks.
  destruct (Z.eqb_spec receiver 0); [done|]. destruct (Z.eqb_spec amount 0); [done|].
  destruct (t + MIN_LOCKTIME <? 2 ^ 256); [|done].
  destruct (Z.ltb_spec timelock (t + MIN_LOCKTIME)); [done|].
  destruct (_ <? 2 ^ 256); [|done].
  set (j := derive_id _ _ _ _ _ _ _) in *.
  destruct (negb (lc_amount (lookup_contract (storage w) j) =? 0)) eqn:Ec; [done|].
  destruct (safeTransferFrom _ _ _ _ _) as [ts'|] eqn:Et; [|done].
  injection E as <- <-. simpl. breflect.
  assert (Hnone : contracts (storage w) !! j = None).
  { unfold lookup_contract in Ec. destruct (contracts (storage w) !! j) as [c|] eqn:Hc; [|done].
    pose proof (lk_amount _ (Hlocks j c Hc)). simpl in Ec. lia. }
  repeat (split; [done|]). done.
Qed.

Lemma nonReentrant_inv {A} (w : @World TS) body w' (a : A) :
  nonReentrant w body = inl (w', a) →
  ∃ w1, body (mkWorld (mkStorage true (nonces (storage w)) (contracts (storage w)))
                (token w) (logs w)) = inl (w1, a) ∧
    entered (storage w') = false ∧ contracts (storage w') = contracts (storage w1) ∧
    token w' = token w1 ∧ logs w' = logs w1.
Proof.
  unfold nonReentrant. destruct (entered (storage w)); [done|].
  destruct (body _) as [[w1 b]|e]; [|done]. intros [= <- <-]. by exists w1.
Qed.

Definition withdrawn_lock (c : LockContract) (preimage : Z) : LockContract :=
  mkLock (lc_sender c) (lc_receiver c) (lc_amount c) (lc_hashlock c) (lc_timelock c) true
         (lc_refunded c) preimage.

Definition refunded_lock (c : LockContract) : LockContract :=
  mkLock (lc_sender c) (lc_receiver c) (lc_amount c) (lc_hashlock c) (lc_timelock c)
         (lc_withdrawn c) true (lc_preimage c).

(** The conditions under which [withdraw] goes through, up to the transfer. *)
Definition can_withdraw (c : LockContract) (t preimage : Z) : Prop :=
  lc_withdrawn c = false ∧ lc_refunded c = false ∧ preimage ≠ 0 ∧ t < lc_timelock c ∧
  lc_hashlock c = sha256 (be_bytes 32 preimage).

Definition can_refund (c : LockContract) (t : Z) : Prop :=
  lc_withdrawn c = false ∧ lc_refunded c = false ∧ lc_timelock c <= t.

Lemma withdraw_effect w t i preimage w' :
  withdraw sha256 this w t i preimage = inl (w', tt) →
  ∃ c, contracts (storage w) !! i = Some c ∧ can_withdraw c t preimage ∧
    entered (storage w') = false ∧
    contracts (storage w') = <[i := withdrawn_lock c preimage]> (contracts (storage w)) ∧
    safeTransfer (token w) this (lc_receiver c) (lc_amount c) = Some (token w').
Proof.
  intros (w1 & E & He & Hc & Ht & _)%nonReentrant_inv. cbn [storage token logs] in E.
  set (s := mkStorage true (nonces (storage w)) (contracts (storage w))) in E.
  destruct (Z.eqb_spec (lc_amount (lookup_contract s i)) 0) as [|Ha]; [done|].
  exists (lookup_contract s i). split; [by apply (lookup_stored s)|].
  destruct (lc_withdrawn (lookup_contract s i)) eqn:Hw; [done|].
  destruct (lc_refunded (lookup_contract s i)) eqn:Hr; [done|].
  destruct (Z.eqb_spec preimage 0); [done|].
  destruct (Z.leb_spec (lc_timelock (lookup_contract s i)) t); [done|].
  destruct (Z.eqb_spec (lc_hashlock (lookup_contract s i)) (sha256 (be_bytes 32 preimage)));
    cbn [negb] in E; [|done].
  destruct (safeTransfer _ _ _ _) as [ts'|] eqn:Et; [|done].
  injection E as <-. cbn [storage contracts token set_contract] in *.
  split; [done|]. split; [done|]. split; [|by rewrite Ht].
  rewrite Hc. unfold withdrawn_lock. by rewrite Hr.
Qed.

Lemma refund_effect w t i w' :
  refund this w t i = inl (w', tt) →
  ∃ c, contracts (storage w) !! i = Some c ∧ can_refund c t ∧
    entered (storage w') = false ∧
    contracts (storage w') = <[i := refunded_lock c]> (contracts (storage w)) ∧
    safeTransfer (token w) this (lc_sender c) (lc_amount c) = Some (token w').
Proof.
  intros (w1 & E & He & Hc & Ht & _)%nonReentrant_inv. cbn [storage token logs] in E.
  set (s := mkStorage true (nonces (storage w)) (contracts (storage w))) in E.
  destruct (Z.eqb_spec (lc_amount (lookup_contract s i)) 0) as [|Ha]; [done|].
  exists (lookup_contract s i). split; [by apply (lookup_stored s)|].
  destruct (lc_withdrawn (lookup_contract s i)) eqn:Hw; [done|].
  destruct (lc_refunded (lookup_contract s i)) eqn:Hr; [done|].
  destruct (Z.ltb_spec t (lc_timelock (lookup_contract s i))); [done|].
  destruct (safeTransfer _ _ _ _) as [ts'|] eqn:Et; [|done].
  injection E as <-. cbn [storage contracts token set_contract] in *.
  split; [done|]. split; [done|]. split; [|by rewrite Ht].
  rewrite Hc. unfold refunded_lock. by rewrite Hw.
Qed.

(** Paying out an open record keeps the books. *)
Lemma payout_solvent w w' i c c' to :
  htlc_inv w → contracts (storage w) !! i = Some c → open_amount c = lc_amount c →
  open_amount c' = 0 → lock_ok c' → entered (storage w') = false →
  contracts (storage w') = <[i := c']> (contracts (storage w)) →
  safeTransfer (token w) this to (lc_amount c) = Some (token w') → htlc_inv w'.
Proof.
  intros [He Hl Hs] Hc Ho Ho' Hok He' Hc' Ht. pose proof (lk_amount _ (Hl i c Hc)) as Ha.
  split; [done| |].
  - rewrite Hc'. by apply map_Forall_insert_2.
  - rewrite Hc', (escrow_update _ _ _ _ Hc), Ho, Ho'.
    rewrite (tok_transfer _ _ _ _ _ this Ht), Z.eqb_refl. case_match; lia.
Qed.

(** Taking a deposit keeps the books. *)
Lemma deposit_solvent t ts w w' sender receiver hashlock timelock amount i w1 :
  htlc_inv w → sender ≠ this → sender ≠ 0 → fits 256 amount →
  balanceOf ts this = balanceOf (token w) this →
  _initiate keccak256 this
    (mkWorld (mkStorage true (nonces (storage w)) (contracts (storage w))) ts (logs w))
    t sender receiver hashlock timelock amount = inl (w1, i) →
  entered (storage w') = false → contracts (storage w') = contracts (storage w1) →
  token w' = token w1 → htlc_inv w'.
Proof.
  intros [He Hl Hs] Hsender Hnz Hamt Hts E He' Hc' Ht'.
  apply initiate_effect in E as (Hr & Ha & _ & Hnone & _ & Hc1 & Htr); [|done].
  cbn [storage contracts token] in *. unfold fits in Hamt. split; [done| |].
  - rewrite Hc', Hc1. apply map_Forall_insert_2; [|done]. split; simpl; [lia|done..].
  - rewrite Hc', Hc1, escrow_insert, Ht' by done.
    rewrite (tok_transferFrom _ _ _ _ _ _ this Htr), Z.eqb_refl, Hts.
    rewrite (proj2 (Z.eqb_neq this sender)) by congruence. unfold open_amount. simpl. lia.
Qed.

Lemma htlc_step_inv tw tw' : htlc_step tw tw' → htlc_inv tw.2 → htlc_inv tw'.2.
Proof.
  intros Hstep. destruct Hstep as [|t w ts' Hb
    |t w sender receiver hashlock timelock amount w' i H1 H2 H3 E
    |t w sender receiver hashlock timelock amount deadline vrs w' i H1 H2 H3 E
    |t w i preimage w' E|t w i w' E]; simpl; intros Hinv.
  - done.
  - destruct Hinv. split; [done..|]. simpl. lia.
  - apply nonReentrant_inv in E as (w1 & E & He & Hc & Ht & _).
    by eapply (deposit_solvent _ (token w)).
  - apply nonReentrant_inv in E as (w1 & E & He & Hc & Ht & _). cbn [token storage logs] in E.
    destruct (permit _ _ _ _ _ _) as [ts'|] eqn:Ep; [|done].
    eapply (deposit_solvent _ ts'); try done. by eapply tok_permit.
  - apply withdraw_effect in E as (c & Hc & (Hw & Hr & Hp & Htl & Hh) & He & Hc' & Ht).
    pose proof (hi_locks _ Hinv _ _ Hc) as Hok. simpl in Hok.
    apply (payout_solvent w w' i c (withdrawn_lock c preimage) (lc_receiver c)); try done.
    + unfold open_amount. by rewrite Hw, Hr.
    + destruct Hok. constructor; done.
  - apply refund_effect in E as (c & Hc & (Hw & Hr & Htl) & He & Hc' & Ht).
    pose proof (hi_locks _ Hinv _ _ Hc) as Hok. simpl in Hok.
    apply (payout_solvent w w' i c (refunded_lock c) (lc_sender c)); try done.
    + unfold open_amount. by rewrite Hw, Hr.
    + unfold open_amount. simpl. by rewrite orb_true_r.
    + destruct Hok. constructor; simpl; try done; by rewrite Hw.
Qed.

Lemma reachable_inv tw : htlc_reachable tw → htlc_inv tw.2.
Proof.
  intros (tw0 & (addr & ts & E & Hb) & Hsteps).
  assert (H0 : htlc_inv tw0.2).
  { unfold construct in E. destruct (addr =? 0); [done|]. injection E as E. rewrite <- E.
    split; simpl; [done|apply map_Forall_empty|done]. }
  clear E Hb. induction Hsteps as [|a b c Hab Hbc IH]; [done|]. apply IH.
  by eapply htlc_step_inv.
Qed.

(** ** Settlement *)

Lemma withdraw_succeeds w t i c preimage ts' :
  entered (storage w) = false → contracts (storage w) !! i = Some c → 0 < lc_amount c →
  can_withdraw c t preimage →
  safeTransfer (token w) this (lc_receiver c) (lc_amount c) = Some ts' →
  ∃ w', withdraw sha256 this w t i preimage = inl (w', tt) ∧ token w' = ts' ∧
        getContract w' i = withdrawn_lock c preimage.
Proof.
  intros He Hc Ha (Hw & Hr & Hp & Ht & Hh) Htr. unfold withdraw, nonReentrant. rewrite He.
  cbn [storage token logs]. unfold lookup_contract at 1 2 3 4 5. cbn [contracts]. rewrite Hc. simpl.
  rewrite (proj2 (Z.eqb_neq (lc_amount c) 0)), Hw, Hr, (proj2 (Z.eqb_neq preimage 0)) by (done || lia).
  rewrite (proj2 (Z.leb_gt (lc_timelock c) t)) by done. rewrite Hh, Z.eqb_refl. simpl.
  unfold lookup_contract. simpl. rewrite Hc. simpl. rewrite Htr.
  eexists. split; [done|]. split; [done|].
  unfold getContract, lookup_contract. simpl. rewrite lookup_insert_eq. simpl.
  unfold withdrawn_lock. by rewrite Hr, Hh.
Qed.

Lemma refund_succeeds w t i c ts' :
  entered (storage w) = false → contracts (storage w) !! i = Some c → 0 < lc_amount c →
  can_refund c t →
  safeTransfer (token w) this (lc_sender c) (lc_amount c) = Some ts' →
  ∃ w', refund this w t i = inl (w', tt) ∧ token w' = ts' ∧
        getContract w' i = refunded_lock c.
Proof.
  intros He Hc Ha (Hw & Hr & Ht) Htr. unfold refund, nonReentrant. rewrite He.
  cbn [storage token logs]. unfold lookup_contract. cbn [contracts]. rewrite Hc. simpl.
  rewrite (proj2 (Z.eqb_neq (lc_amount c) 0)), Hw, Hr by lia.
  rewrite (proj2 (Z.ltb_ge t (lc_timelock c))) by done. rewrite Htr.
  eexists. split; [done|]. split; [done|].
  unfold getContract, lookup_contract. simpl. rewrite lookup_insert_eq. simpl.
  unfold refunded_lock. by rewrite Hw.
Qed.

(** The terms of a record. *)
Definition terms (c : LockContract) : Z * Z * Z * Z * Z :=
  (lc_sender c, lc_receiver c, lc_amount c, lc_hashlock c, lc_timelock c).

Definition settled (c : LockContract) : bool := lc_withdrawn c || lc_refunded c.

(** One step keeps every record, its terms, and a settled record entirely. *)
Lemma htlc_step_records tw tw' i c :
  htlc_step tw tw' → htlc_inv tw.2 → contracts (storage tw.2) !! i = Some c →
  ∃ c', contracts (storage tw'.2) !! i = Some c' ∧ terms c' = terms c ∧
        (settled c = true → c' = c).
Proof.
  intros Hstep. destruct Hstep as [|t w ts' Hb
    |t w sender receiver hashlock timelock amount w' j H1 H2 H3 E
    |t w sender receiver hashlock timelock amount deadline vrs w' j H1 H2 H3 E
    |t w j preimage w' E|t w j w' E]; simpl; intros Hinv Hi.
  - by exists c.
  - by exists c.
  - apply nonReentrant_inv in E as (w1 & E & _ & Hc & _).
    apply initiate_effect in E as (_ & _ & _ & Hnone & _ & Hc1 & _); [|by apply Hinv].
    exists c. rewrite Hc, Hc1. cbn [storage contracts] in *.
    rewrite lookup_insert_ne by congruence. done.
  - apply nonReentrant_inv in E as (w1 & E & _ & Hc & _). cbn [token storage logs] in E.
    destruct (permit _ _ _ _ _ _) as [ts'|]; [|done].
    apply initiate_effect in E as (_ & _ & _ & Hnone & _ & Hc1 & _); [|by apply Hinv].
    exists c. rewrite Hc, Hc1. cbn [storage contracts] in *.
    rewrite lookup_insert_ne by congruence. done.
  - apply withdraw_effect in E as (d & Hd & (Hw & Hr & _) & _ & Hc' & _). rewrite Hc'.
    destruct (decide (i = j)) as [->|Hne]; [|rewrite lookup_insert_ne by done; by exists c].
    rewrite lookup_insert_eq. simplify_eq. eexists. split; [done|]. split; [done|].
    unfold settled. by rewrite Hw, Hr.
  - apply refund_effect in E as (d & Hd & (Hw & Hr & _) & _ & Hc' & _). rewrite Hc'.
    destruct (decide (i = j)) as [->|Hne]; [|rewrite lookup_insert_ne by done; by exists c].
    rewrite lookup_insert_eq. simplify_eq. eexists. split; [done|]. split; [done|].
    unfold settled. by rewrite Hw, Hr.
Qed.

(** ** Properties *)

(** C25. The contract stays solvent: after any sequence of transactions and token events
    the token balance covers the sum of all unsettled locks; every lock has a positive
    amount, is never both withdrawn and refunded, and a withdrawn lock stores a non-zero
    preimage of its hashlock. *)
Theorem htlc_solvent t w :
  htlc_reachable (t, w) →
  escrow (contracts (storage w)) <= balanceOf (token w) this ∧
  ∀ i c, contracts (storage w) !! i = Some c →
    0 < lc_amount c ∧ ¬ (lc_withdrawn c = true ∧ lc_refunded c = true) ∧
    (lc_withdrawn c = true →
       lc_preimage c ≠ 0 ∧ lc_hashlock c = sha256 (be_bytes 32 (lc_preimage c))).
Proof.
  intros [_ Hl Hs]%reachable_inv. split; [done|]. intros i c Hc.
  destruct (Hl i c Hc) as [H1 _ _ H4 H5]. split; [done|]. split; [|done].
  intros [Hw Hr]. by rewrite Hw, Hr in H4.
Qed.

(** Every open lock can be settled: before the timelock anyone who knows the preimage
    gets [withdraw] through and the receiver is paid the full amount; from the timelock
    on [refund] goes through and the sender is paid; at no time do both work. *)
Theorem htlc_progress t w i c :
  htlc_reachable (t, w) → contracts (storage w) !! i = Some c → settled c = false →
  (∀ preimage, can_withdraw c t preimage →
     refund this w t i = inr (TimelockNotExpired i) ∧
     ∃ w', withdraw sha256 this w t i preimage = inl (w', tt) ∧
       getContract w' i = withdrawn_lock c preimage ∧
       (lc_receiver c ≠ this →
        balanceOf (token w') (lc_receiver c) = balanceOf (token w) (lc_receiver c) + lc_amount c)) ∧
  (lc_timelock c <= t →
     (∀ preimage, preimage ≠ 0 → withdraw sha256 this w t i preimage = inr (TimelockExpired i)) ∧
     ∃ w', refund this w t i = inl (w', tt) ∧ getContract w' i = refunded_lock c ∧
       (lc_sender c ≠ this →
        balanceOf (token w') (lc_sender c) = balanceOf (token w) (lc_sender c) + lc_amount c)).
Proof.
  intros [He Hl Hs]%reachable_inv Hc Hset. simpl in *.
  apply orb_false_iff in Hset as [Hw Hr]. pose proof (Hl i c Hc) as [Ha Hrecv Hsend _ _].
  assert (Hbal : lc_amount c <= balanceOf (token w) this).
  { pose proof (escrow_member (contracts (storage w)) i c) as Hm.
    unfold open_amount in Hm. rewrite Hw, Hr in Hm. simpl in Hm. etrans; [apply Hm|done]; [|done].
    intros j d Hd. pose proof (lk_amount _ (Hl j d Hd)). lia. }
  split.
  - intros preimage Hcan. split.
    + destruct Hcan as (_ & _ & _ & Ht & _). unfold refund, nonReentrant. rewrite He.
      unfold lookup_contract. simpl. rewrite Hc. simpl.
      rewrite (proj2 (Z.eqb_neq (lc_amount c) 0)), Hw, Hr, (proj2 (Z.ltb_lt t (lc_timelock c)))
        by (done || lia). done.
    + destruct (tok_progress (token w) this (lc_receiver c) (lc_amount c)) as [ts' Hts]; [lia|done|].
      destruct (withdraw_succeeds w t i c preimage ts') as (w' & E & Ht & Hg); [done..|].
      exists w'. split; [done|]. split; [done|]. intros Hne. rewrite Ht.
      rewrite (tok_transfer _ _ _ _ _ (lc_receiver c) Hts), Z.eqb_refl.
      rewrite (proj2 (Z.eqb_neq (lc_receiver c) this)) by done. lia.
  - intros Ht. split.
    + intros preimage Hp. unfold withdraw, nonReentrant. rewrite He.
      unfold lookup_contract. simpl. rewrite Hc. simpl.
      rewrite (proj2 (Z.eqb_neq (lc_amount c) 0)), Hw, Hr, (proj2 (Z.eqb_neq preimage 0)),
        (proj2 (Z.leb_le (lc_timelock c) t)) by (done || lia). done.
    + destruct (tok_progress (token w) this (lc_sender c) (lc_amount c)) as [ts' Hts]; [lia|done|].
      destruct (refund_succeeds w t i c ts') as (w' & E & Htw & Hg); [done..|].
      exists w'. split; [done|]. split; [done|]. intros Hne. rewrite Htw.
      rewrite (tok_transfer _ _ _ _ _ (lc_sender c) Hts), Z.eqb_refl.
      rewrite (proj2 (Z.eqb_neq (lc_sender c) this)) by done. lia.
Qed.

(** Locks are final: over any continuation a lock keeps its sender, receiver,
    amount, hashlock and timelock, and once withdrawn or refunded it never changes
    again, so it is paid out at most once. *)
Theorem htlc_final tw tw' i c :
  htlc_reachable tw → rtc htlc_step tw tw' → contracts (storage tw.2) !! i = Some c →
  ∃ c', contracts (storage tw'.2) !! i = Some c' ∧ terms c' = terms c ∧
        (settled c = true → c' = c).
Proof.
  intros Hr Hsteps. revert c. induction Hsteps as [tw|tw tw1 tw2 H1 H2 IH]; intros c Hc.
  { by exists c. }
  destruct (htlc_step_records _ _ i c H1 (reachable_inv _ Hr) Hc) as (c1 & Hc1 & Ht1 & Hs1).
  destruct (IH) with (c := c1) as (c2 & Hc2 & Ht2 & Hs2); [|done|].
  { destruct Hr as (tw0 & Hd & Hst). exists tw0. split; [done|]. by eapply rtc_r. }
  exists c2. split; [done|]. split; [congruence|]. intros Hset.
  specialize (Hs1 Hset). subst c1. auto.
Qed.
End properties.

(** ** A concrete token and a concrete run *)

Abbreviation ledger := (gmap Z Z).

Definition ledger_move (ts : ledger) (from to a : Z) : ledger :=
  let ts1 := <[from := default 0 (ts !! from) - a]> ts in
  <[to := default 0 (ts1 !! to) + a]> ts1.

Definition ledger_transfer (ts : ledger) (from to a : Z) : option ledger :=
  if (to =? 0) || (a <? 0) || (default 0 (ts !! from) <? a) then None
  else Some (ledger_move ts from to a).

#[export] Instance ledger_token : IERC20 ledger := {
  balanceOf ts x := default 0 (ts !! x);
  safeTransfer := ledger_transfer;
  safeTransferFrom ts _ := ledger_transfer ts;
  permit ts _ _ _ _ _ := Some ts
}.

Lemma ledger_move_balance ts from to a x :
  default 0 (ledger_move ts from to a !! x) =
  default 0 (ts !! x) - (if x =? from then a else 0) + (if x =? to then a else 0).
Proof.
  unfold ledger_move. destruct (Z.eqb_spec x to) as [->|Hto].
  - rewrite lookup_insert_eq. simpl. destruct (Z.eqb_spec to from) as [->|Hf].
    + rewrite lookup_insert_eq. simpl. lia.
    + rewrite lookup_insert_ne by done. lia.
  - rewrite lookup_insert_ne by done. destruct (Z.eqb_spec x from) as [->|Hf].
    + rewrite lookup_insert_eq. simpl. lia.
    + rewrite lookup_insert_ne by done. lia.
Qed.

#[export] Instance ledger_ok : ERC20Ok ledger.
Proof.
  split.
  - intros ts caller to a ts' x. simpl. unfold ledger_transfer. case_match; [done|].
    intros [= <-]. apply ledger_move_balance.
  - intros ts caller from to a ts' x. simpl. unfold ledger_transfer. case_match; [done|].
    intros [= <-]. apply ledger_move_balance.
  - intros ts o s v d vrs ts' x. simpl. by intros [= <-].
  - intros ts caller to a. simpl. unfold ledger_transfer. intros Ha Hto.
    destruct (Z.eqb_spec to 0); [done|]. destruct (Z.ltb_spec a 0); [lia|].
    destruct (Z.ltb_spec (default 0 (ts !! caller)) a); [lia|]. simpl. eauto.
Qed.

(** The contract at address 99; the hashes are read off the bytes. *)
Definition toy_hash (bs : list Z) : Z := le_value bs.
Definition toy_start : @World ledger := mkWorld (mkStorage false ∅ ∅) {[7 := 100]} [].

(** Account 7 locks 60 for account 8 until time 5000. *)
Definition toy_run : outcome (@World ledger * Z) :=
  initiate toy_hash 99 toy_start 7 1000 8 (toy_hash (be_bytes 32 9)) 5000 60.

Definition toy_locked : @World ledger :=
  match toy_run with inl (w, _) => w | inr _ => toy_start end.

Definition toy_id : Z := match toy_run with inl (_, i) => i | inr _ => 0 end.

Lemma toy_run_ok : toy_run = inl (toy_locked, toy_id).
Proof.
  assert (Hok : (match toy_run with inl _ => true | inr _ => false end) = true)
    by (vm_compute; reflexivity).
  unfold toy_locked, toy_id. by destruct toy_run as [[w i]|e].
Qed.

Lemma toy_reachable : htlc_reachable toy_hash toy_hash 99 (1000, toy_locked).
Proof.
  exists (1000, toy_start). split.
  - exists 1, {[7 := 100]}. split; [reflexivity|]. vm_compute. discriminate.
  - apply rtc_once. apply (step_initiate toy_hash toy_hash 99 1000 toy_start 7 8
      (toy_hash (be_bytes 32 9)) 5000 60 toy_locked toy_id).
    + discriminate.
    + discriminate.
    + unfold fits. lia.
    + exact toy_run_ok.
Qed.

Definition toy_lock : LockContract := mkLock 7 8 60 (toy_hash (be_bytes 32 9)) 5000 false false 0.

Lemma htlc_solvent_witness :
  escrow (contracts (storage toy_locked)) = 60 ∧
  escrow (contracts (storage toy_locked)) <= balanceOf (token toy_locked) 99.
Proof.
  split; [vm_compute; reflexivity|].
  exact (proj1 (htlc_solvent toy_hash toy_hash 99 1000 toy_locked toy_reachable)).
Defined.

Lemma htlc_progress_witness :
  ∃ w', withdraw toy_hash 99 toy_locked 1000 toy_id 9 = inl (w', tt) ∧
        balanceOf (token w') 8 = 60.
Proof.
  assert (Hc : contracts (storage toy_locked) !! toy_id = Some toy_lock)
    by (vm_compute; reflexivity).
  destruct (htlc_progress toy_hash toy_hash 99 1000 toy_locked toy_id toy_lock
    toy_reachable Hc eq_refl) as [H _].
  destruct (H 9) as (_ & w' & E & _ & Hb).
  { repeat split; vm_compute; reflexivity || discriminate. }
  exists w'. split; [exact E|]. change 8 with (lc_receiver toy_lock).
  rewrite Hb; [vm_compute; reflexivity|discriminate].
Defined.

Lemma htlc_final_witness :
  ∃ c', contracts (storage toy_locked) !! toy_id = Some c' ∧ terms c' = terms toy_lock.
Proof.
  assert (Hc : contracts (storage (1000, toy_locked).2) !! toy_id = Some toy_lock)
    by (vm_compute; reflexivity).
  assert (Hs : rtc (htlc_step toy_hash toy_hash 99) (1000, toy_locked) (6000, toy_locked))
    by (apply rtc_once, step_tick; lia).
  destruct (htlc_final toy_hash toy_hash 99 _ _ toy_id toy_lock toy_reachable Hs Hc)
    as (c' & H1 & H2 & _). exists c'. split; [exact H1|exact H2].
Defined.
