(* ===== verification/Deploy.v ===== *)
(** * Deployment of the swap contract

    [main] of src/contrib/evm-htlc/scripts/deploy.js and the network table of
    hardhat.config.js.  The script is a straight line of awaited calls that may throw or
    never settle; it is modelled in an error monad that records what it does to the
    outside: the console lines, the question put to the operator, the deployment, the waits
    and the source verification.  What Hardhat, the chain and the operator answer is a
    record of arguments, [Hre]; nothing is assumed of it. *)

From Stdlib Require Import Ascii String.
From stdpp Require Import base numbers strings list option pretty.
From S2P Require Import Prelude.

Local Open Scope string_scope.
Local Open Scope list_scope.

(** ** hardhat.config.js *)

(** [process.env.X]: [None] is undefined. *)
Record Env := mkEnv {
  DEPLOYER_PRIVATE_KEY : option string;
  ETHERSCAN_API_KEY : option string;
  INFURA_PROJECT_ID : option string;
  USDC_TOKEN_ADDRESS : option string;
  REPORT_GAS : option string
}.

(** The operator [||] on strings: undefined and the empty string are falsy. *)
Definition truthy (s : option string) : option string :=
  match s with Some EmptyString | None => None | Some t => Some t end.

Definition or_else (s : option string) (d : string) : string := default d (truthy s).

Fixpoint repeat_string (s : string) (n : nat) : string :=
  match n with O => "" | S n' => s +:+ repeat_string s n' end.

Definition DEPLOYER_KEY (env : Env) : string :=
  or_else (DEPLOYER_PRIVATE_KEY env) ("0x" +:+ repeat_string "0" 64).
Definition ETHERSCAN_KEY (env : Env) : string := or_else (ETHERSCAN_API_KEY env) "".
Definition INFURA_KEY (env : Env) : string := or_else (INFURA_PROJECT_ID env) "".

Record Network := mkNetwork {
  net_url : option string;
  net_chainId : Z;
  net_accounts : option (list string);
  net_gasPrice : option string
}.

Record HardhatUserConfig := mkConfig {
  cfg_solidity_version : string;
  cfg_optimizer_enabled : bool;
  cfg_optimizer_runs : Z;
  cfg_viaIR : bool;
  cfg_networks : list (string * Network);
  cfg_etherscan_apiKey : string;
  cfg_gasReporter_enabled : bool;
  cfg_gasReporter_currency : string
}.

Definition config (env : Env) : HardhatUserConfig :=
  mkConfig "0.8.24" true 200 true
    [("hardhat", mkNetwork None 31337 None None);
     ("localhost", mkNetwork (Some "http://127.0.0.1:8545") 31337 None None);
     ("sepolia", mkNetwork (Some ("https://sepolia.infura.io/v3/" +:+ INFURA_KEY env)) 11155111
        (Some [DEPLOYER_KEY env]) (Some "auto"));
     ("mainnet", mkNetwork (Some ("https://mainnet.infura.io/v3/" +:+ INFURA_KEY env)) 1
        (Some [DEPLOYER_KEY env]) (Some "auto"))]
    (ETHERSCAN_KEY env)
    (match REPORT_GAS env with Some _ => true | None => false end) "USD".

(** ** deploy.js *)

Definition KNOWN_USDC (chainId : Z) : option string :=
  if (chainId =? 11155111)%Z then Some "0x1c7D4B196Cb0C7B01d743Fbc6116a902379C7238"
  else if (chainId =? 1)%Z then Some "0xA0b86991c6218b36c1d19D4a2e9Eb0cE3606eB48"
  else None.

(** What the script does to the outside, in order. *)
Inductive Effect :=
  | Log (line : string)
  | Warn (line : string)
  | ConsoleError (error : string)
  | Question
  | DeployContract (constructor_argument : string)
  | WaitConfirmations (n : Z)
  | VerifySource (address constructor_argument : string).

(** An awaited call: a value, the message of the error it throws, or a promise that never
    settles. *)
Inductive promise (A : Type) :=
  | Resolved (a : A)
  | Rejected (message : string)
  | Pending.
Arguments Resolved {_} _.
Arguments Rejected {_} _.
Arguments Pending {_}.

(** What the environment answers. *)
Record Hre := mkHre {
  network_name : string;
  network_chainId : option Z;                      (* network.config.chainId *)
  getSigners : promise (list string);              (* addresses *)
  getBalance : string → promise string;            (* already formatted *)
  question : promise (list Z);                     (* the line the operator types, in UTF-16;
                                                      [Pending] at the end of the input *)
  getContractFactory : promise unit;
  deploy : string → promise unit;
  waitForDeployment : promise unit;
  getAddress : promise string;
  read_TOKEN : promise string;
  read_MIN_LOCKTIME : promise Z;
  show_hours : Z → string;                         (* Number(n) / 3600, printed *)
  wait_tx : Z → promise string;                    (* the block number of the receipt *)
  run_verify : string → string → promise unit
}.

(** The script monad: the effects so far, and what has become of the script. *)
Definition script (A : Type) : Type := list Effect → list Effect * promise A.

#[export] Instance script_ret : MRet script := λ A a tr, (tr, Resolved a).
#[export] Instance script_bind : MBind script := λ A B f m tr,
  match m tr with
  | (tr', Resolved a) => f a tr'
  | (tr', Rejected e) => (tr', Rejected e)
  | (tr', Pending) => (tr', Pending)
  end.

Definition emit (e : Effect) : script unit := λ tr, (tr ++ [e], Resolved ()).
Definition await {A} (p : promise A) : script A := λ tr, (tr, p).
Definition throw {A} (msg : string) : script A := λ tr, (tr, Rejected msg).
Definition log (line : string) : script unit := emit (Log line).

(** [try { m } catch (e) { h(e.message) }] *)
Definition try_catch (m : script unit) (h : string → script unit) : script unit := λ tr,
  match m tr with
  | (tr', Rejected e) => h e tr'
  | r => r
  end.

(** [String.prototype.trim] on the code units of a string: white space and line
    terminators at both ends. *)
Definition is_space (c : Z) : bool :=
  ((9 <=? c) && (c <=? 13) || (c =? 0x20) || (c =? 0xa0) || (c =? 0x1680) ||
   (0x2000 <=? c) && (c <=? 0x200a) || (c =? 0x2028) || (c =? 0x2029) || (c =? 0x202f) ||
   (c =? 0x205f) || (c =? 0x3000) || (c =? 0xfeff))%Z.

Fixpoint trim_start (s : list Z) : list Z :=
  match s with
  | c :: s' => if is_space c then trim_start s' else s
  | [] => []
  end.

Definition trim (s : list Z) : list Z := reverse (trim_start (reverse (trim_start s))).

(** The string "YES". *)
Definition YES : list Z := [0x59; 0x45; 0x53]%Z.

Definition chain_is (h : Hre) (id : Z) : bool :=
  match network_chainId h with Some c => (c =? id)%Z | None => false end.

(** [process.env.USDC_TOKEN_ADDRESS || KNOWN_USDC[chainId] || throw] *)
Definition tokenAddress (env : Env) (h : Hre) : option string :=
  match truthy (USDC_TOKEN_ADDRESS env) with
  | Some t => Some t
  | None => network_chainId h ≫= KNOWN_USDC
  end.

Definition resolve_token (env : Env) (h : Hre) : script string :=
  match tokenAddress env h with
  | Some t => mret t
  | None => throw "USDC_TOKEN_ADDRESS not set and chainId not recognised"
  end.

(** The guard against an accidental deployment to the main network.  At the end of the
    input the question is closed without an answer and its promise never settles. *)
Definition mainnet_guard (h : Hre) : script unit :=
  if chain_is h 1 then
    emit Question ;;
    answer ← await (question h);
    if bool_decide (trim answer = YES) then mret ()
    else throw "Mainnet deployment aborted by user."
  else mret ().

(** A line feed, for the templates that hold one. *)
Definition nl : string := String (ascii_of_N 10) "".

Definition deploy_contract (h : Hre) (token : string) : script string :=
  log "Deploying QBTCUSDCHTLC..." ;;
  await (getContractFactory h) ;;
  emit (DeployContract token) ;;
  await (deploy h token) ;;
  await (waitForDeployment h) ;;
  address ← await (getAddress h);
  log (nl +:+ "✅ QBTCUSDCHTLC deployed at: " +:+ address) ;;
  t ← await (read_TOKEN h);
  log ("   Token (immutable)      : " +:+ t) ;;
  seconds ← await (read_MIN_LOCKTIME h);
  again ← await (read_MIN_LOCKTIME h);
  log ("   MIN_LOCKTIME           : " +:+ pretty seconds +:+ " seconds (" +:+
       show_hours h again +:+ " h)") ;;
  mret address.

Definition verify_source (env : Env) (h : Hre) (address token : string) : script unit :=
  match truthy (ETHERSCAN_API_KEY env) with
  | Some _ =>
      if chain_is h 31337 then mret ()
      else
        log (nl +:+ "Waiting 6 confirmations before verifying on Etherscan...") ;;
        emit (WaitConfirmations 6) ;;
        await (wait_tx h 6) ;;
        try_catch
          (emit (VerifySource address token) ;;
           await (run_verify h address token) ;;
           log "✅ Source verified on Etherscan.")
          (λ e, emit (Warn ("Etherscan verification: " +:+ e)))
  | None => mret ()
  end.

Definition summary (h : Hre) (address token deployer : string) : script unit :=
  block ← await (wait_tx h 1);
  log (nl +:+ "=== Deployment Summary ===" +:+ nl +:+
       "Network  : " +:+ network_name h +:+ nl +:+
       "Contract : " +:+ address +:+ nl +:+
       "Token    : " +:+ token +:+ nl +:+
       "Deployer : " +:+ deployer +:+ nl +:+
       "Block    : " +:+ block +:+ nl +:+ nl +:+
       "Update ATOMIC-SWAP-REPORT.md and SECURITY.md with the new contract address." +:+ nl +:+
       "Update the swap server environment variable HTLC_CONTRACT_ADDRESS." +:+ nl).

Definition show_chain (h : Hre) : string :=
  match network_chainId h with Some c => pretty c | None => "undefined" end.

Definition main (env : Env) (h : Hre) : script unit :=
  log (nl +:+ "=== QBTC USDC HTLC Deployment ===") ;;
  log ("Network : " +:+ network_name h +:+ " (chainId " +:+ show_chain h +:+ ")") ;;
  token ← resolve_token env h;
  log ("Token   : " +:+ token) ;;
  signers ← await (getSigners h);
  match signers with
  | [] => throw "Cannot read properties of undefined (reading 'address')"
  | deployer :: _ =>
      log ("Deployer: " +:+ deployer) ;;
      balance ← await (getBalance h deployer);
      log ("Balance : " +:+ balance +:+ " ETH" +:+ nl) ;;
      mainnet_guard h ;;
      address ← deploy_contract h token;
      verify_source env h address token ;;
      summary h address token deployer
  end.

(** What has become of the process. *)
Inductive Outcome := Finished | Failed | Abandoned.

#[export] Instance Outcome_eq_dec : EqDecision Outcome.
Proof. solve_decision. Defined.

(** [main().catch(...)]: the effects and the outcome. *)
Definition run (env : Env) (h : Hre) : list Effect * Outcome :=
  match main env h [] with
  | (tr, Resolved _) => (tr, Finished)
  | (tr, Rejected e) => (tr ++ [ConsoleError e], Failed)
  | (tr, Pending) => (tr, Abandoned)
  end.

(** The exit code, when the process ends: Node ends with [process.exitCode], which only the
    [catch] sets, as soon as nothing is left that could settle a promise. *)
Definition exit_code (o : Outcome) : Z := match o with Failed => 1 | _ => 0 end.

(** ** What the script guarantees *)

Definition deployments (tr : list Effect) : list string :=
  omap (λ e, match e with DeployContract t => Some t | _ => None end) tr.

Definition verifications (tr : list Effect) : list (string * string) :=
  omap (λ e, match e with VerifySource a t => Some (a, t) | _ => None end) tr.

(** The environment with another answer to the source verification. *)
Definition with_verify (h : Hre) (v : string → string → promise unit) : Hre :=
  mkHre (network_name h) (network_chainId h) (getSigners h) (getBalance h) (question h)
    (getContractFactory h) (deploy h) (waitForDeployment h) (getAddress h) (read_TOKEN h)
    (read_MIN_LOCKTIME h) (show_hours h) (wait_tx h) v.

(** Runs a script up to the answers of the environment, one answer at a time. *)
Ltac run_script :=
  cbv [mbind script_bind log emit await mret script_ret throw try_catch];
  repeat match goal with
  | |- context [match ?x with _ => _ end] =>
      lazymatch x with
      | context [match _ with _ => _ end] => fail
      | _ => destruct x eqn:?; try discriminate
      end
  end.

Lemma trim_start_split s : ∃ pre, s = pre ++ trim_start s ∧ Forall (λ c, is_space c = true) pre.
Proof.
  induction s as [|c s (pre & E & H)]; [by exists []|]. cbn [trim_start]. destruct (is_space c) eqn:Ec; [|by exists []].
  exists (c :: pre). split; [cbn; by rewrite <- E|by constructor].
Qed.

(** Only white space is dropped. *)
Lemma trim_split s : ∃ pre post, s = pre ++ trim s ++ post ∧
  Forall (λ c, is_space c = true) pre ∧ Forall (λ c, is_space c = true) post.
Proof.
  destruct (trim_start_split s) as (pre & E & H1), (trim_start_split (reverse (trim_start s))) as (post & E' & H2).
  exists pre, (reverse post). split; [|split; [done|by apply Forall_reverse]].
  unfold trim. rewrite <- reverse_app, <- E', reverse_involutive. exact E.
Qed.

(** The answer that the operator agrees. *)
Definition agreed (h : Hre) : Prop :=
  ∃ pre post, question h = Resolved (pre ++ YES ++ post) ∧
    Forall (λ c, is_space c = true) pre ∧ Forall (λ c, is_space c = true) post.

Lemma mainnet_guard_spec h tr :
  ∃ r, mainnet_guard h tr = (tr ++ (if chain_is h 1 then [Question] else []), r) ∧
    (r = Resolved () → chain_is h 1 = true → agreed h).
Proof.
  unfold mainnet_guard. run_script; rewrite ?app_nil_r; eexists; (split; [reflexivity|]); try done.
  intros _ _. match goal with H : bool_decide (trim ?l = YES) = true |- _ =>
    apply bool_decide_eq_true in H; destruct (trim_split l) as (pre & post & E & H1 & H2) end.
  exists pre, post. split; [congruence|done].
Qed.

Lemma deploy_contract_spec h token tr :
  ∃ effs r, deploy_contract h token tr = (tr ++ effs, r) ∧ verifications effs = [] ∧
    (deployments effs = [token] ∨ deployments effs = [] ∧ ∀ a, r ≠ Resolved a).
Proof.
  unfold deploy_contract. run_script; rewrite <- ?(assoc_L (++)); eexists _, _;
    (split; [reflexivity|split; [reflexivity|]]); first [by left|right; by eauto].
Qed.

Lemma verify_source_spec env h address token tr :
  ∃ effs r, verify_source env h address token tr = (tr ++ effs, r) ∧ deployments effs = [] ∧
    ∀ a t, (a, t) ∈ verifications effs →
      t = token ∧ chain_is h 31337 = false ∧ truthy (ETHERSCAN_API_KEY env) ≠ None.
Proof.
  unfold verify_source. run_script; rewrite <- ?(assoc_L (++)); eexists _, _.
  all: split; [first [reflexivity|by rewrite app_nil_r]|split; [reflexivity|]].
  all: intros ? ?; cbn; rewrite ?list_elem_of_singleton, ?elem_of_nil; naive_solver.
Qed.

Lemma summary_spec h address token deployer tr :
  ∃ effs r, summary h address token deployer tr = (tr ++ effs, r) ∧
    deployments effs = [] ∧ verifications effs = [].
Proof.
  unfold summary. run_script; eexists _, _; (split; [first [reflexivity|by rewrite app_nil_r]|done]).
Qed.

Lemma deployments_app l k : deployments (l ++ k) = deployments l ++ deployments k.
Proof. apply omap_app. Qed.

Lemma verifications_app l k : verifications (l ++ k) = verifications l ++ verifications k.
Proof. apply omap_app. Qed.

(** A run of [main]: nothing is deployed and it does not end well, or one contract is. *)
Definition guarded (env : Env) (h : Hre) (effs : list Effect) (r : promise unit) : Prop :=
  (deployments effs = [] ∧ verifications effs = [] ∧ r ≠ Resolved ()) ∨
  ∃ t, deployments effs = [t] ∧ tokenAddress env h = Some t ∧ (chain_is h 1 = true → agreed h) ∧
    ∀ a t', (a, t') ∈ verifications effs →
      t' = t ∧ chain_is h 31337 = false ∧ truthy (ETHERSCAN_API_KEY env) ≠ None.

(** The script stops in the deployment. *)
Lemma deploy_stopped env h t l e1 r :
  tokenAddress env h = Some t → (chain_is h 1 = true → agreed h) → deployments l = [] → verifications l = [] →
  verifications e1 = [] → deployments e1 = [t] ∨ deployments e1 = [] ∧ r ≠ Resolved () → guarded env h (l ++ e1) r.
Proof.
  intros Ht Hg Hl1 Hl2 Hv Hd. unfold guarded. rewrite deployments_app, verifications_app, Hl1, Hl2, Hv. simpl.
  destruct Hd as [->|[-> Hr]]; [right|by left]. exists t. split_and!; [done..|]. by intros a t' ?%elem_of_nil.
Qed.

Lemma main_guarded env h : guarded env h (main env h []).1 (main env h []).2.
Proof.
  unfold main, resolve_token. destruct (tokenAddress env h) as [t|] eqn:Ht; [|by left].
  cbv [mbind script_bind log emit await mret script_ret throw].
  destruct (getSigners h) as [[|d l]|e|]; [by left| |by left..].
  cbv beta iota. destruct (getBalance h d) as [bal|e|]; [|by left..].
  edestruct (mainnet_guard_spec h) as (r & -> & Hg).
  assert (Hq : ∀ b : bool, deployments (if b then [Question] else []) = [] ∧
    verifications (if b then [Question] else []) = []) by (by intros []).
  destruct (Hq (chain_is h 1)) as [Hq1 Hq2].
  destruct r as [[]|e|];
    [|left; cbn [fst snd]; rewrite !deployments_app, !verifications_app, Hq1, Hq2; done..].
  specialize (Hg eq_refl).
  edestruct (deploy_contract_spec h t) as (e1 & r1 & -> & Hv1 & Hd1).
  destruct r1 as [addr|e|];
    [|apply (deploy_stopped env h t); [done..|by rewrite !deployments_app, Hq1|by rewrite !verifications_app, Hq2|done|naive_solver]..].
  edestruct (verify_source_spec env h addr) as (e2 & r2 & -> & Hd2 & Hv2).
  right. exists t. destruct Hd1 as [Hd1|[_ Hd1]]; [|by destruct (Hd1 addr)].
  destruct r2 as [[]|e|]; [edestruct (summary_spec h addr) as (e3 & r3 & -> & Hd3 & Hv3)|..].
  all: cbn [fst snd]; rewrite !deployments_app, !verifications_app, ?Hq1, ?Hq2, ?Hd1, ?Hd2, ?Hd3, ?Hv1, ?Hv3;
    simpl; rewrite ?app_nil_r; by eauto.
Qed.

(** Whether a source verification succeeds does not change the outcome, as long as it ends. *)
Lemma verify_not_fatal env h v :
  (∀ a t, run_verify h a t ≠ Pending) → (∀ a t, v a t ≠ Pending) →
  (run env (with_verify h v)).2 = (run env h).2.
Proof.
  intros H1 H2. unfold run, main, resolve_token, mainnet_guard, deploy_contract, verify_source, summary.
  change (tokenAddress env (with_verify h v)) with (tokenAddress env h).
  change (chain_is (with_verify h v)) with (chain_is h).
  cbn [network_name network_chainId getSigners getBalance question getContractFactory deploy
    waitForDeployment getAddress read_TOKEN read_MIN_LOCKTIME wait_tx run_verify with_verify].
  run_script; first [reflexivity|by exfalso; eapply H1|by exfalso; eapply H2].
Qed.

(** C40. The deployment script deploys at most once, only the token it resolved (the
    environment variable, or the known address of the chain), and on the main network only
    after the operator typed YES, up to white space around it.  When it runs to its end it
    has deployed exactly once.  Its exit code does not tell: it is 1 only if an error was
    thrown, and 0 also when a promise never settles, as that of the prompt at the end of
    the input, after which nothing is deployed.  Sources are only verified for the deployed
    token, off the local chain and with an API key, and whether a
    verification that settles succeeds does not change the outcome. *)
Theorem deploy_guarded env h v :
  let '(effs, o) := run env h in
  (deployments effs = [] ∧ verifications effs = [] ∧ o ≠ Finished ∨
   ∃ t, deployments effs = [t] ∧ tokenAddress env h = Some t ∧ (chain_is h 1 = true → agreed h) ∧
     ∀ a t', (a, t') ∈ verifications effs →
       t' = t ∧ chain_is h 31337 = false ∧ truthy (ETHERSCAN_API_KEY env) ≠ None) ∧
  (exit_code o = 1%Z ↔ ∃ tr e, main env h [] = (tr, Rejected e)) ∧
  (chain_is h 1 = true → question h = Pending → deployments effs = []) ∧
  ((∀ a t, run_verify h a t ≠ Pending) → (∀ a t, v a t ≠ Pending) → (run env (with_verify h v)).2 = o).
Proof.
  pose proof (verify_not_fatal env h v) as Hv. destruct (run env h) as [effs o] eqn:E.
  pose proof (main_guarded env h) as Hm.
  assert (H : guarded env h effs (main env h []).2 ∧ (o = Finished ↔ (main env h []).2 = Resolved ()) ∧
    (exit_code o = 1%Z ↔ ∃ tr e, main env h [] = (tr, Rejected e))).
  { unfold run in E. destruct (main env h []) as [tr [[]|e|]]; simplify_eq; cbn [fst snd] in *;
      (split; [try done|split; [done|split; [by eauto|]]]); try (by intros (? & ? & [=])).
    unfold guarded in *. by rewrite deployments_app, verifications_app; simpl; rewrite !app_nil_r. }
  destruct H as (H & Ho & Hc). split_and!; [|done| |done].
  - destruct H as [(? & ? & ?)|H]; [left|by right]. by rewrite Ho.
  - intros Hch Hq. destruct H as [(? & _)|(t & _ & _ & Ha & _)]; [done|]. destruct (Ha Hch) as (? & ? & Hr & _). congruence.
Qed.

(** On the public networks of the configuration the token resolves without the variable. *)
Lemma public_networks_resolve env net h :
  net ∈ cfg_networks (config env) → is_Some (net_accounts net.2) →
  network_chainId h = Some (net_chainId net.2) → is_Some (tokenAddress env h).
Proof.
  intros Hin Hacc Hid. unfold tokenAddress. destruct (truthy _); [done|]. rewrite Hid.
  unfold config in Hin. cbn [cfg_networks] in Hin.
  repeat (apply elem_of_cons in Hin as [->|Hin]); [by destruct Hacc|by destruct Hacc|done|done|].
  by apply elem_of_nil in Hin.
Qed.

(** A main network on which everything works. *)
Definition example_hre (answer : promise (list Z)) : Hre :=
  mkHre "mainnet" (Some 1%Z) (Resolved ["0xabc"]) (λ _, Resolved "1.0") answer (Resolved ())
    (λ _, Resolved ()) (Resolved ()) (Resolved "0xdef") (Resolved "0xusdc") (Resolved 3600%Z) (λ _, "1")
    (λ _, Resolved "7") (λ _ _, Resolved ()).

Definition example_env : Env := mkEnv None None None None None.

(** "yes" is refused; YES is taken with a no-break space after it. *)
Lemma deploy_mainnet_example :
  run example_env (example_hre (Resolved [0x79; 0x65; 0x73]%Z))
  = ([Log (nl +:+ "=== QBTC USDC HTLC Deployment ==="); Log "Network : mainnet (chainId 1)";
      Log "Token   : 0xA0b86991c6218b36c1d19D4a2e9Eb0cE3606eB48"; Log "Deployer: 0xabc";
      Log ("Balance : 1.0 ETH" +:+ nl); Question;
      ConsoleError "Mainnet deployment aborted by user."], Failed) ∧
  (run example_env (example_hre (Resolved (YES ++ [0xa0%Z])))).2 = Finished.
Proof. vm_compute. split; reflexivity. Qed.

Lemma deploy_guarded_witness :
  deployments (run example_env (example_hre Pending)).1 = [] ∧
  exit_code (run example_env (example_hre Pending)).2 = 0%Z ∧
  (run example_env (with_verify (example_hre (Resolved YES)) (λ _ _, Rejected "no"))).2 = Finished.
Proof.
  split; [|split; [reflexivity|]].
  - pose proof (deploy_guarded example_env (example_hre Pending) (λ _ _, Resolved ())) as H.
    destruct (run example_env (example_hre Pending)) as [effs o]. destruct H as (_ & _ & H & _). by apply H.
  - pose proof (deploy_guarded example_env (example_hre (Resolved YES)) (λ _ _, Rejected "no")) as H.
    assert (E : (run example_env (example_hre (Resolved YES))).2 = Finished) by (vm_compute; reflexivity).
    destruct (run example_env (example_hre (Resolved YES))) as [effs o]. cbn in E. destruct H as (_ & _ & _ & H).
    rewrite H; [exact E|intros ? ?; discriminate..].
Defined.
